(* ===== verification/_CoqProject ===== *)
-Q . S2P
Prelude.v
TlsConstants.v
Errors.v
FlatBuffer.v
WsFrame.v
DynamicBuffer.v
WsReader.v
Async.v
Races.v
Stream.v
StreamWindow.v
PeerAddress.v
PeerMessages.v
PeerBody.v
Hosts.v
TlsCodec.v
TlsSchedule.v
TlsRecord.v
TlsContext.v
TlsHandshake.v
TlsServer.v
TlsFraming.v
Proxy.v
ProxyQueue.v
ProxyBacklog.v
ProxyBatch.v
HttpEnums.v
HttpFields.v
HttpHeader.v
HttpParse.v
HttpParser.v
HttpBodies.v
HttpSegmentation.v
HttpFraming.v
HttpSerializer.v
HttpRoundTrip.v
IoTransfer.v
Transport.v
P2psCipher.v
P2ps.v
P2psHandshake.v
P2psMessages.v
ZmtpCipher.v
ZmtpCurve.v
ZmtpCodec.v
ZmtpStream.v
ZmtpHandshake.v
ZmtpSocket.v
ConnectorSocks.v
Connector.v
SamText.v
SamLine.v
Acceptor.v
AcceptorWorlds.v
TlsStream.v
TlsStreamWorlds.v
IoStrand.v
IoScheduler.v
IoTimers.v
VersionHandshake.v
Channel.v
Session.v
RpcModel.v
RpcBody.v
RpcWriter.v
RpcDispatch.v
IoNative.v
IoBackend.v
IoSocket.v
