(* ===== verification/Prelude.v ===== *)
(** * A verification of libbitcoin-network

    libbitcoin-network is the peer-to-peer and client-server networking layer
    of a bitcoin node: an asynchronous C++ library in which a [session] makes
    [channel]s, a channel is a [proxy] over a [socket], and a socket runs one
    of several byte protocols (bitcoin p2p frames, websocket, http, json-rpc,
    zmtp, optionally inside of tls or bip324).  What is verified here is the part of it
    that the library itself decides: its parsers and serializers, the tls 1.3
    server, the queue of writes, the host pool, and the subscription and race
    primitives on which everything asynchronous is built.

    ** Conventions

    Definitions are translated from the source, keep its names, and evaluate.
    An unsigned integer of width [w] is a [Z] with its bounds ([in_width]) and
    its wrap-around ([narrow], [usub]) written out; a byte buffer is a
    [list Z].  A member function is a function of the state of its object,
    which is a record with the members of the class; an error is a
    value.  A loop of the code is [while] over one definition that is its
    body, with a measure of the state as its fuel, and [while_total] (or the
    lemma of the component named after it) shows that the measure suffices
    whatever the input.  Concurrency is explicit: what runs on one strand is
    a sequence of moves, each of which is a whole handler, and what several
    threads run is every interleaving of their atomic steps.

    ** The files, and what they model (file names below [src/])

    - [Prelude] has machine integers, big-endian and little-endian digits, bit
      operations, list lemmas, the hint databases, tactics, and [while].
    - [TlsConstants] and [Errors] are [include/../tls/constants.hpp],
      [include/../error.hpp] and [src/error.cpp]: codes are values with their
      category, and every translation into the network category is total,
      sound and where claimed one to one.
    - [FlatBuffer] is [src/messages/http/flat_buffer.cpp]; it refines a queue of
      bytes with a prepared area.  [DynamicBuffer] is the interface (a class
      with laws) that the websocket reader asks of its buffer, and the flat
      buffer is an instance.
    - [WsFrame] is [src/ws/frame.cpp] (headers, masks, close payloads, and the
      incremental utf8 validator, equal to rfc3629); [WsReader] is
      [src/ws/reader.cpp], the assembly of messages: its invariant, that it
      always returns, and that segmentation of the input does not matter.
    - [Async] has the three subscribers of [include/../impl/async], and [Races] the
      five races, [race_any] with the interleavings of its threads.
    - [Stream] has the byte reader and writer of libbitcoin-system as the
      messages use them, and [StreamWindow] a reader with a limit and a position, which
      the alert and reject messages ask for; [PeerAddress] is [src/messages/peer/detail/address_item.cpp];
      [PeerMessages] has the messages of the p2p protocol, each with its version
      range and limits, and their round trip; [PeerBody] is the framing of
      [src/messages/peer/body.cpp] and [src/net/socket_peer.cpp].
    - [Hosts] is [src/net/hosts.cpp], the pool of host addresses with its counts
      and reservations.
    - [TlsCodec], [TlsSchedule], [TlsRecord], [TlsContext], [TlsHandshake] and
      [TlsServer] are [src/tls/codec.cpp], [schedule.cpp], [record.cpp], [context.cpp]
      and [server.cpp]: [TlsHandshake] has the handshake messages and the state
      of the server, [TlsServer] the record layer and the interface.
      [TlsFraming] has the theorems on what the server writes.
    - [Proxy] is [src/net/proxy.cpp], [proxy_queue.cpp] and [proxy_actions.cpp];
      [ProxyQueue], [ProxyBacklog] and [ProxyBatch] have its theorems.
    - [HttpEnums], [HttpFields] and [HttpHeader] are [src/messages/http/enums],
      [fields.cpp] and [header.cpp]; [HttpParse] is [parser.cpp] (start lines,
      fields, chunk lines), [HttpParser] is [include/../impl/messages/http/parser.ipp]
      with the loop of [src/net/socket_http.cpp] that drives it and its reads into the
      flat buffer ([receive]), over any body that keeps the laws of [BodyLaws];
      [HttpBodies] has the bodies of [bodies.hpp], which keep them (the json and
      json-rpc readers give back what follows their document, and do not); [HttpSerializer] is [serializer.cpp],
      [serializer.ipp] and the write of [operations.ipp].  [HttpSegmentation],
      [HttpFraming] and [HttpRoundTrip] have the theorems on them.
    - [IoTransfer] is [include/../impl/io/operations.ipp], whole reads and writes
      over buffer sequences.  [Transport] is the interface of the streams that
      follow: a protocol gives, for the operation that completes, its next
      state and action, and a run completes the actions from the bytes of a
      peer, with any schedule of partial reads.
    - [P2psCipher] and [P2ps] are [src/p2ps/cipher.cpp] and [stream.cpp] (bip324)
      with the version 1 detection of [src/net/socket_connect.cpp];
      [P2psHandshake] and [P2psMessages] have their theorems.
    - [ZmtpCipher], [ZmtpCodec] and [ZmtpStream] are [src/zmtp/cipher.cpp], the
      codec of [stream.cpp] with [role.hpp] and [context.cpp], and the stream;
      [ZmtpSocket] is [src/net/socket_zmtp.cpp]; [ZmtpCurve] and [ZmtpHandshake]
      have the theorems on the mechanism and on the stream.
    - [ConnectorSocks] is [src/net/connector_socks.cpp].  [Connector] is
      [src/net/connector.cpp] over the race of [Races].  [SamText] and [SamLine] are
      the texts and the line protocol of [src/net/acceptor_sam.cpp], [Acceptor] is
      its state machine with that of [acceptor.cpp]; [AcceptorWorlds] has its theorems.
    - [TlsStream] is [src/tls/stream.cpp] with [include/../impl/tls/stream.ipp], over
      any server that keeps the laws of a class, which [TlsStreamWorlds] proves
      of [TlsServer], with the theorems on the stream in every world.
    - [IoStrand] and [IoScheduler] are [src/io/scheduler.cpp] with [context.cpp] and
      the wake-ups of [backend_posix.cpp]: strands and the scheduler as the steps of
      threads.  [IoTimers] is the timer thread of the same file, with
      [steady_timer.cpp] and [src/net/deadline.cpp].
    - [VersionHandshake] is [src/protocols/protocol_version_106.cpp] with its four
      derivations, and the dispatch of [src/channels/channel_peer.cpp] that it needs.
    - [Channel] is [src/channels/channel.cpp] with the read cycles of
      [channel_peer.cpp], [channel_http.cpp] and [channel_rpc.ipp]: the gate, the
      hold, the monitor and the timers.
    - [Session] is the sequence of a channel in [src/sessions/session.cpp],
      [session_peer.cpp] and [session_server.cpp], on two strands, with the nonces
      and counts of [src/net.cpp].
    - [RpcModel] is [src/messages/rpc/model.cpp] and [size.cpp], json-rpc messages and
      their json.  [RpcBody] is the reader of [body.cpp] over
      [include/../impl/messages/json_body.ipp], as the reader of
      [src/messages/http_body.cpp] selects it for a socket, with the loops of
      [src/net/socket_http.cpp], [socket_rpc.cpp] and [proxy_actions.cpp] that drive it;
      [RpcWriter] is its writer with the loop that sends.  [RpcDispatch] is
      [include/../impl/messages/rpc/dispatcher.ipp] with the method types it takes.
    - [IoNative] is [src/io/native.cpp] (errors, addresses, sockets made).
      [IoBackend] is the epoll branch of [src/io/backend_posix.cpp] with [backend.cpp]:
      descriptors, their queues and the threads that wait, as steps.  [IoSocket] is
      the starts, the blocking calls and the connect to a range of
      [src/io/socket.cpp].

    ** What the theorems show

    - Parsers: what is accepted is canonical ([parse_header_canonical]), reads
      back what was written (the round trips), and does not depend on how the
      bytes arrive ([feed_segmentation], [receive_segmentation]); every parser is
      total over all byte strings, malformed ones included.
    - Tls: a server that requires client certificates is not established
      unless the peer proved possession of the key of an acceptable
      certificate ([server_authenticates]); what the server seals is always a
      well-formed sequence of records ([output_framed]); what is written is
      what the peer opens, across key updates ([write_delivers]); no nonce
      repeats under one key ([tls_nonces_unique]).
    - Http, over the bodies that keep [BodyLaws]: a request that is accepted is delimited in one way
      ([http_framing_unambiguous]) and within its limits
      ([http_parse_limits]), whatever the pieces in which it arrives
      ([http_parse_segmentation], unless the buffer overflows first); a prepared message is read as it was written
      ([http_message_round_trip]); fields refine a map from names to values in
      their order ([fields_refine_groups]).
    - Json-rpc: a stream of messages and batches is read as it is framed, whatever the
      pieces in which it arrives ([rpc_stream_delivers]); batches are written as
      one array ([rpc_batch_written]), and notifications that are written are those that
      are read ([rpc_notifications_delivered], [rpc_request_round_trip]); a method is called
      with arguments of its types ([rpc_dispatch_typed]), in either grouping
      ([rpc_named_positional]).
    - Writes: the queue is a fifo with one write in flight
      ([write_queue_fifo]), every queued write completes unless the channel
      stops ([writes_complete]), the memory it retains is bounded
      ([backlog_bounded]), and json-rpc batches are never interleaved with
      notifications, a stop closing the one that is open ([batches_bracketed]).
    - Streams: over any bytes and any schedule of reads a handshake ends or
      waits ([zmtp_handshake_decides]), and with a
      conforming peer it completes ([p2ps_handshake_completes],
      [zmtp_curve_handshake]); reads refine the packets that
      the cipher opens ([p2ps_read_refines]); what is written is what the peer
      reads ([p2ps_message_round_trip], [zmtp_frames_delivered]), however its
      parts are shared ([zmtp_buffers_exact]); a curve client is accepted
      only when the bytes of its command open to the cookie that was made and to the
      vouch of its key ([curve_ready_authentic]); nothing is sent to a socks proxy before the
      reply that it depends on ([socks_ordered]).
    - Connections: however timers, resolvers and sockets complete, a handler is
      called once, with an open socket only upon success, and no open socket is lost
      ([connector_calls_once], [connector_completes], [acceptor_calls_once]).
    - The tls stream writes the output of its server in order and each record once, whatever
      the caller asks for between its tasks ([tls_stream_output_in_order], over a server
      that records what it produces), and strands no
      handler ([tls_stream_keeps_handlers]).
    - Subscribers refine maps from keys to handlers, deliver in order and
      once; races complete exactly once.
    - Threads: no two threads run handlers of one strand at once
      ([strand_exclusive]) and they begin in order ([strand_in_order]); no wake-up is
      lost ([scheduler_wakes]) and each posted handler runs once
      ([scheduler_runs_each]); each wait of a timer completes once, not before its time
      and not after the thread could ([timers_complete_once]).
    - Sockets: the operations of a side complete in their order, each once
      ([operations_in_order]), and edge triggered events lose no wake-up
      ([reactor_wakes]); a range is tried in turn ([range_connect_first]).
    - The handshake of peers calls its handler once, with success only upon a version
      that passed every check and its acknowledgement ([version_handshake_sound]), and
      ends ([version_handshake_ends]) with the gate held ([version_handshake_gate]).
    - Channels: messages are dispatched in turn and reading does not stall
      ([channel_reads_in_turn]), a peer is watched while its reader is unarmed
      ([channel_watches]), and the timers bound an idle channel
      ([channel_timers_bound]).
    - Sessions: of every channel that stops both handlers are called, once
      ([session_calls_once], [session_completes]); a session that stops takes all its
      channels along ([session_stops_channels]); the counts of the network are those of
      its active channels ([session_counts]), and that of a server may leak
      ([server_count_leaks]).
    - Hosts: the counts agree with the pool, reservations exclude, the pool
      stays within its capacity.

    ** Bounds

    The fuel of every loop is computed from its state: the unread length for
    the parsers of tls and of messages, the bytes not consumed for the
    websocket reader and the record loop, the length of the data for the
    sealing loop.  Each comes with a proof that the loop ends within it.
    Counters of 64 bits appear as hypotheses where their wrap-around would
    matter (record sequences), with witnesses.

    ** Assumptions

    Code outside of [src/] is a parameter.  The digests, the ciphers, the
    curves and the signatures of libbitcoin-system appear with the laws
    [DigestLaws] (the size of a digest), [AeadLaws] (opening inverts sealing, and
    the tag has its size) and [CurveLaws] (sizes); [bitcoin_hash] is a function.
    The key exchange and packet ciphers of bip324 appear with [P2psLaws], and
    x25519 and the box of curvezmq with the [CurveLaws] of [ZmtpCipher].
    The json library appears with the laws of its values, stream parser and serializer
    ([JsonLaws], [JsonParserLaws], [JsonSerializerLaws]), and the system calls of a
    socket with [SystemLaws] (a call that would block finds its socket unready).
    The text utilities of libbitcoin-system (split, decimal numbers) appear with
    [TextLaws].
    Each has an instance by concrete functions, with which the witnesses run.
    No law says that a cipher is secure.  The host file is its parsed lines, a
    shuffle is the order that it gives.

    ** Not modelled

    Resolvers, files, the options and endpoints of sockets, and the branches for
    systems other than linux ([src/io]), and text of any kind for humans
    ([src/log], messages of errors): operating system services.  Of [src/net/socket.cpp]
    only the loops of reads and writes are modelled, with the parsers that they drive:
    the rest posts to the strand and forwards to a stream.  Messages that carry chain
    objects (block, transaction, headers and the compact forms): the objects are of
    libbitcoin-system.  The http body in a file, media types and targets.
    Configuration: boost regular expressions.

    The loops of the sessions that accept and connect, the protocols other than
    the handshake, the http handshake of websockets, and the broadcaster of
    json-rpc: their state is that of what they compose. *)

From stdpp Require Export base list numbers option gmap strings.
From Stdlib Require Export ZArith Lia ZifyBool.

#[global] Open Scope Z_scope.

(** ** Machine integers and bytes

    Unsigned integers of the code are [Z] with their width written out; a byte
    buffer is a [list Z] whose elements satisfy [u8].  [narrow w v] is the
    static_cast of [v] to an unsigned integer of [w] bits (the narrowing and
    widening casts of the code are all static_casts). *)

Abbreviation bytes := (list Z).

Definition in_width (w v : Z) : Prop := 0 <= v < 2 ^ w.

Abbreviation u8 := (in_width 8).
Abbreviation u16 := (in_width 16).
Abbreviation u32 := (in_width 32).
Abbreviation u64 := (in_width 64).

Abbreviation bytes_ok := (Forall u8).

Definition narrow (w v : Z) : Z := v `mod` 2 ^ w.

(** The size of a buffer, and indexing, prefix and suffix by such sizes. *)
Definition len {A} (l : list A) : Z := Z.of_nat (length l).
Definition ztake {A} (n : Z) (l : list A) : list A := take (Z.to_nat n) l.
Definition zdrop {A} (n : Z) (l : list A) : list A := drop (Z.to_nat n) l.
Definition zget (l : bytes) (i : Z) : Z := nth (Z.to_nat i) l 0.

(** Size limits of the platform integers. *)
Definition max_uint8 : Z := 255.
Definition max_uint16 : Z := 65535.
Definition max_uint64 : Z := 2 ^ 64 - 1.
Definition max_size_t : Z := max_uint64.

(** Big-endian accumulation and digits: the meaning of the shift loops. *)
Definition be_value (l : bytes) : Z := fold_left (fun acc b => acc * 256 + b) l 0.

Fixpoint be_bytes (n : nat) (v : Z) : bytes :=
  match n with
  | O => []
  | S k => be_bytes k (v / 256) ++ [v `mod` 256]
  end.

(** The characters of a string literal, as bytes. *)
Definition chars (s : string) : bytes :=
  map (fun a => Z.of_N (Ascii.N_of_ascii a)) (String.list_ascii_of_string s).

(** ** Automation *)

Create HintDb net.
Create Rewrite HintDb net.

(** Split the booleans of conditionals, and the conjunctions of hypotheses. *)
Ltac split_if :=
  repeat match goal with
  | H : context [if ?b then _ else _] |- _ =>
      lazymatch type of b with bool => destruct b eqn:? end
  | |- context [if ?b then _ else _] =>
      lazymatch type of b with bool => destruct b eqn:? end
  end.

(** Decide the head conditional of the left side of the goal. *)
Ltac if_head := match goal with |- (if ?b then _ else _) = _ => destruct b eqn:? end.

(** Follow the guards of a hypothesis about the result of a sequence of early
    returns, closing the branches whose result contradicts it. *)
Ltac guards H :=
  repeat match type of H with
  | (if ?b then _ else _) = _ => destruct b eqn:?; [by simplify_eq |]
  end.

(** Arithmetic with the widths unfolded. *)
Ltac width :=
  unfold in_width, narrow, len, max_uint8, max_uint16, max_uint64, max_size_t in *;
  repeat match goal with
  | |- context [2 ^ ?w] => let v := eval vm_compute in (2 ^ w) in change (2 ^ w) with v
  | H : context [2 ^ ?w] |- _ =>
      let v := eval vm_compute in (2 ^ w) in change (2 ^ w) with v in H
  end; lia.

(** Invert equations of pairs, options and constructors, then close what is
    contradictory. *)
Ltac inv_eqs := repeat (simplify_eq/=; try done).

(** ** Lists *)

Lemma sum_list_app a b : sum_list (a ++ b) = (sum_list a + sum_list b)%nat.
Proof. induction a as [| n a IH]; cbn; [done | rewrite IH; lia]. Qed.

Section lists.
Context {A : Type}.
Implicit Types l k : list A.

Lemma len_nonneg l : 0 <= len l.
Proof. unfold len; lia. Qed.

Lemma len_nil : len (@nil A) = 0.
Proof. done. Qed.

Lemma len_cons x l : len (x :: l) = 1 + len l.
Proof. unfold len; simpl; lia. Qed.

Lemma len_app l k : len (l ++ k) = len l + len k.
Proof. unfold len; rewrite length_app; lia. Qed.

Lemma len_replicate n (x : A) : len (replicate n x) = Z.of_nat n.
Proof. unfold len. by rewrite length_replicate. Qed.

Lemma len_zero_nil l : len l = 0 -> l = [].
Proof. destruct l; [done | rewrite len_cons]. pose proof (len_nonneg l); lia. Qed.

Lemma len_ztake n l : 0 <= n -> len (ztake n l) = n `min` len l.
Proof. unfold len, ztake; rewrite length_take; lia. Qed.

Lemma len_zdrop n l : 0 <= n <= len l -> len (zdrop n l) = len l - n.
Proof. unfold len, zdrop; rewrite length_drop; lia. Qed.

Lemma ztake_zdrop n l : ztake n l ++ zdrop n l = l.
Proof. apply take_drop. Qed.

Lemma ztake_ge n l : len l <= n -> ztake n l = l.
Proof. intros; apply take_ge; unfold len in *; lia. Qed.

Lemma zdrop_ge n l : len l <= n -> zdrop n l = [].
Proof. intros; apply drop_ge; unfold len in *; lia. Qed.

Lemma zdrop_0 l : zdrop 0 l = l.
Proof. done. Qed.

Lemma ztake_0 l : ztake 0 l = [].
Proof. done. Qed.

Lemma zdrop_zdrop n m l : 0 <= n -> 0 <= m -> zdrop n (zdrop m l) = zdrop (m + n) l.
Proof. intros; unfold zdrop; rewrite drop_drop; f_equal; lia. Qed.

Lemma ztake_app_len l k n : n = len l -> ztake n (l ++ k) = l.
Proof. intros ->; unfold ztake, len; rewrite Nat2Z.id; apply take_app_length. Qed.

Lemma zdrop_app_len l k n : n = len l -> zdrop n (l ++ k) = k.
Proof. intros ->; unfold zdrop, len; rewrite Nat2Z.id; apply drop_app_length. Qed.

Lemma ztake_app_le n l k : n <= len l -> ztake n (l ++ k) = ztake n l.
Proof. intros; apply take_app_le; unfold len in *; lia. Qed.

Lemma zdrop_app_le n l k : n <= len l -> zdrop n (l ++ k) = zdrop n l ++ k.
Proof. intros; apply drop_app_le; unfold len in *; lia. Qed.

Lemma Forall_ztake P n l : Forall P l -> Forall P (ztake n l).
Proof. apply Forall_take. Qed.

Lemma Forall_zdrop P n l : Forall P l -> Forall P (zdrop n l).
Proof. apply Forall_drop. Qed.

Lemma app_eq_len l1 l2 k1 k2 :
  l1 ++ k1 = l2 ++ k2 -> len l1 = len l2 -> l1 = l2 /\ k1 = k2.
Proof. intros H Hl; apply app_inj_1; [unfold len in Hl; lia | done]. Qed.

End lists.

Arguments len_nil : clear implicits.

#[export] Hint Rewrite @len_nil @len_cons @len_app @zdrop_0 @ztake_0 : net.
#[export] Hint Resolve len_nonneg Forall_ztake Forall_zdrop : net.

Lemma zget_cons_0 b l : zget (b :: l) 0 = b.
Proof. done. Qed.

Lemma zget_cons_S b l i : 0 < i -> zget (b :: l) i = zget l (i - 1).
Proof.
  intros; unfold zget.
  replace (Z.to_nat i) with (S (Z.to_nat (i - 1))) by lia. done.
Qed.

Lemma zget_app_l l k i : i < len l -> 0 <= i -> zget (l ++ k) i = zget l i.
Proof. intros; unfold zget; apply app_nth1; unfold len in *; lia. Qed.

Lemma zget_app_r l k i : len l <= i -> zget (l ++ k) i = zget k (i - len l).
Proof.
  intros; unfold zget, len in *; rewrite app_nth2 by lia; f_equal; lia.
Qed.

Lemma zget_u8 l i : bytes_ok l -> u8 (zget l i).
Proof.
  intros Hl; unfold zget.
  destruct (nth_in_or_default (Z.to_nat i) l 0) as [Hin | ->]; [| width].
  rewrite Forall_forall in Hl; apply Hl, list_elem_of_In, Hin.
Qed.

#[export] Hint Resolve zget_u8 : net.

(** A buffer of at least two bytes is its first two bytes and the rest. *)
Lemma two_bytes l : 2 <= len l -> l = zget l 0 :: zget l 1 :: zdrop 2 l.
Proof.
  destruct l as [| a [| b l]]; rewrite ?len_cons, ?len_nil; try lia. done.
Qed.

(** Whether a concrete buffer holds bytes, by evaluation. *)
Definition is_bytes (l : bytes) : bool := forallb (fun b => (0 <=? b) && (b <? 256)) l.

Lemma is_bytes_ok l : is_bytes l = true -> bytes_ok l.
Proof.
  intros H. apply Forall_forall. intros b Hb. apply list_elem_of_In in Hb.
  eapply forallb_forall in H; [| done]. width.
Qed.

(** ** Bits of bytes, by exhaustion *)

Lemma u8_forall (P : Z -> bool) :
  forallb P (map Z.of_nat (seq 0 256)) = true -> forall b, u8 b -> P b = true.
Proof.
  intros H b Hb. rewrite forallb_forall in H. apply H.
  apply in_map_iff. exists (Z.to_nat b). split; [width |].
  apply in_seq. width.
Qed.

(** Solve a boolean statement about one byte by evaluating it on them all. *)
Ltac byte_cases b Hb :=
  revert b Hb; refine (u8_forall _ _); vm_compute; reflexivity.

Lemma lor_add a b n :
  0 <= n -> 0 <= b < 2 ^ n -> Z.lor (Z.shiftl a n) b = a * 2 ^ n + b.
Proof.
  intros Hn Hb. rewrite Z.shiftl_mul_pow2 by lia.
  destruct (decide (b = 0)) as [-> | Hb0]; [rewrite Z.lor_0_r; lia |].
  assert (Z.land (a * 2 ^ n) b = 0).
  { apply Z.bits_inj'; intros i Hi. rewrite Z.land_spec, Z.bits_0.
    destruct (decide (i < n)).
    - rewrite Z.mul_pow2_bits_low by lia. done.
    - rewrite andb_comm, (Z.bits_above_log2 b i); [done | lia |].
      apply Z.log2_lt_pow2; [lia |].
      apply Z.lt_le_trans with (2 ^ n); [lia | apply Z.pow_le_mono_r; lia]. }
  rewrite Z.add_nocarry_lxor, Z.lxor_lor; done.
Qed.

(** ** Big-endian numbers *)

Lemma be_value_fold acc l :
  fold_left (fun a b => a * 256 + b) l acc = acc * 256 ^ len l + be_value l.
Proof.
  revert acc. induction l as [| x l IH] using rev_ind; intros acc.
  - change (acc = acc * 256 ^ 0 + 0). lia.
  - unfold be_value in *. rewrite !fold_left_app; simpl. rewrite IH, len_app.
    pose proof (len_nonneg l).
    change (len [x]) with 1. rewrite Z.pow_add_r by lia. lia.
Qed.

Lemma be_value_app l k : be_value (l ++ k) = be_value l * 256 ^ len k + be_value k.
Proof. unfold be_value at 1. rewrite fold_left_app. apply be_value_fold. Qed.

Lemma be_value_bound l : bytes_ok l -> 0 <= be_value l < 256 ^ len l.
Proof.
  induction l as [| x l IH] using rev_ind; intros Hl.
  - change (0 <= 0 < 1). lia.
  - apply Forall_app in Hl as [Hl Hx]. rewrite Forall_singleton in Hx.
    specialize (IH Hl). rewrite be_value_app, len_app. change (len [x]) with 1.
    pose proof (len_nonneg l) as Hn. rewrite (Z.pow_add_r 256 (len l) 1); [| exact Hn | lia].
    change (be_value [x]) with x. unfold in_width in Hx. simpl in *. nia.
Qed.

Lemma length_be_bytes n v : length (be_bytes n v) = n.
Proof. revert v; induction n; intros; simpl; rewrite ?length_app, ?IHn; simpl; lia. Qed.

Lemma len_be_bytes n v : len (be_bytes n v) = Z.of_nat n.
Proof. unfold len; rewrite length_be_bytes; done. Qed.

Lemma be_bytes_ok n v : bytes_ok (be_bytes n v).
Proof.
  revert v; induction n; intros; simpl; [constructor |].
  apply Forall_app; split; [apply IHn |].
  apply Forall_singleton. pose proof (Z.mod_pos_bound v 256). unfold in_width; lia.
Qed.

Lemma be_value_bytes n v : 0 <= v < 256 ^ Z.of_nat n -> be_value (be_bytes n v) = v.
Proof.
  revert v; induction n as [| n IH]; intros v Hv; simpl.
  - unfold be_value; simpl; lia.
  - rewrite be_value_app, IH; [change (len [v `mod` 256]) with 1 |].
    + unfold be_value; simpl. pose proof (Z.div_mod v 256). lia.
    + rewrite Nat2Z.inj_succ, Z.pow_succ_r in Hv by lia.
      split; [apply Z.div_pos; lia | apply Z.div_lt_upper_bound; lia].
Qed.

Lemma be_bytes_value l : bytes_ok l -> be_bytes (length l) (be_value l) = l.
Proof.
  induction l as [| x l IH] using rev_ind; intros Hl; [done |].
  apply Forall_app in Hl as [Hl Hx]. rewrite Forall_singleton in Hx. specialize (IH Hl).
  rewrite length_app, Nat.add_comm; simpl.
  rewrite be_value_app. change (256 ^ len [x]) with 256. change (be_value [x]) with x.
  unfold in_width in Hx. simpl in Hx.
  rewrite Z.div_add_l, (Z.div_small x) by lia.
  rewrite Z.add_0_r, IH. f_equal. f_equal.
  rewrite Z.add_comm, Z_mod_plus_full. apply Z.mod_small; lia.
Qed.

Lemma be_value_inj l k :
  bytes_ok l -> bytes_ok k -> len l = len k -> be_value l = be_value k -> l = k.
Proof.
  intros Hl Hk Hlen Hv. rewrite <- (be_bytes_value l Hl), <- (be_bytes_value k Hk), Hv.
  f_equal. unfold len in Hlen. lia.
Qed.

#[export] Hint Rewrite len_be_bytes : net.
#[export] Hint Resolve be_bytes_ok : net.

(** ** Unsigned subtraction, and overwriting in place *)

(** The difference of two [size_t] (wraps below zero). *)
Definition usub (a b : Z) : Z := narrow 64 (a - b).

Lemma usub_le a b : 0 <= b <= a -> a < 2 ^ 64 -> usub a b = a - b.
Proof. intros; unfold usub, narrow. apply Z.mod_small. lia. Qed.

(** Copy [d] over the elements of [l] from index [i] on. *)
Definition overwrite {A} (i : Z) (d l : list A) : list A :=
  ztake i l ++ d ++ zdrop (i + len d) l.

Section overwrite.
Context {A : Type}.
Implicit Types l d : list A.

Lemma len_overwrite i d l :
  0 <= i -> i + len d <= len l -> len (overwrite i d l) = len l.
Proof.
  intros. unfold overwrite. pose proof (len_nonneg d). autorewrite with net.
  rewrite len_ztake, len_zdrop by lia. lia.
Qed.

Lemma ztake_overwrite i d l : 0 <= i <= len l -> ztake i (overwrite i d l) = ztake i l.
Proof. intros. apply ztake_app_len. rewrite len_ztake; lia. Qed.

Lemma ztake_overwrite_all i d l :
  0 <= i -> i + len d <= len l ->
  ztake (i + len d) (overwrite i d l) = ztake i l ++ d.
Proof.
  intros. unfold overwrite. rewrite app_assoc. apply ztake_app_len.
  pose proof (len_nonneg d). rewrite len_app, len_ztake; lia.
Qed.

Lemma zdrop_ztake n m l : 0 <= n -> zdrop n (ztake (n + m) l) = ztake m (zdrop n l).
Proof.
  intros. unfold zdrop, ztake. rewrite skipn_firstn_comm.
  destruct (decide (0 <= m)); [f_equal; lia |].
  replace (Z.to_nat (n + m) - Z.to_nat n)%nat with 0%nat by lia.
  by replace (Z.to_nat m) with 0%nat by lia.
Qed.

Lemma ztake_ztake n m l : ztake n (ztake m l) = ztake (n `min` m) l.
Proof. unfold ztake. rewrite take_take. f_equal. lia. Qed.

End overwrite.

(** ** Loops

    A loop of the code is the iteration of its body, which gives the next state
    or leaves with a result.  [while] supplies one step more than the measure
    of the state: when the body decreases the measure, that is enough, and the
    loop satisfies its own unfolding. *)

Section loops.
Context {S R : Type}.
Implicit Types (body : S -> S + R).

Fixpoint loop (fuel : nat) body (s : S) : option R :=
  match fuel with
  | O => None
  | Datatypes.S n => match body s with inl s' => loop n body s' | inr r => Some r end
  end.

Definition while (measure : S -> nat) body (s : S) : option R :=
  loop (Datatypes.S (measure s)) body s.

(** On the states that satisfy [I], the body keeps it and decreases the
    measure. *)
Definition decreases (I : S -> Prop) (measure : S -> nat) body : Prop :=
  forall s s', I s -> body s = inl s' -> I s' /\ (measure s' < measure s)%nat.

Lemma loop_more n m body s r : loop n body s = Some r -> (n <= m)%nat -> loop m body s = Some r.
Proof.
  revert m s. induction n as [| n IH]; intros m s H Hm; [done |].
  destruct m as [| m]; [lia |]. simpl in *. destruct (body s); [| done]. apply IH; [done | lia].
Qed.

Lemma loop_total n I measure body s : decreases I measure body -> I s -> (measure s < n)%nat ->
  is_Some (loop n body s).
Proof.
  intros Hd. revert s. induction n as [| n IH]; intros s Hs Hn; [lia |]. simpl.
  destruct (body s) as [s' |] eqn:Hb; [| done]. destruct (Hd _ _ Hs Hb). apply IH; [done | lia].
Qed.

Lemma while_total I measure body s : decreases I measure body -> I s -> is_Some (while measure body s).
Proof. intros Hd Hs. eapply loop_total; [done | done | lia]. Qed.

Lemma while_unfold I measure body s : decreases I measure body -> I s ->
  while measure body s = match body s with inl s' => while measure body s' | inr r => Some r end.
Proof.
  intros Hd Hs. unfold while at 1. simpl. destruct (body s) as [s' |] eqn:Hb; [| done].
  destruct (Hd _ _ Hs Hb) as [Hs' Hm].
  destruct (while_total I measure body s' Hd Hs') as [r Hr]. rewrite Hr.
  eapply loop_more; [exact Hr | lia].
Qed.

(** The invariant rule. *)
Lemma while_invariant measure body (I : S -> Prop) (Q : R -> Prop) s r :
  (forall s s', I s -> body s = inl s' -> I s') ->
  (forall s r, I s -> body s = inr r -> Q r) ->
  I s -> while measure body s = Some r -> Q r.
Proof.
  intros Hi Hq. unfold while. generalize (Datatypes.S (measure s)) as n. intros n. revert s.
  induction n as [| n IH]; intros s Hs H; [done |]. simpl in H.
  destruct (body s) as [s' | r'] eqn:Hb; simplify_eq; [eapply IH; [| done] |]; eauto.
Qed.
End loops.
