(* ===== verification/TlsConstants.v ===== *)
(** * TlsConstants: the wire values of the tls layer

    Models [include/bitcoin/network/tls/constants.hpp]. *)

From S2P Require Import Prelude.

Definition legacy_version : Z := 0x0303.
Definition version_13 : Z := 0x0304.
Definition record_header_size : Z := 5.
Definition maximum_plaintext : Z := 16384.
Definition maximum_ciphertext : Z := maximum_plaintext + 256.
Module content.

Definition change_cipher_spec : Z := 20.
Definition alert : Z := 21.
Definition handshake : Z := 22.
Definition application_data : Z := 23.

End content.

Module handshake.

Definition client_hello : Z := 1.
Definition server_hello : Z := 2.
Definition new_session_ticket : Z := 4.
Definition end_of_early_data : Z := 5.
Definition encrypted_extensions : Z := 8.
Definition certificate : Z := 11.
Definition certificate_request : Z := 13.
Definition certificate_verify : Z := 15.
Definition finished : Z := 20.
Definition key_update : Z := 24.
Definition message_hash : Z := 254.

End handshake.

Module extension.

Definition server_name : Z := 0.
Definition supported_groups : Z := 10.
Definition signature_algorithms : Z := 13.
Definition pre_shared_key : Z := 41.
Definition early_data : Z := 42.
Definition supported_versions : Z := 43.
Definition cookie : Z := 44.
Definition key_share : Z := 51.

End extension.

Module alert.

Definition close_notify : Z := 0.
Definition unexpected_message : Z := 10.
Definition bad_record_mac : Z := 20.
Definition record_overflow : Z := 22.
Definition handshake_failure : Z := 40.
Definition bad_certificate : Z := 42.
Definition unsupported_certificate : Z := 43.
Definition certificate_expired : Z := 45.
Definition certificate_unknown : Z := 46.
Definition illegal_parameter : Z := 47.
Definition unknown_ca : Z := 48.
Definition decode_error : Z := 50.
Definition decrypt_error : Z := 51.
Definition protocol_version : Z := 70.
Definition internal_error : Z := 80.
Definition user_canceled : Z := 90.
Definition missing_extension : Z := 109.
Definition certificate_required : Z := 116.

End alert.

Definition alert_warning : Z := 1.
Definition alert_fatal : Z := 2.
Definition aes_128_gcm_sha256 : Z := 0x1301.
Definition aes_256_gcm_sha384 : Z := 0x1302.
Definition chacha20_poly1305_sha256 : Z := 0x1303.
Definition secp256r1_group : Z := 0x0017.
Definition secp384r1_group : Z := 0x0018.
Definition x25519_group : Z := 0x001d.
Definition ecdsa_secp256r1_sha256 : Z := 0x0403.
Definition ecdsa_secp384r1_sha384 : Z := 0x0503.
