(* ===== verification/Errors.v ===== *)
(** * Errors: the codes of the network and the maps between categories

    Models [include/bitcoin/network/error.hpp] and [src/error.cpp].  A [code]
    is a [std::error_code]: a value in a category.  The network and http
    categories carry the enumerators of [error_t] and [http_error_t]; the json
    category carries the enumerators that the map of [src/error.cpp] names
    (their type is declared by the system library, any other value of it is
    [json_other]); every other category is a pair of numbers.  The maps to
    network codes are translated case by case. *)

From S2P Require Import Prelude.
From S2P Require Import TlsConstants.

Module error.

(** [enum error_t : uint8_t] of error.hpp, in its order. *)
Inductive error_t : Set :=
  | success | unknown | upgrade | upgraded | address_invalid
  | address_not_found | address_disabled | address_unsupported
  | address_insufficient | seeding_unsuccessful | seeding_complete
  | file_load | file_save | file_system | file_exception | bad_stream
  | not_allowed | peer_disconnect | peer_unsupported | peer_insufficient
  | peer_timestamp | protocol_violation | channel_overflow
  | channel_underflow | channel_backlog | message_dropped | listen_failed
  | accept_failed | oversubscribed | address_blocked | address_in_use
  | resolve_failed | connect_failed | net_unreachable | host_unreachable
  | connection_refused | invalid_heading | invalid_magic | oversized_payload
  | invalid_checksum | invalid_message | unknown_message
  | invalid_configuration | insufficient_buffer | operation_timeout
  | operation_canceled | operation_failed | channel_timeout
  | channel_conflict | channel_dropped | channel_expired | channel_inactive
  | channel_stopped | service_stopped | service_suspended | subscriber_exists
  | subscriber_stopped | desubscribed | socks_method | socks_username
  | socks_password | socks_host_name | socks_authentication | socks_failure
  | socks_disallowed | socks_net_unreachable | socks_host_unreachable
  | socks_connection_refused | socks_connection_expired
  | socks_unsupported_command | socks_unsupported_address
  | socks_unassigned_failure | socks_response_invalid | sam_response_invalid
  | sam_no_version | sam_cant_reach_peer | sam_duplicated_dest
  | sam_duplicated_id | sam_i2p_error | sam_invalid_id | sam_invalid_key
  | sam_key_not_found | sam_peer_not_found | sam_timeout
  | sam_unassigned_failure | tls_use_certificate | tls_use_private_key
  | tls_set_add_verify | tls_stream_truncated | tls_alert_unexpected_message
  | tls_alert_bad_record_mac | tls_alert_record_overflow
  | tls_alert_handshake_failure | tls_alert_bad_certificate
  | tls_alert_unsupported_certificate | tls_alert_certificate_expired
  | tls_alert_certificate_unknown | tls_alert_illegal_parameter
  | tls_alert_unknown_ca | tls_alert_decode_error | tls_alert_decrypt_error
  | tls_alert_protocol_version | tls_alert_internal_error
  | tls_alert_missing_extension | tls_alert_certificate_required
  | tls_alert_unknown | bad_request | unauthorized | forbidden | not_found
  | method_not_allowed | not_acceptable | internal_server_error
  | not_implemented | end_of_stream | partial_message | need_more
  | unexpected_body | need_buffer | end_of_chunk | buffer_overflow
  | header_limit | body_limit | bad_alloc | bad_line_ending | bad_method
  | bad_target | bad_version | bad_status | bad_reason | bad_field
  | bad_value | bad_content_length | bad_transfer_encoding | bad_chunk
  | bad_chunk_extension | bad_obs_fold | multiple_content_length
  | stale_parser | short_read | http_unknown | websocket_closed
  | websocket_buffer_overflow | partial_deflate_block | message_too_big
  | bad_http_version | websocket_bad_method | no_host | no_connection
  | no_connection_upgrade | no_upgrade | no_upgrade_websocket | no_sec_key
  | bad_sec_key | no_sec_version | bad_sec_version | no_sec_accept
  | bad_sec_accept | upgrade_declined | bad_opcode | bad_data_frame
  | bad_continuation | bad_reserved_bits | bad_control_fragment
  | bad_control_size | bad_unmasked_frame | bad_masked_frame | bad_size
  | bad_frame_payload | bad_close_code | bad_close_size | bad_close_payload
  | syntax | extra_data | incomplete | too_deep | invalid_escape
  | expected_hex_digit | expected_utf16_escape | illegal_leading_surrogate
  | illegal_trailing_surrogate | invalid_utf8 | exponent_overflow
  | number_too_large | string_too_large | key_too_large | array_too_large
  | object_too_large | not_null | not_bool | not_number | not_int64
  | not_uint64 | not_double | not_string | not_array | not_object | not_exact
  | out_of_range | size_mismatch | exhausted_variants | json_unknown
  | undefined_type | unexpected_method | unexpected_type | extra_positional
  | extra_named | missing_array | missing_object | missing_parameter
  | jsonrpc_invalid_version | jsonrpc_requires_method
  | jsonrpc_v1_requires_params | jsonrpc_v1_requires_array_params
  | jsonrpc_v1_requires_id | jsonrpc_params_not_collection
  | jsonrpc_reader_stall | jsonrpc_reader_exception
  | jsonrpc_writer_exception | jsonrpc_batch_empty | jsonrpc_batch_malformed
  | jsonrpc_batch_requires_v2 | jsonrpc_batch_unsupported
  | zmtp_unexpected_command | zmtp_unexpected_message | zmtp_excessive_parts
  | zmtp_unserializable | would_block.

(** The enumerator's value: its position in the enumeration. *)
Definition to_value (e : error_t) : Z :=
  match e with
  | success => 0 | unknown => 1 | upgrade => 2 | upgraded => 3
  | address_invalid => 4 | address_not_found => 5 | address_disabled => 6
  | address_unsupported => 7 | address_insufficient => 8
  | seeding_unsuccessful => 9 | seeding_complete => 10 | file_load => 11
  | file_save => 12 | file_system => 13 | file_exception => 14
  | bad_stream => 15 | not_allowed => 16 | peer_disconnect => 17
  | peer_unsupported => 18 | peer_insufficient => 19 | peer_timestamp => 20
  | protocol_violation => 21 | channel_overflow => 22
  | channel_underflow => 23 | channel_backlog => 24 | message_dropped => 25
  | listen_failed => 26 | accept_failed => 27 | oversubscribed => 28
  | address_blocked => 29 | address_in_use => 30 | resolve_failed => 31
  | connect_failed => 32 | net_unreachable => 33 | host_unreachable => 34
  | connection_refused => 35 | invalid_heading => 36 | invalid_magic => 37
  | oversized_payload => 38 | invalid_checksum => 39 | invalid_message => 40
  | unknown_message => 41 | invalid_configuration => 42
  | insufficient_buffer => 43 | operation_timeout => 44
  | operation_canceled => 45 | operation_failed => 46 | channel_timeout => 47
  | channel_conflict => 48 | channel_dropped => 49 | channel_expired => 50
  | channel_inactive => 51 | channel_stopped => 52 | service_stopped => 53
  | service_suspended => 54 | subscriber_exists => 55
  | subscriber_stopped => 56 | desubscribed => 57 | socks_method => 58
  | socks_username => 59 | socks_password => 60 | socks_host_name => 61
  | socks_authentication => 62 | socks_failure => 63 | socks_disallowed => 64
  | socks_net_unreachable => 65 | socks_host_unreachable => 66
  | socks_connection_refused => 67 | socks_connection_expired => 68
  | socks_unsupported_command => 69 | socks_unsupported_address => 70
  | socks_unassigned_failure => 71 | socks_response_invalid => 72
  | sam_response_invalid => 73 | sam_no_version => 74
  | sam_cant_reach_peer => 75 | sam_duplicated_dest => 76
  | sam_duplicated_id => 77 | sam_i2p_error => 78 | sam_invalid_id => 79
  | sam_invalid_key => 80 | sam_key_not_found => 81
  | sam_peer_not_found => 82 | sam_timeout => 83
  | sam_unassigned_failure => 84 | tls_use_certificate => 85
  | tls_use_private_key => 86 | tls_set_add_verify => 87
  | tls_stream_truncated => 88 | tls_alert_unexpected_message => 89
  | tls_alert_bad_record_mac => 90 | tls_alert_record_overflow => 91
  | tls_alert_handshake_failure => 92 | tls_alert_bad_certificate => 93
  | tls_alert_unsupported_certificate => 94
  | tls_alert_certificate_expired => 95 | tls_alert_certificate_unknown => 96
  | tls_alert_illegal_parameter => 97 | tls_alert_unknown_ca => 98
  | tls_alert_decode_error => 99 | tls_alert_decrypt_error => 100
  | tls_alert_protocol_version => 101 | tls_alert_internal_error => 102
  | tls_alert_missing_extension => 103
  | tls_alert_certificate_required => 104 | tls_alert_unknown => 105
  | bad_request => 106 | unauthorized => 107 | forbidden => 108
  | not_found => 109 | method_not_allowed => 110 | not_acceptable => 111
  | internal_server_error => 112 | not_implemented => 113
  | end_of_stream => 114 | partial_message => 115 | need_more => 116
  | unexpected_body => 117 | need_buffer => 118 | end_of_chunk => 119
  | buffer_overflow => 120 | header_limit => 121 | body_limit => 122
  | bad_alloc => 123 | bad_line_ending => 124 | bad_method => 125
  | bad_target => 126 | bad_version => 127 | bad_status => 128
  | bad_reason => 129 | bad_field => 130 | bad_value => 131
  | bad_content_length => 132 | bad_transfer_encoding => 133
  | bad_chunk => 134 | bad_chunk_extension => 135 | bad_obs_fold => 136
  | multiple_content_length => 137 | stale_parser => 138 | short_read => 139
  | http_unknown => 140 | websocket_closed => 141
  | websocket_buffer_overflow => 142 | partial_deflate_block => 143
  | message_too_big => 144 | bad_http_version => 145
  | websocket_bad_method => 146 | no_host => 147 | no_connection => 148
  | no_connection_upgrade => 149 | no_upgrade => 150
  | no_upgrade_websocket => 151 | no_sec_key => 152 | bad_sec_key => 153
  | no_sec_version => 154 | bad_sec_version => 155 | no_sec_accept => 156
  | bad_sec_accept => 157 | upgrade_declined => 158 | bad_opcode => 159
  | bad_data_frame => 160 | bad_continuation => 161
  | bad_reserved_bits => 162 | bad_control_fragment => 163
  | bad_control_size => 164 | bad_unmasked_frame => 165
  | bad_masked_frame => 166 | bad_size => 167 | bad_frame_payload => 168
  | bad_close_code => 169 | bad_close_size => 170 | bad_close_payload => 171
  | syntax => 172 | extra_data => 173 | incomplete => 174 | too_deep => 175
  | invalid_escape => 176 | expected_hex_digit => 177
  | expected_utf16_escape => 178 | illegal_leading_surrogate => 179
  | illegal_trailing_surrogate => 180 | invalid_utf8 => 181
  | exponent_overflow => 182 | number_too_large => 183
  | string_too_large => 184 | key_too_large => 185 | array_too_large => 186
  | object_too_large => 187 | not_null => 188 | not_bool => 189
  | not_number => 190 | not_int64 => 191 | not_uint64 => 192
  | not_double => 193 | not_string => 194 | not_array => 195
  | not_object => 196 | not_exact => 197 | out_of_range => 198
  | size_mismatch => 199 | exhausted_variants => 200 | json_unknown => 201
  | undefined_type => 202 | unexpected_method => 203 | unexpected_type => 204
  | extra_positional => 205 | extra_named => 206 | missing_array => 207
  | missing_object => 208 | missing_parameter => 209
  | jsonrpc_invalid_version => 210 | jsonrpc_requires_method => 211
  | jsonrpc_v1_requires_params => 212
  | jsonrpc_v1_requires_array_params => 213 | jsonrpc_v1_requires_id => 214
  | jsonrpc_params_not_collection => 215 | jsonrpc_reader_stall => 216
  | jsonrpc_reader_exception => 217 | jsonrpc_writer_exception => 218
  | jsonrpc_batch_empty => 219 | jsonrpc_batch_malformed => 220
  | jsonrpc_batch_requires_v2 => 221 | jsonrpc_batch_unsupported => 222
  | zmtp_unexpected_command => 223 | zmtp_unexpected_message => 224
  | zmtp_excessive_parts => 225 | zmtp_unserializable => 226
  | would_block => 227
  end.

(** The enumerators in order. *)
Definition enumerators : list error_t :=
  [ success; unknown; upgrade; upgraded; address_invalid; address_not_found;
    address_disabled; address_unsupported; address_insufficient;
    seeding_unsuccessful; seeding_complete; file_load; file_save;
    file_system; file_exception; bad_stream; not_allowed; peer_disconnect;
    peer_unsupported; peer_insufficient; peer_timestamp; protocol_violation;
    channel_overflow; channel_underflow; channel_backlog; message_dropped;
    listen_failed; accept_failed; oversubscribed; address_blocked;
    address_in_use; resolve_failed; connect_failed; net_unreachable;
    host_unreachable; connection_refused; invalid_heading; invalid_magic;
    oversized_payload; invalid_checksum; invalid_message; unknown_message;
    invalid_configuration; insufficient_buffer; operation_timeout;
    operation_canceled; operation_failed; channel_timeout; channel_conflict;
    channel_dropped; channel_expired; channel_inactive; channel_stopped;
    service_stopped; service_suspended; subscriber_exists;
    subscriber_stopped; desubscribed; socks_method; socks_username;
    socks_password; socks_host_name; socks_authentication; socks_failure;
    socks_disallowed; socks_net_unreachable; socks_host_unreachable;
    socks_connection_refused; socks_connection_expired;
    socks_unsupported_command; socks_unsupported_address;
    socks_unassigned_failure; socks_response_invalid; sam_response_invalid;
    sam_no_version; sam_cant_reach_peer; sam_duplicated_dest;
    sam_duplicated_id; sam_i2p_error; sam_invalid_id; sam_invalid_key;
    sam_key_not_found; sam_peer_not_found; sam_timeout;
    sam_unassigned_failure; tls_use_certificate; tls_use_private_key;
    tls_set_add_verify; tls_stream_truncated; tls_alert_unexpected_message;
    tls_alert_bad_record_mac; tls_alert_record_overflow;
    tls_alert_handshake_failure; tls_alert_bad_certificate;
    tls_alert_unsupported_certificate; tls_alert_certificate_expired;
    tls_alert_certificate_unknown; tls_alert_illegal_parameter;
    tls_alert_unknown_ca; tls_alert_decode_error; tls_alert_decrypt_error;
    tls_alert_protocol_version; tls_alert_internal_error;
    tls_alert_missing_extension; tls_alert_certificate_required;
    tls_alert_unknown; bad_request; unauthorized; forbidden; not_found;
    method_not_allowed; not_acceptable; internal_server_error;
    not_implemented; end_of_stream; partial_message; need_more;
    unexpected_body; need_buffer; end_of_chunk; buffer_overflow;
    header_limit; body_limit; bad_alloc; bad_line_ending; bad_method;
    bad_target; bad_version; bad_status; bad_reason; bad_field; bad_value;
    bad_content_length; bad_transfer_encoding; bad_chunk;
    bad_chunk_extension; bad_obs_fold; multiple_content_length; stale_parser;
    short_read; http_unknown; websocket_closed; websocket_buffer_overflow;
    partial_deflate_block; message_too_big; bad_http_version;
    websocket_bad_method; no_host; no_connection; no_connection_upgrade;
    no_upgrade; no_upgrade_websocket; no_sec_key; bad_sec_key;
    no_sec_version; bad_sec_version; no_sec_accept; bad_sec_accept;
    upgrade_declined; bad_opcode; bad_data_frame; bad_continuation;
    bad_reserved_bits; bad_control_fragment; bad_control_size;
    bad_unmasked_frame; bad_masked_frame; bad_size; bad_frame_payload;
    bad_close_code; bad_close_size; bad_close_payload; syntax; extra_data;
    incomplete; too_deep; invalid_escape; expected_hex_digit;
    expected_utf16_escape; illegal_leading_surrogate;
    illegal_trailing_surrogate; invalid_utf8; exponent_overflow;
    number_too_large; string_too_large; key_too_large; array_too_large;
    object_too_large; not_null; not_bool; not_number; not_int64; not_uint64;
    not_double; not_string; not_array; not_object; not_exact; out_of_range;
    size_mismatch; exhausted_variants; json_unknown; undefined_type;
    unexpected_method; unexpected_type; extra_positional; extra_named;
    missing_array; missing_object; missing_parameter;
    jsonrpc_invalid_version; jsonrpc_requires_method;
    jsonrpc_v1_requires_params; jsonrpc_v1_requires_array_params;
    jsonrpc_v1_requires_id; jsonrpc_params_not_collection;
    jsonrpc_reader_stall; jsonrpc_reader_exception; jsonrpc_writer_exception;
    jsonrpc_batch_empty; jsonrpc_batch_malformed; jsonrpc_batch_requires_v2;
    jsonrpc_batch_unsupported; zmtp_unexpected_command;
    zmtp_unexpected_message; zmtp_excessive_parts; zmtp_unserializable;
    would_block ].

Lemma enumerators_to_value e : enumerators !! Z.to_nat (to_value e) = Some e.
Proof. destruct e; reflexivity. Qed.

#[global] Instance to_value_inj : Inj (=) (=) to_value.
Proof.
  intros a b H. pose proof (enumerators_to_value a) as Ha.
  rewrite H, enumerators_to_value in Ha. congruence.
Qed.

#[global] Instance error_t_eq_dec : EqDecision error_t.
Proof.
  intros a b. destruct (decide (to_value a = to_value b)) as [H | H].
  - left. by apply to_value_inj.
  - right. congruence.
Defined.

End error.

Module http_error.

(** [enum class http_error_t] of error.hpp; [http_other] is any other value of
    its underlying type. *)
Inductive http_error_t : Set :=
  | end_of_stream | partial_message | need_more | unexpected_body
  | need_buffer | end_of_chunk | buffer_overflow | header_limit | body_limit
  | bad_alloc | bad_line_ending | bad_method | bad_target | bad_version
  | bad_status | bad_reason | bad_field | bad_value | bad_content_length
  | bad_transfer_encoding | bad_chunk | bad_chunk_extension | bad_obs_fold
  | multiple_content_length | stale_parser | short_read
  | http_other (value : Z).

#[global] Instance http_error_t_eq_dec : EqDecision http_error_t.
Proof. solve_decision. Defined.

End http_error.

Module json_error.

(** The enumerators of the system library's [json_error_t] that the map of
    error.cpp names; [json_other] is any other value (zero is no error). *)
Inductive json_error_t : Set :=
  | json_syntax | json_extra_data | json_incomplete | json_too_deep
  | json_invalid_escape | json_expected_hex_digit
  | json_expected_utf16_escape | json_illegal_leading_surrogate
  | json_illegal_trailing_surrogate | json_invalid_utf8
  | json_exponent_overflow | json_number_too_large | json_string_too_large
  | json_key_too_large | json_array_too_large | json_object_too_large
  | json_not_null | json_not_bool | json_not_number | json_not_int64
  | json_not_uint64 | json_not_double | json_not_string | json_not_array
  | json_not_object | json_not_exact | json_out_of_range | json_size_mismatch
  | json_exhausted_variants
  | json_other (value : Z).

#[global] Instance json_error_t_eq_dec : EqDecision json_error_t.
Proof. solve_decision. Defined.

End json_error.

(** A [std::error_code]: a value and its category. *)
Inductive code : Set :=
  | network_code (e : error.error_t)
  | http_code (e : http_error.http_error_t)
  | json_code (e : json_error.json_error_t)
  | other_code (category value : Z).

Coercion network_code : error.error_t >-> code.

#[global] Instance code_eq_dec : EqDecision code.
Proof. solve_decision. Defined.

(** [error_code::operator bool]: the value is not zero. *)
Definition failed (ec : code) : bool :=
  match ec with
  | network_code e => negb (error.to_value e =? 0)
  | http_code (http_error.http_other v) => negb (v =? 0)
  | http_code _ => true
  | json_code (json_error.json_other v) => negb (v =? 0)
  | json_code _ => true
  | other_code _ v => negb (v =? 0)
  end.

(** [error_code::clear]: zero of the system category. *)
Definition cleared : code := other_code 0 0.

(** [to_http_code] and [to_json_code] of error.hpp. *)
Definition to_http_code (e : http_error.http_error_t) : code := http_code e.
Definition to_json_code (e : json_error.json_error_t) : code := json_code e.

(** [json_to_error_code]: network codes pass. *)
Definition json_to_error_code (ec : code) : code :=
  if negb (failed ec) then error.success else
  match ec with
  | json_code e =>
    match e with
    | json_error.json_syntax => error.syntax
    | json_error.json_extra_data => error.extra_data
    | json_error.json_incomplete => error.incomplete
    | json_error.json_too_deep => error.too_deep
    | json_error.json_invalid_escape => error.invalid_escape
    | json_error.json_expected_hex_digit => error.expected_hex_digit
    | json_error.json_expected_utf16_escape => error.expected_utf16_escape
    | json_error.json_illegal_leading_surrogate => error.illegal_leading_surrogate
    | json_error.json_illegal_trailing_surrogate => error.illegal_trailing_surrogate
    | json_error.json_invalid_utf8 => error.invalid_utf8
    | json_error.json_exponent_overflow => error.exponent_overflow
    | json_error.json_number_too_large => error.number_too_large
    | json_error.json_string_too_large => error.string_too_large
    | json_error.json_key_too_large => error.key_too_large
    | json_error.json_array_too_large => error.array_too_large
    | json_error.json_object_too_large => error.object_too_large
    | json_error.json_not_null => error.not_null
    | json_error.json_not_bool => error.not_bool
    | json_error.json_not_number => error.not_number
    | json_error.json_not_int64 => error.not_int64
    | json_error.json_not_uint64 => error.not_uint64
    | json_error.json_not_double => error.not_double
    | json_error.json_not_string => error.not_string
    | json_error.json_not_array => error.not_array
    | json_error.json_not_object => error.not_object
    | json_error.json_not_exact => error.not_exact
    | json_error.json_out_of_range => error.out_of_range
    | json_error.json_size_mismatch => error.size_mismatch
    | json_error.json_exhausted_variants => error.exhausted_variants
    | json_error.json_other _ => error.json_unknown
    end
  | network_code e => ec
  | _ => error.unknown
  end.

(** [http_to_error_code]: includes the json codes. *)
Definition http_to_error_code (ec : code) : code :=
  if negb (failed ec) then error.success else
  match ec with
  | http_code e =>
    match e with
    | http_error.end_of_stream => error.end_of_stream
    | http_error.partial_message => error.partial_message
    | http_error.need_more => error.need_more
    | http_error.unexpected_body => error.unexpected_body
    | http_error.need_buffer => error.need_buffer
    | http_error.end_of_chunk => error.end_of_chunk
    | http_error.buffer_overflow => error.buffer_overflow
    | http_error.header_limit => error.header_limit
    | http_error.body_limit => error.body_limit
    | http_error.bad_alloc => error.bad_alloc
    | http_error.bad_line_ending => error.bad_line_ending
    | http_error.bad_method => error.bad_method
    | http_error.bad_target => error.bad_target
    | http_error.bad_version => error.bad_version
    | http_error.bad_status => error.bad_status
    | http_error.bad_reason => error.bad_reason
    | http_error.bad_field => error.bad_field
    | http_error.bad_value => error.bad_value
    | http_error.bad_content_length => error.bad_content_length
    | http_error.bad_transfer_encoding => error.bad_transfer_encoding
    | http_error.bad_chunk => error.bad_chunk
    | http_error.bad_chunk_extension => error.bad_chunk_extension
    | http_error.bad_obs_fold => error.bad_obs_fold
    | http_error.multiple_content_length => error.multiple_content_length
    | http_error.stale_parser => error.stale_parser
    | http_error.short_read => error.short_read
    | http_error.http_other _ => error.http_unknown
    end
  | _ => json_to_error_code ec
  end.

(** [rpc_to_error_code]: includes the http codes. *)
Definition rpc_to_error_code (ec : code) : code :=
  if negb (failed ec) then error.success else
  match ec with
  | network_code e => ec
  | _ => http_to_error_code ec
  end.

(** [tls_to_error_code]: the alert descriptions of a peer. *)
Definition tls_to_error_code (description : Z) : code :=
  if description =? alert.unexpected_message then error.tls_alert_unexpected_message else
  if description =? alert.bad_record_mac then error.tls_alert_bad_record_mac else
  if description =? alert.record_overflow then error.tls_alert_record_overflow else
  if description =? alert.handshake_failure then error.tls_alert_handshake_failure else
  if description =? alert.bad_certificate then error.tls_alert_bad_certificate else
  if description =? alert.unsupported_certificate then error.tls_alert_unsupported_certificate else
  if description =? alert.certificate_expired then error.tls_alert_certificate_expired else
  if description =? alert.certificate_unknown then error.tls_alert_certificate_unknown else
  if description =? alert.illegal_parameter then error.tls_alert_illegal_parameter else
  if description =? alert.unknown_ca then error.tls_alert_unknown_ca else
  if description =? alert.decode_error then error.tls_alert_decode_error else
  if description =? alert.decrypt_error then error.tls_alert_decrypt_error else
  if description =? alert.protocol_version then error.tls_alert_protocol_version else
  if description =? alert.internal_error then error.tls_alert_internal_error else
  if description =? alert.missing_extension then error.tls_alert_missing_extension else
  if description =? alert.certificate_required then error.tls_alert_certificate_required else
  error.tls_alert_unknown.

(** ** Lemmas *)

Lemma failed_network e : failed (network_code e) = negb (bool_decide (e = error.success)).
Proof. destruct e; reflexivity. Qed.

Lemma success_ok : failed error.success = false.
Proof. reflexivity. Qed.

Lemma cleared_ok : failed cleared = false.
Proof. reflexivity. Qed.

#[export] Hint Rewrite success_ok cleared_ok : net.

(** A named http error is not one of the values outside of the enumeration. *)
Definition named (e : http_error.http_error_t) : bool :=
  match e with http_error.http_other _ => false | _ => true end.

Lemma json_to_error_code_failed ec : failed (json_to_error_code ec) = failed ec.
Proof.
  unfold json_to_error_code.
  destruct (failed ec) eqn:H; [| done].
  destruct ec as [e | e | e | c v]; try done. by destruct e.
Qed.

Lemma http_to_error_code_failed ec : failed (http_to_error_code ec) = failed ec.
Proof.
  unfold http_to_error_code.
  destruct (failed ec) eqn:H; [| done]. simpl.
  destruct ec as [e | e | e | c v];
    rewrite ?json_to_error_code_failed; try done. by destruct e.
Qed.

(** ** Properties *)

(** The translation of a wrapped code to the network category never turns
    a failure into a success or a success into a failure, always lands in the
    network category, and leaves a code that is already there as it is (so it
    is idempotent). *)
Theorem rpc_to_error_code_sound ec :
  failed (rpc_to_error_code ec) = failed ec /\
  exists e, rpc_to_error_code ec = network_code e /\
    rpc_to_error_code (network_code e) = network_code e.
Proof.
  assert (forall c, exists e, json_to_error_code c = network_code e) as Hj.
  { intros c. unfold json_to_error_code. destruct (negb _); [by eexists |].
    destruct c as [e | e | e | ? ?]; try by eexists. destruct e; by eexists. }
  assert (forall c, exists e, http_to_error_code c = network_code e) as Hh.
  { intros c. unfold http_to_error_code. destruct (negb _); [by eexists |].
    destruct c as [e | e | e | ? ?]; try apply Hj. destruct e; by eexists. }
  split.
  - unfold rpc_to_error_code. destruct (failed ec) eqn:H; [| done]. simpl.
    destruct ec; rewrite ?http_to_error_code_failed; done.
  - assert (exists e, rpc_to_error_code ec = network_code e) as [e He].
    { unfold rpc_to_error_code. destruct (negb _); [by eexists |].
      destruct ec as [e | | |]; try apply Hh. by eexists. }
    exists e; split; [done |]. unfold rpc_to_error_code at 1.
    destruct (failed (network_code e)) eqn:Hf; [done |].
    rewrite failed_network in Hf. case_bool_decide; [by subst | done].
Qed.

(** The map of http codec errors to network errors is one to one on the
    enumerators, and reserves [http_unknown] for the other values. *)
Theorem http_to_error_code_one_to_one a b :
  named a = true ->
  http_to_error_code (to_http_code a) = http_to_error_code (to_http_code b) ->
  a = b /\ http_to_error_code (to_http_code a) <> error.http_unknown.
Proof.
  intros Ha. destruct a; try discriminate Ha; clear Ha.
  all: destruct b as [ | | | | | | | | | | | | | | | | | | | | | | | | | | v];
    try (intros H; split; [reflexivity | discriminate]); try (intros H; discriminate H).
  all: unfold http_to_error_code, to_http_code, failed; destruct (v =? 0); simpl;
    intros H; discriminate H.
Qed.

Lemma http_to_error_code_one_to_one_witness :
  http_error.need_more = http_error.need_more /\
  http_to_error_code (to_http_code http_error.need_more) <> error.http_unknown.
Proof. apply http_to_error_code_one_to_one; reflexivity. Defined.
