(* ===== verification/FlatBuffer.v ===== *)
(** * FlatBuffer: the contiguous dynamic buffer of the http and websocket layers

    Models [src/messages/http/flat_buffer.cpp].  The state is the vector, the
    bounds of its readable bytes and the limit on their number.  [prepare]
    returns [None] where the code throws [std::length_error]; the region that
    it hands out starts at [end_], and [fill] is the caller's copy into that
    region.  The abstract specification is a queue of bytes with a limit
    ([spec_step]), which the operations refine. *)

From S2P Require Import Prelude.

Module flat_buffer.

Record t := mk { buffer_ : bytes; begin_ : Z; end_ : Z; limit_ : Z }.

(** ** Operations *)

Definition make (limit : Z) : t := mk [] 0 0 limit.

(** The default constructor is unlimited. *)
Definition make_unlimited : t := make max_size_t.

Definition size (b : t) : Z := usub (end_ b) (begin_ b).

(** The readable bytes. *)
Definition data (b : t) : bytes := ztake (size b) (zdrop (begin_ b) (buffer_ b)).

Definition max_size (b : t) : Z := limit_ b.

Definition capacity (b : t) : Z := len (buffer_ b).

(** The move of the readable bytes to the front of the vector. *)
Definition compact (b : t) : t :=
  mk (overwrite 0 (data b) (buffer_ b)) 0 (usub (end_ b) (begin_ b)) (limit_ b).

(** [vector::resize]: truncate, or extend with zeros. *)
Definition resize (n : Z) (l : bytes) : bytes :=
  ztake n l ++ replicate (Z.to_nat (n - len l)) 0.

Definition prepare (n : Z) (b : t) : option t :=
  if n >? usub (limit_ b) (size b) then None else
  let b :=
    if (usub (len (buffer_ b)) (end_ b) <? n) && negb (begin_ b =? 0)
    then compact b else b in
  Some (
    if usub (len (buffer_ b)) (end_ b) <? n
    then mk (resize (end_ b + n) (buffer_ b)) (begin_ b) (end_ b) (limit_ b)
    else b).

(** The caller's copy of [d] into the prepared region. *)
Definition fill (d : bytes) (b : t) : t :=
  mk (overwrite (end_ b) d (buffer_ b)) (begin_ b) (end_ b) (limit_ b).

Definition commit (n : Z) (b : t) : t :=
  mk (buffer_ b) (begin_ b)
    (end_ b + n `min` usub (len (buffer_ b)) (end_ b)) (limit_ b).

Definition clear (b : t) : t := mk (buffer_ b) 0 0 (limit_ b).

Definition consume (n : Z) (b : t) : t :=
  if n >=? size b then clear b else
  mk (buffer_ b) (begin_ b + n) (end_ b) (limit_ b).

Definition reserve (n : Z) (b : t) : t :=
  if len (buffer_ b) <? n
  then mk (resize n (buffer_ b)) (begin_ b) (end_ b) (limit_ b) else b.

Definition shrink_to_fit (b : t) : t :=
  let b := if negb (begin_ b =? 0) then compact b else b in
  mk (resize (end_ b) (buffer_ b)) (begin_ b) (end_ b) (limit_ b).

(** ** Invariant and specification *)

Definition wf (b : t) : Prop :=
  0 <= begin_ b <= end_ b /\ end_ b <= len (buffer_ b) < 2 ^ 64 /\
  end_ b - begin_ b <= limit_ b < 2 ^ 64.

(** What a client does with the buffer: append bytes by prepare, copy and
    commit of (a prefix of) them, or one of the other operations. *)
Inductive op :=
  | Append (d : bytes) (committed : Z)
  | Consume (n : Z)
  | Clear
  | Reserve (n : Z)
  | Shrink.

Definition op_ok (o : op) : Prop :=
  match o with
  | Append d n => 0 <= n <= len d
  | Consume n => u64 n
  | Clear => True
  | Reserve n => u64 n
  | Shrink => True
  end.

(** The code's step; [None] is the length error, which leaves the buffer. *)
Definition step (o : op) (b : t) : option t :=
  match o with
  | Append d n => commit n ∘ fill d <$> prepare (len d) b
  | Consume n => Some (consume n b)
  | Clear => Some (clear b)
  | Reserve n => Some (reserve n b)
  | Shrink => Some (shrink_to_fit b)
  end.

(** The step of a byte queue with a limit on its size. *)
Definition spec_step (limit : Z) (o : op) (q : bytes) : option bytes :=
  match o with
  | Append d n => if len q + len d <=? limit then Some (q ++ ztake n d) else None
  | Consume n => Some (zdrop n q)
  | Clear => Some []
  | Reserve _ | Shrink => Some q
  end.

(** A sequence of operations, each of which may fail and be abandoned. *)
Fixpoint run (ops : list op) (b : t) : t :=
  match ops with
  | [] => b
  | o :: rest => run rest (default b (step o b))
  end.

Fixpoint spec_run (limit : Z) (ops : list op) (q : bytes) : bytes :=
  match ops with
  | [] => q
  | o :: rest => spec_run limit rest (default q (spec_step limit o q))
  end.

(** ** Lemmas *)

Lemma wf_size b : wf b -> size b = end_ b - begin_ b.
Proof. intros (? & ? & ?). apply usub_le; lia. Qed.

Lemma data_eq b : wf b -> data b = zdrop (begin_ b) (ztake (end_ b) (buffer_ b)).
Proof.
  intros H. unfold data. rewrite wf_size by done. destruct H as (? & ? & ?).
  rewrite <- zdrop_ztake by lia. do 2 f_equal. lia.
Qed.

Lemma len_data b : wf b -> len (data b) = size b.
Proof.
  intros H. rewrite data_eq, wf_size by done. destruct H as (? & ? & ?).
  rewrite len_zdrop; rewrite ?len_ztake; lia.
Qed.

Lemma wf_make limit : 0 <= limit < 2 ^ 64 -> wf (make limit).
Proof. intros. unfold wf, make; simpl. unfold len; simpl. lia. Qed.

Lemma resize_ge n l : len l <= n -> resize n l = l ++ replicate (Z.to_nat (n - len l)) 0.
Proof. intros. unfold resize. by rewrite ztake_ge. Qed.

Lemma resize_le n l : n <= len l -> resize n l = ztake n l.
Proof.
  intros. unfold resize. replace (Z.to_nat (n - len l)) with 0%nat by lia.
  simpl. by rewrite app_nil_r.
Qed.

Lemma len_resize n l : 0 <= n -> len (resize n l) = n.
Proof.
  intros. unfold resize. rewrite len_app, len_ztake by lia.
  unfold len. rewrite length_replicate. lia.
Qed.

Lemma ztake_resize m n l : 0 <= m <= n -> m <= len l -> ztake m (resize n l) = ztake m l.
Proof.
  intros. destruct (decide (len l <= n)).
  - rewrite resize_ge by lia. apply ztake_app_le. lia.
  - rewrite resize_le by lia. rewrite ztake_ztake. f_equal. lia.
Qed.

Lemma compact_wf b : wf b -> wf (compact b) /\ data (compact b) = data b /\
  end_ (compact b) = size b /\ begin_ (compact b) = 0 /\
  len (buffer_ (compact b)) = len (buffer_ b) /\ limit_ (compact b) = limit_ b.
Proof.
  intros H. pose proof (len_data _ H) as Hl. pose proof (wf_size _ H) as Hs.
  assert (len (overwrite 0 (data b) (buffer_ b)) = len (buffer_ b)) as Ho.
  { apply len_overwrite; [lia |]. destruct H as (? & ? & ?). lia. }
  assert (wf (compact b)) as Hw.
  { unfold wf; simpl. fold (size b). rewrite Ho. destruct H as (? & ? & ?). lia. }
  split_and!; try done.
  rewrite data_eq by done. simpl. fold (size b).
  change (zdrop 0 ?x) with x. replace (size b) with (0 + len (data b)) by lia.
  rewrite ztake_overwrite_all; [done | lia |]. destruct H as (? & ? & ?). lia.
Qed.

(** The effect of [prepare], with the region it makes room for. *)
Lemma prepare_spec n b : wf b -> 0 <= n ->
  match prepare n b with
  | None => limit_ b < len (data b) + n
  | Some b' => wf b' /\ data b' = data b /\ limit_ b' = limit_ b /\
      end_ b' + n <= len (buffer_ b') /\ len (data b) + n <= limit_ b
  end.
Proof.
  intros H Hn. pose proof (len_data _ H) as Hl. pose proof (wf_size _ H) as Hs.
  unfold prepare.
  assert (usub (limit_ b) (size b) = limit_ b - size b) as ->.
  { destruct H as (? & ? & ?). apply usub_le; lia. }
  destruct (n >? _) eqn:Hgt; [lia |].
  assert (usub (len (buffer_ b)) (end_ b) = len (buffer_ b) - end_ b) as ->.
  { destruct H as (? & ? & ?). apply usub_le; lia. }
  set (c := if _ && _ then compact b else b).
  assert (wf c /\ data c = data b /\ limit_ c = limit_ b /\
    (len (buffer_ c) - end_ c < n -> begin_ c = 0)) as (Hc & Hd & Hlim & Hz).
  { unfold c. destruct (compact_wf b H) as (? & ? & ? & ? & ? & ?).
    destruct (_ && _) eqn:?; split_and!; try done; lia. }
  clearbody c. pose proof (wf_size _ Hc) as Hsc. pose proof (len_data _ Hc) as Hlc.
  rewrite Hd in Hlc.
  assert (usub (len (buffer_ c)) (end_ c) = len (buffer_ c) - end_ c) as ->.
  { destruct Hc as (? & ? & ?). apply usub_le; lia. }
  destruct (_ <? n) eqn:Hroom; [| split_and!; try done; lia].
  specialize (Hz ltac:(lia)).
  assert (wf (mk (resize (end_ c + n) (buffer_ c)) (begin_ c) (end_ c) (limit_ c))) as Hw.
  { unfold wf in *; simpl. destruct Hc as (? & ? & ?). rewrite len_resize; lia. }
  split_and!; try done; simpl; try lia.
  - rewrite data_eq by done. simpl. destruct Hc as (? & ? & ?).
    rewrite ztake_resize by lia. rewrite <- Hd. symmetry. apply data_eq.
    unfold wf; lia.
  - destruct Hc as (? & ? & ?). rewrite len_resize; lia.
Qed.

(** Filling and committing a prefix of what was prepared appends it. *)
Lemma append_spec d n b : wf b -> 0 <= n <= len d ->
  end_ b + len d <= len (buffer_ b) -> len (data b) + len d <= limit_ b ->
  wf (commit n (fill d b)) /\ data (commit n (fill d b)) = data b ++ ztake n d.
Proof.
  intros H Hn Hroom Hlim. pose proof (len_data _ H) as Hl. pose proof (wf_size _ H) as Hs.
  assert (len (overwrite (end_ b) d (buffer_ b)) = len (buffer_ b)) as Ho.
  { apply len_overwrite; destruct H as (? & ? & ?); lia. }
  assert (usub (len (overwrite (end_ b) d (buffer_ b))) (end_ b)
    = len (buffer_ b) - end_ b) as Hu.
  { rewrite Ho. destruct H as (? & ? & ?). apply usub_le; lia. }
  assert (wf (commit n (fill d b))) as Hw.
  { unfold wf, commit; simpl. rewrite Hu, Ho. destruct H as (? & ? & ?). lia. }
  split; [done |]. rewrite data_eq by done. unfold commit, fill; simpl. rewrite Hu.
  rewrite data_eq by done. destruct H as (? & ? & ?).
  replace (n `min` (len (buffer_ b) - end_ b)) with n by lia.
  assert (ztake (end_ b + n) (overwrite (end_ b) d (buffer_ b))
    = ztake (end_ b) (buffer_ b) ++ ztake n d) as ->.
  { replace (end_ b + n) with ((end_ b + n) `min` (end_ b + len d)) by lia.
    rewrite <- ztake_ztake, ztake_overwrite_all by lia.
    unfold ztake. rewrite take_app. f_equal.
    - rewrite take_take. f_equal. lia.
    - f_equal. rewrite length_take. unfold len in *. lia. }
  apply zdrop_app_le. rewrite len_ztake; lia.
Qed.

(** ** Simulation *)

Lemma step_refines o b : wf b -> op_ok o ->
  match step o b with
  | None => spec_step (limit_ b) o (data b) = None
  | Some b' => wf b' /\ limit_ b' = limit_ b /\
      spec_step (limit_ b) o (data b) = Some (data b')
  end.
Proof.
  intros H Ho. pose proof (len_data _ H) as Hl. pose proof (wf_size _ H) as Hs.
  destruct o as [d n | n | | n |]; simpl in *.
  - pose proof (prepare_spec (len d) b H (len_nonneg d)) as Hp.
    destruct (prepare (len d) b) as [c |]; simpl.
    + destruct Hp as (Hc & Hd & Hlim & Hroom & Hfit).
      destruct (append_spec d n c Hc Ho Hroom) as [Hw Ha]; [rewrite Hd, Hlim; lia |].
      split; [done |]. split; [done |]. rewrite Ha, Hd.
      destruct (_ <=? _) eqn:?; [done | lia].
    + destruct (_ <=? _) eqn:?; [lia | done].
  - unfold consume, in_width in *. destruct (n >=? size b) eqn:Hge.
    + repeat split; simpl; try (destruct H as (? & ? & ?); lia).
      rewrite zdrop_ge by lia. done.
    + assert (wf (mk (buffer_ b) (begin_ b + n) (end_ b) (limit_ b))) as Hw.
      { unfold wf in *; simpl. lia. }
      split; [done |]. split; [done |]. f_equal. rewrite !data_eq by done. simpl.
      destruct H as (? & ? & ?). rewrite zdrop_zdrop by lia. done.
  - repeat split; simpl; try (destruct H as (? & ? & ?); lia).
  - unfold reserve, in_width in *. destruct (_ <? n) eqn:Hlt; [| repeat split; apply H || done].
    assert (wf (mk (resize n (buffer_ b)) (begin_ b) (end_ b) (limit_ b))) as Hw.
    { unfold wf in *; simpl. rewrite len_resize; lia. }
    split; [done |]. split; [done |]. f_equal. rewrite !data_eq by done. simpl.
    destruct H as (? & ? & ?). rewrite ztake_resize by lia. done.
  - unfold shrink_to_fit. set (c := if negb _ then compact b else b).
    assert (wf c /\ data c = data b /\ limit_ c = limit_ b) as (Hc & Hd & Hlim).
    { unfold c. destruct (compact_wf b H) as (? & ? & _ & _ & _ & ?).
      by destruct (negb _). }
    clearbody c.
    assert (wf (mk (resize (end_ c) (buffer_ c)) (begin_ c) (end_ c) (limit_ c))) as Hw.
    { unfold wf in *; simpl. rewrite len_resize; lia. }
    split; [done |]. split; [done |]. f_equal. rewrite <- Hd, !data_eq by done. simpl.
    destruct Hc as (? & ? & ?). rewrite ztake_resize by lia. done.
Qed.

Lemma run_refines ops b : wf b -> Forall op_ok ops ->
  wf (run ops b) /\ limit_ (run ops b) = limit_ b /\
  data (run ops b) = spec_run (limit_ b) ops (data b).
Proof.
  intros H Ho. revert b H. induction Ho as [| o ops Ho _ IH]; intros b H; [done |].
  simpl. pose proof (step_refines o b H Ho) as Hs.
  destruct (step o b) as [c |]; simpl.
  - destruct Hs as (Hc & Hlim & ->). simpl. rewrite <- Hlim. rewrite Hlim.
    destruct (IH c Hc) as (? & ? & ?). rewrite Hlim in *. done.
  - rewrite Hs. simpl. by apply IH.
Qed.

(** ** Properties *)

(** The flat buffer refines a bounded byte queue.  From an empty buffer of
    any limit, any sequence of client operations (appends of which some
    prefix is committed, consumption, clear, reserve, shrink) leaves exactly
    the readable bytes that the queue holds, a length error is raised exactly
    when the queue refuses an append, and the representation stays in bounds
    with the readable size within the limit. *)
Theorem flat_buffer_refines_queue limit ops :
  0 <= limit < 2 ^ 64 -> Forall op_ok ops ->
  let b := run ops (make limit) in
  data b = spec_run limit ops [] /\ wf b /\ len (data b) <= limit /\
  (forall o, op_ok o -> step o b = None <-> spec_step limit o (data b) = None).
Proof.
  intros Hlim Hops b.
  destruct (run_refines ops (make limit) (wf_make _ Hlim) Hops) as (Hw & Hl & Hd).
  fold b in Hw, Hl, Hd. simpl in Hl.
  repeat split; try apply Hw; try done.
  - rewrite len_data, wf_size by done. destruct Hw as (_ & _ & ?). lia.
  - intros Hs. pose proof (step_refines o b Hw H) as Hr. rewrite Hs in Hr.
    by rewrite <- Hl.
  - intros Hs. pose proof (step_refines o b Hw H) as Hr.
    destruct (step o b); [| done]. destruct Hr as (_ & _ & Hr). rewrite Hl in Hr. congruence.
Qed.

Lemma flat_buffer_refines_queue_witness :
  data (run [Append [1; 2; 3] 3; Consume 2; Append [4; 5] 1; Shrink; Append [6] 1]
    (make 3)) = [3; 4; 6].
Proof.
  refine (eq_trans (proj1 (flat_buffer_refines_queue 3
    [Append [1; 2; 3] 3; Consume 2; Append [4; 5] 1; Shrink; Append [6] 1] _ _)) _).
  - lia.
  - repeat constructor; simpl; unfold len; simpl; lia.
  - reflexivity.
Defined.

End flat_buffer.
