(* ===== verification/WsFrame.v ===== *)
(** * WsFrame: websocket frames (rfc6455) and incremental utf8 validation

    Models [include/bitcoin/network/ws/frame.hpp] and [src/ws/frame.cpp]: the
    frame header codec, the payload mask, the close payload and the
    [utf8_validator].  Out parameters are returned: a parse yields the header
    object as the code leaves it (also when it fails), the size it consumed
    and the error code. *)

From S2P Require Import Prelude.
From S2P Require Import TlsConstants.
From S2P Require Import Errors.

Module ws.

(** ** Frame data *)

Inductive opcode := continuation | text | binary | close | ping | pong.

#[global] Instance opcode_eq_dec : EqDecision opcode.
Proof. solve_decision. Defined.

Definition opcode_value (c : opcode) : Z :=
  match c with
  | continuation => 0x0
  | text => 0x1
  | binary => 0x2
  | close => 0x8
  | ping => 0x9
  | pong => 0xa
  end.

Inductive close_code :=
  | normal | going_away | protocol_error | unknown_data | bad_payload
  | policy_error | too_big | needs_extension | internal_error.

Definition close_value (c : close_code) : Z :=
  match c with
  | normal => 1000
  | going_away => 1001
  | protocol_error => 1002
  | unknown_data => 1003
  | bad_payload => 1007
  | policy_error => 1008
  | too_big => 1009
  | needs_extension => 1010
  | internal_error => 1011
  end.

Record frame_header := mk_header {
  fin : bool;
  fcode : opcode;
  masked : bool;
  flength : Z;
  key : bytes
}.

(** The value-initialized header. *)
Definition frame_header_init : frame_header :=
  mk_header false continuation false 0 [0; 0; 0; 0].

Definition mask_size : Z := 4.
Definition maximum_header : Z := 14.
Definition maximum_control : Z := 125.

Definition fin_bit : Z := 0x80.
Definition reserved_bits : Z := 0x70.
Definition opcode_bits : Z := 0x0f.
Definition mask_bit : Z := 0x80.
Definition length_bits : Z := 0x7f.
Definition length16 : Z := 126.
Definition length64 : Z := 127.

Definition is_nonzero (v : Z) : bool := negb (v =? 0).

Definition is_control (c : opcode) : bool := opcode_value c >=? opcode_value close.

(** [static_cast<opcode>] of a value, [None] where the value is undefined. *)
Definition to_opcode (value : Z) : option opcode :=
  if value =? 0x0 then Some continuation else
  if value =? 0x1 then Some text else
  if value =? 0x2 then Some binary else
  if value =? 0x8 then Some close else
  if value =? 0x9 then Some ping else
  if value =? 0xa then Some pong else None.

Definition is_defined (value : Z) : bool := bool_decide (is_Some (to_opcode value)).

(** The loop that accumulates an extended length in 64 bits. *)
Definition extended_length (l : bytes) : Z :=
  fold_left (fun acc byte => Z.lor (narrow 64 (Z.shiftl acc 8)) byte) l 0.

Definition parse_header (out : frame_header) (data : bytes) (server : bool)
  : frame_header * Z * code :=
  if len data <? 2 then (out, 0, error.need_more : code) else
  let first := zget data 0 in
  let second := zget data 1 in
  if is_nonzero (Z.land first reserved_bits)
  then (out, 0, error.bad_reserved_bits : code) else
  if negb (is_defined (Z.land first opcode_bits))
  then (out, 0, error.bad_opcode : code) else
  let out := mk_header (is_nonzero (Z.land first fin_bit))
    (default (fcode out) (to_opcode (Z.land first opcode_bits)))
    (is_nonzero (Z.land second mask_bit)) (flength out) (key out) in
  if is_control (fcode out) && negb (fin out)
  then (out, 0, error.bad_control_fragment : code) else
  let length := Z.land second length_bits in
  if is_control (fcode out) && (length >? maximum_control)
  then (out, 0, error.bad_control_size : code) else
  if server && negb (masked out)
  then (out, 0, error.bad_unmasked_frame : code) else
  if negb server && masked out
  then (out, 0, error.bad_masked_frame : code) else
  let extended := if length =? length16 then 2 else
    if length =? length64 then 8 else 0 in
  let size := 2 + extended + (if masked out then mask_size else 0) in
  if len data <? size then (out, 0, error.need_more : code) else
  let out := mk_header (fin out) (fcode out) (masked out)
    (if is_nonzero extended then extended_length (ztake extended (zdrop 2 data))
     else length) (key out) in
  if is_nonzero extended &&
    (((length =? length16) && (flength out <? length16)) ||
     ((length =? length64) && ((flength out <=? max_uint16) ||
        is_nonzero (Z.shiftr (flength out) 63))))
  then (out, 0, error.bad_size : code) else
  let out := if masked out
    then mk_header (fin out) (fcode out) (masked out) (flength out)
      (ztake mask_size (zdrop (2 + extended) data))
    else out in
  (out, size, error.success : code).

Definition serialize_header (c : opcode) (fin : bool) (length : Z)
  (key : option bytes) : bytes :=
  let masked := match key with Some _ => mask_bit | None => 0x00 end in
  [narrow 8 (Z.lor (if fin then fin_bit else 0x00) (opcode_value c))] ++
  (if length <? length16 then [narrow 8 (Z.lor masked length)]
   else if length <=? max_uint16 then
     [Z.lor masked length16; narrow 8 (Z.shiftr length 8); narrow 8 length]
   else
     [Z.lor masked length64] ++
     map (fun shift => narrow 8 (Z.shiftr length shift))
       [56; 48; 40; 32; 24; 16; 8; 0]) ++
  default [] key.

Definition apply_mask (data : bytes) (key : bytes) (offset : Z) : bytes :=
  let start := offset `mod` mask_size in
  imap (fun index byte =>
    Z.lxor byte (zget key ((start + Z.of_nat index) `mod` mask_size))) data.

(** ** Incremental utf8 validation *)

Record utf8_validator := mk_utf8 { needed_ : Z; lower_ : Z; upper_ : Z }.

Definition utf8_init : utf8_validator := mk_utf8 0 0x80 0xbf.

(** One iteration of the loop of [utf8_validator::write]. *)
Definition utf8_write_byte (v : utf8_validator) (byte : Z) : utf8_validator * bool :=
  if needed_ v =? 0 then
    if byte <=? 0x7f then (mk_utf8 0 0x80 0xbf, true) else
    if (byte >=? 0xc2) && (byte <=? 0xdf) then (mk_utf8 1 0x80 0xbf, true) else
    if (byte >=? 0xe0) && (byte <=? 0xef) then
      (mk_utf8 2 (if byte =? 0xe0 then 0xa0 else 0x80)
        (if byte =? 0xed then 0x9f else 0xbf), true) else
    if (byte >=? 0xf0) && (byte <=? 0xf4) then
      (mk_utf8 3 (if byte =? 0xf0 then 0x90 else 0x80)
        (if byte =? 0xf4 then 0x8f else 0xbf), true) else
    (mk_utf8 0 0x80 0xbf, false)
  else
    if (byte <? lower_ v) || (byte >? upper_ v) then (v, false) else
    (mk_utf8 (needed_ v - 1) 0x80 0xbf, true).

Fixpoint utf8_write (v : utf8_validator) (data : bytes) : utf8_validator * bool :=
  match data with
  | [] => (v, true)
  | byte :: rest =>
    match utf8_write_byte v byte with
    | (v, true) => utf8_write v rest
    | (v, false) => (v, false)
    end
  end.

Definition utf8_finish (v : utf8_validator) : utf8_validator * bool :=
  (mk_utf8 0 (lower_ v) (upper_ v), needed_ v =? 0).

(** ** Close frames *)

Definition is_valid_close_code (value : Z) : bool :=
  if existsb (Z.eqb value)
    [1000; 1001; 1002; 1003; 1007; 1008; 1009; 1010; 1011; 1012; 1013] then true else
  if existsb (Z.eqb value) [1004; 1005; 1006; 1014; 1015] then false else
  (value >? 999) && ((value <? 1016) || (value >? 2999)).

(** The close value, the reason, the result and the error. *)
Definition parse_close (payload : bytes) : Z * bytes * bool * code :=
  match payload with
  | [] => (0, [], true, error.success : code)
  | [_] => (0, [], false, error.bad_close_size : code)
  | _ =>
    let value := narrow 16 (Z.lor (Z.shiftl (zget payload 0) 8) (zget payload 1)) in
    if negb (is_valid_close_code value)
    then (value, [], false, error.bad_close_code : code) else
    let text := zdrop 2 payload in
    let '(validator, written) := utf8_write utf8_init text in
    if negb written || negb (utf8_finish validator).2
    then (value, [], false, error.bad_close_payload : code) else
    (value, text, true, error.success : code)
  end.

Definition close_payload (value : close_code) : bytes :=
  let number := close_value value in
  [narrow 8 (Z.shiftr number 8); narrow 8 number].

(** ** Specification: utf8 (rfc3629) *)

Definition scalar (c : Z) : Prop := 0 <= c <= 0x10ffff /\ ~ (0xd800 <= c <= 0xdfff).

Definition encode_utf8 (c : Z) : bytes :=
  if c <? 0x80 then [c] else
  if c <? 0x800 then [0xc0 + c / 64; 0x80 + c `mod` 64] else
  if c <? 0x10000 then
    [0xe0 + c / 4096; 0x80 + (c / 64) `mod` 64; 0x80 + c `mod` 64] else
  [0xf0 + c / 262144; 0x80 + (c / 4096) `mod` 64; 0x80 + (c / 64) `mod` 64;
   0x80 + c `mod` 64].

(** The bytes are the encoding of a sequence of unicode scalar values. *)
Definition is_utf8 (l : bytes) : Prop :=
  exists cs, Forall scalar cs /\ l = concat (map encode_utf8 cs).

(** A validator accepts the bytes as a complete text. *)
Definition utf8_accepts (v : utf8_validator) (l : bytes) : bool :=
  let '(v, written) := utf8_write v l in written && (utf8_finish v).2.

(** ** Lemmas: header codec *)

Lemma to_opcode_value c : to_opcode (opcode_value c) = Some c.
Proof. by destruct c. Qed.

Lemma opcode_value_to v c : to_opcode v = Some c -> opcode_value c = v.
Proof. unfold to_opcode. intros. split_if; simplify_eq; simpl; lia. Qed.

Lemma is_defined_Some v : is_defined v = true -> exists c, to_opcode v = Some c.
Proof. unfold is_defined. intros H%bool_decide_eq_true. done. Qed.

(** The first byte of a header, taken apart by its masks. *)
Lemma first_byte_split b : u8 b -> Z.land b reserved_bits = 0 ->
  b = (if is_nonzero (Z.land b fin_bit) then 128 else 0) + Z.land b opcode_bits.
Proof.
  intros Hb H.
  enough (((negb (Z.land b reserved_bits =? 0)) ||
    (b =? (if is_nonzero (Z.land b fin_bit) then 128 else 0)
       + Z.land b opcode_bits)) = true) by lia.
  clear H. byte_cases b Hb.
Qed.

Lemma second_byte_split b : u8 b ->
  b = (if is_nonzero (Z.land b mask_bit) then 128 else 0) + Z.land b length_bits
  /\ 0 <= Z.land b length_bits < 128.
Proof.
  intros Hb.
  enough (((b =? (if is_nonzero (Z.land b mask_bit) then 128 else 0)
       + Z.land b length_bits) && (0 <=? Z.land b length_bits)
       && (Z.land b length_bits <? 128)) = true) by lia.
  byte_cases b Hb.
Qed.

(** The bytes are those that the serializer writes from their parts. *)
Lemma second_byte_write b : u8 b ->
  narrow 8 (Z.lor (if is_nonzero (Z.land b mask_bit) then mask_bit else 0x00)
    (Z.land b length_bits)) = b.
Proof.
  intros Hb.
  enough ((narrow 8 (Z.lor (if is_nonzero (Z.land b mask_bit) then mask_bit else 0x00)
    (Z.land b length_bits)) =? b) = true) by lia.
  byte_cases b Hb.
Qed.

Lemma first_byte_write b : u8 b -> Z.land b reserved_bits = 0 ->
  narrow 8 (Z.lor (if is_nonzero (Z.land b fin_bit) then fin_bit else 0x00)
    (Z.land b opcode_bits)) = b.
Proof.
  intros Hb H.
  enough ((negb (Z.land b reserved_bits =? 0)) ||
    (narrow 8 (Z.lor (if is_nonzero (Z.land b fin_bit) then fin_bit else 0x00)
      (Z.land b opcode_bits)) =? b) = true) by lia.
  clear H. byte_cases b Hb.
Qed.

(** The first byte that the serializer writes, and what the parser reads. *)
Lemma first_byte_read c (f : bool) :
  let b := narrow 8 (Z.lor (if f then fin_bit else 0x00) (opcode_value c)) in
  Z.land b reserved_bits = 0 /\ Z.land b opcode_bits = opcode_value c /\
  is_nonzero (Z.land b fin_bit) = f.
Proof. destruct c, f; vm_compute; done. Qed.

Lemma second_byte_read (m : bool) l : 0 <= l < 128 ->
  let b := narrow 8 (Z.lor (if m then mask_bit else 0x00) l) in
  is_nonzero (Z.land b mask_bit) = m /\ Z.land b length_bits = l.
Proof.
  intros Hl b. assert (u8 l) as Hl8 by width.
  enough (((128 <=? l) ||
   (Bool.eqb (is_nonzero (Z.land (narrow 8 (Z.lor (if m then mask_bit else 0x00) l))
       mask_bit)) m &&
    (Z.land (narrow 8 (Z.lor (if m then mask_bit else 0x00) l)) length_bits =? l)))
    = true) as H.
  { subst b. apply orb_true_iff in H as [H | H]; [lia |].
    apply andb_true_iff in H as [H1%eqb_prop H2]. split; [done | lia]. }
  clear b Hl. destruct m; byte_cases l Hl8.
Qed.

Lemma extended_length_be l : bytes_ok l -> len l <= 8 ->
  extended_length l = be_value l.
Proof.
  induction l as [| x l IH] using rev_ind; intros Hl Hn; [done |].
  apply Forall_app in Hl as [Hl Hx]. rewrite Forall_singleton in Hx.
  rewrite len_app in Hn. change (len [x]) with 1 in Hn. specialize (IH Hl ltac:(lia)).
  unfold extended_length in *. rewrite fold_left_app; simpl. rewrite IH, be_value_app.
  change (be_value [x]) with x. change (256 ^ len [x]) with (2 ^ 8).
  pose proof (be_value_bound l Hl) as Hb.
  assert (256 ^ len l <= 256 ^ 7) by (apply Z.pow_le_mono_r; lia).
  unfold narrow. rewrite Z.mod_small.
  - apply lor_add; width.
  - rewrite Z.shiftl_mul_pow2 by lia. change (256 ^ 7) with (2 ^ 56) in *.
    change (2 ^ 64) with (2 ^ 56 * 2 ^ 8). nia.
Qed.

(** The extended lengths that the serializer writes are big-endian digits. *)
Lemma serialize_length16 l :
  [narrow 8 (Z.shiftr l 8); narrow 8 l] = be_bytes 2 l.
Proof. simpl. unfold narrow. by rewrite Z.shiftr_div_pow2 by lia. Qed.

Lemma serialize_length64 l :
  map (fun shift => narrow 8 (Z.shiftr l shift)) [56; 48; 40; 32; 24; 16; 8; 0]
  = be_bytes 8 l.
Proof.
  cbn [map be_bytes app]. unfold narrow. rewrite !Z.shiftr_div_pow2 by lia.
  rewrite !Z.div_div by lia. rewrite Z.div_1_r. reflexivity.
Qed.

Lemma shiftr_63 l : 0 <= l < 2 ^ 64 -> is_nonzero (Z.shiftr l 63) = (2 ^ 63 <=? l).
Proof.
  intros Hl. rewrite Z.shiftr_div_pow2 by lia. unfold is_nonzero.
  destruct (2 ^ 63 <=? l) eqn:Hle.
  - assert (1 <= l / 2 ^ 63) by (apply Z.div_le_lower_bound; lia). lia.
  - rewrite Z.div_small; lia.
Qed.

(** The frames that a peer may send: control frames are whole and short, the
    length has its high bit clear and a key has four bytes. *)
Definition frame_ok (c : opcode) (fin : bool) (length : Z) (key : option bytes) : Prop :=
  (is_control c = true -> fin = true /\ length <= maximum_control) /\
  0 <= length < 2 ^ 63 /\
  match key with Some k => len k = mask_size /\ bytes_ok k | None => True end.

(** The extended length bytes of a seven bit length field. *)
Definition extension_ok (l7 : Z) (ext : bytes) : Prop :=
  bytes_ok ext /\
  ((0 <= l7 < 126 /\ ext = []) \/
   (l7 = 126 /\ len ext = 2 /\ 126 <= be_value ext <= 65535) \/
   (l7 = 127 /\ len ext = 8 /\ 65535 < be_value ext < 2 ^ 63)).

Definition extension_value (l7 : Z) (ext : bytes) : Z :=
  if l7 <? 126 then l7 else be_value ext.

Lemma extension_size l7 ext : extension_ok l7 ext ->
  (if l7 =? length16 then 2 else if l7 =? length64 then 8 else 0) = len ext.
Proof.
  unfold length16, length64. intros [_ [(? & ->) | [(? & ? & _) | (? & ? & _)]]];
    rewrite ?len_nil; split_if; lia.
Qed.

Lemma extension_value_bound l7 ext :
  extension_ok l7 ext -> 0 <= extension_value l7 ext < 2 ^ 63.
Proof.
  unfold extension_value. intros [Hb Hc]. pose proof (be_value_bound ext Hb) as Hv.
  destruct Hc as [(? & ->) | [(-> & Hl & ?) | (-> & _ & ?)]]; [| | simpl; lia].
  - destruct (l7 <? 126) eqn:?; lia.
  - rewrite Hl in Hv. simpl. lia.
Qed.

(** The parse of a header laid out byte by byte. *)
Lemma parse_header_layout out c f (m : bool) l7 ext k rest b0 b1 :
  Z.land b0 reserved_bits = 0 -> Z.land b0 opcode_bits = opcode_value c ->
  is_nonzero (Z.land b0 fin_bit) = f ->
  is_nonzero (Z.land b1 mask_bit) = m -> Z.land b1 length_bits = l7 ->
  extension_ok l7 ext -> len k = (if m then mask_size else 0) ->
  (is_control c = true -> f = true /\ extension_value l7 ext <= maximum_control) ->
  parse_header out (b0 :: b1 :: ext ++ k ++ rest) m =
    (mk_header f c m (extension_value l7 ext) (if m then k else key out),
     2 + len ext + len k, error.success : code).
Proof.
  intros H0 H1 H2 H3 H4 Hext Hk Hctl. unfold parse_header.
  pose proof (len_nonneg ext). pose proof (len_nonneg k). pose proof (len_nonneg rest).
  rewrite !len_cons, !len_app.
  destruct (1 + _ <? 2) eqn:?; [lia |].
  rewrite zget_cons_0. change (zget (b0 :: b1 :: _) 1) with b1. cbn [fcode fin masked flength key].
  rewrite H0, H1, H2, H3, H4. change (is_nonzero 0) with false. cbn match.
  assert (is_defined (opcode_value c) = true) as ->.
  { apply bool_decide_eq_true. rewrite to_opcode_value. eauto. }
  rewrite to_opcode_value. change (default (fcode out) (Some c)) with c. change (negb true) with false.
  assert (is_control c && negb f = false) as ->.
  { destruct (is_control c), f; try done. destruct (Hctl eq_refl); done. }
  assert (is_control c && (l7 >? maximum_control) = false) as ->.
  { destruct (is_control c); [| done]. destruct (Hctl eq_refl) as [_ Hm].
    unfold extension_value, maximum_control in *. destruct (l7 <? 126) eqn:?; [lia |].
    destruct Hext as [_ [(? & ->) | [(? & ? & ?) | (? & ? & ?)]]]; lia. }
  assert (m && negb m = false) as -> by (by destruct m).
  assert (negb m && m = false) as -> by (by destruct m).
  rewrite (extension_size _ _ Hext), <- Hk.
  change (zdrop 2 (b0 :: b1 :: ext ++ k ++ rest)) with (ext ++ k ++ rest).
  rewrite ztake_app_len by done.
  replace (zdrop (2 + len ext) (b0 :: b1 :: ext ++ k ++ rest)) with (k ++ rest).
  2: { symmetry. rewrite <- (zdrop_zdrop (len ext) 2) by lia.
       change (zdrop 2 (b0 :: b1 :: ext ++ k ++ rest)) with (ext ++ k ++ rest).
       by apply zdrop_app_len. }
  assert ((if is_nonzero (len ext) then extended_length ext else l7)
    = extension_value l7 ext) as ->.
  { unfold extension_value, is_nonzero. destruct Hext as [Hb Hc].
    destruct Hc as [(? & ->) | [(? & ? & ?) | (? & ? & ?)]]; rewrite ?len_nil;
      split_if; try lia; try done; apply extended_length_be; try done; lia. }
  match goal with |- context [if is_nonzero (len ext) && ?b then _ else _] =>
    assert (is_nonzero (len ext) && b = false) as -> end.
  { unfold is_nonzero at 1, extension_value, length16, length64, max_uint16.
    destruct Hext as [Hb Hc].
    destruct Hc as [(? & ->) | [(-> & Hl & ?) | (-> & Hl & ?)]]; rewrite ?len_nil, ?Hl; try done.
    - simpl. lia.
    - change (127 <? 126) with false. cbn match. rewrite shiftr_63 by lia. lia. }
  destruct (_ <? 2 + len ext + len k) eqn:?; [lia |].
  destruct m; [| done]. rewrite ztake_app_len by done. done.
Qed.

(** The layout that the serializer writes. *)
Lemma serialize_header_layout c f length key : frame_ok c f length key ->
  exists l7 ext,
    extension_ok l7 ext /\ extension_value l7 ext = length /\
    serialize_header c f length key =
      narrow 8 (Z.lor (if f then fin_bit else 0x00) (opcode_value c)) ::
      narrow 8 (Z.lor (if key then mask_bit else 0x00) l7) :: ext ++ default [] key.
Proof.
  intros (_ & Hlen & _). unfold serialize_header.
  destruct (length <? length16) eqn:H16.
  { exists length, []. unfold extension_ok, extension_value, length16 in *. split_and!.
    - constructor.
    - left. split; [lia | done].
    - by rewrite H16.
    - by destruct key. }
  unfold length16 in H16. destruct (length <=? max_uint16) eqn:H32.
  - exists 126, (be_bytes 2 length). unfold extension_ok, max_uint16 in *.
    split_and!; auto with net.
    + right; left. rewrite len_be_bytes, be_value_bytes; lia.
    + change (extension_value 126 (be_bytes 2 length)) with (be_value (be_bytes 2 length)).
      apply be_value_bytes. lia.
    + rewrite <- serialize_length16. by destruct key.
  - exists 127, (be_bytes 8 length). unfold extension_ok, max_uint16 in *.
    split_and!; auto with net.
    + right; right. rewrite len_be_bytes, be_value_bytes; lia.
    + change (extension_value 127 (be_bytes 8 length)) with (be_value (be_bytes 8 length)).
      apply be_value_bytes. lia.
    + rewrite serialize_length64. by destruct key.
Qed.

Lemma parse_serialize out c f length k rest :
  frame_ok c f length k ->
  parse_header out (serialize_header c f length k ++ rest) (if k then true else false) =
    (mk_header f c (if k then true else false) length (default (key out) k),
     len (serialize_header c f length k), error.success : code).
Proof.
  intros Hok. destruct (serialize_header_layout c f length k Hok) as (l7 & ext & He & Hv & Hs).
  destruct Hok as (Hctl & Hlen & Hk). rewrite Hs. cbn [app]. rewrite <- app_assoc.
  destruct (first_byte_read c f) as (H0 & H1 & H2).
  assert (0 <= l7 < 128) as Hl7.
  { destruct He as [_ [(? & _) | [(? & _) | (? & _)]]]; lia. }
  destruct (second_byte_read (if k then true else false) l7 Hl7) as (H3 & H4).
  replace (if k then mask_bit else 0x00)
    with (if (if k then true else false) then mask_bit else 0x00) by (by destruct k).
  erewrite parse_header_layout; try eassumption.
  - rewrite Hv, !len_cons, len_app. f_equal. f_equal; [by destruct k | lia].
  - destruct k as [k |]; [apply Hk | done].
  - by rewrite Hv.
Qed.

Lemma len_serialize_header c f length k : frame_ok c f length k ->
  2 <= len (serialize_header c f length k) <= maximum_header.
Proof.
  intros Hok. destruct (serialize_header_layout c f length k Hok) as (l7 & ext & He & Hv & ->).
  destruct Hok as (_ & _ & Hk). rewrite !len_cons, len_app. unfold maximum_header.
  destruct He as [_ [(_ & ->) | [(_ & -> & _) | (_ & -> & _)]]];
    destruct k as [k |]; simpl; rewrite ?len_nil; unfold mask_size in *; lia.
Qed.

Lemma parse_header_inv out data m h size :
  bytes_ok data -> parse_header out data m = (h, size, error.success : code) ->
  exists b0 b1 ext k rest c,
    let l7 := Z.land b1 length_bits in
    let f := is_nonzero (Z.land b0 fin_bit) in
    data = b0 :: b1 :: ext ++ k ++ rest /\ Z.land b0 reserved_bits = 0 /\
    Z.land b0 opcode_bits = opcode_value c /\
    is_nonzero (Z.land b1 mask_bit) = m /\
    extension_ok l7 ext /\ len k = (if m then mask_size else 0) /\
    (is_control c = true -> f = true /\ extension_value l7 ext <= maximum_control) /\
    h = mk_header f c m (extension_value l7 ext) (if m then k else key out) /\
    size = 2 + len ext + len k.
Proof.
  intros Hd. unfold parse_header.
  destruct (len data <? 2) eqn:Hlen; [done |].
  assert (2 <= len data) as H2 by lia. pose proof (two_bytes data H2) as Hsplit.
  assert (bytes_ok (zdrop 2 data)) as Hrest by auto with net.
  assert (u8 (zget data 1)) as Hb1 by auto with net.
  pose proof (len_zdrop 2 data ltac:(lia)) as Hlr.
  revert Hsplit Hrest Hb1 Hlr. generalize (zget data 0), (zget data 1), (zdrop 2 data).
  intros b0 b1 r -> Hr Hb1 Hlr.
  destruct (is_nonzero (Z.land b0 reserved_bits)) eqn:Hres; [done |].
  destruct (is_defined (Z.land b0 opcode_bits)) eqn:Hdef; [| done].
  apply is_defined_Some in Hdef as [c Hc]. rewrite Hc.
  apply opcode_value_to in Hc. cbn [negb fcode fin masked flength key].
  change (default (fcode out) (Some c)) with c.
  set (f := is_nonzero (Z.land b0 fin_bit)). set (l7 := Z.land b1 length_bits).
  destruct (is_control c && negb f) eqn:Hcf; [done |].
  destruct (is_control c && (l7 >? maximum_control)) eqn:Hcm; [done |].
  destruct (m && _) eqn:Hm1; [done |]. destruct (negb m && _) eqn:Hm2; [done |].
  assert (is_nonzero (Z.land b1 mask_bit) = m) as Hm.
  { by destruct m, (is_nonzero (Z.land b1 mask_bit)). }
  rewrite Hm. clear Hm1 Hm2.
  set (e := if l7 =? length16 then 2 else if l7 =? length64 then 8 else 0).
  destruct (second_byte_split b1 Hb1) as [_ Hl7]. fold l7 in Hl7.
  assert ((l7 = 126 /\ e = 2) \/ (l7 = 127 /\ e = 8) \/ (l7 < 126 /\ e = 0)) as He.
  { unfold e, length16, length64. split_if; lia. }
  assert (Z.land b1 length_bits = l7) as Hl7e by done. clearbody e l7.
  destruct (_ <? 2 + e + _) eqn:Hsz; [done |].
  change (zdrop 2 (b0 :: b1 :: r)) with r. rewrite !len_cons in Hsz.
  assert (len (ztake e r) = e) as Hle.
  { rewrite len_ztake by lia. unfold mask_size in *. destruct m; lia. }
  set (v := if is_nonzero e then extended_length (ztake e r) else l7).
  assert ((e = 0 /\ v = l7) \/ (e <> 0 /\ v = be_value (ztake e r))) as Hvd.
  { unfold v, is_nonzero. destruct (e =? 0) eqn:?; [left; split; [lia | done] |].
    right. split; [lia |]. apply extended_length_be; [auto with net | lia]. }
  pose proof (be_value_bound (ztake e r) ltac:(auto with net)) as Hbound.
  rewrite Hle in Hbound. clearbody v.
  destruct (is_nonzero e && _) eqn:Hv; [done |]. intros Heq.
  exists b0, b1, (ztake e r), (ztake (if m then mask_size else 0) (zdrop e r)),
    (zdrop (if m then mask_size else 0) (zdrop e r)), c.
  assert (extension_ok l7 (ztake e r) /\ v = extension_value l7 (ztake e r)) as [Hext Hval].
  { unfold extension_ok, extension_value, length16, length64, max_uint16 in *.
    destruct He as [[-> ->] | [[-> ->] | [? ->]]]; simpl in Hv.
    - change (256 ^ 2) with 65536 in Hbound.
      split; [split; [auto with net |]; right; left; split_and!; lia |]. simpl. lia.
    - change (256 ^ 8) with (2 ^ 64) in Hbound. rewrite shiftr_63 in Hv by lia.
      split; [split; [auto with net |]; right; right; split_and!; lia |]. simpl. lia.
    - split; [split; [auto with net |]; left; split; [lia | done] |].
      destruct (l7 <? 126) eqn:?; lia. }
  pose proof (len_nonneg r) as Hr0.
  assert (len (ztake (if m then mask_size else 0) (zdrop e r)) = if m then mask_size else 0) as Hlk.
  { rewrite len_ztake, len_zdrop; unfold mask_size in *; destruct m; lia. }
  simpl. rewrite Hl7e. fold f. split_and!; try done.
  - by rewrite !ztake_zdrop.
  - unfold is_nonzero in Hres. lia.
  - intros Hctl. rewrite Hctl in *. simpl in *. rewrite <- Hval.
    split; [by destruct f |]. unfold maximum_control in *.
    lia.
  - rewrite <- Hval. rewrite <- (zdrop_zdrop e 2) in Heq by lia.
    change (zdrop 2 (b0 :: b1 :: r)) with r in Heq. destruct m; congruence.
  - rewrite Hle, Hlk. destruct m; congruence.
Qed.

(** The header bytes are those the serializer writes for the parsed header. *)
Lemma serialize_parse out data m h size :
  bytes_ok data -> parse_header out data m = (h, size, error.success : code) ->
  ztake size data = serialize_header (fcode h) (fin h) (flength h)
    (if m then Some (key h) else None) /\
  masked h = m /\ frame_ok (fcode h) (fin h) (flength h) (if m then Some (key h) else None).
Proof.
  intros Hd Hp. destruct (parse_header_inv _ _ _ _ _ Hd Hp)
    as (b0 & b1 & ext & k & rest & c & -> & H0 & H1 & H3 & Hext & Hk & Hctl & -> & ->).
  apply Forall_cons in Hd as [Hb0 Hd]. apply Forall_cons in Hd as [Hb1 Hd].
  apply Forall_app in Hd as [He Hd]. apply Forall_app in Hd as [Hkb _].
  cbn [fcode fin masked flength key].
  set (f := is_nonzero (Z.land b0 fin_bit)) in *. set (l7 := Z.land b1 length_bits) in *.
  assert (frame_ok c f (extension_value l7 ext) (if m then Some (if m then k else key out) else None)) as Hok.
  { split; [done |]. split; [by apply extension_value_bound |]. by destruct m. }
  split_and!; try done.
  assert (ztake (2 + len ext + len k) (b0 :: b1 :: ext ++ k ++ rest) = b0 :: b1 :: ext ++ k) as ->.
  { change (b0 :: b1 :: ext ++ k ++ rest) with ([b0; b1] ++ ext ++ k ++ rest).
    rewrite app_assoc, app_assoc, ztake_app_len; [by rewrite <- app_assoc |].
    rewrite !len_app. done. }
  destruct (serialize_header_layout _ _ _ _ Hok) as (l7' & ext' & Hext' & Hv & ->).
  assert (l7' = l7 /\ ext' = ext) as [-> ->].
  { unfold extension_value in Hv. destruct Hext as [Hb Hc], Hext' as [Hb' Hc'].
    destruct Hc as [(? & ->) | [(? & Hl & ?) | (? & Hl & ?)]];
    destruct Hc' as [(? & ->) | [(? & Hl' & ?) | (? & Hl' & ?)]];
      split_if; try lia; try (split; [lia | done]).
    all: split; [lia |]; apply be_value_inj; try done; lia. }
  f_equal; [| f_equal].
  - rewrite <- H1. symmetry. by apply first_byte_write.
  - rewrite <- (second_byte_write b1 Hb1) at 1. rewrite H3. by destruct m.
  - destruct m; simpl; [done |]. by apply len_zero_nil in Hk as ->.
Qed.

(** A verdict on a header does not depend on the bytes that follow it, and an
    incomplete header consumes nothing and is shorter than the maximum. *)
Lemma parse_header_extend out data more server h size ec :
  parse_header out data server = (h, size, ec) -> ec <> error.need_more ->
  parse_header out (data ++ more) server = (h, size, ec).
Proof.
  unfold parse_header. intros H Hec. rewrite len_app. pose proof (len_nonneg more).
  destruct (len data <? 2) eqn:Hlen; [congruence |].
  destruct (len data + len more <? 2) eqn:?; [lia |].
  rewrite !zget_app_l by lia.
  destruct (is_nonzero (Z.land _ reserved_bits)); [done |].
  destruct (negb (is_defined _)); [done |]. cbv zeta in *.
  destruct (is_control _ && negb _); [done |].
  destruct (is_control _ && _); [done |].
  destruct (server && _); [done |]. destruct (negb server && _); [done |].
  set (e := if _ =? length16 then 2 else _) in *.
  set (m := is_nonzero (Z.land (zget data 1) mask_bit)) in *.
  cbn [fcode fin masked flength key] in *.
  assert (0 <= e) by (unfold e; split_if; lia).
  assert (0 <= if m then mask_size else 0) by (unfold mask_size; split_if; lia).
  destruct (len data <? 2 + e + _) eqn:Hsz; [congruence |].
  if_head; [lia |].
  rewrite !zdrop_app_le by lia. rewrite ztake_app_le by (rewrite len_zdrop; lia).
  destruct m; [| exact H].
  rewrite ztake_app_le by (rewrite len_zdrop; unfold mask_size in *; lia). exact H.
Qed.

Lemma parse_header_failed out data server h size ec :
  parse_header out data server = (h, size, ec) -> failed ec = true -> size = 0.
Proof.
  unfold parse_header. intros H Hec. cbv zeta in H.
  guards H. by simplify_eq.
Qed.

Lemma parse_header_need_more out data server h size :
  parse_header out data server = (h, size, error.need_more : code) ->
  size = 0 /\ len data < maximum_header.
Proof.
  unfold parse_header, maximum_header. intros H. cbv zeta in H.
  repeat match type of H with
  | (if ?b then _ else _) = _ => destruct b eqn:?; [simplify_eq |]
  end; [| | done]; unfold mask_size in *; split; try lia.
  revert Heqb5. split_if; lia.
Qed.

(** ** Lemmas: mask *)

Lemma len_apply_mask d k o : len (apply_mask d k o) = len d.
Proof. unfold len, apply_mask. by rewrite length_imap. Qed.

Lemma apply_mask_app d e k o :
  0 <= o -> apply_mask (d ++ e) k o = apply_mask d k o ++ apply_mask e k (o + len d).
Proof.
  intros Ho. unfold apply_mask. rewrite imap_app. f_equal. apply imap_ext.
  intros i x _. simpl. do 2 f_equal. unfold mask_size, len.
  rewrite Nat2Z.inj_add, Z.add_mod_idemp_l by lia.
  rewrite (Z.add_mod_idemp_l (o + _)) by lia. f_equal. lia.
Qed.

Lemma apply_mask_twice d k o : apply_mask (apply_mask d k o) k o = d.
Proof.
  apply list_eq. intros i. unfold apply_mask. rewrite !list_lookup_imap.
  destruct (d !! i) as [x |]; simpl; [| done].
  f_equal. rewrite Z.lxor_assoc, Z.lxor_nilpotent, Z.lxor_0_r. done.
Qed.

Lemma lxor_u8 a b : u8 a -> u8 b -> u8 (Z.lxor a b).
Proof.
  unfold in_width. intros Ha Hb. split; [apply Z.lxor_nonneg; lia |].
  destruct (decide (Z.lxor a b = 0)) as [-> | Hn]; [lia |].
  assert (0 < Z.lxor a b) by (pose proof (Z.lxor_nonneg a b); lia).
  apply Z.log2_lt_pow2; [lia |].
  eapply Z.le_lt_trans; [apply Z.log2_lxor; lia |].
  assert (forall c, 0 <= c < 2 ^ 8 -> Z.log2 c < 8) as Hlog.
  { intros c Hc. destruct (decide (c = 0)) as [-> | ]; [simpl; lia |].
    apply Z.log2_lt_pow2; lia. }
  pose proof (Hlog a Ha). pose proof (Hlog b Hb). lia.
Qed.

Lemma apply_mask_ok d k o : bytes_ok d -> bytes_ok k -> bytes_ok (apply_mask d k o).
Proof.
  intros Hd Hk. unfold apply_mask. apply Forall_lookup. intros i x Hi.
  rewrite list_lookup_imap in Hi. destruct (d !! i) as [y |] eqn:Hy; [| done].
  simplify_eq/=. apply lxor_u8; [| auto with net]. by eapply Forall_lookup_1 in Hy.
Qed.

#[export] Hint Rewrite len_apply_mask apply_mask_twice : net.
#[export] Hint Resolve apply_mask_ok : net.

(** ** Lemmas: utf8 *)

Lemma utf8_write_app v a b :
  utf8_write v (a ++ b) =
    (let '(v', ok) := utf8_write v a in if ok then utf8_write v' b else (v', false)).
Proof.
  revert v. induction a as [| x a IH]; intros v; [done |]. simpl.
  destruct (utf8_write_byte v x) as [v' []]; [apply IH | done].
Qed.

(** Between characters only the absence of needed bytes matters. *)
Lemma utf8_accepts_start n l u data : n = 0 ->
  utf8_accepts (mk_utf8 n l u) data = utf8_accepts utf8_init data.
Proof. intros ->. by destruct data. Qed.

Lemma utf8_accepts_cons v b rest :
  utf8_accepts v (b :: rest) =
    (let '(v', ok) := utf8_write_byte v b in ok && utf8_accepts v' rest).
Proof. unfold utf8_accepts. simpl. by destruct (utf8_write_byte v b) as [v' []]. Qed.

(** A continuation byte within the bounds. *)
Lemma utf8_accepts_more n l u b rest : n <> 0 ->
  utf8_accepts (mk_utf8 n l u) (b :: rest) =
    (l <=? b) && (b <=? u) && utf8_accepts (mk_utf8 (n - 1) 0x80 0xbf) rest.
Proof.
  intros Hn. rewrite utf8_accepts_cons. unfold utf8_write_byte. cbn [needed_ lower_ upper_].
  destruct (n =? 0) eqn:?; [lia |].
  destruct (_ || _) eqn:Hb.
  - assert ((l <=? b) && (b <=? u) = false) as -> by lia. done.
  - assert ((l <=? b) && (b <=? u) = true) as -> by lia. done.
Qed.

Lemma utf8_accepts_nil n l u : utf8_accepts (mk_utf8 n l u) [] = (n =? 0).
Proof. done. Qed.

(** One whole character is consumed without trace. *)
Lemma utf8_accepts_char c rest : scalar c ->
  utf8_accepts utf8_init (encode_utf8 c ++ rest) = utf8_accepts utf8_init rest.
Proof.
  unfold scalar. intros Hc. unfold encode_utf8. split_if; cbn [app];
    rewrite utf8_accepts_cons; unfold utf8_write_byte; cbn [needed_ utf8_init].
  1: rewrite (proj2 (Z.leb_le c 0x7f)) by lia; by apply utf8_accepts_start.
  all: pose proof (Z.mod_pos_bound c 64 ltac:(lia));
    pose proof (Z.mod_pos_bound (c / 64) 64 ltac:(lia));
    pose proof (Z.mod_pos_bound (c / 4096) 64 ltac:(lia)).
  all: pose proof (Z.div_mod c 64 ltac:(lia));
    pose proof (Z.div_mod (c / 64) 64 ltac:(lia));
    pose proof (Z.div_mod (c / 4096) 64 ltac:(lia));
    assert (c / 64 / 64 = c / 4096) by (by rewrite Z.div_div by lia);
    assert (c / 4096 / 64 = c / 262144) by (by rewrite Z.div_div by lia).
  all: change (0 =? 0) with true; cbn match; split_if; try lia;
    change (true && ?x) with x; repeat rewrite utf8_accepts_more by lia;
    rewrite utf8_accepts_start by lia;
    repeat match goal with |- (?b && ?x) = ?y =>
      replace b with true by lia; cbn [andb] end; done.
Qed.

Lemma base64_digit q r : 0 <= r < 64 -> (q * 64 + r) / 64 = q /\ (q * 64 + r) `mod` 64 = r.
Proof.
  intros. split.
  - rewrite Z.div_add_l by lia. rewrite Z.div_small by lia. lia.
  - rewrite Z.add_comm, Z_mod_plus_full. apply Z.mod_small. lia.
Qed.

(** The encodings of two, three and four bytes, by their digits. *)
Lemma encode_utf8_2 a b : 0 <= b < 64 -> 2 <= a < 32 ->
  encode_utf8 (a * 64 + b) = [0xc0 + a; 0x80 + b].
Proof.
  intros. unfold encode_utf8. destruct (base64_digit a b) as [-> ->]; [lia |].
  split_if; lia || done.
Qed.

Lemma encode_utf8_3 a b c : 0 <= b < 64 -> 0 <= c < 64 -> 0 <= a < 16 ->
  0x800 <= (a * 64 + b) * 64 + c ->
  encode_utf8 ((a * 64 + b) * 64 + c) = [0xe0 + a; 0x80 + b; 0x80 + c].
Proof.
  intros. unfold encode_utf8. change 4096 with (64 * 64). rewrite <- Z.div_div by lia.
  destruct (base64_digit (a * 64 + b) c) as [-> ->]; [lia |].
  destruct (base64_digit a b) as [-> ->]; [lia |]. split_if; lia || done.
Qed.

Lemma encode_utf8_4 a b c d : 0 <= b < 64 -> 0 <= c < 64 -> 0 <= d < 64 -> 0 <= a < 8 ->
  0x10000 <= ((a * 64 + b) * 64 + c) * 64 + d ->
  encode_utf8 (((a * 64 + b) * 64 + c) * 64 + d) =
    [0xf0 + a; 0x80 + b; 0x80 + c; 0x80 + d].
Proof.
  intros. unfold encode_utf8. change 262144 with (64 * 64 * 64). change 4096 with (64 * 64).
  rewrite <- !Z.div_div by lia.
  destruct (base64_digit ((a * 64 + b) * 64 + c) d) as [-> ->]; [lia |].
  destruct (base64_digit (a * 64 + b) c) as [-> ->]; [lia |].
  destruct (base64_digit a b) as [-> ->]; [lia |]. split_if; lia || done.
Qed.

(** What is accepted begins with the encoding of a scalar value. *)
Lemma utf8_accepts_first l : bytes_ok l -> l <> [] -> utf8_accepts utf8_init l = true ->
  exists c rest, scalar c /\ l = encode_utf8 c ++ rest /\ utf8_accepts utf8_init rest = true.
Proof.
  intros Hl Hne. destruct l as [| b l]; [done | clear Hne].
  apply Forall_cons in Hl as [Hb Hl]. unfold in_width in Hb. simpl in Hb.
  rewrite utf8_accepts_cons. unfold utf8_write_byte. cbn [needed_ utf8_init].
  change (0 =? 0) with true. cbn match.
  destruct (b <=? 0x7f) eqn:H1.
  { rewrite utf8_accepts_start by done. intros H. exists b, l. unfold scalar, encode_utf8.
    destruct (b <? 0x80) eqn:?; [| lia]. split_and!; try done; lia. }
  destruct (_ && (b <=? 0xdf)) eqn:H2.
  { cbn [andb]. destruct l as [| b1 l]; [done |].
    rewrite utf8_accepts_more, utf8_accepts_start by lia. intros H.
    apply andb_true_iff in H as [Hr H].
    exists ((b - 0xc0) * 64 + (b1 - 0x80)), l. rewrite encode_utf8_2 by lia.
    unfold scalar. split_and!; try done; try lia. cbn. do 2 f_equal; [lia |]. f_equal. lia. }
  destruct (_ && (b <=? 0xef)) eqn:H3.
  { cbn [andb]. destruct l as [| b1 [| b2 l]]; [done | |].
    { rewrite utf8_accepts_more by lia. rewrite andb_false_r. done. }
    rewrite !utf8_accepts_more, utf8_accepts_start by lia. intros H.
    apply andb_true_iff in H as [Hr1 H]. apply andb_true_iff in H as [Hr2 H].
    assert (b = 0xe0 -> 0xa0 <= b1) by (intros ->; simpl in Hr1; lia).
    assert (b = 0xed -> b1 <= 0x9f) by (intros ->; simpl in Hr1; lia).
    assert (0x80 <= b1 <= 0xbf) by (revert Hr1; split_if; lia).
    exists (((b - 0xe0) * 64 + (b1 - 0x80)) * 64 + (b2 - 0x80)), l.
    rewrite encode_utf8_3 by lia.
    unfold scalar. split_and!; try done; try lia. cbn. repeat f_equal; lia. }
  destruct (_ && (b <=? 0xf4)) eqn:H4; [| done].
  cbn [andb]. destruct l as [| b1 [| b2 [| b3 l]]]; [done | | |].
  { rewrite utf8_accepts_more by lia. rewrite andb_false_r. done. }
  { rewrite !utf8_accepts_more by lia. rewrite !andb_false_r. done. }
  rewrite !utf8_accepts_more, utf8_accepts_start by lia. intros H.
  apply andb_true_iff in H as [Hr1 H]. apply andb_true_iff in H as [Hr2 H].
  apply andb_true_iff in H as [Hr3 H].
  assert (b = 0xf0 -> 0x90 <= b1) by (intros ->; simpl in Hr1; lia).
  assert (b = 0xf4 -> b1 <= 0x8f) by (intros ->; simpl in Hr1; lia).
  assert (0x80 <= b1 <= 0xbf) by (revert Hr1; split_if; lia).
  exists ((((b - 0xf0) * 64 + (b1 - 0x80)) * 64 + (b2 - 0x80)) * 64 + (b3 - 0x80)), l.
  rewrite encode_utf8_4 by lia.
  unfold scalar. split_and!; try done; try lia. cbn. repeat f_equal; lia.
Qed.

Lemma encode_utf8_nonempty c : encode_utf8 c <> [].
Proof. unfold encode_utf8. by split_if. Qed.

Lemma utf8_accepts_sound l : bytes_ok l -> utf8_accepts utf8_init l = true -> is_utf8 l.
Proof.
  remember (length l) as n eqn:Hn. revert l Hn.
  induction (lt_wf n) as [n _ IH]. intros l -> Hl H.
  destruct (decide (l = [])) as [-> | Hne]; [by exists [] |].
  destruct (utf8_accepts_first l Hl Hne H) as (c & rest & Hc & -> & Hrest).
  apply Forall_app in Hl as [_ Hl].
  destruct (IH (length rest)) with (l := rest) as (cs & Hcs & ->); try done.
  - rewrite length_app. pose proof (encode_utf8_nonempty c).
    destruct (encode_utf8 c); simpl; [done | lia].
  - exists (c :: cs). split; [by constructor | done].
Qed.

Lemma utf8_accepts_complete cs rest : Forall scalar cs ->
  utf8_accepts utf8_init (concat (map encode_utf8 cs) ++ rest) = utf8_accepts utf8_init rest.
Proof.
  induction 1 as [| c cs Hc _ IH]; [done |]. simpl.
  rewrite <- app_assoc, utf8_accepts_char by done. apply IH.
Qed.

(** ** Properties *)

(** A header that the serializer writes for a frame that a peer may send is
    parsed back, whatever bytes follow it, to the same opcode, final bit,
    length and key, consuming exactly the bytes that were written, of which
    there are at most the maximum header size. *)
Theorem parse_header_serialize_header out c f length k rest :
  frame_ok c f length k ->
  parse_header out (serialize_header c f length k ++ rest) (if k then true else false) =
    (mk_header f c (if k then true else false) length (default (key out) k),
     len (serialize_header c f length k), error.success : code) /\
  len (serialize_header c f length k) <= maximum_header.
Proof.
  intros Hok. split; [by apply parse_serialize | by apply len_serialize_header].
Qed.

Lemma parse_header_serialize_header_witness :
  parse_header frame_header_init
    (serialize_header binary true 70000 (Some [1; 2; 3; 4]) ++ [9]) true =
    (mk_header true binary true 70000 [1; 2; 3; 4], 14, error.success : code).
Proof.
  refine (proj1 (parse_header_serialize_header frame_header_init binary true 70000
    (Some [1; 2; 3; 4]) [9] _)).
  unfold frame_ok. split_and!; try done. by apply is_bytes_ok.
Defined.

(** The header encoding is canonical.  When a parse succeeds, the bytes it
    consumed are exactly the serialization of the header it returns, which is
    masked as the role of the parser requires and is a frame that a peer may
    send (whole and short if control, length below 2^63).  The verdict of a
    parse is final: more bytes change it only if it was need_more, which
    consumes nothing and is returned only below the maximum header size. *)
Theorem parse_header_canonical out data server h size ec :
  bytes_ok data -> parse_header out data server = (h, size, ec) ->
  (ec = error.success ->
     ztake size data = serialize_header (fcode h) (fin h) (flength h)
       (if server then Some (key h) else None) /\
     masked h = server /\
     frame_ok (fcode h) (fin h) (flength h) (if server then Some (key h) else None)) /\
  (ec <> error.need_more -> forall more,
     parse_header out (data ++ more) server = (h, size, ec)) /\
  (ec = error.need_more -> size = 0 /\ len data < maximum_header).
Proof.
  intros Hd Hp. split_and!.
  - intros ->. by eapply serialize_parse.
  - intros Hne more. by apply parse_header_extend.
  - intros ->. by eapply parse_header_need_more.
Qed.

Lemma parse_header_canonical_witness :
  ztake 2 [0x81; 0x05; 0x48] = serialize_header text true 5 None.
Proof.
  refine (proj1 (proj1 (parse_header_canonical frame_header_init [0x81; 0x05; 0x48] false
    (mk_header true text false 5 [0; 0; 0; 0]) 2 error.success _ _) _)).
  - by apply is_bytes_ok.
  - reflexivity.
  - reflexivity.
Defined.

(** The incremental validator implements rfc3629.  However the bytes of a
    text are divided into writes, all writes succeed and the text finishes
    outside of a character exactly when the bytes are the encoding of a
    sequence of unicode scalar values (no overlong forms, no surrogates, no
    values above 10FFFF). *)
Theorem utf8_validator_rfc3629 (writes : list bytes) :
  bytes_ok (concat writes) ->
  let '(v, ok) := fold_left (fun '(v, ok) data =>
      if (ok : bool) then utf8_write v data else (v, false)) writes (utf8_init, true) in
  ok && (utf8_finish v).2 = true <-> is_utf8 (concat writes).
Proof.
  intros Hok.
  assert (forall ws v ok, fold_left (fun '(v, ok) data =>
      if (ok : bool) then utf8_write v data else (v, false)) ws (v, ok) =
    if (ok : bool) then utf8_write v (concat ws) else (v, false)) as Hfold.
  { clear. induction ws as [| w ws IH]; intros v ok; [by destruct ok |]. simpl.
    destruct ok; [| by rewrite IH]. rewrite utf8_write_app.
    destruct (utf8_write v w) as [v' []]; by rewrite IH. }
  rewrite Hfold. destruct (utf8_write utf8_init (concat writes)) as [v ok] eqn:Hw.
  assert (ok && (utf8_finish v).2 = utf8_accepts utf8_init (concat writes)) as ->.
  { unfold utf8_accepts. by rewrite Hw. }
  split; [by apply utf8_accepts_sound |].
  intros (cs & Hcs & ->). rewrite <- (app_nil_r (concat _)).
  by rewrite utf8_accepts_complete.
Qed.

Lemma utf8_validator_rfc3629_witness :
  is_utf8 (concat [[0x41; 0xe2]; [0x82]; [0xac; 0xf0; 0x9f; 0x98; 0x80]]).
Proof.
  refine (proj1 (utf8_validator_rfc3629
    [[0x41; 0xe2]; [0x82]; [0xac; 0xf0; 0x9f; 0x98; 0x80]] _) _).
  - by apply is_bytes_ok.
  - reflexivity.
Defined.

(** Masking is an involution, keeps the size, and may be applied piecewise:
    the mask of a payload is the mask of its parts at their offsets in it. *)
Theorem apply_mask_piecewise d e k offset :
  0 <= offset ->
  apply_mask (apply_mask d k offset) k offset = d /\
  len (apply_mask d k offset) = len d /\
  apply_mask (d ++ e) k offset = apply_mask d k offset ++ apply_mask e k (offset + len d).
Proof.
  intros Ho. split_and!;
    [apply apply_mask_twice | apply len_apply_mask | by apply apply_mask_app].
Qed.

Lemma apply_mask_piecewise_witness :
  apply_mask (apply_mask [1; 2; 3] [7; 8; 9; 10] 2) [7; 8; 9; 10] 2 = [1; 2; 3].
Proof. refine (proj1 (apply_mask_piecewise [1; 2; 3] [4] [7; 8; 9; 10] 2 _)). lia. Defined.

(** A close payload is accepted exactly when it is empty, or a valid close
    code and a utf8 reason, which are returned; every payload that the code
    itself sends is accepted with its close code and no reason. *)
Theorem parse_close_valid payload :
  bytes_ok payload ->
  (parse_close payload).1.2 = true <->
  payload = [] \/
  (exists value reason, payload = be_bytes 2 value ++ reason /\ u16 value /\
     is_valid_close_code value = true /\ is_utf8 reason /\
     parse_close payload = (value, reason, true, error.success : code)).
Proof.
  intros Hok. destruct payload as [| a [| b text]].
  - split; [by left | done].
  - split; [done |]. intros [? | (v & r & Hp & _)]; [done |].
    apply (f_equal length) in Hp. rewrite length_app, length_be_bytes in Hp. simpl in Hp. lia.
  - apply Forall_cons in Hok as [Ha Hok]. apply Forall_cons in Hok as [Hb Hok].
    assert (narrow 16 (Z.lor (Z.shiftl a 8) b) = a * 256 + b) as Hv.
    { unfold in_width in *. rewrite lor_add by lia. apply Z.mod_small.
      simpl in *. lia. }
    assert (be_bytes 2 (a * 256 + b) = [a; b]) as Hbe.
    { pose proof (be_bytes_value [a; b]) as He. apply He. rewrite !Forall_cons. by split_and!. }
    assert (parse_close (a :: b :: text) =
      if negb (is_valid_close_code (a * 256 + b))
      then (a * 256 + b, [], false, error.bad_close_code : code) else
      if negb (utf8_accepts utf8_init text)
      then (a * 256 + b, [], false, error.bad_close_payload : code)
      else (a * 256 + b, text, true, error.success : code)) as ->.
    { unfold parse_close, utf8_accepts.
      change (zget (a :: b :: text) 0) with a. change (zget (a :: b :: text) 1) with b.
      rewrite Hv. change (zdrop 2 (a :: b :: text)) with text.
      destruct (is_valid_close_code _); [| done]. cbn [negb].
      destruct (utf8_write utf8_init text) as [v []]; [| done]. by destruct (utf8_finish v). }
    split.
    + destruct (is_valid_close_code _) eqn:Hc; [| done]. cbn [negb].
      destruct (utf8_accepts _ _) eqn:Hu; [| done]. intros _. right.
      exists (a * 256 + b), text. rewrite Hbe. split_and!; try done.
      * unfold in_width in *. simpl in *. lia.
      * by apply utf8_accepts_sound.
    + intros [? | (v & r & Hp & Hw & Hc & (cs & Hcs & ->) & Hr)]; [done |].
      by rewrite Hr.
Qed.

Lemma parse_close_valid_witness :
  (parse_close (close_payload going_away ++ [0x6f; 0x6b])).1.2 = true.
Proof.
  refine (proj2 (parse_close_valid (close_payload going_away ++ [0x6f; 0x6b]) _) _).
  - by apply is_bytes_ok.
  - right. exists 1001, [0x6f; 0x6b]. split_and!; try done.
    exists [0x6f; 0x6b]. split; [| done]. repeat constructor; unfold scalar; lia.
Defined.

End ws.
