(* ===== verification/DynamicBuffer.v ===== *)
(** * DynamicBuffer: what the readers require of a message buffer

    The interface between the protocol readers and the message buffer that
    they append to (the [prepare], copy and [commit] of a dynamic buffer).
    The flat buffer implements it; the readers are verified against it. *)

From S2P Require Import Prelude.
From S2P Require Import FlatBuffer.

Class DynamicBuffer (B : Type) := {
  view : B -> bytes;
  limit : B -> Z;
  valid : B -> Prop;
  room : Z -> B -> Prop;
  prepare : Z -> B -> option B;
  fill : bytes -> B -> B;
  commit : Z -> B -> B;
  prepare_law n b : valid b -> 0 <= n ->
    match prepare n b with
    | None => limit b < len (view b) + n
    | Some b' => valid b' /\ view b' = view b /\ limit b' = limit b /\ room n b' /\
        len (view b) + n <= limit b
    end;
  fill_law d b : valid b -> room (len d) b ->
    valid (fill d b) /\ view (fill d b) = view b /\ limit (fill d b) = limit b;
  commit_law d b : valid b -> room (len d) b -> len (view b) + len d <= limit b ->
    valid (commit (len d) (fill d b)) /\
    view (commit (len d) (fill d b)) = view b ++ d /\
    limit (commit (len d) (fill d b)) = limit b
}.

(** Buffers that a reader cannot tell apart. *)
Definition same_buffer {B} `{DynamicBuffer B} (a b : B) : Prop :=
  valid a /\ valid b /\ view a = view b /\ limit a = limit b.

(** [prepare], copy and [commit] of a whole piece of data. *)
Definition append {B} `{DynamicBuffer B} (d : bytes) (b : B) : option B :=
  (fun b => commit (len d) (fill d b)) <$> prepare (len d) b.

Lemma append_law {B} `{DynamicBuffer B} d (b : B) : valid b ->
  match append d b with
  | None => limit b < len (view b) + len d
  | Some b' => valid b' /\ view b' = view b ++ d /\ limit b' = limit b /\
      len (view b) + len d <= limit b
  end.
Proof.
  intros Hb. unfold append. pose proof (prepare_law (len d) b Hb (len_nonneg d)) as Hp.
  destruct (prepare (len d) b) as [c |]; simpl; [| done].
  destruct Hp as (Hc & Hv & Hl & Hr & Hfit).
  destruct (commit_law d c Hc Hr) as (? & -> & ->); [rewrite Hv, Hl; lia |].
  by rewrite Hv, Hl.
Qed.

Lemma same_buffer_refl {B} `{DynamicBuffer B} (b : B) : valid b -> same_buffer b b.
Proof. done. Qed.

Lemma same_buffer_sym {B} `{DynamicBuffer B} (a b : B) : same_buffer a b -> same_buffer b a.
Proof. intros (? & ? & ? & ?). by split_and!. Qed.

Lemma same_buffer_trans {B} `{DynamicBuffer B} (a b c : B) :
  same_buffer a b -> same_buffer b c -> same_buffer a c.
Proof. intros (? & ? & ? & ?) (? & ? & ? & ?). split_and!; congruence. Qed.

#[export] Hint Resolve same_buffer_refl same_buffer_sym : net.

(** The flat buffer keeps its promise. *)
#[global] Program Instance flat_buffer_dynamic : DynamicBuffer flat_buffer.t := {|
  view := flat_buffer.data;
  limit := flat_buffer.limit_;
  valid := flat_buffer.wf;
  room n b := flat_buffer.end_ b + n <= len (flat_buffer.buffer_ b);
  prepare := flat_buffer.prepare;
  fill := flat_buffer.fill;
  commit := flat_buffer.commit
|}.
Next Obligation.
  intros n b Hb Hn. pose proof (flat_buffer.prepare_spec n b Hb Hn) as H.
  destruct (flat_buffer.prepare n b) as [c |]; [| done].
  destruct H as (? & ? & ? & ? & ?). done.
Qed.
Next Obligation.
  intros d b Hb Hr. simpl in *. pose proof (len_nonneg d).
  assert (flat_buffer.wf (flat_buffer.fill d b)) as Hw.
  { unfold flat_buffer.wf in *; simpl. rewrite len_overwrite; lia. }
  split; [done |]. split; [| done]. rewrite !flat_buffer.data_eq by done. simpl.
  destruct Hb as (? & ? & ?). rewrite ztake_overwrite by lia. done.
Qed.
Next Obligation.
  intros d b Hb Hr Hl. simpl in *.
  destruct (flat_buffer.append_spec d (len d) b Hb) as [Hw Hd]; try done.
  { pose proof (len_nonneg d). lia. }
  rewrite Hd, ztake_ge by lia. done.
Qed.
