(* ===== verification/WsReader.v ===== *)
(** * WsReader: assembly of websocket messages from received bytes

    Models [include/bitcoin/network/ws/reader.hpp] and [src/ws/reader.cpp].
    The state is the reader's members; the message buffer is any
    [DynamicBuffer] (the code passes a flat buffer).  The loop of [put] runs
    on fuel; [put] supplies one more than the number of bytes it is given,
    which is always enough ([put_total]). *)

From S2P Require Import Prelude.
From S2P Require Import TlsConstants.
From S2P Require Import Errors.
From S2P Require Import FlatBuffer.
From S2P Require Import DynamicBuffer.
From S2P Require Import WsFrame.

Module ws_reader.
Import ws.

(** ** State *)

Inductive event := none | message | got_ping | got_pong | got_close.

#[global] Instance event_eq_dec : EqDecision event.
Proof. solve_decision. Defined.

Record t := mk {
  maximum_ : Z;
  server_ : bool;
  frame_ : frame_header;
  offset_ : Z;
  payload_ : bool;
  continuing_ : bool;
  binary_ : bool;
  size_ : Z;
  utf8_ : utf8_validator;
  control_ : bytes
}.

Definition make (maximum : Z) (server : bool) : t :=
  mk maximum server frame_header_init 0 false false false 0 utf8_init [].

(** Assignments to the members. *)
Definition set_frame (v : frame_header) (r : t) : t :=
  mk (maximum_ r) (server_ r) v (offset_ r) (payload_ r) (continuing_ r)
    (binary_ r) (size_ r) (utf8_ r) (control_ r).
Definition set_offset (v : Z) (r : t) : t :=
  mk (maximum_ r) (server_ r) (frame_ r) v (payload_ r) (continuing_ r)
    (binary_ r) (size_ r) (utf8_ r) (control_ r).
Definition set_payload (v : bool) (r : t) : t :=
  mk (maximum_ r) (server_ r) (frame_ r) (offset_ r) v (continuing_ r)
    (binary_ r) (size_ r) (utf8_ r) (control_ r).
Definition set_continuing (v : bool) (r : t) : t :=
  mk (maximum_ r) (server_ r) (frame_ r) (offset_ r) (payload_ r) v
    (binary_ r) (size_ r) (utf8_ r) (control_ r).
Definition set_binary (v : bool) (r : t) : t :=
  mk (maximum_ r) (server_ r) (frame_ r) (offset_ r) (payload_ r) (continuing_ r)
    v (size_ r) (utf8_ r) (control_ r).
Definition set_size (v : Z) (r : t) : t :=
  mk (maximum_ r) (server_ r) (frame_ r) (offset_ r) (payload_ r) (continuing_ r)
    (binary_ r) v (utf8_ r) (control_ r).
Definition set_utf8 (v : utf8_validator) (r : t) : t :=
  mk (maximum_ r) (server_ r) (frame_ r) (offset_ r) (payload_ r) (continuing_ r)
    (binary_ r) (size_ r) v (control_ r).
Definition set_control (v : bytes) (r : t) : t :=
  mk (maximum_ r) (server_ r) (frame_ r) (offset_ r) (payload_ r) (continuing_ r)
    (binary_ r) (size_ r) (utf8_ r) v.

(** ** Operations *)

Section operations.
Context {B : Type} `{DynamicBuffer B}.

(** The reader, the buffer, the event, the error and the size consumed. *)
Definition result : Type := (t * B * event * code * Z)%type.

Definition success : code := error.success.

(** The event of a completed control frame. *)
Definition control_event (r : t) : event * code :=
  match fcode (frame_ r) with
  | ping => (got_ping, success)
  | pong => (got_pong, success)
  | _ =>
    let '(_, _, parsed, ec) := parse_close (control_ r) in
    (if parsed then got_close else none, ec)
  end.

(** The copy of payload into the message: the updated reader and buffer, or
    the result of an early return. *)
Definition copy_payload (size : Z) (data : bytes) (r : t) (msg : B) : (t * B) + result :=
  if size =? 0 then inl (r, msg) else
  match prepare size msg with
  | None => inr (r, msg, none, error.websocket_buffer_overflow : code, 0)
  | Some msg =>
    let target := ztake size data in
    let target := if masked (frame_ r)
      then apply_mask target (key (frame_ r)) (offset_ r) else target in
    let msg := fill target msg in
    let '(utf8, written) := if binary_ r then (utf8_ r, true)
      else utf8_write (utf8_ r) target in
    let r := set_utf8 utf8 r in
    if negb written
    then inr (r, msg, none, error.bad_frame_payload : code, 0)
    else inl (r, commit size msg)
  end.

(** What follows the copy of [size] bytes of payload. *)
Definition finish_payload (size : Z) (r : t) (msg : B) : result :=
  let r := set_size (narrow 64 (size_ r + size))
    (set_offset (narrow 64 (offset_ r + size)) r) in
  if offset_ r <? flength (frame_ r) then (r, msg, none, success, size) else
  let r := set_continuing (negb (fin (frame_ r))) (set_payload false r) in
  if fin (frame_ r) then
    let '(utf8, finished) := if binary_ r then (utf8_ r, true)
      else utf8_finish (utf8_ r) in
    let r := set_utf8 utf8 r in
    if negb finished
    then (r, msg, none, error.bad_frame_payload : code, size)
    else (r, msg, message, success, size)
  else (r, msg, none, success, size).

Definition put_payload (data : bytes) (r : t) (msg : B) : result :=
  let remaining := usub (flength (frame_ r)) (offset_ r) in
  if is_control (fcode (frame_ r)) then
    if len data <? remaining then (r, msg, none, success, 0) else
    let size := remaining in
    let control := ztake size data in
    let control := if masked (frame_ r)
      then apply_mask control (key (frame_ r)) 0 else control in
    let r := set_payload false (set_control control r) in
    let '(out, ec) := control_event r in
    (r, msg, out, ec, size)
  else
  let size := remaining `min` len data in
  match copy_payload size data r msg with
  | inr failure => failure
  | inl (r, msg) => finish_payload size r msg
  end.

(** The switch on the opcode of a parsed header: the reader or the error. *)
Definition start_frame (r : t) : t + (t * code) :=
  match fcode (frame_ r) with
  | continuation =>
    if negb (continuing_ r) then inr (r, error.bad_continuation : code) else inl r
  | text | binary =>
    if continuing_ r then inr (r, error.bad_data_frame : code) else
    inl (set_size 0 (set_utf8 utf8_init
      (set_binary (bool_decide (fcode (frame_ r) = binary)) r)))
  | _ => inl (set_control [] r)
  end.

Definition put_header (data : bytes) (r : t) (msg : B) : result :=
  let '(frame, size, ec) := parse_header (frame_ r) data (server_ r) in
  let r := set_frame frame r in
  if failed ec then
    (r, msg, none, if decide (ec = error.need_more) then success else ec, 0) else
  match start_frame r with
  | inr (r, ec) => (r, msg, none, ec, 0)
  | inl r =>
    if negb (is_control (fcode (frame_ r))) &&
      (flength (frame_ r) >? usub (maximum_ r) (maximum_ r `min` size_ r))
    then (r, msg, none, error.message_too_big : code, 0) else
    let r := set_payload true (set_offset 0 r) in
    if flength (frame_ r) =? 0 then
      let '(r, msg, out, ec, _) := put_payload [] r msg in (r, msg, out, ec, size)
    else (r, msg, none, success, size)
  end.

(** One iteration of the loop of [put]. *)
Definition put_step (data : bytes) (r : t) (msg : B) : result :=
  if payload_ r then put_payload data r msg else put_header data r msg.

Fixpoint put_loop (fuel : nat) (data : bytes) (used : Z) (r : t) (msg : B)
  : option result :=
  match fuel with
  | O => None
  | S fuel =>
    let '(r, msg, out, ec, step) := put_step (zdrop used data) r msg in
    let used := used + step in
    if failed ec || negb (bool_decide (out = none))
    then Some (r, msg, out, ec, used) else
    if step =? 0 then Some (r, msg, out, error.need_more : code, used) else
    put_loop fuel data used r msg
  end.

Definition put (data : bytes) (r : t) (msg : B) : option result :=
  put_loop (S (length data)) data 0 r msg.

End operations.

(** ** Invariant *)

(** The reader holds a header between frames and within a frame the header of
    that frame, of which [offset_] bytes are consumed; the message never
    exceeds the maximum. *)
Definition in_frame (r : t) : Prop :=
  0 < flength (frame_ r) < 2 ^ 63 /\
  (masked (frame_ r) = true -> len (key (frame_ r)) = mask_size /\ bytes_ok (key (frame_ r))) /\
  (if is_control (fcode (frame_ r))
   then offset_ r = 0 /\ flength (frame_ r) <= maximum_control
   else offset_ r < flength (frame_ r) /\
     size_ r + (flength (frame_ r) - offset_ r) <= maximum_ r).

Definition wf (r : t) : Prop :=
  0 <= maximum_ r < 2 ^ 64 /\ 0 <= size_ r <= maximum_ r /\
  0 <= offset_ r /\ (payload_ r = true -> in_frame r).

(** Readers that behave alike: the header matters only within a frame, and its
    key only if the frame is masked. *)
Definition same_frame (a b : frame_header) : Prop :=
  fin a = fin b /\ fcode a = fcode b /\ masked a = masked b /\
  flength a = flength b /\ (masked a = true -> key a = key b).

Definition same_reader (a b : t) : Prop :=
  maximum_ a = maximum_ b /\ server_ a = server_ b /\ offset_ a = offset_ b /\
  payload_ a = payload_ b /\ continuing_ a = continuing_ b /\ binary_ a = binary_ b /\
  size_ a = size_ b /\ utf8_ a = utf8_ b /\ control_ a = control_ b /\
  (payload_ a = true -> same_frame (frame_ a) (frame_ b)).

Section equivalence.
Context {B : Type} `{DynamicBuffer B}.

(** Results that a caller cannot tell apart. *)
Definition same_result (a b : result (B := B)) : Prop :=
  let '(r1, m1, o1, e1, u1) := a in
  let '(r2, m2, o2, e2, u2) := b in
  same_reader r1 r2 /\ same_buffer m1 m2 /\ o1 = o2 /\ e1 = e2 /\ u1 = u2.

Definition result_code (a : result (B := B)) : code := let '(_, _, _, ec, _) := a in ec.

(** The reader refused the bytes (the caller drops the connection). *)
Definition refused (a : result (B := B)) : Prop :=
  failed (result_code a) = true /\ result_code a <> error.need_more.

(** The same result, or both refused (possibly for different reasons). *)
Definition same_outcome (a b : result (B := B)) : Prop :=
  same_result a b \/ (refused a /\ refused b).

Definition add_used (used : Z) (a : result (B := B)) : result (B := B) :=
  let '(r, m, o, e, u) := a in (r, m, o, e, used + u).

(** The caller's use of the reader: bytes arrive in pieces, and what a put
    leaves unconsumed is kept and put again with the next piece. *)
Fixpoint feed (pending : bytes) (pieces : list bytes) (r : t) (msg : B)
  : option (result (B := B)) :=
  match pieces with
  | [] => put pending r msg
  | piece :: rest =>
    match put (pending ++ piece) r msg with
    | Some (r', msg', out, ec, used) =>
      if decide (ec = error.need_more) then
        add_used used <$> feed (zdrop used (pending ++ piece)) rest r' msg'
      else Some (r', msg', out, ec, used)
    | None => None
    end
  end.

End equivalence.

(** ** Lemmas: one step *)

Section lemmas.
Context {B : Type} `{DynamicBuffer B}.
Implicit Types (r : t) (m : B) (data : bytes).

(** What a header or payload step may rely on: the frame of the reader, begun
    or about to begin. *)
Definition framed (r : t) : Prop :=
  0 <= maximum_ r < 2 ^ 64 /\ 0 <= size_ r <= maximum_ r /\
  0 <= offset_ r <= flength (frame_ r) /\ flength (frame_ r) < 2 ^ 63 /\
  (masked (frame_ r) = true -> len (key (frame_ r)) = mask_size /\ bytes_ok (key (frame_ r))) /\
  (if is_control (fcode (frame_ r))
   then offset_ r = 0 /\ flength (frame_ r) <= maximum_control
   else size_ r + (flength (frame_ r) - offset_ r) <= maximum_ r).

Lemma framed_remaining r : framed r ->
  usub (flength (frame_ r)) (offset_ r) = flength (frame_ r) - offset_ r.
Proof. intros (_ & _ & ? & ? & _). apply usub_le; lia. Qed.

Lemma in_frame_framed r : wf r -> payload_ r = true -> framed r.
Proof.
  intros (? & ? & ? & Hf) Hp. destruct (Hf Hp) as (? & ? & Hc). unfold framed.
  destruct (is_control _); split_and!; try done; lia.
Qed.

(** The payload bytes as they were before masking. *)
Definition unmasked (r : t) (n : Z) (data : bytes) : bytes :=
  if masked (frame_ r)
  then apply_mask (ztake n data) (key (frame_ r)) (offset_ r) else ztake n data.

Definition validated (r : t) (d : bytes) : utf8_validator * bool :=
  if binary_ r then (utf8_ r, true) else utf8_write (utf8_ r) d.

Lemma len_unmasked r n data : 0 <= n <= len data -> len (unmasked r n data) = n.
Proof.
  intros. unfold unmasked. destruct (masked _); rewrite ?len_apply_mask, len_ztake; lia.
Qed.

Lemma copy_payload_spec n data r m : valid m -> 0 <= n <= len data ->
  let d := unmasked r n data in
  match copy_payload n data r m with
  | inl (r', m') =>
      (validated r d).2 = true /\ r' = set_utf8 (validated r d).1 r /\
      valid m' /\ view m' = view m ++ d /\ limit m' = limit m /\
      (n = 0 \/ len (view m) + n <= limit m)
  | inr (r', m', o, e, s) =>
      o = none /\ s = 0 /\ valid m' /\ view m' = view m /\ limit m' = limit m /\ n <> 0 /\
      (((validated r d).2 = false /\ len (view m) + n <= limit m /\
         e = error.bad_frame_payload /\ r' = set_utf8 (validated r d).1 r) \/
       (limit m < len (view m) + n /\ e = error.websocket_buffer_overflow /\ r' = r))
  end.
Proof.
  intros Hm Hn d. unfold copy_payload. pose proof (len_unmasked r n data Hn) as Hd. fold d in Hd.
  destruct (n =? 0) eqn:Hn0.
  { assert (d = []) as -> by (apply len_zero_nil; lia). unfold validated. simpl.
    rewrite app_nil_r. split_and!; try done; destruct (binary_ r), r; try done; by left. }
  pose proof (prepare_law n m Hm ltac:(lia)) as Hp.
  destruct (prepare n m) as [c |].
  2: { split_and!; try done; [lia | by right]. }
  destruct Hp as (Hc & Hv & Hl & Hr & Hfit). fold (unmasked r n data). fold d.
  fold (validated r d). destruct (validated r d) as [u ok] eqn:Hval.
  rewrite <- Hd in Hr. destruct (fill_law d c Hc Hr) as (Hf & Hfv & Hfl).
  destruct ok; simpl.
  - destruct (commit_law d c Hc Hr) as (Hw & Hwv & Hwl); [rewrite Hv, Hl; lia |]. rewrite Hd in *.
    rewrite Hwv, Hwl, Hv, Hl. split_and!; try done. right. lia.
  - rewrite Hfv, Hfl. split_and!; try done; [lia | by left].
Qed.

(** The state after a piece of payload that does not complete its frame. *)
Definition advance (n : Z) (u : utf8_validator) (r : t) : t :=
  mk (maximum_ r) (server_ r) (frame_ r) (offset_ r + n) (payload_ r) (continuing_ r)
    (binary_ r) (size_ r + n) u (control_ r).

Lemma finish_payload_eq n u r m : framed r -> is_control (fcode (frame_ r)) = false ->
  0 <= n <= flength (frame_ r) - offset_ r ->
  finish_payload n (set_utf8 u r) m =
    if offset_ r + n <? flength (frame_ r) then (advance n u r, m, none, success, n) else
    let r' := set_continuing (negb (fin (frame_ r))) (set_payload false (advance n u r)) in
    if fin (frame_ r) then
      if binary_ r then (r', m, message, success, n) else
      if needed_ u =? 0
      then (set_utf8 (utf8_finish u).1 r', m, message, success, n)
      else (set_utf8 (utf8_finish u).1 r', m, none, error.bad_frame_payload : code, n)
    else (r', m, none, success, n).
Proof.
  intros (? & ? & ? & ? & ? & Hc) Hnc Hn. rewrite Hnc in Hc. unfold finish_payload.
  destruct r as [mx sv fr off pl ct bn sz ut cn]; simpl in *.
  unfold narrow. rewrite !Z.mod_small by lia.
  split_if; simpl; try done; destruct bn; simpl; try done; destruct (needed_ u =? 0); done.
Qed.

(** The properties of every step. *)
Definition step_ok (data : bytes) (r : t) (m : B) (res : result (B := B)) : Prop :=
  let '(r', m', o, e, s) := res in
  wf r' /\ valid m' /\ limit m' = limit m /\ maximum_ r' = maximum_ r /\
  server_ r' = server_ r /\ 0 <= s <= len data /\
  (exists d, view m' = view m ++ d /\ len d <= s) /\
  (o <> none -> e = success) /\ e <> error.need_more.

Lemma parse_close_code p : let '(_, _, parsed, e) := parse_close p in
  (parsed = true -> e = success) /\ (parsed = false -> failed e = true) /\
  e <> error.need_more.
Proof.
  unfold parse_close. destruct p as [| a [| b l]]; [by split_and! | by split_and! |]. cbv zeta.
  destruct (negb (is_valid_close_code _)); [by split_and! |].
  destruct (utf8_write _ _) as [v w]. destruct (negb w || _); by split_and!.
Qed.

Lemma control_event_ok r : let '(o, e) := control_event r in
  (o <> none -> e = success) /\ (o = none -> failed e = true) /\ e <> error.need_more.
Proof.
  unfold control_event. pose proof (parse_close_code (control_ r)) as Hp.
  destruct (fcode (frame_ r)); try (by split_and!).
  all: destruct (parse_close _) as [[[v d] ok] e]; destruct Hp as (? & ? & ?);
    destruct ok; split_and!; auto; done.
Qed.

(** The step may begin: the frame is empty or some of it is expected. *)
Definition startable (r : t) : Prop :=
  framed r /\ (flength (frame_ r) = 0 \/ offset_ r < flength (frame_ r)).

Lemma startable_in_frame r : startable r -> 0 < flength (frame_ r) -> in_frame r.
Proof.
  intros [(? & ? & ? & ? & ? & Hc) Hs] Hl. unfold in_frame.
  destruct (is_control _); split_and!; try done; lia.
Qed.

Lemma in_frame_startable r : wf r -> payload_ r = true -> startable r.
Proof.
  intros Hr Hp. split; [by apply in_frame_framed |]. right.
  destruct Hr as (_ & _ & _ & Hf). destruct (Hf Hp) as (? & _ & Hc).
  destruct (is_control _); lia.
Qed.

Lemma nothing_added (v : bytes) s : 0 <= s -> exists d, v = v ++ d /\ len d <= s.
Proof. exists []. by rewrite app_nil_r, len_nil. Qed.

(** A piece of payload leaves the reader within the frame or between frames. *)
Lemma finish_payload_ok n u r m : startable r -> is_control (fcode (frame_ r)) = false ->
  0 <= n <= flength (frame_ r) - offset_ r ->
  let '(r', m', o, e, s) := finish_payload n (set_utf8 u r) m in
  wf r' /\ m' = m /\ maximum_ r' = maximum_ r /\ server_ r' = server_ r /\ s = n /\
  (o <> none -> e = success) /\ e <> error.need_more.
Proof.
  intros Hs Hnc Hn. pose proof Hs as [Hr Hlen]. rewrite finish_payload_eq by done.
  destruct Hr as (? & ? & ? & ? & ? & Hc). rewrite Hnc in Hc.
  assert (forall b, wf (set_continuing b (set_payload false (advance n u r)))) as Hw.
  { intros b. unfold wf; simpl. split_and!; try done; lia. }
  assert (forall u' b, wf (set_utf8 u' (set_continuing b (set_payload false (advance n u r))))) as Hw'.
  { intros u' b. unfold wf; simpl. split_and!; try done; lia. }
  destruct (_ <? _) eqn:Hlt.
  - split_and!; try done. unfold wf; simpl. split_and!; try lia. intros _.
    unfold in_frame; simpl. rewrite Hnc. split_and!; try done; lia.
  - destruct (fin (frame_ r)), (binary_ r), (needed_ u =? 0); by split_and!.
Qed.

Lemma put_payload_ok data r m : startable r -> valid m -> step_ok data r m (put_payload data r m).
Proof.
  intros Hs Hm. pose proof Hs as [Hr Hlen]. unfold put_payload.
  rewrite (framed_remaining r Hr). pose proof (len_nonneg data).
  destruct (is_control (fcode (frame_ r))) eqn:Hc.
  - pose proof (startable_in_frame r Hs) as Hin.
    destruct Hr as (? & ? & ? & ? & ? & Hb). rewrite Hc in Hb. destruct Hb as [Ho Hb].
    destruct (len data <? _) eqn:Hl.
    + unfold step_ok, wf. split_and!; try done; try lia.
      * intros _. apply Hin. lia.
      * apply nothing_added; lia.
    + set (r' := set_payload false _). pose proof (control_event_ok r') as He.
      destruct (control_event r') as [o e]. destruct He as (? & ? & ?).
      unfold step_ok, wf; simpl. split_and!; try done; try lia.
      apply nothing_added; lia.
  - set (n := _ `min` _). pose proof Hr as (? & ? & ? & ? & ? & Hb). rewrite Hc in Hb.
    assert (0 <= n <= len data /\ n <= flength (frame_ r) - offset_ r) as [Hn Hn'] by lia.
    pose proof (copy_payload_spec n data r m Hm Hn) as Hcopy. cbv zeta in Hcopy.
    destruct (copy_payload n data r m) as [[r' m'] | [[[[r' m'] o] e] s]].
    + destruct Hcopy as (_ & -> & Hv & Hview & Hlim & _).
      pose proof (finish_payload_ok n (validated r (unmasked r n data)).1 r m' Hs Hc
        ltac:(lia)) as Hf.
      destruct (finish_payload _ _ _) as [[[[r' m''] o] e] s].
      destruct Hf as (? & -> & ? & ? & -> & ? & ?). split_and!; try done; try lia.
      exists (unmasked r n data). rewrite len_unmasked by lia. split; [done | lia].
    + destruct Hcopy as (-> & -> & Hv & Hview & Hlim & Hn0 & He).
      pose proof (startable_in_frame r Hs ltac:(lia)) as (? & ? & Hi).
      assert (forall u, wf (set_utf8 u r)) as Hwu.
      { intros u. unfold wf; simpl. split_and!; try done; try lia. }
      destruct He as [(_ & _ & -> & ->) | (_ & -> & ->)]; split_and!; try done; try lia.
      all: try (rewrite Hview; by apply nothing_added).
      all: specialize (Hwu (utf8_ r)); by destruct r.
Qed.

(** A parsed header whose frame was admitted. *)
Lemma start_frame_ok r : wf r -> payload_ r = false ->
  match start_frame r with
  | inl r' => wf r' /\ payload_ r' = false /\ frame_ r' = frame_ r /\
      maximum_ r' = maximum_ r /\ server_ r' = server_ r
  | inr (r', e) => r' = r /\ failed e = true /\ e <> error.need_more
  end.
Proof.
  intros (? & ? & ? & _) Hp. unfold start_frame.
  assert (forall c, wf (set_control c r)) by (intros; unfold wf; simpl; split_and!; try done; try lia; try congruence).
  assert (forall u b, wf (set_size 0 (set_utf8 u (set_binary b r)))).
  { intros; unfold wf; simpl; split_and!; try done; try lia; try congruence. }
  destruct (fcode (frame_ r)); destruct (continuing_ r) eqn:?; simpl; try done;
    split_and!; try done; unfold wf; split_and!; try done; try lia; try congruence.
Qed.

(** The frame of an admitted header may begin. *)
Lemma put_header_begin data r h n r' : wf r -> payload_ r = false -> bytes_ok data ->
  parse_header (frame_ r) data (server_ r) = (h, n, success) ->
  start_frame (set_frame h r) = inl r' ->
  (negb (is_control (fcode (frame_ r'))) &&
    (flength (frame_ r') >? usub (maximum_ r') (maximum_ r' `min` size_ r'))) = false ->
  startable (set_payload true (set_offset 0 r')) /\ 0 <= n <= len data.
Proof.
  intros Hr Hp Hd Hph Hst Hbig.
  assert (wf (set_frame h r)) as Hwh.
  { destruct Hr as (? & ? & ? & _). unfold wf; simpl. split_and!; try done; try lia; try congruence. }
  destruct (parse_header_inv _ _ _ _ _ Hd Hph)
    as (b0 & b1 & ext & k & rest & c & Hdata & _ & _ & _ & Hext & Hk & Hctl & -> & ->).
  set (l := extension_value _ _) in *.
  assert (0 <= 2 + len ext + len k <= len data) as Hsz.
  { pose proof (len_nonneg ext); pose proof (len_nonneg k); pose proof (len_nonneg rest).
    rewrite Hdata, !len_cons, !len_app. lia. }
  pose proof (extension_value_bound _ _ Hext) as Hl. fold l in Hl.
  assert (bytes_ok k) as Hkb.
  { rewrite Hdata in Hd. apply Forall_cons in Hd as [_ Hd]. apply Forall_cons in Hd as [_ Hd].
    apply Forall_app in Hd as [_ Hd]. by apply Forall_app in Hd as [Hd _]. }
  clear Hdata Hext Hph. clearbody l. set (h := mk_header _ _ _ _ _) in *.
  pose proof (start_frame_ok (set_frame h r) Hwh Hp) as Hsf. rewrite Hst in Hsf.
  destruct Hsf as (Hw & Hp' & Hf & Hmx & Hsv). simpl in Hf, Hmx, Hsv.
  destruct Hw as (Hmax & Hsize & Hoff & _).
  rewrite Z.min_r, usub_le, Hf in Hbig by lia.
  split; [| done]. split; [| simpl; rewrite Hf; simpl; lia]. unfold framed; simpl. rewrite Hf. simpl.
  split_and!; try done; try lia.
  - intros Hm1. rewrite Hm1 in Hk. destruct (server_ r); [done | discriminate].
  - destruct (is_control c) eqn:Hc; simpl in Hbig; [| lia].
    by destruct (Hctl eq_refl).
Qed.

Lemma parse_header_success out data sv h n e :
  parse_header out data sv = (h, n, e) -> failed e = false -> e = success.
Proof.
  unfold parse_header. intros Hph He. cbv zeta in Hph.
  repeat match type of Hph with
  | (if ?b then _ else _) = _ => destruct b; [by simplify_eq |] end. by simplify_eq.
Qed.

Lemma put_header_ok data r m : wf r -> payload_ r = false -> valid m -> bytes_ok data ->
  step_ok data r m (put_header data r m).
Proof.
  intros Hr Hp Hm Hd. unfold put_header.
  destruct (parse_header (frame_ r) data (server_ r)) as [[h n] e] eqn:Hph.
  pose proof (len_nonneg data).
  assert (wf (set_frame h r)) as Hwh.
  { destruct Hr as (? & ? & ? & _). unfold wf; simpl. split_and!; try done; try lia; try congruence. }
  assert (exists d, view m = view m ++ d /\ len d <= 0) as Hnil.
  { by apply nothing_added. }
  destruct (failed e) eqn:He.
  { unfold step_ok. split_and!; try done; try lia.
    case_decide; [done | congruence]. }
  apply parse_header_success in Hph as He'; [subst e | done].
  pose proof (start_frame_ok (set_frame h r) Hwh Hp) as Hsf.
  destruct (start_frame (set_frame h r)) as [r' | [r' e]] eqn:Hst.
  2: { destruct Hsf as (-> & ? & ?). split_and!; try done; lia. }
  destruct Hsf as (Hw & Hp' & Hf & Hmx & Hsv). simpl in Hf, Hmx, Hsv.
  change (frame_ (set_payload true (set_offset 0 r'))) with (frame_ r').
  destruct (_ && _) eqn:Hbig; [split_and!; try done; lia |].
  destruct (put_header_begin _ _ _ _ _ Hr Hp Hd Hph Hst Hbig) as [Hs Hn].
  destruct (flength (frame_ r') =? 0) eqn:Hz.
  - pose proof (put_payload_ok [] _ m Hs Hm) as Hpp.
    destruct (put_payload [] _ m) as [[[[r'' m''] o] e] s].
    destruct Hpp as (? & ? & ? & ? & ? & Hs0 & (d & Hv & Hdl) & ? & ?). simpl in *.
    split_and!; try done; try lia; try congruence. exists d. split; [done |].
    rewrite len_nil in Hs0. lia.
  - split_and!; try done; try lia; try congruence.
    + destruct Hw as (? & ? & ? & _). pose proof Hs as [Hs1 _].
      unfold wf; simpl. split_and!; try done; try lia. intros _.
      apply startable_in_frame; [done |]. destruct Hs1 as (_ & _ & Hs1 & _). simpl in *. lia.
    + apply nothing_added; lia.
Qed.

Lemma put_step_ok data r m : wf r -> valid m -> bytes_ok data ->
  step_ok data r m (put_step data r m).
Proof.
  intros. unfold put_step. destruct (payload_ r) eqn:Hp.
  - apply put_payload_ok; [by apply in_frame_startable | done].
  - by apply put_header_ok.
Qed.

(** ** Lemmas: the loop *)

Lemma put_loop_shift fuel data used r m :
  wf r -> valid m -> bytes_ok data -> 0 <= used <= len data ->
  put_loop fuel data used r m = add_used used <$> put_loop fuel (zdrop used data) 0 r m.
Proof.
  revert used r m data. induction fuel as [| fuel IH]; intros used r m data Hr Hm Hd Hu; [done |].
  simpl. change (zdrop 0 (zdrop used data)) with (zdrop used data).
  pose proof (put_step_ok (zdrop used data) r m Hr Hm ltac:(auto with net)) as Hs.
  destruct (put_step _ r m) as [[[[r' m'] o] e] s]. destruct Hs as (Hr' & Hm' & _ & _ & _ & Hs & _).
  rewrite len_zdrop in Hs by lia.
  destruct (failed e || _); [done |]. destruct (s =? 0); [done |].
  rewrite IH by (auto; lia). rewrite (IH (0 + s)) by (auto with net; rewrite ?len_zdrop; lia).
  rewrite zdrop_zdrop by lia.
  destruct (put_loop fuel _ 0 r' m') as [[[[[? ?] ?] ?] ?] |]; simpl; [| done].
  do 2 f_equal. lia.
Qed.

Lemma zdrop_length_lt (data : bytes) s :
  0 < s <= len data -> (length (zdrop s data) < length data)%nat.
Proof. intros. pose proof (len_zdrop s data ltac:(lia)). unfold len in *. lia. Qed.

Lemma put_loop_fuel n fuel1 fuel2 data r m : wf r -> valid m -> bytes_ok data ->
  (length data < n)%nat -> (length data < fuel1)%nat -> (length data < fuel2)%nat ->
  put_loop fuel1 data 0 r m = put_loop fuel2 data 0 r m.
Proof.
  revert fuel1 fuel2 data r m. induction n as [| n IH]; intros fuel1 fuel2 data r m Hr Hm Hd; [lia |].
  intros Hn H1 H2. destruct fuel1 as [| fuel1], fuel2 as [| fuel2]; try lia. simpl.
  rewrite !zdrop_0. pose proof (put_step_ok data r m Hr Hm Hd) as Hs.
  destruct (put_step data r m) as [[[[r' m'] o] e] s]. destruct Hs as (Hr' & Hm' & _ & _ & _ & Hs & _).
  destruct (failed e || _); [done |]. destruct (s =? 0) eqn:?; [done |].
  rewrite !(put_loop_shift _ data) by (auto; lia).
  pose proof (zdrop_length_lt data s ltac:(lia)).
  f_equal. apply IH; auto with net; rewrite ?Z.add_0_l; lia.
Qed.

(** The loop as a recursion on the unconsumed bytes. *)
Lemma put_unfold data r m : wf r -> valid m -> bytes_ok data ->
  put data r m =
    let '(r', m', o, e, s) := put_step data r m in
    if failed e || negb (bool_decide (o = none)) then Some (r', m', o, e, s) else
    if s =? 0 then Some (r', m', o, error.need_more : code, 0) else
    add_used s <$> put (zdrop s data) r' m'.
Proof.
  intros Hr Hm Hd. unfold put at 1. cbn [put_loop]. rewrite zdrop_0.
  pose proof (put_step_ok data r m Hr Hm Hd) as Hs.
  destruct (put_step data r m) as [[[[r' m'] o] e] s].
  destruct Hs as (Hr' & Hm' & _ & _ & _ & Hs & _). rewrite !Z.add_0_l.
  destruct (failed e || _); [done |]. destruct (s =? 0) eqn:?; [do 2 f_equal; lia |].
  rewrite put_loop_shift by (auto; lia). unfold put. f_equal.
  pose proof (zdrop_length_lt data s ltac:(lia)).
  apply (put_loop_fuel (S (length data))); auto with net; lia.
Qed.

(** What every put guarantees. *)
Definition put_ok (data : bytes) (r : t) (m : B) (res : result (B := B)) : Prop :=
  let '(r', m', o, e, used) := res in
  wf r' /\ valid m' /\ limit m' = limit m /\ maximum_ r' = maximum_ r /\
  server_ r' = server_ r /\ 0 <= used <= len data /\
  (exists d, view m' = view m ++ d /\ len d <= used) /\
  (o <> none -> e = success) /\ (o = none -> failed e = true).

Lemma put_total data r m : wf r -> valid m -> bytes_ok data ->
  exists res, put data r m = Some res /\ put_ok data r m res.
Proof.
  remember (length data) as n eqn:Hn. revert data Hn r m.
  induction (lt_wf n) as [n _ IH]. intros data -> r m Hr Hm Hd.
  rewrite put_unfold by done. pose proof (put_step_ok data r m Hr Hm Hd) as Hs.
  destruct (put_step data r m) as [[[[r' m'] o] e] s].
  destruct Hs as (Hr' & Hm' & Hl & Hmx & Hsv & Hs & Hv & Ho & He).
  destruct (failed e || _) eqn:Hdone.
  { eexists; split; [done |]. split_and!; try done; try lia. intros ->.
    rewrite bool_decide_true, orb_false_r in Hdone by done. done. }
  apply orb_false_iff in Hdone as [Hfe Hno]. apply negb_false_iff, bool_decide_eq_true in Hno as ->.
  destruct (s =? 0) eqn:?.
  { eexists; split; [done |]. split_and!; try done; try lia.
    destruct Hv as (d & ? & ?). exists d. split; [done | lia]. }
  destruct (IH (length (zdrop s data))) with (data := zdrop s data) (r := r') (m := m')
    as (res & -> & Hres); auto with net; [by apply zdrop_length_lt; lia |].
  eexists; split; [done |].
  destruct res as [[[[r'' m''] o] e'] u].
  destruct Hres as (? & ? & ? & ? & ? & Hu & (d2 & Hd2 & ?) & ? & ?).
  rewrite len_zdrop in Hu by lia. destruct Hv as (d1 & Hd1 & ?).
  split_and!; try done; try lia; try congruence.
  exists (d1 ++ d2). rewrite Hd2, Hd1, app_assoc, len_app. split; [done | lia].
Qed.

(** ** Lemmas: readers that behave alike *)

Lemma same_reader_refl r : same_reader r r.
Proof. by split_and!. Qed.

Lemma parse_header_out out1 out2 data sv :
  let '(h1, n1, e1) := parse_header out1 data sv in
  let '(h2, n2, e2) := parse_header out2 data sv in
  n1 = n2 /\ e1 = e2 /\ (failed e1 = false -> same_frame h1 h2).
Proof.
  unfold parse_header.
  destruct (len data <? 2); [done |]. destruct (is_nonzero (Z.land _ reserved_bits)); [done |].
  destruct (is_defined _) eqn:Hdef; [| done].
  apply is_defined_Some in Hdef as [c Hc]. rewrite Hc. cbn [negb fcode fin masked flength key].
  change (default (fcode out1) (Some c)) with c. change (default (fcode out2) (Some c)) with c.
  repeat match goal with
  | |- context [if ?b then (mk_header _ _ _ _ _, 0, _) else _] => destruct b; [done |]
  end. split_and!; [done | done |]. intros _.
  destruct (is_nonzero (Z.land _ mask_bit)); unfold same_frame; by split_and!.
Qed.

Lemma unmasked_same r1 r2 n data : offset_ r1 = offset_ r2 ->
  same_frame (frame_ r1) (frame_ r2) -> unmasked r1 n data = unmasked r2 n data.
Proof.
  unfold unmasked. intros -> (_ & _ & Hm & _ & Hk). rewrite <- Hm.
  destruct (masked (frame_ r1)); [by rewrite Hk | done].
Qed.

Lemma finish_payload_same n r1 r2 m1 m2 : same_reader r1 r2 ->
  same_frame (frame_ r1) (frame_ r2) -> same_buffer m1 m2 ->
  same_result (finish_payload n r1 m1) (finish_payload n r2 m2).
Proof.
  intros Hr (Hf1 & Hf2 & Hf3 & Hf4 & Hf5) Hm. unfold finish_payload.
  destruct r1, r2. unfold same_reader in Hr. simpl in *.
  destruct Hr as (-> & -> & -> & -> & -> & -> & -> & -> & -> & Hfr).
  rewrite Hf1, Hf4. split_if; simpl; try by split_and!.
  all: destruct (negb _); by split_and!.
Qed.

Lemma put_payload_same data r1 r2 m1 m2 : framed r1 -> framed r2 ->
  same_reader r1 r2 -> same_frame (frame_ r1) (frame_ r2) -> same_buffer m1 m2 ->
  same_result (put_payload data r1 m1) (put_payload data r2 m2).
Proof.
  intros H1 H2 Hr Hf Hm. pose proof Hr as (_ & _ & Ho & _ & _ & Hb & _ & Hu & _ & _).
  pose proof Hf as (Hfin & Hc & Hmk & Hl & Hk). unfold put_payload.
  rewrite !framed_remaining, <- Hc, <- Ho, <- Hl by done.
  destruct (is_control (fcode (frame_ r1))) eqn:Hctl.
  - destruct (_ <? _); [by split_and! |].
    assert (forall c, same_reader (set_payload false (set_control c r1))
      (set_payload false (set_control c r2))) as Hs.
    { intros c. destruct Hr as (? & ? & ? & ? & ? & ? & ? & ? & ? & ?).
      unfold same_reader; simpl. by split_and!. }
    assert (control_event (set_payload false (set_control
        (if masked (frame_ r1) then apply_mask (ztake (flength (frame_ r1) - offset_ r1) data)
          (key (frame_ r1)) 0 else ztake (flength (frame_ r1) - offset_ r1) data) r1)) =
      control_event (set_payload false (set_control
        (if masked (frame_ r2) then apply_mask (ztake (flength (frame_ r1) - offset_ r1) data)
          (key (frame_ r2)) 0 else ztake (flength (frame_ r1) - offset_ r1) data) r2))) as ->.
    { unfold control_event; simpl. rewrite <- Hc, <- Hmk.
      destruct (masked (frame_ r1)); [rewrite Hk; done | done]. }
    rewrite <- Hmk. destruct (control_event _) as [o e]. split_and!; try done.
    destruct (masked (frame_ r1)); [rewrite Hk by done |]; apply Hs.
  - set (n := _ `min` _). destruct Hm as (Hv1 & Hv2 & Hview & Hlim).
    assert (0 <= n <= len data) as Hn.
    { pose proof (len_nonneg data). destruct H1 as (_ & _ & ? & _). lia. }
    pose proof (copy_payload_spec n data r1 m1 Hv1 Hn) as C1.
    pose proof (copy_payload_spec n data r2 m2 Hv2 Hn) as C2. cbv zeta in C1, C2.
    rewrite <- (unmasked_same r1 r2) in C2 by done.
    assert (validated r2 (unmasked r1 n data) = validated r1 (unmasked r1 n data)) as Hval.
    { unfold validated. by rewrite <- Hb, <- Hu. }
    rewrite Hval, <- Hview, <- Hlim in C2.
    assert (forall u, same_reader (set_utf8 u r1) (set_utf8 u r2)) as Hs.
    { intros u. destruct Hr as (? & ? & ? & ? & ? & ? & ? & ? & ? & ?).
      unfold same_reader; simpl. by split_and!. }
    destruct (copy_payload n data r1 m1) as [[r1' m1'] | [[[[r1' m1'] o1] e1] s1]],
      (copy_payload n data r2 m2) as [[r2' m2'] | [[[[r2' m2'] o2] e2] s2]].
    + destruct C1 as (_ & -> & ? & Hw1 & Hl1 & _), C2 as (_ & -> & ? & Hw2 & Hl2 & _).
      apply finish_payload_same; [apply Hs | done |]. split_and!; try done; congruence.
    + destruct C1 as (? & _ & _ & _ & _ & ?), C2 as (_ & _ & _ & _ & _ & ? & [(? & _) | (? & _)]);
        [congruence | lia].
    + destruct C2 as (? & _ & _ & _ & _ & ?), C1 as (_ & _ & _ & _ & _ & ? & [(? & _) | (? & _)]);
        [congruence | lia].
    + destruct C1 as (-> & -> & ? & Hw1 & Hl1 & ? & D1), C2 as (-> & -> & ? & Hw2 & Hl2 & ? & D2).
      assert (same_buffer m1' m2') by (split_and!; try done; congruence).
      destruct D1 as [(? & ? & -> & ->) | (? & -> & ->)],
        D2 as [(? & ? & -> & ->) | (? & -> & ->)]; try lia; split_and!; done.
Qed.

Lemma start_frame_same r1 r2 : same_reader r1 r2 -> same_frame (frame_ r1) (frame_ r2) ->
  match start_frame r1, start_frame r2 with
  | inl r1', inl r2' => same_reader r1' r2' /\ same_frame (frame_ r1') (frame_ r2')
  | inr (r1', e1), inr (r2', e2) => same_reader r1' r2' /\ e1 = e2
  | _, _ => False
  end.
Proof.
  intros Hr Hf. pose proof Hr as (? & ? & ? & ? & Hc & ? & ? & ? & ? & ?).
  pose proof Hf as (_ & Hcode & _). unfold start_frame. rewrite <- Hcode, <- Hc.
  destruct (fcode (frame_ r1)), (continuing_ r1) eqn:?; simpl; unfold same_reader; simpl;
    split_and!; try done; congruence.
Qed.

Lemma put_header_same data r1 r2 m1 m2 : wf r1 -> wf r2 -> payload_ r1 = false ->
  bytes_ok data -> same_reader r1 r2 -> same_buffer m1 m2 ->
  same_result (put_header data r1 m1) (put_header data r2 m2).
Proof.
  intros H1 H2 Hp Hd Hr Hm. pose proof Hr as (Hmx & Hsv & _ & Hpp & _).
  unfold put_header. rewrite <- Hsv.
  pose proof (parse_header_out (frame_ r1) (frame_ r2) data (server_ r1)) as Hout.
  destruct (parse_header (frame_ r1) data _) as [[h1 n1] e1] eqn:P1.
  destruct (parse_header (frame_ r2) data _) as [[h2 n2] e2] eqn:P2.
  destruct Hout as (-> & -> & Hfr).
  assert (same_reader (set_frame h1 r1) (set_frame h2 r2)) as Hs.
  { destruct Hr as (? & ? & ? & ? & ? & ? & ? & ? & ? & ?). unfold same_reader; simpl.
    split_and!; try done. congruence. }
  destruct (failed e2) eqn:He; [by split_and! |]. specialize (Hfr eq_refl).
  pose proof (start_frame_same _ _ Hs Hfr) as Hst.
  destruct (start_frame (set_frame h1 r1)) as [r1' | [r1' e1]] eqn:S1,
    (start_frame (set_frame h2 r2)) as [r2' | [r2' e2']] eqn:S2; try done.
  2: { destruct Hst as [? ->]. by split_and!. }
  destruct Hst as [Hs' Hf']. pose proof Hs' as (Hmx' & _ & _ & _ & _ & _ & Hsz' & _).
  pose proof Hf' as (_ & Hc' & _ & Hl' & _).
  change (frame_ (set_payload true (set_offset 0 r1'))) with (frame_ r1').
  change (frame_ (set_payload true (set_offset 0 r2'))) with (frame_ r2').
  destruct (negb (is_control (fcode (frame_ r1'))) && _) eqn:Hb1;
    rewrite Hc', Hl', Hmx', Hsz' in Hb1; rewrite Hb1; [by split_and! |].
  apply parse_header_success in P1 as He1, P2 as He2; [subst e2 | done | done].
  assert (same_reader (set_payload true (set_offset 0 r1'))
    (set_payload true (set_offset 0 r2'))) as Hs''.
  { destruct Hs' as (? & ? & ? & ? & ? & ? & ? & ? & ? & ?). unfold same_reader; simpl.
    by split_and!. }
  rewrite Hl'. destruct (flength (frame_ r2') =? 0); [| by split_and!].
  destruct (put_header_begin _ _ _ _ _ H1 Hp Hd P1 S1) as [[B1 _] _].
  { by rewrite Hc', Hl', Hmx', Hsz'. }
  rewrite Hsv in P2.
  destruct (put_header_begin _ _ _ _ _ H2 ltac:(congruence) Hd P2 S2 Hb1) as [[B2 _] _].
  pose proof (put_payload_same [] _ _ m1 m2 B1 B2 Hs'' Hf' Hm) as Hres.
  destruct (put_payload [] _ m1) as [[[[? ?] ?] ?] ?], (put_payload [] _ m2) as [[[[? ?] ?] ?] ?].
  destruct Hres as (? & ? & -> & -> & _). by split_and!.
Qed.

Lemma same_frame_refl f : same_frame f f.
Proof. by split_and!. Qed.

Lemma same_reader_framed r1 r2 : framed r1 -> same_reader r1 r2 ->
  same_frame (frame_ r1) (frame_ r2) -> framed r2.
Proof.
  intros (? & ? & ? & ? & Hk & Hc) (Hmx & _ & Ho & _ & _ & _ & Hsz & _) (_ & Hcd & Hm & Hl & Hkk).
  unfold framed. rewrite <- Hmx, <- Ho, <- Hsz, <- Hcd, <- Hm, <- Hl. split_and!; try done; try lia.
  intros Hmm. rewrite <- Hkk by done. by apply Hk.
Qed.

Lemma put_step_same data r1 r2 m1 m2 : wf r1 -> wf r2 -> bytes_ok data ->
  same_reader r1 r2 -> same_buffer m1 m2 ->
  same_result (put_step data r1 m1) (put_step data r2 m2).
Proof.
  intros H1 H2 Hd Hr Hm. pose proof Hr as (_ & _ & _ & Hp & _ & _ & _ & _ & _ & Hf).
  unfold put_step. rewrite <- Hp. destruct (payload_ r1) eqn:Hp1; [| by apply put_header_same].
  apply put_payload_same; auto using in_frame_framed.
Qed.

Lemma put_same data r1 r2 m1 m2 : wf r1 -> wf r2 -> bytes_ok data ->
  same_reader r1 r2 -> same_buffer m1 m2 ->
  option_Forall2 same_result (put data r1 m1) (put data r2 m2).
Proof.
  remember (length data) as n eqn:Hn. revert data Hn r1 r2 m1 m2.
  induction (lt_wf n) as [n _ IH]. intros data -> r1 r2 m1 m2 H1 H2 Hd Hr Hm.
  pose proof Hm as (V1 & V2 & _). rewrite !put_unfold by done.
  pose proof (put_step_ok data r1 m1 H1 V1 Hd) as O1.
  pose proof (put_step_ok data r2 m2 H2 V2 Hd) as O2.
  pose proof (put_step_same data r1 r2 m1 m2 H1 H2 Hd Hr Hm) as Hs.
  destruct (put_step data r1 m1) as [[[[r1' m1'] o1] e1] s1],
    (put_step data r2 m2) as [[[[r2' m2'] o2] e2] s2].
  destruct Hs as (Hr' & Hm' & -> & -> & ->), O1 as (W1 & _ & _ & _ & _ & B1 & _),
    O2 as (W2 & _).
  destruct (_ || _); [by constructor |].
  destruct (s2 =? 0) eqn:?; [by constructor |].
  destruct (IH (length (zdrop s2 data))) with (data := zdrop s2 data) (r1 := r1') (r2 := r2')
    (m1 := m1') (m2 := m2') as [a b Hab |]; auto with net; [by apply zdrop_length_lt; lia | |];
    simpl; constructor.
  destruct a as [[[[? ?] ?] ?] ?], b as [[[[? ?] ?] ?] ?].
  destruct Hab as (? & ? & -> & -> & ->). by split_and!.
Qed.

Lemma same_frame_trans a b c : same_frame a b -> same_frame b c -> same_frame a c.
Proof.
  intros (? & ? & Hm & ? & K1) (? & ? & ? & ? & K2). split_and!; try congruence.
  intros Ha. rewrite K1 by done. apply K2. congruence.
Qed.

Lemma same_reader_trans a b c : same_reader a b -> same_reader b c -> same_reader a c.
Proof.
  intros (? & ? & ? & Hp1 & ? & ? & ? & ? & ? & F1) (? & ? & ? & ? & ? & ? & ? & ? & ? & F2).
  split_and!; try congruence. intros Hp.
  apply (same_frame_trans _ (frame_ b)); [by apply F1 | apply F2; congruence].
Qed.

Lemma same_result_trans a b c : same_result a b -> same_result b c -> same_result a c.
Proof.
  destruct a as [[[[? ?] ?] ?] ?], b as [[[[? ?] ?] ?] ?], c as [[[[? ?] ?] ?] ?].
  intros (? & ? & -> & -> & ->) (? & ? & -> & -> & ->).
  split_and!; eauto using same_reader_trans, same_buffer_trans.
Qed.

Lemma same_result_code a b : same_result a b -> result_code a = result_code b.
Proof.
  destruct a as [[[[? ?] ?] ?] ?], b as [[[[? ?] ?] ?] ?]. by intros (_ & _ & _ & -> & _).
Qed.

Lemma same_outcome_trans a b c : same_outcome a b -> same_outcome b c -> same_outcome a c.
Proof.
  unfold same_outcome, refused.
  intros [S1 | [[? ?] [? ?]]] [S2 | [[? ?] [? ?]]]; [left; by eapply same_result_trans | right..];
    try apply same_result_code in S1; try apply same_result_code in S2;
    split_and!; congruence.
Qed.

Lemma add_used_same u a b : same_outcome a b -> same_outcome (add_used u a) (add_used u b).
Proof.
  destruct a as [[[[? ?] ?] ?] ?], b as [[[[? ?] ?] ?] ?].
  intros [(? & ? & -> & -> & ->) | ?]; [left; by split_and! | by right].
Qed.
(** ** Lemmas: bytes that arrive in two pieces *)

(** Where a step leaves the reader given only the first piece. *)
Definition step_waits (data : bytes) (r : t) (m : B) (res : result (B := B)) : Prop :=
  let '(r', m', o, e, s) := res in
  same_reader r r' /\ same_buffer m m' /\ o = none /\ e = success /\ s = 0.

Definition step_partial (data more : bytes) (r : t) (m : B) (res : result (B := B)) : Prop :=
  let '(r', m', o, e, s) := res in
  o = none /\ e = success /\ s = len data /\ 0 < s /\ payload_ r' = true /\
  is_control (fcode (frame_ r')) = false /\
  (more <> [] ->
    same_outcome (add_used s (put_step more r' m')) (put_step (data ++ more) r m)).

Definition step_progress (res : result (B := B)) : Prop := let '(_, _, _, _, s) := res in 0 < s.

(** A step on a first piece is refused, is the step on the whole, waits for
    more, or consumes the piece as the first part of the whole. *)
Definition step_split (data more : bytes) (r : t) (m : B) : Prop :=
  let first := put_step data r m in
  (refused first /\ refused (put_step (data ++ more) r m)) \/
  (put_step (data ++ more) r m = first /\ step_progress first) \/
  step_waits data r m first \/ step_partial data more r m first.

Lemma put_header_split data more r m : wf r -> payload_ r = false -> valid m ->
  bytes_ok data -> step_split data more r m.
Proof.
  intros Hr Hp Hm Hd. unfold step_split. cbv zeta. unfold put_step. rewrite Hp.
  pose proof (put_header_ok data r m Hr Hp Hm Hd) as Hok.
  assert (put_header (data ++ more) r m = put_header data r m \/
    step_waits data r m (put_header data r m)) as [-> | ?]; [| | by right; right; left].
  { destruct (parse_header (frame_ r) data (server_ r)) as [[h n] e] eqn:Hph.
    destruct (decide (e = error.need_more)) as [-> | He].
    - right. unfold put_header. rewrite Hph. simpl. split_and!; try done.
      unfold same_reader; simpl. split_and!; try done; congruence.
    - left. unfold put_header. by rewrite (parse_header_extend _ _ more _ _ _ _ Hph He), Hph. }
  destruct (put_header data r m) as [[[[r' m'] o] e] s] eqn:Hph.
  destruct Hok as (? & ? & ? & ? & ? & ? & ? & ? & Hnm).
  destruct (failed e) eqn:He; [by left |]. 
  destruct (decide (0 < s)) as [Hs | Hs]; [by right; left |].
  right; right; left. revert Hph. unfold put_header.
  destruct (parse_header (frame_ r) data (server_ r)) as [[h n] e'] eqn:Hhd.
  destruct (failed e') eqn:He'.
  { intros; simplify_eq. case_decide; [| congruence]. split_and!; try done.
    unfold same_reader; simpl. split_and!; try done; congruence. }
  apply parse_header_success in Hhd as ?; [subst e' | done].
  destruct (parse_header_inv _ _ _ _ _ Hd Hhd)
    as (? & ? & ext & k & ? & ? & _ & _ & _ & _ & _ & _ & _ & _ & ->).
  pose proof (len_nonneg ext). pose proof (len_nonneg k).
  pose proof (start_frame_ok (set_frame h r)) as Hst.
  destruct (start_frame (set_frame h r)) as [r'' | [r'' e'']].
  - destruct (_ && _); [by intros; simplify_eq |].
    destruct (_ =? 0); [destruct (put_payload _ _ _) as [[[[? ?] ?] ?] ?] |];
      intros; simplify_eq; lia.
  - intros; simplify_eq. destruct Hst as (_ & ? & _); try done; try congruence.
    destruct Hr as (? & ? & ? & _). unfold wf; simpl. split_and!; try done; try lia; try congruence.
Qed.

Lemma unmasked_app r n n2 a b u : 0 <= offset_ r -> n = len a -> 0 <= n2 ->
  unmasked r (n + n2) (a ++ b) = unmasked r n a ++ unmasked (advance n u r) n2 b.
Proof.
  intros Ho -> Hn2. unfold unmasked; simpl.
  assert (ztake (len a + n2) (a ++ b) = ztake (len a) a ++ ztake n2 b) as ->.
  { pose proof (len_nonneg a). rewrite (ztake_ge (len a) a) by lia. unfold ztake.
    rewrite take_app, take_ge by (unfold len in *; lia). do 2 f_equal. unfold len in *. lia. }
  destruct (masked (frame_ r)); [| done]. rewrite apply_mask_app by done.
  rewrite (ztake_ge (len a) a) by lia. done.
Qed.

Lemma validated_app r n a b :
  validated r (a ++ b) =
    (let '(v, ok) := validated r a in
     if ok then validated (advance n v r) b else (v, false)).
Proof.
  unfold validated; simpl. destruct (binary_ r); [done |]. apply utf8_write_app.
Qed.

Lemma advance_framed n u r : framed r -> is_control (fcode (frame_ r)) = false ->
  0 <= n <= flength (frame_ r) - offset_ r -> framed (advance n u r).
Proof.
  intros (? & ? & ? & ? & ? & Hc) Hnc ?. unfold framed; simpl. rewrite Hnc in *.
  split_and!; try done; lia.
Qed.

Lemma finish_payload_advance n n2 u u2 r m1 m2 : framed r ->
  is_control (fcode (frame_ r)) = false -> 0 <= n -> 0 <= n2 ->
  n + n2 <= flength (frame_ r) - offset_ r -> same_buffer m1 m2 ->
  same_result (add_used n (finish_payload n2 (set_utf8 u2 (advance n u r)) m1))
    (finish_payload (n + n2) (set_utf8 u2 r) m2).
Proof.
  intros Hr Hc Hn Hn2 Hle Hm.
  rewrite finish_payload_eq; [| by apply advance_framed; try lia | done | simpl; lia].
  rewrite finish_payload_eq by (try done; lia). simpl.
  assert (forall u', same_reader (advance n2 u' (advance n u r)) (advance (n + n2) u' r)) as Ha.
  { intros. unfold same_reader; simpl. split_and!; try done; lia. }
  rewrite Z.add_assoc.
  destruct (_ <? _); [split_and!; try done; apply Ha |].
  specialize (Ha u2). destruct Ha as (? & ? & ? & ? & ? & ? & ? & ? & ? & ?).
  destruct (fin (frame_ r)), (binary_ r), (needed_ u2 =? 0); simpl; split_and!; try done;
    unfold same_reader; simpl in *; split_and!; done.
Qed.

(** Continuing a frame with a second piece is taking both at once. *)
Lemma put_payload_partial a b r m m1 : framed r -> valid m ->
  is_control (fcode (frame_ r)) = false -> len a < flength (frame_ r) - offset_ r ->
  (validated r (unmasked r (len a) a)).2 = true ->
  valid m1 -> view m1 = view m ++ unmasked r (len a) a -> limit m1 = limit m ->
  b <> [] ->
  same_outcome
    (add_used (len a) (put_payload b (advance (len a) (validated r (unmasked r (len a) a)).1 r) m1))
    (put_payload (a ++ b) r m).
Proof.
  intros Hr Hm Hc Hlt Hok Hm1 Hv1 Hl1 Hb.
  set (u := (validated _ _).1). pose proof (len_nonneg a). pose proof (len_nonneg b).
  assert (0 < len b) by (destruct b; [done | rewrite len_cons; pose proof (len_nonneg b); lia]).
  pose proof (advance_framed (len a) u r Hr Hc ltac:(lia)) as Hr'.
  unfold put_payload. rewrite !framed_remaining by done. cbn [frame_ advance]. rewrite Hc.
  cbn [offset_ advance]. rewrite len_app.
  set (n2 := _ `min` len b).
  replace ((flength (frame_ r) - offset_ r) `min` (len a + len b)) with (len a + n2) by lia.
  assert (0 < n2 <= len b /\ len a + n2 <= flength (frame_ r) - offset_ r) as [Hn2 Hn2'] by lia.
  clearbody n2.
  pose proof (copy_payload_spec n2 b (advance (len a) u r) m1 Hm1 ltac:(lia)) as C1.
  pose proof (copy_payload_spec (len a + n2) (a ++ b) r m Hm ltac:(rewrite len_app; lia)) as C2.
  cbv zeta in C1, C2.
  assert (0 <= offset_ r) as Ho by (destruct Hr as (_ & _ & ? & _); lia).
  rewrite (unmasked_app r (len a) n2 a b u Ho eq_refl ltac:(lia)) in C2.
  rewrite (validated_app r (len a)) in C2. unfold u in C1.
  destruct (validated r (unmasked r (len a) a)) as [u' ok] eqn:Hval. simpl in Hok. subst ok.
  simpl in C1. cbn [fst] in u. rewrite Hv1, Hl1, len_app, len_unmasked in C1 by lia.
  fold u in C2. change u' with u in C1. clearbody u.
  set (d1 := unmasked r _ _) in *. set (d2 := unmasked _ n2 b) in *.
  destruct (copy_payload n2 b _ m1) as [[ra ma] | [[[[ra ma] oa] ea] sa]],
    (copy_payload (len a + n2) (a ++ b) r m) as [[rb mb] | [[[[rb mb] ob] eb] sb]].
  - destruct C1 as (_ & -> & ? & V1 & L1 & _), C2 as (_ & -> & ? & V2 & L2 & _).
    left. apply finish_payload_advance; try done; try lia.
    split_and!; try done; [rewrite V1, V2, app_assoc; done | congruence].
  - destruct C1 as (? & _ & _ & _ & _ & ?), C2 as (_ & _ & _ & _ & _ & ? & [(? & _) | (? & _)]);
      [congruence | lia].
  - destruct C2 as (? & _ & _ & _ & _ & ?), C1 as (_ & _ & _ & _ & _ & ? & [(? & _) | (? & _)]);
      [congruence | lia].
  - destruct C1 as (_ & _ & _ & _ & _ & _ & C1), C2 as (_ & _ & _ & _ & _ & _ & C2).
    right. unfold refused; simpl.
    destruct C1 as [(_ & _ & -> & _) | (_ & -> & _)], C2 as [(_ & _ & -> & _) | (_ & -> & _)];
      by split_and!.
Qed.

Lemma copy_payload_take n a b r m : n <= len a ->
  copy_payload n (a ++ b) r m = copy_payload n a r m.
Proof. intros. unfold copy_payload. by rewrite ztake_app_le. Qed.

(** What is refused in a first piece is refused in the whole. *)
Lemma copy_payload_refused n2 a b r m e r' m' o s : valid m -> 0 <= offset_ r ->
  0 <= n2 <= len b -> copy_payload (len a) a r m = inr (r', m', o, e, s) ->
  exists r2 m2 o2 e2 s2,
    copy_payload (len a + n2) (a ++ b) r m = inr (r2, m2, o2, e2, s2) /\
    failed e = true /\ e <> error.need_more /\ failed e2 = true /\ e2 <> error.need_more.
Proof.
  intros Hm Ho Hn2 Ha. pose proof (len_nonneg a).
  pose proof (copy_payload_spec (len a) a r m Hm ltac:(lia)) as C1.
  pose proof (copy_payload_spec (len a + n2) (a ++ b) r m Hm ltac:(rewrite len_app; lia)) as C2.
  cbv zeta in C1, C2. rewrite Ha in C1.
  rewrite (unmasked_app r (len a) n2 a b utf8_init Ho eq_refl ltac:(lia)) in C2.
  rewrite (validated_app r (len a)) in C2.
  destruct C1 as (_ & _ & _ & _ & _ & ? & C1).
  destruct (validated r (unmasked r (len a) a)) as [u ok].
  destruct (copy_payload (len a + n2) _ r m) as [[r2 m2] | [[[[r2 m2] o2] e2] s2]].
  - exfalso. destruct C2 as (C2 & _ & _ & _ & _ & ?).
    destruct C1 as [(Hk & _) | (? & _)]; [simpl in Hk; by subst ok | lia].
  - exists r2, m2, o2, e2, s2. destruct C2 as (_ & _ & _ & _ & _ & _ & C2).
    destruct C1 as [(_ & _ & -> & _) | (_ & -> & _)], C2 as [(_ & _ & -> & _) | (_ & -> & _)];
      by split_and!.
Qed.

Lemma put_payload_split data more r m : wf r -> payload_ r = true -> valid m ->
  step_split data more r m.
Proof.
  intros Hr Hp Hm. unfold step_split. cbv zeta. unfold put_step. rewrite Hp.
  pose proof (in_frame_framed r Hr Hp) as Hf. pose proof Hr as (_ & _ & _ & Hin).
  destruct (Hin Hp) as (Hlen & _ & Hc). pose proof (len_nonneg data). pose proof (len_nonneg more).
  pose proof (framed_remaining r Hf) as Hrem.
  assert (0 < flength (frame_ r) - offset_ r) as Hpos by (destruct (is_control _); lia).
  assert (0 <= offset_ r) as Ho by (by destruct Hf as (_ & _ & [? _] & _)).
  set (rem := flength (frame_ r) - offset_ r) in *.
  unfold put_payload. rewrite Hrem, len_app.
  destruct (is_control (fcode (frame_ r))) eqn:Hctl.
  { destruct (len data <? rem) eqn:Hl.
    - right; right; left. split_and!; try done; by apply same_reader_refl.
    - destruct (len data + len more <? rem) eqn:?; [lia |]. right; left.
      rewrite ztake_app_le by lia. split; [done |].
      destruct (control_event _). unfold step_progress. lia. }
  destruct (decide (rem <= len data)) as [Hge | Hlt].
  { rewrite !Z.min_l, copy_payload_take by lia.
    pose proof (copy_payload_spec rem data r m Hm ltac:(lia)) as Hs. cbv zeta in Hs.
    destruct (copy_payload rem data r m) as [[r' m'] | [[[[r' m'] o] e] s]].
    - right; left. split; [done |]. destruct Hs as (_ & -> & _).
      rewrite finish_payload_eq by (try done; lia).
      cbv zeta. split_if; unfold step_progress; simpl; lia.
    - left. destruct Hs as (_ & _ & _ & _ & _ & _ & [(_ & _ & -> & _) | (_ & -> & _)]); by split_and!. }
  rewrite (Z.min_r rem (len data)) by lia.
  destruct (copy_payload (len data) data r m) as [[r' m'] | [[[[r' m'] o] e] s]] eqn:Hcopy.
  2: { left. destruct (copy_payload_refused ((rem `min` (len data + len more)) - len data)
      data more r m e r' m' o s) as (r2 & m2 & o2 & e2 & s2 & H2 & ? & ? & ? & ?); try done; [lia |].
    rewrite Zplus_minus in H2. rewrite H2. by split_and!. }
  pose proof (copy_payload_spec (len data) data r m Hm ltac:(lia)) as Hs. cbv zeta in Hs.
  rewrite Hcopy in Hs. destruct Hs as (Hok & -> & Hv & Hview & Hlim & _).
  set (u := (validated r _).1) in *. rewrite finish_payload_eq by (try done; lia).
  destruct (_ <? _) eqn:Hb; [| lia]. right; right.
  destruct (decide (data = [])) as [-> | Hne].
  { left. assert (unmasked r (len (@nil Z)) [] = []) as Hnil by (unfold unmasked; by destruct (masked _)).
    rewrite Hnil, app_nil_r in Hview.
    assert (u = utf8_ r) as -> by (unfold u, validated; rewrite Hnil; by destruct (binary_ r)).
    split_and!; try done. unfold same_reader; simpl. rewrite len_nil. split_and!; try done; lia. }
  assert (0 < len data) by (destruct data; [done | rewrite len_cons; pose proof (len_nonneg data); lia]).
  right. split_and!; try done. intros Hmore.
  unfold put_step. cbn [payload_ advance]. rewrite Hp. apply put_payload_partial; try done. lia.
Qed.

Lemma put_step_split data more r m : wf r -> valid m -> bytes_ok data ->
  step_split data more r m.
Proof.
  intros. destruct (payload_ r) eqn:Hp; [by apply put_payload_split | by apply put_header_split].
Qed.

Lemma add_used_add u v (a : result (B := B)) : add_used u (add_used v a) = add_used (u + v) a.
Proof. destruct a as [[[[? ?] ?] ?] ?]. simpl. f_equal. lia. Qed.

(** Between two pieces of a data frame, an empty put changes nothing. *)
Lemma put_nil r m : wf r -> valid m -> payload_ r = true ->
  is_control (fcode (frame_ r)) = false ->
  put [] r m = Some (advance 0 (utf8_ r) r, m, none, error.need_more : code, 0).
Proof.
  intros Hr Hm Hp Hc. rewrite put_unfold by (done || constructor).
  pose proof (in_frame_framed r Hr Hp) as Hf.
  destruct Hr as (_ & _ & _ & Hin). destruct (Hin Hp) as (? & _ & Hb). rewrite Hc in Hb.
  unfold put_step, put_payload. rewrite Hp, Hc, framed_remaining by done.
  rewrite len_nil, Z.min_r by lia. simpl.
  assert (r = set_utf8 (utf8_ r) r) as Hid by (by destruct r). rewrite Hid at 1.
  rewrite finish_payload_eq by (try done; lia).
  destruct (_ <? _) eqn:?; [done | lia].
Qed.

Lemma advance_same r : same_reader (advance 0 (utf8_ r) r) r.
Proof. unfold same_reader; simpl. split_and!; try done; lia. Qed.

Lemma add_used_option u v (a : option (result (B := B))) :
  add_used u <$> (add_used v <$> a) = add_used (u + v) <$> a.
Proof. destruct a; [| done]. simpl. by rewrite add_used_add. Qed.

(** Whether the two ways to give [data ++ more] to the reader agree. *)
Definition split_ok (data more : bytes) (r : t) (m : B) : Prop :=
  match put data r m with
  | Some (r', m', o, e, u) =>
    option_Forall2 same_outcome
      (if decide (e = error.need_more)
       then add_used u <$> put (zdrop u data ++ more) r' m' else Some (r', m', o, e, u))
      (put (data ++ more) r m)
  | None => False
  end.

Lemma same_outcome_of a b :
  option_Forall2 same_result a b -> option_Forall2 same_outcome a b.
Proof. intros [x y Hxy |]; constructor. by left. Qed.

Lemma fmap_same u a b :
  option_Forall2 same_outcome a b ->
  option_Forall2 same_outcome (add_used u <$> a) (add_used u <$> b).
Proof. intros [x y Hxy |]; simpl; constructor. by apply add_used_same. Qed.

Lemma option_same_trans a b c :
  option_Forall2 same_outcome a b -> option_Forall2 same_outcome b c ->
  option_Forall2 same_outcome a c.
Proof.
  intros [x y Hxy |] Hbc; inversion Hbc; subst; constructor. by eapply same_outcome_trans.
Qed.

Lemma put_step_bytes data r m res : wf r -> valid m -> bytes_ok data ->
  put_step data r m = res -> step_ok data r m res.
Proof. intros ??? <-. by apply put_step_ok. Qed.

(** What a put of the whole does once a step on it is known. *)
Definition put_rest (data : bytes) (res : result (B := B)) : option (result (B := B)) :=
  let '(r', m', o, e, s) := res in
  if failed e || negb (bool_decide (o = none)) then Some (r', m', o, e, s) else
  if s =? 0 then Some (r', m', o, error.need_more : code, 0) else
  add_used s <$> put (zdrop s data) r' m'.

Lemma put_rest_eq data r m : wf r -> valid m -> bytes_ok data ->
  put data r m = put_rest data (put_step data r m).
Proof. intros. rewrite put_unfold by done. done. Qed.

Lemma put_rest_refused data res : refused res -> exists a, put_rest data res = Some a /\ refused a.
Proof.
  destruct res as [[[[r m] o] e] s]. intros [He Hn]. simpl in *. rewrite He. simpl.
  eexists; split; [done |]. done.
Qed.

Lemma zdrop_app_more (a b : bytes) s : 0 <= s -> zdrop (len a + s) (a ++ b) = zdrop s b.
Proof.
  intros. pose proof (len_nonneg a). rewrite <- zdrop_zdrop by lia.
  f_equal. by apply zdrop_app_len.
Qed.

(** The rest of a put continues a partial step. *)
Lemma put_rest_partial (a b : bytes) res res' r m : bytes_ok b ->
  step_ok b r m res -> wf res'.1.1.1.1 ->
  same_outcome (add_used (len a) res) res' ->
  (failed (result_code res) = true \/ step_progress res) ->
  option_Forall2 same_outcome (add_used (len a) <$> put_rest b res) (put_rest (a ++ b) res').
Proof.
  intros Hb Hok W2 Hs Hprog. pose proof (len_nonneg a).
  destruct Hs as [Hs | [Ha Hb']].
  2: { assert (refused res) as Hr by (by destruct res as [[[[? ?] ?] ?] ?]).
    destruct (put_rest_refused b _ Hr) as (x & -> & Hx).
    destruct (put_rest_refused (a ++ b) _ Hb') as (y & -> & Hy). constructor. right.
    by destruct x as [[[[? ?] ?] ?] ?]. }
  destruct res as [[[[r1 m1] o1] e1] s1], res' as [[[[r2 m2] o2] e2] s2]. simpl in W2.
  destruct Hs as (Hr & Hm & -> & -> & <-), Hok as (W1 & V1 & _ & _ & _ & B1 & _). simpl.
  destruct (failed e2) eqn:He; simpl; [constructor; left; by split_and! |].
  destruct (negb _); [constructor; left; by split_and! |].
  destruct Hprog as [Hprog | Hprog]; simpl in Hprog; [congruence |].
  destruct (s1 =? 0) eqn:?; [lia |]. destruct (len a + s1 =? 0) eqn:?; [lia |].
  rewrite zdrop_app_more, add_used_option by lia.
  apply fmap_same, same_outcome_of, put_same; auto with net.
Qed.

Lemma same_reader_sym a b : same_reader a b -> same_reader b a.
Proof.
  intros (? & ? & ? & Hp & ? & ? & ? & ? & ? & F). split_and!; try congruence.
  intros Hb. destruct F as (? & ? & Hm & ? & K); [congruence |]. split_and!; try congruence.
  intros. symmetry. apply K. congruence.
Qed.

Lemma add_used_0 (a : option (result (B := B))) : add_used 0 <$> a = a.
Proof. by destruct a as [[[[[? ?] ?] ?] ?] |]. Qed.

Lemma put_payload_progress data r m : wf r -> payload_ r = true -> valid m ->
  is_control (fcode (frame_ r)) = false -> data <> [] ->
  failed (result_code (put_payload data r m)) = true \/ step_progress (put_payload data r m).
Proof.
  intros Hr Hp Hm Hc Hne. pose proof (in_frame_framed r Hr Hp) as Hf.
  destruct Hr as (_ & _ & _ & Hin). destruct (Hin Hp) as (? & _ & Hb). rewrite Hc in Hb.
  unfold put_payload. rewrite framed_remaining, Hc by done.
  assert (0 < len data) by (destruct data; [done | rewrite len_cons; pose proof (len_nonneg data); lia]).
  set (n := _ `min` _). assert (0 < n <= len data /\ n <= flength (frame_ r) - offset_ r) as [] by lia.
  clearbody n. pose proof (copy_payload_spec n data r m Hm ltac:(lia)) as Hs. cbv zeta in Hs.
  destruct (copy_payload n data r m) as [[r' m'] | [[[[r' m'] o] e] s]].
  - right. destruct Hs as (_ & -> & _). rewrite finish_payload_eq by (try done; lia).
    cbv zeta. split_if; unfold step_progress; simpl; lia.
  - left. by destruct Hs as (_ & _ & _ & _ & _ & _ & [(_ & _ & -> & _) | (_ & -> & _)]).
Qed.

Lemma put_split data more r m : wf r -> valid m -> bytes_ok data -> bytes_ok more ->
  split_ok data more r m.
Proof.
  remember (length data) as n eqn:Hn. revert data Hn r m.
  induction (lt_wf n) as [n _ IH]. intros data -> r m Hr Hm Hd Hmore.
  assert (bytes_ok (data ++ more)) as Hdm by (by apply Forall_app).
  unfold split_ok. rewrite (put_rest_eq data), (put_rest_eq (data ++ more)) by done.
  pose proof (put_step_ok data r m Hr Hm Hd) as Hok.
  destruct (put_step_split data more r m Hr Hm Hd) as [[Hf Hw] | [[-> Hp] | [Hw | Hp]]].
  - destruct (put_rest_refused data _ Hf) as (a & -> & Ha).
    destruct (put_rest_refused (data ++ more) _ Hw) as (b & -> & Hb).
    destruct a as [[[[r' m'] o] e] s]. destruct Ha as [Ha Hne]. simpl in Ha, Hne.
    rewrite decide_False by done. constructor. by right.
  - destruct (put_step data r m) as [[[[r' m'] o] e] s]. simpl in Hp |- *.
    destruct Hok as (Hr' & Hm' & _ & _ & _ & Hs & _ & _ & Hne).
    destruct (failed e || _).
    { rewrite decide_False by done. constructor. left. by split_and!. }
    destruct (s =? 0) eqn:?; [lia |]. rewrite zdrop_app_le by lia.
    pose proof (IH (length (zdrop s data)) ltac:(apply zdrop_length_lt; lia) (zdrop s data)
      eq_refl r' m' Hr' Hm' ltac:(auto with net) Hmore) as Hsplit. unfold split_ok in Hsplit.
    pose proof (put_total (zdrop s data) r' m' Hr' Hm' ltac:(auto with net)) as (res & Hres & Hpok).
    rewrite Hres in Hsplit |- *. destruct res as [[[[r'' m''] o''] e''] u]. simpl.
    destruct Hpok as (_ & _ & _ & _ & _ & Hu & _). rewrite len_zdrop in Hu by lia.
    destruct (decide (e'' = _)).
    + apply (fmap_same s) in Hsplit. rewrite add_used_option in Hsplit.
      rewrite zdrop_zdrop in Hsplit by lia. done.
    + apply (fmap_same s) in Hsplit. done.
  - destruct (put_step data r m) as [[[[r' m'] o] e] s].
    destruct Hw as (Hsr & Hsm & -> & -> & ->). simpl.
    destruct Hok as (Hr' & Hm' & _). rewrite <- put_rest_eq by done.
    change (zdrop 0 data) with data. rewrite add_used_0.
    apply same_outcome_of, put_same; auto using same_reader_sym with net.
  - pose proof (put_step_bytes data r m _ Hr Hm Hd eq_refl) as Hdata.
    destruct (put_step data r m) as [[[[r' m'] o] e] s] eqn:Hstep.
    destruct Hp as (-> & -> & -> & Hs & Hp' & Hc' & Hpart). destruct Hok as (Hr' & Hm' & _).
    cbn [put_rest failed]. destruct (len data =? 0) eqn:?; [lia |].
    assert (forall k, zdrop (len data) (data ++ k) = k) as Hz by (intros; by apply zdrop_app_len).
    pose proof (Hz []) as Hz'. rewrite app_nil_r in Hz'. rewrite Hz', put_nil by done. simpl.
    rewrite Z.add_0_r, Hz'. change ([] ++ more) with more.
    assert (wf (advance 0 (utf8_ r') r')) as Hadv.
    { destruct Hr' as (? & ? & ? & Hin). unfold wf; simpl. split_and!; try done; try lia.
      intros Hpp. destruct (Hin Hpp) as (? & ? & Hb). unfold in_frame; simpl.
      rewrite Hc' in *. split_and!; try done; lia. }
    apply (option_same_trans _ (add_used (len data) <$> put more r' m')).
    { apply fmap_same, same_outcome_of, put_same; auto using advance_same with net. }
    destruct (decide (more = [])) as [-> | Hne].
    { rewrite put_nil, app_nil_r, Hstep by done. cbn [put_rest failed].
      simpl. destruct (len data =? 0) eqn:?; [lia |]. rewrite Hz', put_nil by done. simpl.
      constructor. left. by split_and!. }
    rewrite (put_rest_eq more) by done. apply (put_rest_partial data more _ _ r' m'); auto.
    + by apply put_step_ok.
    + pose proof (put_step_ok (data ++ more) r m Hr Hm Hdm) as Hw.
      destruct (put_step (data ++ more) r m) as [[[[? ?] ?] ?] ?]. by destruct Hw as [Hw _].
    + unfold put_step. rewrite Hp'. by apply put_payload_progress.
Qed.

Lemma feed_whole pieces : forall pending r m, wf r -> valid m -> bytes_ok pending ->
  Forall bytes_ok pieces ->
  option_Forall2 same_outcome (feed pending pieces r m) (put (pending ++ concat pieces) r m).
Proof.
  induction pieces as [| piece rest IH]; intros pending r m Hr Hm Hp Hps; simpl.
  { rewrite app_nil_r. apply same_outcome_of. by apply put_same; try apply same_reader_refl. }
  apply Forall_cons in Hps as [Hpiece Hrest].
  assert (bytes_ok (pending ++ piece)) as Hpp by (by apply Forall_app).
  assert (bytes_ok (concat rest)) as Hcr.
  { clear -Hrest. induction Hrest; simpl; [constructor | by apply Forall_app]. }
  pose proof (put_split (pending ++ piece) (concat rest) r m Hr Hm Hpp Hcr) as Hs.
  unfold split_ok in Hs. destruct (put_total _ r m Hr Hm Hpp) as (res & Hres & Hok).
  rewrite Hres in *. destruct res as [[[[r' m'] o] e] u].
  destruct Hok as (Hr' & Hm' & _). rewrite <- app_assoc in Hs.
  destruct (decide (e = _)); [| done].
  eapply option_same_trans; [| done]. apply fmap_same. apply IH; auto with net.
Qed.
End lemmas.

(** ** Properties *)

Section properties.
Context {B : Type} `{DynamicBuffer B}.

(** C1: a put always returns, having consumed no more than it was given and
    appended no more than it consumed, and keeps the invariant: within a frame
    the header of a well-formed frame is pending, and the message size stays
    within the configured maximum.  It returns exactly one of an event (with
    success) and a failure. *)
Theorem put_returns data (r : t) (m : B) :
  wf r -> valid m -> bytes_ok data ->
  exists r' m' o e used,
    put data r m = Some (r', m', o, e, used) /\
    wf r' /\ valid m' /\ 0 <= used <= len data /\ size_ r' <= maximum_ r /\
    (exists d, view m' = view m ++ d /\ len d <= used) /\
    (o <> none -> e = success) /\ (o = none -> failed e = true).
Proof.
  intros Hr Hm Hd. destruct (put_total data r m Hr Hm Hd) as (res & Hres & Hok).
  destruct res as [[[[r' m'] o] e] u]. exists r', m', o, e, u.
  destruct Hok as (Hw & ? & ? & Hmx & ? & ? & ? & ? & ?). split_and!; try done; try lia.
  rewrite <- Hmx. by destruct Hw as (_ & [_ ?] & _).
Qed.

(** C2: the reader does not depend on how the transport cut the bytes: feeding
    the pieces one at a time, keeping what is unconsumed, gives the event,
    error, consumption, message and reader state of one put of all of them
    (when the bytes are refused, both refuse them). *)
Theorem feed_segmentation pieces pending (r : t) (m : B) :
  wf r -> valid m -> bytes_ok pending -> Forall bytes_ok pieces ->
  exists a b, feed pending pieces r m = Some a /\
    put (pending ++ concat pieces) r m = Some b /\ same_outcome a b.
Proof.
  intros Hr Hm Hp Hps. pose proof (feed_whole pieces pending r m Hr Hm Hp Hps) as Hf.
  assert (bytes_ok (pending ++ concat pieces)) as Hall.
  { apply Forall_app; split; [done |]. clear -Hps.
    induction Hps; simpl; [constructor | by apply Forall_app]. }
  destruct (put_total _ r m Hr Hm Hall) as (b & Hb & _). rewrite Hb in Hf.
  inversion Hf as [a b' Hab Ha |]; subst. eauto.
Qed.

End properties.

(** A masked text frame "hi" received by a server, in four pieces. *)
Definition example_frame : bytes := [129; 130; 1; 2; 3; 4; 105; 107].
Definition example_pieces : list bytes := [[129]; [130; 1; 2; 3; 4]; [105]; [107]].

Lemma put_returns_witness :
  exists (r' : t) (m' : flat_buffer.t) o e used,
    put example_frame (make 100 true) (flat_buffer.make 100) = Some (r', m', o, e, used) /\
    wf r' /\ valid m' /\ 0 <= used <= len example_frame /\ size_ r' <= maximum_ (make 100 true) /\
    (exists d, view m' = view (flat_buffer.make 100) ++ d /\ len d <= used) /\
    (o <> none -> e = success) /\ (o = none -> failed e = true).
Proof.
  refine (put_returns example_frame (make 100 true) (flat_buffer.make 100) _ _ _).
  - unfold wf; simpl. split_and!; try lia; done.
  - unfold valid; simpl. unfold flat_buffer.wf; simpl. split_and!; try lia; vm_compute; done.
  - apply is_bytes_ok; reflexivity.
Defined.

Lemma feed_segmentation_witness :
  exists a b, feed [] example_pieces (make 100 true) (flat_buffer.make 100) = Some a /\
    put ([] ++ concat example_pieces) (make 100 true) (flat_buffer.make 100) = Some b /\
    same_outcome a b.
Proof.
  refine (feed_segmentation example_pieces [] (make 100 true) (flat_buffer.make 100) _ _ _ _).
  - unfold wf; simpl. split_and!; try lia; done.
  - unfold valid; simpl. unfold flat_buffer.wf; simpl. split_and!; try lia; vm_compute; done.
  - constructor.
  - repeat constructor; unfold in_width; lia.
Defined.

End ws_reader.
