(* ===== verification/Async.v ===== *)
(** * Async: subscribers

    Models [include/bitcoin/network/async/{subscriber,unsubscriber,desubscriber}.hpp]
    and their [impl/async/*.ipp].  A subscriber runs on one strand, so its
    operations are a sequence; handlers post rather than reenter it.  A handler
    is an element of an arbitrary type; an operation returns, besides the new
    state, the handler calls it makes, in order.  The handlers of an
    unsubscriber and of a desubscriber answer whether to keep their
    subscription: [answer] runs a handler on the state [W] of the program
    outside of the subscriber. *)

From S2P Require Import Prelude.
From S2P Require Import Errors.
From Stdlib Require Import Sorting.Sorted.

(** ** subscriber: handlers stay until the stop *)

Module subscriber.
Section subscriber.
Context {H A : Type} (defaults : A).

(** A handler call and its arguments. *)
#[local] Abbreviation call := (H * (code * A))%type.

Record t := mk { stopped_ : bool; queue_ : list H }.

Definition init : t := mk false [].

Definition subscribe (h : H) (s : t) : t * list call * code :=
  if stopped_ s
  then (s, [(h, (error.subscriber_stopped : code, defaults))], error.subscriber_stopped : code)
  else (mk (stopped_ s) (queue_ s ++ [h]), [], error.success : code).

Definition notify (ec : code) (args : A) (s : t) : list call :=
  if stopped_ s then [] else map (fun h => (h, (ec, args))) (queue_ s).

Definition stop (ec : code) (args : A) (s : t) : t * list call :=
  if stopped_ s then (s, []) else (mk true [], notify ec args s).

Definition stop_default (ec : code) (s : t) : t * list call := stop ec defaults s.

Definition size (s : t) : nat := length (queue_ s).

Definition empty (s : t) : bool := match queue_ s with [] => true | _ => false end.

(** A sequence of operations and the calls they make. *)
Inductive op := Subscribe (h : H) | Notify (ec : code) (args : A) | Stop (ec : code) (args : A).

Definition step (o : op) (s : t) : t * list call :=
  match o with
  | Subscribe h => let '(s, calls, _) := subscribe h s in (s, calls)
  | Notify ec args => (s, notify ec args s)
  | Stop ec args => stop ec args s
  end.

Fixpoint run (ops : list op) (s : t) : t * list call :=
  match ops with
  | [] => (s, [])
  | o :: ops =>
    let '(s, calls) := step o s in
    let '(s, more) := run ops s in (s, calls ++ more)
  end.

(** The arguments of the calls of one handler, in order. *)
Definition received `{EqDecision H} (h : H) (calls : list call) : list (code * A) :=
  map snd (filter (fun c => c.1 = h) calls).

(** What a subscription promises: every later notification, in order, up to
    and including the first stop, and nothing afterward. *)
Fixpoint promised (ops : list op) : list (code * A) :=
  match ops with
  | [] => []
  | Subscribe _ :: ops => promised ops
  | Notify ec args :: ops => (ec, args) :: promised ops
  | Stop ec args :: _ => [(ec, args)]
  end.

Definition is_stop (o : op) : bool := match o with Stop _ _ => true | _ => false end.

Definition subscribes (h : H) (o : op) : Prop := match o with Subscribe k => k = h | _ => False end.
End subscriber.
Arguments op : clear implicits.
Arguments t : clear implicits.

Section lemmas.
Context {H A : Type} `{EqDecision H} (defaults : A).
Implicit Types (s : t H) (ops : list (op H A)) (h : H).

Lemma run_app ops ops' s :
  run defaults (ops ++ ops') s =
    (let '(s1, c1) := run defaults ops s in
     let '(s2, c2) := run defaults ops' s1 in (s2, c1 ++ c2)).
Proof.
  revert s. induction ops as [| o ops IH]; intros s; simpl.
  - by destruct (run defaults ops' s).
  - destruct (step defaults o s) as [s1 c1]. rewrite IH.
    destruct (run defaults ops s1) as [s2 c2], (run defaults ops' s2) as [s3 c3].
    by rewrite app_assoc.
Qed.

Lemma received_app h (c1 c2 : list (H * (code * A))) :
  received h (c1 ++ c2) = received h c1 ++ received h c2.
Proof. unfold received. by rewrite filter_app, map_app. Qed.

Lemma run_stopped ops s : stopped_ s = true -> stopped_ (run defaults ops s).1 = true.
Proof.
  revert s. induction ops as [| o ops IH]; intros s Hs; [done |]. simpl.
  assert (stopped_ (step defaults o s).1 = true) as Hs'.
  { destruct o; simpl; unfold subscribe, stop; rewrite ?Hs; done. }
  destruct (step defaults o s) as [s' c]. specialize (IH s' Hs').
  by destruct (run defaults ops s').
Qed.

(** Notifying the queue calls each handler as often as it is subscribed. *)
Lemma received_notify h ec args s : stopped_ s = false ->
  received (A := A) h (notify ec args s) =
    replicate (length (filter (fun k => k = h) (queue_ s))) (ec, args).
Proof.
  unfold notify, received. intros ->. induction (queue_ s) as [| k q IH]; [done |].
  cbn [map]. rewrite !filter_cons. cbn [fst].
  destruct (decide (k = h)); cbn [map length replicate snd]; by rewrite IH.
Qed.

(** A handler subscribed [n] times receives what is promised [n] times over. *)
Lemma run_received h ops s : Forall (fun o => ~ subscribes h o) ops ->
  received (A := A) h (run defaults ops s).2 =
    if stopped_ s then [] else
    concat (map (replicate (length (filter (fun k => k = h) (queue_ s)))) (promised ops)).
Proof.
  revert s. induction ops as [| o ops IH]; intros s Ho; [by destruct (stopped_ s) |].
  apply Forall_cons in Ho as [Ho Hops]. simpl.
  destruct (step defaults o s) as [s' c] eqn:Hstep.
  specialize (IH s' Hops). destruct (run defaults ops s') as [s'' cs]. simpl in *.
  rewrite received_app, IH. clear IH.
  destruct o as [k | ec args | ec args]; simpl in Hstep, Ho |- *;
    unfold subscribe, stop in Hstep; destruct (stopped_ s) eqn:Hs; simplify_eq; simpl.
  - unfold received. rewrite filter_cons_False by done. by rewrite Hs.
  - by rewrite filter_app, filter_cons_False, app_nil_r by done.
  - unfold notify. by rewrite Hs.
  - by rewrite Hs, received_notify.
  - by rewrite Hs.
  - by rewrite received_notify, app_nil_r.
Qed.
End lemmas.

Section properties.
Context {H A : Type} `{EqDecision H} (defaults : A).
Implicit Types (pre post : list (op H A)) (h : H).

(** A handler that is subscribed before any stop receives every later
    notification exactly once and in order, up to and including the first
    stop, and nothing afterward; a handler subscribed after a stop is called
    once, with subscriber_stopped. *)
Theorem subscription_delivery h pre post :
  Forall (fun o => ~ subscribes h o) (pre ++ post) ->
  received (A := A) h (run defaults (pre ++ Subscribe h :: post) init).2 =
    if existsb is_stop pre then [(error.subscriber_stopped : code, defaults)]
    else promised post.
Proof.
  intros Hh. apply Forall_app in Hh as [Hpre Hpost].
  rewrite run_app. pose proof (run_received defaults h pre init Hpre) as Hp.
  assert (stopped_ (run defaults pre init).1 = existsb is_stop pre /\
    length (filter (fun k => k = h) (queue_ (run defaults pre init).1)) = 0%nat) as [Hs Hq].
  { clear Hp Hpost.
    assert (forall s, length (filter (fun k => k = h) (queue_ s)) = 0%nat ->
      stopped_ (run defaults pre s).1 = (stopped_ s || existsb is_stop pre) /\
      length (filter (fun k => k = h) (queue_ (run defaults pre s).1)) = 0%nat) as Hi;
      [| by apply (Hi init)].
    induction Hpre as [| o pre Ho Hpre IH]; intros s Hs; simpl; [by rewrite orb_false_r |].
    destruct (step defaults o s) as [s' c] eqn:Hstep.
    assert (stopped_ s' = (stopped_ s || is_stop o) /\
      length (filter (fun k => k = h) (queue_ s')) = 0%nat) as [H1 H2].
    { destruct o; simpl in Hstep, Ho |- *; unfold subscribe, stop in Hstep;
        destruct (stopped_ s) eqn:Hst; simplify_eq; simpl; rewrite ?Hst; split; try done.
      by rewrite filter_app, length_app, Hs, filter_cons_False. }
    destruct (IH s' H2) as [H3 H4]. destruct (run defaults pre s') as [s'' cs]. simpl in *.
    split; [| done]. by rewrite H3, H1, orb_assoc. }
  destruct (run defaults pre init) as [s cs]. simpl in *.
  assert (received h cs = []) as Hcs.
  { rewrite Hp. clear -H. induction (promised pre); done. }
  destruct (existsb is_stop pre); unfold subscribe; rewrite Hs.
  - pose proof (run_received defaults h post s Hpost) as Hr. rewrite Hs in Hr.
    destruct (run defaults post s) as [s' cs']. simpl in *.
    rewrite received_app, Hcs. unfold received in *. cbn [app]. rewrite filter_cons. cbn [fst].
    rewrite decide_True by done. cbn [map snd]. by rewrite Hr.
  - pose proof (run_received defaults h post (mk (stopped_ s) (queue_ s ++ [h])) Hpost) as Hr.
    simpl in Hr. rewrite Hs in *.
    destruct (run defaults post _) as [s' cs']. simpl in *.
    rewrite received_app, Hcs, Hr, filter_app, length_app, Hq.
    rewrite filter_cons_True by done. simpl.
    clear. induction (promised post) as [| x l IH]; [done |]. simpl. by rewrite IH.
Qed.
End properties.

Lemma subscription_delivery_witness :
  received 1 (run (A := Z) 0 [Notify (error.success : code) 5; Subscribe 1;
    Notify (error.success : code) 6; Subscribe 2; Stop (error.service_stopped : code) 7;
    Notify (error.success : code) 8] init).2 =
  [(error.success : code, 6); (error.service_stopped : code, 7)].
Proof.
  refine (subscription_delivery 0 1 [Notify (error.success : code) 5]
    [Notify (error.success : code) 6; Subscribe 2; Stop (error.service_stopped : code) 7;
     Notify (error.success : code) 8] _).
  repeat constructor; simpl; lia.
Defined.
End subscriber.

(** ** Notification of handlers that may end their subscription *)

Section notify_each.
Context {E A W : Type} (answer : E -> code -> A -> W -> W * bool).

(** The loops of [unsubscriber::notify] and [desubscriber::notify]: each entry
    is called once, in order, and erased when its handler answers false.  The
    result is the remaining entries, the program state and the calls made
    with their answers. *)
Fixpoint notify_each (ec : code) (args : A) (queue : list E) (w : W)
  : list E * W * list (E * (code * A) * bool) :=
  match queue with
  | [] => ([], w, [])
  | e :: rest =>
    let '(w, keep) := answer e ec args w in
    let '(kept, w, calls) := notify_each ec args rest w in
    (if keep then e :: kept else kept, w, (e, (ec, args), keep) :: calls)
  end.

Definition occurrences `{EqDecision E} (e : E) (l : list E) : nat :=
  length (filter (fun k => k = e) l).

(** The arguments and answers of the calls of one entry, in order. *)
Definition replies `{EqDecision E} (e : E) (calls : list (E * (code * A) * bool))
  : list (code * A * bool) :=
  map (fun c => (c.1.2, c.2)) (filter (fun c => c.1.1 = e) calls).

Lemma replies_app `{EqDecision E} (e : E) c1 c2 :
  replies e (c1 ++ c2) = replies e c1 ++ replies e c2.
Proof. unfold replies. by rewrite filter_app, map_app. Qed.

Lemma notify_each_calls ec args q w :
  let '(_, _, calls) := notify_each ec args q w in
  map fst calls = map (fun e => (e, (ec, args))) q.
Proof.
  revert w. induction q as [| e q IH]; intros w; [done |]. simpl.
  destruct (answer e ec args w) as [w' keep]. specialize (IH w').
  destruct (notify_each ec args q w') as [[kept w''] calls]. simpl. by rewrite IH.
Qed.

(** Those that remain are those that answered true. *)
Lemma notify_each_kept ec args q w :
  let '(kept, _, calls) := notify_each ec args q w in
  kept = map (fun c => c.1.1) (filter (fun c => c.2 = true) calls).
Proof.
  revert w. induction q as [| e q IH]; intros w; [done |]. simpl.
  destruct (answer e ec args w) as [w' keep]. specialize (IH w').
  destruct (notify_each ec args q w') as [[kept w''] calls].
  rewrite filter_cons. simpl. by destruct keep; simpl; rewrite IH.
Qed.

Lemma notify_each_replies `{EqDecision E} e ec args q w :
  let '(kept, _, calls) := notify_each ec args q w in
  exists bits, length bits = occurrences e q /\
    replies e calls = map (fun b => ((ec, args), b)) bits /\
    occurrences e kept = length (filter (fun b => b = true) bits).
Proof.
  unfold occurrences, replies.
  revert w. induction q as [| k q IH]; intros w; [by exists [] |]. simpl.
  destruct (answer k ec args w) as [w' keep]. specialize (IH w').
  destruct (notify_each ec args q w') as [[kept w''] calls].
  destruct IH as (bits & Hl & Hr & Ho). rewrite !filter_cons; cbn [fst snd].
  destruct (decide (k = e)) as [-> | Hne].
  - exists (keep :: bits). cbn [length map fst snd]. rewrite Hl, Hr. split_and!; try done.
    destruct keep; rewrite filter_cons; [| done]. rewrite filter_cons.
    rewrite !decide_True by done. simpl. by rewrite Ho.
  - exists bits. split_and!; try done. destruct keep; [| done].
    by rewrite filter_cons_False.
Qed.
End notify_each.

(** ** unsubscriber: handlers stay while they answer true *)

Module unsubscriber.
Section unsubscriber.
Context {H A W : Type} (defaults : A) (answer : H -> code -> A -> W -> W * bool).

#[local] Abbreviation calls := (list (H * (code * A) * bool)).

Record t := mk { stopped_ : bool; queue_ : list H }.

Definition init : t := mk false [].

Definition subscribe (h : H) (s : t) (w : W) : t * W * calls * code :=
  if stopped_ s then
    let '(w, keep) := answer h (error.subscriber_stopped : code) defaults w in
    (s, w, [(h, (error.subscriber_stopped : code, defaults), keep)],
      error.subscriber_stopped : code)
  else (mk (stopped_ s) (queue_ s ++ [h]), w, [], error.success : code).

Definition notify (ec : code) (args : A) (s : t) (w : W) : t * W * calls :=
  if stopped_ s then (s, w, []) else
  let '(kept, w, calls) := notify_each answer ec args (queue_ s) w in
  (mk (stopped_ s) kept, w, calls).

Definition stop (ec : code) (args : A) (s : t) (w : W) : t * W * calls :=
  if stopped_ s then (s, w, []) else
  let '(s, w, calls) := notify ec args s w in (mk true [], w, calls).

Definition stop_default (ec : code) (s : t) (w : W) : t * W * calls := stop ec defaults s w.

Definition size (s : t) : nat := length (queue_ s).

Definition empty (s : t) : bool := match queue_ s with [] => true | _ => false end.

Definition step (o : subscriber.op H A) (s : t) (w : W) : t * W * calls :=
  match o with
  | subscriber.Subscribe h => let '(s, w, calls, _) := subscribe h s w in (s, w, calls)
  | subscriber.Notify ec args => notify ec args s w
  | subscriber.Stop ec args => stop ec args s w
  end.

Fixpoint run (ops : list (subscriber.op H A)) (s : t) (w : W) : t * W * calls :=
  match ops with
  | [] => (s, w, [])
  | o :: ops =>
    let '(s, w, calls) := step o s w in
    let '(s, w, more) := run ops s w in (s, w, calls ++ more)
  end.
End unsubscriber.
Arguments t : clear implicits.

(** A subscriber got what it was promised, until it answered false. *)
Fixpoint fulfilled {X : Type} (got : list (X * bool)) (promised : list X) : Prop :=
  match got, promised with
  | [], [] => True
  | (x, keep) :: got, p :: promised =>
    x = p /\ (if keep : bool then fulfilled got promised else got = [])
  | _, _ => False
  end.

Section lemmas.
Context {H A W : Type} `{EqDecision H} (defaults : A) (answer : H -> code -> A -> W -> W * bool).
Implicit Types (s : t H) (ops pre post : list (subscriber.op H A)) (h : H) (w : W).

Lemma unsubscriber_run_app ops ops' s w :
  run defaults answer (ops ++ ops') s w =
    (let '(s1, w1, c1) := run defaults answer ops s w in
     let '(s2, w2, c2) := run defaults answer ops' s1 w1 in (s2, w2, c1 ++ c2)).
Proof.
  revert s w. induction ops as [| o ops IH]; intros s w; simpl.
  - by destruct (run defaults answer ops' s w) as [[? ?] ?].
  - destruct (step defaults answer o s w) as [[s1 w1] c1]. rewrite IH.
    destruct (run defaults answer ops s1 w1) as [[s2 w2] c2],
      (run defaults answer ops' s2 w2) as [[s3 w3] c3].
    by rewrite app_assoc.
Qed.

(** One operation that does not subscribe [h], given how often [h] is. *)
Lemma step_replies h o s w : ~ subscriber.subscribes h o ->
  (stopped_ s = true -> queue_ s = []) ->
  let '(s', _, cs) := step defaults answer o s w in
  (stopped_ s' = true -> queue_ s' = []) /\
  stopped_ s' = (stopped_ s || subscriber.is_stop o) /\
  exists bits, length bits =
      (if stopped_ s then 0%nat else
       match o with subscriber.Subscribe _ => 0%nat | _ => occurrences h (queue_ s) end) /\
    replies h cs = map (fun b => (match o with
      | subscriber.Subscribe _ => (error.success : code, defaults)
      | subscriber.Notify ec args => (ec, args)
      | subscriber.Stop ec args => (ec, args) end, b)) bits /\
    occurrences h (queue_ s') =
      match o with
      | subscriber.Subscribe _ => occurrences h (queue_ s)
      | subscriber.Notify _ _ =>
        if stopped_ s then 0%nat else length (filter (fun b => b = true) bits)
      | subscriber.Stop _ _ => 0%nat
      end.
Proof.
  intros Ho Hq. destruct s as [st q]. simpl in Hq.
  destruct o as [k | ec args | ec args]; simpl in Ho |- *; unfold subscribe, stop, notify; simpl;
    destruct st; simpl; try specialize (Hq eq_refl) as ->.
  - destruct (answer k _ _ w) as [w' keep]. split_and!; try done. exists [].
    split_and!; try done. unfold replies. by rewrite filter_cons_False.
  - split_and!; try done. exists []. split_and!; try done.
    unfold occurrences. by rewrite filter_app, filter_cons_False, app_nil_r by done.
  - split_and!; try done. by exists [].
  - pose proof (notify_each_replies answer h ec args q w) as Hr.
    destruct (notify_each answer ec args q w) as [[kept w'] cs].
    destruct Hr as (bits & ? & ? & ?). split_and!; try done. by exists bits.
  - split_and!; try done. by exists [].
  - pose proof (notify_each_replies answer h ec args q w) as Hr.
    destruct (notify_each answer ec args q w) as [[kept w'] cs].
    destruct Hr as (bits & ? & ? & ?). split_and!; try done. by exists bits.
Qed.

(** Once it answered false (or was never subscribed), a handler is silent;
    while subscribed, what it gets fulfills what it is promised. *)
Lemma run_replies h ops s w : Forall (fun o => ~ subscriber.subscribes h o) ops ->
  (stopped_ s = true -> queue_ s = []) ->
  let '(s', _, cs) := run defaults answer ops s w in
  stopped_ s' = (stopped_ s || existsb subscriber.is_stop ops) /\
  (stopped_ s' = true -> queue_ s' = []) /\
  (occurrences h (queue_ s) = 0%nat -> replies h cs = [] /\ occurrences h (queue_ s') = 0%nat) /\
  (occurrences h (queue_ s) = 1%nat -> stopped_ s = false ->
    fulfilled (replies h cs) (subscriber.promised ops)).
Proof.
  revert s w. induction ops as [| o ops IH]; intros s w Ho Hq; simpl.
  { by rewrite orb_false_r. }
  apply Forall_cons in Ho as [Ho Hops].
  pose proof (step_replies h o s w Ho Hq) as Hs.
  destruct (step defaults answer o s w) as [[s1 w1] c1].
  destruct Hs as (Hq1 & Hst1 & bits & Hlen & Hrep & Hocc).
  specialize (IH s1 w1 Hops Hq1).
  destruct (run defaults answer ops s1 w1) as [[s2 w2] c2].
  destruct IH as (Hst2 & Hq2 & H0 & H1). rewrite Hst1 in Hst2.
  split_and!; try done; [by rewrite Hst2, orb_assoc | |].
  - intros Hz. rewrite replies_app, Hrep.
    assert (bits = []) as -> by (apply nil_length_inv; rewrite Hlen; by destruct (stopped_ s), o).
    apply H0. rewrite Hocc. destruct o; try done. by destruct (stopped_ s).
  - intros Hone Hns. rewrite replies_app, Hrep. rewrite Hns in *.
    destruct o as [k | ec args | ec args]; simpl in *.
    + apply nil_length_inv in Hlen as ->. simpl. apply H1; [by rewrite Hocc | done].
    + rewrite Hone in Hlen. destruct bits as [| b [| ? ?]]; try done. simpl.
      split; [done |]. destruct b; simpl in Hocc.
      * by apply H1.
      * by destruct H0 as [-> _].
    + rewrite Hone in Hlen. destruct bits as [| b [| ? ?]]; try done. simpl.
      split; [done |]. destruct H0 as [-> _]; [done |]. by destruct b.
Qed.
End lemmas.

Section properties.
Context {H A W : Type} `{EqDecision H} (defaults : A) (answer : H -> code -> A -> W -> W * bool).

(** A handler that is subscribed before any stop receives, each exactly
    once and in order, the notifications that follow its subscription, until
    it answers false or the subscriber stops; a handler subscribed after a
    stop is called once, with subscriber_stopped. *)
Theorem unsubscription_delivery h (pre post : list (subscriber.op H A)) (w : W) :
  Forall (fun o => ~ subscriber.subscribes h o) (pre ++ post) ->
  let '(_, _, cs) := run defaults answer (pre ++ subscriber.Subscribe h :: post) init w in
  if existsb subscriber.is_stop pre
  then map fst (replies h cs) = [(error.subscriber_stopped : code, defaults)]
  else fulfilled (replies h cs) (subscriber.promised post).
Proof.
  intros Hh. apply Forall_app in Hh as [Hpre Hpost]. rewrite unsubscriber_run_app. simpl.
  pose proof (run_replies defaults answer h pre init w Hpre ltac:(done)) as Hp.
  destruct (run defaults answer pre init w) as [[s w1] c1].
  destruct Hp as (Hst & Hq & Hz & _). destruct (Hz eq_refl) as [Hc1 Hocc]. simpl in Hst.
  unfold subscribe. destruct (stopped_ s) eqn:Hs; rewrite <- Hst.
  - destruct (answer h _ defaults w1) as [w2 keep].
    pose proof (run_replies defaults answer h post s w2 Hpost ltac:(auto)) as Hr.
    destruct (run defaults answer post s w2) as [[s' w3] c2].
    destruct Hr as (_ & _ & Hr & _). destruct (Hr Hocc) as [Hc2 _].
    rewrite !replies_app, Hc1, Hc2, app_nil_r. unfold replies. by rewrite filter_cons_True.
  - pose proof (run_replies defaults answer h post (mk false (queue_ s ++ [h])) w1 Hpost
      ltac:(done)) as Hr.
    destruct (run defaults answer post _ w1) as [[s' w3] c2].
    destruct Hr as (_ & _ & _ & Hr). rewrite replies_app, Hc1. apply Hr; [| done]. simpl.
    unfold occurrences in *. by rewrite filter_app, length_app, Hocc, filter_cons_True.
Qed.
End properties.

(** A handler that keeps its subscription while the notified value is less
    than its own identifier. *)
Definition example_answer (h : Z) (ec : code) (x : Z) (w : Z) : Z * bool := (w + x, x <? h).

Lemma unsubscription_delivery_witness :
  let '(_, _, cs) := run 0 example_answer
    ([subscriber.Subscribe 9] ++ subscriber.Subscribe 6 ::
     [subscriber.Notify (error.success : code) 5; subscriber.Notify (error.success : code) 7;
      subscriber.Notify (error.success : code) 4]) init 0 in
  if existsb subscriber.is_stop [subscriber.Subscribe (H := Z) (A := Z) 9]
  then map fst (replies 6 cs) = [(error.subscriber_stopped : code, 0)]
  else fulfilled (replies 6 cs) (subscriber.promised
    [subscriber.Notify (H := Z) (error.success : code) 5;
     subscriber.Notify (error.success : code) 7; subscriber.Notify (error.success : code) 4]).
Proof.
  refine (unsubscription_delivery 0 example_answer 6 [subscriber.Subscribe 9]
    [subscriber.Notify (error.success : code) 5; subscriber.Notify (error.success : code) 7;
     subscriber.Notify (error.success : code) 4] 0 _).
  repeat constructor; simpl; lia.
Defined.
End unsubscriber.

(** ** desubscriber: keyed handlers in key order *)

Module desubscriber.
Section desubscriber.
Context {K H A W : Type} `{EqDecision K} (lt : relation K) `{!RelDecision lt}.
Context (defaults : A) (answer : H -> code -> A -> W -> W * bool).

#[local] Abbreviation calls := (list (K * H * (code * A) * bool)).

(** The map is the list of its entries in key order. *)
Record t := mk { stopped_ : bool; map_ : list (K * H) }.

Definition init : t := mk false [].

Fixpoint find (key : K) (m : list (K * H)) : option H :=
  match m with
  | [] => None
  | e :: rest => if decide (e.1 = key) then Some e.2 else find key rest
  end.

Fixpoint emplace (key : K) (h : H) (m : list (K * H)) : list (K * H) :=
  match m with
  | [] => [(key, h)]
  | e :: rest => if decide (lt key e.1) then (key, h) :: e :: rest else e :: emplace key h rest
  end.

Definition erase (key : K) (m : list (K * H)) : list (K * H) := filter (fun e => e.1 <> key) m.

Definition answer_entry (e : K * H) : code -> A -> W -> W * bool := answer e.2.

Definition subscribe (h : H) (key : K) (s : t) (w : W) : t * W * calls * code :=
  if stopped_ s then
    let '(w, keep) := answer h (error.subscriber_stopped : code) defaults w in
    (s, w, [((key, h), (error.subscriber_stopped : code, defaults), keep)],
      error.subscriber_stopped : code)
  else match find key (map_ s) with
  | Some _ =>
    let '(w, keep) := answer h (error.subscriber_exists : code) defaults w in
    (s, w, [((key, h), (error.subscriber_exists : code, defaults), keep)],
      error.subscriber_exists : code)
  | None => (mk (stopped_ s) (emplace key h (map_ s)), w, [], error.success : code)
  end.

Definition notify (ec : code) (args : A) (s : t) (w : W) : t * W * calls :=
  if stopped_ s then (s, w, []) else
  let '(kept, w, calls) := notify_each answer_entry ec args (map_ s) w in
  (mk (stopped_ s) kept, w, calls).

Definition notify_one (key : K) (ec : code) (args : A) (s : t) (w : W) : t * W * calls * bool :=
  if stopped_ s then (s, w, [], false) else
  match find key (map_ s) with
  | Some h =>
    let '(w, keep) := answer h ec args w in
    (if keep then s else mk (stopped_ s) (erase key (map_ s)), w,
      [((key, h), (ec, args), keep)], true)
  | None => (s, w, [], false)
  end.

Definition stop (ec : code) (args : A) (s : t) (w : W) : t * W * calls :=
  if stopped_ s then (s, w, []) else
  let '(s, w, calls) := notify ec args s w in (mk true [], w, calls).

Definition stop_default (ec : code) (s : t) (w : W) : t * W * calls := stop ec defaults s w.

Definition size (s : t) : nat := length (map_ s).

Definition empty (s : t) : bool := match map_ s with [] => true | _ => false end.

Inductive op :=
  | Subscribe (h : H) (key : K)
  | Notify (ec : code) (args : A)
  | NotifyOne (key : K) (ec : code) (args : A)
  | Stop (ec : code) (args : A).

Definition step (o : op) (s : t) (w : W) : t * W * calls :=
  match o with
  | Subscribe h key => let '(s, w, calls, _) := subscribe h key s w in (s, w, calls)
  | Notify ec args => notify ec args s w
  | NotifyOne key ec args => let '(s, w, calls, _) := notify_one key ec args s w in (s, w, calls)
  | Stop ec args => stop ec args s w
  end.

Definition wf (s : t) : Prop :=
  StronglySorted lt (map fst (map_ s)) /\ (stopped_ s = true -> map_ s = []).

(** The contract of an operation: the calls that it makes, and the handler
    that each key is left with, given the answers to those calls. *)
Definition expected_calls (o : op) (s : t) : list (K * H * (code * A)) :=
  match o with
  | Subscribe h key =>
    if stopped_ s then [((key, h), (error.subscriber_stopped : code, defaults))]
    else if find key (map_ s) then [((key, h), (error.subscriber_exists : code, defaults))]
    else []
  | Notify ec args | Stop ec args => map (fun e => (e, (ec, args))) (map_ s)
  | NotifyOne key ec args =>
    if find key (map_ s) is Some h then [((key, h), (ec, args))] else []
  end.

Definition dropped (key : K) (cs : calls) : bool :=
  existsb (fun c => bool_decide (c.1.1.1 = key) && negb c.2) cs.

Definition expected_handler (o : op) (s : t) (cs : calls) (key : K) : option H :=
  match o with
  | Subscribe h k =>
    if find key (map_ s) is Some g then Some g
    else if stopped_ s then None else if decide (k = key) then Some h else None
  | Notify _ _ | NotifyOne _ _ _ => if dropped key cs then None else find key (map_ s)
  | Stop _ _ => None
  end.
End desubscriber.
Arguments t : clear implicits.
Arguments op : clear implicits.

Section lemmas.
Context {K H A W : Type} `{EqDecision K} (lt : relation K) `{!RelDecision lt}.
Context `{!StrictOrder lt, !Trichotomy lt}.
Context (defaults : A) (answer : H -> code -> A -> W -> W * bool).
Implicit Types (m : list (K * H)) (key k : K) (h : H) (s : t K H).

Lemma wf_stopped : wf lt (mk true [] : t K H).
Proof. split; [constructor | done]. Qed.

Lemma find_emplace key h m k : find key m = None ->
  find k (emplace lt key h m) = if find k m is Some g then Some g
    else if decide (key = k) then Some h else None.
Proof.
  induction m as [| e m IH]; [done |]. cbn [find emplace]. intros Hf.
  destruct (decide (e.1 = key)) as [| Hne]; [done |].
  destruct (decide (lt key e.1)); cbn [find fst snd].
  - destruct (decide (key = k)) as [<- |].
    + rewrite decide_False by done. by rewrite Hf.
    + by destruct (decide (e.1 = k)), (find k m).
  - destruct (decide (e.1 = k)); [done |]. by apply IH.
Qed.

Lemma find_None_not_in key m : find key m = None <-> key ∉ map fst m.
Proof.
  induction m as [| e m IH]; cbn [find map].
  - split; [intros _; apply not_elem_of_nil | done].
  - rewrite not_elem_of_cons. destruct (decide (e.1 = key)) as [-> |]; [by split; [| intros []] |].
    rewrite IH. split; [by split | by intros []].
Qed.

Lemma emplace_perm key h m : emplace lt key h m ≡ₚ (key, h) :: m.
Proof.
  induction m as [| e m IH]; [done |]. simpl. destruct (decide _); [done |].
  rewrite IH. constructor.
Qed.

Lemma emplace_sorted key h m : find key m = None ->
  StronglySorted lt (map fst m) -> StronglySorted lt (map fst (emplace lt key h m)).
Proof.
  induction m as [| e m IH]; intros Hf Hs; [by repeat constructor |].
  cbn [find] in Hf. destruct (decide (e.1 = key)) as [| Hne]; [done |].
  apply StronglySorted_inv in Hs as [Hs Hall]. simpl. destruct (decide (lt key e.1)) as [Hlt | Hlt].
  - constructor; [by constructor |]. constructor; [done |].
    eapply Forall_impl; [exact Hall |]. intros x Hx. by transitivity e.1.
  - constructor; [by apply IH |]. rewrite (emplace_perm key h m). constructor; [| done].
    destruct (trichotomy lt key e.1) as [| [-> |]]; done.
Qed.

Lemma filter_sorted (P : K * H -> Prop) `{forall e, Decision (P e)} m :
  StronglySorted lt (map fst m) -> StronglySorted lt (map fst (filter P m)).
Proof.
  induction m as [| e m IH]; intros Hs; [done |].
  apply StronglySorted_inv in Hs as [Hs Hall]. rewrite filter_cons.
  destruct (decide (P e)); [| by apply IH]. constructor; [by apply IH |].
  clear -Hall. induction m as [| x m IH]; [done |]. apply Forall_cons in Hall as [? ?].
  rewrite filter_cons. destruct (decide (P x)); [constructor |]; auto.
Qed.

Lemma find_above key m : Forall (lt key) (map fst m) -> find key m = None.
Proof.
  intros Hall. apply find_None_not_in. intros Hin. rewrite Forall_forall in Hall.
  specialize (Hall key Hin). by apply (irreflexivity lt key).
Qed.

Lemma notify_each_sorted ec args m w :
  StronglySorted lt (map fst m) ->
  let '(kept, _, cs) := notify_each (answer_entry answer) ec args m w in
  StronglySorted lt (map fst kept) /\
  (forall x, Forall (lt x) (map fst m) -> Forall (lt x) (map fst kept) /\ dropped x cs = false) /\
  (forall key, find key kept = if dropped key cs then None else find key m).
Proof.
  revert w. induction m as [| e m IH]; intros w Hs; [by split_and!|].
  apply StronglySorted_inv in Hs as [Hs Hall]. simpl. unfold answer_entry at 1.
  destruct (answer e.2 ec args w) as [w' keep]. specialize (IH w' Hs).
  destruct (notify_each _ ec args m w') as [[kept w''] cs].
  destruct IH as (IHs & IHx & IHf). destruct (IHx _ Hall) as [Hke Hde]. simpl. split_and!.
  - destruct keep; [by constructor | done].
  - intros x Hx. apply Forall_cons in Hx as [Hxe Hxm]. destruct (IHx x Hxm) as [Hk ->].
    split; [destruct keep; [by constructor | done] |].
    rewrite bool_decide_false; [done |]. intros <-. by apply (irreflexivity lt e.1).
  - intros key. destruct (decide (e.1 = key)) as [<- | Hne].
    + rewrite bool_decide_true, Hde by done. destruct keep; simpl.
      * by rewrite decide_True by done.
      * by apply find_above.
    + rewrite bool_decide_false by done. simpl. rewrite <- IHf.
      destruct keep; [| done]. simpl. by rewrite decide_False.
Qed.

Lemma find_erase key k m : find k (erase key m) = if decide (key = k) then None else find k m.
Proof.
  induction m as [| e m IH]; simpl; [by destruct (decide _) |]. unfold erase in *.
  rewrite filter_cons. destruct (decide (e.1 <> key)) as [Hne | He]; simpl.
  - rewrite IH. destruct (decide (e.1 = k)) as [<- |]; [| done]. by rewrite decide_False.
  - apply dec_stable in He. rewrite IH. destruct (decide (key = k)) as [<- | ?]; [done |].
    rewrite decide_False by congruence. done.
Qed.
End lemmas.

Section properties.
Context {K H A W : Type} `{EqDecision K} (lt : relation K) `{!RelDecision lt}.
Context `{!StrictOrder lt, !Trichotomy lt}.
Context (defaults : A) (answer : H -> code -> A -> W -> W * bool).

(** A desubscriber implements a map from keys to handlers: every operation
    keeps one entry per key in key order, calls exactly the handlers it should
    and in key order (on a duplicate key or after a stop only the refused
    handler, with the reason), and leaves each key with the handler it should
    have: the one it had, unless that answered false or the map stopped. *)
Theorem desubscriber_refines_map (o : op K H A) (s : t K H) (w : W) :
  wf lt s ->
  let '(s', _, cs) := step lt defaults answer o s w in
  wf lt s' /\ map fst cs = expected_calls defaults o s /\
  forall key, find key (map_ s') = expected_handler o s cs key.
Proof.
  intros [Hsort Hstop]. destruct s as [st m]. simpl in *.
  destruct o as [h k | ec args | k ec args | ec args]; simpl;
    unfold stop, subscribe, notify, notify_one; simpl.
  - destruct st; [rewrite Hstop by done |].
    + destruct (answer h _ defaults w) as [w' keep]. by split_and!; [apply wf_stopped | |].
    + destruct (find k m) as [g |] eqn:Hf.
      * destruct (answer h _ defaults w) as [w' keep]. split_and!; try done.
        intros key. simpl. destruct (find key m) eqn:Hk; [done |].
        rewrite decide_False; [done |]. congruence.
      * split_and!; try done; [split; [by apply emplace_sorted | done] |].
        intros key. simpl. by apply find_emplace.
  - destruct st; [rewrite Hstop by done; by split_and!; [apply wf_stopped | |] |].
    pose proof (notify_each_sorted lt answer ec args m w Hsort) as Hn.
    pose proof (notify_each_calls (answer_entry answer) ec args m w) as Hc.
    destruct (notify_each _ ec args m w) as [[kept w'] cs]. destruct Hn as (? & _ & ?).
    by split_and!.
  - destruct st; [rewrite Hstop by done; by split_and!; [apply wf_stopped | |] |].
    destruct (find k m) as [h |] eqn:Hf; simpl.
    + destruct (answer h ec args w) as [w' []]; simpl.
      * split_and!; try done. intros key. by rewrite andb_false_r.
      * split_and!; try done; [split; [by apply filter_sorted | done] |].
        intros key. rewrite find_erase. rewrite andb_true_r, orb_false_r.
        by case_bool_decide; case_decide.
    + by split_and!.
  - destruct st; [rewrite Hstop by done; by split_and!; [apply wf_stopped | |] |].
    pose proof (notify_each_calls (answer_entry answer) ec args m w) as Hc.
    destruct (notify_each _ ec args m w) as [[kept w'] cs].
    simpl. split_and!; try done. apply wf_stopped.
Qed.
End properties.

#[local] Instance Z_lt_trichotomy : Trichotomy Z.lt.
Proof. intros x y. lia. Qed.

#[local] Existing Instance Z.lt_strorder.

Definition example_state : t Z Z := mk false [(3, 30); (7, 70)].

Lemma desubscriber_refines_map_witness :
  let '(s', _, cs) := step Z.lt 0 unsubscriber.example_answer
    (Subscribe 50 5) example_state 0 in
  wf Z.lt s' /\ map fst cs = expected_calls 0 (Subscribe 50 5) example_state /\
  forall key, find key (map_ s') = expected_handler (Subscribe 50 5) example_state cs key.
Proof.
  refine (desubscriber_refines_map Z.lt 0 unsubscriber.example_answer (Subscribe 50 5)
    example_state 0 _).
  unfold wf. split; [repeat constructor | done].
Defined.
End desubscriber.
