(* ===== verification/Races.v ===== *)
(** * Races: completion of a group of operations

    Models [include/bitcoin/network/async/races/*.hpp] and their
    [impl/async/races/*.ipp].  All but [race_any] run on one strand, so their
    use is a sequence of calls; the operations of [race_any] are interleaved
    step by step.  A completion handler is an element of an arbitrary type;
    operations return the handler calls they make.  The counters of runners
    are naturals: they are decremented only when positive. *)

From S2P Require Import Prelude.
From S2P Require Import Errors.

(** The results of a sequence of finishes. *)
Section finish_all.
Context {S A C : Type} (finish : A -> S -> S * list C * bool).

Fixpoint finish_all (l : list A) (s : S) : S * list C * list bool :=
  match l with
  | [] => (s, [], [])
  | args :: l =>
    let '(s, calls, won) := finish args s in
    let '(s, more, wons) := finish_all l s in
    (s, calls ++ more, won :: wons)
  end.

(** A finish of a race that is not running changes nothing. *)
Lemma finish_all_idle l s : (forall args, finish args s = (s, [], false)) ->
  finish_all l s = (s, [], replicate (length l) false).
Proof. intros Hf. induction l as [| a l IH]; simpl; [done |]. by rewrite Hf, IH. Qed.
End finish_all.

(** The induction step of a race: whether the finisher is the last. *)
Ltac last_or_more l :=
  let Hl := fresh in
  destruct (Nat.eqb (length l) 0) eqn:Hl;
  [apply Nat.eqb_eq, nil_length_inv in Hl as ->; simpl;
   repeat match goal with H : failed _ = _ |- _ => rewrite H end; done |];
  assert (l <> []) by (by intros ->).

(** ** race_quality: the first success, or else the last failure *)

Module race_quality.
Section race_quality.
Context {H A : Type} (ec : A -> code) (none : A).

Record t := mk {
  size_ : nat;
  args_ : A;
  success_ : bool;
  runners_ : nat;
  complete_ : option H
}.

Definition make (size : nat) : t := mk size none false 0 None.

Definition running (s : t) : bool := negb (Nat.eqb (runners_ s) 0).

Definition start (complete : H) (s : t) : t * bool :=
  if running s then (s, false) else
  (mk (size_ s) (args_ s) false (size_ s) (Some complete), true).

Definition set_winner (success : bool) (s : t) : t * bool :=
  let success := success && negb (success_ s) in
  (mk (size_ s) (args_ s) (success_ s || success) (runners_ s) (complete_ s), success).

Definition set_args (args : A) (s : t) : t :=
  mk (size_ s) args (success_ s) (runners_ s) (complete_ s).

Definition invoke (s : t) : t * list (H * A) * bool :=
  if negb (running s) then (s, [], false) else
  let s := mk (size_ s) (args_ s) (success_ s) (runners_ s - 1) (complete_ s) in
  if running s then (s, [], true) else
  match complete_ s with
  | None => (s, [], false)
  | Some complete =>
    (mk (size_ s) none (success_ s) (runners_ s) None, [(complete, args_ s)], true)
  end.

Definition finish (args : A) (s : t) : t * list (H * A) * bool :=
  if negb (running s) then (s, [], false) else
  let '(s, winner) := set_winner (negb (failed (ec args))) s in
  let last := Nat.eqb (runners_ s) 1 in
  let s := if winner || (last && negb (success_ s)) then set_args args s else s in
  let '(s, calls, invoked) := invoke s in
  (s, calls, invoked && winner).

(** What a race of these finishers reports: the first success if any, or else
    the last; and which finisher is told that it won. *)
Fixpoint outcome (l : list A) : A :=
  match l with
  | [] => none
  | [a] => a
  | a :: l => if failed (ec a) then outcome l else a
  end.

Fixpoint winners (l : list A) : list bool :=
  match l with
  | [] => []
  | a :: l => if failed (ec a) then false :: winners l else true :: replicate (length l) false
  end.

(** A race under way, and one after its end. *)
Definition under_way (runners : nat) (won : bool) (h : H) (s : t) : Prop :=
  runners_ s = runners /\ success_ s = won /\ complete_ s = Some h.

Lemma quality_finish_idle args s : runners_ s = 0%nat -> finish args s = (s, [], false).
Proof. unfold finish, running. by intros ->. Qed.

Lemma quality_finish_eq args sz ar sc n h :
  finish args (mk sz ar sc (S n) (Some h)) =
    let winner := negb (failed (ec args)) && negb sc in
    let ar' := if winner || (Nat.eqb n 0 && negb (sc || winner)) then args else ar in
    if Nat.eqb n 0 then (mk sz none (sc || winner) 0 None, [(h, ar')], winner)
    else (mk sz ar' (sc || winner) n (Some h), [], winner).
Proof. unfold finish. by destruct n, sc, (failed (ec args)). Qed.

Lemma finish_all_won l h s : under_way (length l) true h s -> l <> [] ->
  finish_all finish l s =
    (mk (size_ s) none true 0 None, [(h, args_ s)], replicate (length l) false).
Proof.
  revert s. induction l as [| a l IH]; intros s (Hr & Hw & Hc) Hne; [done |].
  destruct s as [sz ar sc rn cp]. simpl in *. subst.
  cbn [finish_all]. rewrite quality_finish_eq. cbv zeta. rewrite andb_false_r. simpl.
  rewrite andb_false_r. last_or_more l. by rewrite IH.
Qed.

Lemma quality_finish_all_open l h s : under_way (length l) false h s -> l <> [] ->
  finish_all finish l s =
    (mk (size_ s) none (existsb (fun a => negb (failed (ec a))) l) 0 None,
      [(h, outcome l)], winners l).
Proof.
  revert s. induction l as [| a l IH]; intros s (Hr & Hw & Hc) Hne; [done |].
  destruct s as [sz ar sc rn cp]. simpl in *. subst.
  cbn [finish_all]. rewrite quality_finish_eq. cbv zeta. rewrite andb_true_r. simpl.
  destruct (failed (ec a)) eqn:Ha; simpl.
  - last_or_more l. rewrite IH by done. by destruct l.
  - last_or_more l. rewrite (finish_all_won l h) by done. by destruct l.
Qed.

Lemma finish_all_app l l' s :
  finish_all finish (l ++ l') s =
    (let '(s1, c1, w1) := finish_all finish l s in
     let '(s2, c2, w2) := finish_all finish l' s1 in (s2, c1 ++ c2, w1 ++ w2)).
Proof.
  revert s. induction l as [| a l IH]; intros s; simpl.
  - by destruct (finish_all finish l' s) as [[? ?] ?].
  - destruct (finish a s) as [[s1 c1] w1]. rewrite IH.
    destruct (finish_all finish l s1) as [[s2 c2] w2], (finish_all finish l' s2) as [[s3 c3] w3].
    by rewrite app_assoc.
Qed.

(** A started quality race completes exactly once, on its last finish, with
    the arguments of its first success or else of its last failure; only that
    first success is told that it won; further finishes are refused, and the
    race is ready to start again. *)
Theorem race_quality_completes h l extra s :
  runners_ s = 0%nat -> size_ s = length l -> l <> [] ->
  exists s', start h s = (s', true) /\
  let '(s'', calls, won) := finish_all finish (l ++ extra) s' in
  calls = [(h, outcome l)] /\
  won = winners l ++ replicate (length extra) false /\
  running s'' = false /\ size_ s'' = size_ s.
Proof.
  intros Hr Hs Hl. unfold start, running. rewrite Hr. simpl. eexists; split; [done |].
  rewrite finish_all_app, (quality_finish_all_open l h) by (rewrite ?Hs; done). simpl.
  rewrite finish_all_idle by (intros; by apply quality_finish_idle). by rewrite ?app_nil_r.
Qed.
End race_quality.

Lemma race_quality_completes_witness :
  exists s', start 9 (make (A := code * Z) (error.success : code, 0) 3) = (s', true) /\
  let '(s'', calls, won) := finish_all (finish fst (error.success : code, 0))
    ([(error.operation_failed : code, 1); (error.success : code, 2);
      (error.success : code, 3)] ++ [(error.success : code, 4)]) s' in
  calls = [(9, (error.success : code, 2))] /\
  won = [false; true; false; false] /\
  running s'' = false /\ size_ s'' = 3%nat.
Proof.
  refine (race_quality_completes fst (error.success : code, 0) 9
    [(error.operation_failed : code, 1); (error.success : code, 2); (error.success : code, 3)]
    [(error.success : code, 4)] (make (error.success : code, 0) 3) _ _ _); done.
Defined.
End race_quality.

(** ** race_unity: the first failure, or else the last success *)

Module race_unity.
Section race_unity.
Context {H A : Type} (ec : A -> code) (none : A).

Record t := mk {
  size_ : nat;
  args_ : A;
  failure_ : bool;
  runners_ : nat;
  complete_ : option H
}.

Definition make (size : nat) : t := mk size none false 0 None.

Definition running (s : t) : bool := negb (Nat.eqb (runners_ s) 0).

Definition start (complete : H) (s : t) : t * bool :=
  if running s then (s, false) else
  (mk (size_ s) (args_ s) false (size_ s) (Some complete), true).

Definition set_failure (failure : bool) (s : t) : t * bool :=
  let failure := failure && negb (failure_ s) in
  (mk (size_ s) (args_ s) (failure_ s || failure) (runners_ s) (complete_ s), failure).

Definition set_args (args : A) (s : t) : t :=
  mk (size_ s) args (failure_ s) (runners_ s) (complete_ s).

Definition invoke (s : t) : t * list (H * A) * bool :=
  if negb (running s) then (s, [], false) else
  let s := mk (size_ s) (args_ s) (failure_ s) (runners_ s - 1) (complete_ s) in
  if running s then (s, [], true) else
  match complete_ s with
  | None => (s, [], false)
  | Some complete =>
    (mk (size_ s) none (failure_ s) (runners_ s) None, [(complete, args_ s)], true)
  end.

Definition finish (args : A) (s : t) : t * list (H * A) * bool :=
  if negb (running s) then (s, [], false) else
  let '(s, failer) := set_failure (failed (ec args)) s in
  let last := Nat.eqb (runners_ s) 1 in
  let s := if failer || (last && negb (failure_ s)) then set_args args s else s in
  let '(s, calls, invoked) := invoke s in
  (s, calls, invoked && last && negb (failure_ s)).

(** The first failure if any, or else the last. *)
Fixpoint outcome (l : list A) : A :=
  match l with
  | [] => none
  | [a] => a
  | a :: l => if failed (ec a) then a else outcome l
  end.

(** Only the last finisher can be told of the success of all. *)
Fixpoint unanimous (l : list A) : list bool :=
  match l with
  | [] => []
  | [a] => [negb (failed (ec a))]
  | a :: l => if failed (ec a) then false :: replicate (length l) false else false :: unanimous l
  end.

Lemma unity_finish_idle args s : runners_ s = 0%nat -> finish args s = (s, [], false).
Proof. unfold finish, running. by intros ->. Qed.

Lemma unity_finish_eq args sz ar sc n h :
  finish args (mk sz ar sc (S n) (Some h)) =
    let failer := failed (ec args) && negb sc in
    let ar' := if failer || (Nat.eqb n 0 && negb (sc || failer)) then args else ar in
    if Nat.eqb n 0 then (mk sz none (sc || failer) 0 None, [(h, ar')], negb (sc || failer))
    else (mk sz ar' (sc || failer) n (Some h), [], false).
Proof. unfold finish. by destruct n, sc, (failed (ec args)). Qed.

Definition under_way (runners : nat) (lost : bool) (h : H) (s : t) : Prop :=
  runners_ s = runners /\ failure_ s = lost /\ complete_ s = Some h.

Lemma finish_all_lost l h s : under_way (length l) true h s -> l <> [] ->
  finish_all finish l s =
    (mk (size_ s) none true 0 None, [(h, args_ s)], replicate (length l) false).
Proof.
  revert s. induction l as [| a l IH]; intros s (Hr & Hw & Hc) Hne; [done |].
  destruct s as [sz ar sc rn cp]. simpl in *. subst.
  cbn [finish_all]. rewrite unity_finish_eq. cbv zeta. rewrite andb_false_r. simpl.
  rewrite andb_false_r. last_or_more l. by rewrite IH.
Qed.

Lemma unity_finish_all_open l h s : under_way (length l) false h s -> l <> [] ->
  finish_all finish l s =
    (mk (size_ s) none (existsb (fun a => failed (ec a)) l) 0 None,
      [(h, outcome l)], unanimous l).
Proof.
  revert s. induction l as [| a l IH]; intros s (Hr & Hw & Hc) Hne; [done |].
  destruct s as [sz ar sc rn cp]. simpl in *. subst.
  cbn [finish_all]. rewrite unity_finish_eq. cbv zeta. rewrite andb_true_r. simpl.
  destruct (failed (ec a)) eqn:Ha; simpl.
  - last_or_more l. rewrite (finish_all_lost l h) by done. destruct l; simpl; by rewrite ?Ha.
  - last_or_more l. rewrite IH by done. destruct l; simpl; by rewrite ?Ha.
Qed.

(** A started unity race completes exactly once, on its last finish, with
    the arguments of its first failure or else of its last success; a finish
    returns true only for the last finisher of a race without failure. *)
Theorem race_unity_completes h l s :
  runners_ s = 0%nat -> size_ s = length l -> l <> [] ->
  exists s', start h s = (s', true) /\
  let '(s'', calls, wons) := finish_all finish l s' in
  calls = [(h, outcome l)] /\ wons = unanimous l /\
  running s'' = false /\ size_ s'' = size_ s /\
  forall args, finish args s'' = (s'', [], false).
Proof.
  intros Hr Hs Hl. unfold start, running. rewrite Hr. simpl. eexists; split; [done |].
  rewrite (unity_finish_all_open l h) by (rewrite ?Hs; done). simpl.
  split_and!; done.
Qed.
End race_unity.

Lemma race_unity_completes_witness :
  exists s', start 9 (make (A := code * Z) (error.success : code, 0) 2) = (s', true) /\
  let '(s'', calls, wons) := finish_all (finish fst (error.success : code, 0))
    [(error.success : code, 2); (error.success : code, 3)] s' in
  calls = [(9, (error.success : code, 3))] /\ wons = [false; true] /\
  running s'' = false /\ size_ s'' = 2%nat /\
  forall args, finish fst (error.success : code, 0) args s'' = (s'', [], false).
Proof.
  refine (race_unity_completes fst (error.success : code, 0) 9
    [(error.success : code, 2); (error.success : code, 3)]
    (make (error.success : code, 0) 2) _ _ _); done.
Defined.
End race_unity.

(** ** race_speed: the first to finish *)

Module race_speed.
Section race_speed.
Context {H A : Type} (none : A) (Size : nat).

Record t := mk { args_ : A; runners_ : nat; complete_ : option H }.

Definition make : t := mk none 0 None.

Definition running (s : t) : bool := negb (Nat.eqb (runners_ s) 0).

Definition start (complete : H) (s : t) : t * bool :=
  if running s then (s, false) else (mk (args_ s) Size (Some complete), true).

Definition is_winner (s : t) : bool := Nat.eqb (runners_ s) Size.

Definition invoke (s : t) : t * list (H * A) * bool :=
  if negb (running s) then (s, [], false) else
  let s := mk (args_ s) (runners_ s - 1) (complete_ s) in
  if running s then (s, [], true) else
  match complete_ s with
  | None => (s, [], false)
  | Some complete => (mk none (runners_ s) None, [(complete, args_ s)], true)
  end.

Definition finish (args : A) (s : t) : t * list (H * A) * bool :=
  if negb (running s) then (s, [], false) else
  let winner := is_winner s in
  let s := if winner then mk args (runners_ s) (complete_ s) else s in
  let '(s, calls, invoked) := invoke s in
  (s, calls, invoked && winner).

Lemma speed_finish_idle args s : runners_ s = 0%nat -> finish args s = (s, [], false).
Proof. unfold finish, running. by intros ->. Qed.

Lemma speed_finish_eq args ar n h :
  finish args (mk ar (S n) (Some h)) =
    let winner := Nat.eqb (S n) Size in
    let ar' := if winner then args else ar in
    if Nat.eqb n 0 then (mk none 0 None, [(h, ar')], winner)
    else (mk ar' n (Some h), [], winner).
Proof.
  unfold finish, is_winner. cbn [runners_]. destruct (Nat.eqb (S n) Size); by destruct n.
Qed.

Lemma finish_all_late l h s : runners_ s = length l -> complete_ s = Some h -> l <> [] ->
  (length l < Size)%nat ->
  finish_all finish l s = (mk none 0 None, [(h, args_ s)], replicate (length l) false).
Proof.
  revert s. induction l as [| a l IH]; intros s Hr Hc Hne Hl; [done |].
  destruct s as [ar rn cp]. cbn [length runners_ complete_ args_] in *. subst.
  cbn [finish_all]. rewrite speed_finish_eq. cbv zeta.
  destruct (Nat.eqb (S (length l)) Size) eqn:He; [apply Nat.eqb_eq in He; lia |].
  last_or_more l. by rewrite IH by (done || lia).
Qed.

(** A started speed race completes exactly once, on its last finish, with
    the arguments of the first to finish, who alone is told that it won. *)
Theorem race_speed_completes h a l s :
  runners_ s = 0%nat -> Size = length (a :: l) ->
  exists s', start h s = (s', true) /\
  let '(s'', calls, wons) := finish_all finish (a :: l) s' in
  calls = [(h, a)] /\ wons = true :: replicate (length l) false /\
  running s'' = false /\ forall args, finish args s'' = (s'', [], false).
Proof.
  intros Hr Hs. unfold start, running at 1. rewrite Hr. simpl. eexists; split; [done |].
  cbn [finish_all]. rewrite Hs. cbn [length]. rewrite speed_finish_eq. cbv zeta.
  rewrite Hs. cbn [length]. rewrite Nat.eqb_refl.
  assert (forall s', runners_ s' = 0%nat -> forall args, finish args s' = (s', [], false)) as Hidle
    by (intros; by apply speed_finish_idle).
  last_or_more l.
  rewrite (finish_all_late l h) by (done || (rewrite Hs; simpl; lia)). by split_and!; auto.
Qed.
End race_speed.

Lemma race_speed_completes_witness :
  exists s', start 2 9 (make (A := Z) 0) = (s', true) /\
  let '(s'', calls, wons) := finish_all (finish 0 2) [5; 6] s' in
  calls = [(9, 5)] /\ wons = [true; false] /\
  running s'' = false /\ forall args, finish 0 2 args s'' = (s'', [], false).
Proof. refine (race_speed_completes 0 2 9 5 [6] (make 0) _ _); done. Defined.
End race_speed.

(** ** race_volume: the first sufficient count *)

Module race_volume.
Section race_volume.
Context {H : Type} (Success Fail : code).

Record t := mk {
  size_ : nat;
  required_ : Z;
  runners_ : nat;
  sufficient_ : option H;
  complete_ : option H
}.

Definition make (size : nat) (required : Z) : t := mk size required 0 None None.

Definition running (s : t) : bool := negb (Nat.eqb (runners_ s) 0).

Definition start (sufficient complete : H) (s : t) : t * bool :=
  if running s then (s, false) else
  (mk (size_ s) (required_ s) (size_ s) (Some sufficient) (Some complete), true).

Definition invoke (s : t) : t * list (H * code) * bool :=
  if negb (running s) then (s, [], false) else
  let s := mk (size_ s) (required_ s) (runners_ s - 1) (sufficient_ s) (complete_ s) in
  if running s then (s, [], true) else
  match complete_ s with
  | None => (s, [], false)
  | Some complete =>
    (mk (size_ s) (required_ s) (runners_ s) (sufficient_ s) None, [(complete, Success)], true)
  end.

Definition reset_sufficient (s : t) : t :=
  mk (size_ s) (required_ s) (runners_ s) None (complete_ s).

Definition finish (count : Z) (s : t) : t * list (H * code) * bool :=
  if negb (running s) then (s, [], false) else
  let '(s, calls, winner) :=
    match sufficient_ s with
    | None => (s, [], false)
    | Some sufficient =>
      if count >=? required_ s then (reset_sufficient s, [(sufficient, Success)], true)
      else if Nat.eqb (runners_ s) 1 then (reset_sufficient s, [(sufficient, Fail)], false)
      else (s, [], false)
    end in
  let '(s, more, invoked) := invoke s in
  (s, calls ++ more, invoked && winner).

Fixpoint winners (required : Z) (counts : list Z) : list bool :=
  match counts with
  | [] => []
  | count :: counts =>
    if count >=? required then true :: replicate (length counts) false
    else false :: winners required counts
  end.

Lemma volume_finish_idle args s : runners_ s = 0%nat -> finish args s = (s, [], false).
Proof. unfold finish, running. by intros ->. Qed.

Lemma volume_finish_eq count sz rq n g h :
  finish count (mk sz rq (S n) g (Some h)) =
    let enough := count >=? rq in
    let called := bool_decide (is_Some g) && (enough || Nat.eqb n 0) in
    let calls := if called then
      if g is Some g then [(g, if enough then Success else Fail)] else [] else [] in
    let g' := if called then None else g in
    let winner := bool_decide (is_Some g) && enough in
    if Nat.eqb n 0 then (mk sz rq 0 g' None, calls ++ [(h, Success)], winner)
    else (mk sz rq n g' (Some h), calls, winner).
Proof. unfold finish. by destruct n, g, (count >=? rq) eqn:Hc; simpl; rewrite ?Hc. Qed.

Lemma finish_all_enough counts h s : runners_ s = length counts -> sufficient_ s = None ->
  complete_ s = Some h -> counts <> [] ->
  finish_all finish counts s =
    (mk (size_ s) (required_ s) 0 None None, [(h, Success)], replicate (length counts) false).
Proof.
  revert s. induction counts as [| c l IH]; intros s Hr Hs Hc Hne; [done |].
  destruct s as [sz rq rn sf cp]. simpl in *. subst.
  cbn [finish_all]. rewrite volume_finish_eq. cbv zeta. simpl. last_or_more l. by rewrite IH.
Qed.

Lemma finish_all_short counts g h s : runners_ s = length counts -> sufficient_ s = Some g ->
  complete_ s = Some h -> counts <> [] ->
  finish_all finish counts s =
    (mk (size_ s) (required_ s) 0 None None,
      [(g, if existsb (fun c => c >=? required_ s) counts then Success else Fail);
       (h, Success)], winners (required_ s) counts).
Proof.
  revert s. induction counts as [| c l IH]; intros s Hr Hs Hc Hne; [done |].
  destruct s as [sz rq rn sf cp]. simpl in *. subst.
  cbn [finish_all]. rewrite volume_finish_eq. cbv zeta. simpl. destruct (c >=? rq) eqn:Hcr; simpl.
  - last_or_more l. by rewrite (finish_all_enough l h).
  - last_or_more l. by rewrite IH.
Qed.

(** A started volume race calls its sufficient handler exactly once, with
    Success as soon as a count reaches what is required and with Fail at the
    last finish if none does, and then its completion handler exactly once, at
    the last finish, with Success; only the first sufficient finisher is told
    that it won. *)
Theorem race_volume_completes g h counts s :
  runners_ s = 0%nat -> size_ s = length counts -> counts <> [] ->
  exists s', start g h s = (s', true) /\
  let '(s'', calls, wons) := finish_all finish counts s' in
  calls = [(g, if existsb (fun c => c >=? required_ s) counts then Success else Fail);
           (h, Success)] /\
  wons = winners (required_ s) counts /\
  running s'' = false /\ forall count, finish count s'' = (s'', [], false).
Proof.
  intros Hr Hs Hl. unfold start, running. rewrite Hr. simpl. eexists; split; [done |].
  rewrite (finish_all_short counts g h) by (rewrite ?Hs; done).
  by split_and!.
Qed.

(** The sufficient handler is called at the finish that is told it won. *)
Lemma finish_sufficient count g s : running s = true -> sufficient_ s = Some g ->
  count >= required_ s -> exists more, (finish count s).1.2 = (g, Success) :: more.
Proof.
  intros Hr Hs Hc. unfold finish. rewrite Hr, Hs. simpl.
  destruct (count >=? required_ s) eqn:?; [| lia].
  destruct (invoke (reset_sufficient s)) as [[s' more] invoked]. by exists more.
Qed.
End race_volume.

Lemma race_volume_completes_witness :
  exists s', start 1 2 (make 3 10) = (s', true) /\
  let '(s'', calls, wons) := finish_all
    (finish (error.success : code) (error.operation_failed : code)) [4; 12; 11] s' in
  calls = [(1, error.success : code); (2, error.success : code)] /\
  wons = [false; true; false] /\
  running s'' = false /\ forall count,
    finish (error.success : code) (error.operation_failed : code) count s'' = (s'', [], false).
Proof.
  refine (race_volume_completes (error.success : code) (error.operation_failed : code) 1 2
    [4; 12; 11] (make 3 10) _ _ _); done.
Defined.
End race_volume.

(** ** race_any: the first of any threads *)

Module race_any.
Section race_any.
Context {A : Type} (of_code : code -> A).

(** The shared object.  [complete_] is whether the handler is still held. *)
Record t := mk { finished_ : bool; complete_ : bool }.

Definition init : t := mk false true.

(** A thread's call of [finish] in its atomic steps: the exchange, the call of
    the completion handler, its release. *)
Inductive thread := Exchange (args : A) | Complete (args : A) | Release | Return (won : bool).

(** The object, the threads, and the completion calls made: a call of a
    released handler is an error ([None]). *)
Record world := mk_world { race : t; threads : list thread; calls : list (option A) }.

Definition call (args : A) (w : t) : option A := if complete_ w then Some args else None.

Definition finish_step (i : nat) (w : world) : world :=
  match threads w !! i with
  | Some (Exchange args) =>
    mk_world (mk true (complete_ (race w)))
      (<[i := if finished_ (race w) then Return false else Complete args]> (threads w)) (calls w)
  | Some (Complete args) =>
    mk_world (race w) (<[i := Release]> (threads w)) (calls w ++ [call args (race w)])
  | Some Release =>
    mk_world (mk (finished_ (race w)) false) (<[i := Return true]> (threads w)) (calls w)
  | _ => w
  end.

(** The destructor, once no thread holds the object. *)
Definition destroy (w : world) : world :=
  if finished_ (race w) then w else
  mk_world (race w) (threads w) (calls w ++ [call (of_code error.operation_failed) (race w)]).

Definition schedule (order : list nat) (w : world) : world := fold_left (fun w i => finish_step i w) order w.

Definition begin (args : list A) : world := mk_world init (map Exchange args) [].

Definition returned (th : thread) : Prop := match th with Return _ => True | _ => False end.

(** Before the first exchange, and after it: who the winner is, and where. *)
Definition inv (args : list A) (w : world) : Prop :=
  length (threads w) = length args /\
  ((race w = init /\ calls w = [] /\ threads w = map Exchange args) \/
   (finished_ (race w) = true /\ exists i a,
      args !! i = Some a /\
      ((threads w !! i = Some (Complete a) /\ calls w = [] /\ complete_ (race w) = true) \/
       (threads w !! i = Some Release /\ calls w = [Some a]) \/
       (threads w !! i = Some (Return true) /\ calls w = [Some a])) /\
      forall j th, j <> i -> threads w !! j = Some th ->
        th = Return false \/ exists b, th = Exchange b)).

Lemma inv_step args w i : inv args w -> inv args (finish_step i w).
Proof.
  intros [Hlen Hinv]. unfold finish_step.
  destruct (threads w !! i) as [th |] eqn:Hi; [| by split].
  destruct Hinv as [(Hr & Hc & Ht) | (Hf & k & a & Ha & Hk & Hothers)].
  - rewrite Ht, list_lookup_fmap in Hi. destruct (args !! i) as [a |] eqn:Ha; [| done].
    simpl in Hi. simplify_eq. split; [cbn [threads]; by rewrite length_insert |]. right. split; [done |].
    exists i, a. split; [done |]. simpl. rewrite Hr. split.
    + left. split; [| done]. apply list_lookup_insert_eq. rewrite Hlen.
      by apply lookup_lt_is_Some_1.
    + intros j th' Hj. rewrite list_lookup_insert_ne, Ht, list_lookup_fmap by done.
      intros Hth. right. destruct (args !! j) as [b |]; [| done]. simpl in Hth. simplify_eq. by exists b.
  - assert (i < length (threads w))%nat as Hlt by (by apply lookup_lt_is_Some_1).
    destruct (decide (i = k)) as [-> | Hne].
    + destruct Hk as [(Hk & Hc & Hl) | [(Hk & Hc) | (Hk & Hc)]]; rewrite Hk in Hi; simplify_eq;
        (split; [cbn [threads]; rewrite ?length_insert; done |]); right; (split; [done |]); exists k, a;
        (split; [done |]); split; simpl.
      * right; left. rewrite list_lookup_insert_eq by done. split; [done |].
        unfold call. by rewrite Hl, Hc.
      * intros j th Hj. rewrite list_lookup_insert_ne by done. by apply Hothers.
      * right; right. by rewrite list_lookup_insert_eq by done.
      * intros j th Hj. rewrite list_lookup_insert_ne by done. by apply Hothers.
      * by right; right.
      * done.
    + destruct (Hothers i th Hne Hi) as [-> | [b ->]].
      { split; [done |]. right. split; [done |]. by exists k, a. }
      split; [cbn [threads]; by rewrite length_insert |]. right. split; [done |]. exists k, a.
      split; [done |]. simpl. rewrite list_lookup_insert_ne by done. split; [done |].
      intros j th Hj. destruct (decide (j = i)) as [-> | Hji].
      * rewrite list_lookup_insert_eq by done. rewrite Hf. intros. simplify_eq. by left.
      * rewrite list_lookup_insert_ne by done. by apply Hothers.
Qed.

Lemma inv_schedule args order w : inv args w -> inv args (schedule order w).
Proof. revert w. induction order as [| i order IH]; intros w Hw; [done |]. by apply IH, inv_step. Qed.

(** C31: however the threads of a race_any are interleaved, the completion
    handler is never called after its release and never twice; once all have
    returned and the object is destroyed it has been called exactly once: with
    the arguments of the one thread whose finish returned true or, if there
    was no finish, with operation_failed. *)
Theorem race_any_completes_once args order :
  let w := schedule order (begin args) in
  (length (calls w) <= 1)%nat /\ ~ (None ∈ calls w) /\
  (Forall returned (threads w) ->
    match args with
    | [] => calls (destroy w) = [Some (of_code error.operation_failed)]
    | _ => exists i a, args !! i = Some a /\ calls (destroy w) = [Some a] /\
        forall j, threads w !! j = Some (Return true) <-> j = i
    end).
Proof.
  intros w. assert (inv args w) as [Hlen Hinv].
  { apply inv_schedule. split; [cbn [begin threads]; by rewrite length_map |]. by left. }
  clearbody w. split_and!.
  - destruct Hinv as [(_ & -> & _) | (_ & i & a & _ & Hk & _)]; [simpl; lia |].
    destruct Hk as [(_ & -> & _) | [(_ & ->) | (_ & ->)]]; simpl; lia.
  - destruct Hinv as [(_ & -> & _) | (_ & i & a & _ & Hk & _)]; [apply not_elem_of_nil |].
    destruct Hk as [(_ & -> & _) | [(_ & ->) | (_ & ->)]];
      [apply not_elem_of_nil | by rewrite list_elem_of_singleton ..].
  - intros Hall. rewrite Forall_lookup in Hall.
    destruct Hinv as [(Hr & Hc & Ht) | (Hf & i & a & Ha & Hk & Hothers)].
    + destruct args as [| a args]; [unfold destroy; by rewrite Hr, Hc |].
      destruct (Hall 0%nat (Exchange a)). by rewrite Ht.
    + destruct args as [| b args]; [done |]. exists i, a. split; [done |].
      destruct Hk as [(Hk & _) | [(Hk & _) | (Hk & Hc)]]; [by destruct (Hall _ _ Hk) .. |].
      unfold destroy. rewrite Hf. split; [done |]. intros j. split; [| by intros ->].
      intros Hj. destruct (decide (j = i)) as [| Hne]; [done |].
      destruct (Hothers j _ Hne Hj) as [| [? ?]]; done.
Qed.
End race_any.

(** Two threads: the second exchanges first, and wins. *)
Lemma race_any_completes_once_witness :
  let w := schedule [1%nat; 0%nat; 1%nat; 1%nat] (begin [5; 6]) in
  exists i a, [5; 6] !! i = Some a /\ calls (destroy (fun _ => 0) w) = [Some a] /\
    forall j, threads w !! j = Some (Return true) <-> j = i.
Proof.
  refine (proj2 (proj2 (race_any_completes_once (fun _ => 0) [5; 6]
    [1%nat; 0%nat; 1%nat; 1%nat])) _).
  repeat constructor.
Defined.
End race_any.
