(* ===== verification/Stream.v ===== *)
(** * Stream: the byte readers and writers of the message codecs

    The messages are read from a [system::reader] and written to a
    [system::writer], which are interfaces of libbitcoin-system.  Here they are
    typeclasses: the operations that the messages use, with their documented
    behaviour as laws.  A reader is good until a read fails or it is
    invalidated, and then stays so; [rest] is what it has left to read.  A
    message is proved correct against these interfaces alone; the instances at
    the end (readers and writers of a list of bytes) show that they can be
    met. *)

From S2P Require Import Prelude.

(** Little-endian digits. *)
Definition le_bytes (n : nat) (v : Z) : bytes := rev (be_bytes n v).

Definition le_value (l : bytes) : Z := be_value (rev l).

Lemma len_le_bytes n v : len (le_bytes n v) = Z.of_nat n.
Proof. unfold le_bytes, len. rewrite length_rev, length_be_bytes. done. Qed.

Lemma le_bytes_ok n v : bytes_ok (le_bytes n v).
Proof.
  unfold le_bytes. apply Forall_forall. intros x Hx.
  pose proof (be_bytes_ok n v) as Hb. rewrite Forall_forall in Hb. apply Hb.
  apply list_elem_of_In. apply in_rev. by apply list_elem_of_In.
Qed.

Lemma le_value_bytes n v : 0 <= v < 256 ^ Z.of_nat n -> le_value (le_bytes n v) = v.
Proof. intros. unfold le_value, le_bytes. rewrite rev_involutive. by apply be_value_bytes. Qed.

(** ** The reader monad *)

Section monad.
Context {R : Type}.

Definition ret {A} (a : A) : R -> A * R := fun r => (a, r).

Definition bind {A B} (m : R -> A * R) (f : A -> R -> B * R) : R -> B * R :=
  fun r => let '(a, r) := m r in f a r.

(** A loop that reads [count] elements. *)
Fixpoint read_list {A} (count : nat) (item : R -> A * R) : R -> list A * R :=
  match count with
  | O => ret []
  | S n => bind item (fun a => bind (read_list n item) (fun l => ret (a :: l)))
  end.
End monad.

Declare Scope reader_scope.
Delimit Scope reader_scope with reader.
Notation "x <- m ;; f" := (bind m (fun x => f))
  (at level 100, m at next level, right associativity) : reader_scope.
Notation "m ;; f" := (bind m (fun _ => f))
  (at level 100, right associativity) : reader_scope.

(** ** The interfaces *)

Class VariableSize := {
  variable : Z -> bytes;
  variable_ok v : bytes_ok (variable v)
}.

(** The size of an encoded size, as the code computes it. *)
Definition variable_size `{VariableSize} (v : Z) : Z := len (variable v).

Class ByteReader (R : Type) := {
  good : R -> bool;
  rest : R -> bytes;
  open : bytes -> R;
  invalidate : R -> R;
  is_exhausted : R -> bool;
  read_byte : R -> Z * R;
  read_bytes : Z -> R -> bytes * R;
  read_hash : R -> bytes * R;
  read_2_bytes_big_endian : R -> Z * R;
  read_4_bytes_little_endian : R -> Z * R;
  read_8_bytes_little_endian : R -> Z * R;
  read_variable : R -> Z * R;
  read_size : Z -> R -> Z * R;
  read_string : Z -> R -> bytes * R;
  read_string_buffer : Z -> R -> bytes * R;
  skip_bytes : Z -> R -> R
}.

Definition presents `{ByteReader R} (r : R) (l : bytes) : Prop := good r = true /\ rest r = l.

(** Reading [l] gives [v] and leaves what follows. *)
Definition reads `{ByteReader R} {A : Type} (op : R -> A * R) (l : bytes) (v : A) : Prop :=
  forall r k, presents r (l ++ k) -> exists r', op r = (v, r') /\ presents r' k.

(** An operation that never makes an invalid reader good. *)
Definition sticky `{ByteReader R} {A : Type} (op : R -> A * R) : Prop :=
  forall r, good (op r).2 = true -> good r = true.

Class ReaderLaws `{VariableSize} (R : Type) `{!ByteReader R} : Prop := {
  open_law l : presents (open l) l;
  invalidate_law r : good (invalidate r) = false;
  is_exhausted_law r l : presents r l -> is_exhausted r = bool_decide (l = []);
  read_byte_law b : u8 b -> reads read_byte [b] b;
  read_bytes_law d : bytes_ok d -> reads (read_bytes (len d)) d d;
  read_hash_law d : bytes_ok d -> len d = 32 -> reads read_hash d d;
  read_2_law v : u16 v -> reads read_2_bytes_big_endian (be_bytes 2 v) v;
  read_4_law v : u32 v -> reads read_4_bytes_little_endian (le_bytes 4 v) v;
  read_8_law v : u64 v -> reads read_8_bytes_little_endian (le_bytes 8 v) v;
  read_variable_law v : u64 v -> reads read_variable (variable v) v;
  read_size_law limit v : u64 v -> v <= limit -> reads (read_size limit) (variable v) v;
  read_string_law limit s : bytes_ok s -> len s < 2 ^ 64 -> len s <= limit ->
    reads (read_string limit) (variable (len s) ++ s) s;
  read_string_buffer_law size s : bytes_ok s -> len s <= size -> ~ (0 ∈ s) ->
    reads (read_string_buffer size) (s ++ replicate (Z.to_nat (size - len s)) 0) s;
  read_byte_sticky : sticky read_byte;
  read_bytes_sticky n : sticky (read_bytes n);
  read_hash_sticky : sticky read_hash;
  read_2_sticky : sticky read_2_bytes_big_endian;
  read_4_sticky : sticky read_4_bytes_little_endian;
  read_8_sticky : sticky read_8_bytes_little_endian;
  read_variable_sticky : sticky read_variable;
  read_size_sticky limit : sticky (read_size limit);
  read_string_sticky limit : sticky (read_string limit);
  read_string_buffer_sticky size : sticky (read_string_buffer size);
  skip_bytes_sticky n r : good (skip_bytes n r) = true -> good r = true;
  read_4_range r : u32 (read_4_bytes_little_endian r).1;
  read_bytes_good n r d r' : 0 <= n -> read_bytes n r = (d, r') -> good r' = true -> len d = n;
  skip_bytes_law d : bytes_ok d -> reads (fun r => (tt, skip_bytes (len d) r)) d tt
}.

Class ByteWriter (W : Type) := {
  written : W -> bytes;
  write_byte : Z -> W -> W;
  write_bytes : bytes -> W -> W;
  write_2_bytes_big_endian : Z -> W -> W;
  write_4_bytes_little_endian : Z -> W -> W;
  write_8_bytes_little_endian : Z -> W -> W;
  write_variable : Z -> W -> W;
  write_string : bytes -> W -> W;
  write_string_buffer : bytes -> Z -> W -> W;
  create : W
}.

(** Writing appends [l]. *)
Definition writes `{ByteWriter W} (op : W -> W) (l : bytes) : Prop :=
  forall w, written (op w) = written w ++ l.

Class WriterLaws `{VariableSize} (W : Type) `{!ByteWriter W} : Prop := {
  create_law : written create = [];
  write_byte_law b : u8 b -> writes (write_byte b) [b];
  write_bytes_law d : bytes_ok d -> writes (write_bytes d) d;
  write_2_law v : u16 v -> writes (write_2_bytes_big_endian v) (be_bytes 2 v);
  write_4_law v : u32 v -> writes (write_4_bytes_little_endian v) (le_bytes 4 v);
  write_8_law v : u64 v -> writes (write_8_bytes_little_endian v) (le_bytes 8 v);
  write_variable_law v : u64 v -> writes (write_variable v) (variable v);
  write_string_law s : bytes_ok s -> len s < 2 ^ 64 ->
    writes (write_string s) (variable (len s) ++ s);
  write_string_buffer_law s size : bytes_ok s -> len s <= size ->
    writes (write_string_buffer s size) (s ++ replicate (Z.to_nat (size - len s)) 0)
}.

(** Continue, or invalidate the reader: the guards of the messages. *)
Definition require `{ByteReader R} (b : bool) : R -> unit * R :=
  fun r => (tt, if b then r else invalidate r).

(** ** Composition *)

Section composition.
Context `{VariableSize} {R W : Type} `{!ByteReader R, !ByteWriter W}.
Context `{!ReaderLaws R, !WriterLaws W}.

Lemma reads_ret {A} (v : A) : reads (ret v) [] v.
Proof. intros r k Hr. by exists r. Qed.

Lemma reads_bind {A B} (m : R -> A * R) (f : A -> R -> B * R) l1 l2 a b :
  reads m l1 a -> reads (f a) l2 b -> reads (bind m f) (l1 ++ l2) b.
Proof.
  intros Hm Hf r k Hr. rewrite <- app_assoc in Hr. destruct (Hm r _ Hr) as (r1 & Hr1 & Hp).
  destruct (Hf r1 _ Hp) as (r2 & Hr2 & Hp2). exists r2. split; [| done].
  unfold bind. by rewrite Hr1.
Qed.

(** The last step of a sequence reads nothing. *)
Lemma reads_done {A B} (m : R -> A * R) (f : A -> R -> B * R) l a b :
  reads m l a -> reads (f a) [] b -> reads (bind m f) l b.
Proof. intros Hm Hf. rewrite <- (app_nil_r l). by eapply reads_bind. Qed.

Lemma sticky_bind {A B} (m : R -> A * R) (f : A -> R -> B * R) :
  sticky m -> (forall a, sticky (f a)) -> sticky (bind m f).
Proof.
  intros Hm Hf r. unfold bind. pose proof (Hm r) as H1. destruct (m r) as [a r1].
  intros Hg. apply H1. by apply (Hf a).
Qed.

Lemma sticky_ret {A} (a : A) : sticky (ret a).
Proof. by intros r. Qed.

Lemma sticky_require b : sticky (require b).
Proof. intros r. destruct b; [done |]. simpl. by rewrite invalidate_law. Qed.

(** What follows a sequence that ends good. *)
Lemma bind_good {A B} (m : R -> A * R) (f : A -> R -> B * R) r b r' :
  bind m f r = (b, r') -> exists a r1, m r = (a, r1) /\ f a r1 = (b, r').
Proof. unfold bind. destruct (m r) as [a r1]. eauto. Qed.

Lemma reads_list {A} (item : R -> A * R) (enc : A -> bytes) (l : list A) :
  Forall (fun a => reads item (enc a) a) l ->
  reads (read_list (length l) item) (concat (map enc l)) l.
Proof.
  induction 1 as [| a l Ha Hl IH]; [apply reads_ret |]. simpl.
  eapply reads_bind; [done |]. eapply reads_done; [done |]. apply reads_ret.
Qed.

Lemma writes_seq (f g : W -> W) l1 l2 :
  writes f l1 -> writes g l2 -> writes (fun w => g (f w)) (l1 ++ l2).
Proof. intros Hf Hg w. by rewrite Hg, Hf, app_assoc. Qed.

Lemma writes_id : writes (fun w : W => w) [].
Proof. intros w. by rewrite app_nil_r. Qed.

Lemma writes_list {A} (item : A -> W -> W) (enc : A -> bytes) (l : list A) :
  Forall (fun a => writes (item a) (enc a)) l ->
  writes (fun w => fold_left (fun w a => item a w) l w) (concat (map enc l)).
Proof.
  induction 1 as [| a l Ha Hl IH]; [apply writes_id |]. intros w. simpl.
  by rewrite IH, Ha, app_assoc.
Qed.

Lemma reads_require b : b = true -> reads (require b) [] tt.
Proof. intros -> r k Hr. by exists r. Qed.

Lemma require_fails b r : b = false -> good (require b r).2 = false.
Proof. intros ->. apply invalidate_law. Qed.
End composition.

#[export] Hint Resolve reads_ret reads_require writes_id : net.

(** ** Automation

    [write_steps] computes what a sequence of writes appends; [read_steps]
    reads back what is presented, a field at a time.  The laws' conditions are
    left to [side]. *)

Ltac side := try solve [assumption | width | auto with net | done].

Ltac write_steps :=
  repeat first
    [ rewrite write_byte_law by side | rewrite write_bytes_law by side
    | rewrite write_2_law by side | rewrite write_4_law by side
    | rewrite write_8_law by side | rewrite write_variable_law by side
    | rewrite write_string_law by side | rewrite write_string_buffer_law by side ];
  rewrite <- ?app_assoc.

Ltac read_law :=
  first
    [ apply read_byte_law | apply read_hash_law | apply read_2_law | apply read_4_law
    | apply read_8_law | apply read_variable_law | apply read_size_law
    | apply read_string_law | apply read_string_buffer_law | apply read_bytes_law
    | apply skip_bytes_law | apply reads_require ]; side.

Ltac read_step :=
  first
    [ eapply reads_bind; [solve [read_law] |]
    | eapply reads_done; [solve [read_law] |] ].

Ltac read_steps := repeat read_step; try apply reads_ret.

(** ** Readers and writers of a list of bytes *)

(** The variable-length integers of the protocol. *)
Definition compact_size (v : Z) : bytes :=
  if v <? 253 then [narrow 8 v]
  else if v <=? max_uint16 then 253 :: le_bytes 2 v
  else if v <=? 2 ^ 32 - 1 then 254 :: le_bytes 4 v
  else 255 :: le_bytes 8 v.

#[export] Program Instance compact : VariableSize := {| variable := compact_size |}.
Next Obligation.
  intros v. unfold compact_size.
  destruct (_ <? _); [constructor; [| constructor]; unfold narrow; apply Z.mod_pos_bound; lia |].
  destruct (_ <=? _); [constructor; [width | apply le_bytes_ok] |].
  destruct (_ <=? _); constructor; try apply le_bytes_ok; width.
Qed.

Module list_stream.

(** [None] is an invalid reader. *)
Definition t : Type := option bytes.

Definition take_bytes (n : Z) (r : t) : bytes * t :=
  match r with
  | Some l => if n <=? len l then (ztake n l, Some (zdrop n l)) else ([], None)
  | None => ([], None)
  end.

Definition map_read {A B} (f : A -> B) (m : t -> A * t) : t -> B * t :=
  fun r => let '(a, r) := m r in (f a, r).

Definition read_compact : t -> Z * t :=
  bind (take_bytes 1) (fun b =>
    if zget b 0 <? 253 then ret (zget b 0)
    else if zget b 0 =? 253 then map_read le_value (take_bytes 2)
    else if zget b 0 =? 254 then map_read le_value (take_bytes 4)
    else map_read le_value (take_bytes 8)).

Definition read_limited (limit : Z) : t -> Z * t :=
  bind read_compact (fun v => if v <=? limit then ret v else fun _ => (0, None)).

Fixpoint until_zero (l : bytes) : bytes :=
  match l with
  | [] => []
  | b :: l => if b =? 0 then [] else b :: until_zero l
  end.

(** What the laws say, for a reader with [l] and more. *)
Definition gives {A} (op : t -> A * t) (l : bytes) (v : A) : Prop :=
  forall k, op (Some (l ++ k)) = (v, Some k).

Lemma gives_take d : gives (take_bytes (len d)) d d.
Proof.
  intros k. unfold take_bytes. rewrite len_app. pose proof (len_nonneg k).
  destruct (_ <=? _) eqn:?; [| lia]. by rewrite ztake_app_len, zdrop_app_len.
Qed.

Lemma gives_take_n n d : n = len d -> gives (take_bytes n) d d.
Proof. intros ->. apply gives_take. Qed.

Lemma gives_bind {A B} (m : t -> A * t) (f : A -> t -> B * t) l1 l2 a b :
  gives m l1 a -> gives (f a) l2 b -> gives (bind m f) (l1 ++ l2) b.
Proof. intros Hm Hf k. unfold bind. by rewrite <- app_assoc, Hm, Hf. Qed.

Lemma gives_map {A B} (f : A -> B) m l a b : gives m l a -> f a = b -> gives (map_read f m) l b.
Proof. intros Hm <- k. unfold map_read. by rewrite Hm. Qed.

Lemma gives_compact v : u64 v -> gives read_compact (compact_size v) v.
Proof.
  intros Hv. unfold compact_size, read_compact. unfold in_width in Hv.
  assert (forall n, 0 <= v < 256 ^ Z.of_nat n -> gives (map_read le_value (take_bytes (Z.of_nat n)))
    (le_bytes n v) v) as Hle.
  { intros n Hn. eapply gives_map; [apply gives_take_n; by rewrite len_le_bytes |].
    by apply le_value_bytes. }
  destruct (v <? 253) eqn:H1.
  - replace (narrow 8 v) with v by (unfold narrow; rewrite Z.mod_small; lia).
    rewrite <- (app_nil_r [v]). eapply gives_bind; [by apply (gives_take [v]) |].
    rewrite zget_cons_0, H1. by intros k.
  - destruct (v <=? max_uint16) eqn:H2; [| destruct (v <=? 2 ^ 32 - 1) eqn:H3].
    + change (253 :: le_bytes 2 v) with ([253] ++ le_bytes 2 v).
      eapply gives_bind; [by apply (gives_take [253]) |]. simpl.
      apply (Hle 2%nat). unfold max_uint16 in H2. lia.
    + change (254 :: le_bytes 4 v) with ([254] ++ le_bytes 4 v).
      eapply gives_bind; [by apply (gives_take [254]) |]. simpl. apply (Hle 4%nat). lia.
    + change (255 :: le_bytes 8 v) with ([255] ++ le_bytes 8 v).
      eapply gives_bind; [by apply (gives_take [255]) |]. simpl. apply (Hle 8%nat). lia.
Qed.

Lemma gives_limited limit v : u64 v -> v <= limit -> gives (read_limited limit) (compact_size v) v.
Proof.
  intros Hv Hl. rewrite <- (app_nil_r (compact_size v)).
  eapply gives_bind; [by apply gives_compact |]. destruct (_ <=? _) eqn:?; [by intros k | lia].
Qed.

Lemma until_zero_pad s n : ~ (0 ∈ s) -> until_zero (s ++ replicate n 0) = s.
Proof.
  induction s as [| b s IH]; intros Hs; [by destruct n |]. simpl.
  rewrite not_elem_of_cons in Hs. destruct Hs as [Hb Hs].
  destruct (b =? 0) eqn:?; [lia |]. by rewrite IH.
Qed.

#[global] Instance reader : ByteReader t := {|
  good r := bool_decide (is_Some r);
  rest r := default [] r;
  open l := Some l;
  invalidate _ := None;
  is_exhausted r := bool_decide (default [] r = []);
  read_byte := map_read (fun b => zget b 0) (take_bytes 1);
  read_bytes := take_bytes;
  read_hash := take_bytes 32;
  read_2_bytes_big_endian := map_read be_value (take_bytes 2);
  read_4_bytes_little_endian := map_read (fun l => narrow 32 (le_value l)) (take_bytes 4);
  read_8_bytes_little_endian := map_read le_value (take_bytes 8);
  read_variable := read_compact;
  read_size := read_limited;
  read_string limit := bind (read_limited limit) take_bytes;
  read_string_buffer size := map_read until_zero (take_bytes size);
  skip_bytes n r := (take_bytes n r).2
|}.

Lemma gives_reads {A} (op : t -> A * t) l v : gives op l v -> reads op l v.
Proof.
  intros Hg r k [Hr Hl]. destruct r as [d |]; [| done]. simpl in Hl. subst d.
  exists (Some k). split; [apply Hg | done].
Qed.

Lemma sticky_none {A} (op : t -> A * t) : (op None).2 = None -> sticky op.
Proof. intros Ho r Hg. destruct r; [done |]. by rewrite Ho in Hg. Qed.

Lemma read_limited_none limit : exists v, read_limited limit None = (v, None).
Proof.
  exists 0. unfold read_limited, bind.
  change (read_compact None) with (0, None : t). cbv beta iota. by destruct (_ <=? _).
Qed.

#[global] Instance reader_laws : ReaderLaws t.
Proof.
  constructor; intros; try apply gives_reads.
  - done.
  - done.
  - destruct r as [d |]; destruct H as [? Hl]; [| done]. simpl in *. by subst.
  - eapply gives_map; [by apply (gives_take [b]) | done].
  - by apply gives_take.
  - by apply gives_take_n.
  - eapply gives_map; [apply gives_take_n; by rewrite len_be_bytes |].
    apply be_value_bytes. width.
  - eapply gives_map; [apply gives_take_n; by rewrite len_le_bytes |].
    rewrite le_value_bytes by width. unfold narrow. apply Z.mod_small. width.
  - eapply gives_map; [apply gives_take_n; by rewrite len_le_bytes |].
    apply le_value_bytes. width.
  - by apply gives_compact.
  - by apply gives_limited.
  - pose proof (len_nonneg s). eapply gives_bind; [apply gives_limited; [width | done] |].
    apply gives_take.
  - eapply gives_map; [| by apply until_zero_pad]. apply gives_take_n.
    rewrite len_app, len_replicate. lia.
  - by apply sticky_none.
  - by apply sticky_none.
  - by apply sticky_none.
  - by apply sticky_none.
  - by apply sticky_none.
  - by apply sticky_none.
  - by apply sticky_none.
  - apply sticky_none. simpl. by destruct (read_limited_none limit) as [v ->].
  - apply sticky_none. simpl. unfold bind. by destruct (read_limited_none limit) as [v ->].
  - by apply sticky_none.
  - destruct r; [done |]. by match goal with H : good _ = true |- _ => simpl in H end.
  - simpl. unfold map_read. destruct (take_bytes 4 r) as [l r']. apply Z.mod_pos_bound. lia.
  - match goal with H : read_bytes n r = _, Hg : good r' = true |- _ =>
      simpl in H, Hg; revert H Hg end.
    unfold take_bytes. destruct r as [l |]; [| by intros; simplify_eq].
    destruct (_ <=? _) eqn:?; [| by intros; simplify_eq].
    intros; simplify_eq. rewrite len_ztake; lia.
  - intros k. pose proof (gives_take d k) as Hg. simpl in *. by rewrite Hg.
Qed.

#[global] Instance writer : ByteWriter bytes := {|
  written w := w;
  write_byte b w := w ++ [b];
  write_bytes d w := w ++ d;
  write_2_bytes_big_endian v w := w ++ be_bytes 2 v;
  write_4_bytes_little_endian v w := w ++ le_bytes 4 v;
  write_8_bytes_little_endian v w := w ++ le_bytes 8 v;
  write_variable v w := w ++ compact_size v;
  write_string s w := w ++ compact_size (len s) ++ s;
  write_string_buffer s size w := w ++ s ++ replicate (Z.to_nat (size - len s)) 0;
  create := []
|}.

#[global] Instance writer_laws : WriterLaws bytes.
Proof. by constructor. Qed.
End list_stream.
