(* ===== verification/StreamWindow.v ===== *)
(** * StreamWindow: readers with a limit and a position

    The alert message limits its reader to the bytes of its payload, and the
    reject message reads a hash that may not be there and returns to where it
    was.  These operations of the [system::reader] are here another interface,
    with their documented behaviour as laws, and an instance: a cursor in a list
    of bytes, which takes the rest of its operations from [list_stream]. *)

From S2P Require Import Prelude.
From S2P Require Import Stream.

(** [hidden] is what follows the limit; a limit is relative to the position.  Setting a
    position that was good makes the reader good again. *)
Class ReaderWindow (R : Type) := {
  hidden : R -> bytes;
  set_limit : option Z -> R -> R;
  get_read_position : R -> Z;
  set_position : Z -> R -> R
}.

Class WindowLaws `{VariableSize} (R : Type) `{!ByteReader R, !ReaderWindow R} : Prop := {
  open_hidden l : hidden (open (R := R) l) = [];
  set_limit_law (r : R) l k : presents r (l ++ k) -> hidden r = [] ->
    presents (set_limit (Some (len l)) r) l /\ hidden (set_limit (Some (len l)) r) = k;
  clear_limit_law (r : R) l : presents r l -> presents (set_limit None r) (l ++ hidden r) /\ hidden (set_limit None r) = [];
  set_limit_sticky n (r : R) : good (set_limit n r) = true -> good r = true;
  read_4_hidden (r : R) : hidden (read_4_bytes_little_endian r).2 = hidden r;
  read_8_hidden (r : R) : hidden (read_8_bytes_little_endian r).2 = hidden r;
  read_size_hidden limit (r : R) : hidden (read_size limit r).2 = hidden r;
  read_string_hidden limit (r : R) : hidden (read_string limit r).2 = hidden r;
  read_hash_short (r : R) l : presents r l -> len l < 32 -> good (read_hash r).2 = false;
  set_position_law (r : R) l : presents r l -> hidden r = [] -> presents (set_position (get_read_position r) (read_hash r).2) l
}.

Section limited.
Context `{VariableSize} {R : Type} `{!ByteReader R, !ReaderWindow R} `{!WindowLaws R}.

(** A read that keeps to the limit. *)
Definition keeps {A} (op : R -> A * R) : Prop := forall r, hidden (op r).2 = hidden r.

Lemma keeps_ret {A} (a : A) : keeps (ret a).
Proof. done. Qed.

Lemma keeps_bind {A B} (m : R -> A * R) (f : A -> R -> B * R) : keeps m -> (forall a, keeps (f a)) -> keeps (bind m f).
Proof. intros Hm Hf r. unfold bind. rewrite <- (Hm r). destruct (m r) as [a r1]. apply Hf. Qed.

Lemma keeps_list {A} n (item : R -> A * R) : keeps item -> keeps (read_list n item).
Proof.
  intros Hi. induction n as [| n IH]; [apply keeps_ret |]. cbn [read_list]. apply keeps_bind; [done |]. intros a. apply keeps_bind; [done | intros; apply keeps_ret].
Qed.

Definition limited {A} (size : Z) (op : R -> A * R) : R -> A * R :=
  fun r => let '(a, r) := op (set_limit (Some size) r) in (a, set_limit None r).

(** What is read within a limit, where there is none, is as it is without. *)
Lemma reads_limited {A} (op : R -> A * R) l v r k : reads op l v -> keeps op -> presents r (l ++ k) -> hidden r = [] ->
  exists r', limited (len l) op r = (v, r') /\ presents r' k /\ hidden r' = [].
Proof.
  intros Hop Hk Hr Hh. destruct (set_limit_law r l k Hr Hh) as [Hl Hhl]. unfold limited.
  destruct (Hop (set_limit (Some (len l)) r) []) as (r1 & Ho & Hp); [by rewrite app_nil_r |]. pose proof (Hk (set_limit (Some (len l)) r)) as Hkeep.
  rewrite Ho in *. cbn [snd] in Hkeep. destruct (clear_limit_law r1 [] Hp) as [Hc Hhc]. exists (set_limit None r1). split_and!; [done | | done].
  rewrite Hkeep, Hhl in Hc. exact Hc.
Qed.

Lemma sticky_limited {A} size (op : R -> A * R) : sticky op -> sticky (limited size op).
Proof.
  intros Hop r. unfold limited. pose proof (Hop (set_limit (Some size) r)) as Ho. destruct (op (set_limit (Some size) r)) as [a r1]. cbn [snd] in *.
  intros Hg. apply (set_limit_sticky (Some size)), Ho. by apply set_limit_sticky in Hg.
Qed.
End limited.

(** ** A cursor in a list of bytes *)

Module cursor.

Record t := mk { source : bytes; position : nat; limit : nat; valid : bool }.

(** What the cursor presents, as a stream of [list_stream]. *)
Definition current (r : t) : list_stream.t := if valid r then Some (take (limit r - position r) (drop (position r) (source r))) else None.

Definition beyond (r : t) : bytes := drop (limit r - position r) (drop (position r) (source r)).

(** An operation of the stream moves the position by what it takes. *)
Definition lift {A} (op : list_stream.t -> A * list_stream.t) (r : t) : A * t :=
  let '(a, s) := op (current r) in
  (a, match s with
    | Some l => mk (source r) (position r + (length (default [] (current r)) - length l)) (limit r) true
    | None => mk (source r) (position r) (limit r) false
    end).

#[global] Instance reader : ByteReader t := {|
  good := valid;
  rest r := default [] (current r);
  open l := mk l 0 (length l) true;
  invalidate r := mk (source r) (position r) (limit r) false;
  is_exhausted r := bool_decide (default [] (current r) = []);
  read_byte := lift read_byte;
  read_bytes n := lift (read_bytes n);
  read_hash := lift read_hash;
  read_2_bytes_big_endian := lift read_2_bytes_big_endian;
  read_4_bytes_little_endian := lift read_4_bytes_little_endian;
  read_8_bytes_little_endian := lift read_8_bytes_little_endian;
  read_variable := lift read_variable;
  read_size limit := lift (read_size limit);
  read_string limit := lift (read_string limit);
  read_string_buffer size := lift (read_string_buffer size);
  skip_bytes n r := (lift (fun s => (tt, skip_bytes n s)) r).2
|}.

#[global] Instance window : ReaderWindow t := {|
  hidden := beyond;
  set_limit n r := mk (source r) (position r) (match n with Some n => position r + Z.to_nat n | None => length (source r) end) (valid r);
  get_read_position r := Z.of_nat (position r `min` length (source r));
  set_position p r := mk (source r) (Z.to_nat p) (length (source r)) (p <=? len (source r))
|}.

Lemma presents_current r l : presents r l <-> current r = Some l.
Proof.
  unfold presents. cbn [good rest reader]. unfold current. destruct (valid r); split; [intros [_ <-]; done | intros [= <-]; done | by intros [? _] | done].
Qed.

Lemma reads_lift {A} (op : list_stream.t -> A * list_stream.t) l v : reads op l v -> reads (lift op) l v.
Proof.
  intros Hop r k Hr. apply presents_current in Hr. destruct (Hop (current r) k) as (s & Ho & Hs); [by rewrite Hr |].
  destruct s as [d |]; [| by destruct Hs]. destruct Hs as [_ Hs]. change (d = k) in Hs. subst d. unfold lift. rewrite Ho, Hr. eexists. split; [reflexivity |].
  apply presents_current. unfold current in *. cbn [valid limit position source]. destruct (valid r); [| done].
  assert (take (limit r - position r) (drop (position r) (source r)) = l ++ k) as Hd by congruence. clear Hr. f_equal. change (default [] (Some (l ++ k))) with (l ++ k).
  rewrite length_app. replace (length l + length k - length k)%nat with (length l) by lia. rewrite Nat.sub_add_distr, <- drop_drop, <- skipn_firstn_comm, Hd. by rewrite drop_app_length.
Qed.

Lemma sticky_lift {A} (op : list_stream.t -> A * list_stream.t) : sticky op -> sticky (lift op).
Proof.
  intros Hop r. unfold lift. pose proof (Hop (current r)) as Ho. destruct (op (current r)) as [a s]. cbn [good reader list_stream.reader snd] in *. unfold current in Ho.
  destruct (valid r); [done |]. destruct s as [l |]; [| done]. by specialize (Ho eq_refl).
Qed.

Lemma beyond_lift {A} (op : list_stream.t -> A * list_stream.t) r : beyond (lift op r).2 = beyond r.
Proof.
  unfold lift. destruct (op (current r)) as [a [l |]]; [| done]. unfold beyond. cbn [limit position source snd]. rewrite !drop_drop. f_equal.
  assert (length (default [] (current r)) <= limit r - position r)%nat as Hl.
  { unfold current. destruct (valid r); [change (length (take (limit r - position r) (drop (position r) (source r))) <= limit r - position r)%nat |]; rewrite ?length_take; simpl; lia. }
  revert Hl. generalize (length (default [] (current r))). intros. lia.
Qed.

#[global] Instance reader_laws : ReaderLaws t.
Proof.
  constructor; intros;
    try (apply reads_lift; by first [apply read_byte_law | apply read_bytes_law | apply read_hash_law | apply read_2_law | apply read_4_law | apply read_8_law
      | apply read_variable_law | apply read_size_law | apply read_string_law | apply read_string_buffer_law]);
    try (apply sticky_lift; first [apply read_byte_sticky | apply read_bytes_sticky | apply read_hash_sticky | apply read_2_sticky | apply read_4_sticky | apply read_8_sticky
      | apply read_variable_sticky | apply read_size_sticky | apply read_string_sticky | apply read_string_buffer_sticky]).
  - apply presents_current. unfold current. cbn. by rewrite Nat.sub_0_r, firstn_all.
  - done.
  - cbn [is_exhausted reader]. match goal with Hp : presents _ _ |- _ => apply presents_current in Hp; by rewrite Hp end.
  - match goal with Hg : good (skip_bytes _ _) = true |- _ => revert Hg end. apply (sticky_lift (fun s => (tt, skip_bytes n s))). intros s. apply skip_bytes_sticky.
  - unfold read_4_bytes_little_endian. cbn [reader]. unfold lift. pose proof (read_4_range (R := list_stream.t) (current r)) as Hr.
    by destruct (read_4_bytes_little_endian (current r)).
  - match goal with Hr : read_bytes n r = _, Hg : good r' = true |- _ => revert Hr Hg end. unfold read_bytes. cbn [reader]. unfold lift.
    destruct (Stream.read_bytes n (current r)) as [d' [l |]] eqn:He; intros [= <- <-]; [intros _ | done]. by eapply (read_bytes_good (R := list_stream.t) n (current r)).
  - apply (reads_lift (fun s => (tt, skip_bytes (len d) s))). by apply skip_bytes_law.
Qed.

#[global] Instance window_laws : WindowLaws t.
Proof.
  constructor; intros; try apply beyond_lift.
  - cbn. unfold beyond. cbn. by rewrite Nat.sub_0_r, drop_all.
  - match goal with Hp : presents _ _, Hh : hidden _ = [] |- _ => apply presents_current in Hp; unfold current in Hp; cbn [hidden window] in Hh; unfold beyond in Hh; rename Hp into Hcur; rename Hh into Hhid end.
    destruct (valid r) eqn:Hv; [| done]. injection Hcur as Hcur. assert (drop (position r) (source r) = l ++ k) as Hd by (by rewrite <- (take_drop (limit r - position r) (drop (position r) (source r))), Hcur, Hhid, app_nil_r).
    assert (position r + Z.to_nat (len l) - position r = length l)%nat as He by (unfold len; lia).
    split; [apply presents_current; unfold current; cbn [set_limit window valid limit position source]; rewrite Hv, He, Hd; f_equal; by rewrite take_app_length |].
    cbn [hidden window set_limit]. unfold beyond. cbn [limit position source]. by rewrite He, Hd, drop_app_length.
  - match goal with Hp : presents _ _ |- _ => apply presents_current in Hp; unfold current in Hp; rename Hp into Hcur end.
    destruct (valid r) eqn:Hv; [| done]. injection Hcur as Hcur. split.
    + apply presents_current. unfold current. cbn [set_limit window valid limit position source hidden]. rewrite Hv. f_equal. unfold beyond. rewrite <- Hcur, take_drop.
      apply take_ge. rewrite length_drop. lia.
    + cbn [hidden window set_limit]. unfold beyond. cbn [limit position source]. apply drop_ge. rewrite length_drop. lia.
  - done.
  - match goal with Hp : presents _ _ |- _ => apply presents_current in Hp; rename Hp into Hcur end.
    unfold read_hash. cbn [reader]. unfold lift. rewrite Hcur. unfold Stream.read_hash. cbn [list_stream.reader]. unfold list_stream.take_bytes.
    destruct (32 <=? len l) eqn:?; [lia | done].
  - match goal with Hp : presents _ _, Hh : hidden _ = [] |- _ => apply presents_current in Hp; unfold current in Hp; cbn [hidden window] in Hh; unfold beyond in Hh; rename Hp into Hcur; rename Hh into Hhid end.
    destruct (valid r) eqn:Hv; [| done]. injection Hcur as Hcur. assert (drop (position r) (source r) = l) as Hd by (by rewrite <- (take_drop (limit r - position r) (drop (position r) (source r))), Hcur, Hhid, app_nil_r).
    assert (source (read_hash r).2 = source r) as Hs by (unfold read_hash; cbn [reader]; unfold lift; by destruct (Stream.read_hash (current r)) as [d [?|]]).
    apply presents_current. unfold current. cbn [set_position window get_read_position valid limit position source]. rewrite Hs, Nat2Z.id.
    replace (Z.of_nat (position r `min` length (source r)) <=? len (source r)) with true by (symmetry; apply Z.leb_le; unfold len; lia). f_equal.
    destruct (le_lt_dec (position r) (length (source r))) as [Hle | Hgt].
    + rewrite Nat.min_l, Hd by lia. apply take_ge. rewrite <- Hd, length_drop. lia.
    + rewrite drop_ge in Hd by lia. subst l. rewrite Nat.min_r, drop_all by lia. by rewrite take_nil.
Qed.
End cursor.
