(* ===== verification/PeerAddress.v ===== *)
(** * PeerAddress: network addresses and their codecs

    Models [include/bitcoin/network/messages/peer/detail/address_item.hpp] and
    [src/messages/peer/detail/address_item.cpp]: the addresses of each network,
    their classification by range, and their v1 and BIP155 (v2) encodings.  An
    address holds its bytes; an ip address is 16 bytes, ipv4 being mapped.  The
    map prefix belongs to libbitcoin-system and is a parameter of 12 bytes.

    When a read fails the value read is unspecified: the caller discards it
    with the reader. *)

From S2P Require Import Prelude.
From S2P Require Import Stream.

Class IpPrefix := {
  mapped_prefix : bytes;
  mapped_prefix_len : len mapped_prefix = 12;
  mapped_prefix_ok : bytes_ok mapped_prefix
}.

Module address_item.

(** ** Ranges of ip addresses *)

Definition starts_with (prefix l : bytes) : bool := bool_decide (ztake (len prefix) l = prefix).

Definition is_v4_ip `{IpPrefix} (ip : bytes) : bool := starts_with mapped_prefix ip.

Definition is_v6_ip `{IpPrefix} (ip : bytes) : bool := negb (is_v4_ip ip).

Definition torv2_map_prefix : bytes := [0xfd; 0x87; 0xd8; 0x7e; 0xeb; 0x43].

Definition cjdns_prefix : Z := 0xfc.

Definition is_torv2_ip (ip : bytes) : bool := starts_with torv2_map_prefix ip.

Definition is_cjdns_ip (ip : bytes) : bool := zget ip 0 =? cjdns_prefix.

Definition documentation_prefix : bytes := [0x20; 0x01; 0x0d; 0xb8].
Definition documentation_wide_prefix : bytes := [0x3f; 0xff].
Definition test_net1_prefix : bytes := [192; 0; 2].
Definition test_net2_prefix : bytes := [198; 51; 100].
Definition test_net3_prefix : bytes := [203; 0; 113].

Definition is_documentation `{IpPrefix} (ip : bytes) : bool :=
  let net := zdrop (len mapped_prefix) ip in
  if is_v4_ip ip then
    starts_with test_net1_prefix net || starts_with test_net2_prefix net ||
      starts_with test_net3_prefix net
  else
    starts_with documentation_prefix ip ||
      (starts_with documentation_wide_prefix ip && (zget ip 2 <? 0x10)).

(** ** Addresses *)

Inductive address_t :=
  | monostate
  | ipv4_t (value : bytes)
  | ipv6_t (value : bytes)
  | torv2_t (value : bytes)
  | torv3_t (value : bytes)
  | i2p_t (value : bytes)
  | cjdns_t (value : bytes).

#[global] Instance address_t_eq_dec : EqDecision address_t.
Proof. solve_decision. Defined.

Definition index (a : address_t) : Z :=
  match a with
  | monostate => 0
  | ipv4_t _ => 1
  | ipv6_t _ => 2
  | torv2_t _ => 3
  | torv3_t _ => 4
  | i2p_t _ => 5
  | cjdns_t _ => 6
  end.

(** The size of an address in memory, and on the wire. *)
Definition size_of (id : Z) : Z :=
  if id =? 1 then 16 else if id =? 2 then 16 else if id =? 3 then 10
  else if id =? 4 then 32 else if id =? 5 then 32 else if id =? 6 then 16 else 0.

Definition wire_of (id : Z) : Z := if id =? 1 then 4 else size_of id.

Definition value (a : address_t) : bytes :=
  match a with
  | monostate => []
  | ipv4_t v | ipv6_t v | torv2_t v | torv3_t v | i2p_t v | cjdns_t v => v
  end.

Definition is_v4 (a : address_t) : bool := if a is ipv4_t _ then true else false.
Definition is_v6 (a : address_t) : bool := if a is ipv6_t _ then true else false.
Definition is_v1 (a : address_t) : bool := is_v4 a || is_v6 a.
Definition is_cjdns (a : address_t) : bool := if a is cjdns_t _ then true else false.
Definition is_named (a : address_t) : bool :=
  match a with torv3_t _ | i2p_t _ => true | _ => false end.

Definition zeros (n : Z) : bytes := replicate (Z.to_nat n) 0.

Definition is_unspecified (a : address_t) : bool :=
  match a with
  | monostate => true
  | _ => bool_decide (value a = zeros (size_of (index a)))
  end.

Definition unspecified_ip_address : bytes := zeros 16.

Definition to_address `{IpPrefix} (ip : bytes) : address_t :=
  if is_v4_ip ip then ipv4_t ip else
  if is_torv2_ip ip then monostate else ipv6_t ip.

Definition to_ip_address (a : address_t) : bytes :=
  match a with
  | monostate => unspecified_ip_address
  | _ => if size_of (index a) =? 16 then value a else unspecified_ip_address
  end.

Record address_item := mk {
  timestamp : Z;
  services : Z;
  address : address_t;
  port : Z
}.

(** Equality ignores timestamp and services. *)
Definition item_eqb (left right : address_item) : bool :=
  bool_decide (address left = address right) && (port left =? port right).

Definition is_specified (item : address_item) : bool :=
  negb (is_unspecified (address item)) &&
    (negb (port item =? 0) || (if address item is i2p_t _ then true else false)).

(** ** Codecs *)

Section codecs.
Context `{VariableSize, IpPrefix} {R W : Type} `{!ByteReader R, !ByteWriter W}.

Local Open Scope reader_scope.

Definition max_address_bytes : Z := 512.

Definition size (with_timestamp : bool) : Z :=
  (if with_timestamp then 4 else 0) + 8 + 16 + 2.

Definition deserialize (with_timestamp : bool) : R -> address_item * R :=
  timestamp <- (if with_timestamp then read_4_bytes_little_endian else ret 0) ;;
  services <- read_8_bytes_little_endian ;;
  ip <- read_bytes 16 ;;
  port <- read_2_bytes_big_endian ;;
  require (negb (is_torv2_ip ip)) ;;
  let address := if is_documentation ip then monostate else to_address ip in
  ret (mk timestamp services address port).

Definition serialize (with_timestamp : bool) (item : address_item) (w : W) : W :=
  let w := if with_timestamp then write_4_bytes_little_endian (timestamp item) w else w in
  let ip := to_ip_address (address item) in
  let w := write_8_bytes_little_endian (services item) w in
  let w := write_bytes ip w in
  write_2_bytes_big_endian (port item) w.

Definition fail : R -> address_t * R := fun r => (monostate, invalidate r).

(** [read_address<Id>] *)
Definition read_address_of (id : Z) (size : Z) : R -> address_t * R :=
  let offset := size_of id - wire_of id in
  if negb (size =? wire_of id) then fail else
  read <- read_bytes (wire_of id) ;;
  let value := ztake offset mapped_prefix ++ read in
  if ((id =? 1) || (id =? 2)) && is_documentation value then ret monostate else
  if (id =? 2) && is_v4_ip value then ret (ipv4_t value) else
  if (id =? 2) && is_torv2_ip value then fail else
  if (id =? 6) && negb (is_cjdns_ip value) then fail else
  ret (if id =? 1 then ipv4_t value else if id =? 2 then ipv6_t value
    else if id =? 4 then torv3_t value else if id =? 5 then i2p_t value else cjdns_t value).

Definition read_address : R -> address_t * R :=
  id <- read_byte ;;
  size <- read_size max_address_bytes ;;
  if (id =? 1) || (id =? 2) || (id =? 4) || (id =? 5) || (id =? 6) then read_address_of id size
  else if id =? 3 then fail
  else (fun r => (monostate, skip_bytes size r)).

Definition write_address (a : address_t) (w : W) : W :=
  let w := write_byte (narrow 8 (index a)) w in
  match a with
  | monostate => write_variable 0 w
  | _ =>
    let offset := size_of (index a) - wire_of (index a) in
    let w := write_variable (wire_of (index a)) w in
    write_bytes (ztake (wire_of (index a)) (zdrop offset (value a))) w
  end.

Definition address_size (a : address_t) : Z :=
  match a with
  | monostate => variable_size 0
  | _ => variable_size (wire_of (index a)) + wire_of (index a)
  end.

Definition size_v2 (item : address_item) : Z :=
  4 + variable_size (services item) + 1 + address_size (address item) + 2.

Definition deserialize_v2 : R -> address_item * R :=
  timestamp <- read_4_bytes_little_endian ;;
  services <- read_variable ;;
  address <- read_address ;;
  port <- read_2_bytes_big_endian ;;
  ret (mk timestamp services address port).

Definition serialize_v2 (item : address_item) (w : W) : W :=
  let w := write_4_bytes_little_endian (timestamp item) w in
  let w := write_variable (services item) w in
  let w := write_address (address item) w in
  write_2_bytes_big_endian (port item) w.
End codecs.

(** ** Canonical addresses *)

Section canonical.
Context `{IpPrefix}.

Definition sized (a : address_t) : Prop :=
  match a with
  | monostate => True
  | _ => len (value a) = size_of (index a)
  end.

(** What a decoder may produce: no address of a range that encodes another
    network, and no documentation address. *)
Definition canonical (a : address_t) : Prop :=
  sized a /\
  match a with
  | monostate | torv3_t _ | i2p_t _ => True
  | ipv4_t v => is_v4_ip v = true /\ is_documentation v = false
  | ipv6_t v => is_v4_ip v = false /\ is_torv2_ip v = false /\ is_documentation v = false
  | torv2_t _ => False
  | cjdns_t v => is_cjdns_ip v = true
  end.

Definition item_ok (item : address_item) : Prop :=
  u32 (timestamp item) /\ u64 (services item) /\ u16 (port item) /\
  bytes_ok (value (address item)).

(** The address that a v1 encoding conveys. *)
Definition conveyed (a : address_t) : address_t :=
  let ip := to_ip_address a in if is_documentation ip then monostate else to_address ip.
End canonical.

(** ** Lemmas *)

Section lemmas.
Context `{VariableSize, IpPrefix} {R W : Type} `{!ByteReader R, !ByteWriter W}.
Context `{!ReaderLaws R, !WriterLaws W}.

Lemma v4_mapped v : is_v4_ip v = true -> v = mapped_prefix ++ zdrop 12 v.
Proof.
  unfold is_v4_ip, starts_with. rewrite bool_decide_eq_true, mapped_prefix_len.
  intros Hv. rewrite <- Hv at 1. by rewrite ztake_zdrop.
Qed.

(** The bytes of an address that are on the wire. *)
Definition wire (a : address_t) : bytes :=
  ztake (wire_of (index a)) (zdrop (size_of (index a) - wire_of (index a)) (value a)).

Definition encode_address (a : address_t) : bytes :=
  match a with
  | monostate => [0] ++ variable 0
  | _ => [index a] ++ variable (wire_of (index a)) ++ wire a
  end.

Lemma index_u8 a : u8 (index a).
Proof. destruct a; split; by vm_compute. Qed.

Lemma wire_u64 a : u64 (wire_of (index a)).
Proof. destruct a; split; by vm_compute. Qed.

Lemma wire_ok a : bytes_ok (value a) -> bytes_ok (wire a).
Proof. intros. unfold wire. auto with net. Qed.

Lemma write_address_law a : bytes_ok (value a) -> writes (write_address (W := W) a) (encode_address a).
Proof.
  intros Ha w. pose proof (index_u8 a). pose proof (wire_u64 a). pose proof (wire_ok a Ha).
  unfold write_address, encode_address. unfold wire in *.
  replace (narrow 8 (index a)) with (index a) by (unfold narrow; rewrite Z.mod_small; [done | width]).
  destruct a; rewrite ?write_bytes_law, write_variable_law, write_byte_law by (done || width);
    by rewrite <- ?app_assoc.
Qed.

Lemma wire_value a : canonical a -> a <> monostate ->
  ztake (size_of (index a) - wire_of (index a)) mapped_prefix ++ wire a = value a /\
  len (wire a) = wire_of (index a).
Proof.
  intros [Hs Hc] Hne. unfold wire. unfold sized in Hs.
  destruct a as [| v | v | v | v | v | v]; try done; cbn [index value] in *.
  - destruct Hc as [Hv _]. pose proof (v4_mapped v Hv) as Hm. change (size_of 1) with 16 in *.
    change (wire_of 1) with 4. change (16 - 4) with 12.
    assert (len (zdrop 12 v) = 4) as Hl by (rewrite len_zdrop; lia).
    rewrite (ztake_ge 4), (ztake_ge 12) by (rewrite ?mapped_prefix_len; lia). by split.
  - change (size_of 2 - wire_of 2) with 0. rewrite ztake_0, zdrop_0, ztake_ge by (by rewrite Hs).
    by split.
  - change (size_of 4 - wire_of 4) with 0. rewrite ztake_0, zdrop_0, ztake_ge by (by rewrite Hs).
    by split.
  - change (size_of 5 - wire_of 5) with 0. rewrite ztake_0, zdrop_0, ztake_ge by (by rewrite Hs).
    by split.
  - change (size_of 6 - wire_of 6) with 0. rewrite ztake_0, zdrop_0, ztake_ge by (by rewrite Hs).
    by split.
Qed.

Lemma read_bytes_reads n d : bytes_ok d -> len d = n -> reads (R := R) (read_bytes n) d d.
Proof. intros Hd <-. by apply read_bytes_law. Qed.

Lemma read_address_of_law a : bytes_ok (value a) -> canonical a -> a <> monostate ->
  reads (R := R) (read_address_of (index a) (wire_of (index a))) (wire a) a.
Proof.
  intros Hok Ha Hne. pose proof (wire_value a Ha Hne) as [Hv Hl].
  unfold read_address_of. rewrite Z.eqb_refl. cbn [negb].
  eapply reads_done; [apply read_bytes_reads; [by apply wire_ok | done] |]. rewrite Hv.
  destruct Ha as [_ Hc]. destruct a; try done; cbn [index value] in *; cbn [Z.eqb Pos.eqb orb andb].
  - destruct Hc as [_ ->]. apply reads_ret.
  - destruct Hc as (-> & -> & ->). apply reads_ret.
  - apply reads_ret.
  - apply reads_ret.
  - rewrite Hc. apply reads_ret.
Qed.

Lemma read_address_law a : bytes_ok (value a) -> canonical a ->
  reads (R := R) read_address (encode_address a) a.
Proof.
  intros Hok Ha. pose proof (index_u8 a). pose proof (wire_u64 a).
  assert (wire_of (index a) <= max_address_bytes) by (destruct a; by vm_compute).
  unfold read_address, encode_address. destruct (decide (a = monostate)) as [-> | Hne].
  - eapply reads_bind; [by apply read_byte_law |].
    eapply reads_done; [apply read_size_law; [width | by vm_compute] |]. cbn [Z.eqb orb].
    intros r k Hr. destruct (skip_bytes_law (R := R) [] ltac:(constructor) r k Hr) as (r' & He & Hp).
    exists r'. split; [| done]. by inversion He.
  - assert (reads (R := R) read_address ([index a] ++ variable (wire_of (index a)) ++ wire a) a) as Hr.
    { eapply reads_bind; [by apply read_byte_law |].
      eapply reads_bind; [by apply read_size_law |].
      pose proof (read_address_of_law a Hok Ha Hne) as Hr. by destruct a, Ha. }
    by destruct a.
Qed.

Definition encode_v2 (item : address_item) : bytes :=
  le_bytes 4 (timestamp item) ++ variable (services item) ++
  encode_address (address item) ++ be_bytes 2 (port item).

Lemma serialize_v2_law item : item_ok item ->
  writes (W := W) (serialize_v2 item) (encode_v2 item).
Proof.
  intros (Ht & Hs & Hp & Ha) w. unfold serialize_v2, encode_v2.
  rewrite write_2_law, write_address_law, write_variable_law, write_4_law by done.
  by rewrite <- !app_assoc.
Qed.

Lemma deserialize_v2_law item : item_ok item -> canonical (address item) ->
  reads (R := R) deserialize_v2 (encode_v2 item) item.
Proof.
  intros (Ht & Hs & Hp & Ha) Hc. unfold deserialize_v2, encode_v2.
  do 2 read_step. eapply reads_bind; [by apply read_address_law |]. read_step.
  destruct item. apply reads_ret.
Qed.

Lemma len_encode_v2 item : canonical (address item) -> len (encode_v2 item) = size_v2 item.
Proof.
  intros Hc. unfold encode_v2, size_v2, variable_size, address_size, encode_address.
  rewrite !len_app, len_le_bytes, len_be_bytes. unfold variable_size.
  destruct (decide (address item = monostate)) as [-> | Hne].
  - rewrite len_app. change (len [0]) with 1. lia.
  - destruct (wire_value _ Hc Hne) as [_ Hw].
    destruct (address item); try done; rewrite !len_app, Hw; change (len [_]) with 1; lia.
Qed.

Definition encode_v1 (with_timestamp : bool) (item : address_item) : bytes :=
  (if with_timestamp then le_bytes 4 (timestamp item) else []) ++
  le_bytes 8 (services item) ++ to_ip_address (address item) ++ be_bytes 2 (port item).

Lemma to_ip_address_ok a : bytes_ok (value a) -> bytes_ok (to_ip_address a).
Proof.
  intros Ha. assert (bytes_ok unspecified_ip_address) by (apply is_bytes_ok; reflexivity).
  unfold to_ip_address. destruct a; try done; by destruct (_ =? _).
Qed.

Lemma len_to_ip_address a : sized a -> len (to_ip_address a) = 16.
Proof.
  unfold to_ip_address, sized. intros Ha. destruct a; try done; cbn [index value] in *;
    by rewrite ?Ha.
Qed.

Lemma serialize_law t item : item_ok item -> writes (W := W) (serialize t item) (encode_v1 t item).
Proof.
  intros (Ht & Hs & Hp & Ha) w. pose proof (to_ip_address_ok _ Ha).
  unfold serialize, encode_v1. destruct t; write_steps; done.
Qed.

Lemma deserialize_law t item : item_ok item -> sized (address item) ->
  is_torv2_ip (to_ip_address (address item)) = false ->
  reads (R := R) (deserialize t) (encode_v1 t item)
    (mk (if t then timestamp item else 0) (services item) (conveyed (address item)) (port item)).
Proof.
  intros (Ht & Hs & Hp & Ha) Hz Htor. pose proof (to_ip_address_ok _ Ha).
  pose proof (len_to_ip_address _ Hz). unfold deserialize, encode_v1.
  eapply (reads_bind _ _ _ _ (if t then timestamp item else 0));
    [destruct t; [by apply read_4_law | apply reads_ret] |].
  read_step. eapply reads_bind; [by apply read_bytes_reads |]. read_step.
  eapply (reads_bind _ _ [] []); [apply reads_require; by rewrite Htor |]. apply reads_ret.
Qed.

Lemma len_encode_v1 t item : sized (address item) -> len (encode_v1 t item) = size t.
Proof.
  intros Hz. unfold encode_v1, size. rewrite !len_app, len_to_ip_address by done.
  rewrite len_be_bytes. destruct t; rewrite !len_le_bytes; done.
Qed.

(** What a decoder leaves good it has read in full. *)
Lemma to_address_canonical ip : len ip = 16 -> is_torv2_ip ip = false ->
  canonical (if is_documentation ip then monostate else to_address ip).
Proof.
  intros Hl Ht. destruct (is_documentation ip) eqn:Hd; [done |]. unfold to_address.
  rewrite Ht. by destruct (is_v4_ip ip) eqn:Hv.
Qed.

Lemma read_address_canonical r a r' :
  read_address (R := R) r = (a, r') -> good r' = true -> canonical a.
Proof.
  unfold read_address. intros Hr Hg.
  apply bind_good in Hr as (id & r1 & _ & Hr). apply bind_good in Hr as (size & r2 & _ & Hr).
  destruct (_ || _) eqn:Hid.
  2: { destruct (id =? 3); unfold fail in Hr; simplify_eq; [by rewrite invalidate_law in Hg | done]. }
  unfold read_address_of in Hr. destruct (size =? wire_of id) eqn:Hsz; cbn [negb] in Hr.
  2: { unfold fail in Hr. simplify_eq. by rewrite invalidate_law in Hg. }
  apply bind_good in Hr as (d & r3 & Hd & Hr).
  assert (good r3 = true -> len d = wire_of id) as Hlen.
  { intros H3. eapply read_bytes_good; [| done | done].
    assert (id = 1 \/ id = 2 \/ id = 4 \/ id = 5 \/ id = 6) as Hcase by lia.
    destruct Hcase as [-> | [-> | [-> | [-> | ->]]]]; by vm_compute. }
  set (v := ztake _ mapped_prefix ++ d) in *.
  assert (good r3 = true -> len v = size_of id) as Hv.
  { intros H3. unfold v. rewrite len_app, Hlen by done.
    assert (id = 1 \/ id = 2 \/ id = 4 \/ id = 5 \/ id = 6) as Hcase by lia.
    destruct Hcase as [-> | [-> | [-> | [-> | ->]]]];
      rewrite len_ztake, mapped_prefix_len by done; by vm_compute. }
  assert (id = 1 -> is_v4_ip v = true) as Hv4.
  { intros ->. unfold is_v4_ip, starts_with, v. rewrite bool_decide_eq_true.
    change (size_of 1 - wire_of 1) with 12. pose proof mapped_prefix_len.
    rewrite (ztake_ge 12) by lia. by apply ztake_app_len. }
  clearbody v.
  assert (id = 1 \/ id = 2 \/ id = 4 \/ id = 5 \/ id = 6) as Hcase by lia.
  destruct Hcase as [-> | [-> | [-> | [-> | ->]]]]; cbn [Z.eqb Pos.eqb andb orb negb] in Hr;
    unfold fail, ret in Hr.
  - destruct (is_documentation v) eqn:Hdoc; simplify_eq; [done |].
    split; [by apply Hv |]. split; [by apply Hv4 | done].
  - destruct (is_documentation v) eqn:Hdoc; [by simplify_eq |].
    destruct (is_v4_ip v) eqn:H4; [simplify_eq; by split; [apply Hv |] |].
    destruct (is_torv2_ip v) eqn:Htor; simplify_eq; [by rewrite invalidate_law in Hg |].
    by split; [apply Hv |].
  - simplify_eq. by split; [apply Hv |].
  - simplify_eq. by split; [apply Hv |].
  - destruct (is_cjdns_ip v) eqn:Hcj; simpl in Hr; simplify_eq;
      [| by rewrite invalidate_law in Hg]. by split; [apply Hv |].
Qed.
End lemmas.

(** ** Properties *)

Section properties.
Context `{VariableSize, IpPrefix} {R W : Type} `{!ByteReader R, !ByteWriter W}.
Context `{!ReaderLaws R, !WriterLaws W}.

(** The BIP155 encoding of an address entry is its declared size, and
    decodes to the entry it came from, for every address the network defines. *)
Theorem address_v2_roundtrip item :
  item_ok item -> canonical (address item) ->
  exists l, writes (W := W) (serialize_v2 item) l /\ reads (R := R) deserialize_v2 l item /\
    len l = size_v2 item.
Proof.
  intros Hi Hc. exists (encode_v2 item). split_and!;
    [by apply serialize_v2_law | by apply deserialize_v2_law | by apply len_encode_v2].
Qed.

(** The v1 encoding of an address entry is its declared size, and decodes
    to the entry with the address that the encoding conveys: the same ip
    address, no address for one of a documentation range, and the unspecified
    address for a network that v1 cannot encode. *)
Theorem address_v1_roundtrip t item :
  item_ok item -> sized (address item) -> is_torv2_ip (to_ip_address (address item)) = false ->
  exists l, writes (W := W) (serialize t item) l /\
    reads (R := R) (deserialize t) l
      (mk (if t then timestamp item else 0) (services item) (conveyed (address item)) (port item)) /\
    len l = size t /\
    (is_v1 (address item) = true -> canonical (address item) ->
      conveyed (address item) = address item).
Proof.
  intros Hi Hz Ht. exists (encode_v1 t item). split_and!;
    [by apply serialize_law | by apply deserialize_law | by apply len_encode_v1 |].
  intros Hv [_ Hc]. unfold conveyed. destruct (address item) as [| v | v | | | |]; try done.
  - destruct Hc as [Hv4 Hd]. change (to_ip_address (ipv4_t v)) with v.
    unfold to_address. by rewrite Hd, Hv4.
  - destruct Hc as (Hv4 & Htor & Hd). change (to_ip_address (ipv6_t v)) with v.
    unfold to_address. by rewrite Hd, Hv4, Htor.
Qed.

(** Every address that either decoder accepts is canonical: it has the size
    of its network, is never of a documentation range, of tor v2 or of an ipv6
    range that encodes another network, and a cjdns address is in its range. *)
Theorem decoded_address_canonical (r : R) :
  (forall item r', deserialize_v2 r = (item, r') -> good r' = true -> canonical (address item)) /\
  (forall t item r', deserialize t r = (item, r') -> good r' = true -> canonical (address item)).
Proof.
  split.
  - intros item r' Hr Hg. unfold deserialize_v2 in Hr.
    apply bind_good in Hr as (? & r1 & _ & Hr). apply bind_good in Hr as (? & r2 & _ & Hr).
    apply bind_good in Hr as (a & r3 & Ha & Hr). apply bind_good in Hr as (p & r4 & Hp & Hr).
    unfold ret in Hr. simplify_eq. eapply read_address_canonical; [done |].
    apply read_2_sticky. by rewrite Hp.
  - intros t item r' Hr Hg. unfold deserialize in Hr.
    apply bind_good in Hr as (? & r1 & _ & Hr). apply bind_good in Hr as (? & r2 & _ & Hr).
    apply bind_good in Hr as (ip & r3 & Hip & Hr). apply bind_good in Hr as (p & r4 & Hp & Hr).
    apply bind_good in Hr as ([] & r5 & Hq & Hr). unfold ret in Hr. simplify_eq. simpl.
    unfold require in Hq. destruct (is_torv2_ip ip) eqn:Htor; simpl in Hq; simplify_eq.
    { by rewrite invalidate_law in Hg. }
    apply to_address_canonical; [| done]. eapply read_bytes_good; [| done |]; [lia |].
    apply read_2_sticky. by rewrite Hp.
Qed.
End properties.

(** The map prefix of RFC 4291. *)
#[local] Program Instance rfc4291 : IpPrefix :=
  {| mapped_prefix := [0; 0; 0; 0; 0; 0; 0; 0; 0; 0; 255; 255] |}.
Next Obligation. done. Qed.
Next Obligation. apply is_bytes_ok. reflexivity. Qed.

Definition example_item : address_item :=
  mk 1700000000 1033 (ipv4_t [0; 0; 0; 0; 0; 0; 0; 0; 0; 0; 255; 255; 1; 2; 3; 4]) 8333.

Lemma example_item_ok : item_ok example_item.
Proof.
  unfold item_ok. split_and!; [simpl; width .. |]. apply is_bytes_ok. reflexivity.
Qed.

Lemma address_v2_roundtrip_witness :
  exists l, writes (W := bytes) (serialize_v2 example_item) l /\
    reads (R := list_stream.t) deserialize_v2 l example_item /\
    len l = size_v2 example_item.
Proof.
  refine (address_v2_roundtrip example_item example_item_ok _). by split.
Defined.

Lemma address_v1_roundtrip_witness :
  exists l, writes (W := bytes) (serialize true example_item) l /\
    reads (R := list_stream.t) (deserialize true) l
      (mk 1700000000 1033 (conveyed (address example_item)) 8333) /\
    len l = size true /\
    (is_v1 (address example_item) = true -> canonical (address example_item) ->
      conveyed (address example_item) = address example_item).
Proof. refine (address_v1_roundtrip true example_item example_item_ok _ _); done. Defined.

(** A BIP155 entry of tor v3. *)
Definition example_entry : bytes :=
  le_bytes 4 1 ++ [9] ++ [4; 32] ++ replicate 32 7 ++ be_bytes 2 8333.

Lemma decoded_address_canonical_witness :
  canonical (address (deserialize_v2 (R := list_stream.t) (Some example_entry)).1).
Proof.
  refine (proj1 (decoded_address_canonical (R := list_stream.t) (Some example_entry))
    _ (deserialize_v2 (R := list_stream.t) (Some example_entry)).2 _ _); reflexivity.
Defined.
End address_item.
