(* ===== verification/PeerMessages.v ===== *)
(** * PeerMessages: the messages of the peer protocol

    Models the message classes of [src/messages/peer/detail/*.cpp] that do not
    carry chain objects: for each class its fields, its supported versions, its
    size, [serialize] and [deserialize] over the stream interfaces.  The
    functions over a span or slab of bytes ([deserialize_data],
    [serialize_data]) are the same in every class.  In a module, [ok] says the
    fields hold values of their widths and within the limits that the reader
    imposes, and [law] that the codec of the class is faithful. *)

From S2P Require Import Prelude.
From S2P Require Import Stream.
From S2P Require Import StreamWindow.
From S2P Require Import PeerAddress.

(** The limits of blocks, which belong to libbitcoin-system. *)
Class ChainLimits := {
  max_block_size : Z;
  max_block_weight : Z;
  min_transaction_size : Z
}.

Section common.
Context `{VariableSize} {R W : Type} `{!ByteReader R, !ByteWriter W}.

Local Open Scope reader_scope.

(** [level]: the protocol versions that messages depend on. *)
Definition address_timestamp : Z := 31402.
Definition headers_protocol : Z := 31800.
Definition bip31 : Z := 60001.
Definition bip35 : Z := 60002.
Definition bip37 : Z := 70001.
Definition bip61 : Z := 70002.
Definition bip130 : Z := 70012.
Definition bip133 : Z := 70013.
Definition bip152 : Z := 70014.
Definition bip157 : Z := 70015.
Definition bip155 : Z := 70016.
Definition bip330 : Z := 70016.
Definition bip339 : Z := 70016.
Definition minimum_protocol : Z := address_timestamp.
Definition maximum_protocol : Z := bip155.

(** [magic_numbers]: the limits of messages. *)
Definition max_address : Z := 1000.
Definition max_bloom_filter_add : Z := 520.
Definition max_bloom_filter_functions : Z := 50.
Definition max_bloom_filter_load : Z := 36000.
Definition max_client_filter_headers : Z := 2000.
Definition max_inventory : Z := 50000.
Definition max_reject_message : Z := max_uint16.
Definition heading_command_size : Z := 12.
Definition max_locator : Z := 10 + Z.log2 max_size_t.
Definition hash_size : Z := 32.

(** [null_hash] of libbitcoin-system. *)
Definition null_hash : bytes := replicate 32 0.

(** Whether a message supports the negotiated version. *)
Definition supported (minimum version : Z) : bool :=
  negb ((version <? minimum) || (version >? maximum_protocol)).

Definition deserialize_data {M} (deserialize : R -> M * R) (data : bytes) : option M :=
  let '(message, reader) := deserialize (open data) in
  if good reader then Some message else None.

Definition serialize_data (serialize : W -> W) : bytes := written (serialize create).

(** A loop of [count] reads, and a loop of writes. *)
Definition read_items {A} (limit : Z) (item : R -> A * R) : R -> list A * R :=
  count <- read_size limit ;;
  read_list (Z.to_nat count) item.

(** The loop of the messages that stop reading once the source is invalid. *)
Fixpoint read_while {A} (count : nat) (item : R -> A * R) (r : R) : list A * R :=
  match count with
  | O => ([], r)
  | S n =>
    if good r then
      let '(a, r) := item r in
      let '(l, r) := read_while n item r in (a :: l, r)
    else ([], r)
  end.

Definition read_items_while {A} (limit : Z) (item : R -> A * R) : R -> list A * R :=
  count <- read_size limit ;;
  read_while (Z.to_nat count) item.

Definition write_items {A} (item : A -> W -> W) (l : list A) (w : W) : W :=
  fold_left (fun w a => item a w) l (write_variable (len l) w).

Definition read_chunk (limit : Z) : R -> bytes * R :=
  size <- read_size limit ;;
  read_bytes size.

(** A faithful codec: writes [l] and reads it back as [m]. *)
Definition codec_of {M} (serialize : M -> W -> W) (deserialize : R -> M * R) (size : M -> Z)
  (m : M) : Prop :=
  exists l, writes (serialize m) l /\ reads deserialize l m /\ len l = size m.

Definition hash_ok (h : bytes) : Prop := bytes_ok h /\ len h = hash_size.

Context `{!ReaderLaws R, !WriterLaws W}.

Lemma reads_read_items {A} limit (item : R -> A * R) enc l :
  len l < 2 ^ 64 -> len l <= limit -> Forall (fun a => reads item (enc a) a) l ->
  reads (read_items limit item) (variable (len l) ++ concat (map enc l)) l.
Proof.
  intros Hl Hm Hf. pose proof (len_nonneg l). eapply reads_bind; [apply read_size_law; width |].
  unfold len. rewrite Nat2Z.id. by apply reads_list.
Qed.

(** While it is good, the guarded loop is the plain one. *)
Lemma reads_while {A} (item : R -> A * R) enc (l : list A) :
  Forall (fun a => reads item (enc a) a) l ->
  reads (read_while (length l) item) (concat (map enc l)) l.
Proof.
  induction 1 as [| a l Ha Hl IH]; [apply reads_ret |]. intros r k Hr. simpl in *.
  destruct Hr as [Hg Hr]. rewrite Hg. rewrite <- app_assoc in Hr.
  destruct (Ha r _ (conj Hg Hr)) as (r1 & -> & Hp). destruct (IH r1 k Hp) as (r2 & -> & Hp2).
  by exists r2.
Qed.

Lemma reads_items_while {A} limit (item : R -> A * R) enc l :
  len l < 2 ^ 64 -> len l <= limit -> Forall (fun a => reads item (enc a) a) l ->
  reads (read_items_while limit item) (variable (len l) ++ concat (map enc l)) l.
Proof.
  intros Hl Hm Hf. pose proof (len_nonneg l). eapply reads_bind; [apply read_size_law; width |].
  unfold len. rewrite Nat2Z.id. by apply reads_while.
Qed.

Lemma writes_write_items {A} (item : A -> W -> W) enc l :
  len l < 2 ^ 64 -> Forall (fun a => writes (item a) (enc a)) l ->
  writes (write_items item l) (variable (len l) ++ concat (map enc l)).
Proof.
  intros Hl Hf w. unfold write_items. pose proof (len_nonneg l).
  rewrite (writes_list item enc l Hf), write_variable_law by width. by rewrite <- app_assoc.
Qed.

Lemma len_concat {A} (enc : A -> bytes) n l :
  Forall (fun a => len (enc a) = n) l -> len (concat (map enc l)) = len l * n.
Proof.
  induction 1 as [| a l Ha Hl IH]; [done |]. simpl. rewrite len_app, len_cons, Ha, IH. lia.
Qed.

Lemma reads_read_chunk limit d :
  bytes_ok d -> len d < 2 ^ 64 -> len d <= limit ->
  reads (R := R) (read_chunk limit) (variable (len d) ++ d) d.
Proof.
  intros Hd Hl Hm. pose proof (len_nonneg d). eapply reads_bind; [apply read_size_law; width |].
  by apply read_bytes_law.
Qed.

Lemma deserialize_serialize {M} (deserialize : R -> M * R) (serialize : W -> W) l m :
  writes serialize l -> reads deserialize l m ->
  deserialize_data deserialize (serialize_data serialize) = Some m.
Proof.
  intros Hw Hr. unfold deserialize_data, serialize_data. rewrite Hw, create_law. simpl.
  destruct (Hr (open l) []) as (r' & -> & Hg & _); [rewrite app_nil_r; apply open_law |].
  by rewrite Hg.
Qed.

(** The version guard of a message reads nothing. *)
Lemma reads_supported {B} b (f : unit -> R -> B * R) l v :
  b = true -> reads (f tt) l v -> reads (bind (require b) f) l v.
Proof. intros Hb Hf. change l with ([] ++ l). eapply reads_bind; [by apply reads_require | done]. Qed.

Lemma hashes_writes l : Forall hash_ok l -> len l < 2 ^ 64 ->
  writes (W := W) (write_items write_bytes l) (variable (len l) ++ concat (map id l)).
Proof.
  intros Hl Hs. apply writes_write_items; [done |]. eapply Forall_impl; [exact Hl |].
  intros h [Hh _]. by apply write_bytes_law.
Qed.

Lemma hashes_reads limit l : Forall hash_ok l -> len l <= limit -> len l < 2 ^ 64 ->
  reads (R := R) (read_items limit read_hash) (variable (len l) ++ concat (map id l)) l.
Proof.
  intros Hl Hm Hs. apply reads_read_items; [done | done |]. eapply Forall_impl; [exact Hl |].
  intros h [Hh Hn]. by apply read_hash_law.
Qed.

Lemma hashes_reads_while limit l : Forall hash_ok l -> len l <= limit -> len l < 2 ^ 64 ->
  reads (R := R) (read_items_while limit read_hash) (variable (len l) ++ concat (map id l)) l.
Proof.
  intros Hl Hm Hs. apply reads_items_while; [done | done |]. eapply Forall_impl; [exact Hl |].
  intros h [Hh Hn]. by apply read_hash_law.
Qed.

Lemma hashes_len l : Forall hash_ok l -> len (concat (map id l)) = len l * 32.
Proof.
  intros Hl. apply len_concat. eapply Forall_impl; [exact Hl |]. by intros h [_ Hn].
Qed.

Lemma u8_bool (b : bool) : u8 (if b then 1 else 0).
Proof. destruct b; width. Qed.
End common.

#[export] Hint Resolve u8_bool : net.

(** The field tactics of the message codecs. *)
Ltac open_fields :=
  repeat match goal with
  | H : hash_ok _ |- _ => destruct H
  | H : _ /\ _ |- _ => destruct H
  end.

Ltac codec_writes :=
  intros w;
  repeat first [rewrite hashes_writes by side | progress write_steps];
  rewrite <- ?app_assoc; done.

Ltac codec_read_law :=
  first [apply reads_read_chunk; side | apply hashes_reads; side | apply hashes_reads_while; side | read_law].

Ltac codec_step :=
  first
    [ eapply reads_bind; [solve [codec_read_law] |]
    | eapply reads_done; [solve [codec_read_law] |] ].

Ltac codec_reads := apply reads_supported; [done |]; repeat codec_step.

Ltac codec_size :=
  rewrite ?len_app, ?len_le_bytes, ?len_be_bytes, ?hashes_len by done;
  unfold variable_size, hash_size in *; repeat change (len [_]) with 1; lia.

(** ** pong *)

Module pong.
Record t := mk { nonce : Z }.

Section codec.
Context `{VariableSize} {R W : Type} `{!ByteReader R, !ByteWriter W}.

Local Open Scope reader_scope.

Definition version_minimum : Z := bip31.

Definition size (m : t) : Z := 8.

Definition deserialize (version : Z) : R -> t * R :=
  require (supported version_minimum version) ;;
  nonce <- read_8_bytes_little_endian ;;
  ret (mk nonce).

Definition serialize (m : t) (w : W) : W :=
  write_8_bytes_little_endian (nonce m) w.

Definition ok (m : t) : Prop := u64 (nonce m).

Context `{!ReaderLaws R, !WriterLaws W}.

Lemma pong_law version m : supported version_minimum version = true -> ok m ->
  codec_of serialize (deserialize version) size m.
Proof.
  intros Hv Hok. unfold ok in Hok. open_fields.
  exists (le_bytes 8 (nonce m)).
  unfold serialize, deserialize, size. split_and!.
  - codec_writes.
  - codec_reads. destruct m. apply reads_ret.
  - codec_size.
Qed.
End codec.
End pong.

(** ** fee_filter *)

Module fee_filter.
Record t := mk { minimum_fee : Z }.

Section codec.
Context `{VariableSize} {R W : Type} `{!ByteReader R, !ByteWriter W}.

Local Open Scope reader_scope.

Definition version_minimum : Z := bip133.

Definition size (m : t) : Z := 8.

Definition deserialize (version : Z) : R -> t * R :=
  require (supported version_minimum version) ;;
  minimum_fee <- read_8_bytes_little_endian ;;
  ret (mk minimum_fee).

Definition serialize (m : t) (w : W) : W :=
  write_8_bytes_little_endian (minimum_fee m) w.

Definition ok (m : t) : Prop := u64 (minimum_fee m).

Context `{!ReaderLaws R, !WriterLaws W}.

Lemma fee_filter_law version m : supported version_minimum version = true -> ok m ->
  codec_of serialize (deserialize version) size m.
Proof.
  intros Hv Hok. unfold ok in Hok. open_fields.
  exists (le_bytes 8 (minimum_fee m)).
  unfold serialize, deserialize, size. split_and!.
  - codec_writes.
  - codec_reads. destruct m. apply reads_ret.
  - codec_size.
Qed.
End codec.
End fee_filter.

(** ** send_transaction_reconciliation *)

Module send_transaction_reconciliation.
Record t := mk { value : Z; salt : Z }.

Section codec.
Context `{VariableSize} {R W : Type} `{!ByteReader R, !ByteWriter W}.

Local Open Scope reader_scope.

Definition version_minimum : Z := bip330.

Definition size (m : t) : Z := 4 + 8.

Definition deserialize (version : Z) : R -> t * R :=
  require (supported version_minimum version) ;;
  value <- read_4_bytes_little_endian ;;
  salt <- read_8_bytes_little_endian ;;
  ret (mk value salt).

Definition serialize (m : t) (w : W) : W :=
  let w := write_4_bytes_little_endian (value m) w in
  write_8_bytes_little_endian (salt m) w.

Definition ok (m : t) : Prop := u32 (value m) /\ u64 (salt m).

Context `{!ReaderLaws R, !WriterLaws W}.

Lemma send_transaction_reconciliation_law version m : supported version_minimum version = true -> ok m ->
  codec_of serialize (deserialize version) size m.
Proof.
  intros Hv Hok. unfold ok in Hok. open_fields.
  exists (le_bytes 4 (value m) ++ le_bytes 8 (salt m)).
  unfold serialize, deserialize, size. split_and!.
  - codec_writes.
  - codec_reads. destruct m. apply reads_ret.
  - codec_size.
Qed.
End codec.
End send_transaction_reconciliation.

(** ** get_client_filter_checkpoint *)

Module get_client_filter_checkpoint.
Record t := mk { filter_type : Z; stop_hash : bytes }.

Section codec.
Context `{VariableSize} {R W : Type} `{!ByteReader R, !ByteWriter W}.

Local Open Scope reader_scope.

Definition version_minimum : Z := bip157.

Definition size (m : t) : Z := 1 + hash_size.

Definition deserialize (version : Z) : R -> t * R :=
  require (supported version_minimum version) ;;
  filter_type <- read_byte ;;
  stop_hash <- read_hash ;;
  ret (mk filter_type stop_hash).

Definition serialize (m : t) (w : W) : W :=
  let w := write_byte (filter_type m) w in
  write_bytes (stop_hash m) w.

Definition ok (m : t) : Prop := u8 (filter_type m) /\ hash_ok (stop_hash m).

Context `{!ReaderLaws R, !WriterLaws W}.

Lemma get_client_filter_checkpoint_law version m : supported version_minimum version = true -> ok m ->
  codec_of serialize (deserialize version) size m.
Proof.
  intros Hv Hok. unfold ok in Hok. open_fields.
  exists ([filter_type m] ++ stop_hash m).
  unfold serialize, deserialize, size. split_and!.
  - codec_writes.
  - codec_reads. destruct m. apply reads_ret.
  - codec_size.
Qed.
End codec.
End get_client_filter_checkpoint.

(** ** get_client_filter_headers *)

Module get_client_filter_headers.
Record t := mk { filter_type : Z; start_height : Z; stop_hash : bytes }.

Section codec.
Context `{VariableSize} {R W : Type} `{!ByteReader R, !ByteWriter W}.

Local Open Scope reader_scope.

Definition version_minimum : Z := bip157.

Definition size (m : t) : Z := 1 + 4 + hash_size.

Definition deserialize (version : Z) : R -> t * R :=
  require (supported version_minimum version) ;;
  filter_type <- read_byte ;;
  start_height <- read_4_bytes_little_endian ;;
  stop_hash <- read_hash ;;
  ret (mk filter_type start_height stop_hash).

Definition serialize (m : t) (w : W) : W :=
  let w := write_byte (filter_type m) w in
  let w := write_4_bytes_little_endian (start_height m) w in
  write_bytes (stop_hash m) w.

Definition ok (m : t) : Prop := u8 (filter_type m) /\ u32 (start_height m) /\ hash_ok (stop_hash m).

Context `{!ReaderLaws R, !WriterLaws W}.

Lemma get_client_filter_headers_law version m : supported version_minimum version = true -> ok m ->
  codec_of serialize (deserialize version) size m.
Proof.
  intros Hv Hok. unfold ok in Hok. open_fields.
  exists ([filter_type m] ++ le_bytes 4 (start_height m) ++ stop_hash m).
  unfold serialize, deserialize, size. split_and!.
  - codec_writes.
  - codec_reads. destruct m. apply reads_ret.
  - codec_size.
Qed.
End codec.
End get_client_filter_headers.

(** ** get_client_filters *)

Module get_client_filters.
Record t := mk { filter_type : Z; start_height : Z; stop_hash : bytes }.

Section codec.
Context `{VariableSize} {R W : Type} `{!ByteReader R, !ByteWriter W}.

Local Open Scope reader_scope.

Definition version_minimum : Z := bip157.

Definition size (m : t) : Z := 1 + 4 + hash_size.

Definition deserialize (version : Z) : R -> t * R :=
  require (supported version_minimum version) ;;
  filter_type <- read_byte ;;
  start_height <- read_4_bytes_little_endian ;;
  stop_hash <- read_hash ;;
  ret (mk filter_type start_height stop_hash).

Definition serialize (m : t) (w : W) : W :=
  let w := write_byte (filter_type m) w in
  let w := write_4_bytes_little_endian (start_height m) w in
  write_bytes (stop_hash m) w.

Definition ok (m : t) : Prop := u8 (filter_type m) /\ u32 (start_height m) /\ hash_ok (stop_hash m).

Context `{!ReaderLaws R, !WriterLaws W}.

Lemma get_client_filters_law version m : supported version_minimum version = true -> ok m ->
  codec_of serialize (deserialize version) size m.
Proof.
  intros Hv Hok. unfold ok in Hok. open_fields.
  exists ([filter_type m] ++ le_bytes 4 (start_height m) ++ stop_hash m).
  unfold serialize, deserialize, size. split_and!.
  - codec_writes.
  - codec_reads. destruct m. apply reads_ret.
  - codec_size.
Qed.
End codec.
End get_client_filters.

(** ** client_filter *)

Module client_filter.
Record t := mk { filter_type : Z; block_hash : bytes; filter : bytes }.

Section codec.
Context `{VariableSize, ChainLimits} {R W : Type} `{!ByteReader R, !ByteWriter W}.

Local Open Scope reader_scope.

Definition version_minimum : Z := bip157.

Definition size (m : t) : Z := 1 + hash_size + variable_size (len (filter m)) + len (filter m).

Definition deserialize (version : Z) : R -> t * R :=
  require (supported version_minimum version) ;;
  filter_type <- read_byte ;;
  block_hash <- read_hash ;;
  filter <- read_chunk max_block_size ;;
  ret (mk filter_type block_hash filter).

Definition serialize (m : t) (w : W) : W :=
  let w := write_byte (filter_type m) w in
  let w := write_bytes (block_hash m) w in
  let w := write_variable (len (filter m)) w in
  write_bytes (filter m) w.

Definition ok (m : t) : Prop := u8 (filter_type m) /\ hash_ok (block_hash m) /\ bytes_ok (filter m) /\ len (filter m) <= max_block_size /\ len (filter m) < 2 ^ 64.

Context `{!ReaderLaws R, !WriterLaws W}.

Lemma client_filter_law version m : supported version_minimum version = true -> ok m ->
  codec_of serialize (deserialize version) size m.
Proof.
  intros Hv Hok. unfold ok in Hok. open_fields.
  exists ([filter_type m] ++ block_hash m ++ (variable (len (filter m)) ++ filter m)).
  unfold serialize, deserialize, size. split_and!.
  - codec_writes.
  - codec_reads. destruct m. apply reads_ret.
  - codec_size.
Qed.
End codec.
End client_filter.

(** ** client_filter_headers *)

Module client_filter_headers.
Record t := mk { filter_type : Z; stop_hash : bytes; previous_filter_header : bytes; filter_hashes : list bytes }.

Section codec.
Context `{VariableSize} {R W : Type} `{!ByteReader R, !ByteWriter W}.

Local Open Scope reader_scope.

Definition version_minimum : Z := bip157.

Definition size (m : t) : Z := 1 + hash_size + hash_size + variable_size (len (filter_hashes m)) + len (filter_hashes m) * hash_size.

Definition deserialize (version : Z) : R -> t * R :=
  require (supported version_minimum version) ;;
  filter_type <- read_byte ;;
  stop_hash <- read_hash ;;
  previous_filter_header <- read_hash ;;
  filter_hashes <- read_items_while max_client_filter_headers read_hash ;;
  ret (mk filter_type stop_hash previous_filter_header filter_hashes).

Definition serialize (m : t) (w : W) : W :=
  let w := write_byte (filter_type m) w in
  let w := write_bytes (stop_hash m) w in
  let w := write_bytes (previous_filter_header m) w in
  write_items write_bytes (filter_hashes m) w.

Definition ok (m : t) : Prop := u8 (filter_type m) /\ hash_ok (stop_hash m) /\ hash_ok (previous_filter_header m) /\ Forall hash_ok (filter_hashes m) /\ len (filter_hashes m) <= max_client_filter_headers /\ len (filter_hashes m) < 2 ^ 64.

Context `{!ReaderLaws R, !WriterLaws W}.

Lemma client_filter_headers_law version m : supported version_minimum version = true -> ok m ->
  codec_of serialize (deserialize version) size m.
Proof.
  intros Hv Hok. unfold ok in Hok. open_fields.
  exists ([filter_type m] ++ stop_hash m ++ previous_filter_header m ++ (variable (len (filter_hashes m)) ++ concat (map id (filter_hashes m)))).
  unfold serialize, deserialize, size. split_and!.
  - codec_writes.
  - codec_reads. destruct m. apply reads_ret.
  - codec_size.
Qed.
End codec.
End client_filter_headers.

(** ** client_filter_checkpoint *)

Module client_filter_checkpoint.
Record t := mk { filter_type : Z; stop_hash : bytes; filter_headers : list bytes }.

Section codec.
Context `{VariableSize, ChainLimits} {R W : Type} `{!ByteReader R, !ByteWriter W}.

Local Open Scope reader_scope.

Definition version_minimum : Z := bip157.

Definition size (m : t) : Z := 1 + hash_size + variable_size (len (filter_headers m)) + len (filter_headers m) * hash_size.

Definition deserialize (version : Z) : R -> t * R :=
  require (supported version_minimum version) ;;
  filter_type <- read_byte ;;
  stop_hash <- read_hash ;;
  filter_headers <- read_items_while (max_block_weight / hash_size) read_hash ;;
  ret (mk filter_type stop_hash filter_headers).

Definition serialize (m : t) (w : W) : W :=
  let w := write_byte (filter_type m) w in
  let w := write_bytes (stop_hash m) w in
  write_items write_bytes (filter_headers m) w.

Definition ok (m : t) : Prop := u8 (filter_type m) /\ hash_ok (stop_hash m) /\ Forall hash_ok (filter_headers m) /\ len (filter_headers m) <= (max_block_weight / hash_size) /\ len (filter_headers m) < 2 ^ 64.

Context `{!ReaderLaws R, !WriterLaws W}.

Lemma client_filter_checkpoint_law version m : supported version_minimum version = true -> ok m ->
  codec_of serialize (deserialize version) size m.
Proof.
  intros Hv Hok. unfold ok in Hok. open_fields.
  exists ([filter_type m] ++ stop_hash m ++ (variable (len (filter_headers m)) ++ concat (map id (filter_headers m)))).
  unfold serialize, deserialize, size. split_and!.
  - codec_writes.
  - codec_reads. destruct m. apply reads_ret.
  - codec_size.
Qed.
End codec.
End client_filter_checkpoint.

(** ** bloom_filter_add *)

Module bloom_filter_add.
Record t := mk { data : bytes }.

Section codec.
Context `{VariableSize} {R W : Type} `{!ByteReader R, !ByteWriter W}.

Local Open Scope reader_scope.

Definition version_minimum : Z := bip37.

Definition size (m : t) : Z := variable_size (len (data m)) + len (data m).

Definition deserialize (version : Z) : R -> t * R :=
  require (supported version_minimum version) ;;
  data <- read_chunk max_bloom_filter_add ;;
  ret (mk data).

Definition serialize (m : t) (w : W) : W :=
  let w := write_variable (len (data m)) w in
  write_bytes (data m) w.

Definition ok (m : t) : Prop := bytes_ok (data m) /\ len (data m) <= max_bloom_filter_add /\ len (data m) < 2 ^ 64.

Context `{!ReaderLaws R, !WriterLaws W}.

Lemma bloom_filter_add_law version m : supported version_minimum version = true -> ok m ->
  codec_of serialize (deserialize version) size m.
Proof.
  intros Hv Hok. unfold ok in Hok. open_fields.
  exists ((variable (len (data m)) ++ data m)).
  unfold serialize, deserialize, size. split_and!.
  - codec_writes.
  - codec_reads. destruct m. apply reads_ret.
  - codec_size.
Qed.
End codec.
End bloom_filter_add.

(** ** bloom_filter_clear *)

Module bloom_filter_clear.
Record t := mk { }.

Section codec.
Context `{VariableSize} {R W : Type} `{!ByteReader R, !ByteWriter W}.

Local Open Scope reader_scope.

Definition version_minimum : Z := bip37.

Definition size (_ : t) : Z := 0.

Definition deserialize (version : Z) : R -> t * R :=
  require (supported version_minimum version) ;;
  ret (mk).

Definition serialize (_ : t) (w : W) : W := w.

Definition ok (_ : t) : Prop := True.

Context `{!ReaderLaws R, !WriterLaws W}.

Lemma bloom_filter_clear_law version m : supported version_minimum version = true -> ok m ->
  codec_of serialize (deserialize version) size m.
Proof.
  intros Hv Hok. unfold ok in Hok. open_fields.
  exists ([]).
  unfold serialize, deserialize, size. split_and!.
  - apply writes_id.
  - apply reads_supported; [done |]. destruct m. apply reads_ret.
  - done.
Qed.
End codec.
End bloom_filter_clear.

(** ** get_address *)

Module get_address.
Record t := mk { }.

Section codec.
Context `{VariableSize} {R W : Type} `{!ByteReader R, !ByteWriter W}.

Local Open Scope reader_scope.

Definition version_minimum : Z := minimum_protocol.

Definition size (_ : t) : Z := 0.

Definition deserialize (version : Z) : R -> t * R :=
  require (supported version_minimum version) ;;
  ret (mk).

Definition serialize (_ : t) (w : W) : W := w.

Definition ok (_ : t) : Prop := True.

Context `{!ReaderLaws R, !WriterLaws W}.

Lemma get_address_law version m : supported version_minimum version = true -> ok m ->
  codec_of serialize (deserialize version) size m.
Proof.
  intros Hv Hok. unfold ok in Hok. open_fields.
  exists ([]).
  unfold serialize, deserialize, size. split_and!.
  - apply writes_id.
  - apply reads_supported; [done |]. destruct m. apply reads_ret.
  - done.
Qed.
End codec.
End get_address.

(** ** memory_pool *)

Module memory_pool.
Record t := mk { }.

Section codec.
Context `{VariableSize} {R W : Type} `{!ByteReader R, !ByteWriter W}.

Local Open Scope reader_scope.

Definition version_minimum : Z := bip35.

Definition size (_ : t) : Z := 0.

Definition deserialize (version : Z) : R -> t * R :=
  require (supported version_minimum version) ;;
  ret (mk).

Definition serialize (_ : t) (w : W) : W := w.

Definition ok (_ : t) : Prop := True.

Context `{!ReaderLaws R, !WriterLaws W}.

Lemma memory_pool_law version m : supported version_minimum version = true -> ok m ->
  codec_of serialize (deserialize version) size m.
Proof.
  intros Hv Hok. unfold ok in Hok. open_fields.
  exists ([]).
  unfold serialize, deserialize, size. split_and!.
  - apply writes_id.
  - apply reads_supported; [done |]. destruct m. apply reads_ret.
  - done.
Qed.
End codec.
End memory_pool.

(** ** send_headers *)

Module send_headers.
Record t := mk { }.

Section codec.
Context `{VariableSize} {R W : Type} `{!ByteReader R, !ByteWriter W}.

Local Open Scope reader_scope.

Definition version_minimum : Z := bip130.

Definition size (_ : t) : Z := 0.

Definition deserialize (version : Z) : R -> t * R :=
  require (supported version_minimum version) ;;
  ret (mk).

Definition serialize (_ : t) (w : W) : W := w.

Definition ok (_ : t) : Prop := True.

Context `{!ReaderLaws R, !WriterLaws W}.

Lemma send_headers_law version m : supported version_minimum version = true -> ok m ->
  codec_of serialize (deserialize version) size m.
Proof.
  intros Hv Hok. unfold ok in Hok. open_fields.
  exists ([]).
  unfold serialize, deserialize, size. split_and!.
  - apply writes_id.
  - apply reads_supported; [done |]. destruct m. apply reads_ret.
  - done.
Qed.
End codec.
End send_headers.

(** ** send_address_v2 *)

Module send_address_v2.
Record t := mk { }.

Section codec.
Context `{VariableSize} {R W : Type} `{!ByteReader R, !ByteWriter W}.

Local Open Scope reader_scope.

Definition version_minimum : Z := bip155.

Definition size (_ : t) : Z := 0.

Definition deserialize (version : Z) : R -> t * R :=
  require (supported version_minimum version) ;;
  ret (mk).

Definition serialize (_ : t) (w : W) : W := w.

Definition ok (_ : t) : Prop := True.

Context `{!ReaderLaws R, !WriterLaws W}.

Lemma send_address_v2_law version m : supported version_minimum version = true -> ok m ->
  codec_of serialize (deserialize version) size m.
Proof.
  intros Hv Hok. unfold ok in Hok. open_fields.
  exists ([]).
  unfold serialize, deserialize, size. split_and!.
  - apply writes_id.
  - apply reads_supported; [done |]. destruct m. apply reads_ret.
  - done.
Qed.
End codec.
End send_address_v2.

(** ** version_acknowledge *)

Module version_acknowledge.
Record t := mk { }.

Section codec.
Context `{VariableSize} {R W : Type} `{!ByteReader R, !ByteWriter W}.

Local Open Scope reader_scope.

Definition version_minimum : Z := minimum_protocol.

Definition size (_ : t) : Z := 0.

Definition deserialize (version : Z) : R -> t * R :=
  require (supported version_minimum version) ;;
  ret (mk).

Definition serialize (_ : t) (w : W) : W := w.

Definition ok (_ : t) : Prop := True.

Context `{!ReaderLaws R, !WriterLaws W}.

Lemma version_acknowledge_law version m : supported version_minimum version = true -> ok m ->
  codec_of serialize (deserialize version) size m.
Proof.
  intros Hv Hok. unfold ok in Hok. open_fields.
  exists ([]).
  unfold serialize, deserialize, size. split_and!.
  - apply writes_id.
  - apply reads_supported; [done |]. destruct m. apply reads_ret.
  - done.
Qed.
End codec.
End version_acknowledge.

(** ** witness_tx_id_relay *)

Module witness_tx_id_relay.
Record t := mk { }.

Section codec.
Context `{VariableSize} {R W : Type} `{!ByteReader R, !ByteWriter W}.

Local Open Scope reader_scope.

Definition version_minimum : Z := bip339.

Definition size (_ : t) : Z := 0.

Definition deserialize (version : Z) : R -> t * R :=
  require (supported version_minimum version) ;;
  ret (mk).

Definition serialize (_ : t) (w : W) : W := w.

Definition ok (_ : t) : Prop := True.

Context `{!ReaderLaws R, !WriterLaws W}.

Lemma witness_tx_id_relay_law version m : supported version_minimum version = true -> ok m ->
  codec_of serialize (deserialize version) size m.
Proof.
  intros Hv Hok. unfold ok in Hok. open_fields.
  exists ([]).
  unfold serialize, deserialize, size. split_and!.
  - apply writes_id.
  - apply reads_supported; [done |]. destruct m. apply reads_ret.
  - done.
Qed.
End codec.
End witness_tx_id_relay.

(** ** ping: the nonce since bip31 *)

Module ping.
Record t := mk { nonce : Z }.

Section codec.
Context `{VariableSize} {R W : Type} `{!ByteReader R, !ByteWriter W}.

Local Open Scope reader_scope.

Definition version_minimum : Z := minimum_protocol.

Definition size (version : Z) : Z := if version <? bip31 then 0 else 8.

Definition deserialize (version : Z) : R -> t * R :=
  require (supported version_minimum version) ;;
  nonce <- (if version <? bip31 then ret 0 else read_8_bytes_little_endian) ;;
  ret (mk nonce).

Definition serialize (version : Z) (m : t) (w : W) : W :=
  if version >=? bip31 then write_8_bytes_little_endian (nonce m) w else w.

Definition ok (version : Z) (m : t) : Prop :=
  if version <? bip31 then nonce m = 0 else u64 (nonce m).

Context `{!ReaderLaws R, !WriterLaws W}.

Lemma ping_law version m : supported version_minimum version = true -> ok version m ->
  codec_of (serialize version) (deserialize version) (fun _ => size version) m.
Proof.
  intros Hv Hok. unfold ok in Hok. unfold codec_of, serialize, deserialize, size.
  destruct m as [n]. simpl in Hok. destruct (version <? bip31) eqn:Hb.
  - exists []. split_and!; [| | done].
    + destruct (_ >=? _) eqn:?; [lia | apply writes_id].
    + apply reads_supported; [done |]. subst n.
      apply (reads_bind _ _ [] [] 0); apply reads_ret.
  - exists (le_bytes 8 n). split_and!; [| | by rewrite len_le_bytes].
    + destruct (_ >=? _) eqn:?; [| lia]. by apply write_8_law.
    + codec_reads. apply reads_ret.
Qed.
End codec.
End ping.

(** ** send_compact: a boolean mode *)

Module send_compact.
Record t := mk { high_bandwidth : bool; compact_version : Z }.

Section codec.
Context `{VariableSize} {R W : Type} `{!ByteReader R, !ByteWriter W}.

Local Open Scope reader_scope.

Definition version_minimum : Z := bip152.

Definition size (_ : t) : Z := 1 + 8.

Definition deserialize (version : Z) : R -> t * R :=
  require (supported version_minimum version) ;;
  mode <- read_byte ;;
  protocol <- read_8_bytes_little_endian ;;
  require (negb (mode >? 1)) ;;
  ret (mk (negb (mode =? 0)) protocol).

Definition serialize (m : t) (w : W) : W :=
  let w := write_byte (if high_bandwidth m then 1 else 0) w in
  write_8_bytes_little_endian (compact_version m) w.

Definition ok (m : t) : Prop := u64 (compact_version m).

Context `{!ReaderLaws R, !WriterLaws W}.

Lemma send_compact_law version m : supported version_minimum version = true -> ok m ->
  codec_of serialize (deserialize version) size m.
Proof.
  intros Hv Hok. unfold ok in Hok. exists ([if high_bandwidth m then 1 else 0] ++
    le_bytes 8 (compact_version m)). unfold serialize, deserialize, size. split_and!.
  - codec_writes.
  - apply reads_supported; [done |]. eapply reads_bind; [apply read_byte_law; auto with net |].
    codec_step. apply reads_supported; [by destruct (high_bandwidth m) |].
    destruct m as [[] v]; apply reads_ret.
  - codec_size.
Qed.
End codec.
End send_compact.

(** ** bloom_filter_load *)

Module bloom_filter_load.
Record t := mk { filter : bytes; hash_functions : Z; tweak : Z; flags : Z }.

Section codec.
Context `{VariableSize} {R W : Type} `{!ByteReader R, !ByteWriter W}.

Local Open Scope reader_scope.

Definition version_minimum : Z := bip37.

Definition size (m : t) : Z := variable_size (len (filter m)) + len (filter m) + 4 + 4 + 1.

Definition read_hash_functions : R -> Z * R :=
  hash_functions <- read_4_bytes_little_endian ;;
  require (negb (hash_functions >? max_bloom_filter_functions)) ;;
  ret hash_functions.

Definition deserialize (version : Z) : R -> t * R :=
  require (supported version_minimum version) ;;
  filter <- read_chunk max_bloom_filter_load ;;
  hash_functions <- read_hash_functions ;;
  tweak <- read_4_bytes_little_endian ;;
  flags <- read_byte ;;
  ret (mk filter hash_functions tweak flags).

Definition serialize (m : t) (w : W) : W :=
  let w := write_variable (len (filter m)) w in
  let w := write_bytes (filter m) w in
  let w := write_4_bytes_little_endian (hash_functions m) w in
  let w := write_4_bytes_little_endian (tweak m) w in
  write_byte (flags m) w.

Definition ok (m : t) : Prop :=
  bytes_ok (filter m) /\ len (filter m) <= max_bloom_filter_load /\
  0 <= hash_functions m <= max_bloom_filter_functions /\ u32 (tweak m) /\ u8 (flags m).

Context `{!ReaderLaws R, !WriterLaws W}.

Lemma bloom_filter_load_law version m : supported version_minimum version = true -> ok m ->
  codec_of serialize (deserialize version) size m.
Proof.
  intros Hv (Hf & Hl & Hh & Ht & Hg). unfold max_bloom_filter_load, max_bloom_filter_functions in *.
  assert (len (filter m) < 2 ^ 64) by lia. assert (u32 (hash_functions m)) by width.
  exists ((variable (len (filter m)) ++ filter m) ++ le_bytes 4 (hash_functions m) ++
    le_bytes 4 (tweak m) ++ [flags m]). unfold serialize, deserialize, size. split_and!.
  - codec_writes.
  - apply reads_supported; [done |]. codec_step. eapply reads_bind.
    { unfold read_hash_functions. codec_step. apply reads_supported; [| apply reads_ret].
      unfold max_bloom_filter_functions. lia. }
    repeat codec_step. destruct m. apply reads_ret.
  - codec_size.
Qed.
End codec.
End bloom_filter_load.

(** ** inventory_item *)

Module inventory_item.

(** The enumeration's values; others pass through the codec unchanged. *)
Definition transaction : Z := 1.
Definition block : Z := 2.
Definition filtered : Z := 3.
Definition compact : Z := 4.
Definition wtxid : Z := 5.
Definition witness : Z := Z.shiftl 1 30.
Definition witness_tx : Z := Z.lor witness transaction.
Definition witness_block : Z := Z.lor witness block.
Definition witness_filtered : Z := Z.lor witness filtered.
Definition witness_compact : Z := Z.lor witness compact.

Inductive selector := txids | wtxids | blocks | filters.

Record t := mk { type : Z; hash : bytes }.

#[global] Instance t_eq_dec : EqDecision t.
Proof. solve_decision. Defined.

Definition is_type (id : Z) (i : t) : bool := type i =? id.

Definition is_txid (i : t) : bool := is_type witness_tx i || is_type transaction i.
Definition is_wtxid (i : t) : bool := is_type wtxid i.
Definition is_block (i : t) : bool := is_type block i || is_type witness_block i.
Definition is_filter (i : t) : bool := is_type filtered i || is_type witness_filtered i.

Definition is_selected (types : selector) (i : t) : bool :=
  match types with
  | txids => is_txid i
  | wtxids => is_wtxid i
  | blocks => is_block i
  | filters => is_filter i
  end.

Definition is_block_type (i : t) : bool :=
  is_type witness_block i || is_type witness_compact i || is_type witness_filtered i ||
  is_type block i || is_type compact i || is_type filtered i.

Definition is_transaction_type (i : t) : bool :=
  is_type witness_tx i || is_type transaction i || is_type wtxid i.

Definition is_witness_type (i : t) : bool :=
  is_type witness_tx i || is_type witness_block i || is_type witness_compact i ||
  is_type witness_filtered i.

Section codec.
Context `{VariableSize} {R W : Type} `{!ByteReader R, !ByteWriter W}.

Local Open Scope reader_scope.

Definition size : Z := hash_size + 4.

Definition deserialize : R -> t * R :=
  type <- read_4_bytes_little_endian ;;
  hash <- read_hash ;;
  ret (mk type hash).

Definition serialize (i : t) (w : W) : W :=
  let w := write_4_bytes_little_endian (type i) w in
  write_bytes (hash i) w.

Definition ok (i : t) : Prop := u32 (type i) /\ hash_ok (hash i).

Definition encode (i : t) : bytes := le_bytes 4 (type i) ++ hash i.

Context `{!ReaderLaws R, !WriterLaws W}.

Lemma inventory_item_serialize_law i : ok i -> writes (serialize i) (encode i).
Proof. intros [Ht [Hh Hn]]. unfold serialize, encode. codec_writes. Qed.

Lemma inventory_item_deserialize_law i : ok i -> reads deserialize (encode i) i.
Proof.
  intros [Ht [Hh Hn]]. unfold deserialize, encode. repeat codec_step. destruct i. apply reads_ret.
Qed.

Lemma encode_size i : ok i -> len (encode i) = size.
Proof. intros [Ht [Hh Hn]]. unfold encode, size. by rewrite len_app, len_le_bytes, Hn. Qed.
End codec.
End inventory_item.

(** ** inventory, get_data and not_found: lists of items *)

Module inventory.
Record t := mk { items : list inventory_item.t }.

Definition factory (hashes : list bytes) (type : Z) : t :=
  mk (map (inventory_item.mk type) hashes).

Definition select (types : inventory_item.selector) (m : t) : list inventory_item.t :=
  filter (fun i => inventory_item.is_selected types i = true) (items m).

Definition filter_type (type : Z) (m : t) : list inventory_item.t :=
  filter (fun i => inventory_item.type i = type) (items m).

Definition to_hashes (type : Z) (m : t) : list bytes :=
  map inventory_item.hash (filter (fun i => inventory_item.type i = type) (items m)).

Definition count (types : inventory_item.selector) (m : t) : Z :=
  len (List.filter (inventory_item.is_selected types) (items m)).

Definition count_type (type : Z) (m : t) : Z :=
  len (List.filter (inventory_item.is_type type) (items m)).

Definition any (type : Z) (m : t) : bool := existsb (inventory_item.is_type type) (items m).
Definition any_transaction (m : t) : bool := existsb inventory_item.is_transaction_type (items m).
Definition any_block (m : t) : bool := existsb inventory_item.is_block_type (items m).
Definition any_witness (m : t) : bool := existsb inventory_item.is_witness_type (items m).

Section codec.
Context `{VariableSize} {R W : Type} `{!ByteReader R, !ByteWriter W}.

Local Open Scope reader_scope.

Definition version_minimum : Z := minimum_protocol.

Definition size (m : t) : Z := variable_size (len (items m)) + len (items m) * inventory_item.size.

Definition deserialize (version : Z) : R -> t * R :=
  require (supported version_minimum version) ;;
  items <- read_items max_inventory inventory_item.deserialize ;;
  ret (mk items).

Definition serialize (m : t) (w : W) : W := write_items inventory_item.serialize (items m) w.

Definition ok (m : t) : Prop :=
  Forall inventory_item.ok (items m) /\ len (items m) <= max_inventory.

Context `{!ReaderLaws R, !WriterLaws W}.

Lemma items_law l : Forall inventory_item.ok l -> len l <= max_inventory ->
  writes (W := W) (write_items inventory_item.serialize l)
    (variable (len l) ++ concat (map inventory_item.encode l)) /\
  reads (R := R) (read_items max_inventory inventory_item.deserialize)
    (variable (len l) ++ concat (map inventory_item.encode l)) l /\
  len (variable (len l) ++ concat (map inventory_item.encode l)) =
    variable_size (len l) + len l * inventory_item.size.
Proof.
  unfold max_inventory. intros Hi Hl. split_and!.
  - apply writes_write_items; [lia |]. eapply Forall_impl; [exact Hi |].
    apply inventory_item.inventory_item_serialize_law.
  - apply reads_read_items; [lia | done |]. eapply Forall_impl; [exact Hi |].
    apply inventory_item.inventory_item_deserialize_law.
  - rewrite len_app, (len_concat _ inventory_item.size); [done |].
    eapply Forall_impl; [exact Hi |]. apply inventory_item.encode_size.
Qed.

Lemma inventory_law version m : supported version_minimum version = true -> ok m ->
  codec_of serialize (deserialize version) size m.
Proof.
  intros Hv [Hi Hl]. destruct m as [l]. simpl in *.
  destruct (items_law l Hi Hl) as (Hw & Hr & Hs). eexists. split_and!; [exact Hw | | exact Hs].
  apply reads_supported; [done |]. eapply reads_done; [exact Hr | apply reads_ret].
Qed.
End codec.
End inventory.

Module get_data.
Record t := mk { items : list inventory_item.t }.

Section codec.
Context `{VariableSize} {R W : Type} `{!ByteReader R, !ByteWriter W}.

Local Open Scope reader_scope.

Definition version_minimum : Z := minimum_protocol.

Definition size (m : t) : Z := variable_size (len (items m)) + len (items m) * inventory_item.size.

Definition deserialize (version : Z) : R -> t * R :=
  require (supported version_minimum version) ;;
  items <- read_items max_inventory inventory_item.deserialize ;;
  ret (mk items).

Definition serialize (m : t) (w : W) : W := write_items inventory_item.serialize (items m) w.

Definition ok (m : t) : Prop :=
  Forall inventory_item.ok (items m) /\ len (items m) <= max_inventory.

Context `{!ReaderLaws R, !WriterLaws W}.

Lemma get_data_law version m : supported version_minimum version = true -> ok m ->
  codec_of serialize (deserialize version) size m.
Proof.
  intros Hv [Hi Hl]. destruct m as [l]. simpl in *.
  destruct (inventory.items_law l Hi Hl) as (Hw & Hr & Hs).
  eexists. split_and!; [exact Hw | | exact Hs].
  apply reads_supported; [done |]. eapply reads_done; [exact Hr | apply reads_ret].
Qed.
End codec.
End get_data.

Module not_found.
Record t := mk { items : list inventory_item.t }.

Section codec.
Context `{VariableSize} {R W : Type} `{!ByteReader R, !ByteWriter W}.

Local Open Scope reader_scope.

Definition version_minimum : Z := bip37.

Definition size (m : t) : Z := variable_size (len (items m)) + len (items m) * inventory_item.size.

Definition deserialize (version : Z) : R -> t * R :=
  require (supported version_minimum version) ;;
  items <- read_items max_inventory inventory_item.deserialize ;;
  ret (mk items).

Definition serialize (m : t) (w : W) : W := write_items inventory_item.serialize (items m) w.

Definition ok (m : t) : Prop :=
  Forall inventory_item.ok (items m) /\ len (items m) <= max_inventory.

Context `{!ReaderLaws R, !WriterLaws W}.

Lemma not_found_law version m : supported version_minimum version = true -> ok m ->
  codec_of serialize (deserialize version) size m.
Proof.
  intros Hv [Hi Hl]. destruct m as [l]. simpl in *.
  destruct (inventory.items_law l Hi Hl) as (Hw & Hr & Hs).
  eexists. split_and!; [exact Hw | | exact Hs].
  apply reads_supported; [done |]. eapply reads_done; [exact Hr | apply reads_ret].
Qed.
End codec.
End not_found.

(** ** get_blocks and get_headers: block locators *)

Module get_blocks.
Record t := mk { start_hashes : list bytes; stop_hash : bytes }.

(** The loops of [locator_size] and [heights], from [height] with [step] and
    with [count] indexes so far; [height] decreases in every iteration, and
    is the fuel. *)
Definition next_step (count step : Z) : Z :=
  if count >? 9 then narrow 64 (Z.shiftl step 1) else step.

(** [floored_subtract] *)
Definition floored_subtract (a b : Z) : Z := if a <=? b then 0 else a - b.

Fixpoint locator_size_loop (fuel : nat) (height size step : Z) : option Z :=
  if height >? 0 then
    match fuel with
    | O => None
    | S fuel =>
      let size := size + 1 in
      let step := next_step size step in
      locator_size_loop fuel (floored_subtract height step) size step
    end
  else Some (size + 1).

Definition locator_size (top : Z) : option Z := locator_size_loop (Z.to_nat top) top 0 1.

Fixpoint heights_loop (fuel : nat) (height step : Z) (heights : list Z) : option (list Z) :=
  if height >? 0 then
    match fuel with
    | O => None
    | S fuel =>
      let heights := heights ++ [height] in
      let step := next_step (len heights) step in
      heights_loop fuel (floored_subtract height step) step heights
    end
  else Some (heights ++ [0]).

Definition heights (top : Z) : option (list Z) := heights_loop (Z.to_nat top) top 1 [].

Section codec.
Context `{VariableSize} {R W : Type} `{!ByteReader R, !ByteWriter W}.

Local Open Scope reader_scope.

Definition version_minimum : Z := minimum_protocol.

Definition size (m : t) : Z :=
  4 + hash_size + variable_size (len (start_hashes m)) + hash_size * len (start_hashes m).

Definition deserialize (version : Z) : R -> t * R :=
  require (supported version_minimum version) ;;
  (fun r => (tt, skip_bytes 4 r)) ;;
  start_hashes <- read_items max_locator read_hash ;;
  stop_hash <- read_hash ;;
  ret (mk start_hashes stop_hash).

Definition serialize (version : Z) (m : t) (w : W) : W :=
  let w := write_4_bytes_little_endian version w in
  let w := write_items write_bytes (start_hashes m) w in
  write_bytes (stop_hash m) w.

Definition ok (m : t) : Prop :=
  Forall hash_ok (start_hashes m) /\ len (start_hashes m) <= max_locator /\ hash_ok (stop_hash m).

Context `{!ReaderLaws R, !WriterLaws W}.

(** The locators of both messages. *)
Lemma skip_version version : reads (R := R) (fun r => (tt, skip_bytes 4 r)) (le_bytes 4 version) tt.
Proof.
  change 4 with (Z.of_nat 4). rewrite <- (len_le_bytes 4 version). apply skip_bytes_law.
  apply le_bytes_ok.
Qed.

Lemma supported_u32 minimum version : 0 <= minimum -> supported minimum version = true -> u32 version.
Proof.
  unfold supported, maximum_protocol, bip155. intros Hm Hv.
  apply negb_true_iff, orb_false_iff in Hv as [H1 H2]. width.
Qed.

Lemma get_blocks_law version m : supported version_minimum version = true -> ok m ->
  codec_of (serialize version) (deserialize version) size m.
Proof.
  intros Hv (Hh & Hl & Hs & Hn). pose proof (supported_u32 version_minimum version ltac:(by vm_compute) Hv).
  assert (len (start_hashes m) < 2 ^ 64) by (change max_locator with 73 in Hl; lia).
  exists (le_bytes 4 version ++ (variable (len (start_hashes m)) ++
    concat (map id (start_hashes m))) ++ stop_hash m).
  unfold serialize, deserialize, size. split_and!.
  - codec_writes.
  - apply reads_supported; [done |]. eapply reads_bind; [apply skip_version |].
    repeat codec_step. destruct m. apply reads_ret.
  - codec_size.
Qed.
End codec.

(** ** Properties of locators *)

Lemma locator_loops fuel1 fuel2 height size step l r :
  len l = size -> heights_loop fuel1 height step l = Some r ->
  (fuel1 <= fuel2)%nat -> locator_size_loop fuel2 height size step = Some (len r).
Proof.
  revert fuel2 height size step l. induction fuel1 as [| fuel1 IH];
    intros fuel2 height size step l Hl Hr Hf.
  - destruct fuel2; simpl in *; destruct (height >? 0); simplify_eq; by rewrite len_app.
  - destruct fuel2 as [| fuel2]; [lia |]. simpl in *. destruct (height >? 0).
    + assert (len (l ++ [height]) = size + 1) as Hl' by (by rewrite len_app, Hl).
      rewrite Hl' in Hr. eapply IH; [exact Hl' | exact Hr | lia].
    + simplify_eq. by rewrite len_app.
Qed.

(** The indexes of a locator: from the top down to the genesis block. *)
Inductive descending : Z -> list Z -> Prop :=
  | genesis : descending 0 [0]
  | below h h' l : 0 <= h' < h -> descending h' l -> descending h (h :: l).

(** With [count] indexes so far: the ten topmost, then steps that double. *)
Definition loop_inv (top count step height : Z) : Prop :=
  (0 <= count <= 9 /\ step = 1 /\ height <= top - count) \/
  (10 <= count <= 72 /\ step = 2 ^ (count - 9) /\ (height <= 0 \/ height <= top - (2 * step + 7))).

Lemma loop_inv_step top count step height : top < 2 ^ 64 -> 0 < height ->
  loop_inv top count step height ->
  let step' := next_step (count + 1) step in
  count + 1 <= 72 /\ 0 < step' /\ loop_inv top (count + 1) step' (floored_subtract height step').
Proof.
  intros Ht Hh [(Hc & -> & Hle) | (Hc & Hs & [Hle | Hle])]; [| lia |]; unfold next_step.
  - destruct (count + 1 >? 9) eqn:He.
    + assert (count = 9) as -> by lia. change (narrow 64 (Z.shiftl 1 1)) with 2.
      split_and!; [lia | lia |]. right. split_and!; [lia | lia | done |].
      unfold floored_subtract. destruct (_ <=? _) eqn:?; lia.
    + split_and!; [lia | lia |]. left. unfold floored_subtract.
      destruct (_ <=? _) eqn:?; split_and!; lia.
  - destruct (count + 1 >? 9) eqn:He; [| lia].
    assert (count <= 71) as Hc'.
    { destruct (decide (count <= 71)); [done |]. assert (count = 72) by lia. subst count.
      subst step. change (2 ^ (72 - 9)) with (2 ^ 63) in Hle. lia. }
    assert (2 ^ (count + 1 - 9) = 2 * step) as Hs2.
    { rewrite Hs. replace (count + 1 - 9) with (Z.succ (count - 9)) by lia.
      rewrite Z.pow_succ_r by lia. lia. }
    assert (0 < step) by (rewrite Hs; apply Z.pow_pos_nonneg; lia).
    assert (narrow 64 (Z.shiftl step 1) = 2 * step) as Hn.
    { unfold narrow. rewrite Z.shiftl_mul_pow2, Z.mod_small by lia. lia. }
    rewrite Hn. split_and!; [lia | lia |]. right. split_and!; [lia | lia | lia |].
    unfold floored_subtract. destruct (_ <=? _) eqn:?; lia.
Qed.

Lemma heights_loop_ok top fuel height step l : top < 2 ^ 64 -> 0 <= height ->
  loop_inv top (len l) step height -> (Z.to_nat height <= fuel)%nat ->
  exists s, heights_loop fuel height step l = Some (l ++ s) /\ descending height s /\
    len (l ++ s) <= 73.
Proof.
  intros Ht. revert height step l. induction fuel as [| fuel IH]; intros height step l Hh Hi Hf.
  - assert (height = 0) as -> by lia. exists [0]. simpl. split_and!; [done | constructor |].
    rewrite len_app. change (len [0]) with 1. destruct Hi as [(? & _) | (? & _)]; lia.
  - simpl. destruct (height >? 0) eqn:Hp.
    + destruct (loop_inv_step top (len l) step height Ht ltac:(lia) Hi) as (Hc & Hs & Hi').
      rewrite len_app. change (len [height]) with 1. set (step' := next_step _ _) in *.
      assert (len (l ++ [height]) = len l + 1) as Hlen by (by rewrite len_app).
      assert (0 <= floored_subtract height step' < height) as Hlt.
      { unfold floored_subtract. destruct (_ <=? _) eqn:?; lia. }
      destruct (IH (floored_subtract height step') step' (l ++ [height])) as (s & Hr & Hd & Hl);
        [lia | by rewrite Hlen | lia |].
      exists (height :: s). rewrite Hr, <- app_assoc. split_and!; [done | by econstructor |].
      by rewrite <- app_assoc in Hl.
    + assert (height = 0) as -> by lia. exists [0]. split_and!; [done | constructor |].
      rewrite len_app. change (len [0]) with 1. destruct Hi as [(? & _) | (? & _)]; lia.
Qed.

(** For every chain height the locator loop ends, without overflow of its
    doubling step; the locator descends strictly from the top to the genesis
    block, fits in the limit that the reader imposes on received locators, and
    is as long as predicted. *)
Theorem heights_bounded top : 0 <= top < 2 ^ 64 ->
  exists l, heights top = Some l /\ descending top l /\ len l <= max_locator /\
    locator_size top = Some (len l).
Proof.
  intros Ht. destruct (heights_loop_ok top (Z.to_nat top) top 1 []) as (s & Hr & Hd & Hl);
    [lia | lia | left; rewrite len_nil; lia | lia |].
  exists s. split_and!; [exact Hr | done | exact Hl |].
  by apply (locator_loops (Z.to_nat top) _ top 0 1 [] s).
Qed.

Lemma heights_bounded_witness : exists l, heights 100 = Some l /\ descending 100 l /\
  len l <= max_locator /\ locator_size 100 = Some (len l).
Proof. apply (heights_bounded 100). lia. Defined.

Example heights_100 : heights 100 =
  Some [100; 99; 98; 97; 96; 95; 94; 93; 92; 91; 89; 85; 77; 61; 29; 0].
Proof. reflexivity. Qed.
End get_blocks.

Module get_headers.
Record t := mk { start_hashes : list bytes; stop_hash : bytes }.

Definition locator_size (top : Z) : option Z := get_blocks.locator_size top.

Definition heights (top : Z) : option (list Z) := get_blocks.heights top.

Section codec.
Context `{VariableSize} {R W : Type} `{!ByteReader R, !ByteWriter W}.

Local Open Scope reader_scope.

Definition version_minimum : Z := headers_protocol.

Definition size (m : t) : Z :=
  4 + hash_size + variable_size (len (start_hashes m)) + hash_size * len (start_hashes m).

Definition deserialize (version : Z) : R -> t * R :=
  require (supported version_minimum version) ;;
  (fun r => (tt, skip_bytes 4 r)) ;;
  start_hashes <- read_items max_locator read_hash ;;
  stop_hash <- read_hash ;;
  ret (mk start_hashes stop_hash).

Definition serialize (version : Z) (m : t) (w : W) : W :=
  let w := write_4_bytes_little_endian version w in
  let w := write_items write_bytes (start_hashes m) w in
  write_bytes (stop_hash m) w.

Definition ok (m : t) : Prop :=
  Forall hash_ok (start_hashes m) /\ len (start_hashes m) <= max_locator /\ hash_ok (stop_hash m).

Context `{!ReaderLaws R, !WriterLaws W}.

Lemma get_headers_law version m : supported version_minimum version = true -> ok m ->
  codec_of (serialize version) (deserialize version) size m.
Proof.
  intros Hv (Hh & Hl & Hs & Hn).
  pose proof (get_blocks.supported_u32 version_minimum version ltac:(by vm_compute) Hv).
  assert (len (start_hashes m) < 2 ^ 64) by (change max_locator with 73 in Hl; lia).
  exists (le_bytes 4 version ++ (variable (len (start_hashes m)) ++
    concat (map id (start_hashes m))) ++ stop_hash m).
  unfold serialize, deserialize, size. split_and!.
  - codec_writes.
  - apply reads_supported; [done |]. eapply reads_bind; [apply get_blocks.skip_version |].
    repeat codec_step. destruct m. apply reads_ret.
  - codec_size.
Qed.
End codec.
End get_headers.

(** ** get_compact_transactions *)

(** The most transactions that a block has room for. *)
Definition max_block_transactions `{ChainLimits} : Z := max_block_size / min_transaction_size.

Module get_compact_transactions.
Record t := mk { block_hash : bytes; indexes : list Z }.

Section codec.
Context `{VariableSize, ChainLimits} {R W : Type} `{!ByteReader R, !ByteWriter W}.

Local Open Scope reader_scope.

Definition version_minimum : Z := bip152.

Definition size (m : t) : Z :=
  hash_size + variable_size (len (indexes m)) +
  fold_left (fun total output => total + variable_size output) (indexes m) 0.

Definition deserialize (version : Z) : R -> t * R :=
  require (supported version_minimum version) ;;
  block_hash <- read_hash ;;
  indexes <- read_items_while max_block_transactions (read_size max_size_t) ;;
  ret (mk block_hash indexes).

Definition serialize (m : t) (w : W) : W :=
  let w := write_bytes (block_hash m) w in
  write_items write_variable (indexes m) w.

Definition ok (m : t) : Prop :=
  hash_ok (block_hash m) /\ Forall (fun i => u64 i) (indexes m) /\
  len (indexes m) <= max_block_transactions /\ len (indexes m) < 2 ^ 64.

Context `{!ReaderLaws R, !WriterLaws W}.

Lemma len_variables l acc :
  fold_left (fun total output => total + variable_size output) l acc =
  acc + len (concat (map variable l)).
Proof.
  revert acc. induction l as [| x l IH]; intros acc; simpl; [rewrite len_nil; lia |].
  rewrite IH, len_app. unfold variable_size. lia.
Qed.

Lemma get_compact_transactions_law version m : supported version_minimum version = true -> ok m ->
  codec_of serialize (deserialize version) size m.
Proof.
  intros Hv ([Hb Hn] & Hi & Hl & Hs).
  exists (block_hash m ++ (variable (len (indexes m)) ++ concat (map variable (indexes m)))).
  unfold serialize, deserialize, size. split_and!.
  - assert (Forall (fun i => writes (W := W) (write_variable i) (variable i)) (indexes m)) as Hw.
    { eapply Forall_impl; [exact Hi |]. intros i ?. by apply write_variable_law. }
    intros w. rewrite (writes_write_items write_variable variable), write_bytes_law by done.
    by rewrite <- app_assoc.
  - apply reads_supported; [done |]. codec_step. eapply reads_done.
    { apply reads_items_while; [done | done |]. eapply Forall_impl; [exact Hi |].
      intros i Hu. apply read_size_law; [done |]. unfold max_size_t. width. }
    destruct m. apply reads_ret.
  - rewrite len_variables, !len_app, Hn. unfold variable_size. lia.
Qed.
End codec.
End get_compact_transactions.

(** ** reject *)

Module reject.

Inductive reason_code :=
  | undefined | malformed | invalid | obsolete | duplicate | nonstandard | dust | insufficient_fee | checkpoint.

Record t := mk { message : bytes; code : reason_code; reason : bytes; hash : bytes }.

(** The commands of a block and of a transaction. *)
Definition is_chain (message : bytes) : bool :=
  bool_decide (message = chars "block") || bool_decide (message = chars "tx").

Definition reason_to_byte (value : reason_code) : Z :=
  match value with
  | undefined => 0x00
  | malformed => 0x01
  | invalid => 0x10
  | obsolete => 0x11
  | duplicate => 0x12
  | nonstandard => 0x40
  | dust => 0x41
  | insufficient_fee => 0x42
  | checkpoint => 0x43
  end.

Definition byte_to_reason (byte : Z) : reason_code :=
  match byte with
  | 0x01 => malformed
  | 0x10 => invalid
  | 0x11 => obsolete
  | 0x12 => duplicate
  | 0x40 => nonstandard
  | 0x41 => dust
  | 0x42 => insufficient_fee
  | 0x43 => checkpoint
  | _ => undefined
  end.

Lemma byte_to_reason_to_byte value : byte_to_reason (reason_to_byte value) = value.
Proof. by destruct value. Qed.

Lemma reason_to_byte_u8 value : u8 (reason_to_byte value).
Proof. by destruct value. Qed.

Section codec.
Context `{VariableSize} {R W : Type} `{!ByteReader R, !ReaderWindow R, !ByteWriter W}.

Local Open Scope reader_scope.

Definition version_minimum : Z := bip61.

Definition size (m : t) : Z :=
  variable_size (len (message m)) + len (message m) + 1 + variable_size (len (reason m)) + len (reason m) +
  (if is_chain (message m) then hash_size else 0).

(** The hash of a block or transaction, where it is there. *)
Definition read_optional_hash (message : bytes) : R -> bytes * R := fun r =>
  if good r && is_chain message then
    let position := get_read_position r in
    let '(hash, r) := read_hash r in
    if good r then (hash, r) else (null_hash, set_position position r)
  else (null_hash, r).

(** The version is not tested. *)
Definition deserialize (version : Z) : R -> t * R :=
  message <- read_string max_reject_message ;;
  byte <- read_byte ;;
  reason <- read_string max_reject_message ;;
  hash <- read_optional_hash message ;;
  ret (mk message (byte_to_reason byte) reason hash).

Definition write_hash (m : t) (w : W) : W := if is_chain (message m) then write_bytes (hash m) w else w.

Definition serialize (m : t) (w : W) : W :=
  let w := write_string (message m) w in
  let w := write_byte (reason_to_byte (code m)) w in
  let w := write_string (reason m) w in
  write_hash m w.

Definition ok (m : t) : Prop :=
  bytes_ok (message m) /\ len (message m) <= max_reject_message /\ bytes_ok (reason m) /\ len (reason m) <= max_reject_message /\
  if is_chain (message m) then hash_ok (hash m) else hash m = null_hash.

Definition encode_hash (m : t) : bytes := if is_chain (message m) then hash m else [].

Context `{!ReaderLaws R, !WriterLaws W}.

Lemma hash_writes m : ok m -> writes (W := W) (write_hash m) (encode_hash m).
Proof.
  intros (_ & _ & _ & _ & Hh). unfold write_hash, encode_hash. destruct (is_chain (message m)); [| apply writes_id].
  apply write_bytes_law. by destruct Hh.
Qed.

Lemma hash_reads m : ok m -> reads (R := R) (read_optional_hash (message m)) (encode_hash m) (hash m).
Proof.
  intros (_ & _ & _ & _ & Hh) r k Hp. unfold read_optional_hash, encode_hash in *. rewrite (proj1 Hp).
  destruct (is_chain (message m)); cbn [andb]; [| exists r; by rewrite Hh]. destruct Hh as [Hb Hn].
  destruct (read_hash_law (hash m) Hb Hn r k Hp) as (r' & -> & Hp'). exists r'. by rewrite (proj1 Hp').
Qed.

Lemma len_encode_hash m : ok m -> len (encode_hash m) = if is_chain (message m) then hash_size else 0.
Proof. intros (_ & _ & _ & _ & Hh). unfold encode_hash. destruct (is_chain (message m)); [by destruct Hh | done]. Qed.

Lemma reject_law version m : ok m -> codec_of serialize (deserialize version) size m.
Proof.
  intros Hok. pose proof Hok as (Hm & Hml & Hr & Hrl & _). pose proof (reason_to_byte_u8 (code m)) as Hc.
  unfold max_reject_message in *. assert (len (message m) < 2 ^ 64 /\ len (reason m) < 2 ^ 64) as [? ?] by width.
  exists ((variable (len (message m)) ++ message m) ++ [reason_to_byte (code m)] ++ (variable (len (reason m)) ++ reason m) ++ encode_hash m).
  split_and!.
  - intros w. unfold serialize. rewrite hash_writes by done. write_steps. done.
  - unfold deserialize. do 2 codec_step. codec_step. eapply reads_done; [by apply hash_reads |].
    rewrite byte_to_reason_to_byte. destruct m. apply reads_ret.
  - rewrite !len_app, len_encode_hash by done. unfold size, variable_size. change (len [_]) with 1. lia.
Qed.

(** A hash that is not there is null, and the reader stays good. *)
Lemma hash_omitted `{!WindowLaws R} message r l : presents r l -> hidden r = [] -> len l < hash_size ->
  exists r', read_optional_hash message r = (null_hash, r') /\ presents r' l.
Proof.
  intros Hp Hh Hl. unfold read_optional_hash. rewrite (proj1 Hp). destruct (is_chain message); cbn [andb]; [| by exists r].
  pose proof (set_position_law r l Hp Hh) as Hs. pose proof (read_hash_short r l Hp Hl) as Hg. destruct (read_hash r) as [d r1].
  cbn [snd] in *. rewrite Hg. by eexists.
Qed.
End codec.
End reject.

(** ** alert *)

Module alert_item.
Record t := mk {
  version : Z;
  relay_until : Z;
  expiration : Z;
  id : Z;
  cancel : Z;
  cancels : list Z;
  min_version : Z;
  max_version : Z;
  sub_versions : list bytes;
  priority : Z;
  comment : bytes;
  status_bar : bytes;
  reserved : bytes
}.

Section codec.
Context `{VariableSize} {R W : Type} `{!ByteReader R, !ReaderWindow R, !ByteWriter W}.

Local Open Scope reader_scope.

Definition max_message : Z := max_inventory.
Definition max_messages : Z := max_inventory.

Definition string_size (s : bytes) : Z := variable_size (len s) + len s.

Definition size (m : t) : Z :=
  4 + 8 + 8 + 4 + 4 + variable_size (len (cancels m)) + len (cancels m) * 4 + 4 + 4 +
  variable_size (len (sub_versions m)) + fold_left (fun total sub => total + string_size sub) (sub_versions m) 0 +
  4 + string_size (comment m) + string_size (status_bar m) + string_size (reserved m).

Definition deserialize : R -> t * R :=
  version <- read_4_bytes_little_endian ;;
  relay_until <- read_8_bytes_little_endian ;;
  expiration <- read_8_bytes_little_endian ;;
  id <- read_4_bytes_little_endian ;;
  cancel <- read_4_bytes_little_endian ;;
  cancels <- read_items max_messages read_4_bytes_little_endian ;;
  min_version <- read_4_bytes_little_endian ;;
  max_version <- read_4_bytes_little_endian ;;
  sub_versions <- read_items max_messages (read_string max_message) ;;
  priority <- read_4_bytes_little_endian ;;
  comment <- read_string max_message ;;
  status_bar <- read_string max_message ;;
  reserved <- read_string max_message ;;
  ret (mk version relay_until expiration id cancel cancels min_version max_version sub_versions priority comment status_bar reserved).

Definition serialize (m : t) (w : W) : W :=
  let w := write_4_bytes_little_endian (version m) w in
  let w := write_8_bytes_little_endian (relay_until m) w in
  let w := write_8_bytes_little_endian (expiration m) w in
  let w := write_4_bytes_little_endian (id m) w in
  let w := write_4_bytes_little_endian (cancel m) w in
  let w := write_items write_4_bytes_little_endian (cancels m) w in
  let w := write_4_bytes_little_endian (min_version m) w in
  let w := write_4_bytes_little_endian (max_version m) w in
  let w := write_items write_string (sub_versions m) w in
  let w := write_4_bytes_little_endian (priority m) w in
  let w := write_string (comment m) w in
  let w := write_string (status_bar m) w in
  write_string (reserved m) w.

Definition string_ok (s : bytes) : Prop := bytes_ok s /\ len s <= max_message.

Definition ok (m : t) : Prop :=
  u32 (version m) /\ u64 (relay_until m) /\ u64 (expiration m) /\ u32 (id m) /\ u32 (cancel m) /\
  (Forall (fun c => u32 c) (cancels m) /\ len (cancels m) <= max_messages) /\ u32 (min_version m) /\ u32 (max_version m) /\
  (Forall string_ok (sub_versions m) /\ len (sub_versions m) <= max_messages) /\ u32 (priority m) /\
  string_ok (comment m) /\ string_ok (status_bar m) /\ string_ok (reserved m).

Definition encode_string (s : bytes) : bytes := variable (len s) ++ s.

Definition encode (m : t) : bytes :=
  le_bytes 4 (version m) ++ le_bytes 8 (relay_until m) ++ le_bytes 8 (expiration m) ++ le_bytes 4 (id m) ++ le_bytes 4 (cancel m) ++
  (variable (len (cancels m)) ++ concat (map (le_bytes 4) (cancels m))) ++ le_bytes 4 (min_version m) ++ le_bytes 4 (max_version m) ++
  (variable (len (sub_versions m)) ++ concat (map encode_string (sub_versions m))) ++ le_bytes 4 (priority m) ++
  encode_string (comment m) ++ encode_string (status_bar m) ++ encode_string (reserved m).

Context `{!ReaderLaws R, !WriterLaws W}.

Lemma writes_string s : string_ok s -> writes (W := W) (write_string s) (encode_string s).
Proof. intros [Hb Hl]. apply write_string_law; [done |]. unfold max_message, max_inventory in Hl. width. Qed.

Lemma reads_string s : string_ok s -> reads (R := R) (read_string max_message) (encode_string s) s.
Proof. intros [Hb Hl]. apply read_string_law; [done | | done]. unfold max_message, max_inventory in Hl. width. Qed.

Lemma len_strings l acc :
  fold_left (fun total sub => total + string_size sub) l acc = acc + len (concat (map encode_string l)).
Proof.
  revert acc. induction l as [| s l IH]; intros acc; simpl; [rewrite len_nil; lia |].
  rewrite IH, !len_app. unfold string_size, encode_string, variable_size. rewrite len_app. lia.
Qed.

Lemma writes_alert m : ok m -> writes (W := W) (serialize m) (encode m).
Proof.
  intros (? & ? & ? & ? & ? & [Hc ?] & ? & ? & [Hs ?] & ? & ? & ? & ?) w. unfold max_messages, max_inventory in *. unfold serialize.
  rewrite !writes_string by done. rewrite write_4_law by done.
  rewrite (writes_write_items write_string encode_string); [| width | eapply Forall_impl; [exact Hs | intros; by apply writes_string]].
  rewrite !write_4_law by done.
  rewrite (writes_write_items write_4_bytes_little_endian (le_bytes 4)); [| width | eapply Forall_impl; [exact Hc | intros; by apply write_4_law]].
  rewrite !write_4_law, !write_8_law, write_4_law by done. unfold encode. by rewrite <- !app_assoc.
Qed.

Lemma reads_alert m : ok m -> reads (R := R) deserialize (encode m) m.
Proof.
  intros (? & ? & ? & ? & ? & [Hc ?] & ? & ? & [Hs ?] & ? & ? & ? & ?). unfold deserialize, encode. do 5 codec_step.
  eapply reads_bind.
  { apply reads_read_items; [unfold max_messages, max_inventory in *; width | done |]. eapply Forall_impl; [exact Hc | intros; by apply read_4_law]. }
  do 2 codec_step. eapply reads_bind.
  { apply reads_read_items; [unfold max_messages, max_inventory in *; width | done |]. eapply Forall_impl; [exact Hs | intros; by apply reads_string]. }
  codec_step. do 2 (eapply reads_bind; [by apply reads_string |]). eapply reads_done; [by apply reads_string |]. destruct m. apply reads_ret.
Qed.

Lemma len_alert_item m : ok m -> len (encode m) = size m.
Proof.
  intros (? & ? & ? & ? & ? & [Hc ?] & _). unfold encode, size. rewrite len_strings. unfold encode_string, string_size.
  rewrite !len_app, !len_le_bytes, (len_concat _ 4) by (eapply Forall_impl; [exact Hc | intros; by rewrite len_le_bytes]).
  unfold variable_size. lia.
Qed.

Lemma keeps_items {A} limit (item : R -> A * R) `{!WindowLaws R} : keeps item -> keeps (read_items limit item).
Proof. intros. apply keeps_bind; [exact (read_size_hidden limit) | intros; by apply keeps_list]. Qed.

Lemma keeps_alert `{!WindowLaws R} : keeps (R := R) deserialize.
Proof.
  unfold deserialize.
  repeat first [assumption | exact read_4_hidden | exact read_8_hidden | exact (read_string_hidden _) | apply keeps_items | apply keeps_ret | apply keeps_bind; [| intros ?]].
Qed.
End codec.
End alert_item.

Module alert.
Record t := mk { payload : alert_item.t; signature : bytes }.

Section codec.
Context `{VariableSize, ChainLimits} {R W : Type} `{!ByteReader R, !ReaderWindow R, !ByteWriter W}.

Local Open Scope reader_scope.

Definition version_minimum : Z := minimum_protocol.

Definition size (m : t) : Z :=
  variable_size (alert_item.size (payload m)) + alert_item.size (payload m) +
  variable_size (len (signature m)) + len (signature m).

(** The limit of the source is relative to its position. *)
Definition deserialize (version : Z) : R -> t * R :=
  require (supported version_minimum version) ;;
  limit <- read_size max_block_size ;;
  item <- limited limit alert_item.deserialize ;;
  signature <- read_chunk max_block_size ;;
  ret (mk item signature).

Definition serialize (m : t) (w : W) : W :=
  let w := write_variable (alert_item.size (payload m)) w in
  let w := alert_item.serialize (payload m) w in
  let w := write_variable (len (signature m)) w in
  write_bytes (signature m) w.

Definition ok (m : t) : Prop :=
  alert_item.ok (payload m) /\ alert_item.size (payload m) <= max_block_size /\ u64 (alert_item.size (payload m)) /\
  bytes_ok (signature m) /\ len (signature m) <= max_block_size /\ len (signature m) < 2 ^ 64.

Context `{!ReaderLaws R, !WindowLaws R, !WriterLaws W}.

Definition encode (m : t) : bytes :=
  variable (alert_item.size (payload m)) ++ alert_item.encode (payload m) ++ variable (len (signature m)) ++ signature m.

(** A source that is limited already does not read it. *)
Lemma alert_reads version m r k : supported version_minimum version = true -> ok m -> presents r (encode m ++ k) -> hidden r = [] ->
  exists r', deserialize version r = (m, r') /\ presents r' k.
Proof.
  intros Hv (Hi & Hz & Hu & Hb & Hl & Hs) Hr Hh. unfold deserialize, bind. rewrite Hv. unfold encode in Hr. rewrite <- !app_assoc in Hr. cbn [require].
  destruct (read_size_law max_block_size (alert_item.size (payload m)) Hu Hz r _ Hr) as (r1 & Hr1 & Hp1).
  pose proof (read_size_hidden max_block_size r) as Hh1. rewrite Hr1 in *. cbn [snd] in Hh1.
  rewrite <- (alert_item.len_alert_item (payload m) Hi).
  destruct (reads_limited _ _ _ r1 _ (alert_item.reads_alert (payload m) Hi) alert_item.keeps_alert Hp1) as (r2 & -> & Hp2 & _); [by rewrite Hh1 |].
  rewrite (app_assoc _ (signature m)) in Hp2. destruct (reads_read_chunk max_block_size (signature m) Hb Hs Hl r2 k Hp2) as (r3 & -> & Hp3).
  exists r3. by destruct m.
Qed.

Lemma alert_writes m : ok m -> writes (W := W) (serialize m) (encode m).
Proof.
  intros (Hi & Hz & Hu & Hb & Hl & Hs) w. pose proof (len_nonneg (signature m)). unfold serialize, encode.
  rewrite write_bytes_law, write_variable_law, alert_item.writes_alert, write_variable_law by (done || width). by rewrite <- !app_assoc.
Qed.

Lemma alert_len m : ok m -> len (encode m) = size m.
Proof.
  intros (Hi & _). unfold encode, size, variable_size. rewrite !len_app, alert_item.len_alert_item by done. lia.
Qed.
End codec.
End alert.

(** ** address and address_v2: lists of entries *)

Module address.
Import PeerAddress.address_item.
Record t := mk { addresses : list address_item }.

Section codec.
Context `{VariableSize, IpPrefix} {R W : Type} `{!ByteReader R, !ByteWriter W}.

Local Open Scope reader_scope.

Definition version_minimum : Z := minimum_protocol.

Definition with_timestamp (version : Z) : bool := version >=? address_timestamp.

Definition size (version : Z) (m : t) : Z :=
  variable_size (len (addresses m)) +
  len (addresses m) * address_item.size (with_timestamp version).

Definition deserialize (version : Z) : R -> t * R :=
  require (supported version_minimum version) ;;
  addresses <- read_items max_address (address_item.deserialize (with_timestamp version)) ;;
  ret (mk addresses).

Definition serialize (version : Z) (m : t) (w : W) : W :=
  write_items (address_item.serialize (with_timestamp version)) (addresses m) w.

(** The entries that v1 conveys as they are. *)
Definition v1_item (i : address_item) : Prop :=
  item_ok i /\ canonical (address i) /\ is_v1 (address i) = true /\
  is_torv2_ip (to_ip_address (address i)) = false.

Definition ok (version : Z) (m : t) : Prop :=
  Forall v1_item (addresses m) /\ len (addresses m) <= max_address.

Context `{!ReaderLaws R, !WriterLaws W}.

Lemma conveyed_v1 a : canonical a -> is_v1 a = true -> conveyed a = a.
Proof.
  intros [_ Hc] Hv. unfold conveyed. destruct a as [| v | v | | | |]; try done.
  - destruct Hc as [Hv4 Hd]. change (to_ip_address (ipv4_t v)) with v.
    unfold to_address. by rewrite Hd, Hv4.
  - destruct Hc as (Hv4 & Htor & Hd). change (to_ip_address (ipv6_t v)) with v.
    unfold to_address. by rewrite Hd, Hv4, Htor.
Qed.

Lemma address_item_reads i : v1_item i ->
  reads (R := R) (address_item.deserialize true) (encode_v1 true i) i.
Proof.
  intros (Hi & Hc & Hv & Ht). pose proof (deserialize_law true i Hi (proj1 Hc) Ht) as Hr.
  rewrite conveyed_v1 in Hr by done. by destruct i.
Qed.

(** Every supported version has the timestamp. *)
Lemma supported_timestamp version : supported version_minimum version = true ->
  with_timestamp version = true.
Proof.
  unfold supported, with_timestamp, version_minimum, minimum_protocol. intros Hv.
  apply negb_true_iff, orb_false_iff in Hv as [Hv _]. lia.
Qed.

Lemma address_law version m : supported version_minimum version = true -> ok version m ->
  codec_of (serialize version) (deserialize version) (size version) m.
Proof.
  intros Hv [Hi Hl]. unfold max_address in Hl. destruct m as [l]; simpl in *.
  exists (variable (len l) ++ concat (map (encode_v1 true) l)).
  unfold serialize, deserialize, size. rewrite (supported_timestamp version Hv). simpl.
  assert (len l < 2 ^ 64) by lia. split_and!.
  - apply writes_write_items; [done |]. eapply Forall_impl; [exact Hi |].
    intros i (? & _). by apply serialize_law.
  - apply reads_supported; [done |]. eapply reads_done; [| apply reads_ret].
    apply reads_read_items; [done | done |]. eapply Forall_impl; [exact Hi |]. apply address_item_reads.
  - rewrite len_app, (len_concat _ (address_item.size true)); [done |].
    eapply Forall_impl; [exact Hi |]. intros i (_ & [Hz _] & _). by apply len_encode_v1.
Qed.
End codec.
End address.

Module address_v2.
Import PeerAddress.address_item.
Record t := mk { addresses : list address_item }.

Section codec.
Context `{VariableSize, IpPrefix} {R W : Type} `{!ByteReader R, !ByteWriter W}.

Local Open Scope reader_scope.

Definition version_minimum : Z := bip155.

Definition size (m : t) : Z :=
  fold_left (fun size net => size + size_v2 net) (addresses m)
    (variable_size (len (addresses m))).

Definition deserialize (version : Z) : R -> t * R :=
  require (supported version_minimum version) ;;
  addresses <- read_items max_address deserialize_v2 ;;
  ret (mk addresses).

Definition serialize (m : t) (w : W) : W := write_items serialize_v2 (addresses m) w.

Definition ok (m : t) : Prop :=
  Forall (fun i => item_ok i /\ canonical (address i)) (addresses m) /\
  len (addresses m) <= max_address.

Context `{!ReaderLaws R, !WriterLaws W}.

Lemma size_fold l acc : Forall (fun i => item_ok i /\ canonical (address i)) l ->
  fold_left (fun size net => size + size_v2 net) l acc = acc + len (concat (map encode_v2 l)).
Proof.
  intros Hl. revert acc. induction Hl as [| i l [_ Hc] Hl IH]; intros acc;
    cbn [fold_left map concat].
  - rewrite len_nil. lia.
  - rewrite IH, len_app, len_encode_v2 by done. lia.
Qed.

Lemma address_v2_law version m : supported version_minimum version = true -> ok m ->
  codec_of serialize (deserialize version) size m.
Proof.
  intros Hv [Hi Hl]. unfold max_address in Hl. destruct m as [l]; simpl in *.
  exists (variable (len l) ++ concat (map encode_v2 l)).
  unfold serialize, deserialize, size. simpl. assert (len l < 2 ^ 64) by lia. split_and!.
  - apply writes_write_items; [done |]. eapply Forall_impl; [exact Hi |].
    intros i (? & _). by apply serialize_v2_law.
  - apply reads_supported; [done |]. eapply reads_done; [| apply reads_ret].
    apply reads_read_items; [done | done |]. eapply Forall_impl; [exact Hi |].
    intros i [? ?]. by apply deserialize_v2_law.
  - rewrite size_fold, len_app by done. done.
Qed.
End codec.
End address_v2.

(** ** version *)

Module version.
Import PeerAddress.address_item.
Record t := mk {
  value : Z;
  services : Z;
  timestamp : Z;
  address_receiver : address_item;
  address_sender : address_item;
  nonce : Z;
  user_agent : bytes;
  start_height : Z;
  relay : bool
}.

Section codec.
Context `{VariableSize, IpPrefix} {R W : Type} `{!ByteReader R, !ByteWriter W}.

Local Open Scope reader_scope.

Definition max_user_agent : Z := max_uint8.

(** The relay byte is optional: it is read if the peer's version has it and
    the source is not exhausted, and is otherwise true. *)
Definition read_relay (value : Z) : R -> bool * R := fun r =>
  if (value <? bip37) || is_exhausted r then (true, r)
  else let '(byte, r) := read_byte r in (negb (byte =? 0), r).

Definition deserialize : R -> t * R :=
  value <- read_4_bytes_little_endian ;;
  services <- read_8_bytes_little_endian ;;
  timestamp <- read_8_bytes_little_endian ;;
  receiver <- address_item.deserialize false ;;
  sender <- address_item.deserialize false ;;
  nonce <- read_8_bytes_little_endian ;;
  user_agent <- read_string max_user_agent ;;
  start_height <- read_4_bytes_little_endian ;;
  relay <- read_relay value ;;
  ret (mk value services timestamp receiver sender nonce user_agent start_height relay).

Definition write_relay (m : t) (w : W) : W :=
  if value m >=? bip37 then write_byte (if relay m then 1 else 0) w else w.

Definition serialize (m : t) (w : W) : W :=
  let w := write_4_bytes_little_endian (value m) w in
  let w := write_8_bytes_little_endian (services m) w in
  let w := write_8_bytes_little_endian (timestamp m) w in
  let w := address_item.serialize false (address_receiver m) w in
  let w := address_item.serialize false (address_sender m) w in
  let w := write_8_bytes_little_endian (nonce m) w in
  let w := write_string (user_agent m) w in
  let w := write_4_bytes_little_endian (start_height m) w in
  write_relay m w.

Definition version_minimum : Z := minimum_protocol.

(** The size is that of a peer of the given version. *)
Definition size (version : Z) (m : t) : Z :=
  4 + 8 + 8 + address_item.size false + address_item.size false + 8 +
  variable_size (len (user_agent m)) + len (user_agent m) + 4 +
  (if version <? bip37 then 0 else 1).

(** Addresses of version messages carry no timestamp. *)
Definition peer_item (i : address_item) : Prop := address.v1_item i /\ address_item.timestamp i = 0.

Definition ok (m : t) : Prop :=
  u32 (value m) /\ u64 (services m) /\ u64 (timestamp m) /\
  peer_item (address_receiver m) /\ peer_item (address_sender m) /\ u64 (nonce m) /\
  bytes_ok (user_agent m) /\ len (user_agent m) <= max_user_agent /\ u32 (start_height m) /\
  (value m < bip37 -> relay m = true).

Context `{!ReaderLaws R, !WriterLaws W}.

Lemma version_item_reads i : peer_item i -> reads (R := R) (address_item.deserialize false) (encode_v1 false i) i.
Proof.
  intros [(Hi & Hc & Hv & Ht) Hz]. pose proof (deserialize_law false i Hi (proj1 Hc) Ht) as Hr.
  rewrite address.conveyed_v1 in Hr by done. destruct i. simpl in *. by subst.
Qed.

Definition encode_relay (m : t) : bytes :=
  if value m >=? bip37 then [if relay m then 1 else 0] else [].

Definition encode (m : t) : bytes :=
  le_bytes 4 (value m) ++ le_bytes 8 (services m) ++ le_bytes 8 (timestamp m) ++
  encode_v1 false (address_receiver m) ++ encode_v1 false (address_sender m) ++
  le_bytes 8 (nonce m) ++ (variable (len (user_agent m)) ++ user_agent m) ++
  le_bytes 4 (start_height m) ++ encode_relay m.

Lemma read_relay_law m : (value m < bip37 -> relay m = true) ->
  reads (read_relay (value m)) (encode_relay m) (relay m).
Proof.
  intros Hr r k Hp. unfold read_relay, encode_relay in *.
  destruct (value m <? bip37) eqn:Hv; destruct (value m >=? bip37) eqn:Hv'; try lia.
  - rewrite Hr by lia. by exists r.
  - rewrite (is_exhausted_law r _ Hp). rewrite bool_decide_false by done. simpl.
    destruct (read_byte_law _ (u8_bool (relay m)) r k Hp) as (r' & -> & Hp').
    exists r'. split; [by destruct (relay m) | done].
Qed.

(** The peer may omit the relay byte, if nothing follows. *)
Lemma read_relay_omitted v r : presents r [] -> read_relay v r = (true, r).
Proof.
  intros Hp. unfold read_relay. rewrite (is_exhausted_law r [] Hp).
  by rewrite bool_decide_true, orb_true_r.
Qed.

Lemma version_law version m : ok m -> (version <? bip37) = (value m <? bip37) ->
  codec_of serialize deserialize (size version) m.
Proof.
  intros (Hv & Hs & Ht & Hrc & Hsn & Hn & Hu & Hl & Hh & Hr) Hver.
  unfold max_user_agent, max_uint8 in Hl. assert (len (user_agent m) < 2 ^ 64) by lia.
  exists (encode m). split_and!.
  - intros w. unfold serialize, write_relay, encode, encode_relay.
    assert (item_ok (address_receiver m)) by (by destruct Hrc as [[? _] _]).
    assert (item_ok (address_sender m)) by (by destruct Hsn as [[? _] _]).
    pose proof (u8_bool (relay m)).
    destruct (value m >=? bip37); rewrite ?write_byte_law, write_4_law, write_string_law, write_8_law,
      !serialize_law, !write_8_law, write_4_law by done; rewrite <- ?app_assoc, ?app_nil_r; done.
  - unfold deserialize, encode. do 3 codec_step.
    do 2 (eapply reads_bind; [by apply version_item_reads |]). codec_step.
    eapply reads_bind; [by apply read_string_law |]. codec_step.
    eapply reads_done; [by apply read_relay_law |]. destruct m. apply reads_ret.
  - unfold encode, size, encode_relay. rewrite Hver.
    assert (forall i, peer_item i -> len (encode_v1 false i) = address_item.size false) as Hi.
    { intros i [(_ & [Hz _] & _) _]. by apply len_encode_v1. }
    rewrite !len_app, !len_le_bytes, !Hi by done. unfold variable_size.
    destruct (value m >=? bip37) eqn:?, (value m <? bip37) eqn:?; try lia;
      rewrite ?len_nil; change (len [_]) with 1; lia.
Qed.
End codec.
End version.

(** ** heading *)

Module heading.
Record t := mk { magic : Z; command : bytes; payload_size : Z; checksum : Z }.

Section codec.
Context `{VariableSize} {R W : Type} `{!ByteReader R, !ByteWriter W}.

Local Open Scope reader_scope.

Definition size : Z := 4 + heading_command_size + 4 + 4.

(** The first four bytes of the hash. *)
Definition network_checksum (hash : bytes) : Z := le_value (ztake 4 hash).

Definition init : t := mk 0 [] 0 0.

Definition factory (magic : Z) (command : bytes) (payload_size : Z) (payload_hash : bytes) : t :=
  if payload_size >? 2 ^ 32 - 1 then init else
  mk magic command (narrow 32 payload_size) (network_checksum payload_hash).

Definition deserialize : R -> t * R :=
  magic <- read_4_bytes_little_endian ;;
  command <- read_string_buffer heading_command_size ;;
  payload_size <- read_4_bytes_little_endian ;;
  checksum <- read_4_bytes_little_endian ;;
  ret (mk magic command payload_size checksum).

Definition serialize (m : t) (w : W) : W :=
  let w := write_4_bytes_little_endian (magic m) w in
  let w := write_string_buffer (command m) heading_command_size w in
  let w := write_4_bytes_little_endian (payload_size m) w in
  write_4_bytes_little_endian (checksum m) w.

Definition ok (m : t) : Prop :=
  u32 (magic m) /\ bytes_ok (command m) /\ len (command m) <= heading_command_size /\
  ~ (0 ∈ command m) /\ u32 (payload_size m) /\ u32 (checksum m).

(** The bytes of a heading. *)
Definition encode (m : t) : bytes :=
  le_bytes 4 (magic m) ++
  (command m ++ replicate (Z.to_nat (heading_command_size - len (command m))) 0) ++
  le_bytes 4 (payload_size m) ++ le_bytes 4 (checksum m).

Context `{!ReaderLaws R, !WriterLaws W}.

Lemma heading_serialize_law m : ok m -> writes (serialize m) (encode m).
Proof.
  intros (? & ? & ? & ? & ? & ?) w. unfold serialize, encode. write_steps. done.
Qed.

Lemma heading_deserialize_law m : ok m -> reads deserialize (encode m) m.
Proof.
  intros (? & ? & ? & ? & ? & ?). unfold deserialize, encode. codec_step.
  eapply reads_bind; [by apply read_string_buffer_law |]. repeat codec_step.
  destruct m. apply reads_ret.
Qed.

Lemma len_encode m : ok m -> len (encode m) = size.
Proof.
  intros (? & ? & ? & ? & ? & ?). unfold encode, size, heading_command_size in *.
  rewrite !len_app, !len_le_bytes, len_replicate. lia.
Qed.

Lemma heading_law m : ok m -> codec_of serialize deserialize (fun _ => size) m.
Proof.
  intros Hm. exists (encode m).
  split_and!; [by apply heading_serialize_law | by apply heading_deserialize_law | by apply len_encode].
Qed.

Lemma network_checksum_u32 hash : bytes_ok hash -> len hash = 32 -> u32 (network_checksum hash).
Proof.
  intros Hh Hl. unfold network_checksum, le_value.
  assert (len (rev (ztake 4 hash)) = 4) as Hn.
  { unfold len. rewrite length_rev. fold (len (ztake 4 hash)). rewrite len_ztake; lia. }
  pose proof (be_value_bound (rev (ztake 4 hash))) as Hb. rewrite Hn in Hb.
  assert (bytes_ok (rev (ztake 4 hash))) as Hr; [| specialize (Hb Hr); width].
  apply Forall_rev. auto with net.
Qed.
End codec.
End heading.

(** ** Messages of every class *)

Inductive kind :=
  | pong_kind
  | fee_filter_kind
  | send_transaction_reconciliation_kind
  | get_client_filter_checkpoint_kind
  | get_client_filter_headers_kind
  | get_client_filters_kind
  | client_filter_kind
  | client_filter_headers_kind
  | client_filter_checkpoint_kind
  | bloom_filter_add_kind
  | bloom_filter_clear_kind
  | get_address_kind
  | memory_pool_kind
  | send_headers_kind
  | send_address_v2_kind
  | version_acknowledge_kind
  | witness_tx_id_relay_kind
  | ping_kind
  | send_compact_kind
  | bloom_filter_load_kind
  | inventory_kind
  | get_data_kind
  | not_found_kind
  | get_blocks_kind
  | get_headers_kind
  | address_kind
  | address_v2_kind
  | version_kind
  | get_compact_transactions_kind
  | reject_kind
  | alert_kind.

Inductive message :=
  | pong_message (m : pong.t)
  | fee_filter_message (m : fee_filter.t)
  | send_transaction_reconciliation_message (m : send_transaction_reconciliation.t)
  | get_client_filter_checkpoint_message (m : get_client_filter_checkpoint.t)
  | get_client_filter_headers_message (m : get_client_filter_headers.t)
  | get_client_filters_message (m : get_client_filters.t)
  | client_filter_message (m : client_filter.t)
  | client_filter_headers_message (m : client_filter_headers.t)
  | client_filter_checkpoint_message (m : client_filter_checkpoint.t)
  | bloom_filter_add_message (m : bloom_filter_add.t)
  | bloom_filter_clear_message (m : bloom_filter_clear.t)
  | get_address_message (m : get_address.t)
  | memory_pool_message (m : memory_pool.t)
  | send_headers_message (m : send_headers.t)
  | send_address_v2_message (m : send_address_v2.t)
  | version_acknowledge_message (m : version_acknowledge.t)
  | witness_tx_id_relay_message (m : witness_tx_id_relay.t)
  | ping_message (m : ping.t)
  | send_compact_message (m : send_compact.t)
  | bloom_filter_load_message (m : bloom_filter_load.t)
  | inventory_message (m : inventory.t)
  | get_data_message (m : get_data.t)
  | not_found_message (m : not_found.t)
  | get_blocks_message (m : get_blocks.t)
  | get_headers_message (m : get_headers.t)
  | address_message (m : address.t)
  | address_v2_message (m : address_v2.t)
  | version_message (m : version.t)
  | get_compact_transactions_message (m : get_compact_transactions.t)
  | reject_message (m : reject.t)
  | alert_message (m : alert.t).

Definition kind_of (m : message) : kind :=
  match m with
  | pong_message _ => pong_kind
  | fee_filter_message _ => fee_filter_kind
  | send_transaction_reconciliation_message _ => send_transaction_reconciliation_kind
  | get_client_filter_checkpoint_message _ => get_client_filter_checkpoint_kind
  | get_client_filter_headers_message _ => get_client_filter_headers_kind
  | get_client_filters_message _ => get_client_filters_kind
  | client_filter_message _ => client_filter_kind
  | client_filter_headers_message _ => client_filter_headers_kind
  | client_filter_checkpoint_message _ => client_filter_checkpoint_kind
  | bloom_filter_add_message _ => bloom_filter_add_kind
  | bloom_filter_clear_message _ => bloom_filter_clear_kind
  | get_address_message _ => get_address_kind
  | memory_pool_message _ => memory_pool_kind
  | send_headers_message _ => send_headers_kind
  | send_address_v2_message _ => send_address_v2_kind
  | version_acknowledge_message _ => version_acknowledge_kind
  | witness_tx_id_relay_message _ => witness_tx_id_relay_kind
  | ping_message _ => ping_kind
  | send_compact_message _ => send_compact_kind
  | bloom_filter_load_message _ => bloom_filter_load_kind
  | inventory_message _ => inventory_kind
  | get_data_message _ => get_data_kind
  | not_found_message _ => not_found_kind
  | get_blocks_message _ => get_blocks_kind
  | get_headers_message _ => get_headers_kind
  | address_message _ => address_kind
  | address_v2_message _ => address_v2_kind
  | version_message _ => version_kind
  | get_compact_transactions_message _ => get_compact_transactions_kind
  | reject_message _ => reject_kind
  | alert_message _ => alert_kind
  end.

(** The least version that a class declares. *)
Definition version_minimum (k : kind) : Z :=
  match k with
  | pong_kind => pong.version_minimum
  | fee_filter_kind => fee_filter.version_minimum
  | send_transaction_reconciliation_kind => send_transaction_reconciliation.version_minimum
  | get_client_filter_checkpoint_kind => get_client_filter_checkpoint.version_minimum
  | get_client_filter_headers_kind => get_client_filter_headers.version_minimum
  | get_client_filters_kind => get_client_filters.version_minimum
  | client_filter_kind => client_filter.version_minimum
  | client_filter_headers_kind => client_filter_headers.version_minimum
  | client_filter_checkpoint_kind => client_filter_checkpoint.version_minimum
  | bloom_filter_add_kind => bloom_filter_add.version_minimum
  | bloom_filter_clear_kind => bloom_filter_clear.version_minimum
  | get_address_kind => get_address.version_minimum
  | memory_pool_kind => memory_pool.version_minimum
  | send_headers_kind => send_headers.version_minimum
  | send_address_v2_kind => send_address_v2.version_minimum
  | version_acknowledge_kind => version_acknowledge.version_minimum
  | witness_tx_id_relay_kind => witness_tx_id_relay.version_minimum
  | ping_kind => ping.version_minimum
  | send_compact_kind => send_compact.version_minimum
  | bloom_filter_load_kind => bloom_filter_load.version_minimum
  | inventory_kind => inventory.version_minimum
  | get_data_kind => get_data.version_minimum
  | not_found_kind => not_found.version_minimum
  | get_blocks_kind => get_blocks.version_minimum
  | get_headers_kind => get_headers.version_minimum
  | address_kind => address.version_minimum
  | address_v2_kind => address_v2.version_minimum
  | version_kind => version.version_minimum
  | get_compact_transactions_kind => get_compact_transactions.version_minimum
  | reject_kind => reject.version_minimum
  | alert_kind => alert.version_minimum
  end.

Definition is_supported (k : kind) (version : Z) : bool := supported (version_minimum k) version.

(** Whether [deserialize] of the class tests the version: a version message, and
    a reject message, is read whatever it is. *)
Definition tests_version (k : kind) : bool :=
  match k with
  | version_kind | reject_kind => false
  | _ => true
  end.

Section messages.
Context `{VariableSize, IpPrefix, ChainLimits} {R W : Type} `{!ByteReader R, !ReaderWindow R, !ByteWriter W}.

(** The result of a read, as a message. *)
Definition as_message {M} (f : M -> message) (op : R -> M * R) : R -> message * R :=
  fun r => let '(m, r) := op r in (f m, r).

Definition deserialize_message (k : kind) (version : Z) : R -> message * R :=
  match k with
  | pong_kind => as_message pong_message (pong.deserialize version)
  | fee_filter_kind => as_message fee_filter_message (fee_filter.deserialize version)
  | send_transaction_reconciliation_kind => as_message send_transaction_reconciliation_message (send_transaction_reconciliation.deserialize version)
  | get_client_filter_checkpoint_kind => as_message get_client_filter_checkpoint_message (get_client_filter_checkpoint.deserialize version)
  | get_client_filter_headers_kind => as_message get_client_filter_headers_message (get_client_filter_headers.deserialize version)
  | get_client_filters_kind => as_message get_client_filters_message (get_client_filters.deserialize version)
  | client_filter_kind => as_message client_filter_message (client_filter.deserialize version)
  | client_filter_headers_kind => as_message client_filter_headers_message (client_filter_headers.deserialize version)
  | client_filter_checkpoint_kind => as_message client_filter_checkpoint_message (client_filter_checkpoint.deserialize version)
  | bloom_filter_add_kind => as_message bloom_filter_add_message (bloom_filter_add.deserialize version)
  | bloom_filter_clear_kind => as_message bloom_filter_clear_message (bloom_filter_clear.deserialize version)
  | get_address_kind => as_message get_address_message (get_address.deserialize version)
  | memory_pool_kind => as_message memory_pool_message (memory_pool.deserialize version)
  | send_headers_kind => as_message send_headers_message (send_headers.deserialize version)
  | send_address_v2_kind => as_message send_address_v2_message (send_address_v2.deserialize version)
  | version_acknowledge_kind => as_message version_acknowledge_message (version_acknowledge.deserialize version)
  | witness_tx_id_relay_kind => as_message witness_tx_id_relay_message (witness_tx_id_relay.deserialize version)
  | ping_kind => as_message ping_message (ping.deserialize version)
  | send_compact_kind => as_message send_compact_message (send_compact.deserialize version)
  | bloom_filter_load_kind => as_message bloom_filter_load_message (bloom_filter_load.deserialize version)
  | inventory_kind => as_message inventory_message (inventory.deserialize version)
  | get_data_kind => as_message get_data_message (get_data.deserialize version)
  | not_found_kind => as_message not_found_message (not_found.deserialize version)
  | get_blocks_kind => as_message get_blocks_message (get_blocks.deserialize version)
  | get_headers_kind => as_message get_headers_message (get_headers.deserialize version)
  | address_kind => as_message address_message (address.deserialize version)
  | address_v2_kind => as_message address_v2_message (address_v2.deserialize version)
  | version_kind => as_message version_message version.deserialize
  | get_compact_transactions_kind => as_message get_compact_transactions_message (get_compact_transactions.deserialize version)
  | reject_kind => as_message reject_message (reject.deserialize version)
  | alert_kind => as_message alert_message (alert.deserialize version)
  end.

Definition serialize_message (version : Z) (m : message) : W -> W :=
  match m with
  | pong_message m => pong.serialize m
  | fee_filter_message m => fee_filter.serialize m
  | send_transaction_reconciliation_message m => send_transaction_reconciliation.serialize m
  | get_client_filter_checkpoint_message m => get_client_filter_checkpoint.serialize m
  | get_client_filter_headers_message m => get_client_filter_headers.serialize m
  | get_client_filters_message m => get_client_filters.serialize m
  | client_filter_message m => client_filter.serialize m
  | client_filter_headers_message m => client_filter_headers.serialize m
  | client_filter_checkpoint_message m => client_filter_checkpoint.serialize m
  | bloom_filter_add_message m => bloom_filter_add.serialize m
  | bloom_filter_clear_message m => bloom_filter_clear.serialize m
  | get_address_message m => get_address.serialize m
  | memory_pool_message m => memory_pool.serialize m
  | send_headers_message m => send_headers.serialize m
  | send_address_v2_message m => send_address_v2.serialize m
  | version_acknowledge_message m => version_acknowledge.serialize m
  | witness_tx_id_relay_message m => witness_tx_id_relay.serialize m
  | ping_message m => ping.serialize version m
  | send_compact_message m => send_compact.serialize m
  | bloom_filter_load_message m => bloom_filter_load.serialize m
  | inventory_message m => inventory.serialize m
  | get_data_message m => get_data.serialize m
  | not_found_message m => not_found.serialize m
  | get_blocks_message m => get_blocks.serialize version m
  | get_headers_message m => get_headers.serialize version m
  | address_message m => address.serialize version m
  | address_v2_message m => address_v2.serialize m
  | version_message m => version.serialize m
  | get_compact_transactions_message m => get_compact_transactions.serialize m
  | reject_message m => reject.serialize m
  | alert_message m => alert.serialize m
  end.

Definition size_message (version : Z) (m : message) : Z :=
  match m with
  | pong_message m => pong.size m
  | fee_filter_message m => fee_filter.size m
  | send_transaction_reconciliation_message m => send_transaction_reconciliation.size m
  | get_client_filter_checkpoint_message m => get_client_filter_checkpoint.size m
  | get_client_filter_headers_message m => get_client_filter_headers.size m
  | get_client_filters_message m => get_client_filters.size m
  | client_filter_message m => client_filter.size m
  | client_filter_headers_message m => client_filter_headers.size m
  | client_filter_checkpoint_message m => client_filter_checkpoint.size m
  | bloom_filter_add_message m => bloom_filter_add.size m
  | bloom_filter_clear_message m => bloom_filter_clear.size m
  | get_address_message m => get_address.size m
  | memory_pool_message m => memory_pool.size m
  | send_headers_message m => send_headers.size m
  | send_address_v2_message m => send_address_v2.size m
  | version_acknowledge_message m => version_acknowledge.size m
  | witness_tx_id_relay_message m => witness_tx_id_relay.size m
  | ping_message _ => ping.size version
  | send_compact_message m => send_compact.size m
  | bloom_filter_load_message m => bloom_filter_load.size m
  | inventory_message m => inventory.size m
  | get_data_message m => get_data.size m
  | not_found_message m => not_found.size m
  | get_blocks_message m => get_blocks.size m
  | get_headers_message m => get_headers.size m
  | address_message m => address.size version m
  | address_v2_message m => address_v2.size m
  | version_message m => version.size version m
  | get_compact_transactions_message m => get_compact_transactions.size m
  | reject_message m => reject.size m
  | alert_message m => alert.size m
  end.

(** The fields of a message are within their widths and limits. *)
Definition message_ok (version : Z) (m : message) : Prop :=
  match m with
  | pong_message m => pong.ok m
  | fee_filter_message m => fee_filter.ok m
  | send_transaction_reconciliation_message m => send_transaction_reconciliation.ok m
  | get_client_filter_checkpoint_message m => get_client_filter_checkpoint.ok m
  | get_client_filter_headers_message m => get_client_filter_headers.ok m
  | get_client_filters_message m => get_client_filters.ok m
  | client_filter_message m => client_filter.ok m
  | client_filter_headers_message m => client_filter_headers.ok m
  | client_filter_checkpoint_message m => client_filter_checkpoint.ok m
  | bloom_filter_add_message m => bloom_filter_add.ok m
  | bloom_filter_clear_message m => bloom_filter_clear.ok m
  | get_address_message m => get_address.ok m
  | memory_pool_message m => memory_pool.ok m
  | send_headers_message m => send_headers.ok m
  | send_address_v2_message m => send_address_v2.ok m
  | version_acknowledge_message m => version_acknowledge.ok m
  | witness_tx_id_relay_message m => witness_tx_id_relay.ok m
  | ping_message m => ping.ok version m
  | send_compact_message m => send_compact.ok m
  | bloom_filter_load_message m => bloom_filter_load.ok m
  | inventory_message m => inventory.ok m
  | get_data_message m => get_data.ok m
  | not_found_message m => not_found.ok m
  | get_blocks_message m => get_blocks.ok m
  | get_headers_message m => get_headers.ok m
  | address_message m => address.ok version m
  | address_v2_message m => address_v2.ok m
  | version_message m => version.ok m /\ (version <? bip37) = (version.value m <? bip37)
  | get_compact_transactions_message m => get_compact_transactions.ok m
  | reject_message m => reject.ok m
  | alert_message m => alert.ok m
  end.

Context `{!ReaderLaws R, !WindowLaws R, !WriterLaws W}.

(** A faithful codec of whole messages. *)
Definition data_codec (version : Z) (m : message) : Prop :=
  exists l, writes (serialize_message version m) l /\
    deserialize_data (R := R) (deserialize_message (kind_of m) version) l = Some m /\ len l = size_message version m.

Lemma as_message_some {M} (f : M -> message) (op : R -> M * R) data m :
  deserialize_data op data = Some m -> deserialize_data (as_message f op) data = Some (f m).
Proof.
  unfold deserialize_data, as_message. destruct (op (open data)) as [m' r]. destruct (good r); [by intros [= ->] | done].
Qed.

Lemma codec_data {M} (ser : M -> W -> W) (deser : R -> M * R) size m : codec_of ser deser size m ->
  exists l, writes (ser m) l /\ deserialize_data deser l = Some m /\ len l = size m.
Proof.
  intros (l & Hw & Hr & Hl). exists l. split_and!; [done | | done]. unfold deserialize_data.
  destruct (Hr (open l) []) as (r' & -> & Hg & _); [rewrite app_nil_r; apply open_law |]. by rewrite Hg.
Qed.

(** What a class promises of its codec, as a message. *)
Lemma data_as_message {M} (f : M -> message) (ser : M -> W -> W) (deser : R -> M * R) size version m :
  serialize_message version (f m) = ser m -> deserialize_message (kind_of (f m)) version = as_message f deser ->
  size_message version (f m) = size m -> codec_of ser deser size m -> data_codec version (f m).
Proof.
  intros Hs Hd Hz Hc. destruct (codec_data ser deser size m Hc) as (l & Hw & Hr & Hl). exists l. rewrite Hs, Hd, Hz.
  split_and!; [done | by apply as_message_some | done].
Qed.

Lemma alert_data version m : supported alert.version_minimum version = true -> alert.ok m -> data_codec version (alert_message m).
Proof.
  intros Hv Hok. exists (alert.encode m). split_and!; [by apply alert.alert_writes | | by apply alert.alert_len].
  cbn [kind_of deserialize_message]. apply as_message_some. unfold deserialize_data.
  destruct (alert.alert_reads version m (open (alert.encode m)) [] Hv Hok) as (r' & -> & Hg & _);
    [rewrite app_nil_r; apply open_law | apply open_hidden |]. by rewrite Hg.
Qed.

Definition accepted (k : kind) (version : Z) : Prop := tests_version k = true -> is_supported k version = true.

Lemma message_law version m : accepted (kind_of m) version -> message_ok version m -> data_codec version m.
Proof.
  intros Hv Hok. unfold accepted, is_supported in Hv. destruct m; cbn [message_ok] in Hok; cbn [kind_of tests_version version_minimum] in Hv;
    try (specialize (Hv eq_refl)); 
    match goal with |- data_codec _ (alert_message _) => idtac | _ => eapply data_as_message; [done | reflexivity | reflexivity |] end.
  - by apply pong.pong_law.
  - by apply fee_filter.fee_filter_law.
  - by apply send_transaction_reconciliation.send_transaction_reconciliation_law.
  - by apply get_client_filter_checkpoint.get_client_filter_checkpoint_law.
  - by apply get_client_filter_headers.get_client_filter_headers_law.
  - by apply get_client_filters.get_client_filters_law.
  - by apply client_filter.client_filter_law.
  - by apply client_filter_headers.client_filter_headers_law.
  - by apply client_filter_checkpoint.client_filter_checkpoint_law.
  - by apply bloom_filter_add.bloom_filter_add_law.
  - by apply bloom_filter_clear.bloom_filter_clear_law.
  - by apply get_address.get_address_law.
  - by apply memory_pool.memory_pool_law.
  - by apply send_headers.send_headers_law.
  - by apply send_address_v2.send_address_v2_law.
  - by apply version_acknowledge.version_acknowledge_law.
  - by apply witness_tx_id_relay.witness_tx_id_relay_law.
  - by apply ping.ping_law.
  - by apply send_compact.send_compact_law.
  - by apply bloom_filter_load.bloom_filter_load_law.
  - by apply inventory.inventory_law.
  - by apply get_data.get_data_law.
  - by apply not_found.not_found_law.
  - by apply get_blocks.get_blocks_law.
  - by apply get_headers.get_headers_law.
  - by apply address.address_law.
  - by apply address_v2.address_v2_law.
  - destruct Hok. by apply version.version_law.
  - by apply get_compact_transactions.get_compact_transactions_law.
  - by apply reject.reject_law.
  - by apply alert_data.
Qed.

(** C29: every message of the peer protocol that carries no chain object, with
    its fields within their widths and within the limits of the reader
    ([message_ok]: for a version message, also its value and the negotiated
    version on the same side of bip37), serializes to exactly its declared size,
    and the bytes deserialize to the same message, at every version at which
    its class deserializes: all for the version and reject messages, which do
    not test it, and otherwise those that the class declares. *)
Theorem peer_message_roundtrip version m :
  (tests_version (kind_of m) = true -> is_supported (kind_of m) version = true) -> message_ok version m ->
  deserialize_data (R := R) (deserialize_message (kind_of m) version)
    (serialize_data (W := W) (serialize_message version m)) = Some m /\
  len (serialize_data (W := W) (serialize_message version m)) = size_message version m.
Proof.
  intros Hv Hok. destruct (message_law version m Hv Hok) as (l & Hw & Hr & Hl).
  unfold serialize_data. by rewrite Hw, create_law.
Qed.

(** ** Version guards *)

Lemma sticky_read_list {A} n (item : R -> A * R) : sticky item -> sticky (read_list n item).
Proof.
  intros Hi. induction n as [| n IH]; [apply sticky_ret |]. simpl.
  apply sticky_bind; [done |]. intros a. apply sticky_bind; [done | intros; apply sticky_ret].
Qed.

Lemma sticky_read_while {A} n (item : R -> A * R) : sticky item -> sticky (read_while n item).
Proof.
  intros Hi. induction n as [| n IH]; intros r; [done |]. simpl.
  destruct (good r) eqn:Hg; [done |]. by simpl; rewrite Hg.
Qed.

Lemma sticky_read_items {A} limit (item : R -> A * R) : sticky item -> sticky (read_items limit item).
Proof. intros. apply sticky_bind; [apply read_size_sticky | intros; by apply sticky_read_list]. Qed.

Lemma sticky_read_items_while {A} limit (item : R -> A * R) :
  sticky item -> sticky (read_items_while limit item).
Proof. intros. apply sticky_bind; [apply read_size_sticky | intros; by apply sticky_read_while]. Qed.

Lemma sticky_read_chunk limit : sticky (R := R) (read_chunk limit).
Proof. apply sticky_bind; [apply read_size_sticky | intros; apply read_bytes_sticky]. Qed.

Lemma sticky_skip n : sticky (R := R) (fun r => (tt, skip_bytes n r)).
Proof. intros r. apply skip_bytes_sticky. Qed.

(** A guarded message is not read at another version. *)
Lemma guard_refuses {M} (f : unit -> R -> M * R) data :
  sticky (f tt) -> deserialize_data (bind (require false) f) data = None.
Proof.
  intros Hs. unfold deserialize_data, bind. simpl.
  specialize (Hs (invalidate (open data))). rewrite invalidate_law in Hs.
  destruct (f tt (invalidate (open data))) as [m r]. simpl in Hs.
  destruct (good r); [by specialize (Hs eq_refl) | done].
Qed.

Lemma sticky_if {A} (b : bool) (f g : R -> A * R) : sticky f -> sticky g -> sticky (if b then f else g).
Proof. by destruct b. Qed.

Lemma sticky_fail : sticky (R := R) address_item.fail.
Proof. intros r. simpl. by rewrite invalidate_law. Qed.

Lemma sticky_skip_value {A} (v : A) n : sticky (R := R) (fun r => (v, skip_bytes n r)).
Proof. intros r. apply skip_bytes_sticky. Qed.

Ltac sticky_steps :=
  repeat first
    [ match goal with |- sticky (limited _ _) => apply sticky_limited end | apply sticky_ret | apply sticky_require | apply sticky_fail | apply sticky_skip_value
    | apply read_byte_sticky | apply read_bytes_sticky | apply read_hash_sticky
    | apply read_2_sticky | apply read_4_sticky | apply read_8_sticky
    | apply read_variable_sticky | apply read_size_sticky | apply read_string_sticky
    | apply read_string_buffer_sticky | apply sticky_read_chunk
    | apply sticky_read_items | apply sticky_read_items_while
    | apply sticky_if | apply sticky_bind; [| intros ?] ].

Lemma sticky_address t : sticky (R := R) (address_item.deserialize t).
Proof. unfold address_item.deserialize. sticky_steps. Qed.

Lemma sticky_address_v2 : sticky (R := R) address_item.deserialize_v2.
Proof.
  unfold address_item.deserialize_v2, address_item.read_address, address_item.read_address_of.
  sticky_steps.
Qed.

Lemma as_message_data {M} (f : M -> message) (op : R -> M * R) data :
  deserialize_data op data = None -> deserialize_data (as_message f op) data = None.
Proof.
  unfold deserialize_data, as_message. destruct (op (open data)) as [m r]. by destruct (good r).
Qed.

(** C40: no message of a class that tests the version is accepted at a protocol
    version that the class does not support, whatever its payload; the version
    and reject messages declare versions that are not tested, and are read alike
    at every version (as is the merkle block, which carries a chain object and
    is not modelled). *)
Theorem unsupported_version_refused k version data :
  if tests_version k
  then is_supported k version = false ->
    deserialize_data (R := R) (deserialize_message k version) data = None
  else forall other,
    deserialize_data (R := R) (deserialize_message k other) data =
    deserialize_data (R := R) (deserialize_message k version) data.
Proof.
  destruct (tests_version k) eqn:Ht; [| by destruct k].
  unfold is_supported. intros Hv. destruct k; try discriminate Ht; cbn [version_minimum] in Hv; cbn [deserialize_message]; apply as_message_data;
    unfold pong.deserialize, fee_filter.deserialize,
      send_transaction_reconciliation.deserialize,
      get_client_filter_checkpoint.deserialize, get_client_filter_headers.deserialize,
      get_client_filters.deserialize, client_filter.deserialize,
      client_filter_headers.deserialize, client_filter_checkpoint.deserialize,
      bloom_filter_add.deserialize, bloom_filter_clear.deserialize,
      get_address.deserialize, memory_pool.deserialize, send_headers.deserialize,
      send_address_v2.deserialize, version_acknowledge.deserialize,
      witness_tx_id_relay.deserialize, ping.deserialize, send_compact.deserialize,
      bloom_filter_load.deserialize, inventory.deserialize, get_data.deserialize,
      not_found.deserialize, get_blocks.deserialize, get_headers.deserialize,
      address.deserialize, address_v2.deserialize,
      get_compact_transactions.deserialize, alert.deserialize;
    rewrite Hv; apply guard_refuses; sticky_steps;
    auto using sticky_address, sticky_address_v2;
    try (unfold inventory_item.deserialize; sticky_steps);
    try (unfold alert_item.deserialize; sticky_steps);
    try (unfold bloom_filter_load.read_hash_functions; sticky_steps).
Qed.
End messages.

(** Instances for the witnesses: a mainnet address in a version message. *)
#[local] Program Instance rfc4291 : IpPrefix :=
  {| mapped_prefix := [0; 0; 0; 0; 0; 0; 0; 0; 0; 0; 255; 255] |}.
Next Obligation. done. Qed.
Next Obligation. apply is_bytes_ok. reflexivity. Qed.

#[local] Instance chain_limits : ChainLimits :=
  {| max_block_size := 1000000; max_block_weight := 4000000; min_transaction_size := 61 |}.

Definition example_peer : address_item.address_item :=
  address_item.mk 0 9
    (address_item.ipv4_t [0; 0; 0; 0; 0; 0; 0; 0; 0; 0; 255; 255; 1; 2; 3; 4]) 8333.

Definition example_version : message :=
  version_message (version.mk 70016 9 1700000000 example_peer example_peer 77
    [47; 98; 115; 47] 800000 false).

Lemma example_peer_ok : version.peer_item example_peer.
Proof.
  unfold version.peer_item, address.v1_item, address_item.item_ok.
  split_and!; try done; try (simpl; width); apply is_bytes_ok; reflexivity.
Qed.

(** An alert that cancels two others, with a signature. *)
Definition example_alert : message :=
  alert_message (alert.mk
    (alert_item.mk 1 1500000000 1600000000 1015 1013 [1011; 1012] 10000 61000 [chars "/a/"; chars "/b/"] 100 (chars "") (chars "update") (chars ""))
    [48; 70; 2; 33]).

Lemma example_alert_ok : message_ok 70016 example_alert.
Proof.
  unfold example_alert. cbn [message_ok]. unfold alert.ok. cbn [alert.payload alert.signature]. split_and!;
    [| vm_compute; discriminate | split; vm_compute; [discriminate | reflexivity] | apply is_bytes_ok; reflexivity | vm_compute; discriminate | vm_compute; reflexivity].
  assert (forall s, is_bytes s = true -> len s <= 50000 -> alert_item.string_ok s) as Hs by (intros s ? ?; split; [by apply is_bytes_ok | done]).
  unfold alert_item.ok. cbn [alert_item.version alert_item.relay_until alert_item.expiration alert_item.id alert_item.cancel alert_item.cancels
    alert_item.min_version alert_item.max_version alert_item.sub_versions alert_item.priority alert_item.comment alert_item.status_bar alert_item.reserved].
  split_and!; repeat (apply List.Forall_cons || apply List.Forall_nil); try width;
    lazymatch goal with |- alert_item.string_ok _ => apply Hs; (reflexivity || (vm_compute; discriminate)) | _ => vm_compute; discriminate end.
Qed.

Lemma peer_message_roundtrip_witness :
  (deserialize_data (R := cursor.t) (deserialize_message (kind_of example_version) 70016)
    (serialize_data (W := bytes) (serialize_message 70016 example_version)) = Some example_version /\
  len (serialize_data (W := bytes) (serialize_message 70016 example_version)) = size_message 70016 example_version) /\
  (deserialize_data (R := cursor.t) (deserialize_message (kind_of example_alert) 70016)
    (serialize_data (W := bytes) (serialize_message 70016 example_alert)) = Some example_alert /\
  len (serialize_data (W := bytes) (serialize_message 70016 example_alert)) = size_message 70016 example_alert).
Proof.
  split.
  - apply (peer_message_roundtrip (R := cursor.t) 70016 example_version); [done |].
    split; [| reflexivity]. unfold version.ok.
    split_and!; try exact example_peer_ok; try (simpl; width); try done; apply is_bytes_ok; reflexivity.
  - apply (peer_message_roundtrip (R := cursor.t) 70016 example_alert); [done | exact example_alert_ok].
Defined.

Lemma unsupported_version_refused_witness :
  deserialize_data (R := cursor.t) (deserialize_message address_v2_kind 70015) [0] = None /\
  deserialize_data (R := cursor.t) (deserialize_message reject_kind 31402) [0; 1; 0] =
  deserialize_data (R := cursor.t) (deserialize_message reject_kind 70002) [0; 1; 0].
Proof.
  split.
  - apply (unsupported_version_refused (R := cursor.t) address_v2_kind 70015 [0]). reflexivity.
  - apply (unsupported_version_refused (R := cursor.t) reject_kind 70002 [0; 1; 0]).
Defined.

(** A reject message of a transaction whose hash is not there. *)
Example reject_without_hash :
  deserialize_data (R := cursor.t) (deserialize_message reject_kind 70002) (2 :: chars "tx" ++ [65; 0]) =
  Some (reject_message (reject.mk (chars "tx") reject.dust [] null_hash)).
Proof. reflexivity. Qed.
