(* ===== verification/PeerBody.v ===== *)
(** * PeerBody: framed messages of the peer protocol

    Models [messages::peer::body::reader] ([src/messages/peer/body.cpp]), the
    framing of [messages::peer::serialize] ([messages/peer/message.hpp]) and the
    plain text reads of [src/net/socket_peer.cpp]: exact reads of a heading and
    of the payload it announces, from the retained detection prefix and then
    from the socket.  The hash is libbitcoin-system's, and the table of
    deserializers (the registry) is a parameter of the component. *)

From S2P Require Import Prelude.
From S2P Require Import TlsConstants.
From S2P Require Import Errors.
From S2P Require Import Stream.
From S2P Require Import PeerAddress.
From S2P Require Import PeerMessages.

(** The message digest. *)
Class BitcoinHash := {
  bitcoin_hash : bytes -> bytes;
  bitcoin_hash_ok d : bytes_ok (bitcoin_hash d) /\ len (bitcoin_hash d) = 32
}.

(** The registry: the index of a command, and the deserializer at an index. *)
Class Registry (Any : Type) := {
  registry_index : bytes -> Z;
  to_any : Z -> bytes -> Z -> bool -> option Any
}.

Module peer_body.

Section body.
Context `{VariableSize, BitcoinHash} {R W : Type} `{!ByteReader R, !ByteWriter W}.
Context {Any : Type} `{!Registry Any}.

(** The parse context, stamped by the channel, and the parse results. *)
Record value_type := mk_value {
  magic : Z;
  version : Z;
  witness : bool;
  checksum : bool;
  maximum : Z;
  fault : code;
  head : heading.t;
  payload : option Any
}.

Record t := mk { value_ : value_type; need_ : Z; headed_ : bool; done_ : bool }.

Definition set_value (v : value_type) (r : t) : t := mk v (need_ r) (headed_ r) (done_ r).

Definition with_fault (fault : code) (v : value_type) : value_type :=
  mk_value (magic v) (version v) (witness v) (checksum v) (maximum v) fault (head v) (payload v).
Definition with_head (h : heading.t) (v : value_type) : value_type :=
  mk_value (magic v) (version v) (witness v) (checksum v) (maximum v) (fault v) h (payload v).
Definition with_payload (p : option Any) (v : value_type) : value_type :=
  mk_value (magic v) (version v) (witness v) (checksum v) (maximum v) (fault v) (head v) p.

Definition bad_value : code := to_http_code http_error.bad_value.

(** The reader's member [value_] with a fault, and the generic code. *)
Definition set_fault (f : code) (r : t) : t * code := (set_value (with_fault f (value_ r)) r, bad_value).

Definition init (r : t) : t * code :=
  (mk (with_fault error.success (value_ r)) heading.size false false, cleared).

Definition need (r : t) : Z := need_ r.

Definition done (r : t) : bool := done_ r.

Definition accept (data : bytes) (r : t) (ec : code) : t * bool * code :=
  let v := value_ r in
  if checksum v && negb (heading.checksum (head v) =? heading.network_checksum (bitcoin_hash data))
  then let '(r, ec) := set_fault error.invalid_checksum r in (r, false, ec) else
  let p := to_any (registry_index (heading.command (head v))) data (version v) (witness v) in
  let r := set_value (with_payload p v) r in
  match p with
  | None => let '(r, ec) := set_fault error.invalid_message r in (r, false, ec)
  | Some _ => (mk (value_ r) 0 (headed_ r) true, true, ec)
  end.

(** [payload_] is the caller's payload buffer, if it gave one. *)
Definition put (payload_ : option bytes) (data : bytes) (r : t) : t * Z * code :=
  let ec := cleared in
  if headed_ r then
    if len data <? need_ r then (r, 0, ec) else
    let payload := default (ztake (need_ r) data) payload_ in
    let '(r, accepted, ec) := accept payload r ec in
    (r, if accepted then heading.payload_size (head (value_ r)) else 0, ec)
  else
  if len data <? heading.size then (r, 0, ec) else
  let '(h, source) := heading.deserialize (open (R := R) (ztake heading.size data)) in
  let r := set_value (with_head h (value_ r)) r in
  if negb (good source) then
    let '(r, ec) := set_fault error.invalid_heading r in (r, 0, ec)
  else if negb (heading.magic h =? magic (value_ r)) then
    let '(r, ec) := set_fault error.invalid_magic r in (r, 0, ec)
  else if heading.payload_size h >? maximum (value_ r) then
    let '(r, ec) := set_fault error.oversized_payload r in (r, 0, ec)
  else
    let r := mk (value_ r) (heading.payload_size h) true (done_ r) in
    if need_ r =? 0 then
      let '(r, accepted, ec) := accept [] r ec in
      (r, if negb accepted then 0 else heading.size, ec)
    else (r, heading.size, ec).

Definition finish (r : t) : code :=
  if done_ r then error.success else to_http_code http_error.need_more.

(** ** Framing *)

Definition frame (magic : Z) (command : bytes) (body : bytes) : bytes :=
  serialize_data (W := W)
    (heading.serialize (heading.factory magic command (len body) (bitcoin_hash body))) ++ body.

(** ** Reads from a socket *)

(** An exact read: the retained detection prefix first, and then the socket;
    [None] while the socket has too little. *)
Definition read_exact (need : Z) (detection stream : bytes) : option (bytes * bytes * bytes) :=
  let residue := len detection `min` need in
  if len stream <? need - residue then None else
  Some (ztake residue detection ++ ztake (need - residue) stream,
    zdrop residue detection, zdrop (need - residue) stream).

Inductive outcome :=
  | waiting
  | complete (ec : code) (total : Z) (r : t) (detection stream : bytes).

Fixpoint do_peer_read (fuel : nat) (total : Z) (headed : bool) (r : t)
  (detection stream : bytes) : option outcome :=
  match fuel with
  | O => None
  | S fuel =>
    match read_exact (need r) detection stream with
    | None => Some waiting
    | Some (data, detection, stream) =>
      let total := total + len data in
      let '(r, _, result) := put (if headed then Some data else Some []) data r in
      if failed result then Some (complete (http_to_error_code result) total r detection stream)
      else if done r then
        Some (complete (http_to_error_code (finish r)) total r detection stream)
      else do_peer_read fuel total true r detection stream
    end
  end.

(** A message is a heading and at most one payload. *)
Definition peer_read (v : value_type) (detection stream : bytes) : option outcome :=
  do_peer_read 2 0 false (init (mk v 0 false false)).1 detection stream.

(** ** Lemmas *)

Context `{!ReaderLaws R, !WriterLaws W}.

Lemma read_exact_spec n d s : 0 <= n ->
  match read_exact n d s with
  | None => len (d ++ s) < n
  | Some (data, d', s') => data ++ d' ++ s' = d ++ s /\ len data = n
  end.
Proof.
  intros Hn. unfold read_exact. pose proof (len_nonneg d). pose proof (len_nonneg s).
  set (m := len d `min` n). destruct (len s <? n - m) eqn:Hl; rewrite ?len_app; [lia |].
  assert (0 <= m <= len d /\ m <= n) as [? ?] by lia.
  rewrite !len_ztake by lia. split; [| lia].
  destruct (decide (n <= len d)).
  - assert (m = n) as -> by lia. replace (n - n) with 0 by lia.
    rewrite ztake_0, app_nil_r, zdrop_0, app_assoc, ztake_zdrop. done.
  - assert (m = len d) as -> by lia. rewrite ztake_ge, zdrop_ge by lia. simpl.
    rewrite <- app_assoc, ztake_zdrop. done.
Qed.

Lemma bad_value_failed : failed bad_value = true.
Proof. done. Qed.

(** A payload is accepted exactly if its checksum matches (when checked) and
    it deserializes. *)
Lemma accept_spec data r ec :
  let v := value_ r in
  let ok := negb (checksum v) ||
    (heading.checksum (head v) =? heading.network_checksum (bitcoin_hash data)) in
  let p := to_any (registry_index (heading.command (head v))) data (version v) (witness v) in
  accept data r ec =
    if ok then match p with
      | Some _ => (mk (with_payload p v) 0 (headed_ r) true, true, ec)
      | None => (set_value (with_fault error.invalid_message (with_payload p v)) r, false, bad_value)
      end
    else (set_value (with_fault error.invalid_checksum v) r, false, bad_value).
Proof.
  intros v ok p. unfold accept. fold v. fold p. unfold ok.
  destruct (checksum v), (_ =? _); simpl; try done; by destruct p.
Qed.

(** What a complete frame must satisfy to be delivered. *)
Definition delivered (v : value_type) (consumed : bytes) (r : t) : Prop :=
  exists h source body p,
    consumed = ztake heading.size consumed ++ body /\
    heading.deserialize (open (R := R) (ztake heading.size consumed)) = (h, source) /\
    good source = true /\
    heading.magic h = magic v /\ heading.payload_size h = len body /\ len body <= maximum v /\
    (checksum v = true ->
      heading.checksum h = heading.network_checksum (bitcoin_hash body)) /\
    to_any (registry_index (heading.command h)) body (version v) (witness v) = Some p /\
    head (value_ r) = h /\ payload (value_ r) = Some p.

Lemma payload_size_range (d : bytes) h source :
  heading.deserialize (open (R := R) d) = (h, source) -> u32 (heading.payload_size h).
Proof.
  unfold heading.deserialize. intros Hd.
  apply bind_good in Hd as (? & r1 & _ & Hd). apply bind_good in Hd as (? & r2 & _ & Hd).
  apply bind_good in Hd as (n & r3 & Hn & Hd). apply bind_good in Hd as (? & r4 & _ & Hd).
  unfold ret in Hd. simplify_eq. simpl. pose proof (read_4_range r2) as Hr. by rewrite Hn in Hr.
Qed.

(** The heading step: a fault, an accepted empty payload, or a payload to
    read. *)
Lemma put_heading pl data v : len data = heading.size ->
  let r := (init (mk v 0 false false)).1 in
  let '(r', used, ec) := put pl data r in
  let '(h, source) := heading.deserialize (open (R := R) data) in
  (failed ec = true /\ http_to_error_code ec <> error.success) \/
  (good source = true /\ heading.magic h = magic v /\ heading.payload_size h <= maximum v /\
   head (value_ r') = h /\ ec = cleared /\
   let vr := with_head h (with_fault error.success v) in
   if heading.payload_size h =? 0 then
     done r' = true /\ (checksum v = true ->
       heading.checksum h = heading.network_checksum (bitcoin_hash [])) /\
     exists p, to_any (registry_index (heading.command h)) [] (version v) (witness v) = Some p /\
       payload (value_ r') = Some p
   else r' = mk vr (heading.payload_size h) true false).
Proof.
  intros Hl r. unfold put. simpl. rewrite Hl, ztake_ge by lia.
  change (heading.size <? heading.size) with false. cbv iota.
  destruct (heading.deserialize (open data)) as [h source] eqn:Hh.
  destruct (good source) eqn:Hg; simpl; [| by left].
  destruct (heading.magic h =? magic v) eqn:Hm; simpl; [| by left].
  destruct (heading.payload_size h >? maximum v) eqn:Hx; simpl; [by left |].
  destruct (heading.payload_size h =? 0) eqn:Hz; simpl.
  - rewrite accept_spec. simpl.
    destruct (checksum v) eqn:Hc; simpl.
    + destruct (heading.checksum h =? _) eqn:Hs; simpl; [| by left].
      destruct (to_any _ _ _ _) as [p |] eqn:Hp; [| by left].
      right. split_and!; try done; try lia. exists p. done.
    + destruct (to_any _ _ _ _) as [p |] eqn:Hp; [| by left].
      right. split_and!; try done; try lia. exists p. done.
  - right. split_and!; try done; lia.
Qed.

Lemma put_payload data v n : len data = n ->
  put (Some data) data (mk v n true false) =
    let '(r, accepted, ec) := accept data (mk v n true false) cleared in
    (r, if accepted then heading.payload_size (head (value_ r)) else 0, ec).
Proof.
  intros Hl. unfold put. simpl. rewrite Hl. by destruct (n <? n) eqn:?; [lia |].
Qed.

Lemma http_success : http_to_error_code error.success = error.success.
Proof. reflexivity. Qed.

(** The read of a heading. *)
Lemma do_peer_read_heading v detection stream :
  do_peer_read 2 0 false (init (mk v 0 false false)).1 detection stream =
    match read_exact heading.size detection stream with
    | None => Some waiting
    | Some (d, det, str) =>
      let '(r, _, result) := put (Some []) d (init (mk v 0 false false)).1 in
      if failed result then Some (complete (http_to_error_code result) (0 + len d) r det str)
      else if done r then
        Some (complete (http_to_error_code (finish r)) (0 + len d) r det str)
      else do_peer_read 1 (0 + len d) true r det str
    end.
Proof. done. Qed.

(** The read of a payload, after its heading. *)
Lemma do_peer_read_payload total h v n det str : 0 <= n ->
  let vr := with_head h (with_fault error.success v) in
  do_peer_read 1 total true (mk vr n true false) det str =
    match read_exact n det str with
    | None => Some waiting
    | Some (d, det, str) =>
      Some (if negb (checksum v) ||
        (heading.checksum h =? heading.network_checksum (bitcoin_hash d)) then
        match to_any (registry_index (heading.command h)) d (version v) (witness v) with
        | Some p => complete error.success (total + len d)
            (mk (with_payload (Some p) vr) 0 true true) det str
        | None => complete (http_to_error_code bad_value) (total + len d)
            (mk (with_fault error.invalid_message (with_payload None vr)) n true false) det str
        end
      else complete (http_to_error_code bad_value) (total + len d)
        (mk (with_fault error.invalid_checksum vr) n true false) det str)
    end.
Proof.
  intros Hn vr. cbn [do_peer_read]. change (need (mk vr n true false)) with n.
  pose proof (read_exact_spec n det str Hn) as Hx.
  destruct (read_exact n det str) as [[[d det'] str'] |]; [| done]. destruct Hx as [_ Hl].
  rewrite put_payload, accept_spec by done. simpl.
  destruct (_ || _); [| done]. by destruct (to_any _ _ _ _).
Qed.

(** What has not arrived when a read waits: the heading, or the payload that
    the heading announces. *)
Definition lacking (available : bytes) : Prop :=
  len available < heading.size \/
  exists h source,
    heading.deserialize (open (R := R) (ztake heading.size available)) = (h, source) /\
    len available < heading.size + heading.payload_size h.

Lemma payload_outcome v d1 h source det str :
  len d1 = heading.size -> heading.deserialize (open (R := R) d1) = (h, source) ->
  good source = true -> heading.magic h = magic v -> heading.payload_size h <= maximum v ->
  exists o, do_peer_read 1 (0 + len d1) true
      (mk (with_head h (with_fault error.success v)) (heading.payload_size h) true false) det str = Some o /\
  match o with
  | waiting => lacking (d1 ++ det ++ str)
  | complete ec total r det' str' =>
    exists consumed, d1 ++ det ++ str = consumed ++ det' ++ str' /\
      len consumed = total /\ (ec = error.success -> delivered v consumed r)
  end.
Proof.
  intros L1 Hh Hg Hm Hx. pose proof (payload_size_range _ _ _ Hh) as Hr.
  rewrite do_peer_read_payload by width.
  pose proof (read_exact_spec (heading.payload_size h) det str ltac:(width)) as He.
  destruct (read_exact _ det str) as [[[d det2] str2] |].
  2: { eexists; split; [done |]. right. exists h, source.
    split; [by rewrite <- L1, ztake_app_len | rewrite len_app; lia]. }
  destruct He as [Hs Hl].
  assert (d1 ++ det ++ str = (d1 ++ d) ++ det2 ++ str2) as Hsplit by (by rewrite <- Hs, app_assoc).
  assert (ztake heading.size (d1 ++ d) = d1) as Ht by (by rewrite <- L1, ztake_app_len).
  eexists; split; [done |].
  destruct (negb (checksum v) || _) eqn:Hck; [destruct (to_any _ d _ _) as [p |] eqn:Hp |];
    exists (d1 ++ d); rewrite len_app; (split_and!; [done | lia |]); try done.
  intros _. exists h, source, d, p. rewrite Ht. split_and!; try done; [lia |].
  intros Hc. rewrite Hc in Hck. simpl in Hck. lia.
Qed.

(** C8: reading a message always ends: it waits for the socket, only while the
    heading or the payload that it announces has not arrived, or it completes
    having consumed exactly the bytes it counts, and then it delivers a message
    only if the heading is of this network, the payload is as long as
    announced, no longer than the maximum, has the announced checksum (when
    checksums are verified) and deserializes to the delivered message. *)
Theorem peer_read_sound v detection stream :
  exists o, peer_read v detection stream = Some o /\
  match o with
  | waiting => lacking (detection ++ stream)
  | complete ec total r detection' stream' =>
    exists consumed, detection ++ stream = consumed ++ detection' ++ stream' /\
      len consumed = total /\
      (ec = error.success -> delivered v consumed r)
  end.
Proof.
  unfold peer_read. rewrite do_peer_read_heading.
  pose proof (read_exact_spec heading.size detection stream ltac:(done)) as H1.
  destruct (read_exact heading.size detection stream) as [[[d1 det1] str1] |].
  2: { eexists; split; [done | by left]. }
  destruct H1 as [H1 L1].
  pose proof (put_heading (Some []) d1 v L1) as Hp. cbv zeta in Hp.
  destruct (put (Some []) d1 _) as [[r1 used1] ec1].
  destruct (heading.deserialize (open d1)) as [h source] eqn:Hh.
  destruct Hp as [[Hf Hne] | (Hg & Hm & Hx & Hhd & -> & Hz)].
  { rewrite Hf. eexists; split; [done |]. exists d1. split_and!; [done | lia | done]. }
  change (failed cleared) with false. cbv iota. rewrite <- H1.
  destruct (heading.payload_size h =? 0) eqn:Hpz.
  - destruct Hz as (Hd & Hck & p & Hp & Hpv). rewrite Hd. eexists; split; [done |].
    exists d1. split_and!; [done | lia |]. intros _. exists h, source, [], p.
    rewrite ztake_ge, app_nil_r by lia. split_and!; try done; rewrite len_nil; lia.
  - subst r1. by apply (payload_outcome v d1 h source).
Qed.

(** The parse of a serialized heading. *)
Lemma put_encoded v h : heading.ok h ->
  heading.magic h = magic v -> heading.payload_size h <= maximum v ->
  put (Some []) (heading.encode h) (init (mk v 0 false false)).1 =
    let r := mk (with_head h (with_fault error.success v)) (heading.payload_size h) true false in
    if heading.payload_size h =? 0 then
      let '(r, accepted, ec) := accept [] r cleared in
      (r, if negb accepted then 0 else heading.size, ec)
    else (r, heading.size, cleared).
Proof.
  intros Hok Hm Hx. pose proof (heading.len_encode h Hok) as Hle.
  destruct (heading.heading_deserialize_law (R := R) h Hok (open (heading.encode h)) [])
    as (src & Hd & Hg & _); [rewrite app_nil_r; apply open_law |].
  unfold put. change (headed_ (init (mk v 0 false false)).1) with false. cbv iota.
  rewrite ztake_ge, Hd, Hg, Hle by lia. change (heading.size <? heading.size) with false.
  simpl. rewrite Hm, Z.eqb_refl. simpl.
  destruct (heading.payload_size h >? maximum v) eqn:?; [lia | done].
Qed.

(** The frame built for a message is read back in full, whatever part of it
    was taken by protocol detection and whatever follows it: the read delivers
    what the payload deserializes to and leaves exactly what follows. *)
Theorem peer_read_frame v command body p detection stream rest :
  u32 (magic v) -> bytes_ok command -> len command <= heading_command_size -> ~ (0 ∈ command) ->
  len body <= 2 ^ 32 - 1 -> len body <= maximum v ->
  to_any (registry_index command) body (version v) (witness v) = Some p ->
  detection ++ stream = frame (magic v) command body ++ rest ->
  exists r detection' stream',
    peer_read v detection stream =
      Some (complete error.success (heading.size + len body) r detection' stream') /\
    detection' ++ stream' = rest /\ payload (value_ r) = Some p.
Proof.
  intros Hm Hc Hcl Hc0 Hb Hx Hp Hs. pose proof (len_nonneg body) as Hb0.
  pose proof (bitcoin_hash_ok body) as [Hho Hhl].
  set (h := heading.factory (magic v) command (len body) (bitcoin_hash body)) in *.
  assert (h = heading.mk (magic v) command (len body)
    (heading.network_checksum (bitcoin_hash body))) as Hh.
  { unfold h, heading.factory. destruct (_ >? _) eqn:?; [lia |]. unfold narrow.
    rewrite Z.mod_small by lia. done. }
  assert (heading.ok h) as Hok.
  { rewrite Hh. unfold heading.ok; simpl. split_and!; try done; [width |].
    by apply heading.network_checksum_u32. }
  assert (frame (magic v) command body = heading.encode h ++ body) as Hf.
  { unfold frame, serialize_data. fold h. by rewrite (heading.heading_serialize_law h Hok), create_law. }
  pose proof (heading.len_encode h Hok) as Hle.
  unfold peer_read. rewrite do_peer_read_heading.
  pose proof (read_exact_spec heading.size detection stream ltac:(done)) as H1.
  rewrite Hs, Hf, <- app_assoc in H1.
  destruct (read_exact heading.size detection stream) as [[[d1 det1] str1] |].
  2: { rewrite !len_app in H1. pose proof (len_nonneg rest). lia. }
  destruct H1 as [H1 L1]. apply app_eq_len in H1 as [-> H1]; [| lia].
  rewrite (put_encoded v h Hok), Hh by (rewrite Hh; done). cbn [heading.payload_size]. cbv zeta.
  destruct (len body =? 0) eqn:Hz.
  - assert (body = []) as -> by (apply len_zero_nil; lia).
    rewrite accept_spec. simpl. rewrite Z.eqb_refl, orb_true_r, Hp. simpl.
    rewrite <- Hh, Hle. eexists _, det1, str1. split; [reflexivity | by split].
  - cbv beta iota. change (failed cleared) with false. cbn [done done_]. cbv iota.
    rewrite do_peer_read_payload by lia. rewrite <- Hh, Hle.
    pose proof (read_exact_spec (len body) det1 str1 ltac:(lia)) as H2. rewrite H1 in H2.
    destruct (read_exact (len body) det1 str1) as [[[d2 det2] str2] |].
    2: { rewrite len_app in H2. pose proof (len_nonneg rest). lia. }
    destruct H2 as [H2 L2]. apply app_eq_len in H2 as [-> H2]; [| lia].
    rewrite Hh. simpl. rewrite Z.eqb_refl, orb_true_r, Hp.
    eexists _, det2, str2. split; [f_equal; f_equal; lia | by split].
Qed.
End body.

(** Instances for the witnesses: a digest, and a registry of one message. *)
#[local] Program Instance example_hash : BitcoinHash :=
  {| bitcoin_hash d := narrow 8 (len d) :: replicate 31 0 |}.
Next Obligation.
  intros d. split; [| done]. constructor; [apply Z.mod_pos_bound; lia |]. apply is_bytes_ok. reflexivity.
Qed.

#[local] Instance example_registry : Registry bytes :=
  {| registry_index command := if bool_decide (command = chars "ping") then 0 else 1;
     to_any index data _ _ := if index =? 0 then Some data else None |}.

Definition example_value : value_type (Any := bytes) :=
  mk_value 3652501241 70016 true true 1000 error.success heading.init None.

Definition example_frame : bytes := frame (W := bytes) 3652501241 (chars "ping") [1; 2; 3; 4; 5; 6; 7; 8].

(** Half of the frame is received: the read waits. *)
Lemma peer_read_sound_witness :
  exists o, peer_read (R := list_stream.t) example_value (ztake 4 example_frame)
      (ztake 20 (zdrop 4 example_frame)) = Some o /\
  match o with
  | waiting => lacking (R := list_stream.t) (ztake 4 example_frame ++ ztake 20 (zdrop 4 example_frame))
  | complete ec total r detection' stream' =>
    exists consumed, ztake 4 example_frame ++ ztake 20 (zdrop 4 example_frame) =
        consumed ++ detection' ++ stream' /\
      len consumed = total /\
      (ec = error.success -> delivered (R := list_stream.t) example_value consumed r)
  end.
Proof. apply (peer_read_sound (R := list_stream.t)). Defined.

(** The frame is received after its detection prefix, and more follows. *)
Lemma peer_read_frame_witness :
  exists r detection' stream',
    peer_read (R := list_stream.t) example_value (ztake 4 example_frame)
      (zdrop 4 example_frame ++ [9; 9]) =
      Some (complete error.success (heading.size + 8) r detection' stream') /\
    detection' ++ stream' = [9; 9] /\ payload (value_ r) = Some [1; 2; 3; 4; 5; 6; 7; 8].
Proof.
  refine (peer_read_frame (R := list_stream.t) (W := bytes) example_value (chars "ping")
    [1; 2; 3; 4; 5; 6; 7; 8] [1; 2; 3; 4; 5; 6; 7; 8] (ztake 4 example_frame)
    (zdrop 4 example_frame ++ [9; 9]) [9; 9] _ _ _ _ _ _ _ _); try reflexivity; try (vm_compute; congruence).
  - simpl. width.
  - apply is_bytes_ok. reflexivity.
  - intros Hin. apply list_elem_of_In in Hin. vm_compute in Hin. intuition discriminate.
Defined.
End peer_body.
