(* ===== verification/Hosts.v ===== *)
(** * Hosts: the pool of peer addresses

    Models [net::hosts] ([include/bitcoin/network/net/hosts.hpp],
    [src/net/hosts.cpp]) and the settings that it consults
    ([settings::connectable] and [settings::gossiped]).  The pool runs on one
    strand, so its use is a sequence of operations.  The file is what reading
    and writing it gives; random numbers are arguments. *)

From S2P Require Import Prelude.
From S2P Require Import TlsConstants.
From S2P Require Import Errors.
From S2P Require Import Stream.
From S2P Require Import PeerAddress.

Module hosts.
Import address_item.

(** ** Settings *)

(** The lists of addresses in the configuration are predicates. *)
Record settings := mk_settings {
  host_pool_capacity : Z;
  proxied : bool;
  gossip_ipv4 : bool;
  gossip_ipv6 : bool;
  gossip_tor : bool;
  gossip_i2p : bool;
  invalid_services : Z;
  peered : address_item -> bool;
  blacklisted : address_item -> bool;
  whitelisted : address_item -> bool
}.

Definition connectable (cfg : settings) (item : address_item) : bool :=
  is_v4 (address item) || is_v6 (address item) || is_cjdns (address item) ||
    (proxied cfg && is_named (address item)).

Definition gossiped (cfg : settings) (item : address_item) : bool :=
  match address item with
  | ipv4_t _ => gossip_ipv4 cfg
  | ipv6_t _ | cjdns_t _ => gossip_ipv6 cfg
  | torv3_t _ => gossip_tor cfg
  | i2p_t _ => gossip_i2p cfg
  | _ => false
  end.

Definition unsupported (cfg : settings) (item : address_item) : bool :=
  negb (Z.land (services item) (invalid_services cfg) =? 0).

(** ** State *)

Definition address_types : nat := 7.

Definition max_address : Z := 1000.

Inductive family := any | ipv4 | ipv6.

Section hosts.
Context {E : Type} `{Countable E}.
(** The endpoint of an address, and the address of a line of the file (none if
    the line does not parse). *)
Context (to_endpoint : address_item -> E) (parse : string -> option address_item).
Context (cfg : settings) (required : Z).

Record t := mk {
  buffer_ : list address_item;
  stopped_ : bool;
  endpoints_ : gset E;
  hosts_count_ : Z;
  endpoints_count_ : Z;
  counts_ : list Z
}.

Definition capacity_ : Z := host_pool_capacity cfg.

Definition make : t := mk [] true ∅ 0 0 (replicate address_types 0).

Definition with_buffer (buffer : list address_item) (counts : list Z) (s : t) : t :=
  mk buffer (stopped_ s) (endpoints_ s) (hosts_count_ s) (endpoints_count_ s) counts.
Definition set_stopped (v : bool) (s : t) : t :=
  mk (buffer_ s) v (endpoints_ s) (hosts_count_ s) (endpoints_count_ s) (counts_ s).
Definition store_count (s : t) : t :=
  mk (buffer_ s) (stopped_ s) (endpoints_ s) (len (buffer_ s)) (endpoints_count_ s) (counts_ s).

(** ** Operations *)

Definition increment (a : address_t) (counts : list Z) : list Z :=
  alter (fun n => narrow 64 (n + 1)) (Z.to_nat (index a)) counts.

Definition decrement (a : address_t) (counts : list Z) : list Z :=
  alter (fun n => narrow 64 (n - 1)) (Z.to_nat (index a)) counts.

Definition push (host : address_item) (s : t) : t :=
  let s := if len (buffer_ s) =? capacity_ then
    match buffer_ s with
    | front :: rest => with_buffer rest (decrement (address front) (counts_ s)) s
    | [] => s
    end else s in
  with_buffer (buffer_ s ++ [host]) (increment (address host) (counts_ s)) s.

Definition insufficient (item : address_item) : bool :=
  negb (Z.land (services item) required =? required).

Definition is_reserved (e : E) (s : t) : bool := bool_decide (e ∈ endpoints_ s).

Definition is_pooled (host : address_item) (s : t) : bool := existsb (item_eqb host) (buffer_ s).

Definition push_line (line : string) (s : t) : t :=
  match parse line with
  | None => s
  | Some item =>
    if negb (is_specified item) then s
    else if negb (gossiped cfg item) then s
    else if insufficient item then s
    else if unsupported cfg item then s
    else if peered cfg item then s
    else if blacklisted cfg item then s
    else if negb (whitelisted cfg item) then s
    else push item s
  end.

(** What opening and reading the file gives. *)
Inductive load := missing | lines (l : list string) (bad : bool) | throws (l : list string).

Definition start (file : load) (s : t) : t * code :=
  if capacity_ =? 0 then (s, error.success : code) else
  if negb (stopped_ s) then (s, error.operation_failed : code) else
  let s := set_stopped false s in
  match file with
  | missing => (s, error.success : code)
  | throws l => (fold_left (fun s line => push_line line s) l s, error.file_exception : code)
  | lines l bad =>
    let s := fold_left (fun s line => push_line line s) l s in
    if bad then (s, error.file_load : code) else
    (store_count s, error.success : code)
  end.

(** What removing or writing the file gives. *)
Inductive store := not_removed | removed | not_opened | written (bad : bool) | write_throws.

Definition stop (file : store) (s : t) : t * code :=
  if (capacity_ =? 0) || stopped_ s then (s, error.success : code) else
  let s := set_stopped true s in
  match buffer_ s, file with
  | [], not_removed => (s, error.file_save : code)
  | [], _ => (s, error.success : code)
  | _, not_opened => (s, error.file_save : code)
  | _, write_throws => (s, error.file_exception : code)
  | _, written true => (s, error.file_save : code)
  | _, _ => (mk [] true (endpoints_ s) 0 (endpoints_count_ s) (replicate address_types 0),
      error.success : code)
  end.

Definition in_family (f : family) (item : address_item) : bool :=
  match f with
  | ipv4 => is_v4 (address item)
  | ipv6 => is_v6 (address item) || is_cjdns (address item)
  | any => true
  end.

(** The loop of [take], over the part of the pool from the iterator on. *)
Fixpoint take_loop (f : family) (passed rest : list address_item) (s : t)
  : t * code * option address_item :=
  match rest with
  | [] => (s, error.address_not_found : code, None)
  | it :: rest =>
    if negb (connectable cfg it) || negb (in_family f it) then take_loop f (passed ++ [it]) rest s
    else
      let s := store_count (with_buffer (passed ++ rest) (decrement (address it) (counts_ s)) s) in
      if negb (is_reserved (to_endpoint it) s) then (s, error.success : code, Some it)
      else take_loop f passed rest s
  end.

Definition take (f : family) (s : t) : t * code * option address_item :=
  if stopped_ s then (s, error.service_stopped : code, None) else
  take_loop f [] (buffer_ s) s.

(** Assign the found element. *)
Fixpoint assign (host : address_item) (l : list address_item) : list address_item :=
  match l with
  | [] => []
  | x :: l => if item_eqb x host then host :: l else x :: assign host l
  end.

Definition restore (host : address_item) (s : t) : t * code :=
  if stopped_ s then (s, error.service_stopped : code) else
  if existsb (fun x => item_eqb x host) (buffer_ s) then
    (with_buffer (assign host (buffer_ s)) (counts_ s) s, error.success : code)
  else (store_count (push host s), error.success : code).

(** [divide] and [start_index] are the random numbers. *)
Definition fetch (divide start_index : Z) (s : t) : code * list address_item :=
  if stopped_ s then (error.service_stopped : code, []) else
  match buffer_ s with
  | [] => (error.address_not_found : code, [])
  | first :: _ =>
    let pooled := len (buffer_ s) in
    let size := max_address `min` (pooled / divide) in
    (error.success : code,
      map (fun count => nth (Z.to_nat ((start_index + Z.of_nat count) `mod` pooled)) (buffer_ s) first)
        (seq 0 (Z.to_nat size)))
  end.

Definition save_one (host : address_item) (s : t) : t :=
  if negb (insufficient host) && negb (is_reserved (to_endpoint host) s) &&
    negb (is_pooled host s) then store_count (push host s) else s.

Definition save (addresses : list address_item) (s : t) : t * code * Z :=
  if stopped_ s then (s, error.service_stopped : code, 0) else
  match addresses with
  | [] => (s, error.address_not_found : code, 0)
  | _ =>
    let start_size := len (buffer_ s) in
    let s := fold_left (fun s host => save_one host s) addresses s in
    (s, error.success : code, usub (len (buffer_ s)) start_size)
  end.

Definition reserve (host : E) (s : t) : t * bool :=
  if decide (host ∈ endpoints_ s) then (s, false) else
  (mk (buffer_ s) (stopped_ s) ({[host]} ∪ endpoints_ s) (hosts_count_ s)
    (narrow 64 (endpoints_count_ s + 1)) (counts_ s), true).

Definition unreserve (host : E) (s : t) : t * bool :=
  if decide (host ∈ endpoints_ s) then
    (mk (buffer_ s) (stopped_ s) (endpoints_ s ∖ {[host]}) (hosts_count_ s)
      (narrow 64 (endpoints_count_ s - 1)) (counts_ s), true)
  else (s, false).

Definition count (s : t) : Z := hosts_count_ s.
Definition counts (s : t) : list Z := counts_ s.
Definition reserved (s : t) : Z := endpoints_count_ s.

(** The operations that change the pool. *)
Inductive op :=
  | Start (file : load)
  | Stop (file : store)
  | Take (f : family)
  | Restore (host : address_item)
  | Save (addresses : list address_item)
  | Reserve (host : E)
  | Unreserve (host : E).

Definition step (o : op) (s : t) : t :=
  match o with
  | Start file => (start file s).1
  | Stop file => (stop file s).1
  | Take f => (take f s).1.1
  | Restore host => (restore host s).1
  | Save addresses => (save addresses s).1.1
  | Reserve host => (reserve host s).1
  | Unreserve host => (unreserve host s).1
  end.

(** ** Invariant *)

Definition count_of (id : nat) (l : list address_item) : Z :=
  len (filter (fun i => Z.to_nat (index (address i)) = id) l).

(** The counters by type count the pool. *)
Definition counts_ok (counts : list Z) (l : list address_item) : Prop :=
  length counts = address_types /\
  forall id, (id < address_types)%nat -> counts !! id = Some (count_of id l).

(** The pool is within its capacity, and its counters count. *)
Definition wf (s : t) : Prop :=
  len (buffer_ s) <= capacity_ /\ counts_ok (counts_ s) (buffer_ s) /\
  endpoints_count_ s = narrow 64 (Z.of_nat (base.size (endpoints_ s))) /\
  (capacity_ = 0 -> stopped_ s = true).

(** ** Lemmas *)

Lemma index_bound a : (Z.to_nat (index a) < address_types)%nat.
Proof. destruct a; simpl; unfold address_types; lia. Qed.

Lemma count_of_perm id l k : l ≡ₚ k -> count_of id l = count_of id k.
Proof. unfold count_of, len. by intros ->. Qed.

Lemma count_of_cons id h l :
  count_of id (h :: l) = (if decide (Z.to_nat (index (address h)) = id) then 1 else 0) + count_of id l.
Proof.
  unfold count_of. rewrite filter_cons. destruct (decide _); [by rewrite len_cons | lia].
Qed.

Lemma count_of_bound id l : 0 <= count_of id l <= len l.
Proof.
  unfold count_of, len. pose proof (length_filter (fun i => Z.to_nat (index (address i)) = id) l). lia.
Qed.

Lemma counts_ok_perm c l k : l ≡ₚ k -> counts_ok c l -> counts_ok c k.
Proof.
  intros Hp [Hl Hc]. split; [done |]. intros id Hid. rewrite Hc by done.
  by rewrite (count_of_perm id l k).
Qed.

Lemma increment_ok c l h : len l + 1 < 2 ^ 64 -> counts_ok c l ->
  counts_ok (increment (address h) c) (l ++ [h]).
Proof.
  intros Hl [Hlen Hc]. apply (counts_ok_perm _ (h :: l)); [apply Permutation_cons_append |].
  unfold increment. split; [by rewrite length_alter |]. intros id Hid. rewrite count_of_cons.
  pose proof (count_of_bound id l).
  destruct (decide (Z.to_nat (index (address h)) = id)) as [-> | Hne].
  - rewrite list_lookup_alter, decide_True, Hc by done. simpl. f_equal. unfold narrow.
    rewrite Z.mod_small; lia.
  - rewrite list_lookup_alter, decide_False, Hc by done. f_equal.
Qed.

Lemma decrement_ok c l h : len l + 1 < 2 ^ 64 -> counts_ok c (h :: l) ->
  counts_ok (decrement (address h) c) l.
Proof.
  intros Hl [Hlen Hc]. unfold decrement. split; [by rewrite length_alter |].
  intros id Hid. pose proof (Hc id Hid) as Hi. rewrite count_of_cons in Hi.
  pose proof (count_of_bound id l).
  destruct (decide (Z.to_nat (index (address h)) = id)) as [-> | Hne].
  - rewrite list_lookup_alter, decide_True, Hi by done. simpl. f_equal. unfold narrow.
    rewrite Z.mod_small; lia.
  - rewrite list_lookup_alter, decide_False, Hi by done. f_equal.
Qed.

Context (Hcap : 0 <= capacity_ < 2 ^ 63).

(** What a push does to a pool that has a capacity. *)
Lemma push_spec host s : 0 < capacity_ -> wf s ->
  let s' := push host s in
  wf s' /\ endpoints_ s' = endpoints_ s /\ stopped_ s' = stopped_ s /\
  buffer_ s' = (if len (buffer_ s) =? capacity_ then tail (buffer_ s) else buffer_ s) ++ [host].
Proof.
  intros Hc (Hl & Hk & He & Hz). unfold push.
  destruct (len (buffer_ s) =? capacity_) eqn:Hfull.
  - destruct (buffer_ s) as [| front rest] eqn:Hb; [rewrite len_nil in Hfull; lia |].
    rewrite len_cons in *. simpl. split_and!; try done. unfold wf; simpl. split_and!; try done.
    + rewrite len_app. change (len [host]) with 1. lia.
    + apply increment_ok; [lia |]. by apply decrement_ok; [lia |].
  - simpl. split_and!; try done. unfold wf; simpl. split_and!; try done.
    + rewrite len_app. change (len [host]) with 1. lia.
    + by apply increment_ok; [lia |].
Qed.

Lemma store_count_wf s : wf s -> wf (store_count s).
Proof. done. Qed.

Lemma push_line_wf line s : 0 < capacity_ -> wf s -> wf (push_line line s) /\
  stopped_ (push_line line s) = stopped_ s.
Proof.
  intros Hc Hs. unfold push_line. destruct (parse line) as [item |]; [| done].
  destruct (push_spec item s Hc Hs) as (Hw & _ & Hst & _).
  by repeat (case_match; [done |]).
Qed.

Lemma fold_wf {A} (f : A -> t -> t) (l : list A) s :
  (forall a s, wf s -> wf (f a s)) -> wf s -> wf (fold_left (fun s a => f a s) l s).
Proof. intros Hf. revert s. induction l as [| a l IH]; intros s Hs; [done |]. by apply IH, Hf. Qed.

Lemma take_loop_wf f passed rest s : 0 < capacity_ -> wf s -> buffer_ s = passed ++ rest ->
  wf (take_loop f passed rest s).1.1.
Proof.
  intros Hc. revert passed s. induction rest as [| it rest IH]; intros passed s Hs Hb; [done |].
  simpl. destruct (_ || _).
  - apply IH; [done |]. by rewrite <- app_assoc.
  - set (s' := store_count _). assert (wf s') as Hs'.
    { destruct Hs as (Hl & Hk & He & Hz). rewrite Hb in *. rewrite len_app, len_cons in Hl.
      pose proof (len_nonneg passed). pose proof (len_nonneg rest).
      unfold wf; simpl. split_and!; try done; [rewrite len_app; lia |].
      apply decrement_ok; [rewrite len_app; lia |]. eapply counts_ok_perm; [| done].
      by rewrite Permutation_middle. }
    destruct (is_reserved _ _); simpl; [| done]. by apply IH.
Qed.

Lemma assign_counts host l id : count_of id (assign host l) = count_of id l.
Proof.
  induction l as [| x l IH]; [done |]. simpl. destruct (item_eqb x host) eqn:He.
  - unfold item_eqb in He. apply andb_true_iff in He as [He _]. apply bool_decide_eq_true in He.
    rewrite !count_of_cons. by rewrite He.
  - rewrite !count_of_cons. by rewrite IH.
Qed.

Lemma length_assign host l : length (assign host l) = length l.
Proof. induction l as [| x l IH]; [done |]. simpl. destruct (item_eqb x host); simpl; congruence. Qed.

Lemma save_one_wf host s : 0 < capacity_ -> wf s -> wf (save_one host s).
Proof.
  intros Hc Hs. unfold save_one. destruct (_ && _ && _); [| done].
  apply store_count_wf. by apply push_spec.
Qed.

Lemma zero_counts : counts_ok (replicate address_types 0) [].
Proof.
  split; [done |]. intros id Hid. by rewrite lookup_replicate_2.
Qed.

Lemma stopped_capacity s : wf s -> stopped_ s = false -> 0 < capacity_.
Proof.
  intros (_ & _ & _ & Hz) Hs. destruct (decide (capacity_ = 0)) as [He |]; [| lia].
  specialize (Hz He). congruence.
Qed.

(** C30: every operation keeps the pool within its configured capacity, keeps the
    count of each address type equal to the number of pooled addresses of that
    type (through eviction, taking, restoring, loading and clearing), and keeps
    the reservation count equal to the number of reserved endpoints. *)
Theorem hosts_invariant o s : wf s -> wf (step o s).
Proof.
  intros Hs. pose proof Hs as (Hl & Hk & He & Hz). destruct o as [file | file | f | host | l | e | e]; simpl.
  - unfold start. destruct (capacity_ =? 0) eqn:Hc; [done |]. destruct (stopped_ s) eqn:Hst; [| done].
    simpl. assert (0 < capacity_) as Hpos by lia.
    assert (wf (set_stopped false s)) as Hw by (unfold wf; simpl; split_and!; try done; lia).
    assert (forall l, wf (fold_left (fun s line => push_line line s) l (set_stopped false s))) as Hf.
    { intros l. apply fold_wf; [| done]. intros. by apply push_line_wf. }
    destruct file as [| l [] | l]; simpl; [done | apply Hf | apply Hf | apply Hf].
  - unfold stop. destruct ((capacity_ =? 0) || stopped_ s) eqn:Hc; [done |].
    assert (wf (set_stopped true s)) as Hw by (unfold wf; simpl; split_and!; done).
    assert (wf (mk [] true (endpoints_ s) 0 (endpoints_count_ s) (replicate address_types 0))) as Hn.
    { unfold wf; simpl. split_and!; try done; [rewrite len_nil; lia | apply zero_counts]. }
    simpl. destruct (buffer_ s), file as [| | | [] |]; done.
  - unfold take. destruct (stopped_ s) eqn:Hst; [done |].
    apply take_loop_wf; [by eapply stopped_capacity | done | done].
  - unfold restore. destruct (stopped_ s) eqn:Hst; [done |].
    destruct (existsb _ _); simpl.
    + unfold wf; simpl. unfold len in *. rewrite length_assign. split_and!; try done; [| by rewrite Hst].
      split; [apply Hk |]. intros id Hid. rewrite assign_counts. by apply Hk.
    + apply push_spec; [by eapply stopped_capacity | done].
  - unfold save. destruct (stopped_ s) eqn:Hst; [done |]. destruct l as [| h l]; [done |]. simpl.
    pose proof (stopped_capacity s Hs Hst). apply fold_wf; [| by apply save_one_wf].
    intros. by apply save_one_wf.
  - unfold reserve. destruct (decide _) as [Hin | Hin]; [done |]. simpl.
    unfold wf; simpl. split_and!; try done. rewrite He, size_union by (by apply disjoint_singleton_l).
    rewrite size_singleton. unfold narrow. rewrite Zplus_mod_idemp_l. f_equal. lia.
  - unfold unreserve. destruct (decide _) as [Hin | Hin]; [| done]. simpl.
    unfold wf; simpl. split_and!; try done. rewrite He.
    assert (base.size (endpoints_ s) = S (base.size (endpoints_ s ∖ {[e]}))) as ->.
    { rewrite size_difference, size_singleton by (by apply singleton_subseteq_l).
      assert (base.size (endpoints_ s) <> 0%nat) as Hne; [| clear -Hne; lia].
      apply size_non_empty_iff. intros Hemp. rewrite Hemp in Hin. by apply elem_of_empty in Hin. }
    unfold narrow. rewrite Zminus_mod_idemp_l. f_equal. lia.
Qed.

(** ** Taking *)

Definition eligible (f : family) (item : address_item) : bool := connectable cfg item && in_family f item.

Definition unreserved (s : t) (item : address_item) : bool := negb (is_reserved (to_endpoint item) s).

Lemma take_loop_spec f passed rest s :
  let '(s', ec, taken) := take_loop f passed rest s in
  endpoints_ s' = endpoints_ s /\
  match taken with
  | Some host => ec = error.success /\ exists l1 l2, rest = l1 ++ host :: l2 /\
      eligible f host = true /\ unreserved s host = true /\
      Forall (fun x => eligible f x = true -> unreserved s x = false) l1 /\
      buffer_ s' = passed ++ filter (fun x => eligible f x = false) l1 ++ l2
  | None => ec = error.address_not_found /\
      Forall (fun x => eligible f x = true -> unreserved s x = false) rest /\
      (buffer_ s = passed ++ rest -> buffer_ s' = passed ++ filter (fun x => eligible f x = false) rest)
  end.
Proof.
  revert passed s. induction rest as [| it rest IH]; intros passed s; simpl.
  { split_and!; try done. }
  rewrite filter_cons. rewrite <- negb_andb. fold (eligible f it).
  destruct (eligible f it) eqn:He; simpl.
  - set (s1 := store_count _). destruct (is_reserved (to_endpoint it) s1) eqn:Hr; simpl.
    + specialize (IH passed s1). destruct (take_loop f passed rest s1) as [[s' ec] [host |]].
      * destruct IH as (Hend & -> & l1 & l2 & -> & Hel & Hun & Hall & Hb). split; [done |].
        split; [done |]. exists (it :: l1), l2. split_and!; try done.
        -- constructor; [| done]. intros _. unfold unreserved. unfold is_reserved in *. simpl in Hr.
           by rewrite Hr.
        -- rewrite filter_cons, decide_False by congruence. done.
      * destruct IH as (Hend & -> & Hall & Hb). split_and!; try done.
        -- constructor; [| done]. intros _. unfold unreserved. unfold is_reserved in *. simpl in Hr.
           by rewrite Hr.
        -- intros _. rewrite Hb by done. done.
    + split_and!; try done. exists [], rest. split_and!; try done.
      unfold unreserved. unfold is_reserved in *. simpl in Hr. by rewrite Hr.
  - specialize (IH (passed ++ [it]) s).
    destruct (take_loop f (passed ++ [it]) rest s) as [[s' ec] [host |]].
    + destruct IH as (Hend & -> & l1 & l2 & -> & Hel & Hun & Hall & Hb). split; [done |].
      split; [done |]. exists (it :: l1), l2. split_and!; try done.
      * constructor; [congruence | done].
      * rewrite Hb, filter_cons, decide_True by done. by rewrite <- app_assoc.
    + destruct IH as (Hend & -> & Hall & Hb). split_and!; try done.
      * constructor; [congruence | done].
      * intros Heq. rewrite Hb by (by rewrite Heq, <- app_assoc). by rewrite <- app_assoc.
Qed.

(** Take gives the oldest pooled address that is connectable, of the asked
    family and not reserved, and not_found only if there is none; it removes
    that address and the reserved ones that it passed over, and retains every
    unconnectable or other-family address in order. *)
Theorem take_oldest f s : stopped_ s = false ->
  let '(s', ec, taken) := take f s in
  match taken with
  | Some host => ec = error.success /\ exists l1 l2, buffer_ s = l1 ++ host :: l2 /\
      eligible f host = true /\ unreserved s host = true /\
      Forall (fun x => eligible f x = true -> unreserved s x = false) l1 /\
      buffer_ s' = filter (fun x => eligible f x = false) l1 ++ l2
  | None => ec = error.address_not_found /\
      Forall (fun x => eligible f x = true -> unreserved s x = false) (buffer_ s) /\
      buffer_ s' = filter (fun x => eligible f x = false) (buffer_ s)
  end.
Proof.
  intros Hst. unfold take. rewrite Hst. pose proof (take_loop_spec f [] (buffer_ s) s) as Hs.
  destruct (take_loop f [] (buffer_ s) s) as [[s' ec] [host |]]; destruct Hs as [_ Hs]; [done |].
  destruct Hs as (? & ? & Hb). split_and!; auto.
Qed.

(** ** Saving *)

(** Addresses are the same if their network address and port are. *)
Definition same (item : address_item) : address_t * Z := (address item, port item).

Lemma item_eqb_same a b : item_eqb a b = true <-> same a = same b.
Proof.
  unfold item_eqb, same. rewrite andb_true_iff, bool_decide_eq_true. split.
  - intros [-> ?]. f_equal. lia.
  - intros. simplify_eq. split; [done | lia].
Qed.

Lemma is_pooled_in h s : is_pooled h s = true <-> same h ∈ map same (buffer_ s).
Proof.
  unfold is_pooled. rewrite existsb_exists, list_elem_of_fmap. split.
  - intros (x & Hx & He). apply item_eqb_same in He. exists x. split; [done |].
    by apply list_elem_of_In.
  - intros (x & He & Hx). exists x. split; [by apply list_elem_of_In |]. by apply item_eqb_same.
Qed.

Lemma sublist_in {A} (l k : list A) x : sublist l k -> x ∈ l -> x ∈ k.
Proof.
  induction 1 as [| y l k Hs IH | y l k Hs IH]; intros Hx; [done | |].
  - apply elem_of_cons in Hx as [-> | Hx]; [apply list_elem_of_here | apply list_elem_of_further; auto].
  - apply list_elem_of_further; auto.
Qed.

(** What one save may do: nothing, or append an acceptable new address. *)
Lemma save_one_spec h s : wf s -> stopped_ s = false ->
  let s' := save_one h s in
  wf s' /\ stopped_ s' = false /\ endpoints_ s' = endpoints_ s /\
  (NoDup (map same (buffer_ s)) -> NoDup (map same (buffer_ s'))) /\
  len (buffer_ s) <= len (buffer_ s') <= len (buffer_ s) + 1 /\
  (len (buffer_ s) < capacity_ -> exists k, buffer_ s' = buffer_ s ++ k) /\
  (forall x, x ∈ buffer_ s' -> x ∈ buffer_ s \/
    x = h /\ insufficient h = false /\ is_reserved (to_endpoint h) s = false) /\
  (insufficient h = false -> is_reserved (to_endpoint h) s = false ->
    same h ∈ map same (buffer_ s')).
Proof.
  intros Hs Hst. pose proof (stopped_capacity s Hs Hst) as Hc. unfold save_one.
  destruct (insufficient h) eqn:Hi; cbn [negb andb]; 
    [by split_and!; auto; try lia; exists []; rewrite app_nil_r |].
  destruct (is_reserved _ s) eqn:Hr; cbn [negb andb];
    [by split_and!; auto; try lia; exists []; rewrite app_nil_r |].
  destruct (is_pooled h s) eqn:Hp; cbn [negb andb].
  { apply is_pooled_in in Hp. split_and!; auto; try lia. exists []. by rewrite app_nil_r. }
  destruct (push_spec h s Hc Hs) as (Hw & He & Hst' & Hb).
  set (kept := if len (buffer_ s) =? capacity_ then tail (buffer_ s) else buffer_ s) in *.
  assert (sublist kept (buffer_ s)) as Hsub.
  { unfold kept. destruct (_ =? _); [| done]. destruct (buffer_ s); [done |]. by apply sublist_cons. }
  assert (kept = buffer_ s \/ len (buffer_ s) = len kept + 1) as Hlen.
  { unfold kept. destruct (_ =? _); [| by left]. destruct (buffer_ s) as [| x l]; [by left |].
    right. simpl. rewrite len_cons. lia. }
  cbv zeta. change (buffer_ (store_count (push h s))) with (buffer_ (push h s)).
  assert (len (buffer_ s) < capacity_ -> kept = buffer_ s) as Hkept.
  { intros. unfold kept. destruct (_ =? _) eqn:?; [lia | done]. }
  rewrite Hb. split_and!; try done; [change (stopped_ (push h s) = false); by rewrite Hst' | | | | | |].
  - intros Hn. rewrite map_app. apply NoDup_app. split_and!.
    + eapply sublist_NoDup; [exact Hn | exact (fmap_sublist same _ _ Hsub)].
    + intros x Hx Hin. apply list_elem_of_singleton in Hin as ->.
      assert (is_pooled h s = true); [| congruence]. apply is_pooled_in.
      exact (sublist_in _ _ _ (fmap_sublist same _ _ Hsub) Hx).
    + apply NoDup_singleton.
  - rewrite len_app. change (len [h]) with 1. destruct Hlen as [-> |]; lia.
  - rewrite len_app. change (len [h]) with 1. destruct Hlen as [-> |]; lia.
  - intros Hlt. rewrite (Hkept Hlt). by exists [h].
  - intros x Hx. apply elem_of_app in Hx as [Hx | Hx].
    + left. by eapply sublist_in.
    + apply list_elem_of_singleton in Hx as ->. by right.
  - intros _ _. rewrite map_app. apply elem_of_app. right. by apply list_elem_of_singleton.
Qed.

Lemma save_all_spec l s : wf s -> stopped_ s = false ->
  let s' := fold_left (fun s host => save_one host s) l s in
  wf s' /\
  (NoDup (map same (buffer_ s)) -> NoDup (map same (buffer_ s'))) /\
  len (buffer_ s) <= len (buffer_ s') <= len (buffer_ s) + len l /\
  (forall x, x ∈ buffer_ s' -> x ∈ buffer_ s \/
    x ∈ l /\ insufficient x = false /\ is_reserved (to_endpoint x) s = false) /\
  (len (buffer_ s) + len l <= capacity_ ->
    (exists k, buffer_ s' = buffer_ s ++ k) /\
    forall x, x ∈ l -> insufficient x = false -> is_reserved (to_endpoint x) s = false ->
      same x ∈ map same (buffer_ s')).
Proof.
  revert s. induction l as [| h l IH]; intros s Hs Hst; cbn [fold_left].
  { rewrite len_nil. split_and!; auto; try lia. intros _. split; [exists []; by rewrite app_nil_r |].
    intros x Hx. by apply not_elem_of_nil in Hx. }
  destruct (save_one_spec h s Hs Hst) as (Hw1 & Hst1 & He1 & Hn1 & Hl1 & Hk1 & Hin1 & Hout1).
  set (s1 := save_one h s) in *. destruct (IH s1 Hw1 Hst1) as (Hw & Hn & Hl & Hin & Hout). clear IH.
  set (s' := fold_left _ l s1) in *. rewrite len_cons. split_and!; auto; try lia.
  - intros x Hx. destruct (Hin x Hx) as [Hx1 | (Hx1 & Hi & Hr)].
    + destruct (Hin1 x Hx1) as [? | (-> & ? & ?)]; [by left | right].
      split; [apply list_elem_of_here | done].
    + right. split; [by apply list_elem_of_further |]. split; [done |].
      unfold is_reserved in *. by rewrite He1 in Hr.
  - intros Hfit. pose proof (len_nonneg l).
    destruct Hk1 as [k1 Hk1]; [lia |]. destruct Hout as [[k Hk] Hout]; [lia |].
    split; [exists (k1 ++ k); by rewrite Hk, Hk1, app_assoc |].
    intros x Hx Hi Hr. apply elem_of_cons in Hx as [-> | Hx].
    + specialize (Hout1 Hi Hr). rewrite Hk, map_app. apply elem_of_app. by left.
    + apply Hout; [done | done |]. unfold is_reserved in *. by rewrite He1.
Qed.

(** Save never pools an address twice, nor one that is reserved or lacks
    the required services; every acceptable address of the message that fits
    the capacity is pooled, and the reported count is the growth of the pool
    (which is less than the number accepted once the pool is full). *)
Theorem save_pools addresses s : wf s -> stopped_ s = false -> addresses <> [] ->
  let '(s', ec, n) := save addresses s in
  ec = error.success /\ wf s' /\
  (NoDup (map same (buffer_ s)) -> NoDup (map same (buffer_ s'))) /\
  n = len (buffer_ s') - len (buffer_ s) /\ 0 <= n <= len addresses /\
  (forall x, x ∈ buffer_ s' -> x ∈ buffer_ s \/
    x ∈ addresses /\ insufficient x = false /\ is_reserved (to_endpoint x) s = false) /\
  (len (buffer_ s) + len addresses <= capacity_ ->
    (exists k, buffer_ s' = buffer_ s ++ k) /\
    forall x, x ∈ addresses -> insufficient x = false -> is_reserved (to_endpoint x) s = false ->
      same x ∈ map same (buffer_ s')).
Proof.
  intros Hs Hst Hne. unfold save. rewrite Hst. destruct addresses as [| h l]; [done |].
  clear Hne. set (all := h :: l). clearbody all. clear h l.
  pose proof (save_all_spec all s Hs Hst) as (Hw & Hn & Hl & Hin & Hout).
  set (s' := fold_left _ all s) in *. clearbody s'.
  assert (len (buffer_ s') < 2 ^ 64) by (destruct Hw as [? _]; lia).
  rewrite usub_le by (pose proof (len_nonneg (buffer_ s)); lia).
  split_and!; try done; lia.
Qed.

(** Fetch gives a window of the pool, cyclic from the random start and of
    the pool's size over the random divisor, no longer than a message allows:
    successive pooled addresses, none twice. *)
Theorem fetch_window divide start_index s :
  stopped_ s = false -> buffer_ s <> [] -> 1 <= divide -> 0 <= start_index ->
  let '(ec, out) := fetch divide start_index s in
  ec = error.success /\
  len out = max_address `min` (len (buffer_ s) / divide) /\
  (forall i, (i < length out)%nat ->
    out !! i = buffer_ s !! Z.to_nat ((start_index + Z.of_nat i) `mod` len (buffer_ s))) /\
  (forall i j, (i < length out)%nat -> (j < length out)%nat ->
    (start_index + Z.of_nat i) `mod` len (buffer_ s) =
    (start_index + Z.of_nat j) `mod` len (buffer_ s) -> i = j).
Proof.
  intros Hst Hne Hd Hi. unfold fetch. rewrite Hst.
  destruct (buffer_ s) as [| first rest] eqn:Hb; [done |]. rewrite <- Hb in *.
  set (n := len (buffer_ s)). assert (0 < n) as Hn.
  { unfold n. rewrite Hb, len_cons. pose proof (len_nonneg rest). lia. }
  set (k := max_address `min` (n / divide)).
  assert (0 <= n / divide <= n) as Hdiv.
  { split; [apply Z.div_pos; lia |]. apply Z.div_le_upper_bound; [lia |]. nia. }
  assert (0 <= k <= n) as Hk by (unfold k, max_address; lia).
  set (f := fun c : nat => _). assert (length (map f (seq 0 (Z.to_nat k))) = Z.to_nat k) as Hlen.
  { by rewrite length_map, length_seq. }
  split; [done |]. split; [unfold len; rewrite Hlen; lia |]. rewrite Hlen. split.
  - intros i Hlt. rewrite list_lookup_fmap, lookup_seq_lt by done. simpl. unfold f.
    pose proof (Z.mod_pos_bound (start_index + Z.of_nat i) n Hn).
    destruct (lookup_lt_is_Some_2 (buffer_ s) (Z.to_nat ((start_index + Z.of_nat i) `mod` n)))
      as [x Hx]; [unfold n, len in *; lia |].
    rewrite Hx. f_equal. by apply nth_lookup_Some.
  - intros i j Hli Hlj Heq.
    pose proof (Z.div_mod (start_index + Z.of_nat i) n ltac:(lia)) as H1.
    pose proof (Z.div_mod (start_index + Z.of_nat j) n ltac:(lia)) as H2.
    rewrite Heq in H1.
    assert ((start_index + Z.of_nat i) / n = (start_index + Z.of_nat j) / n); [| lia]. nia.
Qed.
End hosts.

(** A small pool: one reserved, one tor address, and one to take. *)
Definition example_settings : settings :=
  mk_settings 3 false true true true true 0 (fun _ => false) (fun _ => false) (fun _ => true).

Definition example_host (n : Z) : address_item :=
  address_item.mk 0 1 (ipv4_t [0; 0; 0; 0; 0; 0; 0; 0; 0; 0; 255; 255; 1; 2; 3; n]) 8333.

Definition example_endpoint (item : address_item) : Z := zget (value (address item)) 15.

Definition example_pool : t (E := Z) :=
  mk [example_host 7; address_item.mk 0 1 (torv3_t (replicate 32 1)) 8333; example_host 8] false
    {[7]} 3 1 [0; 2; 0; 0; 1; 0; 0].

Lemma example_pool_wf : wf example_settings example_pool.
Proof.
  unfold wf, counts_ok. split_and!; try done.
  intros id Hid. unfold address_types in Hid. by repeat (destruct id as [| id]; [done |]); lia.
Qed.

Lemma hosts_invariant_witness : wf example_settings
  (step example_endpoint (fun _ => None) example_settings 1 (Save [example_host 9; example_host 8])
    example_pool).
Proof.
  refine (hosts_invariant example_endpoint (fun _ => None) example_settings 1 _
    (Save [example_host 9; example_host 8]) example_pool example_pool_wf).
  by vm_compute.
Defined.

Lemma take_oldest_witness :
  (take example_endpoint example_settings ipv4 example_pool).2 = Some (example_host 8) /\
  let '(s', ec, taken) := take example_endpoint example_settings ipv4 example_pool in
  match taken with
  | Some host => ec = error.success /\ exists l1 l2, buffer_ example_pool = l1 ++ host :: l2 /\
      eligible example_settings ipv4 host = true /\
      unreserved example_endpoint example_pool host = true /\
      Forall (fun x => eligible example_settings ipv4 x = true ->
        unreserved example_endpoint example_pool x = false) l1 /\
      buffer_ s' = filter (fun x => eligible example_settings ipv4 x = false) l1 ++ l2
  | None => ec = error.address_not_found /\
      Forall (fun x => eligible example_settings ipv4 x = true ->
        unreserved example_endpoint example_pool x = false) (buffer_ example_pool) /\
      buffer_ s' = filter (fun x => eligible example_settings ipv4 x = false) (buffer_ example_pool)
  end.
Proof.
  split; [reflexivity |].
  refine (take_oldest example_endpoint example_settings ipv4 example_pool _). reflexivity.
Defined.

Lemma save_pools_witness :
  let '(s', ec, n) := save example_endpoint example_settings 1
    [example_host 9; example_host 8] example_pool in
  ec = error.success /\ wf example_settings s'.
Proof.
  pose proof (save_pools example_endpoint example_settings 1 ltac:(by vm_compute)
    [example_host 9; example_host 8] example_pool example_pool_wf eq_refl ltac:(done)) as H.
  destruct (save _ _ _ _ _) as [[s' ec] n]. destruct H as (? & ? & _). by split.
Defined.

Lemma fetch_window_witness :
  let '(ec, out) := fetch 1 2 example_pool in
  ec = error.success /\ len out = 3.
Proof.
  pose proof (fetch_window 1 2 example_pool eq_refl ltac:(done) ltac:(lia) ltac:(lia)) as H.
  destruct (fetch 1 2 example_pool) as [ec out]. destruct H as (? & ? & _). by split.
Defined.
End hosts.
