(* ===== verification/TlsCodec.v ===== *)
(** * TlsCodec: the tls presentation language

    Models [src/tls/codec.cpp]: the big-endian reader and writer of rfc8446
    section 3.  A reader is its remaining bytes and its validity; reads are
    state passing and use the notation of the reader monad.  A writer is the
    bytes it holds. *)

From S2P Require Import Prelude.
From S2P Require Import Stream.

Module tls_reader.

Record t := mk { data_ : bytes; valid_ : bool }.

Definition make (data : bytes) : t := mk data true.

Definition is_valid (r : t) : bool := valid_ r.

Definition is_complete (r : t) : bool := valid_ r && bool_decide (data_ r = []).

Definition invalidate (r : t) : t := mk [] false.

Definition read_bytes (size : Z) (r : t) : bytes * t :=
  if negb (valid_ r) || (size >? len (data_ r)) then ([], invalidate r) else
  (ztake size (data_ r), mk (zdrop size (data_ r)) (valid_ r)).

Definition read_8 (r : t) : Z * t :=
  let '(l, r) := read_bytes 1 r in
  (if bool_decide (l = []) then 0 else zget l 0, r).

Definition read_16 (r : t) : Z * t :=
  let '(l, r) := read_bytes 2 r in
  if bool_decide (l = []) then (0, r) else
  let high := narrow 16 (Z.shiftl (zget l 0) 8) in
  (Z.lor high (zget l 1), r).

Definition read_24 (r : t) : Z * t :=
  let '(l, r) := read_bytes 3 r in
  if bool_decide (l = []) then (0, r) else
  (fold_left (fun value byte => Z.lor (narrow 32 (Z.shiftl value 8)) byte) l 0, r).

Definition read_vector (read_size : t -> Z * t) (r : t) : bytes * t :=
  let '(size, r) := read_size r in
  if valid_ r then read_bytes size r else ([], r).

Definition read_vector_8 : t -> bytes * t := read_vector read_8.
Definition read_vector_16 : t -> bytes * t := read_vector read_16.
Definition read_vector_24 : t -> bytes * t := read_vector read_24.

(** The loop of [read_list]: the list reader and the values read. *)
Definition read_list_step (s : t * list Z) : (t * list Z) + (t * list Z) :=
  let '(source, out) := s in
  if is_valid source && negb (is_complete source) then
    let '(value, source) := read_16 source in inl (source, out ++ [value])
  else inr (source, out).

Definition read_list_measure (s : t * list Z) : nat :=
  length (data_ s.1) + (if valid_ s.1 then 1 else 0).

Definition read_list (l : bytes) (r : t) : list Z * t :=
  if negb (valid_ r) then ([], r) else
  match while read_list_measure read_list_step (make l, []) with
  | Some (source, out) =>
    if negb (is_valid source) then ([], invalidate r) else (out, r)
  | None => ([], r)
  end.

Definition read_list_8 (r : t) : list Z * t :=
  let '(l, r) := read_vector_8 r in read_list l r.

Definition read_list_16 (r : t) : list Z * t :=
  let '(l, r) := read_vector_16 r in read_list l r.

End tls_reader.

Module tls_writer.

Definition write_8 (value : Z) (w : bytes) : bytes := w ++ [value].

Definition write_16 (value : Z) (w : bytes) : bytes :=
  (w ++ [narrow 8 (Z.shiftr value 8)]) ++ [narrow 8 value].

Definition write_24 (value : Z) (w : bytes) : bytes :=
  ((w ++ [narrow 8 (Z.shiftr value 16)]) ++ [narrow 8 (Z.shiftr value 8)]) ++ [narrow 8 value].

Definition write_bytes (l w : bytes) : bytes := w ++ l.

Definition write_vector_8 (l w : bytes) : bytes := write_bytes l (write_8 (narrow 8 (len l)) w).
Definition write_vector_16 (l w : bytes) : bytes := write_bytes l (write_16 (narrow 16 (len l)) w).
Definition write_vector_24 (l w : bytes) : bytes := write_bytes l (write_24 (narrow 32 (len l)) w).

End tls_writer.

(** ** Lemmas *)

Module tls_codec.
Import tls_reader tls_writer.

(** Reading the encoding of [v] gives it and leaves what follows. *)
Definition takes {A} (op : t -> A * t) (l : bytes) (v : A) : Prop :=
  forall k, op (mk (l ++ k) true) = (v, mk k true).

(** A read that succeeds has taken the encoding of what it gives. *)
Definition exact {A} (op : t -> A * t) (enc : A -> bytes) (ok : A -> Prop) : Prop :=
  forall r v r', bytes_ok (data_ r) -> op r = (v, r') -> valid_ r' = true ->
    valid_ r = true /\ data_ r = enc v ++ data_ r' /\ ok v.

Lemma takes_bind {A B} (op : t -> A * t) (f : A -> t -> B * t) l k a b :
  takes op l a -> takes (f a) k b -> takes (bind op f) (l ++ k) b.
Proof. intros Ha Hb m. unfold bind. by rewrite <- app_assoc, Ha. Qed.

Lemma read_bytes_takes l : takes (read_bytes (len l)) l l.
Proof.
  intros k. unfold read_bytes. simpl. rewrite len_app. pose proof (len_nonneg k).
  destruct (len l >? _) eqn:?; [lia |]. by rewrite ztake_app_len, zdrop_app_len.
Qed.

Lemma read_bytes_exact n : 0 <= n -> exact (read_bytes n) (fun l => l) (fun l => bytes_ok l /\ len l = n).
Proof.
  intros Hn r v r' Hr H Hv. unfold read_bytes in H.
  destruct (negb (valid_ r) || (n >? len (data_ r))) eqn:Hc; simplify_eq/=.
  apply orb_false_iff in Hc as [Hc ?]. apply negb_false_iff in Hc. rewrite ztake_zdrop.
  split_and!; [done | done | by apply Forall_ztake | rewrite len_ztake; lia].
Qed.

Lemma len_one (l : bytes) : len l = 1 -> exists a, l = [a].
Proof. unfold len. destruct l as [| a [| b l]]; simpl; intros; [lia | by exists a | lia]. Qed.

Lemma len_two (l : bytes) : len l = 2 -> exists a b, l = [a; b].
Proof. unfold len. destruct l as [| a [| b [| c l]]]; simpl; intros; [lia | lia | by exists a, b | lia]. Qed.

Lemma len_three (l : bytes) : len l = 3 -> exists a b c, l = [a; b; c].
Proof.
  unfold len. destruct l as [| a [| b [| c [| d l]]]]; simpl; intros;
    [lia | lia | lia | by exists a, b, c | lia].
Qed.

(** The digits of the code are the big-endian ones. *)
Lemma write_16_be v w : u16 v -> write_16 v w = w ++ be_bytes 2 v.
Proof.
  intros Hv. unfold write_16. rewrite <- app_assoc. f_equal. simpl. unfold narrow.
  rewrite Z.shiftr_div_pow2 by lia. done.
Qed.

Lemma write_24_be v w : in_width 24 v -> write_24 v w = w ++ be_bytes 3 v.
Proof.
  intros Hv. unfold write_24. rewrite <- !app_assoc. f_equal. simpl. unfold narrow.
  rewrite !Z.shiftr_div_pow2 by lia. rewrite Zdiv_Zdiv by lia. done.
Qed.

Lemma lor_byte a b : u8 b -> Z.lor (a * 256) b = a * 256 + b.
Proof.
  intros Hb. pose proof (lor_add a b 8 ltac:(lia) Hb) as H.
  by rewrite Z.shiftl_mul_pow2 in H by lia.
Qed.

Lemma be_value_2 a b : be_value [a; b] = a * 256 + b.
Proof. unfold be_value. simpl. lia. Qed.

Lemma be_value_3 a b c : be_value [a; b; c] = (a * 256 + b) * 256 + c.
Proof. unfold be_value. simpl. lia. Qed.

Lemma value_16 a b : u8 a -> u8 b -> Z.lor (narrow 16 (Z.shiftl a 8)) b = be_value [a; b].
Proof.
  intros Ha Hb. rewrite be_value_2, Z.shiftl_mul_pow2 by lia. unfold narrow.
  rewrite Z.mod_small by width. by apply lor_byte.
Qed.

Lemma value_24 a b c : u8 a -> u8 b -> u8 c ->
  fold_left (fun value byte => Z.lor (narrow 32 (Z.shiftl value 8)) byte) [a; b; c] 0 =
    be_value [a; b; c].
Proof.
  intros Ha Hb Hc. rewrite be_value_3. simpl. unfold narrow. rewrite !Z.shiftl_mul_pow2 by lia.
  change (2 ^ 8) with 256. rewrite Z.mul_0_l, Z.mod_0_l, Z.lor_0_l by lia.
  rewrite (Z.mod_small (a * 256)), lor_byte by width. rewrite Z.mod_small by width.
  by apply lor_byte.
Qed.

Lemma be_bytes_of (l : bytes) n : bytes_ok l -> length l = n -> be_bytes n (be_value l) = l.
Proof. intros Hl <-. by apply be_bytes_value. Qed.

Lemma read_8_takes v : takes read_8 [v] v.
Proof. intros k. unfold read_8. change 1 with (len [v]). by rewrite read_bytes_takes. Qed.

Lemma read_8_exact : exact read_8 (fun v => [v]) u8.
Proof.
  intros r v r' Hr H Hv. unfold read_8 in H. destruct (read_bytes 1 r) as [l r1] eqn:Hb. simplify_eq.
  destruct (read_bytes_exact 1 ltac:(lia) _ _ _ Hr Hb Hv) as (? & Hd & Hl & Hn).
  apply len_one in Hn as [a ->]. simpl in *. rewrite Forall_singleton in Hl. done.
Qed.

Lemma read_16_takes v : u16 v -> takes read_16 (be_bytes 2 v) v.
Proof.
  intros Hv k. unfold read_16.
  destruct (len_two (be_bytes 2 v)) as (a & b & He); [apply len_be_bytes |].
  pose proof (be_bytes_ok 2 v) as Hok. rewrite He in *.
  change 2 with (len [a; b]). rewrite read_bytes_takes. simpl.
  rewrite !Forall_cons in Hok. destruct Hok as (Ha & Hb & _).
  change (zget [a; b] 0) with a. change (zget [a; b] 1) with b.
  rewrite value_16, <- He, be_value_bytes by done. done.
Qed.

Lemma read_16_exact : exact read_16 (be_bytes 2) u16.
Proof.
  intros r v r' Hr H Hv. unfold read_16 in H. destruct (read_bytes 2 r) as [l r1] eqn:Hb.
  destruct (bool_decide (l = [])) eqn:Hl0.
  - simplify_eq. destruct (read_bytes_exact 2 ltac:(lia) _ _ _ Hr Hb Hv) as (_ & _ & _ & Hn).
    apply bool_decide_eq_true in Hl0 as ->. rewrite len_nil in Hn. lia.
  - simplify_eq. destruct (read_bytes_exact 2 ltac:(lia) _ _ _ Hr Hb Hv) as (? & Hd & Hl & Hn).
    apply len_two in Hn as (a & b & ->). pose proof Hl as Hl'.
    rewrite !Forall_cons in Hl'. destruct Hl' as (Ha & Hb' & _).
    change (zget [a; b] 0) with a. change (zget [a; b] 1) with b. rewrite value_16 by done.
    rewrite be_bytes_of by done. split_and!; [done.. |]. apply (be_value_bound [a; b]). done.
Qed.

Lemma read_24_takes v : in_width 24 v -> takes read_24 (be_bytes 3 v) v.
Proof.
  intros Hv k. unfold read_24.
  destruct (len_three (be_bytes 3 v)) as (a & b & c & He); [apply len_be_bytes |].
  pose proof (be_bytes_ok 3 v) as Hok. rewrite He in *.
  change 3 with (len [a; b; c]). rewrite read_bytes_takes.
  rewrite !Forall_cons in Hok. destruct Hok as (Ha & Hb & Hc & _).
  rewrite value_24, <- He, be_value_bytes by done. rewrite He. done.
Qed.

Lemma read_24_exact : exact read_24 (be_bytes 3) (in_width 24).
Proof.
  intros r v r' Hr H Hv. unfold read_24 in H. destruct (read_bytes 3 r) as [l r1] eqn:Hb.
  destruct (bool_decide (l = [])) eqn:Hl0.
  - simplify_eq. destruct (read_bytes_exact 3 ltac:(lia) _ _ _ Hr Hb Hv) as (_ & _ & _ & Hn).
    apply bool_decide_eq_true in Hl0 as ->. rewrite len_nil in Hn. lia.
  - simplify_eq. destruct (read_bytes_exact 3 ltac:(lia) _ _ _ Hr Hb Hv) as (? & Hd & Hl & Hn).
    apply len_three in Hn as (a & b & c & ->). pose proof Hl as Hl'.
    rewrite !Forall_cons in Hl'. destruct Hl' as (Ha & Hb' & Hc & _).
    rewrite value_24, be_bytes_of by done. split_and!; [done.. |]. apply (be_value_bound [a; b; c]). done.
Qed.
(** ** Vectors and lists *)

Lemma read_vector_takes op n l :
  (forall v, 0 <= v < 256 ^ Z.of_nat n -> takes op (be_bytes n v) v) ->
  len l < 256 ^ Z.of_nat n -> takes (read_vector op) (be_bytes n (len l) ++ l) l.
Proof.
  intros Hop Hl k. pose proof (len_nonneg l). unfold read_vector.
  rewrite <- app_assoc, Hop by lia. simpl. apply read_bytes_takes.
Qed.

Lemma read_vector_exact op n :
  exact op (be_bytes n) (fun v => 0 <= v < 256 ^ Z.of_nat n) ->
  exact (read_vector op) (fun l => be_bytes n (len l) ++ l)
    (fun l => bytes_ok l /\ len l < 256 ^ Z.of_nat n).
Proof.
  intros Hop r l r' Hr H Hv. unfold read_vector in H. destruct (op r) as [v r1] eqn:Hb.
  destruct (valid_ r1) eqn:H1; [| simplify_eq; congruence].
  destruct (Hop _ _ _ Hr Hb H1) as (Hr0 & Hd & Hv0).
  assert (bytes_ok (data_ r1)) as Hr1 by (rewrite Hd in Hr; by apply Forall_app in Hr as [_ ?]).
  destruct (read_bytes_exact v ltac:(lia) _ _ _ Hr1 H Hv) as (_ & Hd1 & Hl & Hn).
  rewrite Hn, <- app_assoc, <- Hd1. split_and!; [done.. | lia].
Qed.

(** The sixteen bit integers of a list. *)
Fixpoint words (l : bytes) : list Z :=
  match l with a :: b :: l => be_value [a; b] :: words l | _ => [] end.

Definition unwords (l : list Z) : bytes := concat (map (be_bytes 2) l).

Lemma bytes_pairs_ind (P : bytes -> Prop) :
  P [] -> (forall a, P [a]) -> (forall a b l, P l -> P (a :: b :: l)) -> forall l, P l.
Proof.
  intros H0 H1 H2 l. enough (P l /\ forall a, P (a :: l)) as [H _] by done.
  induction l as [| b l [IH IH']]; split; auto.
Qed.

Lemma pair_ok a b : u8 a -> u8 b -> bytes_ok [a; b].
Proof. intros. by rewrite !Forall_cons, Forall_nil. Qed.

Lemma read_list_decreases : decreases (fun _ => True) read_list_measure read_list_step.
Proof.
  intros [[d v] out] s' _ H. split; [done |]. unfold read_list_step, is_complete in H. simpl in H.
  destruct v; simpl in H; [| discriminate]. case_bool_decide as Hd; simpl in H; [discriminate |].
  unfold read_16, read_bytes in H. simpl in H. pose proof (len_nonneg d).
  destruct (2 >? len d) eqn:H2; simpl in H; simplify_eq; unfold read_list_measure; simpl; [lia |].
  destruct d as [| a [| b d]]; [done | simpl in H2; unfold len in H2; simpl in H2; lia |].
  simpl in H. simplify_eq. unfold zdrop. simpl. rewrite drop_0. lia.
Qed.

Lemma read_list_loop l : bytes_ok l -> forall out,
  exists out', while read_list_measure read_list_step (make l, out) =
    Some (if Nat.even (length l) then (make [], out ++ words l) else (invalidate (make l), out')).
Proof.
  induction l as [| a | a b l IH] using bytes_pairs_ind; intros Hl out;
    rewrite (while_unfold _ _ _ _ read_list_decreases I).
  - exists []. simpl. by rewrite app_nil_r.
  - exists (out ++ [0]). unfold read_list_step, is_complete. simpl.
    rewrite (while_unfold _ _ _ _ read_list_decreases I). done.
  - rewrite !Forall_cons in Hl. destruct Hl as (Ha & Hb & Hl).
    destruct (IH Hl (out ++ [be_value [a; b]])) as [out' He]. exists out'.
    change (make (a :: b :: l)) with (mk ([a; b] ++ l) true).
    unfold read_list_step at 1. unfold is_complete. cbn [is_valid valid_ data_ andb].
    pose proof (pair_ok a b Ha Hb) as Hab.
    pose proof (read_16_takes (be_value [a; b])) as Ht. rewrite be_bytes_of in Ht by done.
    rewrite (Ht (be_value_bound [a; b] Hab) l).
    cbn [app negb]. rewrite bool_decide_eq_false_2 by done. cbn [negb]. cbv iota. change (mk l true) with (make l). rewrite He. simpl.
    destruct (Nat.even (length l)); [by rewrite <- app_assoc | done].
Qed.

Lemma read_list_spec l r : bytes_ok l -> valid_ r = true ->
  read_list l r = if Nat.even (length l) then (words l, r) else ([], invalidate r).
Proof.
  intros Hl Hv. unfold read_list. rewrite Hv. simpl.
  destruct (read_list_loop l Hl []) as [out' ->]. by destruct (Nat.even (length l)).
Qed.

Lemma unwords_cons v l : unwords (v :: l) = be_bytes 2 v ++ unwords l.
Proof. done. Qed.

Lemma words_unwords l : Forall u16 l -> words (unwords l) = l.
Proof.
  induction 1 as [| v l Hv Hl IH]; [done |]. rewrite unwords_cons.
  pose proof (be_value_bytes 2 v Hv) as Hb.
  destruct (len_two (be_bytes 2 v) (len_be_bytes 2 v)) as (a & b & He). rewrite He in *.
  cbn [app words]. by rewrite IH, Hb.
Qed.

Lemma unwords_words l : bytes_ok l -> Nat.even (length l) = true ->
  unwords (words l) = l /\ Forall u16 (words l).
Proof.
  induction l as [| a | a b l IH] using bytes_pairs_ind; intros Hl He; [done | done |].
  rewrite !Forall_cons in Hl. destruct Hl as (Ha & Hb & Hl). destruct (IH Hl He) as [IH1 IH2].
  cbn [words]. rewrite unwords_cons, IH1.
  pose proof (pair_ok a b Ha Hb) as Hab.
  rewrite be_bytes_of by done. split; [done |]. constructor; [| done].
  apply (be_value_bound [a; b] Hab).
Qed.

Lemma length_unwords l : length (unwords l) = (2 * length l)%nat.
Proof.
  induction l as [| v l IH]; [done |].
  rewrite unwords_cons, length_app, length_be_bytes, IH. simpl. lia.
Qed.

Lemma unwords_ok l : bytes_ok (unwords l).
Proof. induction l; [constructor |]. rewrite unwords_cons. apply Forall_app. split; [apply be_bytes_ok | done]. Qed.

(** A list is read from a vector of its elements. *)
Definition read_list_of (op : t -> bytes * t) (r : t) : list Z * t :=
  let '(l, r) := op r in read_list l r.

Lemma read_list_takes op enc l : Forall u16 l -> takes op enc (unwords l) ->
  takes (read_list_of op) enc l.
Proof.
  intros Hl Ht k. unfold read_list_of. rewrite Ht, read_list_spec by (done || apply unwords_ok).
  rewrite length_unwords. replace (Nat.even _) with true by (by rewrite Nat.even_mul).
  by rewrite words_unwords.
Qed.

Lemma read_list_exact op enc ok :
  exact op enc (fun l => bytes_ok l /\ ok l) ->
  exact (read_list_of op) (fun l => enc (unwords l)) (fun l => Forall u16 l /\ ok (unwords l)).
Proof.
  intros Hop r l r' Hr H Hv. unfold read_list_of in H. destruct (op r) as [d r1] eqn:Hd.
  destruct (valid_ r1) eqn:H1.
  - destruct (Hop _ _ _ Hr Hd H1) as (? & Hd1 & Hok & Ho). rewrite read_list_spec in H by done.
    destruct (Nat.even (length d)) eqn:He; simplify_eq.
    destruct (unwords_words d Hok He) as [-> ?]. done.
  - unfold read_list in H. rewrite H1 in H. simpl in H. simplify_eq. congruence.
Qed.
(** ** Structures

    A structure of the presentation language is a sequence of fields. *)

Inductive shape := s8 | s16 | s24 | sbytes (n : Z) | svec8 | svec16 | svec24 | slist8 | slist16.

Inductive field := number (v : Z) | chunk (l : bytes) | integers (l : list Z).

Definition as_field {A} (f : A -> field) (op : t -> A * t) (r : t) : field * t :=
  let '(a, r) := op r in (f a, r).

Definition read_field (s : shape) : t -> field * t :=
  match s with
  | s8 => as_field number read_8
  | s16 => as_field number read_16
  | s24 => as_field number read_24
  | sbytes n => as_field chunk (read_bytes n)
  | svec8 => as_field chunk read_vector_8
  | svec16 => as_field chunk read_vector_16
  | svec24 => as_field chunk read_vector_24
  | slist8 => as_field integers read_list_8
  | slist16 => as_field integers read_list_16
  end.

Definition write_list (l : list Z) : bytes := fold_left (fun w v => write_16 v w) l [].

Definition write_field (s : shape) (f : field) (w : bytes) : bytes :=
  match s, f with
  | s8, number v => write_8 v w
  | s16, number v => write_16 v w
  | s24, number v => write_24 v w
  | sbytes _, chunk l => write_bytes l w
  | svec8, chunk l => write_vector_8 l w
  | svec16, chunk l => write_vector_16 l w
  | svec24, chunk l => write_vector_24 l w
  | slist8, integers l => write_vector_8 (write_list l) w
  | slist16, integers l => write_vector_16 (write_list l) w
  | _, _ => w
  end.

Definition field_ok (s : shape) (f : field) : Prop :=
  match s, f with
  | s8, number v => u8 v
  | s16, number v => u16 v
  | s24, number v => in_width 24 v
  | sbytes n, chunk l => bytes_ok l /\ len l = n
  | svec8, chunk l => bytes_ok l /\ len l < 256
  | svec16, chunk l => bytes_ok l /\ len l < 65536
  | svec24, chunk l => bytes_ok l /\ len l < 16777216
  | slist8, integers l => Forall u16 l /\ 2 * len l < 256
  | slist16, integers l => Forall u16 l /\ 2 * len l < 65536
  | _, _ => False
  end.

Definition shape_ok (s : shape) : Prop := match s with sbytes n => 0 <= n | _ => True end.

Fixpoint read_fields (ss : list shape) (r : t) : list field * t :=
  match ss with
  | [] => ([], r)
  | s :: ss =>
    let '(f, r) := read_field s r in
    let '(fs, r) := read_fields ss r in (f :: fs, r)
  end.

Definition write_fields (ss : list shape) (fs : list field) (w : bytes) : bytes :=
  fold_left (fun w '(s, f) => write_field s f w) (zip ss fs) w.

(** The bytes of a field. *)
Definition encode (s : shape) (f : field) : bytes :=
  match s, f with
  | s8, number v => [v]
  | s16, number v => be_bytes 2 v
  | s24, number v => be_bytes 3 v
  | sbytes _, chunk l => l
  | svec8, chunk l => be_bytes 1 (len l) ++ l
  | svec16, chunk l => be_bytes 2 (len l) ++ l
  | svec24, chunk l => be_bytes 3 (len l) ++ l
  | slist8, integers l => be_bytes 1 (len (unwords l)) ++ unwords l
  | slist16, integers l => be_bytes 2 (len (unwords l)) ++ unwords l
  | _, _ => []
  end.

Lemma len_unwords l : len (unwords l) = 2 * len l.
Proof. unfold len. rewrite length_unwords. lia. Qed.

Lemma narrow_small w v : 0 <= v < 2 ^ w -> narrow w v = v.
Proof. intros. by apply Z.mod_small. Qed.

Lemma be_bytes_1 v : u8 v -> be_bytes 1 v = [v].
Proof. intros Hv. simpl. f_equal. by apply Z.mod_small. Qed.

Lemma write_vector_8_be l w : len l < 256 -> write_vector_8 l w = w ++ be_bytes 1 (len l) ++ l.
Proof.
  intros Hl. pose proof (len_nonneg l). unfold write_vector_8, write_bytes, write_8.
  rewrite narrow_small, be_bytes_1, <- app_assoc by (unfold in_width; lia). done.
Qed.

Lemma write_vector_16_be l w : len l < 65536 -> write_vector_16 l w = w ++ be_bytes 2 (len l) ++ l.
Proof.
  intros Hl. pose proof (len_nonneg l). unfold write_vector_16, write_bytes.
  rewrite narrow_small, write_16_be, <- app_assoc by (unfold in_width; lia). done.
Qed.

Lemma write_vector_24_be l w : len l < 16777216 -> write_vector_24 l w = w ++ be_bytes 3 (len l) ++ l.
Proof.
  intros Hl. pose proof (len_nonneg l). unfold write_vector_24, write_bytes.
  rewrite narrow_small, write_24_be, <- app_assoc by (unfold in_width; lia). done.
Qed.

Lemma write_list_be l : Forall u16 l -> write_list l = unwords l.
Proof.
  unfold write_list. change (unwords l) with ([] ++ unwords l). generalize (@nil Z).
  induction l as [| v l IH]; intros w Hl; simpl; [by rewrite app_nil_r |].
  apply Forall_cons in Hl as [Hv Hl]. rewrite IH, write_16_be, <- app_assoc by done. done.
Qed.

Lemma write_field_be s f w : field_ok s f -> write_field s f w = w ++ encode s f.
Proof.
  destruct s, f; cbn [field_ok write_field encode]; intros Hok; try contradiction.
  - reflexivity.
  - by apply write_16_be.
  - by apply write_24_be.
  - reflexivity.
  - apply write_vector_8_be, Hok.
  - apply write_vector_16_be, Hok.
  - apply write_vector_24_be, Hok.
  - destruct Hok. rewrite write_list_be by assumption. apply write_vector_8_be. rewrite len_unwords. lia.
  - destruct Hok. rewrite write_list_be by assumption. apply write_vector_16_be. rewrite len_unwords. lia.
Qed.

Lemma write_fields_be ss fs w : Forall2 field_ok ss fs ->
  write_fields ss fs w = w ++ concat (zip_with encode ss fs).
Proof.
  intros H. revert w. unfold write_fields. induction H as [| s f ss fs Hf Hs IH]; intros w;
    [symmetry; apply app_nil_r |]. simpl. by rewrite IH, write_field_be, <- app_assoc by done.
Qed.

Lemma read_vector_8_takes l : len l < 256 -> takes read_vector_8 (be_bytes 1 (len l) ++ l) l.
Proof.
  intros Hl. apply read_vector_takes; [| done]. intros v Hv. rewrite be_bytes_1 by done. apply read_8_takes.
Qed.

Lemma read_8_exact_be : exact read_8 (be_bytes 1) (fun v => 0 <= v < 256 ^ Z.of_nat 1).
Proof.
  intros r v r' Hr H Hv. destruct (read_8_exact _ _ _ Hr H Hv) as (? & ? & ?).
  rewrite be_bytes_1 by done. done.
Qed.

Lemma as_field_takes {A} (f : A -> field) op l a : takes op l a -> takes (as_field f op) l (f a).
Proof. intros Ht k. unfold as_field. by rewrite Ht. Qed.

Lemma read_field_takes s f : field_ok s f -> takes (read_field s) (encode s f) f.
Proof.
  destruct s, f; cbn [field_ok read_field encode]; intros Hok; try contradiction; apply as_field_takes.
  - apply read_8_takes.
  - by apply read_16_takes.
  - by apply read_24_takes.
  - destruct Hok as [_ <-]. apply read_bytes_takes.
  - apply read_vector_8_takes, Hok.
  - apply (read_vector_takes read_16 2); [apply read_16_takes | apply Hok].
  - apply (read_vector_takes read_24 3); [apply read_24_takes | apply Hok].
  - apply (read_list_takes read_vector_8); [apply Hok |].
    apply read_vector_8_takes. rewrite len_unwords. apply Hok.
  - apply (read_list_takes read_vector_16); [apply Hok |].
    apply (read_vector_takes read_16 2); [apply read_16_takes |]. rewrite len_unwords. apply Hok.
Qed.

Lemma as_field_exact {A} (f : A -> field) op (enc : A -> bytes) (ok : A -> Prop) s :
  exact op enc ok -> (forall a, enc a = encode s (f a)) -> (forall a, ok a -> field_ok s (f a)) ->
  exact (as_field f op) (encode s) (field_ok s).
Proof.
  intros Hop He Ho r v r' Hr H Hv. unfold as_field in H. destruct (op r) as [a r1] eqn:Ha. simplify_eq.
  destruct (Hop _ _ _ Hr Ha Hv) as (? & Hd & ?). rewrite <- He. split_and!; [done.. | by apply Ho].
Qed.

Lemma read_field_exact s : shape_ok s -> exact (read_field s) (encode s) (field_ok s).
Proof.
  destruct s; intros Hs; cbn [read_field].
  - by eapply as_field_exact; [apply read_8_exact | |].
  - by eapply as_field_exact; [apply read_16_exact | |].
  - by eapply as_field_exact; [apply read_24_exact | |].
  - by eapply as_field_exact; [by apply read_bytes_exact | |].
  - by eapply as_field_exact; [apply (read_vector_exact read_8 1), read_8_exact_be | |].
  - by eapply as_field_exact; [apply (read_vector_exact read_16 2), read_16_exact | |].
  - by eapply as_field_exact; [apply (read_vector_exact read_24 3), read_24_exact | |].
  - eapply as_field_exact;
      [apply (read_list_exact read_vector_8), (read_vector_exact read_8 1), read_8_exact_be | done |].
    intros l [Hl Hn]. rewrite len_unwords in Hn. done.
  - eapply as_field_exact;
      [apply (read_list_exact read_vector_16), (read_vector_exact read_16 2), read_16_exact | done |].
    intros l [Hl Hn]. rewrite len_unwords in Hn. done.
Qed.

(** An invalid reader stays so. *)
Definition sticky {A} (op : t -> A * t) : Prop := forall r, valid_ (op r).2 = true -> valid_ r = true.

Lemma sticky_bytes n : sticky (read_bytes n).
Proof. intros [d v]. unfold read_bytes. simpl. by destruct v. Qed.

Lemma sticky_8 : sticky read_8.
Proof. intros r. pose proof (sticky_bytes 1 r) as H. unfold read_8. by destruct (read_bytes 1 r). Qed.

Lemma sticky_16 : sticky read_16.
Proof.
  intros r. pose proof (sticky_bytes 2 r) as H. unfold read_16. destruct (read_bytes 2 r).
  by destruct (bool_decide _).
Qed.

Lemma sticky_24 : sticky read_24.
Proof.
  intros r. pose proof (sticky_bytes 3 r) as H. unfold read_24. destruct (read_bytes 3 r).
  by destruct (bool_decide _).
Qed.

Lemma sticky_vector op : sticky op -> sticky (read_vector op).
Proof.
  intros Hop r. pose proof (Hop r) as H. unfold read_vector. destruct (op r) as [n r1]. simpl in H.
  pose proof (sticky_bytes n r1). destruct (valid_ r1) eqn:?; simpl; [auto | congruence].
Qed.

Lemma sticky_list op : sticky op -> sticky (read_list_of op).
Proof.
  intros Hop r. pose proof (Hop r) as H. unfold read_list_of. destruct (op r) as [d r1]. simpl in H.
  unfold read_list. destruct (valid_ r1) eqn:?; simpl; [| congruence].
  destruct (while _ _ _) as [[src out] |]; simpl; [| auto]. destruct (is_valid src); simpl; auto.
Qed.

Lemma sticky_field s : sticky (read_field s).
Proof.
  assert (forall A (f : A -> field) op, sticky op -> sticky (as_field f op)) as Hf.
  { intros A f op Hop r. pose proof (Hop r). unfold as_field. by destruct (op r). }
  destruct s; apply Hf; auto using sticky_8, sticky_16, sticky_24, sticky_bytes.
  - apply sticky_vector, sticky_8.
  - apply sticky_vector, sticky_16.
  - apply sticky_vector, sticky_24.
  - apply (sticky_list read_vector_8), sticky_vector, sticky_8.
  - apply (sticky_list read_vector_16), sticky_vector, sticky_16.
Qed.

Lemma sticky_fields ss : sticky (read_fields ss).
Proof.
  induction ss as [| s ss IH]; intros r; [done |]. simpl. pose proof (sticky_field s r) as Hs.
  destruct (read_field s r) as [f r1]. specialize (IH r1). destruct (read_fields ss r1). simpl in *. auto.
Qed.

(** The reader accepts exactly what the writer produces.  The writing of
    any structure (integers, byte strings, vectors and lists of the widths of
    its fields) is read back to the same fields, leaving what follows, and
    whenever reading a structure leaves the reader valid the data began with
    the writing of the fields that it gives; so no encoding is read in two
    ways, and none is rejected. *)
Theorem tls_codec_exact ss : Forall shape_ok ss ->
  (forall fs rest, Forall2 field_ok ss fs ->
    read_fields ss (make (write_fields ss fs [] ++ rest)) = (fs, mk rest true)) /\
  (forall data fs r, bytes_ok data -> read_fields ss (make data) = (fs, r) -> is_valid r = true ->
    exists rest, Forall2 field_ok ss fs /\ data = write_fields ss fs [] ++ rest /\ r = mk rest true).
Proof.
  intros Hs. split.
  - intros fs rest Hf. rewrite write_fields_be by done. cbn [app]. clear Hs.
    induction Hf as [| s f ss fs Hf _ IH]; [done |]. cbn [zip_with concat read_fields].
    rewrite <- app_assoc. unfold make in *. by rewrite read_field_takes, IH.
  - induction Hs as [| s ss Hs Hss IH]; intros data fs r Hd H Hv; simpl in H.
    { simplify_eq. by exists data. }
    destruct (read_field s (make data)) as [f r1] eqn:Hf.
    destruct (read_fields ss r1) as [fs1 r2] eqn:Hr. simplify_eq.
    pose proof (sticky_fields ss r1) as Hv1. rewrite Hr in Hv1. specialize (Hv1 Hv).
    destruct (read_field_exact s Hs (make data) f r1 Hd Hf Hv1) as (_ & Hd1 & Hok). simpl in Hd1. subst data.
    destruct r1 as [d1 v1]. simpl in *. subst v1. apply Forall_app in Hd as [_ Hd].
    destruct (IH d1 fs1 r Hd Hr Hv) as (k & Hfs & -> & ->). exists k.
    assert (Forall2 field_ok (s :: ss) (f :: fs1)) as Hall by (by constructor).
    rewrite !write_fields_be by done. split_and!; [done | | done]. simpl. by rewrite app_assoc.
Qed.

Lemma tls_codec_exact_witness : let ss := [s8; s16; svec8; slist16; s24] in
  read_fields ss (make (write_fields ss
    [number 1; number 515; chunk [7; 8]; integers [772; 771]; number 65536] [] ++ [9])) =
    ([number 1; number 515; chunk [7; 8]; integers [772; 771]; number 65536], mk [9] true).
Proof.
  cbv zeta. apply tls_codec_exact; [repeat constructor |].
  repeat constructor; try (vm_compute; done).
Defined.
End tls_codec.
