(* ===== verification/TlsSchedule.v ===== *)
(** * TlsSchedule: the tls 1.3 key schedule and transcript

    Models [src/tls/schedule.cpp] over the digests of libbitcoin-system, which
    are a parameter.  Erasure of secrets ([wipe]) has no effect on values and
    is not modelled. *)

From S2P Require Import Prelude.
From S2P Require Import TlsConstants.
From S2P Require Import TlsCodec.

Inductive algorithm := sha256 | sha512_384.

Definition digest_size (a : algorithm) : Z := match a with sha256 => 32 | sha512_384 => 48 end.

(** Hashes, hmac and hkdf, and a running hash. *)
Class Digests := {
  digest : algorithm -> bytes -> bytes;
  hkdf_extract : algorithm -> bytes -> bytes -> bytes;
  hkdf_expand : algorithm -> Z -> bytes -> bytes -> bytes;
  hmac_code : algorithm -> bytes -> bytes -> bytes;
  accumulator : Type;
  accumulator_of : algorithm -> accumulator;
  accumulate : bytes -> accumulator -> accumulator;
  flush : accumulator -> bytes
}.

Class DigestLaws `{Digests} : Prop := {
  hkdf_expand_ok a n key info : 0 <= n ->
    bytes_ok (hkdf_expand a n key info) /\ len (hkdf_expand a n key info) = n;
  digest_ok a d : bytes_ok (digest a d) /\ len (digest a d) = digest_size a;
  hmac_ok a d k : bytes_ok (hmac_code a d k) /\ len (hmac_code a d k) = digest_size a
}.

Module schedule.
Section schedule.
Context `{Digests}.

Definition aes128_key_size : Z := 16.
Definition aes256_key_size : Z := 32.
Definition chacha_key_size : Z := 32.
Definition iv_size : Z := 12.
Definition label_prefix : bytes := chars "tls13 ".

(** HkdfLabel (7.1). *)
Definition make_label (size : Z) (label context : bytes) : bytes :=
  let full := label_prefix ++ label in
  let out := tls_writer.write_16 (narrow 16 size) [] in
  let out := tls_writer.write_vector_8 full out in
  tls_writer.write_vector_8 context out.

Definition expand (a : algorithm) (size : Z) (key label context : bytes) : bytes :=
  hkdf_expand a size key (make_label size label context).

Definition is_sha384 (suite : Z) : bool := suite =? aes_256_gcm_sha384.

Definition size (suite : Z) : Z := if is_sha384 suite then 48 else 32.

Definition hash (suite : Z) (data : bytes) : bytes :=
  if is_sha384 suite then digest sha512_384 data else digest sha256 data.

Definition extract (suite : Z) (salt material : bytes) : bytes :=
  if is_sha384 suite then hkdf_extract sha512_384 material salt
  else hkdf_extract sha256 material salt.

Definition expand_label (suite : Z) (key label context : bytes) : bytes :=
  if is_sha384 suite then expand sha512_384 48 key label context
  else expand sha256 32 key label context.

Definition derive_secret (suite : Z) (key label transcript : bytes) : bytes :=
  expand_label suite key label transcript.

Definition zeros (suite : Z) : bytes := replicate (Z.to_nat (size suite)) 0.

Definition early_secret (suite : Z) : bytes := extract suite (zeros suite) (zeros suite).

Definition handshake_secret (suite : Z) (early shared : bytes) : bytes :=
  let derived := derive_secret suite early (chars "derived") (hash suite []) in
  extract suite derived shared.

Definition master_secret (suite : Z) (handshake : bytes) : bytes :=
  let derived := derive_secret suite handshake (chars "derived") (hash suite []) in
  extract suite derived (zeros suite).

Definition traffic_key (suite : Z) (traffic : bytes) : bytes :=
  if is_sha384 suite then expand sha512_384 aes256_key_size traffic (chars "key") [] else
  if suite =? aes_128_gcm_sha256 then expand sha256 aes128_key_size traffic (chars "key") [] else
  expand sha256 chacha_key_size traffic (chars "key") [].

Definition traffic_iv (suite : Z) (traffic : bytes) : bytes :=
  if is_sha384 suite then expand sha512_384 iv_size traffic (chars "iv") []
  else expand sha256 iv_size traffic (chars "iv") [].

Definition finished (suite : Z) (traffic transcript : bytes) : bytes :=
  let key := expand_label suite traffic (chars "finished") [] in
  if is_sha384 suite then hmac_code sha512_384 transcript key
  else hmac_code sha256 transcript key.

Definition update (suite : Z) (traffic : bytes) : bytes :=
  expand_label suite traffic (chars "traffic upd") [].

Lemma traffic_iv_ok `{!DigestLaws} suite traffic :
  bytes_ok (traffic_iv suite traffic) /\ len (traffic_iv suite traffic) = iv_size.
Proof. unfold traffic_iv, expand. destruct (is_sha384 suite); by apply hkdf_expand_ok. Qed.

Lemma finished_ok `{!DigestLaws} suite traffic t :
  bytes_ok (finished suite traffic t) /\ len (finished suite traffic t) = size suite.
Proof. unfold finished, size. destruct (is_sha384 suite); apply hmac_ok. Qed.

Lemma hash_ok `{!DigestLaws} suite d :
  bytes_ok (hash suite d) /\ len (hash suite d) = size suite.
Proof. unfold hash, size. destruct (is_sha384 suite); apply digest_ok. Qed.

Lemma size_bound suite : 0 <= size suite <= 48.
Proof. unfold size. destruct (is_sha384 suite); lia. Qed.
End schedule.
End schedule.

(** The running hash of the handshake messages. *)
Module transcript.
Section transcript.
Context `{Digests}.

Definition init : accumulator := accumulator_of sha256.

Definition reset (suite : Z) : accumulator :=
  if suite =? aes_256_gcm_sha384 then accumulator_of sha512_384 else accumulator_of sha256.

Definition write (message : bytes) (state : accumulator) : accumulator := accumulate message state.

Definition hash (state : accumulator) : bytes := flush state.
End transcript.
End transcript.
