(* ===== verification/TlsRecord.v ===== *)
(** * TlsRecord: record protection

    Models [src/tls/record.cpp]: the records of one direction of a connection,
    cleartext until keyed and then sealed with the AEAD cipher of the suite.
    The ciphers belong to libbitcoin-system: their laws are that decryption
    inverts encryption under the same key, nonce and associated data, and the
    size of a ciphertext. *)

From S2P Require Import Prelude.
From S2P Require Import Stream.
From S2P Require Import TlsConstants.
From S2P Require Import TlsCodec.
From S2P Require Import TlsSchedule.

(** The ciphers: key, content, inner type, associated data and nonce. *)
Class Aead := {
  aes128_gcm_encrypt : bytes -> bytes -> bytes -> bytes -> bytes -> bytes;
  aes128_gcm_decrypt : bytes -> bytes -> bytes -> bytes -> option bytes;
  aes256_gcm_encrypt : bytes -> bytes -> bytes -> bytes -> bytes -> bytes;
  aes256_gcm_decrypt : bytes -> bytes -> bytes -> bytes -> option bytes;
  chacha20_poly1305_encrypt : bytes -> bytes -> bytes -> bytes -> Z -> Z -> bytes;
  chacha20_poly1305_decrypt : bytes -> bytes -> Z -> Z -> bytes -> option bytes
}.

Module record.

(** Authentication tag size of each supported suite. *)
Definition tag_size : Z := 16.

Inductive cipher :=
  | aes128_gcm (key : bytes)
  | aes256_gcm (key : bytes)
  | chacha20_poly1305 (key : bytes).

Record t := mk { iv_ : bytes; sequence_ : Z; cipher_ : option cipher }.

Definition init : t := mk (replicate 12 0) 0 None.

Section record.
Context `{Digests, Aead}.

Definition set_secret (suite : Z) (traffic : bytes) (r : t) : t :=
  let key := schedule.traffic_key suite traffic in
  mk (schedule.traffic_iv suite traffic) 0
    (Some (if suite =? aes_128_gcm_sha256 then aes128_gcm key
      else if suite =? aes_256_gcm_sha384 then aes256_gcm key
      else chacha20_poly1305 key)).

Definition is_protected (r : t) : bool := match cipher_ r with None => false | Some _ => true end.

Definition sequence (r : t) : Z := sequence_ r.

(** The per-record nonce is the iv xored with the padded sequence (5.3). *)
Definition next_nonce (r : t) : bytes * t :=
  let sequence := be_bytes 8 (sequence_ r) in
  let offset := len (iv_ r) - len sequence in
  (ztake offset (iv_ r) ++ zip_with Z.lxor (zdrop offset (iv_ r)) sequence,
   mk (iv_ r) (narrow 64 (sequence_ r + 1)) (cipher_ r)).

Definition encrypt (c : cipher) (content inner aad nonce : bytes) : bytes :=
  match c with
  | aes128_gcm key => aes128_gcm_encrypt key content inner aad nonce
  | aes256_gcm key => aes256_gcm_encrypt key content inner aad nonce
  | chacha20_poly1305 key =>
    chacha20_poly1305_encrypt key content inner aad (le_value (ztake 4 nonce)) (le_value (zdrop 4 nonce))
  end.

Definition decrypt (c : cipher) (aad nonce text : bytes) : option bytes :=
  match c with
  | aes128_gcm key => aes128_gcm_decrypt key aad nonce text
  | aes256_gcm key => aes256_gcm_decrypt key aad nonce text
  | chacha20_poly1305 key =>
    chacha20_poly1305_decrypt key aad (le_value (ztake 4 nonce)) (le_value (zdrop 4 nonce)) text
  end.

(** Append a record to [out]. *)
Definition seal (out : bytes) (type : Z) (content : bytes) (r : t) : bytes * t :=
  match cipher_ r with
  | None =>
    let header := tls_writer.write_8 type [] in
    let header := tls_writer.write_16 legacy_version header in
    let header := tls_writer.write_vector_16 content header in
    (out ++ header, r)
  | Some cipher =>
    let inner_type := [type] in
    let size := len content + len inner_type + tag_size in
    let header := tls_writer.write_8 content.application_data [] in
    let header := tls_writer.write_16 legacy_version header in
    let header := tls_writer.write_16 (narrow 16 size) header in
    let '(nonce, r) := next_nonce r in
    (out ++ header ++ encrypt cipher content inner_type header nonce, r)
  end.

(** The inner type is the last nonzero byte, followed by zero padding: the
    content before it, in reverse. *)
Fixpoint strip (reversed : bytes) : Z * bytes :=
  match reversed with
  | [] => (0, [])
  | byte :: rest => if byte =? 0 then strip rest else (byte, rev rest)
  end.

(** The inner type and content, or false. *)
Definition open (header fragment : bytes) (r : t) : option (Z * bytes) * t :=
  if len fragment <=? tag_size then (None, r) else
  let '(nonce, r) := next_nonce r in
  match cipher_ r with
  | None => (None, r)
  | Some cipher =>
    match decrypt cipher header nonce fragment with
    | None => (None, r)
    | Some plain => (Some (strip (rev plain)), r)
    end
  end.

End record.

(** ** Lemmas *)

Class AeadLaws `{Aead} : Prop := {
  decrypt_encrypt c content inner aad nonce :
    decrypt c aad nonce (encrypt c content inner aad nonce) = Some (content ++ inner);
  len_encrypt c content inner aad nonce :
    len (encrypt c content inner aad nonce) = len content + len inner + tag_size;
  decrypt_bytes c aad nonce text plain : bytes_ok text ->
    decrypt c aad nonce text = Some plain -> bytes_ok plain
}.

Section laws.
Context `{Digests, Aead}.

Lemma strip_inner type content : type <> 0 ->
  strip (rev (content ++ [type])) = (type, content).
Proof.
  intros Ht. rewrite rev_app_distr. simpl. destruct (type =? 0) eqn:?; [lia |].
  by rewrite rev_involutive.
Qed.

(** The header of a protected record. *)
Definition header_of (size : Z) : bytes :=
  content.application_data :: be_bytes 2 legacy_version ++ be_bytes 2 size.

(** The states of the two ends of a direction agree. *)
Definition in_sync (s r : t) : Prop := is_protected s = true /\ s = r.

Definition sealable (type : Z) (content : bytes) : Prop :=
  0 < type < 256 /\ len content <= maximum_plaintext.

Lemma header_of_write size : u16 size ->
  tls_writer.write_16 (narrow 16 size)
    (tls_writer.write_16 legacy_version (tls_writer.write_8 content.application_data [])) =
  header_of size.
Proof.
  intros Hs. rewrite tls_codec.narrow_small by done. rewrite !tls_codec.write_16_be by (done || width).
  done.
Qed.

Lemma seal_open `{!AeadLaws} out type content s r : in_sync s r -> sealable type content ->
  exists fragment, let '(out', s') := seal out type content s in
    out' = out ++ header_of (len fragment) ++ fragment /\
    tag_size < len fragment <= maximum_ciphertext /\
    exists r', open (header_of (len fragment)) fragment r = (Some (type, content), r') /\ in_sync s' r'.
Proof.
  intros [Hp <-] [Ht Hc]. unfold is_protected in Hp. unfold seal, open.
  destruct (cipher_ s) as [c |] eqn:Hcs; [| done].
  pose proof (len_nonneg content) as Hn.
  assert (0 <= len content + len [type] + tag_size <= maximum_ciphertext) as Hb.
  { change (len [type]) with 1. unfold tag_size, maximum_ciphertext, maximum_plaintext in *. lia. }
  rewrite header_of_write by (unfold maximum_ciphertext, maximum_plaintext in *; width).
  destruct (next_nonce s) as [nonce s'] eqn:Hs.
  assert (cipher_ s' = Some c) as Hc' by (unfold next_nonce in Hs; simplify_eq; done).
  exists (encrypt c content [type] (header_of (len content + len [type] + tag_size)) nonce).
  rewrite !len_encrypt. change (len [type]) with 1 in *. unfold tag_size in *.
  split_and!; [done | lia | lia |].
  exists s'. destruct (_ <=? 16) eqn:?; [lia |]. rewrite Hc', decrypt_encrypt, strip_inner by lia.
  split; [done |]. split; [by unfold is_protected; rewrite Hc' | done].
Qed.

(** Any number of records, and their opening from the bytes that hold them. *)
Fixpoint seal_all (l : list (Z * bytes)) (out : bytes) (s : t) : bytes * t :=
  match l with
  | [] => (out, s)
  | (type, content) :: l => let '(out, s) := seal out type content s in seal_all l out s
  end.

Fixpoint open_all (n : nat) (data : bytes) (r : t) : option (list (Z * bytes) * bytes * t) :=
  match n with
  | O => Some ([], data, r)
  | S n =>
    let header := ztake record_header_size data in
    let size := be_value (zdrop 3 header) in
    let data := zdrop record_header_size data in
    match open header (ztake size data) r with
    | (None, _) => None
    | (Some m, r) =>
      match open_all n (zdrop size data) r with
      | Some (l, data, r) => Some (m :: l, data, r)
      | None => None
      end
    end
  end.

Lemma seal_all_app l out s : (seal_all l out s).1 = out ++ (seal_all l [] s).1 /\
  (seal_all l out s).2 = (seal_all l [] s).2.
Proof.
  revert out s. induction l as [| [type content] l IH]; intros out s; simpl; [by rewrite app_nil_r |].
  assert (seal out type content s = (out ++ (seal [] type content s).1, (seal [] type content s).2)) as ->.
  { unfold seal. destruct (cipher_ s); [| done]. by destruct (next_nonce s). }
  destruct (seal [] type content s) as [o s1]. cbn [fst snd].
  destruct (IH (out ++ o) s1) as [-> ->], (IH o s1) as [-> ->]. by rewrite app_assoc.
Qed.

Lemma len_header_of size : len (header_of size) = record_header_size.
Proof. done. Qed.

Lemma zdrop_header_of size : zdrop 3 (header_of size) = be_bytes 2 size.
Proof. done. Qed.
(** What one side seals, the other opens. *)
Lemma tls_records_opened `{!AeadLaws} l s r :
  in_sync s r -> Forall (fun m => sealable m.1 m.2) l ->
  let '(out, s') := seal_all l [] s in
  exists r', open_all (length l) out r = Some (l, [], r') /\ in_sync s' r'.
Proof.
  intros Hs Hl. revert s r Hs. induction Hl as [| [type content] l Hm Hl IH]; intros s r Hs.
  { simpl. by exists r. }
  cbn [seal_all length open_all]. destruct (seal_open [] type content s r Hs Hm) as [fragment Hseal].
  destruct (seal [] type content s) as [o s1]. destruct Hseal as (Ho & Hb & r1 & Hopen & Hsync).
  pose proof (seal_all_app l o s1) as [Happ1 Happ2].
  specialize (IH s1 r1 Hsync). destruct (seal_all l [] s1) as [out s2] eqn:Hall.
  rewrite (surjective_pairing (seal_all l o s1)), Happ1, Happ2. cbn [fst snd] in *.
  destruct IH as (r' & Hopen_all & Hsync'). exists r'. split; [| done]. subst o. cbn [app].
  rewrite <- app_assoc, ztake_app_len, zdrop_app_len by done.
  rewrite zdrop_header_of, be_value_bytes by
    (unfold maximum_ciphertext, maximum_plaintext in *; unfold tag_size in *; change (256 ^ Z.of_nat 2) with 65536; lia).
  by rewrite ztake_app_len, zdrop_app_len, Hopen, Hopen_all by done.
Qed.

(** What one side of a direction seals, the other opens.  If the two ends
    agree on the secret and the sequence, then any series of records sealed
    into one buffer is opened from it, in order, to the same types and
    contents; every fragment fits the ciphertext limit that a receiver
    imposes; and the ends agree afterward. *)
Theorem tls_records_roundtrip `{!AeadLaws} l s r :
  in_sync s r -> Forall (fun m => sealable m.1 m.2) l ->
  let '(out, s') := seal_all l [] s in
  exists r', open_all (length l) out r = Some (l, [], r') /\ in_sync s' r'.
Proof. apply tls_records_opened. Qed.

(** The nonces of a series of records. *)
Fixpoint nonces (n : nat) (r : t) : list bytes :=
  match n with O => [] | S n => let '(nonce, r) := next_nonce r in nonce :: nonces n r end.

Definition nonce_of (iv : bytes) (sequence : Z) : bytes :=
  ztake 4 iv ++ zip_with Z.lxor (zdrop 4 iv) (be_bytes 8 sequence).

Lemma lxor_inj a b c : Z.lxor a b = Z.lxor a c -> b = c.
Proof.
  intros Hx. rewrite <- (Z.lxor_0_l b), <- (Z.lxor_0_l c), <- (Z.lxor_nilpotent a).
  by rewrite !Z.lxor_assoc, Hx.
Qed.

Lemma zip_lxor_inj (k l m : bytes) : length l = length k -> length m = length k ->
  zip_with Z.lxor k l = zip_with Z.lxor k m -> l = m.
Proof.
  revert l m. induction k as [| a k IH]; intros [| b l] [| c m]; simpl; intros Hl Hm Hz; try lia; [done |].
  simplify_eq. f_equal; [by eapply lxor_inj | apply IH; congruence].
Qed.

Lemma nonce_of_inj iv i j : len iv = schedule.iv_size -> u64 i -> u64 j ->
  nonce_of iv i = nonce_of iv j -> i = j.
Proof.
  intros Hiv Hi Hj Hn. unfold nonce_of in Hn. apply app_inv_head in Hn.
  apply zip_lxor_inj in Hn.
  - rewrite <- (be_value_bytes 8 i), <- (be_value_bytes 8 j) by done. by rewrite Hn.
  - rewrite length_be_bytes. unfold zdrop, len, schedule.iv_size in *. rewrite length_drop. lia.
  - rewrite length_be_bytes. unfold zdrop, len, schedule.iv_size in *. rewrite length_drop. lia.
Qed.

Lemma nonces_eq n r : len (iv_ r) = schedule.iv_size -> 0 <= sequence_ r ->
  sequence_ r + Z.of_nat n <= 2 ^ 64 ->
  nonces n r = map (fun i => nonce_of (iv_ r) (sequence_ r + Z.of_nat i)) (seq 0 n).
Proof.
  intros Hiv. revert r Hiv. induction n as [| n IH]; intros r Hiv Hs Hn; [done |].
  cbn [nonces]. unfold next_nonce. rewrite len_be_bytes, Hiv. cbv beta iota zeta.
  change (schedule.iv_size - Z.of_nat 8) with 4. change (seq 0 (S n)) with (0%nat :: seq 1 n). cbn [map].
  f_equal; [unfold nonce_of; by rewrite Z.add_0_r |].
  destruct n as [| n]; [done |].
  assert (narrow 64 (sequence_ r + 1) = sequence_ r + 1) as Hw by (apply tls_codec.narrow_small; lia).
  rewrite Hw, IH by (simpl; lia || done). rewrite <- seq_shift, map_map. apply map_ext. intros i.
  f_equal. cbn [sequence_]. lia.
Qed.

(** No nonce is used twice with a key: the nonces of the first 2^64 records
    sealed, or opened, since the secret was set are pairwise distinct. *)
Theorem tls_nonces_unique `{!DigestLaws} suite traffic r n : Z.of_nat n <= 2 ^ 64 ->
  NoDup (nonces n (set_secret suite traffic r)).
Proof.
  intros Hn. rewrite nonces_eq by
    (simpl; try lia; apply schedule.traffic_iv_ok).
  apply NoDup_fmap_2_strong; [| apply NoDup_seq].
  intros i j Hi Hj He. apply elem_of_seq in Hi, Hj.
  apply nonce_of_inj in He; [cbn in He; lia | apply schedule.traffic_iv_ok | |]; simpl; width.
Qed.
End laws.
End record.

(** ** Primitives that satisfy the laws

    They keep nothing secret, and serve the witnesses. *)

Module example.

Definition checksum (d : bytes) : Z := fold_left (fun acc b => (acc * 257 + b + 1) `mod` (2 ^ 61 - 1)) d 7.

Definition digests : Digests := {|
  digest a d := be_bytes (Z.to_nat (digest_size a)) (checksum d);
  hkdf_extract a input salt := be_bytes (Z.to_nat (digest_size a)) (checksum (input ++ salt));
  hkdf_expand a n key info := be_bytes (Z.to_nat n) (checksum (key ++ info));
  hmac_code a d k := be_bytes (Z.to_nat (digest_size a)) (checksum (d ++ k));
  accumulator := algorithm * bytes;
  accumulator_of a := (a, []);
  accumulate d s := (s.1, s.2 ++ d);
  flush s := be_bytes (Z.to_nat (digest_size s.1)) (checksum s.2)
|}.

Lemma be_bytes_size n v : 0 <= n ->
  bytes_ok (be_bytes (Z.to_nat n) v) /\ len (be_bytes (Z.to_nat n) v) = n.
Proof. intros. split; [apply be_bytes_ok | rewrite len_be_bytes; lia]. Qed.

Lemma digest_laws : @DigestLaws digests.
Proof. split; intros; simpl; apply be_bytes_size; try done; by destruct a. Qed.

(** The tag is a checksum of the key, the associated data, the nonce and the
    content. *)
Definition tag_of (key aad nonce text : bytes) : bytes :=
  be_bytes 16 (checksum (key ++ aad ++ nonce ++ text)).

Definition seal (key content inner aad nonce : bytes) : bytes :=
  let text := content ++ inner in text ++ tag_of key aad nonce text.

Definition unseal (key aad nonce text : bytes) : option bytes :=
  let plain := ztake (len text - 16) text in
  if bool_decide (zdrop (len text - 16) text = tag_of key aad nonce plain) then Some plain else None.

Definition nonce_bytes (a b : Z) : bytes := be_bytes 4 a ++ be_bytes 8 b.

Definition aead : Aead := {|
  aes128_gcm_encrypt := seal;
  aes128_gcm_decrypt := unseal;
  aes256_gcm_encrypt := seal;
  aes256_gcm_decrypt := unseal;
  chacha20_poly1305_encrypt key content inner aad a b := seal key content inner aad (nonce_bytes a b);
  chacha20_poly1305_decrypt key aad a b text := unseal key aad (nonce_bytes a b) text
|}.

Lemma unseal_seal key content inner aad nonce :
  unseal key aad nonce (seal key content inner aad nonce) = Some (content ++ inner).
Proof.
  unfold seal, unseal, tag_of. rewrite len_app, len_be_bytes. change (Z.of_nat 16) with 16.
  rewrite ztake_app_len, zdrop_app_len by lia. by rewrite bool_decide_eq_true_2.
Qed.

Lemma aead_laws : @record.AeadLaws aead.
Proof.
  split.
  - intros [] *; apply unseal_seal.
  - intros [] *; simpl; unfold seal, tag_of; rewrite !len_app, len_be_bytes; done.
  - intros [] aad nonce text plain Ht; simpl; unfold unseal; case_bool_decide; intros;
      simplify_eq; by apply Forall_ztake.
Qed.
End example.

#[local] Existing Instances example.digests example.aead example.digest_laws example.aead_laws.

Definition example_sender : record.t :=
  record.set_secret chacha20_poly1305_sha256 [1; 2; 3] record.init.

Lemma tls_records_roundtrip_witness :
  let '(out, s') := record.seal_all [(22, [1; 2; 3]); (23, []); (21, [2; 40])] [] example_sender in
  exists r', record.open_all 3 out example_sender =
    Some ([(22, [1; 2; 3]); (23, []); (21, [2; 40])], [], r') /\ record.in_sync s' r'.
Proof.
  apply (record.tls_records_roundtrip [(22, [1; 2; 3]); (23, []); (21, [2; 40])]); [by split |].
  repeat constructor; simpl; try lia; by vm_compute.
Defined.

Lemma tls_nonces_unique_witness :
  NoDup (record.nonces 3 (record.set_secret aes_128_gcm_sha256 [1; 2; 3] record.init)).
Proof. apply record.tls_nonces_unique. lia. Defined.
