(* ===== verification/TlsContext.v ===== *)
(** * TlsContext: server credentials and peer verification

    Models [src/tls/context.cpp].  Certificates, private keys and the nist
    curves belong to libbitcoin-system, and are parameters: a certificate is
    known by its encoding, its public key and its curve, and a chain that
    parses is not empty.  [time] is the time that the context gives when it is
    asked, as it may be that of the clock. *)

From S2P Require Import Prelude.

(** The curves that keys and signatures are of. *)
Inductive curve := secp256r1 | secp384r1.

#[global] Instance curve_eq_dec : EqDecision curve.
Proof. solve_decision. Defined.

Class X509 := {
  certificate : Type;
  certificate_encoding : certificate -> bytes;
  certificate_key : certificate -> bytes;
  certificate_curve : certificate -> option curve;
  parse_certificates : bytes -> option (certificate * list certificate);
  parse_certificate : bytes -> option certificate;
  decode_private_key : curve -> bytes -> bytes -> option bytes;
  verify_error : Type;
  verify_error_eq_dec :: EqDecision verify_error;
  certificate_expired : verify_error;
  certificate_not_yet_valid : verify_error;
  chain_untrusted : verify_error;
  verify_client : list certificate -> list certificate -> Z -> option verify_error
}.

(** Elliptic curve operations, and the random keys that [generate] gives. *)
Class Curves := {
  curve_generate : curve -> bytes;
  curve_public_key : curve -> bytes -> option bytes;
  curve_agree : curve -> bytes -> bytes -> option bytes;
  curve_point_size : curve -> Z;
  curve_sign : curve -> bytes -> bytes -> bytes;
  curve_verify : curve -> bytes -> bytes -> bytes -> bool;
  x25519_multiply : bytes -> bytes -> option bytes;
  x25519_base : bytes -> bytes
}.

Module tls_context.
Section context.
Context `{X509, Curves}.

Record t := mk {
  chain_ : list bytes;
  key_ : bytes;
  key384_ : bytes;
  curve_ : curve;
  public_key_ : bytes;
  anchors_ : list certificate;
  has_key_ : bool;
  time_ : Z;
  request_ : bool;
  require_ : bool
}.

Definition init : t :=
  mk [] (replicate 32 0) (replicate 48 0) secp256r1 [] [] false 0 false false.

Definition set_credentials (chain : list bytes) (public : bytes) (c : t) : t :=
  mk chain (key_ c) (key384_ c) (curve_ c) public (anchors_ c) (has_key_ c) (time_ c) (request_ c) (require_ c).

Definition set_private (key key384 : bytes) (v : curve) (has_key : bool) (c : t) : t :=
  mk (chain_ c) key key384 v (public_key_ c) (anchors_ c) has_key (time_ c) (request_ c) (require_ c).

Definition is_public (v : curve) (key expected : bytes) : bool :=
  match curve_public_key v key with
  | Some point => bool_decide (point = expected)
  | None => false
  end.

(** A key or chain set alone matches, the pair must share the public key. *)
Definition matches (c : t) : bool :=
  if negb (has_key_ c) || bool_decide (public_key_ c = []) then true else
  if bool_decide (curve_ c = secp256r1) then is_public secp256r1 (key_ c) (public_key_ c)
  else is_public secp384r1 (key384_ c) (public_key_ c).

Definition set_chain (text : bytes) (c : t) : t * bool :=
  match parse_certificates text with
  | None => (c, false)
  | Some (leaf, rest) =>
    let value := map certificate_encoding (leaf :: rest) in
    let c := set_credentials value (certificate_key leaf) c in
    if negb (matches c) then (set_credentials [] [] c, false) else (c, true)
  end.

Definition set_key (text password : bytes) (c : t) : t * bool :=
  let value := decode_private_key secp256r1 text password in
  let value384 := decode_private_key secp384r1 text password in
  let is256 := bool_decide (is_Some value) in
  if negb is256 && negb (bool_decide (is_Some value384)) then (c, false) else
  let previous := key_ c in
  let previous384 := key384_ c in
  let previous_curve := curve_ c in
  let c := set_private (default (replicate 32 0) value)
    (if is256 then replicate 48 0 else default (replicate 48 0) value384)
    (if is256 then secp256r1 else secp384r1) true c in
  let matched := matches c in
  if negb matched then (set_private previous previous384 previous_curve false c, matched)
  else (c, matched).

Definition add_anchors (text : bytes) (c : t) : t * bool :=
  match parse_certificates text with
  | None => (c, false)
  | Some (first, rest) =>
    (mk (chain_ c) (key_ c) (key384_ c) (curve_ c) (public_key_ c) (anchors_ c ++ first :: rest)
      (has_key_ c) (time_ c) (request_ c) (require_ c), true)
  end.

Definition set_verify (request require : bool) (c : t) : t :=
  mk (chain_ c) (key_ c) (key384_ c) (curve_ c) (public_key_ c) (anchors_ c) (has_key_ c) (time_ c)
    request (request && require).

Definition set_time (seconds : Z) (c : t) : t :=
  mk (chain_ c) (key_ c) (key384_ c) (curve_ c) (public_key_ c) (anchors_ c) (has_key_ c) seconds
    (request_ c) (require_ c).

Definition is_ready (c : t) : bool := has_key_ c && negb (bool_decide (chain_ c = [])).

(** The time, given the clock's. *)
Definition time (now : Z) (c : t) : Z := if negb (time_ c =? 0) then time_ c else now.

(** ** Configuration *)

Inductive op :=
  | SetChain (text : bytes)
  | SetKey (text password : bytes)
  | AddAnchors (text : bytes)
  | SetVerify (request require : bool)
  | SetTime (seconds : Z).

Definition step (c : t) (o : op) : t :=
  match o with
  | SetChain text => (set_chain text c).1
  | SetKey text password => (set_key text password c).1
  | AddAnchors text => (add_anchors text c).1
  | SetVerify request require => set_verify request require c
  | SetTime seconds => set_time seconds c
  end.

Definition configure (l : list op) : t := fold_left step l init.

(** The private key of the context is that of the leaf that it presents. *)
Definition signs_for_leaf (c : t) : Prop :=
  curve_public_key (curve_ c) (if bool_decide (curve_ c = secp256r1) then key_ c else key384_ c) =
    Some (public_key_ c).

Definition wf (c : t) : Prop :=
  (has_key_ c = true -> public_key_ c <> [] -> signs_for_leaf c) /\
  (require_ c = true -> request_ c = true).

Lemma matches_spec c : matches c = true <->
  (has_key_ c = true -> public_key_ c <> [] -> signs_for_leaf c).
Proof.
  unfold matches, signs_for_leaf, is_public. destruct (has_key_ c); simpl; [| done].
  case_bool_decide as Hp; [done |]. destruct (curve_ c); simpl;
    destruct (curve_public_key _ _) as [p |]; (split; [| intros Hs; specialize (Hs eq_refl Hp)]);
    try discriminate; try (intros ->%bool_decide_eq_true; done); inv_eqs; by apply bool_decide_eq_true.
Qed.

Lemma step_wf c o : wf c -> wf (step c o).
Proof.
  intros [Hm Hr]. destruct o as [text | text password | text | rq rr | seconds]; simpl; try done.
  - unfold set_chain. destruct (parse_certificates text) as [[leaf rest] |]; [| done].
    destruct (matches _) eqn:Hc; simpl; split; try done. by apply matches_spec.
  - unfold set_key. destruct (negb _ && negb _); [done |].
    destruct (matches _) eqn:Hc; simpl; split; try done. by apply matches_spec.
  - unfold add_anchors. by destruct (parse_certificates text) as [[first rest] |].
  - split; [done |]. simpl. by destruct rq.
Qed.

(** However a context is configured (chains and keys set in any order,
    replaced, or refused), once it has a key the key is that of the leaf
    certificate it presents, and it requires a client certificate only if it
    requests one. *)
Theorem context_signs_for_leaf l : let c := configure l in
  (has_key_ c = true -> public_key_ c <> [] -> signs_for_leaf c) /\
  (require_ c = true -> request_ c = true).
Proof.
  unfold configure. enough (forall c, wf c -> wf (fold_left step l c)) as Hw by (by apply Hw).
  induction l as [| o l IH]; intros c Hc; [done |]. by apply IH, step_wf.
Qed.
End context.
End tls_context.
