(* ===== verification/TlsHandshake.v ===== *)
(** * TlsHandshake: the messages of the tls 1.3 server

    Models the state and the handshake of [src/tls/server.cpp]: parsing of the
    client hello, negotiation, retry, the server flight, client authentication,
    finished and key updates.  [core] is the state of the class apart from its
    input buffers, which the message handlers do not touch (TlsServer adds
    them).  A handler gives the next state and the verdict that it returns.
    The ephemeral keys of the nist curves are those that [curve_generate]
    gives this server. *)

From S2P Require Import Prelude.
From S2P Require Import Stream.
From S2P Require Import TlsConstants.
From S2P Require Import TlsCodec.
From S2P Require Import TlsSchedule.
From S2P Require Import TlsRecord.
From S2P Require Import TlsContext.

Module tls_server.
Import tls_reader.

(** HelloRetryRequest random (4.1.3). *)
Definition retry_random : bytes :=
  [0xcf; 0x21; 0xad; 0x74; 0xe5; 0x9a; 0x61; 0x11;
   0xbe; 0x1d; 0x8c; 0x02; 0x1e; 0x65; 0xb8; 0x91;
   0xc2; 0xa2; 0x11; 0x16; 0x7a; 0xbb; 0x8c; 0x5e;
   0x07; 0x9e; 0x09; 0xe2; 0xc8; 0xa8; 0x33; 0x9c].

Definition maximum_message : Z := 131072.
Definition message_header_size : Z := 4.
Definition verify_padding : Z := 64.
Definition verify_pad : Z := 0x20.
Definition update_requested : Z := 1.
Definition update_not_requested : Z := 0.
Definition compatibility_payload : Z := 0x01.
Definition maximum_records : Z := 16777216.
Definition server_verify : bytes := chars "TLS 1.3, server CertificateVerify".
Definition client_verify : bytes := chars "TLS 1.3, client CertificateVerify".

(** Server preference orders. *)
Definition preferred_suites : list Z :=
  [aes_128_gcm_sha256; aes_256_gcm_sha384; chacha20_poly1305_sha256].
Definition preferred_groups : list Z := [x25519_group; secp256r1_group; secp384r1_group].

Inductive state :=
  | client_hello
  | retry_hello
  | client_certificate
  | client_certificate_verify
  | client_finished
  | established
  | failed.

#[global] Instance state_eq_dec : EqDecision state.
Proof. solve_decision. Defined.

(** ** Helpers *)

Definition contains (l : list Z) (value : Z) : bool := existsb (Z.eqb value) l.

(** A nonempty list that fills the extension body. *)
Definition to_list (body : bytes) (narrow : bool) : option (list Z) :=
  let '(out, source) := if narrow then read_list_8 (make body) else read_list_16 (make body) in
  if is_complete source && negb (bool_decide (out = [])) then Some out else None.

Definition make_message (type : Z) (body : bytes) : bytes :=
  tls_writer.write_vector_24 body (tls_writer.write_8 type []).

Definition verify_content (label transcript : bytes) : bytes :=
  replicate (Z.to_nat verify_padding) verify_pad ++ label ++ [0x00] ++ transcript.

Section server.
Context `{Digests, Aead, X509, Curves}.

Record core := mk_core {
  state_ : state;
  suite_ : Z;
  group_ : Z;
  failure_ : Z;
  failure_received_ : bool;
  closed_ : bool;
  close_sent_ : bool;
  compatibility_sent_ : bool;
  receive_epoch_ : Z;
  peer_ : list certificate;
  output_ : bytes;
  send_ : record.t;
  receive_ : record.t;
  transcript_ : accumulator;
  handshake_secret_ : bytes;
  client_handshake_ : bytes;
  server_handshake_ : bytes;
  client_traffic_ : bytes;
  server_traffic_ : bytes
}.

Definition set_state (v : state) (s : core) : core :=
  mk_core v (suite_ s) (group_ s) (failure_ s) (failure_received_ s) (closed_ s) (close_sent_ s)
    (compatibility_sent_ s) (receive_epoch_ s) (peer_ s) (output_ s) (send_ s) (receive_ s)
    (transcript_ s) (handshake_secret_ s) (client_handshake_ s) (server_handshake_ s)
    (client_traffic_ s) (server_traffic_ s).
Definition set_suite (v : Z) (s : core) : core :=
  mk_core (state_ s) v (group_ s) (failure_ s) (failure_received_ s) (closed_ s) (close_sent_ s)
    (compatibility_sent_ s) (receive_epoch_ s) (peer_ s) (output_ s) (send_ s) (receive_ s)
    (transcript_ s) (handshake_secret_ s) (client_handshake_ s) (server_handshake_ s)
    (client_traffic_ s) (server_traffic_ s).
Definition set_group (v : Z) (s : core) : core :=
  mk_core (state_ s) (suite_ s) v (failure_ s) (failure_received_ s) (closed_ s) (close_sent_ s)
    (compatibility_sent_ s) (receive_epoch_ s) (peer_ s) (output_ s) (send_ s) (receive_ s)
    (transcript_ s) (handshake_secret_ s) (client_handshake_ s) (server_handshake_ s)
    (client_traffic_ s) (server_traffic_ s).
Definition set_failure (v : Z) (s : core) : core :=
  mk_core (state_ s) (suite_ s) (group_ s) v (failure_received_ s) (closed_ s) (close_sent_ s)
    (compatibility_sent_ s) (receive_epoch_ s) (peer_ s) (output_ s) (send_ s) (receive_ s)
    (transcript_ s) (handshake_secret_ s) (client_handshake_ s) (server_handshake_ s)
    (client_traffic_ s) (server_traffic_ s).
Definition set_failure_received (v : bool) (s : core) : core :=
  mk_core (state_ s) (suite_ s) (group_ s) (failure_ s) v (closed_ s) (close_sent_ s)
    (compatibility_sent_ s) (receive_epoch_ s) (peer_ s) (output_ s) (send_ s) (receive_ s)
    (transcript_ s) (handshake_secret_ s) (client_handshake_ s) (server_handshake_ s)
    (client_traffic_ s) (server_traffic_ s).
Definition set_closed (v : bool) (s : core) : core :=
  mk_core (state_ s) (suite_ s) (group_ s) (failure_ s) (failure_received_ s) v (close_sent_ s)
    (compatibility_sent_ s) (receive_epoch_ s) (peer_ s) (output_ s) (send_ s) (receive_ s)
    (transcript_ s) (handshake_secret_ s) (client_handshake_ s) (server_handshake_ s)
    (client_traffic_ s) (server_traffic_ s).
Definition set_close_sent (v : bool) (s : core) : core :=
  mk_core (state_ s) (suite_ s) (group_ s) (failure_ s) (failure_received_ s) (closed_ s) v
    (compatibility_sent_ s) (receive_epoch_ s) (peer_ s) (output_ s) (send_ s) (receive_ s)
    (transcript_ s) (handshake_secret_ s) (client_handshake_ s) (server_handshake_ s)
    (client_traffic_ s) (server_traffic_ s).
Definition set_compatibility_sent (v : bool) (s : core) : core :=
  mk_core (state_ s) (suite_ s) (group_ s) (failure_ s) (failure_received_ s) (closed_ s)
    (close_sent_ s) v (receive_epoch_ s) (peer_ s) (output_ s) (send_ s) (receive_ s)
    (transcript_ s) (handshake_secret_ s) (client_handshake_ s) (server_handshake_ s)
    (client_traffic_ s) (server_traffic_ s).
Definition set_receive_epoch (v : Z) (s : core) : core :=
  mk_core (state_ s) (suite_ s) (group_ s) (failure_ s) (failure_received_ s) (closed_ s)
    (close_sent_ s) (compatibility_sent_ s) v (peer_ s) (output_ s) (send_ s) (receive_ s)
    (transcript_ s) (handshake_secret_ s) (client_handshake_ s) (server_handshake_ s)
    (client_traffic_ s) (server_traffic_ s).
Definition set_peer (v : list certificate) (s : core) : core :=
  mk_core (state_ s) (suite_ s) (group_ s) (failure_ s) (failure_received_ s) (closed_ s)
    (close_sent_ s) (compatibility_sent_ s) (receive_epoch_ s) v (output_ s) (send_ s)
    (receive_ s) (transcript_ s) (handshake_secret_ s) (client_handshake_ s) (server_handshake_ s)
    (client_traffic_ s) (server_traffic_ s).
Definition set_output (v : bytes) (s : core) : core :=
  mk_core (state_ s) (suite_ s) (group_ s) (failure_ s) (failure_received_ s) (closed_ s)
    (close_sent_ s) (compatibility_sent_ s) (receive_epoch_ s) (peer_ s) v (send_ s) (receive_ s)
    (transcript_ s) (handshake_secret_ s) (client_handshake_ s) (server_handshake_ s)
    (client_traffic_ s) (server_traffic_ s).
Definition set_send (v : record.t) (s : core) : core :=
  mk_core (state_ s) (suite_ s) (group_ s) (failure_ s) (failure_received_ s) (closed_ s)
    (close_sent_ s) (compatibility_sent_ s) (receive_epoch_ s) (peer_ s) (output_ s) v
    (receive_ s) (transcript_ s) (handshake_secret_ s) (client_handshake_ s) (server_handshake_ s)
    (client_traffic_ s) (server_traffic_ s).
Definition set_receive (v : record.t) (s : core) : core :=
  mk_core (state_ s) (suite_ s) (group_ s) (failure_ s) (failure_received_ s) (closed_ s)
    (close_sent_ s) (compatibility_sent_ s) (receive_epoch_ s) (peer_ s) (output_ s) (send_ s) v
    (transcript_ s) (handshake_secret_ s) (client_handshake_ s) (server_handshake_ s)
    (client_traffic_ s) (server_traffic_ s).
Definition set_transcript (v : accumulator) (s : core) : core :=
  mk_core (state_ s) (suite_ s) (group_ s) (failure_ s) (failure_received_ s) (closed_ s)
    (close_sent_ s) (compatibility_sent_ s) (receive_epoch_ s) (peer_ s) (output_ s) (send_ s)
    (receive_ s) v (handshake_secret_ s) (client_handshake_ s) (server_handshake_ s)
    (client_traffic_ s) (server_traffic_ s).
Definition set_handshake_secret (v : bytes) (s : core) : core :=
  mk_core (state_ s) (suite_ s) (group_ s) (failure_ s) (failure_received_ s) (closed_ s)
    (close_sent_ s) (compatibility_sent_ s) (receive_epoch_ s) (peer_ s) (output_ s) (send_ s)
    (receive_ s) (transcript_ s) v (client_handshake_ s) (server_handshake_ s) (client_traffic_ s)
    (server_traffic_ s).
Definition set_client_handshake (v : bytes) (s : core) : core :=
  mk_core (state_ s) (suite_ s) (group_ s) (failure_ s) (failure_received_ s) (closed_ s)
    (close_sent_ s) (compatibility_sent_ s) (receive_epoch_ s) (peer_ s) (output_ s) (send_ s)
    (receive_ s) (transcript_ s) (handshake_secret_ s) v (server_handshake_ s) (client_traffic_ s)
    (server_traffic_ s).
Definition set_server_handshake (v : bytes) (s : core) : core :=
  mk_core (state_ s) (suite_ s) (group_ s) (failure_ s) (failure_received_ s) (closed_ s)
    (close_sent_ s) (compatibility_sent_ s) (receive_epoch_ s) (peer_ s) (output_ s) (send_ s)
    (receive_ s) (transcript_ s) (handshake_secret_ s) (client_handshake_ s) v (client_traffic_ s)
    (server_traffic_ s).
Definition set_client_traffic (v : bytes) (s : core) : core :=
  mk_core (state_ s) (suite_ s) (group_ s) (failure_ s) (failure_received_ s) (closed_ s)
    (close_sent_ s) (compatibility_sent_ s) (receive_epoch_ s) (peer_ s) (output_ s) (send_ s)
    (receive_ s) (transcript_ s) (handshake_secret_ s) (client_handshake_ s) (server_handshake_ s)
    v (server_traffic_ s).
Definition set_server_traffic (v : bytes) (s : core) : core :=
  mk_core (state_ s) (suite_ s) (group_ s) (failure_ s) (failure_received_ s) (closed_ s)
    (close_sent_ s) (compatibility_sent_ s) (receive_epoch_ s) (peer_ s) (output_ s) (send_ s)
    (receive_ s) (transcript_ s) (handshake_secret_ s) (client_handshake_ s) (server_handshake_ s)
    (client_traffic_ s) v.

(** The constants of a connection: its context, random and ephemeral secret. *)
Context (context_ : tls_context.t) (random_ secret_ : bytes) (now : Z).

Definition init : core :=
  mk_core client_hello 0 0 0 false false false false 0 [] [] record.init record.init
    transcript.init [] [] [] [] [].

Definition is_established (s : core) : bool := bool_decide (state_ s = established).
Definition is_failed (s : core) : bool := bool_decide (state_ s = failed).

(** Seal a record into the output. *)
Definition seal (type : Z) (content : bytes) (s : core) : core :=
  let '(out, send) := record.seal (output_ s) type content (send_ s) in
  set_output out (set_send send s).

Definition fail (description : Z) (s : core) : core * bool :=
  if is_failed s then (s, false) else
  (seal content.alert [alert_fatal; description] (set_failure description (set_state failed s)), false).

(** ** Keys and transcript *)

Definition nist_exchange (v : curve) (share : bytes) : option (bytes * bytes) :=
  if negb (len share =? curve_point_size v) then None else
  let secret := curve_generate v in
  match curve_public_key v secret with
  | None => None
  | Some point =>
    match curve_agree v secret share with
    | None => None
    | Some value => Some (value, point)
    end
  end.

(** The shared secret and own key share of a group, or false. *)
Definition exchange (share : bytes) (s : core) : option (bytes * bytes) :=
  if group_ s =? secp256r1_group then nist_exchange secp256r1 share else
  if group_ s =? secp384r1_group then nist_exchange secp384r1 share else
  if negb (len share =? 32) then None else
  match x25519_multiply secret_ share with
  | None => None
  | Some value => Some (value, x25519_base secret_)
  end.

Definition set_receive_secret (traffic : bytes) (s : core) : core :=
  set_receive_epoch (narrow 64 (receive_epoch_ s + 1))
    (set_receive (record.set_secret (suite_ s) traffic (receive_ s)) s).

Definition set_send_secret (traffic : bytes) (s : core) : core :=
  set_send (record.set_secret (suite_ s) traffic (send_ s)) s.

Definition add_transcript (message : bytes) (s : core) : core :=
  set_transcript (transcript.write message (transcript_ s)) s.

Definition transcript_hash (s : core) : bytes := transcript.hash (transcript_ s).

(** ** Sending *)

(** The loop of [send]: what is left of the data. *)
Definition send_step (type : Z) (x : bytes * core) : (bytes * core) + core :=
  let '(data, s) := x in
  if 0 <? len data then
    let size := maximum_plaintext `min` len data in
    inl (zdrop size data, seal type (ztake size data) s)
  else inr s.

Definition send (type : Z) (data : bytes) (s : core) : core :=
  default s (while (fun x => length x.1) (send_step type) (data, s)).

Definition send_compatibility (session : bytes) (s : core) : core :=
  if bool_decide (session = []) || compatibility_sent_ s then s else
  set_compatibility_sent true (seal content.change_cipher_spec [compatibility_payload] s).

Definition hello_body (value session key_share : bytes) (suite : Z) : bytes :=
  let version := tls_writer.write_16 version_13 [] in
  let extensions := tls_writer.write_16 extension.key_share [] in
  let extensions := tls_writer.write_vector_16 key_share extensions in
  let extensions := tls_writer.write_16 extension.supported_versions extensions in
  let extensions := tls_writer.write_vector_16 version extensions in
  let body := tls_writer.write_16 legacy_version [] in
  let body := tls_writer.write_bytes value body in
  let body := tls_writer.write_vector_8 session body in
  let body := tls_writer.write_16 suite body in
  let body := tls_writer.write_8 0x00 body in
  tls_writer.write_vector_16 extensions body.

(** ServerHello, or HelloRetryRequest by its random and key_share (4.1.3). *)
Definition send_hello (value session key_share : bytes) (s : core) : core :=
  let hello := make_message handshake.server_hello (hello_body value session key_share (suite_ s)) in
  let s := add_transcript hello s in
  send_compatibility session (seal content.handshake hello s).

Definition send_retry (message session : bytes) (s : core) : core :=
  let hash := schedule.hash (suite_ s) message in
  let synthetic := tls_writer.write_vector_24 hash (tls_writer.write_8 handshake.message_hash []) in
  let s := add_transcript synthetic (set_transcript (transcript.reset (suite_ s)) s) in
  let entry := tls_writer.write_16 (group_ s) [] in
  set_state retry_hello (send_hello retry_random session entry s).

(** The messages of the flight: a message enters the transcript as it is
    appended. *)
Definition append (message : bytes) (x : bytes * core) : bytes * core :=
  let '(messages, s) := x in (messages ++ message, add_transcript message s).

Definition certificate_request : bytes :=
  let schemes := tls_writer.write_16 ecdsa_secp256r1_sha256 [] in
  let schemes := tls_writer.write_16 ecdsa_secp384r1_sha384 schemes in
  let algorithms := tls_writer.write_vector_16 schemes [] in
  let extensions := tls_writer.write_16 extension.signature_algorithms [] in
  let extensions := tls_writer.write_vector_16 algorithms extensions in
  tls_writer.write_vector_16 extensions (tls_writer.write_vector_8 [] []).

Definition certificate_body : bytes :=
  let entries := fold_left (fun entries certificate =>
      tls_writer.write_16 0 (tls_writer.write_vector_24 certificate entries))
    (tls_context.chain_ context_) [] in
  tls_writer.write_vector_24 entries (tls_writer.write_vector_8 [] []).

Definition write_signature (scheme : Z) (v : curve) (key digest : bytes) : bytes :=
  tls_writer.write_vector_16 (curve_sign v key digest) (tls_writer.write_16 scheme []).

Definition certificate_verify_body (content : bytes) : bytes :=
  if bool_decide (tls_context.curve_ context_ = secp256r1)
  then write_signature ecdsa_secp256r1_sha256 secp256r1 (tls_context.key_ context_)
    (digest sha256 content)
  else write_signature ecdsa_secp384r1_sha384 secp384r1 (tls_context.key384_ context_)
    (digest sha512_384 content).

Definition send_flight (s : core) : core :=
  let x := append (make_message handshake.encrypted_extensions (tls_writer.write_16 0 [])) ([], s) in
  let x := if tls_context.request_ context_
    then append (make_message handshake.certificate_request certificate_request) x else x in
  let x := append (make_message handshake.certificate certificate_body) x in
  let content := verify_content server_verify (transcript_hash x.2) in
  let x := append (make_message handshake.certificate_verify (certificate_verify_body content)) x in
  let verify_data := schedule.finished (suite_ x.2) (server_handshake_ x.2) (transcript_hash x.2) in
  let '(messages, s) := append (make_message handshake.finished verify_data) x in
  let s := send content.handshake messages s in
  let master := schedule.master_secret (suite_ s) (handshake_secret_ s) in
  let hash := transcript_hash s in
  let s := set_client_traffic (schedule.derive_secret (suite_ s) master (chars "c ap traffic") hash) s in
  let s := set_server_traffic (schedule.derive_secret (suite_ s) master (chars "s ap traffic") hash) s in
  set_send_secret (server_traffic_ s) s.

(** KeyUpdate under the current send key, then the next send key (4.6.3). *)
Definition send_update (s : core) : core :=
  let update := tls_writer.write_8 update_not_requested [] in
  let s := send content.handshake (make_message handshake.key_update update) s in
  let s := set_server_traffic (schedule.update (suite_ s) (server_traffic_ s)) s in
  set_send_secret (server_traffic_ s) s.

(** ** Client hello *)

(** What the extensions of a client hello offer. *)
Record offers := mk_offers {
  seen : list Z;
  versions : list Z;
  groups : list Z;
  algorithms : list Z;
  shares : bytes;
  has_shares : bool;
  has_early : bool
}.

Definition no_offers : offers := mk_offers [] [] [] [] [] false false.

(** The switch on an extension: the offers, or an alert. *)
Definition offer (type : Z) (data : bytes) (o : offers) : offers + Z :=
  let '(mk_offers seen v g a sh hs he) := o in
  if type =? extension.supported_versions then
    match to_list data true with
    | Some v => inl (mk_offers seen v g a sh hs he) | None => inr alert.decode_error end
  else if type =? extension.supported_groups then
    match to_list data false with
    | Some g => inl (mk_offers seen v g a sh hs he) | None => inr alert.decode_error end
  else if type =? extension.signature_algorithms then
    match to_list data false with
    | Some a => inl (mk_offers seen v g a sh hs he) | None => inr alert.decode_error end
  else if type =? extension.key_share then inl (mk_offers seen v g a data true he)
  else if type =? extension.early_data then inl (mk_offers seen v g a sh hs true)
  else inl o.

Definition reader_measure (r : tls_reader.t) : nat :=
  length (data_ r) + (if valid_ r then 1 else 0).

Definition extensions_step (x : tls_reader.t * offers) : (tls_reader.t * offers) + (offers + Z) :=
  let '(l, o) := x in
  if is_valid l && negb (is_complete l) then
    let '(type, l) := read_16 l in
    let '(data, l) := read_vector_16 l in
    if negb (is_valid l) then inr (inr alert.decode_error) else
    if contains (seen o) type then inr (inr alert.illegal_parameter) else
    let o := mk_offers (seen o ++ [type]) (versions o) (groups o) (algorithms o) (shares o)
      (has_shares o) (has_early o) in
    match offer type data o with
    | inl o => inl (l, o)
    | inr alert => inr (inr alert)
    end
  else inr (inl o).

Definition parse_extensions (extensions : bytes) : offers + Z :=
  default (inr alert.decode_error)
    (while (fun x => reader_measure x.1) extensions_step (make extensions, no_offers)).

(** KeyShareClientHello (4.2.8), the first share of each group. *)
Definition shares_step (x : tls_reader.t * list (Z * bytes)) :
  (tls_reader.t * list (Z * bytes)) + (tls_reader.t * list (Z * bytes)) :=
  let '(entries, offered) := x in
  if is_valid entries && negb (is_complete entries) then
    let '(group, entries) := read_16 entries in
    let '(exchange, entries) := read_vector_16 entries in
    inl (entries, if is_valid entries then offered ++ [(group, exchange)] else offered)
  else inr x.

Definition parse_shares (shares : bytes) : option (list (Z * bytes)) :=
  let '(l, share_list) := read_vector_16 (make shares) in
  if negb (is_complete share_list) then None else
  match while (fun x => reader_measure x.1) shares_step (make l, []) with
  | Some (entries, offered) => if negb (is_valid entries) then None else Some offered
  | None => None
  end.

Definition share_of (offered : list (Z * bytes)) (group : Z) : bytes :=
  match List.find (fun entry => entry.1 =? group) offered with
  | Some entry => entry.2
  | None => []
  end.

(** The client hello is accepted with the shared secret and own key share. *)
Definition accept_hello (message session shared own : bytes) (s : core) : core :=
  let entry := tls_writer.write_vector_16 own (tls_writer.write_16 (group_ s) []) in
  let s := send_hello random_ session entry (add_transcript message s) in
  let s := set_handshake_secret
    (schedule.handshake_secret (suite_ s) (schedule.early_secret (suite_ s)) shared) s in
  let hash := transcript_hash s in
  let derive label := schedule.derive_secret (suite_ s) (handshake_secret_ s) (chars label) hash in
  let s := set_client_handshake (derive "c hs traffic"%string) s in
  let s := set_server_handshake (derive "s hs traffic"%string) s in
  let s := set_send_secret (server_handshake_ s) s in
  let s := set_receive_secret (client_handshake_ s) s in
  let s := send_flight s in
  set_state (if tls_context.request_ context_ then client_certificate else client_finished) s.

(** Negotiation, given the parsed hello. *)
Definition negotiate (message session : bytes) (ciphers : list Z) (o : offers) (s : core) : core * bool :=
  let retried := bool_decide (state_ s = retry_hello) in
  if negb (contains (versions o) version_13) then fail alert.protocol_version s else
  match List.find (contains ciphers) preferred_suites with
  | None => fail alert.handshake_failure s
  | Some suite =>
    if retried && (negb (suite =? suite_ s) || has_early o) then fail alert.illegal_parameter s else
    if bool_decide (algorithms o = []) || bool_decide (groups o = []) || negb (has_shares o)
    then fail alert.missing_extension s else
    let scheme := if bool_decide (tls_context.curve_ context_ = secp256r1)
      then ecdsa_secp256r1_sha256 else ecdsa_secp384r1_sha384 in
    if negb (contains (algorithms o) scheme) then fail alert.handshake_failure s else
    match parse_shares (shares o) with
    | None => fail alert.decode_error s
    | Some offered =>
      let mutual := contains (groups o) in
      let with_share group := mutual group && negb (bool_decide (share_of offered group = [])) in
      match List.find mutual preferred_groups with
      | None => fail alert.handshake_failure s
      | Some retry =>
        let s := set_suite suite s in
        let s := if retried then s else set_transcript (transcript.reset (suite_ s)) s in
        match List.find with_share preferred_groups with
        | None =>
          if retried then fail alert.illegal_parameter s else
          (send_retry message session (set_group retry s), true)
        | Some group =>
          if retried && negb (group =? group_ s) then fail alert.illegal_parameter s else
          let s := set_group group s in
          match exchange (share_of offered (group_ s)) s with
          | None => fail alert.illegal_parameter s
          | Some (shared, own) => (accept_hello message session shared own s, true)
          end
        end
      end
    end
  end.

Definition handle_client_hello (message body : bytes) (s : core) : core * bool :=
  let hello := make body in
  let '(_, hello) := read_16 hello in
  let '(_, hello) := read_bytes 32 hello in
  let '(session, hello) := read_vector_8 hello in
  let '(ciphers, hello) := read_list_16 hello in
  let '(compression, hello) := read_vector_8 hello in
  if is_complete hello then fail alert.protocol_version s else
  let '(extensions, hello) := read_vector_16 hello in
  if negb (is_complete hello) || (len session >? 32) || bool_decide (ciphers = [])
  then fail alert.decode_error s else
  if negb (len compression =? 1) || negb (zget compression 0 =? 0)
  then fail alert.illegal_parameter s else
  match parse_extensions extensions with
  | inr alert => fail alert s
  | inl o => negotiate message session ciphers o s
  end.

(** ** Client authentication *)

Definition to_alert (ec : verify_error) : Z :=
  if bool_decide (ec = certificate_expired) || bool_decide (ec = certificate_not_yet_valid)
  then alert.certificate_expired
  else if bool_decide (ec = chain_untrusted) then alert.unknown_ca
  else alert.bad_certificate.

Definition entries_step (x : tls_reader.t * list certificate) :
  (tls_reader.t * list certificate) + ((tls_reader.t * list certificate) + Z) :=
  let '(entries, chain) := x in
  if is_valid entries && negb (is_complete entries) then
    let '(der, entries) := read_vector_24 entries in
    let '(_, entries) := read_vector_16 entries in
    if negb (is_valid entries) then inr (inr alert.decode_error) else
    match parse_certificate der with
    | None => inr (inr alert.bad_certificate)
    | Some value => inl (entries, chain ++ [value])
    end
  else inr (inl x).

Definition parse_entries (l : bytes) : (tls_reader.t * list certificate) + Z :=
  default (inr alert.decode_error)
    (while (fun x => reader_measure x.1) entries_step (make l, [])).

Definition handle_certificate (message body : bytes) (s : core) : core * bool :=
  let certificate := make body in
  let '(request_context, certificate) := read_vector_8 certificate in
  let '(l, certificate) := read_vector_24 certificate in
  if negb (is_complete certificate) then fail alert.decode_error s else
  if negb (bool_decide (request_context = [])) then fail alert.illegal_parameter s else
  match parse_entries l with
  | inr alert => fail alert s
  | inl (entries, chain) =>
    if negb (is_valid entries) then fail alert.decode_error s else
    let s := add_transcript message s in
    match chain with
    | [] =>
      if tls_context.require_ context_ then fail alert.certificate_required s else
      (set_state client_finished s, true)
    | _ =>
      match verify_client chain (tls_context.anchors_ context_) (tls_context.time now context_) with
      | Some ec => fail (to_alert ec) s
      | None => (set_state client_certificate_verify (set_peer chain s), true)
      end
    end
  end.

Definition verify_signature (v : curve) (key der digest : bytes) : bool :=
  if negb (len key =? curve_point_size v) then false else curve_verify v key der digest.

(** The signature of the content under the scheme, or a scheme that is not
    that of the leaf. *)
Definition check_signature (leaf : certificate) (scheme : Z) (signature content : bytes) : option bool :=
  if (scheme =? ecdsa_secp256r1_sha256) && bool_decide (certificate_curve leaf = Some secp256r1)
  then Some (verify_signature secp256r1 (certificate_key leaf) signature (digest sha256 content))
  else if (scheme =? ecdsa_secp384r1_sha384) && bool_decide (certificate_curve leaf = Some secp384r1)
  then Some (verify_signature secp384r1 (certificate_key leaf) signature (digest sha512_384 content))
  else None.

(** The chain is not empty in this state ([front] of an empty vector is
    undefined). *)
Definition handle_certificate_verify (message body : bytes) (s : core) : core * bool :=
  let verify := make body in
  let '(scheme, verify) := read_16 verify in
  let '(signature, verify) := read_vector_16 verify in
  if negb (is_complete verify) then fail alert.decode_error s else
  match peer_ s with
  | [] => (s, false)
  | leaf :: _ =>
    let content := verify_content client_verify (transcript_hash s) in
    match check_signature leaf scheme signature content with
    | None => fail alert.illegal_parameter s
    | Some valid =>
      if negb valid then fail alert.decrypt_error s else
      (set_state client_finished (add_transcript message s), true)
    end
  end.

(** ** Finished and key update *)

Definition handle_finished (message body : bytes) (s : core) : core * bool :=
  let expected := schedule.finished (suite_ s) (client_handshake_ s) (transcript_hash s) in
  if negb (len body =? len expected) || negb (bool_decide (expected = body))
  then fail alert.decrypt_error s else
  let s := add_transcript message s in
  (set_state established (set_receive_secret (client_traffic_ s) s), true).

Definition handle_key_update (body : bytes) (s : core) : core * bool :=
  if negb (len body =? 1) then fail alert.decode_error s else
  let request := zget body 0 in
  if negb (request =? update_not_requested) && negb (request =? update_requested)
  then fail alert.illegal_parameter s else
  let s := set_client_traffic (schedule.update (suite_ s) (client_traffic_ s)) s in
  let s := set_receive_secret (client_traffic_ s) s in
  (if (request =? update_requested) && negb (close_sent_ s) then send_update s else s, true).

Definition handle_message (type : Z) (message body : bytes) (s : core) : core * bool :=
  match state_ s with
  | client_hello | retry_hello =>
    if type =? handshake.client_hello then handle_client_hello message body s
    else fail alert.unexpected_message s
  | client_certificate =>
    if type =? handshake.certificate then handle_certificate message body s
    else fail alert.unexpected_message s
  | client_certificate_verify =>
    if type =? handshake.certificate_verify then handle_certificate_verify message body s
    else fail alert.unexpected_message s
  | client_finished =>
    if type =? handshake.finished then handle_finished message body s
    else fail alert.unexpected_message s
  | established =>
    if type =? handshake.key_update then handle_key_update body s
    else fail alert.unexpected_message s
  | failed => fail alert.unexpected_message s
  end.

(** ** Lemmas

    The sending operations change the output and the send record alone. *)

Definition sends (c c' : core) : Prop := exists o r, c' = set_output o (set_send r c).

Lemma sends_refl c : sends c c.
Proof. exists (output_ c), (send_ c). by destruct c. Qed.

Lemma sends_trans a b c : sends a b -> sends b c -> sends a c.
Proof. intros (o & r & ->) (o' & r' & ->). by exists o', r'. Qed.

Lemma seal_sends type l c : sends c (seal type l c).
Proof. unfold seal. destruct (record.seal _ _ _ _) as [o r]. by exists o, r. Qed.

(** Sending more than a record seals the pieces of the data in turn. *)
Fixpoint seals (type : Z) (l : list bytes) (c : core) : core :=
  match l with [] => c | d :: l => seals type l (seal type d c) end.

Lemma send_spec type data c : exists l,
  send type data c = seals type l c /\ concat l = data /\ Forall (fun d => len d <= maximum_plaintext) l.
Proof.
  unfold send. assert (decreases (fun _ => True) (fun x => length x.1) (send_step type)) as Hd.
  { intros [d s] s' _ Hs. split; [done |]. unfold send_step in Hs.
    destruct (0 <? len d) eqn:Hl; simplify_eq. simpl. unfold zdrop. rewrite length_drop.
    unfold len, maximum_plaintext in *. lia. }
  assert (exists n, length data = n) as [n Hn] by by eexists.
  revert data c Hn. induction n as [n IH] using lt_wf_ind. intros data c Hn.
  rewrite (while_unfold _ _ _ _ Hd I). unfold send_step at 1.
  destruct (0 <? len data) eqn:Hl.
  - set (size := maximum_plaintext `min` len data).
    assert (0 < size <= len data) by (unfold size, maximum_plaintext in *; lia).
    edestruct (IH (length (zdrop size data))) as (l & Hw & Hc & Hf); [| done |].
    { subst n. unfold zdrop. rewrite length_drop. unfold len in *. lia. }
    exists (ztake size data :: l). split_and!.
    + destruct (while_total _ _ _ (zdrop size data, seal type (ztake size data) c) Hd I) as [x Hx].
      rewrite Hx in *. simpl in *. exact Hw.
    + simpl. by rewrite Hc, ztake_zdrop.
    + constructor; [| done]. rewrite len_ztake by lia. lia.
  - exists []. simpl. split_and!; [done | | done]. symmetry. apply len_zero_nil.
    pose proof (len_nonneg data). lia.
Qed.

Lemma seals_sends type l c : sends c (seals type l c).
Proof.
  revert c. induction l as [| d l IH]; intros c; [apply sends_refl |]. simpl.
  eapply sends_trans; [apply seal_sends | apply IH].
Qed.

Lemma send_sends type data c : sends c (send type data c).
Proof. destruct (send_spec type data c) as (l & -> & _). apply seals_sends. Qed.

(** A failure is final, and is sent once. *)
Lemma fail_spec description c :
  (fail description c).2 = false /\
  exists c', sends (if is_failed c then c else set_failure description (set_state failed c)) c' /\
    fail description c = (c', false).
Proof.
  unfold fail. destruct (is_failed c); (split; [done |]).
  - exists c. split; [apply sends_refl | done].
  - eexists; split; [apply seal_sends | done].
Qed.

Lemma fail_failed description c : state_ (fail description c).1 = failed.
Proof.
  unfold fail, is_failed. case_bool_decide; [done |]. unfold seal. by destruct (record.seal _ _ _ _).
Qed.

(** ** Authentication *)

(** The chain of a client is verified, and its key signed the transcript that
    was completed by its certificate verify message. *)
Definition verified (chain : list certificate) : Prop :=
  verify_client chain (tls_context.anchors_ context_) (tls_context.time now context_) = None.

Definition proved (chain : list certificate) (t : accumulator) : Prop :=
  exists leaf rest t0 message scheme signature,
    chain = leaf :: rest /\ t = transcript.write message t0 /\
    check_signature leaf scheme signature (verify_content client_verify (transcript.hash t0)) = Some true.

Definition client_ok (c : core) (t : accumulator) : Prop :=
  (tls_context.require_ context_ = true -> peer_ c <> []) /\
  (peer_ c <> [] -> verified (peer_ c) /\ proved (peer_ c) t).

(** The client finished message carries the code of the transcript under the
    client's handshake secret, and the transcript proves the client. *)
Definition authenticated (c : core) : Prop :=
  exists t message,
    transcript_ c = transcript.write message t /\
    zdrop message_header_size message = schedule.finished (suite_ c) (client_handshake_ c) (transcript.hash t) /\
    client_ok c t.

Definition inv (c : core) : Prop :=
  match state_ c with
  | client_hello | retry_hello | client_certificate => peer_ c = []
  | client_certificate_verify => peer_ c <> [] /\ verified (peer_ c)
  | client_finished => client_ok c (transcript_ c)
  | established => authenticated c
  | failed => True
  end.

(** What authentication depends on. *)
Definition same_auth (c c' : core) : Prop :=
  transcript_ c = transcript_ c' /\ suite_ c = suite_ c' /\
  client_handshake_ c = client_handshake_ c' /\ peer_ c = peer_ c'.

Lemma same_auth_authenticated c c' : same_auth c c' -> authenticated c -> authenticated c'.
Proof.
  intros (Ht & Hs & Hc & Hp) (t & m & Hm & Hf & Ho). exists t, m.
  unfold client_ok in *. by rewrite <- Ht, <- Hs, <- Hc, <- Hp.
Qed.

Lemma sends_same c c' : sends c c' -> same_auth c c' /\ state_ c' = state_ c.
Proof. by intros (o & r & ->). Qed.

Lemma fail_inv description c : inv (fail description c).1.
Proof. unfold inv. by rewrite fail_failed. Qed.

Lemma fail_same description c : same_auth c (fail description c).1.
Proof.
  destruct (fail_spec description c) as (_ & c' & Hs & ->). simpl. apply sends_same in Hs as [Hs _].
  by destruct (is_failed c).
Qed.

Lemma send_compatibility_peer session c :
  peer_ (send_compatibility session c) = peer_ c /\ state_ (send_compatibility session c) = state_ c.
Proof.
  unfold send_compatibility. destruct (_ || _); [done |].
  by destruct (seal_sends content.change_cipher_spec [compatibility_payload] c) as (o & r & ->).
Qed.

Lemma send_hello_peer value session key_share c : peer_ (send_hello value session key_share c) = peer_ c.
Proof.
  unfold send_hello. rewrite (proj1 (send_compatibility_peer _ _)).
  by destruct (seal_sends content.handshake
    (make_message handshake.server_hello (hello_body value session key_share (suite_ c)))
    (add_transcript (make_message handshake.server_hello
      (hello_body value session key_share (suite_ c))) c)) as (o & r & ->).
Qed.

Lemma append_peer m x : peer_ (append m x).2 = peer_ x.2.
Proof. by destruct x. Qed.

Lemma send_flight_peer c : peer_ (send_flight c) = peer_ c.
Proof.
  unfold send_flight.
  set (x := append (make_message handshake.certificate_verify _) _).
  assert (peer_ x.2 = peer_ c) as Hx by (unfold x; rewrite !append_peer; by destruct (tls_context.request_ _)).
  clearbody x. destruct (append _ x) as [messages s] eqn:Ha.
  assert (peer_ s = peer_ c) as Hs.
  { match type of Ha with append ?m _ = _ => pose proof (append_peer m x) as Hap end.
    rewrite Ha in Hap. simpl in Hap. congruence. }
  destruct (send_sends content.handshake messages s) as (o & r & ->). exact Hs.
Qed.

Lemma accept_hello_inv message session shared own c :
  (tls_context.require_ context_ = true -> tls_context.request_ context_ = true) ->
  peer_ c = [] -> inv (accept_hello message session shared own c).
Proof.
  intros Hr Hp. unfold accept_hello. set (s := send_hello _ _ _ _).
  assert (peer_ s = []) as Hs by (unfold s; by rewrite send_hello_peer). clearbody s.
  match goal with |- inv (set_state _ (send_flight ?x)) => set (y := x) end.
  assert (peer_ (send_flight y) = []) as Hy by (by rewrite send_flight_peer).
  clearbody y. revert Hy. generalize (send_flight y) as z. intros z Hz. unfold inv.
  destruct (tls_context.request_ context_) eqn:Hq; simpl; [done |]. split; simpl; rewrite Hz; [| done].
  intros Hx. by specialize (Hr Hx).
Qed.

Lemma send_retry_inv message session c : peer_ c = [] -> inv (send_retry message session c).
Proof.
  intros Hp. unfold send_retry. set (s := send_hello _ _ _ _).
  assert (peer_ s = []) as Hs by (unfold s; by rewrite send_hello_peer). clearbody s.
  unfold inv. simpl. done.
Qed.

(** Leave a goal about a failure. *)
Ltac failed := first [apply fail_inv | assumption].

Lemma negotiate_inv message session ciphers o c :
  (tls_context.require_ context_ = true -> tls_context.request_ context_ = true) ->
  peer_ c = [] -> inv (negotiate message session ciphers o c).1.
Proof.
  intros Hr Hp. unfold negotiate. destruct (negb (contains _ _)); [failed |].
  destruct (List.find _ preferred_suites) as [suite |]; [| failed].
  set (retried := bool_decide (state_ c = retry_hello)). clearbody retried.
  destruct (retried && _); [failed |]. destruct (_ || _ || _); [failed |].
  destruct (negb (contains _ _)); [failed |].
  destruct (parse_shares _) as [offered |]; [| failed].
  destruct (List.find _ preferred_groups) as [retry |]; [| failed].
  set (s := if retried then _ else _).
  assert (peer_ s = []) as Hs by (unfold s; by destruct retried). clearbody s.
  destruct (List.find _ preferred_groups) as [group |].
  - destruct (retried && _); [failed |].
    destruct (exchange _ _) as [[shared own] |]; [| failed]. by apply accept_hello_inv.
  - destruct retried; [failed |]. by apply send_retry_inv.
Qed.

Lemma handle_client_hello_inv message body c :
  (tls_context.require_ context_ = true -> tls_context.request_ context_ = true) ->
  peer_ c = [] -> inv (handle_client_hello message body c).1.
Proof.
  intros Hr Hp. unfold handle_client_hello.
  repeat match goal with |- context [let '(_, _) := ?x in _] => destruct x as [? ?] end.
  destruct (is_complete _); [failed |].
  repeat match goal with |- context [let '(_, _) := ?x in _] => destruct x as [? ?] end.
  destruct (_ || _ || _); [failed |]. destruct (_ || _); [failed |].
  destruct (parse_extensions _); [by apply negotiate_inv | failed].
Qed.

Lemma handle_certificate_inv message body c :
  peer_ c = [] -> inv (handle_certificate message body c).1.
Proof.
  intros Hp. unfold handle_certificate.
  repeat match goal with |- context [let '(_, _) := ?x in _] => destruct x as [? ?] end.
  destruct (negb (is_complete _)); [failed |]. destruct (negb (bool_decide _)); [failed |].
  destruct (parse_entries _) as [[entries [| leaf chain]] | alert]; [| | failed];
    (destruct (negb (is_valid entries)); [failed |]).
  - destruct (tls_context.require_ context_) eqn:Hr; [failed |].
    unfold inv, client_ok. simpl. rewrite Hp, Hr. done.
  - destruct (verify_client _ _ _) as [ec |] eqn:Hv; [failed |]. unfold inv. by simpl.
Qed.

Lemma handle_certificate_verify_inv message body c :
  peer_ c <> [] -> verified (peer_ c) -> inv (handle_certificate_verify message body c).1.
Proof.
  intros Hp Hv. unfold handle_certificate_verify.
  destruct (read_16 (make body)) as [scheme v]. destruct (read_vector_16 v) as [signature v'].
  destruct (negb (is_complete v')); [failed |].
  destruct (peer_ c) as [| leaf rest] eqn:Hc; [done |].
  destruct (check_signature leaf scheme signature _) as [[] |] eqn:Hs; [| failed | failed].
  unfold inv, client_ok. simpl. rewrite Hc. split; [done |]. intros _. split; [done |].
  by exists leaf, rest, (transcript_ c), message, scheme, signature.
Qed.

Lemma handle_finished_inv message c :
  client_ok c (transcript_ c) ->
  inv (handle_finished message (zdrop message_header_size message) c).1.
Proof.
  intros Hc. unfold handle_finished. destruct (_ || _) eqn:Hb; [failed |].
  apply orb_false_iff in Hb as [_ Hb]. apply negb_false_iff, bool_decide_eq_true in Hb.
  unfold inv. simpl. exists (transcript_ c), message. split_and!; [done | symmetry; exact Hb | exact Hc].
Qed.

Lemma handle_key_update_same body c : let c' := (handle_key_update body c).1 in
  same_auth c c' /\ (state_ c' = state_ c \/ state_ c' = failed).
Proof.
  assert (forall d, same_auth c (fail d c).1 /\ (state_ (fail d c).1 = state_ c \/ state_ (fail d c).1 = failed)) as Hf.
  { intros d. split; [apply fail_same | right; apply fail_failed]. }
  unfold handle_key_update. destruct (negb (len body =? 1)); [apply Hf |].
  destruct (negb _ && negb _); [apply Hf |]. set (s := set_receive_secret _ _).
  assert (same_auth c s /\ state_ s = state_ c) as [Hs1 Hs2] by (by split).
  clearbody s. cbn [fst]. destruct ((_ =? _) && _); [| by split; [| left]].
  unfold send_update.
  destruct (send_sends content.handshake (make_message handshake.key_update
    (tls_writer.write_8 update_not_requested [])) s) as (o & r & ->). split; [exact Hs1 | by left].
Qed.

(** Once authenticated, a server stays so. *)
Definition settled (c : core) : Prop :=
  authenticated c /\ (state_ c = established \/ state_ c = failed).

Lemma settled_inv c : settled c -> inv c.
Proof. intros [Ha [Hs | Hs]]; unfold inv; by rewrite Hs. Qed.

Lemma fail_settled d c : settled c -> settled (fail d c).1.
Proof.
  intros [Ha _]. split; [| right; apply fail_failed]. eapply same_auth_authenticated; [apply fail_same | done].
Qed.

Lemma handle_message_settled type message body c :
  settled c -> settled (handle_message type message body c).1.
Proof.
  intros Hs. pose proof Hs as [Ha [He | He]]; unfold handle_message; rewrite He; [| by apply fail_settled].
  destruct (type =? _); [| by apply fail_settled].
  destruct (handle_key_update_same body c) as [Hk Hst]. split; [by eapply same_auth_authenticated |].
  destruct Hst as [-> | ->]; auto.
Qed.

Lemma handle_message_inv type message c :
  (tls_context.require_ context_ = true -> tls_context.request_ context_ = true) ->
  inv c -> inv (handle_message type message (zdrop message_header_size message) c).1.
Proof.
  intros Hr Hi. destruct (state_ c) eqn:Hs; pose proof Hi as Hc; unfold inv in Hc; rewrite Hs in Hc.
  6: { apply settled_inv, handle_message_settled. split; [done | by left]. }
  all: unfold handle_message; rewrite Hs; try (destruct (type =? _)); try failed.
  - by apply handle_client_hello_inv.
  - by apply handle_client_hello_inv.
  - by apply handle_certificate_inv.
  - destruct Hc. by apply handle_certificate_verify_inv.
  - by apply handle_finished_inv.
Qed.
(** ** The parsing loops end

    A read that fails empties its reader, and one that succeeds takes bytes. *)

Definition voids {A} (op : tls_reader.t -> A * tls_reader.t) : Prop :=
  forall r, valid_ (op r).2 = false -> data_ (op r).2 = [].

Lemma read_bytes_voids n : voids (read_bytes n).
Proof. intros [l []]; unfold read_bytes; simpl; [by destruct (n >? _) | done]. Qed.

Lemma read_16_voids : voids read_16.
Proof.
  intros r. unfold read_16. pose proof (read_bytes_voids 2 r) as Hv.
  destruct (read_bytes 2 r) as [l r']. by destruct (bool_decide _).
Qed.

Lemma read_24_voids : voids read_24.
Proof.
  intros r. unfold read_24. pose proof (read_bytes_voids 3 r) as Hv.
  destruct (read_bytes 3 r) as [l r']. by destruct (bool_decide _).
Qed.

Lemma read_vector_voids op : voids op -> voids (read_vector op).
Proof.
  intros Ho r. unfold read_vector. specialize (Ho r). destruct (op r) as [n r1]. simpl in *.
  destruct (valid_ r1) eqn:Hv; [apply read_bytes_voids | by intros _; apply Ho].
Qed.

(** Two reads in turn, the first of at least a byte. *)
Lemma reads_less {A B} (f : tls_reader.t -> A * tls_reader.t) (g : tls_reader.t -> B * tls_reader.t)
    ef eg pf pg r :
  tls_codec.exact f ef pf -> tls_codec.exact g eg pg -> voids f -> voids g ->
  (forall v, pf v -> (0 < length (ef v))%nat) -> bytes_ok (data_ r) -> valid_ r = true ->
  let r' := (g (f r).2).2 in bytes_ok (data_ r') /\ (reader_measure r' < reader_measure r)%nat.
Proof.
  intros Hf Hg Hvf Hvg He Hb Hv. specialize (Hvf r). destruct (f r) as [v r1] eqn:Hr1. cbn [snd] in *.
  assert (bytes_ok (data_ r1) /\ (valid_ r1 = true -> (length (data_ r1) < length (data_ r))%nat)) as [Hb1 Hl1].
  { destruct (valid_ r1) eqn:Hv1; [| by rewrite Hvf].
    destruct (Hf _ _ _ Hb Hr1 Hv1) as (_ & Hd & Hp). apply He in Hp. rewrite Hd in Hb |- *.
    apply Forall_app in Hb as [_ Hb]. split; [done |]. rewrite length_app. lia. }
  specialize (Hvg r1). destruct (g r1) as [w r2] eqn:Hr2. cbn [snd] in *. unfold reader_measure. rewrite Hv.
  destruct (valid_ r2) eqn:Hv2; [| by rewrite Hvg; [split; [constructor | simpl; lia] |]].
  destruct (Hg _ _ _ Hb1 Hr2 Hv2) as (Hv1 & Hd & _). specialize (Hl1 Hv1). rewrite Hd in Hb1, Hl1.
  apply Forall_app in Hb1 as [_ Hb1]. rewrite length_app in Hl1. split; [done | lia].
Qed.

Lemma read_vector_16_exact : tls_codec.exact read_vector_16 (fun l => be_bytes 2 (len l) ++ l)
  (fun l => bytes_ok l /\ len l < 256 ^ Z.of_nat 2).
Proof. apply tls_codec.read_vector_exact, tls_codec.read_16_exact. Qed.

Lemma read_vector_24_exact : tls_codec.exact read_vector_24 (fun l => be_bytes 3 (len l) ++ l)
  (fun l => bytes_ok l /\ len l < 256 ^ Z.of_nat 3).
Proof. apply tls_codec.read_vector_exact, tls_codec.read_24_exact. Qed.

Lemma field_less r : bytes_ok (data_ r) -> is_valid r && negb (is_complete r) = true ->
  let r' := (read_vector_16 (read_16 r).2).2 in
  bytes_ok (data_ r') /\ (reader_measure r' < reader_measure r)%nat.
Proof.
  intros Hb Hc. apply andb_true_iff in Hc as [Hv _].
  apply (reads_less _ _ _ _ _ _ r tls_codec.read_16_exact read_vector_16_exact);
    [apply read_16_voids | apply read_vector_voids, read_16_voids | | done | done].
  intros v _. rewrite length_be_bytes. lia.
Qed.

Lemma entry_less r : bytes_ok (data_ r) -> is_valid r && negb (is_complete r) = true ->
  let r' := (read_vector_16 (read_vector_24 r).2).2 in
  bytes_ok (data_ r') /\ (reader_measure r' < reader_measure r)%nat.
Proof.
  intros Hb Hc. apply andb_true_iff in Hc as [Hv _].
  apply (reads_less _ _ _ _ _ _ r read_vector_24_exact read_vector_16_exact);
    [apply read_vector_voids, read_24_voids | apply read_vector_voids, read_16_voids | | done | done].
  intros v _. rewrite length_app, length_be_bytes. lia.
Qed.

Lemma extensions_decreases :
  decreases (fun x => bytes_ok (data_ x.1)) (fun x => reader_measure x.1) extensions_step.
Proof.
  intros [r o] s' Hb He. unfold extensions_step in He. destruct (is_valid r && _) eqn:Hc; [| done].
  pose proof (field_less r Hb Hc) as Hl.
  destruct (read_16 r) as [type r1]. destruct (read_vector_16 _) as [d r2]. simpl in Hl. clear Hc.
  destruct (negb _); [done |]. destruct (contains _ _); [done |].
  destruct (offer _ _ _); simplify_eq. exact Hl.
Qed.

Lemma shares_decreases :
  decreases (fun x => bytes_ok (data_ x.1)) (fun x => reader_measure x.1) shares_step.
Proof.
  intros [r o] s' Hb He. unfold shares_step in He. destruct (is_valid r && _) eqn:Hc; [| done].
  pose proof (field_less r Hb Hc) as Hl.
  destruct (read_16 r) as [type r1]. destruct (read_vector_16 _) as [d r2]. simpl in Hl. clear Hc.
  simplify_eq. exact Hl.
Qed.

Lemma entries_decreases :
  decreases (fun x => bytes_ok (data_ x.1)) (fun x => reader_measure x.1) entries_step.
Proof.
  intros [r o] s' Hb He. unfold entries_step in He. destruct (is_valid r && _) eqn:Hc; [| done].
  pose proof (entry_less r Hb Hc) as Hl.
  destruct (read_vector_24 r) as [der r1]. destruct (read_vector_16 _) as [d r2]. simpl in Hl. clear Hc.
  destruct (negb _); [done |]. destruct (parse_certificate _); simplify_eq. exact Hl.
Qed.

(** The loops over the lists of a hello and of a certificate message end, so
    the alert that stands for a loop without end is not used. *)
Lemma parsers_end l : bytes_ok l ->
  is_Some (while (fun x => reader_measure x.1) extensions_step (make l, no_offers)) /\
  is_Some (while (fun x => reader_measure x.1) shares_step (make l, [])) /\
  is_Some (while (fun x => reader_measure x.1) entries_step (make l, [])).
Proof.
  intros Hl. split_and!.
  - by destruct (while_total _ _ _ (make l, no_offers) extensions_decreases Hl) as [r ->].
  - by destruct (while_total _ _ _ (make l, []) shares_decreases Hl) as [r ->].
  - by destruct (while_total _ _ _ (make l, []) entries_decreases Hl) as [r ->].
Qed.

(** A message is refused only by failing. *)
Ltac refuses := repeat match goal with
  | |- (fail _ _).2 = _ -> _ => intros _; apply fail_failed
  | |- (_, true).2 = _ -> _ => done
  | |- context [let '(_, _) := ?x in _] => destruct x
  | |- context [match ?x with _ => _ end] => destruct x
  end.

Lemma handle_message_refuses type message body c :
  (state_ c = client_certificate_verify -> peer_ c <> []) ->
  (handle_message type message body c).2 = false -> state_ (handle_message type message body c).1 = failed.
Proof.
  intros Hp. unfold handle_message.
  assert ((handle_client_hello message body c).2 = false ->
    state_ (handle_client_hello message body c).1 = failed) as Hh.
  { unfold handle_client_hello, negotiate. cbv zeta. refuses. }
  destruct (state_ c) eqn:Hs; try (destruct (type =? _)); try done; try (intros _; apply fail_failed).
  - unfold handle_certificate. refuses.
  - unfold handle_certificate_verify. destruct (peer_ c) eqn:Hc; [by specialize (Hp eq_refl) |]. refuses.
  - unfold handle_finished. refuses.
  - unfold handle_key_update. cbv zeta. refuses.
Qed.
End server.
End tls_server.
