(* ===== verification/TlsServer.v ===== *)
(** * TlsServer: the records of the tls 1.3 server

    Models the record layer and the interface of [src/tls/server.cpp] over the
    message handlers of TlsHandshake.  A server is its input buffer and its
    session, the session being the handshake and application buffers and the
    core.  [receive] gives [None] only if its loop ran out of steps, which
    [receive_returns] excludes. *)

From S2P Require Import Prelude.
From S2P Require Import TlsConstants.
From S2P Require Import TlsCodec.
From S2P Require Import TlsSchedule.
From S2P Require Import TlsRecord.
From S2P Require Import TlsContext.
From S2P Require Import TlsHandshake.

Module tls_connection.
Import tls_server.

Section server.
Context `{Digests, Aead, X509, Curves}.
Context (context_ : tls_context.t) (random_ secret_ : bytes) (now : Z).

Record session := mk_session { handshake_ : bytes; application_ : bytes; core_ : core }.

Record t := mk { input_ : bytes; session_ : session }.

Definition init : t := mk [] (mk_session [] [] tls_server.init).

Definition state_of (s : session) : state := state_ (core_ s).
Definition with_core (c : core) (s : session) : session := mk_session (handshake_ s) (application_ s) c.

Definition fail_session (description : Z) (s : session) : session * bool :=
  let '(c, ok) := fail description (core_ s) in (with_core c s, ok).

(** The loop of [handle_handshake]. *)
Definition handshake_step (s : session) : session + (session * bool) :=
  if len (handshake_ s) >=? message_header_size then
    let header := tls_reader.make (ztake message_header_size (handshake_ s)) in
    let '(type, header) := tls_reader.read_8 header in
    let '(size, header) := tls_reader.read_24 header in
    if size >? maximum_message then inr (fail_session alert.decode_error s) else
    let total := message_header_size + size in
    if len (handshake_ s) <? total then inr (s, true) else
    let message := ztake total (handshake_ s) in
    let s := mk_session (zdrop total (handshake_ s)) (application_ s) (core_ s) in
    let epoch := receive_epoch_ (core_ s) in
    let body := zdrop message_header_size message in
    let '(c, ok) := handle_message context_ random_ secret_ now type message body (core_ s) in
    let s := with_core c s in
    if negb ok then inr (s, false) else
    if negb (epoch =? receive_epoch_ (core_ s)) && negb (bool_decide (handshake_ s = []))
    then inr (fail_session alert.unexpected_message s) else inl s
  else inr (s, true).

Definition handle_handshake (content : bytes) (s : session) : session * bool :=
  if bool_decide (content = []) then fail_session alert.unexpected_message s else
  let s := mk_session (handshake_ s ++ content) (application_ s) (core_ s) in
  default (s, false) (while (fun s => length (handshake_ s)) handshake_step s).

Definition handle_alert (content : bytes) (s : session) : session * bool :=
  if negb (len content =? 2) then fail_session alert.decode_error s else
  let description := zget content 1 in
  if description =? alert.close_notify then (with_core (set_closed true (core_ s)) s, true) else
  if description =? alert.user_canceled then (s, true) else
  (with_core (set_failure_received true (set_failure description (set_state failed (core_ s)))) s, false).

Definition handle_content (type : Z) (content : bytes) (s : session) : session * bool :=
  if type =? content.alert then handle_alert content s else
  if type =? content.handshake then handle_handshake content s else
  if type =? content.application_data then
    if negb (is_established (core_ s)) then fail_session alert.unexpected_message s else
    (mk_session (handshake_ s) (application_ s ++ content) (core_ s), true)
  else fail_session alert.unexpected_message s.

Definition handle_record (type : Z) (header fragment : bytes) (s : session) : session * bool :=
  if type =? content.change_cipher_spec then
    let handshaking := negb (bool_decide (state_of s = client_hello)) &&
      negb (bool_decide (state_of s = established)) in
    if negb handshaking || negb (len fragment =? 1) || negb (zget fragment 0 =? compatibility_payload)
    then fail_session alert.unexpected_message s else (s, true)
  else if negb (record.is_protected (receive_ (core_ s))) then
    if len fragment >? maximum_plaintext then fail_session alert.record_overflow s else
    if type =? content.application_data then fail_session alert.unexpected_message s else
    handle_content type fragment s
  else if negb (type =? content.application_data) then fail_session alert.unexpected_message s else
  let '(opened, receive) := record.open header fragment (receive_ (core_ s)) in
  let s := with_core (set_receive receive (core_ s)) s in
  match opened with
  | None => fail_session alert.bad_record_mac s
  | Some (inner, content) =>
    if len content >? maximum_plaintext then fail_session alert.record_overflow s else
    handle_content inner content s
  end.

(** The loop of [receive] over the bytes that it has not taken: it returns
    early, or leaves with what remains. *)
Definition live (s : session) : bool := negb (is_failed (core_ s)) && negb (closed_ (core_ s)).

Definition receive_step (x : bytes * session) :
  (bytes * session) + ((session * bool) + (bytes * session)) :=
  let '(available, s) := x in
  if live s && (len available >=? record_header_size) then
    let header := tls_reader.make (ztake record_header_size available) in
    let '(type, header) := tls_reader.read_8 header in
    let '(_, header) := tls_reader.read_16 header in
    let '(size, header) := tls_reader.read_16 header in
    if size >? maximum_ciphertext then inr (inl (fail_session alert.record_overflow s)) else
    if len available <? record_header_size + size then inr (inr (available, s)) else
    let head := ztake record_header_size available in
    let fragment := ztake size (zdrop record_header_size available) in
    let available := zdrop (record_header_size + size) available in
    let '(s, ok) := handle_record type head fragment s in
    if negb ok then inr (inl (s, false)) else inl (available, s)
  else inr (inr (available, s)).

Definition receive (data : bytes) (s : t) : option (t * bool) :=
  if is_failed (core_ (session_ s)) || closed_ (core_ (session_ s)) then Some (s, false) else
  let input := input_ s ++ data in
  match while (fun x => length x.1) receive_step (input, session_ s) with
  | None => None
  | Some (inl (session, ok)) => Some (mk input session, ok)
  | Some (inr (available, session)) =>
    Some (mk available session, negb (is_failed (core_ session)))
  end.

Definition with_session (c : core) (s : t) : t := mk (input_ s) (with_core c (session_ s)).

Definition write (data : bytes) (s : t) : t * bool :=
  let c := core_ (session_ s) in
  if negb (is_established c) || close_sent_ c then (s, false) else
  let c := if record.sequence (send_ c) >=? maximum_records then send_update c else c in
  (with_session (send content.application_data data c) s, true).

(** Move up to [size] received application bytes out. *)
Definition read (size : Z) (s : t) : t * bytes :=
  let app := application_ (session_ s) in
  let size := size `min` len app in
  (mk (input_ s) (mk_session (handshake_ (session_ s)) (zdrop size app) (core_ (session_ s))),
   ztake size app).

Definition close (s : t) : t :=
  let c := core_ (session_ s) in
  if close_sent_ c || is_failed c then s else
  with_session (set_close_sent true (seal content.alert [alert_warning; alert.close_notify] c)) s.

(** The output is the caller's to consume. *)
Definition take_output (s : t) : t * bytes :=
  (with_session (set_output [] (core_ (session_ s))) s, output_ (core_ (session_ s))).

Definition readable (s : t) : Z := len (application_ (session_ s)).
Definition is_closed (s : t) : bool := closed_ (core_ (session_ s)).
Definition is_close_sent (s : t) : bool := close_sent_ (core_ (session_ s)).
Definition failure (s : t) : Z := failure_ (core_ (session_ s)).
Definition is_failure_received (s : t) : bool := failure_received_ (core_ (session_ s)).
Definition suite (s : t) : Z := suite_ (core_ (session_ s)).
Definition group (s : t) : Z := group_ (core_ (session_ s)).
Definition peer (s : t) : list certificate := peer_ (core_ (session_ s)).


(** ** Operations of the owner *)

Inductive op :=
  | Receive (data : bytes)
  | Write (data : bytes)
  | Read (size : Z)
  | Close
  | TakeOutput.

Definition step (s : t) (o : op) : t :=
  match o with
  | Receive data => match receive data s with Some (s, _) => s | None => s end
  | Write data => (write data s).1
  | Read size => (read size s).1
  | Close => close s
  | TakeOutput => (take_output s).1
  end.

Definition run (ops : list op) : t := fold_left step ops init.

(** ** Authentication *)

Hypothesis requires_requested :
  tls_context.require_ context_ = true -> tls_context.request_ context_ = true.

#[local] Abbreviation inv := (tls_server.inv context_ now).
#[local] Abbreviation settled := (tls_server.settled context_ now).

(** Application data is held only by a server that was authenticated. *)
Definition session_inv (s : session) : Prop :=
  inv (core_ s) /\ (application_ s <> [] -> settled (core_ s)).

Lemma fail_session_inv d s : session_inv s -> session_inv (fail_session d s).1.
Proof.
  intros [Hi Ha]. unfold fail_session. pose proof (fail_inv context_ now d (core_ s)) as Hf.
  pose proof (fun Hs => fail_settled context_ now d (core_ s) Hs) as Hs.
  destruct (fail d (core_ s)) as [c ok]. split; [exact Hf | intros Hx; apply Hs, Ha, Hx].
Qed.

Lemma handshake_step_inv s : session_inv s ->
  match handshake_step s with inl s' => session_inv s' | inr (s', _) => session_inv s' end.
Proof.
  intros Hs. unfold handshake_step. destruct (_ >=? _); [| done].
  destruct (tls_reader.read_8 _) as [type header]. destruct (tls_reader.read_24 _) as [size header'].
  destruct (size >? maximum_message).
  { pose proof (fail_session_inv alert.decode_error s Hs) as Hf. by destruct (fail_session _ s). }
  destruct (_ <? _); [done |]. cbv zeta.
  set (s1 := mk_session _ _ _). set (message := ztake _ _).
  assert (session_inv s1) as [Hi Ha] by exact Hs.
  pose proof (handle_message_inv context_ random_ secret_ now type message (core_ s) requires_requested Hi) as Hm.
  pose proof (fun Hs => handle_message_settled context_ random_ secret_ now type message
    (zdrop message_header_size message) (core_ s) Hs) as Hset.
  change (core_ s1) with (core_ s) in *.
  destruct (handle_message _ _ _ _ _ _ _ (core_ s)) as [c ok]. simpl in Hm, Hset.
  assert (session_inv (with_core c s1)) as Hs1 by (split; [exact Hm | intros Hx; apply Hset, Ha, Hx]).
  destruct (negb ok); [done |]. destruct (negb _ && negb _); [| done].
  pose proof (fail_session_inv alert.unexpected_message _ Hs1) as Hf. by destruct (fail_session _ _).
Qed.

Lemma handle_handshake_inv content s : session_inv s -> session_inv (handle_handshake content s).1.
Proof.
  intros Hs. unfold handle_handshake. case_bool_decide; [by apply fail_session_inv |].
  set (s1 := mk_session _ _ _). assert (session_inv s1) as Hs1 by exact Hs.
  destruct (while _ _ s1) as [r |] eqn:Hw; [| done]. simpl.
  eapply (while_invariant _ _ session_inv (fun r => session_inv r.1)); [| | exact Hs1 | exact Hw].
  - intros x x' Hx He. pose proof (handshake_step_inv x Hx) as Hi. by rewrite He in Hi.
  - intros x [x' ok] Hx He. pose proof (handshake_step_inv x Hx) as Hi. by rewrite He in Hi.
Qed.

Lemma handle_alert_inv content s : session_inv s -> session_inv (handle_alert content s).1.
Proof.
  intros Hs. unfold handle_alert. destruct (negb _); [by apply fail_session_inv |].
  destruct (_ =? _); [exact Hs |]. destruct (_ =? _); [exact Hs |]. destruct Hs as [_ Ha].
  split; [done |]. intros Hx. destruct (Ha Hx) as [Hau _]. split; [exact Hau | by right].
Qed.

Lemma handle_content_inv type content s : session_inv s -> session_inv (handle_content type content s).1.
Proof.
  intros Hs. unfold handle_content. destruct (_ =? _); [by apply handle_alert_inv |].
  destruct (_ =? _); [by apply handle_handshake_inv |]. destruct (_ =? _); [| by apply fail_session_inv].
  destruct (negb _) eqn:He; [by apply fail_session_inv |].
  apply negb_false_iff, bool_decide_eq_true in He. destruct Hs as [Hi _].
  split; [exact Hi |]. intros _. split; [| by left]. unfold tls_server.inv in Hi. by rewrite He in Hi.
Qed.

Lemma handle_record_inv type header fragment s :
  session_inv s -> session_inv (handle_record type header fragment s).1.
Proof.
  intros Hs. unfold handle_record. destruct (_ =? _).
  { destruct (_ || _ || _); [by apply fail_session_inv | done]. }
  destruct (negb (record.is_protected _)).
  { destruct (_ >? _); [by apply fail_session_inv |].
    destruct (_ =? _); [by apply fail_session_inv | by apply handle_content_inv]. }
  destruct (negb _); [by apply fail_session_inv |].
  destruct (record.open _ _ _) as [opened r]. set (s1 := with_core _ s).
  assert (session_inv s1) as Hs1 by exact Hs.
  destruct opened as [[inner l] |]; [| by apply fail_session_inv].
  destruct (_ >? _); [by apply fail_session_inv | by apply handle_content_inv].
Qed.

Lemma receive_step_inv x : session_inv x.2 ->
  match receive_step x with
  | inl x' => session_inv x'.2
  | inr (inl (s, _)) => session_inv s
  | inr (inr x') => session_inv x'.2
  end.
Proof.
  destruct x as [available s]. intros Hs. unfold receive_step. destruct (live s && _); [| done].
  destruct (tls_reader.read_8 _) as [type h1]. destruct (tls_reader.read_16 h1) as [v h2].
  destruct (tls_reader.read_16 h2) as [size h3]. destruct (size >? _).
  { pose proof (fail_session_inv alert.record_overflow s Hs) as Hf. by destruct (fail_session _ s). }
  destruct (_ <? _); [done |]. cbv zeta.
  match goal with |- context [handle_record ?a ?b ?c s] =>
    pose proof (handle_record_inv a b c s Hs) as Hr; destruct (handle_record a b c s) as [s1 ok] end.
  by destruct (negb ok).
Qed.

Lemma receive_inv data s s' ok : session_inv (session_ s) -> receive data s = Some (s', ok) ->
  session_inv (session_ s').
Proof.
  intros Hs. unfold receive. destruct (_ || _); [intros; by simplify_eq |].
  destruct (while _ _ _) as [r |] eqn:Hw; [| done].
  pose proof (while_invariant (fun x => length x.1) receive_step (fun x => session_inv x.2) (fun r => match r with
    | inl (s, _) => session_inv s | inr x => session_inv x.2 end) (input_ s ++ data, session_ s) r) as Hi.
  ospecialize (Hi _ _ _ Hw); [| | exact Hs |].
  - intros x x' Hx He. pose proof (receive_step_inv x Hx) as Hj. by rewrite He in Hj.
  - intros x x' Hx He. pose proof (receive_step_inv x Hx) as Hj. by rewrite He in Hj.
  - destruct r as [[s1 ok1] | [available s1]]; intros; simplify_eq; exact Hi.
Qed.

Lemma sends_session_inv c s : session_inv s -> sends (core_ s) c -> session_inv (with_core c s).
Proof.
  intros [Hi Ha] (o & r & ->). split; [exact Hi |]. intros Hx. exact (Ha Hx).
Qed.

Lemma step_inv s o : session_inv (session_ s) -> session_inv (session_ (step s o)).
Proof.
  intros Hs. destruct o as [data | data | size | |]; simpl.
  - destruct (receive data s) as [[s' ok] |] eqn:Hr; [| done]. by eapply receive_inv.
  - unfold write. destruct (_ || _) eqn:He; [done |]. simpl.
    apply orb_false_iff in He as [He _]. apply negb_false_iff, bool_decide_eq_true in He.
    destruct (_ >=? _); [| by apply sends_session_inv; [| apply send_sends]].
    destruct (send_sends content.application_data data (send_update (core_ (session_ s)))) as (o & r & ->).
    unfold send_update.
    match goal with |- context [send content.handshake ?m (core_ (session_ s))] =>
      destruct (send_sends content.handshake m (core_ (session_ s))) as (o' & r' & ->) end.
    exact Hs.
  - destruct Hs as [Hi Ha]. split; [exact Hi |]. simpl. intros Hx. apply Ha. intros Hn. apply Hx.
    rewrite Hn. unfold zdrop. by rewrite drop_nil.
  - unfold close. destruct (_ || _); [done |]. simpl.
    destruct (seal_sends content.alert [alert_warning; alert.close_notify] (core_ (session_ s))) as (o & r & ->).
    exact Hs.
  - exact Hs.
Qed.

Lemma run_inv ops : session_inv (session_ (run ops)).
Proof.
  unfold run. enough (forall s, session_inv (session_ s) -> session_inv (session_ (fold_left step ops s))) as Hw
    by (apply Hw; by split).
  induction ops as [| o ops IH]; intros s Hs; [done |]. by apply IH, step_inv.
Qed.

(** C36: whatever bytes a server receives and whatever its owner does, once it
    is established, or holds application data, its client has been
    authenticated: the transcript ends with a client finished message that
    carries the code of what preceded it under the client's handshake secret;
    if certificates are required the client gave a chain; and a chain that was
    given is verified by the anchors and its key signed the transcript. *)
Theorem server_authenticates ops : let s := run ops in
  is_established (core_ (session_ s)) = true \/ readable s <> 0 ->
  authenticated context_ now (core_ (session_ s)).
Proof.
  intros s Hs. destruct (run_inv ops) as [Hi Ha]. fold s in Hi, Ha. destruct Hs as [He | Hr].
  - unfold is_established in He. apply bool_decide_eq_true in He. unfold tls_server.inv in Hi. by rewrite He in Hi.
  - apply Ha. intros Hn. apply Hr. unfold readable. by rewrite Hn.
Qed.

(** ** Verdicts

    Over bytes every loop ends, and a record is refused only by failing. *)

Definition outcome (r : session * bool) : Prop :=
  bytes_ok (handshake_ r.1) /\ (r.2 = false -> live r.1 = false).

Lemma fail_session_outcome d s : bytes_ok (handshake_ s) -> outcome (fail_session d s).
Proof.
  intros Hb. unfold outcome, fail_session, live, is_failed. pose proof (fail_failed d (core_ s)) as Hf.
  destruct (fail d (core_ s)) as [c ok]. simpl in *. split; [done |]. intros _. by rewrite Hf.
Qed.

(** The header of a handshake message, as [handle_handshake] reads it. *)
Lemma handshake_header l : len l >= message_header_size -> bytes_ok l ->
  exists type size, in_width 24 size /\
  let header := tls_reader.make (ztake message_header_size l) in
  tls_reader.read_8 header = (type, (tls_reader.read_8 header).2) /\
  tls_reader.read_24 (tls_reader.read_8 header).2 = (size, tls_reader.mk [] true).
Proof.
  intros Hl Hb. unfold message_header_size in *.
  destruct l as [| a [| b [| c [| d l]]]]; try (unfold len in Hl; simpl in Hl; lia).
  rewrite !Forall_cons in Hb. destruct Hb as (Ha & Hb & Hc & Hd & _).
  change (ztake 4 (a :: b :: c :: d :: l)) with ([a] ++ [b; c; d]).
  assert (bytes_ok [b; c; d]) as Hbcd by (by rewrite !Forall_cons).
  exists a, (be_value [b; c; d]). split; [apply (be_value_bound [b; c; d] Hbcd) |].
  unfold tls_reader.make. rewrite tls_codec.read_8_takes. cbn [snd].
  pose proof (tls_codec.read_24_takes _ (be_value_bound [b; c; d] Hbcd) []) as Hr.
  rewrite tls_codec.be_bytes_of, app_nil_r in Hr by done. by rewrite Hr.
Qed.

Lemma handshake_decreases :
  decreases (fun s => bytes_ok (handshake_ s)) (fun s => length (handshake_ s)) handshake_step.
Proof.
  intros s s' Hb He. unfold handshake_step in He. destruct (len _ >=? _) eqn:Hg; [| done].
  destruct (handshake_header (handshake_ s)) as (type & size & Hsz & Hr1 & Hr2); [lia | done |].
  rewrite Hr1, Hr2 in He. destruct (size >? _); [done |]. destruct (_ <? _) eqn:Hlt; [done |].
  destruct (handle_message _ _ _ _ _ _ _ _) as [c ok]. destruct (negb ok); [done |].
  destruct (_ && _); [done |]. simplify_eq. simpl. split; [by apply Forall_zdrop |].
  unfold zdrop. rewrite length_drop. unfold len, message_header_size, in_width in *. lia.
Qed.

Lemma handshake_step_outcome s r : session_inv s -> bytes_ok (handshake_ s) ->
  handshake_step s = inr r -> outcome r.
Proof.
  intros [Hi _] Hb. unfold handshake_step. destruct (_ >=? _); [| by intros; simplify_eq].
  destruct (tls_reader.read_8 _) as [type header]. destruct (tls_reader.read_24 _) as [size header'].
  destruct (size >? _); [intros; simplify_eq; by apply fail_session_outcome |].
  destruct (_ <? _); [by intros; simplify_eq |].
  pose proof (fun m => handle_message_refuses context_ random_ secret_ now type m
    (zdrop message_header_size m) (core_ s)) as Hm.
  cbv zeta. cbn [core_]. specialize (Hm (ztake (message_header_size + size) (handshake_ s))).
  destruct (handle_message _ _ _ _ _ _ _ _) as [c ok]. destruct ok; cbn [negb].
  - destruct (_ && _); [| done]. intros; simplify_eq. apply fail_session_outcome. simpl. by apply Forall_zdrop.
  - intros; simplify_eq. split; [simpl; by apply Forall_zdrop |]. intros _. unfold live, is_failed. simpl in *.
    rewrite Hm; [done | | done]. intros Hst. unfold tls_server.inv in Hi. rewrite Hst in Hi. apply Hi.
Qed.

(** The loop of [handle_handshake] ends, and has an outcome. *)
Lemma handshake_ends s : session_inv s -> bytes_ok (handshake_ s) -> exists r,
  while (fun s => length (handshake_ s)) handshake_step s = Some r /\ outcome r.
Proof.
  intros Hs Hb. destruct (while_total _ _ _ s handshake_decreases Hb) as [r Hr]. exists r. split; [done |].
  eapply (while_invariant _ _ (fun s => session_inv s /\ bytes_ok (handshake_ s)) outcome); [| | | exact Hr].
  - intros x x' [Hx Hxb] He. pose proof (handshake_step_inv x Hx) as Hi. rewrite He in Hi.
    split; [done |]. by apply (handshake_decreases x x').
  - intros x x' [Hx Hxb] He. by eapply handshake_step_outcome.
  - done.
Qed.

Lemma handle_handshake_outcome content s : session_inv s -> bytes_ok (handshake_ s) -> bytes_ok content ->
  outcome (handle_handshake content s).
Proof.
  intros Hs Hb Hc. unfold handle_handshake. case_bool_decide; [by apply fail_session_outcome |].
  destruct (handshake_ends (mk_session (handshake_ s ++ content) (application_ s) (core_ s)))
    as (r & -> & Hr); [exact Hs | simpl; by apply Forall_app | exact Hr].
Qed.

Lemma handle_content_outcome type content s : session_inv s -> bytes_ok (handshake_ s) -> bytes_ok content ->
  outcome (handle_content type content s).
Proof.
  intros Hs Hb Hc. unfold handle_content. destruct (_ =? _).
  { unfold handle_alert. destruct (negb _); [by apply fail_session_outcome |].
    destruct (_ =? _); [by split |]. destruct (_ =? _); by split. }
  destruct (_ =? _); [by apply handle_handshake_outcome |].
  destruct (_ =? _); [| by apply fail_session_outcome].
  destruct (negb _); [by apply fail_session_outcome | by split].
Qed.

Lemma strip_bytes l : bytes_ok l -> bytes_ok (record.strip l).2.
Proof.
  induction 1 as [| b l Hb Hl IH]; simpl; [constructor |]. destruct (b =? 0); [done |].
  simpl. by apply Forall_rev.
Qed.

Lemma open_bytes `{!record.AeadLaws} header fragment r m r' : bytes_ok fragment ->
  record.open header fragment r = (Some m, r') -> bytes_ok m.2.
Proof.
  intros Hb. unfold record.open. destruct (_ <=? _); [done |]. destruct (record.next_nonce r) as [nonce r1].
  destruct (record.cipher_ r1); [| done]. destruct (record.decrypt _ _ _ _) as [plain |] eqn:Hd; [| done].
  intros; simplify_eq. apply strip_bytes, Forall_rev. by eapply record.decrypt_bytes.
Qed.

Lemma handle_record_outcome `{!record.AeadLaws} type header fragment s :
  session_inv s -> bytes_ok (handshake_ s) -> bytes_ok fragment -> outcome (handle_record type header fragment s).
Proof.
  intros Hs Hb Hf. unfold handle_record. destruct (_ =? _).
  { destruct (_ || _ || _); [by apply fail_session_outcome | by split]. }
  destruct (negb (record.is_protected _)).
  { destruct (_ >? _); [by apply fail_session_outcome |].
    destruct (_ =? _); [by apply fail_session_outcome | by apply handle_content_outcome]. }
  destruct (negb _); [by apply fail_session_outcome |].
  destruct (record.open _ _ _) as [opened r] eqn:Ho. cbv zeta. set (s1 := with_core _ s).
  destruct opened as [[inner l] |]; [| by apply fail_session_outcome].
  destruct (_ >? _); [by apply fail_session_outcome |].
  apply handle_content_outcome; [exact Hs | done | exact (open_bytes _ _ _ _ _ Hf Ho)].
Qed.

(** ** Segmentation *)

(** The header of a record, as [receive] reads it. *)
Lemma receive_header l : len l >= record_header_size -> bytes_ok l ->
  exists type version size, u16 size /\
  let header := tls_reader.make (ztake record_header_size l) in
  tls_reader.read_8 header = (type, (tls_reader.read_8 header).2) /\
  tls_reader.read_16 (tls_reader.read_8 header).2 = (version, (tls_reader.read_16 (tls_reader.read_8 header).2).2) /\
  tls_reader.read_16 (tls_reader.read_16 (tls_reader.read_8 header).2).2 = (size, tls_reader.mk [] true).
Proof.
  intros Hl Hb. unfold record_header_size in *.
  destruct l as [| a [| b [| c [| d [| e l]]]]]; try (unfold len in Hl; simpl in Hl; lia).
  rewrite !Forall_cons in Hb. destruct Hb as (Ha & Hb & Hc & Hd & He & _).
  change (ztake 5 (a :: b :: c :: d :: e :: l)) with ([a] ++ [b; c] ++ [d; e]).
  pose proof (tls_codec.pair_ok b c Hb Hc) as Hbc. pose proof (tls_codec.pair_ok d e Hd He) as Hde.
  exists a, (be_value [b; c]), (be_value [d; e]). split; [apply (be_value_bound [d; e] Hde) |].
  unfold tls_reader.make. rewrite tls_codec.read_8_takes. cbn [snd].
  pose proof (tls_codec.read_16_takes _ (be_value_bound [b; c] Hbc) [d; e]) as Hr1.
  rewrite tls_codec.be_bytes_of in Hr1 by done. rewrite Hr1. cbn [snd].
  pose proof (tls_codec.read_16_takes _ (be_value_bound [d; e] Hde) []) as Hr2.
  rewrite tls_codec.be_bytes_of, app_nil_r in Hr2 by done. rewrite Hr2. done.
Qed.

(** One record of [receive], with its header read. *)
Lemma receive_step_eq available s : bytes_ok available -> live s = true ->
  len available >= record_header_size -> exists type size, u16 size /\ forall more,
  receive_step (available ++ more, s) =
    if size >? maximum_ciphertext then inr (inl (fail_session alert.record_overflow s)) else
    if len (available ++ more) <? record_header_size + size then inr (inr (available ++ more, s)) else
    let '(s', ok) := handle_record type (ztake record_header_size available)
      (ztake size (zdrop record_header_size (available ++ more))) s in
    if negb ok then inr (inl (s', false))
    else inl (zdrop (record_header_size + size) (available ++ more), s').
Proof.
  intros Hb Hs Hl. destruct (receive_header available Hl Hb) as (type & version & size & Hsz & Hr1 & Hr2 & Hr3).
  exists type, size. split; [done |]. intros more. unfold receive_step. rewrite Hs, len_app.
  pose proof (len_nonneg more). destruct (_ >=? _) eqn:?; [| lia]. simpl andb. cbv iota.
  rewrite ztake_app_le by lia. rewrite Hr1, Hr2, Hr3. done.
Qed.

Lemma receive_decreases : decreases (fun x => bytes_ok x.1) (fun x => length x.1) receive_step.
Proof.
  intros [l s] s' Hb He. simpl in Hb.
  destruct (live s && (len l >=? record_header_size)) eqn:Hc.
  2: { unfold receive_step in He. by rewrite Hc in He. }
  apply andb_true_iff in Hc as [Hs Hl].
  destruct (receive_step_eq l s Hb Hs ltac:(lia)) as (type & size & Hsz & Heq).
  specialize (Heq []). rewrite app_nil_r in Heq. rewrite Heq in He.
  destruct (size >? _); [done |]. destruct (_ <? _) eqn:Hlt; [done |].
  destruct (handle_record _ _ _ s) as [s1 ok]. destruct (negb ok); simplify_eq. simpl.
  split; [by apply Forall_zdrop |]. unfold zdrop. rewrite length_drop.
  unfold record_header_size, len, in_width in *. lia.
Qed.

#[local] Abbreviation receives := (while (fun x => length x.1) receive_step).

Lemma receives_unfold l s : bytes_ok l ->
  receives (l, s) = match receive_step (l, s) with inl x => receives x | inr r => Some r end.
Proof. intros Hl. exact (while_unfold (fun x => bytes_ok x.1) _ _ (l, s) receive_decreases Hl). Qed.

(** What remains when the loop leaves with a live session is taken up by the
    bytes that follow. *)
Lemma receives_app l more s : bytes_ok l -> bytes_ok more ->
  match receives (l, s) with
  | None => False
  | Some (inl r) => receives (l ++ more, s) = Some (inl r)
  | Some (inr (l', s')) =>
    bytes_ok l' /\
    if live s' then receives (l ++ more, s) = receives (l' ++ more, s')
    else receives (l ++ more, s) = Some (inr (l' ++ more, s'))
  end.
Proof.
  intros Hl Hm. assert (exists n, length l = n) as [n Hn] by by eexists.
  revert l s Hl Hn. induction n as [n IH] using lt_wf_ind. intros l s Hl Hn.
  assert (bytes_ok (l ++ more)) as Hlm by (by apply Forall_app).
  destruct (live s && (len l >=? record_header_size)) eqn:Hc.
  2: { rewrite (receives_unfold l s Hl). unfold receive_step at 1. rewrite Hc.
       split; [done |]. destruct (live s) eqn:Hs; [done |].
       rewrite (receives_unfold (l ++ more) s Hlm).
       unfold receive_step at 1. by rewrite Hs. }
  apply andb_true_iff in Hc as [Hs Hg].
  destruct (receive_step_eq l s Hl Hs ltac:(lia)) as (type & size & Hsz & Heq).
  rewrite (receives_unfold (l ++ more) s Hlm), Heq.
  rewrite (receives_unfold l s Hl).
  pose proof (Heq []) as He. rewrite app_nil_r in He. rewrite He. clear He.
  destruct (size >? maximum_ciphertext); [done |]. destruct (len l <? _) eqn:Hlt.
  { split; [done |]. rewrite Hs.
    rewrite (receives_unfold (l ++ more) s Hlm), Heq. done. }
  rewrite len_app. pose proof (len_nonneg more).
  destruct (len l + len more <? _) eqn:?; [lia |].
  unfold record_header_size, in_width in *.
  rewrite !zdrop_app_le, ztake_app_le by (rewrite ?len_zdrop; lia).
  destruct (handle_record _ _ _ s) as [s1 ok]. destruct (negb ok); [done |].
  eapply IH; [| by apply Forall_zdrop | done]. subst n. unfold zdrop. rewrite length_drop.
  unfold len in *. lia.
Qed.

Definition feed (pieces : list bytes) (s : t) : option (t * bool) :=
  fold_left (fun r data => match r with Some (s, _) => receive data s | None => None end)
    pieces (Some (s, true)).

(** Servers that differ at most in the buffer of a connection that has ended,
    which is not read again. *)
Definition alike (a b : t) : Prop :=
  session_ a = session_ b /\ (live (session_ a) = true -> input_ a = input_ b).

Lemma live_open s : is_failed (core_ s) || closed_ (core_ s) = negb (live s).
Proof. unfold live. by rewrite negb_andb, !negb_involutive. Qed.

Lemma receive_dead data s : live (session_ s) = false -> receive data s = Some (s, false).
Proof. intros Hl. unfold receive. by rewrite live_open, Hl. Qed.

Lemma receive_live data s : live (session_ s) = true ->
  receive data s = match receives (input_ s ++ data, session_ s) with
    | None => None
    | Some (inl (session, ok)) => Some (mk (input_ s ++ data) session, ok)
    | Some (inr (available, session)) => Some (mk available session, negb (is_failed (core_ session)))
    end.
Proof. intros Hl. unfold receive. by rewrite live_open, Hl. Qed.

(** What every reachable server satisfies. *)
Definition good (s : t) : Prop :=
  session_inv (session_ s) /\ bytes_ok (handshake_ (session_ s)) /\ bytes_ok (input_ s).

Section laws.
Context `{!record.AeadLaws}.

Lemma receive_step_outcome l s : bytes_ok l -> session_inv s -> bytes_ok (handshake_ s) ->
  match receive_step (l, s) with
  | inl (l', s') => bytes_ok l' /\ session_inv s' /\ bytes_ok (handshake_ s')
  | inr (inl r) => session_inv r.1 /\ bytes_ok (handshake_ r.1) /\ live r.1 = false
  | inr (inr (l', s')) => bytes_ok l' /\ session_inv s' /\ bytes_ok (handshake_ s')
  end.
Proof.
  intros Hl Hs Hb. destruct (live s && (len l >=? record_header_size)) eqn:Hc.
  2: { unfold receive_step. by rewrite Hc. }
  apply andb_true_iff in Hc as [Hv Hg].
  destruct (receive_step_eq l s Hl Hv ltac:(lia)) as (type & size & Hsz & Heq).
  specialize (Heq []). rewrite app_nil_r in Heq. rewrite Heq.
  destruct (size >? _).
  { pose proof (fail_session_inv alert.record_overflow s Hs).
    destruct (fail_session_outcome alert.record_overflow s Hb) as [? Hd].
    split_and!; [done | done |]. apply Hd. unfold fail_session, fail. by destruct (is_failed _). }
  destruct (_ <? _); [done |]. set (f := ztake size _).
  assert (bytes_ok f) as Hf by (by apply Forall_ztake, Forall_zdrop).
  pose proof (handle_record_inv type (ztake record_header_size l) f s Hs) as Hi.
  destruct (handle_record_outcome type (ztake record_header_size l) f s Hs Hb Hf) as [Ho Hd].
  destruct (handle_record _ _ f s) as [s1 []]; simpl in *; [| by auto].
  split_and!; [by apply Forall_zdrop | done | done].
Qed.

Lemma receives_outcome l s r : bytes_ok l -> session_inv s -> bytes_ok (handshake_ s) ->
  receives (l, s) = Some r ->
  match r with
  | inl r => session_inv r.1 /\ bytes_ok (handshake_ r.1) /\ live r.1 = false
  | inr (l', s') => bytes_ok l' /\ session_inv s' /\ bytes_ok (handshake_ s')
  end.
Proof.
  intros Hl Hs Hb. apply (while_invariant (fun x => length x.1) receive_step
    (fun x => bytes_ok x.1 /\ session_inv x.2 /\ bytes_ok (handshake_ x.2)) (fun r => match r with
      | inl r => session_inv r.1 /\ bytes_ok (handshake_ r.1) /\ live r.1 = false
      | inr (l', s') => bytes_ok l' /\ session_inv s' /\ bytes_ok (handshake_ s') end)); [| | done].
  - intros [l1 s1] [l2 s2] (H1' & H2' & H3') He. pose proof (receive_step_outcome l1 s1 H1' H2' H3') as Ho.
    by rewrite He in Ho.
  - intros [l1 s1] r1 (H1' & H2' & H3') He. pose proof (receive_step_outcome l1 s1 H1' H2' H3') as Ho.
    rewrite He in Ho. by destruct r1 as [? | [? ?]].
Qed.

(** Receiving the bytes at once is receiving them in two pieces. *)
Lemma receive_app data more s : good s -> bytes_ok data -> bytes_ok more -> exists a va b vb c vc,
  receive data s = Some (a, va) /\ good a /\
  receive more a = Some (b, vb) /\ receive (data ++ more) s = Some (c, vc) /\
  alike b c /\ (live (session_ c) = true -> vb = vc).
Proof.
  intros (Hs & Hb & Hi) Hd Hm. destruct (live (session_ s)) eqn:Hl.
  2: { exists s, false, s, false, s, false. by rewrite !receive_dead. }
  rewrite !receive_live, app_assoc by done.
  assert (bytes_ok (input_ s ++ data)) as Hid by (by apply Forall_app).
  pose proof (receives_app (input_ s ++ data) more (session_ s) Hid Hm) as Happ.
  destruct (receives (input_ s ++ data, session_ s)) as [r |] eqn:Hr; [| done].
  pose proof (receives_outcome _ _ _ Hid Hs Hb Hr) as Ho.
  destruct r as [[s1 ok] | [l1 s1]].
  - destruct Ho as (Hs1 & Hb1 & Hd1). rewrite Happ. simpl in Hd1.
    exists (mk (input_ s ++ data) s1), ok, (mk (input_ s ++ data) s1), false, (mk ((input_ s ++ data) ++ more) s1), ok.
    rewrite receive_dead by done. do 2 (split; [done |]).
    do 2 (split; [done |]). split; [split; [done |] |]; simpl; congruence.
  - destruct Ho as (Hl1 & Hs1 & Hb1). destruct Happ as [_ Happ].
    set (a := mk l1 s1). assert (good a) as Ha by (by split_and!).
    exists a, (negb (is_failed (core_ s1))). destruct (live s1) eqn:Hv.
    + pose proof (receives_app (l1 ++ more) [] s1) as Htot. rewrite (receive_live more a Hv).
      cbn [a input_ session_]. rewrite Happ.
      assert (bytes_ok (l1 ++ more)) as Hlm by (by apply Forall_app).
      destruct (receives (l1 ++ more, s1)) as [[[s2 ok] | [l2 s2]] |] eqn:Hr2;
        [| | by destruct (Htot Hlm ltac:(constructor))];
        (do 4 eexists; split; [done |]; split; [exact Ha |]; do 2 (split; [done |]); split; [split; [done |] | done]).
      * simpl. apply (receives_outcome _ _ _ Hlm Hs1 Hb1) in Hr2 as (_ & _ & Hd2). simpl in Hd2. congruence.
      * done.
    + rewrite (receive_dead more a Hv), Happ. do 4 eexists. split; [done |]. split; [exact Ha |].
      do 2 (split; [done |]). split; [split; [done |] |]; simpl; congruence.
Qed.

Lemma alike_trans a b c : alike a b -> alike b c -> alike a c.
Proof. intros [H1' H2'] [H3' H4']. split; [congruence |]. intros Hl. rewrite H2' by done. apply H4'. congruence. Qed.

Lemma receive_pieces pieces p s : good s -> bytes_ok p -> Forall bytes_ok pieces -> exists a va b vb,
  feed (p :: pieces) s = Some (a, va) /\ receive (p ++ concat pieces) s = Some (b, vb) /\
  alike a b /\ (live (session_ b) = true -> va = vb).
Proof.
  intros Hs Hp Hps. revert p s Hs Hp. induction Hps as [| q pieces Hq Hps IH]; intros p s Hs Hp.
  - destruct (receive_app p [] s Hs Hp) as (a & va & _ & _ & _ & _ & Hr & _); [constructor |].
    exists a, va, a, va. simpl. rewrite app_nil_r. split_and!; [done | done | by split | done].
  - destruct (receive_app p (q ++ concat pieces) s Hs Hp) as (a & va & b & vb & c & vc & Hr & Ha & Hb & Hc & Hbc & Hv).
    { apply Forall_app. split; [done |]. by apply Forall_concat. }
    destruct (IH q a Ha Hq) as (d & vd & b' & vb' & Hf & Hb' & Hdb & Hv').
    exists d, vd, c, vc. unfold feed in *. simpl in *. rewrite Hr. split_and!; [done | done | |].
    + eapply alike_trans; [exact Hdb |]. by simplify_eq.
    + intros Hl. rewrite <- Hv by done. assert (b' = b /\ vb' = vb) as [-> ->] by (split; congruence).
      apply Hv'. destruct Hbc as [Hbc _]. by rewrite Hbc.
Qed.

Definition op_ok (o : op) : Prop := match o with Receive data => bytes_ok data | _ => True end.

Lemma sends_handshake c s : handshake_ (with_core c s) = handshake_ s.
Proof. done. Qed.

Lemma step_good s o : op_ok o -> good s -> good (step s o).
Proof.
  intros Ho (Hs & Hb & Hi). pose proof (step_inv s o Hs) as Hs'. destruct o as [data | data | size | |].
  - destruct (receive_app data [] s (conj Hs (conj Hb Hi)) Ho) as (a & va & _ & _ & _ & _ & Hr & Ha & _);
      [constructor |]. simpl. by rewrite Hr.
  - split; [exact Hs' |]. simpl. unfold write. by destruct (_ || _).
  - by split.
  - split; [exact Hs' |]. simpl. unfold close. by destruct (_ || _).
  - by split.
Qed.

(** C37: how the bytes of a connection are cut into reads is not observable.  At
    any reachable server, receiving pieces one by one and receiving their
    concatenation at once both return, and leave the same session: the same
    output, the same application data, the same keys, transcript and failure;
    and the same buffered input and verdict while the connection lives. *)
Theorem receive_segmentation ops p pieces :
  Forall op_ok ops -> bytes_ok p -> Forall bytes_ok pieces -> let s := run ops in
  exists a va b vb,
    feed (p :: pieces) s = Some (a, va) /\ receive (p ++ concat pieces) s = Some (b, vb) /\
    alike a b /\ (live (session_ b) = true -> va = vb).
Proof.
  intros Ho Hp Hps s. apply receive_pieces; [| done | done]. unfold s, run.
  assert (good init) as Hi by (by split_and!; try constructor).
  revert Hi. generalize init. induction Ho as [| o ops Ho Hos IH]; intros s' Hs'; [done |].
  apply IH. by apply step_good.
Qed.
End laws.
End server.
End tls_connection.

(** ** A connection

    A client that proves a key to a server that requires it, over primitives
    that satisfy the laws. *)

Module connection.
Import tls_server tls_connection.

Definition x509 : X509 := {|
  certificate := bytes;
  certificate_encoding c := c;
  certificate_key c := ztake 4 c;
  certificate_curve c := Some secp256r1;
  parse_certificates text := Some (text, []);
  parse_certificate der := if len der >? 4 then Some der else None;
  decode_private_key v text password := Some text;
  verify_error := Z;
  verify_error_eq_dec := _;
  certificate_expired := 1;
  certificate_not_yet_valid := 2;
  chain_untrusted := 3;
  verify_client chain anchors now :=
    if bool_decide (last chain = head anchors) then None else Some 3
|}.

(** A signature is the signed digest with the first bytes of the key. *)
Definition curves : Curves := {|
  curve_generate v := [1; 2; 3; 4];
  curve_public_key v key := Some (ztake 4 key);
  curve_agree v key share := Some (ztake 4 key ++ share);
  curve_point_size v := 4;
  curve_sign v key d := d ++ ztake 4 key;
  curve_verify v key der d := bool_decide (der = d ++ ztake 4 key);
  x25519_multiply secret share := Some (zip_with Z.lxor secret share);
  x25519_base secret := secret
|}.

#[local] Existing Instances TlsRecord.example.digests TlsRecord.example.aead
  TlsRecord.example.digest_laws TlsRecord.example.aead_laws x509 curves.

Definition client_certificate : bytes := [9; 8; 7; 6; 5].

Definition context : tls_context.t :=
  tls_context.mk [[1; 2; 3]] [4; 4; 4; 4] [] secp256r1 [4; 4; 4; 4] [client_certificate] true 0 true true.

Definition random : bytes := replicate 32 11.
Definition secret : bytes := replicate 32 12.

Definition vector16 (l : bytes) : bytes := be_bytes 2 (len l) ++ l.
Definition field (type : Z) (l : bytes) : bytes := be_bytes 2 type ++ vector16 l.

(** A client hello that offers the first suite and x25519. *)
Definition hello : bytes :=
  let extensions :=
    field extension.supported_versions (2 :: be_bytes 2 version_13) ++
    field extension.supported_groups (vector16 (be_bytes 2 x25519_group)) ++
    field extension.signature_algorithms (vector16 (be_bytes 2 ecdsa_secp256r1_sha256)) ++
    field extension.key_share (vector16 (field x25519_group (replicate 32 13))) in
  make_message handshake.client_hello
    (be_bytes 2 legacy_version ++ replicate 32 10 ++ [0] ++ vector16 (be_bytes 2 aes_128_gcm_sha256) ++
     [1; 0] ++ vector16 extensions).

Definition hello_record : bytes := [content.handshake; 3; 3] ++ vector16 hello.

#[local] Abbreviation run := (run context random secret 0).

Definition greeted : t := run [Receive hello_record].

(** The client's flight, under the secret that the two share. *)
Definition flight : bytes :=
  let c := core_ (session_ greeted) in
  let entries := be_bytes 3 (len client_certificate) ++ client_certificate ++ be_bytes 2 0 in
  let certificate := make_message handshake.certificate ([0] ++ be_bytes 3 (len entries) ++ entries) in
  let c := add_transcript certificate c in
  let signed := digest sha256 (verify_content client_verify (transcript_hash c)) ++ ztake 4 client_certificate in
  let verify := make_message handshake.certificate_verify
    (be_bytes 2 ecdsa_secp256r1_sha256 ++ vector16 signed) in
  let c := add_transcript verify c in
  let finished := make_message handshake.finished
    (schedule.finished (suite_ c) (client_handshake_ c) (transcript_hash c)) in
  certificate ++ verify ++ finished.

Definition flight_record : bytes :=
  (record.seal [] content.handshake flight (receive_ (core_ (session_ greeted)))).1.

Definition operations : list op := [Receive hello_record; TakeOutput; Receive flight_record].

Definition connected : t := run operations.

Lemma server_authenticates_witness :
  is_established (core_ (session_ connected)) = true /\
  authenticated context 0 (core_ (session_ connected)).
Proof.
  split; [by vm_compute |]. apply (tls_connection.server_authenticates context random secret 0); [done |].
  left. by vm_compute.
Defined.

Lemma receive_segmentation_witness : exists a va b vb,
  feed context random secret 0 [ztake 7 flight_record; zdrop 7 flight_record] greeted = Some (a, va) /\
  receive context random secret 0 (ztake 7 flight_record ++ concat [zdrop 7 flight_record]) greeted =
    Some (b, vb) /\
  alike a b /\ (live (session_ b) = true -> va = vb).
Proof.
  apply (tls_connection.receive_segmentation context random secret 0 ltac:(done) [Receive hello_record]).
  - constructor; [| constructor]. apply is_bytes_ok. by vm_compute.
  - apply is_bytes_ok. by vm_compute.
  - constructor; [| constructor]. apply is_bytes_ok. by vm_compute.
Defined.
End connection.
