(* ===== verification/TlsFraming.v ===== *)
(** * TlsFraming: the output of the tls 1.3 server

    What the server of [src/tls/server.cpp] emits: at every time the output is
    a series of whole records that no receiver refuses for their size, and
    what is written reaches a peer that holds the keys.  The library's curves
    are taken to encode points of the uncompressed sizes. *)

From S2P Require Import Prelude.
From S2P Require Import TlsConstants.
From S2P Require Import TlsCodec.
From S2P Require Import TlsSchedule.
From S2P Require Import TlsRecord.
From S2P Require Import TlsContext.
From S2P Require Import TlsHandshake.
From S2P Require Import TlsServer.

Module tls_framing.
Import tls_reader tls_server tls_connection.

(** The sizes of points: at most that of p384, uncompressed. *)
Class CurveLaws `{Curves} : Prop := {
  curve_public_key_size v key p : curve_public_key v key = Some p -> len p = curve_point_size v;
  curve_point_bound v : 0 <= curve_point_size v <= 97;
  x25519_base_size key : len (x25519_base key) = 32
}.

(** The record of a fragment. *)
Definition record_of (r : Z * bytes) : bytes :=
  r.1 :: be_bytes 2 legacy_version ++ be_bytes 2 (len r.2) ++ r.2.

Definition fits (r : Z * bytes) : Prop :=
  content.change_cipher_spec <= r.1 <= content.application_data /\ len r.2 <= maximum_ciphertext.

Definition framed (out : bytes) : Prop := exists l, out = concat (map record_of l) /\ Forall fits l.

Section framing.
Context `{Digests, Aead, X509, Curves}.
Context (context_ : tls_context.t) (random_ secret_ : bytes) (now : Z).

(** ** A property of the core

    What every failure, every handled message and every change that a record
    makes preserves is preserved by receiving. *)

Section core.
Variable P : core -> Prop.
Hypothesis P_fail : forall d c, P c -> P (fail d c).1.
Hypothesis P_message : forall type message body c, P c ->
  P (handle_message context_ random_ secret_ now type message body c).1.
Hypothesis P_closed : forall c, P c -> P (set_closed true c).
Hypothesis P_alert : forall d c, P c -> P (set_failure_received true (set_failure d (set_state failed c))).
Hypothesis P_receive : forall r c, P c -> P (set_receive r c).

Lemma fail_session_core d s : P (core_ s) -> P (core_ (fail_session d s).1).
Proof.
  intros Hs. unfold fail_session. pose proof (P_fail d (core_ s) Hs) as Hf. by destruct (fail d (core_ s)).
Qed.

Lemma handle_handshake_core content s : P (core_ s) ->
  P (core_ (handle_handshake context_ random_ secret_ now content s).1).
Proof.
  intros Hs. unfold handle_handshake. case_bool_decide; [by apply fail_session_core |].
  set (s1 := mk_session _ _ _). assert (P (core_ s1)) as Hs1 by exact Hs. clearbody s1.
  assert (forall x, P (core_ x) -> match handshake_step context_ random_ secret_ now x with
    | inl x' => P (core_ x') | inr r => P (core_ r.1) end) as Hstep.
  { intros x Hx. unfold handshake_step. destruct (_ >=? _); [| done].
    destruct (tls_reader.read_8 _) as [type header]. destruct (tls_reader.read_24 _) as [size header'].
    destruct (size >? _); [by apply fail_session_core |]. destruct (_ <? _); [done |].
    cbv zeta. cbn [core_ handshake_].
    match goal with |- context [handle_message ?a ?b ?c ?d ?e ?f ?g ?h] =>
      pose proof (P_message e f g h Hx) as Hm; destruct (handle_message a b c d e f g h) as [c1 ok] end.
    destruct (negb ok); [done |]. destruct (_ && _); [by apply fail_session_core | done]. }
  destruct (while _ _ s1) as [r |] eqn:Hw; [| done]. cbn [default].
  eapply (while_invariant _ _ (fun s => P (core_ s)) (fun r => P (core_ r.1))); [| | exact Hs1 | exact Hw];
    intros x x' Hx He; pose proof (Hstep x Hx) as Hi; by rewrite He in Hi.
Qed.

Lemma handle_content_core type content s : P (core_ s) ->
  P (core_ (handle_content context_ random_ secret_ now type content s).1).
Proof.
  intros Hs. unfold handle_content, handle_alert.
  destruct (_ =? _).
  { destruct (negb _); [by apply fail_session_core |]. destruct (_ =? _); [by apply P_closed |].
    destruct (_ =? _); [done | by apply P_alert]. }
  destruct (_ =? _); [by apply handle_handshake_core |].
  destruct (_ =? _); [| by apply fail_session_core].
  destruct (negb _); [by apply fail_session_core | done].
Qed.

Lemma handle_record_core type header fragment s : P (core_ s) ->
  P (core_ (handle_record context_ random_ secret_ now type header fragment s).1).
Proof.
  intros Hs. unfold handle_record. destruct (_ =? _).
  { destruct (_ || _ || _); [by apply fail_session_core | done]. }
  destruct (negb (record.is_protected _)).
  { destruct (_ >? _); [by apply fail_session_core |].
    destruct (_ =? _); [by apply fail_session_core | by apply handle_content_core]. }
  destruct (negb _); [by apply fail_session_core |].
  destruct (record.open _ _ _) as [opened r]. cbv zeta. set (s1 := with_core _ s).
  assert (P (core_ s1)) as Hs1 by (by apply P_receive).
  destruct opened as [[inner l] |]; [| by apply fail_session_core].
  destruct (_ >? _); [by apply fail_session_core | by apply handle_content_core].
Qed.

Lemma receive_step_core x : P (core_ x.2) ->
  match receive_step context_ random_ secret_ now x with
  | inl x' => P (core_ x'.2)
  | inr (inl r) => P (core_ r.1)
  | inr (inr x') => P (core_ x'.2)
  end.
Proof.
  destruct x as [available s]. intros Hs. unfold receive_step. destruct (live s && _); [| done].
  destruct (tls_reader.read_8 _) as [type h1]. destruct (tls_reader.read_16 h1) as [v h2].
  destruct (tls_reader.read_16 h2) as [size h3]. destruct (size >? _); [by apply fail_session_core |].
  destruct (_ <? _); [done |]. cbv zeta.
  match goal with |- context [handle_record _ _ _ _ ?a ?b ?c s] =>
    pose proof (handle_record_core a b c s Hs) as Hr; destruct (handle_record _ _ _ _ a b c s) as [s1 ok] end.
  by destruct (negb ok).
Qed.

Lemma receive_core data s s' ok : P (core_ (session_ s)) ->
  receive context_ random_ secret_ now data s = Some (s', ok) -> P (core_ (session_ s')).
Proof.
  intros Hs. unfold receive. destruct (_ || _); [intros; by simplify_eq |].
  destruct (while _ _ _) as [r |] eqn:Hw; [| done].
  assert (match r with inl r => P (core_ r.1) | inr x => P (core_ x.2) end) as Hi.
  { apply (while_invariant (fun x => length x.1) (receive_step context_ random_ secret_ now)
      (fun x => P (core_ x.2)) (fun r => match r with inl r => P (core_ r.1) | inr x => P (core_ x.2) end)
      (input_ s ++ data, session_ s) r); [| | exact Hs | exact Hw];
      intros x x' Hx He; pose proof (receive_step_core x Hx) as Hj; by rewrite He in Hj. }
  destruct r as [[s1 ok1] | [available s1]]; intros; simplify_eq; exact Hi.
Qed.
End core.

(** ** Frames *)

Lemma framed_nil : framed [].
Proof. by exists []. Qed.

Lemma framed_record out r : framed out -> fits r -> framed (out ++ record_of r).
Proof.
  intros (l & -> & Hl) Hr. exists (l ++ [r]). rewrite map_app, concat_app. simpl.
  rewrite app_nil_r. split; [done |]. apply Forall_app. auto.
Qed.

Context `{!record.AeadLaws}.

Context `{!CurveLaws}.
Hypothesis random_size : len random_ = 32.

Section output.
Variable Q : bytes -> Prop.
Hypothesis Q_record : forall out r, Q out -> fits r -> Q (out ++ record_of r).

Lemma seal_framed type content c : content.change_cipher_spec <= type <= content.application_data ->
  len content <= maximum_plaintext -> Q (output_ c) -> Q (output_ (seal type content c)).
Proof.
  intros Ht Hl Hc. unfold seal, record.seal. pose proof (len_nonneg content) as Hn.
  destruct (record.cipher_ (send_ c)) as [k |] eqn:Hk.
  - change (len [type]) with 1. rewrite record.header_of_write by
      (unfold record.tag_size, maximum_plaintext in *; width).
    destruct (record.next_nonce _) as [nonce r]. simpl.
    set (f := record.encrypt _ _ _ _ _).
    assert (len f = len content + 1 + record.tag_size) as Hf by (unfold f; by rewrite record.len_encrypt).
    rewrite <- Hf. change (Q (output_ c ++ record_of (content.application_data, f))).
    apply Q_record; [done |]. split; [done |]. simpl. rewrite Hf.
    unfold record.tag_size, maximum_ciphertext. lia.
  - simpl. rewrite tls_codec.write_vector_16_be by (unfold maximum_plaintext in *; lia).
    rewrite tls_codec.write_16_be by done. change (Q (output_ c ++ record_of (type, content))).
    apply Q_record; [done |]. split; [done |]. simpl. unfold maximum_ciphertext. lia.
Qed.

Lemma seals_framed type l c : content.change_cipher_spec <= type <= content.application_data ->
  Forall (fun d => len d <= maximum_plaintext) l -> Q (output_ c) -> Q (output_ (seals type l c)).
Proof.
  intros Ht Hl. revert c. induction Hl as [| d l Hd Hl IH]; intros c Hc; [done |]. by apply IH, seal_framed.
Qed.

Lemma send_framed type data c : content.change_cipher_spec <= type <= content.application_data ->
  Q (output_ c) -> Q (output_ (send type data c)).
Proof. intros Ht Hc. destruct (send_spec type data c) as (l & -> & _ & Hl). by apply seals_framed. Qed.

Lemma fail_framed d c : Q (output_ c) -> Q (output_ (fail d c).1).
Proof. intros Hc. unfold fail. destruct (is_failed c); [done |]. by apply seal_framed. Qed.

(** ** The hello fits a record *)

Lemma len_write_8 v w : len (tls_writer.write_8 v w) = len w + 1.
Proof. unfold tls_writer.write_8. by rewrite len_app. Qed.

Lemma len_write_16 v w : len (tls_writer.write_16 v w) = len w + 2.
Proof. unfold tls_writer.write_16. rewrite !len_app, !len_cons, len_nil. lia. Qed.

Lemma len_write_24 v w : len (tls_writer.write_24 v w) = len w + 3.
Proof. unfold tls_writer.write_24. rewrite !len_app, !len_cons, len_nil. lia. Qed.

Lemma len_write_bytes l w : len (tls_writer.write_bytes l w) = len w + len l.
Proof. apply len_app. Qed.

Lemma len_write_vector_8 l w : len (tls_writer.write_vector_8 l w) = len w + 1 + len l.
Proof. unfold tls_writer.write_vector_8. by rewrite len_write_bytes, len_write_8. Qed.

Lemma len_write_vector_16 l w : len (tls_writer.write_vector_16 l w) = len w + 2 + len l.
Proof. unfold tls_writer.write_vector_16. by rewrite len_write_bytes, len_write_16. Qed.

Lemma len_write_vector_24 l w : len (tls_writer.write_vector_24 l w) = len w + 3 + len l.
Proof. unfold tls_writer.write_vector_24. by rewrite len_write_bytes, len_write_24. Qed.

Ltac lens := repeat first
  [ rewrite len_write_vector_8 | rewrite len_write_vector_16 | rewrite len_write_vector_24
  | rewrite len_write_bytes | rewrite len_write_8 | rewrite len_write_16 | rewrite len_nil ].

Lemma len_hello value session key_share suite :
  len (make_message handshake.server_hello (hello_body value session key_share suite)) =
  22 + len value + len session + len key_share.
Proof. unfold make_message, hello_body. cbv zeta. lens. lia. Qed.

Lemma send_compatibility_framed session c : Q (output_ c) -> Q (output_ (send_compatibility session c)).
Proof.
  intros Hc. unfold send_compatibility. destruct (_ || _); [done |].
  change (Q (output_ (seal content.change_cipher_spec [compatibility_payload] c))). by apply seal_framed.
Qed.

Lemma send_hello_framed value session key_share c : len value = 32 -> len session <= 32 ->
  len key_share <= 128 -> Q (output_ c) -> Q (output_ (send_hello value session key_share c)).
Proof.
  intros Hv Hs Hk Hc. unfold send_hello. apply send_compatibility_framed, seal_framed; [done | | exact Hc].
  rewrite len_hello. unfold maximum_plaintext. lia.
Qed.

Lemma append_output m x : output_ (append m x).2 = output_ x.2.
Proof. by destruct x. Qed.

Lemma send_flight_framed c : Q (output_ c) -> Q (output_ (send_flight context_ c)).
Proof.
  intros Hc. unfold send_flight. set (x := append (make_message handshake.certificate_verify _) _).
  assert (output_ x.2 = output_ c) as Hx.
  { unfold x. rewrite !append_output. by destruct (tls_context.request_ _). }
  clearbody x. destruct (append _ x) as [messages s] eqn:Ha.
  assert (output_ s = output_ c) as Hs.
  { match type of Ha with append ?m _ = _ => pose proof (append_output m x) as Hap end.
    rewrite Ha in Hap. simpl in Hap. congruence. }
  change (Q (output_ (send content.handshake messages s))). apply send_framed; [done |]. by rewrite Hs.
Qed.

Lemma exchange_size share c shared own : exchange secret_ share c = Some (shared, own) -> len own <= 97.
Proof.
  unfold exchange, nist_exchange. pose proof (curve_point_bound secp256r1). pose proof (curve_point_bound secp384r1).
  intros He. repeat case_match; simplify_eq;
    try (rewrite x25519_base_size; lia); erewrite curve_public_key_size by done; lia.
Qed.

Lemma accept_hello_framed message session shared own c : len session <= 32 -> len own <= 97 ->
  Q (output_ c) -> Q (output_ (accept_hello context_ random_ message session shared own c)).
Proof.
  intros Hs Ho Hc. unfold accept_hello. set (s := send_hello _ _ _ _).
  assert (Q (output_ s)) as Hf.
  { apply send_hello_framed; [done | done | | exact Hc]. lens. lia. }
  clearbody s. cbv zeta. apply send_flight_framed. exact Hf.
Qed.

Lemma send_retry_framed message session c : len session <= 32 ->
  Q (output_ c) -> Q (output_ (send_retry message session c)).
Proof. intros Hs Hc. apply send_hello_framed; [done | done | | exact Hc]. lens. lia. Qed.

Lemma negotiate_framed message session ciphers o c : len session <= 32 ->
  Q (output_ c) -> Q (output_ (negotiate context_ random_ secret_ message session ciphers o c).1).
Proof.
  intros Hs Hc. unfold negotiate. destruct (negb (contains _ _)); [by apply fail_framed |].
  destruct (List.find _ preferred_suites) as [suite |]; [| by apply fail_framed].
  set (retried := bool_decide (state_ c = retry_hello)). clearbody retried.
  destruct (retried && _); [by apply fail_framed |]. destruct (_ || _ || _); [by apply fail_framed |].
  destruct (negb (contains _ _)); [by apply fail_framed |].
  destruct (parse_shares _) as [offered |]; [| by apply fail_framed].
  destruct (List.find _ preferred_groups) as [retry |]; [| by apply fail_framed].
  set (s := if retried then _ else _).
  assert (Q (output_ s)) as Hf by (unfold s; by destruct retried). clearbody s.
  destruct (List.find _ preferred_groups) as [group |].
  - destruct (retried && _); [by apply fail_framed |].
    destruct (exchange _ _ _) as [[shared own] |] eqn:He; [| by apply fail_framed].
    apply accept_hello_framed; [done | by eapply exchange_size | exact Hf].
  - destruct retried; [by apply fail_framed |]. by apply send_retry_framed.
Qed.

Lemma handle_message_framed type message body c : Q (output_ c) ->
  Q (output_ (handle_message context_ random_ secret_ now type message body c).1).
Proof.
  intros Hc. assert (forall d, Q (output_ (fail d c).1)) as Hf by (intros; by apply fail_framed).
  assert (Q (output_ (handle_client_hello context_ random_ secret_ message body c).1)) as Hh.
  { unfold handle_client_hello.
    repeat match goal with |- context [let '(_, _) := ?x in _] => destruct x as [? ?] end.
    destruct (is_complete _); [apply Hf |].
    repeat match goal with |- context [let '(_, _) := ?x in _] => destruct x as [? ?] end.
    destruct (_ || _ || _) eqn:Hs; [apply Hf |].
    apply orb_false_iff in Hs as [Hs _]. apply orb_false_iff in Hs as [_ Hs].
    destruct (_ || _); [apply Hf |]. destruct (parse_extensions _); [| apply Hf]. apply negotiate_framed; [lia | done]. }
  unfold handle_message. destruct (state_ c); try (destruct (type =? _)); try done; try apply Hf.
  - unfold handle_certificate.
    repeat match goal with |- context [match ?x with _ => _ end] => destruct x end; try apply Hf; try done;
      by apply fail_framed.
  - unfold handle_certificate_verify.
    repeat match goal with |- context [match ?x with _ => _ end] => destruct x end; try apply Hf; done.
  - unfold handle_finished. by destruct (_ || _).
  - unfold handle_key_update. destruct (negb _); [done |]. destruct (_ && _); [done |]. cbv zeta. cbn [fst].
    destruct (_ && _); [| exact Hc].
    match goal with |- context [send_update ?x] => set (s := x); assert (Q (output_ s)) as Hs by exact Hc end.
    clearbody s. change (Q (output_ (send content.handshake
      (make_message handshake.key_update (tls_writer.write_8 update_not_requested [])) s))).
    by apply send_framed.
Qed.

Lemma receive_framed data s s' ok : Q (output_ (core_ (session_ s))) ->
  receive context_ random_ secret_ now data s = Some (s', ok) -> Q (output_ (core_ (session_ s'))).
Proof.
  intros Hs Hr. refine (receive_core (fun c => Q (output_ c)) _ _ _ _ _ data s s' ok Hs Hr);
    try done; intros; [by apply fail_framed | by apply handle_message_framed].
Qed.

Lemma write_framed data s : Q (output_ (core_ (session_ s))) -> Q (output_ (core_ (session_ (write data s).1))).
Proof.
  intros Hs. unfold write. destruct (_ || _); [done |]. apply send_framed; [done |]. destruct (_ >=? _); [| exact Hs].
  exact (send_framed content.handshake (make_message handshake.key_update
    (tls_writer.write_8 update_not_requested [])) (core_ (session_ s)) ltac:(done) Hs).
Qed.

Lemma close_framed s : Q (output_ (core_ (session_ s))) -> Q (output_ (core_ (session_ (close s)))).
Proof.
  intros Hs. unfold close. destruct (_ || _); [done |].
  change (Q (output_ (seal content.alert [alert_warning; alert.close_notify] (core_ (session_ s))))).
  by apply seal_framed.
Qed.
End output.

Lemma step_framed s o : framed (output_ (core_ (session_ s))) ->
  framed (output_ (core_ (session_ (step context_ random_ secret_ now s o)))).
Proof.
  intros Hs. destruct o as [data | data | size | |]; simpl.
  - destruct (receive _ _ _ _ data s) as [[s' ok] |] eqn:Hr; [| done]. exact (receive_framed framed framed_record data s s' ok Hs Hr).
  - by apply (write_framed framed framed_record).
  - exact Hs.
  - by apply (close_framed framed framed_record).
  - apply framed_nil.
Qed.

(** C38: bounds of the output.  Whatever a server receives and whatever its
    owner does, its output is a series of whole records of the content types,
    each with the size of its fragment in its header and no fragment above the
    ciphertext limit: sizes never wrap in the sixteen bits of a header, and no
    receiver that applies the same limit refuses a record for its size. *)
Theorem output_framed ops : framed (output_ (core_ (session_ (run context_ random_ secret_ now ops)))).
Proof.
  unfold run. assert (framed (output_ (core_ (session_ tls_connection.init)))) as Hi by apply framed_nil.
  revert Hi. generalize tls_connection.init. induction ops as [| o ops IH]; intros s Hs; [done |].
  by apply IH, step_framed.
Qed.

(** ** Delivery *)

Lemma seals_all type l c :
  (output_ (seals type l c), send_ (seals type l c)) =
  record.seal_all (map (fun d => (type, d)) l) (output_ c) (send_ c).
Proof.
  revert c. induction l as [| d l IH]; intros c; [done |]. simpl. rewrite IH. unfold seal.
  by destruct (record.seal _ _ _ _) as [o r].
Qed.

(** What is sent, a peer that holds the keys opens, whole and in order. *)
Lemma send_opens type data c r : 0 < type < 256 -> record.in_sync (send_ c) r -> exists l out r',
  output_ (send type data c) = output_ c ++ out /\ concat l = data /\
  record.open_all (length l) out r = Some (map (fun d => (type, d)) l, [], r') /\
  record.in_sync (send_ (send type data c)) r'.
Proof.
  intros Ht Hr. destruct (send_spec type data c) as (l & -> & Hd & Hl).
  pose proof (seals_all type l c) as Hs.
  destruct (record.seal_all_app (map (fun d => (type, d)) l) (output_ c) (send_ c)) as [Ho Hsend].
  rewrite <- Hs in Ho, Hsend. cbn [fst snd] in Ho, Hsend.
  pose proof (record.tls_records_opened (map (fun d => (type, d)) l) (send_ c) r Hr) as Hopen.
  rewrite (surjective_pairing (record.seal_all _ [] (send_ c))) in Hopen. rewrite length_map in Hopen.
  destruct Hopen as (r' & Hopen & Hsync).
  { rewrite Forall_map. eapply Forall_impl; [exact Hl |]. by intros d. }
  exists l, (record.seal_all (map (fun d => (type, d)) l) [] (send_ c)).1, r'.
  rewrite Ho, Hsend. by split_and!.
Qed.

(** Liveness of writing.  An established server that has not been closed
    accepts any data, of any size, and delivers it: a peer whose receive
    record agrees with the server's send record opens, from the output that
    was added, records of application data whose contents are the data in
    order, and the two records agree again.  When the records under a key are
    spent, the output starts with a key update that the peer opens first, and
    the data is opened under the next key. *)
Theorem write_delivers data s r : let c := core_ (session_ s) in
  is_established c = true -> close_sent_ c = false -> record.in_sync (send_ c) r ->
  let '(s', ok) := write data s in
  ok = true /\ exists updates update l out rn r',
    output_ (core_ (session_ s')) = (output_ c ++ update) ++ out /\
    (if record.sequence (send_ c) >=? maximum_records then
      concat updates = make_message handshake.key_update [update_not_requested] /\
      (exists ru, record.open_all (length updates) update r =
        Some (map (fun d => (content.handshake, d)) updates, [], ru)) /\
      rn = record.set_secret (suite_ c) (schedule.update (suite_ c) (server_traffic_ c)) record.init
    else update = [] /\ rn = r) /\
    concat l = data /\
    record.open_all (length l) out rn = Some (map (fun d => (content.application_data, d)) l, [], r') /\
    record.in_sync (send_ (core_ (session_ s'))) r'.
Proof.
  intros c He Hcs Hr. unfold write. fold c. rewrite He, Hcs. cbn [negb orb]. split; [done |].
  cbn [session_ with_session with_core core_].
  destruct (record.sequence (send_ c) >=? maximum_records).
  - destruct (send_opens content.handshake (make_message handshake.key_update [update_not_requested]) c r)
      as (updates & update & ru & Ho & Hu & Hopen & _); [done | done |].
    destruct (send_sends content.handshake (make_message handshake.key_update [update_not_requested]) c)
      as (o & q & Hsend).
    unfold send_update. change (tls_writer.write_8 update_not_requested []) with [update_not_requested].
    rewrite Hsend in Ho |- *. simpl in Ho. subst o. cbv zeta. set (c1 := set_send_secret _ _).
    set (rn := record.set_secret (suite_ c) (schedule.update (suite_ c) (server_traffic_ c)) record.init).
    assert (record.in_sync (send_ c1) rn) as Hn by done.
    destruct (send_opens content.application_data data c1 rn) as (l & out & r' & Ho & Hd & Hop & Hs);
      [done | done |].
    exists updates, update, l, out, rn, r'. split_and!; try done. by exists ru.
  - destruct (send_opens content.application_data data c r) as (l & out & r' & Ho & Hd & Hop & Hs);
      [done | done |].
    exists [], [], l, out, r, r'. rewrite app_nil_r. by split_and!.
Qed.
End framing.

#[local] Existing Instances TlsRecord.example.digests TlsRecord.example.aead
  TlsRecord.example.digest_laws TlsRecord.example.aead_laws connection.x509 connection.curves.

(** Points of the sizes that the laws state. *)
Definition sized_curves : Curves := {|
  curve_generate v := [1; 2; 3; 4];
  curve_public_key v key := Some (replicate 65 4);
  curve_agree v key share := Some (key ++ share);
  curve_point_size v := 65;
  curve_sign v key d := d;
  curve_verify v key der d := bool_decide (der = d);
  x25519_multiply secret share := Some (zip_with Z.lxor secret share);
  x25519_base secret := replicate 32 9
|}.

Lemma sized_curves_laws : @CurveLaws sized_curves.
Proof. by split; intros; simplify_eq/=. Qed.

Lemma output_framed_witness :
  framed (output_ (core_ (session_ (@run _ _ connection.x509 sized_curves
    connection.context connection.random connection.secret 0
    [Receive connection.hello_record; Receive connection.flight_record; Close])))).
Proof.
  refine (@output_framed _ _ connection.x509 sized_curves connection.context connection.random
    connection.secret 0 _ sized_curves_laws _ _). reflexivity.
Defined.

Lemma write_delivers_witness : let s := connection.connected in let c := core_ (session_ s) in
  let '(s', ok) := write [1; 2; 3] s in
  ok = true /\ exists updates update l out rn r',
    output_ (core_ (session_ s')) = (output_ c ++ update) ++ out /\
    (if record.sequence (send_ c) >=? maximum_records then
      concat updates = make_message handshake.key_update [update_not_requested] /\
      (exists ru, record.open_all (length updates) update (send_ c) =
        Some (map (fun d => (content.handshake, d)) updates, [], ru)) /\
      rn = record.set_secret (suite_ c) (schedule.update (suite_ c) (server_traffic_ c)) record.init
    else update = [] /\ rn = send_ c) /\
    concat l = [1; 2; 3] /\
    record.open_all (length l) out rn = Some (map (fun d => (content.application_data, d)) l, [], r') /\
    record.in_sync (send_ (core_ (session_ s'))) r'.
Proof.
  apply (write_delivers [1; 2; 3] connection.connected (send_ (core_ (session_ connection.connected))));
    [by vm_compute | by vm_compute | split; [by vm_compute | done]].
Defined.
End tls_framing.
