(* ===== verification/Proxy.v ===== *)
(** * Proxy: the channel's read and write operations

    Models [src/net/proxy.cpp], [src/net/proxy_queue.cpp] and
    [src/net/proxy_actions.cpp]: the queue of writes and its backlog, the
    throttle, json-rpc batch normalization over tcp and http, and the stop.

    A proxy runs on one strand.  Its state holds, besides the members of the
    class, what is outstanding outside of it: the socket write and the socket
    read in flight, the deferred completion that the throttle holds, the stops
    posted to the strand, and the frames of the operations that wait for a
    client's handler to return, as a handler may call any operation.  What it
    does to its surroundings is recorded in order ([log_]).  A move is an
    operation of a client, the return of a handler, or a completion.  A stop
    from another thread is a move of its own, which may come between any two
    others. *)

From S2P Require Import Prelude.
From S2P Require Import Errors.
From S2P Require Import Async.

Module proxy.
Import error.

(** Addition and subtraction of [size_t] that saturate. *)
Definition ceilinged_add (a b : Z) : Z := (a + b) `min` (2 ^ 64 - 1).
Definition floored_subtract (a b : Z) : Z := (a - b) `max` 0.

(** ** Messages

    A message is an identifier, its estimated size ([rpc::to_size]) and the
    hint that caches it; the batch state of a response part is stamped here. *)

Record request := mk_request { request_id : Z; request_size : Z; request_hint : Z }.

Record response := mk_response {
  response_id : Z; response_size : Z; response_hint : Z; batch : bool; changed : bool }.

(** The alternatives of an http body, with what their cost depends on. *)
Inductive body :=
  | json_body (size_hint : Z)
  | request_body (message : request)
  | response_body (part : response)
  | string_body (size : Z)
  | data_body (size : Z)
  | span_body (size : Z)
  | buffer_body (size : Z)
  | peer_body (size : Z)
  | empty_body
  | other_body.

(** A buffer or message of given size. *)
Record payload := mk_payload { payload_id : Z; payload_size : Z }.

(** The writers that are queued. *)
Inductive writer :=
  | do_ws_write (data : payload) (binary : bool)
  | do_tcp_write (data : payload)
  | do_peer_write (message : payload)
  | do_response_write (part : response)
  | do_notification_write (notification : request)
  | do_http_write (content : body).

(** What is invoked upon the completion of a queued write: the handler of a
    client, or one of the proxy itself (with the client's read handler). *)
Inductive handler :=
  | client (id : nat)
  | handle_stop_write (reason : code)
  | handle_close_write (read : nat)
  | handle_http_close_write (read : nat)
  | ignore.

Record pending := mk_pending { cost : Z; call : writer; complete : handler }.

(** ** Surroundings *)

(** The write operations of the socket. *)
Inductive operation :=
  | ws_write (data : payload) (binary : bool)
  | tcp_write (data : payload)
  | peer_write (message : payload)
  | rpc_write (part : response)
  | rpc_notify (notification : request)
  | rpc_write_chunk (part : response)
  | http_write_header
  | http_write (content : body).

(** The completion of a metered write. *)
Inductive completion := handle_write_completion | handle_http_header_write_completion (part : response).

(** A socket write, or the completion that the throttle holds. *)
Inductive flight :=
  | Writing (k : completion)
  | Charging (k : completion) (ec : code) (bytes : Z).

(** The read operations of the socket, with their completions. *)
Inductive reader :=
  | ws_read | tcp_read | peer_read | http_read
  | rpc_read (batch : bool)
  | detect
  | http_read_header
  | http_read_body
  | http_read_some.

Record read := mk_read { read_operation : reader; read_handler : nat }.

(** The operation that resumes when a handler returns. *)
Inductive frame := Nothing | Finish_write.

Inductive effect :=
  | Push (e : pending)
  | Start (e : pending)
  | Operation (o : operation)
  | Complete (e : pending)
  | Invoke (id : nat) (ec : code) (bytes : Z)
  | Read (r : reader)
  | Throttle_start (delay : Z)
  | Throttle_stop
  | Socket_stop
  | Lazy_stop
  | Stop_notify (id : nat) (ec : code)
  | Subscribed (id : nat) (ec : code).

(** The members of the class and of the socket it uses, and the surroundings. *)
Record t := mk {
  stopped_ : bool;
  lazy_ : bool;
  websocket_ : bool;
  downgraded_ : bool;
  detected_ : bool;
  parser_ : bool;
  queue_ : list pending;
  deferred_ : list pending;
  backlog_ : Z;
  writing_ : bool;
  batched_ : bool;
  parted_ : bool;
  sent_ : Z;
  received_ : Z;
  stop_subscriber_ : subscriber.t nat;
  flight_ : option flight;
  reading_ : list read;
  posted_ : list code;
  frames_ : list frame;
  log_ : list effect
}.

Definition set_stopped (v : bool) (s : t) : t :=
  mk v (lazy_ s) (websocket_ s) (downgraded_ s) (detected_ s) (parser_ s) (queue_ s) (deferred_ s)
    (backlog_ s) (writing_ s) (batched_ s) (parted_ s) (sent_ s) (received_ s)
    (stop_subscriber_ s) (flight_ s) (reading_ s) (posted_ s) (frames_ s) (log_ s).
Definition set_lazy (v : bool) (s : t) : t :=
  mk (stopped_ s) v (websocket_ s) (downgraded_ s) (detected_ s) (parser_ s) (queue_ s)
    (deferred_ s) (backlog_ s) (writing_ s) (batched_ s) (parted_ s) (sent_ s) (received_ s)
    (stop_subscriber_ s) (flight_ s) (reading_ s) (posted_ s) (frames_ s) (log_ s).
Definition set_websocket (v : bool) (s : t) : t :=
  mk (stopped_ s) (lazy_ s) v (downgraded_ s) (detected_ s) (parser_ s) (queue_ s) (deferred_ s)
    (backlog_ s) (writing_ s) (batched_ s) (parted_ s) (sent_ s) (received_ s)
    (stop_subscriber_ s) (flight_ s) (reading_ s) (posted_ s) (frames_ s) (log_ s).
Definition set_downgraded (v : bool) (s : t) : t :=
  mk (stopped_ s) (lazy_ s) (websocket_ s) v (detected_ s) (parser_ s) (queue_ s) (deferred_ s)
    (backlog_ s) (writing_ s) (batched_ s) (parted_ s) (sent_ s) (received_ s)
    (stop_subscriber_ s) (flight_ s) (reading_ s) (posted_ s) (frames_ s) (log_ s).
Definition set_detected (v : bool) (s : t) : t :=
  mk (stopped_ s) (lazy_ s) (websocket_ s) (downgraded_ s) v (parser_ s) (queue_ s) (deferred_ s)
    (backlog_ s) (writing_ s) (batched_ s) (parted_ s) (sent_ s) (received_ s)
    (stop_subscriber_ s) (flight_ s) (reading_ s) (posted_ s) (frames_ s) (log_ s).
Definition set_parser (v : bool) (s : t) : t :=
  mk (stopped_ s) (lazy_ s) (websocket_ s) (downgraded_ s) (detected_ s) v (queue_ s)
    (deferred_ s) (backlog_ s) (writing_ s) (batched_ s) (parted_ s) (sent_ s) (received_ s)
    (stop_subscriber_ s) (flight_ s) (reading_ s) (posted_ s) (frames_ s) (log_ s).
Definition set_queue (v : list pending) (s : t) : t :=
  mk (stopped_ s) (lazy_ s) (websocket_ s) (downgraded_ s) (detected_ s) (parser_ s) v
    (deferred_ s) (backlog_ s) (writing_ s) (batched_ s) (parted_ s) (sent_ s) (received_ s)
    (stop_subscriber_ s) (flight_ s) (reading_ s) (posted_ s) (frames_ s) (log_ s).
Definition set_deferred (v : list pending) (s : t) : t :=
  mk (stopped_ s) (lazy_ s) (websocket_ s) (downgraded_ s) (detected_ s) (parser_ s) (queue_ s) v
    (backlog_ s) (writing_ s) (batched_ s) (parted_ s) (sent_ s) (received_ s)
    (stop_subscriber_ s) (flight_ s) (reading_ s) (posted_ s) (frames_ s) (log_ s).
Definition set_backlog (v : Z) (s : t) : t :=
  mk (stopped_ s) (lazy_ s) (websocket_ s) (downgraded_ s) (detected_ s) (parser_ s) (queue_ s)
    (deferred_ s) v (writing_ s) (batched_ s) (parted_ s) (sent_ s) (received_ s)
    (stop_subscriber_ s) (flight_ s) (reading_ s) (posted_ s) (frames_ s) (log_ s).
Definition set_writing (v : bool) (s : t) : t :=
  mk (stopped_ s) (lazy_ s) (websocket_ s) (downgraded_ s) (detected_ s) (parser_ s) (queue_ s)
    (deferred_ s) (backlog_ s) v (batched_ s) (parted_ s) (sent_ s) (received_ s)
    (stop_subscriber_ s) (flight_ s) (reading_ s) (posted_ s) (frames_ s) (log_ s).
Definition set_batched (v : bool) (s : t) : t :=
  mk (stopped_ s) (lazy_ s) (websocket_ s) (downgraded_ s) (detected_ s) (parser_ s) (queue_ s)
    (deferred_ s) (backlog_ s) (writing_ s) v (parted_ s) (sent_ s) (received_ s)
    (stop_subscriber_ s) (flight_ s) (reading_ s) (posted_ s) (frames_ s) (log_ s).
Definition set_parted (v : bool) (s : t) : t :=
  mk (stopped_ s) (lazy_ s) (websocket_ s) (downgraded_ s) (detected_ s) (parser_ s) (queue_ s)
    (deferred_ s) (backlog_ s) (writing_ s) (batched_ s) v (sent_ s) (received_ s)
    (stop_subscriber_ s) (flight_ s) (reading_ s) (posted_ s) (frames_ s) (log_ s).
Definition set_sent (v : Z) (s : t) : t :=
  mk (stopped_ s) (lazy_ s) (websocket_ s) (downgraded_ s) (detected_ s) (parser_ s) (queue_ s)
    (deferred_ s) (backlog_ s) (writing_ s) (batched_ s) (parted_ s) v (received_ s)
    (stop_subscriber_ s) (flight_ s) (reading_ s) (posted_ s) (frames_ s) (log_ s).
Definition set_received (v : Z) (s : t) : t :=
  mk (stopped_ s) (lazy_ s) (websocket_ s) (downgraded_ s) (detected_ s) (parser_ s) (queue_ s)
    (deferred_ s) (backlog_ s) (writing_ s) (batched_ s) (parted_ s) (sent_ s) v
    (stop_subscriber_ s) (flight_ s) (reading_ s) (posted_ s) (frames_ s) (log_ s).
Definition set_stop_subscriber (v : subscriber.t nat) (s : t) : t :=
  mk (stopped_ s) (lazy_ s) (websocket_ s) (downgraded_ s) (detected_ s) (parser_ s) (queue_ s)
    (deferred_ s) (backlog_ s) (writing_ s) (batched_ s) (parted_ s) (sent_ s) (received_ s) v
    (flight_ s) (reading_ s) (posted_ s) (frames_ s) (log_ s).
Definition set_flight (v : option flight) (s : t) : t :=
  mk (stopped_ s) (lazy_ s) (websocket_ s) (downgraded_ s) (detected_ s) (parser_ s) (queue_ s)
    (deferred_ s) (backlog_ s) (writing_ s) (batched_ s) (parted_ s) (sent_ s) (received_ s)
    (stop_subscriber_ s) v (reading_ s) (posted_ s) (frames_ s) (log_ s).
Definition set_reading (v : list read) (s : t) : t :=
  mk (stopped_ s) (lazy_ s) (websocket_ s) (downgraded_ s) (detected_ s) (parser_ s) (queue_ s)
    (deferred_ s) (backlog_ s) (writing_ s) (batched_ s) (parted_ s) (sent_ s) (received_ s)
    (stop_subscriber_ s) (flight_ s) v (posted_ s) (frames_ s) (log_ s).
Definition set_posted (v : list code) (s : t) : t :=
  mk (stopped_ s) (lazy_ s) (websocket_ s) (downgraded_ s) (detected_ s) (parser_ s) (queue_ s)
    (deferred_ s) (backlog_ s) (writing_ s) (batched_ s) (parted_ s) (sent_ s) (received_ s)
    (stop_subscriber_ s) (flight_ s) (reading_ s) v (frames_ s) (log_ s).
Definition set_frames (v : list frame) (s : t) : t :=
  mk (stopped_ s) (lazy_ s) (websocket_ s) (downgraded_ s) (detected_ s) (parser_ s) (queue_ s)
    (deferred_ s) (backlog_ s) (writing_ s) (batched_ s) (parted_ s) (sent_ s) (received_ s)
    (stop_subscriber_ s) (flight_ s) (reading_ s) (posted_ s) v (log_ s).
Definition set_log (v : list effect) (s : t) : t :=
  mk (stopped_ s) (lazy_ s) (websocket_ s) (downgraded_ s) (detected_ s) (parser_ s) (queue_ s)
    (deferred_ s) (backlog_ s) (writing_ s) (batched_ s) (parted_ s) (sent_ s) (received_ s)
    (stop_subscriber_ s) (flight_ s) (reading_ s) (posted_ s) (frames_ s) v.

(** The constants of a proxy, and whether its socket is of zeromq. *)
Record config := mk_config { rate_limit_ : Z; maximum_backlog_ : Z; zeromq_ : bool }.

Section proxy.
Context (config_ : config).

Definition init : t :=
  mk false false false false false false [] [] 0 false false false 0 0 subscriber.init None [] [] [] [].

Definition record (e : effect) (s : t) : t := set_log (log_ s ++ [e]) s.

Definition is_nil {A} (l : list A) : bool := match l with [] => true | _ => false end.

(** ** Sizes *)

(** The estimate is cached into the message. *)
Definition to_request_estimate (m : request) : Z * request :=
  let hint := if request_hint m =? 0 then request_size m else request_hint m in
  (hint, mk_request (request_id m) (request_size m) hint).

Definition to_response_estimate (m : response) : Z * response :=
  let hint := if response_hint m =? 0 then response_size m else response_hint m in
  (hint, mk_response (response_id m) (response_size m) hint (batch m) (changed m)).

Definition to_cost (b : body) : Z * body :=
  match b with
  | json_body size_hint => (size_hint, b)
  | request_body m => let '(size, m) := to_request_estimate m in (size, request_body m)
  | response_body m => let '(size, m) := to_response_estimate m in (size, response_body m)
  | string_body size | data_body size | span_body size | buffer_body size | peer_body size => (size, b)
  | empty_body | other_body => (0, b)
  end.

(** Stamp a response part with batch state. *)
Definition stamp (batch changed : bool) (m : response) : response :=
  mk_response (response_id m) (response_size m) (response_hint m) batch changed.

(** ** Send cycle *)

Definition entry_size : Z := 256.

(** The operation that a writer starts on the socket, and its completion. *)
Definition issue (w : writer) (s : t) : operation * completion :=
  match w with
  | do_ws_write data binary => (ws_write data binary, handle_write_completion)
  | do_tcp_write data => (tcp_write data, handle_write_completion)
  | do_peer_write message => (peer_write message, handle_write_completion)
  | do_response_write part => (rpc_write part, handle_write_completion)
  | do_notification_write notification => (rpc_notify notification, handle_write_completion)
  | do_http_write content =>
    match content with
    | response_body part =>
      if negb (websocket_ s) && batch part then (rpc_write_chunk part, handle_write_completion) else
      if negb (websocket_ s) && changed part
      then (http_write_header, handle_http_header_write_completion part)
      else (http_write content, handle_write_completion)
    | _ => (http_write content, handle_write_completion)
    end
  end.

Definition start_write (o : operation) (k : completion) (s : t) : t :=
  set_flight (Some (Writing k)) (record (Operation o) s).

(** Invokes the oldest writer on the queue. *)
Definition write (s : t) : t :=
  match queue_ s with
  | [] => s
  | e :: _ =>
    let s := record (Start e) (set_writing true s) in
    let '(o, k) := issue (call e) s in start_write o k s
  end.

Definition push_back (e : pending) (s : t) : t := set_queue (queue_ s ++ [e]) (record (Push e) s).

(** What remains of [do_write] when the entry is charged. *)
Definition enqueue (e : pending) (s : t) : t :=
  let started := negb (is_nil (queue_ s)) in
  let s := push_back e s in
  if negb started then write s else s.

(** A solicited write is paced by the request that provoked it. *)
Definition do_solicited_write (e : pending) (s : t) : t :=
  if stopped_ s then s else enqueue (mk_pending 0 (call e) (complete e)) s.

(** Invoke the handler of a client, which returns to [k]. *)
Definition invoke (id : nat) (ec : code) (bytes : Z) (k : frame) (s : t) : t :=
  set_frames (k :: frames_ s) (record (Invoke id ec bytes) s).

(** ** Reading json-rpc *)

Definition start_read (o : reader) (id : nat) (s : t) : t :=
  set_reading (reading_ s ++ [mk_read o id]) (record (Read o) s).

(** The read carries current batch state. *)
Definition do_rpc_request_read (id : nat) (s : t) : t := start_read (rpc_read (batched_ s)) id s.

Definition do_http_body_read (id : nat) (s : t) : t := start_read http_read_some id s.

Definition do_http_request_read (id : nat) (s : t) : t :=
  start_read http_read_header id (set_parser true s).

Definition do_downgrade_read (id : nat) (s : t) : t := do_rpc_request_read id s.

(** ** Stop *)

(** A stop for a failed or canceled transport has no peer to close with. *)
Definition lazy (ec : code) : bool :=
  negb (bool_decide (ec = service_stopped) || bool_decide (ec = channel_stopped) ||
    bool_decide (ec = operation_canceled) || bool_decide (ec = operation_failed) ||
    bool_decide (ec = operation_timeout) || bool_decide (ec = peer_disconnect) ||
    bool_decide (ec = bad_stream) || bool_decide (ec = end_of_stream) ||
    bool_decide (ec = partial_message) || bool_decide (ec = short_read) ||
    bool_decide (ec = tls_stream_truncated)).

(** [socket::stop] and [socket::lazy_stop]: the flags, and the stop that they
    post or dispatch. *)
Definition socket_stop (s : t) : t :=
  if stopped_ s && negb (lazy_ s) then s else
  record Socket_stop (set_lazy false (set_stopped true s)).

Definition socket_lazy_stop (s : t) : t :=
  if stopped_ s then s else record Lazy_stop (set_lazy true (set_stopped true s)).

Definition finish_stop (ec : code) (s : t) : t :=
  let s := if lazy ec then socket_lazy_stop s else socket_stop s in
  set_posted (posted_ s ++ [ec]) s.

(** ** Completion of a write *)

(** What follows the handler in [handle_write]. *)
Definition finish_write (s : t) : t :=
  match queue_ s with
  | [] => s
  | e :: rest =>
    let s := set_queue rest (set_backlog (floored_subtract (backlog_ s) (cost e)) s) in
    if negb (stopped_ s) then write s else s
  end.

Definition resume (k : frame) (s : t) : t :=
  match k with Nothing => s | Finish_write => finish_write s end.

(** The loop that drains notifications deferred while the batch was open. *)
Fixpoint drain (l : list pending) (s : t) : t :=
  match l with [] => s | e :: l => drain l (push_back e s) end.

Definition drain_deferred (id : nat) (s : t) : t :=
  let started := negb (is_nil (queue_ s)) in
  let s := set_deferred [] (drain (deferred_ s) s) in
  let s := if negb started && negb (is_nil (queue_ s)) then write s else s in
  do_rpc_request_read id s.

(** The handler of an entry, which returns to [k]. *)
Definition invoke_handler (h : handler) (ec : code) (bytes : Z) (k : frame) (s : t) : t :=
  match h with
  | client id => invoke id ec bytes k s
  | handle_stop_write reason => resume k (finish_stop reason s)
  | handle_close_write id =>
    if failed ec then invoke id ec bytes k s else resume k (drain_deferred id s)
  | handle_http_close_write id =>
    if negb (parser_ s) then invoke id channel_stopped bytes k s else
    if failed ec then invoke id ec bytes k (set_parser false s)
    else resume k (do_http_body_read id s)
  | ignore => resume k s
  end.

(** The handler precedes the pop. *)
Definition handle_write (ec : code) (bytes : Z) (s : t) : t :=
  match queue_ s with
  | [] => s
  | e :: _ => invoke_handler (complete e) ec bytes Finish_write (record (Complete e) s)
  end.

Definition handle_http_header_write (ec : code) (bytes : Z) (part : response) (s : t) : t :=
  if failed ec then handle_write ec bytes s
  else start_write (rpc_write_chunk part) handle_write_completion s.

Definition handle_completion (k : completion) (ec : code) (bytes : Z) (s : t) : t :=
  match k with
  | handle_write_completion => handle_write ec bytes s
  | handle_http_header_write_completion part => handle_http_header_write ec bytes part s
  end.

(** ** Throttle *)

(** Nanoseconds allocated to the transmission of bytes at the given rate. *)
Definition to_allocation (bytes rate : Z) : Z :=
  let span := (bytes * 1000000000) `min` (2 ^ 64 - 1) / rate in
  span `min` (2 ^ 63 - 1).

Definition unconsumed (bytes consumed : Z) (s : t) : Z :=
  if (rate_limit_ config_ =? 0) || stopped_ s then 0 else
  let allocated := to_allocation bytes (rate_limit_ config_) in
  if consumed <? allocated then allocated - consumed else 0.

(** The completion of a socket write that took [consumed] nanoseconds. *)
Definition handle_metered (k : completion) (ec : code) (bytes consumed : Z) (s : t) : t :=
  let s := set_sent (ceilinged_add (sent_ s) bytes) s in
  let s := set_flight None (set_writing false s) in
  let delay := unconsumed bytes consumed s in
  if delay =? 0 then handle_completion k ec bytes s
  else set_flight (Some (Charging k ec bytes)) (record (Throttle_start delay) s).

(** The throttle fires, or is canceled. *)
Definition handle_charge (k : completion) (ec : code) (bytes : Z) (s : t) : t :=
  handle_completion k ec bytes (set_flight None s).

(** ** Closing a batch *)

Definition close_part : response := mk_response 0 0 0 true true.

(** The close part is queued per framing (http chunk or stream). *)
Definition queue_close (complete : handler) (s : t) : t :=
  let s := set_parted false (set_batched false s) in
  let w := if parser_ s then do_http_write (response_body close_part) else do_response_write close_part in
  do_solicited_write (mk_pending 0 w complete) s.

(** Close the open batch response, then stop. *)
Definition do_stop (ec : code) (s : t) : t :=
  let s := if negb (rate_limit_ config_ =? 0) then record Throttle_stop s else s in
  queue_close (handle_stop_write ec) s.

(** A stop on the strand or, from another thread, not. *)
Definition stop (stranded : bool) (ec : code) (s : t) : t :=
  if stopped_ s then socket_stop s else
  if stranded && batched_ s && parted_ s then do_stop ec s else finish_stop ec s.

(** The stop that [finish_stop] posts. *)
Definition stopping (ec : code) (s : t) : t :=
  let s := if negb (rate_limit_ config_ =? 0) then record Throttle_stop s else s in
  let s := set_parser false s in
  let s := set_deferred [] (set_queue [] s) in
  let '(subscriber, calls) := subscriber.stop ec tt (stop_subscriber_ s) in
  fold_left (fun s c => record (Stop_notify c.1 c.2.1) s) calls (set_stop_subscriber subscriber s).

(** ** Write *)

(** Charges the entry against the backlog, false if refused. *)
Definition charge (e : pending) (s : t) : pending * bool * t :=
  let e := mk_pending (ceilinged_add (cost e) entry_size) (call e) (complete e) in
  let idle := is_nil (queue_ s) && is_nil (deferred_ s) in
  if negb idle && (ceilinged_add (backlog_ s) (cost e) >? maximum_backlog_ config_) then
    if zeromq_ config_ then (e, false, invoke_handler (complete e) message_dropped 0 Nothing s)
    else (e, false, stop true channel_backlog s)
  else (e, true, set_backlog (ceilinged_add (backlog_ s) (cost e)) s).

Definition do_write (e : pending) (notification : bool) (s : t) : t :=
  if stopped_ s then s else
  if notification then
    let '(e, charged, s) := charge e s in
    if negb charged then s else enqueue e s
  else enqueue (mk_pending 0 (call e) (complete e)) s.

(** Notifications are deferred while a batch is open. *)
Definition do_defer_write (e : pending) (s : t) : t :=
  if batched_ s then
    let '(e, charged, s) := charge e s in
    if charged then set_deferred (deferred_ s ++ [e]) s else s
  else do_write e true s.

(** Stamp the response part with current batch state. *)
Definition do_response_queue (m : response) (h : handler) (s : t) : t :=
  let '(m, s) := if batched_ s
    then (stamp (parted_ s) (negb (parted_ s)) m, set_parted true s) else (m, s) in
  let '(size, m) := to_response_estimate m in
  do_write (mk_pending size (do_response_write m) h) false s.

Definition write_ws (data : payload) (binary : bool) (h : handler) (s : t) : t :=
  do_write (mk_pending (payload_size data) (do_ws_write data binary) h) true s.

Definition write_tcp (data : payload) (h : handler) (s : t) : t :=
  do_write (mk_pending (payload_size data) (do_tcp_write data) h) true s.

Definition write_peer (message : payload) (h : handler) (bounded : bool) (s : t) : t :=
  do_write (mk_pending (payload_size message) (do_peer_write message) h) bounded s.

Definition write_response (m : response) (h : handler) (s : t) : t := do_response_queue m h s.

Definition notify_request (m : request) (h : handler) (s : t) : t :=
  let '(size, m) := to_request_estimate m in
  do_defer_write (mk_pending size (do_notification_write m) h) s.

(** Stamp an http batch part with current batch state (ws does not batch). *)
Definition do_http_queue (content : body) (h : handler) (bounded : bool) (s : t) : t :=
  if batched_ s && negb (websocket_ s) then
    match content with
    | response_body m =>
      let '(size, content) := to_cost (response_body (stamp (parted_ s) (negb (parted_ s)) m)) in
      do_write (mk_pending size (do_http_write content) h) bounded (set_parted true s)
    | _ => invoke_handler h bad_stream 0 Nothing s
    end
  else
    let '(size, content) := to_cost content in
    do_write (mk_pending size (do_http_write content) h) bounded s.

(** A downgrade is the json-rpc transport, so it writes as one. *)
Definition write_http (content : body) (h : handler) (bounded : bool) (s : t) : t :=
  if downgraded_ s then
    match content with
    | response_body m => write_response m h s
    | request_body m => notify_request m h s
    | _ => invoke_handler h bad_stream 0 Nothing s
    end
  else do_http_queue content h bounded s.

(** ** Read *)

(** What a read gives: batch state, and the method of the message. *)
Record value := mk_value { value_batch : bool; value_changed : bool; method : string }.

Definition batch_open (v : value) : bool := value_changed v && negb (value_batch v).
Definition batch_close (v : value) : bool := value_changed v && value_batch v.

Definition count_received (bytes : Z) (s : t) : t :=
  set_received (ceilinged_add (received_ s) bytes) s.

(** A zeromq ping is answered through the write queue, and a pong is dropped. *)
Definition absorb_keepalive (v : value) (s : t) : bool * t :=
  let ping := bool_decide (method v = "ping"%string) in
  if negb ping && negb (bool_decide (method v = "pong"%string)) then (false, s) else
  (true, if ping
    then do_write (mk_pending 0 (do_notification_write (mk_request 0 0 0)) ignore) true s else s).

Definition handle_rpc_read (ec : code) (bytes : Z) (v : value) (id : nat) (s : t) : t :=
  let s := count_received bytes s in
  if failed ec then invoke id ec bytes Nothing s else
  if zeromq_ config_ then
    let '(absorbed, s) := absorb_keepalive v s in
    if absorbed then do_rpc_request_read id s else invoke id ec bytes Nothing s
  else
  let s := if batch_open v then set_batched true s else s in
  if batch_close v then queue_close (handle_close_write id) s
  else invoke id ec bytes Nothing s.

Definition handle_detect (ec : code) (bytes : Z) (id : nat) (s : t) : t :=
  if failed ec then invoke id ec bytes Nothing s else
  if downgraded_ s then do_downgrade_read id s else do_http_request_read id s.

(** The json-rpc body of the caller's request implies detection. *)
Definition read_http (is_rpc : bool) (id : nat) (s : t) : t :=
  if websocket_ s then start_read http_read id s else
  if downgraded_ s then do_downgrade_read id s else
  if negb (detected_ s) && is_rpc then start_read detect id s else
  if parser_ s then do_http_body_read id s else do_http_request_read id s.

Definition handle_http_header (ec : code) (bytes : Z) (id : nat) (s : t) : t :=
  let s := count_received bytes s in
  if negb (parser_ s) then invoke id channel_stopped bytes Nothing s else
  if failed ec then invoke id ec bytes Nothing (set_parser false s) else
  start_read http_read_body id s.

Definition handle_http_element (bytes : Z) (v : value) (id : nat) (s : t) : t :=
  let s := if batch_open v then set_batched true s else s in
  if batch_close v then queue_close (handle_http_close_write id) s
  else invoke id success bytes Nothing s.

(** [v] is the json-rpc request of the parsed message, if it holds one. *)
Definition handle_http_body (ec : code) (bytes : Z) (v : option value) (is_done : bool) (id : nat)
    (s : t) : t :=
  let s := count_received bytes s in
  if negb (parser_ s) then invoke id channel_stopped bytes Nothing s else
  match v with
  | Some v' =>
    if bool_decide (ec = need_buffer) then handle_http_element bytes v' id s else
    if failed ec then invoke id ec bytes Nothing (set_parser false s) else
    if negb is_done then do_http_body_read id s else
    if batch_close v' then do_http_request_read id (set_parser false s)
    else invoke id success bytes Nothing (set_parser false s)
  | None =>
    if failed ec then invoke id ec bytes Nothing (set_parser false s) else
    if negb is_done then do_http_body_read id s
    else invoke id success bytes Nothing (set_parser false s)
  end.

(** [counted] reads. *)
Definition handle_counted (ec : code) (bytes : Z) (id : nat) (s : t) : t :=
  invoke id ec bytes Nothing (count_received bytes s).

(** What a socket read gives, with the transport that a detection finds. *)
Record result := mk_result {
  result_code : code; result_bytes : Z; result_value : option value; result_done : bool;
  result_downgraded : bool }.

Definition no_value : value := mk_value false false "".

Definition handle_read (r : read) (x : result) (s : t) : t :=
  let id := read_handler r in
  match read_operation r with
  | ws_read | tcp_read | peer_read | http_read => handle_counted (result_code x) (result_bytes x) id s
  | rpc_read _ =>
    handle_rpc_read (result_code x) (result_bytes x) (default no_value (result_value x)) id s
  | detect =>
    handle_detect (result_code x) (result_bytes x) id
      (set_downgraded (result_downgraded x) (set_detected true s))
  | http_read_header => handle_http_header (result_code x) (result_bytes x) id s
  | http_read_body | http_read_some =>
    handle_http_body (result_code x) (result_bytes x) (result_value x) (result_done x) id s
  end.

(** ** Subscription *)

Definition subscribe_stop (id : nat) (s : t) : t :=
  if stopped_ s then record (Stop_notify id channel_stopped) (record (Subscribed id channel_stopped) s) else
  let '(subscriber, calls, _) := subscriber.subscribe tt id (stop_subscriber_ s) in
  record (Subscribed id success)
    (fold_left (fun s c => record (Stop_notify c.1 c.2.1) s) calls (set_stop_subscriber subscriber s)).

(** ** Moves *)

Inductive move :=
  | Write_ws (data : payload) (binary : bool) (id : nat)
  | Write_tcp (data : payload) (id : nat)
  | Write_peer (message : payload) (id : nat) (bounded : bool)
  | Write_response (m : response) (id : nat)
  | Notify_request (m : request) (id : nat)
  | Write_http (content : body) (id : nat) (bounded : bool)
  | Read_ws (id : nat) | Read_tcp (id : nat) | Read_peer (id : nat) | Read_rpc (id : nat)
  | Read_http (is_rpc : bool) (id : nat)
  | Accept_websocket
  | Subscribe_stop (id : nat)
  | Stop (stranded : bool) (ec : code)
  | Return
  | Written (ec : code) (bytes consumed : Z)
  | Throttled
  | Read_done (i : nat) (x : result)
  | Stopping.

(** A move, if it is enabled.  Posted work waits until the strand is free. *)
Definition step (m : move) (s : t) : option t :=
  match m with
  | Write_ws data binary id => Some (write_ws data binary (client id) s)
  | Write_tcp data id => Some (write_tcp data (client id) s)
  | Write_peer message id bounded => Some (write_peer message (client id) bounded s)
  | Write_response m id => Some (write_response m (client id) s)
  | Notify_request m id => Some (notify_request m (client id) s)
  | Write_http content id bounded => Some (write_http content (client id) bounded s)
  | Read_ws id => Some (start_read ws_read id s)
  | Read_tcp id => Some (start_read tcp_read id s)
  | Read_peer id => Some (start_read peer_read id s)
  | Read_rpc id => Some (do_rpc_request_read id s)
  | Read_http is_rpc id => Some (read_http is_rpc id s)
  | Accept_websocket => Some (set_websocket true s)
  | Subscribe_stop id => Some (subscribe_stop id s)
  | Stop stranded ec => Some (stop stranded ec s)
  | Return =>
    match frames_ s with [] => None | k :: rest => Some (resume k (set_frames rest s)) end
  | Written ec bytes consumed =>
    match flight_ s with
    | Some (Writing k) => Some (handle_metered k ec bytes consumed s)
    | _ => None
    end
  | Throttled =>
    match flight_ s, frames_ s with
    | Some (Charging k ec bytes), [] => Some (handle_charge k ec bytes s)
    | _, _ => None
    end
  | Read_done i x =>
    match reading_ s !! i with
    | Some r => Some (handle_read r x (set_reading (delete i (reading_ s)) s))
    | None => None
    end
  | Stopping =>
    match posted_ s, frames_ s with
    | ec :: rest, [] => Some (stopping ec (set_posted rest s))
    | _, _ => None
    end
  end.

Fixpoint run (l : list move) (s : t) : option t :=
  match l with
  | [] => Some s
  | m :: l => match step m s with Some s => run l s | None => None end
  end.

End proxy.
End proxy.

(** ** A channel

    A json-rpc client sends a batch of two requests while a notification is
    due, over a throttled channel. *)

Module proxy_example.
Import proxy.

Definition config : config := mk_config 1000000 10000 false.

Definition gives (batch changed : bool) : result :=
  mk_result error.success 64 (Some (mk_value batch changed "getheader")) false false.

Definition part (id : Z) : response := mk_response id 100 0 false false.

(** The write in flight completes in time, and its handler returns. *)
Definition completes : list move := [Written error.success 100 1000000; Return].

Definition moves : list move :=
  [Subscribe_stop 9; Read_rpc 0; Read_done 0 (gives false true); Write_response (part 1) 1;
   Notify_request (mk_request 7 50 0) 2; Return] ++ completes ++
  [Read_rpc 0; Read_done 0 (gives true false); Write_response (part 2) 3; Return;
   Written error.success 100 10; Throttled; Return;
   Read_rpc 0; Read_done 0 (gives true true); Written error.success 2 1000000] ++ completes.

(** The state that they lead to, and that in which a response is in flight,
    another is queued, and a notification is deferred. *)
Definition after (l : list move) : t := default init (run config l init).

Definition busy_moves : list move :=
  [Read_rpc 0; Read_done 0 (gives false true); Write_response (part 1) 1;
   Write_response (part 2) 3; Notify_request (mk_request 7 50 0) 2; Return].
End proxy_example.
