(* ===== verification/ProxyQueue.v ===== *)
(** * ProxyQueue: the write queue of a proxy

    What the write queue of Proxy promises, over every interleaving of client
    operations, handlers that reenter the proxy, completions, the throttle and
    stops: writes are made one at a time in the order they were accepted, each
    is completed once, none is forgotten while the channel runs, and what is
    queued unasked is bounded by the configured backlog. *)

From S2P Require Import Prelude.
From S2P Require Import Errors.
From S2P Require Import Async.
From S2P Require Import Proxy.

Module proxy_queue.
Import proxy.

(** ** The entries that were queued, started and completed *)

Definition pushed (l : list effect) : list pending :=
  omap (fun e => match e with Push p => Some p | _ => None end) l.
Definition started (l : list effect) : list pending :=
  omap (fun e => match e with Start p => Some p | _ => None end) l.
Definition completed (l : list effect) : list pending :=
  omap (fun e => match e with Complete p => Some p | _ => None end) l.

(** What the discipline of the queue depends on. *)
Record view := mk_view {
  v_posted : bool;
  v_stopped : bool;
  v_queue : list pending;
  v_flight : bool;
  v_frames : list frame;
  v_pushed : list pending;
  v_started : list pending;
  v_completed : list pending
}.

Definition in_flight (s : t) : bool := match flight_ s with Some _ => true | None => false end.

Definition view_of (s : t) : view :=
  mk_view (negb (is_nil (posted_ s))) (stopped_ s) (queue_ s) (in_flight s) (frames_ s)
    (pushed (log_ s)) (started (log_ s)) (completed (log_ s)).

(** The entry that the running operation has in service: none, one to be
    completed, or one whose handler was invoked. *)
Inductive service := Free | Serving | Served.

Definition held (v : service) : nat := match v with Free => 0 | _ => 1 end.
Definition uncompleted (v : service) : nat := match v with Serving => 1 | _ => 0 end.

Fixpoint finishing (l : list frame) : nat :=
  match l with
  | [] => 0
  | Finish_write :: l => S (finishing l)
  | Nothing :: l => finishing l
  end.

Definition flying (w : view) : nat := if v_flight w then 1 else 0.

(** How many services there are of the front of the queue. *)
Definition busy (v : service) (w : view) : nat := finishing (v_frames w) + flying w + held v.

(** One write is served at a time, and one is while there is any, unless the
    channel stopped; writes are started, and completed, in the order that they
    were pushed.  [lost] are those that a stop released. *)
Record served (v : service) (w : view) : Prop := mk_served {
  served_posted : v_posted w = true -> v_stopped w = true;
  served_once : (busy v w <= 1)%nat;
  served_frame : (0 < finishing (v_frames w))%nat -> v_queue w <> [];
  served_held : v = Served -> v_queue w <> [];
  served_always : v_stopped w = false -> (v_queue w = [] <-> busy v w = 0%nat);
  served_order : exists flown lost,
    v_pushed w = v_started w ++ drop (busy v w) (v_queue w) ++ lost /\
    v_started w = v_completed w ++ flown /\ (length flown <= 1)%nat /\
    (lost = [] /\ flown = take (flying w + uncompleted v) (v_queue w) \/
     v_stopped w = true /\ v_queue w = [])
}.

#[local] Abbreviation inv v s := (served v (view_of s)).

Lemma view_record e s : match e with Push _ | Start _ | Complete _ => False | _ => True end ->
  view_of (record e s) = view_of s.
Proof.
  unfold record, view_of, pushed, started, completed. simpl. rewrite !omap_app.
  destruct e; try done; intros _; simpl; by rewrite !app_nil_r.
Qed.

Lemma view_push e s : view_of (push_back e s) =
  mk_view (negb (is_nil (posted_ s))) (stopped_ s) (queue_ s ++ [e]) (in_flight s) (frames_ s)
    (pushed (log_ s) ++ [e]) (started (log_ s)) (completed (log_ s)).
Proof.
  unfold push_back, view_of, record, pushed, started, completed. simpl. rewrite !omap_app. simpl.
  by rewrite !app_nil_r.
Qed.

Lemma view_write s : view_of (write s) =
  match queue_ s with
  | [] => view_of s
  | e :: _ => mk_view (negb (is_nil (posted_ s))) (stopped_ s) (queue_ s) true (frames_ s)
      (pushed (log_ s)) (started (log_ s) ++ [e]) (completed (log_ s))
  end.
Proof.
  unfold write. destruct (queue_ s) as [| e l] eqn:Hq; [done |]. cbv zeta.
  destruct (issue _ _) as [o k].
  unfold view_of, start_write, record, in_flight, pushed, started, completed. simpl.
  rewrite !omap_app. simpl. by rewrite !app_nil_r, Hq.
Qed.

Lemma view_complete e s : view_of (record (Complete e) s) =
  mk_view (negb (is_nil (posted_ s))) (stopped_ s) (queue_ s) (in_flight s) (frames_ s)
    (pushed (log_ s)) (started (log_ s)) (completed (log_ s) ++ [e]).
Proof.
  unfold view_of, record, pushed, started, completed. simpl. rewrite !omap_app. simpl.
  by rewrite !app_nil_r.
Qed.

(** ** Steps of the queue *)

Ltac serve := intros [H0' H1 H2 H3 H4 (f & lost & Hp & Hs & Hf & Ho)];
  unfold busy, flying in *; simpl in *.

Section steps.
Implicit Types (v : service) (q P S C : list pending) (po fl st : bool) (fr : list frame).

Lemma served_push v po st q fl fr P S C e : q <> [] ->
  served v (mk_view po st q fl fr P S C) -> served v (mk_view po st (q ++ [e]) fl fr (P ++ [e]) S C).
Proof.
  intros Hq. serve. destruct q as [| e0 q]; [done |]. destruct Ho as [[-> Hfe] | [_ ?]]; [| done].
  split; unfold busy, flying; simpl; try done.
  - intros Hst. split; [done |]. intros Hb. by apply H4 in Hb.
  - exists f, []. rewrite !app_nil_r in *. split_and!; [| done | done | left; split; [done |]].
    + rewrite Hp, <- app_assoc. f_equal. change (e0 :: q ++ [e]) with ((e0 :: q) ++ [e]).
      rewrite drop_app_le by (simpl; lia). done.
    + rewrite Hfe. change (e0 :: q ++ [e]) with ((e0 :: q) ++ [e]). rewrite take_app_le; [done |].
      simpl. destruct v, fl; simpl in *; lia.
Qed.

Lemma served_start v po fl fr P S C e :
  served v (mk_view po false [] fl fr P S C) -> served v (mk_view po false [e] true fr (P ++ [e]) (S ++ [e]) C).
Proof.
  serve. destruct H4 as [H4 _]; [done |]. specialize (H4 eq_refl).
  destruct Ho as [[-> Hfe] | [? _]]; [| done].
  assert (v = Free) as -> by (destruct v; simpl in *; [done | lia | lia]).
  assert (fl = false) as -> by (destruct fl; [lia | done]). simpl in *. subst f.
  split; unfold busy, flying; simpl; try done; try lia.
  - intros _. split; [done | lia].
  - exists [e], []. rewrite drop_nil, !app_nil_r in Hp. rewrite app_nil_r in Hs.
    replace (finishing fr + 1 + 0)%nat with 1%nat by lia. simpl. rewrite app_nil_r.
    split_and!; [congruence | congruence | lia | by left].
Qed.

(** A completion takes the flight into service. *)
Lemma served_land po st q fr P S C :
  served Free (mk_view po st q true fr P S C) -> served Serving (mk_view po st q false fr P S C).
Proof.
  serve. assert (finishing fr = 0%nat) as H0 by lia. rewrite H0 in *. simpl in *.
  split; unfold busy, flying; simpl; rewrite ?H0; simpl; try done; try lia. by exists f, lost.
Qed.

Lemma served_complete po st e q fl fr P S C :
  served Serving (mk_view po st (e :: q) fl fr P S C) -> served Served (mk_view po st (e :: q) fl fr P S (C ++ [e])).
Proof.
  serve. assert (finishing fr = 0%nat) as H0 by lia. rewrite H0 in *.
  assert (fl = false) as -> by (destruct fl; [lia | done]). simpl in *.
  destruct Ho as [[-> ->] | [_ ?]]; [| done]. simpl in *. rewrite take_0 in *.
  split; unfold busy, flying; simpl; rewrite ?H0; simpl; try done.
  exists [], []. rewrite !app_nil_r. simpl. rewrite app_nil_r in Hp. split_and!; [done | by simplify_eq | lia | by left].
Qed.

(** The completion of a write that a stop released finds no entry. *)
Lemma served_lost po st fl fr P S C :
  served Serving (mk_view po st [] fl fr P S C) -> served Free (mk_view po st [] fl fr P S C).
Proof.
  serve. assert (finishing fr = 0%nat) as H0 by lia. rewrite H0 in *.
  assert (fl = false) as -> by (destruct fl; [lia | done]). simpl in *.
  assert (st = true) as -> by (destruct st; [done | by destruct (H4 eq_refl) as [H4' _]; specialize (H4' eq_refl)]).
  split; unfold busy, flying; simpl; rewrite ?H0; simpl; try done; try lia.
  exists f, lost. split_and!; [done | done | done | by right].
Qed.

Lemma served_wait po st q fl fr P S C :
  served Served (mk_view po st q fl fr P S C) -> served Free (mk_view po st q fl (Finish_write :: fr) P S C).
Proof.
  serve. split; unfold busy, flying; simpl; try (intros; by apply H3); try done; try lia.
  - intros Hst. rewrite (H4 Hst). lia.
  - exists f, lost. split_and!; try done. rewrite Hp. do 3 f_equal. lia.
Qed.

Lemma served_return po st q fl fr P S C :
  served Free (mk_view po st q fl (Finish_write :: fr) P S C) -> served Served (mk_view po st q fl fr P S C).
Proof.
  serve. assert (q <> []) as Hq by (apply H2; lia).
  split; unfold busy, flying; simpl; try done; try lia.
  - intros Hst. rewrite (H4 Hst). lia.
  - exists f, lost. split_and!; try done. rewrite Hp. do 3 f_equal. lia.
Qed.

Lemma served_nothing v po st q fl fr P S C :
  served v (mk_view po st q fl (Nothing :: fr) P S C) <-> served v (mk_view po st q fl fr P S C).
Proof. split; intros [H0 H1 H2 H3 H4 H5]; by split. Qed.

(** The pop: the next write starts unless the channel stopped. *)
Lemma served_pop po st e q fl fr P S C :
  served Served (mk_view po st (e :: q) fl fr P S C) ->
  match q with
  | e' :: _ =>
    if st then served Free (mk_view po st q fl fr P S C)
    else served Free (mk_view po st q true fr P (S ++ [e']) C)
  | [] => served Free (mk_view po st q fl fr P S C)
  end.
Proof.
  serve. assert (finishing fr = 0%nat) as H0 by lia. rewrite H0 in *.
  assert (fl = false) as -> by (destruct fl; [lia | done]). simpl in *.
  destruct Ho as [[-> ->] | [_ ?]]; [| done]. rewrite !app_nil_r in *. simpl in *. subst S.
  destruct q as [| e' q].
  { split; unfold busy, flying; simpl; rewrite ?H0; simpl; try done; try lia.
    exists [], []. simpl in *. rewrite ?app_nil_r in *. split_and!; [congruence | done | lia | by left]. }
  destruct st; split; unfold busy, flying; simpl; rewrite ?H0; simpl; try done; try lia.
  - exists [], []. rewrite !app_nil_r. split_and!; [done | done | simpl; lia | by left].
  - exists [e'], []. rewrite !app_nil_r. split_and!; [| done | simpl; lia | by left].
    rewrite Hp, <- app_assoc. done.
Qed.

Lemma served_stop v po st q fl fr P S C :
  served v (mk_view po st q fl fr P S C) -> served v (mk_view po true q fl fr P S C).
Proof.
  serve. split; unfold busy, flying; simpl; try done. exists f, lost. split_and!; try done.
  destruct Ho as [Ho | [_ Ho]]; [by left | by right].
Qed.

Lemma served_post v po q fl fr P S C :
  served v (mk_view po true q fl fr P S C) -> served v (mk_view true true q fl fr P S C).
Proof. serve. split; unfold busy, flying; simpl; try done. by exists f, lost. Qed.

(** A stop releases the queue. *)
Lemma served_clear po q fl P S C :
  served Free (mk_view po true q fl [] P S C) -> served Free (mk_view po true [] fl [] P S C).
Proof.
  serve. split; unfold busy, flying; simpl; try done; try lia.
  exists f, (drop (if fl then 1 else 0) q ++ lost). rewrite drop_nil.
  split_and!; [by rewrite Nat.add_0_r in Hp | done | done | by right].
Qed.
End steps.

(** ** Operations *)

Lemma view_queue s : view_of s = mk_view (negb (is_nil (posted_ s))) (stopped_ s) (queue_ s) (in_flight s) (frames_ s)
  (pushed (log_ s)) (started (log_ s)) (completed (log_ s)).
Proof. done. Qed.

Lemma enqueue_inv v e s : stopped_ s = false -> inv v s -> inv v (enqueue e s).
Proof.
  intros Hst Hi. unfold enqueue. destruct (queue_ s) as [| e0 l] eqn:Hq; simpl.
  - rewrite view_write. change (queue_ (push_back e s)) with (queue_ s ++ [e]). rewrite Hq. simpl.
    pose proof (view_push e s) as Hv. rewrite view_queue in Hv. injection Hv as Hvp Hvs Hvc.
    rewrite Hvp, Hvs, Hvc, Hst. change (frames_ (push_back e s)) with (frames_ s).
    rewrite view_queue, Hq, Hst in Hi. by eapply served_start.
  - rewrite view_push. apply served_push; [by rewrite Hq | exact Hi].
Qed.

Lemma drain_inv v l s : queue_ s <> [] -> inv v s -> inv v (drain l s) /\ queue_ (drain l s) <> [].
Proof.
  revert s. induction l as [| e l IH]; intros s Hq Hi; [done |]. simpl. apply IH.
  - simpl. by destruct (queue_ s).
  - rewrite view_push. by apply served_push.
Qed.

Lemma invoke_inv v id ec bytes s : inv v s -> inv v (invoke id ec bytes Nothing s).
Proof.
  intros Hi. unfold invoke. change (inv v (set_frames (Nothing :: frames_ s) (record (Invoke id ec bytes) s))).
  pose proof (view_record (Invoke id ec bytes) s I) as Hv. rewrite !view_queue in Hv.
  injection Hv as Hp Hs Hc. rewrite view_queue. simpl. rewrite Hp, Hs, Hc. by apply served_nothing.
Qed.

Lemma invoke_wait_inv id ec bytes s : inv Served s -> inv Free (invoke id ec bytes Finish_write s).
Proof.
  intros Hi. pose proof (view_record (Invoke id ec bytes) s I) as Hv. rewrite !view_queue in Hv.
  injection Hv as Hp Hs Hc. rewrite view_queue. simpl. rewrite Hp, Hs, Hc. by apply served_wait.
Qed.

Lemma start_read_inv v o id s : inv v s -> inv v (start_read o id s).
Proof.
  intros Hi. unfold start_read. change (inv v (record (Read o) s)). by rewrite view_record.
Qed.

Lemma socket_stop_inv v s : inv v s -> inv v (socket_stop s).
Proof.
  intros Hi. unfold socket_stop. destruct (_ && _); [done |]. rewrite view_record by done.
  by eapply served_stop.
Qed.

Lemma finish_stop_inv v ec s : inv v s -> inv v (finish_stop ec s).
Proof.
  intros Hi. unfold finish_stop. set (s' := if lazy ec then _ else _).
  assert (inv v s' /\ stopped_ s' = true) as [Hs' Hst].
  { unfold s'. destruct (lazy ec).
    - unfold socket_lazy_stop. destruct (stopped_ s) eqn:Hst; [done |].
      rewrite view_record by done. split; [by eapply served_stop | done].
    - split; [by apply socket_stop_inv |]. unfold socket_stop. by destruct (stopped_ s) eqn:?, (lazy_ s). }
  clearbody s'. rewrite view_queue in *. rewrite Hst in Hs'. simpl. rewrite Hst.
  destruct (posted_ s' ++ [ec]) eqn:Hp; [by destruct (posted_ s') |]. by eapply served_post.
Qed.

Lemma finish_write_inv s : inv Served s -> inv Free (finish_write s).
Proof.
  intros Hi. unfold finish_write. destruct (queue_ s) as [| e rest] eqn:Hq.
  { exfalso. by apply (served_held _ _ Hi). }
  rewrite view_queue, Hq in Hi. apply served_pop in Hi.
  cbv zeta. set (s' := set_queue rest _). change (stopped_ s') with (stopped_ s).
  destruct (stopped_ s) eqn:Hst; simpl.
  - rewrite view_queue. unfold s'. simpl. rewrite Hst. by destruct rest.
  - rewrite view_write. unfold s'. simpl. rewrite Hst. destruct rest; [| done].
    rewrite view_queue. simpl. by rewrite Hst.
Qed.

Lemma drain_deferred_inv id s : queue_ s <> [] -> inv Served s -> inv Served (drain_deferred id s).
Proof.
  intros Hq Hi. unfold drain_deferred. destruct (drain_inv Served (deferred_ s) s Hq Hi) as [Hd _].
  destruct (queue_ s) as [| e l]; [done |]. simpl. apply start_read_inv. exact Hd.
Qed.

(** The handler of the entry in service, and the rest of [handle_write]. *)
Lemma invoke_handler_inv h ec bytes s :
  inv Served s -> inv Free (invoke_handler h ec bytes Finish_write s).
Proof.
  intros Hi. assert (queue_ s <> []) as Hq by (by apply (served_held _ _ Hi)).
  destruct h as [id | reason | id | id |]; simpl.
  - by apply invoke_wait_inv.
  - by apply finish_write_inv, finish_stop_inv.
  - destruct (failed ec); [by apply invoke_wait_inv | by apply finish_write_inv, drain_deferred_inv].
  - destruct (negb _); [by apply invoke_wait_inv |]. destruct (failed ec); [by apply invoke_wait_inv |].
    by apply finish_write_inv, start_read_inv.
  - by apply finish_write_inv.
Qed.

(** The handler of a refused write. *)
Lemma refuse_inv v h ec bytes s : match h with client _ | ignore => True | _ => False end ->
  inv v s -> inv v (invoke_handler h ec bytes Nothing s).
Proof. intros Hh Hi. destruct h; try done. simpl. by apply invoke_inv. Qed.

Lemma handle_write_inv ec bytes s : inv Serving s -> inv Free (handle_write ec bytes s).
Proof.
  intros Hi. unfold handle_write. destruct (queue_ s) as [| e l] eqn:Hq.
  - rewrite view_queue, Hq in *. by apply served_lost.
  - apply invoke_handler_inv. rewrite view_complete, Hq. apply served_complete.
    by rewrite view_queue, Hq in Hi.
Qed.

(** A second write of the entry in service. *)
Lemma served_again v po st q fr P S C : v = Serving ->
  served v (mk_view po st q false fr P S C) -> served Free (mk_view po st q true fr P S C).
Proof.
  intros ->. serve. split; unfold busy, flying; simpl; try done; try lia.
  - intros Hst. rewrite (H4 Hst). lia.
  - exists f, lost. split_and!; try done. rewrite Hp. do 3 f_equal. lia.
Qed.

Lemma handle_completion_inv k ec bytes s : flight_ s = None -> inv Serving s ->
  inv Free (handle_completion k ec bytes s).
Proof.
  intros Hf Hi. destruct k as [| part]; simpl; [by apply handle_write_inv |].
  unfold handle_http_header_write. destruct (failed ec); [by apply handle_write_inv |].
  unfold start_write. pose proof (view_record (Operation (rpc_write_chunk part)) s I) as Hv.
  rewrite !view_queue in Hv. injection Hv as Hp Hs Hc. rewrite view_queue. simpl. unfold in_flight. simpl.
  rewrite Hp, Hs, Hc. eapply served_again; [done |]. rewrite view_queue in Hi. unfold in_flight in Hi.
  by rewrite Hf in Hi.
Qed.

Lemma land_inv s f : flight_ s = Some f -> inv Free s -> inv Serving (set_flight None s).
Proof.
  intros Hf Hi. rewrite view_queue in *. unfold in_flight in *. rewrite Hf in Hi. simpl.
  by apply served_land.
Qed.

(** ** Moves *)

Section moves.
Context (config_ : config).

Lemma handle_metered_inv k ec bytes consumed s : flight_ s = Some (Writing k) -> inv Free s ->
  inv Free (handle_metered config_ k ec bytes consumed s).
Proof.
  intros Hf Hi. unfold handle_metered. cbv zeta. set (s' := set_flight None _).
  assert (inv Serving s') as Hs' by exact (land_inv s _ Hf Hi).
  destruct (_ =? 0); [by apply handle_completion_inv |].
  pose proof (view_record (Throttle_start (unconsumed config_ bytes consumed s')) s' I) as Hv.
  rewrite !view_queue in Hv. injection Hv as Hp Hs Hc. rewrite view_queue. simpl. unfold in_flight. simpl.
  simpl in Hp, Hs, Hc. rewrite Hp, Hs, Hc. by eapply served_again.
Qed.

Lemma do_solicited_inv v e s : inv v s -> inv v (do_solicited_write e s).
Proof.
  intros Hi. unfold do_solicited_write. destruct (stopped_ s) eqn:Hst; [done |]. by apply enqueue_inv.
Qed.

Lemma queue_close_inv v h s : inv v s -> inv v (queue_close h s).
Proof. intros Hi. by apply do_solicited_inv. Qed.

Lemma do_stop_inv v ec s : inv v s -> inv v (do_stop config_ ec s).
Proof.
  intros Hi. unfold do_stop. apply queue_close_inv. destruct (negb _); [| done]. by rewrite view_record.
Qed.

Lemma stop_inv v stranded ec s : inv v s -> inv v (stop config_ stranded ec s).
Proof.
  intros Hi. unfold stop. destruct (stopped_ s); [by apply socket_stop_inv |].
  destruct (_ && _ && _); [by apply do_stop_inv | by apply finish_stop_inv].
Qed.

(** A handler that a write may be refused to. *)
Definition refusable (h : handler) : Prop := match h with client _ | ignore => True | _ => False end.

Lemma charge_inv v e s : refusable (complete e) -> inv v s ->
  let '(_, charged, s') := charge config_ e s in
  inv v s' /\ (charged = true -> stopped_ s' = stopped_ s /\ queue_ s' = queue_ s).
Proof.
  intros Hh Hi. unfold charge. cbv zeta. destruct (_ && _); [| done].
  destruct (zeromq_ config_); (split; [| done]); [by apply refuse_inv | by apply stop_inv].
Qed.

Lemma do_write_inv v e notification s : (notification = true -> refusable (complete e)) ->
  inv v s -> inv v (do_write config_ e notification s).
Proof.
  intros Hh Hi. unfold do_write. destruct (stopped_ s) eqn:Hst; [done |].
  destruct notification; [| by apply enqueue_inv].
  pose proof (charge_inv v e s (Hh eq_refl) Hi) as Hc. destruct (charge config_ e s) as [[e' charged] s'].
  destruct Hc as [Hi' Hc]. destruct charged; simpl; [| done]. apply enqueue_inv; [| done].
  destruct (Hc eq_refl) as [-> _]. done.
Qed.

Lemma do_defer_write_inv v e s : refusable (complete e) -> inv v s -> inv v (do_defer_write config_ e s).
Proof.
  intros Hh Hi. unfold do_defer_write. destruct (batched_ s); [| by apply do_write_inv].
  pose proof (charge_inv v e s Hh Hi) as Hc. destruct (charge config_ e s) as [[e' []] s']; by destruct Hc.
Qed.

Lemma write_response_inv v m id s : inv v s -> inv v (write_response config_ m (client id) s).
Proof.
  intros Hi. unfold write_response, do_response_queue. destruct (batched_ s);
    destruct (to_response_estimate _) as [size m']; by apply do_write_inv.
Qed.

Lemma notify_request_inv v m id s : inv v s -> inv v (notify_request config_ m (client id) s).
Proof.
  intros Hi. unfold notify_request. destruct (to_request_estimate m) as [size m'].
  by apply do_defer_write_inv.
Qed.

Lemma write_http_inv v content id bounded s : inv v s ->
  inv v (write_http config_ content (client id) bounded s).
Proof.
  intros Hi. unfold write_http, do_http_queue. destruct (downgraded_ s).
  { destruct content; try (by apply refuse_inv); [by apply notify_request_inv | by apply write_response_inv]. }
  destruct (_ && _).
  - destruct content; try (by apply refuse_inv). destruct (to_cost _) as [size c]. by apply do_write_inv.
  - destruct (to_cost content) as [size c]. by apply do_write_inv.
Qed.

Lemma handle_rpc_read_inv v ec bytes x id s : inv v s -> inv v (handle_rpc_read config_ ec bytes x id s).
Proof.
  intros Hi. unfold handle_rpc_read. cbv zeta. destruct (failed ec); [by apply invoke_inv |].
  destruct (zeromq_ config_).
  - destruct (absorb_keepalive _ _ _) as [absorbed s'] eqn:Ha.
    assert (inv v s') as Hs'.
    { unfold absorb_keepalive in Ha. destruct (_ && _); simplify_eq; [done |].
      destruct (bool_decide _); [by apply do_write_inv | done]. }
    destruct absorbed; [by apply start_read_inv | by apply invoke_inv].
  - destruct (batch_close x), (batch_open x); (by apply queue_close_inv) || by apply invoke_inv.
Qed.

Lemma handle_http_body_inv v ec bytes x is_done id s : inv v s ->
  inv v (handle_http_body ec bytes x is_done id s).
Proof.
  intros Hi. unfold handle_http_body. cbv zeta. destruct (negb _); [by apply invoke_inv |].
  destruct x as [x |].
  - destruct (bool_decide _).
    { unfold handle_http_element. destruct (batch_close x), (batch_open x);
        (by apply queue_close_inv) || by apply invoke_inv. }
    destruct (failed ec); [by apply invoke_inv |]. destruct (negb is_done); [by apply start_read_inv |].
    destruct (batch_close x); [by apply start_read_inv | by apply invoke_inv].
  - destruct (failed ec); [by apply invoke_inv |].
    destruct (negb is_done); [by apply start_read_inv | by apply invoke_inv].
Qed.

Lemma handle_read_inv v r x s : inv v s -> inv v (handle_read config_ r x s).
Proof.
  intros Hi. unfold handle_read. destruct (read_operation r); try by apply invoke_inv.
  - by apply handle_rpc_read_inv.
  - unfold handle_detect. destruct (failed _); [by apply invoke_inv |].
    destruct (downgraded_ _); by apply start_read_inv.
  - unfold handle_http_header. cbv zeta. destruct (negb _); [by apply invoke_inv |].
    destruct (failed _); [by apply invoke_inv | by apply start_read_inv].
  - by apply handle_http_body_inv.
  - by apply handle_http_body_inv.
Qed.

Lemma notify_all_view (calls : list (nat * (code * unit))) s :
  view_of (fold_left (fun s c => record (Stop_notify c.1 c.2.1) s) calls s) = view_of s.
Proof. revert s. induction calls as [| c calls IH]; intros s; [done |]. simpl. by rewrite IH, view_record. Qed.

Lemma stopping_inv ec s : stopped_ s = true -> frames_ s = [] -> inv Free s ->
  inv Free (stopping config_ ec s).
Proof.
  intros Hst Hfr Hi. unfold stopping. cbv zeta. set (s1 := if negb (rate_limit_ config_ =? 0) then _ else s).
  assert (view_of s1 = view_of s) as Hv1 by (unfold s1; destruct (negb _); [by apply view_record | done]).
  assert (inv Free (set_deferred [] (set_queue [] (set_parser false s1)))) as Hs.
  { rewrite !view_queue in Hv1. injection Hv1 as Hpo Hs' Hq Hfl Hf Hp Hs Hc.
    rewrite view_queue. simpl. change (in_flight (set_deferred [] (set_queue [] (set_parser false s1))))
      with (in_flight s1). rewrite Hpo, Hs', Hfl, Hf, Hp, Hs, Hc, Hst, Hfr.
    rewrite view_queue, Hst, Hfr in Hi. by eapply served_clear. }
  destruct (subscriber.stop _ _ _) as [sub calls]. by rewrite notify_all_view.
Qed.

Lemma move_inv m s s' : inv Free s -> step config_ m s = Some s' -> inv Free s'.
Proof.
  intros Hi. destruct m; simpl; intros He; simplify_eq; try exact Hi;
    try (by apply start_read_inv); try (by apply do_write_inv).
  - by apply write_response_inv.
  - by apply notify_request_inv.
  - by apply write_http_inv.
  - unfold read_http. destruct (websocket_ s); [by apply start_read_inv |].
    destruct (downgraded_ s); [by apply start_read_inv |].
    destruct (_ && _); [by apply start_read_inv |]. destruct (parser_ s); by apply start_read_inv.
  - unfold subscribe_stop. destruct (stopped_ s); [by rewrite !view_record |].
    match goal with |- context [subscriber.subscribe ?a ?b ?c] =>
      destruct (subscriber.subscribe a b c) as [[sub calls] code] end. by rewrite view_record, notify_all_view.
  - by apply stop_inv.
  - destruct (frames_ s) as [| [] rest] eqn:Hfr; simplify_eq; simpl.
    + rewrite view_queue in *. rewrite Hfr in Hi. exact (proj1 (served_nothing _ _ _ _ _ _ _ _ _) Hi).
    + apply finish_write_inv. rewrite view_queue in *. rewrite Hfr in Hi. by apply served_return in Hi.
  - destruct (flight_ s) as [[k |] |] eqn:Hf; simplify_eq. by apply handle_metered_inv.
  - destruct (flight_ s) as [[| k ec bytes] |] eqn:Hf; [done | | done].
    destruct (frames_ s); simplify_eq. apply handle_completion_inv; [done |]. by eapply land_inv.
  - destruct (reading_ s !! i); simplify_eq. by apply handle_read_inv.
  - destruct (posted_ s) as [| ec rest] eqn:Hpo; [done |]. destruct (frames_ s) eqn:Hfr; simplify_eq.
    assert (stopped_ s = true) as Hst by (apply (served_posted _ _ Hi); simpl; by rewrite Hpo).
    apply stopping_inv; [done | done |]. rewrite view_queue in *. simpl. rewrite Hst in *.
    destruct Hi as [H0 H1 H2 H3 H4 H5]. by split.
Qed.

(** Every state that moves lead to. *)
Lemma moves_inv l s s' : inv Free s -> run config_ l s = Some s' -> inv Free s'.
Proof.
  revert s. induction l as [| m l IH]; intros s Hi He; simpl in He; [by simplify_eq |].
  destruct (step config_ m s) as [s1 |] eqn:Hs; [| done]. eapply IH; [| done]. by eapply move_inv.
Qed.

Lemma init_inv : inv Free proxy.init.
Proof.
  split; unfold busy, flying; simpl; try done; try lia.
  exists [], []. split_and!; [done | done | simpl; lia | by left].
Qed.

Lemma finishing_spec k : Finish_write ∈ k <-> (0 < finishing k)%nat.
Proof.
  induction k as [| [] k IH]; simpl.
  - split; [by intros ?%elem_of_nil | lia].
  - rewrite elem_of_cons, IH. split; [by intros [? |] | by right].
  - rewrite elem_of_cons. split; [lia | by left].
Qed.

(** C32: the write queue is a fifo that serves one write at a time and forgets
    none.  After any moves, writes are started, and then completed, in the
    order that they were pushed, each at most once, with at most one started
    and not completed; the front that a returning handler pops is there; and
    while the channel is not stopped there is a write in service exactly when
    the queue is not empty, all of the pushed writes that the queue does not
    hold having been completed. *)
Theorem write_queue_fifo l s : run config_ l proxy.init = Some s ->
  (completed (log_ s) `prefix_of` started (log_ s)) /\
  (started (log_ s) `prefix_of` pushed (log_ s)) /\
  (length (started (log_ s)) <= S (length (completed (log_ s))))%nat /\
  (Finish_write ∈ frames_ s -> queue_ s <> []) /\
  (stopped_ s = false ->
    (queue_ s <> [] <-> in_flight s = true \/ Finish_write ∈ frames_ s) /\
    ~ (in_flight s = true /\ Finish_write ∈ frames_ s) /\
    pushed (log_ s) = completed (log_ s) ++ (if in_flight s then queue_ s else tail (queue_ s))).
Proof.
  intros Hr. pose proof (moves_inv _ _ _ init_inv Hr) as [_ H1 H2 _ H4 (f & lost & Hp & Hs & Hf & Ho)].
  unfold busy, flying in *. simpl in *.
  pose proof finishing_spec as Hfin.
  split_and!.
  - exists f. done.
  - eexists. exact Hp.
  - rewrite Hs, length_app. lia.
  - rewrite Hfin. exact H2.
  - intros Hst. specialize (H4 Hst). destruct Ho as [[-> ->] | [? _]]; [| congruence].
    rewrite Hfin. rewrite app_nil_r in Hp. split_and!.
    + destruct (in_flight s).
      * split; [by left |]. intros _ Hq. apply H4 in Hq. lia.
      * split; [| intros [? | Hx] Hq; [done | apply H4 in Hq; lia]].
        intros Hq. right. destruct (finishing (frames_ s)); [by exfalso; apply Hq, H4 | lia].
    + destruct (in_flight s); [lia | by intros []].
    + rewrite Hp, Hs, <- app_assoc. f_equal. destruct (in_flight s); simpl.
      * rewrite Nat.add_0_r. assert (finishing (frames_ s) = 0%nat) as -> by lia. by destruct (queue_ s).
      * destruct (finishing (frames_ s)) as [| [|]]; simpl; [| by destruct (queue_ s) | lia].
        by rewrite (proj2 H4 eq_refl).
Qed.

(** ** Progress *)

(** What the surroundings do for a queued write: complete what the socket
    does, fire the throttle, and return from handlers. *)
Definition serves (m : move) : Prop :=
  match m with Written _ _ _ | Throttled | Return => True | _ => False end.

Definition phase (f : option flight) : nat :=
  match f with
  | None => 0
  | Some (Charging handle_write_completion _ _) => 2
  | Some (Writing handle_write_completion) => 3
  | Some (Charging (handle_http_header_write_completion _) _ _) => 4
  | Some (Writing (handle_http_header_write_completion _)) => 5
  end.

Definition load (s : t) : nat :=
  8 * (length (queue_ s) + length (deferred_ s)) + phase (flight_ s) + length (frames_ s).

Definition grows (s s' : t) : Prop := log_ s `prefix_of` log_ s'.

Lemma grows_trans s1 s2 s3 : grows s1 s2 -> grows s2 s3 -> grows s1 s3.
Proof. unfold grows. intros. by etransitivity. Qed.

Lemma grows_refl s : grows s s.
Proof. unfold grows. reflexivity. Qed.

Lemma record_grows e s : grows s (record e s).
Proof. by exists [e]. Qed.

Lemma start_read_grows o id s : grows s (start_read o id s).
Proof. by exists [Read o]. Qed.

Lemma write_progress s : grows s (write s) /\ queue_ (write s) = queue_ s /\
  deferred_ (write s) = deferred_ s /\ frames_ (write s) = frames_ s /\
  (phase (flight_ (write s)) <= phase (flight_ s) `max` 5)%nat.
Proof.
  unfold write. destruct (queue_ s) as [| e l] eqn:Hq; [split_and!; [apply grows_refl | done | done | done | lia] |]. cbv zeta.
  destruct (issue _ _) as [o k]. simpl. split_and!; try done.
  - unfold grows. simpl. exists ([Start e] ++ [Operation o]). by rewrite app_assoc.
  - destruct k; simpl; lia.
Qed.

Lemma finish_write_progress s : grows s (finish_write s) /\
  (queue_ s <> [] -> flight_ s = None -> (load (finish_write s) < load s)%nat).
Proof.
  unfold finish_write. destruct (queue_ s) as [| e rest] eqn:Hq; [split; [apply grows_refl | done] |].
  cbv zeta. set (s' := set_queue rest _).
  assert (grows s s') as Hg by exact (grows_refl s).
  assert ((load s' + 8 = load s)%nat) as Hl by (unfold load, s'; simpl; rewrite Hq; simpl; lia).
  destruct (negb _).
  - destruct (write_progress s') as (Hw & H1 & H2 & H3 & H4). split; [exact (grows_trans _ _ _ Hg Hw) |].
    intros _ Hf. assert (flight_ s' = None) as Hf' by done. unfold load in *. rewrite H1, H2, H3.
    rewrite Hf' in *. simpl in *. lia.
  - split; [done |]. intros. lia.
Qed.

Lemma drain_progress l s : grows s (drain l s) /\ queue_ (drain l s) = queue_ s ++ l /\
  deferred_ (drain l s) = deferred_ s /\ frames_ (drain l s) = frames_ s /\ flight_ (drain l s) = flight_ s.
Proof.
  revert s. induction l as [| e l IH]; intros s; simpl.
  { rewrite app_nil_r. split_and!; try done. apply grows_refl. }
  destruct (IH (push_back e s)) as (H1 & H2 & H3 & H4 & H5). rewrite H2, H3, H4, H5. simpl.
  rewrite <- app_assoc. split_and!; try done. eapply grows_trans; [apply (record_grows (Push e)) | exact H1].
Qed.

Lemma finish_stop_progress ec s : grows s (finish_stop ec s) /\ load (finish_stop ec s) = load s /\
  queue_ (finish_stop ec s) = queue_ s /\ flight_ (finish_stop ec s) = flight_ s.
Proof.
  unfold finish_stop, socket_stop, socket_lazy_stop.
  destruct (lazy ec), (stopped_ s), (lazy_ s); simpl; split_and!; try done;
    first [by eexists | exact (grows_refl s)].
Qed.

Lemma invoke_handler_progress h ec bytes s : queue_ s <> [] -> flight_ s = None ->
  grows s (invoke_handler h ec bytes Finish_write s) /\
  (load (invoke_handler h ec bytes Finish_write s) <= load s + 1)%nat.
Proof.
  intros Hq Hf. assert (forall id c, grows s (invoke id c bytes Finish_write s) /\
    (load (invoke id c bytes Finish_write s) <= load s + 1)%nat) as Hinv.
  { intros id c. split; [apply record_grows |]. unfold load. simpl. lia. }
  destruct h as [id | reason | id | id |]; simpl.
  - apply Hinv.
  - destruct (finish_stop_progress reason s) as (Hg & Hl & Hq' & Hf').
    destruct (finish_write_progress (finish_stop reason s)) as [Hg' Hl']. split; [exact (grows_trans _ _ _ Hg Hg') |].
    rewrite <- Hl. pose proof (Hl' ltac:(congruence) ltac:(congruence)). lia.
  - destruct (failed ec); [apply Hinv |]. unfold drain_deferred.
    destruct (drain_progress (deferred_ s) s) as (Hg & H1 & H2 & H3 & H4).
    destruct (queue_ s) as [| e l] eqn:Hqs; [done |]. simpl.
    set (s' := do_rpc_request_read _ _).
    assert (grows s s') as Hg' by (eapply grows_trans; [exact Hg | by eexists]).
    assert (load s' = load s) as Hl.
    { unfold load, s'. simpl. rewrite H1, H3, H4, Hqs, !length_app. simpl. lia. }
    destruct (finish_write_progress s') as [Hg2 Hl2]. split; [exact (grows_trans _ _ _ Hg' Hg2) |].
    rewrite <- Hl. pose proof (Hl2 ltac:(unfold s'; simpl; by rewrite H1) ltac:(unfold s'; simpl; congruence)). lia.
  - destruct (negb _); [apply Hinv |]. destruct (failed ec).
    + split; [by eexists |]. unfold load. simpl. lia.
    + set (s' := do_http_body_read id s). destruct (finish_write_progress s') as [Hg2 Hl2].
      split; [exact (grows_trans _ _ _ (start_read_grows http_read_some id s) Hg2) |].
      assert (load s' = load s) as Hl by done. rewrite <- Hl.
      pose proof (Hl2 Hq Hf). lia.
  - destruct (finish_write_progress s) as [Hg Hl]. split; [done |]. specialize (Hl Hq Hf). lia.
Qed.

Lemma handle_write_progress ec bytes s : flight_ s = None ->
  grows s (handle_write ec bytes s) /\ (load (handle_write ec bytes s) <= load s + 1)%nat.
Proof.
  intros Hf. unfold handle_write. destruct (queue_ s) as [| e l] eqn:Hq; [split; [apply grows_refl | lia] |].
  destruct (invoke_handler_progress (complete e) ec bytes (record (Complete e) s)) as [Hg Hl];
    [simpl; congruence | done |].
  split; [exact (grows_trans _ _ _ (record_grows _ _) Hg) | exact Hl].
Qed.

Lemma handle_completion_progress k ec bytes s : flight_ s = None ->
  grows s (handle_completion k ec bytes s) /\
  (load (handle_completion k ec bytes s) <=
    load s + match k with handle_write_completion => 1 | _ => 3 end)%nat.
Proof.
  intros Hf. destruct k as [| part]; simpl; [by apply handle_write_progress |].
  unfold handle_http_header_write. destruct (failed ec).
  - destruct (handle_write_progress ec bytes s Hf). split; [done | lia].
  - split; [by exists [Operation (rpc_write_chunk part)] |]. unfold load. rewrite Hf. simpl. lia.
Qed.

Lemma handle_metered_progress k ec bytes consumed s : flight_ s = Some (Writing k) ->
  grows s (handle_metered config_ k ec bytes consumed s) /\
  (load (handle_metered config_ k ec bytes consumed s) < load s)%nat.
Proof.
  intros Hf. unfold handle_metered. cbv zeta. set (s' := set_flight None _).
  assert ((load s' + phase (Some (Writing k)) = load s)%nat) as Hl.
  { unfold load, s'. simpl. rewrite Hf. destruct k; simpl; lia. }
  destruct (_ =? 0).
  - destruct (handle_completion_progress k ec bytes s' eq_refl) as [Hg Hc]. split; [exact Hg |].
    destruct k; simpl in *; lia.
  - split; [by exists [Throttle_start (unconsumed config_ bytes consumed s')] |].
    unfold load, s' in *. simpl in *. destruct k; simpl in *; lia.
Qed.

Lemma serve_progress m s s' : inv Free s -> serves m -> step config_ m s = Some s' ->
  grows s s' /\ (load s' < load s)%nat.
Proof.
  intros Hi Hm. destruct m; try done; simpl.
  - destruct (frames_ s) as [| k rest] eqn:Hfr; [done |]. intros [= <-].
    set (s1 := set_frames rest s).
    assert ((load s1 + 1 = load s)%nat) as Hl by (unfold load, s1; simpl; rewrite Hfr; simpl; lia).
    destruct k; simpl; [split; [exact (grows_refl s) | lia] |].
    destruct (finish_write_progress s1) as [Hg Hp]. split; [exact Hg |].
    destruct Hi as [_ H1 H2 _ _ _]. unfold busy, flying in *. simpl in *. unfold in_flight in *. rewrite Hfr in *. simpl in *.
    assert (flight_ s = None) as Hf.
    { by destruct (flight_ s); [simpl in H1; lia |]. }
    pose proof (Hp ltac:(apply H2; lia) Hf). lia.
  - destruct (flight_ s) as [[k |] |] eqn:Hf; [| done | done]. intros [= <-].
    by apply handle_metered_progress.
  - destruct (flight_ s) as [[| k ec bytes] |] eqn:Hf; [done | | done].
    destruct (frames_ s) eqn:Hfr; [| done]. intros [= <-]. unfold handle_charge.
    destruct (handle_completion_progress k ec bytes (set_flight None s) eq_refl) as [Hg Hc].
    split; [exact Hg |]. unfold load in *. simpl in *. rewrite Hf. destruct k; simpl in *; lia.
Qed.

Lemma moves_app l k s : run config_ (l ++ k) s =
  match run config_ l s with Some s' => run config_ k s' | None => None end.
Proof. revert s. induction l as [| m l IH]; intros s; [done |]. simpl. by destruct (step config_ m s). Qed.

(** C34: liveness of the write queue.  From any state that moves lead to,
    completions of the socket, firings of the throttle and returns of handlers,
    with whatever results, are bounded in number; and when a channel that is
    not stopped has none left to come, the queue is empty and every write that
    was ever pushed has been completed.  So nothing stalls, and no handler is
    forgotten. *)
Theorem writes_complete l s : run config_ l proxy.init = Some s ->
  (forall l' s', Forall serves l' -> run config_ l' s = Some s' ->
    (length l' <= load s)%nat /\ (log_ s `prefix_of` log_ s')) /\
  (stopped_ s = false -> (forall m, serves m -> step config_ m s = None) ->
    queue_ s = [] /\ completed (log_ s) = pushed (log_ s)).
Proof.
  intros Hr. pose proof (moves_inv _ _ _ init_inv Hr) as Hi. split.
  - clear Hr. intros l'. revert s Hi. induction l' as [| m l' IH]; intros s Hi s' Hl Hr'; simpl in Hr'.
    { simplify_eq. split; [simpl; lia | reflexivity]. }
    apply Forall_cons in Hl as [Hm Hl]. destruct (step config_ m s) as [s1 |] eqn:Hst; [| done].
    destruct (serve_progress m s s1 Hi Hm Hst) as [Hg Hd].
    destruct (IH s1 (move_inv _ _ _ Hi Hst) s' Hl Hr') as [Hn Hg']. split; [simpl; lia |].
    exact (grows_trans _ _ _ Hg Hg').
  - intros Hst Hstuck. destruct Hi as [_ H1 H2 _ H4 (f & lost & Hp & Hs & _ & Ho)].
    unfold busy, flying in *. simpl in *. unfold in_flight in *.
    assert (frames_ s = []) as Hfr.
    { specialize (Hstuck Return I). simpl in Hstuck. by destruct (frames_ s). }
    assert (flight_ s = None) as Hfl.
    { pose proof (Hstuck (Written error.success 0 0) I) as Hw. pose proof (Hstuck Throttled I) as Ht.
      simpl in Hw, Ht. rewrite Hfr in Ht. by destruct (flight_ s) as [[|] |]. }
    assert (queue_ s = []) as Hq by (apply (H4 Hst); by rewrite Hfr, Hfl). split; [done |].
    rewrite Hq in *. destruct Ho as [[-> ->] | [? _]]; [| congruence].
    by rewrite Hp, Hs, drop_nil, take_nil, !app_nil_r.
Qed.
End moves.
End proxy_queue.

Import proxy_queue.

Lemma write_queue_fifo_witness : let s := proxy_example.after proxy_example.busy_moves in
  (completed (proxy.log_ s) `prefix_of` started (proxy.log_ s)) /\
  (started (proxy.log_ s) `prefix_of` pushed (proxy.log_ s)) /\
  (length (started (proxy.log_ s)) <= S (length (completed (proxy.log_ s))))%nat /\
  (proxy.Finish_write ∈ proxy.frames_ s -> proxy.queue_ s <> []) /\
  (proxy.stopped_ s = false ->
    (proxy.queue_ s <> [] <-> in_flight s = true \/ proxy.Finish_write ∈ proxy.frames_ s) /\
    ~ (in_flight s = true /\ proxy.Finish_write ∈ proxy.frames_ s) /\
    pushed (proxy.log_ s) = completed (proxy.log_ s) ++
      (if in_flight s then proxy.queue_ s else tail (proxy.queue_ s))).
Proof. apply (write_queue_fifo proxy_example.config proxy_example.busy_moves). by vm_compute. Defined.

Lemma writes_complete_witness : let s := proxy_example.after proxy_example.moves in
  (forall l' s', Forall serves l' -> proxy.run proxy_example.config l' s = Some s' ->
    (length l' <= load s)%nat /\ (proxy.log_ s `prefix_of` proxy.log_ s')) /\
  (proxy.stopped_ s = false -> (forall m, serves m -> proxy.step proxy_example.config m s = None) ->
    proxy.queue_ s = [] /\ completed (proxy.log_ s) = pushed (proxy.log_ s)).
Proof. apply (writes_complete proxy_example.config proxy_example.moves). by vm_compute. Defined.
