(* ===== verification/ProxyBacklog.v ===== *)
(** * ProxyBacklog: what a proxy holds unasked

    The accounting of the backlog of Proxy: what the channel holds of
    notifications, queued or deferred, is what the backlog counts, and it does
    not pass the configured maximum except for a single entry. *)

From S2P Require Import Prelude.
From S2P Require Import Errors.
From S2P Require Import Async.
From S2P Require Import Proxy.
From S2P Require Import ProxyQueue.

Module proxy_backlog.
Import proxy.

Fixpoint total (l : list pending) : Z := match l with [] => 0 | e :: l => cost e + total l end.

(** The entries that are charged. *)
Fixpoint charged (l : list pending) : Z :=
  match l with [] => 0 | e :: l => (if cost e =? 0 then 0 else 1) + charged l end.

Definition maximum_size : Z := 2 ^ 64 - 1.

Definition cost_ok (e : pending) : Prop := cost e = 0 \/ entry_size <= cost e <= maximum_size.

Lemma total_app l k : total (l ++ k) = total l + total k.
Proof. induction l as [| e l IH]; simpl; lia. Qed.

Lemma charged_app l k : charged (l ++ k) = charged l + charged k.
Proof. induction l as [| e l IH]; simpl; lia. Qed.

Lemma charged_total l : Forall cost_ok l -> 0 <= charged l /\ entry_size * charged l <= total l.
Proof.
  unfold entry_size. induction 1 as [| e l He Hl IH]; simpl; [lia |].
  destruct He as [-> | He]; [simpl; lia |]. unfold entry_size in *. destruct (cost e =? 0) eqn:?; lia.
Qed.

Definition held (s : t) : list pending := queue_ s ++ deferred_ s.

(** Sums over appended lists, then arithmetic. *)
Ltac sums := unfold held in *; simpl in *; do 3
  (rewrite ?total_app, ?charged_app, ?Forall_app, ?Forall_cons in *; simpl in *).

Section backlog.
Context (config_ : config).

(** What the accounting depends on: [e] is charged, and not yet held. *)
Definition counted (s : t) (pending : list pending) : Prop :=
  stopped_ s = true \/
  (Forall cost_ok (held s ++ pending) /\
   backlog_ s = total (held s ++ pending) /\
   (total (held s ++ pending) <= maximum_backlog_ config_ \/ charged (held s ++ pending) <= 1)).

#[local] Abbreviation inv s := (counted s []).

(** States that hold the same and count the same. *)
Definition same (s s' : t) : Prop :=
  (stopped_ s = true -> stopped_ s' = true) /\ queue_ s' = queue_ s /\ deferred_ s' = deferred_ s /\
  backlog_ s' = backlog_ s.

Lemma same_counted s s' l : same s s' -> counted s l -> counted s' l.
Proof.
  intros (Hst & Hq & Hd & Hb) [Hs | Hs]; [left; auto | right]. unfold held. by rewrite Hq, Hd, Hb.
Qed.

Lemma same_refl s : same s s.
Proof. by split_and!. Qed.

Lemma same_trans s1 s2 s3 : same s1 s2 -> same s2 s3 -> same s1 s3.
Proof. intros (? & ? & ? & ?) (? & ? & ? & ?). split_and!; [auto | congruence | congruence | congruence]. Qed.

Lemma write_same s : same s (write s).
Proof.
  unfold write. destruct (queue_ s) eqn:Hq; [apply same_refl |]. cbv zeta. destruct (issue _ _) as [o k].
  by split_and!.
Qed.

Lemma enqueue_counted e s l : counted s (e :: l) -> counted (enqueue e s) l.
Proof.
  intros Hc. assert (counted (push_back e s) l) as Hp.
  { destruct Hc as [Hs | (Hf & Hb & Ht)]; [by left | right]. sums. destruct_and?; split_and!; try done; lia. }
  unfold enqueue. cbv zeta. destruct (negb (negb _)); [| exact Hp].
  exact (same_counted _ _ _ (write_same _) Hp).
Qed.

Lemma finish_write_bound s : inv s -> inv (finish_write s).
Proof.
  intros Hi. unfold finish_write. destruct (queue_ s) as [| e rest] eqn:Hq; [done |].
  cbv zeta. set (s' := set_queue rest _). assert (inv s') as Hs'.
  { destruct Hi as [Hs | (Hf & Hb & Ht)]; [by left | right]. unfold held in *. rewrite Hq, app_nil_r in *.
    simpl in *. apply Forall_cons in Hf as [He Hf]. pose proof (charged_total _ Hf).
    unfold floored_subtract, cost_ok, entry_size, maximum_size in *.
    split_and!; [done | lia |]. destruct (cost e =? 0) eqn:?; lia. }
  destruct (negb _); [| done]. exact (same_counted _ _ _ (write_same _) Hs').
Qed.

Lemma finish_stop_same ec s : same s (finish_stop ec s).
Proof.
  unfold finish_stop, socket_stop, socket_lazy_stop.
  destruct (lazy ec), (stopped_ s) eqn:Hs, (lazy_ s); split_and!; simpl; done.
Qed.

Lemma socket_stop_same s : same s (socket_stop s).
Proof. unfold socket_stop. destruct (stopped_ s) eqn:Hs, (lazy_ s); split_and!; simpl; try done. Qed.

Lemma resume_bound k s : inv s -> inv (resume k s).
Proof. intros Hi. destruct k; simpl; [done | by apply finish_write_bound]. Qed.

(** The deferred entries are queued as they were charged. *)
Lemma drain_counted l s k : counted s (l ++ k) -> counted (drain l s) k.
Proof.
  revert s. induction l as [| e l IH]; intros s Hc; [done |]. simpl. apply IH.
  destruct Hc as [Hs | (Hf & Hb & Ht)]; [by left | right]. sums. destruct_and?; split_and!; try done; lia.
Qed.

Lemma drain_deferred_bound id s : inv s -> inv (drain_deferred id s).
Proof.
  intros Hi. unfold drain_deferred. cbv zeta. set (s1 := set_deferred [] (drain (deferred_ s) s)).
  assert (inv s1) as Hs1.
  { assert (counted (set_deferred [] s) (deferred_ s ++ [])) as Hc.
    { destruct Hi as [Hs | (Hf & Hb & Ht)]; [by left | right]. unfold held in *. simpl.
      by rewrite !app_nil_r in *. }
    apply drain_counted in Hc. eapply same_counted; [| exact Hc].
    assert (forall l x, same (set_deferred [] (drain l x)) (drain l (set_deferred [] x)) /\
      same (drain l (set_deferred [] x)) (set_deferred [] (drain l x))) as Hcomm.
    { clear. induction l as [| e l IH]; intros x; [split; apply same_refl |]. simpl.
      exact (IH (push_back e x)). }
    apply Hcomm. }
  clearbody s1. set (s2 := if negb _ && _ then _ else _).
  assert (inv s2) as Hs2.
  { unfold s2. destruct (_ && _); [exact (same_counted _ _ _ (write_same _) Hs1) | done]. }
  exact (same_counted s2 _ _ ltac:(by split_and!) Hs2).
Qed.

Lemma invoke_handler_bound h ec bytes k s : inv s -> inv (invoke_handler h ec bytes k s).
Proof.
  intros Hi. assert (forall id c, inv (invoke id c bytes k s)) as Hinv.
  { intros. exact (same_counted s _ _ ltac:(by split_and!) Hi). }
  destruct h as [id | reason | id | id |]; simpl; try apply Hinv.
  - by apply resume_bound, (same_counted _ _ _ (finish_stop_same reason s)).
  - destruct (failed ec); [apply Hinv | by apply resume_bound, drain_deferred_bound].
  - destruct (negb _); [apply Hinv |]. destruct (failed ec).
    + exact (same_counted s _ _ ltac:(by split_and!) Hi).
    + apply resume_bound. exact (same_counted s _ _ ltac:(by split_and!) Hi).
  - by apply resume_bound.
Qed.

Lemma handle_completion_bound k ec bytes s : inv s -> inv (handle_completion k ec bytes s).
Proof.
  intros Hi. assert (inv (handle_write ec bytes s)) as Hw.
  { unfold handle_write. destruct (queue_ s); [done |].
    apply invoke_handler_bound. exact (same_counted s _ _ ltac:(by split_and!) Hi). }
  destruct k; simpl; [done |]. unfold handle_http_header_write. destruct (failed ec); [done |].
  exact (same_counted s _ _ ltac:(by split_and!) Hi).
Qed.

Lemma do_solicited_bound e s : inv s -> inv (do_solicited_write e s).
Proof.
  intros Hi. unfold do_solicited_write. destruct (stopped_ s); [done |]. apply enqueue_counted.
  destruct Hi as [Hs | (Hf & Hb & Ht)]; [by left | right]. sums. destruct_and?.
  split_and!; try done; try lia. by left.
Qed.

Lemma queue_close_bound h s : inv s -> inv (queue_close h s).
Proof. intros Hi. apply do_solicited_bound. exact (same_counted s _ _ ltac:(by split_and!) Hi). Qed.

Lemma stop_bound stranded ec s : inv s -> inv (stop config_ stranded ec s).
Proof.
  intros Hi. unfold stop. destruct (stopped_ s) eqn:Hst; [exact (same_counted _ _ _ (socket_stop_same s) Hi) |].
  destruct (_ && _ && _); [| exact (same_counted _ _ _ (finish_stop_same ec s) Hi)].
  apply queue_close_bound. destruct (negb _); [| done]. exact (same_counted s _ _ ltac:(by split_and!) Hi).
Qed.

Hypothesis maximum_small : 0 <= maximum_backlog_ config_ < maximum_size.

Definition size_ok (size : Z) : Prop := 0 <= size <= maximum_size.

Lemma charge_counted e s : size_ok (cost e) -> inv s ->
  let '(e', charged, s') := charge config_ e s in
  if charged then counted s' [e'] /\ queue_ s' = queue_ s /\ deferred_ s' = deferred_ s else inv s'.
Proof.
  intros He Hi. unfold charge. cbv zeta. set (e' := mk_pending _ _ _).
  assert (entry_size <= cost e' <= maximum_size) as He'.
  { unfold e', ceilinged_add, size_ok, entry_size, maximum_size in *. simpl. lia. }
  clearbody e'. destruct (negb _ && _) eqn:Hr.
  - destruct (zeromq_ config_); [by apply invoke_handler_bound | by apply stop_bound].
  - split; [| done]. destruct Hi as [Hs | (Hf & Hb & Ht)]; [by left | right]. unfold held in *.
    simpl in *. rewrite app_nil_r in *. rewrite total_app, charged_app. simpl.
    pose proof (charged_total _ Hf) as [_ Hc]. unfold ceilinged_add, entry_size, maximum_size in *.
    split_and!; [apply Forall_app; split; [done | apply Forall_singleton; right; unfold entry_size, maximum_size; lia] | |].
    + rewrite Hb. apply andb_false_iff in Hr as [Hr | Hr]; [| lia].
      apply negb_false_iff, andb_true_iff in Hr as [Hq Hd].
      destruct (queue_ s), (deferred_ s); try done. simpl. lia.
    + apply andb_false_iff in Hr as [Hr | Hr]; [right | left; lia].
      apply negb_false_iff, andb_true_iff in Hr as [Hq Hd].
      destruct (queue_ s), (deferred_ s); try done. simpl. by destruct (cost e' =? 0).
Qed.

Lemma do_write_bound e notification s : (notification = true -> size_ok (cost e)) -> inv s ->
  inv (do_write config_ e notification s).
Proof.
  intros He Hi. destruct notification; [| exact (do_solicited_bound e s Hi)].
  unfold do_write. destruct (stopped_ s); [done |].
  pose proof (charge_counted e s (He eq_refl) Hi) as Hc.
  destruct (charge config_ e s) as [[e' []] s']; simpl; [| exact Hc]. apply enqueue_counted, Hc.
Qed.

Lemma do_defer_write_bound e s : size_ok (cost e) -> inv s -> inv (do_defer_write config_ e s).
Proof.
  intros He Hi. unfold do_defer_write. destruct (batched_ s); [| by apply do_write_bound].
  pose proof (charge_counted e s He Hi) as Hc.
  destruct (charge config_ e s) as [[e' []] s']; [| exact Hc]. destruct Hc as [Hc _].
  destruct Hc as [Hs | (Hf & Hb & Ht)]; [by left | right]. unfold held in *. simpl in *.
  rewrite app_nil_r, app_assoc. done.
Qed.

(** The sizes that clients give are of [size_t]. *)
Definition request_ok (m : request) : Prop := size_ok (request_size m) /\ size_ok (request_hint m).
Definition response_ok (m : response) : Prop := size_ok (response_size m) /\ size_ok (response_hint m).

Definition body_ok (b : body) : Prop :=
  match b with
  | json_body n | string_body n | data_body n | span_body n | buffer_body n | peer_body n => size_ok n
  | request_body m => request_ok m
  | response_body m => response_ok m
  | empty_body | other_body => True
  end.

Definition move_ok (m : move) : Prop :=
  match m with
  | Write_ws data _ _ | Write_tcp data _ => size_ok (payload_size data)
  | Write_peer message _ _ => size_ok (payload_size message)
  | Notify_request m _ => request_ok m
  | Write_http content _ _ => body_ok content
  | _ => True
  end.

Lemma to_cost_ok b : body_ok b -> size_ok (to_cost b).1.
Proof.
  destruct b; simpl; try done.
  - intros [? ?]. by destruct (request_hint message =? 0).
  - intros [? ?]. by destruct (response_hint part =? 0).
Qed.

Lemma notify_request_bound m h s : request_ok m -> inv s -> inv (notify_request config_ m h s).
Proof.
  intros [Hs Hh] Hi. unfold notify_request, to_request_estimate. cbv zeta.
  apply do_defer_write_bound; [| done]. simpl. by destruct (request_hint m =? 0).
Qed.

Lemma write_response_bound m h s : inv s -> inv (write_response config_ m h s).
Proof.
  intros Hi. unfold write_response, do_response_queue, to_response_estimate. cbv zeta.
  destruct (batched_ s); by apply do_write_bound.
Qed.

Lemma write_http_bound content h bounded s : body_ok content -> inv s ->
  inv (write_http config_ content h bounded s).
Proof.
  intros Hb Hi. unfold write_http, do_http_queue. destruct (downgraded_ s).
  { destruct content; try (by apply invoke_handler_bound); [by apply notify_request_bound | by apply write_response_bound]. }
  destruct (_ && _).
  - destruct content; try (by apply invoke_handler_bound).
    set (b := response_body _). assert (body_ok b) as Hb' by exact Hb. pose proof (to_cost_ok b Hb').
    destruct (to_cost b) as [size c]. apply do_write_bound; [done |].
    exact (same_counted s _ _ ltac:(by split_and!) Hi).
  - pose proof (to_cost_ok content Hb). destruct (to_cost content) as [size c]. by apply do_write_bound.
Qed.

(** A state that differs in what the accounting does not depend on. *)
Ltac alike s := refine (same_counted s _ _ _ _); [by split_and! |].

Lemma handle_http_body_bound ec bytes x is_done id s : inv s -> inv (handle_http_body ec bytes x is_done id s).
Proof.
  intros Hi. unfold handle_http_body. cbv zeta. destruct (negb _); [by alike s |].
  destruct x as [x |].
  - destruct (bool_decide _).
    { unfold handle_http_element. cbv zeta. destruct (batch_close x); [| by destruct (batch_open x); alike s].
      apply queue_close_bound. destruct (batch_open x); by alike s. }
    destruct (failed ec); [by alike s |]. destruct (negb is_done); [by alike s |].
    destruct (batch_close x); by alike s.
  - destruct (failed ec); [by alike s |]. destruct (negb is_done); by alike s.
Qed.

Lemma handle_read_bound r x s : inv s -> inv (handle_read config_ r x s).
Proof.
  intros Hi. unfold handle_read.
  destruct (read_operation r); try (alike s; done).
  - unfold handle_rpc_read. cbv zeta. destruct (failed _); [by alike s |]. destruct (zeromq_ config_).
    + unfold absorb_keepalive. destruct (_ && _); [by alike s |].
      destruct (bool_decide _); [| by alike s]. set (s1 := count_received _ _).
      assert (inv s1) as Hs1 by (by alike s). set (s2 := do_write _ _ _ _).
      assert (inv s2) as Hs2 by (by apply do_write_bound). by alike s2.
    + destruct (batch_close _); [| by destruct (batch_open _); alike s].
      apply queue_close_bound. destruct (batch_open _); by alike s.
  - unfold handle_detect. destruct (failed _); [by alike s |]. destruct (downgraded_ _); by alike s.
  - unfold handle_http_header. cbv zeta. destruct (negb _); [by alike s |]. destruct (failed _); by alike s.
  - by apply handle_http_body_bound.
  - by apply handle_http_body_bound.
Qed.

Lemma notify_all_same (calls : list (nat * (code * unit))) s :
  same s (fold_left (fun s c => record (Stop_notify c.1 c.2.1) s) calls s).
Proof.
  revert s. induction calls as [| c calls IH]; intros s; [apply same_refl |]. simpl.
  eapply same_trans; [| apply IH]. by split_and!.
Qed.

Lemma step_bound m s s' : move_ok m -> (posted_ s <> [] -> stopped_ s = true) -> inv s ->
  step config_ m s = Some s' -> inv s'.
Proof.
  intros Hm Hpo Hi. destruct m; simpl in *; intros He; simplify_eq; try (by alike s);
    try (by apply do_write_bound).
  - by apply write_response_bound.
  - by apply notify_request_bound.
  - by apply write_http_bound.
  - unfold read_http. destruct (websocket_ s); [by alike s |]. destruct (downgraded_ s); [by alike s |].
    destruct (_ && _); [by alike s |]. destruct (parser_ s); by alike s.
  - unfold subscribe_stop. destruct (stopped_ s); [by alike s |].
    match goal with |- context [subscriber.subscribe ?a ?b ?c] =>
      destruct (subscriber.subscribe a b c) as [[sub calls] code] end.
    set (s1 := set_stop_subscriber sub s). assert (inv s1) as Hs1 by (by alike s).
    pose proof (same_counted _ _ _ (notify_all_same calls s1) Hs1) as Hn.
    set (s2 := fold_left _ _ _) in *. by alike s2.
  - by apply stop_bound.
  - destruct (frames_ s) as [| k rest]; [done |]. simplify_eq. apply resume_bound. by alike s.
  - destruct (flight_ s) as [[k |] |]; simplify_eq. unfold handle_metered. cbv zeta.
    set (s1 := set_flight None _). assert (inv s1) as Hs1 by (by alike s).
    destruct (_ =? 0); [by apply handle_completion_bound | by alike s1].
  - destruct (flight_ s) as [[| k ec bytes] |]; try done. destruct (frames_ s); simplify_eq.
    apply handle_completion_bound. by alike s.
  - destruct (reading_ s !! i); simplify_eq. apply handle_read_bound. by alike s.
  - destruct (posted_ s) as [| ec rest]; [done |]. destruct (frames_ s); simplify_eq. left.
    unfold stopping. cbv zeta. destruct (subscriber.stop _ _ _) as [sub calls].
    apply (proj1 (notify_all_same calls _)). simpl. specialize (Hpo ltac:(done)). by destruct (negb _).
Qed.

Lemma run_bound l s s' : Forall move_ok l -> proxy_queue.served proxy_queue.Free (proxy_queue.view_of s) ->
  inv s -> run config_ l s = Some s' -> inv s'.
Proof.
  intros Hl. revert s. induction Hl as [| m l Hm Hl IH]; intros s Hv Hi He; simpl in He; [by simplify_eq |].
  destruct (step config_ m s) as [s1 |] eqn:Hs; [| done].
  apply (IH s1); [by eapply proxy_queue.move_inv | | done]. eapply step_bound; [done | | done | done].
  intros Hp. apply (proxy_queue.served_posted _ _ Hv). simpl. by destruct (posted_ s).
Qed.

(** C35: bounds of the backlog.  While a channel runs, its backlog is the sum of
    the costs of what it holds, queued and deferred, so that completing a
    write gives back what accepting it took; and it does not pass the
    configured maximum, nor does the number of charged entries pass that
    maximum over the least cost of an entry, unless there is one charged
    entry alone: an entry is refused unless it fits or nothing is held. *)
Theorem backlog_bounded l s : Forall move_ok l -> run config_ l proxy.init = Some s ->
  stopped_ s = false ->
  backlog_ s = total (queue_ s ++ deferred_ s) /\
  (charged (queue_ s ++ deferred_ s) <= 1 \/
   backlog_ s <= maximum_backlog_ config_ /\
   entry_size * charged (queue_ s ++ deferred_ s) <= maximum_backlog_ config_).
Proof.
  intros Hl Hr Hst. destruct (run_bound l proxy.init s Hl proxy_queue.init_inv) as [Hs | (Hf & Hb & Ht)];
    [| done | congruence |].
  - right. unfold held. simpl. split_and!; [constructor | done | right; lia].
  - rewrite app_nil_r in *. pose proof (charged_total _ Hf) as [_ Hc]. unfold held in *.
    split; [done |]. destruct Ht as [Ht | Ht]; [right; lia | by left].
Qed.
End backlog.
End proxy_backlog.

Import proxy_backlog.

Lemma backlog_bounded_witness : let s := proxy_example.after proxy_example.busy_moves in
  proxy.backlog_ s = total (proxy.queue_ s ++ proxy.deferred_ s) /\
  (charged (proxy.queue_ s ++ proxy.deferred_ s) <= 1 \/
   proxy.backlog_ s <= 10000 /\
   proxy.entry_size * charged (proxy.queue_ s ++ proxy.deferred_ s) <= 10000).
Proof.
  apply (backlog_bounded proxy_example.config ltac:(by vm_compute) proxy_example.busy_moves);
    [| by vm_compute | by vm_compute].
  repeat constructor; vm_compute; intros; discriminate.
Defined.
