(* ===== verification/ProxyBatch.v ===== *)
(** * ProxyBatch: json-rpc batches on the wire

    The channel of a json-rpc service is blind to batches: Proxy stamps the
    responses that it writes, closes a batch when the close is read or the
    channel stops, and defers notifications while a batch is open.  What is
    written is then a series of single messages and of batches that are opened
    and closed in turn, with nothing but parts in between. *)

From S2P Require Import Prelude.
From S2P Require Import Errors.
From S2P Require Import Async.
From S2P Require Import Proxy.
From S2P Require Import ProxyQueue.

Module proxy_batch.
Import proxy proxy_queue.

(** ** The grammar *)

Inductive token := Single | Open | Part | Close | Other.

Definition part_token (p : response) : token :=
  match batch p, changed p with
  | false, false => Single
  | false, true => Open
  | true, false => Part
  | true, true => Close
  end.

Definition token_of (e : pending) : token :=
  match call e with
  | do_response_write p | do_http_write (response_body p) => part_token p
  | _ => Other
  end.

Definition scan1 (inside : bool) (t : token) : option bool :=
  match t with
  | Single | Other => if inside then None else Some false
  | Open => if inside then None else Some true
  | Part => if inside then Some true else None
  | Close => if inside then Some false else None
  end.

(** Whether a batch is open after the entries, if they follow the grammar. *)
Fixpoint scan (inside : bool) (l : list pending) : option bool :=
  match l with
  | [] => Some inside
  | e :: l => match scan1 inside (token_of e) with Some inside => scan inside l | None => None end
  end.

Definition is_stop (e : pending) : bool := match complete e with handle_stop_write _ => true | _ => false end.

Definition is_close (e : pending) : bool :=
  match complete e with handle_close_write _ | handle_http_close_write _ => true | _ => false end.

Definition closing (l : list pending) : bool := existsb is_stop l.

(** The entries up to that of a stop. *)
Fixpoint until_stop (l : list pending) : list pending :=
  match l with
  | [] => []
  | e :: l => if is_stop e then [e] else e :: until_stop l
  end.

Fixpoint closes (l : list pending) : nat :=
  match l with [] => 0 | e :: l => (if is_close e then 1 else 0) + closes l end.

Lemma scan_app i l k : scan i (l ++ k) = match scan i l with Some j => scan j k | None => None end.
Proof. revert i. induction l as [| e l IH]; intros i; [done |]. simpl. by destruct (scan1 _ _). Qed.

Lemma closing_app l k : closing (l ++ k) = closing l || closing k.
Proof. apply existsb_app. Qed.

Lemma closes_app l k : closes (l ++ k) = (closes l + closes k)%nat.
Proof. induction l as [| e l IH]; simpl; lia. Qed.

Lemma until_stop_open l : closing l = false -> until_stop l = l.
Proof.
  induction l as [| e l IH]; simpl; [done |]. intros [-> Hl]%orb_false_iff. by rewrite IH.
Qed.

Lemma until_stop_app l k : until_stop (l ++ k) = if closing l then until_stop l else l ++ until_stop k.
Proof.
  induction l as [| e l IH]; simpl; [done |]. destruct (is_stop e); simpl; [done |]. rewrite IH.
  by destruct (closing l).
Qed.

(** ** The invariant *)

Definition pending_close (s : t) : Prop :=
  (closes (completed (log_ s)) < closes (pushed (log_ s)))%nat.

Record good (s : t) : Prop := mk_good {
  good_deferred : Forall (fun e => token_of e = Other /\ is_stop e = false /\ is_close e = false) (deferred_ s);
  good_parted : parted_ s = true -> batched_ s = true;
  good_scan : exists inside, scan false (until_stop (pushed (log_ s))) = Some inside /\
    (closing (pushed (log_ s)) = false ->
      (stopped_ s = false -> inside = parted_ s) /\
      (pending_close s -> inside = false /\ batched_ s = false));
  good_reads : closing (pushed (log_ s)) = false ->
    (closes (pushed (log_ s)) + length (reading_ s) <= S (closes (completed (log_ s))))%nat;
  good_stop : closing (completed (log_ s)) = true -> stopped_ s = true;
  good_started : until_stop (started (log_ s)) = started (log_ s);
  good_websocket : websocket_ s = false
}.

(** What the invariant depends on. *)
Definition same (s s' : t) : Prop :=
  deferred_ s' = deferred_ s /\ parted_ s' = parted_ s /\ batched_ s' = batched_ s /\
  reading_ s' = reading_ s /\ (stopped_ s = true -> stopped_ s' = true) /\ websocket_ s' = websocket_ s /\
  pushed (log_ s') = pushed (log_ s) /\ started (log_ s') = started (log_ s) /\
  completed (log_ s') = completed (log_ s).

Lemma same_good s s' : same s s' -> good s -> good s'.
Proof.
  intros (Hd & Hp & Hb & Hr & Hst & Hw & HP & HS & HC) [G1 G2 (i & Hi & G3) G4 G5 G6 G7].
  split; rewrite ?Hd, ?Hp, ?Hb, ?Hr, ?Hw, ?HP, ?HS, ?HC; auto.
  exists i. split; [done |]. intros Hcl. destruct (G3 Hcl) as [H1 H2]. split.
  - intros Hs'. apply H1. destruct (stopped_ s); [by rewrite Hst in Hs' | done].
  - unfold pending_close in *. by rewrite HP, HC.
Qed.

Lemma log_record e s : match e with Push _ | Start _ | Complete _ => False | _ => True end ->
  pushed (log_ (record e s)) = pushed (log_ s) /\ started (log_ (record e s)) = started (log_ s) /\
  completed (log_ (record e s)) = completed (log_ s).
Proof.
  intros He. pose proof (view_record e s He) as Hv. rewrite !view_queue in Hv. by injection Hv.
Qed.

Lemma record_same e s : match e with Push _ | Start _ | Complete _ => False | _ => True end ->
  same s (record e s).
Proof. intros He. destruct (log_record e s He) as (? & ? & ?). by split_and!. Qed.

Lemma quiet_trans s1 s2 s3 : same s1 s2 -> same s2 s3 -> same s1 s3.
Proof. unfold same. intros. destruct_and!. split_and!; try congruence. auto. Qed.

Lemma log_push e s :
  pushed (log_ (push_back e s)) = pushed (log_ s) ++ [e] /\
  started (log_ (push_back e s)) = started (log_ s) /\
  completed (log_ (push_back e s)) = completed (log_ s).
Proof. pose proof (view_push e s) as Hv. rewrite view_queue in Hv. by injection Hv. Qed.

Lemma log_complete e s :
  pushed (log_ (record (Complete e) s)) = pushed (log_ s) /\
  started (log_ (record (Complete e) s)) = started (log_ s) /\
  completed (log_ (record (Complete e) s)) = completed (log_ s) ++ [e].
Proof. pose proof (view_complete e s) as Hv. rewrite view_queue in Hv. by injection Hv. Qed.

(** A push, with the batch state that its operation sets. *)
Lemma push_good b p e s : good s -> stopped_ s = false -> (p = true -> b = true) ->
  (closing (pushed (log_ s)) = false ->
    scan1 (parted_ s) (token_of e) = Some p /\
    (pending_close s -> p = false /\ b = false) /\
    (is_close e = true -> reading_ s = [] /\ ~ pending_close s /\ p = false /\ b = false)) ->
  good (push_back e (set_parted p (set_batched b s))).
Proof.
  intros [G1 G2 (i & Hi & G3) G4 G5 G6 G7] Hst Hpb He.
  destruct (log_push e (set_parted p (set_batched b s))) as (HP & HS & HC).
  change (log_ (set_parted p (set_batched b s))) with (log_ s) in HP, HS, HC.
  set (s' := push_back _ _) in *.
  destruct (closing (pushed (log_ s))) eqn:Hcl.
  - assert (closing (pushed (log_ s')) = true) as Hcl' by (by rewrite HP, closing_app, Hcl).
    split; rewrite ?HS, ?HC, ?Hcl'; try done.
    exists i. split; [by rewrite HP, until_stop_app, Hcl | done].
  - destruct (He eq_refl) as (Hs1 & Hpe & Hce). destruct (G3 eq_refl) as [Gp Gc]. specialize (Gp Hst). subst i.
    rewrite until_stop_open in Hi by done.
    split; rewrite ?HS, ?HC; try done.
    + exists p. rewrite HP, until_stop_app, Hcl. split.
      { rewrite scan_app, Hi. simpl. by destruct (is_stop e); simpl; rewrite Hs1. }
      intros Hcl'. split; [done |]. unfold pending_close. rewrite HP, HC, closes_app. simpl.
      intros Hlt. destruct (is_close e) eqn:Hc; [by destruct (Hce eq_refl) as (_ & _ & ?) |].
      apply Hpe. unfold pending_close. lia.
    + rewrite HP, closes_app. simpl. intros _. specialize (G4 eq_refl).
      change (reading_ s') with (reading_ s).
      destruct (is_close e) eqn:Hc; [| lia]. destruct (Hce eq_refl) as (Hr & Hn & _). rewrite Hr.
      unfold pending_close in Hn. simpl. lia.
Qed.

(** A write starts when all that were started have completed. *)
Lemma write_good s : good s -> stopped_ s = false -> started (log_ s) = completed (log_ s) -> good (write s).
Proof.
  intros [G1 G2 G3 G4 G5 G6 G7] Hst Hsc. pose proof (view_write s) as Hv.
  destruct (queue_ s) as [| e l] eqn:Hq; [unfold write; rewrite Hq; by split |].
  assert (stopped_ (write s) = stopped_ s /\ pushed (log_ (write s)) = pushed (log_ s) /\
    started (log_ (write s)) = started (log_ s) ++ [e] /\ completed (log_ (write s)) = completed (log_ s))
    as (Hst' & HP & HS & HC) by (rewrite view_queue in Hv; by injection Hv).
  assert (deferred_ (write s) = deferred_ s /\ parted_ (write s) = parted_ s /\
    batched_ (write s) = batched_ s /\ reading_ (write s) = reading_ s /\ websocket_ (write s) = websocket_ s)
    as (Hd & Hp & Hb & Hr & Hw).
  { unfold write. rewrite Hq. cbv zeta. by destruct (issue _ _). }
  split; unfold pending_close; rewrite ?Hd, ?Hp, ?Hb, ?Hr, ?Hw, ?HP, ?HC, ?Hst'; try done.
  rewrite HS, until_stop_app. destruct (closing (started (log_ s))) eqn:Hcl.
  - rewrite Hsc in Hcl. apply G5 in Hcl. congruence.
  - f_equal. simpl. by destruct (is_stop e).
Qed.

#[local] Abbreviation inv v s := (served v (view_of s)).

(** Nothing started is to be completed when nothing is served, or when the
    handler of the front was invoked. *)
Lemma idle_started v s : inv v s -> stopped_ s = false -> v <> Serving ->
  (queue_ s = [] \/ v = Served) -> started (log_ s) = completed (log_ s).
Proof.
  intros [_ H1 _ _ H4 (f & lost & _ & Hs & _ & Ho)] Hst Hv Hq. unfold busy, flying in *. simpl in *.
  destruct Ho as [[_ ->] | [? _]]; [| congruence]. rewrite Hs.
  assert (take ((if in_flight s then 1 else 0) + uncompleted v) (queue_ s) = []) as ->;
    [| by rewrite app_nil_r].
  destruct Hq as [-> | ->]; [by rewrite take_nil |]. simpl in *.
  by destruct (in_flight s); [lia |].
Qed.

Lemma enqueue_good b p e s : inv Free s -> good s -> stopped_ s = false -> (p = true -> b = true) ->
  (closing (pushed (log_ s)) = false ->
    scan1 (parted_ s) (token_of e) = Some p /\
    (pending_close s -> p = false /\ b = false) /\
    (is_close e = true -> reading_ s = [] /\ ~ pending_close s /\ p = false /\ b = false)) ->
  good (enqueue e (set_parted p (set_batched b s))).
Proof.
  intros Hi Hg Hst Hpb He. pose proof (push_good b p e s Hg Hst Hpb He) as Hp. unfold enqueue. cbv zeta.
  change (queue_ (set_parted p (set_batched b s))) with (queue_ s).
  destruct (negb (negb (is_nil (queue_ s)))) eqn:Hn; [| exact Hp].
  apply write_good; [exact Hp | exact Hst |].
  destruct (log_push e (set_parted p (set_batched b s))) as (_ & HS & HC). rewrite HS, HC.
  apply (idle_started Free s Hi Hst); [done |]. left. by destruct (queue_ s).
Qed.

(** An entry that is not a part. *)
Lemma enqueue_other_good e s : inv Free s -> good s -> stopped_ s = false ->
  (token_of e = Other \/ token_of e = Single) -> is_close e = false ->
  (closing (pushed (log_ s)) = false -> batched_ s = false) -> good (enqueue e s).
Proof.
  intros Hi Hg Hst Ht Hc Hb.
  assert (s = set_parted (parted_ s) (set_batched (batched_ s) s)) as Hs by (by destruct s).
  rewrite Hs. apply enqueue_good; try done.
  - apply (good_parted _ Hg).
  - intros Hcl. specialize (Hb Hcl). assert (parted_ s = false) as Hp.
    { destruct (parted_ s) eqn:Hp; [| done]. rewrite (good_parted _ Hg Hp) in Hb. done. }
    rewrite Hp, Hb, Hc. split_and!; [by destruct Ht as [-> | ->] | done | done].
Qed.

(** ** Stop *)

Lemma finish_stop_quiet ec s : same s (finish_stop ec s).
Proof.
  unfold finish_stop, socket_stop, socket_lazy_stop.
  destruct (lazy ec), (stopped_ s) eqn:Hst, (lazy_ s); simpl;
    match goal with
    | |- same s (set_posted _ (record ?e ?x)) =>
      pose proof (log_record e x I) as (? & ? & ?); split_and!; simpl; done
    | _ => split_and!; simpl; done
    end.
Qed.

Lemma socket_stop_quiet s : same s (socket_stop s).
Proof.
  unfold socket_stop. destruct (_ && _) eqn:Hc; [by split_and! |].
  destruct (log_record Socket_stop (set_lazy false (set_stopped true s)) I) as (? & ? & ?).
  by split_and!.
Qed.

Lemma finish_write_good s : inv Served s -> good s -> good (finish_write s).
Proof.
  intros Hi Hg. unfold finish_write. destruct (queue_ s) as [| e rest] eqn:Hq; [done |].
  cbv zeta. set (s' := set_queue rest _). assert (good s') as Hg' by (eapply same_good; [| exact Hg]; by split_and!).
  destruct (negb (stopped_ s')) eqn:Hst; [| done]. apply negb_true_iff in Hst.
  apply write_good; [done | done |]. apply (idle_started Served s Hi); [done | done | by right].
Qed.
Section operations.
Context (config_ : config).

(** Whatever the channel was doing, closing leaves no batch open. *)
Lemma queue_close_good h s : inv Free s -> good s ->
  (closing (pushed (log_ s)) = false -> stopped_ s = false -> parted_ s = true) ->
  (is_close (mk_pending 0 (do_response_write close_part) h) = true ->
    closing (pushed (log_ s)) = false -> reading_ s = [] /\ ~ pending_close s) ->
  good (queue_close h s).
Proof.
  intros Hi Hg Hp Hh. unfold queue_close. cbv zeta. unfold do_solicited_write.
  change (stopped_ (set_parted false (set_batched false s))) with (stopped_ s).
  destruct (stopped_ s) eqn:Hst.
  - destruct Hg as [G1 G2 (i & Hsc & G3) G4 G5 G6 G7]. split; try done.
    exists i. split; [done |]. intros Hcl. destruct (G3 Hcl) as [_ Hpe]. split; [simpl; congruence |].
    intros Hx. split; [by apply Hpe | done].
  - set (e := mk_pending _ _ _). apply enqueue_good; try done. intros Hcl.
    assert (token_of e = Close) as ->
      by (unfold e, token_of; simpl; change (parser_ (set_parted false (set_batched false s)))
            with (parser_ s); by destruct (parser_ s)).
    rewrite (Hp Hcl eq_refl). split_and!; [done | done |]. intros Hc.
    destruct (Hh Hc Hcl) as [? ?]. by split_and!.
Qed.

Lemma stop_good stranded ec s : inv Free s -> good s -> good (stop config_ stranded ec s).
Proof.
  intros Hi Hg. unfold stop. destruct (stopped_ s) eqn:Hst; [exact (same_good _ _ (socket_stop_quiet s) Hg) |].
  destruct (stranded && batched_ s && parted_ s) eqn:Hc; [| exact (same_good _ _ (finish_stop_quiet ec s) Hg)].
  apply andb_true_iff in Hc as [_ Hp]. unfold do_stop. destruct (negb _).
  - apply queue_close_good; [by rewrite view_record | exact (same_good _ _ (record_same Throttle_stop s I) Hg) | done | done].
  - by apply queue_close_good.
Qed.

Lemma refuse_same h ec bytes s : refusable h -> same s (invoke_handler h ec bytes Nothing s).
Proof.
  destruct h; try done; intros _; simpl.
  destruct (log_record (Invoke id ec bytes) s I) as (? & ? & ?). by split_and!.
Qed.

Lemma charge_good e s : refusable (complete e) -> inv Free s -> good s ->
  let '(e', charged, s') := charge config_ e s in
  call e' = call e /\ complete e' = complete e /\ good s' /\
  (charged = true -> inv Free s' /\ stopped_ s' = stopped_ s /\ batched_ s' = batched_ s /\
    pushed (log_ s') = pushed (log_ s)).
Proof.
  intros Hh Hi Hg. unfold charge. cbv zeta. destruct (_ && _).
  - destruct (zeromq_ config_); (split_and!; [done | done | | done]).
    + exact (same_good _ _ (refuse_same _ _ _ _ Hh) Hg).
    + by apply stop_good.
  - split_and!; [done | done | | intros _; split_and!; try done; exact Hi]. eapply same_good; [| exact Hg]. by split_and!.
Qed.

Lemma refusable_plain e : refusable (complete e) -> is_stop e = false /\ is_close e = false.
Proof. unfold is_stop, is_close. by destruct (complete e). Qed.

(** A write that is not a part of a batch, made while none is open. *)
Lemma do_write_good e notification s : refusable (complete e) -> inv Free s -> good s ->
  (token_of e = Other \/ token_of e = Single) ->
  (closing (pushed (log_ s)) = false -> batched_ s = false) -> good (do_write config_ e notification s).
Proof.
  intros Hh Hi Hg Ht Hb. unfold do_write. destruct (stopped_ s) eqn:Hst; [done |].
  assert (forall e', call e' = call e -> complete e' = complete e ->
    (token_of e' = Other \/ token_of e' = Single) /\ is_close e' = false) as He.
  { intros e' Hc Hd. unfold token_of. rewrite Hc. split; [exact Ht |].
    apply (refusable_plain e'). by rewrite Hd. }
  destruct notification.
  - pose proof (charge_good e s Hh Hi Hg) as Hc.
    destruct (charge config_ e s) as [[e' []] s']; destruct Hc as (H1 & H2 & Hg' & Hs'); simpl; [| done].
    destruct (Hs' eq_refl) as (Hi' & Hst' & Hb' & Hp'). destruct (He e' H1 H2).
    apply enqueue_other_good; try done; [congruence |]. rewrite Hp', Hb'. done.
  - destruct (He (mk_pending 0 (call e) (complete e)) eq_refl eq_refl). by apply enqueue_other_good.
Qed.

Lemma do_defer_write_good e s : refusable (complete e) -> inv Free s -> good s ->
  token_of e = Other -> good (do_defer_write config_ e s).
Proof.
  intros Hh Hi Hg Ht. unfold do_defer_write. destruct (batched_ s) eqn:Hb.
  - pose proof (charge_good e s Hh Hi Hg) as Hc.
    destruct (charge config_ e s) as [[e' []] s']; destruct Hc as (H1 & H2 & Hg' & _); [| done].
    destruct Hg' as [G1 G2 G3 G4 G5 G6 G7]. split; try done. simpl. apply Forall_app. split; [done |].
    apply Forall_singleton. unfold token_of. rewrite H1. split; [exact Ht |].
    apply refusable_plain. by rewrite H2.
  - apply do_write_good; [done | done | done | by left | done].
Qed.

(** A part of the open batch, or an unstamped response. *)
Definition unstamped (m : response) : Prop := batch m = false /\ changed m = false.

Lemma part_good w id s : inv Free s -> good s -> batched_ s = true ->
  token_of (mk_pending 0 w (client id)) = (if parted_ s then Part else Open) ->
  good (if stopped_ s then set_parted true s else enqueue (mk_pending 0 w (client id)) (set_parted true s)).
Proof.
  intros Hi Hg Hb Ht. destruct (stopped_ s) eqn:Hst.
  - destruct Hg as [G1 G2 (i & Hsc & G3) G4 G5 G6 G7]. split; try done. exists i. split; [done |].
    intros Hcl. destruct (G3 Hcl) as [_ Hpe]. split; [simpl; congruence | exact Hpe].
  - assert (set_parted true s = set_parted true (set_batched true s)) as ->.
    { unfold set_parted, set_batched. simpl. by rewrite Hb. }
    apply enqueue_good; try done. intros Hcl. rewrite Ht. split_and!; [by destruct (parted_ s) | | done].
    intros Hx. destruct (good_scan _ Hg) as (i & _ & Hsc). destruct (Hsc Hcl) as [_ Hp].
    destruct (Hp Hx). congruence.
Qed.

Lemma write_response_good m id s : unstamped m -> inv Free s -> good s ->
  good (write_response config_ m (client id) s).
Proof.
  intros [Hb Hc] Hi Hg. unfold write_response, do_response_queue, to_response_estimate. cbv zeta.
  destruct (batched_ s) eqn:Hba.
  - unfold do_write. change (stopped_ (set_parted true s)) with (stopped_ s). apply part_good; try done.
    unfold token_of. simpl. unfold part_token. simpl. by destruct (parted_ s).
  - apply do_write_good; try done. right. unfold token_of. simpl. unfold part_token. simpl. by rewrite Hb, Hc.
Qed.

Lemma notify_request_good m id s : inv Free s -> good s -> good (notify_request config_ m (client id) s).
Proof.
  intros Hi Hg. unfold notify_request, to_request_estimate. cbv zeta. by apply do_defer_write_good.
Qed.

(** A response is stamped, and is not a notification. *)
Definition http_ok (content : body) (bounded : bool) : Prop :=
  match content with response_body m => unstamped m /\ bounded = false | _ => True end.

Lemma write_http_good content id bounded s : http_ok content bounded -> inv Free s -> good s ->
  good (write_http config_ content (client id) bounded s).
Proof.
  intros Hk Hi Hg. assert (forall c, good (invoke_handler (client id) c 0 Nothing s)) as Hr.
  { intros c. exact (same_good _ _ (refuse_same (client id) c 0 s I) Hg). }
  unfold write_http, do_http_queue. destruct (downgraded_ s).
  { destruct content; try apply Hr; [by apply notify_request_good |]. destruct Hk. by apply write_response_good. }
  rewrite (good_websocket _ Hg), andb_true_r. destruct (batched_ s) eqn:Hba.
  - destruct content as [ | |m| | | | | | |]; try apply Hr. destruct Hk as [_ ->].
    unfold to_cost, to_response_estimate. cbv zeta. unfold do_write.
    change (stopped_ (set_parted true s)) with (stopped_ s). apply part_good; try done.
    unfold token_of. simpl. unfold part_token. simpl. by destruct (parted_ s).
  - destruct (to_cost content) as [size c] eqn:Hc. apply do_write_good; try done.
    unfold token_of. simpl. destruct content as [ |r|m| | | | | | |]; simpl in Hc; simplify_eq; try by left.
    right. destruct Hk as [[Hb Hch] _]. unfold part_token. simpl. by rewrite Hb, Hch.
Qed.

(** ** Completions *)

(** The front in service is started and not completed. *)
Lemma serving_front e l s : inv Serving s -> queue_ s = e :: l -> exists rest,
  pushed (log_ s) = completed (log_ s) ++ e :: rest.
Proof.
  intros [_ H1 _ _ _ (f & lost & Hp & Hs & _ & Ho)] Hq. unfold busy, flying in *. simpl in *. rewrite Hq in *.
  destruct Ho as [[-> ->] | [_ ?]]; [| done].
  assert (in_flight s = false) as Hf by (destruct (in_flight s); [lia | done]). rewrite Hf in *. simpl in *.
  rewrite Hs, <- app_assoc in Hp. rewrite Hp. by eexists.
Qed.

Lemma complete_good e s : (is_stop e = true -> stopped_ s = true) -> good s -> good (record (Complete e) s).
Proof.
  intros He [G1 G2 (i & Hsc & G3) G4 G5 G6 G7]. destruct (log_complete e s) as (HP & HS & HC).
  split; unfold pending_close in *; rewrite ?HP, ?HS, ?HC, ?closes_app; try done.
  - exists i. split; [done |]. intros Hcl. destruct (G3 Hcl) as [H1 H2]. split; [done |].
    intros Hlt. apply H2. lia.
  - intros Hcl. specialize (G4 Hcl). simpl in *. lia.
  - rewrite closing_app. simpl. rewrite orb_false_r. intros [? | ?]%orb_true_iff; [by apply G5 | by apply He].
Qed.

(** After the close of a batch completes nothing is open or read. *)
Record quiet (s : t) : Prop := mk_quiet {
  quiet_good : good s;
  quiet_scan : closing (pushed (log_ s)) = false -> scan false (pushed (log_ s)) = Some false /\
    parted_ s = false /\ batched_ s = false /\ reading_ s = [] /\
    (closes (pushed (log_ s)) <= closes (completed (log_ s)))%nat
}.

Lemma close_quiet e l s : inv Serving s -> good s -> queue_ s = e :: l -> is_close e = true ->
  quiet (record (Complete e) s).
Proof.
  intros Hi Hg Hq He. destruct (serving_front e l s Hi Hq) as [rest Hp].
  assert (is_stop e = false) as Hns by (unfold is_stop, is_close in *; by destruct (complete e)).
  split; [by apply complete_good; [congruence |] |]. destruct (log_complete e s) as (HP & _ & HC).
  rewrite HP, HC. intros Hcl. destruct Hg as [G1 G2 (i & Hsc & G3) G4 G5 G6 G7].
  destruct (G3 Hcl) as [_ Hpe]. specialize (G4 Hcl). rewrite until_stop_open in Hsc by done.
  assert (pending_close s) as Hx by (unfold pending_close; rewrite Hp, closes_app; simpl; rewrite He; lia).
  destruct (Hpe Hx) as [-> Hb]. rewrite closes_app. simpl. rewrite He. unfold pending_close in Hx.
  split_and!; [done | | done | | lia].
  - simpl. destruct (parted_ s) eqn:Hpa; [| done]. by rewrite G2 in Hb.
  - simpl. destruct (reading_ s); [done |]. simpl in G4. lia.
Qed.

Lemma drain_quiet l s : quiet s ->
  Forall (fun e => token_of e = Other /\ is_stop e = false /\ is_close e = false) l -> quiet (drain l s).
Proof.
  intros Hs Hl. revert s Hs. induction Hl as [| e l (Ht & Hst & Hc) Hl IH]; intros s [Hg Hq]; [done |].
  simpl. apply IH. destruct (log_push e s) as (HP & HS & HC).
  assert (closing (pushed (log_ (push_back e s))) = closing (pushed (log_ s))) as Hcl
    by (rewrite HP, closing_app; simpl; by rewrite Hst, !orb_false_r).
  assert (closes (pushed (log_ (push_back e s))) = closes (pushed (log_ s))) as Hcs
    by (rewrite HP, closes_app; simpl; rewrite Hc; lia).
  assert (closing (pushed (log_ s)) = false -> scan false (pushed (log_ s) ++ [e]) = Some false) as Hsc.
  { intros Hx. destruct (Hq Hx) as (Hsc & _). rewrite scan_app, Hsc. simpl. by rewrite Ht. }
  split; [| rewrite Hcl, Hcs, HC, HP; intros Hx; destruct (Hq Hx) as (_ & ?); by split; [apply Hsc |]].
  destruct Hg as [G1 G2 (i & Hi & G3) G4 G5 G6 G7].
  split; unfold pending_close; rewrite ?Hcl, ?Hcs, ?HS, ?HC; try done.
  destruct (closing (pushed (log_ s))) eqn:Hx.
  - exists i. split; [by rewrite HP, until_stop_app, Hx | done].
  - destruct (Hq eq_refl) as (_ & Hpa & Hb & _). exists false. rewrite HP, until_stop_app, Hx. simpl.
    rewrite Hst. split; [by apply Hsc | done].
Qed.

Lemma start_read_good o id s : good s ->
  (closing (pushed (log_ s)) = false ->
    closes (pushed (log_ s)) + length (reading_ s) <= closes (completed (log_ s)))%nat ->
  good (start_read o id s).
Proof.
  intros [G1 G2 G3 G4 G5 G6 G7] Hr. destruct (log_record (Read o) s I) as (HP & HS & HC).
  unfold start_read. set (s' := set_reading _ _).
  change (log_ (record (Read o) s)) with (log_ s') in HP, HS, HC.
  split; unfold pending_close; rewrite ?HP, ?HS, ?HC; try done.
  intros Hcl. specialize (Hr Hcl). simpl. rewrite length_app. simpl. lia.
Qed.

Lemma quiet_read o id s : quiet s -> good (start_read o id s).
Proof.
  intros [Hg Hq]. apply start_read_good; [done |]. intros Hcl. destruct (Hq Hcl) as (_ & _ & _ & -> & ?).
  simpl. lia.
Qed.

Lemma invoke_same id ec bytes k s : same s (invoke id ec bytes k s).
Proof. destruct (log_record (Invoke id ec bytes) s I) as (? & ? & ?). by split_and!. Qed.

Lemma handle_write_good ec bytes s : inv Serving s -> good s -> good (handle_write ec bytes s).
Proof.
  intros Hi Hg. unfold handle_write. destruct (queue_ s) as [| e l] eqn:Hq; [done |].
  set (s1 := record (Complete e) s).
  assert (inv Served s1) as Hi1.
  { unfold s1. rewrite view_complete, Hq. apply served_complete. by rewrite view_queue, Hq in Hi. }
  assert (is_stop e = false -> good s1) as Hg1 by (intros Hx; apply complete_good; [congruence | done]).
  assert (forall id c, is_stop e = false -> good (invoke id c bytes Finish_write s1)) as Hinv.
  { intros id c Hx. exact (same_good _ _ (invoke_same id c bytes Finish_write s1) (Hg1 Hx)). }
  unfold is_stop in *. destruct (complete e) as [id | reason | id | id |] eqn:Hc; simpl.
  - by apply Hinv.
  - apply finish_write_good; [by apply finish_stop_inv |].
    assert (good (record (Complete e) (finish_stop reason s))) as Hx.
    { apply complete_good; [| exact (same_good _ _ (finish_stop_quiet reason s) Hg)].
      intros _. unfold finish_stop, socket_stop, socket_lazy_stop.
      by destruct (lazy reason), (stopped_ s) eqn:?, (lazy_ s). }
    eapply same_good; [| exact Hx].
    destruct (finish_stop_quiet reason s) as (A1 & A2 & A3 & A4 & _ & A6 & A7 & A8 & A9).
    destruct (finish_stop_quiet reason s1) as (B1 & B2 & B3 & B4 & _ & B6 & B7 & B8 & B9).
    destruct (log_complete e s) as (C1 & C2 & C3). destruct (log_complete e (finish_stop reason s)) as (D1 & D2 & D3).
    unfold same. rewrite B1, B2, B3, B4, B6, B7, B8, B9, D1, D2, D3, A7, A8, A9. unfold s1. rewrite C1, C2, C3.
    change (deferred_ (record (Complete e) (finish_stop reason s))) with (deferred_ (finish_stop reason s)).
    change (parted_ (record (Complete e) (finish_stop reason s))) with (parted_ (finish_stop reason s)).
    change (batched_ (record (Complete e) (finish_stop reason s))) with (batched_ (finish_stop reason s)).
    change (reading_ (record (Complete e) (finish_stop reason s))) with (reading_ (finish_stop reason s)).
    change (websocket_ (record (Complete e) (finish_stop reason s))) with (websocket_ (finish_stop reason s)).
    rewrite A1, A2, A3, A4, A6. split_and!; try done. intros _.
    unfold finish_stop, socket_stop, socket_lazy_stop. simpl.
    by destruct (lazy reason), (stopped_ s) eqn:?, (lazy_ s).
  - destruct (failed ec); [by apply Hinv |].
    assert (queue_ s1 <> []) as Hq1 by (change (queue_ s1) with (queue_ s); by rewrite Hq).
    apply finish_write_good; [by apply drain_deferred_inv |]. unfold drain_deferred. cbv zeta.
    change (queue_ s1) with (queue_ s). rewrite Hq. simpl.
    assert (quiet s1) as Hqu by (by eapply close_quiet; [| | | unfold is_close; rewrite Hc]).
    pose proof (drain_quiet (deferred_ s1) s1 Hqu (good_deferred _ (quiet_good _ Hqu))) as [Hd Hdq].
    apply quiet_read. split; [| exact Hdq]. destruct Hd as [G1 G2 G3 G4 G5 G6 G7]. by split.
  - assert (quiet s1) as Hqu by (by eapply close_quiet; [| | | unfold is_close; rewrite Hc]).
    destruct (negb _); [by apply Hinv |]. destruct (failed ec).
    + assert (same s1 (invoke id ec bytes Finish_write (set_parser false s1))) as Hx.
      { destruct (log_record (Invoke id ec bytes) (set_parser false s1) I) as (? & ? & ?). by split_and!. }
      exact (same_good _ _ Hx (Hg1 eq_refl)).
    + apply finish_write_good; [by apply start_read_inv | by apply quiet_read].
  - apply finish_write_good; [done | by apply Hg1].
Qed.

Lemma handle_completion_good k ec bytes s : inv Serving s -> good s -> good (handle_completion k ec bytes s).
Proof.
  intros Hi Hg. destruct k as [| part]; simpl; [by apply handle_write_good |].
  unfold handle_http_header_write. destruct (failed ec); [by apply handle_write_good |].
  eapply same_good; [| exact Hg].
  destruct (log_record (Operation (rpc_write_chunk part)) s I) as (? & ? & ?). by split_and!.
Qed.

(** ** Reads *)

(** A read that completed leaves none, and no close is being written. *)
Definition slack (s : t) : Prop :=
  closing (pushed (log_ s)) = false -> reading_ s = [] /\ closes (pushed (log_ s)) = closes (completed (log_ s)).

Lemma slack_read o id s : good s -> slack s -> good (start_read o id s).
Proof.
  intros Hg Hs. apply start_read_good; [done |]. intros Hcl. destruct (Hs Hcl) as [-> ->]. simpl. lia.
Qed.

Lemma slack_pending s : slack s -> closing (pushed (log_ s)) = false -> ~ pending_close s.
Proof. intros Hs Hcl. destruct (Hs Hcl) as [_ Hc]. unfold pending_close. lia. Qed.

Lemma completed_pushed s : inv Free s ->
  (closes (completed (log_ s)) <= closes (pushed (log_ s)))%nat.
Proof.
  intros [_ _ _ _ _ (f & lost & Hp & Hs & _)]. simpl in *. rewrite Hp, Hs, !closes_app. lia.
Qed.

Lemma read_slack i r s : inv Free s -> good s -> reading_ s !! i = Some r ->
  good (set_reading (delete i (reading_ s)) s) /\ slack (set_reading (delete i (reading_ s)) s).
Proof.
  intros Hi Hg Hr. pose proof (completed_pushed s Hi) as Hcp.
  assert (length (reading_ s) = S (length (delete i (reading_ s)))) as Hl.
  { rewrite length_delete by by eexists. apply lookup_lt_Some in Hr. lia. }
  destruct Hg as [G1 G2 G3 G4 G5 G6 G7]. split.
  - split; try done. simpl. intros Hcl. specialize (G4 Hcl). lia.
  - intros Hcl. simpl in *. specialize (G4 Hcl). split; [| lia]. apply nil_length_inv. lia.
Qed.

Lemma set_batched_good s : good s -> slack s -> good (set_batched true s).
Proof.
  intros [G1 G2 (i & Hsc & G3) G4 G5 G6 G7] Hs. split; try done. exists i. split; [done |].
  intros Hcl. destruct (G3 Hcl) as [Hp _]. split; [done |].
  intros Hx. by apply (slack_pending s Hs Hcl) in Hx.
Qed.

Hypothesis not_zeromq : zeromq_ config_ = false.

(** A read that gives the close of a batch, not absorbed before. *)
Definition absorbs_close (r : read) (x : result) (s : t) : bool :=
  match result_value x with
  | Some v => batch_close v &&
    match read_operation r with
    | rpc_read _ => negb (failed (result_code x))
    | http_read_body | http_read_some => parser_ s && bool_decide (result_code x = error.need_buffer)
    | _ => false
    end
  | None => false
  end.

(** A batch is answered before its close is read, or the channel is closing. *)
Definition answered (s : t) : Prop := parted_ s = true \/ closing (pushed (log_ s)) = true.

Lemma read_close_good h s : inv Free s -> good s -> slack s -> answered s -> good (queue_close h s).
Proof.
  intros Hi Hg Hs Ha. apply queue_close_good; [done | done | |].
  - intros Hcl _. destruct Ha; [done | congruence].
  - intros _ Hcl. split; [apply (Hs Hcl) | by apply slack_pending].
Qed.

Lemma handle_read_good r x s : inv Free s -> good s -> slack s ->
  (absorbs_close r x s = true -> answered s) -> good (handle_read config_ r x s).
Proof.
  intros Hi Hg Hs Ha.
  assert (forall id ec s', same s s' -> good (invoke id ec (result_bytes x) Nothing s')) as Hinv.
  { intros id ec s' Hx. exact (same_good _ _ (quiet_trans _ _ _ Hx (invoke_same id ec _ _ s')) Hg). }
  assert (forall o id s', good s' -> slack s' -> good (start_read o id s')) as Hread by exact slack_read.
  assert (forall s', same s s' -> good s') as Hsame by (intros s' Hx; exact (same_good _ _ Hx Hg)).
  assert (forall v id ec s', same s s' -> slack s' ->
    good (invoke id ec (result_bytes x) Nothing (if batch_open v then set_batched true s' else s'))) as Hopen.
  { intros v id ec s' Hx Hsl. destruct (batch_open v); [| by apply Hinv].
    exact (same_good _ _ (invoke_same id ec _ _ _) (set_batched_good s' (Hsame _ Hx) Hsl)). }
  assert (forall v h s', same s s' -> inv Free s' -> slack s' -> answered s' ->
    good (queue_close h (if batch_open v then set_batched true s' else s'))) as Hclose.
  { intros v h s' Hx Hi' Hsl Han. destruct (batch_open v); apply read_close_good; try done; auto.
    by apply set_batched_good; [apply Hsame |]. }
  assert ((forall v, result_value x = Some v -> batch_close v = true -> parser_ s = true ->
      result_code x = error.need_buffer -> answered s) ->
    good (handle_http_body (result_code x) (result_bytes x) (result_value x) (result_done x)
      (read_handler r) s)) as Hbody.
  { intros Hb. unfold handle_http_body. cbv zeta. change (parser_ (count_received _ s)) with (parser_ s).
    destruct (parser_ s); simpl; [| by apply Hinv]. destruct (result_value x) as [v |].
    - case_bool_decide as Hn.
      { unfold handle_http_element. destruct (batch_close v) eqn:Hc; [| by apply Hopen].
        apply Hclose; try done. by apply (Hb v). }
      destruct (failed _); [by apply Hinv |].
      destruct (negb _); [apply Hread; [by apply Hsame | done] |].
      destruct (batch_close v); [apply Hread; [by apply Hsame | done] | by apply Hinv].
    - destruct (failed _); [by apply Hinv |].
      destruct (negb _); [apply Hread; [by apply Hsame | done] | by apply Hinv]. }
  unfold handle_read, absorbs_close in *. destruct (read_operation r) eqn:Hop; try (by apply Hinv).
  - unfold handle_rpc_read. cbv zeta. rewrite not_zeromq. destruct (failed (result_code x)); [by apply Hinv |].
    destruct (result_value x) as [v |]; simpl in *; [| by apply (Hopen no_value)].
    destruct (batch_close v); [by apply Hclose; [| | | apply Ha] | by apply Hopen].
  - unfold handle_detect. destruct (failed _); [by apply Hinv |].
    destruct (downgraded_ _); apply Hread; try done; by apply Hsame.
  - unfold handle_http_header. cbv zeta. destruct (negb _); [by apply Hinv |].
    destruct (failed _); [by apply Hinv | apply Hread; [by apply Hsame | done]].
  - apply Hbody. intros v Hv Hc Hp Hn. apply Ha. by rewrite Hv, Hc, Hp, Hn.
  - apply Hbody. intros v Hv Hc Hp Hn. apply Ha. by rewrite Hv, Hc, Hp, Hn.
Qed.

(** ** Moves *)

(** What the client of a json-rpc channel does: it writes responses, which the
    proxy stamps, notifies, and has one read at a time. *)
Definition client_ok (m : move) (s : t) : Prop :=
  match m with
  | Write_ws _ _ _ | Write_tcp _ _ | Write_peer _ _ _ | Accept_websocket => False
  | Write_response m _ => unstamped m
  | Write_http content _ bounded => http_ok content bounded
  | Read_ws _ | Read_tcp _ | Read_peer _ | Read_rpc _ | Read_http _ _ => slack s
  | Read_done i x => forall r, reading_ s !! i = Some r -> absorbs_close r x s = true -> answered s
  | _ => True
  end.

Fixpoint disciplined (l : list move) (s : t) : Prop :=
  match l with
  | [] => True
  | m :: l => client_ok m s /\
    match step config_ m s with Some s => disciplined l s | None => True end
  end.

Lemma notify_all_quiet (calls : list (nat * (code * unit))) s :
  same s (fold_left (fun s c => record (Stop_notify c.1 c.2.1) s) calls s).
Proof.
  revert s. induction calls as [| c calls IH]; intros s; [by split_and! |]. simpl.
  eapply quiet_trans; [by apply (record_same (Stop_notify c.1 c.2.1)) | apply IH].
Qed.

Lemma stopping_good ec s : good s -> good (stopping config_ ec s).
Proof.
  intros Hg. unfold stopping. cbv zeta. set (s1 := if negb (rate_limit_ config_ =? 0) then _ else s).
  assert (good s1) as Hg1.
  { unfold s1. destruct (negb _); [| done]. exact (same_good _ _ (record_same Throttle_stop s I) Hg). }
  destruct (subscriber.stop _ _ _) as [sub calls]. eapply same_good; [apply notify_all_quiet |].
  destruct Hg1 as [G1 G2 G3 G4 G5 G6 G7]. by split.
Qed.

Lemma move_good m s s' : client_ok m s -> inv Free s -> good s -> step config_ m s = Some s' -> good s'.
Proof.
  intros Hm Hi Hg. destruct m; simpl in *; intros He; simplify_eq; try done; try (by apply slack_read).
  - by apply write_response_good.
  - by apply notify_request_good.
  - by apply write_http_good.
  - unfold read_http. rewrite (good_websocket _ Hg). destruct (downgraded_ s); [by apply slack_read |].
    destruct (_ && _); [by apply slack_read |]. destruct (parser_ s); apply slack_read; try done.
    eapply same_good; [| exact Hg]. by split_and!.
  - unfold subscribe_stop. destruct (stopped_ s).
    { eapply same_good; [| exact Hg]. eapply quiet_trans; [| by apply record_same]. by apply record_same. }
    match goal with |- context [subscriber.subscribe ?a ?b ?c] =>
      destruct (subscriber.subscribe a b c) as [[sub calls] code] end.
    eapply same_good; [by apply record_same |]. eapply same_good; [apply notify_all_quiet |].
    eapply same_good; [| exact Hg]. by split_and!.
  - by apply stop_good.
  - destruct (frames_ s) as [| [] rest] eqn:Hfr; simplify_eq; simpl.
    + eapply same_good; [| exact Hg]. by split_and!.
    + apply finish_write_good.
      * rewrite view_queue in *. rewrite Hfr in Hi. exact (served_return _ _ _ _ _ _ _ _ Hi).
      * eapply same_good; [| exact Hg]. by split_and!.
  - destruct (flight_ s) as [[k |] |] eqn:Hf; simplify_eq. unfold handle_metered. cbv zeta.
    set (s1 := set_flight None _). assert (inv Serving s1) as Hs1 by exact (land_inv s _ Hf Hi).
    assert (good s1) as Hg1 by (eapply same_good; [| exact Hg]; by split_and!).
    destruct (_ =? 0); [by apply handle_completion_good |].
    destruct (log_record (Throttle_start (unconsumed config_ bytes consumed s1)) s1 I) as (? & ? & ?).
    eapply same_good; [| exact Hg1]. by split_and!.
  - destruct (flight_ s) as [[| k ec bytes] |] eqn:Hf; try done. destruct (frames_ s); simplify_eq.
    apply handle_completion_good; [by eapply land_inv |]. eapply same_good; [| exact Hg]. by split_and!.
  - destruct (reading_ s !! i) as [r |] eqn:Hr; simplify_eq.
    destruct (read_slack i r s Hi Hg Hr) as [Hg' Hs']. apply handle_read_good; [exact Hi | done | done |]. intros Hx. by apply (Hm r).
  - destruct (posted_ s) as [| ec rest]; [done |]. destruct (frames_ s); simplify_eq.
    apply stopping_good. eapply same_good; [| exact Hg]. by split_and!.
Qed.

Lemma run_good l s s' : disciplined l s -> inv Free s -> good s -> run config_ l s = Some s' -> good s'.
Proof.
  revert s. induction l as [| m l IH]; intros s Hd Hi Hg He; simpl in *; [by simplify_eq |].
  destruct Hd as [Hm Hd]. destruct (step config_ m s) as [s1 |] eqn:Hs; [| done].
  eapply IH; [done | by eapply move_inv | by eapply move_good | done].
Qed.

Lemma init_good : good proxy.init.
Proof. split; try done; [by exists false | simpl; lia]. Qed.

Lemma scan_prefix i l k : scan i (l ++ k) <> None -> scan i l <> None.
Proof. rewrite scan_app. by destruct (scan i l). Qed.

(** The stop of a channel whose batch is open and has a part: the close part is
    queued, as the last of the writes, and the channel is not stopped before it. *)
Lemma stop_closes ec s : good s -> stopped_ s = false -> batched_ s = true -> parted_ s = true -> closing (pushed (log_ s)) = false ->
  let s' := stop config_ true ec s in
  stopped_ s' = false /\ (exists e, pushed (log_ s') = pushed (log_ s) ++ [e] /\ token_of e = Close /\ complete e = handle_stop_write ec) /\
  scan false (pushed (log_ s')) = Some false.
Proof.
  intros Hg Hst Hb Hp Hc. cbv zeta. destruct (good_scan _ Hg) as (i & Hsc & Hin). destruct (Hin Hc) as [Hi _]. specialize (Hi Hst). rewrite until_stop_open in Hsc by done.
  unfold stop, do_stop. rewrite Hst, Hb, Hp. cbn [andb]. set (s1 := if negb _ then _ else s).
  assert (stopped_ s1 = false /\ pushed (log_ s1) = pushed (log_ s)) as [Hst1 HP1].
  { unfold s1. destruct (negb _); [| done]. destruct (log_record Throttle_stop s I) as (HP & _ & _). by split. }
  unfold queue_close, do_solicited_write. cbv zeta. change (stopped_ (set_parted false (set_batched false s1))) with (stopped_ s1). rewrite Hst1.
  set (e := mk_pending 0 _ _). set (s2 := set_parted false (set_batched false s1)).
  assert (token_of e = Close) as Ht by (unfold e, token_of; simpl; by destruct (parser_ _)).
  assert (stopped_ (enqueue e s2) = false /\ pushed (log_ (enqueue e s2)) = pushed (log_ s) ++ [e]) as [Hs HP].
  { destruct (log_push e s2) as (HP2 & _ & _). change (log_ s2) with (log_ s1) in HP2. rewrite HP1 in HP2. unfold enqueue. cbv zeta. destruct (negb (negb _)); [| by split].
    pose proof (view_write (push_back e s2)) as Hv. destruct (queue_ (push_back e s2)) as [| x l] eqn:Hq; [unfold write; rewrite Hq; by split |].
    assert (stopped_ (write (push_back e s2)) = stopped_ (push_back e s2) /\ pushed (log_ (write (push_back e s2))) = pushed (log_ (push_back e s2))) as [-> ->]
      by (rewrite view_queue in Hv; by injection Hv). by split. }
  split; [exact Hs |]. split; [by exists e |]. rewrite HP, scan_app, Hsc, Hi, Hp. simpl. by rewrite Ht.
Qed.

(** C33: json-rpc batches are bracketed on the wire.  On a tcp or http channel
    whose client keeps one read outstanding and answers a batch before its
    close is read, the writes that are started are single responses and
    notifications, and batches: an open part, further parts, and a close, with
    no single response and no notification in between, also if the channel is
    stopped.  And when a channel that no stop is closing yet is stopped (on its
    strand) with a batch open that has a part, the close of that batch is queued
    as the last of its writes, with which what is written is a series of
    complete batches, and the channel is not stopped before that close is
    written, which is what completes the stop. *)
Theorem batches_bracketed l s : disciplined l proxy.init -> run config_ l proxy.init = Some s ->
  scan false (started (log_ s)) <> None /\
  forall ec, stopped_ s = false -> batched_ s = true -> parted_ s = true -> closing (pushed (log_ s)) = false ->
    let s' := stop config_ true ec s in
    stopped_ s' = false /\ (exists e, pushed (log_ s') = pushed (log_ s) ++ [e] /\ token_of e = Close /\ complete e = handle_stop_write ec) /\
    scan false (pushed (log_ s')) = Some false.
Proof.
  intros Hd Hr. pose proof (run_good _ _ _ Hd init_inv init_good Hr) as Hg. split; [| intros ec; by apply stop_closes].
  pose proof (moves_inv _ _ _ _ init_inv Hr) as Hi.
  destruct (served_order _ _ Hi) as (f & lost & Hp & _). simpl in Hp.
  destruct (good_scan _ Hg) as (i & Hsc & _). rewrite Hp, until_stop_app in Hsc.
  pose proof (good_started _ Hg) as Hst. destruct (closing (started (log_ s))).
  - rewrite Hst in Hsc. by rewrite Hsc.
  - apply (scan_prefix false _ (until_stop (drop (busy Free (view_of s)) (queue_ s) ++ lost))). by rewrite Hsc.
Qed.
End operations.
End proxy_batch.

Import proxy_batch.

(** A batch is open with a part, and the channel stops. *)
Definition open_moves : list proxy.move := take 6 proxy_example.moves.

Lemma batches_bracketed_witness :
  let s := proxy_example.after open_moves in
  let s' := proxy.stop proxy_example.config true error.channel_dropped s in
  scan false (proxy_queue.started (proxy.log_ s)) <> None /\
  proxy.stopped_ s' = false /\
  (exists e, proxy_queue.pushed (proxy.log_ s') = proxy_queue.pushed (proxy.log_ s) ++ [e] /\ token_of e = Close /\ proxy.complete e = proxy.handle_stop_write error.channel_dropped) /\
  scan false (proxy_queue.pushed (proxy.log_ s')) = Some false.
Proof.
  cbv zeta. destruct (batches_bracketed proxy_example.config eq_refl open_moves (proxy_example.after open_moves)) as [Hscan Hstop].
  - vm_compute. repeat split; intros; simplify_eq; auto.
  - by vm_compute.
  - split; [exact Hscan |]. apply Hstop; by vm_compute.
Defined.
