(* ===== verification/HttpEnums.v ===== *)
(** * HttpEnums: the field names, verbs and status codes of http

    Models [include/bitcoin/network/messages/http/enums] and
    [src/messages/http/enums]: [field], [verb] and [status] with their tables
    of names, and the lookups in them.  Names of fields compare ignoring case
    ([iequals] of [src/messages/http/fields.cpp]), verbs exactly. *)

From S2P Require Import Prelude.

Module http_text.

(** Ascii letters to lower case. *)
Definition lower (c : Z) : Z := if (65 <=? c) && (c <=? 90) then c + 32 else c.

Definition iequals (left right : bytes) : bool :=
  (len left =? len right) && bool_decide (map lower left = map lower right).

Lemma lower_idem c : lower (lower c) = lower c.
Proof.
  unfold lower. destruct ((65 <=? c) && (c <=? 90)) eqn:H; [| by rewrite H].
  by destruct ((65 <=? c + 32) && (c + 32 <=? 90)) eqn:Hc; [lia |].
Qed.

(** The name that a name is compared by. *)
Definition fold_case (name : bytes) : bytes := map lower name.

Lemma iequals_spec left right : iequals left right = bool_decide (fold_case left = fold_case right).
Proof.
  unfold iequals, fold_case. case_bool_decide as H; [| by rewrite andb_false_r].
  apply (f_equal length) in H. rewrite !length_map in H. unfold len. rewrite H, Z.eqb_refl. done.
Qed.

Lemma iequals_refl l : iequals l l = true.
Proof. rewrite iequals_spec. by rewrite bool_decide_true. Qed.

Lemma iequals_sym left right : iequals left right = iequals right left.
Proof. rewrite !iequals_spec. by apply bool_decide_ext. Qed.
End http_text.
Import http_text.

(** Equality on an enumeration is that of its values. *)
Lemma decide_by_value {A} (value : A -> Z) (of_value : Z -> option A) :
  (forall a, of_value (value a) = Some a) -> EqDecision A.
Proof.
  intros Hf a b. destruct (decide (value a = value b)) as [H | H]; [left | right; congruence].
  apply (f_equal of_value) in H. rewrite !Hf in H. congruence.
Defined.

(** ** Header field names, those not enumerated are unknown *)

Module field.

Inductive field : Set :=
  | unknown | accept | access_control_allow_headers | access_control_allow_methods
  | access_control_allow_origin | access_control_max_age | access_control_request_headers
  | access_control_request_method | authorization | connection | content_disposition
  | content_length | content_type | date | host | keep_alive | location | origin
  | sec_websocket_accept | sec_websocket_extensions | sec_websocket_key
  | sec_websocket_protocol | sec_websocket_version | server | transfer_encoding | upgrade
  | user_agent | vary.

Definition enumerators : list field := [
  unknown; accept; access_control_allow_headers; access_control_allow_methods;
  access_control_allow_origin; access_control_max_age; access_control_request_headers;
  access_control_request_method; authorization; connection; content_disposition;
  content_length; content_type; date; host; keep_alive; location; origin;
  sec_websocket_accept; sec_websocket_extensions; sec_websocket_key;
  sec_websocket_protocol; sec_websocket_version; server; transfer_encoding; upgrade;
  user_agent; vary].

Definition to_value (e : field) : Z :=
  match e with
  | unknown => 0 | accept => 1 | access_control_allow_headers => 2
  | access_control_allow_methods => 3 | access_control_allow_origin => 4
  | access_control_max_age => 5 | access_control_request_headers => 6
  | access_control_request_method => 7 | authorization => 8 | connection => 9
  | content_disposition => 10 | content_length => 11 | content_type => 12 | date => 13
  | host => 14 | keep_alive => 15 | location => 16 | origin => 17
  | sec_websocket_accept => 18 | sec_websocket_extensions => 19 | sec_websocket_key => 20
  | sec_websocket_protocol => 21 | sec_websocket_version => 22 | server => 23
  | transfer_encoding => 24 | upgrade => 25 | user_agent => 26 | vary => 27
  end.

Definition of_value (v : Z) : option field := find (fun e => to_value e =? v) enumerators.

#[global] Instance field_eq_dec : EqDecision field.
Proof. apply (decide_by_value to_value of_value). by intros []. Defined.

Definition field_names : list (field * bytes) := [
  (accept, chars "Accept");
  (access_control_allow_headers, chars "Access-Control-Allow-Headers");
  (access_control_allow_methods, chars "Access-Control-Allow-Methods");
  (access_control_allow_origin, chars "Access-Control-Allow-Origin");
  (access_control_max_age, chars "Access-Control-Max-Age");
  (access_control_request_headers, chars "Access-Control-Request-Headers");
  (access_control_request_method, chars "Access-Control-Request-Method");
  (authorization, chars "Authorization"); (connection, chars "Connection");
  (content_disposition, chars "Content-Disposition");
  (content_length, chars "Content-Length"); (content_type, chars "Content-Type");
  (date, chars "Date"); (host, chars "Host"); (keep_alive, chars "Keep-Alive");
  (location, chars "Location"); (origin, chars "Origin");
  (sec_websocket_accept, chars "Sec-WebSocket-Accept");
  (sec_websocket_extensions, chars "Sec-WebSocket-Extensions");
  (sec_websocket_key, chars "Sec-WebSocket-Key");
  (sec_websocket_protocol, chars "Sec-WebSocket-Protocol");
  (sec_websocket_version, chars "Sec-WebSocket-Version"); (server, chars "Server");
  (transfer_encoding, chars "Transfer-Encoding"); (upgrade, chars "Upgrade");
  (user_agent, chars "User-Agent"); (vary, chars "Vary")].

(** The field of the name (case insensitive), or unknown. *)
Definition to_field (name : bytes) : field :=
  match find (fun item => iequals item.2 name) field_names with
  | Some item => item.1
  | None => unknown
  end.

(** The canonical name of the field, empty for unknown. *)
Definition to_string (name : field) : bytes :=
  match find (fun item => bool_decide (item.1 = name)) field_names with
  | Some item => item.2
  | None => []
  end.

Lemma to_field_string f : to_field (to_string f) = f.
Proof. by destruct f. Qed.

Lemma to_field_case a b : iequals a b = true -> to_field a = to_field b.
Proof.
  rewrite iequals_spec, bool_decide_eq_true. intros H. unfold to_field.
  generalize field_names. intros l. induction l as [| x l IH]; [done |]. simpl.
  rewrite !iequals_spec, H. destruct (bool_decide _); [done | apply IH].
Qed.

Lemma to_field_known n : to_field n <> unknown -> iequals (to_string (to_field n)) n = true.
Proof.
  unfold to_field. destruct (find _ _) as [[f t] |] eqn:Hf; [| done]. intros _.
  apply find_some in Hf as [Hi He]. simpl in *. rewrite <- He. f_equal. clear He.
  repeat (destruct Hi as [Hi | Hi]; [by injection Hi as <- <- |]). destruct Hi.
Qed.
End field.

(** ** Request methods *)

Module verb.

Inductive verb : Set :=
  | unknown | delete_ | get | head | post | put | connect | options | trace | copy | lock
  | mkcol | move | propfind | proppatch | search | unlock | bind | rebind | unbind | acl
  | report | mkactivity | checkout | merge | msearch | notify | subscribe | unsubscribe
  | patch | purge | mkcalendar | link | unlink | websocket | stream.

Definition enumerators : list verb := [
  unknown; delete_; get; head; post; put; connect; options; trace; copy; lock; mkcol; move;
  propfind; proppatch; search; unlock; bind; rebind; unbind; acl; report; mkactivity;
  checkout; merge; msearch; notify; subscribe; unsubscribe; patch; purge; mkcalendar; link;
  unlink; websocket; stream].

Definition to_value (e : verb) : Z :=
  match e with
  | unknown => 0 | delete_ => 1 | get => 2 | head => 3 | post => 4 | put => 5
  | connect => 6 | options => 7 | trace => 8 | copy => 9 | lock => 10 | mkcol => 11
  | move => 12 | propfind => 13 | proppatch => 14 | search => 15 | unlock => 16
  | bind => 17 | rebind => 18 | unbind => 19 | acl => 20 | report => 21 | mkactivity => 22
  | checkout => 23 | merge => 24 | msearch => 25 | notify => 26 | subscribe => 27
  | unsubscribe => 28 | patch => 29 | purge => 30 | mkcalendar => 31 | link => 32
  | unlink => 33 | websocket => 34 | stream => 35
  end.

Definition of_value (v : Z) : option verb := find (fun e => to_value e =? v) enumerators.

#[global] Instance verb_eq_dec : EqDecision verb.
Proof. apply (decide_by_value to_value of_value). by intros []. Defined.

Definition verbs : list (verb * bytes) := [
  (delete_, chars "DELETE"); (get, chars "GET"); (head, chars "HEAD");
  (post, chars "POST"); (put, chars "PUT"); (connect, chars "CONNECT");
  (options, chars "OPTIONS"); (trace, chars "TRACE"); (copy, chars "COPY");
  (lock, chars "LOCK"); (mkcol, chars "MKCOL"); (move, chars "MOVE");
  (propfind, chars "PROPFIND"); (proppatch, chars "PROPPATCH"); (search, chars "SEARCH");
  (unlock, chars "UNLOCK"); (bind, chars "BIND"); (rebind, chars "REBIND");
  (unbind, chars "UNBIND"); (acl, chars "ACL"); (report, chars "REPORT");
  (mkactivity, chars "MKACTIVITY"); (checkout, chars "CHECKOUT"); (merge, chars "MERGE");
  (msearch, chars "M-SEARCH"); (notify, chars "NOTIFY"); (subscribe, chars "SUBSCRIBE");
  (unsubscribe, chars "UNSUBSCRIBE"); (patch, chars "PATCH"); (purge, chars "PURGE");
  (mkcalendar, chars "MKCALENDAR"); (link, chars "LINK"); (unlink, chars "UNLINK")].

(** The verb of the method token (case sensitive), or unknown. *)
Definition to_verb (method : bytes) : verb :=
  match find (fun item => bool_decide (item.2 = method)) verbs with
  | Some item => item.1
  | None => unknown
  end.

(** The token of the verb, empty for unknown, websocket and stream. *)
Definition to_string (method : verb) : bytes :=
  match find (fun item => bool_decide (item.1 = method)) verbs with
  | Some item => item.2
  | None => []
  end.

Lemma to_verb_known m : to_verb m <> unknown -> to_string (to_verb m) = m.
Proof.
  unfold to_verb. destruct (find _ _) as [[v t] |] eqn:Hf; [| done]. intros _.
  apply find_some in Hf as [Hi He]. apply bool_decide_eq_true in He. simpl in *. subst m.
  repeat (destruct Hi as [Hi | Hi]; [by injection Hi as <- <- |]). destruct Hi.
Qed.

Lemma to_verb_string v : v <> websocket -> v <> stream -> to_verb (to_string v) = v.
Proof. by destruct v. Qed.
End verb.

(** ** Response status codes *)

Module status.

Inductive status : Set :=
  | unknown | continue_ | switching_protocols | processing | early_hints | ok | created
  | accepted | non_authoritative_information | no_content | reset_content | partial_content
  | multi_status | already_reported | im_used | multiple_choices | moved_permanently
  | found | see_other | not_modified | use_proxy | temporary_redirect | permanent_redirect
  | bad_request | unauthorized | payment_required | forbidden | not_found
  | method_not_allowed | not_acceptable | proxy_authentication_required | request_timeout
  | conflict | gone | length_required | precondition_failed | payload_too_large
  | uri_too_long | unsupported_media_type | range_not_satisfiable | expectation_failed
  | misdirected_request | unprocessable_entity | locked | failed_dependency | too_early
  | upgrade_required | precondition_required | too_many_requests
  | request_header_fields_too_large | connection_closed_without_response
  | unavailable_for_legal_reasons | client_closed_request | internal_server_error
  | not_implemented | bad_gateway | service_unavailable | gateway_timeout
  | http_version_not_supported | variant_also_negotiates | insufficient_storage
  | loop_detected | not_extended | network_authentication_required
  | network_connect_timeout_error.

Definition enumerators : list status := [
  unknown; continue_; switching_protocols; processing; early_hints; ok; created; accepted;
  non_authoritative_information; no_content; reset_content; partial_content; multi_status;
  already_reported; im_used; multiple_choices; moved_permanently; found; see_other;
  not_modified; use_proxy; temporary_redirect; permanent_redirect; bad_request;
  unauthorized; payment_required; forbidden; not_found; method_not_allowed; not_acceptable;
  proxy_authentication_required; request_timeout; conflict; gone; length_required;
  precondition_failed; payload_too_large; uri_too_long; unsupported_media_type;
  range_not_satisfiable; expectation_failed; misdirected_request; unprocessable_entity;
  locked; failed_dependency; too_early; upgrade_required; precondition_required;
  too_many_requests; request_header_fields_too_large; connection_closed_without_response;
  unavailable_for_legal_reasons; client_closed_request; internal_server_error;
  not_implemented; bad_gateway; service_unavailable; gateway_timeout;
  http_version_not_supported; variant_also_negotiates; insufficient_storage; loop_detected;
  not_extended; network_authentication_required; network_connect_timeout_error].

Definition to_value (e : status) : Z :=
  match e with
  | unknown => 0 | continue_ => 100 | switching_protocols => 101 | processing => 102
  | early_hints => 103 | ok => 200 | created => 201 | accepted => 202
  | non_authoritative_information => 203 | no_content => 204 | reset_content => 205
  | partial_content => 206 | multi_status => 207 | already_reported => 208 | im_used => 226
  | multiple_choices => 300 | moved_permanently => 301 | found => 302 | see_other => 303
  | not_modified => 304 | use_proxy => 305 | temporary_redirect => 307
  | permanent_redirect => 308 | bad_request => 400 | unauthorized => 401
  | payment_required => 402 | forbidden => 403 | not_found => 404
  | method_not_allowed => 405 | not_acceptable => 406
  | proxy_authentication_required => 407 | request_timeout => 408 | conflict => 409
  | gone => 410 | length_required => 411 | precondition_failed => 412
  | payload_too_large => 413 | uri_too_long => 414 | unsupported_media_type => 415
  | range_not_satisfiable => 416 | expectation_failed => 417 | misdirected_request => 421
  | unprocessable_entity => 422 | locked => 423 | failed_dependency => 424
  | too_early => 425 | upgrade_required => 426 | precondition_required => 428
  | too_many_requests => 429 | request_header_fields_too_large => 431
  | connection_closed_without_response => 444 | unavailable_for_legal_reasons => 451
  | client_closed_request => 499 | internal_server_error => 500 | not_implemented => 501
  | bad_gateway => 502 | service_unavailable => 503 | gateway_timeout => 504
  | http_version_not_supported => 505 | variant_also_negotiates => 506
  | insufficient_storage => 507 | loop_detected => 508 | not_extended => 510
  | network_authentication_required => 511 | network_connect_timeout_error => 599
  end.

Definition of_value (v : Z) : option status := find (fun e => to_value e =? v) enumerators.

#[global] Instance status_eq_dec : EqDecision status.
Proof. apply (decide_by_value to_value of_value). by intros []. Defined.

Definition statuses : list (status * bytes) := [
  (continue_, chars "Continue"); (switching_protocols, chars "Switching Protocols");
  (processing, chars "Processing"); (early_hints, chars "Early Hints"); (ok, chars "OK");
  (created, chars "Created"); (accepted, chars "Accepted");
  (non_authoritative_information, chars "Non-Authoritative Information");
  (no_content, chars "No Content"); (reset_content, chars "Reset Content");
  (partial_content, chars "Partial Content"); (multi_status, chars "Multi-Status");
  (already_reported, chars "Already Reported"); (im_used, chars "IM Used");
  (multiple_choices, chars "Multiple Choices");
  (moved_permanently, chars "Moved Permanently"); (found, chars "Found");
  (see_other, chars "See Other"); (not_modified, chars "Not Modified");
  (use_proxy, chars "Use Proxy"); (temporary_redirect, chars "Temporary Redirect");
  (permanent_redirect, chars "Permanent Redirect"); (bad_request, chars "Bad Request");
  (unauthorized, chars "Unauthorized"); (payment_required, chars "Payment Required");
  (forbidden, chars "Forbidden"); (not_found, chars "Not Found");
  (method_not_allowed, chars "Method Not Allowed");
  (not_acceptable, chars "Not Acceptable");
  (proxy_authentication_required, chars "Proxy Authentication Required");
  (request_timeout, chars "Request Timeout"); (conflict, chars "Conflict");
  (gone, chars "Gone"); (length_required, chars "Length Required");
  (precondition_failed, chars "Precondition Failed");
  (payload_too_large, chars "Payload Too Large"); (uri_too_long, chars "URI Too Long");
  (unsupported_media_type, chars "Unsupported Media Type");
  (range_not_satisfiable, chars "Range Not Satisfiable");
  (expectation_failed, chars "Expectation Failed");
  (misdirected_request, chars "Misdirected Request");
  (unprocessable_entity, chars "Unprocessable Entity"); (locked, chars "Locked");
  (failed_dependency, chars "Failed Dependency"); (too_early, chars "Too Early");
  (upgrade_required, chars "Upgrade Required");
  (precondition_required, chars "Precondition Required");
  (too_many_requests, chars "Too Many Requests");
  (request_header_fields_too_large, chars "Request Header Fields Too Large");
  (connection_closed_without_response, chars "Connection Closed Without Response");
  (unavailable_for_legal_reasons, chars "Unavailable For Legal Reasons");
  (client_closed_request, chars "Client Closed Request");
  (internal_server_error, chars "Internal Server Error");
  (not_implemented, chars "Not Implemented"); (bad_gateway, chars "Bad Gateway");
  (service_unavailable, chars "Service Unavailable");
  (gateway_timeout, chars "Gateway Timeout");
  (http_version_not_supported, chars "HTTP Version Not Supported");
  (variant_also_negotiates, chars "Variant Also Negotiates");
  (insufficient_storage, chars "Insufficient Storage");
  (loop_detected, chars "Loop Detected"); (not_extended, chars "Not Extended");
  (network_authentication_required, chars "Network Authentication Required");
  (network_connect_timeout_error, chars "Network Connect Timeout Error")].

(** The status of the code, or unknown. *)
Definition to_status (code : Z) : status :=
  match find (fun item => to_value item.1 =? code) statuses with
  | Some item => item.1
  | None => unknown
  end.

(** The reason phrase of the status. *)
Definition status_string (code : status) : bytes :=
  match find (fun item => bool_decide (item.1 = code)) statuses with
  | Some item => item.2
  | None => chars "<unknown-status>"
  end.

Lemma to_status_value s : to_status (to_value s) = s.
Proof. by destruct s. Qed.
End status.
