(* ===== verification/HttpFields.v ===== *)
(** * HttpFields: the fields of an http header

    Models [src/messages/http/fields.cpp]: the container of header fields in
    serialization order, with names that compare ignoring case.  It refines a
    list of groups, one for each name, in the order of first addition.  The
    text utilities of libbitcoin-system are a parameter ([Text]). *)

From S2P Require Import Prelude.
From S2P Require Import HttpEnums.

Import http_text.

Definition is_whitespace (c : Z) : bool := (c =? 32) || (c =? 9).

(** The utilities of libbitcoin-system that http uses: [split] at one
    delimiter, trimming http whitespace, [serialize] of a number,
    [ascii_to_lower], and the digests of the websocket handshake. *)
Class Text := {
  split : Z -> bytes -> list bytes;
  serialize : Z -> bytes;
  ascii_to_lower : bytes -> bytes;
  sha1_hash : bytes -> bytes;
  encode_base64 : bytes -> bytes
}.

Definition comma : Z := 44.
Definition semicolon : Z := 59.

(** Texts joined by a delimiter and a space. *)
Fixpoint join (d : Z) (l : list bytes) : bytes :=
  match l with
  | [] => []
  | [t] => t
  | t :: l => t ++ [d; 32] ++ join d l
  end.

(** Without the delimiter, and without whitespace at its ends. *)
Definition trimmed (d : Z) (t : bytes) : Prop :=
  d ∉ t /\ (forall c, head t = Some c -> is_whitespace c = false) /\
  (forall c, last t = Some c -> is_whitespace c = false).

Definition is_digit (c : Z) : bool := (48 <=? c) && (c <=? 57).

Definition digits_value (l : bytes) : Z := fold_left (fun v c => v * 10 + (c - 48)) l 0.

(** What they are documented to do. *)
Class TextLaws `{Text} : Prop := {
  split_join d l : is_whitespace d = false -> l <> [] -> Forall (fun t => t <> [] /\ trimmed d t) l -> split d (join d l) = l;
  split_items d t : Forall (trimmed d) (split d t);
  split_nil d : Forall (fun t => t = []) (split d []);
  serialize_digits n : u64 n ->
    forallb is_digit (serialize n) = true /\ digits_value (serialize n) = n /\ serialize n <> [] /\
    (head (serialize n) = Some 48 -> n = 0 /\ len (serialize n) = 1)
}.

Module fields.

Record entry := mk_entry { id : field.field; name : bytes; value : bytes }.

Definition t : Type := list entry.

Definition named (n : bytes) (item : entry) : bool := iequals (name item) n.

(** [std::vector::insert] after the last entry of the name, if there is one. *)
Fixpoint insert_after_last (e : entry) (l : t) : option t :=
  match l with
  | [] => None
  | x :: l =>
    match insert_after_last e l with
    | Some l => Some (x :: l)
    | None => if named (name e) x then Some (x :: e :: l) else None
    end
  end.

(** Values of a name are kept adjacent, in order of addition. *)
Definition add (i : field.field) (n v : bytes) (l : t) : t :=
  let e := mk_entry i n v in
  match insert_after_last e l with Some l => l | None => l ++ [e] end.

Definition erase (n : bytes) (l : t) : t := List.filter (fun x => negb (named n x)) l.

Definition set (n v : bytes) (l : t) : t := add (field.to_field n) n v (erase n l).

Definition insert (n v : bytes) (l : t) : t := add (field.to_field n) n v l.

Definition find (n : bytes) (l : t) : option entry := List.find (named n) l.

Definition count (n : bytes) (l : t) : Z := len (List.filter (named n) l).

(** [operator[]]. *)
Definition at_ (n : bytes) (l : t) : bytes :=
  match find n l with Some x => value x | None => [] end.

Definition clear (l : t) : t := [].

Definition is_empty (l : t) : bool := match l with [] => true | _ => false end.

Definition size (l : t) : Z := len l.

(** The overloads by field. *)
Definition set_field (f : field.field) (v : bytes) (l : t) : t :=
  add f (field.to_string f) v (erase (field.to_string f) l).
Definition insert_field (f : field.field) (v : bytes) (l : t) : t := add f (field.to_string f) v l.
Definition erase_field (f : field.field) (l : t) : t := erase (field.to_string f) l.
Definition find_field (f : field.field) (l : t) : option entry := find (field.to_string f) l.
Definition count_field (f : field.field) (l : t) : Z := count (field.to_string f) l.
Definition at_field (f : field.field) (l : t) : bytes := at_ (field.to_string f) l.

(** ** Utilities *)

Section utilities.
Context `{Text}.

Definition has_token (list token : bytes) : bool :=
  existsb (fun item => iequals item token) (split comma list).

Fixpoint starts_with (p l : bytes) : bool :=
  match p, l with
  | [], _ => true
  | x :: p, y :: l => (x =? y) && starts_with p l
  | _, [] => false
  end.

Definition has_attachment (header : t) : bool :=
  let disposition := at_field field.content_disposition header in
  existsb (starts_with (chars "filename")) (split semicolon (ascii_to_lower disposition)).

Definition is_websocket_upgrade (header : t) : bool :=
  if bool_decide (at_field field.sec_websocket_key header = []) ||
    negb (bool_decide (at_field field.upgrade header = chars "websocket")) then false else
  has_token (at_field field.connection header) (chars "upgrade").

Definition to_websocket_accept (header : t) : bytes :=
  let magic := chars "258EAFA5-E914-47DA-95CA-C5AB0DC85B11" in
  let key := at_field field.sec_websocket_key header in
  if bool_decide (key = []) then key else encode_base64 (sha1_hash (key ++ magic)).
End utilities.

(** ** Specification

    A list of groups: a key, and the entries whose name is the key in lower
    case. *)

Definition group : Type := bytes * list entry.

Fixpoint group_add (k : bytes) (e : entry) (g : list group) : list group :=
  match g with
  | [] => [(k, [e])]
  | x :: g => if bool_decide (x.1 = k) then (k, x.2 ++ [e]) :: g else x :: group_add k e g
  end.

Definition group_erase (k : bytes) (g : list group) : list group :=
  List.filter (fun x => negb (bool_decide (x.1 = k))) g.

Fixpoint group_find (k : bytes) (g : list group) : list entry :=
  match g with
  | [] => []
  | x :: g => if bool_decide (x.1 = k) then x.2 else group_find k g
  end.

Definition ungroup (g : list group) : t := concat (map snd g).

Definition wf (g : list group) : Prop :=
  NoDup (map fst g) /\
  Forall (fun x => x.2 <> [] /\ Forall (fun e => fold_case (name e) = x.1 /\ id e = field.to_field (name e)) x.2) g.

Inductive op :=
  | Set_ (n v : bytes) | Insert (n v : bytes) | Erase (n : bytes) | Clear
  | Set_field (f : field.field) (v : bytes) | Insert_field (f : field.field) (v : bytes)
  | Erase_field (f : field.field).

Definition step (o : op) (l : t) : t :=
  match o with
  | Set_ n v => set n v l
  | Insert n v => insert n v l
  | Erase n => erase n l
  | Clear => clear l
  | Set_field f v => set_field f v l
  | Insert_field f v => insert_field f v l
  | Erase_field f => erase_field f l
  end.

Definition insert_group (n v : bytes) (g : list group) : list group :=
  group_add (fold_case n) (mk_entry (field.to_field n) n v) g.

Definition spec_step (o : op) (g : list group) : list group :=
  match o with
  | Set_ n v => insert_group n v (group_erase (fold_case n) g)
  | Insert n v => insert_group n v g
  | Erase n => group_erase (fold_case n) g
  | Clear => []
  | Set_field f v =>
    insert_group (field.to_string f) v (group_erase (fold_case (field.to_string f)) g)
  | Insert_field f v => insert_group (field.to_string f) v g
  | Erase_field f => group_erase (fold_case (field.to_string f)) g
  end.

Lemma named_spec n x : named n x = bool_decide (fold_case (name x) = fold_case n).
Proof. apply iequals_spec. Qed.

Lemma wf_nil : wf [].
Proof. split; simpl; [apply NoDup_nil_2 | apply List.Forall_nil]. Qed.

Lemma wf_cons x g : wf (x :: g) <->
  x.1 ∉ map fst g /\ x.2 <> [] /\
  Forall (fun e => fold_case (name e) = x.1 /\ id e = field.to_field (name e)) x.2 /\ wf g.
Proof.
  unfold wf. simpl. rewrite NoDup_cons, Forall_cons. split.
  - by intros [[] [[] ]].
  - by intros (? & ? & ? & ? & ?).
Qed.

(** Entries of one name, and of no other. *)
Definition all_named (n : bytes) (l : list entry) : Prop := Forall (fun e => named n e = true) l.
Definition none_named (n : bytes) (l : list entry) : Prop := Forall (fun e => named n e = false) l.

Lemma group_named n k l : Forall (fun e => fold_case (name e) = k /\ id e = field.to_field (name e)) l ->
  if decide (k = fold_case n) then all_named n l else none_named n l.
Proof.
  intros Hl. case_decide as Hk; apply (Forall_impl _ _ _ Hl); intros e [He _]; rewrite named_spec, He;
    [by apply bool_decide_true | by apply bool_decide_false].
Qed.

Lemma others_named n g : wf g -> fold_case n ∉ map fst g -> none_named n (ungroup g).
Proof.
  induction g as [| x g IH]; intros Hw Hn; [constructor |].
  apply wf_cons in Hw as (_ & _ & Hx & Hg). simpl in Hn. apply not_elem_of_cons in Hn as [Hk Hn].
  apply Forall_app. split; [| by apply IH].
  pose proof (group_named n _ _ Hx) as Hd. rewrite decide_False in Hd; [done | congruence].
Qed.

Lemma insert_none e l : none_named (name e) l -> insert_after_last e l = None.
Proof. induction 1 as [| x l Hx _ IH]; [done |]. simpl. by rewrite IH, Hx. Qed.

Lemma insert_all e l : l <> [] -> all_named (name e) l -> insert_after_last e l = Some (l ++ [e]).
Proof.
  intros Hne H. induction H as [| x l Hx Hl IH]; [done |]. simpl.
  destruct l as [| y l]; [by simpl; rewrite Hx |]. by rewrite IH.
Qed.

Lemma insert_app e a b : insert_after_last e (a ++ b) =
  match insert_after_last e b with
  | Some r => Some (a ++ r)
  | None => (fun r => r ++ b) <$> insert_after_last e a
  end.
Proof.
  induction a as [| x a IH]; simpl; [by destruct (insert_after_last e b) |]. rewrite IH.
  destruct (insert_after_last e b) as [r |]; [done |].
  destruct (insert_after_last e a) as [r |]; [done |]. simpl. by destruct (named _ x).
Qed.

Lemma add_groups f n v g : wf g ->
  add f n v (ungroup g) = ungroup (group_add (fold_case n) (mk_entry f n v) g).
Proof.
  unfold add. set (e := mk_entry f n v). induction g as [| x g IH]; intros Hw; [done |].
  apply wf_cons in Hw as (Hk & Hne & Hx & Hg). specialize (IH Hg).
  change (ungroup (x :: g)) with (x.2 ++ ungroup g). rewrite insert_app. simpl.
  pose proof (group_named n _ _ Hx) as Hd. case_bool_decide as Hc.
  - rewrite decide_True in Hd by done. rewrite insert_none by (apply others_named; [done | simpl; by rewrite <- Hc]).
    rewrite insert_all by done. done.
  - rewrite decide_False in Hd by done. rewrite (insert_none e x.2) by done.
    change (ungroup (x :: ?l)) with (x.2 ++ ungroup l). rewrite <- IH.
    destruct (insert_after_last e (ungroup g)); simpl; [done | by rewrite app_assoc].
Qed.

Lemma erase_groups n g : wf g -> erase n (ungroup g) = ungroup (group_erase (fold_case n) g).
Proof.
  unfold erase. induction g as [| x g IH]; intros Hw; [done |].
  apply wf_cons in Hw as (_ & _ & Hx & Hg). change (ungroup (x :: g)) with (x.2 ++ ungroup g).
  rewrite List.filter_app, IH by done. simpl. pose proof (group_named n _ _ Hx) as Hd.
  destruct (bool_decide (x.1 = fold_case n)) eqn:Hc; simpl.
  - apply bool_decide_eq_true in Hc. rewrite decide_True in Hd by done.
    replace (List.filter _ x.2) with (@nil entry); [done |]. symmetry. clear -Hd.
    induction Hd as [| y l Hy _ IH]; [done |]. simpl. by rewrite Hy.
  - apply bool_decide_eq_false in Hc. rewrite decide_False in Hd by done.
    change (ungroup (x :: ?l)) with (x.2 ++ ungroup l). f_equal. clear -Hd.
    induction Hd as [| y l Hy _ IH]; [done |]. simpl. by rewrite Hy, IH.
Qed.

Lemma group_add_keys k e g : forall j, j ∈ map fst (group_add k e g) <-> j = k \/ j ∈ map fst g.
Proof.
  intros j. induction g as [| x g IH]; simpl.
  - rewrite list_elem_of_singleton. split; [by left |]. intros [| H]; [done | by apply not_elem_of_nil in H].
  - case_bool_decide as Hk; simpl; rewrite !elem_of_cons, ?IH; subst; tauto.
Qed.

Lemma group_add_wf n v g : wf g -> wf (insert_group n v g).
Proof.
  unfold insert_group. set (e := mk_entry _ n v).
  assert (fold_case (name e) = fold_case n /\ id e = field.to_field (name e)) as He by done.
  induction g as [| x g IH]; intros Hw; simpl.
  - apply wf_cons. split_and!; [apply not_elem_of_nil | done | by constructor | done].
  - apply wf_cons in Hw as (Hk & Hne & Hx & Hg). case_bool_decide as Hc; apply wf_cons; simpl.
    + split_and!; [congruence | by destruct x.2 | apply Forall_app; split; [| by constructor] | done].
      by rewrite <- Hc.
    + split_and!; [| done | done | by apply IH]. rewrite group_add_keys. intros [|]; [congruence | done].
Qed.

Lemma group_erase_keys k g j : j ∈ map fst (group_erase k g) <-> j ∈ map fst g /\ j <> k.
Proof.
  induction g as [| x g IH]; simpl; [rewrite elem_of_nil; tauto |].
  case_bool_decide as Hc; simpl; rewrite !elem_of_cons, IH; [| split]; intuition congruence.
Qed.

Lemma group_erase_wf k g : wf g -> wf (group_erase k g).
Proof.
  induction g as [| x g IH]; intros Hw; [done |]. apply wf_cons in Hw as (Hn & Hne & Hx & Hg). simpl.
  case_bool_decide as Hc; simpl; [by apply IH |].
  apply wf_cons. split_and!; [| done | done | by apply IH]. rewrite group_erase_keys. tauto.
Qed.

Lemma set_field_eq f v l : set_field f v l = set (field.to_string f) v l.
Proof. unfold set. by rewrite field.to_field_string. Qed.

Lemma insert_field_eq f v l : insert_field f v l = insert (field.to_string f) v l.
Proof. unfold insert. by rewrite field.to_field_string. Qed.

Lemma insert_groups n v g : wf g -> insert n v (ungroup g) = ungroup (insert_group n v g) /\ wf (insert_group n v g).
Proof. intros Hw. split; [by apply add_groups | by apply group_add_wf]. Qed.

Lemma step_groups o g : wf g -> step o (ungroup g) = ungroup (spec_step o g) /\ wf (spec_step o g).
Proof.
  intros Hw. pose proof (fun k => group_erase_wf k g Hw) as He.
  destruct o; simpl; rewrite ?set_field_eq, ?insert_field_eq; unfold erase_field; try by apply insert_groups.
  - unfold set. rewrite erase_groups by done. by apply insert_groups.
  - by rewrite erase_groups.
  - split; [done | apply wf_nil].
  - unfold set. rewrite erase_groups by done. by apply insert_groups.
  - by rewrite erase_groups.
Qed.

Lemma filter_none n l : none_named n l -> List.filter (named n) l = [] /\ List.find (named n) l = None.
Proof. induction 1 as [| x l Hx _ [IHf IHn]]; [done |]. simpl. by rewrite Hx. Qed.

Lemma filter_all n l : all_named n l -> List.filter (named n) l = l /\ List.find (named n) l = head l.
Proof. induction 1 as [| x l Hx _ [IHf IHn]]; [done |]. simpl. by rewrite Hx, IHf. Qed.

Lemma find_app (f : entry -> bool) a b :
  List.find f (a ++ b) = match List.find f a with Some x => Some x | None => List.find f b end.
Proof. induction a as [| x a IH]; [done |]. simpl. by destruct (f x). Qed.

(** ** Set and erase, by name *)

Lemma erase_none n l : none_named n (erase n l).
Proof.
  apply Forall_forall. intros x Hx. apply list_elem_of_In, List.filter_In in Hx as [_ Hx].
  by destruct (named n x).
Qed.

Lemma set_erase n v l : set n v l = erase n l ++ [mk_entry (field.to_field n) n v].
Proof. unfold set, add. by rewrite insert_none by apply erase_none. Qed.

Lemma find_erase_same n l : find n (erase n l) = None.
Proof. apply filter_none, erase_none. Qed.

Lemma find_set_same n v l : find n (set n v l) = Some (mk_entry (field.to_field n) n v).
Proof.
  rewrite set_erase. unfold find. rewrite find_app. fold (find n (erase n l)). rewrite find_erase_same. simpl.
  by rewrite named_spec, bool_decide_true.
Qed.

Lemma find_erase_other m n l : fold_case m <> fold_case n -> find m (erase n l) = find m l.
Proof.
  intros Hmn. unfold find, erase. induction l as [| x l IH]; [done |]. simpl.
  destruct (named n x) eqn:Hn; simpl; rewrite IH; [| done].
  rewrite named_spec, bool_decide_eq_true in Hn. by rewrite named_spec, bool_decide_false by congruence.
Qed.

Lemma find_set_other m n v l : fold_case m <> fold_case n -> find m (set n v l) = find m l.
Proof.
  intros Hmn. rewrite set_erase. unfold find. rewrite find_app. fold (find m (erase n l)).
  rewrite find_erase_other by done. fold (find m l). simpl.
  rewrite named_spec, bool_decide_false by (simpl; congruence). by destruct (find m l).
Qed.

Lemma find_groups n g : wf g -> find n (ungroup g) = head (group_find (fold_case n) g) /\
  List.filter (named n) (ungroup g) = group_find (fold_case n) g.
Proof.
  unfold find. induction g as [| x g IH]; intros Hw; [done |].
  apply wf_cons in Hw as (Hk & Hne & Hx & Hg). destruct (IH Hg) as [IHf IHc].
  change (ungroup (x :: g)) with (x.2 ++ ungroup g). simpl. rewrite List.filter_app, find_app.
  pose proof (group_named n _ _ Hx) as Hd. case_bool_decide as Hc.
  - rewrite decide_True in Hd by done. destruct (filter_all _ _ Hd) as [-> ->].
    destruct (filter_none n (ungroup g)) as [-> _]; [apply others_named; [done | by rewrite <- Hc] |].
    rewrite app_nil_r. by destruct x.2.
  - rewrite decide_False in Hd by done. destruct (filter_none _ _ Hd) as [-> ->]. done.
Qed.

(** The fields refine groups of entries, one for each name (ignoring case),
    in the order of first addition.  After any operations, the fields are the
    entries of the groups in order, so that values of a name are adjacent and
    in order of addition; what is found, counted and given for a name is the
    first entry, the size and the first value of its group; and the field of
    each entry is that of its name. *)
Theorem fields_refine_groups ops n :
  let l := fold_left (fun l o => step o l) ops [] in
  let g := fold_left (fun g o => spec_step o g) ops [] in
  l = ungroup g /\ NoDup (map fst g) /\
  find n l = head (group_find (fold_case n) g) /\
  count n l = len (group_find (fold_case n) g) /\
  at_ n l = match group_find (fold_case n) g with e :: _ => value e | [] => [] end /\
  Forall (fun e => id e = field.to_field (name e)) l.
Proof.
  intros l g. assert (l = ungroup g /\ wf g) as [-> Hw].
  { subst l g. rewrite <- (rev_involutive ops). induction (rev ops) as [| o k IH]; [split; [done | apply wf_nil] |].
    simpl. rewrite !fold_left_app. destruct IH as [-> Hw]. by apply step_groups. }
  destruct (find_groups n g Hw) as [Hf Hc]. unfold count, at_. rewrite Hf, Hc. split_and!; try done.
  - by destruct Hw.
  - by destruct (group_find (fold_case n) g).
  - apply Forall_concat, Forall_map. destruct Hw as [_ Hw].
    apply (Forall_impl _ _ _ Hw). intros x [_ Hx]. apply (Forall_impl _ _ _ Hx). by intros e [_ He].
Qed.
End fields.

(** ** A library of text utilities that keeps its promises *)

Module simple_text.

Fixpoint split_raw (d : Z) (t : bytes) : bytes * list bytes :=
  match t with
  | [] => ([], [])
  | c :: t => let '(x, l) := split_raw d t in if c =? d then ([], x :: l) else (c :: x, l)
  end.

Fixpoint trim_front (t : bytes) : bytes :=
  match t with c :: r => if is_whitespace c then trim_front r else t | [] => [] end.

Definition trim (t : bytes) : bytes := rev (trim_front (rev (trim_front t))).

Definition split_all (d : Z) (t : bytes) : list bytes :=
  let '(x, l) := split_raw d t in map trim (x :: l).

Fixpoint decimal (fuel : nat) (n : Z) : bytes :=
  match fuel with
  | O => []
  | S k => if n <? 10 then [48 + n] else decimal k (n / 10) ++ [48 + n `mod` 10]
  end.

#[global] Instance text : Text := {|
  split := split_all;
  serialize := decimal 20;
  ascii_to_lower := map lower;
  sha1_hash := id;
  encode_base64 := id
|}.

Lemma split_raw_app d a b : d ∉ a -> split_raw d (a ++ b) = (a ++ (split_raw d b).1, (split_raw d b).2).
Proof.
  induction a as [| c a IH]; simpl; [by destruct (split_raw d b) |].
  intros [Hc Ha]%not_elem_of_cons. rewrite IH by done. simpl. by destruct (c =? d) eqn:?; [lia |].
Qed.

Lemma split_raw_items d t : d ∉ (split_raw d t).1 /\ Forall (fun x => d ∉ x) (split_raw d t).2.
Proof.
  induction t as [| c t IH]; simpl; [split; [apply not_elem_of_nil | constructor] |].
  destruct (split_raw d t) as [x l], IH as [IHx IHl]. destruct (c =? d) eqn:Hc; simpl in *.
  - split; [apply not_elem_of_nil | by constructor].
  - split; [| done]. apply not_elem_of_cons. split; [lia | done].
Qed.

Lemma trim_front_head t c : head (trim_front t) = Some c -> is_whitespace c = false.
Proof. induction t as [| x t IH]; simpl; [done |]. destruct (is_whitespace x) eqn:Hx; [done |]. simpl. congruence. Qed.

Lemma trim_front_suffix t : exists p, t = p ++ trim_front t.
Proof.
  induction t as [| x t [p IH]]; simpl; [by exists [] |].
  destruct (is_whitespace x); [exists (x :: p); simpl; by f_equal | by exists []].
Qed.

Lemma trim_trimmed d t : d ∉ t -> trimmed d (trim t).
Proof.
  intros Hd. unfold trim. destruct (trim_front_suffix t) as [p Hp].
  pose proof (trim_front_head t) as Hh. set (f := trim_front t) in *.
  destruct (trim_front_suffix (rev f)) as [q Hq]. pose proof (trim_front_head (rev f)) as Hl.
  set (g := trim_front (rev f)) in *. assert (f = rev g ++ rev q) as Hf.
  { rewrite <- (rev_involutive f), Hq. apply rev_app_distr. }
  split_and!.
  - intros Hi. apply Hd. rewrite Hp, Hf. apply elem_of_app. right. apply elem_of_app. by left.
  - intros c Hc. apply Hh. rewrite Hf. by destruct (rev g).
  - intros c Hc. apply Hl. rewrite rev_alt in Hc. clearbody g. clear -Hc. rewrite <- rev_alt in Hc.
    destruct g as [| x g]; [done |]. simpl in Hc. rewrite last_snoc in Hc. by simplify_eq.
Qed.

Lemma trim_front_id t : (forall c, head t = Some c -> is_whitespace c = false) -> trim_front t = t.
Proof. destruct t as [| c t]; simpl; [done |]. intros Hc. by rewrite Hc. Qed.

Lemma trim_id d t : trimmed d t -> trim t = t.
Proof.
  intros (_ & Hh & Hl). unfold trim. rewrite (trim_front_id t) by done. rewrite trim_front_id, rev_involutive; [done |].
  intros c Hc. apply Hl. rewrite <- (rev_involutive t). destruct (rev t) as [| x r]; [done |]. simpl in *.
  simplify_eq. apply last_snoc.
Qed.

Lemma split_raw_join d t l : d <> 32 -> Forall (fun t => t <> [] /\ trimmed d t) (t :: l) ->
  split_raw d (join d (t :: l)) = (t, map (cons 32) l).
Proof.
  intros Hd Hl. revert t Hl. induction l as [| y l IH]; intros t [[_ (Ht & _ & _)] Hl]%Forall_cons.
  - change (join d [t]) with t. pose proof (split_raw_app d t [] Ht) as Hs. simpl in Hs. by rewrite app_nil_r in Hs.
  - change (join d (t :: y :: l)) with (t ++ [d; 32] ++ join d (y :: l)). rewrite split_raw_app by done.
    change ([d; 32] ++ ?x) with (d :: 32 :: x). cbn [split_raw]. rewrite IH by done.
    rewrite Z.eqb_refl, (proj2 (Z.eqb_neq 32 d)) by congruence. simpl. by rewrite app_nil_r.
Qed.

Lemma decimal_spec k n : 0 <= n < 10 ^ Z.of_nat k ->
  forallb is_digit (decimal k n) = true /\ digits_value (decimal k n) = n /\ (0 < k -> decimal k n <> [])%nat /\
  (head (decimal k n) = Some 48 -> n = 0 /\ len (decimal k n) = 1).
Proof.
  revert n. induction k as [| k IH]; intros n Hn; simpl.
  { change (10 ^ Z.of_nat 0) with 1 in Hn. unfold digits_value. simpl. split_and!; try done; lia. }
  destruct (n <? 10) eqn:Hs.
  - unfold digits_value, is_digit; simpl. split_and!; [lia | lia | done |]. intros [=]. split; [lia | done].
  - rewrite Nat2Z.inj_succ, Z.pow_succ_r in Hn by lia.
    assert (1 <= n / 10 < 10 ^ Z.of_nat k) as Hq by (split; [apply Z.div_le_lower_bound | apply Z.div_lt_upper_bound]; lia).
    destruct (IH (n / 10)) as (Hd & Hv & Hne & Hh); [lia |].
    assert (decimal k (n / 10) <> []) as Hn0.
    { apply Hne. destruct k; [simpl in Hq; lia | lia]. }
    split_and!.
    + rewrite forallb_app, Hd. simpl. unfold is_digit. pose proof (Z.mod_pos_bound n 10). lia.
    + unfold digits_value in *. rewrite fold_left_app, Hv. simpl. pose proof (Z.div_mod n 10). lia.
    + intros _. by destruct (decimal k (n / 10)).
    + intros Hc. destruct Hh as [Hz _]; [| lia]. destruct (decimal k (n / 10)); [done |]. done.
Qed.
#[global] Instance text_laws : TextLaws.
Proof.
  split.
  - intros d l Hd Hne Hl. change (split_all d (join d l) = l). unfold split_all.
    destruct l as [| t l]; [done |]. rewrite split_raw_join by (try done; by intros ->).
    apply Forall_cons in Hl as [[_ Ht] Hl]. simpl. f_equal; [by apply (trim_id d) |].
    clear Hne. induction Hl as [| y l [_ Hy] Hl IH]; [done |]. cbn [map]. rewrite IH. f_equal.
    change (trim (32 :: y)) with (trim y). by apply (trim_id d y).
  - intros d t. change (Forall (trimmed d) (split_all d t)). unfold split_all.
    pose proof (split_raw_items d t) as [Hx Hl]. destruct (split_raw d t) as [x l].
    apply Forall_map. constructor; [by apply trim_trimmed |]. apply (Forall_impl _ _ _ Hl). intros. by apply trim_trimmed.
  - intros d. by repeat constructor.
  - intros n Hn. destruct (decimal_spec 20 n) as (? & ? & Hne & ?); [unfold in_width in Hn; lia |].
    split_and!; try done. apply Hne. lia.
Qed.
End simple_text.
