(* ===== verification/HttpHeader.v ===== *)
(** * HttpHeader: request and response headers

    Models [src/messages/http/header.cpp], and [prepare_payload] of
    [include/bitcoin/network/messages/http/message.hpp]: the version and
    fields of a header, the connection, transfer encoding and content length
    that it declares, and the start lines. *)

From S2P Require Import Prelude.
From S2P Require Import HttpEnums.
From S2P Require Import HttpFields.

Import http_text.

(** [std::from_chars] of a 64 bit number: the leading digits, if there are any
    and their value fits, and the rest. *)
Fixpoint digits_of (l : bytes) : bytes * bytes :=
  match l with
  | c :: l' => if is_digit c then let '(d, r) := digits_of l' in (c :: d, r) else ([], l)
  | [] => ([], [])
  end.

Definition from_chars (l : bytes) : option (Z * bytes) :=
  let '(d, r) := digits_of l in
  match d with
  | [] => None
  | _ => if digits_value d <=? max_uint64 then Some (digits_value d, r) else None
  end.

Module header.
Section header.
Context `{Text}.

Definition version_1_1 : Z := 11.
Definition version_1_0 : Z := 10.

Definition close_token : bytes := chars "close".
Definition keep_alive_token : bytes := chars "keep-alive".
Definition chunked_token : bytes := chars "chunked".

(** The comma separated list without the matching tokens. *)
Definition filter_step (matches : bytes -> bool) (out token : bytes) : bytes :=
  if bool_decide (token = []) || matches token then out else
  (if bool_decide (out = []) then out else out ++ [comma; 32]) ++ token.

Definition filter_tokens (list : bytes) (matches : bytes -> bool) : bytes :=
  fold_left (filter_step matches) (split comma list) [].

Definition append_token (list token : bytes) : bytes :=
  if fields.has_token list token then list else
  if bool_decide (list = []) then token else list ++ [comma; 32] ++ token.

(** ** The header base *)

Record base := mk_base { version : Z; fields_ : fields.t }.

Definition set_version (v : Z) (h : base) : base := mk_base v (fields_ h).

Definition keep_alive (h : base) : bool :=
  let it := fields.find_field field.connection (fields_ h) in
  if version h <? version_1_1
  then match it with Some e => fields.has_token (fields.value e) keep_alive_token | None => false end
  else match it with Some e => negb (fields.has_token (fields.value e) close_token) | None => true end.

Definition is_ (token item : bytes) : bool := iequals item token.

Definition connection_tokens (v : bool) (h : base) : bytes :=
  let list := fields.at_field field.connection (fields_ h) in
  let neither := fun item => is_ close_token item || is_ keep_alive_token item in
  if version h <? version_1_1 then
    if v then append_token (filter_tokens list (is_ close_token)) keep_alive_token
    else filter_tokens list neither
  else
    if v then filter_tokens list neither
    else append_token (filter_tokens list (is_ keep_alive_token)) close_token.

Definition set_or_erase (f : field.field) (out : bytes) (h : base) : base :=
  mk_base (version h)
    (if bool_decide (out = []) then fields.erase_field f (fields_ h) else fields.set_field f out (fields_ h)).

Definition set_keep_alive (v : bool) (h : base) : base :=
  set_or_erase field.connection (connection_tokens v h) h.

Definition chunked (h : base) : bool :=
  let codings := split comma (fields.at_field field.transfer_encoding (fields_ h)) in
  match last codings with Some coding => iequals coding chunked_token | None => false end.

Definition erase_length (h : base) : base :=
  mk_base (version h) (fields.erase_field field.content_length (fields_ h)).

Definition set_chunked (v : bool) (h : base) : base :=
  let list := fields.at_field field.transfer_encoding (fields_ h) in
  let out := filter_tokens list (is_ chunked_token) in
  let h := if v then erase_length h else h in
  let out := if v then (if bool_decide (out = []) then chunked_token else out ++ [comma; 32] ++ chunked_token)
    else out in
  set_or_erase field.transfer_encoding out h.

Definition content_length (h : base) : option Z :=
  match fields.find_field field.content_length (fields_ h) with
  | None => None
  | Some e =>
    match from_chars (fields.value e) with
    | Some (v, []) => Some v
    | _ => None
    end
  end.

Definition set_content_length (v : option Z) (h : base) : base :=
  let h := set_chunked false h in
  match v with
  | Some n => mk_base (version h) (fields.set_field field.content_length (serialize n) (fields_ h))
  | None => erase_length h
  end.

(** ** Request line and fields *)

Record request := mk_request { request_base : base; method_ : verb.verb; method_text : bytes; target : bytes }.

Definition request_init : request := mk_request (mk_base version_1_1 []) verb.unknown [] [].

Definition set_method (v : verb.verb) (h : request) : request :=
  mk_request (request_base h) v [] (target h).

Definition method_string (h : request) : bytes :=
  if bool_decide (method_ h = verb.unknown) then method_text h else verb.to_string (method_ h).

Definition set_method_string (v : bytes) (h : request) : request :=
  let m := verb.to_verb v in
  mk_request (request_base h) m (if bool_decide (m = verb.unknown) then v else []) (target h).

Definition set_target (v : bytes) (h : request) : request :=
  mk_request (request_base h) (method_ h) (method_text h) v.

Definition request_need_eof (h : request) : bool := negb (keep_alive (request_base h)).

(** ** Status line and fields *)

Record response := mk_response { response_base : base; code_ : Z; reason_ : bytes; standard_ : bytes }.

Definition response_init : response :=
  mk_response (mk_base version_1_1 []) (status.to_value status.ok) [] (status.status_string status.ok).

Definition result (h : response) : status.status := status.to_status (code_ h).

Definition set_result (c : Z) (h : response) : response :=
  mk_response (response_base h) c (reason_ h) (status.status_string (status.to_status c)).

Definition reason (h : response) : bytes := if bool_decide (reason_ h = []) then standard_ h else reason_ h.

Definition set_reason (v : bytes) (h : response) : response :=
  mk_response (response_base h) (code_ h) v (standard_ h).

Definition bodiless (h : response) : bool :=
  ((100 <=? code_ h) && (code_ h <? 200)) ||
  (code_ h =? status.to_value status.no_content) ||
  (code_ h =? status.to_value status.not_modified).

Definition is_some {A} (o : option A) : bool := match o with Some _ => true | None => false end.

Definition response_need_eof (h : response) : bool :=
  if bodiless h || is_some (content_length (response_base h)) || chunked (response_base h)
  then negb (keep_alive (response_base h)) else true.

(** ** Utilities *)

Definition is_upgrade (h : request) : bool :=
  (version_1_1 <=? version (request_base h)) && bool_decide (method_ h = verb.get) &&
  fields.has_token (fields.at_field field.connection (fields_ (request_base h))) (chars "upgrade") &&
  fields.has_token (fields.at_field field.upgrade (fields_ (request_base h))) (chars "websocket").

(** A header is that of a request or of a response. *)
Inductive t := Request (h : request) | Response (h : response).

Definition base_of (h : t) : base :=
  match h with Request r => request_base r | Response r => response_base r end.

Definition with_base (b : base) (h : t) : t :=
  match h with
  | Request r => Request (mk_request b (method_ r) (method_text r) (target r))
  | Response r => Response (mk_response b (code_ r) (reason_ r) (standard_ r))
  end.

Definition is_request (h : t) : bool := match h with Request _ => true | _ => false end.

(** Frame the body: chunked for http 1.1, closing the connection for 1.0, and
    neither for a response status that precludes a body. *)
Definition prepare_payload (h : t) : t :=
  let framed := with_base (set_chunked (version_1_1 <=? version (base_of h)) (base_of h)) h in
  match h with
  | Response r => if bodiless r then with_base (erase_length (set_chunked false (base_of h))) h else framed
  | Request _ => framed
  end.
End header.

(** ** Tokens *)

Section laws.
Context `{TextLaws}.

Definition kept (matches : bytes -> bool) (l : list bytes) : list bytes :=
  List.filter (fun t => negb (bool_decide (t = []) || matches t)) l.

(** A token of a list: not empty, and trimmed. *)
Definition item (t : bytes) : Prop := t <> [] /\ trimmed comma t.

Lemma join_cons d t l : l <> [] -> join d (t :: l) = t ++ [d; 32] ++ join d l.
Proof. by destruct l. Qed.

Lemma join_snoc d l t : join d (l ++ [t]) = if bool_decide (l = []) then t else join d l ++ [d; 32] ++ t.
Proof.
  induction l as [| x l IH]; [done |]. rewrite bool_decide_false by done.
  change ((x :: l) ++ [t]) with (x :: (l ++ [t])). rewrite join_cons by (by destruct l). rewrite IH. case_bool_decide; [by subst |].
  by rewrite join_cons, <- !app_assoc.
Qed.

Lemma join_nil d l : Forall (fun t => t <> []) l -> join d l = [] -> l = [].
Proof. destruct 1 as [| x l Hx _]; [done |]. destruct l; simpl; [done |]. by destruct x. Qed.

Lemma filter_tokens_join list m : filter_tokens list m = join comma (kept m (split comma list)).
Proof.
  unfold filter_tokens. change (@nil Z) with (join comma []) at 1.
  assert (Forall (fun t : bytes => t <> []) []) as Ha by constructor. revert Ha.
  change (kept m (split comma list)) with ([] ++ kept m (split comma list)).
  generalize (@nil bytes) as a. induction (split comma list) as [| t l IH]; intros a Ha; simpl; [by rewrite app_nil_r |].
  unfold filter_step at 2. destruct (bool_decide (t = []) || m t) eqn:Hm; simpl; [by apply IH |].
  apply orb_false_iff in Hm as [Ht _]. apply bool_decide_eq_false in Ht.
  replace (_ ++ t) with (join comma (a ++ [t])).
  - rewrite IH by (apply Forall_app; split; [done | by constructor]). by rewrite <- app_assoc.
  - rewrite join_snoc. destruct (decide (a = [])) as [-> | Hne]; [by rewrite !bool_decide_true |].
    rewrite (bool_decide_false (a = [])) by done. rewrite bool_decide_false by eauto using join_nil.
    by rewrite <- app_assoc.
Qed.

Lemma kept_items m list : Forall item (kept m (split comma list)).
Proof.
  apply Forall_forall. intros t Ht. apply list_elem_of_In, List.filter_In in Ht as [Hi Hm].
  apply negb_true_iff, orb_false_iff in Hm as [Ht _]. split; [by apply bool_decide_eq_false in Ht |].
  eapply Forall_forall; [apply split_items | by apply list_elem_of_In].
Qed.

Lemma has_token_join l token : Forall item l -> token <> [] ->
  fields.has_token (join comma l) token = existsb (fun t => iequals t token) l.
Proof.
  intros Hl Ht. unfold fields.has_token. destruct (decide (l = [])) as [-> | Hne]; [| by rewrite split_join].
  simpl. induction (split_nil comma) as [| x k -> _ IH]; [done |]. simpl. rewrite IH.
  by destruct token.
Qed.

Lemma append_token_join l token : Forall item l -> item token ->
  append_token (join comma l) token =
    join comma (if existsb (fun t => iequals t token) l then l else l ++ [token]).
Proof.
  intros Hl [Ht _]. unfold append_token. rewrite has_token_join by done.
  destruct (existsb _ l); [done |]. rewrite join_snoc.
  assert (join comma l = [] <-> l = []) as Hj.
  { split; [| by intros ->]. apply join_nil. apply (Forall_impl _ _ _ Hl). by intros t []. }
  by rewrite (bool_decide_ext _ _ Hj).
Qed.

Lemma existsb_kept m token l : (forall t, iequals t token = true -> m t = true) ->
  existsb (fun t => iequals t token) (kept m l) = false.
Proof.
  intros Hm. apply not_true_iff_false. intros He. apply existsb_exists in He as (t & Ht & He).
  apply List.filter_In in Ht as [_ Ht]. rewrite (Hm t He), orb_true_r in Ht. done.
Qed.
(** ** Settings *)

Lemma find_set_or_erase f out h :
  fields.find_field f (fields_ (set_or_erase f out h)) =
    if bool_decide (out = []) then None else Some (fields.mk_entry f (field.to_string f) out).
Proof.
  unfold set_or_erase, fields.find_field, fields.erase_field. simpl. case_bool_decide.
  - apply fields.find_erase_same.
  - by rewrite fields.set_field_eq, fields.find_set_same, field.to_field_string.
Qed.

Lemma find_set_or_erase_other f out h m : fold_case m <> fold_case (field.to_string f) ->
  fields.find m (fields_ (set_or_erase f out h)) = fields.find m (fields_ h).
Proof.
  intros Hm. unfold set_or_erase, fields.erase_field. simpl. case_bool_decide.
  - by apply fields.find_erase_other.
  - rewrite fields.set_field_eq. by apply fields.find_set_other.
Qed.

Lemma at_set_or_erase f out h : fields.at_field f (fields_ (set_or_erase f out h)) = out.
Proof.
  unfold fields.at_field, fields.at_. fold (fields.find_field f (fields_ (set_or_erase f out h))).
  rewrite find_set_or_erase. by case_bool_decide; subst.
Qed.

Lemma find_erase_length m h : fields.find m (fields_ (erase_length h)) =
  if bool_decide (fold_case m = fold_case (field.to_string field.content_length)) then None
  else fields.find m (fields_ h).
Proof.
  unfold erase_length, fields.erase_field. simpl. case_bool_decide as Hm; [| by apply fields.find_erase_other].
  unfold fields.find. apply fields.filter_none. apply Forall_forall. intros x Hx.
  apply list_elem_of_In, List.filter_In in Hx as [_ Hx]. rewrite fields.named_spec in *. rewrite Hm.
  by destruct (bool_decide _).
Qed.

Lemma is_token_neq a b : iequals a b = false -> forall t, iequals t b = true -> is_ a t = false.
Proof.
  unfold is_. intros Hab t Ht. rewrite iequals_spec in *. apply bool_decide_eq_true in Ht.
  by rewrite Ht, <- iequals_spec, iequals_sym, iequals_spec.
Qed.

Lemma token_item s : bool_decide (s <> []) && bool_decide (comma ∉ s) &&
  negb (match head s with Some c => is_whitespace c | None => false end) &&
  negb (match last s with Some c => is_whitespace c | None => false end) = true -> item s.
Proof.
  rewrite !andb_true_iff, !negb_true_iff, !bool_decide_eq_true. intros [[[Hn Hc] Hh] Hl].
  split; [done |]. split; [done |]. split; intros c Hs; [by rewrite Hs in Hh | by rewrite Hs in Hl].
Qed.

Lemma connection_set v h : exists l, Forall item l /\ connection_tokens v h = join comma l /\
  existsb (fun t => iequals t (if version h <? version_1_1 then keep_alive_token else close_token)) l =
    (if version h <? version_1_1 then v else negb v).
Proof.
  unfold connection_tokens. set (list := fields.at_field _ _).
  assert (item keep_alive_token /\ item close_token) as [Hk Hc] by (split; by apply token_item; vm_compute).
  assert (forall a m, item a -> exists l, Forall item l /\ append_token (filter_tokens list m) a = join comma l /\
    existsb (fun t => iequals t a) l = true) as Ha.
  { intros a m Ha. rewrite filter_tokens_join, append_token_join by (done || apply kept_items).
    destruct (existsb _ _) eqn:He;
      [exists (kept m (split comma list)) | exists (kept m (split comma list) ++ [a])];
      (split_and!; [| done | try done]); [apply kept_items | |].
    - apply Forall_app. split; [apply kept_items | by constructor].
    - rewrite existsb_app. simpl. by rewrite iequals_refl, orb_true_r. }
  assert (forall a m, (forall t, iequals t a = true -> m t = true) -> exists l, Forall item l /\
    filter_tokens list m = join comma l /\ existsb (fun t => iequals t a) l = false) as Hf.
  { intros a m Hm. rewrite filter_tokens_join. exists (kept m (split comma list)).
    split_and!; [apply kept_items | done | by apply existsb_kept]. }
  destruct (version h <? version_1_1), v; simpl; try (by apply Ha); apply Hf; intros t Ht; unfold is_;
    by rewrite Ht, ?orb_true_r.
Qed.

Lemma keep_alive_set v h : keep_alive (set_keep_alive v h) = v.
Proof.
  unfold keep_alive, set_keep_alive. rewrite find_set_or_erase. simpl.
  destruct (connection_set v h) as (l & Hl & -> & He).
  pose proof (join_nil comma l) as Hn. case_bool_decide as Hj.
  - rewrite Hn in He; [| apply (Forall_impl _ _ _ Hl); by intros t [] | done]. simpl in He.
    destruct (version h <? version_1_1); [done | by destruct v].
  - simpl. destruct (version h <? version_1_1); rewrite has_token_join, He by done; [done | apply negb_involutive].
Qed.

Lemma chunked_set v h : chunked (set_chunked v h) = v.
Proof.
  unfold chunked, set_chunked. rewrite at_set_or_erase, filter_tokens_join.
  set (l := kept _ _). assert (Forall item l) as Hl by apply kept_items.
  assert (join comma l = [] -> l = []) as Hn by (apply join_nil; apply (Forall_impl _ _ _ Hl); by intros t []).
  destruct v.
  - replace (if bool_decide _ then _ else _) with (join comma (l ++ [chunked_token])).
    + rewrite split_join; [by rewrite last_snoc | done | by destruct l |]. apply Forall_app. split; [done |].
      constructor; [| constructor]. by apply token_item; vm_compute.
    + rewrite join_snoc. case_bool_decide as Hc; [subst l; rewrite Hc; by rewrite bool_decide_true |].
      by rewrite bool_decide_false by eauto.
  - destruct (decide (l = [])) as [-> | Hne].
    + simpl. destruct (last (split comma [])) as [x |] eqn:Hx; [| done].
      apply last_Some_elem_of in Hx. pose proof (split_nil comma) as Hs. rewrite Forall_forall in Hs.
      by rewrite (Hs x Hx).
    + rewrite split_join by done. destruct (last l) as [x |] eqn:Hx; [| done].
      apply last_Some_elem_of, list_elem_of_In, List.filter_In in Hx as [_ Hx].
      apply not_true_iff_false. intros He. unfold is_ in Hx. by rewrite He, orb_true_r in Hx.
Qed.

Lemma digits_of_all l : forallb is_digit l = true -> digits_of l = (l, []).
Proof.
  induction l as [| c l IH]; simpl; [done |]. intros [Hc Hl]%andb_true_iff. by rewrite Hc, IH.
Qed.

Lemma from_chars_serialize n : u64 n -> from_chars (serialize n) = Some (n, []).
Proof.
  intros Hn. destruct (serialize_digits n Hn) as (Hd & Hv & He & _). unfold from_chars.
  rewrite digits_of_all, Hv by done. destruct (serialize n); [done |].
  destruct (n <=? max_uint64) eqn:Hm; [done |]. unfold in_width, max_uint64 in *. lia.
Qed.

(** What a header is set to it gives: the connection persists as set, the
    body is chunked as set, and the content length is the one set, whatever
    the version and the lists of tokens in the header.  Chunked and content
    length exclude each other, and no other field changes. *)
Theorem header_settings h v n : (forall m, n = Some m -> u64 m) ->
  keep_alive (set_keep_alive v h) = v /\
  chunked (set_chunked v h) = v /\
  content_length (set_chunked true h) = None /\
  content_length (set_content_length n h) = n /\
  chunked (set_content_length n h) = false /\
  (forall m, iequals m (field.to_string field.connection) = false ->
    fields.find m (fields_ (set_keep_alive v h)) = fields.find m (fields_ h)) /\
  (forall m, iequals m (field.to_string field.transfer_encoding) = false ->
    iequals m (field.to_string field.content_length) = false ->
    fields.find m (fields_ (set_chunked v h)) = fields.find m (fields_ h) /\
    fields.find m (fields_ (set_content_length n h)) = fields.find m (fields_ h)).
Proof.
  intros Hn.
  assert (fold_case (field.to_string field.content_length) <> fold_case (field.to_string field.transfer_encoding))
    as Hd by (intros He; vm_compute in He; discriminate He).
  split_and!.
  - apply keep_alive_set.
  - apply chunked_set.
  - unfold content_length, set_chunked, fields.find_field. rewrite find_set_or_erase_other by done.
    by rewrite find_erase_length, bool_decide_true.
  - unfold content_length, set_content_length, fields.find_field. destruct n as [n |].
    + cbn [fields_]. rewrite fields.set_field_eq, fields.find_set_same. simpl.
      by rewrite from_chars_serialize by auto.
    + by rewrite find_erase_length, bool_decide_true.
  - trans (chunked (set_chunked false h)); [| apply chunked_set]. unfold chunked, fields.at_field, fields.at_, set_content_length.
    unfold fields.find_field.
    set (b := set_chunked false h). destruct n as [n |].
    + simpl. by rewrite fields.set_field_eq, fields.find_set_other.
    + by rewrite find_erase_length, bool_decide_false.
  - intros m Hm. apply find_set_or_erase_other. rewrite iequals_spec, bool_decide_eq_false in Hm. done.
  - intros m Ht Hl. rewrite iequals_spec, bool_decide_eq_false in Ht, Hl.
    assert (forall w, fields.find m (fields_ (set_chunked w h)) = fields.find m (fields_ h)) as Hc.
    { intros w. unfold set_chunked. rewrite find_set_or_erase_other by done.
      destruct w; [| done]. by rewrite find_erase_length, bool_decide_false. }
    split; [done |]. unfold set_content_length. destruct n as [n |].
    + cbn [fields_]. rewrite fields.set_field_eq, fields.find_set_other by done. apply Hc.
    + rewrite find_erase_length, bool_decide_false by done. apply Hc.
Qed.
End laws.
End header.

(** A header with two tokens, set to close and to a length. *)
Lemma header_settings_witness :
  let h := header.mk_base 11 (fields.set_field field.connection (chars "Upgrade, close") []) in
  header.keep_alive (header.set_keep_alive true h) = true /\
  header.content_length (header.set_content_length (Some 1200) h) = Some 1200.
Proof.
  intros h. destruct (header.header_settings h true (Some 1200)) as (Hk & _ & _ & Hc & _); [| by split].
  intros m [= <-]. by vm_compute.
Defined.
