(* ===== verification/HttpParse.v ===== *)
(** * HttpParse: the elements of http messages

    Models [src/messages/http/parser.cpp]: start lines, fields and chunk
    lines.  Each parse function consumes an element from the front of its
    text, or stops with a code: [need_more] if the text ends before the
    element does.  The index of the code is the number of characters consumed,
    which here is the text that remains.  What a parse that stops has written
    to its arguments is not kept, as the caller discards it. *)

From S2P Require Import Prelude.
From S2P Require Import Errors.
From S2P Require Import HttpEnums.
From S2P Require Import HttpFields.
From S2P Require Import HttpHeader.

Import http_text.

Create HintDb http.

Module http_parse.

(** ** Parse functions *)

Inductive parsed (A : Type) :=
  | Parsed (a : A) (rest : bytes)
  | Stopped (ec : code).
Arguments Parsed {A} a rest.
Arguments Stopped {A} ec.

Definition parse (A : Type) : Type := bytes -> parsed A.

Definition stop {A} (e : http_error.http_error_t) : parse A := fun _ => Stopped (to_http_code e).

Definition need_more : code := to_http_code http_error.need_more.

Definition ret {A} (a : A) : parse A := Parsed a.

Definition bind {A B} (p : parse A) (f : A -> parse B) : parse B := fun l =>
  match p l with Parsed a rest => f a rest | Stopped ec => Stopped ec end.

Declare Scope http_scope.
#[local] Open Scope http_scope.
Notation "x <-- p ; k" := (bind p (fun x => k)) (at level 100, p at next level, right associativity) : http_scope.
Notation "p ;;; k" := (bind p (fun _ => k)) (at level 100, right associativity) : http_scope.

(** The current character, if the text does not end. *)
Definition peek : parse Z := fun l => match l with c :: _ => Parsed c l | [] => Stopped need_more end.

Definition skip : parse unit := fun l => match l with _ :: l => Parsed tt l | [] => Stopped need_more end.

(** The next [n] characters, if there are as many. *)
Definition chunk (n : Z) : parse bytes := fun l =>
  if len l <? n then Stopped need_more else Parsed (ztake n l) (zdrop n l).

(** Characters up to one that does not satisfy [f], if the text does not end. *)
Fixpoint many (f : Z -> bool) (l : bytes) : parsed bytes :=
  match l with
  | [] => Stopped need_more
  | c :: l' =>
    if f c then match many f l' with Parsed t rest => Parsed (c :: t) rest | Stopped ec => Stopped ec end
    else Parsed [] l
  end.

(** ** Character classes (rfc9110) *)

Definition cr : Z := 13.
Definition lf : Z := 10.
Definition space : Z := 32.
Definition colon : Z := 58.
Definition quote : Z := 34.
Definition backslash : Z := 92.
Definition equals : Z := 61.

Definition is_tchar (c : Z) : bool :=
  is_digit c || ((97 <=? c) && (c <=? 122)) || ((65 <=? c) && (c <=? 90)) ||
  bool_decide (c ∈ chars "!#$%&'*+-.^_`|~").

(** Visible characters and obs-text. *)
Definition is_target_char (c : Z) : bool := (32 <? c) && negb (c =? 127).

(** Control characters other than horizontal tab. *)
Definition is_control (c : Z) : bool := ((c <? 32) && negb (c =? 9)) || (c =? 127).

Definition to_nibble (c : Z) : Z :=
  if is_digit c then c - 48 else
  if (97 <=? c) && (c <=? 102) then 10 + (c - 97) else
  if (65 <=? c) && (c <=? 70) then 10 + (c - 65) else -1.

(** The text up to the line end (CRLF), which is consumed.  Stops with the
    code clear on a control character. *)
Fixpoint find_line (l : bytes) : parsed bytes :=
  match l with
  | [] => Stopped need_more
  | c :: l =>
    if negb (is_control c)
    then match find_line l with Parsed t rest => Parsed (c :: t) rest | Stopped ec => Stopped ec end else
    if negb (c =? cr) then Stopped cleared else
    match l with
    | [] => Stopped need_more
    | d :: rest =>
      if negb (d =? lf) then Stopped (to_http_code http_error.bad_line_ending) else Parsed [] rest
    end
  end.

(** [if (!ec) ec = e], for a parse that stopped. *)
Definition otherwise {A} (e : http_error.http_error_t) (p : parse A) : parse A := fun l =>
  match p l with
  | Stopped ec => Stopped (if negb (failed ec) then to_http_code e else ec)
  | r => r
  end.

(** [trim_back]: without the whitespace at its end. *)
Fixpoint trim_back (l : bytes) : bytes :=
  match l with
  | [] => []
  | c :: l => match trim_back l with [] => if is_whitespace c then [] else [c] | t => c :: t end
  end.

Section parse.
Context `{Text}.

(** ** Start lines *)

(** HTTP-version = "HTTP/" DIGIT "." DIGIT, limited to 1.0 and 1.1. *)
Definition parse_version : parse Z :=
  text <-- chunk 8;
  if negb (fields.starts_with (chars "HTTP/") text) || negb (is_digit (zget text 5)) ||
     negb (zget text 6 =? 46) || negb (is_digit (zget text 7))
  then stop http_error.bad_version else
  let version := (zget text 5 - 48) * 10 + (zget text 7 - 48) in
  if (version <? header.version_1_0) || (version >? header.version_1_1)
  then stop http_error.bad_version else ret version.

(** request-line = method SP request-target SP HTTP-version CRLF *)
Definition parse_request_line (out : header.request) : parse header.request :=
  method <-- many is_tchar;
  c <-- peek;
  if negb (c =? space) || bool_decide (method = []) then stop http_error.bad_method else
  skip;;;
  target <-- many is_target_char;
  c <-- peek;
  if negb (c =? space) || bool_decide (target = []) then stop http_error.bad_target else
  skip;;;
  version <-- parse_version;
  line <-- chunk 2;
  if negb (bool_decide (line = [cr; lf])) then stop http_error.bad_version else
  let out := header.set_method_string method out in
  let out := header.set_target target out in
  ret (header.mk_request (header.set_version version (header.request_base out)) (header.method_ out)
    (header.method_text out) (header.target out)).

(** status-line = HTTP-version SP status-code SP reason-phrase CRLF *)
Definition parse_status_line (out : header.response) : parse header.response :=
  version <-- parse_version;
  c <-- peek;
  skip;;;
  if negb (c =? space) then stop http_error.bad_version else
  text <-- chunk 4;
  if negb (is_digit (zget text 0)) || negb (is_digit (zget text 1)) || negb (is_digit (zget text 2)) ||
     negb (zget text 3 =? space)
  then stop http_error.bad_status else
  let code := (zget text 0 - 48) * 100 + (zget text 1 - 48) * 10 + (zget text 2 - 48) in
  reason <-- otherwise http_error.bad_reason find_line;
  let out := header.mk_response (header.set_version version (header.response_base out)) (header.code_ out)
    (header.reason_ out) (header.standard_ out) in
  ret (header.set_reason reason (header.set_result code out)).

(** ** Fields *)

Fixpoint span (f : Z -> bool) (l : bytes) : bytes * bytes :=
  match l with
  | c :: l' => if f c then let '(t, r) := span f l' in (c :: t, r) else ([], l)
  | [] => ([], [])
  end.

(** The loop of [token_list]: the tokens so far, whether a comma is needed,
    and the text that remains. *)
Definition token_step (s : list bytes * bool * bytes) : (list bytes * bool * bytes) + (list bytes * bool) :=
  let '(out, need_comma, rest) := s in
  let rest := (span is_whitespace rest).2 in
  match rest with
  | [] => inr (out, true)
  | c :: rest' =>
    if is_tchar c then
      if need_comma then inr (out, false) else
      let '(token, rest) := span is_tchar rest in inl (out ++ [token], true, rest)
    else if negb (c =? comma) then inr (out, false) else inl (out, false, rest')
  end.

(** The leading tokens of the list, and whether it is valid. *)
Definition token_list (value : bytes) : list bytes * bool :=
  match while (fun s => length s.2) token_step ([], false, value) with
  | Some r => r
  | None => ([], false)
  end.

Record framing := mk_framing { chunked : bool; encoded : bool; length_ : option Z }.

Definition unframed : framing := mk_framing false false None.

(** The loop over the items of a content length. *)
Fixpoint frame_lengths (items : list bytes) (length : option Z) : option Z + code :=
  match items with
  | [] => inl length
  | item :: items =>
    match from_chars item with
    | Some (number, []) =>
      match length with
      | Some n =>
        if negb (number =? n) then inr (to_http_code http_error.multiple_content_length)
        else frame_lengths items (Some number)
      | None => frame_lengths items (Some number)
      end
    | _ => inr (to_http_code http_error.bad_content_length)
    end
  end.

Definition frame_field (frame : framing) (name : field.field) (value : bytes) : framing + code :=
  match name with
  | field.connection =>
    if negb (token_list value).2 then inr (to_http_code http_error.bad_value) else inl frame
  | field.content_length =>
    if chunked frame || encoded frame || negb (token_list value).2
    then inr (to_http_code http_error.bad_content_length) else
    match frame_lengths (split comma value) (length_ frame) with
    | inl length => inl (mk_framing (chunked frame) (encoded frame) length)
    | inr ec => inr ec
    end
  | field.transfer_encoding =>
    if chunked frame || encoded frame || header.is_some (length_ frame)
    then inr (to_http_code http_error.bad_transfer_encoding) else
    let '(codings, valid) := token_list value in
    if negb valid || bool_decide (codings = []) then inr (to_http_code http_error.bad_transfer_encoding) else
    let is_chunked coding := iequals coding (chars "chunked") in
    (* The first chunked coding is the last coding. *)
    let found := match last codings with Some coding => is_chunked coding | None => false end &&
      negb (existsb is_chunked (removelast codings)) in
    inl (mk_framing found (negb found) (length_ frame))
  | _ => inl frame
  end.

(** The name of a field, up to its colon. *)
Fixpoint field_name (l : bytes) : parsed bytes :=
  match l with
  | [] => Stopped need_more
  | c :: l' =>
    if c =? colon then Parsed [] l else
    if negb (is_tchar c) then Stopped (to_http_code http_error.bad_field) else
    match field_name l' with Parsed t rest => Parsed (c :: t) rest | Stopped ec => Stopped ec end
  end.

(** One line of a value, and whether it is followed by a folded line. *)
Definition value_line (value : bytes) : parse (bytes * bool) :=
  many is_whitespace;;;
  text <-- otherwise http_error.bad_value find_line;
  c <-- peek;
  let text := trim_back text in
  let value := if bool_decide (text = []) then value else
    (if bool_decide (value = []) then value else value ++ [space]) ++ text in
  if negb (is_whitespace c) then ret (value, false) else skip;;; ret (value, true).

Definition value_step (s : bytes * bytes) : (bytes * bytes) + parsed bytes :=
  let '(value, l) := s in
  match value_line value l with
  | Parsed (value, true) rest => inl (value, rest)
  | Parsed (value, false) rest => inr (Parsed value rest)
  | Stopped ec => inr (Stopped ec)
  end.

(** The lines of a value are joined by spaces. *)
Definition field_value : parse bytes := fun l =>
  match while (fun s => length s.2) value_step ([], l) with
  | Some r => r
  | None => Stopped need_more
  end.

(** A field line, which is added to [out] (if there is one), or the empty
    line that ends the fields. *)
Definition parse_field (out : option fields.t) (frame : framing) : parse (option fields.t * framing * bool) := fun l =>
  if len l <? 2 then Stopped need_more else
  if zget l 0 =? cr then
    if negb (zget l 1 =? lf) then Stopped (to_http_code http_error.bad_line_ending)
    else Parsed (out, frame, true) (zdrop 2 l)
  else
  (name <-- field_name;
   if bool_decide (name = []) then stop http_error.bad_field else
   skip;;;
   value <-- field_value;
   let id := if iequals name (chars "Proxy-Connection") then field.connection else field.to_field name in
   match frame_field frame id value with
   | inr ec => fun _ => Stopped ec
   | inl frame => ret (fields.insert name value <$> out, frame, false)
   end) l.

(** ** Chunks *)

(** The loop over the digits of a chunk size, with the number of digits. *)
Fixpoint chunk_digits (line : bytes) (size index : Z) : (Z * Z) + code :=
  match line with
  | [] => inl (size, index)
  | c :: line =>
    let nibble := to_nibble c in
    if nibble <? 0 then inl (size, index) else
    if size >? Z.shiftr max_uint64 4 then inr (to_http_code http_error.bad_chunk) else
    chunk_digits line (Z.lor (Z.shiftl size 4) nibble) (index + 1)
  end.

Definition parse_chunk_size (line : bytes) : (Z * Z) + code :=
  match chunk_digits line 0 0 with
  | inl (size, index) => if index =? 0 then inr (to_http_code http_error.bad_chunk) else inl (size, index)
  | inr ec => inr ec
  end.

(** The rest of a quoted string. *)
Fixpoint quoted (l : bytes) : option bytes :=
  match l with
  | [] => None
  | c :: l =>
    if c =? quote then Some l else
    if c =? backslash then match l with [] => None | _ :: l => quoted l end
    else quoted l
  end.

(** The current character, the line end (CR) follows the line. *)
Definition at_ (l : bytes) : Z := match l with c :: _ => c | [] => cr end.

(** The loops of [valid_chunk_extensions]: at the start of the extensions, or
    at the semicolon of one. *)
Definition extension_step (s : bool * bytes) : (bool * bytes) + bool :=
  let '(at_semicolon, rest) := s in
  let skip l := (span is_whitespace l).2 in
  if negb at_semicolon then
    if negb (is_whitespace (at_ rest)) && negb (at_ rest =? semicolon) then inr (bool_decide (rest = [])) else
    let rest := skip rest in
    if negb (at_ rest =? semicolon) then inr false else inl (true, rest)
  else
    let rest := skip (tail rest) in
    if negb (is_tchar (at_ rest)) then inr false else
    let rest := (span is_tchar rest).2 in
    let spaced := is_whitespace (at_ rest) in
    let rest := skip rest in
    if at_ rest =? semicolon then inl (true, rest) else
    if negb (at_ rest =? equals) then (if spaced then inr false else inl (false, rest)) else
    let rest := skip (tail rest) in
    if negb (at_ rest =? quote) then
      if negb (is_tchar (at_ rest)) then inr false else inl (false, (span is_tchar rest).2)
    else
      match quoted (tail rest) with None => inr false | Some rest => inl (false, rest) end.

(** The text that remains, and whether its semicolon is next. *)
Definition extension_measure (s : bool * bytes) : nat := (2 * length s.2 + (if s.1 then 0 else 1))%nat.

Definition valid_chunk_extensions (line : bytes) (index : Z) : bool :=
  match while extension_measure extension_step (false, zdrop index line) with
  | Some r => r
  | None => false
  end.

(** The line end (CRLF) of a chunk line, which may contain any characters but
    a CR that does not precede an LF. *)
Fixpoint find_chunk_line (l : bytes) : parsed bytes :=
  match l with
  | [] => Stopped need_more
  | c :: l =>
    if negb (c =? cr)
    then match find_chunk_line l with Parsed t rest => Parsed (c :: t) rest | Stopped ec => Stopped ec end else
    match l with
    | [] => Stopped need_more
    | d :: rest =>
      if negb (d =? lf) then Stopped (to_http_code http_error.bad_line_ending) else Parsed [] rest
    end
  end.
End parse.

(** ** Consumption

    A parse function consumes text from the front, at least [n] characters. *)

Definition consumes {A} (n : nat) (p : parse A) : Prop :=
  forall l a r, p l = Parsed a r -> exists t, l = t ++ r /\ (n <= length t)%nat.

(** A parse that does not need more text is not changed by more text. *)
Definition extend {A} (k : bytes) (r : parsed A) : parsed A :=
  match r with Parsed a rest => Parsed a (rest ++ k) | Stopped ec => Stopped ec end.

Definition stable {A} (p : parse A) : Prop :=
  forall l k, p l <> Stopped need_more -> p (l ++ k) = extend k (p l).

Section combinators.
#[local] Open Scope http_scope.

Lemma consumes_less {A} m n (p : parse A) : consumes m p -> (n <= m)%nat -> consumes n p.
Proof. intros Hp Hm l a r Hr. destruct (Hp l a r Hr) as (t & -> & Ht). exists t. split; [done | lia]. Qed.

Lemma consumes_ret {A} (a : A) : consumes 0 (ret a).
Proof. intros l b r [= <- <-]. by exists []. Qed.

Lemma consumes_stop {A} n e : consumes n (@stop A e).
Proof. done. Qed.

Lemma consumes_bind {A B} m n (p : parse A) (f : A -> parse B) :
  consumes m p -> (forall a, consumes n (f a)) -> consumes (m + n) (bind p f).
Proof.
  intros Hp Hf l b r. unfold bind. destruct (p l) as [a r1 |] eqn:Ha; [| done]. intros Hb.
  destruct (Hp _ _ _ Ha) as (t1 & -> & H1). destruct (Hf _ _ _ _ Hb) as (t2 & -> & H2).
  exists (t1 ++ t2). rewrite length_app, app_assoc. split; [done | lia].
Qed.

Lemma consumes_if {A} n (b : bool) (p q : parse A) : consumes n p -> consumes n q -> consumes n (if b then p else q).
Proof. by destruct b. Qed.

Lemma consumes_bind_0 {A B} (p : parse A) (f : A -> parse B) :
  consumes 0 p -> (forall a, consumes 0 (f a)) -> consumes 0 (bind p f).
Proof. apply (consumes_bind 0 0). Qed.

Lemma consumes_peek : consumes 0 peek.
Proof. intros [| c l] a r [=]; subst. by exists []. Qed.

Lemma consumes_skip : consumes 1 skip.
Proof. intros [| c l] a r [=]; subst. exists [c]. split; [done | simpl; lia]. Qed.

Lemma consumes_chunk n : consumes 0 (chunk n).
Proof.
  intros l a r. unfold chunk. destruct (len l <? n); [done |]. intros [= <- <-].
  exists (ztake n l). split; [by rewrite ztake_zdrop | lia].
Qed.

Lemma consumes_many f : consumes 0 (many f).
Proof.
  intros l. induction l as [| c l IH]; intros a r; simpl; [done |].
  destruct (f c); [| intros [= <- <-]; by exists []].
  destruct (many f l) as [t r' |]; [| done]. intros [= <- <-].
  destruct (IH _ _ eq_refl) as (u & -> & _). exists (c :: u). split; [done | lia].
Qed.

Lemma consumes_find_line : consumes 2 find_line.
Proof.
  intros l. induction l as [| c l IH]; intros a r; simpl; [done |].
  destruct (negb (is_control c)).
  - destruct (find_line l) as [t r' |]; [| done]. intros [= <- <-].
    destruct (IH _ _ eq_refl) as (u & -> & Hu). exists (c :: u). split; [done | simpl; lia].
  - destruct (negb (c =? cr)); [done |]. destruct l as [| d l]; [done |].
    destruct (negb (d =? lf)); [done |]. intros [= <- <-]. by exists [c; d].
Qed.

Lemma consumes_find_chunk_line : consumes 2 find_chunk_line.
Proof.
  intros l. induction l as [| c l IH]; intros a r; simpl; [done |].
  destruct (negb (c =? cr)).
  - destruct (find_chunk_line l) as [t r' |]; [| done]. intros [= <- <-].
    destruct (IH _ _ eq_refl) as (u & -> & Hu). exists (c :: u). split; [done | simpl; lia].
  - destruct l as [| d l]; [done |]. destruct (negb (d =? lf)); [done |]. intros [= <- <-]. by exists [c; d].
Qed.

Lemma consumes_field_name : consumes 0 field_name.
Proof.
  intros l. induction l as [| c l IH]; intros a r; simpl; [done |].
  destruct (c =? colon); [intros [= <- <-]; by exists [] |]. destruct (negb (is_tchar c)); [done |].
  destruct (field_name l) as [t r' |]; [| done]. intros [= <- <-].
  destruct (IH _ _ eq_refl) as (u & -> & _). exists (c :: u). split; [done | lia].
Qed.

Lemma consumes_otherwise {A} n e (p : parse A) : consumes n p -> consumes n (otherwise e p).
Proof. intros Hp l a r. unfold otherwise. destruct (p l) eqn:Ha; [| done]. intros [= <- <-]. eauto. Qed.

Lemma stable_ret {A} (a : A) : stable (ret a).
Proof. done. Qed.

Lemma stable_stop {A} e : stable (@stop A e).
Proof. done. Qed.

Lemma stable_code {A} ec : stable (fun _ => @Stopped A ec).
Proof. done. Qed.

Lemma stable_bind {A B} (p : parse A) (f : A -> parse B) :
  stable p -> (forall a, stable (f a)) -> stable (bind p f).
Proof.
  intros Hp Hf l k. unfold bind. intros Hn.
  rewrite Hp by (intros He; by rewrite He in Hn). destruct (p l) as [a r | ec]; simpl; [| done]. by apply Hf.
Qed.

Lemma stable_if {A} (b : bool) (p q : parse A) : stable p -> stable q -> stable (if b then p else q).
Proof. by destruct b. Qed.

Lemma stable_peek : stable peek.
Proof. by intros [| c l] k. Qed.

Lemma stable_skip : stable skip.
Proof. by intros [| c l] k. Qed.

Lemma stable_chunk n : stable (chunk n).
Proof.
  intros l k. unfold chunk. destruct (len l <? n) eqn:Hl; [done |]. intros _. pose proof (len_nonneg k).
  rewrite len_app. destruct (len l + len k <? n) eqn:?; [lia |]. simpl. by rewrite ztake_app_le, zdrop_app_le by lia.
Qed.

Lemma stable_many f : stable (many f).
Proof.
  intros l k. induction l as [| c l IH]; simpl; [done |]. destruct (f c); [| done].
  destruct (many f l) as [t r | ec]; intros Hn; rewrite IH; [done.. |].
  intros [= ->]. by destruct Hn.
Qed.

Lemma stable_find_line : stable find_line.
Proof.
  intros l k. induction l as [| c l IH]; simpl; [done |]. destruct (negb (is_control c)).
  - destruct (find_line l) as [t r | ec]; intros Hn; rewrite IH; [done.. |]. intros [= ->]. by destruct Hn.
  - destruct (negb (c =? cr)); [done |]. destruct l as [| d l]; [done |]. simpl. by destruct (negb (d =? lf)).
Qed.

Lemma stable_find_chunk_line : stable find_chunk_line.
Proof.
  intros l k. induction l as [| c l IH]; simpl; [done |]. destruct (negb (c =? cr)).
  - destruct (find_chunk_line l) as [t r | ec]; intros Hn; rewrite IH; [done.. |]. intros [= ->]. by destruct Hn.
  - destruct l as [| d l]; [done |]. simpl. by destruct (negb (d =? lf)).
Qed.

Lemma stable_field_name : stable field_name.
Proof.
  intros l k. induction l as [| c l IH]; simpl; [done |]. destruct (c =? colon); [done |].
  destruct (negb (is_tchar c)); [done |].
  destruct (field_name l) as [t r | ec]; intros Hn; rewrite IH; [done.. |]. intros [= ->]. by destruct Hn.
Qed.

Lemma stable_otherwise {A} e (p : parse A) : stable p -> stable (otherwise e p).
Proof.
  intros Hp l k. unfold otherwise. intros Hn.
  rewrite Hp by (intros He; by rewrite He in Hn). by destruct (p l).
Qed.

(** A parse that stops has failed. *)
Definition fails {A} (p : parse A) : Prop := forall l ec, p l = Stopped ec -> failed ec = true.

Lemma fails_ret {A} (a : A) : fails (ret a).
Proof. done. Qed.

Lemma fails_stop {A} e : (forall v, e <> http_error.http_other v) -> fails (@stop A e).
Proof. intros He l ec [= <-]. destruct e; try done. by destruct (He value). Qed.

Lemma fails_bind {A B} (p : parse A) (f : A -> parse B) :
  fails p -> (forall a, fails (f a)) -> fails (bind p f).
Proof. intros Hp Hf l ec. unfold bind. destruct (p l) eqn:Hl; [by apply Hf | intros [= <-]; eauto]. Qed.

Lemma fails_if {A} (b : bool) (p q : parse A) : fails p -> fails q -> fails (if b then p else q).
Proof. by destruct b. Qed.

Lemma fails_peek : fails peek.
Proof. intros [| c l] ec; [by intros [= <-] | done]. Qed.

Lemma fails_skip : fails skip.
Proof. intros [| c l] ec; [by intros [= <-] | done]. Qed.

Lemma fails_chunk n : fails (chunk n).
Proof. intros l ec. unfold chunk. destruct (len l <? n); [by intros [= <-] | done]. Qed.

Lemma fails_many f : fails (many f).
Proof.
  intros l. induction l as [| c l IH]; intros ec; simpl; [by intros [= <-] |]. destruct (f c); [| done].
  destruct (many f l); [done |]. intros [= <-]. by apply IH.
Qed.

Lemma fails_field_name : fails field_name.
Proof.
  intros l. induction l as [| c l IH]; intros ec; simpl; [by intros [= <-] |]. destruct (c =? colon); [done |].
  destruct (negb (is_tchar c)); [by intros [= <-] |]. destruct (field_name l); [done |]. intros [= <-]. by apply IH.
Qed.

Lemma fails_find_chunk_line : fails find_chunk_line.
Proof.
  intros l. induction l as [| c l IH]; intros ec; simpl; [by intros [= <-] |]. destruct (negb (c =? cr)).
  - destruct (find_chunk_line l); [done |]. intros [= <-]. by apply IH.
  - destruct l as [| d l]; [by intros [= <-] |]. destruct (negb (d =? lf)); [by intros [= <-] | done].
Qed.

Lemma fails_otherwise {A} e (p : parse A) : (forall v, e <> http_error.http_other v) -> fails (otherwise e p).
Proof.
  intros He l ec. unfold otherwise. destruct (p l) as [| c]; [done |]. intros [= <-].
  destruct (failed c) eqn:Hc; simpl; [done |]. destruct e; try done. by destruct (He value).
Qed.
End combinators.

#[export] Hint Resolve consumes_ret consumes_stop consumes_peek consumes_chunk consumes_many
  consumes_find_line consumes_field_name consumes_bind_0 consumes_otherwise consumes_if : http.
#[export] Hint Resolve stable_ret stable_stop stable_code stable_bind stable_if stable_peek stable_skip
  stable_chunk stable_many stable_find_line stable_field_name stable_otherwise stable_find_chunk_line : http.
#[export] Hint Resolve fails_ret fails_bind fails_if fails_peek fails_skip fails_chunk fails_many
  fails_field_name fails_find_chunk_line : http.
#[export] Hint Extern 1 (fails (stop _)) => apply fails_stop; intros ?; discriminate : http.
#[export] Hint Extern 1 (fails (otherwise _ _)) => apply fails_otherwise; intros ?; discriminate : http.

(** Follow the structure of a parse function. *)
Ltac consume := first
  [ solve [auto with http]
  | apply consumes_if; consume
  | apply consumes_bind_0; [consume | let x := fresh in intros x; consume] ].

Ltac stay := first
  [ solve [auto with http]
  | apply stable_if; stay
  | apply stable_bind; [stay | let x := fresh in intros x; stay] ].

Ltac refuse := first
  [ solve [auto with http]
  | apply fails_if; refuse
  | apply fails_bind; [refuse | let x := fresh in intros x; refuse] ].

(** ** The elements *)

Section elements.
Context `{Text}.

Lemma consumes_skip_0 : consumes 0 skip.
Proof. eapply consumes_less; [apply consumes_skip | lia]. Qed.

Lemma consumes_version : consumes 0 parse_version.
Proof. unfold parse_version. consume. Qed.

Lemma stable_version : stable parse_version.
Proof. unfold parse_version. stay. Qed.

#[local] Hint Resolve consumes_skip_0 consumes_version stable_version : http.

Lemma consumes_request_line out : consumes 1 (parse_request_line out).
Proof.
  unfold parse_request_line. apply (consumes_bind 0 1); [auto with http | intros method].
  apply (consumes_bind 0 1); [auto with http | intros c]. apply consumes_if; [auto with http |].
  apply (consumes_bind 1 0); [apply consumes_skip | intros _]. consume.
Qed.

Lemma stable_request_line out : stable (parse_request_line out).
Proof. unfold parse_request_line. stay. Qed.

Lemma consumes_status_line out : consumes 1 (parse_status_line out).
Proof.
  unfold parse_status_line. apply (consumes_bind 0 1); [auto with http | intros version].
  apply (consumes_bind 0 1); [auto with http | intros c].
  apply (consumes_bind 1 0); [apply consumes_skip | intros _]. apply consumes_if; [auto with http |].
  apply consumes_bind_0; [auto with http | intros text]. apply consumes_if; [auto with http |].
  apply consumes_bind_0; [| intros reason; auto with http]. apply consumes_otherwise.
  eapply consumes_less; [apply consumes_find_line | lia].
Qed.

Lemma stable_status_line out : stable (parse_status_line out).
Proof. unfold parse_status_line. stay. Qed.

(** Each line of a value ends, so that the loop ends. *)
Lemma consumes_value_line value : consumes 2 (value_line value).
Proof.
  unfold value_line. apply (consumes_bind 0 2); [auto with http | intros _].
  apply (consumes_bind 2 0); [apply consumes_otherwise, consumes_find_line | intros text].
  consume.
Qed.

Lemma stable_value_line value : stable (value_line value).
Proof. unfold value_line. stay. Qed.

Lemma value_decreases : decreases (fun _ => True) (fun s : bytes * bytes => length s.2) value_step.
Proof.
  intros [v l] s' _. unfold value_step. destruct (value_line v l) as [[w []] r |] eqn:Hv; [| done..].
  intros [= <-]. destruct (consumes_value_line v _ _ _ Hv) as (t & -> & Ht). simpl. rewrite length_app. lia.
Qed.

(** The loop of a value. *)
Definition value_loop (s : bytes * bytes) : parsed bytes :=
  match while (fun s => length s.2) value_step s with Some r => r | None => Stopped need_more end.

Lemma value_loop_unfold v l : value_loop (v, l) =
  match value_line v l with
  | Parsed (w, true) r => value_loop (w, r)
  | Parsed (w, false) r => Parsed w r
  | Stopped ec => Stopped ec
  end.
Proof.
  unfold value_loop at 1. rewrite (while_unfold _ _ _ _ value_decreases) by done. unfold value_step at 1.
  by destruct (value_line v l) as [[w []] r |].
Qed.

Lemma value_loop_spec n : forall v l, (length l < n)%nat ->
  (forall w r, value_loop (v, l) = Parsed w r -> exists t, l = t ++ r /\ (2 <= length t)%nat) /\
  (forall k, value_loop (v, l) <> Stopped need_more -> value_loop (v, l ++ k) = extend k (value_loop (v, l))).
Proof.
  induction n as [| n IH]; intros v l Hn; [lia |]. split.
  - intros w r. rewrite value_loop_unfold. destruct (value_line v l) as [[x []] q |] eqn:Hv; [| | done].
    + destruct (consumes_value_line _ _ _ _ Hv) as (t & -> & Ht). intros Hr. rewrite length_app in Hn.
      destruct (IH x q) as [IHc _]; [lia |]. destruct (IHc _ _ Hr) as (u & -> & Hu).
      exists (t ++ u). rewrite length_app, app_assoc. split; [done | lia].
    + intros [= <- <-]. eapply consumes_value_line. exact Hv.
  - intros k. rewrite (value_loop_unfold v (l ++ k)), (value_loop_unfold v l). intros Hs.
    rewrite stable_value_line by (intros He; by rewrite He in Hs).
    destruct (value_line v l) as [[x []] q |] eqn:Hv; [| done..]. simpl.
    destruct (consumes_value_line _ _ _ _ Hv) as (t & -> & Ht). rewrite length_app in Hn.
    destruct (IH x q) as [_ IHs]; [lia |]. by apply IHs.
Qed.

Lemma consumes_field_value : consumes 2 field_value.
Proof. intros l w r Hv. by destruct (value_loop_spec (S (length l)) [] l) as [Hc _]; [lia | by apply (Hc w)]. Qed.

Lemma stable_field_value : stable field_value.
Proof. intros l k. by destruct (value_loop_spec (S (length l)) [] l) as [_ Hs]; [lia | apply Hs]. Qed.

#[local] Hint Resolve stable_field_value : http.

Lemma consumes_parse_field out frame : consumes 2 (parse_field out frame).
Proof.
  intros l a r. unfold parse_field. destruct (len l <? 2) eqn:Hl; [done |].
  destruct (zget l 0 =? cr).
  - destruct (negb (zget l 1 =? lf)); [done |]. intros [= <- <-]. exists (ztake 2 l). rewrite ztake_zdrop.
    split; [done |]. pose proof (len_ztake 2 l ltac:(lia)) as Ht. unfold len in *. lia.
  - intros Hr. eapply (consumes_bind 0 2); [| | exact Hr]; [apply consumes_field_name | intros name].
    apply consumes_if; [apply consumes_stop |]. apply (consumes_bind 0 2); [apply consumes_skip_0 | intros _].
    eapply consumes_less; [eapply consumes_bind; [apply consumes_field_value | intros value] | lia].
    instantiate (1 := 0%nat). destruct (frame_field _ _ _); [apply consumes_ret | done].
Qed.

Lemma stable_parse_field out frame : stable (parse_field out frame).
Proof.
  intros l k. unfold parse_field. destruct (len l <? 2) eqn:Hl; [done |].
  pose proof (len_nonneg k). rewrite len_app, !zget_app_l by lia.
  destruct (len l + len k <? 2) eqn:?; [lia |]. destruct (zget l 0 =? cr).
  - destruct (negb (zget l 1 =? lf)); [done |]. simpl. intros _. by rewrite zdrop_app_le by lia.
  - intros Hs. refine (stable_bind _ _ _ _ l k Hs); [auto with http | intros name]. apply stable_if; [auto with http |].
    apply stable_bind; [auto with http | intros _]. apply stable_bind; [auto with http | intros value].
    destruct (frame_field _ _ _); auto with http.
Qed.
Lemma fails_request_line out : fails (parse_request_line out).
Proof. unfold parse_request_line, parse_version. refuse. Qed.

Lemma fails_status_line out : fails (parse_status_line out).
Proof. unfold parse_status_line, parse_version. refuse. Qed.

Lemma fails_field_value : fails field_value.
Proof.
  intros l ec. change (field_value l) with (value_loop ([], l)). generalize (@nil Z) as v.
  induction l as [l IH] using (induction_ltof1 _ (@length Z)). intros v. rewrite value_loop_unfold.
  destruct (value_line v l) as [[w []] r | e] eqn:Hv; [| done |].
  - apply IH. destruct (consumes_value_line _ _ _ _ Hv) as (t & -> & Ht). unfold ltof. rewrite length_app. lia.
  - intros [= <-]. revert Hv. assert (fails (value_line v)) as Hf by (unfold value_line; refuse). apply Hf.
Qed.

Lemma frame_lengths_fails items m ec : frame_lengths items m = inr ec -> failed ec = true.
Proof.
  revert m. induction items as [| x items IH]; intros m; simpl; [done |].
  destruct (from_chars x) as [[n [|]] |]; [| by intros [= <-]..].
  destruct m as [k |]; [| apply IH]. destruct (negb (n =? k)); [by intros [= <-] | apply IH].
Qed.

Lemma frame_field_fails frame id v ec : frame_field frame id v = inr ec -> failed ec = true.
Proof.
  unfold frame_field. destruct id; try done.
  - destruct (negb _); [by intros [= <-] | done].
  - destruct (_ || _); [by intros [= <-] |]. destruct (frame_lengths _ _) eqn:Hl; [done |].
    intros [= <-]. by eapply frame_lengths_fails.
  - destruct (_ || _); [by intros [= <-] |]. destruct (token_list v) as [codings valid].
    destruct (_ || _); [by intros [= <-] | done].
Qed.

Lemma fails_parse_field out frame : fails (parse_field out frame).
Proof.
  intros l ec. unfold parse_field. destruct (len l <? 2); [by intros [= <-] |]. destruct (zget l 0 =? cr).
  - destruct (negb _); [by intros [= <-] | done].
  - apply fails_bind; [auto with http | intros name]. apply fails_if; [auto with http |].
    apply fails_bind; [auto with http | intros _]. apply fails_bind; [apply fails_field_value | intros v].
    destruct (frame_field _ _ v) eqn:Hf; [auto with http |]. intros k e [= <-]. by eapply frame_field_fails.
Qed.

(** ** The loops of values and of chunk extensions end *)

Lemma span_length f l : (length (span f l).2 <= length l)%nat.
Proof. induction l as [| c l IH]; simpl; [done |]. destruct (f c); [| done]. destruct (span f l). simpl in *. lia. Qed.

Lemma span_less f l : f (at_ l) = true -> l <> [] -> (length (span f l).2 < length l)%nat.
Proof.
  destruct l as [| c l]; [done |]. simpl. intros -> _. pose proof (span_length f l). destruct (span f l). simpl in *. lia.
Qed.

Lemma token_decreases : decreases (fun _ => True) (fun s : list bytes * bool * bytes => length s.2) token_step.
Proof.
  intros [[out need] l] s' _. unfold token_step. pose proof (span_length is_whitespace l) as Hl.
  destruct (span is_whitespace l).2 as [| c r] eqn:Hr; [done |].
  destruct (is_tchar c) eqn:Hc.
  - destruct need; [done |]. pose proof (span_less is_tchar (c :: r) Hc) as Ht.
    destruct (span is_tchar (c :: r)) as [token q]. intros [= <-]. simpl in *. split; [done |].
    specialize (Ht ltac:(done)). lia.
  - destruct (negb (c =? comma)); [done |]. intros [= <-]. simpl in *. split; [done | lia].
Qed.

Lemma token_list_ends value : is_Some (while (fun s => length s.2) token_step ([], false, value)).
Proof. eapply while_total; [apply token_decreases | done]. Qed.

Lemma quoted_length l r : quoted l = Some r -> (length r < length l)%nat.
Proof.
  revert r. induction l as [l IH] using (induction_ltof1 _ (@length Z)). intros r. destruct l as [| c l]; [done |].
  simpl. destruct (c =? quote); [intros [= <-]; lia |]. destruct (c =? backslash).
  - destruct l as [| d l]; [done |]. intros Hr. specialize (IH l). unfold ltof in IH. simpl in IH.
    specialize (IH ltac:(lia) r Hr). simpl. lia.
  - intros Hr. specialize (IH l). unfold ltof in IH. simpl in IH. specialize (IH ltac:(lia) r Hr). lia.
Qed.

Lemma at_not_nil l c : at_ l = c -> c <> cr -> l <> [].
Proof. by intros <- Hc ->. Qed.

Lemma at_tchar l : is_tchar (at_ l) = true -> l <> [].
Proof. intros Hc ->. by vm_compute in Hc. Qed.

Lemma extension_decreases : decreases (fun s : bool * bytes => s.1 = true -> at_ s.2 = semicolon)
  extension_measure extension_step.
Proof.
  intros [b l] s' Hs. unfold extension_step, extension_measure. destruct b; simpl in Hs |- *.
  - specialize (Hs eq_refl). assert (l <> []) as Hn by (by eapply at_not_nil).
    pose proof (span_length is_whitespace (tail l)) as H1. set (r1 := (span is_whitespace (tail l)).2) in *.
    destruct (is_tchar (at_ r1)) eqn:Ht; [| done]. simpl.
    pose proof (span_less is_tchar r1 Ht (at_tchar _ Ht)) as H2. set (r2 := (span is_tchar r1).2) in *.
    pose proof (span_length is_whitespace r2) as H3. set (r3 := (span is_whitespace r2).2) in *.
    assert (length (tail l) <= length l)%nat as H4 by (destruct l; simpl; lia).
    destruct (at_ r3 =? semicolon) eqn:Hsc; [intros [= <-]; simpl; split; [intros _; lia | lia] |].
    destruct (at_ r3 =? equals) eqn:Heq; simpl.
    2:{ destruct (is_whitespace (at_ r2)); [done |]. intros [= <-]. simpl. split; [done | lia]. }
    pose proof (span_length is_whitespace (tail r3)) as H5. set (r4 := (span is_whitespace (tail r3)).2) in *.
    assert (length (tail r3) <= length r3)%nat as H6 by (destruct r3; simpl; lia).
    destruct (at_ r4 =? quote) eqn:Hq; simpl.
    + destruct (quoted (tail r4)) as [r5 |] eqn:H7; [| done]. intros [= <-]. apply quoted_length in H7. simpl.
      assert (length (tail r4) <= length r4)%nat by (destruct r4; simpl; lia). split; [done | lia].
    + destruct (is_tchar (at_ r4)); [| done]. intros [= <-]. simpl. pose proof (span_length is_tchar r4).
      split; [done | lia].
  - destruct (negb (is_whitespace (at_ l)) && negb (at_ l =? semicolon)); [done |].
    pose proof (span_length is_whitespace l). destruct (at_ (span is_whitespace l).2 =? semicolon) eqn:Hc; [| done].
    intros [= <-]. simpl. split; [intros _; lia | lia].
Qed.

Lemma valid_chunk_extensions_ends line index :
  is_Some (while extension_measure extension_step (false, zdrop index line)).
Proof. eapply while_total; [apply extension_decreases | done]. Qed.
End elements.
End http_parse.
