(* ===== verification/HttpParser.v ===== *)
(** * HttpParser: the incremental parser of messages

    Models [include/bitcoin/network/messages/http/parser.hpp] and
    [include/bitcoin/network/impl/messages/http/parser.ipp] over any body
    ([BodyReader], of [message.hpp]), and the loop with which a socket drives
    it ([do_parse] and [handle_parse] of [src/net/socket_http.cpp], of which
    [do_parse] here is the loop over what is buffered, and [receive] the reads
    into the flat buffer, with the overflow of a full one).  The parser is
    verified against the laws of the interface ([BodyLaws]), which the bodies of
    [HttpBodies] satisfy: a reader that takes all that it is given.  The json and
    json-rpc readers ([json_body.ipp], [rpc/body.cpp]) do not keep them, as they
    give back what follows their document, which is fed to them again: of these
    the json-rpc reader is verified with its own parser in [RpcBody].

    An operation gives the number of bytes that it consumes, its code, and the
    parser.  The loops of the parser consume text or advance the state, which
    is their measure. *)

From S2P Require Import Prelude.
From S2P Require Import Errors.
From S2P Require Import FlatBuffer.
From S2P Require Import HttpEnums.
From S2P Require Import HttpFields.
From S2P Require Import HttpHeader.
From S2P Require Import HttpParse.

(** The reader of a body: [V] is the body value with the state of its reader. *)
Class BodyReader (V : Type) := {
  reader_init : option Z -> header.t -> V -> V * code;
  reader_put : bytes -> V -> Z * code * V;
  reader_finish : V -> V * code
}.

(** A body that pauses, as what the socket reports of its code. *)
Notation pauses ec := (bool_decide (rpc_to_error_code ec = network_code error.need_buffer)).

(** What a parser relies on: a reader consumes all that it is given or reports
    why not, does not report [need_more] (which is the parser's), and does not
    depend on how its bytes are divided.  A reader that pauses ([need_buffer])
    does so wherever the bytes end.  So do the bodies of [bodies.hpp]; a json
    reader does not, which may take less than it is given without a failure. *)
Class BodyLaws (V : Type) `{BodyReader V} : Prop := {
  init_code n h v : (reader_init n h v).2 <> http_parse.need_more;
  finish_code v : (reader_finish v).2 <> http_parse.need_more;
  put_code d v : (reader_put d v).1.2 <> http_parse.need_more;
  put_used d v u ec v' : reader_put d v = (u, ec, v') -> 0 <= u <= len d;
  put_all d v u ec v' : reader_put d v = (u, ec, v') -> failed ec = false -> u = len d;
  put_more a b v u ec v' u2 ec2 v2 : a <> [] -> b <> [] ->
    reader_put a v = (u, ec, v') -> failed ec = false -> reader_put b v' = (u2, ec2, v2) ->
    if failed ec2 && negb (pauses ec2) then (reader_put (a ++ b) v).1.2 = ec2
    else reader_put (a ++ b) v = (len a + u2, ec2, v2);
  put_failed a b v u ec v' : a <> [] -> reader_put a v = (u, ec, v') -> failed ec = true ->
    if pauses ec then reader_put (a ++ b) v = (u, ec, v')
    else (reader_put (a ++ b) v).1.2 = ec
}.

Module http_parser.

Inductive state :=
  | start_line | fields | body | body_to_eof | chunk_header | chunk_body | trailer | done.

#[global] Instance state_eq_dec : EqDecision state.
Proof. solve_decision. Defined.

(** How far a socket parses, and whether it reads more or invokes the handler. *)
Inductive parse_mode := header_mode | some_mode | all_mode.

#[global] Instance parse_mode_eq_dec : EqDecision parse_mode.
Proof. solve_decision. Defined.

Inductive handled := Reading | Handled (ec : code).

Section parser.
Context `{Text} {V : Type} `{BodyReader V}.

(** The message (header and body), and the state of its parse. *)
Record t := mk {
  header_of : header.t;
  body_of : V;
  header_limit_ : Z;
  body_limit_ : Z;
  frame_ : http_parse.framing;
  state_ : state;
  header_ : Z;
  remaining_ : Z;
  total_ : Z;
  expect_crlf_ : bool;
  skip_ : bool;
  received_ : bool
}.

Definition make (h : header.t) (v : V) : t :=
  mk h v 0 0 http_parse.unframed start_line 0 0 0 false false false.

Definition set_header (v : header.t) (p : t) : t :=
  mk v (body_of p) (header_limit_ p) (body_limit_ p) (frame_ p) (state_ p) (header_ p) (remaining_ p)
    (total_ p) (expect_crlf_ p) (skip_ p) (received_ p).
Definition set_body (v : V) (p : t) : t :=
  mk (header_of p) v (header_limit_ p) (body_limit_ p) (frame_ p) (state_ p) (header_ p) (remaining_ p)
    (total_ p) (expect_crlf_ p) (skip_ p) (received_ p).
Definition set_frame (v : http_parse.framing) (p : t) : t :=
  mk (header_of p) (body_of p) (header_limit_ p) (body_limit_ p) v (state_ p) (header_ p) (remaining_ p)
    (total_ p) (expect_crlf_ p) (skip_ p) (received_ p).
Definition set_state (v : state) (p : t) : t :=
  mk (header_of p) (body_of p) (header_limit_ p) (body_limit_ p) (frame_ p) v (header_ p) (remaining_ p)
    (total_ p) (expect_crlf_ p) (skip_ p) (received_ p).
Definition set_used (v : Z) (p : t) : t :=
  mk (header_of p) (body_of p) (header_limit_ p) (body_limit_ p) (frame_ p) (state_ p) v (remaining_ p)
    (total_ p) (expect_crlf_ p) (skip_ p) (received_ p).
Definition set_remaining (v : Z) (p : t) : t :=
  mk (header_of p) (body_of p) (header_limit_ p) (body_limit_ p) (frame_ p) (state_ p) (header_ p) v
    (total_ p) (expect_crlf_ p) (skip_ p) (received_ p).
Definition set_total (v : Z) (p : t) : t :=
  mk (header_of p) (body_of p) (header_limit_ p) (body_limit_ p) (frame_ p) (state_ p) (header_ p)
    (remaining_ p) v (expect_crlf_ p) (skip_ p) (received_ p).
Definition set_expect_crlf (v : bool) (p : t) : t :=
  mk (header_of p) (body_of p) (header_limit_ p) (body_limit_ p) (frame_ p) (state_ p) (header_ p)
    (remaining_ p) (total_ p) v (skip_ p) (received_ p).
Definition set_received (v : bool) (p : t) : t :=
  mk (header_of p) (body_of p) (header_limit_ p) (body_limit_ p) (frame_ p) (state_ p) (header_ p)
    (remaining_ p) (total_ p) (expect_crlf_ p) (skip_ p) v.

Definition header_limit (v : Z) (p : t) : t :=
  mk (header_of p) (body_of p) v (body_limit_ p) (frame_ p) (state_ p) (header_ p) (remaining_ p)
    (total_ p) (expect_crlf_ p) (skip_ p) (received_ p).
Definition body_limit (v : Z) (p : t) : t :=
  mk (header_of p) (body_of p) (header_limit_ p) v (frame_ p) (state_ p) (header_ p) (remaining_ p)
    (total_ p) (expect_crlf_ p) (skip_ p) (received_ p).
Definition skip (v : bool) (p : t) : t :=
  mk (header_of p) (body_of p) (header_limit_ p) (body_limit_ p) (frame_ p) (state_ p) (header_ p)
    (remaining_ p) (total_ p) (expect_crlf_ p) v (received_ p).

(** The fields of the message. *)
Definition message_fields (p : t) : fields.t := header.fields_ (header.base_of (header_of p)).
Definition set_fields (v : fields.t) (p : t) : t :=
  set_header (header.with_base
    (header.mk_base (header.version (header.base_of (header_of p))) v) (header_of p)) p.

Definition is_header_done (p : t) : bool :=
  negb (bool_decide (state_ p = start_line)) && negb (bool_decide (state_ p = fields)).
Definition is_done (p : t) : bool := bool_decide (state_ p = done).

(** ** The header *)

(** The bytes that remain to the header limit. *)
Definition window (p : t) : Z := header_limit_ p - header_limit_ p `min` header_ p.

(** The header is parsed within the bytes remaining to the header limit. *)
Definition header_window (data : bytes) (p : t) : bytes :=
  if header_limit_ p =? 0 then data else ztake (window p) data.

(** An incomplete header element that fills the window exceeds the limit. *)
Definition header_limited (data : bytes) (ec : code) (p : t) : code :=
  if bool_decide (ec = http_parse.need_more) && negb (header_limit_ p =? 0) && (window p <=? len data)
  then to_http_code http_error.header_limit else ec.

Definition finish (p : t) : t * code :=
  let '(v, ec) := reader_finish (body_of p) in (set_state done (set_body v p), ec).

Definition start_body (s : state) (length : option Z) (p : t) : t * code :=
  let p := set_state s p in
  let '(v, ec) := reader_init length (header_of p) (body_of p) in (set_body v p, ec).

Definition finish_header (p : t) : t * code :=
  let bodiless := skip_ p || match header_of p with
    | header.Response r => header.bodiless r
    | header.Request _ => false end in
  if bodiless then finish p else
  match http_parse.length_ (frame_ p) with
  | Some length =>
    let p := set_remaining length p in
    if remaining_ p =? 0 then finish p else
    if negb (body_limit_ p =? 0) && (remaining_ p >? body_limit_ p)
    then (p, to_http_code http_error.body_limit) else
    start_body body (Some length) p
  | None =>
    if http_parse.chunked (frame_ p) then start_body chunk_header None p else
    if http_parse.encoded (frame_ p) then
      if header.is_request (header_of p) then (p, to_http_code http_error.bad_transfer_encoding)
      else start_body body_to_eof None p
    else
    if header.is_request (header_of p) then finish p else start_body body_to_eof None p
  end.

Definition parse_start_line (h : header.t) : http_parse.parse header.t :=
  match h with
  | header.Request r => http_parse.bind (http_parse.parse_request_line r) (fun r => http_parse.ret (header.Request r))
  | header.Response r => http_parse.bind (http_parse.parse_status_line r) (fun r => http_parse.ret (header.Response r))
  end.

Definition put_start_line (data : bytes) (p : t) : Z * code * t :=
  match data with
  | [] => (0, cleared, p)
  | _ =>
    match parse_start_line (header_of p) (header_window data p) with
    | http_parse.Stopped ec => (0, header_limited data ec p, p)
    | http_parse.Parsed h rest =>
      let used := len (header_window data p) - len rest in
      (used, cleared, set_state fields (set_used (narrow 64 (header_ p + used)) (set_header h p)))
    end
  end.

(** The loop of [put_fields] and of [put_trailer], whose fields are not
    retained: one field.  Gives the bytes used so far and the parser, or
    leaves when the fields end. *)
Definition field_step (retained : bool) (data : bytes) (s : Z * t) : (Z * t) + (Z * code * t) :=
  let '(used, p) := s in
  let rest := zdrop used data in
  let out := if retained then Some (message_fields p) else None in
  match http_parse.parse_field out (frame_ p) (header_window rest p) with
  | http_parse.Stopped ec => inr (used, header_limited rest ec p, p)
  | http_parse.Parsed (out, frame, is_end) rest' =>
    let step := len (header_window rest p) - len rest' in
    let p := set_frame frame (match out with Some f => set_fields f p | None => p end) in
    let p := set_used (narrow 64 (header_ p + step)) p in
    if is_end then inr (used + step, cleared, p) else inl (used + step, p)
  end.

Definition put_field_lines (retained : bool) (data : bytes) (p : t) : Z * code * t :=
  match while (fun s => Z.to_nat (len data - s.1)) (field_step retained data) (0, p) with
  | Some r => r
  | None => (0, cleared, p)
  end.

Definition put_fields (data : bytes) (p : t) : Z * code * t :=
  let '(used, ec, p) := put_field_lines true data p in
  if failed ec then (used, ec, p) else
  let '(p, ec) := finish_header p in (used, ec, p).

(** ** The body *)

Definition complete_body (p : t) : t * code :=
  if bool_decide (state_ p = chunk_body) then (set_state chunk_header p, cleared) else finish p.

Definition put_body (data : bytes) (p : t) : Z * code * t :=
  let delimited := negb (bool_decide (state_ p = body_to_eof)) in
  if delimited && (remaining_ p =? 0) then let '(p, ec) := complete_body p in (0, ec, p) else
  let size := if delimited then len data `min` remaining_ p else len data in
  if negb delimited && negb (body_limit_ p =? 0) && (narrow 64 (total_ p + size) >? body_limit_ p)
  then (0, to_http_code http_error.body_limit, p) else
  if size =? 0 then (0, cleared, p) else
  let '(used, ec, v) := reader_put (ztake size data) (body_of p) in
  let p := set_total (narrow 64 (total_ p + used)) (set_body v p) in
  let p := if delimited then set_remaining (remaining_ p - used) p else p in
  if negb (failed ec) && delimited && (remaining_ p =? 0)
  then let '(p, ec) := complete_body p in (used, ec, p) else (used, ec, p).

(** ** Chunks *)

(** The line of a chunk, when it is complete. *)
Definition put_chunk_line (line : bytes) (used : Z) (p : t) : Z * code * t :=
  match http_parse.parse_chunk_size line with
  | inr ec => (0, ec, p)
  | inl (size, digits) =>
    if negb (body_limit_ p =? 0) && (size >? body_limit_ p - body_limit_ p `min` total_ p)
    then (0, to_http_code http_error.body_limit, p) else
    if negb (http_parse.valid_chunk_extensions line digits)
    then (0, to_http_code http_error.bad_chunk_extension, p) else
    let p := set_expect_crlf true (set_remaining size p) in
    let p := set_state (if size =? 0 then trailer else chunk_body) p in
    (* The trailer is parsed within the header limit, plus the final line end. *)
    let p := if size =? 0 then set_used ((header_ p - 2) `max` 0) p else p in
    (used, cleared, p)
  end.

(** The line end following chunk data is parsed with the next chunk header. *)
Definition put_chunk_header (data : bytes) (p : t) : Z * code * t :=
  if len data <? 2 then (0, cleared, p) else
  if expect_crlf_ p && negb (fields.starts_with [http_parse.cr; http_parse.lf] data)
  then (0, to_http_code http_error.bad_chunk, p) else
  let index := if expect_crlf_ p then 2 else 0 in
  match http_parse.find_chunk_line (zdrop index data) with
  | http_parse.Stopped ec =>
    if bool_decide (ec = http_parse.need_more) then
      if negb (header_limit_ p =? 0) && (len data >=? header_limit_ p)
      then (0, to_http_code http_error.bad_chunk_extension, p) else (0, cleared, p)
    else (0, ec, p)
  | http_parse.Parsed line rest => put_chunk_line line (len data - len rest) p
  end.

(** Trailer fields frame like header fields, but are not retained. *)
Definition put_trailer (data : bytes) (p : t) : Z * code * t :=
  let '(used, ec, p) := put_field_lines false data p in
  if failed ec then (used, ec, p) else
  let '(p, ec) := finish p in (used, ec, p).

(** ** The parse *)

Definition put_state (rest : bytes) (p : t) : Z * code * t :=
  match state_ p with
  | start_line => put_start_line rest p
  | fields => put_fields rest p
  | body | body_to_eof | chunk_body => put_body rest p
  | chunk_header => put_chunk_header rest p
  | trailer => put_trailer rest p
  | done => (0, cleared, p)
  end.

(** The loop of [put], which pauses once the header is complete. *)
Definition put_step (data : bytes) (s : Z * t) : (Z * t) + (Z * code * t) :=
  let '(used, p) := s in
  if is_done p then inr (used, cleared, p) else
  let '(step, ec, p') := put_state (zdrop used data) p in
  if bool_decide (state_ p = fields) && negb (failed ec) && negb (bool_decide (state_ p' = fields))
  then inr (used + step, ec, p') else
  let used := used + step in
  if negb (failed ec) && (step =? 0) && bool_decide (state_ p' = state_ p)
  then inr (used, http_parse.need_more, p') else
  if failed ec then inr (used, ec, p') else inl (used, p').

(** A body that is exhausted advances the state without consuming text. *)
Definition pending (p : t) : nat :=
  match state_ p with body | body_to_eof | chunk_body => 1 | _ => 0 end.

Definition put_measure (data : bytes) (s : Z * t) : nat :=
  (2 * Z.to_nat (len data - s.1) + pending s.2)%nat.

Definition put (data : bytes) (p : t) : Z * code * t :=
  let p := set_received (received_ p || negb (bool_decide (data = []))) p in
  match while (put_measure data) (put_step data) (0, p) with
  | Some r => r
  | None => (0, cleared, p)
  end.

(** The stream ended, which completes a body delimited by it. *)
Definition put_eof (p : t) : t * code :=
  match state_ p with
  | body_to_eof => finish p
  | done => (p, cleared)
  | _ => (p, to_http_code (if received_ p then http_error.partial_message else http_error.end_of_stream))
  end.

(** ** The socket *)

(** The loop of [do_parse] (its reads are those of [receive]): parse what is buffered, until more is to be read
    or the handler is invoked.  The state is the buffer, the parser and the
    total. *)
Definition parse_step (mode : parse_mode) (s : bytes * t * Z) : (bytes * t * Z) + (handled * bytes * t * Z) :=
  let '(buffer, p, total) := s in
  let '(used, ec, p) := put buffer p in
  let buffer := zdrop used buffer in
  let total := (total + used) `min` max_size_t in
  if bool_decide (ec = http_parse.need_more) then inr (Reading, buffer, p, total) else
  if failed ec then inr (Handled (rpc_to_error_code ec), buffer, p, total) else
  if is_done p || (bool_decide (mode = header_mode) && is_header_done p) ||
     (bool_decide (mode = some_mode) && negb (used =? 0))
  then inr (Handled error.success, buffer, p, total) else
  if used =? 0 then inr (Reading, buffer, p, total) else inl (buffer, p, total).

Definition do_parse (mode : parse_mode) (buffer : bytes) (p : t) : handled * bytes * t * Z :=
  match while (fun s => length s.1.1) (parse_step mode) (buffer, p, 0) with
  | Some r => r
  | None => (Reading, buffer, p, 0)
  end.

(** A socket that reads pieces, each of which it buffers and parses, until the
    handler is invoked.  What is not read is left with what is not consumed. *)
Fixpoint feed (pieces : list bytes) (buffer : bytes) (p : t) : handled * bytes * t :=
  match pieces with
  | [] => (Reading, buffer, p)
  | piece :: pieces =>
    let '(h, buffer, p, _) := do_parse all_mode (buffer ++ piece) p in
    match h with
    | Reading => feed pieces buffer p
    | _ => (h, buffer ++ concat pieces, p)
    end
  end.

(** What [do_parse] reads: into the available capacity of the buffer, growing it
    by up to the header limit, within its maximum. *)
Definition read_size (header : Z) (b : flat_buffer.t) : Z :=
  (flat_buffer.max_size b - flat_buffer.size b) `max` 0 `min` ((flat_buffer.capacity b - flat_buffer.size b) `max` header).

(** [do_parse] from its read on, and [handle_parse]: the bytes that the peer
    sends, of which a read gives as many as were prepared, and the rest to the
    next; what is committed is parsed, and what was parsed is consumed.  A
    buffer that cannot be read into is an overflow.  Gives what the peer sent
    that was not read as well. *)
Fixpoint receive (fuel : nat) (header : Z) (pieces : list bytes) (b : flat_buffer.t) (p : t) : handled * flat_buffer.t * t * list bytes :=
  let size := read_size header b in
  if size =? 0 then (Handled error.buffer_overflow, b, p, pieces) else
  match fuel, pieces, flat_buffer.prepare size b with
  | S fuel, piece :: pieces, Some b =>
    let read := ztake size piece in
    let pieces := if size <? len piece then zdrop size piece :: pieces else pieces in
    let b := flat_buffer.commit (len read) (flat_buffer.fill read b) in
    let '(h, rest, p, _) := do_parse all_mode (flat_buffer.data b) p in
    let b := flat_buffer.consume (len (flat_buffer.data b) - len rest) b in
    match h with
    | Reading => receive fuel header pieces b p
    | Handled ec => (Handled ec, b, p, pieces)
    end
  | _, _, _ => (Reading, b, p, pieces)
  end.
End parser.
End http_parser.
