(* ===== verification/HttpBodies.v ===== *)
(** * HttpBodies: bodies of http messages

    Models [include/bitcoin/network/messages/http/bodies.hpp]: the readers and
    writers of the empty body, of bytes in a container, of bytes in memory of
    the caller, and of buffers that the caller provides one by one.  The
    readers satisfy the laws of [HttpParser].  The body in a file is not
    modelled. *)

From S2P Require Import Prelude.
From S2P Require Import Errors.
From S2P Require Import HttpEnums.
From S2P Require Import HttpFields.
From S2P Require Import HttpHeader.
From S2P Require Import HttpParse.
From S2P Require Import HttpParser.

(** The writer of a body, which gives a buffer and whether more follow, or
    nothing when it is done. *)
Class BodyWriter (V : Type) := {
  writer_init : V -> V * code;
  writer_get : V -> option (bytes * bool) * code * V
}.

(** ** A body that must be empty *)

Module empty_body.
Definition t : Type := unit.

Definition init (length : option Z) (h : header.t) (v : t) : t * code := (v, cleared).
Definition put (buffer : bytes) (v : t) : Z * code * t :=
  (0, (if len buffer =? 0 then cleared else to_http_code http_error.unexpected_body), v).
Definition finish (v : t) : t * code := (v, cleared).

Definition write_init (v : t) : t * code := (v, cleared).
Definition get (v : t) : option (bytes * bool) * code * t := (None, cleared, v).
End empty_body.

#[global] Instance empty_reader : BodyReader empty_body.t := {|
  reader_init := empty_body.init; reader_put := empty_body.put; reader_finish := empty_body.finish |}.
#[global] Instance empty_writer : BodyWriter empty_body.t := {|
  writer_init := empty_body.write_init; writer_get := empty_body.get |}.

(** ** A body of bytes or characters in a contiguous container *)

Module contiguous_body.

(** [std::vector::max_size] and [std::string::max_size]. *)
Class Container := max_size : Z.

Record t := mk { value : bytes }.

Section body.
Context `{Container}.

Definition init (length : option Z) (h : header.t) (v : t) : t * code :=
  match length with
  | Some n => if n >? max_size then (v, to_http_code http_error.buffer_overflow) else (mk [], cleared)
  | None => (mk [], cleared)
  end.

Definition put (buffer : bytes) (v : t) : Z * code * t :=
  if len buffer >? max_size - len (value v)
  then (0, to_http_code http_error.buffer_overflow, v)
  else (len buffer, cleared, mk (value v ++ buffer)).

Definition finish (v : t) : t * code := (v, cleared).
End body.

Definition write_init (v : t) : t * code := (v, cleared).
Definition get (v : t) : option (bytes * bool) * code * t := (Some (value v, false), cleared, v).
End contiguous_body.

#[global] Instance contiguous_reader `{contiguous_body.Container} : BodyReader contiguous_body.t := {|
  reader_init := contiguous_body.init; reader_put := contiguous_body.put;
  reader_finish := contiguous_body.finish |}.
#[global] Instance contiguous_writer : BodyWriter contiguous_body.t := {|
  writer_init := contiguous_body.write_init; writer_get := contiguous_body.get |}.

(** ** A body of bytes in memory of the caller: what is filled, and the size
    that remains *)

Module span_body.
Record t := mk { filled : bytes; size : Z }.

Definition init (length : option Z) (h : header.t) (v : t) : t * code :=
  match length with
  | Some n => if n >? size v then (v, to_http_code http_error.buffer_overflow) else (v, cleared)
  | None => (v, cleared)
  end.

Definition put (buffer : bytes) (v : t) : Z * code * t :=
  if len buffer >? size v then (0, to_http_code http_error.buffer_overflow, v)
  else (len buffer, cleared, mk (filled v ++ buffer) (size v - len buffer)).

Definition finish (v : t) : t * code := (v, cleared).
End span_body.

#[global] Instance span_reader : BodyReader span_body.t := {|
  reader_init := span_body.init; reader_put := span_body.put; reader_finish := span_body.finish |}.

(** ** A body of buffers that the caller provides: what is filled, whether
    there is a buffer, the size that remains of it, whether more follow, and
    the toggle of the writer *)

Module buffer_body.
Record t := mk { filled : bytes; data : bool; size : N; more : bool; toggle_ : bool }.

Definition init (length : option Z) (h : header.t) (v : t) : t * code := (v, cleared).

Definition put (buffer : bytes) (v : t) : Z * code * t :=
  if negb (data v) then (0, to_http_code http_error.need_buffer, v) else
  let n := len buffer `min` Z.of_N (size v) in
  (n, (if n <? len buffer then to_http_code http_error.need_buffer else cleared),
   mk (filled v ++ ztake n buffer) (data v) (size v - Z.to_N n)%N (more v) (toggle_ v)).

Definition finish (v : t) : t * code := (v, cleared).

Definition write_init (v : t) : t * code := (v, cleared).

(** The buffer to write is [filled]. *)
Definition get (v : t) : option (bytes * bool) * code * t :=
  let waiting := if more v then to_http_code http_error.need_buffer else cleared in
  if toggle_ v then (None, waiting, mk (filled v) (data v) (size v) (more v) false) else
  if data v then (Some (filled v, more v), cleared, mk (filled v) (data v) (size v) (more v) true) else
  (None, waiting, v).
End buffer_body.

#[global] Instance buffer_reader : BodyReader buffer_body.t := {|
  reader_init := buffer_body.init; reader_put := buffer_body.put; reader_finish := buffer_body.finish |}.
#[global] Instance buffer_writer : BodyWriter buffer_body.t := {|
  writer_init := buffer_body.write_init; writer_get := buffer_body.get |}.

(** ** Their laws *)

Lemma empty_false (l : bytes) : l <> [] -> (len l =? 0) = false.
Proof. intros Hl. destruct l; [done |]. rewrite len_cons. pose proof (len_nonneg l). lia. Qed.

#[global] Instance empty_laws : BodyLaws empty_body.t.
Proof.
  split; simpl; try done.
  - intros d v. unfold empty_body.put. by destruct (len d =? 0).
  - intros d v u ec v' [= <- <- <-]. pose proof (len_nonneg d). lia.
  - intros d v u ec v' [= <- <- <-]. destruct (len d =? 0) eqn:Hd; [lia | done].
  - intros a b v u ec v' u2 ec2 v2 Ha Hb. unfold empty_body.put. rewrite empty_false by done. by intros [= <- <- <-].
  - intros a b v u ec v' Ha. unfold empty_body.put. rewrite !empty_false by (by destruct a). by intros [= <- <- <-].
Qed.

#[global] Instance contiguous_laws `{contiguous_body.Container} : BodyLaws contiguous_body.t.
Proof.
  split; simpl; try done.
  - intros n h v. unfold contiguous_body.init. destruct n as [n |]; [by destruct (n >? _) | done].
  - intros d v. unfold contiguous_body.put. by destruct (_ >? _).
  - intros d v u ec v'. unfold contiguous_body.put. pose proof (len_nonneg d).
    destruct (_ >? _); intros [= <- <- <-]; lia.
  - intros d v u ec v'. unfold contiguous_body.put. by destruct (_ >? _); intros [= <- <- <-].
  - intros a b v u ec v' u2 ec2 v2 _ _. unfold contiguous_body.put.
    destruct (len a >? _) eqn:Ha; intros [= <- <- <-]; [done |]. intros _. simpl. rewrite !len_app.
    replace (len a + len b >? contiguous_body.max_size - len (contiguous_body.value v))
      with (len b >? contiguous_body.max_size - (len (contiguous_body.value v) + len a)) by lia.
    destruct (len b >? _); intros [= <- <- <-]; [done |]. simpl. by rewrite app_assoc.
  - intros a b v u ec v' _. unfold contiguous_body.put.
    destruct (len a >? _) eqn:Ha; intros [= <- <- <-]; [intros _ | done]. simpl. rewrite len_app.
    pose proof (len_nonneg b). destruct (len a + len b >? _) eqn:?; [done | lia].
Qed.

#[global] Instance span_laws : BodyLaws span_body.t.
Proof.
  split; simpl; try done.
  - intros n h v. unfold span_body.init. destruct n as [n |]; [by destruct (n >? _) | done].
  - intros d v. unfold span_body.put. by destruct (_ >? _).
  - intros d v u ec v'. unfold span_body.put. pose proof (len_nonneg d).
    destruct (_ >? _); intros [= <- <- <-]; lia.
  - intros d v u ec v'. unfold span_body.put. by destruct (_ >? _); intros [= <- <- <-].
  - intros a b v u ec v' u2 ec2 v2 _ _. unfold span_body.put.
    destruct (len a >? _) eqn:Ha; intros [= <- <- <-]; [done |]. intros _. simpl. rewrite !len_app.
    replace (len a + len b >? span_body.size v) with (len b >? span_body.size v - len a) by lia.
    destruct (len b >? _); intros [= <- <- <-]; [done |]. simpl. rewrite app_assoc. do 2 f_equal. lia.
  - intros a b v u ec v' _. unfold span_body.put.
    destruct (len a >? _) eqn:Ha; intros [= <- <- <-]; [intros _ | done]. simpl. rewrite len_app.
    pose proof (len_nonneg b). destruct (len a + len b >? _) eqn:?; [done | lia].
Qed.

Lemma ztake_app_more (a b : bytes) n : 0 <= n -> ztake (len a + n) (a ++ b) = a ++ ztake n b.
Proof.
  intros Hn. unfold ztake, len. rewrite Z2Nat.inj_add, Nat2Z.id by lia. by rewrite take_app_add.
Qed.

#[global] Instance buffer_laws : BodyLaws buffer_body.t.
Proof.
  split; simpl; try done.
  - intros d v. unfold buffer_body.put. destruct (negb _); [done |]. by destruct (_ <? _).
  - intros d v u ec v'. unfold buffer_body.put. pose proof (len_nonneg d).
    destruct (negb _); intros [= <- <- <-]; lia.
  - intros d v u ec v'. unfold buffer_body.put. destruct (negb _); [by intros [= <- <- <-] |].
    destruct (_ <? len d) eqn:Hd; intros [= <- <- <-]; [done | lia].
  - intros a b v u ec v' u2 ec2 v2 _ _. unfold buffer_body.put. destruct (buffer_body.data v) eqn:Hdata; simpl;
      [| by intros [= <- <- <-]].
    destruct (_ <? len a) eqn:Ha; intros [= <- <- <-]; [done | intros _]. simpl. rewrite ?Hdata. simpl.
    rewrite len_app. set (s := buffer_body.size v) in *. pose proof (len_nonneg a). pose proof (len_nonneg b).
    replace (Z.of_N (s - Z.to_N (len a `min` Z.of_N s))) with (Z.of_N s - len a) by lia.
    replace ((len a + len b) `min` Z.of_N s) with (len a + len b `min` (Z.of_N s - len a)) by lia.
    replace (len a + len b `min` (Z.of_N s - len a) <? len a + len b) with (len b `min` (Z.of_N s - len a) <? len b) by lia.
    rewrite (ztake_ge (_ `min` _) a) by lia. replace (len a `min` Z.of_N s) with (len a) by lia.
    assert (ztake (len a + len b `min` (Z.of_N s - len a)) (a ++ b) = a ++ ztake (len b `min` (Z.of_N s - len a)) b) as ->.
    { apply ztake_app_more. lia. }
    set (n := len b `min` _).
    replace (s - Z.to_N (len a) - Z.to_N n)%N with (s - Z.to_N (len a + n))%N by lia.
    destruct (n <? len b) eqn:Hb; intros [= <- <- <-]; simpl; by rewrite app_assoc.
  - intros a b v u ec v' _. unfold buffer_body.put. destruct (buffer_body.data v) eqn:Hdata; simpl;
      [| by intros [= <- <- <-]].
    destruct (_ <? len a) eqn:Ha; intros [= <- <- <-]; [intros _ | done]. simpl. rewrite len_app.
    set (s := buffer_body.size v) in *. pose proof (len_nonneg b).
    replace ((len a + len b) `min` Z.of_N s) with (Z.of_N s) by lia. replace (len a `min` Z.of_N s) with (Z.of_N s) by lia.
    destruct (Z.of_N s <? len a + len b) eqn:?; [| lia]. rewrite ztake_app_le by lia. done.
Qed.
