(* ===== verification/HttpSegmentation.v ===== *)
(** * HttpSegmentation: the parse does not depend on how bytes arrive

    The parser of [HttpParser] as the iteration of its smallest steps ([atom]:
    a start line, a field, a chunk line, body data), a parse that always ends,
    and the theorem that what a socket hands to its handler is the same
    however the bytes of a message are divided into reads. *)

From S2P Require Import Prelude.
From S2P Require Import Errors.
From S2P Require Import FlatBuffer.
From S2P Require Import HttpEnums.
From S2P Require Import HttpFields.
From S2P Require Import HttpHeader.
From S2P Require Import HttpParse.
From S2P Require Import HttpParser.
From S2P Require Import HttpBodies.

Module http_segmentation.
Import http_parser.

Section segmentation.
Context `{Text} {V : Type} `{BodyLaws V}.

Notation parser := (@http_parser.t V).
Implicit Types (p : parser) (l k : bytes).

(** ** The smallest steps *)

(** What follows the last of the field lines. *)
Definition ends_lines (retained : bool) p : parser * code := if retained then finish_header p else finish p.

Definition atom_field (retained : bool) (l : bytes) (p : parser) : Z * code * parser :=
  match field_step retained l (0, p) with
  | inl (used, p') => (used, cleared, p')
  | inr (used, ec, p') =>
    if failed ec then (0, ec, p') else
    let '(p', ec) := ends_lines retained p' in (used, ec, p')
  end.

Definition atom (l : bytes) (p : parser) : Z * code * parser :=
  match state_ p with
  | start_line => put_start_line l p
  | fields => atom_field true l p
  | body | body_to_eof | chunk_body => put_body l p
  | chunk_header => put_chunk_header l p
  | trailer => atom_field false l p
  | done => (0, cleared, p)
  end.

(** A step that needs more bytes. *)
Definition waits (p : parser) (u : Z) (ec : code) (p' : parser) : Prop :=
  ec = http_parse.need_more \/ failed ec = false /\ u = 0 /\ state_ p' = state_ p.

Inductive outcome :=
  | Waiting
  | Done
  | Halted (ec : code).

Inductive runs : parser -> bytes -> outcome * parser * bytes -> Prop :=
  | runs_done p l : state_ p = done -> runs p l (Done, p, l)
  | runs_wait p l u ec p' : state_ p <> done -> atom l p = (u, ec, p') -> waits p u ec p' ->
      runs p l (Waiting, p, l)
  | runs_next p l u ec p' o : state_ p <> done -> atom l p = (u, ec, p') -> failed ec = false ->
      ~ waits p u ec p' -> runs p' (zdrop u l) o -> runs p l o
  | runs_halt p l u ec p' : state_ p <> done -> atom l p = (u, ec, p') -> failed ec = true ->
      ec <> http_parse.need_more -> runs p l (Halted ec, p', zdrop u l).

(** ** What a step does *)

Lemma failed_cleared : failed cleared = false.
Proof. done. Qed.

Lemma failed_need_more : failed http_parse.need_more = true.
Proof. done. Qed.

Lemma len_header_window l p : 0 <= window p -> len (header_window l p) <= len l.
Proof.
  intros Hw. unfold header_window. destruct (header_limit_ p =? 0); [lia |]. rewrite len_ztake by done. lia.
Qed.

Lemma finish_spec p : let '(p', ec) := finish p in
  state_ p' = done /\ ec <> http_parse.need_more /\ header_of p' = header_of p /\ remaining_ p' = remaining_ p /\
  frame_ p' = frame_ p /\ body_limit_ p' = body_limit_ p /\ header_limit_ p' = header_limit_ p /\
  received_ p' = received_ p.
Proof.
  unfold finish. pose proof (finish_code (body_of p)) as Hf. by destruct (reader_finish (body_of p)) as [v ec].
Qed.

(** What every step keeps: limits and received; and that a body is not read to
    the end of the stream within a limit, as the requests of a server are not. *)
Definition inv p : Prop :=
  0 <= header_limit_ p /\ 0 <= remaining_ p /\
  (forall n, http_parse.length_ (frame_ p) = Some n -> 0 <= n) /\
  (header.is_request (header_of p) = true /\ state_ p <> body_to_eof \/ body_limit_ p = 0).

Definition same_settings p p' : Prop :=
  header_limit_ p' = header_limit_ p /\ body_limit_ p' = body_limit_ p /\ received_ p' = received_ p /\
  header.is_request (header_of p') = header.is_request (header_of p) /\ skip_ p' = skip_ p.

Lemma start_body_spec s n p : let '(p', ec) := start_body s n p in
  state_ p' = s /\ ec <> http_parse.need_more /\ same_settings p p' /\ remaining_ p' = remaining_ p /\
  frame_ p' = frame_ p.
Proof.
  unfold start_body. pose proof (init_code n (header_of (set_state s p)) (body_of (set_state s p))) as Hi.
  by destruct (reader_init _ _ _) as [v ec].
Qed.

Lemma finish_header_spec p : inv p -> state_ p = fields -> let '(p', ec) := finish_header p in
  (failed ec = false -> state_ p' <> fields) /\ ec <> http_parse.need_more /\ same_settings p p' /\ inv p'.
Proof.
  intros Hi Hs. pose proof Hi as (Hl & Hr & Hn & Hb).
  assert (same_settings p p) as Hpp by done.
  assert (forall q : parser, same_settings p q -> inv q -> let '(p', ec) := finish q in
    (failed ec = false -> state_ p' <> fields) /\ ec <> http_parse.need_more /\ same_settings p p' /\ inv p') as Hf.
  { intros q (? & ? & ? & ? & ?) (? & ? & ? & Hi4). pose proof (finish_spec q) as Hq. unfold finish in *.
    destruct (reader_finish (body_of q)) as [v ec]. simpl in *. unfold inv; simpl.
    split_and!; try done; try tauto. destruct Hi4 as [[Hq' _] |]; [by left | by right]. }
  assert (forall s n (q : parser), s <> fields -> same_settings p q -> 0 <= remaining_ q -> frame_ q = frame_ p ->
    (s = body_to_eof -> header.is_request (header_of p) = false) ->
    let '(p', ec) := start_body s n q in
    (failed ec = false -> state_ p' <> fields) /\ ec <> http_parse.need_more /\ same_settings p p' /\ inv p') as Hst.
  { intros s n q Hne (? & ? & ? & ? & ?) Hq Hfr He. pose proof (start_body_spec s n q) as Hs'. unfold start_body in *.
    destruct (reader_init _ _ _) as [v ec]. simpl in *. destruct Hs' as (_ & ? & _).
    split_and!; try done; try congruence. unfold inv; simpl. split_and!; [lia | lia | by rewrite Hfr |].
    destruct Hb as [[Hq' _] | Hb]; [left | right; lia]. split; [congruence |]. intros ->. rewrite He in Hq'; done. }
  unfold finish_header. destruct (_ || _); [by apply Hf |].
  destruct (http_parse.length_ (frame_ p)) as [n |] eqn:Hfl.
  - assert (0 <= n) by eauto. assert (inv (set_remaining n p)) by (by split_and!; simpl; rewrite ?Hfl).
    cbn [remaining_ set_remaining]. destruct (n =? 0); [by apply Hf |].
    destruct (negb _ && _); [by split_and! | by apply Hst].
  - destruct (http_parse.chunked (frame_ p)); [by apply Hst |].
    destruct (header.is_request (header_of p)) eqn:Hreq; destruct (http_parse.encoded (frame_ p)).
    + by split_and!.
    + by apply Hf.
    + by apply Hst.
    + by apply Hst.
Qed.

Lemma digits_value_nonneg l v : 0 <= v -> forallb is_digit l = true -> 0 <= fold_left (fun v c => v * 10 + (c - 48)) l v.
Proof.
  revert v. induction l as [| c l IH]; intros v Hv; simpl; [done |]. intros [Hc Hl]%andb_true_iff.
  apply IH; [| done]. unfold is_digit in Hc. lia.
Qed.

Lemma digits_of_digits l : forallb is_digit (digits_of l).1 = true.
Proof.
  induction l as [| c l IH]; [done |]. simpl. destruct (is_digit c) eqn:Hc; [| done].
  destruct (digits_of l). simpl in *. by rewrite Hc.
Qed.

Lemma from_chars_nonneg l n r : from_chars l = Some (n, r) -> 0 <= n.
Proof.
  unfold from_chars. pose proof (digits_of_digits l) as Hd. destruct (digits_of l) as [d q]. simpl in Hd.
  assert (0 <= digits_value d) by (by apply digits_value_nonneg). destruct d; [done |].
  destruct (_ <=? _); intros [=]; lia.
Qed.

Lemma frame_lengths_nonneg items m m' : (forall n, m = Some n -> 0 <= n) ->
  http_parse.frame_lengths items m = inl m' -> forall n, m' = Some n -> 0 <= n.
Proof.
  revert m. induction items as [| x items IH]; intros m Hm; simpl; [by intros [= <-] |].
  destruct (from_chars x) as [[n [|]] |] eqn:Hx; [| done..]. apply from_chars_nonneg in Hx.
  assert (forall z, Some n = Some z -> 0 <= z) by (by intros z [= <-]).
  destruct m as [k |]; [destruct (negb (n =? k)); [done |] |]; by apply IH.
Qed.

Lemma frame_field_nonneg frame id v frame' :
  (forall n, http_parse.length_ frame = Some n -> 0 <= n) ->
  http_parse.frame_field frame id v = inl frame' -> forall n, http_parse.length_ frame' = Some n -> 0 <= n.
Proof.
  intros Hf. unfold http_parse.frame_field. destruct id; try (by intros [= <-]).
  - destruct (negb _); [done |]. by intros [= <-].
  - destruct (_ || _); [done |]. destruct (http_parse.frame_lengths _ _) eqn:Hl; [| done].
    intros [= <-]. simpl. by eapply frame_lengths_nonneg.
  - destruct (_ || _); [done |]. destruct (http_parse.token_list v) as [codings valid].
    destruct (_ || _); [done |]. by intros [= <-].
Qed.

Lemma parse_field_nonneg out frame l out' frame' b r :
  (forall n, http_parse.length_ frame = Some n -> 0 <= n) ->
  http_parse.parse_field out frame l = http_parse.Parsed (out', frame', b) r ->
  forall n, http_parse.length_ frame' = Some n -> 0 <= n.
Proof.
  intros Hf. unfold http_parse.parse_field. destruct (len l <? 2); [done |]. destruct (zget l 0 =? _).
  - destruct (negb _); [done |]. by intros [= _ <- _ _].
  - unfold http_parse.bind. destruct (http_parse.field_name l) as [name r1 |]; [| done].
    destruct (bool_decide (name = [])); [done |]. destruct (http_parse.skip r1) as [[] r2 |]; [| done].
    destruct (http_parse.field_value r2) as [v r3 |]; [| done].
    destruct (http_parse.frame_field _ _ v) as [f |] eqn:Hff; [| done]. intros [= _ <- _ _].
    by eapply frame_field_nonneg.
Qed.

Lemma is_request_with b h : header.is_request (header.with_base b h) = header.is_request h.
Proof. by destruct h. Qed.

(** A field: what it consumes, and what it leaves. *)
Lemma field_step_spec retained l p : inv p -> state_ p = fields \/ state_ p = trailer ->
  match field_step retained l (0, p) with
  | inl (u, p') => 2 <= u <= len l /\ inv p' /\ same_settings p p' /\ state_ p' = state_ p
  | inr (u, ec, p') =>
    if failed ec then u = 0 /\ p' = p
    else ec = cleared /\ 2 <= u <= len l /\ inv p' /\ same_settings p p' /\ state_ p' = state_ p
  end.
Proof.
  intros (Hl & Hr & Hn & Hb) Hs. unfold field_step. rewrite zdrop_0.
  destruct (http_parse.parse_field _ _ _) as [[[out frame] e] rest | ec] eqn:Hp.
  - destruct (http_parse.consumes_parse_field _ _ _ _ _ Hp) as (t & Ht & Hc).
    assert (2 <= len (header_window l p) - len rest <= len l) as Hu.
    { pose proof (len_header_window l p ltac:(unfold window; lia)). pose proof (len_nonneg rest).
      rewrite Ht in *. rewrite len_app in *. assert (2 <= len t) by (unfold len; lia). lia. }
    pose proof (parse_field_nonneg _ _ _ _ _ _ _ Hn Hp) as Hnn.
    set (q := set_used _ _).
    assert (inv q /\ same_settings p q /\ state_ q = state_ p) as Hq.
    { subst q. destruct out as [f |]; unfold inv, same_settings; simpl; rewrite ?is_request_with; by split_and!. }
    destruct e; simpl; [split; [done |] |]; rewrite Z.add_0_l in *; tauto.
  - unfold header_limited. destruct (_ && _) eqn:Hh; simpl; [done |].
    by rewrite (http_parse.fails_parse_field _ _ _ _ Hp).
Qed.

Lemma same_settings_refl p : same_settings p p.
Proof. done. Qed.

Lemma same_settings_trans p q r : same_settings p q -> same_settings q r -> same_settings p r.
Proof. intros (? & ? & ? & ? & ?) (? & ? & ? & ? & ?). unfold same_settings. split_and!; congruence. Qed.

(** What a step promises: the bytes it uses are there, it waits only without
    effect, and without bytes it advances the state only from a body. *)
Definition promises p l u ec p' : Prop :=
  same_settings p p' /\ inv p' /\ 0 <= u <= len l /\
  (ec = http_parse.need_more -> u = 0 /\ p' = p) /\
  (failed ec = false -> u = 0 -> state_ p' = state_ p -> p' = p) /\
  (failed ec = false -> u = 0 -> state_ p' <> state_ p -> pending p = 1%nat /\ pending p' = 0%nat).

Lemma promises_waiting p l ec : inv p -> promises p l 0 ec p.
Proof. intros Hi. pose proof (len_nonneg l). unfold promises. split_and!; try done; lia. Qed.

Lemma promises_used p l u ec p' : same_settings p p' -> inv p' -> 0 < u <= len l ->
  ec <> http_parse.need_more -> promises p l u ec p'.
Proof. intros Hs Hi Hu Hn. unfold promises. split_and!; try done; intros; try done; lia. Qed.

Definition is_body (s : state) : bool :=
  match s with body | body_to_eof | chunk_body => true | _ => false end.

Lemma complete_body_spec p : inv p -> is_body (state_ p) = true -> let '(p', ec) := complete_body p in
  same_settings p p' /\ inv p' /\ ec <> http_parse.need_more /\ is_body (state_ p') = false.
Proof.
  intros (? & ? & ? & Hb) Hs. unfold complete_body. case_bool_decide as Hc.
  - split_and!; try done. unfold inv; simpl. split_and!; try done. destruct Hb as [[] |]; [by left | by right].
  - pose proof (finish_spec p) as Hf. unfold finish in *. destruct (reader_finish (body_of p)) as [v ec]. simpl in *.
    destruct Hf as (_ & ? & _). split_and!; try done. unfold inv; simpl.
    split_and!; try done. destruct Hb as [[] |]; [by left | by right].
Qed.

(** The bytes of a body that are given to its reader. *)
Definition delimited p : bool := negb (bool_decide (state_ p = body_to_eof)).
Definition body_size l p : Z := if delimited p then len l `min` remaining_ p else len l.

Definition body_read (used : Z) (v : V) p : parser :=
  let p' := set_total (narrow 64 (total_ p + used)) (set_body v p) in
  if delimited p then set_remaining (remaining_ p' - used) p' else p'.

Lemma body_read_spec used v p : inv p -> used <= remaining_ p \/ delimited p = false ->
  same_settings p (body_read used v p) /\ inv (body_read used v p) /\ state_ (body_read used v p) = state_ p /\
  frame_ (body_read used v p) = frame_ p.
Proof.
  intros (? & ? & ? & Hb) Hu. unfold body_read, inv. destruct (delimited p) eqn:Hd; simpl; split_and!; try done.
  destruct Hu; [lia | done].
Qed.

Lemma put_body_eq l p : put_body l p =
  if delimited p && (remaining_ p =? 0) then let '(p', ec) := complete_body p in (0, ec, p') else
  let size := body_size l p in
  if negb (delimited p) && negb (body_limit_ p =? 0) && (narrow 64 (total_ p + size) >? body_limit_ p)
  then (0, to_http_code http_error.body_limit, p) else
  if size =? 0 then (0, cleared, p) else
  let '(used, ec, v) := reader_put (ztake size l) (body_of p) in
  let p' := body_read used v p in
  if negb (failed ec) && delimited p && (remaining_ p' =? 0)
  then let '(p', ec) := complete_body p' in (used, ec, p') else (used, ec, p').
Proof. reflexivity. Qed.

Lemma put_body_spec l p u ec p' : inv p -> is_body (state_ p) = true -> put_body l p = (u, ec, p') ->
  promises p l u ec p'.
Proof.
  intros Hi Hs. pose proof (len_nonneg l) as Hl. rewrite put_body_eq.
  assert (pending p = 1%nat) as Hp by (unfold pending; by destruct (state_ p)).
  destruct (delimited p && (remaining_ p =? 0)) eqn:Hd.
  { pose proof (complete_body_spec p Hi Hs) as Hc. destruct (complete_body p) as [q e]. intros [= <- <- <-].
    destruct Hc as (? & ? & ? & Hq). unfold promises. split_and!; try done; try lia.
    - intros _ _ Hst. by rewrite Hst, Hs in Hq.
    - intros _ _ _. split; [done |]. unfold pending. by destruct (state_ q). }
  cbv zeta. destruct (negb (delimited p) && _ && _); [intros [= <- <- <-]; by apply promises_waiting |].
  destruct (body_size l p =? 0) eqn:Hz; [intros [= <- <- <-]; by apply promises_waiting |].
  assert (0 < body_size l p <= len l /\ (body_size l p <= remaining_ p \/ delimited p = false)) as [Hsz Hrem].
  { destruct Hi as (_ & ? & _). unfold body_size in *. destruct (delimited p); lia. }
  destruct (reader_put _ _) as [[used e] v] eqn:Hput.
  pose proof (put_used _ _ _ _ _ Hput) as Hu. rewrite len_ztake in Hu by lia.
  pose proof (put_code (ztake (body_size l p) l) (body_of p)) as Hcode. rewrite Hput in Hcode. simpl in Hcode.
  destruct (body_read_spec used v p Hi) as (Hbs & Hbi & Hbst & Hbf); [destruct Hrem; [left; lia | by right] |].
  destruct (failed e) eqn:He; simpl.
  { intros [= <- <- <-]. unfold promises. split_and!; try done; try lia; intros; congruence. }
  pose proof (put_all _ _ _ _ _ Hput He) as Hall. rewrite len_ztake in Hall by lia.
  destruct (delimited p && (remaining_ (body_read used v p) =? 0)).
  - pose proof (complete_body_spec (body_read used v p) Hbi) as Hc. rewrite Hbst in Hc. specialize (Hc Hs).
    destruct (complete_body _) as [q f]. destruct Hc as (? & ? & ? & ?). intros [= <- <- <-].
    apply promises_used; [by eapply same_settings_trans | done | lia | done].
  - intros [= <- <- <-]. by apply promises_used; [| | lia |].
Qed.

Lemma put_start_line_spec l p u ec p' : inv p -> state_ p = start_line -> put_start_line l p = (u, ec, p') ->
  promises p l u ec p'.
Proof.
  intros Hi Hs. pose proof Hi as (Hl & Hr & Hn & Hb). unfold put_start_line.
  destruct l as [| c l]; [intros [= <- <- <-]; by apply promises_waiting |].
  set (m := c :: l). assert (forall h r, parse_start_line (header_of p) (header_window m p) = http_parse.Parsed h r ->
    (exists t, header_window m p = t ++ r /\ (1 <= length t)%nat) /\
    header.is_request h = header.is_request (header_of p)) as Hp.
  { intros h r. unfold parse_start_line, http_parse.bind. destruct (header_of p) as [q | q].
    - destruct (http_parse.parse_request_line q _) eqn:Hq; [| done]. intros [= <- <-].
      split; [by eapply http_parse.consumes_request_line | done].
    - destruct (http_parse.parse_status_line q _) eqn:Hq; [| done]. intros [= <- <-].
      split; [by eapply http_parse.consumes_status_line | done]. }
  destruct (parse_start_line _ _) as [h r | e] eqn:Hq; [| intros [= <- <- <-]; by apply promises_waiting].
  destruct (Hp h r eq_refl) as [(t & Ht & Hlen) Hreq]. intros [= <- <- <-].
  pose proof (len_header_window m p ltac:(unfold window; lia)). pose proof (len_nonneg r).
  assert (1 <= len t) by (unfold len; lia). rewrite Ht, len_app in *.
  apply promises_used; [| | lia | done].
  - by unfold same_settings; simpl.
  - unfold inv; simpl. split_and!; try done. rewrite Hreq. destruct Hb as [[]|]; [left | right]; by rewrite ?Hs.
Qed.

Lemma chunk_digits_spec line size index s i : 0 <= size -> http_parse.chunk_digits line size index = inl (s, i) -> 0 <= s.
Proof.
  revert size index. induction line as [| c line IH]; intros size index Hs; simpl; [by intros [= <- _] |].
  destruct (http_parse.to_nibble c <? 0) eqn:Hc; [by intros [= <- _] |].
  destruct (size >? _); [done |]. apply IH. apply Z.lor_nonneg. split; [by apply Z.shiftl_nonneg | lia].
Qed.

Lemma parse_chunk_size_nonneg line s i : http_parse.parse_chunk_size line = inl (s, i) -> 0 <= s.
Proof.
  unfold http_parse.parse_chunk_size. destruct (http_parse.chunk_digits line 0 0) as [[z j] |] eqn:Hd; [| done].
  destruct (j =? 0); [done |]. intros [= <- _]. eapply chunk_digits_spec; [| exact Hd]. done.
Qed.

Lemma chunk_digits_code line size index ec : http_parse.chunk_digits line size index = inr ec ->
  ec = to_http_code http_error.bad_chunk.
Proof.
  revert size index. induction line as [| c line IH]; intros size index; simpl; [done |].
  destruct (http_parse.to_nibble c <? 0); [done |]. destruct (size >? _); [by intros [= <-] | apply IH].
Qed.

Lemma parse_chunk_size_code line ec : http_parse.parse_chunk_size line = inr ec ->
  ec = to_http_code http_error.bad_chunk.
Proof.
  unfold http_parse.parse_chunk_size. destruct (http_parse.chunk_digits line 0 0) as [[z j] |] eqn:Hd.
  - destruct (j =? 0); [by intros [= <-] | done].
  - intros [= <-]. by eapply chunk_digits_code.
Qed.

(** A chunk line is refused without effect, or gives the size of the chunk. *)
Lemma put_chunk_line_spec line used p u ec p' : inv p -> state_ p = chunk_header ->
  put_chunk_line line used p = (u, ec, p') ->
  if failed ec then u = 0 /\ p' = p /\ ec <> http_parse.need_more
  else u = used /\ same_settings p p' /\ inv p' /\ ec <> http_parse.need_more /\ state_ p' <> chunk_header.
Proof.
  intros (? & ? & ? & Hb) Hs. unfold put_chunk_line.
  destruct (http_parse.parse_chunk_size line) as [[size digits] | e] eqn:Hsize.
  2:{ apply parse_chunk_size_code in Hsize as ->. by intros [= <- <- <-]. }
  apply parse_chunk_size_nonneg in Hsize. destruct (_ && _); [by intros [= <- <- <-] |].
  destruct (negb _); [by intros [= <- <- <-] |]. intros [= <- <- <-]. rewrite failed_cleared.
  destruct (size =? 0); unfold inv, same_settings; simpl; split_and!; try done;
    (destruct Hb as [[] |]; [by left | by right]).
Qed.

Lemma put_chunk_header_spec l p u ec p' : inv p -> state_ p = chunk_header -> put_chunk_header l p = (u, ec, p') ->
  promises p l u ec p'.
Proof.
  intros Hi Hs. unfold put_chunk_header. destruct (len l <? 2) eqn:Hl; [intros [= <- <- <-]; by apply promises_waiting |].
  destruct (_ && _); [intros [= <- <- <-]; by apply promises_waiting |].
  destruct (http_parse.find_chunk_line _) as [line rest | e] eqn:Hline.
  - destruct (http_parse.consumes_find_chunk_line _ _ _ Hline) as (t & Ht & Hlen).
    assert (2 <= len t) by (unfold len; lia). pose proof (len_nonneg rest). apply (f_equal len) in Ht.
    rewrite len_app, len_zdrop in Ht by (destruct (expect_crlf_ p); lia).
    intros Hc. apply put_chunk_line_spec in Hc; [| done..]. destruct (failed ec).
    + destruct Hc as (-> & -> & _). by apply promises_waiting.
    + destruct Hc as (-> & ? & ? & ? & _). apply promises_used; try done. destruct (expect_crlf_ p); lia.
  - destruct (bool_decide _); [destruct (_ && _) |]; intros [= <- <- <-]; by apply promises_waiting.
Qed.

Lemma atom_field_spec (retained : bool) l p u ec p' : inv p -> state_ p = (if retained then fields else trailer) ->
  atom_field retained l p = (u, ec, p') -> promises p l u ec p'.
Proof.
  intros Hi Hs. unfold atom_field.
  assert (state_ p = fields \/ state_ p = trailer) as Hst by (destruct retained; tauto).
  pose proof (field_step_spec retained l p Hi Hst) as Hf.
  destruct (field_step retained l (0, p)) as [[v q] | [[v e] q]].
  - destruct Hf as (? & ? & ? & ?). intros [= <- <- <-]. by apply promises_used; [| | lia |].
  - destruct (failed e); [destruct Hf as [-> ->]; intros [= <- <- <-]; by apply promises_waiting |].
    destruct Hf as (-> & ? & Hq & ? & Hstq). unfold ends_lines. destruct retained.
    + pose proof (finish_header_spec q) as Hh. destruct (finish_header q) as [r f].
      destruct Hh as (_ & ? & ? & ?); [done | congruence |]. intros [= <- <- <-].
      apply promises_used; [by eapply same_settings_trans | done | lia | done].
    + pose proof (finish_spec q) as Hh. unfold finish in *. destruct (reader_finish (body_of q)) as [w f].
      destruct Hh as (_ & ? & _). intros [= <- <- <-].
      apply promises_used; [| | lia | done]; [by eapply same_settings_trans |].
      destruct Hq as (? & ? & ? & Hb). unfold inv; simpl. split_and!; try done.
      destruct Hb as [[] |]; [by left | by right].
Qed.

Lemma atom_spec l p u ec p' : inv p -> state_ p <> done -> atom l p = (u, ec, p') -> promises p l u ec p'.
Proof.
  intros Hi Hd. unfold atom. destruct (state_ p) eqn:Hs; try done.
  - by apply put_start_line_spec.
  - by apply atom_field_spec.
  - apply put_body_spec; [done | by rewrite Hs].
  - apply put_body_spec; [done | by rewrite Hs].
  - by apply put_chunk_header_spec.
  - apply put_body_spec; [done | by rewrite Hs].
  - by apply atom_field_spec.
Qed.

(** ** Runs are total and deterministic *)

Lemma zdrop_length n l : 0 <= n <= len l -> Z.of_nat (length (zdrop n l)) = len l - n.
Proof. intros Hn. change (len (zdrop n l) = len l - n). rewrite len_zdrop by lia. lia. Qed.

Lemma step_waits p l u ec p' : waits p u ec p' -> inv p -> state_ p <> done -> atom l p = (u, ec, p') -> u = 0 /\ p' = p.
Proof.
  intros Hw Hi Hd Ha. destruct (atom_spec _ _ _ _ _ Hi Hd Ha) as (_ & _ & _ & Hn & Hsame & _).
  destruct Hw as [-> | (Hf & -> & Hst)]; [by apply Hn | by split; [| apply Hsame]].
Qed.

Lemma waits_dec p u ec p' : Decision (waits p u ec p').
Proof. unfold waits. apply _. Defined.
#[local] Existing Instance waits_dec.

Lemma step_progress p l u ec p' : inv p -> state_ p <> done -> atom l p = (u, ec, p') -> failed ec = false ->
  ~ waits p u ec p' -> inv p' /\ 0 <= u <= len l /\ same_settings p p' /\
  (2 * length (zdrop u l) + pending p' < 2 * length l + pending p)%nat.
Proof.
  intros Hi Hd Ha Hf Hw. destruct (atom_spec _ _ _ _ _ Hi Hd Ha) as (Hs & Hi' & Hu & _ & _ & Hp).
  split_and!; try done; try lia. pose proof (zdrop_length u l Hu) as Hz. unfold len in *.
  assert (pending p' <= 1)%nat as Hle by (unfold pending; destruct (state_ p'); lia).
  destruct (decide (u = 0)) as [-> |]; [| lia].
  destruct (Hp Hf eq_refl) as [-> ->]; [intros Hst; apply Hw; by right | lia].
Qed.

Lemma runs_total p l : inv p -> exists o, runs p l o /\ inv o.1.2 /\ same_settings p o.1.2.
Proof.
  remember (2 * length l + pending p)%nat as n eqn:Hn. revert p l Hn.
  induction n as [n IH] using lt_wf_ind. intros p l -> Hi.
  destruct (decide (state_ p = done)) as [Hd | Hd]; [eexists; split; [by apply runs_done | by split] |].
  destruct (atom l p) as [[u ec] p'] eqn:Ha. destruct (decide (waits p u ec p')) as [Hw | Hw].
  - eexists. split; [by eapply runs_wait | by split].
  - pose proof (atom_spec _ _ _ _ _ Hi Hd Ha) as (Hs & Hi' & _). destruct (failed ec) eqn:Hf.
    + eexists. split; [eapply runs_halt; [done.. |]; intros ->; apply Hw; by left | by split].
    + destruct (step_progress _ _ _ _ _ Hi Hd Ha Hf Hw) as (_ & Hu & _ & Hm).
      destruct (IH _ Hm _ _ eq_refl Hi') as (o & Ho & Hio & Hso). exists o.
      split_and!; [by eapply runs_next | done | by eapply same_settings_trans].
Qed.

Lemma waits_halts p u ec p' : waits p u ec p' -> failed ec = true -> ec = http_parse.need_more.
Proof. intros [-> | (Hf & _)]; congruence. Qed.

Lemma runs_unique p l o1 o2 : runs p l o1 -> runs p l o2 -> o1 = o2.
Proof.
  intros Ho1. revert o2.
  induction Ho1 as [p l Hd | p l u ec p' Hd Ha Hw | p l u ec p' o Hd Ha Hf Hw Hr IH | p l u ec p' Hd Ha Hf Hn];
    intros o2 Ho2; inversion Ho2 as [q m Hd2 | q m u2 ec2 p2 Hd2 Ha2 Hw2 | q m u2 ec2 p2 o' Hd2 Ha2 Hf2 Hw2 Hr2
      | q m u2 ec2 p2 Hd2 Ha2 Hf2 Hn2]; subst; try done; rewrite Ha in Ha2; simplify_eq; try done.
  - destruct Hn2. by eapply waits_halts.
  - by apply IH.
  - congruence.
  - destruct Hn. by eapply waits_halts.
  - congruence.
Qed.

(** ** The parse is the run of its steps *)

(** How a run goes on after bytes are used with a code. *)
Definition continues p l u ec p' : Prop :=
  if failed ec then
    runs p l (if bool_decide (ec = http_parse.need_more) then Waiting else Halted ec, p', zdrop u l)
  else forall o, runs p' (zdrop u l) o -> runs p l o.

Lemma atom_continues p l u ec p' : inv p -> state_ p <> done -> atom l p = (u, ec, p') -> continues p l u ec p'.
Proof.
  intros Hi Hd Ha. unfold continues. destruct (failed ec) eqn:Hf.
  - case_bool_decide as Hn.
    + destruct (step_waits p l u ec p') as [-> ->]; [by left | done..|]. rewrite zdrop_0.
      eapply runs_wait; [done | exact Ha | by left].
    + by eapply runs_halt.
  - intros o Ho. destruct (decide (waits p u ec p')) as [Hw | Hw].
    + destruct (step_waits p l u ec p' Hw Hi Hd Ha) as [-> ->]. by rewrite zdrop_0 in Ho.
    + by eapply runs_next.
Qed.

Lemma continues_trans p l u p1 v ec p' : 0 <= u -> 0 <= v -> continues p l u cleared p1 ->
  continues p1 (zdrop u l) v ec p' -> continues p l (u + v) ec p'.
Proof.
  unfold continues. intros Hu Hv H1' H2'. simpl in H1'. rewrite <- zdrop_zdrop by lia.
  destruct (failed ec); [by apply H1' |]. intros o Ho. by apply H1', H2'.
Qed.

Lemma field_step_shift retained l u p : field_step retained l (u, p) =
  match field_step retained (zdrop u l) (0, p) with
  | inl (v, q) => inl (u + v, q)
  | inr (v, ec, q) => inr (u + v, ec, q)
  end.
Proof.
  unfold field_step. rewrite zdrop_0. destruct (http_parse.parse_field _ _ _) as [[[out f] e] r |].
  - by destruct e.
  - by rewrite Z.add_0_r.
Qed.

Definition lines_state (retained : bool) : state := if retained then fields else trailer.

Lemma atom_lines retained l p : state_ p = lines_state retained -> atom l p = atom_field retained l p.
Proof. unfold atom. intros ->. by destruct retained. Qed.

Lemma lines_not_done retained p : state_ p = lines_state retained -> state_ p <> done.
Proof. intros ->. by destruct retained. Qed.

(** Where the loop over field lines is, and where it leaves. *)
Definition lines_at (retained : bool) l p (s : Z * parser) : Prop :=
  0 <= s.1 <= len l /\ inv s.2 /\ same_settings p s.2 /\ state_ s.2 = lines_state retained /\
  continues p l s.1 cleared s.2.

Definition lines_left (retained : bool) l p (r : Z * code * parser) : Prop :=
  let '(u, ec, q) := r in
  0 <= u <= len l /\ inv q /\ same_settings p q /\ state_ q = lines_state retained /\
  if failed ec then continues p l u ec q
  else 2 <= u /\ forall q' e, ends_lines retained q = (q', e) -> continues p l u e q'.

Lemma lines_step retained l p s : lines_at retained l p s ->
  match field_step retained l s with
  | inl s' => lines_at retained l p s' /\ s.1 + 2 <= s'.1
  | inr r => lines_left retained l p r
  end.
Proof.
  destruct s as [u q]. intros (Hu & Hi & Hss & Hst & Hc). cbn [fst snd] in *. rewrite field_step_shift.
  assert (state_ q = fields \/ state_ q = trailer) as Hft by (rewrite Hst; destruct retained; tauto).
  pose proof (field_step_spec retained (zdrop u l) q Hi Hft) as Hs.
  pose proof (atom_lines retained (zdrop u l) q Hst) as Ha. unfold atom_field in Ha.
  pose proof (lines_not_done _ _ Hst) as Hd. rewrite len_zdrop in Hs by lia.
  destruct (field_step retained (zdrop u l) (0, q)) as [[v q'] | [[v ec] q']].
  - destruct Hs as (Hv & Hi' & Hs' & Hst'). unfold lines_at; simpl. split; [| lia].
    split_and!; [lia | lia | done | by eapply same_settings_trans | congruence |].
    eapply continues_trans; [lia | lia | done |]. by apply atom_continues.
  - unfold lines_left. destruct (failed ec) eqn:Hf.
    + destruct Hs as [-> ->]. split_and!; [lia | lia | done | done | done |].
      eapply continues_trans; [lia | lia | done |]. by apply atom_continues.
    + destruct Hs as (-> & Hv & Hi' & Hs' & Hst').
      split_and!; [lia | lia | done | by eapply same_settings_trans | congruence | lia |].
      intros r e He. eapply continues_trans; [lia | lia | done |]. apply atom_continues; [done | done |].
      by rewrite Ha, He.
Qed.

Lemma put_field_lines_spec retained l p : inv p -> state_ p = lines_state retained ->
  lines_left retained l p (put_field_lines retained l p).
Proof.
  intros Hi Hst. unfold put_field_lines.
  assert (lines_at retained l p (0, p)) as H0'.
  { pose proof (len_nonneg l). unfold lines_at; simpl. split_and!; try done; try lia. intros o. by rewrite zdrop_0. }
  assert (decreases (lines_at retained l p) (fun s => Z.to_nat (len l - s.1)) (field_step retained l)) as Hd.
  { intros s s' Hs He. pose proof (lines_step _ _ _ _ Hs) as Hn. rewrite He in Hn. destruct Hn as [Hn Hlt].
    split; [done |]. destruct Hn as [Hb _]. lia. }
  destruct (while_total _ _ _ _ Hd H0') as [r Hr]. rewrite Hr.
  eapply (while_invariant _ _ (lines_at retained l p) (lines_left retained l p)); [| | exact H0' | exact Hr].
  - intros s s' Hs He. by apply (Hd s s').
  - intros s r' Hs He. pose proof (lines_step _ _ _ _ Hs) as Hn. by rewrite He in Hn.
Qed.

(** What the parse of a state promises. *)
Definition parses p l (r : Z * code * parser) : Prop :=
  let '(u, ec, p') := r in
  inv p' /\ same_settings p p' /\ 0 <= u <= len l /\ continues p l u ec p' /\
  (failed ec = false -> u = 0 -> if bool_decide (state_ p' = state_ p)
    then p' = p /\ runs p l (Waiting, p, l) else pending p = 1%nat /\ pending p' = 0%nat).

Lemma atom_parses p l : inv p -> state_ p <> done -> parses p l (atom l p).
Proof.
  intros Hi Hd. destruct (atom l p) as [[u ec] p'] eqn:Ha.
  pose proof (atom_spec _ _ _ _ _ Hi Hd Ha) as (Hs & Hi' & Hu & _ & Hsame & Hp).
  split_and!; try done; try lia; [by apply atom_continues |].
  intros Hf Hz. case_bool_decide; [split; [by apply Hsame |] | by apply Hp].
  eapply runs_wait; [done | exact Ha | by right].
Qed.

Lemma lines_parses retained p l : inv p -> state_ p = lines_state retained ->
  parses p l (let '(u, ec, q) := put_field_lines retained l p in
    if failed ec then (u, ec, q) else let '(q, e) := ends_lines retained q in (u, e, q)).
Proof.
  intros Hi Hs. pose proof (put_field_lines_spec retained l p Hi Hs) as Hl.
  destruct (put_field_lines retained l p) as [[u ec] q]. destruct Hl as (Hu & Hiq & Hsq & Hst & Hl).
  destruct (failed ec) eqn:Hf; [by split_and!; try lia; try done; intros; congruence |].
  destruct Hl as [Hu2 Hl]. destruct (ends_lines retained q) as [r e] eqn:He. specialize (Hl r e eq_refl).
  assert (inv r /\ same_settings q r) as [Hir Hsr].
  { unfold ends_lines in He. destruct retained.
    - pose proof (finish_header_spec q Hiq Hst) as Hf'. rewrite He in Hf'. tauto.
    - pose proof (finish_spec q) as Hf'. unfold finish in *. destruct (reader_finish (body_of q)). simplify_eq.
      destruct Hiq as (? & ? & ? & Hb). split; [| done]. unfold inv; simpl. split_and!; try done.
      destruct Hb as [[] |]; [by left | by right]. }
  split_and!; try done; try lia. by eapply same_settings_trans.
Qed.

Lemma put_state_parses p l : inv p -> state_ p <> done -> parses p l (put_state l p).
Proof.
  intros Hi Hd. pose proof (atom_parses p l Hi Hd) as Ha. unfold atom, put_state in *.
  destruct (state_ p) eqn:Hs; try done.
  - apply (lines_parses true); [done | by rewrite Hs].
  - apply (lines_parses false); [done | by rewrite Hs].
Qed.

(** Where the loop of [put] is, and where it leaves. *)
Definition put_at l p (s : Z * parser) : Prop :=
  0 <= s.1 <= len l /\ inv s.2 /\ same_settings p s.2 /\ continues p l s.1 cleared s.2.

Definition put_left l p (r : Z * code * parser) : Prop :=
  let '(u, ec, q) := r in
  0 <= u <= len l /\ inv q /\ same_settings p q /\ continues p l u ec q /\
  (failed ec = false -> state_ q = done \/ 0 < u).

Lemma put_step_spec l p s : put_at l p s ->
  match put_step l s with
  | inl s' => put_at l p s' /\ (put_measure l s' < put_measure l s)%nat
  | inr r => put_left l p r
  end.
Proof.
  destruct s as [u q]. intros (Hu & Hi & Hs & Hc). cbn [fst snd] in *. unfold put_step, is_done.
  case_bool_decide as Hd; [unfold put_left; split_and!; try done; try lia; by left |].
  pose proof (put_state_parses q (zdrop u l) Hi Hd) as Hp.
  destruct (put_state (zdrop u l) q) as [[v ec] q']. destruct Hp as (Hi' & Hs' & Hv & Hc' & Hz).
  rewrite len_zdrop in Hv by lia.
  assert (continues p l (u + v) ec q') as Hcc by (eapply continues_trans; [lia | lia | done | done]).
  assert (same_settings p q') as Hss by (by eapply same_settings_trans).
  destruct (failed ec) eqn:Hf.
  - rewrite !andb_false_r. simpl. rewrite Hf. unfold put_left. split_and!; try done; try lia.
  - rewrite andb_true_r. simpl. destruct (bool_decide (state_ q = fields) && negb (bool_decide (state_ q' = fields))) eqn:Hh.
    + apply andb_true_iff in Hh as [Hq Hq']. apply bool_decide_eq_true in Hq. apply negb_true_iff, bool_decide_eq_false in Hq'.
      unfold put_left. split_and!; try done; try lia. intros _. right.
      destruct (decide (v = 0)) as [-> |]; [| lia]. specialize (Hz eq_refl eq_refl).
      rewrite bool_decide_false in Hz by congruence. destruct Hz as [Hz _]. unfold pending in Hz. by rewrite Hq in Hz.
    + destruct ((v =? 0) && bool_decide (state_ q' = state_ q)) eqn:Hw.
      * apply andb_true_iff in Hw as [Hv0 Hst]. apply bool_decide_eq_true in Hst. apply Z.eqb_eq in Hv0 as ->.
        specialize (Hz eq_refl eq_refl). rewrite bool_decide_true in Hz by done. destruct Hz as [-> Hz].
        unfold put_left. split_and!; try done; try lia. unfold continues. rewrite failed_need_more, bool_decide_true by done.
        rewrite Z.add_0_r. by apply Hc.
      * unfold put_at; cbn [fst snd]. split; [split_and!; try done; try lia |].
        { unfold continues in *. by rewrite Hf in Hcc. }
        unfold put_measure; simpl. destruct (decide (v = 0)) as [-> |].
        -- specialize (Hz eq_refl eq_refl). simpl in Hw. rewrite Hw in Hz. lia.
        -- assert (pending q' <= 1)%nat by (unfold pending; destruct (state_ q'); lia). lia.
Qed.

Definition receive_mark l p : parser := set_received (received_ p || negb (bool_decide (l = []))) p.

(** The loop ends, and its result is that of the run. *)
Lemma put_spec l p : inv p -> put_left l (receive_mark l p) (put l p).
Proof.
  intros Hi. unfold put. fold (receive_mark l p). set (q := receive_mark l p). assert (inv q) as Hq by done.
  assert (put_at l q (0, q)) as H0'.
  { pose proof (len_nonneg l). unfold put_at; cbn [fst snd]. split_and!; try done; try lia. intros o. by rewrite zdrop_0. }
  assert (decreases (put_at l q) (put_measure l) (put_step l)) as Hd.
  { intros s s' Hs He. pose proof (put_step_spec _ _ _ Hs) as Hn. by rewrite He in Hn. }
  destruct (while_total _ _ _ _ Hd H0') as [r Hr]. rewrite Hr.
  eapply (while_invariant _ _ (put_at l q) (put_left l q)); [| | exact H0' | exact Hr].
  - intros s s' Hs He. by apply (Hd s s').
  - intros s r' Hs He. pose proof (put_step_spec _ _ _ Hs) as Hn. by rewrite He in Hn.
Qed.

(** ** The socket's loop is the run *)

Definition handles (o : outcome) : handled :=
  match o with
  | Waiting => Reading
  | Done => Handled error.success
  | Halted ec => Handled (rpc_to_error_code ec)
  end.

Lemma set_received_same p : received_ p = true -> set_received true p = p.
Proof. destruct p. simpl. by intros ->. Qed.

Lemma receive_mark_true l p : l <> [] \/ received_ p = true -> receive_mark l p = set_received true p.
Proof.
  unfold receive_mark. intros [Hl | ->]; [| done]. rewrite bool_decide_false by done. by rewrite orb_true_r.
Qed.

Definition parse_at l p (s : bytes * parser * Z) : Prop :=
  let '(b, q, _) := s in
  inv q /\ same_settings (set_received true p) (set_received true q) /\ (b <> [] \/ received_ q = true) /\
  forall o, runs (set_received true q) b o -> runs (set_received true p) l o.

Definition parse_left l p (r : handled * bytes * parser * Z) : Prop :=
  let '(h, b, q, _) := r in
  inv q /\ same_settings (set_received true p) q /\
  exists o, h = handles o /\ runs (set_received true p) l (o, q, b).

Lemma parse_step_spec l p s : parse_at l p s ->
  match parse_step all_mode s with
  | inl s' => parse_at l p s' /\ (length s'.1.1 < length s.1.1)%nat
  | inr r => parse_left l p r
  end.
Proof.
  destruct s as [[b q] total]. intros (Hi & Hs & Hr & Hc). unfold parse_step.
  pose proof (put_spec b q Hi) as Hp. rewrite receive_mark_true in Hp by done.
  destruct (put b q) as [[u ec] q']. destruct Hp as (Hu & Hi' & Hs' & Hcc & Hz).
  assert (received_ q' = true) as Hrec by (by destruct Hs' as (_ & _ & -> & _)).
  assert (same_settings (set_received true p) q') as Hss by (by eapply same_settings_trans).
  unfold continues in Hcc. case_bool_decide as Hn; [| destruct (failed ec) eqn:Hf].
  - subst ec. rewrite failed_need_more in Hcc. unfold parse_left. split_and!; try done.
    exists Waiting. split; [done |]. by apply Hc.
  - unfold parse_left. split_and!; try done. exists (Halted ec). split; [done |]. by apply Hc.
  - rewrite !andb_false_l, !orb_false_r. unfold is_done. case_bool_decide as Hd.
    + unfold parse_left. split_and!; try done. exists Done. split; [done |]. by apply Hc, Hcc, runs_done.
    + destruct (Hz eq_refl) as [| Hpos]; [done |]. simpl.
      destruct (u =? 0) eqn:Hu0; [lia |]. unfold parse_at; cbn [fst snd].
      pose proof (zdrop_length u b Hu) as Hlen. split.
      * split_and!; [done | by rewrite (set_received_same q') | by right |].
        intros o Ho. rewrite set_received_same in Ho by done. by apply Hc, Hcc.
      * unfold len in *. lia.
Qed.

Lemma do_parse_spec l p : inv p -> l <> [] \/ received_ p = true -> parse_left l p (do_parse all_mode l p).
Proof.
  intros Hi Hl. unfold do_parse. assert (parse_at l p (l, p, 0)) as H0' by (by split_and!).
  assert (decreases (parse_at l p) (fun s : bytes * parser * Z => length s.1.1) (parse_step all_mode)) as Hd.
  { intros s s' Hs He. pose proof (parse_step_spec _ _ _ Hs) as Hn. by rewrite He in Hn. }
  destruct (while_total _ _ _ _ Hd H0') as [r Hr]. rewrite Hr.
  eapply (while_invariant _ _ (parse_at l p) (parse_left l p)); [| | exact H0' | exact Hr].
  - intros s s' Hs He. by apply (Hd s s').
  - intros s r' Hs He. pose proof (parse_step_spec _ _ _ Hs) as Hn. by rewrite He in Hn.
Qed.

(** ** More bytes *)

Lemma header_window_more l k p : inv p -> exists k', header_window (l ++ k) p = header_window l p ++ k' /\
  (negb (header_limit_ p =? 0) && (window p <=? len l) = true -> k' = []).
Proof.
  intros (Hl & _). unfold header_window. destruct (header_limit_ p =? 0) eqn:Hz; [by exists k |].
  assert (0 <= window p) by (unfold window; lia). pose proof (len_nonneg k).
  exists (ztake (window p - len l) k). split.
  - destruct (decide (window p <= len l)).
    + rewrite ztake_app_le by lia. unfold ztake at 3. replace (Z.to_nat _) with 0%nat by lia. by rewrite app_nil_r.
    + rewrite (ztake_ge _ l) by lia. unfold ztake, len in *. rewrite take_app.
      rewrite (take_ge l) by lia. do 2 f_equal. lia.
  - intros Hw. unfold ztake. by replace (Z.to_nat _) with 0%nat by lia.
Qed.

(** A parse function within the header window. *)
Lemma window_parse {A} (f : http_parse.parse A) l k p : inv p -> http_parse.stable f ->
  match f (header_window l p) with
  | http_parse.Parsed a r => exists r', f (header_window (l ++ k) p) = http_parse.Parsed a r' /\
      len (header_window (l ++ k) p) - len r' = len (header_window l p) - len r
  | http_parse.Stopped ec => header_limited l ec p = http_parse.need_more \/
      exists ec', f (header_window (l ++ k) p) = http_parse.Stopped ec' /\
        header_limited (l ++ k) ec' p = header_limited l ec p
  end.
Proof.
  intros Hi Hf. destruct (header_window_more l k p Hi) as (k' & Hw & Hk). rewrite Hw.
  destruct (f (header_window l p)) as [a r | ec] eqn:Hfl.
  - rewrite Hf, Hfl by (by rewrite Hfl). simpl. eexists. split; [done |]. rewrite !len_app. lia.
  - destruct (decide (ec = http_parse.need_more)) as [-> | Hn].
    + unfold header_limited. rewrite bool_decide_true, andb_true_l by done.
      destruct (negb (header_limit_ p =? 0) && (window p <=? len l)) eqn:Hh; [right | by left].
      rewrite (Hk eq_refl), app_nil_r, Hfl. eexists. split; [done |]. rewrite bool_decide_true, andb_true_l by done.
      pose proof (len_nonneg k). rewrite len_app.
      replace (negb (header_limit_ p =? 0) && (window p <=? len l + len k)) with true by lia. done.
    + right. exists ec. rewrite Hf, Hfl by (rewrite Hfl; congruence). split; [done |].
      unfold header_limited. by rewrite !bool_decide_false.
Qed.

Lemma stable_parse_start_line h : http_parse.stable (parse_start_line h).
Proof.
  destruct h; simpl; apply http_parse.stable_bind; intros; try apply http_parse.stable_ret;
    [apply http_parse.stable_request_line | apply http_parse.stable_status_line].
Qed.

Lemma put_start_line_more l k p u ec p' : inv p -> put_start_line l p = (u, ec, p') -> ~ waits p u ec p' ->
  put_start_line (l ++ k) p = (u, ec, p').
Proof.
  intros Hi. unfold put_start_line. destruct l as [| c l].
  { intros [= <- <- <-] Hw. destruct Hw. by right. }
  change ((c :: l) ++ k) with (c :: (l ++ k)). cbn iota. change (c :: (l ++ k)) with ((c :: l) ++ k). set (m := c :: l).
  pose proof (window_parse (parse_start_line (header_of p)) m k p Hi (stable_parse_start_line _)) as Hwp.
  destruct (parse_start_line (header_of p) (header_window m p)) as [h r | e] eqn:Hp.
  - destruct Hwp as (r' & -> & ->). intros [= <- <- <-] _. done.
  - intros [= <- <- <-] Hw. destruct Hwp as [Hn | (ec' & -> & ->)]; [destruct Hw; by left | done].
Qed.

Lemma atom_field_more retained l k p u ec p' : inv p -> atom_field retained l p = (u, ec, p') -> ~ waits p u ec p' ->
  atom_field retained (l ++ k) p = (u, ec, p').
Proof.
  intros Hi. unfold atom_field, field_step. rewrite !zdrop_0.
  set (out := if retained then Some (message_fields p) else None).
  pose proof (window_parse (http_parse.parse_field out (frame_ p)) l k p Hi (http_parse.stable_parse_field _ _)) as Hwp.
  destruct (http_parse.parse_field out (frame_ p) (header_window l p)) as [[[o f] e] r | e] eqn:Hp.
  - destruct Hwp as (r' & -> & ->). intros Ha _. by destruct e.
  - assert (failed (header_limited l e p) = true) as Hfail.
    { unfold header_limited. destruct (_ && _); [done |]. by eapply http_parse.fails_parse_field. }
    rewrite Hfail. intros [= <- <- <-] Hw. destruct Hwp as [Hn | (ec' & -> & Heq)]; [destruct Hw; by left |].
    by rewrite Heq, Hfail.
Qed.

(** A chunk line that is refused because it is not complete within the header
    limit would be accepted if it were. *)
Definition limited p ec : Prop := ec = to_http_code http_error.bad_chunk_extension /\ header_limit_ p <> 0.

Definition keeps_on p (r r' : Z * code * parser) : Prop := limited p r.1.2 \/ r' = r.

Lemma keeps_on_refl p r : keeps_on p r r.
Proof. by right. Qed.

Lemma put_chunk_header_more l k p : inv p -> state_ p = chunk_header ->
  let r := put_chunk_header l p in waits p r.1.1 r.1.2 r.2 \/ keeps_on p r (put_chunk_header (l ++ k) p).
Proof.
  intros Hi Hs. unfold put_chunk_header. pose proof (len_nonneg k) as Hk.
  destruct (len l <? 2) eqn:Hl; [left; by right |].
  rewrite len_app. destruct (len l + len k <? 2) eqn:?; [lia |].
  assert (fields.starts_with [http_parse.cr; http_parse.lf] (l ++ k) =
    fields.starts_with [http_parse.cr; http_parse.lf] l) as ->.
  { by destruct l as [| x [| y l]]. }
  destruct (_ && _) eqn:Hcrlf; [right; apply keeps_on_refl |].
  rewrite zdrop_app_le by (destruct (expect_crlf_ p); lia). set (m := zdrop _ l).
  pose proof (http_parse.stable_find_chunk_line m k) as Hst.
  destruct (http_parse.find_chunk_line m) as [line rest | e] eqn:Hline.
  - rewrite Hst by done. simpl.
    replace (len l + len k - len (rest ++ k)) with (len l - len rest) by (rewrite len_app; lia).
    right. apply keeps_on_refl.
  - case_bool_decide as Hn.
    + destruct (negb (header_limit_ p =? 0) && (len l >=? header_limit_ p)) eqn:Hh; [| left; by right].
      right. left. split; [done |]. lia.
    + right. rewrite Hst by congruence. simpl. rewrite bool_decide_false by done. apply keeps_on_refl.
Qed.

(** Body data that does not fill its frame. *)
Definition partial l p : Prop :=
  delimited p && (remaining_ p =? 0) = false /\ l <> [] /\ (delimited p = true -> len l < remaining_ p).

#[local] Instance partial_dec l p : Decision (partial l p).
Proof. unfold partial. apply _. Defined.

Lemma put_body_more l k p : inv p -> l <> [] -> is_body (state_ p) = true -> ~ partial l p ->
  put_body (l ++ k) p = put_body l p.
Proof.
  intros Hi Hl Hs Hpart. rewrite !put_body_eq.
  destruct (delimited p && (remaining_ p =? 0)) eqn:Hd; [done |]. cbv zeta.
  pose proof (len_nonneg k).
  destruct (delimited p) eqn:Hdel.
  - assert (remaining_ p <= len l) as Hr.
    { destruct (decide (remaining_ p <= len l)); [done |]. destruct Hpart. unfold partial. rewrite Hdel, Hd.
      split_and!; [done | done | intros _; lia]. }
    unfold body_size. rewrite Hdel, len_app. replace ((len l + len k) `min` remaining_ p) with (remaining_ p) by lia.
    replace (len l `min` remaining_ p) with (remaining_ p) by lia. by rewrite ztake_app_le by lia.
  - destruct Hpart. unfold partial. by rewrite Hdel.
Qed.

Lemma partial_size l p : partial l p -> inv p -> body_size l p = len l /\ 0 < len l.
Proof.
  intros (_ & Hl & Hr) _. assert (0 < len l).
  { pose proof (len_nonneg l). destruct l; [done |]. rewrite len_cons in *. pose proof (len_nonneg l). lia. }
  unfold body_size. destruct (delimited p); [| done]. specialize (Hr eq_refl). lia.
Qed.

Lemma not_limited p size : inv p -> negb (delimited p) && negb (body_limit_ p =? 0) && (narrow 64 (total_ p + size) >? body_limit_ p) = false.
Proof.
  intros (_ & _ & _ & Hb). unfold delimited. destruct Hb as [[_ Hb] | ->]; [by rewrite bool_decide_false |].
  by rewrite andb_false_r.
Qed.

(** Part of a body is read, and the rest of it is still to come. *)
Lemma put_body_partial l p : inv p -> partial l p -> put_body l p =
  let '(used, ec, v) := reader_put l (body_of p) in (used, ec, body_read used v p).
Proof.
  intros Hi Hp. rewrite put_body_eq. pose proof Hp as (-> & _ & Hr). cbv zeta. rewrite not_limited by done.
  destruct (partial_size l p Hp Hi) as [-> Hl]. destruct (len l =? 0) eqn:?; [lia |].
  rewrite ztake_ge by lia. destruct (reader_put l (body_of p)) as [[used ec] v] eqn:Hput.
  destruct (failed ec) eqn:Hf; [done |]. simpl. pose proof (put_all _ _ _ _ _ Hput Hf) as ->.
  destruct (delimited p) eqn:Hd; [| done]. unfold body_read. rewrite Hd. simpl. specialize (Hr eq_refl).
  destruct (remaining_ p - len l =? 0) eqn:?; [lia | done].
Qed.

Lemma body_read_twice a b v w p : body_read b w (body_read a v p) = body_read (a + b) w p.
Proof.
  unfold body_read, delimited. destruct (bool_decide (state_ p = body_to_eof)) eqn:Hd; simpl; rewrite Hd; simpl;
    unfold set_total, set_remaining, set_body; simpl; f_equal; try lia;
    unfold narrow; rewrite Z.add_mod_idemp_l by lia; f_equal; lia.
Qed.

(** Reading a body in two pieces is reading it whole. *)
Lemma put_body_split l k p u ec p' : inv p -> is_body (state_ p) = true -> partial l p -> k <> [] ->
  put_body l p = (u, ec, p') ->
  if failed ec then
    if pauses ec then put_body (l ++ k) p = (u, ec, p') else (put_body (l ++ k) p).1.2 = ec
  else
    let '(u2, ec2, p2) := put_body k p' in
    if failed ec2 && negb (pauses ec2) then (put_body (l ++ k) p).1.2 = ec2
    else put_body (l ++ k) p = (len l + u2, ec2, p2).
Proof.
  intros Hi Hs Hp Hk. rewrite put_body_partial by done. pose proof Hp as (Hrem & Hl & Hr).
  destruct (reader_put l (body_of p)) as [[w e] v] eqn:Hput. intros [= -> -> <-].
  pose proof (partial_size l p Hp Hi) as [_ Hl0]. pose proof (len_nonneg k) as Hk0.
  assert (0 < len k) as Hk1 by (destruct k; [done |]; rewrite len_cons; pose proof (len_nonneg k); lia).
  assert (0 < body_size (l ++ k) p - len l <= len k) as Hb.
  { unfold body_size. rewrite len_app. destruct (delimited p); [specialize (Hr eq_refl) |]; lia. }
  (* The whole of the two pieces that the frame has. *)
  set (m := ztake (body_size (l ++ k) p - len l) k).
  assert (0 < len m /\ ztake (body_size (l ++ k) p) (l ++ k) = l ++ m /\ body_size (l ++ k) p = len l + len m)
    as (Hm & Htake & Hsize).
  { subst m. rewrite len_ztake by lia. split_and!; [lia | | lia].
    unfold ztake, len in *. rewrite take_app, (take_ge l) by lia. do 2 f_equal. lia. }
  assert (m <> []) as Hmn by (by intros Hm0; rewrite Hm0 in Hm).
  rewrite (put_body_eq (l ++ k) p), Hrem. cbv zeta. rewrite not_limited by done.
  destruct (body_size (l ++ k) p =? 0) eqn:?; [lia |]. rewrite Htake.
  destruct (failed ec) eqn:Hf.
  - pose proof (put_failed l m (body_of p) _ _ _ Hl Hput Hf) as Hfail. case_bool_decide.
    + rewrite Hfail, Hf. done.
    + destruct (reader_put (l ++ m) (body_of p)) as [[w' e'] v']. simpl in Hfail. subst e'. by rewrite Hf.
  - pose proof (put_all _ _ _ _ _ Hput Hf) as ->.
    destruct (body_read_spec (len l) v p Hi) as (Hss & Hi' & Hst & _).
    { destruct (delimited p); [left; specialize (Hr eq_refl); lia | by right]. }
    set (q := body_read (len l) v p) in *.
    assert (delimited q = delimited p) as Hdq by (unfold delimited; by rewrite Hst).
    assert (remaining_ q = if delimited p then remaining_ p - len l else remaining_ p) as Hrq
      by (subst q; unfold body_read; by destruct (delimited p)).
    assert (body_of q = v) as Hbq by (subst q; unfold body_read; by destruct (delimited p)).
    assert (body_size k q = len m) as Hks.
    { unfold body_size in *. rewrite Hdq, Hrq. rewrite len_app in Hsize. destruct (delimited p); lia. }
    assert (ztake (len m) k = m) as Hkm.
    { subst m. rewrite len_ztake by lia. f_equal. lia. }
    rewrite (put_body_eq k q), Hdq, Hrq. cbv zeta. rewrite <- Hdq, not_limited, Hdq by done.
    rewrite Hks, Hkm, Hbq. destruct (len m =? 0) eqn:?; [lia |].
    replace (delimited p && _) with false.
    2:{ destruct (delimited p) eqn:Hd; [| done]. specialize (Hr eq_refl). simpl. lia. }
    destruct (reader_put m v) as [[u2 ec2] v2] eqn:Hput2.
    pose proof (put_more l m (body_of p) _ _ _ _ _ _ Hl Hmn Hput Hf Hput2) as Hmore.
    assert (body_read u2 v2 q = body_read (len l + u2) v2 p) as Htwice by apply body_read_twice.
    rewrite Htwice. set (r := body_read (len l + u2) v2 p) in *.
    destruct (failed ec2) eqn:Hf2; simpl.
    + destruct (pauses ec2) eqn:Hnb; simpl in Hmore |- *; rewrite Hf2, ?Hnb; simpl.
      * rewrite Hmore, Hf2. done.
      * destruct (reader_put (l ++ m) (body_of p)) as [[w' e'] v']. simpl in Hmore. subst e'. by rewrite Hf2.
    + simpl in Hmore. rewrite Hmore, Hf2. simpl. fold r.
      destruct (delimited p && (remaining_ r =? 0)); [| by rewrite Hf2].
      destruct (complete_body r) as [z f]. simpl. by destruct (failed f && _).
Qed.

Lemma put_body_whole l k p u ec p' : inv p -> is_body (state_ p) = true -> put_body l p = (u, ec, p') ->
  ~ waits p u ec p' -> ~ partial l p -> put_body (l ++ k) p = (u, ec, p').
Proof.
  intros Hi Hs Ha Hw Hp. destruct (decide (l = [])) as [-> |]; [| by rewrite put_body_more].
  rewrite put_body_eq in Ha |- *. destruct (delimited p && (remaining_ p =? 0)); [done |].
  destruct Hw. cbv zeta in Ha. rewrite not_limited in Ha by done.
  assert (body_size [] p = 0) as Hz.
  { destruct Hi as (_ & ? & _). unfold body_size. rewrite len_nil. destruct (delimited p); lia. }
  rewrite Hz in Ha. simpl in Ha. simplify_eq. by right.
Qed.

(** A step from a state that is not partway in a body is not changed by more
    bytes. *)
Lemma atom_more l k p u ec p' : inv p -> state_ p <> done -> atom l p = (u, ec, p') -> ~ waits p u ec p' ->
  (is_body (state_ p) = true -> ~ partial l p) -> limited p ec \/ atom (l ++ k) p = (u, ec, p').
Proof.
  intros Hi Hd Ha Hw Hb. unfold atom in *. destruct (state_ p) eqn:Hs; try done.
  - right. by apply put_start_line_more.
  - right. by apply atom_field_more.
  - right. apply put_body_whole; rewrite ?Hs; auto.
  - right. apply put_body_whole; rewrite ?Hs; auto.
  - destruct (put_chunk_header_more l k p Hi Hs) as [Hc | Hc]; rewrite Ha in Hc; [done |].
    destruct Hc as [Hc | Hc]; [by left | by right].
  - right. apply put_body_whole; rewrite ?Hs; auto.
  - right. by apply atom_field_more.
Qed.

Lemma atom_body l p : is_body (state_ p) = true -> atom l p = put_body l p.
Proof. unfold atom. by destruct (state_ p). Qed.

Lemma put_body_moves k p u ec p' : inv p -> is_body (state_ p) = true -> k <> [] -> put_body k p = (u, ec, p') ->
  ~ waits p u ec p'.
Proof.
  intros Hi Hs Hk Ha. rewrite put_body_eq in Ha.
  assert (0 < len k) as Hlen by (destruct k; [done |]; rewrite len_cons; pose proof (len_nonneg k); lia).
  destruct (delimited p && (remaining_ p =? 0)) eqn:Hd.
  { pose proof (complete_body_spec p Hi Hs) as Hc. destruct (complete_body p) as [q e]. simplify_eq.
    destruct Hc as (_ & _ & Hn & Hb). intros [-> | (_ & _ & Hst)]; [done | congruence]. }
  cbv zeta in Ha. rewrite not_limited in Ha by done.
  assert (0 < body_size k p <= len k /\ (body_size k p <= remaining_ p \/ delimited p = false)) as [Hz Hrem].
  { destruct Hi as (_ & ? & _). unfold body_size. destruct (delimited p); lia. }
  destruct (body_size k p =? 0) eqn:?; [lia |].
  destruct (reader_put _ _) as [[w e] v] eqn:Hput. pose proof (put_code (ztake (body_size k p) k) (body_of p)) as Hcode.
  rewrite Hput in Hcode. simpl in Hcode. destruct (failed e) eqn:He; simpl in Ha.
  { simplify_eq. intros [-> | (Hf & _)]; congruence. }
  pose proof (put_all _ _ _ _ _ Hput He) as ->. rewrite len_ztake in * by lia.
  destruct (body_read_spec (body_size k p `min` len k) v p Hi) as (_ & Hi' & Hst & _);
    [destruct Hrem; [left; lia | by right] |].
  revert Ha. set (q := body_read _ v p) in *. destruct (delimited p && (remaining_ q =? 0)).
  - pose proof (complete_body_spec q Hi' ltac:(by rewrite Hst)) as Hc. destruct (complete_body q) as [r f].
    destruct Hc as (_ & _ & Hn & _). intros [= <- <- <-]. intros [-> | (_ & Hu & _)]; [done | lia].
  - intros [= <- <- <-]. intros [-> | (_ & Hu & _)]; [done | lia].
Qed.

(** ** A run on more bytes *)

(** What a run on a prefix comes to when the rest arrives. *)
Definition later (o : outcome * parser * bytes) k (o2 : outcome * parser * bytes) : Prop :=
  match o with
  | (Waiting, q, r) => runs q (r ++ k) o2
  | (h, q, r) => o2 = (h, q, r ++ k)
  end.

(** The same outcome, up to what a parser that failed holds, and but for a
    chunk line that does not fit in the header limit. *)
Definition agrees (L : Z) (o o' : outcome * parser * bytes) : Prop :=
  match o.1.1 with
  | Halted ec =>
    ec = to_http_code http_error.bad_chunk_extension /\ L <> 0 \/
    if pauses ec then o' = o else o'.1.1 = Halted ec
  | _ => o' = o
  end.

Lemma agrees_refl L o : agrees L o o.
Proof. unfold agrees. destruct o.1.1 eqn:?; try done. right. by case_bool_decide. Qed.

Lemma agrees_trans L a b c : agrees L a b -> agrees L b c -> agrees L a c.
Proof.
  unfold agrees. destruct a.1.1 as [| | ec] eqn:Ha; [intros ->; by rewrite Ha | intros ->; by rewrite Ha |].
  intros [Hl | Hab]; [intros _; by left |]. case_bool_decide as Hn; [subst b; by rewrite Ha, bool_decide_true |].
  rewrite Hab, bool_decide_false by done. tauto.
Qed.

(** The rest of a body is read as if with its beginning. *)
Lemma runs_partial l k p u0 ec0 p' o : inv p -> is_body (state_ p) = true -> partial l p -> k <> [] ->
  put_body l p = (u0, ec0, p') -> failed ec0 = false -> inv p' -> state_ p' = state_ p ->
  runs p' k o -> exists o', runs p (l ++ k) o' /\ agrees (header_limit_ p) o o'.
Proof.
  intros Hi Hb Hp Hk Ha Hf Hi' Hst Hr.
  assert (state_ p <> done) as Hd by (intros Hd; by rewrite Hd in Hb).
  assert (is_body (state_ p') = true) as Hb' by (by rewrite Hst).
  pose proof (put_body_split l k p _ _ _ Hi Hb Hp Hk Ha) as Hs. rewrite Hf in Hs.
  pose proof (partial_size l p Hp Hi) as [_ Hl].
  inversion Hr as [q m Hd2 | q m u ec q' Hd2 Ha2 Hw2 | q m u ec q' o' Hd2 Ha2 Hf2 Hw2 Hr2 | q m u ec q' Hd2 Ha2 Hf2 Hn2];
    subst; [by rewrite Hd2 in Hb' | ..]; rewrite atom_body in Ha2 by done; rewrite Ha2 in Hs;
    pose proof (put_body_spec _ _ _ _ _ Hi' Hb' Ha2) as (_ & _ & Hu & _);
    assert (zdrop (len l + u) (l ++ k) = zdrop u k) as Hz
      by (rewrite <- zdrop_zdrop, zdrop_app_len by lia; done).
  - destruct (put_body_moves k p' u ec q'); done.
  - rewrite Hf2 in Hs. simpl in Hs. exists o. split; [| apply agrees_refl].
    eapply runs_next; [done | by rewrite atom_body | done | | by rewrite Hz].
    intros [-> | (_ & Hu0 & _)]; [done | lia].
  - rewrite Hf2 in Hs. simpl in Hs. case_bool_decide as Hn; simpl in Hs.
    + eexists. split; [eapply runs_halt; [done | by rewrite atom_body | done | done] |]. rewrite Hz. apply agrees_refl.
    + destruct (put_body (l ++ k) p) as [[w e] r] eqn:Hlk. simpl in Hs. subst e. eexists.
      split; [eapply runs_halt; [done | by rewrite atom_body | done | done] |].
      unfold agrees; simpl. right. by rewrite bool_decide_false.
Qed.

Lemma runs_app p l o : runs p l o -> inv p -> forall k o2, later o k o2 ->
  exists o', runs p (l ++ k) o' /\ agrees (header_limit_ p) o2 o'.
Proof.
  induction 1 as [p l Hd | p l u ec p' Hd Ha Hw | p l u ec p' o Hd Ha Hf Hw Hr IH | p l u ec p' Hd Ha Hf Hn];
    intros Hi k o2 Hl.
  - simpl in Hl. subst o2. eexists. split; [by apply runs_done | apply agrees_refl].
  - simpl in Hl. exists o2. split; [done | apply agrees_refl].
  - pose proof (step_progress _ _ _ _ _ Hi Hd Ha Hf Hw) as (Hi' & Hu & Hs & _).
    destruct (IH Hi' k o2 Hl) as (o' & Ho & Hag). destruct Hs as (Hlim & _). rewrite Hlim in Hag.
    assert (atom (l ++ k) p = (u, ec, p') -> exists o', runs p (l ++ k) o' /\ agrees (header_limit_ p) o2 o') as Hsame.
    { intros Hlk. exists o'. split; [| done]. eapply runs_next; [done | exact Hlk | done | done |].
      by rewrite zdrop_app_le by lia. }
    destruct (decide (k = [])) as [-> | Hk]; [apply Hsame; by rewrite app_nil_r |].
    destruct (decide (is_body (state_ p) = true /\ partial l p)) as [[Hb Hp] | Hnp].
    + rewrite atom_body in Ha by done. pose proof Ha as Ha'. rewrite put_body_partial in Ha' by done.
      destruct (reader_put l (body_of p)) as [[w e] v] eqn:Hput. injection Ha' as -> -> Hv.
      pose proof (put_all _ _ _ _ _ Hput Hf) as ->. pose proof Hp as (_ & _ & Hrem).
      destruct (body_read_spec (len l) v p Hi) as (_ & _ & Hst & _).
      { destruct (delimited p); [left; specialize (Hrem eq_refl); lia | by right]. }
      rewrite Hv in Hst. rewrite zdrop_ge, app_nil_l in Ho by lia.
      destruct (runs_partial l k p _ _ p' o' Hi Hb Hp Hk Ha Hf Hi' Hst Ho) as (o'' & Ho'' & Hag').
      exists o''. split; [done | by eapply agrees_trans].
    + destruct (atom_more l k p u ec p' Hi Hd Ha Hw) as [[-> _] | Hlk]; [tauto | done | by apply Hsame].
  - simpl in Hl. subst o2. pose proof (atom_spec _ _ _ _ _ Hi Hd Ha) as (_ & _ & Hu & _).
    assert (atom (l ++ k) p = (u, ec, p') ->
      exists o', runs p (l ++ k) o' /\ agrees (header_limit_ p) (Halted ec, p', zdrop u l ++ k) o') as Hsame.
    { intros Hlk. eexists. split; [eapply runs_halt; [done | exact Hlk | done | done] |].
      rewrite zdrop_app_le by lia. apply agrees_refl. }
    destruct (decide (k = [])) as [-> | Hk]; [apply Hsame; by rewrite app_nil_r |].
    destruct (decide (is_body (state_ p) = true /\ partial l p)) as [[Hb Hp] | Hnp].
    + rewrite atom_body in Ha by done. pose proof (put_body_split l k p _ _ _ Hi Hb Hp Hk Ha) as Hs.
      rewrite Hf in Hs. case_bool_decide as Hnb; [apply Hsame; by rewrite atom_body |].
      destruct (put_body (l ++ k) p) as [[w e] r] eqn:Hlk. simpl in Hs. subst e. eexists.
      split; [eapply runs_halt; [done | by rewrite atom_body | done | done] |].
      unfold agrees; simpl. right. by rewrite bool_decide_false.
    + destruct (atom_more l k p u ec p' Hi Hd Ha) as [Hlim | Hlk]; [| tauto | | by apply Hsame].
      * intros Hw. apply Hn. by eapply waits_halts.
      * destruct (runs_total p (l ++ k) Hi) as (o' & Ho & _). exists o'. split; [done |]. by left.
Qed.

(** ** Reads *)

Lemma feed_runs pieces : forall buffer p, inv p -> pieces <> [] -> Forall (fun x => x <> []) pieces ->
  exists o o', feed pieces buffer p = (handles o.1.1, o.2, o.1.2) /\
    runs (set_received true p) (buffer ++ concat pieces) o' /\ agrees (header_limit_ p) o o'.
Proof.
  induction pieces as [| x ps IH]; intros b p Hi Hne Hps; [done |]. apply Forall_cons in Hps as [Hx Hps]. simpl.
  pose proof (do_parse_spec (b ++ x) p Hi) as Hd.
  destruct (do_parse all_mode (b ++ x) p) as [[[h b1] q] total].
  destruct Hd as (Hiq & Hsq & out & -> & Hr); [left; by destruct b |].
  assert (header_limit_ q = header_limit_ p /\ received_ q = true) as [HL Hrec] by (by destruct Hsq as (? & _ & ? & _)).
  rewrite app_assoc.
  assert (forall o2, later (out, q, b1) (concat ps) o2 -> exists o',
    runs (set_received true p) ((b ++ x) ++ concat ps) o' /\ agrees (header_limit_ p) o2 o') as Happ
    by (intros o2; by apply (runs_app (set_received true p))).
  destruct out as [| | ec].
  - simpl. destruct (decide (ps = [])) as [-> | Hps0].
    + simpl. rewrite app_nil_r. exists (Waiting, q, b1), (Waiting, q, b1). split_and!; [done | done | apply agrees_refl].
    + destruct (IH b1 q Hiq Hps0 Hps) as (o & o' & -> & Hr' & Hag). rewrite set_received_same in Hr' by done.
      destruct (Happ o' Hr') as (o'' & Ho'' & Hag'). exists o, o''. split_and!; [done | done |].
      rewrite HL in Hag. by eapply agrees_trans.
  - destruct (Happ _ eq_refl) as (o' & Ho & Hag). by exists (Done, q, b1 ++ concat ps), o'.
  - destruct (Happ _ eq_refl) as (o' & Ho & Hag). by exists (Halted ec, q, b1 ++ concat ps), o'.
Qed.

Lemma rpc_to_error_code_failed ec : failed ec = true -> rpc_to_error_code ec <> error.success.
Proof.
  intros Hf He. unfold rpc_to_error_code in He. rewrite Hf in He. simpl in He.
  destruct ec as [e | e | e | c v]; [by rewrite He in Hf | | |];
    apply (f_equal failed) in He; rewrite http_to_error_code_failed, Hf in He; done.
Qed.

Lemma runs_halted p l o ec : runs p l o -> o.1.1 = Halted ec -> failed ec = true.
Proof. induction 1; simpl; intros He; simplify_eq; auto. Qed.

Lemma feed_one c buffer p : inv p -> c <> [] ->
  exists o, feed [c] buffer p = (handles o.1.1, o.2, o.1.2) /\ runs (set_received true p) (buffer ++ c) o.
Proof.
  intros Hi Hc. simpl. pose proof (do_parse_spec (buffer ++ c) p Hi) as Hd.
  destruct (do_parse all_mode (buffer ++ c) p) as [[[h b] q] total].
  destruct Hd as (_ & _ & out & -> & Hr); [left; by destruct buffer |].
  exists (out, q, b). split; [| done]. simpl. rewrite app_nil_r. by destruct out.
Qed.

(** ** The buffer of a socket *)

(** The bytes of the header are counted from zero, by every step. *)
Definition counted p : Prop := 0 <= header_ p.

Lemma finish_counted p : header_ (finish p).1 = header_ p.
Proof. unfold finish. by destruct (reader_finish (body_of p)). Qed.

Lemma start_body_counted s n p : header_ (start_body s n p).1 = header_ p.
Proof. unfold start_body. by destruct (reader_init _ _ _). Qed.

Lemma finish_header_counted p : header_ (finish_header p).1 = header_ p.
Proof. unfold finish_header. repeat case_match; rewrite ?finish_counted, ?start_body_counted; done. Qed.

Lemma complete_body_counted p : header_ (complete_body p).1 = header_ p.
Proof. unfold complete_body. case_bool_decide; [done | apply finish_counted]. Qed.

Lemma put_body_counted l p : header_ (put_body l p).2 = header_ p.
Proof.
  rewrite put_body_eq. destruct (_ && _).
  { pose proof (complete_body_counted p) as Hc. by destruct (complete_body p). }
  cbv zeta. destruct (_ && _); [done |]. destruct (_ =? 0); [done |]. destruct (reader_put _ _) as [[used ec] v].
  assert (header_ (body_read used v p) = header_ p) as Hb by (unfold body_read; by destruct (delimited p)).
  destruct (_ && _); [| done]. pose proof (complete_body_counted (body_read used v p)) as Hc. rewrite Hb in Hc. by destruct (complete_body _).
Qed.

Lemma narrow_counted v : 0 <= narrow 64 v.
Proof. unfold narrow. pose proof (Z.mod_pos_bound v (2 ^ 64) eq_refl). lia. Qed.

Lemma field_step_counted retained l p : counted p -> match field_step retained l (0, p) with inl (_, p') => counted p' | inr (_, _, p') => counted p' end.
Proof.
  intros Hc. unfold field_step. destruct (http_parse.parse_field _ _ _) as [[[out frame] e] r | ec]; [| done].
  unfold counted. destruct e; cbn [header_ set_used]; apply narrow_counted.
Qed.

Lemma atom_counted l p u ec p' : counted p -> atom l p = (u, ec, p') -> counted p'.
Proof.
  intros Hc. assert (forall retained, atom_field retained l p = (u, ec, p') -> counted p') as Hfield.
  { intros retained. unfold atom_field. pose proof (field_step_counted retained l p Hc) as Hf. destruct (field_step _ _ _) as [[v q] | [[v e] q]]; [by intros [= _ _ <-] |].
    destruct (failed e); [by intros [= _ _ <-] |]. unfold ends_lines, counted in *.
    destruct retained; [pose proof (finish_header_counted q) as Hq; destruct (finish_header q) | pose proof (finish_counted q) as Hq; destruct (finish q)]; intros [= _ _ <-]; cbn in Hq; lia. }
  assert (put_body l p = (u, ec, p') -> counted p') as Hbody.
  { intros Hp. pose proof (put_body_counted l p) as Hb. rewrite Hp in Hb. unfold counted in *. cbn in Hb. lia. }
  unfold atom. destruct (state_ p); try done; try apply Hfield; [| | by intros [= _ _ <-]].
  - unfold put_start_line. destruct l; [by intros [= _ _ <-] |]. destruct (parse_start_line _ _); [| by intros [= _ _ <-]]. intros [= _ _ <-]. apply narrow_counted.
  - unfold put_chunk_header, put_chunk_line, counted in *. repeat case_match; intros [= _ _ <-]; cbn; lia.
Qed.

Lemma runs_counted p l o : runs p l o -> counted p -> counted o.1.2.
Proof. induction 1; cbn; intros Hc; eauto using atom_counted. Qed.

Lemma not_header_limited l ec p : inv p -> counted p -> header_limited l ec p = http_parse.need_more -> header_limit_ p <> 0 -> len l < header_limit_ p.
Proof.
  unfold counted. intros (Hl & _) Hc Hn Hz. unfold header_limited in Hn. destruct (_ && _) eqn:Hb; [done |]. subst ec.
  rewrite bool_decide_true in Hb by done. unfold window in Hb. pose proof (len_nonneg l). unfold in_width in *. lia.
Qed.

(** A parser waits with less than its header limit. *)
Lemma wait_short p l u ec p' : inv p -> counted p -> state_ p <> done -> atom l p = (u, ec, p') -> waits p u ec p' -> 1 < header_limit_ p -> len l < header_limit_ p.
Proof.
  intros Hi Hco Hd Ha Hw Hone. assert (is_body (state_ p) = true -> len l < header_limit_ p) as Hbody.
  { intros Hb. destruct (decide (l = [])) as [-> | Hl]; [rewrite len_nil; lia |]. rewrite atom_body in Ha by done. exfalso. by apply (put_body_moves l p u ec p'). }
  assert (forall retained : bool, state_ p = (if retained then fields else trailer) -> atom_field retained l p = (u, ec, p') -> len l < header_limit_ p) as Hfield.
  { intros retained Hs Hf. unfold atom_field in Hf. assert (state_ p = fields \/ state_ p = trailer) as Hst by (destruct retained; tauto).
    pose proof (field_step_spec retained l p Hi Hst) as Hp. destruct (field_step retained l (0, p)) as [[v q] | [[v e] q]] eqn:Hstep.
    - simplify_eq. destruct Hw as [? | (_ & -> & _)]; [done | lia].
    - destruct (failed e) eqn:He.
      + destruct Hp as [-> ->]. simplify_eq. destruct Hw as [-> | (Hx & _)]; [| congruence].
        unfold field_step in Hstep. rewrite zdrop_0 in Hstep. destruct (http_parse.parse_field _ _ _) as [[[out frame] is_end] r | e]; [by destruct is_end; simplify_eq |].
        injection Hstep as Hstep. by apply (not_header_limited l e); [| | | lia].
      + destruct Hp as (-> & Hv & Hq & _). pose proof (atom_field_spec retained l p u ec p' Hi Hs) as Hx. unfold atom_field in Hx. rewrite Hstep, He in Hx. specialize (Hx Hf).
        destruct (ends_lines retained q) as [q' f]. simplify_eq. destruct Hw as [-> | (_ & -> & _)]; [| lia]. destruct Hx as (_ & _ & _ & Hn & _). destruct (Hn eq_refl) as [-> _]. lia. }
  unfold atom in Ha. destruct (state_ p) eqn:Hs; try done; try by apply Hbody.
  - unfold put_start_line in Ha. destruct l as [| c l]; [rewrite len_nil; lia |]. destruct (parse_start_line _ _) as [h r | e] eqn:Hp.
    + simplify_eq. destruct Hw as [? | (_ & _ & Hx)]; [done |]. by cbn [state_ set_state] in Hx; congruence.
    + injection Ha as <- Ha <-. assert (failed e = true) as He.
      { unfold parse_start_line in Hp. destruct (header_of p) as [m | m]; eapply http_parse.fails_bind; try exact Hp;
          try apply http_parse.fails_request_line; try apply http_parse.fails_status_line; intros; apply http_parse.fails_ret. }
      apply (not_header_limited (c :: l) e); [done | done | | lia]. destruct Hw as [-> | (Hx & _)]; [done |]. subst ec. unfold header_limited in Hx. destruct (bool_decide _ && _ && _); [done | congruence].
  - by apply (Hfield true).
  - unfold put_chunk_header in Ha. destruct (len l <? 2) eqn:Hlen; [lia |]. destruct (_ && _); [simplify_eq; by destruct Hw as [? | (? & _)] |].
    destruct (http_parse.find_chunk_line _) as [line r | e] eqn:Hline.
    + pose proof (put_chunk_line_spec _ _ _ _ _ _ Hi Hs Ha) as Hc. destruct (failed ec) eqn:He; [destruct Hc as (_ & _ & Hc); by destruct Hw as [? | (? & _)]; congruence |].
      destruct Hc as (_ & _ & _ & Hn & Hne). destruct Hw as [-> | (_ & _ & Hx)]; [done | congruence].
    + destruct (bool_decide_reflect (e = http_parse.need_more)) as [-> | Hne].
      * destruct (negb (header_limit_ p =? 0) && _) eqn:Hb; [simplify_eq; by destruct Hw as [? | (? & _)] | lia].
      * injection Ha as <- <- <-. destruct Hw as [-> | (Hx & _)]; [done |]. pose proof (http_parse.fails_find_chunk_line _ _ Hline). congruence.
  - by apply (Hfield false).
Qed.

Lemma runs_wait_short p l o : runs p l o -> inv p -> counted p -> 1 < header_limit_ p -> o.1.1 = Waiting -> len o.2 < header_limit_ p.
Proof.
  induction 1 as [p l Hd | p l u ec p' Hd Ha Hw | p l u ec p' o Hd Ha Hf Hw Hr IH | p l u ec p' Hd Ha Hf Hn]; intros Hi Hco Hone Ho; try done.
  - by eapply wait_short.
  - pose proof (atom_spec _ _ _ _ _ Hi Hd Ha) as ((Hl & _) & Hi' & _). rewrite <- Hl. apply IH; [done | by eapply atom_counted | by rewrite Hl | done].
Qed.

Lemma runs_suffix p l o : runs p l o -> exists k, l = k ++ o.2.
Proof.
  induction 1 as [p l Hd | p l u ec p' Hd Ha Hw | p l u ec p' o Hd Ha Hf Hw Hr (k & IH) | p l u ec p' Hd Ha Hf Hn]; [by exists [] | by exists [] | |].
  - exists (ztake u l ++ k). rewrite <- app_assoc, <- IH. symmetry. apply take_drop.
  - exists (ztake u l). symmetry. apply take_drop.
Qed.

(** What is read and parsed, of a buffer that the header limit fits in. *)
Lemma receive_feed fuel header : forall pieces b p, inv p -> counted p -> flat_buffer.wf b -> header = header_limit_ p -> 1 < header <= flat_buffer.limit_ b ->
  len (flat_buffer.data b) < header -> Forall (fun x => x <> []) pieces -> (length (concat pieces) < fuel)%nat ->
  let '(h, b', q, unread) := receive fuel header pieces b p in
  exists pieces', concat pieces' = concat pieces /\ Forall (fun x => x <> []) pieces' /\
    feed pieces' (flat_buffer.data b) p = (h, flat_buffer.data b' ++ concat unread, q).
Proof.
  induction fuel as [| fuel IH]; intros pieces b p Hi Hco Hb -> Hh Hl Hps Hf; [lia |]. cbn [receive].
  assert (0 < read_size (header_limit_ p) b <= flat_buffer.limit_ b - len (flat_buffer.data b)) as Hsize.
  { unfold read_size, flat_buffer.max_size, flat_buffer.capacity. rewrite <- (flat_buffer.len_data b Hb). lia. }
  rewrite (proj2 (Z.eqb_neq _ _)) by lia. destruct Hps as [| piece pieces Hp Hps].
  { exists []. split_and!; [done | constructor |]. cbn [feed concat]. by rewrite app_nil_r. }
  pose proof (flat_buffer.prepare_spec (read_size (header_limit_ p) b) b Hb ltac:(lia)) as Hprep.
  destruct (flat_buffer.prepare _ b) as [b1 |]; [| lia]. destruct Hprep as (Hb1 & Hd1 & Hlim & Hroom & Hfit).
  set (size := read_size (header_limit_ p) b) in *. set (read := ztake size piece). set (rest := if size <? len piece then zdrop size piece :: pieces else pieces).
  assert (len read <= size) as Hread by (unfold read; rewrite len_ztake by lia; lia). pose proof (len_nonneg read).
  assert (read <> []) as Hne by (unfold read, ztake; destruct piece; [done |]; by destruct (Z.to_nat size) eqn:?; [lia |]).
  assert (concat (piece :: pieces) = read ++ concat rest /\ Forall (fun x => x <> []) rest /\ (length (concat rest) < fuel)%nat) as (Hcat & Hrest & Hfuel).
  { assert (concat (piece :: pieces) = read ++ concat rest) as Hc.
    { unfold rest, read. cbn [concat]. destruct (Z.ltb_spec size (len piece)); [cbn [concat]; by rewrite app_assoc, ztake_zdrop | by rewrite ztake_ge by lia]. }
    split_and!; [done | |].
    - unfold rest. destruct (Z.ltb_spec size (len piece)); [constructor; [| done] | done]. intros Hx. apply (f_equal len) in Hx. rewrite len_zdrop, len_nil in Hx by lia. lia.
    - rewrite Hc, length_app in Hf. destruct read; [done | cbn in Hf; lia]. }
  destruct (flat_buffer.append_spec read (len read) b1 Hb1) as [Hb2 Hd2]; [lia | lia | rewrite Hd1, Hlim; lia |].
  rewrite ztake_ge, Hd1 in Hd2 by lia. set (b2 := flat_buffer.commit (len read) (flat_buffer.fill read b1)) in *.
  assert (flat_buffer.limit_ b2 = flat_buffer.limit_ b) as Hl2 by done.
  pose proof (do_parse_spec (flat_buffer.data b2) p Hi) as Hpar. rewrite Hd2 in *.
  destruct (do_parse all_mode (flat_buffer.data b ++ read) p) as [[[h l] q] total] eqn:Hdo.
  destruct Hpar as (Hiq & Hsq & out & -> & Hr); [left; by destruct (flat_buffer.data b) |].
  assert (header_limit_ q = header_limit_ p) as HL by (by destruct Hsq as (? & _)).
  destruct (runs_suffix _ _ _ Hr) as [k Hk]. cbn [snd] in Hk.
  pose proof (flat_buffer.step_refines (flat_buffer.Consume (len (flat_buffer.data b ++ read) - len l)) b2 Hb2) as Hc.
  cbn [flat_buffer.step flat_buffer.spec_step flat_buffer.op_ok] in Hc. destruct Hc as (Hb3 & Hl3 & Hd3).
  { rewrite <- Hd2, (flat_buffer.len_data b2 Hb2). pose proof (flat_buffer.wf_size b2 Hb2). destruct Hb2 as (? & ? & ?). unfold u64, in_width.
    assert (len l <= flat_buffer.size b2) by (rewrite <- (flat_buffer.len_data b2) by done; rewrite Hd2, Hk, len_app; pose proof (len_nonneg k); lia). pose proof (len_nonneg l). lia. }
  set (b3 := flat_buffer.consume _ b2) in *. injection Hd3 as Hd3. rewrite Hd2, Hk, zdrop_app_len in Hd3 by (rewrite len_app; lia).
  destruct out as [| | ec]; cbn [handles].
  - pose proof (IH rest b3 q Hiq (runs_counted _ _ _ Hr Hco) Hb3) as Hx. rewrite HL, Hl3, Hl2, <- Hd3 in Hx. specialize (Hx eq_refl Hh).
    pose proof (runs_wait_short _ _ _ Hr Hi Hco ltac:(cbn; lia) eq_refl) as Hshort. cbn in Hshort. specialize (Hx Hshort Hrest Hfuel).
    destruct (receive fuel (header_limit_ p) rest b3 q) as [[[h b4] q'] unread]. destruct Hx as (pieces' & He & Hall & Hfeed).
    exists (read :: pieces'). split_and!; [rewrite Hcat; cbn [concat]; by rewrite He | by constructor |]. cbn [feed]. by rewrite Hdo.
  - exists (read :: rest). split_and!; [by rewrite Hcat | by constructor |]. cbn [feed]. rewrite Hdo. cbn [handles]. by rewrite Hd3.
  - exists (read :: rest). split_and!; [by rewrite Hcat | by constructor |]. cbn [feed]. rewrite Hdo. cbn [handles]. by rewrite Hd3.
Qed.

(** Two parses of the same bytes, of which the first is in pieces. *)
Definition parsed_alike (limit : Z) (o o' : handled * bytes * parser) : Prop :=
  let '(h, b, q) := o in
  let '(h', b', q') := o' in
  h = Handled error.bad_chunk_extension /\ limit <> 0 \/
  h' = h /\ (h = Reading \/ h = Handled error.success \/ h = Handled error.need_buffer -> b' = b /\ q' = q).

Lemma feed_alike pieces buffer p : inv p -> pieces <> [] -> Forall (fun x => x <> []) pieces ->
  parsed_alike (header_limit_ p) (feed pieces buffer p) (feed [concat pieces] buffer p).
Proof.
  intros Hi Hne Hps. destruct (feed_runs pieces buffer p Hi Hne Hps) as (o & o' & -> & Hr & Hag).
  assert (concat pieces <> []) as Hc by (destruct Hps as [| x ps Hx _]; [done | simpl; by destruct x]).
  destruct (feed_one (concat pieces) buffer p Hi Hc) as (w & -> & Hw).
  pose proof (runs_unique _ _ _ _ Hr Hw) as ->. unfold agrees in Hag. unfold parsed_alike.
  destruct o.1.1 as [| | ec] eqn:Ho; [right; subst w; by rewrite Ho.. |].
  destruct Hag as [[-> HL] | Hag]; [by left | right]. case_bool_decide as Hb; [subst w; by rewrite Ho |].
  rewrite Hag. split; [done |]. simpl. intros [Hh | [Hh | Hh]]; [done | | congruence].
  injection Hh as Hh. exfalso. revert Hh. apply rpc_to_error_code_failed.
  by eapply runs_halted.
Qed.

(** C5: segmentation.  Whatever the body, of those that take all that they are
    given ([BodyLaws]: the bodies of bodies.hpp; not the json and json-rpc
    readers, which give back what follows their document), a message that
    arrives in any pieces is parsed as if it arrived whole: the socket invokes
    its handler with the same code, or goes on reading in both cases, and when
    it reads, is done or pauses, the parser and what it left in the buffer are
    the same.  Except, under a header limit, that a chunk line longer than the
    limit may be refused only because it arrived in pieces.  So it is as well of
    the reads of a socket into its buffer, whose sizes are those that it can
    hold: where the buffer admits the header limit it is never found full. *)
Theorem http_parse_segmentation pieces buffer p :
  inv p -> pieces <> [] -> Forall (fun x => x <> []) pieces ->
  parsed_alike (header_limit_ p) (feed pieces buffer p) (feed [concat pieces] buffer p) /\
  forall b fuel, counted p -> flat_buffer.wf b -> flat_buffer.data b = buffer -> 1 < header_limit_ p <= flat_buffer.limit_ b -> len buffer < header_limit_ p ->
    (length (concat pieces) < fuel)%nat ->
    let '(h, b', q, unread) := receive fuel (header_limit_ p) pieces b p in
    parsed_alike (header_limit_ p) (h, flat_buffer.data b' ++ concat unread, q) (feed [concat pieces] buffer p).
Proof.
  intros Hi Hne Hps. split; [by apply feed_alike |]. intros b fuel Hco Hb <- Hh Hl Hf.
  pose proof (receive_feed fuel (header_limit_ p) pieces b p Hi Hco Hb eq_refl Hh Hl Hps Hf) as Hr.
  destruct (receive fuel (header_limit_ p) pieces b p) as [[[h b'] q] unread]. destruct Hr as (pieces' & He & Hps' & <-). rewrite <- He. apply feed_alike; [done | | done].
  intros ->. destruct Hps as [| x ps Hx]; [done |]. cbn in He. by destruct x.
Qed.
End segmentation.
End http_segmentation.

(** ** A chunked request in three reads *)

#[global] Instance vector_max_size : contiguous_body.Container := 2 ^ 63 - 1.

Definition server_parser : http_parser.t :=
  http_parser.make (header.Request header.request_init) (contiguous_body.mk []).

(** The line end of the header, the chunk line and the data are cut. *)
Definition chunked_pieces : list bytes := [
  chars "POST / HTTP/1.1" ++ [13; 10] ++ chars "Transfer-Encoding: chunked" ++ [13; 10; 13];
  [10] ++ chars "5;a=b";
  [13; 10] ++ chars "he";
  chars "llo" ++ [13; 10] ++ chars "0" ++ [13; 10; 13; 10] ++ chars "GET"].

Example chunked_pieces_read :
  let '(h, b, q) := http_parser.feed chunked_pieces [] server_parser in
  h = http_parser.Handled error.success /\ b = chars "GET" /\ contiguous_body.value (http_parser.body_of q) = chars "hello".
Proof. vm_compute. split_and!; reflexivity. Qed.

(** The header limit of a socket, and its buffer. *)
Definition socket_parser : http_parser.t := http_parser.header_limit 64 server_parser.
Definition socket_buffer : flat_buffer.t := flat_buffer.make 64.

(** A buffer that is full of what cannot be parsed is an overflow. *)
Example full_buffer_overflows :
  (http_parser.receive 128 64 chunked_pieces (flat_buffer.make 8) socket_parser).1.1.1 = http_parser.Handled error.buffer_overflow.
Proof. vm_compute. reflexivity. Qed.

Lemma http_parse_segmentation_witness :
  let limit := http_parser.header_limit_ socket_parser in
  http_segmentation.parsed_alike limit (http_parser.feed chunked_pieces [] socket_parser) (http_parser.feed [concat chunked_pieces] [] socket_parser) /\
  let '(h, b', q, unread) := http_parser.receive 128 limit chunked_pieces socket_buffer socket_parser in
  http_segmentation.parsed_alike limit (h, flat_buffer.data b' ++ concat unread, q) (http_parser.feed [concat chunked_pieces] [] socket_parser).
Proof.
  cbv zeta. destruct (http_segmentation.http_parse_segmentation chunked_pieces [] socket_parser) as [Hfeed Hreceive].
  - unfold http_segmentation.inv. split_and!; [done | done | intros n Hn; discriminate Hn |].
    left. by split.
  - discriminate.
  - repeat constructor; discriminate.
  - split; [exact Hfeed |]. apply Hreceive; clear.
    + unfold http_segmentation.counted. done.
    + by apply flat_buffer.wf_make.
    + reflexivity.
    + by split.
    + done.
    + apply (bool_decide_eq_true_1 _). vm_compute. reflexivity.
Defined.

(** A complete chunk line longer than the header limit is taken when it
    arrives whole, and refused when it arrives in pieces. *)
Definition limited_parser : http_parser.t := http_parser.header_limit 64 server_parser.

Definition long_chunk_line : list bytes := [
  chars "POST / HTTP/1.1" ++ [13; 10] ++ chars "Transfer-Encoding: chunked" ++ [13; 10; 13; 10];
  chars "5;a=" ++ repeat 97 80;
  [13; 10] ++ chars "hello" ++ [13; 10] ++ chars "0" ++ [13; 10; 13; 10]].

Lemma chunk_line_beyond_limit :
  let '(h, _, _) := http_parser.feed long_chunk_line [] limited_parser in
  let '(h', _, q) := http_parser.feed [concat long_chunk_line] [] limited_parser in
  h = http_parser.Handled error.bad_chunk_extension /\ h' = http_parser.Handled error.success /\
  contiguous_body.value (http_parser.body_of q) = chars "hello".
Proof. vm_compute. split_and!; reflexivity. Qed.
