(* ===== verification/HttpFraming.v ===== *)
(** * HttpFraming: how a request is delimited, and within which limits

    The parser of [HttpParser] on the requests that a server reads: a request
    that is accepted has one framing, that of its fields, and what is read of
    it is within the limits that are set.  The invariant is kept by the
    smallest steps of [HttpSegmentation], so that it holds of every read. *)

From S2P Require Import Prelude.
From S2P Require Import Errors.
From S2P Require Import HttpEnums.
From S2P Require Import HttpFields.
From S2P Require Import HttpHeader.
From S2P Require Import HttpParse.
From S2P Require Import HttpParser.
From S2P Require Import HttpBodies.
From S2P Require Import HttpSegmentation.

Import http_text.

Module http_framing.
Import http_parser.
Import http_segmentation.

(** ** Fields that frame *)

Section framing.
Context `{Text}.

Definition of_field (f : field.field) (e : fields.entry) : bool := bool_decide (fields.id e = f).

(** The values of all lengths, and the fields of codings. *)
Definition length_items (l : fields.t) : list bytes :=
  flat_map (fun e => split comma (fields.value e)) (List.filter (of_field field.content_length) l).
Definition coding_fields (l : fields.t) : list fields.entry := List.filter (of_field field.transfer_encoding) l.

(** A list of codings of which only the last is chunked. *)
Definition is_chunked (coding : bytes) : bool := iequals coding (chars "chunked").
Definition ends_chunked (codings : list bytes) : bool :=
  match last codings with Some coding => is_chunked coding | None => false end &&
  negb (existsb is_chunked (removelast codings)).

(** The frame is that of the fields. *)
Definition framed (fr : http_parse.framing) (l : fields.t) : Prop :=
  (forall x, In x (length_items l) -> exists n, http_parse.length_ fr = Some n /\ from_chars x = Some (n, [])) /\
  (forall n, http_parse.length_ fr = Some n -> u64 n /\ length_items l <> []) /\
  if http_parse.chunked fr || http_parse.encoded fr then
    http_parse.length_ fr = None /\ http_parse.encoded fr = negb (http_parse.chunked fr) /\
    exists e codings, coding_fields l = [e] /\ http_parse.token_list (fields.value e) = (codings, true) /\
      http_parse.chunked fr = ends_chunked codings
  else coding_fields l = [].

Lemma insert_permutation n v l : Permutation (fields.insert n v l) (fields.mk_entry (field.to_field n) n v :: l).
Proof.
  unfold fields.insert, fields.add. set (e := fields.mk_entry _ n v).
  assert (forall l', fields.insert_after_last e l = Some l' -> Permutation l' (e :: l)) as Hi.
  { induction l as [| x l IH]; intros l'; simpl; [done |].
    destruct (fields.insert_after_last e l) as [k |].
    - intros [= <-]. rewrite (IH k) by done. apply perm_swap.
    - destruct (fields.named _ x); [| done]. intros [= <-]. apply perm_swap. }
  destruct (fields.insert_after_last e l) as [l' |]; [by apply Hi |].
  by rewrite <- Permutation_cons_append.
Qed.

Lemma filter_permutation {A} (f : A -> bool) l k : Permutation l k -> Permutation (List.filter f l) (List.filter f k).
Proof.
  induction 1 as [| x l k _ IH | x y l | l k m _ IH1 _ IH2]; simpl; [done | by destruct (f x); [constructor |] | |
    by rewrite IH1].
  destruct (f x), (f y); try done. apply perm_swap.
Qed.

Lemma coding_insert n v l : field.to_field n <> field.transfer_encoding ->
  Permutation (coding_fields (fields.insert n v l)) (coding_fields l).
Proof.
  intros Hn. unfold coding_fields. rewrite (filter_permutation _ _ _ (insert_permutation n v l)). simpl.
  unfold of_field at 1; simpl. by rewrite bool_decide_false.
Qed.

Lemma coding_insert_same n v l : field.to_field n = field.transfer_encoding -> coding_fields l = [] ->
  coding_fields (fields.insert n v l) = [fields.mk_entry (field.to_field n) n v].
Proof.
  intros Hn Hl. unfold coding_fields in *. apply Permutation_singleton_r.
  rewrite (filter_permutation _ _ _ (insert_permutation n v l)). simpl. rewrite Hl.
  unfold of_field; simpl. by rewrite bool_decide_true.
Qed.

Lemma in_length_items x l : In x (length_items l) <->
  exists e, In e l /\ fields.id e = field.content_length /\ In x (split comma (fields.value e)).
Proof.
  unfold length_items. rewrite in_flat_map. setoid_rewrite List.filter_In. unfold of_field.
  setoid_rewrite bool_decide_eq_true. split; intros (e & He & Hx); exists e; tauto.
Qed.

Lemma length_insert x n v l : In x (length_items (fields.insert n v l)) <->
  field.to_field n = field.content_length /\ In x (split comma v) \/ In x (length_items l).
Proof.
  rewrite !in_length_items. split.
  - intros (e & He & Hid & Hx). apply (Permutation_in _ (insert_permutation n v l)) in He as [<- | He]; [by left |].
    right. by exists e.
  - pose proof (Permutation_sym (insert_permutation n v l)) as Hp. intros [[Hid Hx] | (e & He & Hid & Hx)].
    + eexists. split; [apply (Permutation_in _ Hp); by left | by split].
    + exists e. split; [apply (Permutation_in _ Hp); by right | by split].
Qed.

Lemma from_chars_u64 l n r : from_chars l = Some (n, r) -> u64 n.
Proof.
  intros Hl. pose proof (from_chars_nonneg _ _ _ Hl). revert Hl. unfold from_chars.
  destruct (digits_of l) as [[| c d] q]; [done |]. destruct (_ <=? _) eqn:Hm; [| done]. intros [= <- _].
  unfold in_width, max_uint64 in *. lia.
Qed.

(** The items of a length are all the same number, that of what came before. *)
Lemma frame_lengths_spec items m m' : http_parse.frame_lengths items m = inl m' ->
  (forall n, m = Some n -> m' = Some n) /\
  (forall x, In x items -> exists n, m' = Some n /\ from_chars x = Some (n, []) /\ u64 n) /\
  (m' = m \/ items <> []).
Proof.
  revert m. induction items as [| x items IH]; intros m; simpl; [intros [= <-]; split_and!; [done | done | by left] |].
  destruct (from_chars x) as [[n [|]] |] eqn:Hx; [| done..]. pose proof (from_chars_u64 _ _ _ Hx) as Hn.
  assert (http_parse.frame_lengths items (Some n) = inl m' -> (forall k, m = Some k -> k = n) ->
    (forall k, m = Some k -> m' = Some k) /\
    (forall y, x = y \/ In y items -> exists k, m' = Some k /\ from_chars y = Some (k, []) /\ u64 k) /\
    (m' = m \/ x :: items <> [])) as Hstep.
  { intros Hl Hm. destruct (IH _ Hl) as (Hk & Hi & _). split_and!; [| | by right].
    - intros k Hmk. rewrite (Hm k Hmk). by apply Hk.
    - intros y [<- | Hy]; [exists n; split_and!; auto | by apply Hi]. }
  destruct m as [k |]; [| intros Hl; by apply Hstep].
  destruct (n =? k) eqn:Hk; simpl; [| done]. intros Hl. apply Hstep; [done |]. intros j [= <-]. lia.
Qed.

Lemma proxy_connection : field.to_field (chars "Proxy-Connection") = field.unknown.
Proof. by vm_compute. Qed.

(** A field that is taken is framed as its value says, with the fields before. *)
Lemma frame_field_framed fr l n v fr' : framed fr l ->
  http_parse.frame_field fr
    (if iequals n (chars "Proxy-Connection") then field.connection else field.to_field n) v = inl fr' ->
  framed fr' (fields.insert n v l).
Proof.
  intros (Hitems & Hlen & Hcod).
  assert (field.to_field n <> field.content_length -> field.to_field n <> field.transfer_encoding ->
    framed fr (fields.insert n v l)) as Hother.
  { intros Hc Ht. split_and!.
    - intros x Hx. apply length_insert in Hx as [[Hx _] | Hx]; [done | auto].
    - intros m Hm. destruct (Hlen m Hm) as [? Hne]. split; [done |]. intros Hnil.
      destruct (length_items l) as [| y k] eqn:Hl; [done |]. assert (In y (length_items (fields.insert n v l))) as Hy
        by (apply length_insert; right; rewrite Hl; by left). by rewrite Hnil in Hy.
    - pose proof (coding_insert n v l Ht) as Hp. destruct (_ || _).
      + destruct Hcod as (? & ? & e & codings & He & ?). split_and!; [done | done |]. exists e, codings.
        rewrite He in Hp. split_and!; try tauto. by apply Permutation_singleton_r.
      + rewrite Hcod in Hp. by apply Permutation_nil_r. }
  destruct (iequals n (chars "Proxy-Connection")) eqn:Hp.
  { apply field.to_field_case in Hp. rewrite proxy_connection in Hp. cbn [http_parse.frame_field].
    destruct (negb (http_parse.token_list v).2); [intros [=] |].
    intros [= <-]. apply Hother; by rewrite Hp. }
  destruct (field.to_field n) eqn:Hn; simpl; try (intros [= <-]; by apply Hother).
  - destruct (negb (http_parse.token_list v).2); [intros [=] |]. intros [= <-]. by apply Hother.
  - destruct (http_parse.chunked fr || http_parse.encoded fr) eqn:Hce; [intros [=] |].
    simpl. destruct (negb (http_parse.token_list v).2); [intros [=] |]. destruct (http_parse.frame_lengths _ _) as [m |] eqn:Hl; [| intros [=]].
    apply frame_lengths_spec in Hl as (Hk & Hi & Hsome). intros [= <-]. unfold framed; simpl. rewrite Hce.
    split_and!.
    + intros x Hx. apply length_insert in Hx as [[_ Hx] | Hx].
      * destruct (Hi x Hx) as (k & ? & ? & _). by exists k.
      * destruct (Hitems x Hx) as (k & ? & ?). exists k. auto.
    + intros k Hm. assert (forall y, In y (length_items (fields.insert n v l)) ->
        length_items (fields.insert n v l) <> []) as Hne by (intros y Hy Hnil; by rewrite Hnil in Hy).
      destruct (split comma v) as [| x items] eqn:Hv.
      * destruct Hsome as [-> | []]; [| done]. destruct (Hlen k Hm) as [? Hl]. split; [done |].
        destruct (length_items l) as [| y r] eqn:Hll; [done |]. apply (Hne y). apply length_insert. right.
        rewrite Hll. by left.
      * destruct (Hi x) as (j & Hj & _ & Hu); [by left |]. simplify_eq. split; [done |]. apply (Hne x).
        apply length_insert. left. rewrite Hv. split; [done | by left].
    + apply Permutation_nil_r. rewrite coding_insert, Hcod by congruence. done.
  - destruct (http_parse.chunked fr || http_parse.encoded fr) eqn:Hce; [intros [=] |]. simpl.
    destruct (http_parse.length_ fr) as [k |] eqn:Hlf; simpl; [intros [=] |].
    destruct (http_parse.token_list v) as [codings valid] eqn:Hv. destruct valid; [| intros [=]].
    destruct (bool_decide (codings = [])); [intros [=] |]. simpl. intros [= <-]. unfold framed; simpl.
    fold is_chunked. fold (ends_chunked codings). rewrite orb_negb_r. split_and!; try done.
    + intros x Hx. apply length_insert in Hx as [[Hx _] | Hx]; [congruence |].
      destruct (Hitems x Hx) as (m & Hm & _). congruence.
    + exists (fields.mk_entry field.transfer_encoding n v), codings. split_and!; try done. rewrite <- Hn.
      by apply coding_insert_same.
Qed.

(** The fields of a trailer do not reframe. *)
Lemma frame_field_chunked fr id v fr' : http_parse.chunked fr = true ->
  http_parse.frame_field fr id v = inl fr' -> fr' = fr.
Proof.
  intros Hc. unfold http_parse.frame_field. destruct id; try (by intros [= <-]); rewrite ?Hc; try done.
  destruct (negb _); [done | by intros [= <-]].
Qed.

Lemma framed_unframed : framed http_parse.unframed [].
Proof. unfold framed. split_and!; done. Qed.

Lemma parse_field_framed out fr l out' fr' b r : http_parse.parse_field out fr l = http_parse.Parsed (out', fr', b) r ->
  (forall fs, out = Some fs -> framed fr fs -> exists fs', out' = Some fs' /\ framed fr' fs') /\
  (out = None -> out' = None) /\ (http_parse.chunked fr = true -> fr' = fr).
Proof.
  unfold http_parse.parse_field. destruct (len l <? 2); [done |]. destruct (zget l 0 =? _).
  - destruct (negb _); [done |]. intros [= <- <- _ _]. split_and!; eauto.
  - unfold http_parse.bind. destruct (http_parse.field_name l) as [name r1 |]; [| done].
    destruct (bool_decide (name = [])); [done |]. destruct (http_parse.skip r1) as [[] r2 |]; [| done].
    destruct (http_parse.field_value r2) as [v r3 |]; [| done].
    destruct (http_parse.frame_field _ _ v) as [f |] eqn:Hff; [| done]. intros [= <- <- _ _].
    split_and!; [| by intros -> | intros Hc; by eapply frame_field_chunked].
    intros fs -> Hfs. eexists. split; [done |]. by eapply frame_field_framed.
Qed.

Lemma parse_start_line_fields h l h' r : parse_start_line h l = http_parse.Parsed h' r ->
  header.is_request h' = header.is_request h /\ header.fields_ (header.base_of h') = header.fields_ (header.base_of h).
Proof.
  unfold parse_start_line, http_parse.parse_request_line, http_parse.parse_status_line, http_parse.bind, http_parse.ret,
    http_parse.stop.
  destruct h; repeat case_match; intros [= <- _] || intros [=]; simplify_eq; done.
Qed.
End framing.

(** ** The invariant *)

Section keeps.
Context `{Text} {V : Type} `{BodyLaws V}.
Notation parser := (@http_parser.t V).
Implicit Types (p : parser) (l : bytes).

(** What the state says of the frame, and of the bytes given to the reader. *)
Definition sized p : Prop :=
  match state_ p with
  | start_line | fields => total_ p = 0
  | body => http_parse.length_ (frame_ p) = Some (total_ p + remaining_ p)
  | body_to_eof => False
  | chunk_header | chunk_body | trailer => http_parse.chunked (frame_ p) = true
  | done => http_parse.chunked (frame_ p) = true \/ http_parse.encoded (frame_ p) = false /\
      total_ p = match http_parse.length_ (frame_ p) with Some n => n | None => 0 end
  end.

(** What is to be given to the reader. *)
Definition outstanding p : Z := match state_ p with body | chunk_body => remaining_ p | _ => 0 end.

Record ok p : Prop := {
  ok_inv : inv p;
  ok_request : header.is_request (header_of p) = true;
  ok_skip : skip_ p = false;
  ok_limits : u64 (header_limit_ p) /\ u64 (body_limit_ p);
  ok_framed : framed (frame_ p) (message_fields p);
  ok_sized : sized p;
  ok_header : header_limit_ p = 0 \/ 0 <= header_ p <= header_limit_ p;
  ok_body : 0 <= total_ p /\ (body_limit_ p = 0 \/ total_ p + outstanding p <= body_limit_ p)
}.

Lemma ok_length p n : ok p -> http_parse.length_ (frame_ p) = Some n -> u64 n.
Proof. intros Ho Hn. by destruct (ok_framed p Ho) as (_ & Hl & _); destruct (Hl n Hn). Qed.

(** A parser that differs in its body and its state, and in what is sized. *)
Lemma ok_change p p' : ok p -> inv p' -> same_settings p p' -> frame_ p' = frame_ p -> message_fields p' = message_fields p ->
  header_ p' = header_ p -> sized p' ->
  0 <= total_ p' /\ (body_limit_ p = 0 \/ total_ p' + outstanding p' <= body_limit_ p) -> ok p'.
Proof.
  intros [] Hi (Hh & Hb & _ & Hr & Hs) Hf Hm Hu Hz Ht. constructor; rewrite ?Hh, ?Hb, ?Hr, ?Hs, ?Hf, ?Hm, ?Hu; try done.
Qed.

Lemma total_room p : ok p -> outstanding p = 0 -> body_limit_ p = 0 \/ total_ p + 0 <= body_limit_ p.
Proof. intros Ho Hz. destruct (ok_body p Ho) as [_ Hb]. by rewrite Hz in Hb. Qed.

Lemma window_used p u : ok p -> 0 <= u -> header_limit_ p = 0 \/ u <= window p ->
  header_limit_ p = 0 \/ 0 <= narrow 64 (header_ p + u) <= header_limit_ p.
Proof.
  intros Ho Hu [Hz | Hw]; [by left |]. destruct (ok_header p Ho) as [Hz | Hh]; [by left | right].
  destruct (ok_limits p Ho) as [Hl _]. unfold window in Hw. unfold in_width in Hl. unfold narrow. rewrite Z.mod_small; lia.
Qed.

Lemma window_bound p l : ok p -> header_limit_ p = 0 \/ len (header_window l p) <= window p.
Proof.
  intros Ho. unfold header_window. destruct (header_limit_ p =? 0) eqn:Hz; [left; lia | right].
  destruct (ok_inv p Ho) as (? & _). rewrite len_ztake by (unfold window; lia). lia.
Qed.

Lemma ok_start_line l p u ec p' : ok p -> state_ p = start_line -> put_start_line l p = (u, ec, p') -> ok p'.
Proof.
  intros Ho Hs Ha. pose proof (put_start_line_spec _ _ _ _ _ (ok_inv p Ho) Hs Ha) as (Hset & Hi & _).
  revert Ha. unfold put_start_line. destruct l as [| c l]; [by intros [= <- <- <-] |]. set (m := c :: l) in *.
  destruct (parse_start_line _ _) as [h r |] eqn:Hq; [| by intros [= <- <- <-]].
  pose proof (parse_start_line_fields _ _ _ _ Hq) as [Hr Hf]. intros [= <- <- <-].
  assert (0 <= len (header_window m p) - len r <= len (header_window m p)) as Hu.
  { pose proof (len_nonneg r). revert Hq. unfold parse_start_line, http_parse.bind. destruct (header_of p) as [q | q].
    - destruct (http_parse.parse_request_line q _) eqn:Hq; [| by intros [=]]. intros [= _ <-].
      destruct (http_parse.consumes_request_line q _ _ _ Hq) as (t & Ht & _). rewrite Ht, len_app. pose proof (len_nonneg t). lia.
    - destruct (http_parse.parse_status_line q _) eqn:Hq; [| by intros [=]]. intros [= _ <-].
      destruct (http_parse.consumes_status_line q _ _ _ Hq) as (t & Ht & _). rewrite Ht, len_app. pose proof (len_nonneg t). lia. }
  pose proof (window_bound p m Ho) as Hw. pose proof (ok_sized p Ho) as Hz. unfold sized in Hz. rewrite Hs in Hz.
  pose proof (window_used p (len (header_window m p) - len r) Ho ltac:(lia) ltac:(lia)) as Hh. destruct Ho.
  constructor; try done; simpl.
  - by rewrite Hr.
  - unfold message_fields; simpl. by rewrite Hf.
  - unfold outstanding in *; simpl. by rewrite Hs in ok_body0.
Qed.

Lemma ok_finish p : ok p -> (let q := set_state done p in sized q) -> outstanding p = 0 \/ remaining_ p = 0 -> ok (finish p).1.
Proof.
  intros Ho Hz Hr. unfold finish. destruct (reader_finish (body_of p)) as [v ec]. simpl.
  apply (ok_change p); try done.
  - destruct (ok_inv p Ho) as (? & ? & ? & Hb). unfold inv; simpl. split_and!; try done.
    left. by rewrite (ok_request p Ho).
  - destruct (ok_body p Ho) as [? Hb]. split; [done |]. unfold outstanding in *; simpl.
    destruct Hb as [| Hb]; [by left | right]. destruct (state_ p); lia.
Qed.

Lemma ok_start_body s n p : ok p -> state_ p = fields -> s <> body_to_eof -> sized (set_state s p) ->
  body_limit_ p = 0 \/ total_ p + outstanding (set_state s p) <= body_limit_ p -> ok (start_body s n p).1.
Proof.
  intros Ho Hs Hn Hz Hb. pose proof (start_body_spec s n p) as Hsp. unfold start_body in *.
  destruct (reader_init _ _ _) as [v ec]. simpl in *. destruct Hsp as (_ & _ & Hset & _).
  apply (ok_change p); try done.
  - destruct (ok_inv p Ho) as (? & ? & ? & _). unfold inv; simpl. split_and!; try done. left.
    by rewrite (ok_request p Ho).
  - destruct (ok_body p Ho) as [? _]. by split.
Qed.

Lemma ok_finish_header p : ok p -> state_ p = fields -> ok (finish_header p).1.
Proof.
  intros Ho Hs. pose proof (ok_request p Ho) as Hr. pose proof (ok_skip p Ho) as Hk. pose proof (ok_sized p Ho) as Hz.
  unfold sized in Hz. rewrite Hs in Hz. assert (outstanding p = 0) as Hout by (unfold outstanding; by rewrite Hs).
  pose proof (total_room p Ho Hout) as Hroom.
  destruct (ok_framed p Ho) as (_ & _ & Hcod). unfold finish_header. rewrite Hk. destruct (header_of p) as [r |] eqn:Hh; [| done].
  simpl. destruct (http_parse.length_ (frame_ p)) as [n |] eqn:Hn.
  - pose proof (ok_length p n Ho Hn) as Hu. set (q := set_remaining n p).
    assert (ok q) as Hq.
    { apply (ok_change p); try done.
      - destruct (ok_inv p Ho) as (? & ? & ? & ?). unfold inv; simpl. unfold in_width in Hu. by split_and!; try lia.
      - unfold sized; simpl. by rewrite Hs.
      - destruct (ok_body p Ho). unfold outstanding in *; simpl. by rewrite Hs in *. }
    assert (http_parse.encoded (frame_ p) = false) as He.
    { destruct (http_parse.encoded (frame_ p)); [| done]. rewrite orb_true_r in Hcod. by destruct Hcod as [? _]. }
    destruct (n =? 0) eqn:Hn0.
    + apply ok_finish; [done | | right; simpl; lia]. simpl. right. simpl. rewrite Hn. split; [done | lia].
    + simpl. destruct (negb (body_limit_ p =? 0) && (n >? body_limit_ p)) eqn:Hl; [done |].
      apply ok_start_body; try done; simpl.
      * unfold sized; simpl. rewrite Hn, Hz. f_equal; lia.
      * unfold outstanding; simpl. destruct (body_limit_ p =? 0) eqn:?; [left; lia | right; simpl in Hl; lia].
  - destruct (http_parse.chunked (frame_ p)) eqn:Hc.
    + by apply ok_start_body.
    + destruct (http_parse.encoded (frame_ p)) eqn:He; [done |].
      apply ok_finish; [done | | by left]. right; simpl. by rewrite Hn.
Qed.

Definition lines_state_ok (retained : bool) p : Prop := state_ p = (if retained then fields else trailer).

Lemma ok_field retained l p u ec p' : ok p -> lines_state_ok retained p -> atom_field retained l p = (u, ec, p') -> ok p'.
Proof.
  intros Ho Hs. unfold atom_field.
  assert (state_ p = fields \/ state_ p = trailer) as Hst by (unfold lines_state_ok in Hs; destruct retained; auto).
  pose proof (field_step_spec retained l p (ok_inv p Ho) Hst) as Hf. unfold field_step in *. rewrite zdrop_0 in *.
  pose proof (window_bound p l Ho) as Hw. revert Hf.
  destruct (http_parse.parse_field _ _ _) as [[[out frame] e] rest | f] eqn:Hp.
  2:{ destruct (failed _) eqn:Hf; [by intros _ [= <- <- <-] |]. intros (_ & [? _] & _); lia. }
  assert (0 <= len (header_window l p) - len rest <= len (header_window l p)) as Hu.
  { destruct (http_parse.consumes_parse_field _ _ _ _ _ Hp) as (t & -> & _). rewrite len_app.
    pose proof (len_nonneg t). pose proof (len_nonneg rest). lia. }
  pose proof (window_used p _ Ho (proj1 Hu) ltac:(lia)) as Hh.
  destruct (parse_field_framed _ _ _ _ _ _ _ Hp) as (Hsome & Hnone & Hchunked).
  pose proof (ok_sized p Ho) as Hz. pose proof (ok_body p Ho) as Hb. unfold sized, outstanding in Hz, Hb.
  set (q := set_used _ _). intros Hf.
  assert (inv q /\ same_settings p q /\ state_ q = state_ p) as (Hi & (Hs1 & Hs2 & _ & Hs3 & Hs4) & Hsq).
  { destruct e; simpl in Hf; rewrite ?failed_cleared in Hf; tauto. }
  assert (framed (frame_ q) (message_fields q) /\ (retained = false -> frame_ q = frame_ p)) as [Hfr Hsame].
  { destruct retained.
    - destruct (Hsome _ eq_refl (ok_framed p Ho)) as (fs' & -> & Hfr). split; [| done].
      subst q. unfold message_fields; simpl. by destruct (header_of p).
    - specialize (Hnone eq_refl) as ->. rewrite Hs in Hz. specialize (Hchunked Hz) as ->.
      split; [exact (ok_framed p Ho) | done]. }
  assert (header_ q = narrow 64 (header_ p + (len (header_window l p) - len rest)) /\ total_ q = total_ p /\
    remaining_ q = remaining_ p) as (Hq1 & Hq2 & Hq3) by (subst q; by destruct out).
  assert (ok q) as Hq.
  { constructor; rewrite ?Hs1, ?Hs2, ?Hs3, ?Hs4, ?Hq1, ?Hq2; try done; try apply Ho.
    - unfold sized. rewrite Hsq, Hq2. destruct retained; rewrite Hs in *; [done |]. by rewrite Hsame.
    - unfold outstanding. rewrite Hsq. by destruct retained; rewrite Hs in *. }
  assert (lines_state_ok retained q) as Hlq by (unfold lines_state_ok; by rewrite Hsq).
  clearbody q. destruct e; [| by intros [= <- <- <-]]. rewrite failed_cleared. unfold ends_lines. destruct retained.
  - pose proof (ok_finish_header q Hq Hlq). destruct (finish_header q). by intros [= <- <- <-].
  - assert (ok (finish q).1) as Hfin.
    { apply ok_finish; [done | |]; unfold sized, outstanding; simpl; rewrite ?Hlq; [| by left]. left.
      rewrite Hsame by done. by rewrite Hs in Hz. }
    destruct (finish q). by intros [= <- <- <-].
Qed.

Lemma ok_complete p : ok p -> is_body (state_ p) = true -> remaining_ p = 0 -> ok (complete_body p).1.
Proof.
  intros Ho Hs Hr. pose proof (ok_sized p Ho) as Hz. unfold sized in Hz. unfold complete_body. case_bool_decide as Hc.
  - simpl. rewrite Hc in Hz. apply (ok_change p); try done.
    + destruct (ok_inv p Ho) as (? & ? & ? & _). unfold inv; simpl. split_and!; try done. left. by rewrite (ok_request p Ho).
    + destruct (ok_body p Ho) as [? Hb]. split; [done |]. unfold outstanding in *; simpl. rewrite Hc in Hb. lia.
  - apply ok_finish; [done | | by right]. unfold sized; simpl. right. destruct (state_ p) eqn:Hst; try done.
    rewrite Hz. destruct (ok_framed p Ho) as (_ & _ & Hcod). split; [| lia].
    destruct (http_parse.encoded (frame_ p)); [| done]. rewrite orb_true_r in Hcod. destruct Hcod as [? _]. congruence.
Qed.

Lemma ok_put_body l p u ec p' : ok p -> is_body (state_ p) = true -> put_body l p = (u, ec, p') -> ok p'.
Proof.
  intros Ho Hs. pose proof (ok_inv p Ho) as Hi. pose proof (ok_sized p Ho) as Hz. pose proof (len_nonneg l).
  assert (delimited p = true /\ (state_ p = body \/ state_ p = chunk_body)) as [Hd Hst].
  { unfold delimited, sized in *. destruct (state_ p); try done; by auto. }
  rewrite put_body_eq. rewrite Hd. simpl. destruct (remaining_ p =? 0) eqn:Hr0.
  { pose proof (ok_complete p Ho Hs ltac:(lia)). destruct (complete_body p). by intros [= <- <- <-]. }
  destruct (body_size l p =? 0) eqn:Hsz; [by intros [= <- <- <-] |].
  destruct (reader_put _ _) as [[used e] v] eqn:Hput. pose proof (put_used _ _ _ _ _ Hput) as Hu.
  assert (0 <= body_size l p <= remaining_ p) as Hb by (destruct Hi as (_ & ? & _); unfold body_size; rewrite Hd; lia).
  rewrite len_ztake in Hu by lia. destruct (body_read_spec used v p Hi) as (Hset & Hbi & Hbst & Hbf); [left; lia |].
  assert (ok (body_read used v p) /\ remaining_ (body_read used v p) = remaining_ p - used) as [Hq Hrem].
  { split; [| unfold body_read; by rewrite Hd]. destruct (ok_body p Ho) as [Ht Hlim].
    destruct (ok_limits p Ho) as [_ Hbl]. unfold in_width in Hbl.
    apply (ok_change p); try done; try (by unfold body_read; destruct (delimited p)).
    - unfold sized in *. rewrite Hbst, Hbf. destruct Hst as [Hst | Hst]; rewrite Hst in *; [| done].
      unfold body_read. rewrite Hd. simpl. rewrite Hz. f_equal.
      pose proof (ok_length p _ Ho Hz) as Hw. unfold in_width in Hw. unfold narrow. rewrite Z.mod_small; lia.
    - assert (outstanding p = remaining_ p /\ outstanding (body_read used v p) = remaining_ p - used) as [Ho1 Ho2].
      { unfold outstanding. rewrite Hbst. unfold body_read. rewrite Hd. by destruct Hst as [-> | ->]. }
      rewrite Ho2. rewrite Ho1 in Hlim. unfold body_read. rewrite Hd. simpl. unfold narrow.
      split; [apply Z.mod_pos_bound; lia |]. destruct Hlim as [| Hlim]; [by left | right].
      rewrite Z.mod_small; lia. }
  clear Hz. set (q := body_read used v p) in *. clearbody q. destruct (_ && (remaining_ q =? 0)) eqn:He; [| by intros [= <- <- <-]].
  apply andb_true_iff in He as [_ He]. pose proof (ok_complete q Hq ltac:(by rewrite Hbst) ltac:(lia)).
  destruct (complete_body q). by intros [= <- <- <-].
Qed.

Lemma ok_chunk_line line used p u ec p' : ok p -> state_ p = chunk_header ->
  put_chunk_line line used p = (u, ec, p') -> ok p'.
Proof.
  intros Ho Hs Ha. pose proof (put_chunk_line_spec _ _ _ _ _ _ (ok_inv p Ho) Hs Ha) as Hsp. revert Ha.
  pose proof (ok_sized p Ho) as Hz. unfold sized in Hz. rewrite Hs in Hz. unfold put_chunk_line.
  destruct (http_parse.parse_chunk_size line) as [[size digits] |] eqn:Hsize; [| by intros [= <- <- <-]].
  apply parse_chunk_size_nonneg in Hsize. destruct (negb (body_limit_ p =? 0) && _) eqn:Hl; [by intros [= <- <- <-] |].
  destruct (negb (http_parse.valid_chunk_extensions _ _)); [by intros [= <- <- <-] |]. intros [= <- <- <-]. rewrite failed_cleared in Hsp.
  destruct Hsp as (_ & (Hs1 & Hs2 & _ & Hs3 & Hs4) & Hi & _). destruct (ok_body p Ho) as [Ht Hb].
  unfold outstanding in Hb. rewrite Hs in Hb. pose proof (ok_header p Ho) as Hh.
  destruct (size =? 0) eqn:Hsz; constructor; rewrite ?Hs1, ?Hs2, ?Hs3, ?Hs4; try done; try apply Ho; simpl.
  - lia.
  - split; [done |]. unfold outstanding; simpl. lia.
Qed.

Lemma ok_atom l p u ec p' : ok p -> state_ p <> done -> atom l p = (u, ec, p') -> ok p'.
Proof.
  intros Ho Hd. unfold atom. destruct (state_ p) eqn:Hs; try done.
  - by apply ok_start_line.
  - by apply ok_field.
  - by apply ok_put_body; rewrite ?Hs.
  - by apply ok_put_body; rewrite ?Hs.
  - unfold put_chunk_header. destruct (len l <? 2); [by intros [= <- <- <-] |].
    destruct (_ && _); [by intros [= <- <- <-] |].
    destruct (http_parse.find_chunk_line _); [by apply ok_chunk_line |].
    destruct (bool_decide _); [destruct (_ && _) |]; by intros [= <- <- <-].
  - by apply ok_put_body; rewrite ?Hs.
  - by apply ok_field.
Qed.

Lemma ok_runs p l o : runs p l o -> ok p -> ok o.1.2 /\ (o.1.1 = Done -> state_ o.1.2 = done).
Proof.
  induction 1 as [p l Hd | p l u ec p' Hd Ha Hw | p l u ec p' o Hd Ha Hf Hw Hr IH | p l u ec p' Hd Ha Hf Hn]; intros Ho;
    [done | done | apply IH; by eapply ok_atom | split; [by eapply ok_atom | done]].
Qed.

Lemma ok_received p : ok p -> ok (set_received true p).
Proof. intros []. by constructor. Qed.

Lemma ok_feed pieces : forall buffer p h b q, ok p -> Forall (fun x => x <> []) pieces ->
  feed pieces buffer p = (h, b, q) ->
  ok q /\ (header_limit_ q = header_limit_ p /\ body_limit_ q = body_limit_ p) /\
  (h = Handled error.success -> state_ q = done).
Proof.
  induction pieces as [| x ps IH]; intros buffer p h b q Ho Hps; simpl; [by intros [= <- <- <-] |].
  apply Forall_cons in Hps as [Hx Hps]. pose proof (do_parse_spec (buffer ++ x) p (ok_inv p Ho)) as Hd.
  destruct (do_parse all_mode (buffer ++ x) p) as [[[h1 b1] q1] total].
  destruct Hd as (_ & (Hh1 & Hb1 & _) & out & -> & Hr); [left; by destruct buffer |]. simpl in Hh1, Hb1.
  pose proof (ok_runs _ _ _ Hr (ok_received p Ho)) as [Hq Hdone]. simpl in *.
  destruct out as [| | ec]; simpl; [| intros [= <- <- <-]; auto |].
  { intros Hf. destruct (IH _ _ _ _ _ Hq Hps Hf) as (? & [? ?] & ?). split_and!; [done | congruence.. | done]. }
  intros [= <- <- <-]. split_and!; [done.. |].
  intros [= Hh]. exfalso. revert Hh. apply rpc_to_error_code_failed. by eapply runs_halted.
Qed.

(** The parser of a server: a request, with its limits. *)
Definition request_parser (hl bl : Z) (v : V) : parser :=
  body_limit bl (header_limit hl (make (header.Request header.request_init) v)).

Lemma ok_request_parser hl bl v : u64 hl -> u64 bl -> ok (request_parser hl bl v).
Proof.
  intros Hh Hb. unfold in_width in *. constructor; try done; simpl.
  - unfold inv; simpl. split_and!; try done; try lia. by left.
  - lia.
  - split; [done | unfold outstanding; simpl; lia].
Qed.

(** C3: framing.  A request that is accepted, whatever its bytes and the pieces
    in which they arrive, and over any body that keeps [BodyLaws], is delimited
    in one way: by chunks, and then it has
    one Transfer-Encoding whose last coding, and no other, is chunked, and no
    length; or by a length, and then it has no Transfer-Encoding, every item
    of every Content-Length is the same number, and that is the number of
    bytes given to the body (none where there is no length). *)
Theorem http_framing_unambiguous hl bl v pieces : u64 hl -> u64 bl -> Forall (fun x => x <> []) pieces ->
  let '(h, b, q) := feed pieces [] (request_parser hl bl v) in
  h = Handled error.success ->
  (length_items (message_fields q) = [] /\ exists e codings, coding_fields (message_fields q) = [e] /\
    http_parse.token_list (fields.value e) = (codings, true) /\ ends_chunked codings = true) \/
  (coding_fields (message_fields q) = [] /\
    (length_items (message_fields q) = [] -> total_ q = 0) /\
    forall x, In x (length_items (message_fields q)) -> from_chars x = Some (total_ q, [])).
Proof.
  intros Hh Hb Hps. destruct (feed _ _ _) as [[h b] q] eqn:Hf.
  destruct (ok_feed _ _ _ _ _ _ (ok_request_parser hl bl v Hh Hb) Hps Hf) as (Ho & _ & Hd). intros Hsuccess.
  specialize (Hd Hsuccess). pose proof (ok_sized q Ho) as Hz. unfold sized in Hz. rewrite Hd in Hz.
  destruct (ok_framed q Ho) as (Hitems & Hlen & Hcod). destruct (http_parse.chunked (frame_ q)) eqn:Hc.
  - left. simpl in Hcod. destruct Hcod as (Hn & _ & e & codings & ? & ? & ?). split; [| by exists e, codings].
    destruct (length_items _) as [| x r]; [done |]. destruct (Hitems x) as (n & Hx & _); [by left | congruence].
  - destruct Hz as [? | [He Ht]]; [done |]. rewrite He in Hcod. simpl in Hcod.
    right. split; [done |]. destruct (http_parse.length_ (frame_ q)) as [n |] eqn:Hn.
    + rewrite Ht. split; [by destruct (Hlen n eq_refl) |]. intros x Hx. destruct (Hitems x Hx) as (m & [= ->] & ?). done.
    + split; [done |]. intros x Hx. by destruct (Hitems x Hx) as (m & ? & _).
Qed.

(** Limits.  Within a header limit a parser takes no more than it of the
    start line, the fields, and the trailer; within a body limit it gives no
    more than it to the body, and never starts on a body or a chunk that would
    exceed it, also when the request is refused. *)
Theorem http_parse_limits hl bl v pieces : u64 hl -> u64 bl -> Forall (fun x => x <> []) pieces ->
  let '(h, b, q) := feed pieces [] (request_parser hl bl v) in
  (hl <> 0 -> 0 <= header_ q <= hl) /\
  (bl <> 0 -> 0 <= total_ q /\ total_ q + outstanding q <= bl).
Proof.
  intros Hh Hb Hps. destruct (feed _ _ _) as [[h b] q] eqn:Hf.
  pose proof (ok_request_parser hl bl v Hh Hb) as Hp. destruct (ok_feed _ _ _ _ _ _ Hp Hps Hf) as (Ho & [Hhl Hbl] & _). simpl in Hhl, Hbl.
  pose proof (ok_header q Ho) as Hx. pose proof (ok_body q Ho) as Hy. rewrite Hhl in Hx. rewrite Hbl in Hy. lia.
Qed.
End keeps.

(** ** A request with two equal lengths, and what is refused *)

#[local] Existing Instance vector_max_size.

Definition line (s : bytes) : bytes := s ++ [13; 10].

Definition posted (headers : list bytes) (rest : bytes) : list bytes :=
  [line (chars "POST / HTTP/1.1") ++ concat (map line headers) ++ [13; 10]; rest].

Definition served (pieces : list bytes) := (feed pieces [] (request_parser 128 8 (contiguous_body.mk []))).1.1.

Lemma http_framing_unambiguous_witness :
  let '(h, b, q) := feed (posted [chars "Content-Length: 5, 5"; chars "content-length: 5"] (chars "helloGET")) []
    (request_parser 128 8 (contiguous_body.mk [])) in
  h = Handled error.success ->
  (length_items (message_fields q) = [] /\ exists e codings, coding_fields (message_fields q) = [e] /\
    http_parse.token_list (fields.value e) = (codings, true) /\ ends_chunked codings = true) \/
  (coding_fields (message_fields q) = [] /\
    (length_items (message_fields q) = [] -> total_ q = 0) /\
    forall x, In x (length_items (message_fields q)) -> from_chars x = Some (total_ q, [])).
Proof.
  apply (http_framing_unambiguous 128 8 (contiguous_body.mk [])); [done | done |].
  repeat constructor; intros [=].
Defined.

Example equal_lengths_served : served (posted [chars "Content-Length: 5, 5"; chars "content-length: 5"] (chars "helloGET")) =
  Handled error.success.
Proof. by vm_compute. Qed.

Example different_lengths_refused :
  served (posted [chars "Content-Length: 5"; chars "Content-Length: 6"] (chars "helloGET")) =
  Handled error.multiple_content_length.
Proof. by vm_compute. Qed.

Example length_and_chunks_refused :
  served (posted [chars "Content-Length: 5"; chars "Transfer-Encoding: chunked"] (chars "helloGET")) =
  Handled error.bad_transfer_encoding.
Proof. by vm_compute. Qed.

Lemma http_parse_limits_witness :
  let '(h, b, q) := feed (posted [chars "Transfer-Encoding: chunked"] (line (chars "6") ++ line (chars "abcdef") ++ line (chars "3"))) []
    (request_parser 128 8 (contiguous_body.mk [])) in
  (128 <> 0 -> 0 <= header_ q <= 128) /\ (8 <> 0 -> 0 <= total_ q /\ total_ q + outstanding q <= 8).
Proof.
  apply (http_parse_limits 128 8 (contiguous_body.mk [])); [done | done |].
  repeat constructor; intros [=].
Defined.

Example exceeding_chunk_refused :
  served (posted [chars "Transfer-Encoding: chunked"] (line (chars "6") ++ line (chars "abcdef") ++ line (chars "3"))) =
  Handled error.body_limit.
Proof. by vm_compute. Qed.
End http_framing.
