(* ===== verification/HttpSerializer.v ===== *)
(** * HttpSerializer: messages to bytes

    Models [src/messages/http/serializer.cpp],
    [include/bitcoin/network/messages/http/serializer.hpp],
    [include/bitcoin/network/impl/messages/http/serializer.ipp], and the
    blocking write of [include/bitcoin/network/impl/messages/http/operations.ipp].
    An operation gives the buffers to write, its code, and the serializer. *)

From S2P Require Import Prelude.
From S2P Require Import Errors.
From S2P Require Import HttpEnums.
From S2P Require Import HttpFields.
From S2P Require Import HttpHeader.
From S2P Require Import HttpParse.
From S2P Require Import HttpParser.
From S2P Require Import HttpBodies.

Module http_serializer.

Definition crlf : bytes := [http_parse.cr; http_parse.lf].

Section text.
Context `{Text}.

Definition version_text (version : Z) : bytes :=
  chars "HTTP/" ++ serialize (version / 10) ++ [46] ++ serialize (version mod 10).

Definition append_fields (out : bytes) (header : fields.t) : bytes :=
  fold_left (fun out e => out ++ fields.name e ++ [58; 32] ++ fields.value e ++ crlf) header out ++ crlf.

Definition serialize_header (h : header.t) : bytes :=
  match h with
  | header.Request r =>
    append_fields (header.method_string r ++ [32] ++ header.target r ++ [32] ++
      version_text (header.version (header.request_base r)) ++ crlf) (header.fields_ (header.request_base r))
  | header.Response r =>
    append_fields (version_text (header.version (header.response_base r)) ++ [32] ++ serialize (header.code_ r) ++
      [32] ++ header.reason r ++ crlf) (header.fields_ (header.response_base r))
  end.
End text.

(** The hexadecimal digits of a size ([size_t] has at most 16). *)
Definition hex_digit (n : Z) : Z := zget (chars "0123456789abcdef") n.

Fixpoint hex (fuel : nat) (size : Z) (out : bytes) : bytes :=
  let out := hex_digit (size mod 16) :: out in
  match fuel with
  | O => out
  | S fuel => if size / 16 =? 0 then out else hex fuel (size / 16) out
  end.

Definition chunk_header (size : Z) : bytes := hex 15 size [] ++ crlf.

Definition chunk_end : bytes := crlf.
Definition last_chunk : bytes := [48] ++ crlf ++ crlf.

(** ** The serializer of a message *)

Inductive state := header_state | body_state | done_state.

#[global] Instance state_eq_dec : EqDecision state.
Proof. solve_decision. Defined.

Section serializer.
Context `{Text} {V : Type} `{BodyWriter V}.

(** The message (header and body, with the state of the writer). *)
Record t := mk {
  message_ : header.t; writer_ : V; chunked_ : bool; state_ : state; header_ : bytes; prefix_ : bytes }.

Definition make (h : header.t) (v : V) : t :=
  mk h v (header.chunked (header.base_of h)) header_state [] [].

Definition is_header_done (s : t) : bool := negb (bool_decide (state_ s = header_state)).
Definition is_done (s : t) : bool := bool_decide (state_ s = done_state).

Definition set_writer (v : V) (s : t) : t := mk (message_ s) v (chunked_ s) (state_ s) (header_ s) (prefix_ s).
Definition set_state (v : state) (s : t) : t := mk (message_ s) (writer_ s) (chunked_ s) v (header_ s) (prefix_ s).
Definition set_header (v : bytes) (s : t) : t := mk (message_ s) (writer_ s) (chunked_ s) (state_ s) v (prefix_ s).
Definition set_prefix (v : bytes) (s : t) : t := mk (message_ s) (writer_ s) (chunked_ s) (state_ s) (header_ s) v.

Definition append_body (buffers : list bytes) (s : t) : list bytes * code * t :=
  let '(out, ec, v) := writer_get (writer_ s) in
  let s := set_writer v s in
  if failed ec then (buffers, ec, s) else
  let more := match out with Some (_, m) => m | None => false end in
  let data := match out with Some (d, _) => d | None => [] end in
  let s := if negb more then set_state done_state s else s in
  if negb (chunked_ s) then (if negb (len data =? 0) then buffers ++ [data] else buffers, ec, s) else
  let '(buffers, s) :=
    if negb (len data =? 0) then
      let s := set_prefix (chunk_header (len data)) s in (buffers ++ [prefix_ s; data; chunk_end], s)
    else (buffers, s) in
  (if negb more then buffers ++ [last_chunk] else buffers, ec, s).

(** The next buffers, empty once done. *)
Definition next (s : t) : list bytes * code * t :=
  match state_ s with
  | header_state =>
    let s := set_header (serialize_header (message_ s)) s in
    let '(v, ec) := writer_init (writer_ s) in
    let s := set_writer v s in
    if failed ec then ([], ec, s) else
    let s := set_state body_state s in
    let '(buffers, ec, s) := append_body [header_ s] s in
    (if failed ec then [] else buffers, ec, s)
  | body_state =>
    let '(buffers, ec, s) := append_body [] s in
    (if failed ec then [] else buffers, ec, s)
  | done_state => ([], cleared, s)
  end.

(** The loop of [write] on a stream that takes the buffers ([io::write]), in
    at most [n] calls: the stream and its code, if the message ends. *)
Fixpoint write {S} (io_write : S -> list bytes -> S * code) (n : nat) (stream : S) (s : t) : option (S * code) :=
  if is_done s then Some (stream, cleared) else
  match n with
  | O => None
  | Datatypes.S n =>
    let '(buffers, ec, s) := next s in
    if failed ec then Some (stream, ec) else
    let '(stream, ec) := io_write stream buffers in
    if failed ec then Some (stream, ec) else write io_write n stream s
  end.
End serializer.

(** ** The serializer of a body without a header *)

Section body_serializer.
Context {V : Type} `{BodyWriter V}.

Record body_t := mk_body { body_writer_ : V; initialized_ : bool; done_ : bool }.

Definition make_body (v : V) : body_t := mk_body v false false.

Definition next_body (s : body_t) : list bytes * code * body_t :=
  if done_ s then ([], cleared, s) else
  let '(v, ec) := if initialized_ s then (body_writer_ s, cleared) else writer_init (body_writer_ s) in
  if failed ec then ([], ec, mk_body v true false) else
  let '(out, ec, v) := writer_get v in
  if failed ec then ([], ec, mk_body v true false) else
  ([match out with Some (d, _) => d | None => [] end], ec,
   mk_body v true (match out with Some (_, m) => negb m | None => true end)).
End body_serializer.
End http_serializer.
