(* ===== verification/HttpRoundTrip.v ===== *)
(** * HttpRoundTrip: what is written is what is read

    The parser of [HttpParser] on the text of the serializer of
    [HttpSerializer]: the elements of a message, and the theorem that a
    prepared message is read as it was written, in whatever pieces it
    arrives. *)

From S2P Require Import Prelude.
From S2P Require Import Errors.
From S2P Require Import HttpEnums.
From S2P Require Import HttpFields.
From S2P Require Import HttpHeader.
From S2P Require Import HttpParse.
From S2P Require Import HttpParser.
From S2P Require Import HttpBodies.
From S2P Require Import HttpSegmentation.
From S2P Require Import HttpSerializer.

Import http_text.

Module http_round_trip.
Import http_parse.

(** ** Elements *)

Lemma many_app f t c k : forallb f t = true -> f c = false -> many f (t ++ c :: k) = Parsed t (c :: k).
Proof.
  intros Ht Hc. induction t as [| x t IH]; simpl in *; [by rewrite Hc |].
  apply andb_true_iff in Ht as [-> Ht]. by rewrite IH.
Qed.

Lemma find_line_app t k : forallb (fun c => negb (is_control c)) t = true -> find_line (t ++ [cr; lf] ++ k) = Parsed t k.
Proof.
  induction t as [| x t IH]; [done |]. intros [Hx Ht]%andb_true_iff. simpl app. simpl. rewrite Hx.
  change (t ++ cr :: lf :: k) with (t ++ [cr; lf] ++ k). by rewrite IH.
Qed.

Lemma find_chunk_line_app t k : Forall (fun c => c <> cr) t -> find_chunk_line (t ++ [cr; lf] ++ k) = Parsed t k.
Proof.
  induction 1 as [| x t Hx _ IH]; [done |]. simpl app. simpl.
  rewrite (proj2 (Z.eqb_neq x cr)) by done. simpl. change (t ++ cr :: lf :: k) with (t ++ [cr; lf] ++ k). by rewrite IH.
Qed.

Lemma field_name_app t k : forallb is_tchar t = true -> field_name (t ++ colon :: k) = Parsed t (colon :: k).
Proof.
  induction t as [| x t IH]; [done |]. intros [Hx Ht]%andb_true_iff. simpl.
  destruct (x =? colon) eqn:He; [by apply Z.eqb_eq in He as -> |]. rewrite Hx, IH by done. done.
Qed.

Lemma trim_back_id t : (forall c, last t = Some c -> is_whitespace c = false) -> trim_back t = t.
Proof.
  induction t as [| x t IH]; [done |]. intros Hl. simpl. destruct t as [| y t].
  - simpl. by rewrite Hl.
  - rewrite IH; [done |]. intros c Hc. by apply Hl.
Qed.

Lemma chunk_app t k n : n = len t -> chunk n (t ++ k) = Parsed t k.
Proof.
  intros ->. unfold chunk. rewrite len_app, ztake_app_len, zdrop_app_len by done.
  pose proof (len_nonneg k). destruct (len t + len k <? len t) eqn:?; [lia | done].
Qed.

(** ** Numbers *)

Section numbers.
Context `{TextLaws}.

Lemma digits_bound l v : 0 <= v -> forallb is_digit l = true ->
  v * 10 ^ len l <= fold_left (fun v c => v * 10 + (c - 48)) l v < (v + 1) * 10 ^ len l.
Proof.
  revert v. induction l as [| c l IH]; intros v Hv; simpl; [rewrite len_nil; lia |].
  intros [Hc Hl]%andb_true_iff. unfold is_digit in Hc. rewrite len_cons. pose proof (len_nonneg l).
  specialize (IH (v * 10 + (c - 48)) ltac:(lia) Hl). rewrite Z.pow_add_r by lia.
  pose proof (Z.pow_pos_nonneg 10 (len l) ltac:(lia) ltac:(lia)). nia.
Qed.

(** The digits of a number of one digit, and of one of three. *)
Lemma serialize_one n : 0 <= n < 10 -> serialize n = [48 + n].
Proof.
  intros Hn. destruct (serialize_digits n) as (Hd & Hv & Hne & Hz); [unfold in_width; lia |].
  revert Hv. unfold digits_value. destruct (serialize n) as [| a [| b l]]; simpl in *; [done | intros; f_equal; lia |].
  apply andb_true_iff in Hd as [Ha Hd]. pose proof Hd as Hd'. apply andb_true_iff in Hd as [Hb Hd]. unfold is_digit in Ha, Hb. intros Hv.
  assert (a <> 48). { intros ->. destruct (Hz eq_refl) as [_ Hl]. rewrite !len_cons in Hl. pose proof (len_nonneg l). lia. }
  match type of Hv with fold_left _ l ?x = _ => pose proof (digits_bound l x ltac:(lia) Hd) as Hbound end.
  pose proof (Z.pow_pos_nonneg 10 (len l) ltac:(lia) (len_nonneg l)). nia.
Qed.

Lemma serialize_three n : 100 <= n < 1000 ->
  exists a b c, serialize n = [a; b; c] /\ is_digit a = true /\ is_digit b = true /\ is_digit c = true /\
    (a - 48) * 100 + (b - 48) * 10 + (c - 48) = n.
Proof.
  intros Hn. destruct (serialize_digits n) as (Hd & Hv & Hne & Hz); [unfold in_width; lia |].
  revert Hv. unfold digits_value. destruct (serialize n) as [| a [| b [| c l]]]; simpl in *; [done | | |];
    rewrite ?andb_true_iff in Hd.
  - unfold is_digit in Hd. lia.
  - unfold is_digit in Hd. lia.
  - destruct Hd as (Ha & Hb & Hc & Hd). pose proof Ha as Ha'. pose proof Hb as Hb'. pose proof Hc as Hc'.
    unfold is_digit in Ha, Hb, Hc. intros Hv.
    assert (a <> 48). { intros ->. destruct (Hz eq_refl) as [_ Hl]. rewrite !len_cons in Hl. pose proof (len_nonneg l). lia. }
    destruct l as [| d l].
    + simpl in Hv. exists a, b, c. split_and!; try done. lia.
    + exfalso. apply andb_true_iff in Hd as [Hdd Hd]. unfold is_digit in Hdd. simpl in Hv.
      match type of Hv with fold_left _ l ?x = _ => pose proof (digits_bound l x ltac:(lia) Hd) as Hbound end.
      pose proof (Z.pow_pos_nonneg 10 (len l) ltac:(lia) (len_nonneg l)). nia.
Qed.

Lemma version_text_eq v : v = header.version_1_0 \/ v = header.version_1_1 ->
  http_serializer.version_text v = chars "HTTP/1." ++ [48 + (v - 10)].
Proof. unfold http_serializer.version_text. by intros [-> | ->]; rewrite !serialize_one. Qed.

Lemma parse_version_app v k : v = header.version_1_0 \/ v = header.version_1_1 ->
  parse_version (http_serializer.version_text v ++ k) = Parsed v k.
Proof.
  intros Hv. rewrite version_text_eq by done. unfold parse_version, bind.
  rewrite chunk_app by done. by destruct Hv as [-> | ->].
Qed.
End numbers.

(** ** Chunk lines *)

Definition hex_value (l : bytes) (v : Z) : Z := fold_left (fun v c => v * 16 + to_nibble c) l v.

Definition is_hex (c : Z) : bool := 0 <=? to_nibble c.

Lemma hex_digit_spec n : 0 <= n < 16 -> to_nibble (http_serializer.hex_digit n) = n /\ http_serializer.hex_digit n <> cr.
Proof.
  intros Hn. assert (forallb (fun n => (to_nibble (http_serializer.hex_digit n) =? n) && negb (http_serializer.hex_digit n =? cr))
    (map Z.of_nat (seq 0 16)) = true) as Ha by (by vm_compute).
  rewrite forallb_forall in Ha. specialize (Ha n). rewrite andb_true_iff in Ha.
  destruct Ha as [Ha Hb]; [| lia]. apply in_map_iff. exists (Z.to_nat n). split; [lia |]. apply in_seq. lia.
Qed.

Lemma hex_value_bound l v : 0 <= v -> forallb is_hex l = true -> v <= hex_value l v.
Proof.
  revert v. induction l as [| c l IH]; intros v Hv; simpl; [lia |]. intros [Hc Hl]%andb_true_iff. unfold is_hex in Hc.
  specialize (IH (v * 16 + to_nibble c) ltac:(lia) Hl). unfold hex_value in *. simpl. lia.
Qed.

Lemma to_nibble_range c : to_nibble c < 16.
Proof. unfold to_nibble, is_digit. repeat case_match; lia. Qed.

Lemma chunk_digits_hex l v i : 0 <= v -> forallb is_hex l = true -> hex_value l v < 2 ^ 64 ->
  chunk_digits l v i = inl (hex_value l v, i + len l).
Proof.
  revert v i. induction l as [| c l IH]; intros v i Hv; simpl; [intros; rewrite len_nil; do 2 f_equal; lia |].
  intros [Hc Hl]%andb_true_iff Hb. unfold is_hex in Hc. pose proof (to_nibble_range c).
  destruct (to_nibble c <? 0) eqn:?; [lia |]. unfold hex_value in Hb. simpl in Hb. fold (hex_value l (v * 16 + to_nibble c)) in Hb.
  pose proof (hex_value_bound l (v * 16 + to_nibble c) ltac:(lia) Hl).
  replace (Z.shiftr max_uint64 4) with (2 ^ 60 - 1) by reflexivity. destruct (v >? 2 ^ 60 - 1) eqn:?; [lia |].
  rewrite lor_add by lia. change (2 ^ 4) with 16. rewrite IH by (done || lia). rewrite len_cons.
  unfold hex_value. simpl. do 2 f_equal. lia.
Qed.

Lemma hex_spec fuel : forall n out, 0 <= n < 16 ^ (Z.of_nat fuel + 1) -> forallb is_hex out = true -> Forall (fun c => c <> cr) out ->
  let l := http_serializer.hex fuel n out in
  forallb is_hex l = true /\ Forall (fun c => c <> cr) l /\ l <> [] /\ hex_value l 0 = hex_value out n.
Proof.
  induction fuel as [| fuel IH]; intros n out Hn Ho Hc; cbn [http_serializer.hex];
    pose proof (Z.mod_pos_bound n 16 ltac:(lia)) as Hm; destruct (hex_digit_spec _ Hm) as [Hd Hcr].
  - change (16 ^ (Z.of_nat 0 + 1)) with 16 in Hn. rewrite (Z.mod_small n 16) in * by exact Hn. split_and!; [| by constructor | done |].
    + simpl. unfold is_hex at 1. rewrite Hd, Ho. destruct (0 <=? n) eqn:?; [done | lia].
    + unfold hex_value. simpl. rewrite Hd. do 2 f_equal.
  - set (d := http_serializer.hex_digit (n mod 16)) in *.
    assert (forallb is_hex (d :: out) = true /\ Forall (fun c => c <> cr) (d :: out)) as [Ho' Hc'].
    { split; [| by constructor]. simpl. unfold is_hex at 1. rewrite Hd, Ho. destruct (0 <=? n mod 16) eqn:?; [done | lia]. }
    assert (hex_value (d :: out) (n / 16) = hex_value out n) as Hval.
    { unfold hex_value. simpl. rewrite Hd. f_equal. pose proof (Z.div_mod n 16 ltac:(lia)). lia. }
    destruct (n / 16 =? 0) eqn:Hz.
    + split_and!; try done. rewrite <- Hval. apply Z.eqb_eq in Hz. by rewrite Hz.
    + rewrite <- Hval. apply IH; [| done..]. rewrite Nat2Z.inj_succ in Hn.
      replace (Z.succ (Z.of_nat fuel) + 1) with (1 + (Z.of_nat fuel + 1)) in Hn by lia.
      rewrite Z.pow_add_r in Hn by lia. split; [apply Z.div_pos; lia | apply Z.div_lt_upper_bound; lia].
Qed.

Lemma extension_end rest : rest = [] -> extension_step (false, rest) = inr true.
Proof. by intros ->. Qed.

Lemma valid_no_extensions line n : len line <= n -> valid_chunk_extensions line n = true.
Proof. intros Hn. unfold valid_chunk_extensions. rewrite zdrop_ge by done. done. Qed.

(** The chunk line of a size is that size. *)
Lemma chunk_header_line n : u64 n -> exists line, http_serializer.chunk_header n = line ++ [cr; lf] /\
  Forall (fun c => c <> cr) line /\ parse_chunk_size line = inl (n, len line).
Proof.
  intros Hn. unfold in_width in Hn.
  destruct (hex_spec 15 n []) as (Hh & Hc & Hne & Hv); [by change (16 ^ (Z.of_nat 15 + 1)) with (2 ^ 64) | done | done |].
  exists (http_serializer.hex 15 n []). split_and!; [done | done |]. revert Hh Hc Hne Hv.
  generalize (http_serializer.hex 15 n []) as line. intros line Hh _ Hne Hv. change (hex_value [] n) with n in Hv.
  unfold parse_chunk_size. rewrite chunk_digits_hex by (rewrite ?Hv; done || lia). rewrite Hv, Z.add_0_l.
  destruct line as [| c line]; [done |]. rewrite len_cons. pose proof (len_nonneg line).
  destruct (1 + len line =? 0) eqn:?; [lia | done].
Qed.

(** ** Fields *)

(** A name of token characters, and a value of one line that is trimmed. *)
Definition writable (e : fields.entry) : Prop :=
  fields.name e <> [] /\ forallb is_tchar (fields.name e) = true /\
  forallb (fun c => negb (is_control c)) (fields.value e) = true /\
  (forall c, head (fields.value e) = Some c -> is_whitespace c = false) /\
  (forall c, last (fields.value e) = Some c -> is_whitespace c = false).

Definition entry_text (e : fields.entry) : bytes :=
  fields.name e ++ [58; 32] ++ fields.value e ++ http_serializer.crlf.

Lemma tchar_field c : is_tchar c = true -> (c =? cr) = false /\ is_whitespace c = false.
Proof.
  intros Hc. split.
  - destruct (c =? cr) eqn:He; [apply Z.eqb_eq in He as ->; by vm_compute in Hc | done].
  - unfold is_whitespace. destruct (c =? 32) eqn:He; [apply Z.eqb_eq in He as ->; by vm_compute in Hc |].
    destruct (c =? 9) eqn:He'; [apply Z.eqb_eq in He' as ->; by vm_compute in Hc | done].
Qed.

Section elements.
Context `{TextLaws}.

Lemma value_line_app v c k : forallb (fun c => negb (is_control c)) v = true ->
  (forall c, head v = Some c -> is_whitespace c = false) -> (forall c, last v = Some c -> is_whitespace c = false) ->
  is_whitespace c = false ->
  value_line [] (32 :: v ++ [cr; lf] ++ c :: k) = Parsed (v, false) (c :: k).
Proof.
  intros Hv Hh Hl Hc. unfold value_line, bind.
  assert (many is_whitespace (32 :: v ++ [cr; lf] ++ c :: k) = Parsed [32] (v ++ [cr; lf] ++ c :: k)) as ->.
  { destruct v as [| x v]; [done |]. change (32 :: (x :: v) ++ ?m) with ([32] ++ x :: (v ++ m)). apply many_app; [done |]. by apply Hh. }
  unfold otherwise. rewrite find_line_app by done. simpl. rewrite Hc. simpl. rewrite trim_back_id by done.
  case_bool_decide; by subst.
Qed.

(** A field that is written is read, and framed by its value. *)
Lemma parse_field_app acc fr e c k : writable e -> is_whitespace c = false ->
  parse_field (Some acc) fr (entry_text e ++ c :: k) =
    match frame_field fr (if iequals (fields.name e) (chars "Proxy-Connection") then field.connection
      else field.to_field (fields.name e)) (fields.value e) with
    | inl fr' => Parsed (Some (fields.insert (fields.name e) (fields.value e) acc), fr', false) (c :: k)
    | inr ec => Stopped ec
    end.
Proof.
  intros (Hn & Ht & Hv & Hh & Hl) Hc. unfold entry_text. destruct e as [i n v]. simpl in *.
  replace ((n ++ 58 :: 32 :: v ++ http_serializer.crlf) ++ c :: k) with (n ++ colon :: 32 :: v ++ [cr; lf] ++ c :: k)
    by (rewrite <- app_assoc; simpl; by rewrite <- app_assoc).
  unfold parse_field. destruct n as [| x n]; [done |]. simpl in Ht. pose proof Ht as [Hx _]%andb_true_iff.
  destruct (tchar_field x Hx) as [Hcr _]. rewrite len_app, !len_cons. pose proof (len_nonneg n).
  pose proof (len_nonneg (v ++ [cr; lf] ++ c :: k)). destruct (_ <? 2) eqn:?; [lia |].
  change (zget ((x :: n) ++ _) 0) with x. rewrite Hcr. unfold bind. rewrite field_name_app by done.
  rewrite bool_decide_false by done. simpl skip. cbv iota.
  change (field_value ?l) with (value_loop ([], l)). rewrite value_loop_unfold. change (cr :: lf :: c :: k) with ([cr; lf] ++ c :: k).
  rewrite value_line_app by done.
  by destruct (frame_field _ _ v).
Qed.

Lemma parse_field_end acc fr k : parse_field acc fr ([cr; lf] ++ k) = Parsed (acc, fr, true) k.
Proof.
  unfold parse_field. rewrite len_app. pose proof (len_nonneg k). change (len [cr; lf]) with 2.
  destruct (2 + len k <? 2) eqn:?; [lia |]. simpl. done.
Qed.

(** ** Start lines *)

(** What a request, and a response, must be to be written. *)
Definition writable_start (h : header.t) : Prop :=
  let v := header.version (header.base_of h) in
  (v = header.version_1_0 \/ v = header.version_1_1) /\
  match h with
  | header.Request r =>
    header.set_method_string (header.method_string r) r = r /\
    header.method_string r <> [] /\ forallb is_tchar (header.method_string r) = true /\
    header.target r <> [] /\ forallb is_target_char (header.target r) = true
  | header.Response r =>
    header.set_result (header.code_ r) r = r /\ 100 <= header.code_ r < 1000 /\
    forallb (fun c => negb (is_control c)) (header.reason r) = true
  end.

Definition start_text (h : header.t) : bytes :=
  match h with
  | header.Request r =>
    header.method_string r ++ [32] ++ header.target r ++ [32] ++
      http_serializer.version_text (header.version (header.request_base r)) ++ http_serializer.crlf
  | header.Response r =>
    http_serializer.version_text (header.version (header.response_base r)) ++ [32] ++ serialize (header.code_ r) ++
      [32] ++ header.reason r ++ http_serializer.crlf
  end.

(** A parser starts with the default header. *)
Definition fresh (h : header.t) : header.t :=
  match h with
  | header.Request _ => header.Request header.request_init
  | header.Response _ => header.Response header.response_init
  end.

(** A reason that is read is explicit, the standard one too. *)
Definition explicit (h : header.t) : header.t :=
  match h with
  | header.Request _ => h
  | header.Response r => header.Response (header.set_reason (header.reason r) r)
  end.

Lemma parse_start_line_app h k : writable_start h ->
  http_parser.parse_start_line (fresh h) (start_text h ++ k) =
    Parsed (header.with_base (header.mk_base (header.version (header.base_of h)) []) (explicit h)) k.
Proof.
  intros [Hv Hh]. destruct h as [r | r]; cbn [start_text header.base_of fresh http_parser.parse_start_line] in *;
    rewrite <- !app_assoc; unfold bind at 1.
  - destruct Hh as (Hr & Hm & Hmc & Ht & Htc). unfold parse_request_line, bind.
    cbn [app]. rewrite many_app by done. cbn [peek]. rewrite bool_decide_false by done. change (negb (32 =? space) || false) with false.
    cbv iota beta. cbn [skip]. rewrite many_app by done. cbn [peek]. rewrite bool_decide_false by done. change (negb (32 =? space) || false) with false.
    cbv iota beta. cbn [skip].
    rewrite parse_version_app by done. rewrite (chunk_app http_serializer.crlf) by done.
    rewrite bool_decide_true by done. unfold ret. simpl negb. cbv iota. do 2 f_equal.
    pose proof (f_equal header.method_ Hr) as Hr1. pose proof (f_equal header.method_text Hr) as Hr2.
    unfold header.set_method_string in Hr1, Hr2. cbn [header.method_ header.method_text] in Hr1, Hr2.
    simpl. by rewrite Hr2, Hr1.
  - destruct Hh as (Hr & Hc & Hn). unfold parse_status_line, bind. rewrite parse_version_app by done.
    cbn [app peek skip]. change (negb (32 =? space)) with false. cbv iota beta. destruct (serialize_three (header.code_ r)) as (a & b & c & -> & Ha & Hb & Hd & Hval); [done |].
    change ([a; b; c] ++ 32 :: ?m) with ([a; b; c; 32] ++ m).
    rewrite (chunk_app [a; b; c; 32]) by done. change (zget [a; b; c; 32] 0) with a. change (zget [a; b; c; 32] 1) with b.
    change (zget [a; b; c; 32] 2) with c. rewrite Ha, Hb, Hd.
    change (negb true || negb true || negb true || negb (zget [a; b; c; 32] 3 =? space)) with false. cbv iota beta.
    unfold otherwise, http_serializer.crlf. rewrite find_line_app by done. unfold ret. rewrite Hval.
    do 2 f_equal. pose proof (f_equal header.standard_ Hr) as Hr1. simpl in Hr1. unfold header.set_reason, header.set_result. simpl. by rewrite Hr1.
Qed.
End elements.

(** ** Prepared fields *)

Section prepared.
Context `{TextLaws}.

(** Fields that do not frame the body. *)
Definition plain (e : fields.entry) : Prop :=
  field.to_field (fields.name e) <> field.transfer_encoding /\
  ((iequals (fields.name e) (chars "Proxy-Connection") = true \/
    field.to_field (fields.name e) = field.connection) -> (token_list (fields.value e)).2 = true).

(** What the fields of a message must be to be written: added one by one, each
    of them writable, and none of them but a length framing. *)
Definition writable_fields (l : fields.t) : Prop :=
  (exists g, fields.wf g /\ l = fields.ungroup g) /\ Forall writable l /\ Forall plain l.

Definition coding_entry : fields.entry :=
  fields.mk_entry field.transfer_encoding (field.to_string field.transfer_encoding) header.chunked_token.

Lemma coding_named l : (exists g, fields.wf g /\ l = fields.ungroup g) -> Forall plain l ->
  fields.none_named (field.to_string field.transfer_encoding) l.
Proof.
  intros _ Hp. apply (Forall_impl _ _ _ Hp). intros e [He _]. unfold fields.named.
  destruct (iequals _ _) eqn:Hi; [| done]. apply field.to_field_case in Hi. by rewrite field.to_field_string in Hi.
Qed.

(** What a prepared message adds to its fields, and what it drops. *)
Lemma prepared_fields h : writable_fields (header.fields_ h) ->
  let l := header.fields_ (header.set_chunked true h) in
  l = fields.erase (field.to_string field.content_length) (header.fields_ h) ++ [coding_entry] /\
  (exists g, fields.wf g /\ l = fields.ungroup g).
Proof.
  intros ((g & Hg & Hl) & Hw & Hp) l. set (cl := field.to_string field.content_length) in *.
  set (te := field.to_string field.transfer_encoding).
  assert (fields.none_named te (header.fields_ h)) as Hnone by (apply coding_named; [by exists g | done]).
  assert (l = fields.set te header.chunked_token (fields.erase cl (header.fields_ h))) as Hset.
  { subst l. unfold header.set_chunked, header.set_or_erase. cbn [header.fields_ header.erase_length].
    assert (fields.at_field field.transfer_encoding (header.fields_ h) = []) as ->.
    { unfold fields.at_field, fields.at_, fields.find. fold te. by rewrite (proj2 (fields.filter_none _ _ Hnone)). }
    rewrite header.filter_tokens_join. replace (header.kept _ (split comma [])) with (@nil bytes).
    - cbn [join]. rewrite (bool_decide_true ([] = [])) by done. rewrite bool_decide_false by done.
      by rewrite fields.set_field_eq.
    - unfold header.kept. induction (split_nil comma) as [| x k -> _ IH]; [done |]. simpl. by rewrite <- IH. }
  rewrite Hset. split.
  - rewrite fields.set_erase. f_equal. unfold fields.erase at 1.
    apply List.forallb_filter_id. apply forallb_forall. intros x Hx. apply List.filter_In in Hx as [Hx _].
    apply Forall_forall with (x := x) in Hnone; [| by apply list_elem_of_In]. by rewrite Hnone.
  - destruct (fields.step_groups (fields.Erase cl) g Hg) as [He Hg1]. simpl in He. rewrite Hl, He.
    destruct (fields.step_groups (fields.Set_ te header.chunked_token) _ Hg1) as [Hs Hg2]. simpl in Hs.
    eexists. split; [exact Hg2 | exact Hs].
Qed.

(** Fields that were added one by one are the same when they are again. *)
Definition rebuilt (acc l : fields.t) : fields.t :=
  fold_left (fun acc e => fields.insert (fields.name e) (fields.value e) acc) l acc.

Lemma group_add_new k e g : k ∉ map fst g -> fields.group_add k e g = g ++ [(k, [e])].
Proof.
  induction g as [| x g IH]; simpl; [done |]. rewrite not_elem_of_cons. intros [Hx Hg].
  rewrite bool_decide_false by congruence. by rewrite IH.
Qed.

Lemma group_add_last k e d g : k ∉ map fst g -> fields.group_add k e (g ++ [(k, d)]) = g ++ [(k, d ++ [e])].
Proof.
  induction g as [| x g IH]; simpl; [by rewrite bool_decide_true |]. rewrite not_elem_of_cons. intros [Hx Hg].
  rewrite bool_decide_false by congruence. by rewrite IH.
Qed.

Lemma rebuilt_group k es : forall g d, fields.wf (g ++ [(k, d)]) -> k ∉ map fst g ->
  Forall (fun e => fold_case (fields.name e) = k /\ fields.id e = field.to_field (fields.name e)) es ->
  rebuilt (fields.ungroup (g ++ [(k, d)])) es = fields.ungroup (g ++ [(k, d ++ es)]) /\ fields.wf (g ++ [(k, d ++ es)]).
Proof.
  induction es as [| e es IH]; intros g d Hw Hk Hes; simpl; [by rewrite app_nil_r |].
  apply Forall_cons in Hes as [[Hek Hid] Hes]. destruct (fields.insert_groups (fields.name e) (fields.value e) _ Hw) as [-> Hw'].
  assert (fields.insert_group (fields.name e) (fields.value e) (g ++ [(k, d)]) = g ++ [(k, d ++ [e])]) as Heq.
  { unfold fields.insert_group. rewrite Hek, <- Hid, group_add_last by done. by destruct e. }
  rewrite Heq in *. replace (d ++ e :: es) with ((d ++ [e]) ++ es) by (by rewrite <- app_assoc). by apply IH.
Qed.

Lemma rebuilt_groups g2 : forall g1, fields.wf g1 -> fields.wf (g1 ++ g2) ->
  rebuilt (fields.ungroup g1) (fields.ungroup g2) = fields.ungroup (g1 ++ g2).
Proof.
  induction g2 as [| [k es] g2 IH]; intros g1 Hg1 Hw; [by rewrite app_nil_r |].
  pose proof Hw as [Hnd Hf]. rewrite map_app in Hnd. apply NoDup_app in Hnd as (_ & Hd & _).
  assert (k ∉ map fst g1) as Hk by (intros Hin; apply (Hd k Hin); simpl; by left).
  apply Forall_app in Hf as [Hf1 Hf2]. apply Forall_cons in Hf2 as [[Hne Hes] Hf2]. simpl in Hne, Hes.
  destruct es as [| e es]; [done |]. apply Forall_cons in Hes as [[Hek Hid] Hes].
  assert (rebuilt (fields.ungroup g1) (e :: es) = fields.ungroup (g1 ++ [(k, e :: es)]) /\ fields.wf (g1 ++ [(k, e :: es)]))
    as [Hr Hw2].
  { destruct (fields.insert_groups (fields.name e) (fields.value e) _ Hg1) as [Hins Hw']. unfold rebuilt. simpl. rewrite Hins.
    assert (fields.insert_group (fields.name e) (fields.value e) g1 = g1 ++ [(k, [e])]) as Heq.
    { unfold fields.insert_group. rewrite Hek, <- Hid, group_add_new by done. by destruct e. }
    rewrite Heq in *. by apply (rebuilt_group k es g1 [e]). }
  pose proof (app_assoc g1 [((k, e :: es) : fields.group)] g2) as Happ. cbn [app] in Happ.
  unfold fields.group in *. rewrite Happ in Hw |- *. change (fields.ungroup ((k, e :: es) :: g2)) with ((e :: es) ++ fields.ungroup g2).
  unfold rebuilt. rewrite fold_left_app. fold (rebuilt (fields.ungroup g1) (e :: es)). rewrite Hr. by apply IH.
Qed.

Lemma rebuilt_id l : (exists g, fields.wf g /\ l = fields.ungroup g) -> rebuilt [] l = l.
Proof. intros (g & Hg & ->). apply (rebuilt_groups g []); [apply fields.wf_nil | done]. Qed.
End prepared.

(** ** The run on a message *)

Section message.
Context `{TextLaws} `{contiguous_body.Container}.
Import http_parser.
Import http_segmentation.
Notation parser := (@http_parser.t contiguous_body.t).
Implicit Types (p : parser) (l k : bytes).

Lemma runs_used p l u p' o : state_ p <> done -> atom l p = (u, cleared, p') -> 0 < u -> runs p' (zdrop u l) o -> runs p l o.
Proof. intros Hd Ha Hu Hr. eapply runs_next; [done | exact Ha | done | | done]. intros [? | (_ & Hz & _)]; [done | lia]. Qed.

(** As [runs_used], for a step that takes a prefix. *)
Lemma runs_prefix p l k p' o : state_ p <> done -> l <> [] -> atom (l ++ k) p = (len l, cleared, p') -> runs p' k o ->
  runs p (l ++ k) o.
Proof.
  intros Hd Hl Ha Hr. eapply runs_used; [done | exact Ha | | by rewrite zdrop_app_len].
  destruct l; [done |]. rewrite len_cons. pose proof (len_nonneg l). lia.
Qed.

Lemma header_window_unlimited l p : header_limit_ p = 0 -> header_window l p = l.
Proof. unfold header_window. by intros ->. Qed.

(** The frame of fields in sequence. *)
Fixpoint frame_all (fr : framing) (l : fields.t) : option framing :=
  match l with
  | [] => Some fr
  | e :: l =>
    match frame_field fr (if iequals (fields.name e) (chars "Proxy-Connection") then field.connection
      else field.to_field (fields.name e)) (fields.value e) with
    | inl fr => frame_all fr l
    | inr _ => None
    end
  end.

Definition with_fields (u : Z) (fr : framing) (fs : fields.t) p : parser := set_used u (set_frame fr (set_fields fs p)).

Lemma with_fields_same p : p = with_fields (header_ p) (frame_ p) (message_fields p) p.
Proof. destruct p as [[[[]] | [[]]]]; reflexivity. Qed.

Lemma with_fields_again u p : with_fields u (frame_ p) (message_fields p) p = set_used u p.
Proof. by destruct p as [[[[]] | [[]]]]. Qed.

Lemma with_fields_twice u fr fs u' fr' fs' p : with_fields u fr fs (with_fields u' fr' fs' p) = with_fields u fr fs p.
Proof. unfold with_fields, set_fields. simpl. by destruct (header_of p). Qed.

Lemma message_with_fields u fr fs p : message_fields (with_fields u fr fs p) = fs.
Proof. unfold message_fields. simpl. by destruct (header_of p). Qed.

Lemma entry_text_head e : writable e -> exists c t, entry_text e = c :: t /\ is_whitespace c = false.
Proof.
  intros (Hn & Ht & _). unfold entry_text. destruct (fields.name e) as [| c n]; [done |]. simpl in Ht.
  apply andb_true_iff in Ht as [Hc _]. eexists c, _. split; [done | by apply tchar_field].
Qed.

Lemma runs_fields es : forall p fr' c k, header_limit_ p = 0 -> state_ p = fields -> Forall writable es ->
  frame_all (frame_ p) es = Some fr' -> is_whitespace c = false ->
  exists u, forall o, runs (with_fields u fr' (rebuilt (message_fields p) es) p) (c :: k) o ->
    runs p (concat (map entry_text es) ++ c :: k) o.
Proof.
  induction es as [| e es IH]; intros p fr' c k Hl Hs Hw Hf Hc.
  { injection Hf as <-. exists (header_ p). intros o. simpl. unfold rebuilt. simpl. by rewrite <- with_fields_same. }
  apply Forall_cons in Hw as [He Hes]. cbn [map concat]. rewrite <- app_assoc.
  assert (exists d m, concat (map entry_text es) ++ c :: k = d :: m /\ is_whitespace d = false) as (d & m & Hdm & Hd).
  { destruct Hes as [| x es Hx _]; [by exists c, k |]. destruct (entry_text_head x Hx) as (d & t & Hdt & Hd).
    cbn [map concat]. rewrite Hdt, <- app_assoc. by eexists d, _. }
  cbn [frame_all] in Hf. destruct (frame_field _ _ _) as [fr |] eqn:Hff; [| done].
  set (p1 := with_fields (narrow 64 (header_ p + len (entry_text e))) fr
    (fields.insert (fields.name e) (fields.value e) (message_fields p)) p).
  destruct (IH p1 fr' c k Hl Hs Hes Hf Hc) as (u & Hu). exists u. intros o Hr.
  assert (runs p1 (concat (map entry_text es) ++ c :: k) o) as Hrest.
  { apply Hu. subst p1. by rewrite with_fields_twice, message_with_fields. }
  apply (runs_prefix _ _ _ p1); [by rewrite Hs | | | done].
  - destruct (entry_text_head e He) as (x & t & -> & _). done.
  - rewrite Hdm. unfold atom. rewrite Hs. unfold atom_field, field_step. rewrite zdrop_0.
    rewrite header_window_unlimited, parse_field_app, Hff by done. rewrite len_app.
    replace (0 + _) with (len (entry_text e)) by lia.
    replace (len (entry_text e) + len (d :: m) - len (d :: m)) with (len (entry_text e)) by lia. done.
Qed.

(** The line that ends the fields of a message with chunks. *)
Lemma runs_header_end p k : header_limit_ p = 0 -> state_ p = fields -> skip_ p = false ->
  match header_of p with header.Response r => header.bodiless r = false | _ => True end ->
  length_ (frame_ p) = None -> chunked (frame_ p) = true ->
  exists u, forall o, runs (set_body (contiguous_body.mk []) (set_state chunk_header (set_used u p))) k o ->
    runs p ([cr; lf] ++ k) o.
Proof.
  intros Hl Hs Hk Hb Hn Hc. eexists. intros o Hr. eapply runs_prefix; [by rewrite Hs | done | | exact Hr].
  unfold atom. rewrite Hs. unfold atom_field, field_step. rewrite zdrop_0, header_window_unlimited, parse_field_end by done.
  rewrite len_app. change (len [cr; lf]) with 2. replace (0 + (2 + len k - len k)) with 2 by lia.
  rewrite failed_cleared. change (set_used ?u (set_frame ?f (set_fields ?m p))) with (with_fields u f m p).
  rewrite with_fields_again. unfold ends_lines, finish_header. change (skip_ (set_used _ p)) with (skip_ p). rewrite Hk.
  change (header_of (set_used _ p)) with (header_of p). change (frame_ (set_used _ p)) with (frame_ p). rewrite Hn, Hc.
  destruct (header_of p); [done |]. by rewrite Hb.
Qed.

(** ** The run on a body *)

(** A chunk line, with the line end of the chunk before it. *)
Lemma runs_chunk_line size p k : header_limit_ p = 0 -> body_limit_ p = 0 -> state_ p = chunk_header -> u64 size ->
  exists u, forall o, runs (set_used u (set_state (if size =? 0 then trailer else chunk_body)
      (set_expect_crlf true (set_remaining size p)))) k o ->
    runs p ((if expect_crlf_ p then [cr; lf] else []) ++ http_serializer.chunk_header size ++ k) o.
Proof.
  intros Hl Hb Hs Hz. exists (if size =? 0 then (header_ p - 2) `max` 0 else header_ p). intros o Hr. destruct (chunk_header_line size Hz) as (line & -> & Hline & Hsize).
  set (pre := if expect_crlf_ p then [cr; lf] else []). rewrite app_assoc.
  assert (len pre = if expect_crlf_ p then 2 else 0) as Hpre by (subst pre; by destruct (expect_crlf_ p)).
  eapply runs_prefix; [by rewrite Hs | destruct pre, line; discriminate | |].
  - unfold atom. rewrite Hs. unfold put_chunk_header. rewrite <- !app_assoc.
    pose proof (len_nonneg pre). pose proof (len_nonneg line). pose proof (len_nonneg k).
    assert (len (pre ++ line ++ [cr; lf] ++ k) = len pre + (len line + (2 + len k))) as Hlen by (by rewrite !len_app).
    rewrite Hlen. destruct (_ <? 2) eqn:?; [lia |].
    replace (expect_crlf_ p && _) with false by (subst pre; destruct (expect_crlf_ p); done).
    rewrite <- Hpre, zdrop_app_len, find_chunk_line_app by done. unfold put_chunk_line. rewrite Hsize, Hb. simpl negb.
    cbv iota. rewrite valid_no_extensions by lia. rewrite !len_app. change (len [cr; lf]) with 2.
    replace (len pre + (len line + (2 + len k)) - len k) with (len pre + (len line + 2)) by lia.
    simpl. reflexivity.
  - by destruct (size =? 0).
Qed.

(** The trailer of a message without trailer fields. *)
Lemma runs_trailer p k : header_limit_ p = 0 -> state_ p = trailer ->
  exists q, runs p ([cr; lf] ++ k) (Done, q, k) /\ header_of q = header_of p /\ body_of q = body_of p.
Proof.
  intros Hl Hs. eexists. split; [eapply runs_prefix; [by rewrite Hs | done | |] |].
  - unfold atom. rewrite Hs. unfold atom_field, field_step. rewrite zdrop_0, header_window_unlimited, parse_field_end by done.
    rewrite len_app. change (len [cr; lf]) with 2. replace (0 + (2 + len k - len k)) with 2 by lia. reflexivity.
  - by apply runs_done.
  - done.
Qed.

Definition chunks (v : bytes) : bytes :=
  (if len v =? 0 then [] else http_serializer.chunk_header (len v) ++ v ++ http_serializer.chunk_end) ++
  http_serializer.last_chunk.

Lemma runs_last_chunk p k : header_limit_ p = 0 -> body_limit_ p = 0 -> state_ p = chunk_header ->
  exists q, runs p ((if expect_crlf_ p then [cr; lf] else []) ++ http_serializer.last_chunk ++ k) (Done, q, k) /\
    header_of q = header_of p /\ body_of q = body_of p.
Proof.
  intros Hl Hb Hs. change (http_serializer.last_chunk ++ k) with (http_serializer.chunk_header 0 ++ [cr; lf] ++ k).
  destruct (runs_chunk_line 0 p ([cr; lf] ++ k) Hl Hb Hs ltac:(done)) as (u & Hu).
  destruct (runs_trailer (set_used u (set_state trailer (set_expect_crlf true (set_remaining 0 p)))) k Hl eq_refl)
    as (q & Hr & Hh & Hbq).
  exists q. split; [by apply Hu | done].
Qed.

Lemma runs_chunk_data v p k o : header_limit_ p = 0 -> state_ p = chunk_body -> remaining_ p = len v -> v <> [] ->
  body_of p = contiguous_body.mk [] -> len v <= contiguous_body.max_size ->
  runs (set_state chunk_header (body_read (len v) (contiguous_body.mk v) p)) k o -> runs p (v ++ k) o.
Proof.
  intros Hl Hs Hr Hv Hb Hm Hrun. eapply runs_prefix; [by rewrite Hs | done | | exact Hrun].
  rewrite atom_body by (by rewrite Hs). rewrite put_body_eq.
  assert (0 < len v) as Hlen by (destruct v; [done |]; rewrite len_cons; pose proof (len_nonneg v); lia).
  assert (delimited p = true) as Hd by (unfold delimited; by rewrite Hs). rewrite Hd, Hr. simpl andb.
  destruct (len v =? 0) eqn:?; [lia |]. cbv zeta. simpl negb. simpl andb. cbv iota.
  assert (body_size (v ++ k) p = len v) as Hsize.
  { unfold body_size. rewrite Hd, Hr, len_app. pose proof (len_nonneg k). lia. }
  rewrite Hsize. destruct (len v =? 0); [done |]. rewrite ztake_app_len, Hb by done.
  simpl reader_put. unfold contiguous_body.put. cbn [contiguous_body.value]. rewrite len_nil.
  destruct (len v >? _) eqn:?; [lia |]. cbv beta iota. rewrite failed_cleared. simpl andb.
  assert (remaining_ (body_read (len v) (contiguous_body.mk v) p) = 0) as Hz by (unfold body_read; rewrite Hd; simpl; lia).
  cbn [app negb andb]. rewrite Hz. simpl Z.eqb. cbv iota. unfold complete_body.
  rewrite bool_decide_true; [done |]. unfold body_read. by rewrite Hd.
Qed.

(** The chunks of a body, at most one and the last. *)
Lemma runs_chunks v p k : header_limit_ p = 0 -> body_limit_ p = 0 -> state_ p = chunk_header -> expect_crlf_ p = false ->
  body_of p = contiguous_body.mk [] -> len v <= contiguous_body.max_size -> u64 (len v) ->
  exists q, runs p (chunks v ++ k) (Done, q, k) /\ header_of q = header_of p /\ body_of q = contiguous_body.mk v.
Proof.
  intros Hl Hbl Hs He Hb Hm Hv. unfold chunks. destruct (len v =? 0) eqn:Hz.
  - destruct (runs_last_chunk p k Hl Hbl Hs) as (q & Hr & Hh & Hbq). rewrite He in Hr. exists q.
    split_and!; [done | done |]. destruct v; [congruence |]. rewrite len_cons in Hz. pose proof (len_nonneg v). lia.
  - set (m := http_serializer.chunk_end ++ http_serializer.last_chunk ++ k).
    assert (((http_serializer.chunk_header (len v) ++ v ++ http_serializer.chunk_end) ++ http_serializer.last_chunk) ++ k =
      http_serializer.chunk_header (len v) ++ v ++ m) as -> by (by rewrite <- !app_assoc).
    destruct (runs_chunk_line (len v) p (v ++ m) Hl Hbl Hs Hv) as (u & Hu). rewrite Hz, He in Hu.
    set (p1 := set_used u _) in Hu. set (p2 := set_state chunk_header (body_read (len v) (contiguous_body.mk v) p1)).
    destruct (runs_last_chunk p2 k) as (q & Hr & Hh & Hbq); [done.. |]. exists q. split_and!; [| done | done].
    apply Hu. apply runs_chunk_data; try done. intros ->. done.
Qed.

(** ** The message *)

(** A message of http 1.1 that has a body, and can be written. *)
Definition writable_message (h : header.t) : Prop :=
  writable_start h /\ header.version (header.base_of h) = header.version_1_1 /\
  writable_fields (header.fields_ (header.base_of h)) /\
  match h with header.Response r => header.bodiless r = false | header.Request _ => True end.

Lemma version_set_chunked v b : header.version (header.set_chunked v b) = header.version b.
Proof. by destruct v. Qed.

Lemma prepare_eq h : writable_message h ->
  header.prepare_payload h = header.with_base (header.set_chunked true (header.base_of h)) h.
Proof.
  intros (_ & Hv & _ & Hb). unfold header.prepare_payload. rewrite Hv. destruct h; [done |]. by rewrite Hb.
Qed.

Lemma start_text_prepared b h : header.version b = header.version (header.base_of h) ->
  start_text (header.with_base b h) = start_text h.
Proof. destruct h; simpl; by intros ->. Qed.

Lemma append_fields_eq (l : fields.t) out : http_serializer.append_fields out l = out ++ concat (map entry_text l) ++ [cr; lf].
Proof.
  unfold http_serializer.append_fields. rewrite app_assoc. f_equal. revert out.
  induction l as [| e l IH]; intros out; cbn [fold_left map concat]; [by rewrite app_nil_r |]. rewrite IH.
  unfold entry_text. by rewrite <- !app_assoc.
Qed.

Lemma serialize_header_eq h : http_serializer.serialize_header h =
  start_text h ++ concat (map entry_text (header.fields_ (header.base_of h))) ++ [cr; lf].
Proof. destruct h; apply append_fields_eq. Qed.

(** A message with chunks is written by one call, and is done. *)
Lemma next_message h v : header.chunked (header.base_of h) = true ->
  let '(buffers, ec, s) := http_serializer.next (http_serializer.make h (contiguous_body.mk v)) in
  ec = cleared /\ http_serializer.is_done s = true /\
  concat buffers = http_serializer.serialize_header h ++ chunks v.
Proof.
  intros Hc. unfold http_serializer.next, http_serializer.make, http_serializer.append_body, chunks. cbv beta iota zeta.
  cbn -[len http_serializer.serialize_header http_serializer.chunk_header http_serializer.chunk_end
    http_serializer.last_chunk]. rewrite Hc.
  destruct (len v =? 0) eqn:Hz; cbn -[len http_serializer.serialize_header http_serializer.chunk_header
    http_serializer.chunk_end http_serializer.last_chunk]; split_and!; try done.
  by rewrite <- !app_assoc.
Qed.

Lemma frame_plain fr e : plain e -> field.to_field (fields.name e) <> field.content_length ->
  frame_field fr (if iequals (fields.name e) (chars "Proxy-Connection") then field.connection
    else field.to_field (fields.name e)) (fields.value e) = inl fr.
Proof.
  intros [Ht Hc] Hn. destruct (iequals _ _) eqn:Hp; [simpl; by rewrite Hc by auto |].
  destruct (field.to_field (fields.name e)) eqn:Hf; try done. simpl. by rewrite Hc by auto.
Qed.

Lemma frame_prepared (l : fields.t) : Forall plain l ->
  Forall (fun e => field.to_field (fields.name e) <> field.content_length) l ->
  frame_all unframed (l ++ [coding_entry]) = Some (mk_framing true false None).
Proof.
  induction l as [| e l IH]; intros Hp Hc; [by vm_compute |]. apply Forall_cons in Hp as [He Hp].
  apply Forall_cons in Hc as [Hn Hc]. simpl app. cbn [frame_all]. rewrite frame_plain by done. by apply IH.
Qed.

Lemma writable_coding : writable coding_entry.
Proof. unfold writable. split_and!; try done; vm_compute; by intros c [= <-]. Qed.

Lemma list_kept (P : fields.entry -> Prop) n (l : fields.t) : Forall P l -> Forall P (fields.erase n l).
Proof.
  rewrite !Forall_forall. intros Hl x Hx. apply Hl. apply list_elem_of_In in Hx. apply List.filter_In in Hx as [Hx _].
  by apply list_elem_of_In.
Qed.

Lemma prepared_frame b : writable_fields (header.fields_ b) ->
  let es := header.fields_ (header.set_chunked true b) in
  Forall writable es /\ frame_all unframed es = Some (mk_framing true false None) /\ rebuilt [] es = es.
Proof.
  intros Hfields es. destruct (prepared_fields b Hfields) as [Hes Hwf]. fold es in Hes, Hwf.
  destruct Hfields as (_ & Hw & Hp). split_and!; [| | by apply rebuilt_id].
  - rewrite Hes. apply Forall_app. split; [by apply list_kept | constructor; [apply writable_coding | constructor]].
  - rewrite Hes. apply frame_prepared; [by apply list_kept |].
    apply Forall_forall. intros x Hx Hcl. apply list_elem_of_In in Hx. apply List.filter_In in Hx as [_ Hx].
    unfold fields.named in Hx. apply negb_true_iff in Hx. pose proof (field.to_field_known (fields.name x)) as Hk.
    rewrite Hcl in Hk. specialize (Hk ltac:(done)). rewrite iequals_sym in Hk. congruence.
Qed.

Lemma start_text_not_nil h : writable_start h -> start_text h <> [].
Proof.
  intros [_ Hh]. destruct h as [r | r]; simpl; [| done]. destruct Hh as (_ & Hm & _). by destruct (header.method_string r).
Qed.

Lemma runs_start h p k : writable_start h -> header_limit_ p = 0 -> state_ p = start_line -> header_of p = fresh h ->
  exists u, forall o, runs (set_state fields (set_used u (set_header
      (header.with_base (header.mk_base (header.version (header.base_of h)) []) (explicit h)) p))) k o ->
    runs p (start_text h ++ k) o.
Proof.
  intros Hw Hl Hs Hh. exists (narrow 64 (header_ p + len (start_text h))). intros o Hr.
  pose proof (start_text_not_nil h Hw) as Hne. eapply runs_prefix; [by rewrite Hs | done | | exact Hr].
  unfold atom. rewrite Hs. unfold put_start_line. destruct (start_text h ++ k) as [| c l] eqn:Ht; [by destruct (start_text h) |].
  rewrite header_window_unlimited, <- Ht, Hh, parse_start_line_app by done. rewrite len_app.
  by replace (len (start_text h) + len k - len k) with (len (start_text h)) by lia.
Qed.

Lemma runs_message h v rest : writable_message h -> len v <= contiguous_body.max_size -> u64 (len v) ->
  exists q, runs (set_received true (make (fresh h) (contiguous_body.mk [])))
      (http_serializer.serialize_header (header.prepare_payload h) ++ chunks v ++ rest) (Done, q, rest) /\
    header_of q = explicit (header.prepare_payload h) /\ body_of q = contiguous_body.mk v.
Proof.
  intros Hh Hm Hv. pose proof Hh as (Hstart & Hver & Hfields & Hb). rewrite prepare_eq by done.
  destruct (prepared_frame _ Hfields) as (Hwes & Hframe & Hre). pose proof (version_set_chunked true (header.base_of h)) as Hversion.
  destruct (header.set_chunked true (header.base_of h)) as [ver es] eqn:Hset. simpl in Hwes, Hframe, Hre, Hversion. subst ver.
  rewrite serialize_header_eq, start_text_prepared by done.
  replace (header.fields_ (header.base_of (header.with_base _ h))) with es by (by destruct h).
  rewrite <- !app_assoc. set (p0 := set_received true _).
  destruct (runs_start h p0 (concat (map entry_text es) ++ [cr; lf] ++ chunks v ++ rest)) as (u1 & Hu1); [done.. |].
  set (p1 := set_state fields _) in Hu1.
  destruct (runs_fields es p1 _ cr ([lf] ++ chunks v ++ rest) eq_refl eq_refl Hwes Hframe eq_refl) as (u2 & Hu2).
  assert (message_fields p1 = []) as Hnil by (by destruct h). rewrite Hnil, Hre in Hu2.
  set (p2 := with_fields u2 _ es p1) in Hu2.
  destruct (runs_header_end p2 (chunks v ++ rest)) as (u3 & Hu3); try done; [by destruct h |].
  set (p3 := set_body _ _) in Hu3. destruct (runs_chunks v p3 rest) as (q & Hr & Hq & Hbq); try done.
  exists q. split_and!; [by apply Hu1, Hu2, Hu3 | | done]. rewrite Hq. by destruct h.
Qed.

(** C4: round trip.  A message of http 1.1 with a body in a container is written
    by one call of the serializer, in chunks, and what is written is read back:
    in whatever pieces it arrives, the handler gets the header as it was
    prepared (with its reason explicit) and the body, and what follows the
    message is left in the buffer. *)
Theorem http_message_round_trip h v : writable_message h -> len v <= contiguous_body.max_size -> u64 (len v) ->
  let '(buffers, ec, s) := http_serializer.next
    (http_serializer.make (header.prepare_payload h) (contiguous_body.mk v)) in
  ec = cleared /\ http_serializer.is_done s = true /\
  forall rest pieces, pieces <> [] -> Forall (fun x => x <> []) pieces -> concat pieces = concat buffers ++ rest ->
    exists q, feed pieces [] (make (fresh h) (contiguous_body.mk [])) = (Handled error.success, rest, q) /\
      header_of q = explicit (header.prepare_payload h) /\ body_of q = contiguous_body.mk v.
Proof.
  intros Hh Hm Hv.
  assert (header.chunked (header.base_of (header.prepare_payload h)) = true) as Hc.
  { rewrite prepare_eq by done. replace (header.base_of (header.with_base _ h)) with (header.set_chunked true (header.base_of h))
      by (by destruct h). apply header.chunked_set. }
  pose proof (next_message _ v Hc) as Hn. destruct (http_serializer.next _) as [[buffers ec] s].
  destruct Hn as (-> & Hdone & Hbuf). split_and!; [done | done |]. intros rest pieces Hne Hps Hcat.
  destruct (runs_message h v rest Hh Hm Hv) as (q & Hr & Hq & Hb). exists q. split; [| done].
  set (p := make (fresh h) (contiguous_body.mk [])) in *.
  assert (inv p) as Hi by (unfold inv; split_and!; try done; by right).
  destruct (feed_runs pieces [] p Hi Hne Hps) as (o & o' & -> & Ho & Hag).
  rewrite app_nil_l, Hcat, Hbuf, <- app_assoc in Ho. pose proof (runs_unique _ _ _ _ Hr Ho) as <-.
  unfold agrees in Hag. destruct o.1.1 as [| | e] eqn:Hoo; [by subst o | by subst o |].
  destruct Hag as [[_ Hl] | Hag]; [done |]. case_bool_decide; [by subst o | done].
Qed.
End message.

(** ** A request, and a response with a standard reason *)

#[local] Existing Instance vector_max_size.

(** Two values of a name, and a length that is dropped. *)
Definition posted : header.t :=
  let h := header.set_target (chars "/x?y") (header.set_method_string (chars "POST") header.request_init) in
  let f := fields.insert (chars "Host") (chars "a.b") (fields.clear (header.fields_ (header.request_base h))) in
  let f := fields.insert (chars "X-Y") [] f in
  let f := fields.set_field field.content_length (chars "7") f in
  let f := fields.insert (chars "x-y") (chars "1 2") f in
  header.with_base (header.mk_base header.version_1_1 f) (header.Request h).

Definition replied : header.t := header.Response (header.set_result 200 header.response_init).

Lemma replied_writable : writable_message replied.
Proof.
  unfold writable_message, writable_start, writable_fields. split_and!; try done; try (by right); try constructor.
  exists []. split; [apply fields.wf_nil | done].
Qed.

Lemma posted_groups : exists g, fields.wf g /\ header.fields_ (header.base_of posted) = fields.ungroup g.
Proof.
  pose proof (fields.step_groups (fields.Insert (chars "Host") (chars "a.b")) [] fields.wf_nil) as [H1 W1].
  pose proof (fields.step_groups (fields.Insert (chars "X-Y") []) _ W1) as [H2 W2].
  pose proof (fields.step_groups (fields.Set_field field.content_length (chars "7")) _ W2) as [H3 W3].
  pose proof (fields.step_groups (fields.Insert (chars "x-y") (chars "1 2")) _ W3) as [H4 W4].
  eexists. split; [exact W4 |]. rewrite <- H4, <- H3, <- H2, <- H1. reflexivity.
Qed.

Lemma posted_writable : writable_message posted.
Proof.
  unfold writable_message. split_and!; try done.
  - split; [by right |]. simpl. split_and!; try done.
  - split; [apply posted_groups |]. split; repeat constructor; try done; try (vm_compute; discriminate);
      try (intros c Hc; vm_compute in Hc; try discriminate Hc; injection Hc as <-; reflexivity);
      try (intros [Hc | Hc]; vm_compute in Hc; discriminate Hc).
Qed.

Lemma http_message_round_trip_witness :
  let '(buffers, ec, s) := http_serializer.next
    (http_serializer.make (header.prepare_payload posted) (contiguous_body.mk (chars "hello world"))) in
  ec = cleared /\ http_serializer.is_done s = true /\
  forall rest pieces, pieces <> [] -> Forall (fun x => x <> []) pieces -> concat pieces = concat buffers ++ rest ->
    exists q, http_parser.feed pieces [] (http_parser.make (fresh posted) (contiguous_body.mk [])) =
        (http_parser.Handled error.success, rest, q) /\
      http_parser.header_of q = explicit (header.prepare_payload posted) /\
      http_parser.body_of q = contiguous_body.mk (chars "hello world").
Proof.
  apply (http_message_round_trip posted (chars "hello world")).
  - exact posted_writable.
  - vm_compute. discriminate.
  - vm_compute. split; [discriminate | reflexivity].
Defined.

(** The text of the response. *)
Example replied_text :
  concat (http_serializer.next (http_serializer.make (header.prepare_payload replied) (contiguous_body.mk (chars "ab")))).1.1 =
  chars "HTTP/1.1 200 OK" ++ [13; 10] ++ chars "Transfer-Encoding: chunked" ++ [13; 10; 13; 10] ++
  chars "2" ++ [13; 10] ++ chars "ab" ++ [13; 10] ++ chars "0" ++ [13; 10; 13; 10].
Proof. by vm_compute. Qed.
End http_round_trip.
