(* ===== verification/IoTransfer.v ===== *)
(** * IoTransfer: transfers of whole buffers

    Models [include/bitcoin/network/impl/io/operations.ipp] and the buffers of
    [include/bitcoin/network/io/buffer.hpp]: a composed read or write repeats
    the partial operation of its stream until all bytes have moved. *)

From S2P Require Import Prelude.
From S2P Require Import Errors.

Module io_transfer.

(** A region of memory: its size, and the region after its first bytes.  A
    [const_buffer] is its content, a [mutable_buffer] its size. *)
Class Buffer (B : Type) := { size : B -> Z; content : B -> bytes; advance : Z -> B -> B }.

Class BufferLaws (B : Type) `{Buffer B} : Prop := {
  size_nonneg b : 0 <= size b;
  size_advance n b : 0 <= n <= size b -> size (advance n b) = size b - n;
  content_size b : len (content b) <= size b;
  content_advance n b : 0 <= n <= size b -> content (advance n b) = zdrop n (content b)
}.

#[global] Instance const_buffer : Buffer bytes := {|
  size b := len b; content b := b; advance n b := zdrop (n `min` len b) b |}.

#[global] Instance const_buffer_laws : BufferLaws bytes.
Proof.
  split; simpl; intros.
  - apply len_nonneg.
  - rewrite len_zdrop by lia. lia.
  - lia.
  - f_equal. lia.
Qed.

#[global] Instance mutable_buffer : Buffer N := {|
  size b := Z.of_N b; content b := []; advance n b := (b - Z.to_N (n `min` Z.of_N b))%N |}.

#[global] Instance mutable_buffer_laws : BufferLaws N.
Proof.
  split; simpl; intros; [lia | lia | rewrite len_nil; lia |]. unfold zdrop. by rewrite drop_nil.
Qed.

Section transfer.
Context {B : Type} `{Buffer B}.

Definition buffer_size (buffers : list B) : Z := fold_right (fun b n => size b + n) 0 buffers.

(** Drop the leading count bytes from the buffers. *)
Fixpoint consume (buffers : list B) (count : Z) : list B :=
  match buffers with
  | [] => []
  | b :: rest => if count >=? size b then consume rest (count - size b) else advance count b :: rest
  end.

Definition exhausted (buffers : list B) : bool := forallb (fun b => size b =? 0) buffers.

(** The state of a composed transfer. *)
Record t := mk { buffers_ : list B; total_ : Z }.

Definition make (buffers : list B) : t := mk buffers 0.

(** It goes on with a partial operation on its buffers, or invokes its handler. *)
Inductive progress := Next (s : t) | Invoked (ec : code) (total : Z).

Definition start (s : t) : progress :=
  if exhausted (buffers_ s) then Invoked error.success (total_ s) else Next s.

Definition handle (ec : code) (count : Z) (s : t) : progress :=
  let s := mk (consume (buffers_ s) count) (total_ s + count) in
  if failed ec || exhausted (buffers_ s) then Invoked ec (total_ s) else Next s.

(** The transfer as its stream completes: the handler's code and total, if it
    is invoked, the bytes that the stream took, and what was not asked for. *)
Fixpoint completes (p : progress) (moved : bytes) (completions : list (code * Z)) :
    option (code * Z) * bytes * list (code * Z) :=
  match p with
  | Invoked ec total => (Some (ec, total), moved, completions)
  | Next s =>
    match completions with
    | [] => (None, moved, [])
    | (ec, count) :: rest =>
      completes (handle ec count s) (moved ++ ztake count (concat (map content (buffers_ s)))) rest
    end
  end.

(** The blocking transfer, on a stream that gives how much it moved. *)
Definition block_step {S : Type} (some : S -> list B -> S * Z * code) (s : S * t) : (S * t) + (S * code * Z) :=
  let '(stream, s) := s in
  if exhausted (buffers_ s) then inr (stream, (error.success : code), total_ s) else
  let '(stream, count, ec) := some stream (buffers_ s) in
  if failed ec then inr (stream, ec, total_ s + count)
  else inl (stream, mk (consume (buffers_ s) count) (total_ s + count)).

Definition block {S : Type} (some : S -> list B -> S * Z * code) (stream : S) (buffers : list B) : option (S * code * Z) :=
  while (fun s : S * t => Z.to_nat (buffer_size (buffers_ s.2))) (block_step some) (stream, make buffers).

(** ** What remains *)

Context `{!BufferLaws B}.

Lemma buffer_size_nonneg bs : 0 <= buffer_size bs.
Proof. induction bs as [| b bs IH]; simpl; [done |]. pose proof (size_nonneg b). lia. Qed.

Lemma exhausted_size bs : exhausted bs = true <-> buffer_size bs = 0.
Proof.
  induction bs as [| b bs IH]; simpl; [done |]. pose proof (size_nonneg b). pose proof (buffer_size_nonneg bs).
  rewrite andb_true_iff, IH, Z.eqb_eq. lia.
Qed.

Lemma consume_size bs : forall n, 0 <= n <= buffer_size bs -> buffer_size (consume bs n) = buffer_size bs - n.
Proof.
  induction bs as [| b bs IH]; intros n Hn; simpl in *; [lia |]. pose proof (size_nonneg b).
  destruct (n >=? size b) eqn:Hb; [rewrite IH; lia |]. simpl. rewrite size_advance; lia.
Qed.
End transfer.

(** ** What is written *)

Lemma zdrop_app_ge {A} n (l k : list A) : len l <= n -> zdrop n (l ++ k) = zdrop (n - len l) k.
Proof.
  intros Hn. pose proof (len_nonneg l). replace n with (len l + (n - len l)) at 1 by lia.
  rewrite <- zdrop_zdrop by lia. by rewrite zdrop_app_len.
Qed.

Lemma consume_concat (bs : list bytes) : forall n, 0 <= n <= buffer_size bs -> concat (consume bs n) = zdrop n (concat bs).
Proof.
  induction bs as [| b bs IH]; intros n Hn; simpl in *; [by rewrite zdrop_ge by (rewrite len_nil; lia) |].
  pose proof (len_nonneg b). destruct (n >=? len b) eqn:Hb.
  - rewrite IH by lia. by rewrite zdrop_app_ge by lia.
  - simpl. rewrite zdrop_app_le by lia. do 2 f_equal. lia.
Qed.

Lemma concat_content (bs : list bytes) : map content bs = bs.
Proof. apply map_id. Qed.

Lemma size_concat (bs : list bytes) : buffer_size bs = len (concat bs).
Proof. induction bs as [| b bs IH]; [done |]. simpl. rewrite len_app. simpl in IH. lia. Qed.

(** A stream completes within what it was asked for, and moves something
    unless it fails. *)
Fixpoint within (n : Z) (completions : list (code * Z)) : Prop :=
  match completions with
  | [] => True
  | (ec, count) :: rest => 0 <= count <= n /\ (failed ec = false -> count < n -> within (n - count) rest)
  end.

Lemma completes_invoked {B} `{Buffer B} ec total moved completions :
  completes (Invoked ec total) moved completions = (Some (ec, total), moved, completions).
Proof. by destruct completions. Qed.

Lemma completes_next completions : forall (s : t) moved, total_ s = len moved -> exhausted (buffers_ s) = false ->
  within (buffer_size (buffers_ s)) completions ->
  let '(result, m, rest) := completes (Next s) moved completions in
  m = ztake (len m) (moved ++ concat (buffers_ s)) /\
  match result with
  | Some (ec, total) => total = len m /\ (failed ec = false -> m = moved ++ concat (buffers_ s))
  | None => rest = [] /\ len m < len (moved ++ concat (buffers_ s))
  end.
Proof.
  induction completions as [| [ec n] completions IH]; intros s moved Ht He Hw; simpl.
  - split; [by rewrite ztake_app_len |]. split; [done |]. rewrite len_app, <- size_concat.
    pose proof (buffer_size_nonneg (buffers_ s)). pose proof (proj2 (exhausted_size (buffers_ s))).
    destruct (decide (buffer_size (buffers_ s) = 0)) as [Hz |]; [rewrite He in *; naive_solver | lia].
  - cbn [within] in Hw. destruct Hw as [Hn Hw]. rewrite concat_content. unfold handle. cbn [buffers_ total_].
    set (bs := buffers_ s) in *. pose proof (consume_concat bs n Hn) as Hcat. pose proof (consume_size bs n Hn) as Hsize.
    set (taken := ztake n (concat bs)). assert (moved ++ concat bs = (moved ++ taken) ++ concat (consume bs n)) as Heq.
    { rewrite Hcat, <- app_assoc. subst taken. by rewrite ztake_zdrop. }
    assert (len (moved ++ taken) = total_ s + n) as Hlen.
    { rewrite len_app. subst taken. rewrite len_ztake by lia. rewrite size_concat in Hn. lia. }
    destruct (failed ec || exhausted (consume bs n)) eqn:Hdone.
    + rewrite completes_invoked. simpl. split; [by rewrite Heq, ztake_app_len |]. split; [done |]. intros Hf. rewrite Hf in Hdone. simpl in Hdone.
      apply exhausted_size in Hdone. rewrite size_concat in Hdone. apply len_zero_nil in Hdone.
      by rewrite Heq, Hdone, app_nil_r.
    + apply orb_false_iff in Hdone as [Hf Hex]. rewrite Heq.
      apply (IH (mk (consume bs n) (total_ s + n)) (moved ++ taken)); [done | done |]. simpl. rewrite Hsize.
      apply Hw; [done |]. destruct (decide (n < buffer_size bs)); [done |]. exfalso.
      assert (exhausted (consume bs n) = true) by (apply exhausted_size; lia). congruence.
Qed.

(** Transfer.  However a stream divides a write, the handler of a composed
    write is invoked at most once; without failure only when every byte was
    taken, in order; and otherwise with the code that the stream gave and the
    number of bytes that were taken, a prefix.  It waits only while bytes
    remain. *)
Theorem io_write_exact (buffers : list bytes) completions : within (buffer_size buffers) completions ->
  let '(result, moved, rest) := completes (start (make buffers)) [] completions in
  moved = ztake (len moved) (concat buffers) /\
  match result with
  | Some (ec, total) => total = len moved /\ (failed ec = false -> moved = concat buffers)
  | None => rest = [] /\ len moved < len (concat buffers)
  end.
Proof.
  intros Hw. unfold start. simpl. destruct (exhausted buffers) eqn:He.
  - apply exhausted_size in He. rewrite size_concat in He. apply len_zero_nil in He. rewrite completes_invoked. by rewrite He.
  - by apply (completes_next completions (make buffers) []).
Qed.

Lemma io_write_exact_witness :
  let '(result, moved, rest) := completes (start (make [chars "ab"; []; chars "cde"])) []
    [(error.success : code, 1); (error.success : code, 3); (error.success : code, 1)] in
  moved = ztake (len moved) (concat [chars "ab"; []; chars "cde"]) /\
  match result with
  | Some (ec, total) => total = len moved /\ (failed ec = false -> moved = concat [chars "ab"; []; chars "cde"])
  | None => rest = [] /\ len moved < len (concat [chars "ab"; []; chars "cde"])
  end.
Proof.
  apply io_write_exact. change (buffer_size _) with 5. simpl. split; [lia |]. intros _ _. split; [lia |]. intros _ _. split; [lia | done].
Defined.
End io_transfer.
