(* ===== verification/Transport.v ===== *)
(** * Transport: protocols over a socket, as their handlers complete

    The streams of the encrypted and framed transports issue one socket
    operation at a time, whose handler gives what they do next.  A protocol is
    one function from the completion of an operation to the next action; the
    environment that completes the operations from the bytes of a peer is
    common to all of them. *)

From S2P Require Import Prelude.
From S2P Require Import Errors.

(** What a stream does next: write or read all of a buffer, read at least one
    byte into one, post a completion, or invoke the handler of its caller. *)
Inductive action (Op Out : Type) :=
  | write (data : bytes) (op : Op)
  | read (size : Z) (op : Op)
  | read_some (size : Z) (op : Op)
  | post (op : Op)
  | finish (out : Out).

Arguments write {Op Out}. Arguments read {Op Out}. Arguments read_some {Op Out}. Arguments post {Op Out}.
Arguments finish {Op Out}.

(** The handlers of a stream, by the operation that completes, with its code
    and the bytes that were transferred. *)
Class Protocol (S Op Out : Type) := complete : Op -> code -> bytes -> S -> S * action Op Out.

Section transport.
Context {S Op Out : Type} `{!Protocol S Op Out}.

(** The stream, what it does next, what the peer sends and what it was sent. *)
Record config := mk_config { self : S; next : action Op Out; input : bytes; output : bytes }.

Definition resume (r : S * action Op Out) (inp out : bytes) : config := mk_config r.1 r.2 inp out.

(** The socket completes what it can, with a schedule that chooses what a
    partial read gives: the run ends at an outcome, or with a read that lacks
    bytes. *)
Definition step (schedule : Z -> Z) (c : config) : config + config :=
  match next c with
  | write data op => inl (resume (complete op error.success data (self c)) (input c) (output c ++ data))
  | read n op =>
    if len (input c) <? n then inr c else
    inl (resume (complete op error.success (ztake n (input c)) (self c)) (zdrop n (input c)) (output c))
  | read_some n op =>
    if len (input c) =? 0 then inr c else
    let k := (1 `max` schedule (len (input c))) `min` (n `min` len (input c)) in
    inl (resume (complete op error.success (ztake k (input c)) (self c)) (zdrop k (input c)) (output c))
  | post op => inl (resume (complete op error.success [] (self c)) (input c) (output c))
  | finish _ => inr c
  end.

Definition runs (schedule : Z -> Z) : config -> config -> Prop := rtc (fun c c' => step schedule c = inl c').

Lemma resume_eta r inp out : resume (r.1, r.2) inp out = resume r inp out.
Proof. done. Qed.

Lemma step_read schedule n op s d k out : len d = n ->
  step schedule (resume (s, read n op) (d ++ k) out) = inl (resume (complete op error.success d s) k out).
Proof.
  intros Hn. pose proof (len_nonneg k). unfold step. cbn [next resume self input output fst snd].
  rewrite len_app. destruct (_ <? n) eqn:Hlt; [lia |]. by rewrite ztake_app_len, zdrop_app_len.
Qed.

Lemma step_wait schedule n op s inp out : len inp < n ->
  step schedule (resume (s, read n op) inp out) = inr (resume (s, read n op) inp out).
Proof.
  intros Hn. unfold step. cbn [next resume self input output fst snd]. destruct (_ <? n) eqn:Hlt; [done | lia].
Qed.

(** A run that ends, under a measure that the steps decrease. *)
Section run.
Context (measure : config -> nat) (sound : config -> Prop) (schedule : Z -> Z).

Definition run (c : config) : option config := while measure (step schedule) c.

Hypothesis decrease : decreases sound measure (step schedule).

Lemma run_total c : sound c -> exists c', run c = Some c'.
Proof. intros Hc. destruct (while_total sound measure (step schedule) c decrease Hc) as [c' Hr]. by exists c'. Qed.

Lemma runs_run c c' r : sound c -> runs schedule c c' -> step schedule c' = inr r -> run c = Some r.
Proof.
  intros Hc Hr He. induction Hr as [c | c c1 c2 Hs _ IH]; unfold run; rewrite (while_unfold sound) by done.
  - by rewrite He.
  - rewrite Hs. apply IH; [| done]. by apply (decrease c).
Qed.

(** What holds of every configuration of a run holds of its last one. *)
Lemma run_invariant (I Q : config -> Prop) c r : sound c -> I c ->
  (forall c c', sound c -> I c -> step schedule c = inl c' -> I c') ->
  (forall c r, sound c -> I c -> step schedule c = inr r -> Q r) -> run c = Some r -> Q r.
Proof.
  intros Hc Hi Hstep Hq Hr.
  refine (while_invariant measure (step schedule) (fun c => sound c /\ I c) Q c r _ _ (conj Hc Hi) Hr).
  - intros c1 c2 [Hs Hj] He. split; [by apply (decrease c1 c2) | by eapply Hstep].
  - intros c1 c2 [Hs Hj] He. by eapply Hq.
Qed.
End run.
End transport.

Arguments config : clear implicits.
