(* ===== verification/P2psCipher.v ===== *)
(** * P2psCipher: the session cipher of bip324

    Models [src/p2ps/cipher.cpp] and [include/bitcoin/network/p2ps/cipher.hpp]
    over the ciphers, the key exchange and the key derivation of
    libbitcoin-system, which are parameters with named laws.  The members that
    a cipher has only after [initialize] are one optional record. *)

From S2P Require Import Prelude.
From S2P Require Import Stream.

(** The forward-secret stream ciphers have a state, which every use advances. *)
Class P2psCrypto := {
  fschacha20 : Type;
  fschacha20_make : bytes -> Z -> fschacha20;
  crypt : fschacha20 -> bytes -> bytes * fschacha20;
  fschacha20_poly1305 : Type;
  fschacha20_poly1305_make : bytes -> Z -> fschacha20_poly1305;
  aead_encrypt : fschacha20_poly1305 -> bytes -> bytes -> bytes -> bytes * fschacha20_poly1305;
  aead_decrypt : fschacha20_poly1305 -> bytes -> bytes -> option bytes * fschacha20_poly1305;
  ellswift_exchange : bytes -> bytes -> bytes -> bool -> option bytes;
  hkdf_extract : bytes -> bytes -> bytes;
  hkdf_expand : Z -> bytes -> bytes -> bytes
}.

Module p2ps_cipher.

Definition key_size : Z := 64.
Definition terminator_size : Z := 16.
Definition length_size : Z := 3.
Definition header_size : Z := 1.
Definition tag_size : Z := 16.
Definition maximum_garbage : Z := 4095.
Definition maximum_content : Z := 0xffffff.
Definition rekey_interval : Z := 224.
Definition ignore_bit : Z := 0x80.
Definition expansion : Z := length_size + header_size + tag_size.

(** What the parameters are documented to do: crypt inverts itself at the same
    state, a packet that is decrypted at the state at which it was encrypted
    gives what was encrypted, and the sizes. *)
Class P2psLaws `{P2psCrypto} : Prop := {
  crypt_twice c data : bytes_ok data -> crypt c (crypt c data).1 = (data, (crypt c data).2);
  crypt_ok c data : bytes_ok (crypt c data).1;
  len_crypt c data : len (crypt c data).1 = len data;
  decrypt_encrypt c header content aad :
    aead_decrypt c aad (aead_encrypt c header content aad).1 =
      (Some (header ++ content), (aead_encrypt c header content aad).2);
  len_encrypt c header content aad : len (aead_encrypt c header content aad).1 = len header + len content + tag_size;
  len_expand n prk info : 0 <= n -> len (hkdf_expand n prk info) = n
}.

Section cipher.
Context `{P2psCrypto}.

(** What is derived from the peer's key. *)
Record session := mk_session {
  send_terminator_ : bytes;
  receive_terminator_ : bytes;
  session_id_ : bytes;
  send_length_ : fschacha20;
  receive_length_ : fschacha20;
  send_packet_ : fschacha20_poly1305;
  receive_packet_ : fschacha20_poly1305
}.

Record t := mk { key_ : bytes; secret_ : bytes; session_ : option session }.

Definition make (secret public_key : bytes) : t := mk public_key secret None.

Definition salt_label : bytes := chars "bitcoin_v2_shared_secret".

Definition derive (ecdh : bytes) (identifier : Z) (initiating : bool) : session :=
  let salt := salt_label ++ le_bytes 4 identifier in
  let prk := hkdf_extract ecdh salt in
  let initiator_length := fschacha20_make (hkdf_expand 32 prk (chars "initiator_L")) rekey_interval in
  let initiator_packet := fschacha20_poly1305_make (hkdf_expand 32 prk (chars "initiator_P")) rekey_interval in
  let responder_length := fschacha20_make (hkdf_expand 32 prk (chars "responder_L")) rekey_interval in
  let responder_packet := fschacha20_poly1305_make (hkdf_expand 32 prk (chars "responder_P")) rekey_interval in
  let okm := hkdf_expand 32 prk (chars "garbage_terminators") in
  let initiator := ztake terminator_size okm in
  let responder := zdrop terminator_size okm in
  let session_id := hkdf_expand 32 prk (chars "session_id") in
  if initiating
  then mk_session initiator responder session_id initiator_length responder_length initiator_packet responder_packet
  else mk_session responder initiator session_id responder_length initiator_length responder_packet initiator_packet.

(** False if the exchange fails; the secret is then kept. *)
Definition initialize (theirs : bytes) (identifier : Z) (initiating : bool) (c : t) : bool * t :=
  let key_a := if initiating then key_ c else theirs in
  let key_b := if initiating then theirs else key_ c in
  match ellswift_exchange (secret_ c) key_a key_b (negb initiating) with
  | None => (false, c)
  | Some ecdh => (true, mk (key_ c) (repeat 0 32) (Some (derive ecdh identifier initiating)))
  end.

Definition set_session (s : session) (c : t) : t := mk (key_ c) (secret_ c) (Some s).

Definition encrypt (contents aad : bytes) (ignore : bool) (s : session) : bytes * session :=
  let '(length, send_length) := crypt (send_length_ s) (le_bytes 3 (len contents)) in
  let header := [if ignore then ignore_bit else 0] in
  let '(packet, send_packet) := aead_encrypt (send_packet_ s) header contents aad in
  (length ++ packet,
   mk_session (send_terminator_ s) (receive_terminator_ s) (session_id_ s) send_length (receive_length_ s)
     send_packet (receive_packet_ s)).

Definition decrypt_length (data : bytes) (s : session) : Z * session :=
  let '(length, receive_length) := crypt (receive_length_ s) data in
  (le_value length,
   mk_session (send_terminator_ s) (receive_terminator_ s) (session_id_ s) (send_length_ s) receive_length
     (send_packet_ s) (receive_packet_ s)).

(** The plain text (header and contents) and whether it is a decoy, if the tag
    authenticates. *)
Definition decrypt (aad data : bytes) (s : session) : option (bytes * bool) * session :=
  let '(plain, receive_packet) := aead_decrypt (receive_packet_ s) aad data in
  (match plain with Some plain => Some (plain, negb (Z.land (zget plain 0) ignore_bit =? 0)) | None => None end,
   mk_session (send_terminator_ s) (receive_terminator_ s) (session_id_ s) (send_length_ s) (receive_length_ s)
     (send_packet_ s) receive_packet).

(** ** Two ends of a session *)

(** What [a] sends next is what [b] receives next. *)
Definition synchronized (a b : session) : Prop :=
  send_length_ a = receive_length_ b /\ send_packet_ a = receive_packet_ b.

Definition same_send (a b : session) : Prop := send_length_ a = send_length_ b /\ send_packet_ a = send_packet_ b.

Context `{!P2psLaws}.

Definition plain_packet (ignore : bool) (contents : bytes) : bytes := (if ignore then ignore_bit else 0) :: contents.

(** A packet is its encrypted length, and its encrypted rest. *)
Lemma encrypt_spec contents aad ignore a b : synchronized a b -> len contents <= maximum_content ->
  exists length packet a' b' b'', encrypt contents aad ignore a = (length ++ packet, a') /\
    len length = length_size /\ len packet = header_size + len contents + tag_size /\
    decrypt_length length b = (len contents, b') /\
    decrypt aad packet b' = (Some (plain_packet ignore contents, ignore), b'') /\
    synchronized a' b'' /\ (same_send b b'' /\ receive_terminator_ b'' = receive_terminator_ b /\ session_id_ b'' = session_id_ b).
Proof.
  intros [Hl Hp] Hc. unfold encrypt, decrypt_length, decrypt. rewrite Hl, Hp.
  pose proof (crypt_twice (receive_length_ b) (le_bytes 3 (len contents)) (le_bytes_ok _ _)) as Ht.
  pose proof (len_crypt (receive_length_ b) (le_bytes 3 (len contents))) as Hlen.
  set (h := [if ignore then ignore_bit else 0]).
  pose proof (decrypt_encrypt (receive_packet_ b) h contents aad) as Hd.
  pose proof (len_encrypt (receive_packet_ b) h contents aad) as Hlp.
  destruct (crypt (receive_length_ b) (le_bytes 3 (len contents))) as [length sl].
  destruct (aead_encrypt (receive_packet_ b) h contents aad) as [packet sp].
  cbn [fst snd] in *. eexists length, packet, _, _, _. split; [reflexivity |]. split; [by rewrite Hlen, len_le_bytes |].
  split; [done |]. rewrite Ht. split.
  { cbn -[le_value le_bytes len Z.pow]. rewrite le_value_bytes; [reflexivity |]. pose proof (len_nonneg contents). unfold maximum_content in Hc. lia. }
  cbn [receive_packet_]. rewrite Hd. split; [cbn; by destruct ignore | done].
Qed.

Lemma derive_synchronized ecdh identifier : synchronized (derive ecdh identifier true) (derive ecdh identifier false) /\
  synchronized (derive ecdh identifier false) (derive ecdh identifier true).
Proof. done. Qed.
End cipher.
End p2ps_cipher.

(** ** A sample of the parameters *)

(** Ciphers that satisfy the laws: a byte is subtracted from a counter, and a
    tag is a sum. *)
Module sample_cipher.
Import p2ps_cipher.

Definition subtract (c : Z) (data : bytes) : bytes := map (fun b => (c - b) mod 256) data.

Definition tag (c : Z) (plain aad : bytes) : bytes :=
  repeat ((c + fold_right Z.add 0 plain + fold_right Z.add 0 aad) mod 256) 16.

Definition open_packet (c : Z) (aad data : bytes) : option bytes :=
  let plain := ztake (len data - 16) data in
  if bool_decide (zdrop (len data - 16) data = tag c plain aad) then Some plain else None.

Definition expand (n : Z) (prk info : bytes) : bytes :=
  map (fun i => (fold_right Z.add (Z.of_nat i) (prk ++ info)) mod 256) (seq 0 (Z.to_nat n)).

#[global] Instance sample : P2psCrypto := {|
  fschacha20 := Z;
  fschacha20_make key _ := zget key 0;
  crypt c data := (subtract c data, c + 1);
  fschacha20_poly1305 := Z;
  fschacha20_poly1305_make key _ := zget key 1;
  aead_encrypt c header content aad := ((header ++ content) ++ tag c (header ++ content) aad, c + 1);
  aead_decrypt c aad data := (open_packet c aad data, c + 1);
  ellswift_exchange secret key_a key_b _ := if len key_a =? len key_b then Some (key_a ++ key_b) else None;
  hkdf_extract ikm salt := ikm ++ salt;
  hkdf_expand := expand |}.

#[global] Instance sample_laws : P2psLaws.
Proof.
  split; simpl.
  - intros c data Hd. f_equal. unfold subtract. rewrite map_map. induction Hd as [| b l Hb _ IH]; simpl; [done |].
    rewrite IH. f_equal. unfold in_width in Hb. simpl in Hb.
    rewrite Zminus_mod_idemp_r. replace (c - (c - b)) with b by lia. apply Z.mod_small. lia.
  - intros c data. unfold subtract. apply Forall_forall. intros b Hb. apply list_elem_of_In, in_map_iff in Hb as (x & <- & _).
    unfold in_width. simpl. pose proof (Z.mod_pos_bound (c - x) 256). lia.
  - intros c data. unfold subtract, len. by rewrite length_map.
  - intros c header content aad. f_equal. unfold open_packet.
    assert (len ((header ++ content) ++ tag c (header ++ content) aad) - 16 = len (header ++ content)) as ->.
    { rewrite (len_app (header ++ content)). change (len (tag c (header ++ content) aad)) with 16. lia. }
    rewrite ztake_app_len, zdrop_app_len by done. by rewrite bool_decide_true.
  - intros c header content aad. rewrite !len_app. change (len (tag c (header ++ content) aad)) with 16. unfold tag_size. lia.
  - intros n prk info Hn. unfold expand, len. rewrite length_map, length_seq. lia.
Qed.
End sample_cipher.
