(* ===== verification/P2ps.v ===== *)
(** * P2ps: the encrypted transport of bip324

    Models [src/p2ps/stream.cpp], [include/bitcoin/network/p2ps/stream.hpp] and
    the detection of [src/net/socket_connect.cpp].  A pending socket operation
    is a value that says what its handler is bound to, and an action what the
    stream does next: one function, [completion], gives the action that follows
    the completion of an operation.  The buffer of a pending read is filled when the read completes. *)

From S2P Require Import Prelude.
From S2P Require Import Errors.
From S2P Require Import Stream.
From S2P Require Import Transport.
From S2P Require Import PeerMessages.
From S2P Require Import P2psCipher.

Module p2ps_stream.
Import p2ps_cipher.

Definition protocol_error : code := error.protocol_violation.

Definition detection_size : Z := 4 + heading_command_size.

Definition maximum_scan : Z := maximum_garbage + terminator_size.

(** [std::search]: where [p] first occurs. *)
Fixpoint search (p l : bytes) : option Z :=
  if bool_decide (ztake (len p) l = p) then Some 0 else
  match l with
  | [] => None
  | _ :: l => match search p l with Some i => Some (i + 1) | None => None end
  end.

Definition detected_v1 (prefix : bytes) (identifier : Z) : bool :=
  let expected := le_bytes 4 identifier ++ chars "version" ++ repeat 0 5 in
  bool_decide (prefix = expected).

(** A zero first byte implies a padded ascii message type. *)
Definition split (contents : bytes) : option (Z * bytes * Z) :=
  match contents with
  | [] => None
  | identifier :: rest =>
    if negb (identifier =? 0) then Some (identifier, [], 1) else
    let prefix := 1 + heading_command_size in
    if len contents <? prefix then None else
    let padded := ztake heading_command_size rest in
    let terminus := match search [0] padded with Some i => i | None => len padded end in
    if forallb (Z.eqb 0) (zdrop terminus padded) then Some (identifier, ztake terminus padded, prefix) else None
  end.

Section stream.
Context `{P2psCrypto}.

Record t := mk { cipher_ : p2ps_cipher.t; identifier_ : Z; packet_ : bytes; residue_ : bytes; garbage_ : bytes }.

Definition make (cipher : p2ps_cipher.t) (identifier : Z) : t := mk cipher identifier [] [] [].

Definition set_cipher (c : p2ps_cipher.t) (s : t) : t := mk c (identifier_ s) (packet_ s) (residue_ s) (garbage_ s).
Definition set_packet (p : bytes) (s : t) : t := mk (cipher_ s) (identifier_ s) p (residue_ s) (garbage_ s).
Definition set_residue (r : bytes) (s : t) : t := mk (cipher_ s) (identifier_ s) (packet_ s) r (garbage_ s).
Definition set_garbage (g : bytes) (s : t) : t := mk (cipher_ s) (identifier_ s) (packet_ s) (residue_ s) g.

(** The handlers of the pending operations, with what they are bound to and
    with the bytes that are already in the buffer that is read. *)
Inductive operation :=
  | key_sent
  | their_key (initiate : bool) (have : bytes)
  | terminator_sent
  | scan
  | version_length (first : bool) (have : bytes)
  | version_packet (first : bool) (length : Z) (have : bytes)
  | message_length (maximum : Z) (have : bytes)
  | message_read (length maximum : Z) (have : bytes)
  | message_sent
  | message_refused (ec : code).

(** What the stream gives its caller; [fault] is a use of a cipher that has not
    been initialized. *)
Inductive outcome :=
  | handshaken (ec : code)
  | received (ec : code) (identifier : Z) (command payload : bytes)
  | sent (ec : code) (size : Z)
  | fault.

Notation action := (Transport.action operation outcome).

Definition with_session (s : t) (f : session -> t * action) : t * action :=
  match session_ (cipher_ s) with Some x => f x | None => (s, finish fault) end.

Definition put_session (x : session) (s : t) : t := set_cipher (set_session x (cipher_ s)) s.

Definition session_id (s : t) : bytes :=
  match session_ (cipher_ s) with Some x => session_id_ x | None => repeat 0 32 end.

(** ** Handshake *)

Definition do_initiate (s : t) : t * action := (s, write (key_ (cipher_ s)) key_sent).

Definition do_respond (detected : bytes) (s : t) : t * action :=
  (s, read (key_size - len detected) (their_key false detected)).

Definition handle_key_sent (ec : code) (s : t) : t * action :=
  if failed ec then (s, finish (handshaken ec)) else (s, read key_size (their_key true [])).

Definition send_terminator_version (initiate : bool) (s : t) : t * action :=
  with_session s (fun x =>
  let terminator := send_terminator_ x in
  let '(packet, x) := encrypt [] [] false x in
  let s := put_session x s in
  let frame := (if initiate then [] else key_ (cipher_ s)) ++ terminator ++ packet in
  (s, write frame terminator_sent)).

Definition handle_their_key (ec : code) (initiate : bool) (peer : bytes) (s : t) : t * action :=
  if failed ec then (s, finish (handshaken ec)) else
  let '(initialized, c) := initialize peer (identifier_ s) initiate (cipher_ s) in
  let s := set_cipher c s in
  if negb initialized then (s, finish (handshaken protocol_error))
  else send_terminator_version initiate s.

(** Read size bytes, drawing from the residue first. *)
Definition read_exactly (size : Z) (op : bytes -> operation) (s : t) : t * action :=
  let residue := size `min` len (residue_ s) in
  let have := ztake residue (residue_ s) in
  let s := set_residue (zdrop residue (residue_ s)) s in
  if residue =? size then (s, post (op have)) else (s, read (size - residue) (op have)).

Definition read_versioning (first : bool) (s : t) : t * action :=
  read_exactly length_size (version_length first) s.

Definition scan_terminator (s : t) : t * action :=
  with_session s (fun x =>
  let terminator := receive_terminator_ x in
  match search terminator (garbage_ s) with
  | Some position =>
    let s := set_residue (zdrop (position + len terminator) (garbage_ s)) s in
    let s := set_garbage (ztake position (garbage_ s)) s in
    read_versioning true s
  | None =>
    if len (garbage_ s) >=? maximum_scan then (s, finish (handshaken protocol_error))
    else (s, read_some (maximum_scan - len (garbage_ s)) scan)
  end).

Definition handle_terminator_sent (ec : code) (s : t) : t * action :=
  if failed ec then (s, finish (handshaken ec)) else scan_terminator s.

Definition handle_scan (ec : code) (data : bytes) (s : t) : t * action :=
  let s := set_garbage (garbage_ s ++ (if failed ec then [] else data)) s in
  if failed ec then (s, finish (handshaken ec)) else scan_terminator s.

Definition handle_version_length (ec : code) (first : bool) (data : bytes) (s : t) : t * action :=
  let s := set_packet data s in
  if failed ec then (s, finish (handshaken ec)) else
  with_session s (fun x =>
  let '(length, x) := decrypt_length (packet_ s) x in
  let s := put_session x s in
  if length >? maximum_content then (s, finish (handshaken protocol_error)) else
  read_exactly (header_size + length + tag_size) (version_packet first length) s).

Definition handle_version_packet (ec : code) (first : bool) (length : Z) (data : bytes) (s : t) : t * action :=
  let s := set_packet data s in
  if failed ec then (s, finish (handshaken ec)) else
  with_session s (fun x =>
  let aad := if first then garbage_ s else [] in
  let '(plain, x) := decrypt aad (packet_ s) x in
  let s := put_session x s in
  match plain with
  | None => (s, finish (handshaken protocol_error))
  | Some (_, true) => read_versioning false s
  | Some (_, false) => (set_garbage [] s, finish (handshaken error.success))
  end).

(** ** Messages *)

Definition async_read_message (maximum : Z) (s : t) : t * action :=
  read_exactly length_size (message_length maximum) s.

Definition handle_message_length (ec : code) (maximum : Z) (data : bytes) (s : t) : t * action :=
  let s := set_packet data s in
  if failed ec then (s, finish (received ec 0 [] [])) else
  let max := (maximum + (1 + heading_command_size)) mod 2 ^ 64 in
  let bound := maximum_content `min` max in
  with_session s (fun x =>
  let '(length, x) := decrypt_length (packet_ s) x in
  let s := put_session x s in
  if length >? bound then (s, finish (received protocol_error 0 [] [])) else
  read_exactly (header_size + length + tag_size) (message_read length maximum) s).

Definition handle_message_read (ec : code) (length maximum : Z) (buffer : bytes) (s : t) : t * action :=
  if failed ec then (s, finish (received ec 0 [] [])) else
  with_session s (fun x =>
  let '(plain, x) := decrypt [] buffer x in
  let s := put_session x s in
  match plain with
  | None => (s, finish (received protocol_error 0 [] []))
  | Some (_, true) => async_read_message maximum s
  | Some (plain, false) =>
    let contents := zdrop header_size plain in
    match split contents with
    | None => (s, finish (received protocol_error 0 [] []))
    | Some (identifier, command, prefix) =>
      (s, finish (received error.success identifier command (zdrop prefix contents)))
    end
  end).

Definition async_write_message (identifier : Z) (command : bytes) (payload : option bytes) (s : t) : t * action :=
  let prefix := if identifier =? 0 then 1 + heading_command_size else 1 in
  match payload with
  | None => (s, post (message_refused protocol_error))
  | Some payload =>
    if (len command >? heading_command_size) || (len payload >? maximum_content - prefix)
    then (s, post (message_refused protocol_error)) else
    let contents := [identifier] ++
      (if identifier =? 0 then command ++ repeat 0 (Z.to_nat (heading_command_size - len command)) else []) ++
      payload in
    with_session s (fun x =>
    let '(packet, x) := encrypt contents [] false x in
    (put_session x s, write packet message_sent))
  end.

(** ** Completions *)

(** The handler of an operation, with the bytes that were transferred. *)
Definition completion (op : operation) (ec : code) (data : bytes) (s : t) : t * action :=
  match op with
  | key_sent => handle_key_sent ec s
  | their_key initiate have => handle_their_key ec initiate (have ++ data) s
  | terminator_sent => handle_terminator_sent ec s
  | scan => handle_scan ec data s
  | version_length first have => handle_version_length ec first (have ++ data) s
  | version_packet first length have => handle_version_packet ec first length (have ++ data) s
  | message_length maximum have => handle_message_length ec maximum (have ++ data) s
  | message_read length maximum have => handle_message_read ec length maximum (have ++ data) s
  | message_sent => (s, finish (sent ec (len data)))
  | message_refused ec => (s, finish (sent ec 0))
  end.

#[global] Instance p2ps_protocol : Protocol t operation outcome := completion.

(** ** What a run may still do *)

Definition scanning (op : operation) : bool :=
  match op with key_sent | their_key _ _ | terminator_sent | scan => true | _ => false end.

Definition pending (a : action) : bool :=
  match a with write _ op | read _ op | read_some _ op | post op => scanning op | finish _ => false end.

Definition weight (a : action) : Z :=
  match a with
  | write _ key_sent => 5
  | read _ (their_key _ _) => 4
  | write _ terminator_sent => 3
  | read_some _ _ | post _ | write _ _ => 1
  | _ => 0
  end.

Definition measure (c : config t operation outcome) : nat :=
  Z.to_nat (2 * len (input c) + len (residue_ (self c)) +
    (if pending (next c) then len (garbage_ (self c)) else 0) + weight (next c)).

(** What [detection_] retains of the first bytes that were read, and what the
    handler is given or the upgraded stream does.  A v1 peer is served without
    upgrade, otherwise its first bytes begin its key. *)
Definition handle_detection (ec : code) (data : bytes) (cipher : p2ps_cipher.t) (identifier : Z) :
    bytes * (code + (t * action)) :=
  if failed ec then ([], inl ec) else
  let prefix := ztake detection_size data in
  if detected_v1 prefix identifier then (prefix, inl (error.success : code)) else
  ([], inr (do_respond prefix (make cipher identifier))).
End stream.
End p2ps_stream.
