(* ===== verification/P2psHandshake.v ===== *)
(** * P2psHandshake: the handshake and the messages of bip324

    Theorems on the streams of [P2ps]: every run ends, the handshake completes
    with a peer that sends garbage and decoys, the scan for its terminator is
    bounded, only authenticated packets are accepted, and messages round trip. *)

From S2P Require Import Prelude.
From S2P Require Import Errors.
From S2P Require Import Stream.
From S2P Require Import Transport.
From S2P Require Import PeerMessages.
From S2P Require Import P2psCipher.
From S2P Require Import P2ps.
From S2P Require Import IoTransfer.

Module p2ps_handshake.
Import p2ps_cipher.
Import p2ps_stream.

Lemma le_value_nonneg l : bytes_ok l -> 0 <= le_value l.
Proof. intros Hl. unfold le_value. apply be_value_bound. apply Forall_rev. done. Qed.

(** ** Where a terminator is *)

Lemma search_bound p l i : search p l = Some i -> 0 <= i /\ i + len p <= len l.
Proof.
  revert i. induction l as [| b l IH]; intros i; simpl; case_bool_decide as Hp.
  - intros [= <-]. rewrite <- Hp. unfold ztake. rewrite take_nil. rewrite len_nil. lia.
  - done.
  - intros [= <-]. pose proof (f_equal len Hp) as Hl. rewrite len_ztake in Hl by apply len_nonneg. lia.
  - destruct (search p l) as [j |]; [| done]. intros [= <-]. destruct (IH j eq_refl). rewrite len_cons. lia.
Qed.

Lemma search_app p l k i : search p l = Some i -> search p (l ++ k) = Some i.
Proof.
  revert i. induction l as [| b l IH]; intros i; simpl; case_bool_decide as Hp.
  - intros [= <-]. assert (p = []) as -> by (rewrite <- Hp; unfold ztake; by rewrite take_nil).
    by destruct k.
  - done.
  - intros [= <-]. rewrite bool_decide_true; [done |].
    pose proof (f_equal len Hp) as Hl. rewrite len_ztake in Hl by apply len_nonneg.
    change (b :: l ++ k) with ((b :: l) ++ k). rewrite ztake_app_le by lia. done.
  - destruct (search p l) as [j |] eqn:Hs; [| done]. intros [= <-].
    destruct (search_bound _ _ _ Hs) as [Hj Hb]. rewrite bool_decide_false; [by rewrite (IH j eq_refl) |].
    change (b :: l ++ k) with ((b :: l) ++ k). rewrite ztake_app_le by (rewrite len_cons; lia). done.
Qed.

(** A part of the stream shows the terminator when it holds it, not before. *)
Lemma search_part p g k l r : g ++ k = l ++ r -> search p l = Some (len l - len p) ->
  search p g = if len g <? len l then None else Some (len l - len p).
Proof.
  intros He Hs. destruct (len g <? len l) eqn:Hg.
  - apply Z.ltb_lt in Hg. destruct (search p g) as [j |] eqn:Hj; [| done]. exfalso.
    assert (search p (g ++ k) = Some j) as H1 by by apply search_app.
    assert (search p (l ++ r) = Some (len l - len p)) as H2 by by apply search_app.
    rewrite He, H2 in H1. injection H1 as <-. apply search_bound in Hj. lia.
  - apply Z.ltb_ge in Hg. assert (g = l ++ zdrop (len l) g) as ->.
    { rewrite <- (ztake_zdrop (len l) g) at 1. f_equal.
      rewrite <- (ztake_app_le (len l) g k) by lia. rewrite He. by apply ztake_app_len. }
    by apply search_app.
Qed.

Section stream.
Context `{P2psCrypto} `{!P2psLaws}.
Implicit Types (s : t) (c : config t operation outcome).

Notation action := (Transport.action operation outcome).

Lemma decrypt_length_nonneg data x : 0 <= (decrypt_length data x).1.
Proof.
  unfold decrypt_length. pose proof (crypt_ok (receive_length_ x) data) as Hk.
  destruct (crypt _ data) as [l r]. cbn in *. by apply le_value_nonneg.
Qed.

(** ** Every run ends *)

(** The operations that the actions of the stream name. *)
Definition action_ok (a : action) : Prop :=
  match a with
  | write _ op => op = key_sent \/ op = terminator_sent \/ op = message_sent
  | read n op => (exists i have, op = their_key i have) \/ (0 < n /\ scanning op = false)
  | read_some n op => 0 < n /\ op = scan
  | post op => scanning op = false
  | _ => True
  end.

Definition load s (a : action) : Z :=
  len (residue_ s) + (if pending a then len (garbage_ s) else 0) + weight a.

Definition budget (op : operation) (data : bytes) : Z :=
  match op with key_sent => 4 | their_key _ _ => 3 | terminator_sent => 1 | scan => len data + 1 | _ => 0 end.

Definition bounded (r : t * action) (n : Z) : Prop := action_ok r.2 /\ load r.1 r.2 <= n.

Lemma bounded_end s a n : action_ok a -> pending a = false -> weight a = 0 -> len (residue_ s) <= n -> bounded (s, a) n.
Proof. intros Ha Hp Hw Hn. split; [done |]. unfold load. cbn [fst snd]. rewrite Hp, Hw. lia. Qed.

Lemma bounded_read_exactly n op s m : 1 <= n -> (forall have, scanning (op have) = false) ->
  (forall k have, weight (read k (op have)) = 0) -> len (residue_ s) <= m -> bounded (read_exactly n op s) m.
Proof.
  intros Hn Hop Hw Hm. unfold read_exactly. pose proof (len_nonneg (residue_ s)).
  destruct (n `min` len (residue_ s) =? n) eqn:Hr; (split; [cbn |]); unfold load; cbn [fst snd pending].
  - apply Hop.
  - rewrite Hop. cbn [residue_ set_residue weight]. rewrite len_zdrop by lia. lia.
  - right. split; [lia | apply Hop].
  - rewrite Hop, Hw. cbn [residue_ set_residue]. rewrite len_zdrop by lia. lia.
Qed.

Lemma bounded_session s f m : len (residue_ s) <= m -> (forall x, bounded (f x) m) -> bounded (with_session s f) m.
Proof.
  intros Hs Hf. unfold with_session. destruct (session_ _); [apply Hf |]. by apply bounded_end.
Qed.

Lemma bounded_scan s : bounded (scan_terminator s) (len (residue_ s) + len (garbage_ s) + 1).
Proof.
  pose proof (len_nonneg (residue_ s)). pose proof (len_nonneg (garbage_ s)).
  apply bounded_session; [lia |]. intros x. cbv zeta. destruct (search (receive_terminator_ x) (garbage_ s)) as [p |] eqn:Hs.
  - destruct (search_bound _ _ _ Hs). pose proof (len_nonneg (receive_terminator_ x)).
    apply bounded_read_exactly; [unfold length_size; lia | done | done |].
    cbn. rewrite len_zdrop by lia. lia.
  - destruct (_ >=? _) eqn:Hm; [apply bounded_end; try done; lia |].
    split; cbn; [split; [lia | done] |]. unfold load. cbn. lia.
Qed.

Lemma bounded_complete op ec data s :
  bounded (complete op ec data s) (len (residue_ s) + (if scanning op then len (garbage_ s) else 0) + budget op data).
Proof.
  pose proof (len_nonneg (residue_ s)). pose proof (len_nonneg (garbage_ s)). pose proof (len_nonneg data).
  destruct op; cbn [complete p2ps_protocol completion scanning budget].
  - unfold handle_key_sent. destruct (failed ec); [apply bounded_end; try done; lia |].
    split; [left; eauto |]. unfold load. cbn. lia.
  - unfold handle_their_key. destruct (failed ec); [apply bounded_end; try done; lia |].
    destruct (initialize _ _ _ _) as [[|] c]; simpl negb; cbv iota; [| apply bounded_end; try done; cbn; lia].
    apply bounded_session; [cbn; lia |]. intros x. destruct (encrypt _ _ _ x) as [packet x'].
    split; [cbn; auto |]. unfold load. cbn. lia.
  - unfold handle_terminator_sent. destruct (failed ec); [apply bounded_end; try done; lia |]. apply bounded_scan.
  - unfold handle_scan. destruct (failed ec); [apply bounded_end; try done; cbn; lia |].
    pose proof (bounded_scan (set_garbage (garbage_ s ++ data) s)) as [Ha Hl]. split; [done |]. etrans; [apply Hl |].
    cbn. rewrite len_app. lia.
  - unfold handle_version_length. destruct (failed ec); [apply bounded_end; try done; cbn; lia |].
    apply bounded_session; [cbn; lia |]. intros x. pose proof (decrypt_length_nonneg (packet_ (set_packet (have ++ data) s)) x) as Hl.
    cbv zeta. destruct (decrypt_length _ x) as [length x']. destruct (length >? maximum_content); [apply bounded_end; try done; cbn; lia |].
    apply bounded_read_exactly; [cbn in *; unfold header_size, tag_size; lia | done | done | cbn; lia].
  - unfold handle_version_packet. destruct (failed ec); [apply bounded_end; try done; cbn; lia |].
    apply bounded_session; [cbn; lia |]. intros x. cbv zeta. destruct (decrypt _ _ x) as [[[plain [|]] |] x'].
    + apply bounded_read_exactly; [done | done | done | cbn; lia].
    + apply bounded_end; try done; cbn; lia.
    + apply bounded_end; try done; cbn; lia.
  - unfold handle_message_length. destruct (failed ec); [apply bounded_end; try done; cbn; lia |].
    apply bounded_session; [cbn; lia |]. intros x. pose proof (decrypt_length_nonneg (packet_ (set_packet (have ++ data) s)) x) as Hl.
    cbv zeta. destruct (decrypt_length _ x) as [length' x']. destruct (length' >? _ `min` _); [apply bounded_end; try done; cbn; lia |].
    apply bounded_read_exactly; [cbn in *; unfold header_size, tag_size; lia | done | done | cbn; lia].
  - unfold handle_message_read. destruct (failed ec); [apply bounded_end; try done; cbn; lia |].
    apply bounded_session; [cbn; lia |]. intros x. cbv zeta. destruct (decrypt _ _ x) as [[[plain [|]] |] x'].
    + apply bounded_read_exactly; [done | done | done | cbn; lia].
    + destruct (p2ps_stream.split _) as [[[? ?] ?] |]; apply bounded_end; try done; cbn; lia.
    + apply bounded_end; try done; cbn; lia.
  - apply bounded_end; try done; cbn; lia.
  - apply bounded_end; try done; cbn; lia.
Qed.

Definition sound c : Prop := action_ok (next c).

Lemma p2ps_step_decreases schedule : decreases sound measure (step schedule).
Proof.
  intros c c' Hc. unfold step, sound in *.
  pose proof (len_nonneg (input c)). pose proof (len_nonneg (residue_ (self c))). pose proof (len_nonneg (garbage_ (self c))).
  assert (forall op data i o n, bounded (complete op error.success data (self c)) n -> 2 * len i + n < 2 * len (input c) + load (self c) (next c) ->
    sound (resume (complete op error.success data (self c)) i o) /\
    (measure (resume (complete op error.success data (self c)) i o) < measure c)%nat) as Hm.
  { intros op data i o n [Ha Hl] Hlt. split; [done |]. unfold measure, load in *. cbn [next self input resume] in *.
    pose proof (len_nonneg i). destruct (complete _ _ _ _) as [s' a']. cbn in *.
    pose proof (len_nonneg (residue_ s')). pose proof (len_nonneg (garbage_ s')).
    assert (0 <= weight a') by (clear; destruct a' as [? []| ? []| | |]; cbn; lia).
    destruct (pending a'); lia. }
  destruct (next c) as [data op | n op | n op | op | o] eqn:Hn; cbn [action_ok] in Hc; try done.
  - intros [= <-]. eapply Hm; [apply bounded_complete |]. unfold load. cbn [pending].
    destruct Hc as [-> | [-> | ->]]; cbn; lia.
  - destruct (len (input c) <? n) eqn:Hlt; [done |]. intros [= <-]. eapply Hm; [apply bounded_complete |].
    unfold load. cbn [pending]. destruct Hc as [(i & have & ->) | [Hp Hs]].
    + cbn. destruct (decide (0 <= n)); [rewrite len_zdrop by lia; lia |].
      unfold zdrop. replace (Z.to_nat n) with O by lia. rewrite drop_0. lia.
    + rewrite Hs, len_zdrop by lia. destruct op; try done; cbn; lia.
  - destruct Hc as [Hp ->]. destruct (len (input c) =? 0) eqn:Hz; [done |]. intros [= <-].
    set (k := _ `min` _). assert (1 <= k <= len (input c)) by lia.
    eapply (Hm scan); [apply bounded_complete |]. unfold load. cbn. rewrite len_zdrop, len_ztake by lia. lia.
  - intros [= <-]. eapply Hm; [apply bounded_complete |]. unfold load. cbn [pending].
    rewrite Hc. destruct op; try done; cbn; lia.
Qed.

Definition run := Transport.run measure.

(** ** Exact reads, and the scan *)

Lemma p2ps_runs_run schedule c c' r : sound c -> runs schedule c c' -> step schedule c' = inr r -> run schedule c = Some r.
Proof. apply (Transport.runs_run measure sound), p2ps_step_decreases. Qed.

Lemma exact_read schedule n op s inp out d k : residue_ s ++ inp = d ++ k -> len d = n ->
  exists have data r inp', have ++ data = d /\ r ++ inp' = k /\
    step schedule (resume (read_exactly n op s) inp out) =
      inl (resume (complete (op have) error.success data (set_residue r s)) inp' out).
Proof.
  intros He Hn. pose proof (len_nonneg d). pose proof (len_nonneg (residue_ s)). unfold read_exactly.
  destruct (decide (n <= len (residue_ s))) as [Hle | Hgt].
  - assert (n `min` len (residue_ s) = n) as -> by lia. rewrite Z.eqb_refl.
    exists d, [], (zdrop n (residue_ s)), inp. rewrite app_nil_r. split; [done |].
    pose proof (f_equal (zdrop n) He) as Hd. rewrite zdrop_app_le, zdrop_app_len in Hd by lia. split; [done |].
    pose proof (f_equal (ztake n) He) as Ht. rewrite ztake_app_le, ztake_app_len in Ht by lia. by rewrite Ht.
  - assert (n `min` len (residue_ s) = len (residue_ s)) as -> by lia.
    destruct (_ =? n) eqn:Hq; [lia |]. exists (residue_ s), (ztake (n - len (residue_ s)) inp), [],
      (zdrop (n - len (residue_ s)) inp).
    pose proof (f_equal (ztake n) He) as Ht. rewrite (ztake_app_len d) in Ht by lia.
    pose proof (f_equal (zdrop n) He) as Hd. rewrite (zdrop_app_len d), io_transfer.zdrop_app_ge in Hd by lia.
    rewrite <- (ztake_zdrop (n - len (residue_ s)) inp), app_assoc, ztake_app_len in Ht.
    2: { rewrite len_app, len_ztake by lia. pose proof (f_equal len He) as Hl. rewrite !len_app in Hl. pose proof (len_nonneg k). lia. }
    split; [done |]. split; [done |]. unfold step. cbn [next resume input self output fst snd].
    pose proof (f_equal len He) as Hl. rewrite !len_app in Hl. pose proof (len_nonneg k).
    destruct (len inp <? _) eqn:Hlt; [lia |]. rewrite ztake_ge, zdrop_ge by lia. done.
Qed.

Lemma scan_runs schedule x G R : len (receive_terminator_ x) = terminator_size -> len G <= maximum_garbage ->
  search (receive_terminator_ x) (G ++ receive_terminator_ x) = Some (len G) ->
  forall n s inp out, (length inp <= n)%nat -> session_ (cipher_ s) = Some x ->
  garbage_ s ++ inp = (G ++ receive_terminator_ x) ++ R ->
  exists s' inp', runs schedule (resume (scan_terminator s) inp out) (resume (read_versioning true s') inp' out) /\
    cipher_ s' = cipher_ s /\ garbage_ s' = G /\ residue_ s' ++ inp' = R.
Proof.
  intros HT HG Hf n. induction n as [n IH] using lt_wf_ind. intros s inp out Hn Hx He.
  set (T := receive_terminator_ x) in *.
  assert (len (G ++ T) - len T = len G) as Hlen by (rewrite len_app; lia).
  pose proof (search_part T (garbage_ s) inp (G ++ T) R He) as Hp. rewrite Hlen in Hp. specialize (Hp Hf).
  unfold scan_terminator at 1, with_session. rewrite Hx. cbv zeta. fold T. rewrite Hp.
  rewrite len_app in *. destruct (len (garbage_ s) <? len G + len T) eqn:Hlt.
  - destruct (len (garbage_ s) >=? maximum_scan) eqn:Hm; [unfold maximum_scan in Hm; lia |].
    pose proof (f_equal len He) as Hl. rewrite !len_app in Hl. pose proof (len_nonneg R).
    assert (0 < len inp) by lia. set (lim := maximum_scan - len (garbage_ s)).
    assert (0 < lim) by (subst lim; lia).
    set (k := (1 `max` schedule (len inp)) `min` (lim `min` len inp)).
    assert (1 <= k <= len inp) by lia.
    destruct (IH (length (zdrop k inp)) ltac:(pose proof (len_zdrop k inp); unfold len in *; lia) (set_garbage (garbage_ s ++ ztake k inp) s) (zdrop k inp) out)
      as (s' & i' & Hr & Hrest); [done | done | |].
    { cbn [garbage_ set_garbage]. rewrite <- app_assoc, ztake_zdrop. done. }
    exists s', i'. split; [| done]. eapply rtc_l; [| apply Hr]. unfold step. cbn [next resume input self output fst snd].
    destruct (len inp =? 0) eqn:Hz; [lia |]. reflexivity.
  - eexists _, inp. split; [apply rtc_refl |]. cbn. split; [done |].
    apply Z.ltb_ge in Hlt. split.
    + pose proof (f_equal (ztake (len G)) He) as Ht. rewrite ztake_app_le in Ht by (pose proof (len_nonneg T); lia).
      rewrite <- app_assoc, ztake_app_len in Ht; done.
    + pose proof (f_equal (zdrop (len G + len T)) He) as Hd. rewrite zdrop_app_le in Hd by lia.
      rewrite zdrop_app_len in Hd; [done |]. by rewrite len_app.
Qed.

(** ** What a peer sends *)

(** Packets in order, the first one authenticated with [aad]. *)
Fixpoint packets (aad : bytes) (l : list (bytes * bool)) (x : session) : bytes * session :=
  match l with
  | [] => ([], x)
  | (contents, ignore) :: l =>
    let '(p, x) := encrypt contents aad ignore x in
    let '(q, x) := packets [] l x in
    (p ++ q, x)
  end.

Definition decoy (contents : bytes) : bytes * bool := (contents, true).

(** A handshake: the key, garbage and its terminator, decoys and a version. *)
Definition hello (key garbage : bytes) (decoys : list bytes) (version : bytes) (x : session) : bytes * session :=
  let '(p, x') := packets garbage (map decoy decoys ++ [(version, false)]) x in
  (key ++ garbage ++ send_terminator_ x ++ p, x').

(** The stream has the session of [x], but for how far it has received. *)
Definition continues (x : session) s : Prop :=
  exists x', session_ (cipher_ s) = Some x' /\ same_send x x' /\ session_id_ x' = session_id_ x.

Definition holds (x : session) s : Prop := session_ (cipher_ s) = Some x.


(** What a packet leaves of the session that receives it. *)
Definition after (a b b' : session) : Prop :=
  synchronized a b' /\ same_send b b' /\ receive_terminator_ b' = receive_terminator_ b /\ session_id_ b' = session_id_ b.

Lemma handle_version_length_spec first l s b n b' : holds b s -> decrypt_length l b = (n, b') -> n <= maximum_content ->
  handle_version_length error.success first l s =
    read_exactly (header_size + n + tag_size) (version_packet first n) (put_session b' (set_packet l s)).
Proof.
  intros Hb Hd Hn. unfold handle_version_length, with_session. change (failed (error.success : code)) with false. cbv iota zeta.
  cbn [cipher_ set_packet packet_]. rewrite Hb, Hd. destruct (n >? maximum_content) eqn:Hx; [lia | done].
Qed.

Lemma handle_version_packet_spec (first : bool) n p s b plain ignore b' : holds b s ->
  decrypt (if first then garbage_ s else []) p b = (Some (plain, ignore), b') ->
  let s' := put_session b' (set_packet p s) in
  handle_version_packet error.success first n p s =
    (if ignore then read_versioning false s' else (set_garbage [] s', finish (handshaken error.success))).
Proof.
  intros Hb Hd. unfold handle_version_packet, with_session. change (failed (error.success : code)) with false. cbv iota zeta.
  cbn [cipher_ set_packet packet_ garbage_]. rewrite Hb, Hd. by destruct ignore.
Qed.

Lemma version_packet_runs schedule contents ignore (first : bool) s a b inp out rest : len contents <= maximum_content ->
  holds b s -> synchronized a b ->
  let sent := encrypt contents (if first then garbage_ s else []) ignore a in
  residue_ s ++ inp = sent.1 ++ rest ->
  exists s' inp' b', runs schedule (resume (read_versioning first s) inp out)
      (resume (if ignore then read_versioning false s' else (set_garbage [] s', finish (handshaken error.success))) inp' out) /\
    holds b' s' /\ after sent.2 b b' /\ residue_ s' ++ inp' = rest.
Proof.
  intros Hc Hb Hsync sent He.
  destruct (encrypt_spec contents (if first then garbage_ s else []) ignore a b Hsync Hc)
    as (l & p & a' & b1 & b2 & Hen & Hll & Hlp & Hdl & Hdp & Hafter).
  subst sent. rewrite Hen in *. cbn [fst snd] in *. rewrite <- app_assoc in He.
  destruct (exact_read schedule length_size (version_length first) s inp out l (p ++ rest) He Hll)
    as (have & data & r & inp1 & Hd & Hr & Hstep).
  set (s1 := set_residue r s) in *. set (s2 := put_session b1 (set_packet l s1)).
  destruct (exact_read schedule (header_size + len contents + tag_size) (version_packet first (len contents)) s2 inp1 out p rest Hr)
    as (have2 & data2 & r2 & inp2 & Hd2 & Hr2 & Hstep2); [done |].
  eexists _, inp2, b2. split; [| split; [| split]].
  - eapply rtc_l; [apply Hstep |]. cbn [complete p2ps_protocol completion].
    rewrite Hd, (handle_version_length_spec first l s1 b (len contents) b1) by done.
    eapply rtc_l; [apply Hstep2 |]. cbn [complete p2ps_protocol completion].
    rewrite Hd2. erewrite handle_version_packet_spec; [apply rtc_refl | reflexivity |]. apply Hdp.
  - done.
  - done.
  - done.
Qed.

Lemma versions_run schedule rest version : len version <= maximum_content ->
  forall decoys (first : bool) s a b inp out, Forall (fun d => len d <= maximum_content) decoys ->
  holds b s -> synchronized a b ->
  let sent := packets (if first then garbage_ s else []) (map decoy decoys ++ [(version, false)]) a in
  residue_ s ++ inp = sent.1 ++ rest ->
  exists s' inp' b', runs schedule (resume (read_versioning first s) inp out)
      (resume (s', finish (handshaken error.success)) inp' out) /\
    holds b' s' /\ after sent.2 b b' /\ residue_ s' ++ inp' = rest.
Proof.
  intros Hv decoys. induction decoys as [| d decoys IH]; intros first s a b inp out Hds Hb Hsync sent He; subst sent; cbn [map app packets decoy] in *.
  - destruct (encrypt version _ false a) as [p a'] eqn:Hen. cbn [fst snd] in *. rewrite app_nil_r in He.
    destruct (version_packet_runs schedule version false first s a b inp out rest) as (s' & inp' & b' & Hr & Hb' & Ha' & Hrest);
      [done.. | by rewrite Hen |]. rewrite Hen in Ha'. exists (set_garbage [] s'), inp', b'. done.
  - destruct (encrypt d _ true a) as [p a'] eqn:Hen. destruct (packets [] _ a') as [q a''] eqn:Hq. cbn [fst snd] in *.
    rewrite <- app_assoc in He. apply Forall_cons in Hds as [Hd Hds].
    destruct (version_packet_runs schedule d true first s a b inp out (q ++ rest)) as (s1 & inp1 & b1 & Hr & Hb1 & Ha1 & Hrest1);
      [done.. | by rewrite Hen |]. rewrite Hen in Ha1. cbn [snd] in Ha1. destruct Ha1 as (Hs1 & Hsame1 & Ht1 & Hid1).
    destruct (IH false s1 a' b1 inp1 out Hds Hb1 Hs1) as (s2 & inp2 & b2 & Hr2 & Hb2 & (Hs2 & Hsame2 & Ht2 & Hid2) & Hrest2);
      [by rewrite Hq |]. rewrite Hq in Hs2. exists s2, inp2, b2. split; [by etrans |]. split; [done |]. split; [| done].
    destruct Hsame1, Hsame2. split; [done |]. split; [split; congruence |]. split; congruence.
Qed.

(** ** The handshake *)

Definition begin (initiate : bool) (detected : bytes) s : t * action :=
  if initiate then do_initiate s else do_respond detected s.

Lemma hello_own key x : (hello key [] [] [] x).1 = key ++ send_terminator_ x ++ (encrypt [] [] false x).1 /\
  (hello key [] [] [] x).2 = (encrypt [] [] false x).2.
Proof. unfold hello. cbn [map app packets]. destruct (encrypt _ _ _ x). cbn. by rewrite app_nil_r. Qed.

Lemma same_receive contents aad ignore x : let x' := (encrypt contents aad ignore x).2 in
  receive_length_ x' = receive_length_ x /\ receive_packet_ x' = receive_packet_ x /\
  receive_terminator_ x' = receive_terminator_ x /\ session_id_ x' = session_id_ x.
Proof. unfold encrypt. destruct (crypt _ _). by destruct (aead_encrypt _ _ _ _). Qed.

Lemma derive_ends ecdh identifier initiate (own := derive ecdh identifier initiate) (theirs := derive ecdh identifier (negb initiate)) :
  synchronized theirs own /\ send_terminator_ theirs = receive_terminator_ own /\ session_id_ theirs = session_id_ own /\
  len (receive_terminator_ own) = terminator_size.
Proof.
  split; [by destruct initiate |]. split; [by destruct initiate |]. split; [by destruct initiate |].
  subst own. unfold derive. destruct initiate; cbn [receive_terminator_].
  - rewrite len_zdrop; rewrite len_expand; done.
  - rewrite len_ztake by done. by rewrite len_expand.
Qed.

Lemma their_key_write initiate secret key identifier peer ecdh (own := derive ecdh identifier initiate)
  (s := make (p2ps_cipher.make secret key) identifier) :
  ellswift_exchange secret (if initiate then key else peer) (if initiate then peer else key) (negb initiate) = Some ecdh ->
  let '(packet, own') := encrypt [] [] false own in
  handle_their_key error.success initiate peer s =
    (put_session own' (set_cipher (p2ps_cipher.mk key (repeat 0 32) (Some own)) s),
     write ((if initiate then [] else key) ++ send_terminator_ own ++ packet) terminator_sent).
Proof.
  intros Hx. destruct (encrypt [] [] false own) as [packet own'] eqn:Hen.
  unfold handle_their_key, initialize, s, p2ps_cipher.make. cbn [p2ps_stream.make cipher_ identifier_ key_ secret_].
  change (failed (error.success : code)) with false. cbv iota. rewrite Hx. cbv iota zeta. cbn [negb].
  unfold send_terminator_version, with_session. cbn [cipher_ set_cipher session_]. cbv zeta. fold own. by rewrite Hen.
Qed.

Lemma their_key_runs schedule initiate secret key identifier peer ecdh garbage decoys version inp out rest
  (own := derive ecdh identifier initiate) (theirs := derive ecdh identifier (negb initiate))
  (sent := packets garbage (map decoy decoys ++ [(version, false)]) theirs)
  (s := make (p2ps_cipher.make secret key) identifier) :
  ellswift_exchange secret (if initiate then key else peer) (if initiate then peer else key) (negb initiate) = Some ecdh ->
  len garbage <= maximum_garbage ->
  search (send_terminator_ theirs) (garbage ++ send_terminator_ theirs) = Some (len garbage) ->
  Forall (fun d => len d <= maximum_content) decoys -> len version <= maximum_content ->
  inp = garbage ++ send_terminator_ theirs ++ sent.1 ++ rest ->
  exists s' inp' x, runs schedule (resume (handle_their_key error.success initiate peer s) inp out)
      (resume (s', finish (handshaken error.success)) inp'
        (out ++ (if initiate then [] else key) ++ send_terminator_ own ++ (encrypt [] [] false own).1)) /\
    holds x s' /\ synchronized sent.2 x /\ same_send (encrypt [] [] false own).2 x /\ session_id_ x = session_id_ own /\
    residue_ s' ++ inp' = rest.
Proof.
  intros Hx Hg Hf Hds Hv ->. destruct (derive_ends ecdh identifier initiate) as (Hsync & Ht & _ & HT).
  fold own theirs in Hsync, Ht, HT. rewrite Ht in *.
  destruct (same_receive [] [] false own) as (Hrl & Hrp & Hrt & Hrid).
  pose proof (their_key_write initiate secret key identifier peer ecdh Hx) as Hwr. fold own s in Hwr.
  destruct (encrypt [] [] false own) as [packet own'] eqn:Hen.
  cbn [fst snd] in *. set (s1 := put_session own' (set_cipher (p2ps_cipher.mk key (repeat 0 32) (Some own)) s)).
  rewrite Hwr. fold s1.
  destruct (scan_runs schedule own' garbage (sent.1 ++ rest)) with (n := length (garbage ++ receive_terminator_ own ++ sent.1 ++ rest))
    (s := s1) (inp := garbage ++ receive_terminator_ own ++ sent.1 ++ rest)
    (out := out ++ (if initiate then [] else key) ++ send_terminator_ own ++ packet)
    as (s2 & inp2 & Hr2 & Hc2 & Hg2 & Hrest2); [by rewrite Hrt | done | by rewrite Hrt | done | done | cbn; rewrite Hrt; by rewrite <- app_assoc |].
  assert (holds own' s2) as Hh2 by (unfold holds; by rewrite Hc2).
  destruct (versions_run schedule rest version Hv decoys true s2 theirs own' inp2
    (out ++ (if initiate then [] else key) ++ send_terminator_ own ++ packet) Hds Hh2)
    as (s3 & inp3 & x & Hr3 & Hh3 & (Hs3 & Hsame3 & _ & Hid3) & Hrest3).
  { destruct Hsync. split; congruence. }
  { rewrite Hg2. exact Hrest2. }
  rewrite Hg2 in Hs3. exists s3, inp3, x. split; [| split; [done |]; split; [done |]; split; [done |]; split; [congruence | done]].
  eapply rtc_l; [reflexivity |]. cbn [complete p2ps_protocol completion]. unfold handle_terminator_sent. etrans; [exact Hr2 | exact Hr3].
Qed.

(** The key of the peer, whichever part of it was read by detection. *)
Lemma key_runs schedule initiate detected peer tail inp s : len peer = key_size -> len detected <= key_size ->
  (initiate = true -> detected = []) -> detected ++ inp = peer ++ tail ->
  exists out, runs schedule (resume (begin initiate detected s) inp [])
      (resume (handle_their_key error.success initiate peer s) tail out) /\
    out ++ (if initiate then [] else key_ (cipher_ s)) = key_ (cipher_ s).
Proof.
  intros Hk Hd Hi He. pose proof (len_nonneg tail). destruct initiate.
  - rewrite (Hi eq_refl) in He. simpl in He. subst inp. exists (key_ (cipher_ s)). rewrite app_nil_r. split; [| done].
    eapply rtc_l; [reflexivity |]. eapply rtc_once. unfold step. cbn -[len key_size ztake zdrop app handle_their_key].
    rewrite len_app, Hk. destruct (_ <? _) eqn:Hlt; [lia |]. by rewrite ztake_app_len, zdrop_app_len by done.
  - exists []. split; [| done]. eapply rtc_once. unfold step. cbn -[len key_size ztake zdrop app handle_their_key].
    pose proof (f_equal len He) as Hl. rewrite !len_app, Hk in Hl. pose proof (len_nonneg detected).
    destruct (_ <? _) eqn:Hlt; [lia |].
    pose proof (f_equal (zdrop key_size) He) as Hdr. pose proof (f_equal (ztake key_size) He) as Hta.
    rewrite io_transfer.zdrop_app_ge, zdrop_app_len in Hdr by lia. rewrite (ztake_app_len peer) in Hta by lia.
    rewrite Hdr. do 3 f_equal. rewrite <- Hta.
    rewrite <- (ztake_zdrop (key_size - len detected) inp) at 2. rewrite app_assoc, ztake_app_len; [done |].
    rewrite len_app, len_ztake by lia. lia.
Qed.

Lemma sound_begin initiate detected s inp out : sound (resume (begin initiate detected s) inp out).
Proof. destruct initiate; [by left | left; eauto]. Qed.

(** C11: handshake.  Whichever role a stream has, however the bytes of its
    peer are divided, whatever garbage the peer sends before its terminator
    and whatever decoys before its version, the handshake succeeds: the stream
    has sent its own handshake, both have the same session, each end decrypts
    what the other encrypts, and what follows the handshake is kept. *)
Theorem p2ps_handshake_completes schedule initiate secret key identifier peer ecdh garbage decoys version detected inp rest
  (own := derive ecdh identifier initiate) (theirs := derive ecdh identifier (negb initiate)) :
  ellswift_exchange secret (if initiate then key else peer) (if initiate then peer else key) (negb initiate) = Some ecdh ->
  len peer = key_size -> len garbage <= maximum_garbage ->
  search (send_terminator_ theirs) (garbage ++ send_terminator_ theirs) = Some (len garbage) ->
  Forall (fun d => len d <= maximum_content) decoys -> len version <= maximum_content ->
  len detected <= key_size -> (initiate = true -> detected = []) ->
  detected ++ inp = (hello peer garbage decoys version theirs).1 ++ rest ->
  exists c x, run schedule (resume (begin initiate detected (make (p2ps_cipher.make secret key) identifier)) inp []) = Some c /\
    next c = finish (handshaken error.success) /\ output c = (hello key [] [] [] own).1 /\
    residue_ (self c) ++ input c = rest /\ session_ (cipher_ (self c)) = Some x /\
    session_id_ x = session_id_ theirs /\
    synchronized (hello peer garbage decoys version theirs).2 x /\ same_send (hello key [] [] [] own).2 x.
Proof.
  intros Hx Hk Hg Hf Hds Hv Hd Hi He. destruct (hello_own key own) as [Ho1 Ho2]. rewrite Ho1, Ho2.
  destruct (derive_ends ecdh identifier initiate) as (_ & _ & Hid & _). fold own theirs in Hid.
  unfold hello in *. destruct (packets garbage _ theirs) as [p theirs'] eqn:Hp. cbn [fst snd] in *.
  rewrite <- !app_assoc in He. set (s := make (p2ps_cipher.make secret key) identifier).
  set (tail := garbage ++ send_terminator_ theirs ++ p ++ rest) in *.
  assert (forall out, exists s' inp' x, runs schedule (resume (handle_their_key error.success initiate peer s) tail out)
      (resume (s', finish (handshaken error.success)) inp'
        (out ++ (if initiate then [] else key) ++ send_terminator_ own ++ (encrypt [] [] false own).1)) /\
    holds x s' /\ synchronized theirs' x /\ same_send (encrypt [] [] false own).2 x /\ session_id_ x = session_id_ own /\
    residue_ s' ++ inp' = rest) as Hruns.
  { intros out. destruct (their_key_runs schedule initiate secret key identifier peer ecdh garbage decoys version tail out rest)
      as (s' & inp' & x & Hr); [done.. | fold theirs; rewrite Hp; done |]. fold theirs own s in Hr. rewrite Hp in Hr. by exists s', inp', x. }
  destruct (key_runs schedule initiate detected peer tail inp s Hk Hd Hi He) as (out & Hpre & Hout). cbn [cipher_ key_ s p2ps_stream.make p2ps_cipher.make] in Hout.
  destruct (Hruns out) as (s' & inp' & x & Hr & Hh & Hsy & Hss & Hid' & Hrest).
  exists (resume (s', finish (handshaken error.success)) inp' (out ++ (if initiate then [] else key) ++ send_terminator_ own ++ (encrypt [] [] false own).1)), x.
  split; [eapply p2ps_runs_run; [apply sound_begin | by etrans | done] |].
  split; [done |]. split; [cbn; by rewrite app_assoc, Hout |]. split; [done |]. split; [done |]. split; [congruence | done].
Qed.
End stream.

Import sample_cipher.

Definition sample_key (b : Z) : bytes := repeat b 64.

(** The exchange of the initiator of the samples. *)
Definition sample_ecdh : bytes := sample_key 7 ++ sample_key 9.

Lemma p2ps_handshake_completes_witness :
  let theirs := derive sample_ecdh 0xd9b4bef9 false in
  exists c x, run (fun n => n - 40) (resume (begin true [] (make (p2ps_cipher.make [] (sample_key 7)) 0xd9b4bef9))
      ((hello (sample_key 9) (chars "garbage") [chars "decoy"] [] theirs).1 ++ chars "more") []) = Some c /\
    next c = finish (handshaken error.success) /\
    output c = (hello (sample_key 7) [] [] [] (derive sample_ecdh 0xd9b4bef9 true)).1 /\
    residue_ (self c) ++ input c = chars "more" /\ session_ (cipher_ (self c)) = Some x /\
    session_id_ x = session_id_ theirs /\
    synchronized (hello (sample_key 9) (chars "garbage") [chars "decoy"] [] theirs).2 x /\
    same_send (hello (sample_key 7) [] [] [] (derive sample_ecdh 0xd9b4bef9 true)).2 x.
Proof.
  apply (p2ps_handshake_completes (fun n => n - 40) true [] (sample_key 7) 0xd9b4bef9 (sample_key 9) sample_ecdh
    (chars "garbage") [chars "decoy"] [] []).
  - reflexivity.
  - reflexivity.
  - by vm_compute.
  - by vm_compute.
  - by repeat constructor.
  - by vm_compute.
  - by vm_compute.
  - done.
  - reflexivity.
Defined.
End p2ps_handshake.
