(* ===== verification/P2psMessages.v ===== *)
(** * P2psMessages: the messages of bip324

    The message reads of [P2ps] against a description of the packets alone,
    the round trip of messages, the bound of the scan and the outcomes of the
    handshake with any peer, and the detection of the version of a peer. *)

From S2P Require Import Prelude.
From S2P Require Import Errors.
From S2P Require Import Stream.
From S2P Require Import Transport.
From S2P Require Import PeerMessages.
From S2P Require Import PeerBody.
From S2P Require Import P2psCipher.
From S2P Require Import P2ps.
From S2P Require Import P2psHandshake.

Module p2ps_messages.
Import p2ps_cipher.
Import p2ps_stream.
Import p2ps_handshake.

Section messages.
Context `{P2psCrypto}.
Implicit Types (s : t) (c : config t operation outcome).

Notation action := (Transport.action operation outcome).

(** The largest contents that a read accepts. *)
Definition bound (maximum : Z) : Z := maximum_content `min` ((maximum + (1 + heading_command_size)) mod 2 ^ 64).

(** What a read of the packets [data] in the session [b] comes to: the action
    that ends it ([None] while bytes are lacking), the session after it and the
    bytes that are left. *)
Inductive delivers (maximum : Z) : session -> bytes -> option action -> session -> bytes -> Prop :=
  | delivers_short b data : len data < length_size -> delivers maximum b data None b data
  | delivers_oversized b b' l rest n : len l = length_size -> decrypt_length l b = (n, b') -> bound maximum < n ->
      delivers maximum b (l ++ rest) (Some (finish (received protocol_error 0 [] []))) b' rest
  | delivers_truncated b b' l rest n : len l = length_size -> decrypt_length l b = (n, b') -> n <= bound maximum ->
      len rest < header_size + n + tag_size -> delivers maximum b (l ++ rest) None b' rest
  | delivers_forged b b1 b2 l p rest n : len l = length_size -> decrypt_length l b = (n, b1) -> n <= bound maximum ->
      len p = header_size + n + tag_size -> decrypt [] p b1 = (None, b2) ->
      delivers maximum b (l ++ p ++ rest) (Some (finish (received protocol_error 0 [] []))) b2 rest
  | delivers_decoy b b1 b2 l p rest n plain a b3 rest' : len l = length_size -> decrypt_length l b = (n, b1) ->
      n <= bound maximum -> len p = header_size + n + tag_size -> decrypt [] p b1 = (Some (plain, true), b2) ->
      delivers maximum b2 rest a b3 rest' -> delivers maximum b (l ++ p ++ rest) a b3 rest'
  | delivers_untyped b b1 b2 l p rest n plain : len l = length_size -> decrypt_length l b = (n, b1) ->
      n <= bound maximum -> len p = header_size + n + tag_size -> decrypt [] p b1 = (Some (plain, false), b2) ->
      p2ps_stream.split (zdrop header_size plain) = None ->
      delivers maximum b (l ++ p ++ rest) (Some (finish (received protocol_error 0 [] []))) b2 rest
  | delivers_message b b1 b2 l p rest n plain identifier command prefix : len l = length_size ->
      decrypt_length l b = (n, b1) -> n <= bound maximum -> len p = header_size + n + tag_size ->
      decrypt [] p b1 = (Some (plain, false), b2) ->
      p2ps_stream.split (zdrop header_size plain) = Some (identifier, command, prefix) ->
      delivers maximum b (l ++ p ++ rest)
        (Some (finish (received error.success identifier command (zdrop prefix (zdrop header_size plain))))) b2 rest.

Context `{!P2psLaws}.

Lemma exact_wait schedule n op s inp out : len (residue_ s ++ inp) < n ->
  step schedule (resume (read_exactly n op s) inp out) = inr (resume (read_exactly n op s) inp out) /\
  read_exactly n op s = (set_residue [] s, read (n - len (residue_ s)) (op (residue_ s))).
Proof.
  intros Hl. rewrite len_app in Hl. pose proof (len_nonneg inp). pose proof (len_nonneg (residue_ s)).
  assert (read_exactly n op s = (set_residue [] s, read (n - len (residue_ s)) (op (residue_ s)))) as ->.
  { unfold read_exactly. assert (n `min` len (residue_ s) = len (residue_ s)) as -> by lia.
    destruct (_ =? n) eqn:Hq; [lia |]. by rewrite ztake_ge, zdrop_ge by lia. }
  split; [| done]. unfold step. cbn [next resume fst snd input].
  destruct (len inp <? n - len (residue_ s)) eqn:Hlt; [done | lia].
Qed.

Lemma handle_message_length_spec maximum l s b n b' : holds b s -> decrypt_length l b = (n, b') ->
  handle_message_length error.success maximum l s =
    (if n >? bound maximum then (put_session b' (set_packet l s), finish (received protocol_error 0 [] [])) else
     read_exactly (header_size + n + tag_size) (message_read n maximum) (put_session b' (set_packet l s))).
Proof.
  intros Hb Hd. unfold handle_message_length, with_session. change (failed (error.success : code)) with false. cbv iota zeta.
  cbn [cipher_ set_packet packet_]. by rewrite Hb, Hd.
Qed.

Lemma handle_message_read_spec n maximum p s b plain b' : holds b s -> decrypt [] p b = (plain, b') ->
  handle_message_read error.success n maximum p s =
    match plain with
    | None => (put_session b' s, finish (received protocol_error 0 [] []))
    | Some (_, true) => async_read_message maximum (put_session b' s)
    | Some (plain, false) =>
      match p2ps_stream.split (zdrop header_size plain) with
      | None => (put_session b' s, finish (received protocol_error 0 [] []))
      | Some (identifier, command, prefix) =>
        (put_session b' s, finish (received error.success identifier command (zdrop prefix (zdrop header_size plain))))
      end
    end.
Proof.
  intros Hb Hd. unfold handle_message_read, with_session. change (failed (error.success : code)) with false. cbv iota zeta.
  by rewrite Hb, Hd.
Qed.

(** A wait keeps what it has read in its operation. *)
Definition pending_bytes (a : action) : bytes :=
  match a with read _ (message_length _ have) | read _ (message_read _ _ have) => have | _ => [] end.

Definition ends (a : option action) (b : session) (rest : bytes) c : Prop :=
  holds b (self c) /\ pending_bytes (next c) ++ residue_ (self c) ++ input c = rest /\
  match a with
  | Some a => next c = a
  | None => exists n op, next c = read n op /\ len (input c) < n
  end.

Lemma split_read (n : Z) (l : bytes) : 0 <= n <= len l -> l = ztake n l ++ zdrop n l /\ len (ztake n l) = n.
Proof. intros Hn. split; [by rewrite ztake_zdrop | rewrite len_ztake; lia]. Qed.

Lemma delivers_total maximum : forall m b data, (length data <= m)%nat ->
  exists a b' rest, delivers maximum b data a b' rest.
Proof.
  intros m. induction m as [m IH] using lt_wf_ind. intros b data Hm.
  destruct (decide (len data < length_size)) as [Hs | Hs]; [eexists _, _, _; by constructor |].
  destruct (split_read length_size data) as [Hd Hl]; [unfold length_size in *; lia |].
  set (l := ztake length_size data) in *. set (tail := zdrop length_size data) in *.
  destruct (decrypt_length l b) as [n b1] eqn:Hdl. rewrite Hd.
  destruct (decide (n <= bound maximum)) as [Hle | Hgt]; [| eexists _, _, _; eapply delivers_oversized; [done | done | lia]].
  destruct (decide (len tail < header_size + n + tag_size)) as [Ht | Ht]; [eexists _, _, _; by eapply delivers_truncated |].
  pose proof (decrypt_length_nonneg l b) as Hn. rewrite Hdl in Hn. cbn in Hn.
  destruct (split_read (header_size + n + tag_size) tail) as [Htd Hlp]; [unfold header_size, tag_size in *; lia |].
  set (p := ztake _ tail) in *. set (rest := zdrop _ tail) in *. rewrite Htd.
  destruct (decrypt [] p b1) as [[[plain [|]] |] b2] eqn:Hdp.
  - destruct (IH (length rest)) with (b := b2) (data := rest) as (a & b' & rest' & Hde); [| done |].
    { pose proof (f_equal (fun l : bytes => length l) Hd) as HL. pose proof (f_equal (fun l : bytes => length l) Htd) as HT.
      rewrite length_app in HL, HT. unfold len, length_size, header_size, tag_size in *. lia. }
    eexists _, _, _. by eapply delivers_decoy.
  - destruct (p2ps_stream.split (zdrop header_size plain)) as [[[identifier command] prefix] |] eqn:Hsp.
    + eexists _, _, _. by eapply delivers_message.
    + eexists _, _, _. by eapply delivers_untyped.
  - eexists _, _, _. by eapply delivers_forged.
Qed.

Lemma length_read schedule maximum s b inp out l tail n b1 : holds b s -> residue_ s ++ inp = l ++ tail ->
  len l = length_size -> decrypt_length l b = (n, b1) ->
  exists s1 inp1, residue_ s1 ++ inp1 = tail /\ holds b1 s1 /\
    runs schedule (resume (async_read_message maximum s) inp out)
      (resume (if n >? bound maximum then (s1, finish (received protocol_error 0 [] [])) else
        read_exactly (header_size + n + tag_size) (message_read n maximum) s1) inp1 out).
Proof.
  intros Hb Hd Hl Hdl.
  destruct (exact_read schedule length_size (message_length maximum) s inp out l tail) as (have & data1 & r & inp1 & Hd1 & Hr1 & Hst1);
    [done | done |].
  exists (put_session b1 (set_packet l (set_residue r s))), inp1. split; [done |]. split; [done |].
  eapply rtc_l; [exact Hst1 |]. cbn [complete p2ps_protocol completion]. rewrite Hd1.
  rewrite (handle_message_length_spec maximum l (set_residue r s) b n b1) by done. apply rtc_refl.
Qed.

Lemma packet_read schedule maximum s b inp out l p rest n b1 plain b2 : holds b s -> residue_ s ++ inp = l ++ p ++ rest ->
  len l = length_size -> decrypt_length l b = (n, b1) -> n <= bound maximum -> len p = header_size + n + tag_size ->
  decrypt [] p b1 = (plain, b2) ->
  exists s2 inp2, residue_ s2 ++ inp2 = rest /\ holds b2 s2 /\
    runs schedule (resume (async_read_message maximum s) inp out)
      (resume match plain with
        | None => (s2, finish (received protocol_error 0 [] []))
        | Some (_, true) => async_read_message maximum s2
        | Some (plain, false) =>
          match p2ps_stream.split (zdrop header_size plain) with
          | None => (s2, finish (received protocol_error 0 [] []))
          | Some (identifier, command, prefix) =>
            (s2, finish (received error.success identifier command (zdrop prefix (zdrop header_size plain))))
          end
        end inp2 out).
Proof.
  intros Hb Hd Hl Hdl Hn Hlp Hdp.
  destruct (length_read schedule maximum s b inp out l (p ++ rest) n b1 Hb Hd Hl Hdl) as (s1 & inp1 & Hr1 & Hb1 & Hrun).
  destruct (n >? bound maximum) eqn:Hov; [lia |].
  destruct (exact_read schedule (header_size + n + tag_size) (message_read n maximum) s1 inp1 out p rest)
    as (have2 & data2 & r2 & inp2 & Hd2 & Hr2 & Hst2); [done | done |].
  exists (put_session b2 (set_residue r2 s1)), inp2. split; [done |]. split; [done |].
  etrans; [exact Hrun |]. eapply rtc_l; [exact Hst2 |]. cbn [complete p2ps_protocol completion]. rewrite Hd2.
  rewrite (handle_message_read_spec n maximum p (set_residue r2 s1) b1 plain b2) by done. apply rtc_refl.
Qed.

Lemma delivers_runs schedule maximum b data a b' rest : delivers maximum b data a b' rest ->
  forall s inp out, residue_ s ++ inp = data -> holds b s ->
  exists c', runs schedule (resume (async_read_message maximum s) inp out) c' /\ step schedule c' = inr c' /\
    ends a b' rest c' /\ output c' = out.
Proof.
  induction 1 as [b data Hs | b b1 l rest n Hl Hdl Hn | b b1 l rest n Hl Hdl Hn Ht | b b1 b2 l p rest n Hl Hdl Hn Hlp Hdp |
    b b1 b2 l p rest n plain a b3 rest' Hl Hdl Hn Hlp Hdp _ IH | b b1 b2 l p rest n plain Hl Hdl Hn Hlp Hdp Hsp |
    b b1 b2 l p rest n plain identifier command prefix Hl Hdl Hn Hlp Hdp Hsp]; intros s inp out He Hb.
  2, 3: destruct (length_read schedule maximum s b inp out l rest n b1 Hb He Hl Hdl) as (s1 & inp1 & Hr1 & Hb1 & Hrun).
  4-7: destruct (packet_read schedule maximum s b inp out l p rest n b1 _ b2 Hb He Hl Hdl Hn Hlp Hdp) as (s2 & inp2 & Hr2 & Hb2 & Hrun).
  - subst data. destruct (exact_wait schedule length_size (message_length maximum) s inp out Hs) as [Hst Heq].
    eexists. split; [apply rtc_refl |]. split; [exact Hst |]. unfold async_read_message. rewrite Heq.
    split; [| done]. split; [done |]. split; [done |]. eexists _, _. split; [done |]. cbn. rewrite len_app in Hs. lia.
  - destruct (n >? bound maximum) eqn:Hov; [| lia]. eexists. split; [exact Hrun |]. by split.
  - destruct (n >? bound maximum) eqn:Hov; [lia |]. rewrite <- Hr1 in Ht.
    destruct (exact_wait schedule (header_size + n + tag_size) (message_read n maximum) s1 inp1 out Ht) as [Hst Heq].
    eexists. split; [exact Hrun |]. split; [exact Hst |]. rewrite Heq. split; [| done]. split; [done |]. split; [done |].
    eexists _, _. split; [done |]. cbn. rewrite len_app in Ht. lia.
  - eexists. split; [exact Hrun |]. by split.
  - destruct (IH s2 inp2 out Hr2 Hb2) as (c' & Hru & Hrest). exists c'. split; [by etrans | done].
  - rewrite Hsp in Hrun. eexists. split; [exact Hrun |]. by split.
  - rewrite Hsp in Hrun. eexists. split; [exact Hrun |]. by split.
Qed.

Lemma sound_read maximum s inp out : sound (resume (async_read_message maximum s) inp out).
Proof. unfold sound. by destruct (bounded_read_exactly length_size (message_length maximum) s (len (residue_ s))) as [Ha _]. Qed.

(** C12: messages.  Whatever a stream has left over and however the bytes of
    its peer are divided, a message read is decided by the packets alone: it
    skips the decoys, and delivers the first packet that authenticates; a
    packet that exceeds the maximum is rejected unread, and one that does not
    authenticate is rejected; it waits only while bytes are lacking, and what
    follows is kept. *)
Theorem p2ps_read_refines schedule maximum s b inp out : holds b s ->
  exists a b' rest c, delivers maximum b (residue_ s ++ inp) a b' rest /\
    run schedule (resume (async_read_message maximum s) inp out) = Some c /\ ends a b' rest c.
Proof.
  intros Hb. destruct (delivers_total maximum _ b (residue_ s ++ inp) (le_n _)) as (a & b' & rest & Hd).
  destruct (delivers_runs schedule maximum b _ a b' rest Hd s inp out eq_refl Hb) as (c & Hr & Hs & He & _).
  exists a, b', rest, c. split; [done |]. split; [| done]. eapply p2ps_runs_run; [apply sound_read | done | done].
Qed.

(** ** The round trip *)

Lemma search_zero l k : ~ (0 ∈ l) -> search [0] (l ++ repeat 0 (S k)) = Some (len l) /\ search [0] l = None.
Proof.
  induction l as [| b l IH]; intros Hl; [done |].
  apply not_elem_of_cons in Hl as [Hb Hl]. destruct (IH Hl) as [H1 H2]. cbn [search app].
  assert (forall k : bytes, bool_decide (ztake (len [0]) (b :: k) = [0]) = false) as Hf.
  { intros k'. apply bool_decide_false. change (ztake (len [0]) (b :: k')) with [b]. congruence. }
  rewrite !Hf, H1, H2, len_cons. split; [f_equal; lia | done].
Qed.

(** The contents of a message: its identity, and its payload. *)
Definition contents_of (identifier : Z) (command payload : bytes) : bytes :=
  [identifier] ++
  (if identifier =? 0 then command ++ repeat 0 (Z.to_nat (heading_command_size - len command)) else []) ++ payload.

Lemma len_contents identifier command payload : len command <= heading_command_size ->
  len (contents_of identifier command payload) = (if identifier =? 0 then 1 + heading_command_size else 1) + len payload.
Proof.
  intros Hc. unfold contents_of. destruct (identifier =? 0); rewrite !len_app; [| done].
  change (len [identifier]) with 1. unfold len at 2. rewrite repeat_length. unfold heading_command_size in *.
  pose proof (len_nonneg command). lia.
Qed.

Lemma split_contents identifier command payload : len command <= heading_command_size -> ~ (0 ∈ command) ->
  p2ps_stream.split (contents_of identifier command payload) =
    Some (identifier, if identifier =? 0 then command else [], if identifier =? 0 then 1 + heading_command_size else 1).
Proof.
  intros Hc Hz. pose proof (len_contents identifier command payload Hc) as Hl. unfold contents_of in *.
  unfold p2ps_stream.split. cbn [app] in *. destruct (identifier =? 0); cbn [negb]; [| done]. rewrite Hl.
  pose proof (len_nonneg payload). destruct (_ <? _) eqn:Hlt; [lia |]. set (zeros := repeat 0 _).
  assert (len (command ++ zeros) = heading_command_size) as Hp.
  { rewrite len_app. subst zeros. unfold len at 2. rewrite repeat_length. unfold heading_command_size in *.
    pose proof (len_nonneg command). lia. }
  rewrite ztake_app_len by done.
  assert (match search [0] (command ++ zeros) with Some i => i | None => len (command ++ zeros) end = len command) as ->.
  { subst zeros. destruct (Z.to_nat (heading_command_size - len command)) as [| k] eqn:Hk.
    - cbn [repeat]. rewrite app_nil_r. rewrite (proj2 (search_zero command O Hz)). done.
    - by rewrite (proj1 (search_zero command k Hz)). }
  rewrite zdrop_app_len, ztake_app_len by done.
  assert (forallb (Z.eqb 0) zeros = true) as ->; [| done].
  apply forallb_forall. intros x Hx. apply repeat_spec in Hx as ->. done.
Qed.

Lemma decoys_deliver maximum rest a b' rest' : forall decoys x b,
  Forall (fun d => len d <= bound maximum) decoys -> synchronized x b ->
  (forall b1, after (packets [] (map decoy decoys) x).2 b b1 -> delivers maximum b1 rest a (b' b1) rest') ->
  exists b1, after (packets [] (map decoy decoys) x).2 b b1 /\
    delivers maximum b ((packets [] (map decoy decoys) x).1 ++ rest) a (b' b1) rest'.
Proof.
  induction decoys as [| d decoys IH]; intros x b Hds Hs Hd; cbn [map packets decoy] in *.
  - exists b. split; [done |]. by apply Hd.
  - apply Forall_cons in Hds as [Hx Hds]. assert (len d <= maximum_content) as Hmax by (unfold bound in Hx; lia).
    destruct (encrypt_spec d [] true x b Hs Hmax) as (l & p & x1 & b1 & b2 & Hen & Hll & Hlp & Hdl & Hdp & Hs2 & Hsame & Ht & Hid).
    rewrite Hen in *. destruct (packets [] (map decoy decoys) x1) as [q x2] eqn:Hq. cbn [fst snd] in *.
    assert (forall b3, after x2 b2 b3 -> after x2 b b3) as Htrans.
    { intros b3 (Ha & Hb & Hc & He). destruct Hsame, Hb. split; [done |]. split; [split; congruence |]. split; congruence. }
    destruct (IH x1 b2 Hds Hs2) as (b3 & Ha3 & Hd3); rewrite Hq in *; [by intros b3 Ha3; apply Hd, Htrans |].
    exists b3. split; [by apply Htrans |]. rewrite <- !app_assoc. eapply delivers_decoy; done.
Qed.

(** Message.  A message that a stream writes, after any decoys, is what
    its peer reads: the identity (the command where the short identifier is
    zero) and the payload, with both ends in step again and what follows kept. *)
Theorem p2ps_message_round_trip schedule maximum identifier command payload x y a0 a b decoys before inp rest :
  holds a x -> holds b y -> synchronized a0 b -> packets [] (map decoy decoys) a0 = (before, a) ->
  Forall (fun d => len d <= bound maximum) decoys -> len command <= heading_command_size -> ~ (0 ∈ command) ->
  (if identifier =? 0 then 1 + heading_command_size else 1) + len payload <= bound maximum ->
  let '(x', w) := async_write_message identifier command (Some payload) x in
  exists data, w = write data message_sent /\
  (residue_ y ++ inp = before ++ data ++ rest ->
  exists c a' b', run schedule (resume (async_read_message maximum y) inp []) = Some c /\
    next c = finish (received error.success identifier (if identifier =? 0 then command else []) payload) /\
    residue_ (self c) ++ input c = rest /\ holds a' x' /\ holds b' (self c) /\ synchronized a' b').
Proof.
  intros Ha Hb Hs Hpk Hds Hc Hz Hl.
  assert (bound maximum <= maximum_content) as Hbm by (unfold bound; lia).
  pose proof (len_contents identifier command payload Hc) as Hlc.
  unfold async_write_message. destruct (_ || _) eqn:Hbad; [apply orb_true_iff in Hbad; lia |].
  fold (contents_of identifier command payload) in *. unfold with_session. unfold holds in Ha. rewrite Ha.
  destruct (encrypt (contents_of identifier command payload) [] false a) as [data a'] eqn:Hen.
  exists data. split; [done |]. intros He.
  destruct (decoys_deliver maximum (data ++ rest) (Some (finish (received error.success identifier (if identifier =? 0 then command else []) payload)))
    (fun b1 => (decrypt [] (zdrop length_size data) (decrypt_length (ztake length_size data) b1).2).2) rest decoys a0 b Hds Hs)
    as (b1 & Ha1 & Hd); rewrite Hpk in *; cbn [fst snd] in *.
  { intros b1 (Hs1 & _).
    destruct (encrypt_spec (contents_of identifier command payload) [] false a b1 Hs1) as (l & p & a1 & b2 & b3 & Hen' & Hll & Hlp & Hdl & Hdp & _); [lia |].
    rewrite Hen in Hen'. injection Hen' as -> ->. rewrite ztake_app_len, zdrop_app_len, Hdl by done. cbn [snd]. rewrite Hdp. cbn [snd].
    rewrite <- app_assoc.
    assert (payload = zdrop (if identifier =? 0 then 1 + heading_command_size else 1) (zdrop header_size (plain_packet false (contents_of identifier command payload)))) as Hpay.
    { unfold plain_packet, contents_of, header_size. change (zdrop 1 (0 :: ?l)) with l. change (zdrop 1 (?b :: ?l)) with l.
      destruct (identifier =? 0); [| done]. rewrite app_assoc, zdrop_app_len; [done |]. rewrite !len_app.
      change (len [identifier]) with 1. unfold len at 2. rewrite repeat_length. unfold heading_command_size in *.
      pose proof (len_nonneg command). lia. }
    rewrite Hpay at 1. eapply delivers_message; [done | done | lia | done | done |].
    apply (split_contents identifier command payload Hc Hz). }
  destruct (delivers_runs schedule maximum b _ _ _ _ Hd y inp [] He Hb) as (c & Hr & Hst & (Hh & Hrest & Hn) & _).
  destruct Ha1 as (Hs1 & _).
  destruct (encrypt_spec (contents_of identifier command payload) [] false a b1 Hs1) as (l & p & a1 & b2 & b3 & Hen' & Hll & Hlp & Hdl & Hdp & Hs3 & _); [lia |].
  rewrite Hen in Hen'. injection Hen' as -> ->. rewrite ztake_app_len, zdrop_app_len, Hdl in Hh by done. cbn [snd] in Hh. rewrite Hdp in Hh. cbn [snd] in Hh.
  exists c, a1, b3. split; [eapply p2ps_runs_run; [apply sound_read | done | done] |]. rewrite Hn in *. done.
Qed.

(** ** Any peer *)

(** The scan ends at a terminator, at its bound, or for want of bytes. *)
Lemma scan_fails schedule x S : search (receive_terminator_ x) S = None -> len S = maximum_scan ->
  forall n s inp rest out, (length inp <= n)%nat -> holds x s -> garbage_ s ++ inp = S ++ rest -> len (garbage_ s) <= maximum_scan ->
  exists s', runs schedule (resume (scan_terminator s) inp out) (resume (s', finish (handshaken protocol_error)) rest out).
Proof.
  intros Hf HS n. induction n as [n IH] using lt_wf_ind. intros s inp rest out Hn Hx He Hg.
  assert (search (receive_terminator_ x) (garbage_ s) = None) as Hnone.
  { destruct (search _ (garbage_ s)) as [i |] eqn:Hi; [| done]. exfalso.
    assert (S = garbage_ s ++ zdrop (len (garbage_ s)) S) as Hsplit.
    { rewrite <- (ztake_zdrop (len (garbage_ s)) S) at 1. f_equal.
      rewrite <- (ztake_app_le _ S rest) by lia. rewrite <- He. by apply ztake_app_len. }
    rewrite Hsplit in Hf. by rewrite (search_app _ _ _ i Hi) in Hf. }
  unfold scan_terminator at 1, with_session. unfold holds in Hx. rewrite Hx. cbv zeta. rewrite Hnone.
  pose proof (f_equal len He) as Hl. rewrite !len_app in Hl. pose proof (len_nonneg rest).
  destruct (len (garbage_ s) >=? maximum_scan) eqn:Hm.
  - exists s. assert (rest = inp) as ->; [| apply rtc_refl].
    pose proof (f_equal (zdrop maximum_scan) He) as Hd. by rewrite !zdrop_app_len in Hd by lia.
  - set (lim := maximum_scan - len (garbage_ s)). assert (0 < lim) by (subst lim; lia).
    set (k := (1 `max` schedule (len inp)) `min` (lim `min` len inp)). assert (1 <= k <= len inp /\ k <= lim) as [Hk Hk'] by lia.
    destruct (IH (length (zdrop k inp)) ltac:(pose proof (len_zdrop k inp); unfold len in *; lia)
      (set_garbage (garbage_ s ++ ztake k inp) s) (zdrop k inp) rest out) as (s' & Hr); [done | done | | |].
    { cbn [garbage_ set_garbage]. by rewrite <- app_assoc, ztake_zdrop. }
    { cbn [garbage_ set_garbage]. rewrite len_app, len_ztake by lia. lia. }
    exists s'. eapply rtc_l; [| apply Hr]. unfold step. cbn [next resume input self output fst snd].
    destruct (len inp =? 0) eqn:Hz; [lia |]. reflexivity.
Qed.

(** Scan.  A peer that does not show its terminator within its first
    4111 bytes after its key is dropped for a protocol violation, and no byte
    after those is read. *)
Theorem p2ps_scan_bounded schedule initiate secret key identifier peer ecdh scanned detected inp rest
  (own := derive ecdh identifier initiate) :
  ellswift_exchange secret (if initiate then key else peer) (if initiate then peer else key) (negb initiate) = Some ecdh ->
  len peer = key_size -> len detected <= key_size -> (initiate = true -> detected = []) ->
  detected ++ inp = peer ++ scanned ++ rest -> len scanned = 4111 -> search (receive_terminator_ own) scanned = None ->
  exists c, run schedule (resume (begin initiate detected (make (p2ps_cipher.make secret key) identifier)) inp []) = Some c /\
    next c = finish (handshaken protocol_error) /\ input c = rest.
Proof.
  intros Hx Hk Hd Hi He Hs Hf. set (s := make (p2ps_cipher.make secret key) identifier).
  destruct (key_runs schedule initiate detected peer (scanned ++ rest) inp s Hk Hd Hi He) as (out & Hpre & _).
  destruct (same_receive [] [] false own) as (_ & _ & Ht & _).
  pose proof (their_key_write initiate secret key identifier peer ecdh Hx) as Hwr. fold own s in Hwr.
  destruct (encrypt [] [] false own) as [packet own'] eqn:Hen. cbn [snd] in Ht. rewrite Hwr in Hpre.
  set (s1 := put_session own' _) in Hpre. set (frame := _ ++ _) in Hpre.
  destruct (scan_fails schedule own' scanned ltac:(by rewrite Ht) Hs _ s1 (scanned ++ rest) rest (out ++ frame) (le_n _))
    as (s' & Hr); [done | done | done |].
  exists (resume (s', finish (handshaken protocol_error)) rest (out ++ frame)). split; [| done].
  eapply p2ps_runs_run; [apply sound_begin | etrans; [exact Hpre | eapply rtc_l; [reflexivity | exact Hr]] | done].
Qed.

(** What a handshake may do next. *)
Definition shaking (r : t * action) : Prop :=
  match r.2 with
  | write _ key_sent | read _ (their_key _ _) => True
  | write _ terminator_sent | read_some _ scan | read _ (version_length _ _) | read _ (version_packet _ _ _)
  | post (version_length _ _) | post (version_packet _ _ _) => is_Some (session_ (cipher_ r.1))
  | finish (handshaken ec) => ec = protocol_error \/
      (ec = error.success /\ exists aad packet b plain b', decrypt aad packet b = (Some (plain, false), b') /\ holds b' r.1)
  | _ => False
  end.

Lemma shaking_error s : shaking (s, finish (handshaken protocol_error)).
Proof. by left. Qed.

Lemma shaking_read_exactly n op s : (forall have, (exists f, op have = version_length f have) \/ exists f l, op have = version_packet f l have) ->
  is_Some (session_ (cipher_ s)) -> shaking (read_exactly n op s).
Proof.
  intros Hop Hs. unfold read_exactly. destruct (_ =? n);
    match goal with |- context [op ?h] => destruct (Hop h) as [(f & ->) | (f & l & ->)] end; exact Hs.
Qed.

Lemma shaking_scan s : is_Some (session_ (cipher_ s)) -> shaking (scan_terminator s).
Proof.
  intros Hs. unfold scan_terminator, with_session. destruct Hs as [x Hx]. rewrite Hx. cbv zeta.
  destruct (search (receive_terminator_ x) (garbage_ s)); [apply shaking_read_exactly; [eauto | by exists x] |].
  destruct (_ >=? _); [apply shaking_error | by exists x].
Qed.

Ltac pending_case a Ha Hs :=
  destruct a; try done; subst; cbn in Ha, Hs;
  first [exact Hs | by destruct Hs | by destruct Ha as [? | [? | ?]] | by destruct Ha as [(? & ? & ?) | [? ?]] | by destruct Ha].

Lemma p2ps_shaking_complete op data s a : action_ok a -> shaking (s, a) ->
  match a with write _ o | read _ o | read_some _ o | post o => o = op | _ => False end ->
  shaking (complete op error.success data s).
Proof.
  intros Ha Hs Hop. destruct op.
  - done.
  - cbn [complete p2ps_protocol completion]. unfold handle_their_key. change (failed (error.success : code)) with false. cbv iota.
    unfold initialize. destruct (ellswift_exchange _ _ _ _); cbn [negb]; [| apply shaking_error].
    unfold send_terminator_version, with_session. cbn [cipher_ set_cipher session_]. cbv zeta.
    destruct (encrypt _ _ _ _). by eexists.
  - apply shaking_scan. pending_case a Ha Hs.
  - apply (shaking_scan (set_garbage _ s)). pending_case a Ha Hs.
  - assert (is_Some (session_ (cipher_ s))) as [x Hx] by (destruct a; try done; subst; [by destruct Ha as [| []] | done | by destruct Ha | done]).
    cbn [complete p2ps_protocol completion]. destruct (decrypt_length (have ++ data) x) as [n x'] eqn:Hd.
    unfold handle_version_length, with_session. change (failed (error.success : code)) with false. cbv iota zeta.
    cbn [cipher_ set_packet packet_]. rewrite Hx, Hd. destruct (n >? _); [apply shaking_error |].
    apply shaking_read_exactly; [eauto | by eexists].
  - assert (is_Some (session_ (cipher_ s))) as [x Hx] by (destruct a; try done; subst; [by destruct Ha as [| []] | done | by destruct Ha | done]).
    cbn [complete p2ps_protocol completion]. destruct (decrypt (if first then garbage_ s else []) (have ++ data) x) as [[[plain ignore] |] x'] eqn:Hd.
    + rewrite (handle_version_packet_spec first length (have ++ data) s x plain ignore x') by done.
      destruct ignore; [apply shaking_read_exactly; [eauto | by eexists] |]. right. split; [done |]. by eexists _, _, _, _, _.
    + unfold handle_version_packet, with_session. change (failed (error.success : code)) with false. cbv iota zeta.
      cbn [cipher_ set_packet packet_ garbage_]. rewrite Hx, Hd. apply shaking_error.
  - pending_case a Ha Hs.
  - pending_case a Ha Hs.
  - pending_case a Ha Hs.
  - pending_case a Ha Hs.
Qed.

(** It waits for bytes, or has failed or succeeded. *)
Definition decided c : Prop :=
  (exists n op, next c = read n op /\ len (input c) < n) \/ (exists n op, next c = read_some n op /\ input c = []) \/
  next c = finish (handshaken protocol_error) \/
  (next c = finish (handshaken error.success) /\ exists aad packet b plain b',
    decrypt aad packet b = (Some (plain, false), b') /\ holds b' (self c)).

(** Any peer.  Whatever a peer sends, and however it is divided, a
    handshake comes to an end: it fails for a protocol violation, or succeeds
    with a version packet that authenticates in its session, or waits for
    bytes that the peer has not sent.  A cipher that has not been initialized
    is never used. *)
Theorem p2ps_handshake_decides schedule initiate detected s inp :
  exists c, run schedule (resume (begin initiate detected s) inp []) = Some c /\ decided c.
Proof.
  destruct (run_total measure sound schedule (p2ps_step_decreases schedule) _ (sound_begin initiate detected s inp [])) as [c Hc].
  exists c. split; [exact Hc |].
  refine (run_invariant measure sound schedule (p2ps_step_decreases schedule) (fun c => shaking (self c, next c)) decided _ c _ _ _ _ Hc).
  - apply sound_begin.
  - by destruct initiate.
  - intros c1 c2 Hs Hk. unfold step.
    unfold sound in Hs. pose proof (fun op data => p2ps_shaking_complete op data (self c1) (next c1) Hs Hk) as Hsc.
    destruct (next c1) eqn:Hn; try done.
    + intros [= <-]. cbn. rewrite <- surjective_pairing. by apply Hsc.
    + destruct (_ <? _); [done |]. intros [= <-]. cbn. rewrite <- surjective_pairing. by apply Hsc.
    + destruct (_ =? _); [done |]. intros [= <-]. cbn. rewrite <- surjective_pairing. by apply Hsc.
    + intros [= <-]. cbn. rewrite <- surjective_pairing. by apply Hsc.
  - intros c1 c2 Hs Hk. unfold step, sound in *. destruct (next c1) as [| | | | [ec | | |]] eqn:Hn; try done.
    + destruct (_ <? _) eqn:Hlt; [| done]. intros [= <-]. left. eexists _, _. split; [done | lia].
    + destruct (_ =? _) eqn:Hz; [| done]. intros [= <-]. right. left. eexists _, _. split; [done |].
      apply len_zero_nil. lia.
    + intros [= <-]. right. right. destruct Hk as [Hk | [Hk He]]; cbn in Hk; subst ec; [by left | by right].
Qed.

(** ** Detection *)

Lemma replicate_repeat (n : nat) (x : Z) : replicate n x = repeat x n.
Proof. induction n; simpl; congruence. Qed.

Lemma le_bytes_inj v w : u32 v -> u32 w -> le_bytes 4 v = le_bytes 4 w -> v = w.
Proof. intros Hv Hw He. rewrite <- (le_value_bytes 4 v), <- (le_value_bytes 4 w) by width. by rewrite He. Qed.

(** Detection.  A peer is served as v1 exactly when its first bytes are
    those of the heading of a version message on the same network; they are
    then retained for the heading.  Otherwise they begin its key. *)
Theorem p2ps_detects_v1 (m : heading.t) identifier cipher : heading.ok m -> u32 identifier ->
  let data := ztake detection_size (heading.encode m) in
  handle_detection error.success data cipher identifier =
    if bool_decide (heading.magic m = identifier /\ heading.command m = chars "version")
    then (data, inl (error.success : code))
    else ([], inr (do_respond data (make cipher identifier))).
Proof.
  intros (Hm & Hc & Hl & Hz & _) Hid data. unfold handle_detection. change (failed (error.success : code)) with false. cbv iota.
  assert (ztake detection_size data = data) as Hd by (unfold data; by rewrite ztake_ztake).
  set (zeros := fun c : bytes => repeat 0 (Z.to_nat (heading_command_size - len c))).
  assert (forall c : bytes, len c <= heading_command_size -> len (c ++ zeros c) = heading_command_size) as Hlz.
  { intros c Hlc. rewrite len_app. unfold len at 2, zeros. rewrite repeat_length. unfold heading_command_size in *.
    pose proof (len_nonneg c). lia. }
  assert (data = le_bytes 4 (heading.magic m) ++ heading.command m ++ zeros (heading.command m)) as Hdata.
  { unfold data, heading.encode. rewrite replicate_repeat. fold (zeros (heading.command m)). rewrite app_assoc. apply ztake_app_len.
    rewrite len_app, len_le_bytes, (Hlz _ Hl). done. }
  cbv zeta. rewrite Hd. unfold detected_v1. change (chars "version" ++ repeat 0 5) with (chars "version" ++ zeros (chars "version")).
  assert (data = le_bytes 4 identifier ++ chars "version" ++ zeros (chars "version") <->
    heading.magic m = identifier /\ heading.command m = chars "version") as Hiff.
  { rewrite Hdata. split; [| by intros [-> ->]]. intros He. apply app_inj_1 in He as [Hmag Hcmd].
    2: { pose proof (len_le_bytes 4 (heading.magic m)). pose proof (len_le_bytes 4 identifier). unfold len in *. lia. }
    split; [by apply le_bytes_inj |]. pose proof (search_zero (heading.command m)) as Hs.
    destruct (Z.to_nat (heading_command_size - len (heading.command m))) as [| k] eqn:Hk.
    - unfold zeros in Hcmd at 1. rewrite Hk in Hcmd. cbn [repeat] in Hcmd. rewrite app_nil_r in Hcmd. exfalso. apply Hz. rewrite Hcmd.
      apply list_elem_of_In. vm_compute. tauto.
    - destruct (Hs k Hz) as [H1 _]. unfold zeros in Hcmd at 1. rewrite Hk in Hcmd. rewrite Hcmd in H1. vm_compute in H1. injection H1 as H1.
      rewrite <- (ztake_app_len (heading.command m) (repeat 0 (S k)) 7), Hcmd by done. reflexivity. }
  do 2 case_bool_decide; tauto.
Qed.
End messages.

Import sample_cipher.

Definition sample_session (initiate : bool) : session := derive sample_ecdh 0xd9b4bef9 initiate.

Definition sample_stream (initiate : bool) : t :=
  mk (p2ps_cipher.mk [] [] (Some (sample_session initiate))) 0xd9b4bef9 [] [] [].

Lemma p2ps_read_refines_witness :
  let inp := (encrypt (chars "x") [] true (sample_session true)).1 ++ [1; 2] in
  exists a b' rest c, delivers 100 (sample_session false) inp a b' rest /\
    run (fun _ => 1) (resume (async_read_message 100 (sample_stream false)) inp []) = Some c /\ ends a b' rest c.
Proof. intros inp. by apply (p2ps_read_refines (fun _ => 1) 100 (sample_stream false) (sample_session false) inp []). Defined.

Lemma p2ps_message_round_trip_witness :
  let a := packets [] [decoy (chars "x")] (sample_session true) in
  let x := set_cipher (p2ps_cipher.mk [] [] (Some a.2)) (sample_stream true) in
  let '(x', w) := async_write_message 0 (chars "ping") (Some (chars "12345678")) x in
  let packet := match w with write data _ => data | _ => [] end in
  exists data, w = write data message_sent /\
  (residue_ (sample_stream false) ++ a.1 ++ packet ++ chars "z" = a.1 ++ data ++ chars "z" ->
  exists c a' b', run (fun _ => 1) (resume (async_read_message 8 (sample_stream false)) (a.1 ++ packet ++ chars "z") []) = Some c /\
    next c = finish (received error.success 0 (chars "ping") (chars "12345678")) /\
    residue_ (self c) ++ input c = chars "z" /\ holds a' x' /\ holds b' (self c) /\ synchronized a' b').
Proof.
  intros a x.
  pose proof (fun inp => p2ps_message_round_trip (fun _ => 1) 8 0 (chars "ping") (chars "12345678") x (sample_stream false)
    (sample_session true) a.2 (sample_session false) [chars "x"] a.1 inp (chars "z")) as Hr.
  destruct (async_write_message 0 (chars "ping") (Some (chars "12345678")) x) as [x' w]. apply Hr.
  - reflexivity.
  - reflexivity.
  - split; reflexivity.
  - apply surjective_pairing.
  - repeat constructor; by vm_compute.
  - by vm_compute.
  - apply (bool_decide_unpack _). by vm_compute.
  - by vm_compute.
Defined.

Lemma p2ps_scan_bounded_witness :
  exists c, run (fun n => n) (resume (begin false (ztake 16 (sample_key 7)) (make (p2ps_cipher.make [] (sample_key 9)) 0xd9b4bef9))
      (zdrop 16 (sample_key 7) ++ repeat 5 4111 ++ chars "rest") []) = Some c /\
    next c = finish (handshaken protocol_error) /\ input c = chars "rest".
Proof.
  apply (p2ps_scan_bounded (fun n => n) false [] (sample_key 9) 0xd9b4bef9 (sample_key 7) sample_ecdh (repeat 5 4111)
    (ztake 16 (sample_key 7)) (zdrop 16 (sample_key 7) ++ repeat 5 4111 ++ chars "rest") (chars "rest")).
  - reflexivity.
  - reflexivity.
  - by vm_compute.
  - done.
  - by rewrite app_assoc, ztake_zdrop.
  - by vm_compute.
  - by vm_compute.
Defined.

Lemma p2ps_handshake_decides_witness :
  exists c, run (fun n => n) (resume (begin true [] (make (p2ps_cipher.make [] (sample_key 9)) 0xd9b4bef9)) (repeat 5 70) []) = Some c /\
    decided c.
Proof. apply (p2ps_handshake_decides (fun n => n) true [] (make (p2ps_cipher.make [] (sample_key 9)) 0xd9b4bef9) (repeat 5 70)). Defined.

Lemma p2ps_detects_v1_witness :
  let m := heading.mk 0xd9b4bef9 (chars "version") 100 0 in
  let data := ztake detection_size (heading.encode m) in
  handle_detection error.success data (p2ps_cipher.make [] []) 0xd9b4bef9 =
    if bool_decide (heading.magic m = 0xd9b4bef9 /\ heading.command m = chars "version")
    then (data, inl (error.success : code))
    else ([], inr (do_respond data (make (p2ps_cipher.make [] []) 0xd9b4bef9))).
Proof.
  intros m data. apply (p2ps_detects_v1 m 0xd9b4bef9 (p2ps_cipher.make [] [])).
  - split; [by vm_compute |]. split; [by repeat constructor; vm_compute |]. split; [by vm_compute |].
    split; [apply (bool_decide_unpack _); by vm_compute |]. split; by vm_compute.
  - by vm_compute.
Defined.
End p2ps_messages.
