(* ===== verification/ZmtpCipher.v ===== *)
(** * ZmtpCipher: the CurveZMQ mechanism of one connection

    Models [src/zmtp/cipher.cpp] and [include/bitcoin/network/zmtp/cipher.hpp]
    over the x25519, hsalsa20 and xsalsa20-poly1305 of libbitcoin-system, which
    are parameters with named laws, as are the random values that a handshake
    draws.  A box is the key that it is constructed with.  The output of a
    function that returns false is not used by its callers, and is absent. *)

From S2P Require Import Prelude.

Class Curve := {
  multiply : bytes -> bytes -> option bytes;
  multiply_base : bytes -> option bytes;
  hsalsa20 : bytes -> bytes;
  box_encrypt : bytes -> bytes -> bytes -> bytes;
  box_decrypt : bytes -> bytes -> bytes -> option bytes
}.

Module zmtp_cipher.

Definition command_hello : bytes := chars "HELLO".
Definition command_welcome : bytes := chars "WELCOME".
Definition command_initiate : bytes := chars "INITIATE".
Definition command_ready : bytes := chars "READY".
Definition command_message : bytes := chars "MESSAGE".

Definition prefix_hello : bytes := chars "CurveZMQHELLO---".
Definition prefix_welcome : bytes := chars "WELCOME-".
Definition prefix_cookie : bytes := chars "COOKIE--".
Definition prefix_initiate : bytes := chars "CurveZMQINITIATE".
Definition prefix_vouch : bytes := chars "VOUCH---".
Definition prefix_ready : bytes := chars "CurveZMQREADY---".
Definition prefix_client : bytes := chars "CurveZMQMESSAGEC".
Definition prefix_server : bytes := chars "CurveZMQMESSAGES".

Definition version_major : Z := 1.
Definition version_minor : Z := 0.
Definition hello_padding : Z := 72.
Definition hello_content : Z := 64.

Definition key_size : Z := 32.
Definition tag_size : Z := 16.
Definition nonce_size : Z := 24.
Definition short_nonce_size : Z := 8.
Definition long_nonce_size : Z := nonce_size - short_nonce_size.
Definition cookie_size : Z := long_nonce_size + tag_size + 2 * key_size.

Definition hello_size : Z := 200.
Definition welcome_size : Z := 168.
Definition initiate_minimum : Z := 257.
Definition ready_minimum : Z := 30.
Definition message_minimum : Z := 33.

Definition payload_more : Z := 0x01.
Definition payload_command : Z := 0x02.

Section cipher.
Context `{Curve}.

(** A secret has a public key, two keypairs agree on a point, and a box that
    is opened with its key and nonce gives what was sealed. *)
Class CurveLaws : Prop := {
  multiply_agrees a pa b pb : multiply_base a = Some pa -> multiply_base b = Some pb ->
    exists point, multiply a pb = Some point /\ multiply b pa = Some point;
  len_multiply_base a pa : multiply_base a = Some pa -> len a = key_size /\ len pa = key_size;
  decrypt_encrypt key plain nonce : box_decrypt key nonce (box_encrypt key plain nonce) = Some plain;
  len_box key plain nonce : len (box_encrypt key plain nonce) = len plain + tag_size
}.

Record t := mk {
  server_ : bool; secret_ : bytes; public_ : bytes; peer_ : bytes;
  transient_secret_ : bytes; transient_public_ : bytes; peer_transient_ : bytes; cookie_key_ : bytes;
  nonce_ : Z; peer_nonce_ : Z;
  hello_box_ : option bytes; vouch_box_ : option bytes; session_box_ : option bytes
}.

Definition zeros : bytes := repeat 0 32.

(** Own long-term keypair. *)
Definition make_server (secret public_key : bytes) : t :=
  mk true secret public_key zeros zeros zeros zeros zeros 1 0 None None None.

Definition make_client (secret public_key server : bytes) : t :=
  mk false secret public_key server zeros zeros zeros zeros 1 0 None None None.

Definition set_peer (p : bytes) (c : t) : t :=
  mk (server_ c) (secret_ c) (public_ c) p (transient_secret_ c) (transient_public_ c) (peer_transient_ c)
    (cookie_key_ c) (nonce_ c) (peer_nonce_ c) (hello_box_ c) (vouch_box_ c) (session_box_ c).

Definition set_transient (pair : bytes * bytes) (c : t) : t :=
  mk (server_ c) (secret_ c) (public_ c) (peer_ c) pair.1 pair.2 (peer_transient_ c)
    (cookie_key_ c) (nonce_ c) (peer_nonce_ c) (hello_box_ c) (vouch_box_ c) (session_box_ c).

Definition set_peer_transient (p : bytes) (c : t) : t :=
  mk (server_ c) (secret_ c) (public_ c) (peer_ c) (transient_secret_ c) (transient_public_ c) p
    (cookie_key_ c) (nonce_ c) (peer_nonce_ c) (hello_box_ c) (vouch_box_ c) (session_box_ c).

Definition set_cookie_key (k : bytes) (c : t) : t :=
  mk (server_ c) (secret_ c) (public_ c) (peer_ c) (transient_secret_ c) (transient_public_ c) (peer_transient_ c)
    k (nonce_ c) (peer_nonce_ c) (hello_box_ c) (vouch_box_ c) (session_box_ c).

Definition set_peer_nonce (n : Z) (c : t) : t :=
  mk (server_ c) (secret_ c) (public_ c) (peer_ c) (transient_secret_ c) (transient_public_ c) (peer_transient_ c)
    (cookie_key_ c) (nonce_ c) n (hello_box_ c) (vouch_box_ c) (session_box_ c).

(** The nonce has 64 bits. *)
Definition next_nonce (c : t) : t :=
  mk (server_ c) (secret_ c) (public_ c) (peer_ c) (transient_secret_ c) (transient_public_ c) (peer_transient_ c)
    (cookie_key_ c) (narrow 64 (nonce_ c + 1)) (peer_nonce_ c) (hello_box_ c) (vouch_box_ c) (session_box_ c).

Definition set_boxes (h v s : option bytes) (c : t) : t :=
  mk (server_ c) (secret_ c) (public_ c) (peer_ c) (transient_secret_ c) (transient_public_ c) (peer_transient_ c)
    (cookie_key_ c) (nonce_ c) (peer_nonce_ c) h v s.

Definition set_hello_box (k : bytes) (c : t) : t := set_boxes (Some k) (vouch_box_ c) (session_box_ c) c.
Definition set_vouch_box (k : bytes) (c : t) : t := set_boxes (hello_box_ c) (Some k) (session_box_ c) c.
Definition set_session_box (k : bytes) (c : t) : t := set_boxes (hello_box_ c) (vouch_box_ c) (Some k) c.

(** ** Keys, nonces and boxes *)

Definition to_public (secret : bytes) : option bytes := multiply_base secret.

Definition derive (secret public_key : bytes) : option bytes :=
  match multiply secret public_key with Some point => Some (hsalsa20 point) | None => None end.

Definition make_short (prefix : bytes) (value : Z) : bytes := prefix ++ be_bytes 8 value.

Definition make_long (prefix value : bytes) : bytes := prefix ++ value.

Definition short_nonce_value (data : bytes) (offset : Z) : Z := be_value (ztake short_nonce_size (zdrop offset data)).

Definition accept (nonce : Z) (c : t) : bool * t :=
  if nonce <=? peer_nonce_ c then (false, c) else (true, set_peer_nonce nonce c).

Definition seal (out key nonce plain : bytes) : bytes := out ++ box_encrypt key plain nonce.

Definition open (key nonce cipher : bytes) : option bytes :=
  if len cipher <? tag_size then None else box_decrypt key nonce cipher.

Definition named (body name : bytes) : bool :=
  (len body >? len name) && (zget body 0 =? len name) && bool_decide (ztake (len name) (zdrop 1 body) = name).

Definition name (out name : bytes) : bytes := out ++ [len name] ++ name.

(** ** Handshake *)

(** The random values of a connection. *)
Record random := mk_random {
  generated : bytes * bytes; cookie_key : bytes; cookie_nonce : bytes; welcome_nonce : bytes; vouch_nonce : bytes }.

Definition hello (r : random) (c : t) : option bytes * t :=
  if server_ c then (None, c) else
  let c := set_transient (generated r) c in
  match derive (transient_secret_ c) (peer_ c) with
  | None => (None, c)
  | Some shared =>
    let c := set_hello_box shared c in
    let out := name [] command_hello ++ [version_major; version_minor] ++ repeat 0 (Z.to_nat hello_padding) ++
      transient_public_ c ++ be_bytes 8 (nonce_ c) in
    let out := seal out shared (make_short prefix_hello (nonce_ c)) (repeat 0 (Z.to_nat hello_content)) in
    (if len out =? hello_size then Some out else None, next_nonce c)
  end.

Definition welcome (r : random) (hello : bytes) (c : t) : option bytes * t :=
  if negb (server_ c) || negb (len hello =? hello_size) || negb (named hello command_hello) then (None, c) else
  let offset := 1 + len command_hello in
  if negb (zget hello offset =? version_major) || negb (zget hello (1 + offset) =? version_minor) then (None, c) else
  let offset := offset + 2 + hello_padding in
  let c := set_peer_transient (ztake key_size (zdrop offset hello)) c in
  let offset := offset + key_size in
  let nonce := short_nonce_value hello offset in
  let offset := offset + short_nonce_size in
  match derive (secret_ c) (peer_transient_ c) with
  | None => (None, c)
  | Some shared =>
    let c := set_hello_box shared c in
    let '(accepted, c) := accept nonce c in
    if negb accepted then (None, c) else
    match open shared (make_short prefix_hello nonce) (zdrop offset hello) with
    | None => (None, c)
    | Some _ =>
      let c := set_cookie_key (cookie_key r) (set_transient (generated r) c) in
      let state := peer_transient_ c ++ transient_secret_ c in
      let cookie := seal (cookie_nonce r) (cookie_key_ c) (make_long prefix_cookie (cookie_nonce r)) state in
      let plain := transient_public_ c ++ cookie in
      let out := name [] command_welcome ++ welcome_nonce r in
      let out := seal out shared (make_long prefix_welcome (welcome_nonce r)) plain in
      (if len out =? welcome_size then Some out else None, c)
    end
  end.

Definition initiate (r : random) (welcome metadata : bytes) (c : t) : option bytes * t :=
  match hello_box_ c with
  | None => (None, c)
  | Some hello_box =>
    if server_ c || negb (len welcome =? welcome_size) || negb (named welcome command_welcome) then (None, c) else
    let offset := 1 + len command_welcome in
    let welcome_nonce := ztake long_nonce_size (zdrop offset welcome) in
    match open hello_box (make_long prefix_welcome welcome_nonce) (zdrop (offset + long_nonce_size) welcome) with
    | None => (None, c)
    | Some plain =>
      let c := set_peer_transient (ztake key_size plain) c in
      let cookie := ztake cookie_size (zdrop key_size plain) in
      match derive (transient_secret_ c) (peer_transient_ c) with
      | None => (None, c)
      | Some session =>
        let c := set_session_box session c in
        match derive (secret_ c) (peer_transient_ c) with
        | None => (None, c)
        | Some vouching =>
          let c := set_vouch_box vouching c in
          let keys := transient_public_ c ++ peer_ c in
          let vouch := seal (vouch_nonce r) vouching (make_long prefix_vouch (vouch_nonce r)) keys in
          let content := public_ c ++ vouch ++ metadata in
          let out := name [] command_initiate ++ cookie ++ be_bytes 8 (nonce_ c) in
          let out := seal out session (make_short prefix_initiate (nonce_ c)) content in
          (Some out, next_nonce c)
        end
      end
    end
  end.

(** The handshake keys are no longer required. *)
Definition reset (c : t) : t := set_boxes None None (session_box_ c) (set_transient (zeros, transient_public_ c) c).

(** The ready command, and the metadata of the peer. *)
Definition ready (initiate metadata : bytes) (c : t) : option (bytes * bytes) * t :=
  if negb (server_ c) || (len initiate <? initiate_minimum) || negb (named initiate command_initiate) then (None, c) else
  let offset := 1 + len command_initiate in
  let cookie_nonce := ztake long_nonce_size (zdrop offset initiate) in
  match open (cookie_key_ c) (make_long prefix_cookie cookie_nonce)
    (ztake (cookie_size - long_nonce_size) (zdrop (offset + long_nonce_size) initiate)) with
  | None => (None, c)
  | Some state =>
    if negb (bool_decide (ztake (len (peer_transient_ c)) state = peer_transient_ c)) ||
       negb (bool_decide (ztake (len (transient_secret_ c)) (zdrop key_size state) = transient_secret_ c))
    then (None, c) else
    let offset := offset + cookie_size in
    let nonce := short_nonce_value initiate offset in
    let offset := offset + short_nonce_size in
    match derive (transient_secret_ c) (peer_transient_ c) with
    | None => (None, c)
    | Some session =>
      let c := set_session_box session c in
      let '(accepted, c) := accept nonce c in
      if negb accepted then (None, c) else
      match open session (make_short prefix_initiate nonce) (zdrop offset initiate) with
      | None => (None, c)
      | Some content =>
        if len content <? key_size + cookie_size then (None, c) else
        let c := set_peer (ztake key_size content) c in
        match derive (transient_secret_ c) (peer_ c) with
        | None => (None, c)
        | Some vouching =>
          let c := set_vouch_box vouching c in
          let vouch_nonce := ztake long_nonce_size (zdrop key_size content) in
          match open vouching (make_long prefix_vouch vouch_nonce)
            (ztake (cookie_size - long_nonce_size) (zdrop (key_size + long_nonce_size) content)) with
          | None => (None, c)
          | Some keys =>
            if negb (bool_decide (ztake (len (peer_transient_ c)) keys = peer_transient_ c)) ||
               negb (bool_decide (ztake (len (public_ c)) (zdrop key_size keys) = public_ c))
            then (None, c) else
            let peer_metadata := zdrop (key_size + cookie_size) content in
            let out := name [] command_ready ++ be_bytes 8 (nonce_ c) in
            let out := seal out session (make_short prefix_ready (nonce_ c)) metadata in
            (Some (out, peer_metadata), set_cookie_key zeros (reset (next_nonce c)))
          end
        end
      end
    end
  end.

Definition complete (ready : bytes) (c : t) : option bytes * t :=
  match session_box_ c with
  | None => (None, c)
  | Some session =>
    if server_ c || (len ready <? ready_minimum) || negb (named ready command_ready) then (None, c) else
    let offset := 1 + len command_ready in
    let nonce := short_nonce_value ready offset in
    let '(accepted, c) := accept nonce c in
    if negb accepted then (None, c) else
    match open session (make_short prefix_ready nonce) (zdrop (offset + short_nonce_size) ready) with
    | None => (None, c)
    | Some peer_metadata => (Some peer_metadata, reset c)
    end
  end.

(** ** Messages *)

Definition encode (flags : Z) (body : bytes) (c : t) : option bytes * t :=
  match session_box_ c with
  | None => (None, c)
  | Some session =>
    let out := name [] command_message ++ be_bytes 8 (nonce_ c) in
    let out := seal out session (make_short (if server_ c then prefix_server else prefix_client) (nonce_ c))
      (flags :: body) in
    (Some out, next_nonce c)
  end.

Definition decode (message : bytes) (c : t) : option (Z * bytes) * t :=
  match session_box_ c with
  | None => (None, c)
  | Some session =>
    if (len message <? message_minimum) || negb (named message command_message) then (None, c) else
    let offset := 1 + len command_message in
    let nonce := short_nonce_value message offset in
    let '(accepted, c) := accept nonce c in
    if negb accepted then (None, c) else
    match open session (make_short (if server_ c then prefix_client else prefix_server) nonce)
      (zdrop (offset + short_nonce_size) message) with
    | None => (None, c)
    | Some body => (Some (zget body 0, zdrop 1 body), c)
    end
  end.
End cipher.
End zmtp_cipher.
