(* ===== verification/ZmtpCurve.v ===== *)
(** * ZmtpCurve: the handshake and the messages of CurveZMQ

    Theorems on the mechanism of [ZmtpCipher]: a handshake of two ends
    completes and pairs them, a server accepts only a client that proves its
    key, messages round trip, and no message is accepted twice. *)

From S2P Require Import Prelude.
From S2P Require Import ZmtpCipher.

Module zmtp_curve.
Import zmtp_cipher.

(** The fields of a command. *)
Lemma slice (a b c : bytes) o n : len a = o -> len b = n -> ztake n (zdrop o (a ++ b ++ c)) = b.
Proof. intros Ha Hb. rewrite zdrop_app_len by done. by apply ztake_app_len. Qed.

Lemma slice_end (a b : bytes) o n : len a = o -> len b = n -> ztake n (zdrop o (a ++ b)) = b.
Proof. intros Ha Hb. rewrite <- (app_nil_r b) at 1. by apply slice. Qed.

Lemma named_name n rest : 0 < len rest -> named (name [] n ++ rest) n = true.
Proof.
  intros Hr. unfold named, name. cbn [app]. rewrite len_cons, len_app. pose proof (len_nonneg n).
  rewrite zget_cons_0, Z.eqb_refl.
  change (zdrop 1 (len n :: n ++ rest)) with (n ++ rest). rewrite ztake_app_len by done.
  rewrite bool_decide_true by done. destruct (_ >? _) eqn:Hg; [done | lia].
Qed.

Lemma short_nonce_read a n rest o : len a = o -> 0 <= n < 2 ^ 64 -> short_nonce_value (a ++ be_bytes 8 n ++ rest) o = n.
Proof.
  intros Ha Hn. unfold short_nonce_value, short_nonce_size. rewrite slice; [| done | by rewrite len_be_bytes].
  by apply be_value_bytes.
Qed.

Section curve.
Context `{Curve} `{!CurveLaws}.

Lemma open_seal key nonce plain : open key nonce (box_encrypt key plain nonce) = Some plain.
Proof.
  unfold open. rewrite len_box. pose proof (len_nonneg plain). destruct (_ <? _) eqn:Hl; [unfold tag_size in *; lia |].
  apply decrypt_encrypt.
Qed.

(** ** Each command *)

Lemma hello_spec r c shared : server_ c = false -> derive (generated r).1 (peer_ c) = Some shared ->
  len (generated r).2 = key_size ->
  hello r c = (Some ((name [] command_hello ++ [version_major; version_minor] ++ repeat 0 72 ++ (generated r).2 ++ be_bytes 8 (nonce_ c)) ++
    box_encrypt shared (repeat 0 64) (make_short prefix_hello (nonce_ c))),
    next_nonce (set_hello_box shared (set_transient (generated r) c))).
Proof.
  intros Hs Hd Hl. unfold hello. rewrite Hs. cbn [transient_secret_ transient_public_ peer_ nonce_ set_transient set_hello_box set_boxes]. rewrite Hd.
  unfold seal. match goal with |- context [if len ?l =? _ then _ else _] => assert (len l = hello_size) as -> end; [| done].
  rewrite !len_app, Hl, len_be_bytes, len_box. reflexivity.
Qed.

Lemma welcome_spec r c ptp n shared zs (box : bytes) : server_ c = true -> len ptp = key_size -> 0 <= n < 2 ^ 64 ->
  derive (secret_ c) ptp = Some shared -> peer_nonce_ c < n -> len box = 80 -> open shared (make_short prefix_hello n) box = Some zs ->
  len (generated r).1 = key_size -> len (generated r).2 = key_size -> len (cookie_nonce r) = long_nonce_size ->
  len (welcome_nonce r) = long_nonce_size ->
  welcome r ((name [] command_hello ++ [version_major; version_minor] ++ repeat 0 72 ++ ptp ++ be_bytes 8 n) ++ box) c =
    (Some ((name [] command_welcome ++ welcome_nonce r) ++ box_encrypt shared
      ((generated r).2 ++ cookie_nonce r ++ box_encrypt (cookie_key r) (ptp ++ (generated r).1) (make_long prefix_cookie (cookie_nonce r)))
      (make_long prefix_welcome (welcome_nonce r))),
     set_cookie_key (cookie_key r) (set_transient (generated r) (set_peer_nonce n (set_hello_box shared (set_peer_transient ptp c))))).
Proof.
  intros Hs Hp Hn Hd Hpn Hb Ho Hl1 Hl2 Hcn Hwn. rewrite <- app_assoc. unfold welcome. rewrite Hs. cbn [negb].
  set (head := name [] command_hello ++ [version_major; version_minor] ++ repeat 0 72).
  set (msg := (name [] command_hello ++ _)).
  assert (msg = head ++ ptp ++ be_bytes 8 n ++ box) as Hm by (subst msg head; by rewrite <- !app_assoc).
  assert (len head = 80) as Hh by reflexivity.
  assert (len msg = hello_size) as Hlm.
  { rewrite Hm, !len_app, Hp, len_be_bytes, Hb, Hh. reflexivity. }
  rewrite Hlm, Z.eqb_refl. cbn [negb orb].
  assert (named msg command_hello = true) as ->.
  { subst msg. apply named_name. rewrite !len_app. pose proof (len_nonneg box). pose proof (len_nonneg ptp). change (len [version_major; version_minor]) with 2.
    change (len (repeat 0 72)) with 72. rewrite len_be_bytes. lia. }
  cbn [negb]. change (zget msg (1 + len command_hello)) with version_major.
  change (zget msg (1 + (1 + len command_hello))) with version_minor. rewrite !Z.eqb_refl. cbn [negb orb].
  change (1 + len command_hello + 2 + hello_padding) with 80. rewrite Hm.
  rewrite (slice head ptp) by done.
  change (80 + key_size) with 112. change (112 + short_nonce_size) with 120.
  rewrite (app_assoc head), (short_nonce_read (head ++ ptp) n box 112); [| rewrite len_app, Hp, Hh; reflexivity | done].
  cbn [secret_ set_peer_transient peer_transient_]. rewrite Hd.
  assert (zdrop 120 ((head ++ ptp) ++ be_bytes 8 n ++ box) = box) as ->.
  { rewrite app_assoc. apply zdrop_app_len. rewrite !len_app, Hp, Hh, len_be_bytes. reflexivity. }
  unfold accept. cbn [peer_nonce_ set_hello_box set_boxes set_peer_transient].
  destruct (n <=? peer_nonce_ c) eqn:Hle; [lia |]. cbn [negb]. rewrite Ho.
  cbn [peer_transient_ transient_secret_ transient_public_ cookie_key_ set_cookie_key set_transient set_peer_nonce set_hello_box set_boxes set_peer_transient]. unfold seal.
  match goal with |- context [if len ?l =? _ then _ else _] => assert (len l = welcome_size) as -> end; [| done].
  rewrite !len_app, len_box, !len_app, len_box, len_app, Hwn, Hcn, Hl1, Hl2, Hp. reflexivity.
Qed.

Lemma initiate_spec r c shared session vouching stp cookie wn metadata : server_ c = false -> hello_box_ c = Some shared ->
  len stp = key_size -> len cookie = cookie_size -> len wn = long_nonce_size ->
  derive (transient_secret_ c) stp = Some session -> derive (secret_ c) stp = Some vouching ->
  initiate r ((name [] command_welcome ++ wn) ++ box_encrypt shared (stp ++ cookie) (make_long prefix_welcome wn)) metadata c =
    (Some ((name [] command_initiate ++ cookie ++ be_bytes 8 (nonce_ c)) ++ box_encrypt session
      (public_ c ++ (vouch_nonce r ++ box_encrypt vouching (transient_public_ c ++ peer_ c) (make_long prefix_vouch (vouch_nonce r))) ++ metadata)
      (make_short prefix_initiate (nonce_ c))),
     next_nonce (set_vouch_box vouching (set_session_box session (set_peer_transient stp c)))).
Proof.
  intros Hs Hh Hl Hc Hw Hse Hv. rewrite <- app_assoc. unfold initiate. rewrite Hh, Hs. cbn [orb].
  set (box := box_encrypt shared _ _). set (msg := name [] command_welcome ++ _).
  assert (len box = 144) as Hb by (subst box; rewrite len_box, len_app, Hl, Hc; reflexivity).
  assert (len msg = welcome_size) as -> by (subst msg; rewrite !len_app, Hw, Hb; reflexivity).
  assert (named msg command_welcome = true) as ->.
  { apply named_name. rewrite len_app, Hw, Hb. reflexivity. }
  rewrite Z.eqb_refl. cbn [negb orb]. unfold msg. rewrite (slice _ wn) by done.
  assert (zdrop (1 + len command_welcome + long_nonce_size) (name [] command_welcome ++ wn ++ box) = box) as ->.
  { rewrite app_assoc. apply zdrop_app_len. rewrite len_app, Hw. reflexivity. }
  subst box. rewrite open_seal. cbn [transient_secret_ peer_transient_ set_peer_transient].
  rewrite ztake_app_len, zdrop_app_len by done. rewrite Hse. cbn [secret_ peer_transient_ set_session_box set_boxes set_peer_transient].
  rewrite Hv. rewrite ztake_ge by lia. reflexivity.
Qed.

Lemma ready_spec c cn n session vouching cp vn metadata peer_metadata : server_ c = true ->
  len (peer_transient_ c) = key_size -> len (transient_secret_ c) = key_size -> len (public_ c) = key_size ->
  len cp = key_size -> len cn = long_nonce_size -> len vn = long_nonce_size -> 0 <= n < 2 ^ 64 -> peer_nonce_ c < n ->
  derive (transient_secret_ c) (peer_transient_ c) = Some session -> derive (transient_secret_ c) cp = Some vouching ->
  let cookie := cn ++ box_encrypt (cookie_key_ c) (peer_transient_ c ++ transient_secret_ c) (make_long prefix_cookie cn) in
  let vouch := vn ++ box_encrypt vouching (peer_transient_ c ++ public_ c) (make_long prefix_vouch vn) in
  ready ((name [] command_initiate ++ cookie ++ be_bytes 8 n) ++
      box_encrypt session (cp ++ vouch ++ peer_metadata) (make_short prefix_initiate n)) metadata c =
    (Some ((name [] command_ready ++ be_bytes 8 (nonce_ c)) ++ box_encrypt session metadata (make_short prefix_ready (nonce_ c)), peer_metadata),
     set_cookie_key zeros (reset (next_nonce (set_vouch_box vouching (set_peer cp (set_peer_nonce n (set_session_box session c))))))).
Proof.
  intros Hs Hpt Hts Hpu Hcp Hcn Hvn Hn Hpn Hse Hv cookie vouch.
  set (box := box_encrypt session _ _). set (cbox := box_encrypt (cookie_key_ c) _ _) in cookie. set (vbox := box_encrypt vouching _ _) in vouch.
  assert (len cbox = 80) as Hcb by (subst cbox; rewrite len_box, len_app, Hpt, Hts; reflexivity).
  assert (len vbox = 80) as Hvb by (subst vbox; rewrite len_box, len_app, Hpt, Hpu; reflexivity).
  assert (len cookie = cookie_size) as Hck by (subst cookie; rewrite len_app, Hcn, Hcb; reflexivity).
  assert (len vouch = cookie_size) as Hvk by (subst vouch; rewrite len_app, Hvn, Hvb; reflexivity).
  assert (144 <= len box) as Hbox.
  { subst box. rewrite len_box, !len_app, Hcp, Hvk. pose proof (len_nonneg peer_metadata). unfold key_size, cookie_size, tag_size, long_nonce_size, nonce_size, short_nonce_size, key_size. lia. }
  set (msg := (name [] command_initiate ++ cookie ++ be_bytes 8 n) ++ box).
  assert (msg = name [] command_initiate ++ cn ++ cbox ++ be_bytes 8 n ++ box) as Hm by (subst msg cookie; by rewrite <- !app_assoc).
  assert (msg = (name [] command_initiate ++ cookie) ++ be_bytes 8 n ++ box) as Hm2 by (subst msg; by rewrite <- !app_assoc).
  unfold ready. rewrite Hs. cbn [negb].
  assert (len msg <? initiate_minimum = false) as ->.
  { rewrite Hm2, !len_app, Hck, len_be_bytes. change (len (name [] command_initiate)) with 9. apply Z.ltb_ge.
    unfold initiate_minimum, cookie_size, tag_size, long_nonce_size, nonce_size, short_nonce_size, key_size. lia. }
  assert (named msg command_initiate = true) as ->.
  { rewrite Hm. apply named_name. rewrite !len_app, Hcn, Hcb, len_be_bytes. change long_nonce_size with 16. lia. }
  cbn [negb orb]. rewrite Hm at 1 2.
  rewrite (slice _ cn) by done. rewrite (app_assoc _ cn), (slice (_ ++ cn) cbox); [| by rewrite len_app, Hcn | by rewrite Hcb].
  subst cbox. rewrite open_seal, ztake_app_len, zdrop_app_len by done. rewrite ztake_ge by lia.
  rewrite !bool_decide_true by done. cbn [negb orb]. rewrite Hse, Hm2.
  rewrite short_nonce_read; [| by rewrite len_app, Hck | done].
  assert (zdrop (1 + len command_initiate + cookie_size + short_nonce_size) ((name [] command_initiate ++ cookie) ++ be_bytes 8 n ++ box) = box) as ->.
  { rewrite app_assoc. apply zdrop_app_len. rewrite !len_app, Hck, len_be_bytes. reflexivity. }
  unfold accept. cbn [peer_nonce_ set_session_box set_boxes]. destruct (n <=? peer_nonce_ c) eqn:Hle; [lia |]. cbn [negb].
  subst box. rewrite open_seal. rewrite !len_app, Hcp, Hvk. pose proof (len_nonneg peer_metadata).
  destruct (_ <? _) eqn:Hlc; [lia |]. rewrite ztake_app_len by done.
  cbn [transient_secret_ peer_ set_peer set_peer_nonce set_session_box set_boxes]. rewrite Hv. subst vouch. rewrite <- app_assoc.
  rewrite (slice cp vn) by done. rewrite (app_assoc cp), (slice (cp ++ vn) vbox); [| by rewrite len_app, Hcp, Hvn | by rewrite Hvb].
  subst vbox. rewrite open_seal. cbn [peer_transient_ public_ set_vouch_box set_peer set_peer_nonce set_session_box set_boxes].
  rewrite ztake_app_len, zdrop_app_len by done. rewrite (ztake_ge (len (public_ c))) by lia. rewrite !bool_decide_true by done. cbn [negb orb].
  do 3 f_equal. rewrite app_assoc. apply zdrop_app_len. rewrite !len_app, Hcp, Hvn, Hvb. reflexivity.
Qed.

Lemma complete_spec c n session metadata : server_ c = false -> session_box_ c = Some session -> 0 <= n < 2 ^ 64 -> peer_nonce_ c < n ->
  complete ((name [] command_ready ++ be_bytes 8 n) ++ box_encrypt session metadata (make_short prefix_ready n)) c =
    (Some metadata, reset (set_peer_nonce n c)).
Proof.
  intros Hs Hb Hn Hp. rewrite <- app_assoc. unfold complete. rewrite Hb, Hs. cbn [orb].
  set (box := box_encrypt session _ _). set (msg := name [] command_ready ++ _).
  assert (16 <= len box) as Hlb by (subst box; rewrite len_box; pose proof (len_nonneg metadata); unfold tag_size; lia).
  assert (len msg <? ready_minimum = false) as ->.
  { subst msg. rewrite !len_app, len_be_bytes. change (len (name [] command_ready)) with 6. apply Z.ltb_ge. unfold ready_minimum. lia. }
  assert (named msg command_ready = true) as ->.
  { apply named_name. rewrite len_app, len_be_bytes. lia. }
  cbn [negb orb]. unfold msg. rewrite short_nonce_read by done.
  assert (zdrop (1 + len command_ready + short_nonce_size) (name [] command_ready ++ be_bytes 8 n ++ box) = box) as ->.
  { rewrite app_assoc. apply zdrop_app_len. rewrite len_app, len_be_bytes. reflexivity. }
  unfold accept. destruct (n <=? peer_nonce_ c) eqn:Hle; [lia |]. cbn [negb]. subst box. by rewrite open_seal.
Qed.

(** ** The handshake *)

(** Two ends hold the same session, and each accepts what the other sends next. *)
Definition paired (a b : t) : Prop :=
  server_ a = negb (server_ b) /\ (exists session, session_box_ a = Some session /\ session_box_ b = Some session) /\
  0 <= peer_nonce_ b < nonce_ a /\ 0 <= peer_nonce_ a < nonce_ b.

Definition random_ok (r : random) : Prop :=
  multiply_base (generated r).1 = Some (generated r).2 /\ len (cookie_nonce r) = long_nonce_size /\
  len (welcome_nonce r) = long_nonce_size /\ len (vouch_nonce r) = long_nonce_size.

Lemma derive_agrees a pa b pb : multiply_base a = Some pa -> multiply_base b = Some pb ->
  exists shared, derive a pb = Some shared /\ derive b pa = Some shared.
Proof.
  intros Ha Hb. destruct (multiply_agrees a pa b pb Ha Hb) as (point & H1 & H2). unfold derive. rewrite H1, H2. by eexists.
Qed.

(** With the keypairs of a client and of a server, and whatever both draw, the
    four commands of the handshake are each accepted: each end has the metadata
    of the other, the server has the key of the client, and the ends are
    paired. *)
Lemma curve_handshake rc rs client_secret client_public server_secret server_public client_data server_data :
  multiply_base client_secret = Some client_public -> multiply_base server_secret = Some server_public ->
  random_ok rc -> random_ok rs ->
  exists m1 m2 m3 m4 c1 c2 c3 s1 s2,
    hello rc (make_client client_secret client_public server_public) = (Some m1, c1) /\
    welcome rs m1 (make_server server_secret server_public) = (Some m2, s1) /\
    initiate rc m2 client_data c1 = (Some m3, c2) /\
    ready m3 server_data s1 = (Some (m4, client_data), s2) /\
    complete m4 c2 = (Some server_data, c3) /\
    peer_ s2 = client_public /\ paired c3 s2 /\ len m3 = initiate_minimum + len client_data.
Proof.
  intros Hc Hs (Hrc & _ & _ & Hvn) (Hrs & Hcn & Hwn & _).
  destruct (derive_agrees _ _ _ _ Hrc Hs) as (k1 & Hk1 & Hk1').
  destruct (derive_agrees _ _ _ _ Hrc Hrs) as (k2 & Hk2 & Hk2').
  destruct (derive_agrees _ _ _ _ Hc Hrs) as (k3 & Hk3 & Hk3').
  destruct (len_multiply_base _ _ Hrc) as [Hct Hcp]. destruct (len_multiply_base _ _ Hrs) as [Hst Hsp].
  destruct (len_multiply_base _ _ Hc) as [_ Hcl]. destruct (len_multiply_base _ _ Hs) as [_ Hsl].
  set (c0 := make_client client_secret client_public server_public).
  set (s0 := make_server server_secret server_public).
  pose proof (hello_spec rc c0 k1 eq_refl Hk1 Hcp) as H1.
  set (c1 := next_nonce _) in H1.
  pose proof (welcome_spec rs s0 (generated rc).2 1 k1 (repeat 0 64) (box_encrypt k1 (repeat 0 64) (make_short prefix_hello 1))
    eq_refl Hcp) as H2.
  specialize (H2 ltac:(lia) Hk1' ltac:(done)). rewrite len_box, open_seal in H2. specialize (H2 eq_refl eq_refl Hst Hsp Hcn Hwn).
  set (cookie := cookie_nonce rs ++ _) in H2. set (s1 := set_cookie_key _ _) in H2.
  assert (len cookie = cookie_size) as Hck.
  { subst cookie. rewrite len_app, len_box, len_app, Hcn, Hcp, Hst. reflexivity. }
  pose proof (initiate_spec rc c1 k1 k2 k3 (generated rs).2 cookie (welcome_nonce rs) client_data eq_refl eq_refl Hsp Hck Hwn Hk2 Hk3) as H3.
  set (c2 := next_nonce _) in H3.
  pose proof (ready_spec s1 (cookie_nonce rs) 2 k2 k3 client_public (vouch_nonce rc) server_data client_data eq_refl Hcp Hst Hsl Hcl Hcn Hvn) as H4.
  specialize (H4 ltac:(lia) ltac:(done) Hk2' Hk3'). set (s2 := set_cookie_key _ _) in H4.
  pose proof (complete_spec c2 1 k2 server_data eq_refl eq_refl ltac:(lia) ltac:(done)) as H5.
  eexists _, _, _, _, c1, c2, _, s1, s2.
  split; [exact H1 |]. split; [exact H2 |]. split; [exact H3 |]. split; [exact H4 |]. split; [exact H5 |].
  split; [done |]. split; [split; [done |]; split; [by exists k2 | by split] |].
  change (transient_public_ c1) with (generated rc).2. change (public_ c1) with client_public.
  rewrite !len_app, len_be_bytes, len_box, !len_app, len_box, len_app, Hck, Hcp, Hcl, Hvn. change (len (peer_ c1)) with (len server_public).
  rewrite Hsl. change (len (name [] command_initiate)) with 9.
  unfold initiate_minimum, key_size, cookie_size, tag_size, long_nonce_size, nonce_size, short_nonce_size, key_size. lia.
Qed.

(** ** What a server accepts *)

(** A client vouches for its transient key with its own key. *)
Definition vouched (client server transient_client transient_secret vouch_nonce vouch : bytes) : Prop :=
  exists key keys, derive transient_secret client = Some key /\ open key (make_long prefix_vouch vouch_nonce) vouch = Some keys /\
    ztake (len transient_client) keys = transient_client /\ ztake (len server) (zdrop key_size keys) = server.

(** A text is cut into fields of these sizes, and what follows them. *)
Fixpoint cut (sizes : list Z) (l : bytes) : list bytes := match sizes with [] => [l] | n :: sizes => ztake n l :: cut sizes (zdrop n l) end.

Lemma concat_cut sizes l : concat (cut sizes l) = l.
Proof. revert l. induction sizes as [| n sizes IH]; intros l; cbn [cut concat]; [apply app_nil_r | by rewrite IH, ztake_zdrop]. Qed.

Lemma named_split body n : named body n = true -> body = name [] n ++ zdrop (1 + len n) body.
Proof.
  unfold named, name. cbn [app]. intros [[Hg Hh]%andb_true_iff Hn%bool_decide_eq_true_1]%andb_true_iff. apply Z.eqb_eq in Hh. pose proof (len_nonneg n).
  destruct body as [| x body]; [rewrite len_nil in Hg; lia |].
  rewrite zget_cons_0 in Hh. subst x. change (zdrop 1 (len n :: body)) with body in Hn. f_equal.
  replace (zdrop (1 + len n) (len n :: body)) with (zdrop (len n) body); [rewrite <- Hn at 1; symmetry; apply ztake_zdrop |].
  unfold zdrop. by replace (Z.to_nat (1 + len n)) with (S (Z.to_nat (len n))) by lia.
Qed.

Lemma len_slice (l : bytes) o n : 0 <= o -> 0 <= n -> o + n <= len l -> len (ztake n (zdrop o l)) = n.
Proof. intros Ho Hn Hl. rewrite len_ztake by done. rewrite len_zdrop by lia. lia. Qed.

(** What an initiate command that is accepted holds, in its own bytes: the
    cookie and the box, and in the box the key of the client, its vouch and its
    metadata. *)
Record authentic (initiate metadata : bytes) (c c' : t) (peer_metadata cookie_nonce cookie nonce box vouch_nonce vouch state session : bytes) : Prop := {
  authentic_command : initiate = name [] command_initiate ++ cookie_nonce ++ cookie ++ nonce ++ box;
  authentic_sizes : len cookie_nonce = long_nonce_size /\ len cookie = cookie_size - long_nonce_size /\ len nonce = short_nonce_size /\
    len (peer_ c') = key_size /\ len vouch_nonce = long_nonce_size /\ len vouch = cookie_size - long_nonce_size;
  authentic_cookie : open (cookie_key_ c) (make_long prefix_cookie cookie_nonce) cookie = Some state;
  authentic_state : ztake (len (peer_transient_ c)) state = peer_transient_ c /\ ztake (len (transient_secret_ c)) (zdrop key_size state) = transient_secret_ c;
  authentic_session : derive (transient_secret_ c) (peer_transient_ c) = Some session /\ session_box_ c' = Some session;
  authentic_nonce : peer_nonce_ c < be_value nonce /\ peer_nonce_ c' = be_value nonce;
  authentic_box : open session (make_short prefix_initiate (be_value nonce)) box = Some (peer_ c' ++ vouch_nonce ++ vouch ++ peer_metadata);
  authentic_vouch : vouched (peer_ c') (public_ c) (peer_transient_ c) (transient_secret_ c) vouch_nonce vouch
}.

(** C14: curve authentication.  Of a server whose handshake succeeds, the initiate
    command has, at their places in its bytes: a cookie that opens under the own
    cookie key of the server to the transient keys of this connection; and a box
    that opens under the session of these keys, with a nonce later than any
    accepted before, to the key of the client that it reports, a vouch, which
    opens under that key to the transient key of the client and the key of the
    server, and the metadata that it reports.  The ready command that it answers
    with is sealed under that session. *)
Theorem curve_ready_authentic initiate metadata c out peer_metadata c' :
  ready initiate metadata c = (Some (out, peer_metadata), c') ->
  exists cookie_nonce cookie nonce box vouch_nonce vouch state session,
    authentic initiate metadata c c' peer_metadata cookie_nonce cookie nonce box vouch_nonce vouch state session /\
    out = (name [] command_ready ++ be_bytes 8 (nonce_ c)) ++ box_encrypt session metadata (make_short prefix_ready (nonce_ c)).
Proof.
  unfold ready. destruct (negb (server_ c) || _ || _) eqn:Hguard; [done |]. apply orb_false_iff in Hguard as [[_ Hsize]%orb_false_iff Hnamed].
  apply Z.ltb_ge in Hsize. apply negb_false_iff in Hnamed. pose proof (named_split _ _ Hnamed) as Hcommand.
  destruct (open (cookie_key_ c) _ _) as [state |] eqn:Hcookie; [| done].
  destruct (negb (bool_decide (ztake (len (peer_transient_ c)) state = _)) || _) eqn:Hst; [done |].
  apply orb_false_iff in Hst as [Hst1 Hst2]. rewrite negb_false_iff, bool_decide_eq_true in Hst1, Hst2.
  destruct (derive (transient_secret_ c) (peer_transient_ c)) as [session |] eqn:Hse; [| done].
  unfold accept. cbn [peer_nonce_ set_session_box set_boxes].
  destruct (_ <=? peer_nonce_ c) eqn:Hn; [done |]. cbn [negb].
  destruct (open session _ _) as [content |] eqn:Hbox; [| done].
  destruct (len content <? _) eqn:Hlen; [done |]. apply Z.ltb_ge in Hlen.
  cbn [transient_secret_ peer_transient_ public_ peer_ set_peer set_peer_nonce set_session_box set_vouch_box set_boxes].
  destruct (derive (transient_secret_ c) (ztake key_size content)) as [vouching |] eqn:Hv; [| done].
  destruct (open vouching _ _) as [keys |] eqn:Hkeys; [| done].
  destruct (negb (bool_decide (ztake (len (peer_transient_ c)) keys = _)) || _) eqn:Hks; [done |].
  apply orb_false_iff in Hks as [Hk1 Hk2]. rewrite negb_false_iff, bool_decide_eq_true in Hk1, Hk2.
  intros [= <- <- <-].
  pose proof (concat_cut [long_nonce_size; cookie_size - long_nonce_size; short_nonce_size] (zdrop (1 + len command_initiate) initiate)) as Hcut1.
  pose proof (concat_cut [key_size; long_nonce_size; cookie_size - long_nonce_size] content) as Hcut2. cbn [cut concat] in Hcut1, Hcut2. rewrite app_nil_r in Hcut1, Hcut2.
  change (1 + len command_initiate) with 9 in *. rewrite !zdrop_zdrop in Hcut1, Hcut2 by done. unfold initiate_minimum, cookie_size, key_size, long_nonce_size, nonce_size, tag_size, short_nonce_size in *. cbn in Hsize, Hlen, Hcut1, Hcut2. rewrite !zdrop_zdrop in Hcut1 by lia.
  exists (ztake 16 (zdrop 9 initiate)), (ztake 80 (zdrop 25 initiate)), (ztake 8 (zdrop 105 initiate)), (zdrop 113 initiate), (ztake 16 (zdrop 32 content)), (ztake 80 (zdrop 48 content)), state, session.
  split; [| reflexivity]. split.
  - rewrite Hcommand at 1. f_equal. symmetry. exact Hcut1.
  - unfold cookie_size, long_nonce_size, nonce_size, key_size, tag_size, short_nonce_size. split_and!; [| | | change (len (ztake 32 (zdrop 0 content)) = 32) | |]; apply len_slice; lia.
  - exact Hcookie.
  - done.
  - done.
  - split; [by apply Z.leb_gt | done].
  - etrans; [exact Hbox |]. f_equal. symmetry. exact Hcut2.
  - by exists vouching, keys.
Qed.

(** ** Messages *)

Lemma encode_spec flags body c session : session_box_ c = Some session ->
  encode flags body c = (Some ((name [] command_message ++ be_bytes 8 (nonce_ c)) ++
    box_encrypt session (flags :: body) (make_short (if server_ c then prefix_server else prefix_client) (nonce_ c))), next_nonce c).
Proof. intros Hs. unfold encode. by rewrite Hs. Qed.

Lemma decode_spec flags body c session n : session_box_ c = Some session -> 0 <= n < 2 ^ 64 -> peer_nonce_ c < n ->
  decode ((name [] command_message ++ be_bytes 8 n) ++
    box_encrypt session (flags :: body) (make_short (if server_ c then prefix_client else prefix_server) n)) c =
  (Some (flags, body), set_peer_nonce n c).
Proof.
  intros Hs Hn Hp. rewrite <- app_assoc. unfold decode. rewrite Hs. set (box := box_encrypt session _ _). set (msg := name [] command_message ++ _).
  assert (17 <= len box) as Hlb by (subst box; rewrite len_box, len_cons; pose proof (len_nonneg body); unfold tag_size; lia).
  assert (len msg <? message_minimum = false) as ->.
  { subst msg. rewrite !len_app, len_be_bytes. change (len (name [] command_message)) with 8. apply Z.ltb_ge. unfold message_minimum. lia. }
  assert (named msg command_message = true) as -> by (apply named_name; rewrite len_app, len_be_bytes; lia).
  cbn [negb orb]. unfold msg. rewrite short_nonce_read by done.
  assert (zdrop (1 + len command_message + short_nonce_size) (name [] command_message ++ be_bytes 8 n ++ box) = box) as ->.
  { rewrite app_assoc. apply zdrop_app_len. rewrite len_app, len_be_bytes. reflexivity. }
  unfold accept. destruct (n <=? peer_nonce_ c) eqn:Hle; [lia |]. cbn [negb server_ set_peer_nonce]. subst box. by rewrite open_seal.
Qed.

(** Messages in order, each with its flags, while the nonce does not wrap. *)
Fixpoint encode_all (l : list (Z * bytes)) (c : t) : list bytes * t :=
  match l with
  | [] => ([], c)
  | (flags, body) :: l =>
    let '(m, c) := encode flags body c in
    let '(ms, c) := encode_all l c in
    (default [] m :: ms, c)
  end.

Fixpoint decode_all (l : list bytes) (c : t) : list (option (Z * bytes)) * t :=
  match l with
  | [] => ([], c)
  | m :: l =>
    let '(r, c) := decode m c in
    let '(rs, c) := decode_all l c in
    (r :: rs, c)
  end.

(** Curve messages.  What one end of a session boxes, the other unboxes, in
    order and in both directions, until 2^64 commands have been sent. *)
Theorem curve_messages_round_trip l a b : paired a b -> nonce_ a + len l < 2 ^ 64 ->
  let '(ms, a') := encode_all l a in
  let '(rs, b') := decode_all ms b in
  rs = map Some l /\ paired a' b'.
Proof.
  revert a b. induction l as [| [flags body] l IH]; intros a b Hp Hn; cbn [encode_all decode_all map]; [done |].
  rewrite len_cons in Hn. pose proof (len_nonneg l). destruct Hp as (Hsv & (session & Ha & Hb) & Hab & Hba).
  rewrite (encode_spec flags body a session Ha). destruct (encode_all l (next_nonce a)) as [ms a'] eqn:Hms. cbn [from_option id decode_all].
  assert ((if server_ a then prefix_server else prefix_client) = (if server_ b then prefix_client else prefix_server)) as ->
    by (rewrite Hsv; by destruct (server_ b)).
  rewrite (decode_spec flags body b session (nonce_ a) Hb) by lia.
  destruct (decode_all ms (set_peer_nonce (nonce_ a) b)) as [rs b'] eqn:Hrs.
  assert (narrow 64 (nonce_ a + 1) = nonce_ a + 1) as Hna by (unfold narrow; apply Z.mod_small; lia).
  specialize (IH (next_nonce a) (set_peer_nonce (nonce_ a) b)). rewrite Hms, Hrs in IH.
  destruct IH as [Heq Hp']; [| cbn; rewrite Hna; lia | split; [by rewrite Heq | done]].
  split; [done |]. split; [by exists session |]. cbn. rewrite Hna. lia.
Qed.

(** The nonce of a message that is accepted is later than any before it. *)
Lemma decode_nonce m c r c' : decode m c = (Some r, c') ->
  peer_nonce_ c' = short_nonce_value m 8 /\ peer_nonce_ c < peer_nonce_ c'.
Proof.
  unfold decode. destruct (session_box_ c); [| done]. destruct (_ || _); [done |].
  unfold accept. change (1 + len command_message) with 8. destruct (_ <=? _) eqn:Hle; [done |]. cbn [negb].
  destruct (open _ _ _); [| done]. intros [= <- <-]. cbn [peer_nonce_ set_peer_nonce]. split; [done | lia].
Qed.

Lemma decode_nonce_le m c r c' : decode m c = (r, c') -> peer_nonce_ c <= peer_nonce_ c'.
Proof.
  unfold decode. destruct (session_box_ c); [| intros [= <- <-]; lia]. destruct (_ || _); [intros [= <- <-]; lia |].
  unfold accept. destruct (_ <=? _) eqn:Hle; [intros [= <- <-]; lia |]. cbn [negb].
  destruct (open _ _ _); intros [= <- <-]; cbn [peer_nonce_ set_peer_nonce]; lia.
Qed.

Lemma decode_all_after l m : forall c, short_nonce_value m 8 <= peer_nonce_ c ->
  forall i, l !! i = Some m -> (decode_all l c).1 !! i = Some None.
Proof.
  induction l as [| k l IH]; intros c Hc i Hi; [done |]. cbn [decode_all].
  destruct (decode k c) as [r c1] eqn:Hd. destruct (decode_all l c1) as [rs c2] eqn:Hr.
  destruct i as [| i]; simpl in *.
  - injection Hi as ->. destruct r as [r |]; [| done]. apply decode_nonce in Hd. lia.
  - specialize (IH c1). rewrite Hr in IH. apply IH; [| done]. apply decode_nonce_le in Hd. lia.
Qed.

(** Curve replay.  Whatever is received in a session, a message is accepted
    at most once: wherever it occurs again, it is refused. *)
Theorem curve_no_replay l c i j m : l !! i = Some m -> l !! j = Some m -> (i < j)%nat ->
  (exists r, (decode_all l c).1 !! i = Some (Some r)) -> (decode_all l c).1 !! j = Some None.
Proof.
  revert c i j. induction l as [| k l IH]; intros c i j Hi Hj Hij [r Hr]; [done |]. cbn [decode_all] in *.
  destruct (decode k c) as [r1 c1] eqn:Hd. destruct (decode_all l c1) as [rs c2] eqn:Hrs.
  destruct j as [| j]; [lia |]. simpl in Hj |- *. destruct i as [| i]; simpl in Hi, Hr.
  - injection Hi as ->. injection Hr as ->. apply decode_nonce in Hd.
    pose proof (decode_all_after l m c1 ltac:(lia) j Hj) as Ha. by rewrite Hrs in Ha.
  - pose proof (IH c1 i j Hi Hj ltac:(lia)) as Ha. rewrite Hrs in Ha. apply Ha. by exists r.
Qed.
End curve.

(** ** A sample of the parameters *)

(** A point is a sum, and a box a tag of its key and nonce before its plain text. *)
Definition sum (l : bytes) : Z := fold_right Z.add 0 l.

#[global] Instance sample_curve : Curve := {|
  multiply a p := Some (map (fun '(x, y) => x + y) (zip a p));
  multiply_base a := if len a =? key_size then Some a else None;
  hsalsa20 point := point;
  box_encrypt key plain nonce := repeat (sum key + sum nonce + sum plain) 16 ++ plain;
  box_decrypt key nonce cipher :=
    if bool_decide (ztake 16 cipher = repeat (sum key + sum nonce + sum (zdrop 16 cipher)) 16) then Some (zdrop 16 cipher) else None
|}.

#[global] Instance sample_curve_laws : CurveLaws.
Proof.
  split; cbn [multiply multiply_base hsalsa20 box_encrypt box_decrypt sample_curve].
  - intros a pa b pb Ha Hb. destruct (len a =? key_size), (len b =? key_size); try done. injection Ha as <-. injection Hb as <-.
    eexists. split; [done |]. f_equal. revert b. induction a as [| x a IH]; intros [| y b]; simpl; try done. rewrite IH. f_equal. lia.
  - intros a pa. destruct (len a =? key_size) eqn:Hl; [| done]. intros [= <-]. lia.
  - intros key plain nonce. rewrite zdrop_app_len, ztake_app_len by done. by rewrite bool_decide_true.
  - intros key plain nonce. rewrite len_app. change (len (repeat _ 16)) with 16. unfold tag_size. lia.
Qed.

Definition sample_random (b : Z) : random := mk_random (repeat b 32, repeat b 32) (repeat 3 32) (repeat 4 16) (repeat 5 16) (repeat 6 16).


Definition sample_end (server : bool) (nonce peer : Z) : t :=
  mk server [] [] [] [] [] [] [] nonce peer None None (Some [1; 2; 3]).

Lemma curve_messages_round_trip_witness :
  let '(ms, a') := encode_all [(1, chars "ab"); (0, [])] (sample_end true 5 7) in
  let '(rs, b') := decode_all ms (sample_end false 8 4) in
  rs = map Some [(1, chars "ab"); (0, [])] /\ paired a' b'.
Proof.
  apply (curve_messages_round_trip [(1, chars "ab"); (0, [])] (sample_end true 5 7) (sample_end false 8 4)).
  - split; [done |]. split; [by exists [1; 2; 3] |]. cbn. lia.
  - done.
Defined.

Definition sample_message : bytes := default [] (encode 0 (chars "once") (sample_end true 5 7)).1.

Lemma curve_no_replay_witness :
  (decode_all [sample_message; sample_message] (sample_end false 8 4)).1 !! 1%nat = Some None.
Proof.
  apply (curve_no_replay [sample_message; sample_message] (sample_end false 8 4) 0 1 sample_message); [done | done | lia |].
  eexists. vm_compute. reflexivity.
Defined.

Definition sample_handshake : bytes * t :=
  let m1 := (hello (sample_random 1) (make_client (repeat 7 32) (repeat 7 32) (repeat 8 32))) in
  let m2 := welcome (sample_random 2) (default [] m1.1) (make_server (repeat 8 32) (repeat 8 32)) in
  let m3 := initiate (sample_random 1) (default [] m2.1) (chars "client") m1.2 in
  (default [] m3.1, m2.2).

Lemma curve_ready_authentic_witness :
  let c := sample_handshake.2 in
  let r := ready sample_handshake.1 (chars "server") c in
  let out := match r.1 with Some (out, _) => out | None => [] end in
  exists cookie_nonce cookie nonce box vouch_nonce vouch state session,
    authentic sample_handshake.1 (chars "server") c r.2 (chars "client") cookie_nonce cookie nonce box vouch_nonce vouch state session /\
    out = (name [] command_ready ++ be_bytes 8 (nonce_ c)) ++ box_encrypt session (chars "server") (make_short prefix_ready (nonce_ c)).
Proof.
  intros c r out. apply (curve_ready_authentic sample_handshake.1 (chars "server") c out (chars "client") r.2).
  unfold out, r, c. vm_compute. reflexivity.
Defined.
End zmtp_curve.
