(* ===== verification/ZmtpCodec.v ===== *)
(** * ZmtpCodec: the greeting, the frames and the metadata of ZMTP

    Models the static codec of [src/zmtp/stream.cpp], the roles of
    [include/bitcoin/network/zmtp/role.hpp] and the context of
    [src/zmtp/context.cpp].  A span that a function advances is a result. *)

From S2P Require Import Prelude.
From S2P Require Import ZmtpCipher.

Module zmtp_codec.

Inductive role := undefined | publisher | puller | replier | router.

Definition socket_type (value : role) : bytes :=
  match value with
  | publisher => chars "PUB" | puller => chars "PULL" | replier => chars "REP" | router => chars "ROUTER"
  | undefined => []
  end.

Definition is_text (l : bytes) (s : string) : bool := bool_decide (l = chars s).

Definition compatible (value : role) (peer : bytes) : bool :=
  match value with
  | publisher => is_text peer "SUB" || is_text peer "XSUB"
  | puller => is_text peer "PUSH"
  | replier => is_text peer "REQ" || is_text peer "DEALER"
  | router => is_text peer "REQ" || is_text peer "DEALER" || is_text peer "ROUTER"
  | undefined => false
  end.

(** ** Context *)

Record context := mk_context { curve_ : bool; secret_ : bytes; public_ : bytes; clients_ : list bytes }.

Section context.
Context `{Curve}.

Definition null_context : context := mk_context false (repeat 0 32) (repeat 0 32) [].

(** The clients that precede one of the wrong size are kept by the context. *)
Fixpoint copy_clients (clients : list bytes) : bool * list bytes :=
  match clients with
  | [] => (true, [])
  | k :: rest =>
    if negb (len k =? zmtp_cipher.key_size) then (false, []) else
    let '(ok, keys) := copy_clients rest in (ok, k :: keys)
  end.

Definition make_context (secret : bytes) (clients : list bytes) : context :=
  if negb (len secret =? zmtp_cipher.key_size) then null_context else
  let '(ok, keys) := copy_clients clients in
  if negb ok then mk_context false (repeat 0 32) (repeat 0 32) keys else
  match zmtp_cipher.to_public secret with
  | Some public_key => mk_context true secret public_key keys
  | None => mk_context false secret (repeat 0 32) keys
  end.
End context.

Definition is_empty {A} (l : list A) : bool := match l with [] => true | _ => false end.

Definition authorized (client : bytes) (c : context) : bool :=
  is_empty (clients_ c) || existsb (fun k => bool_decide (k = client)) (clients_ c).

(** ** Frames *)

Definition flag_more : Z := 0x01.
Definition flag_long : Z := 0x02.
Definition flag_command : Z := 0x04.

Record frame := mk_frame { flags : Z; body : bytes }.

Definition has (flag value : Z) : bool := negb (Z.land value flag =? 0).

Definition command (f : frame) : bool := has flag_command (flags f).
Definition more (f : frame) : bool := has flag_more (flags f).

Definition frame_size (body : Z) : Z := 1 + (if body >? 0xff then 8 else 1) + body.

Definition write_frame_head (body : Z) (command more : bool) : bytes :=
  let flags := Z.lor (if command then flag_command else 0) (if more then flag_more else 0) in
  if body >? 0xff then Z.lor flags flag_long :: be_bytes 8 body else [flags; narrow 8 body].

Definition frame_encode (body : bytes) (command more : bool) : bytes := write_frame_head (len body) command more ++ body.

(** A frame at the front of a buffer, and the remainder. *)
Definition frame_decode (buffer : bytes) : option (frame * bytes) :=
  match buffer with
  | [] => None
  | flags :: buffer =>
    let take length buffer :=
      if len buffer <? length then None else Some (mk_frame flags (ztake length buffer), zdrop length buffer) in
    if has flag_long flags then
      if len buffer <? 8 then None else take (be_value (ztake 8 buffer)) (zdrop 8 buffer)
    else
      match buffer with [] => None | length :: buffer => take length buffer end
  end.

(** One message: every part but the last is followed by another. *)
Fixpoint frame_message (parts : list bytes) : bytes :=
  match parts with
  | [] => []
  | p :: rest => frame_encode p false (negb (is_empty rest)) ++ frame_message rest
  end.

(** ** Greeting *)

Definition greeting_size : Z := 64.
Definition signature_size : Z := 10.
Definition greeting_stage1 : Z := signature_size + 1.
Definition greeting_stage2 : Z := greeting_size - greeting_stage1.
Definition revision_major : Z := 3.
Definition revision_minor : Z := 1.
Definition mechanism_size : Z := 20.
Definition maximum_inbound : Z := 8192.
Definition maximum_ping_context : Z := 16.
Definition maximum_parts : Z := 32.

Definition mechanism_null : bytes := chars "NULL".
Definition mechanism_curve : bytes := chars "CURVE".

Definition make_greeting (as_server curve : bool) : bytes :=
  let greeting := repeat 0 (Z.to_nat greeting_size) in
  let greeting := overwrite 0 [0xff] greeting in
  let greeting := overwrite (signature_size - 1) [0x7f] greeting in
  let greeting := overwrite signature_size [revision_major] greeting in
  let greeting := overwrite (1 + signature_size) [revision_minor] greeting in
  let greeting := overwrite (signature_size + 2) (if curve then mechanism_curve else mechanism_null) greeting in
  overwrite (signature_size + 2 + mechanism_size) [if curve && as_server then 1 else 0] greeting.

(** The signature and the revision. *)
Definition greeting_gate (greeting : bytes) : bool :=
  (zget greeting 0 =? 0xff) && has 1 (zget greeting (signature_size - 1)) && negb (zget greeting signature_size <? revision_major).

Definition matches (name field : bytes) : bool :=
  bool_decide (ztake (len name) field = name) && forallb (Z.eqb 0) (zdrop (len name) field).

(** The minor revision, the mechanism and the role of the peer. *)
Definition parse_greeting (greeting : bytes) : option (Z * bool * bool) :=
  if negb (len greeting =? greeting_size) then None else
  if negb (greeting_gate greeting) then None else
  let minor := zget greeting (1 + signature_size) in
  let field := ztake mechanism_size (zdrop (signature_size + 2) greeting) in
  let as_server := negb (zget greeting (signature_size + 2 + mechanism_size) =? 0) in
  if matches mechanism_null field then Some (minor, false, as_server)
  else if matches mechanism_curve field then Some (minor, true, as_server)
  else None.

(** ** Commands and metadata *)

Definition command_ready : bytes := chars "READY".
Definition command_error : bytes := chars "ERROR".
Definition command_pong : bytes := chars "PONG".
Definition command_hello : bytes := chars "HELLO".
Definition command_initiate : bytes := chars "INITIATE".
Definition command_message : bytes := chars "MESSAGE".

Definition make_property (name value : bytes) : bytes :=
  [narrow 8 (len name)] ++ name ++ be_bytes 4 (len value) ++ value.

Definition make_command (name content : bytes) : bytes :=
  frame_encode ([narrow 8 (len name)] ++ name ++ content) true false.

Definition socket_type_name : bytes := chars "Socket-Type".
Definition identity_name : bytes := chars "Identity".

Definition make_ready (value : role) : bytes := make_command command_ready (make_property socket_type_name (socket_type value)).

Definition make_error (reason : bytes) : bytes :=
  make_command command_error (narrow 8 (len reason `min` 255) :: ztake (len reason `min` 255) reason).

Definition make_pong (content : bytes) : bytes :=
  make_command command_pong (ztake (len content `min` maximum_ping_context) content).

(** The self-describing name of a command, and what follows it. *)
Definition command_name (frame : bytes) : option (bytes * bytes) :=
  match frame with
  | [] => None
  | length :: _ =>
    if len frame <? 1 + length then None else Some (ztake length (zdrop 1 frame), zdrop (1 + length) frame)
  end.

Definition property_step (property : bytes) (data : bytes) : bytes + option bytes :=
  match data with
  | [] => inr None
  | name_size :: _ =>
    if len data <? 1 + name_size then inr None else
    let name := ztake name_size (zdrop 1 data) in
    let data := zdrop (1 + name_size) data in
    if len data <? 4 then inr None else
    let value_size := be_value (ztake 4 data) in
    let data := zdrop 4 data in
    if len data <? value_size then inr None else
    if bool_decide (name = property) then inr (Some (ztake value_size data)) else inl (zdrop value_size data)
  end.

(** The value of a property, unless it is absent or the metadata malformed. *)
Definition ready_property (property body : bytes) : option bytes :=
  match while (fun data => length data) (property_step property) body with Some value => value | None => None end.

Definition ready_socket_type (body : bytes) : option bytes := ready_property socket_type_name body.

(** ** Frames round trip *)

Lemma has_command (c m : bool) : has flag_command (Z.lor (if c then flag_command else 0) (if m then flag_more else 0)) = c /\
  has flag_more (Z.lor (if c then flag_command else 0) (if m then flag_more else 0)) = m /\
  has flag_long (Z.lor (if c then flag_command else 0) (if m then flag_more else 0)) = false.
Proof. by destruct c, m. Qed.

Lemma has_command_long (c m : bool) : let f := Z.lor (Z.lor (if c then flag_command else 0) (if m then flag_more else 0)) flag_long in
  has flag_command f = c /\ has flag_more f = m /\ has flag_long f = true.
Proof. by destruct c, m. Qed.

Lemma len_head n c m : len (write_frame_head n c m) + n = frame_size n.
Proof.
  unfold write_frame_head, frame_size. destruct (n >? 0xff).
  - rewrite len_cons. unfold len at 1. rewrite length_be_bytes. lia.
  - change (len [_; _]) with 2. lia.
Qed.

Lemma frame_round_trip contents is_command is_more rest : len contents < 2 ^ 64 ->
  exists f, frame_decode (frame_encode contents is_command is_more ++ rest) = Some (f, rest) /\
    body f = contents /\ command f = is_command /\ more f = is_more /\
    len (frame_encode contents is_command is_more) = frame_size (len contents).
Proof.
  intros Hl. pose proof (len_nonneg contents). pose proof (len_nonneg rest).
  pose proof (len_head (len contents) is_command is_more) as Hh.
  unfold frame_encode. rewrite len_app. rewrite <- app_assoc. unfold write_frame_head in *.
  destruct (len contents >? 0xff) eqn:Hlong.
  - destruct (has_command_long is_command is_more) as (Hc & Hm & Hf). set (f := Z.lor _ _) in *. cbn [app]. unfold frame_decode. rewrite Hf.
    assert (len (be_bytes 8 (len contents)) = 8) as Hb by (unfold len; by rewrite length_be_bytes).
    rewrite ztake_app_len, zdrop_app_len by done. rewrite be_value_bytes by lia.
    rewrite !len_app, Hb. destruct (_ <? 8) eqn:Hlt; [lia |]. destruct (_ <? len contents) eqn:Hlt2; [lia |].
    rewrite ztake_app_len, zdrop_app_len by done. eexists. split; [done |]. done.
  - destruct (has_command is_command is_more) as (Hc & Hm & Hf). set (f := Z.lor _ _) in *. cbn [app]. unfold frame_decode. rewrite Hf.
    assert (narrow 8 (len contents) = len contents) as -> by (unfold narrow; apply Z.mod_small; lia).
    rewrite !len_app. destruct (_ <? len contents) eqn:Hlt2; [lia |].
    rewrite ztake_app_len, zdrop_app_len by done. eexists. split; [done |]. done.
Qed.

(** Frames in order, to the end of a buffer. *)
Definition frames_step (s : list frame * bytes) : (list frame * bytes) + option (list frame) :=
  match s.2 with
  | [] => inr (Some s.1)
  | _ => match frame_decode s.2 with Some (f, rest) => inl (s.1 ++ [f], rest) | None => inr None end
  end.

Definition decode_frames (buffer : bytes) : option (list frame) :=
  match while (fun s => length s.2) frames_step ([], buffer) with Some r => r | None => None end.

Lemma frame_decode_shorter buffer f rest : frame_decode buffer = Some (f, rest) -> (length rest < length buffer)%nat.
Proof.
  unfold frame_decode. destruct buffer as [| b buffer]; [done |]. unfold zdrop.
  destruct (has flag_long b).
  - destruct (len buffer <? 8); [done |]. destruct (_ <? _); [done |]. intros [= <- <-]. rewrite !length_drop. simpl. lia.
  - destruct buffer as [| l buffer]; [done |]. destruct (_ <? _); [done |]. intros [= <- <-]. rewrite length_drop. simpl. lia.
Qed.

Lemma frames_decreases : decreases (fun _ => True) (fun s : list frame * bytes => length s.2) frames_step.
Proof.
  intros [l buffer] s' _. unfold frames_step. cbn [fst snd]. destruct buffer as [| b buffer]; [done |].
  destruct (frame_decode _) as [[f rest] |] eqn:Hd; [| done]. intros [= <-]. split; [done |]. by apply frame_decode_shorter in Hd.
Qed.

Definition part (is_more : bool) (f : frame) (p : bytes) : Prop := body f = p /\ more f = is_more /\ command f = false.

Fixpoint message_of (parts : list bytes) (fs : list frame) : Prop :=
  match parts, fs with
  | [], [] => True
  | p :: parts, f :: fs => part (negb (is_empty parts)) f p /\ message_of parts fs
  | _, _ => False
  end.

Lemma frames_message parts : Forall (fun p => len p < 2 ^ 64) parts -> forall l,
  exists fs, while (fun s : list frame * bytes => length s.2) frames_step (l, frame_message parts) = Some (Some (l ++ fs)) /\ message_of parts fs.
Proof.
  induction 1 as [| p parts Hp _ IH]; intros l.
  - exists []. by rewrite app_nil_r.
  - destruct (frame_round_trip p false (negb (is_empty parts)) (frame_message parts) Hp) as (f & Hd & Hb & Hc & Hm & Hl).
    destruct (IH (l ++ [f])) as (fs & Hw & Hfs). exists (f :: fs). split; [| done].
    rewrite (while_unfold (fun _ => True)) by (done || apply frames_decreases). cbn [frame_message].
    unfold frames_step at 1. cbn [fst snd].
    destruct (frame_encode p false (negb (is_empty parts)) ++ frame_message parts) as [| b buffer] eqn:He.
    { apply (f_equal len) in He. rewrite len_app, Hl, len_nil in He. unfold frame_size in He.
      pose proof (len_nonneg (frame_message parts)). pose proof (len_nonneg p). destruct (_ >? _); lia. }
    rewrite Hd. rewrite Hw. by rewrite <- app_assoc.
Qed.

(** Zmtp message.  The buffer that frames a message holds one frame for
    each part, in order, none a command, each marked as followed by another
    but for the last. *)
Theorem frame_message_parts parts : Forall (fun p => len p < 2 ^ 64) parts ->
  exists fs, decode_frames (frame_message parts) = Some fs /\ message_of parts fs.
Proof. intros Hp. destruct (frames_message parts Hp []) as (fs & Hw & Hm). exists fs. unfold decode_frames. by rewrite Hw. Qed.

(** ** Greetings *)

(** Zmtp greeting.  A greeting is accepted exactly when it has the
    signature, revision 3.0 or later and the null padded name of a mechanism,
    whatever else it holds; the own greeting is accepted as what it says. *)
Theorem greeting_parses greeting minor curve as_server : len greeting = greeting_size ->
  (parse_greeting greeting = Some (minor, curve, as_server) <->
   zget greeting 0 = 0xff /\ Z.odd (zget greeting 9) = true /\ 3 <= zget greeting 10 /\ minor = zget greeting 11 /\
   ztake 20 (zdrop 12 greeting) = (if curve then chars "CURVE" ++ repeat 0 15 else chars "NULL" ++ repeat 0 16) /\
   as_server = negb (zget greeting 32 =? 0)) /\
  (forall server secure, parse_greeting (make_greeting server secure) = Some (1, secure, secure && server)).
Proof.
  intros Hl. split; [| by intros [|] [|]].
  assert (forall name field : bytes, len field = 20 -> matches name field = true <-> field = name ++ repeat 0 (20 - length name) /\ len name <= 20) as Hm.
  { intros name field Hf. unfold matches. rewrite andb_true_iff, bool_decide_eq_true. split.
    - intros [Ht Hz]. pose proof (f_equal len Ht) as Hn. rewrite len_ztake in Hn by apply len_nonneg.
      assert (len name <= 20) as Hle by lia. split; [| done]. rewrite <- (ztake_zdrop (len name) field), Ht at 1. f_equal.
      assert (length (zdrop (len name) field) = (20 - length name)%nat) as Hlen.
      { pose proof (len_zdrop (len name) field) as Hz2. pose proof (len_nonneg name). unfold len in *. lia. }
      revert Hz Hlen. generalize (zdrop (len name) field) as z. generalize (20 - length name)%nat as k. clear.
      intros k z. revert k. induction z as [| b z IH]; intros [| k]; cbn [forallb length repeat]; try done. intros Hb Hk.
      apply andb_true_iff in Hb as [Hb Hz]. apply Z.eqb_eq in Hb as <-. f_equal. apply IH; [done | lia].
    - intros [-> Hle]. rewrite ztake_app_len, zdrop_app_len by done. split; [done |].
      apply forallb_forall. intros x Hx. by apply repeat_spec in Hx as ->. }
  assert (len (ztake 20 (zdrop 12 greeting)) = 20) as Hfl.
  { rewrite len_ztake, len_zdrop; rewrite ?Hl; unfold greeting_size; lia. }
  unfold parse_greeting. rewrite Hl, Z.eqb_refl. cbn [negb]. change mechanism_size with 20. change (signature_size + 2) with 12.
  pose proof (Hm mechanism_null _ Hfl) as Hn. pose proof (Hm mechanism_curve _ Hfl) as Hc.
  set (field := ztake 20 _) in *.
  assert (greeting_gate greeting = true <-> zget greeting 0 = 0xff /\ Z.odd (zget greeting 9) = true /\ 3 <= zget greeting 10) as Hg.
  { unfold greeting_gate, has. change (signature_size - 1) with 9. change signature_size with 10. unfold revision_major.
    assert (negb (Z.land (zget greeting 9) 1 =? 0) = Z.odd (zget greeting 9)) as ->.
    { change 1 with (Z.ones 1) at 1. rewrite Z.land_ones by lia. change (2 ^ 1) with 2. rewrite Zmod_odd. by destruct (Z.odd _). }
    rewrite !andb_true_iff, negb_true_iff, Z.eqb_eq, Z.ltb_ge. tauto. }
  destruct (greeting_gate greeting) eqn:Hgate; cbn [negb]; [| split; [done | intros (H1 & H2 & H3 & _); exfalso; destruct Hg as [_ Hg]; discriminate Hg; done]].
  destruct Hg as [Hg _]. destruct (Hg eq_refl) as (H1 & H2 & H3). clear Hg.
  assert (forall n : bytes, field = n ++ repeat 0 (20 - length n) /\ len n <= 20 -> field = n ++ repeat 0 (20 - length n)) as Hfst by tauto.
  destruct (matches mechanism_null field) eqn:Hmn.
  - destruct Hn as [Hn _]. destruct (Hn eq_refl) as [Hfield _]. split.
    + intros [= <- <- <-]. done.
    + intros (_ & _ & _ & -> & Hf & ->). destruct curve; [| done]. rewrite Hfield in Hf. discriminate Hf.
  - destruct (matches mechanism_curve field) eqn:Hmc.
    + destruct Hc as [Hc _]. destruct (Hc eq_refl) as [Hfield _]. split.
      * intros [= <- <- <-]. done.
      * intros (_ & _ & _ & -> & Hf & ->). destruct curve; [done |]. rewrite Hfield in Hf. discriminate Hf.
    + split; [done |]. intros (_ & _ & _ & _ & Hf & _). exfalso. destruct curve.
      * destruct Hc as [_ Hc]. discriminate Hc. split; [exact Hf | done].
      * destruct Hn as [_ Hn]. discriminate Hn. split; [exact Hf | done].
Qed.

(** ** Metadata *)

Definition property_ok (p : bytes * bytes) : Prop := len p.1 < 256 /\ len p.2 < 2 ^ 32 /\ bytes_ok p.1 /\ bytes_ok p.2.

Definition metadata (l : list (bytes * bytes)) : bytes := concat (map (fun '(n, v) => make_property n v) l).

Fixpoint lookup_property (property : bytes) (l : list (bytes * bytes)) : option bytes :=
  match l with
  | [] => None
  | (n, v) :: l => if bool_decide (n = property) then Some v else lookup_property property l
  end.

Lemma property_decreases property : decreases bytes_ok (fun data : bytes => length data) (property_step property).
Proof.
  intros data data' Hok. unfold property_step. destruct data as [| n data]; [done |].
  destruct (_ <? 1 + n) eqn:Hn; [done |]. destruct (_ <? 4) eqn:Hfour; [done |]. destruct (_ <? be_value _) eqn:Hv; [done |].
  case_bool_decide; [done |]. intros [= <-]. split; [auto with net |].
  unfold zdrop in *. rewrite !length_drop. unfold len in Hfour. rewrite length_drop in Hfour. simpl length in *. lia.
Qed.

Lemma len_property n v : property_ok (n, v) -> len (make_property n v) = 5 + len n + len v.
Proof.
  intros (Hn & Hv & _). unfold make_property. rewrite !len_app. change (len [_]) with 1.
  assert (len (be_bytes 4 (len v)) = 4) as -> by (unfold len; by rewrite length_be_bytes). lia.
Qed.

Lemma property_step_spec property n v rest : property_ok (n, v) ->
  property_step property (make_property n v ++ rest) =
    if bool_decide (n = property) then inr (Some v) else inl rest.
Proof.
  intros Hp. pose proof (len_property n v Hp) as Hl. destruct Hp as (Hn & Hv & _). cbn [fst snd] in *. pose proof (len_nonneg n).
  pose proof (len_nonneg v). pose proof (len_nonneg rest).
  assert (narrow 8 (len n) = len n) as Hw by (unfold narrow; apply Z.mod_small; lia).
  unfold property_step. assert (len (make_property n v ++ rest) = 5 + len n + len v + len rest) as Hall by (rewrite len_app; lia).
  unfold make_property in *. rewrite Hw in *. rewrite <- !app_assoc in *. cbn [app] in *.
  rewrite Hall. destruct (_ <? 1 + len n) eqn:Hone; [lia |].
  change (zdrop 1 (len n :: ?l)) with l. set (tail := be_bytes 4 (len v) ++ v ++ rest).
  assert (zdrop (1 + len n) (len n :: n ++ tail) = tail) as ->.
  { change (len n :: n ++ tail) with ([len n] ++ n ++ tail). rewrite app_assoc. apply zdrop_app_len. rewrite len_app. done. }
  rewrite ztake_app_len by done.
  assert (len (be_bytes 4 (len v)) = 4) as Hb by (unfold len; by rewrite length_be_bytes).
  subst tail. rewrite ztake_app_len, zdrop_app_len by done. rewrite be_value_bytes by lia. rewrite !len_app, Hb.
  destruct (_ <? 4) eqn:Hfour; [lia |]. destruct (_ <? len v) eqn:Hlv; [lia |]. rewrite ztake_app_len, zdrop_app_len by done. done.
Qed.

Lemma metadata_ok l : Forall property_ok l -> bytes_ok (metadata l).
Proof.
  induction 1 as [| [n v] l (Hn & _ & Hb & Hc) _ IH]; [constructor |]. cbn [metadata map concat] in *. apply Forall_app. split; [| exact IH].
  unfold make_property. cbn [fst snd] in *. apply Forall_app. split; [constructor; [| constructor] |].
  - unfold narrow, in_width. pose proof (Z.mod_pos_bound (len n) (2 ^ 8)). simpl in *. lia.
  - apply Forall_app. split; [done |]. apply Forall_app. split; [apply be_bytes_ok | done].
Qed.

(** A property of metadata is read as the value of the
    first property with its name, whatever follows that; it is absent when
    there is none. *)
Lemma metadata_lookup property l suffix : Forall property_ok l -> bytes_ok suffix ->
  ready_property property (metadata l ++ suffix) =
    match lookup_property property l with Some v => Some v | None => ready_property property suffix end /\
  ready_property property [] = None.
Proof.
  intros Hl Hs. split; [| done]. unfold ready_property at 1. induction Hl as [| [n v] l Hp Hl IH]; [done |].
  cbn [metadata map concat lookup_property]. fold (metadata l). rewrite <- app_assoc.
  assert (bytes_ok (make_property n v ++ metadata l ++ suffix)) as Hok.
  { apply Forall_app. split; [| apply Forall_app; split; [by apply metadata_ok | done]].
    pose proof (metadata_ok [(n, v)] ltac:(by constructor)) as Hm. cbn [metadata map concat] in Hm. by rewrite app_nil_r in Hm. }
  rewrite (while_unfold bytes_ok); [| apply property_decreases | done]. rewrite property_step_spec by done.
  case_bool_decide; [done | exact IH].
Qed.

Lemma frame_message_parts_witness :
  exists fs, decode_frames (frame_message [chars "topic"; repeat 7 300; []]) = Some fs /\
    message_of [chars "topic"; repeat 7 300; []] fs.
Proof. apply frame_message_parts. repeat constructor. Defined.

Lemma greeting_parses_witness :
  (parse_greeting (make_greeting true true) = Some (1, true, true) <->
   zget (make_greeting true true) 0 = 0xff /\ Z.odd (zget (make_greeting true true) 9) = true /\ 3 <= zget (make_greeting true true) 10 /\
   1 = zget (make_greeting true true) 11 /\ ztake 20 (zdrop 12 (make_greeting true true)) = chars "CURVE" ++ repeat 0 15 /\
   true = negb (zget (make_greeting true true) 32 =? 0)) /\
  (forall server secure, parse_greeting (make_greeting server secure) = Some (1, secure, secure && server)).
Proof. apply (greeting_parses (make_greeting true true) 1 true true). reflexivity. Defined.

End zmtp_codec.
