(* ===== verification/ZmtpStream.v ===== *)
(** * ZmtpStream: ZMTP over a socket

    Models the handshake, the frame reader and the writer of
    [src/zmtp/stream.cpp].  A pending operation says which handler it
    completes, and a frame being read is part of it, with who reads it. *)

From S2P Require Import Prelude.
From S2P Require Import Errors.
From S2P Require Import Transport.
From S2P Require Import ZmtpCipher.
From S2P Require Import ZmtpCodec.

Module zmtp_stream.
Import zmtp_codec.

Definition protocol_error : code := error.protocol_violation.

Section stream.
Context `{Curve}.

(** [random_] is what the cipher will draw. *)
Record t := mk {
  context_ : context; role_ : role; identity_ : bytes; cipher_ : option zmtp_cipher.t; secured_ : bool;
  greeting_ : bytes; random_ : zmtp_cipher.random }.

Definition make (c : context) (value : role) (r : zmtp_cipher.random) : t :=
  mk c value [] (if curve_ c then Some (zmtp_cipher.make_server (secret_ c) (public_ c)) else None) false [] r.

Definition set_identity (i : bytes) (s : t) : t := mk (context_ s) (role_ s) i (cipher_ s) (secured_ s) (greeting_ s) (random_ s).
Definition set_cipher (c : zmtp_cipher.t) (s : t) : t :=
  mk (context_ s) (role_ s) (identity_ s) (Some c) (secured_ s) (greeting_ s) (random_ s).
Definition set_secured (b : bool) (s : t) : t := mk (context_ s) (role_ s) (identity_ s) (cipher_ s) b (greeting_ s) (random_ s).
Definition set_greeting (g : bytes) (s : t) : t := mk (context_ s) (role_ s) (identity_ s) (cipher_ s) (secured_ s) g (random_ s).

(** Who reads a frame. *)
Inductive reader := for_ready | for_hello | for_initiate | for_caller.

Inductive operation :=
  | greeting_sent (as_server : bool)
  | greeting_first (as_server : bool)
  | greeting_second (as_server : bool)
  | failing
  | ready_sent
  | welcome_sent
  | curve_ready_sent
  | frame_flags (maximum : Z) (k : reader)
  | frame_length (long_size : bool) (flags maximum : Z) (k : reader)
  | frame_body (flags : Z) (k : reader)
  | written.

(** [fault] is a use of a cipher that the stream does not have. *)
Inductive outcome :=
  | handshaken (ec : code)
  | framed (ec : code) (size : Z) (f : frame)
  | wrote (ec : code) (size : Z)
  | fault.

Notation action := (Transport.action operation outcome).

Definition with_cipher (s : t) (f : zmtp_cipher.t -> t * action) : t * action :=
  match cipher_ s with Some c => f c | None => (s, finish fault) end.

Definition has_cipher (s : t) : bool := match cipher_ s with Some _ => true | None => false end.

(** ** Handshake *)

Definition async_handshake (as_server : bool) (s : t) : t * action :=
  (s, write (make_greeting as_server (has_cipher s)) (greeting_sent as_server)).

Definition handle_greeting_sent (ec : code) (as_server : bool) (s : t) : t * action :=
  if failed ec then (s, finish (handshaken ec)) else (s, read greeting_stage1 (greeting_first as_server)).

Definition handle_greeting_stage1 (ec : code) (as_server : bool) (data : bytes) (s : t) : t * action :=
  if failed ec then (s, finish (handshaken ec)) else
  let s := set_greeting data s in
  if negb (greeting_gate (greeting_ s)) then (s, finish (handshaken protocol_error))
  else (s, read greeting_stage2 (greeting_second as_server)).

Definition fail_handshake (reason : string) (s : t) : t * action := (s, write (make_error (chars reason)) failing).

Definition async_read_frame (maximum : Z) (k : reader) (s : t) : t * action := (s, read 1 (frame_flags maximum k)).

Definition write_ready (s : t) : t * action := (s, write (make_ready (role_ s)) ready_sent).

Definition read_ready (s : t) : t * action := async_read_frame maximum_inbound for_ready s.

Definition read_hello (s : t) : t * action := async_read_frame maximum_inbound for_hello s.

Definition handle_greeting_stage2 (ec : code) (as_server : bool) (data : bytes) (s : t) : t * action :=
  if failed ec then (s, finish (handshaken ec)) else
  match parse_greeting (greeting_ s ++ data) with
  | None => (s, finish (handshaken protocol_error))
  | Some (_, curve, peer_server) =>
    let s := set_greeting [] s in
    if negb (Bool.eqb curve (has_cipher s)) || (curve && (peer_server || negb as_server))
    then fail_handshake "mechanism mismatch" s
    else if curve then read_hello s else write_ready s
  end.

(** Is the peer compatible, and the stream with its identity. *)
Definition compatible_metadata (metadata : bytes) (s : t) : bool * t :=
  match ready_socket_type metadata with
  | None => (false, s)
  | Some type =>
    if negb (compatible (role_ s) type) then (false, s) else
    (true, match ready_property identity_name metadata with Some i => set_identity i s | None => s end)
  end.

Definition is_command (name : bytes) (f : frame) : option bytes :=
  match command_name (body f) with
  | Some (n, content) => if bool_decide (n = name) then Some content else None
  | None => None
  end.

Definition handle_ready_sent (ec : code) (s : t) : t * action :=
  if failed ec then (s, finish (handshaken ec)) else read_ready s.

Definition handle_ready (ec : code) (ready : frame) (s : t) : t * action :=
  if failed ec then (s, finish (handshaken ec)) else
  if negb (command ready) then fail_handshake "expected command" s else
  match is_command command_ready ready with
  | None => fail_handshake "expected READY" s
  | Some metadata =>
    let '(ok, s) := compatible_metadata metadata s in
    if negb ok then fail_handshake "incompatible socket type" s else (s, finish (handshaken error.success))
  end.

Definition handle_hello (ec : code) (hello : frame) (s : t) : t * action :=
  if failed ec then (s, finish (handshaken ec)) else
  if negb (command hello) then fail_handshake "expected HELLO" s else
  match is_command command_hello hello with
  | None => fail_handshake "expected HELLO" s
  | Some _ =>
    with_cipher s (fun c =>
    let '(welcome, c) := zmtp_cipher.welcome (random_ s) (body hello) c in
    let s := set_cipher c s in
    match welcome with
    | None => fail_handshake "invalid HELLO" s
    | Some welcome => (s, write (frame_encode welcome true false) welcome_sent)
    end)
  end.

Definition handle_welcome_sent (ec : code) (s : t) : t * action :=
  if failed ec then (s, finish (handshaken ec)) else async_read_frame maximum_inbound for_initiate s.

Definition handle_initiate (ec : code) (initiate : frame) (s : t) : t * action :=
  if failed ec then (s, finish (handshaken ec)) else
  if negb (command initiate) then fail_handshake "expected INITIATE" s else
  match is_command command_initiate initiate with
  | None => fail_handshake "expected INITIATE" s
  | Some _ =>
    with_cipher s (fun c =>
    let '(r, c) := zmtp_cipher.ready (body initiate) (make_property socket_type_name (socket_type (role_ s))) c in
    let s := set_cipher c s in
    match r with
    | None => fail_handshake "invalid INITIATE" s
    | Some (ready, metadata) =>
      if negb (authorized (zmtp_cipher.peer_ c) (context_ s)) then fail_handshake "400" s else
      let '(ok, s) := compatible_metadata metadata s in
      if negb ok then fail_handshake "incompatible socket type" s else
      (s, write (frame_encode ready true false) curve_ready_sent)
    end)
  end.

Definition handle_curve_ready_sent (ec : code) (s : t) : t * action :=
  if failed ec then (s, finish (handshaken ec)) else (set_secured true s, finish (handshaken error.success)).

(** ** The frame reader *)

(** The handler of who reads the frame. *)
Definition deliver (k : reader) (ec : code) (size : Z) (f : frame) (s : t) : t * action :=
  match k with
  | for_ready => handle_ready ec f s
  | for_hello => handle_hello ec f s
  | for_initiate => handle_initiate ec f s
  | for_caller => (s, finish (framed ec size f))
  end.

Definition handle_frame_body (ec : code) (f : frame) (k : reader) (s : t) : t * action :=
  if failed ec || negb (secured_ s) then deliver k ec (len (body f)) f s else
  match command_name (body f) with
  | None => deliver k protocol_error 0 f s
  | Some (name, _) =>
    if command f && bool_decide (name = command_error) then deliver k ec (len (body f)) f s else
    if negb (bool_decide (name = command_message)) then deliver k protocol_error 0 f s else
    with_cipher s (fun c =>
    let '(r, c) := zmtp_cipher.decode (body f) c in
    let s := set_cipher c s in
    match r with
    | None => deliver k protocol_error 0 f s
    | Some (payload, plain) =>
      let flags := Z.lor (if has zmtp_cipher.payload_more payload then flag_more else 0)
        (if has zmtp_cipher.payload_command payload then flag_command else 0) in
      deliver k ec (len plain) (mk_frame flags plain) s
    end)
  end.

Definition handle_frame_flags (ec : code) (data : bytes) (maximum : Z) (k : reader) (s : t) : t * action :=
  if failed ec then deliver k ec 0 (mk_frame 0 []) s else
  let flags := zget data 0 in
  let long_size := has flag_long flags in
  (s, read (if long_size then 8 else 1) (frame_length long_size flags maximum k)).

Definition handle_frame_length (ec : code) (data : bytes) (long_size : bool) (flags maximum : Z) (k : reader) (s : t) : t * action :=
  if failed ec then deliver k ec 0 (mk_frame flags []) s else
  let length := if long_size then be_value data else zget data 0 in
  if length >? maximum then deliver k error.oversized_payload 0 (mk_frame flags []) s else
  if length =? 0 then handle_frame_body error.success (mk_frame flags []) k s else
  (s, read length (frame_body flags k)).

(** ** The writer *)

(** Each frame of the buffer is boxed into a message. *)
Definition box_step (w : zmtp_cipher.t * bytes * bytes) : (zmtp_cipher.t * bytes * bytes) + (option bytes * zmtp_cipher.t) :=
  let '(c, boxed, buffer) := w in
  match buffer with
  | [] => inr (Some boxed, c)
  | _ =>
    match frame_decode buffer with
    | None => inr (None, c)
    | Some (f, buffer) =>
      let payload := Z.lor (if more f then zmtp_cipher.payload_more else 0) (if command f then zmtp_cipher.payload_command else 0) in
      let '(message, c) := zmtp_cipher.encode payload (body f) c in
      match message with
      | None => inr (None, c)
      | Some message => inl (c, boxed ++ frame_encode message false false, buffer)
      end
    end
  end.

Definition box_frames (c : zmtp_cipher.t) (buffer : bytes) : option (option bytes * zmtp_cipher.t) :=
  while (fun w : zmtp_cipher.t * bytes * bytes => length w.2) box_step (c, [], buffer).

Definition async_write (buffer : bytes) (s : t) : t * action :=
  if negb (secured_ s) then (s, write buffer written) else
  with_cipher s (fun c =>
  match box_frames c buffer with
  | Some (Some boxed, c) => (set_cipher c s, write boxed written)
  | Some (None, c) => (set_cipher c s, finish (wrote protocol_error 0))
  | None => (s, finish fault)
  end).

(** A sequence is written as one buffer. *)
Definition async_write_buffers (buffers : list bytes) (s : t) : t * action := async_write (concat buffers) s.

(** ** Completions *)

Definition completion (op : operation) (ec : code) (data : bytes) (s : t) : t * action :=
  match op with
  | greeting_sent as_server => handle_greeting_sent ec as_server s
  | greeting_first as_server => handle_greeting_stage1 ec as_server data s
  | greeting_second as_server => handle_greeting_stage2 ec as_server data s
  | failing => (s, finish (handshaken protocol_error))
  | ready_sent => handle_ready_sent ec s
  | welcome_sent => handle_welcome_sent ec s
  | curve_ready_sent => handle_curve_ready_sent ec s
  | frame_flags maximum k => handle_frame_flags ec data maximum k s
  | frame_length long_size flags maximum k => handle_frame_length ec data long_size flags maximum k s
  | frame_body flags k => handle_frame_body ec (mk_frame flags data) k s
  | written => (s, finish (wrote ec (len data)))
  end.

#[global] Instance zmtp_protocol : Protocol t operation outcome := completion.

(** ** What a run may still do *)

Definition tail_weight (k : reader) : nat :=
  match k with for_caller => 0 | for_ready => 1 | for_initiate => 1 | for_hello => 5 end.

Definition op_weight (op : operation) : nat :=
  match op with
  | greeting_sent _ => 11 | greeting_first _ => 10 | greeting_second _ => 9
  | failing => 1 | ready_sent => 5 | welcome_sent => 5 | curve_ready_sent => 1
  | frame_flags _ k => tail_weight k + 3 | frame_length _ _ _ k => tail_weight k + 2 | frame_body _ k => tail_weight k + 1
  | written => 1
  end.

Definition action_weight (a : action) : nat :=
  match a with write _ op | read _ op | read_some _ op | post op => op_weight op | finish _ => 0 end.

Definition measure (c : config t operation outcome) : nat := action_weight (next c).

(** Every completion leads nearer to the end. *)
Ltac lighter := repeat (case_match; simplify_eq/=; try lia).

Lemma fail_weight reason s : action_weight (fail_handshake reason s).2 = 1%nat.
Proof. done. Qed.

Lemma deliver_weight k ec size f s : (action_weight (deliver k ec size f s).2 <= tail_weight k)%nat.
Proof.
  destruct k; cbn [deliver tail_weight].
  - unfold handle_ready, compatible_metadata. lighter.
  - unfold handle_hello, with_cipher. lighter.
  - unfold handle_initiate, with_cipher, compatible_metadata. lighter.
  - done.
Qed.

Lemma frame_body_weight ec f k s : (action_weight (handle_frame_body ec f k s).2 <= tail_weight k)%nat.
Proof.
  unfold handle_frame_body, with_cipher. repeat (case_match; try apply deliver_weight; simpl; try lia).
Qed.

Lemma zmtp_weight op ec data s : (action_weight (completion op ec data s).2 < op_weight op)%nat.
Proof.
  destruct op as [b | b | b | | | | | m k | l fl m k | fl k |]; cbn [completion op_weight].
  - unfold handle_greeting_sent. lighter.
  - unfold handle_greeting_stage1. lighter.
  - unfold handle_greeting_stage2. lighter.
  - cbn. lia.
  - unfold handle_ready_sent. lighter.
  - unfold handle_welcome_sent. lighter.
  - unfold handle_curve_ready_sent. lighter.
  - unfold handle_frame_flags. case_match; [pose proof (deliver_weight k ec 0 (mk_frame 0 []) s); lia | simpl; lia].
  - unfold handle_frame_length. cbv zeta.
    destruct (failed ec); [pose proof (deliver_weight k ec 0 (mk_frame fl []) s); lia |].
    destruct (_ >? m); [pose proof (deliver_weight k error.oversized_payload 0 (mk_frame fl []) s); lia |].
    destruct (_ =? 0); [pose proof (frame_body_weight error.success (mk_frame fl []) k s); lia | simpl; lia].
  - pose proof (frame_body_weight ec (mk_frame fl data) k s). lia.
  - cbn. lia.
Qed.

Definition any_config (c : config t operation outcome) : Prop := True.

Lemma zmtp_step_decreases schedule : decreases any_config measure (step schedule).
Proof.
  intros c c' _ Hs. split; [done |]. unfold step, measure in *.
  destruct (next c) as [d op | n op | n op | op | o] eqn:Hn; try done; try (destruct (_ <? _); [done |]); try (destruct (_ =? _); [done |]);
    injection Hs as <-; cbn [next resume]; apply zmtp_weight.
Qed.

Definition run := Transport.run measure.

Lemma zmtp_runs_run schedule c c' r : runs schedule c c' -> step schedule c' = inr r -> run schedule c = Some r.
Proof. by apply (Transport.runs_run measure any_config schedule (zmtp_step_decreases schedule)). Qed.
Lemma run_finish schedule c s o inp out : runs schedule c (resume (s, finish o) inp out) ->
  run schedule c = Some (resume (s, finish o) inp out).
Proof. intros Hr. by eapply zmtp_runs_run. Qed.
End stream.
End zmtp_stream.
