(* ===== verification/ZmtpHandshake.v ===== *)
(** * ZmtpHandshake: the handshakes and the frames of ZMTP

    Theorems on the streams of [ZmtpStream]: the handshake of either mechanism
    completes with a compatible peer, a stream with a keypair accepts only an
    authorized client that proves its key, and the frames that are written are
    read by the peer, boxed or not. *)

From S2P Require Import Prelude.
From S2P Require Import Errors.
From S2P Require Import Transport.
From S2P Require Import ZmtpCipher.
From S2P Require Import ZmtpCurve.
From S2P Require Import ZmtpCodec.
From S2P Require Import ZmtpStream.

Module zmtp_handshake.
Import zmtp_codec.
Import zmtp_stream.

(** A frame as it is read. *)
Definition frame_of (contents : bytes) (is_command is_more : bool) : frame :=
  mk_frame (zget (write_frame_head (len contents) is_command is_more) 0) contents.

Lemma frame_of_flags contents c m : command (frame_of contents c m) = c /\ more (frame_of contents c m) = m.
Proof. unfold frame_of, write_frame_head. by destruct (_ >? _), c, m. Qed.

Section stream.
Context `{Curve}.

Lemma read_frame_runs schedule maximum k s contents is_command is_more rest out : len contents < 2 ^ 64 -> len contents <= maximum ->
  runs schedule (resume (async_read_frame maximum k s) (frame_encode contents is_command is_more ++ rest) out)
    (resume (handle_frame_body error.success (frame_of contents is_command is_more) k s) rest out).
Proof.
  intros Hl Hm. unfold async_read_frame, frame_encode, frame_of, write_frame_head. rewrite <- app_assoc. pose proof (len_nonneg contents) as Hn.
  assert (forall flags (length : bytes) (long : bool), has flag_long flags = long -> len length = (if long then 8 else 1) ->
    (if long then be_value length else zget length 0) = len contents ->
    runs schedule (resume (s, read 1 (frame_flags maximum k)) ((flags :: length) ++ contents ++ rest) out)
      (resume (handle_frame_body error.success (mk_frame flags contents) k s) rest out)) as Hread.
  { intros flags length long Hf Hlen Hv. eapply rtc_l; [apply (step_read schedule 1 _ s [flags] (length ++ contents ++ rest)); done |].
    cbn [complete zmtp_protocol completion]. unfold handle_frame_flags. change (failed (error.success : code)) with false. cbv iota zeta.
    rewrite zget_cons_0, Hf. eapply rtc_l; [apply step_read; by rewrite Hlen |].
    cbn [complete zmtp_protocol completion]. unfold handle_frame_length. change (failed (error.success : code)) with false. cbv iota zeta.
    rewrite Hv. destruct (len contents >? maximum) eqn:Hgt; [lia |]. destruct (len contents =? 0) eqn:Hz.
    - assert (contents = []) as -> by (apply len_zero_nil; lia). apply rtc_refl.
    - eapply rtc_l; [by apply step_read |]. cbn [complete zmtp_protocol completion]. apply rtc_refl. }
  destruct (len contents >? 0xff) eqn:Hlong; cbn [zget nth Z.to_nat].
  - apply (Hread _ (be_bytes 8 (len contents)) true).
    + by destruct (has_command_long is_command is_more) as (_ & _ & Hf).
    + unfold len. by rewrite length_be_bytes.
    + by apply be_value_bytes.
  - apply (Hread _ [narrow 8 (len contents)] false).
    + by destruct (has_command is_command is_more) as (_ & _ & Hf).
    + done.
    + rewrite zget_cons_0. unfold narrow. apply Z.mod_small. lia.
Qed.

(** ** Greetings *)

Lemma gate_prefix g : len g = greeting_size -> greeting_gate (ztake greeting_stage1 g) = greeting_gate g.
Proof.
  intros Hl. assert (forall i, 0 <= i < greeting_stage1 -> zget (ztake greeting_stage1 g) i = zget g i) as Hz.
  { intros i Hi. rewrite <- (ztake_zdrop greeting_stage1 g) at 2. rewrite zget_app_l; [done | | lia].
    rewrite len_ztake; rewrite ?Hl; unfold greeting_size, greeting_stage1, signature_size in *; lia. }
  unfold greeting_gate. by rewrite !Hz.
Qed.

Lemma greeting_runs schedule as_server s g inp out v : len g = greeting_size -> parse_greeting g = Some v ->
  runs schedule (resume (async_handshake as_server s) (g ++ inp) out)
    (resume (handle_greeting_stage2 error.success as_server (zdrop greeting_stage1 g) (set_greeting (ztake greeting_stage1 g) s)) inp
      (out ++ make_greeting as_server (has_cipher s))).
Proof.
  intros Hl Hp. assert (greeting_gate g = true) as Hg.
  { unfold parse_greeting in Hp. rewrite Hl, Z.eqb_refl in Hp. cbn [negb] in Hp. by destruct (greeting_gate g). }
  eapply rtc_l; [reflexivity |]. cbn [complete zmtp_protocol completion self input output resume fst snd async_handshake]. unfold handle_greeting_sent.
  change (failed (error.success : code)) with false. cbv iota.
  assert (g ++ inp = ztake greeting_stage1 g ++ zdrop greeting_stage1 g ++ inp) as -> by (by rewrite app_assoc, ztake_zdrop).
  eapply rtc_l; [apply step_read; rewrite len_ztake; rewrite ?Hl; done |].
  cbn [complete zmtp_protocol completion]. unfold handle_greeting_stage1. change (failed (error.success : code)) with false. cbv iota zeta.
  cbn [greeting_ set_greeting]. rewrite gate_prefix, Hg by done. cbn [negb].
  eapply rtc_l; [apply step_read; rewrite len_zdrop; rewrite ?Hl; done |]. apply rtc_refl.
Qed.

Lemma stage2_spec as_server s g v : len g = greeting_size -> parse_greeting g = Some v ->
  let s := set_greeting [] s in
  handle_greeting_stage2 error.success as_server (zdrop greeting_stage1 g) (set_greeting (ztake greeting_stage1 g) s) =
    (let '(_, curve, peer_server) := v in
     if negb (Bool.eqb curve (has_cipher s)) || (curve && (peer_server || negb as_server))
     then fail_handshake "mechanism mismatch" s else if curve then read_hello s else write_ready s).
Proof.
  intros Hl Hp s'. unfold handle_greeting_stage2. change (failed (error.success : code)) with false. cbv iota.
  cbn [greeting_ set_greeting]. rewrite ztake_zdrop, Hp. by destruct v as [[m c] p].
Qed.

(** The body of a command. *)
Definition command_body (name content : bytes) : bytes := [len name] ++ name ++ content.

Lemma command_name_spec name content : command_name (command_body name content) = Some (name, content).
Proof.
  unfold command_name, command_body. cbn [app]. rewrite len_cons, len_app. pose proof (len_nonneg content).
  destruct (_ <? _) eqn:Hlt; [lia |]. change (zdrop 1 (len name :: name ++ content)) with (name ++ content).
  rewrite ztake_app_len by done. do 2 f_equal. change (len name :: name ++ content) with ([len name] ++ name ++ content).
  rewrite app_assoc. apply zdrop_app_len. rewrite len_app. done.
Qed.

Lemma is_command_spec name content m : is_command name (frame_of (command_body name content) true m) = Some content.
Proof. unfold is_command, frame_of. cbn [body]. rewrite command_name_spec. by rewrite bool_decide_true. Qed.

Lemma compatible_spec properties type s : Forall property_ok properties ->
  lookup_property socket_type_name properties = Some type -> compatible (role_ s) type = true ->
  compatible_metadata (metadata properties) s =
    (true, match lookup_property identity_name properties with Some i => set_identity i s | None => s end).
Proof.
  intros Hp Ht Hc. unfold compatible_metadata, ready_socket_type.
  assert (forall name, ready_property name (metadata properties) = lookup_property name properties) as Hl.
  { intros name. destruct (metadata_lookup name properties [] Hp ltac:(constructor)) as [Hl Hn]. rewrite app_nil_r in Hl. rewrite Hl, Hn.
    by destruct (lookup_property name properties). }
  rewrite !Hl, Ht, Hc. done.
Qed.

(** Zmtp null handshake.  With any peer of a compatible type whose greeting
    has the NULL mechanism, and whatever other metadata it sends, the
    handshake succeeds: the stream has sent its greeting and its ready
    command, has the identity of the peer, and leaves what follows. *)
Theorem zmtp_null_handshake schedule context value random as_server greeting minor peer_server properties type is_more rest :
  curve_ context = false -> len greeting = greeting_size -> parse_greeting greeting = Some (minor, false, peer_server) ->
  Forall property_ok properties -> lookup_property socket_type_name properties = Some type -> compatible value type = true ->
  let ready := command_body command_ready (metadata properties) in
  len ready <= maximum_inbound ->
  exists c, run schedule (resume (async_handshake as_server (make context value random))
      (greeting ++ frame_encode ready true is_more ++ rest) []) = Some c /\
    next c = finish (handshaken error.success) /\ input c = rest /\
    output c = make_greeting as_server false ++ make_ready value /\
    identity_ (self c) = default [] (lookup_property identity_name properties).
Proof.
  intros Hc Hl Hg Hp Ht Hok ready Hr. set (s := make context value random).
  assert (has_cipher s = false) as Hn by (unfold s, make, has_cipher; cbn; by rewrite Hc).
  pose proof (greeting_runs schedule as_server s greeting (frame_encode ready true is_more ++ rest) [] _ Hl Hg) as Hruns.
  pose proof (stage2_spec as_server s greeting _ Hl Hg) as H2. cbv zeta in H2.
  assert (set_greeting [] s = s) as Hs by done. rewrite Hs in H2. rewrite H2, Hn in Hruns. clear H2.
  cbn [Bool.eqb negb orb andb] in Hruns.
  set (s' := match lookup_property identity_name properties with Some i => set_identity i s | None => s end).
  exists (resume (s', finish (handshaken error.success)) rest (make_greeting as_server false ++ make_ready value)).
  split; [| split; [done | split; [done | split; [done |]]]].
  2: { cbn [self resume fst]. subst s'. destruct (lookup_property identity_name properties); reflexivity. }
  apply run_finish. etrans; [exact Hruns |]. eapply rtc_l; [reflexivity |].
  cbn [complete zmtp_protocol completion self input output resume fst snd write_ready]. unfold handle_ready_sent, read_ready. change (failed (error.success : code)) with false. cbv iota.
  etrans; [apply read_frame_runs; [unfold maximum_inbound in Hr; lia | done] |].
  unfold handle_frame_body. change (secured_ s) with false. cbn [negb orb]. rewrite orb_true_r. cbn [deliver]. unfold handle_ready.
  change (failed (error.success : code)) with false. cbv iota.
  destruct (frame_of_flags ready true is_more) as [-> _]. cbn [negb]. unfold ready. rewrite is_command_spec.
  rewrite (compatible_spec properties type s Hp Ht Hok). cbn [negb]. apply rtc_refl.
Qed.

(** ** The CURVE mechanism *)

Lemma named_command f body n : zmtp_cipher.named body n = true -> exists content, is_command n (mk_frame f body) = Some content.
Proof.
  unfold zmtp_cipher.named, is_command, command_name. cbn [zmtp_codec.body]. rewrite !andb_true_iff, bool_decide_eq_true.
  intros [[Hl Hz] Ht]. destruct body as [| b body]; [rewrite len_nil in Hl; pose proof (len_nonneg n); lia |].
  rewrite zget_cons_0 in Hz. apply Z.eqb_eq in Hz as ->. destruct (_ <? 1 + len n) eqn:Hlt; [lia |].
  rewrite Ht, bool_decide_true by done. by eexists.
Qed.

Lemma welcome_named r m c out c' : zmtp_cipher.welcome r m c = (Some out, c') ->
  zmtp_cipher.named m zmtp_cipher.command_hello = true /\ len m = zmtp_cipher.hello_size.
Proof.
  unfold zmtp_cipher.welcome. destruct (zmtp_cipher.named m _); [| by rewrite orb_true_r].
  destruct (len m =? _) eqn:Hl; [| by rewrite orb_true_r]. lia.
Qed.

Lemma ready_named m md c out c' : zmtp_cipher.ready m md c = (Some out, c') -> zmtp_cipher.named m zmtp_cipher.command_initiate = true.
Proof. unfold zmtp_cipher.ready. destruct (zmtp_cipher.named m _); [done | by rewrite orb_true_r]. Qed.

Lemma hello_runs schedule s c m1 m2 c' is_more rest out : cipher_ s = Some c -> secured_ s = false ->
  zmtp_cipher.welcome (random_ s) m1 c = (Some m2, c') ->
  runs schedule (resume (read_hello s) (frame_encode m1 true is_more ++ rest) out)
    (resume (async_read_frame maximum_inbound for_initiate (set_cipher c' s)) rest (out ++ frame_encode m2 true false)).
Proof.
  intros Hc Hs Hw. destruct (welcome_named _ _ _ _ _ Hw) as [Hn Hl].
  etrans; [apply read_frame_runs; rewrite Hl; done |]. unfold handle_frame_body. rewrite Hs, orb_true_r. cbn [deliver].
  unfold handle_hello. change (failed (error.success : code)) with false. cbv iota. destruct (frame_of_flags m1 true is_more) as [-> _]. cbn [negb].
  destruct (named_command (flags (frame_of m1 true is_more)) m1 command_hello Hn) as (content & Hcmd).
  change (mk_frame (flags (frame_of m1 true is_more)) m1) with (frame_of m1 true is_more) in Hcmd. rewrite Hcmd.
  unfold with_cipher. rewrite Hc. cbn [body frame_of]. rewrite Hw. eapply rtc_l; [reflexivity |]. apply rtc_refl.
Qed.

Lemma initiate_runs schedule s c m3 m4 properties type c' is_more rest out : cipher_ s = Some c -> secured_ s = false ->
  zmtp_cipher.ready m3 (make_property socket_type_name (socket_type (role_ s))) c = (Some (m4, metadata properties), c') ->
  len m3 <= maximum_inbound -> authorized (zmtp_cipher.peer_ c') (context_ s) = true -> Forall property_ok properties ->
  lookup_property socket_type_name properties = Some type -> compatible (role_ s) type = true ->
  let s' := match lookup_property identity_name properties with Some i => set_identity i (set_cipher c' s) | None => set_cipher c' s end in
  runs schedule (resume (async_read_frame maximum_inbound for_initiate s) (frame_encode m3 true is_more ++ rest) out)
    (resume (set_secured true s', finish (handshaken error.success)) rest (out ++ frame_encode m4 true false)).
Proof.
  intros Hc Hs Hr Hl Ha Hp Ht Hok s'. pose proof (ready_named _ _ _ _ _ Hr) as Hn.
  etrans; [apply read_frame_runs; [unfold maximum_inbound in Hl; lia | done] |]. unfold handle_frame_body. rewrite Hs, orb_true_r. cbn [deliver].
  unfold handle_initiate. change (failed (error.success : code)) with false. cbv iota. destruct (frame_of_flags m3 true is_more) as [-> _]. cbn [negb].
  destruct (named_command (flags (frame_of m3 true is_more)) m3 command_initiate Hn) as (content & Hcmd).
  change (mk_frame (flags (frame_of m3 true is_more)) m3) with (frame_of m3 true is_more) in Hcmd. rewrite Hcmd.
  unfold with_cipher. rewrite Hc. cbn [body frame_of]. rewrite Hr. change (context_ (set_cipher c' s)) with (context_ s). rewrite Ha. cbn [negb].
  rewrite (compatible_spec properties type (set_cipher c' s) Hp Ht Hok). cbn [negb]. fold s'.
  eapply rtc_l; [reflexivity |]. apply rtc_refl.
Qed.

(** C15: zmtp curve handshake.  With an authorized client of a compatible type
    that holds its keypair and the public key of the server, the handshake
    succeeds: the client accepts each command of the server, both have the
    metadata of the other, and their ciphers are paired. *)
Theorem zmtp_curve_handshake `{!zmtp_cipher.CurveLaws} context value rs rc client_secret client_public greeting minor properties type :
  curve_ context = true -> multiply_base (secret_ context) = Some (public_ context) ->
  multiply_base client_secret = Some client_public -> zmtp_curve.random_ok rs -> zmtp_curve.random_ok rc ->
  len greeting = greeting_size -> parse_greeting greeting = Some (minor, true, false) ->
  Forall property_ok properties -> lookup_property socket_type_name properties = Some type -> compatible value type = true ->
  zmtp_cipher.initiate_minimum + len (metadata properties) <= maximum_inbound -> authorized client_public context = true ->
  exists m1 m2 m3 m4 c1 c2 c3 s,
    zmtp_cipher.hello rc (zmtp_cipher.make_client client_secret client_public (public_ context)) = (Some m1, c1) /\
    zmtp_cipher.initiate rc m2 (metadata properties) c1 = (Some m3, c2) /\
    zmtp_cipher.complete m4 c2 = (Some (make_property socket_type_name (socket_type value)), c3) /\
    zmtp_curve.paired c3 s /\ zmtp_cipher.peer_ s = client_public /\
    forall schedule b1 b2 rest, exists c,
      run schedule (resume (async_handshake true (make context value rs))
        (greeting ++ frame_encode m1 true b1 ++ frame_encode m3 true b2 ++ rest) []) = Some c /\
      next c = finish (handshaken error.success) /\ input c = rest /\
      output c = make_greeting true true ++ frame_encode m2 true false ++ frame_encode m4 true false /\
      secured_ (self c) = true /\ cipher_ (self c) = Some s /\
      identity_ (self c) = default [] (lookup_property identity_name properties).
Proof.
  intros Hcv Hks Hkc Hrs Hrc Hl Hg Hp Ht Hok Hmax Ha.
  destruct (zmtp_curve.curve_handshake rc rs client_secret client_public (secret_ context) (public_ context) (metadata properties)
    (make_property socket_type_name (socket_type value)) Hkc Hks Hrc Hrs)
    as (m1 & m2 & m3 & m4 & c1 & c2 & c3 & s1 & s2 & H1 & H2 & H3 & H4 & H5 & Hpeer & Hpair & Hlen).
  exists m1, m2, m3, m4, c1, c2, c3, s2. split; [done |]. split; [done |]. split; [done |]. split; [done |]. split; [done |].
  intros schedule b1 b2 rest. set (s := make context value rs).
  assert (cipher_ s = Some (zmtp_cipher.make_server (secret_ context) (public_ context))) as Hc by (unfold s, make; cbn; by rewrite Hcv).
  assert (has_cipher s = true) as Hn by (unfold has_cipher; by rewrite Hc).
  pose proof (greeting_runs schedule true s greeting (frame_encode m1 true b1 ++ frame_encode m3 true b2 ++ rest) [] _ Hl Hg) as Hruns.
  pose proof (stage2_spec true s greeting _ Hl Hg) as Hst. cbv zeta in Hst. change (set_greeting [] s) with s in Hst.
  rewrite Hst, Hn in Hruns. cbn [Bool.eqb negb orb andb] in Hruns.
  pose proof (hello_runs schedule s _ m1 m2 s1 b1 (frame_encode m3 true b2 ++ rest) ([] ++ make_greeting true true) Hc eq_refl H2) as Hrun2.
  assert (len m3 <= maximum_inbound) as Hl3 by lia.
  assert (authorized (zmtp_cipher.peer_ s2) context = true) as Ha2 by by rewrite Hpeer.
  pose proof (initiate_runs schedule (set_cipher s1 s) s1 m3 m4 properties type s2 b2 rest (([] ++ make_greeting true true) ++ frame_encode m2 true false)
    eq_refl eq_refl H4 Hl3 Ha2 Hp Ht Hok) as Hrun3. cbv zeta in Hrun3.
  eexists. split; [apply run_finish; etrans; [exact Hruns |]; etrans; [exact Hrun2 | exact Hrun3] |].
  cbn [next resume input output self fst snd]. split; [done |]. split; [done |]. split; [by rewrite app_nil_l, <- app_assoc |].
  destruct (lookup_property identity_name properties); done.
Qed.

(** ** What a handshake may come to *)

(** The cipher of the stream is the outcome of a handshake with an authorized
    client, of a compatible type. *)
Definition accepted s : Prop :=
  exists initiate data c out metadata c' type, zmtp_cipher.ready initiate data c = (Some (out, metadata), c') /\ cipher_ s = Some c' /\
    authorized (zmtp_cipher.peer_ c') (context_ s) = true /\ ready_socket_type metadata = Some type /\ compatible (role_ s) type = true.

(** The operations of a handshake with a cipher. *)
Definition curve_operation s (op : operation) : Prop :=
  match op with
  | greeting_sent as_server | greeting_first as_server | greeting_second as_server => True
  | failing => True
  | welcome_sent => True
  | curve_ready_sent => accepted s
  | frame_flags _ k | frame_length _ _ _ k | frame_body _ k => k = for_hello \/ k = for_initiate
  | _ => False
  end.

Definition shaking context value (r : t * Transport.action operation outcome) : Prop :=
  context_ r.1 = context /\ role_ r.1 = value /\ has_cipher r.1 = true /\
  match r.2 with
  | write _ op | read _ op | read_some _ op | post op => secured_ r.1 = false /\ curve_operation r.1 op
  | finish (handshaken ec) => failed ec = true \/ (secured_ r.1 = true /\ accepted r.1)
  | _ => False
  end.

Lemma shaking_fail context value reason s : context_ s = context -> role_ s = value -> has_cipher s = true -> secured_ s = false ->
  shaking context value (fail_handshake reason s).
Proof. intros. by split_and!. Qed.

Lemma shaking_deliver context value k ec size f s : context_ s = context -> role_ s = value -> has_cipher s = true -> secured_ s = false ->
  k = for_hello \/ k = for_initiate -> shaking context value (deliver k ec size f s).
Proof.
  intros Hc Hr Hh Hs [-> | ->]; cbn [deliver].
  - unfold handle_hello. destruct (failed ec) eqn:Hec; [split_and!; try done; by left |].
    destruct (negb (command f)); [by apply shaking_fail |]. destruct (is_command _ f); [| by apply shaking_fail].
    unfold with_cipher. unfold has_cipher in Hh. destruct (cipher_ s) as [c |] eqn:Hci; [| done].
    destruct (zmtp_cipher.welcome _ _ _) as [[m |] c']; [by split_and! | by apply shaking_fail].
  - unfold handle_initiate. destruct (failed ec) eqn:Hec; [split_and!; try done; by left |].
    destruct (negb (command f)); [by apply shaking_fail |]. destruct (is_command _ f); [| by apply shaking_fail].
    unfold with_cipher. unfold has_cipher in Hh. destruct (cipher_ s) as [c |] eqn:Hci; [| done].
    destruct (zmtp_cipher.ready _ _ _) as [[[out md] |] c'] eqn:Hre; [| by apply shaking_fail].
    change (context_ (set_cipher c' s)) with (context_ s).
    destruct (authorized _ _) eqn:Ha; cbn [negb]; [| by apply shaking_fail].
    unfold compatible_metadata. change (role_ (set_cipher c' s)) with (role_ s).
    destruct (ready_socket_type md) as [type |] eqn:Ht; [| by apply shaking_fail].
    destruct (compatible (role_ s) type) eqn:Hco; cbn [negb]; [| by apply shaking_fail].
    destruct (ready_property _ md); (split_and!; [done | done | done |]; split; [done |]; cbn; by eexists _, _, _, _, _, _, _).
Qed.

Lemma zmtp_shaking_complete context value op data s : context_ s = context -> role_ s = value -> has_cipher s = true -> secured_ s = false ->
  curve_operation s op -> shaking context value (completion op error.success data s).
Proof.
  intros Hc Hr Hh Hs Hop.
  assert (forall a : Transport.action operation outcome, match a with
    | write _ op | read _ op | read_some _ op | post op => curve_operation s op
    | finish (handshaken ec) => failed ec = true
    | _ => False end -> shaking context value (s, a)) as Hnext.
  { intros a Ha. split; [done |]. split; [done |]. split; [done |]. cbn [snd fst].
    destruct a as [| | | | [| | |]]; try done. by left. }
  destruct op as [b | b | b | | | | | m k | l fl m k | fl k |]; cbn [completion].
  - by apply Hnext.
  - unfold handle_greeting_stage1. change (failed (error.success : code)) with false. cbv iota zeta.
    destruct (negb _); by split_and!; first [left | idtac].
  - unfold handle_greeting_stage2. change (failed (error.success : code)) with false. cbv iota.
    destruct (parse_greeting _) as [[[mi cu] pe] |]; [| by apply Hnext].
    cbv zeta. change (has_cipher (set_greeting [] s)) with (has_cipher s). rewrite Hh.
    destruct (negb (Bool.eqb cu true) || _) eqn:He; [by apply shaking_fail |].
    destruct cu; [| done]. split; [done |]. split; [done |]. split; [done |]. split; [done | by left].
  - by apply Hnext.
  - done.
  - apply Hnext. by right.
  - split; [done |]. split; [done |]. split; [done |]. by right.
  - unfold handle_frame_flags. change (failed (error.success : code)) with false. cbv iota. by apply Hnext.
  - unfold handle_frame_length. change (failed (error.success : code)) with false. cbv iota zeta.
    destruct (_ >? m); [by apply shaking_deliver |]. destruct (_ =? 0); [| by apply Hnext].
    unfold handle_frame_body. rewrite Hs, orb_true_r. by apply shaking_deliver.
  - unfold handle_frame_body. rewrite Hs, orb_true_r. by apply shaking_deliver.
  - done.
Qed.

Definition decided context value (c : config t operation outcome) : Prop :=
  (exists n op, next c = read n op /\ len (input c) < n) \/
  (exists ec, next c = finish (handshaken ec) /\
    (failed ec = false -> secured_ (self c) = true /\ context_ (self c) = context /\ role_ (self c) = value /\ accepted (self c))).

(** C13: zmtp authorization.  Whatever its peer sends, and in whichever role it
    was connected, a stream with a keypair comes to an end or waits for bytes;
    it succeeds only with boxed frames, for an authorized client that was
    accepted by the cipher, of a compatible type.  A cipher that is missing is
    never used. *)
Theorem zmtp_handshake_decides schedule context value random as_server inp : curve_ context = true ->
  exists c, run schedule (resume (async_handshake as_server (make context value random)) inp []) = Some c /\ decided context value c.
Proof.
  intros Hcv. set (s := make context value random).
  destruct (run_total measure any_config schedule (zmtp_step_decreases schedule) (resume (async_handshake as_server s) inp []) I) as [c Hc].
  exists c. split; [exact Hc |].
  refine (run_invariant measure any_config schedule (zmtp_step_decreases schedule)
    (fun c => shaking context value (self c, next c) /\ (match next c with read_some _ _ => False | _ => True end)) (decided context value) _ c I _ _ _ Hc).
  - split; [| done]. split_and!; try done; unfold s, make, has_cipher; cbn; by rewrite Hcv.
  - assert (forall op data s, match (completion op error.success data s).2 with read_some _ _ => False | _ => True end) as Hsome.
    { intros op data s0. pose proof (zmtp_weight op error.success data s0). destruct op as [b | b | b | | | | | m k | l fl m k | fl k |]; cbn [completion];
        unfold handle_greeting_sent, handle_greeting_stage1, handle_greeting_stage2, handle_ready_sent, handle_welcome_sent, handle_curve_ready_sent,
          handle_frame_flags, handle_frame_length, handle_frame_body, deliver, handle_ready, handle_hello, handle_initiate, with_cipher, compatible_metadata;
        repeat (case_match; simplify_eq/=; try done). }
    intros c1 c2 _ [Hk Hns] Hst. unfold step in Hst. destruct Hk as (H1 & H2 & H3 & H4). cbn [fst snd] in *.
    destruct (next c1) as [d op | n op | n op | op | o] eqn:Hn; try done; try (destruct (_ <? _); [done |]);
      injection Hst as <-; destruct H4 as [H4 H5]; cbn [self next resume]; rewrite <- surjective_pairing;
      (split; [by apply zmtp_shaking_complete | apply Hsome]).
  - intros c1 c2 _ [Hk Hns] Hst. unfold step in Hst. destruct Hk as (H1 & H2 & H3 & H4). cbn [fst snd] in *.
    destruct (next c1) as [d op | n op | n op | op | o] eqn:Hn; try done.
    + destruct (_ <? _) eqn:Hlt; [| done]. injection Hst as <-. left. eexists _, _. split; [done | lia].
    + injection Hst as <-. right. destruct o as [ec | | |]; try done. exists ec. split; [done |]. intros Hec.
      destruct H4 as [H4 | [H4 H5]]; [congruence | done].
Qed.

(** ** Frames *)

Definition frame_spec : Type := bytes * bool * bool.

Definition frames (l : list frame_spec) : bytes := concat (map (fun '(contents, is_command, is_more) => frame_encode contents is_command is_more) l).

(** The frames are read one by one, and what follows them is left. *)
Fixpoint receives (schedule : Z -> Z) (maximum : Z) (l : list frame_spec) (y : t) (inp rest : bytes) : Prop :=
  match l with
  | [] => inp = rest
  | (contents, is_command, is_more) :: l =>
    exists c f, run schedule (resume (async_read_frame maximum for_caller y) inp []) = Some c /\
      next c = finish (framed error.success (len contents) f) /\
      body f = contents /\ command f = is_command /\ more f = is_more /\ receives schedule maximum l (self c) (input c) rest
  end.

Lemma receives_plain schedule maximum rest : forall l y, secured_ y = false ->
  Forall (fun '(contents, _, _) => len contents <= maximum /\ len contents < 2 ^ 64) l ->
  receives schedule maximum l y (frames l ++ rest) rest.
Proof.
  induction l as [| [[contents is_command] is_more] l IH]; intros y Hy Hl; [done |].
  apply Forall_cons in Hl as [[Hm H64] Hl]. cbn [receives frames map concat]. fold (frames l). rewrite <- app_assoc.
  pose proof (read_frame_runs schedule maximum for_caller y contents is_command is_more (frames l ++ rest) [] H64 Hm) as Hr.
  unfold handle_frame_body in Hr. rewrite Hy, orb_true_r in Hr. cbn [deliver] in Hr. destruct (frame_of_flags contents is_command is_more) as [Hc Hmo].
  eexists _, _. split; [by apply run_finish |]. cbn [next self input resume fst snd]. split_and!; try done. by apply IH.
Qed.

Definition payload_of (is_command is_more : bool) : Z :=
  Z.lor (if is_more then zmtp_cipher.payload_more else 0) (if is_command then zmtp_cipher.payload_command else 0).

Lemma payload_flags (c m : bool) : has zmtp_cipher.payload_more (payload_of c m) = m /\ has zmtp_cipher.payload_command (payload_of c m) = c.
Proof. by destruct c, m. Qed.

Lemma box_decreases : decreases (fun _ => True) (fun w : zmtp_cipher.t * bytes * bytes => length w.2) box_step.
Proof.
  intros [[c boxed] buffer] w' _. unfold box_step. cbn [snd]. destruct buffer as [| b buffer]; [done |].
  destruct (frame_decode _) as [[f rest] |] eqn:Hd; [| done]. destruct (zmtp_cipher.encode _ _ c) as [[m |] c']; [| done].
  intros [= <-]. split; [done |]. cbn [snd]. by apply frame_decode_shorter in Hd.
Qed.

Context `{!zmtp_cipher.CurveLaws}.

Lemma boxed_size flags body c m c' : zmtp_cipher.encode flags body c = (Some m, c') -> len m = zmtp_cipher.message_minimum + len body.
Proof.
  unfold zmtp_cipher.encode. destruct (zmtp_cipher.session_box_ c); [| done]. intros Hen. apply (f_equal fst) in Hen. cbn [fst] in Hen.
  apply (f_equal (from_option len 0)) in Hen. cbn [from_option] in Hen. rewrite <- Hen. unfold zmtp_cipher.seal.
  rewrite !len_app, zmtp_cipher.len_box, len_cons, len_be_bytes. change (len (zmtp_cipher.name [] zmtp_cipher.command_message)) with 8.
  unfold zmtp_cipher.tag_size, zmtp_cipher.message_minimum. lia.
Qed.

Lemma secured_body_spec contents is_command is_more m b b' y fl : secured_ y = true -> cipher_ y = Some b ->
  zmtp_cipher.decode m b = (Some (payload_of is_command is_more, contents), b') ->
  exists f, handle_frame_body error.success (mk_frame fl m) for_caller y =
      (set_cipher b' y, finish (framed error.success (len contents) f)) /\
    body f = contents /\ command f = is_command /\ more f = is_more.
Proof.
  intros Hs Hc Hd. unfold handle_frame_body. change (failed (error.success : code)) with false. rewrite Hs. cbn [negb orb].
  assert (zmtp_cipher.named m zmtp_cipher.command_message = true) as Hn.
  { unfold zmtp_cipher.decode in Hd. destruct (zmtp_cipher.session_box_ b); [| done].
    destruct (zmtp_cipher.named m _); [done |]. by rewrite orb_true_r in Hd. }
  destruct (named_command fl m command_message Hn) as (content & Hcm). unfold zmtp_stream.is_command in Hcm. cbn [body] in *.
  destruct (command_name m) as [[name c0] |]; [| done]. case_bool_decide; [| done]. subst name.
  rewrite (bool_decide_false (command_message = command_error)) by done. rewrite andb_false_r.
  cbn [negb]. unfold with_cipher. rewrite Hc, Hd.
  destruct (payload_flags is_command is_more) as [-> ->]. cbn [deliver]. eexists. split; [done |]. cbn [body].
  split; [done |]. by destruct is_command, is_more.
Qed.

Lemma boxes_delivered schedule maximum rest : forall l a b pre, zmtp_curve.paired a b -> zmtp_cipher.nonce_ a + len l < 2 ^ 64 ->
  Forall (fun '(contents, _, _) => zmtp_cipher.message_minimum + len contents <= maximum /\ zmtp_cipher.message_minimum + len contents < 2 ^ 64) l ->
  exists boxed a', while (fun w : zmtp_cipher.t * bytes * bytes => length w.2) box_step (a, pre, frames l) = Some (Some (pre ++ boxed), a') /\
    forall y, secured_ y = true -> cipher_ y = Some b -> receives schedule maximum l y (boxed ++ rest) rest.
Proof.
  induction l as [| [[contents is_command] is_more] l IH]; intros a b pre Hp Hn Hl.
  - exists [], a. rewrite app_nil_r. by split.
  - apply Forall_cons in Hl as [[Hm H64] Hl]. rewrite len_cons in Hn. pose proof (len_nonneg l) as Hll.
    assert (len contents < 2 ^ 64) as Hc64 by (unfold zmtp_cipher.message_minimum in *; lia).
    destruct (frame_round_trip contents is_command is_more (frames l) Hc64) as (f & Hd & Hb & Hc & Hmo & Hsz).
    destruct Hp as (Hsv & (session & Ha & Hbs) & Hab & Hba).
    pose proof (zmtp_curve.encode_spec (payload_of is_command is_more) contents a session Ha) as Hen.
    pose proof (zmtp_curve.decode_spec (payload_of is_command is_more) contents b session (zmtp_cipher.nonce_ a) Hbs) as Hde.
    specialize (Hde ltac:(lia) ltac:(lia)).
    assert ((if zmtp_cipher.server_ a then zmtp_cipher.prefix_server else zmtp_cipher.prefix_client) =
      (if zmtp_cipher.server_ b then zmtp_cipher.prefix_client else zmtp_cipher.prefix_server)) as Hpre
      by (rewrite Hsv; by destruct (zmtp_cipher.server_ b)).
    rewrite <- Hpre in Hde. set (m := (_ ++ _) ++ _) in Hen, Hde.
    assert (narrow 64 (zmtp_cipher.nonce_ a + 1) = zmtp_cipher.nonce_ a + 1) as Hna by (unfold narrow; apply Z.mod_small; lia).
    destruct (IH (zmtp_cipher.next_nonce a) (zmtp_cipher.set_peer_nonce (zmtp_cipher.nonce_ a) b) (pre ++ frame_encode m false false))
      as (boxed & a' & Hw & Hrec); [split; [done |]; split; [by exists session |]; cbn; rewrite Hna; lia | cbn; rewrite Hna; lia | done |].
    exists (frame_encode m false false ++ boxed), a'. pose proof (boxed_size _ _ _ _ _ Hen) as Hms. split.
    + rewrite (while_unfold (fun _ => True)) by (done || apply box_decreases). cbn [frames map concat]. fold (frames l).
      unfold box_step at 1. destruct (frame_encode contents is_command is_more ++ frames l) as [| b0 buffer] eqn:He.
      { apply (f_equal len) in He. rewrite len_app, Hsz, len_nil in He. unfold frame_size in He.
        pose proof (len_nonneg (frames l)). pose proof (len_nonneg contents). destruct (_ >? _); lia. }
      rewrite Hd, Hb, Hc, Hmo. fold (payload_of is_command is_more). rewrite Hen. rewrite Hw. by rewrite <- app_assoc.
    + intros y Hs Hcy. cbn [receives]. rewrite <- app_assoc.
      pose proof (read_frame_runs schedule maximum for_caller y m false false (boxed ++ rest) [] ltac:(lia) ltac:(lia)) as Hr.
      destruct (secured_body_spec contents is_command is_more m b _ y (zget (write_frame_head (len m) false false) 0) Hs Hcy Hde) as (g & Hg & Hgb & Hgc & Hgm).
      change (frame_of m false false) with (mk_frame (zget (write_frame_head (len m) false false) 0) m) in Hr. rewrite Hg in Hr.
      eexists _, g. split; [by apply run_finish |]. cbn [next self input resume fst snd]. split_and!; try done. by apply Hrec.
Qed.

(** Two streams whose frames are not boxed, or whose ciphers are paired. *)
Definition linked (x y : t) : Prop :=
  (secured_ x = false /\ secured_ y = false) \/
  (exists a b, secured_ x = true /\ secured_ y = true /\ cipher_ x = Some a /\ cipher_ y = Some b /\ zmtp_curve.paired a b).

(** C39: zmtp frames.  The frames that a stream writes are the frames that the
    other end reads, in order, with their contents and flags, whether or not
    they are boxed; what follows them is left.  A boxed frame needs 33 bytes
    more of the bound of the reader. *)
Theorem zmtp_frames_delivered schedule maximum l x y rest : linked x y ->
  (forall a, cipher_ x = Some a -> zmtp_cipher.nonce_ a + len l < 2 ^ 64) ->
  Forall (fun '(contents, _, _) => zmtp_cipher.message_minimum + len contents <= maximum /\ zmtp_cipher.message_minimum + len contents < 2 ^ 64) l ->
  exists x' data, async_write (frames l) x = (x', write data written) /\ receives schedule maximum l y (data ++ rest) rest.
Proof.
  intros [[Hx Hy] | (a & b & Hx & Hy & Ha & Hb & Hp)] Hn Hl; unfold async_write; rewrite Hx; cbn [negb].
  - eexists _, _. split; [done |]. apply receives_plain; [done |].
    eapply Forall_impl; [exact Hl |]. intros [[contents ?] ?] [? ?]. unfold zmtp_cipher.message_minimum in *. lia.
  - destruct (boxes_delivered schedule maximum rest l a b [] Hp (Hn a Ha) Hl) as (boxed & a' & Hw & Hr).
    unfold with_cipher, box_frames. rewrite Ha, Hw. eexists _, _. split; [done |]. by apply Hr.
Qed.
End stream.

Import zmtp_curve.

Definition sample_context (clients : list bytes) : context := make_context (repeat 8 32) clients.

Lemma zmtp_null_handshake_witness :
  let ready := command_body command_ready (metadata [(socket_type_name, chars "SUB"); (identity_name, chars "me")]) in
  exists c, run (fun n => n) (resume (async_handshake true (make null_context publisher (sample_random 2)))
      (make_greeting false false ++ frame_encode ready true false ++ [1]) []) = Some c /\
    next c = finish (handshaken error.success) /\ input c = [1] /\
    output c = make_greeting true false ++ make_ready publisher /\
    identity_ (self c) = default [] (lookup_property identity_name [(socket_type_name, chars "SUB"); (identity_name, chars "me")]).
Proof.
  intros ready. apply (zmtp_null_handshake (fun n => n) null_context publisher (sample_random 2) true (make_greeting false false) 1 false
    [(socket_type_name, chars "SUB"); (identity_name, chars "me")] (chars "SUB") false [1]); try reflexivity.
  - repeat constructor; by vm_compute.
  - by vm_compute.
Defined.

Lemma zmtp_curve_handshake_witness :
  exists m1 m2 m3 m4 c1 c2 c3 s,
    zmtp_cipher.hello (sample_random 1) (zmtp_cipher.make_client (repeat 7 32) (repeat 7 32) (public_ (sample_context [repeat 7 32]))) = (Some m1, c1) /\
    zmtp_cipher.initiate (sample_random 1) m2 (metadata [(socket_type_name, chars "DEALER")]) c1 = (Some m3, c2) /\
    zmtp_cipher.complete m4 c2 = (Some (make_property socket_type_name (socket_type router)), c3) /\
    paired c3 s /\ zmtp_cipher.peer_ s = repeat 7 32 /\
    forall schedule b1 b2 rest, exists c,
      run schedule (resume (async_handshake true (make (sample_context [repeat 7 32]) router (sample_random 2)))
        (make_greeting false true ++ frame_encode m1 true b1 ++ frame_encode m3 true b2 ++ rest) []) = Some c /\
      next c = finish (handshaken error.success) /\ input c = rest /\
      output c = make_greeting true true ++ frame_encode m2 true false ++ frame_encode m4 true false /\
      secured_ (self c) = true /\ cipher_ (self c) = Some s /\
      identity_ (self c) = default [] (lookup_property identity_name [(socket_type_name, chars "DEALER")]).
Proof.
  apply (zmtp_curve_handshake (sample_context [repeat 7 32]) router (sample_random 2) (sample_random 1) (repeat 7 32) (repeat 7 32)
    (make_greeting false true) 1 [(socket_type_name, chars "DEALER")] (chars "DEALER")); try reflexivity.
  - by repeat split.
  - by repeat split.
  - repeat constructor; by vm_compute.
  - by vm_compute.
Defined.

Lemma zmtp_handshake_decides_witness :
  exists c, run (fun n => n) (resume (async_handshake true (make (sample_context []) router (sample_random 2))) (repeat 255 100) []) = Some c /\
    decided (sample_context []) router c.
Proof. apply (zmtp_handshake_decides (fun n => n) (sample_context []) router (sample_random 2) true (repeat 255 100)). reflexivity. Defined.

Definition sample_stream (server : bool) : t :=
  mk (sample_context []) router [] (Some (sample_end server (if server then 5 else 8) (if server then 7 else 4))) true [] (sample_random 2).

Lemma zmtp_frames_delivered_witness :
  exists x' data, async_write (frames [(chars "topic", false, true); (repeat 7 300, false, false)]) (sample_stream true) = (x', write data written) /\
    receives (fun n => n) 1000 [(chars "topic", false, true); (repeat 7 300, false, false)] (sample_stream false) (data ++ [1]) [1].
Proof.
  apply zmtp_frames_delivered.
  - right. exists (sample_end true 5 7), (sample_end false 8 4). split; [done |]. split; [done |]. split; [done |]. split; [done |].
    split; [done |]. split; [by exists [1; 2; 3] | cbn; lia].
  - intros a [= <-]. done.
  - repeat constructor; by vm_compute.
Defined.
End zmtp_handshake.
