(* ===== verification/ZmtpSocket.v ===== *)
(** * ZmtpSocket: rpc messages over ZMTP, by role

    Models [src/net/socket_zmtp.cpp] with the values of
    [include/bitcoin/network/messages/rpc/model.hpp].  Shared bytes are their
    content, a streamable value is its size, its shared bytes and what it
    writes.  The buffers of a packet are written as the bytes they refer to. *)

From S2P Require Import Prelude.
From S2P Require Import Errors.
From S2P Require Import Stream.
From S2P Require Import ZmtpCipher.
From S2P Require Import ZmtpCodec.

Module zmtp_socket.
Import zmtp_codec.

(** ** Values *)

Record streamable := mk_streamable { size : Z; shared_bytes : option bytes; writes : bytes }.

(** What the interface promises. *)
Definition streamable_ok (v : streamable) : Prop :=
  len (writes v) = size v /\ forall b, shared_bytes v = Some b -> b = writes v.

(** The alternatives of a value; an integer has its number of bytes. *)
Inductive value :=
  | null_t
  | boolean_t (flag : bool)
  | number_t
  | string_t (text : bytes)
  | array_t (values : list value)
  | object_t
  | integer_t (width : nat) (number : Z)
  | any_chunk (b : bytes)
  | any_streamable (v : streamable)
  | any_other
  | json_t.

Inductive params := single (v : value) | positional (l : list value) | named.

Inductive identity := null_id | code_id (v : Z) | string_id (v : bytes).

Record request := mk_request { id : option identity; method : bytes; parameters : option params }.

Record result := mk_result { result_code : Z; message : bytes }.

Record response := mk_response { error_ : option result; result_ : option value }.

Definition set_id (i : identity) (r : request) : request := mk_request (Some i) (method r) (parameters r).
Definition set_call (m : bytes) (p : params) (r : request) : request := mk_request (id r) m (Some p).

Definition command_ping : bytes := chars "PING".
Definition command_subscribe : bytes := chars "SUBSCRIBE".
Definition command_cancel : bytes := chars "CANCEL".
Definition method_ping : bytes := chars "ping".
Definition method_pong : bytes := chars "pong".
Definition method_subscribe : bytes := chars "subscribe".
Definition ttl_size : Z := 2.

(** ** Decoding *)

Definition decode_request (out : request) (parts : list frame) (start : Z) : code * request :=
  match zdrop start parts with
  | [] => (error.zmtp_unexpected_message : code, out)
  | part :: rest =>
    if is_empty (body part) then (error.zmtp_unexpected_message : code, out) else
    (error.success : code, set_call (body part) (positional (map (fun f => any_chunk (body f)) rest)) out)
  end.

Definition decode_subscription (out : request) (prefix : bytes) (cancel : bool) : request :=
  set_call method_subscribe (positional [any_chunk prefix; boolean_t cancel]) out.

Definition decode_command (out : request) (value : role) (command : frame) : code * request :=
  match command_name (body command) with
  | None => (error.zmtp_unexpected_command : code, out)
  | Some (name, content) =>
    if bool_decide (name = command_ping) then
      if len content <? ttl_size then (error.zmtp_unexpected_command : code, out) else
      (error.success : code, set_call method_ping
        (positional [integer_t 2 (be_value (ztake ttl_size content)); any_chunk (zdrop ttl_size content)]) out)
    else if bool_decide (name = command_pong) then (error.success : code, set_call method_pong (positional [any_chunk content]) out)
    else
    match value with
    | publisher =>
      if bool_decide (name = command_subscribe) then (error.success : code, decode_subscription out content false)
      else if bool_decide (name = command_cancel) then (error.success : code, decode_subscription out content true)
      else (error.zmtp_unexpected_command : code, out)
    | _ => (error.zmtp_unexpected_command : code, out)
    end
  end.

(** [parts] is not empty. *)
Definition decode_message (out : request) (value : role) (parts : list frame) (identity : bytes) : code * request :=
  let front := match parts with f :: _ => body f | [] => [] end in
  match value with
  | publisher =>
    match front with
    | first :: prefix =>
      if negb (len parts =? 1) || (first >? 1) then (error.zmtp_unexpected_message : code, out)
      else (error.success : code, decode_subscription out prefix (first =? 0))
    | [] => (error.zmtp_unexpected_message : code, out)
    end
  | puller => decode_request out parts 0
  | replier =>
    if negb (is_empty front) then (error.zmtp_unexpected_message : code, out)
    else decode_request (set_id null_id out) parts 1
  | router =>
    let out := set_id (if is_empty identity then null_id else string_id identity) out in
    decode_request out parts (if is_empty front then 1 else 0)
  | undefined => (error.bad_stream : code, out)
  end.

(** ** The read of a message *)

Record read_state := mk_read { out_ : request; parts_ : list frame; total_ : Z }.

Inductive progress := next_frame (s : read_state) | complete (ec : code) (total : Z) (out : request).

Definition ceilinged_add (a b : Z) : Z := (a + b) `min` (2 ^ 64 - 1).

(** [socket::handle_async]. *)
Definition async_code (ec : code) : code :=
  if bool_decide (ec = (error.operation_canceled : code)) then error.channel_stopped else ec.

Definition do_zmtp_read (value : role) (s : read_state) : progress :=
  match value with undefined => complete error.bad_stream 0 (out_ s) | _ => next_frame s end.

Definition handle_zmtp_read (value : role) (identity : bytes) (ec : code) (size : Z) (f : frame) (s : read_state) : progress :=
  let total := ceilinged_add (total_ s) size in
  if bool_decide (ec = (error.oversized_payload : code)) then complete ec total (out_ s) else
  if failed ec then complete (async_code ec) total (out_ s) else
  let parts := parts_ s ++ [f] in
  if command f then
    if negb (len parts =? 1) || more f then complete error.zmtp_unexpected_command total (out_ s) else
    let '(ec, out) := decode_command (out_ s) value f in complete ec total out
  else if negb (more f) then
    let '(ec, out) := decode_message (out_ s) value parts identity in complete ec total out
  else if len parts >=? maximum_parts then complete error.zmtp_excessive_parts total (out_ s)
  else do_zmtp_read value (mk_read (out_ s) parts total).

(** The message, as the stream completes its frame reads, and the completions
    that were not asked for; [None] while a frame is awaited. *)
Fixpoint read_message (value : role) (identity : bytes) (p : progress) (completions : list (code * Z * frame)) :
    option (code * Z * request * list (code * Z * frame)) :=
  match p with
  | complete ec total out => Some (ec, total, out, completions)
  | next_frame s =>
    match completions with
    | [] => None
    | (ec, size, f) :: rest => read_message value identity (handle_zmtp_read value identity ec size f s) rest
    end
  end.

Definition zmtp_read (value : role) (identity : bytes) (out : request) : list (code * Z * frame) ->
    option (code * Z * request * list (code * Z * frame)) :=
  read_message value identity (do_zmtp_read value (mk_read out [] 0)).

(** ** Encoding *)

Definition encode_value (v : value) : option bytes :=
  match v with
  | null_t => Some []
  | boolean_t flag => Some [if flag then 1 else 0]
  | string_t text => Some text
  | any_chunk b => Some b
  | integer_t width number => Some (le_bytes width (number mod 256 ^ Z.of_nat width))
  | _ => None
  end.

Fixpoint encode_values (l : list value) : option (list bytes) :=
  match l with
  | [] => Some []
  | v :: l =>
    match encode_value v with
    | None => None
    | Some b => match encode_values l with Some bs => Some (b :: bs) | None => None end
    end
  end.

Definition encode_params (p : option params) : option (list bytes) :=
  match p with
  | None => Some []
  | Some (single v) => encode_values [v]
  | Some (positional l) => encode_values l
  | Some named => None
  end.

(** A message part is bytes, shared bytes or a streamable value. *)
Record part := mk_part { part_bytes : bytes; chunk : option bytes; part_value : option streamable }.

Definition plain_part (b : bytes) : part := mk_part b None None.

Definition part_size (p : part) : Z :=
  match part_value p with
  | Some v => size v
  | None => match chunk p with Some b => len b | None => len (part_bytes p) end
  end.

Definition encode_part (v : value) : option part :=
  match v with
  | any_chunk b => Some (mk_part [] (Some b) None)
  | any_streamable v => Some (mk_part [] None (Some v))
  | any_other => None
  | _ => match encode_value v with Some b => Some (plain_part b) | None => None end
  end.

Fixpoint encode_part_list (l : list value) : option (list part) :=
  match l with
  | [] => Some []
  | v :: l =>
    match encode_part v with
    | None => None
    | Some p => match encode_part_list l with Some ps => Some (p :: ps) | None => None end
    end
  end.

Definition encode_parts (p : option params) : option (list part) :=
  match p with
  | None => Some []
  | Some (single v) => encode_part_list [v]
  | Some (positional l) => encode_part_list l
  | Some named => None
  end.

(** A range of the packet, or bytes that are shared. *)
Inductive region := packed (begin size : Z) | shared (b : bytes).

Definition share_of (p : part) : option bytes :=
  match chunk p with Some b => Some b | None => match part_value p with Some v => shared_bytes v | None => None end end.

Definition body_size (p : part) : Z := match share_of p with Some b => len b | None => part_size p end.

(** The bytes of the packet that a part takes. *)
Definition packed_size (p : part) : Z :=
  frame_size (body_size p) - match share_of p with Some _ => body_size p | None => 0 end.

Fixpoint packet_size (message : list part) : Z :=
  match message with [] => 0 | p :: rest => packed_size p + packet_size rest end.

(** What is written, the start of the range that is open, and the position. *)
Record packing := mk_packing { written : bytes; cut : Z; position : Z; regions : list region }.

Definition pack_part (p : part) (is_more : bool) (s : packing) : packing :=
  let body := body_size p in
  let w := written s ++ write_frame_head body false is_more in
  let position := position s + (frame_size body - body) in
  match share_of p with
  | Some b =>
    let regions := regions s ++ (if position >? cut s then [packed (cut s) (position - cut s)] else []) in
    mk_packing w position position (regions ++ [shared b])
  | None =>
    let w := w ++ match part_value p with Some v => writes v | None => part_bytes p end in
    mk_packing w (cut s) (position + body) (regions s)
  end.

Fixpoint pack_parts (message : list part) (s : packing) : packing :=
  match message with
  | [] => s
  | p :: rest => pack_parts rest (pack_part p (negb (is_empty rest)) s)
  end.

Definition resolve (packet : bytes) (r : region) : bytes :=
  match r with packed begin size => ztake size (zdrop begin packet) | shared b => b end.

(** The buffers of the message; its writes must fit the packet. *)
Definition frame_parts (message : list part) : option (list bytes) :=
  let size := packet_size message in
  let s := pack_parts message (mk_packing [] 0 0 []) in
  let regions := regions s ++ (if position s >? cut s then [packed (cut s) (position s - cut s)] else []) in
  if len (written s) >? size then None else
  let packet := written s ++ repeat 0 (Z.to_nat (size - len (written s))) in
  Some (map (resolve packet) regions).

Definition encode_notification (value : role) (notification : request) : option (list bytes) :=
  if bool_decide (method notification = method_pong) || bool_decide (method notification = method_ping) then
    match encode_params (parameters notification) with
    | None => None
    | Some parts =>
      if bool_decide (method notification = method_pong) then
        match parts with [content] => Some [make_pong content] | _ => None end
      else
        match parts with
        | [ttl; content] => if negb (len ttl =? ttl_size) then None else Some [make_command command_ping (rev ttl ++ content)]
        | _ => None
        end
    end
  else
  let envelope := match value with publisher => Some [] | router => Some [plain_part []] | _ => None end in
  match envelope with
  | None => None
  | Some envelope =>
    match encode_parts (parameters notification) with
    | None => None
    | Some parts => frame_parts (envelope ++ [plain_part (method notification)] ++ parts)
    end
  end.

Definition encode_response (value : role) (r : response) : option (list bytes) :=
  match value with
  | replier | router =>
    match error_ r with
    | Some e =>
      match encode_part (integer_t 8 (result_code e)) with
      | None => None
      | Some p => frame_parts [plain_part []; p; plain_part (message e)]
      end
    | None =>
      match encode_part (default null_t (result_ r)) with
      | None => None
      | Some p => frame_parts [plain_part []; p]
      end
    end
  | _ => None
  end.

(** The writes: the buffers to write, or the code to report. *)
Definition do_zmtp_notify (value : role) (out : request) : list bytes + code :=
  match encode_notification value out with Some buffers => inl buffers | None => inr (error.zmtp_unserializable : code) end.

Definition do_zmtp_response (value : role) (out : response) : list bytes + code :=
  match encode_response value out with Some buffers => inl buffers | None => inr (error.zmtp_unserializable : code) end.

(** ** Buffers *)

(** The content of a part. *)
Definition content (p : part) : bytes :=
  match share_of p with Some b => b | None => match part_value p with Some v => writes v | None => part_bytes p end end.

Definition part_ok (p : part) : Prop :=
  (forall v, part_value p = Some v -> streamable_ok v) /\ (chunk p <> None -> part_value p = None).

Lemma body_size_content p : part_ok p -> body_size p = len (content p).
Proof.
  intros [Hv Hc]. unfold body_size, content, part_size. destruct (share_of p) as [b |] eqn:Hs; [done |].
  unfold share_of in Hs. destruct (chunk p); [done |]. destruct (part_value p) as [v |]; [| done].
  by destruct (Hv v eq_refl) as [<- _].
Qed.

(** What the regions so far refer to, in any packet that begins with what has
    been written. *)
Definition flat (s : packing) (whole : bytes) : Prop :=
  0 <= cut s <= position s /\ position s = len (written s) /\
  forall rest, concat (map (resolve (written s ++ rest)) (regions s)) ++ zdrop (cut s) (written s) = whole.

Lemma resolve_tail s whole rest : flat s whole ->
  concat (map (resolve (written s ++ rest)) (regions s ++ (if position s >? cut s then [packed (cut s) (position s - cut s)] else []))) = whole.
Proof.
  intros (Hc & Hp & Hf). rewrite map_app, concat_app, <- (Hf rest). f_equal.
  destruct (position s >? cut s) eqn:Hgt; cbn [map concat resolve].
  - rewrite app_nil_r, zdrop_app_le by lia. rewrite ztake_app_len; [done |]. rewrite len_zdrop by lia. lia.
  - by rewrite zdrop_ge by lia.
Qed.

Lemma pack_part_flat p is_more s whole : part_ok p -> flat s whole ->
  flat (pack_part p is_more s) (whole ++ frame_encode (content p) false is_more).
Proof.
  intros Hok Hs. pose proof (body_size_content p Hok) as Hb. pose proof (len_head (body_size p) false is_more) as Hh.
  set (head := write_frame_head (body_size p) false is_more) in *. pose proof (len_nonneg head).
  set (s1 := mk_packing (written s ++ head) (cut s) (position s + (frame_size (body_size p) - body_size p)) (regions s)).
  assert (flat s1 (whole ++ head)) as Hs1.
  { destruct Hs as (Hc & Hp & Hf). unfold s1. split; cbn [cut position written regions]; [lia |]. split; [rewrite len_app; lia |].
    intros rest. rewrite zdrop_app_le by lia. rewrite <- app_assoc, app_assoc, <- (Hf (head ++ rest)). by rewrite <- !app_assoc. }
  unfold frame_encode. rewrite <- Hb. fold head. rewrite app_assoc. unfold pack_part. fold head. unfold content in *.
  destruct (share_of p) as [b |] eqn:Hsh.
  - pose proof (fun rest => resolve_tail s1 _ rest Hs1) as Ht. destruct Hs1 as (Hc & Hp & _). cbn [cut position written regions s1] in *.
    split; cbn [cut position written regions]; [lia |]. split; [done |]. intros rest.
    rewrite zdrop_ge by lia. rewrite app_nil_r, map_app, concat_app, Ht. cbn [map concat resolve]. by rewrite app_nil_r.
  - destruct Hs1 as (Hc & Hp & Hf). cbn [cut position written regions s1] in *.
    set (w := match part_value p with Some v => writes v | None => part_bytes p end) in *. pose proof (len_nonneg w).
    split; cbn [cut position written regions]; [lia |]. split; [rewrite (len_app _ w); lia |]. intros rest.
    rewrite zdrop_app_le by lia. rewrite <- app_assoc, app_assoc, <- (Hf (w ++ rest)). by rewrite <- !app_assoc.
Qed.

Lemma pack_parts_flat message : Forall part_ok message -> forall s whole, flat s whole ->
  flat (pack_parts message s) (whole ++ frame_message (map content message)) /\
  len (written (pack_parts message s)) = len (written s) + packet_size message.
Proof.
  induction 1 as [| p message Hp _ IH]; intros s whole Hs; cbn [pack_parts packet_size map frame_message].
  - rewrite app_nil_r. split; [done | lia].
  - assert (is_empty (map content message) = is_empty message) as -> by by destruct message.
    destruct (IH _ _ (pack_part_flat p (negb (is_empty message)) s whole Hp Hs)) as [Hf Hl].
    split; [by rewrite app_assoc |]. rewrite Hl. pose proof (body_size_content p Hp) as Hb.
    pose proof (len_head (body_size p) false (negb (is_empty message))) as Hh.
    assert (len (written (pack_part p (negb (is_empty message)) s)) = len (written s) + packed_size p) as ->; [| lia].
    unfold pack_part, packed_size. unfold content in Hb. destruct (share_of p) as [b |]; cbn [written].
    + rewrite len_app. lia.
    + rewrite !len_app. lia.
Qed.

Lemma frame_parts_spec message : Forall part_ok message ->
  exists buffers, frame_parts message = Some buffers /\ concat buffers = frame_message (map content message).
Proof.
  intros Hm. destruct (pack_parts_flat message Hm (mk_packing [] 0 0 []) []) as [Hf Hl].
  { split; [done |]. split; [done |]. intros rest. done. }
  cbn [written app] in Hf, Hl. rewrite len_nil in Hl. unfold frame_parts. rewrite Hl.
  destruct (_ >? _) eqn:Hgt; [lia |]. eexists. split; [done |]. by apply resolve_tail.
Qed.

(** Zmtp buffers.  However its parts are held, the buffers that are written
    for a message are together its frames, as if each part were copied. *)
Theorem zmtp_buffers_exact message : Forall part_ok message ->
  exists buffers, frame_parts message = Some buffers /\ concat buffers = frame_message (map content message) /\
    (Forall (fun p => len (content p) < 2 ^ 64) message ->
     exists fs, decode_frames (concat buffers) = Some fs /\ message_of (map content message) fs).
Proof.
  intros Hm. destruct (frame_parts_spec message Hm) as (buffers & Hf & Hc). exists buffers. split; [done |]. split; [done |].
  intros Hl. rewrite Hc. destruct (frames_message (map content message)) with (l := @nil frame) as (fs & Hw & Hms).
  - by apply Forall_map.
  - exists fs. unfold decode_frames. by rewrite Hw.
Qed.

Lemma zmtp_buffers_exact_witness :
  let message := [plain_part []; mk_part [] (Some (repeat 7 300)) None; mk_part [] None (Some (mk_streamable 3 None [1; 2; 3]))] in
  exists buffers, frame_parts message = Some buffers /\ concat buffers = frame_message (map content message) /\
    (Forall (fun p => len (content p) < 2 ^ 64) message ->
     exists fs, decode_frames (concat buffers) = Some fs /\ message_of (map content message) fs).
Proof.
  intros message. apply zmtp_buffers_exact.
  apply Forall_cons; split; [by split |]. apply Forall_cons; split; [by split |]. apply Forall_cons; split; [| constructor].
  split; [| done]. intros v [= <-]. split; done.
Defined.

(** ** Messages *)

(** What a role makes of the parts of a message: the topic that is subscribed
    or cancelled, or a method and its parameters, after the envelope. *)
Definition reads_as (value : role) (identity : bytes) (parts : list bytes) (out : request) : Prop :=
  match value with
  | publisher => exists first prefix, parts = [first :: prefix] /\ 0 <= first <= 1 /\ id out = None /\
      method out = method_subscribe /\ parameters out = Some (positional [any_chunk prefix; boolean_t (first =? 0)])
  | puller => exists m l, parts = m :: l /\ m <> [] /\ out = mk_request None m (Some (positional (map any_chunk l)))
  | replier => exists m l, parts = [] :: m :: l /\ m <> [] /\ out = mk_request (Some null_id) m (Some (positional (map any_chunk l)))
  | router => exists m l, (parts = m :: l \/ parts = [] :: m :: l) /\ m <> [] /\
      out = mk_request (Some (if is_empty identity then null_id else string_id identity)) m (Some (positional (map any_chunk l)))
  | undefined => False
  end.

Definition no_request : request := mk_request None [] None.

(** The frames of a message, as the stream completes their reads. *)
Definition completed (fs : list frame) : list (code * Z * frame) := map (fun f => ((error.success : code), len (body f), f)) fs.

Lemma handle_part value identity f s parts : parts_ s = parts -> value <> undefined -> command f = false -> more f = true ->
  len parts + 1 < maximum_parts ->
  handle_zmtp_read value identity error.success (len (body f)) f s =
    next_frame (mk_read (out_ s) (parts ++ [f]) (ceilinged_add (total_ s) (len (body f)))).
Proof.
  intros <- Hv Hc Hm Hl. unfold handle_zmtp_read. rewrite bool_decide_false by done. change (failed (error.success : code)) with false.
  cbv iota. rewrite Hc, Hm. cbn [negb]. rewrite len_app. change (len [f]) with 1.
  destruct (_ >=? _) eqn:Hge; [lia |]. by destruct value.
Qed.

Lemma read_complete value identity ec total out rest :
  read_message value identity (complete ec total out) rest = Some (ec, total, out, rest).
Proof. by destruct rest. Qed.

(** All parts but the last are collected, while they are fewer than the limit. *)
Lemma read_parts value identity : value <> undefined -> forall fs parts s rest,
  parts <> [] -> message_of parts fs -> len (parts_ s) + len parts <= maximum_parts ->
  exists total, read_message value identity (next_frame s) (completed fs ++ rest) =
    (let '(ec, out) := decode_message (out_ s) value (parts_ s ++ fs) identity in Some (ec, total, out, rest)).
Proof.
  intros Hv fs. induction fs as [| f fs IH]; intros parts s rest Hne Hm Hl; [by destruct parts |].
  destruct parts as [| b parts]; [done |]. cbn [message_of] in Hm. destruct Hm as [(Hb & Hmo & Hc) Hm]. rewrite len_cons in Hl.
  pose proof (len_nonneg parts). cbn [completed map app read_message]. fold (completed fs). destruct parts as [| b2 parts].
  - destruct fs; [| done]. unfold handle_zmtp_read. rewrite bool_decide_false by done. change (failed (error.success : code)) with false.
    cbv iota. rewrite Hc, Hmo. cbn [is_empty negb]. destruct (decode_message _ _ _ _) as [ec out]. eexists. apply read_complete.
  - rewrite len_cons in *. pose proof (len_nonneg parts).
    rewrite (handle_part value identity f s (parts_ s)) by (done || lia).
    destruct (IH (b2 :: parts) (mk_read (out_ s) (parts_ s ++ [f]) (ceilinged_add (total_ s) (len (body f)))) rest) as (total & He); [done | done | |].
    { cbn [parts_]. rewrite len_app. change (len [f]) with 1. rewrite len_cons. lia. }
    exists total. rewrite He. cbn [parts_ out_]. by rewrite <- app_assoc.
Qed.

Lemma read_excess value identity : value <> undefined -> forall n fs parts s rest, len (parts_ s) + Z.of_nat n = maximum_parts -> (0 < n)%nat ->
  message_of parts fs -> (n < length parts)%nat ->
  exists total, read_message value identity (next_frame s) (completed fs ++ rest) =
    Some (error.zmtp_excessive_parts : code, total, out_ s, completed (drop n fs) ++ rest).
Proof.
  intros Hv n. induction n as [| n IH]; intros fs parts s rest Hl Hp Hm Hn; [lia |].
  destruct parts as [| b [| b2 parts]]; [simpl in Hn; lia | simpl in Hn; lia |].
  destruct fs as [| f fs]; [done |]. cbn [message_of] in Hm. destruct Hm as [(Hb & Hmo & Hc) Hm].
  cbn [completed map app read_message]. fold (completed fs). cbn in Hmo. destruct n as [| n].
  - unfold handle_zmtp_read. rewrite bool_decide_false by done. change (failed (error.success : code)) with false.
    cbv iota. rewrite Hc, Hmo. cbn [negb]. rewrite len_app. change (len [f]) with 1.
    destruct (_ >=? _) eqn:Hge; [| lia]. eexists. apply read_complete.
  - rewrite (handle_part value identity f s (parts_ s)) by (done || lia).
    destruct (IH fs (b2 :: parts) (mk_read (out_ s) (parts_ s ++ [f]) (ceilinged_add (total_ s) (len (body f)))) rest) as (total & He);
      [| lia | done | simpl in *; lia |].
    { cbn [parts_]. rewrite len_app. change (len [f]) with 1. lia. }
    exists total. rewrite He. done.
Qed.

Lemma message_bodies parts fs : message_of parts fs -> map body fs = parts.
Proof.
  revert fs. induction parts as [| p parts IH]; intros [| f fs]; try done. cbn [message_of]. intros [(Hb & _) Hm]. simpl.
  by rewrite Hb, (IH fs).
Qed.

Lemma decode_request_spec out fs start : let r := decode_request out fs start in
  (r.1 = (error.success : code) /\ exists f l, zdrop start fs = f :: l /\ body f <> [] /\
     r.2 = set_call (body f) (positional (map any_chunk (map body l))) out) \/
  (r.1 = (error.zmtp_unexpected_message : code) /\ (zdrop start fs = [] \/ exists f l, zdrop start fs = f :: l /\ body f = [])).
Proof.
  unfold decode_request. destruct (zdrop start fs) as [| f l]; [right; split; [done | by left] |].
  destruct (body f) as [| b bs] eqn:Hb; [right; split; [done |]; right; by exists f, l |].
  left. split; [done |]. exists f, l. rewrite Hb. split; [done |]. split; [done |]. cbn [is_empty snd]. by rewrite map_map.
Qed.

Lemma decode_message_spec value identity parts fs : Forall bytes_ok parts -> message_of parts fs ->
  let r := decode_message no_request value fs identity in
  (failed r.1 = false /\ reads_as value identity parts r.2) \/ (failed r.1 = true /\ forall out, ~ reads_as value identity parts out).
Proof.
  intros Hok Hm r. pose proof (message_bodies _ _ Hm) as Hb. subst r. unfold decode_message. destruct value; cbn [reads_as].
  - right. by split; [| intros out Ho].
  - destruct fs as [| f fs]; simpl in Hb; subst parts.
    { right. split; [done |]. by intros out (first & prefix & Hp & _). }
    apply Forall_cons in Hok as [Hf _]. destruct (body f) as [| first prefix] eqn:Hbf.
    { right. split; [done |]. by intros out (first & prefix & Hp & _). }
    apply Forall_cons in Hf as [Hf _]. unfold in_width in Hf. simpl in Hf. rewrite len_cons.
    destruct (negb (1 + len fs =? 1) || (first >? 1)) eqn:Hbad.
    + right. split; [done |]. intros out (x & y & Hp & Hx & _). injection Hp as -> -> Hn. apply map_eq_nil in Hn. subst fs.
      rewrite len_nil in Hbad. change (negb (1 + 0 =? 1)) with false in Hbad. cbn [orb] in Hbad. lia.
    + apply orb_false_iff in Hbad as [Hlen Hfirst]. rewrite negb_false_iff in Hlen. left. split; [done |]. exists first, prefix.
      assert (fs = []) as -> by (apply len_zero_nil; lia). split; [done |]. split; [lia |]. done.
  - destruct (decode_request_spec no_request fs 0) as [(-> & f & l & Hz & Hne & ->) | (-> & Hz)]; rewrite zdrop_0 in Hz.
    + left. split; [done |]. subst fs. simpl in Hb. by exists (body f), (map body l).
    + right. split; [done |]. intros out (m & l & Hp & Hne & _). destruct Hz as [-> | (f & l2 & -> & Hf)]; simpl in Hb; subst parts; [done |].
      injection Hp as Hp _. congruence.
  - destruct fs as [| f fs]; simpl in Hb; subst parts.
    { right. split; [done |]. by intros out (m & l & Hp & _). }
    destruct (body f) as [| b bs] eqn:Hbf; cbn [is_empty negb]; [| right; split; [done |]; by intros out (m & l & Hp & _)].
    destruct (decode_request_spec (set_id null_id no_request) (f :: fs) 1) as [(-> & g & l & Hz & Hne & ->) | (-> & Hz)];
      change (zdrop 1 (f :: fs)) with fs in Hz.
    + left. split; [done |]. subst fs. by exists (body g), (map body l).
    + right. split; [done |]. intros out (m & l & Hp & Hne & _). destruct Hz as [-> | (g & l2 & -> & Hg)]; [done |].
      simpl in Hp. injection Hp as Hp _. congruence.
  - set (out0 := set_id _ no_request). destruct fs as [| f fs]; simpl in Hb; subst parts.
    { right. split; [done |]. by intros out (m & l & [Hp | Hp] & _). }
    destruct (is_empty (body f)) eqn:Hemp.
    + assert (body f = []) as Hbf by (by destruct (body f)).
      destruct (decode_request_spec out0 (f :: fs) 1) as [(-> & g & l & Hz & Hne & ->) | (-> & Hz)]; change (zdrop 1 (f :: fs)) with fs in Hz.
      * left. split; [done |]. subst fs. exists (body g), (map body l). split; [right; by rewrite Hbf |]. done.
      * right. split; [done |]. rewrite Hbf. intros out (m & l & [Hp | Hp] & Hne & _); [injection Hp as Hp _; congruence |].
        destruct Hz as [-> | (g & l2 & -> & Hg)]; [done |]. injection Hp as Hp _. congruence.
    + assert (body f <> []) as Hbf by (by destruct (body f)).
      destruct (decode_request_spec out0 (f :: fs) 0) as [(-> & g & l & Hz & Hne & ->) | (-> & Hz)]; rewrite zdrop_0 in Hz.
      * injection Hz as <- <-. left. split; [done |]. exists (body f), (map body fs). split; [by left | done].
      * exfalso. destruct Hz as [Hz | (g & l2 & Hz & Hg)]; [done |]. injection Hz as <- <-. done.
Qed.

(** Zmtp messages.  Of the frames of a message of up to 32 parts, a socket
    makes the request that its role gives the parts, and reports an error
    exactly when the role gives none; a message of more parts is refused at
    the 32nd. *)
Theorem zmtp_read_by_role value identity parts fs rest : value <> undefined -> parts <> [] -> Forall bytes_ok parts -> message_of parts fs ->
  exists ec total out rest', zmtp_read value identity no_request (completed fs ++ rest) = Some (ec, total, out, rest') /\
  if len parts >? maximum_parts
  then ec = (error.zmtp_excessive_parts : code) /\ rest' = completed (drop 32 fs) ++ rest
  else rest' = rest /\ (failed ec = false -> reads_as value identity parts out) /\
    ((exists out', reads_as value identity parts out') -> failed ec = false).
Proof.
  intros Hv Hne Hok Hm. unfold zmtp_read. assert (do_zmtp_read value (mk_read no_request [] 0) = next_frame (mk_read no_request [] 0)) as ->
    by by destruct value. destruct (len parts >? maximum_parts) eqn:Hmax.
  - destruct (read_excess value identity Hv 32 fs parts (mk_read no_request [] 0) rest) as (total & He); [done | lia | done | |].
    { unfold len, maximum_parts in Hmax. lia. }
    by eexists _, total, _, _.
  - destruct (read_parts value identity Hv fs parts (mk_read no_request [] 0) rest Hne Hm) as (total & He); [cbn [parts_]; rewrite len_nil; lia |].
    cbn [parts_ out_ app] in He. destruct (decode_message_spec value identity parts fs Hok Hm) as [(Hf & Hr) | (Hf & Hr)];
      destruct (decode_message no_request value fs identity) as [ec out]; cbn [fst snd] in *; exists ec, total, out, rest; (split; [done |]; split; [done |]).
    + done.
    + split; [congruence |]. intros [out' Ho]. by destruct (Hr out').
Qed.

(** Zmtp responses.  A response of a replier or a router is read by its
    peer as an empty delimiter and the result, or the code and the message of
    the error; in other roles, or with a result that has no bytes, nothing is
    written. *)
Theorem zmtp_response_frames value r : value = replier \/ value = router ->
  (forall v, result_ r = Some (any_streamable v) -> streamable_ok v /\ len (writes v) < 2 ^ 64) ->
  (forall b, result_ r = Some (any_chunk b) \/ result_ r = Some (string_t b) -> len b < 2 ^ 64) ->
  (forall w n, result_ r = Some (integer_t w n) -> Z.of_nat w < 2 ^ 64) ->
  (forall e, error_ r = Some e -> len (message e) < 2 ^ 64) ->
  match do_zmtp_response value r with
  | inr ec => ec = (error.zmtp_unserializable : code) /\ error_ r = None /\ encode_part (default null_t (result_ r)) = None
  | inl buffers => exists fs parts, decode_frames (concat buffers) = Some fs /\ message_of ([] :: parts) fs /\
      match error_ r with
      | Some e => parts = [le_bytes 8 (result_code e mod 2 ^ 64); message e]
      | None => exists p, encode_part (default null_t (result_ r)) = Some p /\ parts = [content p]
      end
  end.
Proof.
  intros Hv Hs Hb Hw He.
  assert (forall ps, Forall part_ok ps -> Forall (fun p => len (content p) < 2 ^ 64) ps ->
    exists buffers fs, frame_parts ps = Some buffers /\ decode_frames (concat buffers) = Some fs /\ message_of (map content ps) fs) as Hframes.
  { intros ps Hok Hl. destruct (frame_parts_spec ps Hok) as (buffers & Hf & Hc). exists buffers.
    destruct (frames_message (map content ps)) with (l := @nil frame) as (fs & Hwl & Hms); [by apply Forall_map |].
    exists fs. split; [done |]. split; [| done]. rewrite Hc. unfold decode_frames. by rewrite Hwl. }
  assert (forall b, part_ok (plain_part b)) as Hplain by (intros b; split; [done | done]).
  assert (encode_response value r = match error_ r with
    | Some e => match encode_part (integer_t 8 (result_code e)) with None => None | Some p => frame_parts [plain_part []; p; plain_part (message e)] end
    | None => match encode_part (default null_t (result_ r)) with None => None | Some p => frame_parts [plain_part []; p] end end) as Heq
    by (unfold encode_response; by destruct Hv as [-> | ->]).
  unfold do_zmtp_response. rewrite Heq. destruct (error_ r) as [e |] eqn:Her.
  - cbn [encode_part encode_value]. set (b := le_bytes 8 _). set (p := plain_part b).
    destruct (Hframes [plain_part []; p; plain_part (message e)]) as (buffers & fs & -> & Hd & Hm).
    + repeat constructor; try done.
    + apply Forall_cons; split; [done |]. apply Forall_cons; split; [change (content p) with b; unfold b; rewrite len_le_bytes; done |].
      apply Forall_cons; split; [| constructor]. by apply He.
    + exists fs, [content p; message e]. split; [done |]. split; [exact Hm |]. done.
  - destruct (encode_part (default null_t (result_ r))) as [p |] eqn:Hp; [| done].
    assert (part_ok p /\ len (content p) < 2 ^ 64) as [Hpok Hpl].
    { destruct (result_ r) as [v |] eqn:Hr; [| injection Hp as <-; done].
      destruct v as [| flag | | text | | | w n | b | v | |]; cbn in Hp; try done; injection Hp as <-; (split; [split; [| done] |]); cbn; try done.
      - apply Hb. by right.
      - unfold content. cbn. rewrite len_le_bytes. by eapply Hw.
      - apply Hb. by left.
      - intros v0 [= <-]. by apply Hs.
      - destruct (Hs v eq_refl) as [[_ Hsh] Hl]. unfold content, share_of. cbn. destruct (shared_bytes v) as [b |] eqn:Hsb; [by rewrite (Hsh b eq_refl) | done]. }
    destruct (Hframes [plain_part []; p]) as (buffers & fs & -> & Hd & Hm).
    + apply Forall_cons; split; [done |]. apply Forall_cons; split; [done | constructor].
    + apply Forall_cons; split; [done |]. apply Forall_cons; split; [done | constructor].
    + exists fs, [content p]. split; [done |]. split; [exact Hm |]. by exists p.
Qed.

Definition sample_frames : list frame := [mk_frame 1 []; mk_frame 1 (chars "get"); mk_frame 0 [1; 2]].

Lemma zmtp_read_by_role_witness :
  exists ec total out rest', zmtp_read router (chars "me") no_request (completed sample_frames ++ []) = Some (ec, total, out, rest') /\
  if len [[]; chars "get"; [1; 2]] >? maximum_parts
  then ec = (error.zmtp_excessive_parts : code) /\ rest' = completed (drop 32 sample_frames) ++ []
  else rest' = [] /\ (failed ec = false -> reads_as router (chars "me") [[]; chars "get"; [1; 2]] out) /\
    ((exists out', reads_as router (chars "me") [[]; chars "get"; [1; 2]] out') -> failed ec = false).
Proof. apply (zmtp_read_by_role router (chars "me") [[]; chars "get"; [1; 2]] sample_frames []); [done | done | repeat constructor; done | by repeat split]. Defined.

Definition sample_response : response := mk_response None (Some (any_streamable (mk_streamable 3 (Some [1; 2; 3]) [1; 2; 3]))).

Lemma zmtp_response_frames_witness :
  match do_zmtp_response router sample_response with
  | inr ec => ec = (error.zmtp_unserializable : code) /\ error_ sample_response = None /\ encode_part (default null_t (result_ sample_response)) = None
  | inl buffers => exists fs parts, decode_frames (concat buffers) = Some fs /\ message_of ([] :: parts) fs /\
      match error_ sample_response with
      | Some e => parts = [le_bytes 8 (result_code e mod 2 ^ 64); message e]
      | None => exists p, encode_part (default null_t (result_ sample_response)) = Some p /\ parts = [content p]
      end
  end.
Proof.
  apply (zmtp_response_frames router sample_response); [by right | | | done | done].
  - intros v [= <-]. split; [split; [done |]; by intros b [= <-] | done].
  - intros b [Hb | Hb]; discriminate Hb.
Defined.
End zmtp_socket.
