(* ===== verification/ConnectorSocks.v ===== *)
(** * ConnectorSocks: the client of a socks5 proxy

    Models the handshake of [src/net/connector_socks.cpp] over a connected
    socket.  Writes and reads are of whole buffers, so the sizes that the
    handlers test are the lengths of what was transferred.  The address of the
    peer is what its class and host are asked for. *)

From S2P Require Import Prelude.
From S2P Require Import Errors.
From S2P Require Import Transport.

Module socks.

Definition port_size : Z := 2.
Definition version : Z := 0x05.
Definition reserved : Z := 0x00.
Definition method_clear : Z := 0x00.
Definition method_basic : Z := 0x02.
Definition method_basic_version : Z := 0x01.
Definition method_basic_success : Z := 0x00.
Definition command_connect : Z := 0x01.
Definition address_ipv4 : Z := 0x01.
Definition address_fqdn : Z := 0x03.
Definition address_ipv6 : Z := 0x04.

Definition socks_response (value : Z) : code :=
  match value with
  | 0x00 => error.success | 0x01 => error.socks_failure | 0x02 => error.socks_disallowed
  | 0x03 => error.socks_net_unreachable | 0x04 => error.socks_host_unreachable | 0x05 => error.socks_connection_refused
  | 0x06 => error.socks_connection_expired | 0x07 => error.socks_unsupported_command | 0x08 => error.socks_unsupported_address
  | _ => error.socks_unassigned_failure
  end.

(** An address is of a version of ip, or has a host name, or is not set. *)
Inductive address := address_v4 (ip : bytes) | address_v6 (ip : bytes) | address_host (host : bytes) | address_none.

(** The settings of the proxy, the peer, and whether the socket is stopped. *)
Record t := mk {
  username : bytes; password : bytes; peer : address; endpoint_host : bytes; endpoint_port : Z; stopped : bool }.

(** [settings::socks5::authenticated]. *)
Definition authenticated (s : t) : bool :=
  negb (bool_decide (username s = [])) || negb (bool_decide (password s = [])).

Definition method_ (s : t) : Z := if authenticated s then method_basic else method_clear.

Inductive operation :=
  | greeting_write
  | method_read
  | authentication_write
  | authentication_read
  | connect_write
  | response_read
  | length_read
  | address_read (length : Z).

(** The connect is finished with a code, or the socket begins the handshake
    of its own with the peer, which was deferred until the proxy connected. *)
Inductive outcome := finished (ec : code) | peer_handshake.

Notation action := (Transport.action operation outcome).

Definition socks_finish (ec : code) (s : t) : t * action := (s, finish (finished ec)).

Definition do_socks_finish (ec : code) (s : t) : t * action :=
  if failed ec then socks_finish ec s else (s, finish peer_handshake).

(** The result of a socket operation. *)
Definition result_of (ec : code) (s : t) : code := if stopped s then error.channel_stopped else ec.

Definition do_socks_greeting_write (ec : code) (s : t) : t * action :=
  let result := result_of ec s in
  if failed result then socks_finish result s else
  (s, write [version; 1; method_ s] greeting_write).

Definition handle_socks_greeting_write (ec : code) (size : Z) (s : t) : t * action :=
  let result := result_of ec s in
  if failed result then do_socks_finish result s else
  if negb (size =? 3) then do_socks_finish error.operation_failed s else
  (s, read 2 method_read).

(** Addresses that are not of ip are sent by name. *)
Definition host_name (s : t) : bytes :=
  match peer s with address_v4 _ | address_v6 _ => [] | address_host host => host | address_none => endpoint_host s end.

Definition host_length (s : t) : Z :=
  match peer s with address_v4 _ => 4 | address_v6 _ => 16 | _ => 1 + len (host_name s) end.

Definition request (s : t) : bytes :=
  [version; command_connect; reserved] ++
  match peer s with
  | address_v4 ip => address_ipv4 :: ip
  | address_v6 ip => address_ipv6 :: ip
  | _ => address_fqdn :: narrow 8 (len (host_name s)) :: host_name s
  end ++ be_bytes 2 (endpoint_port s).

Definition do_socks_connect_write (s : t) : t * action :=
  if host_length s >? 255 then do_socks_finish error.socks_host_name s else
  (s, write (request s) connect_write).

Definition authenticator (s : t) : bytes :=
  [method_basic_version; narrow 8 (len (username s))] ++ username s ++ [narrow 8 (len (password s))] ++ password s.

Definition handle_socks_method_read (ec : code) (response : bytes) (s : t) : t * action :=
  let result := result_of ec s in
  if failed result then do_socks_finish result s else
  if negb (len response =? 2) || negb (zget response 0 =? version) || negb (zget response 1 =? method_ s)
  then do_socks_finish error.socks_method s else
  if method_ s =? method_clear then do_socks_connect_write s else
  if len (username s) >? 255 then do_socks_finish error.socks_username s else
  if len (password s) >? 255 then do_socks_finish error.socks_password s else
  (s, write (authenticator s) authentication_write).

Definition handle_socks_authentication_write (ec : code) (size : Z) (s : t) : t * action :=
  let result := result_of ec s in
  if failed result then do_socks_finish result s else
  if negb (size =? 3 + len (username s) + len (password s)) then do_socks_finish error.operation_failed s else
  (s, read 2 authentication_read).

Definition handle_socks_authentication_read (ec : code) (response : bytes) (s : t) : t * action :=
  let result := result_of ec s in
  if failed result then do_socks_finish result s else
  if negb (len response =? 2) || negb (zget response 0 =? method_basic_version) || negb (zget response 1 =? method_basic_success)
  then do_socks_finish error.socks_authentication s else
  do_socks_connect_write s.

Definition handle_socks_connect_write (ec : code) (size : Z) (s : t) : t * action :=
  let result := result_of ec s in
  if failed result then do_socks_finish result s else
  if negb (size =? 4 + host_length s + port_size) then do_socks_finish error.operation_failed s else
  (s, read 4 response_read).

Definition handle_socks_response_read (ec : code) (response : bytes) (s : t) : t * action :=
  let result := result_of ec s in
  if failed result then do_socks_finish result s else
  if negb (len response =? 4) || negb (zget response 0 =? version) || negb (zget response 2 =? reserved)
  then do_socks_finish error.socks_response_invalid s else
  let code := socks_response (zget response 1) in
  if failed code then do_socks_finish code s else
  if zget response 3 =? address_ipv4 then (s, read (4 + port_size) (address_read (4 + port_size)))
  else if zget response 3 =? address_ipv6 then (s, read (16 + port_size) (address_read (16 + port_size)))
  else if zget response 3 =? address_fqdn then (s, read 1 length_read)
  else do_socks_finish error.socks_response_invalid s.

Definition handle_socks_length_read (ec : code) (host_length : bytes) (s : t) : t * action :=
  let result := result_of ec s in
  if failed result then do_socks_finish result s else
  if negb (len host_length =? 1) then do_socks_finish error.socks_response_invalid s else
  let length := zget host_length 0 + port_size in
  (s, read length (address_read length)).

Definition handle_socks_address_read (ec : code) (size length : Z) (s : t) : t * action :=
  let result := result_of ec s in
  if failed result then do_socks_finish result s else
  if negb (size =? length) then do_socks_finish error.socks_response_invalid s
  else do_socks_finish error.success s.

Definition completion (op : operation) (ec : code) (data : bytes) (s : t) : t * action :=
  match op with
  | greeting_write => handle_socks_greeting_write ec (len data) s
  | method_read => handle_socks_method_read ec data s
  | authentication_write => handle_socks_authentication_write ec (len data) s
  | authentication_read => handle_socks_authentication_read ec data s
  | connect_write => handle_socks_connect_write ec (len data) s
  | response_read => handle_socks_response_read ec data s
  | length_read => handle_socks_length_read ec data s
  | address_read length => handle_socks_address_read ec (len data) length s
  end.

#[global] Instance socks_protocol : Protocol t operation outcome := completion.

(** ** Runs *)

Definition op_weight (op : operation) : nat :=
  match op with
  | greeting_write => 9 | method_read => 8 | authentication_write => 7 | authentication_read => 6
  | connect_write => 5 | response_read => 4 | length_read => 3 | address_read _ => 2
  end.

Definition action_weight (a : action) : nat :=
  match a with write _ op | read _ op | read_some _ op | post op => op_weight op | finish _ => 1 end.

Definition measure (c : config t operation outcome) : nat := action_weight (next c).

Definition any_config (c : config t operation outcome) : Prop := True.

Definition run := Transport.run measure.

Lemma finish_weight ec s : action_weight (do_socks_finish ec s).2 = 1%nat.
Proof. unfold do_socks_finish. by destruct (failed ec). Qed.

Lemma connect_weight s : (action_weight (do_socks_connect_write s).2 <= 5)%nat.
Proof. unfold do_socks_connect_write. destruct (_ >? 255); [rewrite finish_weight; lia | simpl; lia]. Qed.

Lemma socks_weight op ec data s : (action_weight (completion op ec data s).2 < op_weight op)%nat.
Proof.
  pose proof (connect_weight s).
  destruct op as [| | | | | | | l]; cbn [completion op_weight];
    unfold handle_socks_greeting_write, handle_socks_method_read, handle_socks_authentication_write, handle_socks_authentication_read,
      handle_socks_connect_write, handle_socks_response_read, handle_socks_length_read, handle_socks_address_read; cbv zeta;
    repeat (match goal with |- context [if ?b then _ else _] => destruct b end; rewrite ?finish_weight); simpl; lia.
Qed.

Lemma socks_step_decreases schedule : decreases any_config measure (step schedule).
Proof.
  intros c c' _ Hs. split; [done |]. unfold step in Hs. unfold measure.
  destruct (next c) as [d op | n op | n op | op | o]; try done; try (destruct (_ <? _); [done |]); try (destruct (_ =? _); [done |]);
    injection Hs as <-; cbn [next resume]; apply socks_weight.
Qed.

(** The run from a configuration ends as [P] says. *)
Definition concludes schedule (P : config t operation outcome -> Prop) (c : config t operation outcome) : Prop :=
  exists r, run schedule c = Some r /\ P r.

Lemma concludes_step schedule P c c' : step schedule c = inl c' -> concludes schedule P c' -> concludes schedule P c.
Proof.
  intros Hs (r & Hr & Hp). exists r. split; [| done]. unfold run, Transport.run in *.
  rewrite (while_unfold any_config) by (done || apply socks_step_decreases). by rewrite Hs.
Qed.

Lemma concludes_end schedule (P : _ -> Prop) c : step schedule c = inr c -> P c -> concludes schedule P c.
Proof.
  intros Hs Hp. exists c. split; [| done]. unfold run, Transport.run in *.
  rewrite (while_unfold any_config) by (done || apply socks_step_decreases). by rewrite Hs.
Qed.

Lemma concludes_read schedule (P : _ -> Prop) s n op inp out :
  (len inp < n -> P (resume (s, read n op) inp out)) ->
  (forall head rest, inp = head ++ rest -> len head = n -> concludes schedule P (resume (completion op error.success head s) rest out)) ->
  0 <= n -> concludes schedule P (resume (s, read n op) inp out).
Proof.
  intros Hw Hr Hn. destruct (decide (len inp < n)) as [Hlt | Hge].
  - apply concludes_end; [by apply step_wait | by apply Hw].
  - eapply concludes_step; [| apply (Hr (ztake n inp) (zdrop n inp))].
    + rewrite <- (ztake_zdrop n inp) at 1. apply step_read. rewrite len_ztake by lia. lia.
    + by rewrite ztake_zdrop.
    + rewrite len_ztake by lia. lia.
Qed.

(** A write whose reply is read. *)
Lemma concludes_exchange schedule (P : _ -> Prop) s d op n op' inp out :
  completion op error.success d s = (s, read n op') -> 0 <= n ->
  (len inp < n -> P (resume (s, read n op') inp (out ++ d))) ->
  (forall head rest, inp = head ++ rest -> len head = n -> concludes schedule P (resume (completion op' error.success head s) rest (out ++ d))) ->
  concludes schedule P (resume (s, write d op) inp out).
Proof.
  intros Hc Hn Hw Hr. eapply concludes_step; [reflexivity |]. cbn [self next input output resume fst snd].
  change (complete op error.success d s) with (completion op error.success d s). rewrite Hc. by apply concludes_read.
Qed.

(** ** The conversation with the proxy *)

Definition greeting (s : t) : bytes := [version; 1; method_ s].

(** What is written in turn, and what the proxy replies to all but the last. *)
Definition requests (s : t) : list bytes :=
  greeting s :: (if authenticated s then [authenticator s] else []) ++ [request s].

Definition replies (s : t) : list bytes :=
  [version; method_ s] :: (if authenticated s then [[method_basic_version; method_basic_success]] else []).

(** The first requests were written, each after the reply to the one before
    it, and in the sizes that their length bytes can state. *)
Definition stage (s : t) (inp : bytes) (k : nat) (rest out : bytes) : Prop :=
  out = concat (take k (requests s)) /\ inp = concat (take (k - 1) (replies s)) ++ rest /\
  (authenticated s = true -> (2 <= k)%nat -> len (username s) <= 255 /\ len (password s) <= 255) /\
  (k = length (requests s) -> host_length s <= 255).

Definition ordered (s : t) (inp : bytes) (c : config t operation outcome) : Prop :=
  match next c with read n _ => len (input c) < n | finish _ => True | _ => False end /\
  exists k rest, stage s inp k rest (output c) /\
    (next c = finish peer_handshake ->
      k = length (requests s) /\ exists kind bound, rest = [version; 0; reserved; kind] ++ bound ++ input c).

Lemma ordered_fail s inp k rest i out ec : stage s inp k rest out -> failed ec = true ->
  ordered s inp (resume (do_socks_finish ec s) i out).
Proof. intros Hst Hec. unfold do_socks_finish. rewrite Hec. split; [done |]. by exists k, rest. Qed.

Lemma ordered_wait s inp k rest n op i out : stage s inp k rest out -> len i < n -> ordered s inp (resume (s, read n op) i out).
Proof. intros Hst Hn. split; [done |]. by exists k, rest. Qed.

Lemma concludes_fail schedule s inp k rest i out ec : stage s inp k rest out -> failed ec = true ->
  concludes schedule (ordered s inp) (resume (do_socks_finish ec s) i out).
Proof.
  intros Hst Hec. apply concludes_end; [| by eapply ordered_fail]. unfold do_socks_finish. by rewrite Hec.
Qed.

Lemma method_clear_authenticated s : (method_ s =? method_clear) = negb (authenticated s).
Proof. unfold method_. by destruct (authenticated s). Qed.

(** The handlers without failure of a socket that is not stopped. *)
Lemma result_success s : stopped s = false -> result_of error.success s = error.success.
Proof. unfold result_of. by intros ->. Qed.

Lemma socks_response_success value : failed (socks_response value) = false -> value = 0.
Proof. unfold socks_response. repeat case_match; subst; done. Qed.

Lemma reply_split (data : bytes) n : len data = Z.of_nat n -> length data = n.
Proof. unfold len. lia. Qed.

(** The address that the proxy bound is read, of any type, and dropped. *)
Lemma concludes_address schedule s inp kind data rest out n : stopped s = false -> 0 <= n ->
  stage s inp (length (requests s)) ([version; 0; reserved; kind] ++ data ++ rest) out ->
  concludes schedule (ordered s inp) (resume (s, read n (address_read n)) rest out).
Proof.
  intros Hs Hn Hst. apply concludes_read; [by eapply ordered_wait | | lia].
  intros head rest1 -> Hhead. cbn [completion]. unfold handle_socks_address_read. rewrite result_success by done. cbv zeta.
  rewrite Hhead, Z.eqb_refl. apply concludes_end; [done |]. split; [done |].
  eexists _, _. split; [exact Hst |]. intros _. split; [done |]. exists kind, (data ++ head). by rewrite <- app_assoc.
Qed.

(** The reply to the request. *)
Lemma concludes_reply schedule s inp rest out : stopped s = false -> bytes_ok rest -> stage s inp (length (requests s)) rest out ->
  concludes schedule (ordered s inp) (resume (s, read 4 response_read) rest out).
Proof.
  intros Hs Hok Hst. apply concludes_read; [by eapply ordered_wait | | lia].
  intros head rest1 -> Hhead. cbn [completion]. unfold handle_socks_response_read. rewrite result_success by done. cbv zeta.
  change (failed error.success) with false. cbn iota. apply (reply_split _ 4) in Hhead.
  destruct head as [| v [| r [| z [| kind [|]]]]]; try done. clear Hhead.
  change (zget [v; r; z; kind] 0) with v. change (zget [v; r; z; kind] 1) with r. change (zget [v; r; z; kind] 2) with z.
  change (zget [v; r; z; kind] 3) with kind. change (len [v; r; z; kind] =? 4) with true.
  destruct (v =? version) eqn:Hv; [| by eapply concludes_fail].
  destruct (z =? reserved) eqn:Hr; [| by eapply concludes_fail]. cbn [negb orb].
  destruct (failed (socks_response r)) eqn:Hc; [by eapply concludes_fail |].
  apply socks_response_success in Hc. apply Z.eqb_eq in Hv, Hr. subst v r z. unfold port_size.
  destruct (_ =? address_ipv4); [by apply (concludes_address _ _ _ kind []) |].
  destruct (_ =? address_ipv6); [by apply (concludes_address _ _ _ kind []) |].
  destruct (_ =? address_fqdn); [| by eapply concludes_fail].
  apply concludes_read; [by eapply ordered_wait | | lia].
  intros head rest2 -> Hhead. cbn [completion]. unfold handle_socks_length_read. rewrite result_success by done. cbv zeta.
  rewrite Hhead. cbn [Z.eqb negb]. apply Forall_app in Hok as [_ Hok]. apply Forall_app in Hok as [Hok _].
  pose proof (zget_u8 head 0 Hok) as Hz. unfold u8 in Hz.
  change (failed error.success) with false. cbn iota.
  apply (concludes_address _ _ _ kind head); [done | unfold port_size; lia | done].
Qed.

(** The addresses of ip are of their size. *)
Definition peer_ok (s : t) : Prop :=
  match peer s with address_v4 ip => len ip = 4 | address_v6 ip => len ip = 16 | _ => True end.

Lemma request_len s : peer_ok s -> len (request s) = 4 + host_length s + port_size.
Proof.
  unfold peer_ok, request, host_length, host_name, port_size. intros Hp.
  destruct (peer s) as [ip | ip | host |]; rewrite ?len_app, ?len_cons, ?len_be_bytes, ?len_nil by lia; lia.
Qed.

(** The request, once the proxy accepts the method and the credentials. *)
Lemma concludes_connect schedule s inp k before rest out : stopped s = false -> peer_ok s -> bytes_ok rest ->
  stage s inp k before out -> (host_length s <= 255 -> stage s inp (length (requests s)) rest (out ++ request s)) ->
  concludes schedule (ordered s inp) (resume (do_socks_connect_write s) rest out).
Proof.
  intros Hs Hp Hok Hst Hnext. unfold do_socks_connect_write.
  destruct (host_length s >? 255) eqn:Hh; [by eapply concludes_fail |].
  eapply concludes_step; [reflexivity |]. cbn [self next input output resume fst snd].
  unfold complete, socks_protocol. cbn [completion]. unfold handle_socks_connect_write. rewrite result_success by done. cbv zeta.
  rewrite (request_len s Hp), Z.eqb_refl. apply (concludes_reply schedule s inp rest (out ++ request s)); [done | done |].
  apply Hnext. lia.
Qed.

(** Socks order.  Whatever the proxy sends, the handshake comes to an end or
    waits for bytes; each request is written only after the expected reply to
    the one before it, so that the credentials are sent only to a proxy that
    chose basic authentication, and the handshake with the peer begins only
    when the proxy replied that it connected, with nothing of the peer read. *)
Theorem socks_ordered schedule s inp : stopped s = false -> peer_ok s -> bytes_ok inp ->
  concludes schedule (ordered s inp) (resume (do_socks_greeting_write error.success s) inp []).
Proof.
  intros Hs Hp Hok. unfold do_socks_greeting_write. rewrite result_success by done. cbv zeta. change (failed error.success) with false. cbn iota.
  assert (stage s inp 1 inp (greeting s)) as Hst1.
  { split; [by unfold requests; cbn [take concat]; rewrite app_nil_r |]. split; [done |]. split; [intros _; lia |].
    unfold requests. destruct (authenticated s); cbn [length app]; lia. }
  apply (concludes_exchange schedule _ s (greeting s) greeting_write 2 method_read); [| lia | by eapply ordered_wait |].
  { cbn [completion]. unfold handle_socks_greeting_write. by rewrite result_success. }
  intros head rest -> Hhead. cbn [completion app]. unfold handle_socks_method_read. rewrite result_success by done. cbv zeta.
  change (failed error.success) with false. cbn iota. apply (reply_split _ 2) in Hhead.
  destruct head as [| v [| m [|]]]; try done. clear Hhead. apply Forall_app in Hok as [_ Hok].
  change (zget [v; m] 0) with v. change (zget [v; m] 1) with m. change (len [v; m] =? 2) with true.
  destruct (v =? version) eqn:Hv; [| by eapply concludes_fail].
  destruct (m =? method_ s) eqn:Hm; [| by eapply concludes_fail]. cbn [negb orb].
  apply Z.eqb_eq in Hv, Hm. subst v m. rewrite method_clear_authenticated. destruct (authenticated s) eqn:Ha; cbn [negb].
  - destruct (len (username s) >? 255) eqn:Hu; [by eapply concludes_fail |].
    destruct (len (password s) >? 255) eqn:Hw; [by eapply concludes_fail |].
    assert (stage s ([version; method_ s] ++ rest) 2 rest (greeting s ++ authenticator s)) as Hst2.
    { unfold stage, requests, replies. rewrite Ha. cbn [take concat app length Nat.sub]. rewrite app_nil_r. split; [done |]. split; [done |].
      split; [lia | done]. }
    apply (concludes_exchange schedule _ s (authenticator s) authentication_write 2 authentication_read); [| lia | by eapply ordered_wait |].
    { cbn [completion]. unfold handle_socks_authentication_write. rewrite result_success by done. cbv zeta.
      change (failed error.success) with false. cbn iota. unfold authenticator. rewrite !len_app, !len_cons, len_nil.
      replace (_ =? _) with true by (symmetry; apply Z.eqb_eq; lia). done. }
    intros head rest1 -> Hhead. cbn [completion]. unfold handle_socks_authentication_read. rewrite result_success by done. cbv zeta.
    change (failed error.success) with false. cbn iota. apply (reply_split _ 2) in Hhead.
    destruct head as [| v [| m [|]]]; try done. clear Hhead. apply Forall_app in Hok as [_ Hok].
    change (zget [v; m] 0) with v. change (zget [v; m] 1) with m. change (len [v; m] =? 2) with true.
    destruct (v =? method_basic_version) eqn:Hv; [| by eapply concludes_fail].
    destruct (m =? method_basic_success) eqn:Hm; [| by eapply concludes_fail]. cbn [negb orb].
    apply Z.eqb_eq in Hv, Hm. subst v m. eapply concludes_connect; [done | done | done | exact Hst2 |].
    intros Hh. unfold stage, requests, replies. rewrite Ha. cbn [take concat app length Nat.sub]. rewrite app_nil_r, <- app_assoc.
    split; [done |]. split; [done |]. split; [lia | done].
  - eapply concludes_connect; [done | done | done | exact Hst1 |].
    intros Hh. unfold stage, requests, replies. rewrite Ha. cbn [take concat app length Nat.sub]. rewrite app_nil_r.
    split; [done |]. split; [done |]. split; [done | done].
Qed.

(** ** A proxy that connects *)

Lemma concludes_replied schedule P s n op head rest out : len head = n ->
  concludes schedule P (resume (completion op error.success head s) rest out) ->
  concludes schedule P (resume (s, read n op) (head ++ rest) out).
Proof. intros Hn. eapply concludes_step. by apply step_read. Qed.

Lemma concludes_written schedule P s d op inp out :
  concludes schedule P (resume (completion op error.success d s) inp (out ++ d)) -> concludes schedule P (resume (s, write d op) inp out).
Proof. by eapply concludes_step. Qed.

(** The reply of a proxy that is bound to an address. *)
Definition address_bytes (a : address) : bytes :=
  match a with
  | address_v4 ip => address_ipv4 :: ip
  | address_v6 ip => address_ipv6 :: ip
  | address_host host => address_fqdn :: len host :: host
  | address_none => [address_fqdn; 0]
  end.

Definition address_ok (a : address) : Prop :=
  match a with address_v4 ip => len ip = 4 | address_v6 ip => len ip = 16 | address_host host => len host <= 255 | address_none => True end.

Definition connected_reply (bound : address) (port : Z) : bytes :=
  [version; 0; reserved] ++ address_bytes bound ++ be_bytes 2 port.

Definition within_limits (s : t) : Prop :=
  peer_ok s /\ host_length s <= 255 /\ (authenticated s = true -> len (username s) <= 255 /\ len (password s) <= 255).

Lemma concludes_connected schedule P s bound port rest out : stopped s = false -> address_ok bound ->
  concludes schedule P (resume (s, finish peer_handshake) rest out) ->
  concludes schedule P (resume (s, read 4 response_read) (connected_reply bound port ++ rest) out).
Proof.
  intros Hs Hb Hp.
  assert (forall n head, len head = n -> concludes schedule P (resume (s, read n (address_read n)) (head ++ rest) out)) as Haddr.
  { intros n head Hn. apply concludes_replied; [done |]. cbn [completion]. unfold handle_socks_address_read. rewrite result_success by done.
    cbv zeta. by rewrite Hn, Z.eqb_refl. }
  assert (forall kind tail, concludes schedule P (resume (completion response_read error.success [version; 0; reserved; kind] s) tail out) ->
    concludes schedule P (resume (s, read 4 response_read) (([version; 0; reserved] ++ kind :: tail)) out)) as Hread.
  { intros kind tail. by apply (concludes_replied schedule P s 4 response_read [version; 0; reserved; kind]). }
  unfold connected_reply. pose proof (len_be_bytes 2 port) as Hport. revert Hport. generalize (be_bytes 2 port) as p. intros p Hport. change (len p = 2) in Hport.
  rewrite <- !app_assoc. destruct bound as [ip | ip | host |]; cbn [address_ok address_bytes app] in *; apply Hread;
    cbn [completion]; unfold handle_socks_response_read; rewrite result_success by done; cbn -[port_size].
  - rewrite app_assoc. apply Haddr. rewrite len_app. unfold port_size. lia.
  - rewrite app_assoc. apply Haddr. rewrite len_app. unfold port_size. lia.
  - apply (concludes_replied schedule P s 1 length_read [len host]); [done |]. cbn [completion]. unfold handle_socks_length_read.
    rewrite result_success by done. change (negb (len [len host] =? 1)) with false; change (zget [len host] 0) with (len host); cbn [failed error.to_value Z.eqb negb]; cbv zeta. rewrite app_assoc. apply Haddr. rewrite len_app. unfold port_size. lia.
  - apply (concludes_replied schedule P s 1 length_read [0]); [done |]. cbn [completion]. unfold handle_socks_length_read.
    rewrite result_success by done. change (zget [0] 0 + port_size) with 2; cbn -[port_size]. apply Haddr. done.
Qed.

Lemma connect_write_length s : within_limits s -> do_socks_connect_write s = (s, write (request s) connect_write) /\
  forall schedule P rest inp out, stopped s = false -> concludes schedule P (resume (s, read 4 response_read) inp (out ++ request s)) ->
    rest = inp -> concludes schedule P (resume (s, write (request s) connect_write) rest out).
Proof.
  intros (Hp & Hh & _). split.
  - unfold do_socks_connect_write. by destruct (_ >? 255) eqn:Hgt; [lia |].
  - intros schedule P rest inp out Hs Hc ->. apply concludes_written. cbn [completion]. unfold handle_socks_connect_write.
    rewrite result_success by done. cbv zeta. by rewrite (request_len s Hp), Z.eqb_refl.
Qed.

(** Socks connection.  Through a proxy that takes the method and the
    credentials of the settings and connects, whichever address it bound, the
    handshake with the peer begins; exactly the requests were written, and
    what the peer sent is left. *)
Theorem socks_connects schedule s bound port rest : stopped s = false -> within_limits s -> address_ok bound ->
  concludes schedule (fun c => c = mk_config s (finish peer_handshake) rest (concat (requests s)))
    (resume (do_socks_greeting_write error.success s) (concat (replies s) ++ connected_reply bound port ++ rest) []).
Proof.
  intros Hs Hl Hb. destruct (connect_write_length s Hl) as [Hwrite Hwritten]. destruct Hl as (Hp & Hh & Ha).
  remember (concat (requests s)) as sent eqn:Hsent. remember (connected_reply bound port ++ rest) as reply eqn:Hreply.
  unfold do_socks_greeting_write. rewrite result_success by done. cbn. apply concludes_written. cbn [completion].
  unfold handle_socks_greeting_write. rewrite result_success by done. cbn.
  apply (concludes_replied schedule _ s 2 method_read [version; method_ s]); [done |]. cbn [completion].
  unfold handle_socks_method_read. rewrite result_success by done. cbv zeta. cbn [failed error.to_value Z.eqb negb].
  change (zget [version; method_ s] 0) with version. change (zget [version; method_ s] 1) with (method_ s).
  change (len [version; method_ s] =? 2) with true. rewrite !Z.eqb_refl. cbn [negb orb]. rewrite method_clear_authenticated.
  assert (forall out, out ++ request s = sent -> concludes schedule (fun c => c = mk_config s (finish peer_handshake) rest sent)
      (resume (do_socks_connect_write s) reply out)) as Hend.
  { intros out Hout. rewrite Hwrite. apply (Hwritten _ _ _ reply); [done | | done]. rewrite Hreply. apply concludes_connected; [done | done |].
    apply concludes_end; [done |]. by rewrite Hout. }
  unfold requests in Hsent. destruct (authenticated s) eqn:Hauth; cbn [negb app concat tail] in *.
  - destruct (Ha eq_refl) as [Hu Hw]. destruct (_ >? 255) eqn:Hgt; [lia |]. clear Hgt. destruct (_ >? 255) eqn:Hgt; [lia |].
    apply concludes_written. cbn [completion]. unfold handle_socks_authentication_write. rewrite result_success by done. cbv zeta.
    cbn [failed error.to_value Z.eqb negb]. unfold authenticator at 1. rewrite !len_app, !len_cons, len_nil.
    replace (_ =? _) with true by (symmetry; apply Z.eqb_eq; lia). cbn [negb].
    apply (concludes_replied schedule _ s 2 authentication_read [method_basic_version; method_basic_success]); [done |]. cbn [completion].
    unfold handle_socks_authentication_read. rewrite result_success by done. cbn [failed error.to_value Z.eqb negb]. cbv zeta.
    apply Hend. by rewrite Hsent, app_nil_r.
  - apply Hend. by rewrite Hsent, app_nil_r.
Qed.

(** ** The destination of a request *)

(** The address and port after the type of the address, all of the rest. *)
Definition read_destination (kind : Z) (data : bytes) : option (address * Z) :=
  let fixed size make :=
    if len data =? size + port_size then Some (make (ztake size data), be_value (zdrop size data)) else None in
  if kind =? address_ipv4 then fixed 4 address_v4
  else if kind =? address_ipv6 then fixed 16 address_v6
  else if kind =? address_fqdn then
    match data with
    | size :: data =>
      if len data =? size + port_size then Some (address_host (ztake size data), be_value (zdrop size data)) else None
    | [] => None
    end
  else None.

(** What a server reads of a request. *)
Definition destination_of (data : bytes) : option (address * Z) :=
  match data with
  | v :: command :: r :: kind :: data =>
    if (v =? version) && (command =? command_connect) && (r =? reserved) then read_destination kind data else None
  | _ => None
  end.

Definition destination (s : t) : address :=
  match peer s with address_none => address_host (endpoint_host s) | a => a end.

(** Socks destination.  A request states the address, or the name, and the
    port of the peer, as a server reads them; a name that the length byte of
    the host cannot count is refused instead. *)
Theorem socks_request_decodes s : peer_ok s -> 0 <= endpoint_port s < 65536 ->
  match (do_socks_connect_write s).2 with
  | write data _ => destination_of data = Some (destination s, endpoint_port s)
  | finish out => out = finished error.socks_host_name /\ 255 <= len (host_name s)
  | _ => False
  end.
Proof.
  intros Hp Hport. unfold do_socks_connect_write. destruct (host_length s >? 255) eqn:Hh; cbn [snd].
  - cbn. split; [done |]. unfold host_length in Hh. destruct (peer s); lia.
  - pose proof (len_be_bytes 2 (endpoint_port s)) as Hlen. pose proof (be_value_bytes 2 (endpoint_port s)) as Hval. change (256 ^ Z.of_nat 2) with 65536 in Hval. specialize (Hval Hport).
    unfold request, host_length, host_name, peer_ok, destination in *. revert Hlen Hval. generalize (be_bytes 2 (endpoint_port s)) as p.
    intros p Hlen Hval. change (len p = 2) in Hlen.
    assert (forall name, 1 + len name <= 255 ->
      destination_of ([version; command_connect; reserved] ++ (address_fqdn :: narrow 8 (len name) :: name) ++ p) = Some (address_host name, endpoint_port s)) as Hname.
    { intros name Hn. cbn [app destination_of]. rewrite !Z.eqb_refl. cbn [andb]. unfold read_destination. cbv zeta.
      change (address_fqdn =? address_ipv4) with false. change (address_fqdn =? address_ipv6) with false. rewrite Z.eqb_refl. cbn iota.
      pose proof (len_nonneg name). unfold narrow. rewrite Z.mod_small by (cbn; lia). rewrite len_app, Hlen. unfold port_size. rewrite Z.eqb_refl.
      by rewrite ztake_app_len, zdrop_app_len, Hval. }
    destruct (peer s) as [ip | ip | host |]; [| | apply Hname; lia | apply Hname; lia];
      cbn [app destination_of]; rewrite !Z.eqb_refl; cbn [andb]; unfold read_destination; cbv zeta; cbn [Z.eqb];
      unfold port_size; rewrite len_app, Hp, Hlen; cbn -[ztake zdrop]; by rewrite ztake_app_len, zdrop_app_len, Hval.
Qed.

(** ** Witnesses *)

Definition sample (peer : address) : t := mk [117; 115; 101; 114] [112; 119] peer [104; 111; 115; 116] 8333 false.

Lemma socks_ordered_witness :
  concludes (fun n => n) (ordered (sample (address_host [97; 98])) [5; 2; 1; 0; 5; 4; 0; 1])
    (resume (do_socks_greeting_write error.success (sample (address_host [97; 98]))) [5; 2; 1; 0; 5; 4; 0; 1] []).
Proof. apply socks_ordered; [done | done |]. apply is_bytes_ok. reflexivity. Defined.

Lemma socks_connects_witness :
  concludes (fun n => n) (fun c => c = mk_config (sample (address_v4 [1; 2; 3; 4])) (finish peer_handshake) [9; 9]
      (concat (requests (sample (address_v4 [1; 2; 3; 4])))))
    (resume (do_socks_greeting_write error.success (sample (address_v4 [1; 2; 3; 4])))
      (concat (replies (sample (address_v4 [1; 2; 3; 4]))) ++ connected_reply (address_host [97; 98; 99]) 9050 ++ [9; 9]) []).
Proof. apply socks_connects; [done | | by vm_compute]. by repeat split; vm_compute. Defined.

Lemma socks_request_decodes_witness :
  match (do_socks_connect_write (sample (address_v6 (repeat 7 16)))).2 with
  | write data _ => destination_of data = Some (address_v6 (repeat 7 16), 8333)
  | finish out => out = finished error.socks_host_name /\ 255 <= len (host_name (sample (address_v6 (repeat 7 16))))
  | _ => False
  end.
Proof. apply (socks_request_decodes (sample (address_v6 (repeat 7 16)))); [done | by vm_compute]. Defined.

(** A name of the longest length that a length byte can count is refused. *)
Lemma socks_longest_name_refused :
  len (host_name (sample (address_host (repeat 97 255)))) = 255 /\
  do_socks_connect_write (sample (address_host (repeat 97 255))) =
    (sample (address_host (repeat 97 255)), finish (finished error.socks_host_name)).
Proof. split; vm_compute; reflexivity. Qed.
End socks.
