(* ===== verification/Connector.v ===== *)
(** * Connector: the outbound connections of a strand

    Models [src/net/connector.cpp]: a race of the connection against a timer,
    whose handler is called once both completed.  The timer, the resolver and
    the sockets are those of the operating system: a handler asks them, and
    their completions are moves of the environment, in any order and with any
    code.  Sockets and their finish flags are shared by the handlers that
    captured them, and are named by the number of their attempt. *)

From S2P Require Import Prelude.
From S2P Require Import Errors.
From S2P Require Import Races.

Module connector.

Section connector.
Context {H Context Address Endpoint : Type} (is_advertised : Address -> bool) (unset : Address).
Context (to_host : Address -> bytes) (address_port : Address -> Z) (to_endpoint : Address -> Endpoint).
Context (host : Endpoint -> bytes) (port : Endpoint -> Z).

(** The socket of an attempt, and its finish flag. *)
Record attempt := mk_attempt {
  context_ : option Context; address_ : Address; endpoint_ : Endpoint; proxied_ : bool; stopped_ : bool; finish_ : bool }.

Definition stop_socket (a : attempt) : attempt :=
  mk_attempt (context_ a) (address_ a) (endpoint_ a) (proxied_ a) true (finish_ a).
Definition set_finish (a : attempt) : attempt :=
  mk_attempt (context_ a) (address_ a) (endpoint_ a) (proxied_ a) (stopped_ a) true.

(** A race has two runners, and completes with a code and a socket. *)
Definition racer : Type := race_speed.t (H := H) (A := code * option nat).

Definition no_args : code * option nat := (error.success : code, None).

Record t := mk { parameters_ : option Context; racer_ : racer; attempts_ : list attempt }.

Definition make (c : option Context) : t := mk c (race_speed.make no_args) [].

Definition set_racer (r : racer) (s : t) : t := mk (parameters_ s) r (attempts_ s).
Definition update (f : attempt -> attempt) (n : nat) (s : t) : t :=
  match attempts_ s !! n with Some a => mk (parameters_ s) (racer_ s) (<[n := f a]> (attempts_ s)) | None => s end.

Inductive effect :=
  | start_timer (n : nat)
  | stop_timer
  | resolve (hostname : bytes) (port : Z) (n : nat)
  | cancel_resolve
  | socket_connect (n : nat)
  | invoke (h : H) (ec : code) (socket : option nat).

Definition running (s : t) : bool := race_speed.running (racer_ s).

Definition finish (ec : code) (socket : option nat) (s : t) : t * list effect :=
  let '(r, calls, _) := race_speed.finish no_args 2 (ec, socket) (racer_ s) in
  (set_racer r s, map (fun '(h, (ec, socket)) => invoke h ec socket) calls).

(** What a socket says is asked of its attempt. *)
Definition socket_stopped (n : nat) (s : t) : bool := match attempts_ s !! n with Some a => stopped_ a | None => true end.
Definition finished (n : nat) (s : t) : bool := match attempts_ s !! n with Some a => finish_ a | None => false end.

Definition stop (s : t) : list effect := if negb (running s) then [] else [stop_timer].

Definition start (suspended proxied : bool) (hostname : bytes) (p : Z) (a : Address) (e : Endpoint) (h : H) (s : t) : t * list effect :=
  if running s then (s, [invoke h error.operation_failed None]) else
  if suspended then (s, [invoke h error.service_suspended None]) else
  let r := (race_speed.start 2 h (racer_ s)).1 in
  let context := if negb (is_advertised a) then None else parameters_ s in
  let n := length (attempts_ s) in
  (mk (parameters_ s) r (attempts_ s ++ [mk_attempt context a e proxied false false]), [start_timer n; resolve hostname p n]).

Definition connect_address (suspended proxied : bool) (a : Address) (h : H) (s : t) : t * list effect :=
  start suspended proxied (to_host a) (address_port a) a (to_endpoint a) h s.

Definition connect_endpoint (suspended proxied : bool) (e : Endpoint) (h : H) (s : t) : t * list effect :=
  start suspended proxied (host e) (port e) unset e h s.

Definition after (es : list effect) (r : t * list effect) : t * list effect := (r.1, es ++ r.2).

Definition handle_resolve (ec : code) (suspended : bool) (n : nat) (s : t) : t * list effect :=
  if socket_stopped n s then finish error.operation_canceled None s else
  if suspended then after [stop_timer] (finish error.service_suspended None (update stop_socket n s)) else
  if failed ec then after [stop_timer] (finish ec None (update stop_socket n s)) else
  (s, [socket_connect n]).

Definition handle_connect (ec : code) (suspended : bool) (n : nat) (s : t) : t * list effect :=
  if socket_stopped n s then finish error.operation_canceled None s else
  if suspended then after [stop_timer] (finish error.service_suspended None (update stop_socket n s)) else
  if failed ec then after [stop_timer] (finish ec None (update stop_socket n s)) else
  after [stop_timer] (finish error.success (Some n) (update set_finish n s)).

Definition handle_timer (ec : code) (n : nat) (s : t) : t * list effect :=
  if finished n s then finish error.operation_canceled None s else
  if failed ec then after [cancel_resolve] (finish ec (Some n) (update stop_socket n s)) else
  after [cancel_resolve] (finish error.operation_timeout (Some n) (update stop_socket n s)).

(** ** Worlds *)

(** What was asked of the operating system and is not completed. *)
Inductive pending := timer_pending (n : nat) | resolve_pending (n : nat) | connect_pending (n : nat).

Definition asks (e : effect) : list pending :=
  match e with
  | start_timer n => [timer_pending n] | resolve _ _ n => [resolve_pending n] | socket_connect n => [connect_pending n]
  | _ => []
  end.

Definition call_of (e : effect) : list (H * code * option nat) :=
  match e with invoke h ec socket => [(h, ec, socket)] | _ => [] end.

(** The connector, what is pending, who asked, and who was called. *)
Record world := mk_world { self : t; waits : list pending; asked : list H; called : list (H * code * option nat) }.

Definition perform (r : t * list effect) (ps : list pending) (asked : list H) (w : world) : world :=
  mk_world r.1 (ps ++ concat (map asks r.2)) asked (called w ++ concat (map call_of r.2)).

Definition handle (p : pending) (ec : code) (suspended : bool) (s : t) : t * list effect :=
  match p with
  | timer_pending n => handle_timer ec n s
  | resolve_pending n => handle_resolve ec suspended n s
  | connect_pending n => handle_connect ec suspended n s
  end.

(** The operating system completes what is pending, in any order. *)
Inductive completion : world -> world -> Prop :=
  | completed w p l r ec suspended : waits w = l ++ p :: r ->
      completion w (perform (handle p ec suspended (self w)) (l ++ r) (asked w) w).

(** A connect or stop of the caller, and a completion. *)
Inductive move : world -> world -> Prop :=
  | connects w suspended proxied hostname p a e h :
      move w (perform (start suspended proxied hostname p a e h (self w)) (waits w) (asked w ++ [h]) w)
  | stops w : move w (perform (self w, stop (self w)) (waits w) (asked w) w)
  | completes w w' : completion w w' -> move w w'.

Definition initial (c : option Context) : world := mk_world (make c) [] [] [].

(** ** The race of an attempt *)

(** What completes the connection. *)
Definition chain (m : nat) (p : pending) : Prop := p = resolve_pending m \/ p = connect_pending m.

(** The attempt is open until either runner finishes; a socket that connected
    in time is not stopped by the timer. *)
Inductive racing (m : nat) (h : H) : racer -> attempt -> list pending -> Prop :=
  | racing_both args a p : chain m p -> stopped_ a = false -> finish_ a = false ->
      racing m h (race_speed.mk args 2 (Some h)) a [timer_pending m; p]
  | racing_connected a : stopped_ a = false -> finish_ a = true ->
      racing m h (race_speed.mk (error.success : code, Some m) 1 (Some h)) a [timer_pending m]
  | racing_failed a ec : failed ec = true -> stopped_ a = true -> finish_ a = false ->
      racing m h (race_speed.mk (ec, None) 1 (Some h)) a [timer_pending m]
  | racing_timed a ec p : chain m p -> failed ec = true -> stopped_ a = true -> finish_ a = false ->
      racing m h (race_speed.mk (ec, Some m) 1 (Some h)) a [p].

(** The handler is given the socket that connected, or one that is stopped. *)
Definition outcome (m : nat) (a : attempt) (ec : code) (socket : option nat) : Prop :=
  stopped_ a = failed ec /\ (socket = Some m \/ socket = None /\ failed ec = true).

Definition idle (r : racer) : Prop := race_speed.runners_ r = 0%nat /\ race_speed.complete_ r = None.

Definition race_step (m : nat) (h : H) (s : t) (ps : list pending) (r : t * list effect) : Prop :=
  exists a', parameters_ r.1 = parameters_ s /\ attempts_ r.1 = <[m := a']> (attempts_ s) /\
    (racing m h (racer_ r.1) a' (ps ++ concat (map asks r.2)) /\ concat (map call_of r.2) = [] \/
     idle (racer_ r.1) /\ ps ++ concat (map asks r.2) = [] /\
     exists ec socket, concat (map call_of r.2) = [(h, ec, socket)] /\ outcome m a' ec socket).

Lemma update_eq f m s a : attempts_ s !! m = Some a -> update f m s = mk (parameters_ s) (racer_ s) (<[m := f a]> (attempts_ s)).
Proof. unfold update. by intros ->. Qed.

Lemma finish_second ec socket args h s : racer_ s = race_speed.mk args 1 (Some h) ->
  finish ec socket s = (set_racer (race_speed.mk no_args 0 None) s, [invoke h args.1 args.2]).
Proof. unfold finish. intros ->. by destruct args. Qed.

Lemma finish_first ec socket args h s : racer_ s = race_speed.mk args 2 (Some h) ->
  finish ec socket s = (set_racer (race_speed.mk (ec, socket) 1 (Some h)) s, []).
Proof. unfold finish. by intros ->. Qed.

Lemma step_open m h s ps r a' : parameters_ r.1 = parameters_ s -> attempts_ r.1 = <[m := a']> (attempts_ s) ->
  racing m h (racer_ r.1) a' (ps ++ concat (map asks r.2)) -> concat (map call_of r.2) = [] -> race_step m h s ps r.
Proof. intros. exists a'. split; [done |]. split; [done |]. by left. Qed.

Lemma step_closed m h s ps r a' ec socket : parameters_ r.1 = parameters_ s -> attempts_ r.1 = <[m := a']> (attempts_ s) ->
  racer_ r.1 = race_speed.mk no_args 0 None -> ps ++ concat (map asks r.2) = [] -> concat (map call_of r.2) = [(h, ec, socket)] ->
  outcome m a' ec socket -> race_step m h s ps r.
Proof.
  intros Hp Ha Hr Hw Hc Ho. exists a'. split; [done |]. split; [done |]. right. rewrite Hr. split; [done |]. split; [done |].
  by exists ec, socket.
Qed.

Lemma finish_same ec socket args h s m a ps : attempts_ s !! m = Some a -> racer_ s = race_speed.mk args 1 (Some h) ->
  outcome m a args.1 args.2 -> ps = [] -> race_step m h s ps (finish ec socket s).
Proof.
  intros Ha Hr Ho ->. rewrite (finish_second _ _ args h) by done. eapply (step_closed _ _ _ _ _ a); try done.
  cbn [fst attempts_ set_racer]. by rewrite list_insert_id.
Qed.

(** The failure of the connection before the timer. *)
Lemma fails_racing m h s a args ec : attempts_ s !! m = Some a -> racer_ s = race_speed.mk args 2 (Some h) ->
  finish_ a = false -> failed ec = true ->
  race_step m h s [timer_pending m] (after [stop_timer] (finish ec None (update stop_socket m s))).
Proof.
  intros Ha Hr Hf Hec. rewrite (update_eq _ _ _ a), (finish_first _ _ args h) by done.
  eapply (step_open _ _ _ _ _ (stop_socket a)); try done. by apply racing_failed.
Qed.

Lemma handle_racing p ec suspended m h s a l r : attempts_ s !! m = Some a -> racing m h (racer_ s) a (l ++ p :: r) ->
  race_step m h s (l ++ r) (handle p ec suspended s).
Proof.
  intros Ha Hr. inversion Hr as [args a0 q Hq Hs Hf Hrac Ea Eps | a0 Hs Hf Hrac Ea Eps | a0 c Hc Hs Hf Hrac Ea Eps | a0 c q Hq Hc Hs Hf Hrac Ea Eps];
    subst a0; symmetry in Hrac.
  - destruct l as [| x [| y l]]; [| | by destruct l].
    + injection Eps as <- <-. cbn [handle app]. unfold handle_timer, finished. rewrite Ha, Hf.
      destruct (failed ec) eqn:Hec; rewrite (update_eq _ _ _ a), (finish_first _ _ args h) by done;
        (eapply (step_open _ _ _ _ _ (stop_socket a)); try done; by apply racing_timed).
    + injection Eps as <- <- <-. cbn [app]. destruct Hq as [-> | ->]; cbn [handle]; unfold handle_resolve, handle_connect, socket_stopped; rewrite Ha, Hs.
      * destruct suspended; [by eapply fails_racing |]. destruct (failed ec) eqn:Hec; [by eapply fails_racing |].
        eapply (step_open _ _ _ _ _ a); try done; cbn [fst snd]; [by rewrite list_insert_id |]. rewrite Hrac.
        apply racing_both; [by right | done | done].
      * destruct suspended; [by eapply fails_racing |]. destruct (failed ec) eqn:Hec; [by eapply fails_racing |].
        rewrite (update_eq _ _ _ a), (finish_first _ _ args h) by done.
        eapply (step_open _ _ _ _ _ (set_finish a)); try done. by apply racing_connected.
  - destruct l as [| x l]; [| by destruct l]. injection Eps as <- <-. cbn [handle app]. unfold handle_timer, finished. rewrite Ha, Hf.
    eapply finish_same; [done | done | | done]. split; [done | by left].
  - destruct l as [| x l]; [| by destruct l]. injection Eps as <- <-. cbn [handle app]. unfold handle_timer, finished. rewrite Ha, Hf.
    assert (forall c', race_step m h s [] (after [cancel_resolve] (finish c' (Some m) (update stop_socket m s)))) as Hlate.
    { intros c'. rewrite (update_eq _ _ _ a), (finish_second _ _ (c, None) h) by done.
      eapply (step_closed _ _ _ _ _ (stop_socket a)); try done. split; [done | by right]. }
    by destruct (failed ec).
  - destruct l as [| x l]; [| by destruct l]. injection Eps as <- <-.
    destruct Hq as [-> | ->]; cbn [handle app]; unfold handle_resolve, handle_connect, socket_stopped; rewrite Ha, Hs;
      (eapply finish_same; [done | done | | done]); (split; [cbn [fst]; congruence | by left]).
Qed.

(** ** Reachable worlds *)

Definition handler_of (c : H * code * option nat) : H := c.1.1.

(** The attempt that has not completed. *)
Definition current (w : world) (k : nat) : Prop := running (self w) = true /\ S k = length (attempts_ (self w)).

Record sound (w : world) : Prop := {
  sound_race : idle (racer_ (self w)) /\ waits w = [] \/
    exists m h a, S m = length (attempts_ (self w)) /\ attempts_ (self w) !! m = Some a /\ racing m h (racer_ (self w)) a (waits w);
  sound_called : forall h ec socket, (h, ec, socket) ∈ called w ->
    match socket with
    | None => failed ec = true
    | Some k => ~ current w k /\ exists a, attempts_ (self w) !! k = Some a /\ stopped_ a = failed ec
    end;
  sound_stopped : forall k a, attempts_ (self w) !! k = Some a -> stopped_ a = false ->
    current w k \/ exists h ec, (h, ec, Some k) ∈ called w /\ failed ec = false;
  sound_asked : map handler_of (called w) ++ option_list (race_speed.complete_ (racer_ (self w))) ≡ₚ asked w
}.

Lemma racing_running m h r a ps : racing m h r a ps -> race_speed.running r = true /\ race_speed.complete_ r = Some h.
Proof. by destruct 1. Qed.

Lemma idle_running (r : racer) : idle r -> race_speed.running r = false.
Proof. unfold race_speed.running. by intros [-> _]. Qed.

Lemma sound_initial c : sound (initial c).
Proof.
  split; [by left | | |]; cbn; [set_solver | | done]. intros k a Ha. by rewrite lookup_nil in Ha.
Qed.

(** What changes nothing but who was called. *)
Lemma sound_same w es ps ask : sound w -> ps = waits w -> concat (map asks es) = [] ->
  map handler_of (called w ++ concat (map call_of es)) ++ option_list (race_speed.complete_ (racer_ (self w))) ≡ₚ ask ->
  (forall h ec socket, (h, ec, socket) ∈ concat (map call_of es) -> socket = None /\ failed ec = true) ->
  sound (perform (self w, es) ps ask w).
Proof.
  intros [Hr Hc Hs Ha] -> He Hp Hn. unfold perform. cbn [fst snd]. split; cbn [self waits called asked].
  - by rewrite He, app_nil_r.
  - intros h ec socket [Hin | Hin]%elem_of_app; [by eapply Hc |]. destruct (Hn _ _ _ Hin) as [-> Hec]. done.
  - intros k a Hk Hst. destruct (Hs k a Hk Hst) as [Hcur | (h & ec & Hin & Hec)]; [by left |]. right. exists h, ec.
    split; [apply elem_of_app; by left | done].
  - done.
Qed.

Lemma sound_start suspended proxied hostname p a e h w : sound w ->
  sound (perform (start suspended proxied hostname p a e h (self w)) (waits w) (asked w ++ [h]) w).
Proof.
  intros Hw. unfold start.
  assert (forall ec : code, failed ec = true -> sound (perform (self w, [invoke h ec None]) (waits w) (asked w ++ [h]) w)) as Hrefuse.
  { intros ec Hec. apply sound_same; [done | done | done | |].
    - cbn. rewrite map_app. cbn. rewrite <- (sound_asked w Hw). rewrite <- !app_assoc. f_equiv. apply Permutation_app_comm.
    - cbn. intros h' ec' socket Hin%list_elem_of_singleton. injection Hin as -> -> ->. done. }
  destruct (running (self w)) eqn:Hrun; [by apply Hrefuse |]. destruct suspended; [by apply Hrefuse |].
  destruct Hw as [[Hi | (m & h' & a' & _ & _ & Hrac)] Hc Hs Ha]; [| apply racing_running in Hrac; unfold running in Hrun; destruct Hrac; congruence].
  destruct Hi as [[Hn Hnone] Hwaits]. unfold race_speed.start, race_speed.running. rewrite Hn. cbn [Nat.eqb negb fst].
  set (n := length (attempts_ (self w))). unfold perform. cbn [fst snd map asks call_of concat app]. rewrite app_nil_r, Hwaits.
  assert (forall k, ~ current w k) as Hnot by (intros k [Hk _]; congruence).
  split; cbn [self waits called asked attempts_ racer_].
  - right. eexists n, h, _. split; [rewrite length_app; cbn; unfold n; lia |].
    split; [rewrite lookup_app_r by (unfold n; lia); by rewrite Nat.sub_diag |]. apply racing_both; [by left | done | done].
  - intros h' ec socket Hin. specialize (Hc h' ec socket Hin). destruct socket as [k |]; [| done].
    destruct Hc as (_ & a' & Hk & Hst). split; [| exists a'; split; [by apply lookup_app_l_Some | done]].
    intros [_ Hlen]. cbn [self attempts_] in Hlen. rewrite length_app in Hlen. cbn in Hlen. apply lookup_lt_Some in Hk. lia.
  - intros k a' Hk Hst. destruct (decide (k = n)) as [-> | Hne].
    + left. split; [done |]. cbn [self attempts_]. rewrite length_app. cbn. unfold n. lia.
    + right. assert (attempts_ (self w) !! k = Some a') as Hold.
      { apply lookup_app_Some in Hk as [Hk | [Hge Hk]]; [done |]. fold n in Hge, Hk. apply list_lookup_singleton_Some in Hk as [Hk _]. lia. }
      destruct (Hs k a' Hold Hst) as [Hcur | Hex]; [by apply Hnot in Hcur | done].
  - rewrite <- Ha, Hnone. cbn. by rewrite app_nil_r.
Qed.

Lemma connector_sound_completion w w' : sound w -> completion w w' -> sound w'.
Proof.
  intros [Hrace Hc Hs Ha] Hm. inversion Hm as [w0 p l r ec suspended Hw]. subst w0. clear Hm.
  destruct Hrace as [[_ Hnil] | (m & h & a & Hlen & Hat & Hrac)]; [by rewrite Hnil in Hw; destruct l |].
  rewrite Hw in Hrac. pose proof (racing_running _ _ _ _ _ Hrac) as [Hrun Hcomp].
  destruct (handle_racing p ec suspended m h (self w) a l r Hat Hrac) as (a' & _ & Hatt & Hcase).
  assert (current w m) as Hcur by done.
  assert (forall k, current w k -> k = m) as Honly by (intros k [_ Hk]; lia).
  assert (forall k b, k <> m -> attempts_ (self w) !! k = Some b -> attempts_ (handle p ec suspended (self w)).1 !! k = Some b) as Hkeep
    by (intros k b Hne Hk; rewrite Hatt; by rewrite list_lookup_insert_ne).
  assert (attempts_ (handle p ec suspended (self w)).1 !! m = Some a') as Hnew.
  { rewrite Hatt. apply list_lookup_insert_eq. by eapply lookup_lt_Some. }
  assert (length (attempts_ (handle p ec suspended (self w)).1) = length (attempts_ (self w))) as Hsize
    by (rewrite Hatt; apply length_insert).
  destruct Hcase as [[Hopen Hcalls] | (Hidle & Hwaits & c & socket & Hcalls & Hout)]; unfold perform; rewrite Hcalls.
  - pose proof (racing_running _ _ _ _ _ Hopen) as [Hrun' Hcomp']. rewrite app_nil_r. split; cbn [self waits called asked].
    + right. exists m, h, a'. by rewrite Hsize.
    + intros h' ec' socket Hin. specialize (Hc h' ec' socket Hin). destruct socket as [k |]; [| done].
      destruct Hc as (Hno & b & Hk & Hst). assert (k <> m) as Hne by (by intros ->). split; [| exists b; split; [by apply Hkeep | done]].
      intros [_ Hk']. cbn [self] in Hk'. apply Hne. lia.
    + intros k b Hk Hst. destruct (decide (k = m)) as [-> | Hne]; [left; split; [done | cbn [self]; lia] |].
      right. rewrite Hatt, list_lookup_insert_ne in Hk by done. destruct (Hs k b Hk Hst) as [Hk' | Hex]; [by apply Honly in Hk' | done].
    + by rewrite <- Ha, Hcomp, Hcomp'.
  - pose proof (idle_running _ Hidle) as Hrun'. destruct Hidle as [Hzero Hnone]. destruct Hout as [Hst Hsock].
    assert (forall k, ~ current (mk_world (handle p ec suspended (self w)).1 ((l ++ r) ++ concat (map asks (handle p ec suspended (self w)).2))
      (asked w) (called w ++ [(h, c, socket)])) k) as Hnone' by (intros k [Hk _]; cbn [self] in Hk; unfold running in Hk; congruence).
    split; cbn [self waits called asked].
    + by left.
    + intros h' ec' socket' [Hin | Hin%list_elem_of_singleton]%elem_of_app.
      * specialize (Hc h' ec' socket' Hin). destruct socket' as [k |]; [| done]. destruct Hc as (Hno & b & Hk & Hb). split; [apply Hnone' |].
        exists b. split; [apply Hkeep; [by intros -> | done] | done].
      * injection Hin as -> -> ->. destruct Hsock as [-> | [-> Hec]]; [| done]. split; [apply Hnone' |]. by exists a'.
    + intros k b Hk Hb. right. destruct (decide (k = m)) as [-> | Hne].
      * rewrite Hnew in Hk. injection Hk as <-. exists h, c. destruct Hsock as [-> | [-> Hec]]; [| congruence].
        split; [apply elem_of_app; right; by apply list_elem_of_singleton | congruence].
      * rewrite Hatt, list_lookup_insert_ne in Hk by done. destruct (Hs k b Hk Hb) as [Hk' | (h' & ec' & Hin & Hec)]; [by apply Honly in Hk' |].
        exists h', ec'. split; [apply elem_of_app; by left | done].
    + rewrite <- Ha, Hcomp, Hnone, map_app. cbn. by rewrite app_nil_r.
Qed.

Lemma sound_stop w : sound w -> sound (perform (self w, stop (self w)) (waits w) (asked w) w).
Proof.
  intros Hw. apply sound_same; [done | done | unfold stop; by destruct (running _) | |].
  - rewrite <- (sound_asked w Hw). unfold stop. destruct (running _); cbn; by rewrite app_nil_r.
  - unfold stop. destruct (running _); set_solver.
Qed.

Lemma connector_sound c w : rtc move (initial c) w -> sound w.
Proof.
  intros Hr. remember (initial c) as w0 eqn:He. assert (sound w0) as Hs by (subst; apply sound_initial). clear He.
  induction Hr as [w | w1 w2 w3 Hm _ IH]; [done |]. apply IH.
  destruct Hm as [w suspended proxied hostname p a e h | w | w w' Hm]; [by apply sound_start | by apply sound_stop | by eapply connector_sound_completion].
Qed.

(** C16: connection once.  However the timer, the resolver and the sockets
    complete, and whenever the strand connects or stops, each handler is called
    exactly once, the one of a race that runs excepted; with success it is given
    a socket that is not stopped, with a failure no socket or a stopped one; and
    no socket that is not stopped remains without its handler. *)
Theorem connector_calls_once c w : rtc move (initial c) w ->
  map handler_of (called w) ++ option_list (race_speed.complete_ (racer_ (self w))) ≡ₚ asked w /\
  (forall h ec socket, (h, ec, socket) ∈ called w ->
    match socket with
    | None => failed ec = true
    | Some k => exists a, attempts_ (self w) !! k = Some a /\ stopped_ a = failed ec
    end) /\
  forall k a, attempts_ (self w) !! k = Some a -> stopped_ a = false ->
    current w k \/ exists h ec, (h, ec, Some k) ∈ called w /\ failed ec = false.
Proof.
  intros Hr%connector_sound. split; [by apply sound_asked |]. split; [| by apply sound_stopped].
  intros h ec socket Hin. pose proof (sound_called w Hr h ec socket Hin) as Hc. destruct socket as [k |]; [by destruct Hc | done].
Qed.

(** What remains until the race of the attempt completes. *)
Definition distance (w : world) : nat :=
  sum_list (map (fun p => match p with resolve_pending _ => 2 | _ => 1 end)%nat (waits w)).

Lemma sum_list_app' l k : sum_list (l ++ k) = (sum_list l + sum_list k)%nat.
Proof. induction l; cbn; lia. Qed.

Lemma distance_bound w : sound w -> (distance w <= 3)%nat.
Proof.
  intros Hw. unfold distance. destruct (sound_race w Hw) as [[_ ->] | (m & h & a & _ & _ & Hr)]; [cbn; lia |].
  by destruct Hr as [args a p [-> | ->] | | | a ec p [-> | ->]]; cbn; lia.
Qed.

Lemma connector_closer w w' : sound w -> completion w w' -> (distance w' < distance w)%nat.
Proof.
  intros Hw Hm. inversion Hm as [w0 p l r ec suspended Hwaits]. subst w0. unfold perform, distance. cbn [waits]. rewrite Hwaits.
  rewrite !map_app, !sum_list_app'. cbn [map sum_list].
  assert (forall c socket s, concat (map asks (finish c socket s).2) = []) as Hfin.
  { intros c socket s. unfold finish. destruct (race_speed.finish _ _ _ _) as [[r' calls] won]. cbn [snd]. by induction calls as [| [? [? ?]] calls IH]. }
  destruct p as [m | m | m]; cbn [handle]; unfold handle_timer, handle_resolve, handle_connect, after; repeat case_match; cbn [snd fst map concat asks app];
    rewrite ?Hfin; cbn; lia.
Qed.

Lemma completions_bounded n w w' : sound w -> nsteps completion n w w' -> (n + distance w' <= distance w)%nat.
Proof.
  intros Hw Hn. revert Hw. induction Hn as [w | n w1 w2 w3 Hm _ IH]; intros Hw; [lia |].
  pose proof (connector_closer w1 w2 Hw Hm). specialize (IH (connector_sound_completion _ _ Hw Hm)). lia.
Qed.

(** Connection ends.  From any world at most three completions remain, and
    when none does the race is over and every handler was called: the timer,
    which stop cancels, suffices to end a connection that hangs. *)
Theorem connector_completes c w n w' : rtc move (initial c) w -> nsteps completion n w w' ->
  (n <= 3)%nat /\
  ((forall w'', ~ completion w' w'') -> running (self w') = false /\ map handler_of (called w') ≡ₚ asked w').
Proof.
  intros Hr%connector_sound Hn. pose proof (completions_bounded n w w' Hr Hn). pose proof (distance_bound w Hr). split; [lia |].
  intros Hstuck.
  assert (sound w') as Hs by (clear H0 H1 Hstuck; induction Hn as [| n w1 w2 w3 Hm _ IH]; [done | by apply IH; eapply connector_sound_completion]).
  pose proof (sound_asked w' Hs) as Ha. destruct (sound_race w' Hs) as [[Hi _] | (m & h & a & _ & _ & Hrac)].
  - split; [by apply idle_running |]. destruct Hi as [_ Hnone]. rewrite Hnone in Ha. cbn in Ha. by rewrite app_nil_r in Ha.
  - assert (exists p ps, waits w' = [] ++ p :: ps) as (p & ps & Hp) by (destruct Hrac; eauto).
    exfalso. eapply Hstuck. by apply (completed w' p [] ps cleared false).
Qed.
End connector.

(** ** Witnesses *)

Definition sample_start (h : nat) : t (H := nat) (Context := unit) (Address := bool) (Endpoint := unit) -> _ :=
  start (fun a => a) false false [] 8333 true tt h.

Definition sample0 : world := initial (H := nat) (Address := bool) (Endpoint := unit) (Some tt).
Definition sample1 : world := perform (sample_start 7 (self sample0)) (waits sample0) [7%nat] sample0.

(** The timer fires before the name is resolved. *)
Definition sample2 : world := perform (handle (timer_pending 0) error.success false (self sample1)) [resolve_pending 0] [7%nat] sample1.
Definition sample3 : world := perform (handle (resolve_pending 0) error.success false (self sample2)) [] [7%nat] sample2.

Lemma sample_moves : rtc (move (fun a => a)) sample0 sample1.
Proof. apply rtc_once. exact (connects (fun a => a) sample0 false false [] 8333 true tt 7%nat). Qed.

Lemma sample_completions : nsteps completion 2 sample1 sample3.
Proof.
  eapply nsteps_l; [exact (completed sample1 (timer_pending 0) [] [resolve_pending 0] error.success false eq_refl) |].
  apply nsteps_once. exact (completed sample2 (resolve_pending 0) [] [] error.success false eq_refl).
Qed.

(** A handler is given a socket, which is stopped, with the failure. *)
Lemma connector_timeout_socket :
  called sample3 = [(7%nat, error.operation_timeout : code, Some 0%nat)] /\ socket_stopped 0 (self sample3) = true.
Proof. split; reflexivity. Qed.

Lemma connector_calls_once_witness :
  map handler_of (called sample1) ++ option_list (race_speed.complete_ (racer_ (self sample1))) ≡ₚ asked sample1 /\
  (forall h ec socket, (h, ec, socket) ∈ called sample1 ->
    match socket with
    | None => failed ec = true
    | Some k => exists a, attempts_ (self sample1) !! k = Some a /\ stopped_ a = failed ec
    end) /\
  forall k a, attempts_ (self sample1) !! k = Some a -> stopped_ a = false ->
    current sample1 k \/ exists h ec, (h, ec, Some k) ∈ called sample1 /\ failed ec = false.
Proof. apply (connector_calls_once (fun a => a) (Some tt) sample1). exact sample_moves. Defined.

Lemma connector_completes_witness :
  (2 <= 3)%nat /\
  ((forall w'', ~ completion sample3 w'') -> running (self sample3) = false /\ map handler_of (called sample3) ≡ₚ asked sample3).
Proof. apply (connector_completes (fun a => a) (Some tt) sample1 2 sample3); [exact sample_moves | exact sample_completions]. Defined.
End connector.
