(* ===== verification/SamText.v ===== *)
(** * SamText: the lines of an i2p sam bridge

    Models the text utilities and the requests of [src/net/acceptor_sam.cpp],
    and the destination of [src/settings.cpp].  Text is a list of bytes; base64
    and sha256 of libbitcoin-system are parameters of what uses them. *)

From S2P Require Import Prelude.
From S2P Require Import Errors.

Module sam.

Definition terminator : Z := 10.
Definition space : Z := 32.
Definition quote : Z := 34.
Definition backslash : Z := 92.
Definition maximum_line : Z := 65536.

Definition sam_result (value : bytes) : code :=
  let same s := bool_decide (value = chars s) in
  if same "OK"%string then error.success
  else if same "NOVERSION"%string then error.sam_no_version
  else if same "CANT_REACH_PEER"%string then error.sam_cant_reach_peer
  else if same "DUPLICATED_DEST"%string then error.sam_duplicated_dest
  else if same "DUPLICATED_ID"%string then error.sam_duplicated_id
  else if same "I2P_ERROR"%string then error.sam_i2p_error
  else if same "INVALID_ID"%string then error.sam_invalid_id
  else if same "INVALID_KEY"%string then error.sam_invalid_key
  else if same "KEY_NOT_FOUND"%string then error.sam_key_not_found
  else if same "PEER_NOT_FOUND"%string then error.sam_peer_not_found
  else if same "TIMEOUT"%string then error.sam_timeout
  else error.sam_unassigned_failure.

(** ** Tokens *)

(** The loop over characters; a token that is not empty is ended by a space. *)
Record scan := mk_scan { tokens : list bytes; token : bytes; quoted : bool; escaped : bool }.

Definition push (c : Z) (s : scan) : scan := mk_scan (tokens s) (token s ++ [c]) (quoted s) false.

Definition end_token (s : scan) : scan :=
  mk_scan (match token s with [] => tokens s | _ => tokens s ++ [token s] end) [] (quoted s) (escaped s).

Definition scan_character (s : scan) (c : Z) : scan :=
  if escaped s then push c s
  else if quoted s && (c =? backslash) then mk_scan (tokens s) (token s) (quoted s) true
  else if c =? quote then mk_scan (tokens s) (token s) (negb (quoted s)) false
  else if (c =? space) && negb (quoted s) then end_token s
  else push c s.

Definition to_tokens (line : bytes) : list bytes :=
  tokens (end_token (fold_left scan_character line (mk_scan [] [] false false))).

(** [starts_with] and [substr]. *)
Definition after_prefix (p l : bytes) : option bytes :=
  if bool_decide (ztake (len p) l = p) then Some (zdrop (len p) l) else None.

Fixpoint to_value_of (prefix : bytes) (l : list bytes) : bytes :=
  match l with
  | [] => []
  | t :: l => match after_prefix prefix t with Some v => v | None => to_value_of prefix l end
  end.

Definition to_value (tokens : list bytes) (key : bytes) : bytes := to_value_of (key ++ chars "=") tokens.

Definition is_reply (tokens : list bytes) (major minor : bytes) : bool :=
  match tokens with a :: b :: _ => bool_decide (a = major) && bool_decide (b = minor) | _ => false end.

(** ** Values *)

Definition escape (c : Z) : bytes := if c =? quote then [backslash; quote] else [c].

Definition to_quoted (value : bytes) : bytes := quote :: concat (map escape value) ++ [quote].

Definition replace (a b c : Z) : Z := if c =? a then b else c.

(** The i2p alphabet has [-~] for [+/]. *)
Definition to_standard_base64 (i2p : bytes) : bytes := map (replace 126 47) (map (replace 45 43) i2p).
Definition to_i2p_base64 (standard : bytes) : bytes := map (replace 47 126) (map (replace 43 45) standard).

(** ** Requests *)

Definition nonempty (l : bytes) : bool := match l with [] => false | _ => true end.

Definition version : bytes := chars "3.1".
Definition version_authenticated : bytes := chars "3.2".

Definition to_hello (username password : bytes) : bytes :=
  if negb (nonempty username) && negb (nonempty password) then
    chars "HELLO VERSION MIN=" ++ version ++ chars " MAX=" ++ version ++ [terminator]
  else
    chars "HELLO VERSION MIN=" ++ version_authenticated ++ chars " MAX=" ++ version_authenticated ++
    chars " USER=" ++ to_quoted username ++ chars " PASSWORD=" ++ to_quoted password ++ [terminator].

Definition to_session_create (id k : bytes) : bytes :=
  let destination := if nonempty k then k else
    chars "TRANSIENT" ++ chars " SIGNATURE_TYPE=" ++ chars "7" ++ chars " " ++ chars "i2cp.leaseSetEncType=4,0" in
  chars "SESSION CREATE STYLE=STREAM ID=" ++ id ++ chars " DESTINATION=" ++ destination ++ [terminator].

(** [serialize] gives the decimal digits of a port. *)
Fixpoint digits_of (fuel : nat) (n : Z) : bytes :=
  match fuel with
  | O => []
  | S f => (if n <? 10 then [] else digits_of f (n / 10)) ++ [48 + n mod 10]
  end.

Definition serialize (port : Z) : bytes := digits_of 5 port.

Definition to_stream_forward (id : bytes) (port : Z) : bytes :=
  chars "STREAM FORWARD ID=" ++ id ++ chars " PORT=" ++ serialize port ++ chars " HOST=" ++ chars "127.0.0.1" ++
  chars " SILENT=false" ++ [terminator].

(** ** Destinations *)

Definition destination_size : Z := 387.
Definition certificate_position : Z := 385.

(** The public prefix of a private key, empty if it is truncated. *)
Definition to_destination (private_key : bytes) : bytes :=
  if len private_key <? destination_size then [] else
  let size := destination_size + be_value (ztake 2 (zdrop certificate_position private_key)) in
  if len private_key <? size then [] else ztake size private_key.

(** The address of a stored key, absent if it is invalid: an i2p address is the
    hash of its destination. *)
Definition to_self (decode_base64 : bytes -> option bytes) (sha256_hash : bytes -> bytes) (k : bytes) : option bytes :=
  match decode_base64 k with
  | None => None
  | Some private_key =>
    match to_destination private_key with
    | [] => None
    | destination => Some (sha256_hash destination)
    end
  end.

(** ** Theorems *)

Lemma scan_line_app l k s : fold_left scan_character (l ++ k) s = fold_left scan_character k (fold_left scan_character l s).
Proof. apply fold_left_app. Qed.

(** Characters that need no quotes. *)
Definition plain (c : Z) : Prop := c <> space /\ c <> quote.

Lemma scan_plain l ts t : Forall plain l ->
  fold_left scan_character l (mk_scan ts t false false) = mk_scan ts (t ++ l) false false.
Proof.
  revert t. induction l as [| c l IH]; intros t Hl; [by rewrite app_nil_r |]. apply Forall_cons in Hl as [[Hs Hq] Hl].
  cbn [fold_left]. unfold scan_character at 2. cbn [escaped quoted andb].
  destruct (c =? quote) eqn:Hc; [lia |]. destruct (c =? space) eqn:Hc'; [lia |]. unfold push. cbn [tokens token quoted andb].
  rewrite IH by done. by rewrite <- app_assoc.
Qed.

(** A quoted value is read as it was, unless it has an escape of its own. *)
Lemma scan_quoted v ts t : Forall (fun c => c <> backslash) v ->
  fold_left scan_character (to_quoted v) (mk_scan ts t false false) = mk_scan ts (t ++ v) false false.
Proof.
  intros Hv. unfold to_quoted. cbn [fold_left]. unfold scan_character at 2. cbn [escaped quoted andb negb].
  change (quote =? quote) with true. cbn iota. cbn [tokens token quoted negb]. rewrite scan_line_app.
  assert (fold_left scan_character (concat (map escape v)) (mk_scan ts t true false) = mk_scan ts (t ++ v) true false) as ->; [| done].
  revert t. induction Hv as [| c v Hc _ IH]; intros t; [by rewrite app_nil_r |]. cbn [map concat]. rewrite scan_line_app.
  assert (fold_left scan_character (escape c) (mk_scan ts t true false) = mk_scan ts (t ++ [c]) true false) as ->.
  { unfold escape. destruct (c =? quote) eqn:Hq.
    - apply Z.eqb_eq in Hq as ->. done.
    - cbn. unfold scan_character. cbn. destruct (c =? backslash) eqn:Hb; [lia |]. by rewrite Hq, andb_false_r. }
  by rewrite IH, <- app_assoc.
Qed.

Lemma scan_space ts c l : c <> [] ->
  fold_left scan_character (space :: l) (mk_scan ts c false false) = fold_left scan_character l (mk_scan (ts ++ [c]) [] false false).
Proof. cbn. unfold end_token. cbn. by destruct c. Qed.

Lemma end_scan ts c : c <> [] -> tokens (end_token (mk_scan ts c false false)) = ts ++ [c].
Proof. unfold end_token. cbn. by destruct c. Qed.

Definition unescaped (v : bytes) : Prop := Forall (fun c => c <> backslash) v.

Definition hello_tokens (username password : bytes) : list bytes :=
  if negb (nonempty username) && negb (nonempty password)
  then [chars "HELLO"; chars "VERSION"; chars "MIN=3.1"; chars "MAX=3.1"]
  else [chars "HELLO"; chars "VERSION"; chars "MIN=3.2"; chars "MAX=3.2"; chars "USER=" ++ username; chars "PASSWORD=" ++ password].

(** A text without a line end is one line. *)
Definition single_line (l : bytes) : bool := forallb (fun c => negb (c =? terminator)) l.

Lemma single_app l k : single_line (l ++ k) = single_line l && single_line k.
Proof. apply forallb_app. Qed.

Lemma single_quoted v : single_line v = true -> single_line (to_quoted v) = true.
Proof.
  intros Hv. unfold to_quoted. change (quote :: concat (map escape v) ++ [quote]) with ([quote] ++ concat (map escape v) ++ [quote]).
  rewrite !single_app. change (single_line [quote]) with true. rewrite andb_true_r, andb_true_l. induction v as [| c v IH]; [done |]. cbn [map concat].
  change (c :: v) with ([c] ++ v) in Hv. rewrite single_app in Hv |- *. apply andb_true_iff in Hv as [Hc Hv]. rewrite IH by done.
  unfold escape. destruct (c =? quote); [done |]. by rewrite Hc.
Qed.

(** Sam credentials.  A greeting is one line, of the tokens of the protocol
    and of the credentials as they are, spaces and quotes included, provided
    that these have no line end and no backslash. *)
Theorem sam_hello_tokens username password : unescaped username -> unescaped password ->
  single_line username = true -> single_line password = true ->
  exists line, to_hello username password = line ++ [terminator] /\ single_line line = true /\
    to_tokens line = hello_tokens username password.
Proof.
  intros Hu Hp Hnu Hnp. unfold to_hello, hello_tokens. destruct (negb _ && negb _) eqn:He.
  - by exists (chars "HELLO VERSION MIN=3.1 MAX=3.1").
  - exists (chars "HELLO VERSION MIN=3.2 MAX=3.2 USER=" ++ to_quoted username ++ chars " PASSWORD=" ++ to_quoted password).
    split; [by rewrite <- !app_assoc |]. split; [by rewrite !single_app, !single_quoted |].
    unfold to_tokens. rewrite scan_line_app.
    change (fold_left scan_character (chars "HELLO VERSION MIN=3.2 MAX=3.2 USER=") (mk_scan [] [] false false)) with
      (mk_scan [chars "HELLO"; chars "VERSION"; chars "MIN=3.2"; chars "MAX=3.2"] (chars "USER=") false false).
    rewrite scan_line_app, scan_quoted by done. rewrite scan_line_app.
    change (chars " PASSWORD=") with (space :: chars "PASSWORD="). rewrite scan_space by done.
    rewrite scan_plain by (repeat constructor; discriminate). rewrite scan_quoted by done. by rewrite end_scan.
Qed.

(** A backslash at the end of the username hides the quote that ends it, so
    that the password is read as part of the username. *)
Lemma sam_backslash_joins :
  to_tokens (chars "USER=" ++ to_quoted [97; backslash] ++ chars " PASSWORD=" ++ to_quoted [112]) <>
    [chars "USER=" ++ [97; backslash]; chars "PASSWORD=" ++ [112]] /\
  length (to_tokens (chars "USER=" ++ to_quoted [97; backslash] ++ chars " PASSWORD=" ++ to_quoted [112])) = 1%nat.
Proof. split; [by vm_compute | reflexivity]. Qed.

(** ** Ports *)

Definition decimal (l : bytes) : Z := fold_left (fun a c => 10 * a + (c - 48)) l 0.

Lemma decimal_digits fuel n : 0 <= n < 10 ^ Z.of_nat fuel -> decimal (digits_of fuel n) = n /\ Forall (fun c => 48 <= c < 58) (digits_of fuel n).
Proof.
  revert n. induction fuel as [| f IH]; intros n Hn; [cbn in *; split; [lia | done] |]. cbn [digits_of].
  pose proof (Z.mod_pos_bound n 10 eq_refl). pose proof (Z.div_mod n 10 ltac:(lia)).
  destruct (n <? 10) eqn:Hlt.
  - cbn [app]. split; [unfold decimal; cbn [fold_left]; rewrite Z.mod_small by lia; lia | repeat constructor; lia].
  - rewrite Nat2Z.inj_succ, Z.pow_succ_r in Hn by lia.
    destruct (IH (n / 10)) as [Hd Hf]; [split; [apply Z.div_pos; lia | apply Z.div_lt_upper_bound; lia] |].
    unfold decimal in *. rewrite fold_left_app, Hd. cbn [fold_left]. split; [lia | apply Forall_app; split; [done | repeat constructor; lia]].
Qed.

Lemma digits_plain l : Forall (fun c => 48 <= c < 58) l -> Forall plain l /\ single_line l = true.
Proof.
  intros Hl. split.
  - eapply Forall_impl; [exact Hl |]. cbn beta. intros c Hc. unfold plain, space, quote. lia.
  - induction Hl as [| c l Hc _ IH]; [done |]. change (c :: l) with ([c] ++ l). rewrite single_app, IH. unfold single_line, terminator. cbn [forallb].
    cbn beta in Hc. by destruct (Z.eqb_spec c 10); [lia |].
Qed.

(** Sam requests.  The requests of a session and of its forwarding are each
    one line, of the tokens of the protocol, with the identifier and key as
    they are and the port in decimal. *)
Theorem sam_request_tokens id k port : Forall plain id -> Forall plain k -> single_line id = true -> single_line k = true -> 0 <= port < 65536 ->
  (exists line, to_session_create id k = line ++ [terminator] /\ single_line line = true /\
    to_tokens line = [chars "SESSION"; chars "CREATE"; chars "STYLE=STREAM"; chars "ID=" ++ id] ++
      (if nonempty k then [chars "DESTINATION=" ++ k]
       else [chars "DESTINATION=TRANSIENT"; chars "SIGNATURE_TYPE=7"; chars "i2cp.leaseSetEncType=4,0"])) /\
  exists line digits, to_stream_forward id port = line ++ [terminator] /\ single_line line = true /\ decimal digits = port /\
    to_tokens line = [chars "STREAM"; chars "FORWARD"; chars "ID=" ++ id; chars "PORT=" ++ digits; chars "HOST=127.0.0.1"; chars "SILENT=false"].
Proof.
  intros Hi Hk Hsi Hsk Hp. split.
  - set (d := if nonempty k then k else chars "TRANSIENT SIGNATURE_TYPE=7 i2cp.leaseSetEncType=4,0").
    exists (chars "SESSION CREATE STYLE=STREAM ID=" ++ id ++ chars " DESTINATION=" ++ d).
    split; [unfold to_session_create, d; rewrite <- !app_assoc; by destruct (nonempty k) |].
    split; [rewrite !single_app, Hsi; unfold d; by destruct (nonempty k); [rewrite Hsk |] |].
    unfold to_tokens. rewrite scan_line_app.
    change (fold_left scan_character (chars "SESSION CREATE STYLE=STREAM ID=") (mk_scan [] [] false false)) with
      (mk_scan [chars "SESSION"; chars "CREATE"; chars "STYLE=STREAM"] (chars "ID=") false false).
    rewrite scan_line_app, scan_plain by done. rewrite scan_line_app. change (chars " DESTINATION=") with (space :: chars "DESTINATION=").
    rewrite scan_space by done. rewrite scan_plain by (repeat constructor; discriminate). unfold d. destruct (nonempty k) eqn:He.
    + rewrite scan_plain by done. by rewrite end_scan.
    + reflexivity.
  - destruct (decimal_digits 5 port) as [Hd Hf]; [cbn; lia |]. destruct (digits_plain _ Hf) as [Hpl Hsd].
    exists (chars "STREAM FORWARD ID=" ++ id ++ chars " PORT=" ++ serialize port ++ chars " HOST=127.0.0.1 SILENT=false"), (serialize port).
    unfold serialize in *. split; [unfold to_stream_forward; by rewrite <- !app_assoc |].
    split; [by rewrite !single_app, Hsi, Hsd |]. split; [done |].
    unfold to_tokens. rewrite scan_line_app.
    change (fold_left scan_character (chars "STREAM FORWARD ID=") (mk_scan [] [] false false)) with
      (mk_scan [chars "STREAM"; chars "FORWARD"] (chars "ID=") false false).
    rewrite scan_line_app, scan_plain by done. rewrite scan_line_app. change (chars " PORT=") with (space :: chars "PORT=").
    rewrite scan_space by done. rewrite scan_plain by (repeat constructor; discriminate). rewrite scan_line_app, scan_plain by done.
    change (chars " HOST=127.0.0.1 SILENT=false") with (space :: chars "HOST=127.0.0.1 SILENT=false"). rewrite scan_space by done. reflexivity.
Qed.

(** The alphabets are exchanged by their substitutions. *)
Lemma base64_alphabets l : Forall (fun c => c <> 45 /\ c <> 126) l -> to_standard_base64 (to_i2p_base64 l) = l.
Proof.
  intros Hl. unfold to_standard_base64, to_i2p_base64. rewrite !map_map. induction Hl as [| c l [H1 H2] _ IH]; [done |]. cbn [map].
  f_equal; [| exact IH]. unfold replace. repeat case_match; lia.
Qed.

(** ** Witnesses *)

Lemma sam_hello_tokens_witness :
  exists line, to_hello [97; 32; 34] [112] = line ++ [terminator] /\ single_line line = true /\
    to_tokens line = hello_tokens [97; 32; 34] [112].
Proof. apply sam_hello_tokens; [repeat constructor; discriminate | repeat constructor; discriminate | reflexivity | reflexivity]. Defined.

Lemma sam_request_tokens_witness :
  (exists line, to_session_create [97; 98] [] = line ++ [terminator] /\ single_line line = true /\
    to_tokens line = [chars "SESSION"; chars "CREATE"; chars "STYLE=STREAM"; chars "ID=" ++ [97; 98]] ++
      (if nonempty [] then [chars "DESTINATION=" ++ []]
       else [chars "DESTINATION=TRANSIENT"; chars "SIGNATURE_TYPE=7"; chars "i2cp.leaseSetEncType=4,0"])) /\
  exists line digits, to_stream_forward [97; 98] 8333 = line ++ [terminator] /\ single_line line = true /\ decimal digits = 8333 /\
    to_tokens line = [chars "STREAM"; chars "FORWARD"; chars "ID=" ++ [97; 98]; chars "PORT=" ++ digits; chars "HOST=127.0.0.1"; chars "SILENT=false"].
Proof.
  apply (sam_request_tokens [97; 98] [] 8333); [repeat constructor; discriminate | constructor | reflexivity | reflexivity | lia].
Defined.
End sam.
