(* ===== verification/SamLine.v ===== *)
(** * SamLine: requests and lines over a control socket

    Models the line protocol of [src/net/acceptor_sam.cpp]: a request is
    written whole, and its reply is read a byte at a time, so that what follows
    the line is left to the peer. *)

From S2P Require Import Prelude.
From S2P Require Import Errors.
From S2P Require Import Transport.
From S2P Require Import SamText.

Module sam_line.
Import sam.

(** The socket is stopped or not. *)
Record t := mk { stopped : bool }.

Inductive operation := request_written (request_size : Z) | byte_read (line : bytes).

Inductive outcome := lined (ec : code) (line : bytes).

Notation action := (Transport.action operation outcome).

Definition result_of (ec : code) (s : t) : code := if stopped s then error.channel_stopped else ec.

Definition do_sam_read (line : bytes) (s : t) : t * action := (s, read 1 (byte_read line)).

Definition do_sam_request (request : bytes) (s : t) : t * action := (s, write request (request_written (len request))).

Definition handle_sam_write (ec : code) (size request_size : Z) (s : t) : t * action :=
  let result := result_of ec s in
  if failed result then (s, finish (lined result [])) else
  if negb (size =? request_size) then (s, finish (lined error.operation_failed [])) else
  do_sam_read [] s.

Definition handle_sam_read (ec : code) (byte line : bytes) (s : t) : t * action :=
  let result := result_of ec s in
  if failed result then (s, finish (lined result [])) else
  if negb (len byte =? 1) then (s, finish (lined error.operation_failed [])) else
  if len line >=? maximum_line then (s, finish (lined error.sam_response_invalid [])) else
  if negb (zget byte 0 =? terminator) then do_sam_read (line ++ [zget byte 0]) s else
  (s, finish (lined error.success line)).

Definition completion (op : operation) (ec : code) (data : bytes) (s : t) : t * action :=
  match op with
  | request_written size => handle_sam_write ec (len data) size s
  | byte_read line => handle_sam_read ec data line s
  end.

#[global] Instance sam_protocol : Protocol t operation outcome := completion.

(** ** Runs *)

Definition measure (c : config t operation outcome) : nat :=
  match next c with
  | write _ _ => length (input c) + 2
  | read _ _ => length (input c) + 1
  | _ => 0
  end.

Definition sound (c : config t operation outcome) : Prop :=
  match next c with
  | write _ (request_written _) => True
  | read n (byte_read _) => n = 1
  | finish _ => True
  | _ => False
  end.

Definition run := Transport.run measure.

Definition read_next (r : t * action) : Prop :=
  match r.2 with read n (byte_read _) => n = 1 | finish _ => True | _ => False end.

Lemma write_next ec size request_size s : read_next (handle_sam_write ec size request_size s).
Proof. unfold handle_sam_write. repeat case_match; done. Qed.

Lemma byte_next ec byte line s : read_next (handle_sam_read ec byte line s).
Proof. unfold handle_sam_read. repeat case_match; done. Qed.

Lemma next_sound r inp out n : read_next r -> (length inp < n)%nat -> sound (resume r inp out) /\ (measure (resume r inp out) < S n)%nat.
Proof.
  intros Hr Hn. unfold sound, measure. cbn [next resume input]. unfold read_next in Hr.
  destruct r.2 as [d [k | l] | k [k' | l] | k op | op | o]; try done; split; try done; lia.
Qed.

Lemma sam_step_decreases schedule : decreases sound measure (step schedule).
Proof.
  intros c c' Hc Hs. unfold step in Hs. unfold sound in Hc. unfold measure at 2.
  destruct (next c) as [d [k | l] | k [k' | l] | k op | op | o]; try done.
  - injection Hs as <-. replace (length (input c) + 2)%nat with (S (length (input c) + 1)) by lia.
    apply next_sound; [apply write_next | lia].
  - subst k. destruct (len (input c) <? 1) eqn:Hlt; [done |]. injection Hs as <-.
    replace (length (input c) + 1)%nat with (S (length (input c))) by lia. apply next_sound; [apply byte_next |].
    unfold zdrop. rewrite length_drop. unfold len in Hlt. lia.
Qed.

(** ** A line *)

(** What is read of the input after a line was begun: a line and what follows,
    or nothing within the limit, or too little. *)
Inductive reading := a_line (line rest : bytes) | too_long (rest : bytes) | too_short.

Fixpoint read_line (line inp : bytes) : reading :=
  match inp with
  | [] => too_short
  | c :: inp =>
    if len line >=? maximum_line then too_long inp else
    if c =? terminator then a_line line inp else read_line (line ++ [c]) inp
  end.

(** How the run ends. *)
Definition reads_line (s : t) (r : reading) (out : bytes) (c : config t operation outcome) : Prop :=
  output c = out /\ self c = s /\
  match r with
  | a_line line rest => next c = finish (lined error.success line) /\ input c = rest
  | too_long rest => next c = finish (lined error.sam_response_invalid []) /\ input c = rest
  | too_short => (exists line, next c = read 1 (byte_read line)) /\ input c = []
  end.

Lemma run_step schedule c c' : sound c -> step schedule c = inl c' -> run schedule c = run schedule c'.
Proof.
  intros Hc Hs. unfold run, Transport.run. rewrite (while_unfold sound) by (done || apply sam_step_decreases). by rewrite Hs.
Qed.

Lemma run_end schedule c : sound c -> step schedule c = inr c -> run schedule c = Some c.
Proof.
  intros Hc Hs. unfold run, Transport.run. rewrite (while_unfold sound) by (done || apply sam_step_decreases). by rewrite Hs.
Qed.

Lemma read_line_runs schedule s line inp out : stopped s = false ->
  exists c, run schedule (resume (do_sam_read line s) inp out) = Some c /\ reads_line s (read_line line inp) out c.
Proof.
  intros Hs. revert line. induction inp as [| b inp IH]; intros line.
  - exists (resume (do_sam_read line s) [] out). split; [by apply run_end |]. split; [done |]. split; [done |]. split; [by exists line | done].
  - rewrite (run_step _ _ (resume (completion (byte_read line) error.success [b] s) inp out)); [| done |].
    2: { change (b :: inp) with ([b] ++ inp). by apply step_read. }
    cbn [completion read_line]. unfold handle_sam_read, result_of. rewrite Hs. cbv zeta.
    change (failed error.success) with false. change (len [b] =? 1) with true. change (zget [b] 0) with b. cbn [negb].
    destruct (len line >=? maximum_line).
    { eexists. split; [by apply run_end |]. done. }
    destruct (b =? terminator); cbn [negb]; [| apply IH]. eexists. split; [by apply run_end |]. done.
Qed.

(** Sam lines.  A request is written whole and one line is read for it,
    nothing of what follows the line is read, a line of more than the maximum
    is refused, and the read ends or waits for a byte whatever is sent. *)
Theorem sam_request_reads schedule s request inp : stopped s = false ->
  exists c, run schedule (resume (do_sam_request request s) inp []) = Some c /\ reads_line s (read_line [] inp) request c.
Proof.
  intros Hs. rewrite (run_step _ _ (resume (do_sam_read [] s) inp request)); [by apply read_line_runs | done |].
  unfold do_sam_request. unfold step. cbn [next resume self input output fst snd app]. unfold complete, sam_protocol. cbn [completion].
  unfold handle_sam_write, result_of. rewrite Hs, Z.eqb_refl. done.
Qed.

Lemma read_line_begun line l rest : single_line l = true -> len line + len l < maximum_line ->
  read_line line (l ++ terminator :: rest) = a_line (line ++ l) rest.
Proof.
  revert line. induction l as [| c l IH]; intros line Hl Hn; cbn [app read_line].
  - rewrite len_nil in Hn. destruct (len line >=? maximum_line) eqn:Hge; [lia |]. cbn. by rewrite app_nil_r.
  - rewrite len_cons in Hn. pose proof (len_nonneg l). destruct (len line >=? maximum_line) eqn:Hge; [lia |].
    change (c :: l) with ([c] ++ l) in Hl. rewrite single_app in Hl. apply andb_true_iff in Hl as [Hc Hl].
    destruct (c =? terminator) eqn:He; [by unfold single_line in Hc; cbn [forallb] in Hc; rewrite He in Hc |].
    rewrite IH by (done || (rewrite len_app, len_cons, len_nil; lia)). by rewrite <- app_assoc.
Qed.

(** Sam reply.  A reply of less than the maximum is read as the line that it
    is, and the bytes that follow it remain for the peer. *)
Theorem sam_reply_exact schedule s request l rest : stopped s = false -> single_line l = true -> len l < maximum_line ->
  exists c, run schedule (resume (do_sam_request request s) (l ++ terminator :: rest) []) = Some c /\
    next c = finish (lined error.success l) /\ input c = rest /\ output c = request.
Proof.
  intros Hs Hl Hn. destruct (sam_request_reads schedule s request (l ++ terminator :: rest) Hs) as (c & Hr & Ho & _ & Hc).
  rewrite read_line_begun in Hc by done. exists c. by destruct Hc.
Qed.

(** ** Witnesses *)

Lemma sam_request_reads_witness :
  exists c, run (fun n => n) (resume (do_sam_request (to_hello [] []) (mk false)) (chars "HELLO") []) = Some c /\
    reads_line (mk false) (read_line [] (chars "HELLO")) (to_hello [] []) c.
Proof. apply sam_request_reads. reflexivity. Defined.

Lemma sam_reply_exact_witness :
  exists c, run (fun n => n) (resume (do_sam_request (to_hello [] []) (mk false)) (chars "HELLO REPLY RESULT=OK" ++ terminator :: [7; 8]) []) = Some c /\
    next c = finish (lined error.success (chars "HELLO REPLY RESULT=OK")) /\ input c = [7; 8] /\ output c = to_hello [] [].
Proof. apply sam_reply_exact; reflexivity. Defined.
End sam_line.
