(* ===== verification/Acceptor.v ===== *)
(** * Acceptor: inbound connections, and those that an i2p bridge forwards

    Models [src/net/acceptor.cpp] and [src/net/acceptor_sam.cpp].  The virtual
    calls of the acceptor are those of the bridged one where it is [proxied].
    Listening, the sockets, the connector of the bridge and the lines that
    [SamLine] reads complete by moves of the environment, in any order; a
    socket is named by its number, and keeps whether it is stopped and the
    address that it was given. *)

From S2P Require Import Prelude.
From S2P Require Import Errors.
From S2P Require Import SamText.

Module acceptor.
Import sam.

Section acceptor.
Context {H : Type} (proxied : bool) (decode_base64 : bytes -> option bytes) (sha256_hash : bytes -> bytes).

(** The settings of the bridge. *)
Record settings := mk_settings { username : bytes; password : bytes; stored_key : bytes; key_path : bytes }.

Context (sam_ : settings).

Record socket := mk_socket { socket_stopped : bool; socket_address : option bytes }.

Record t := mk { stopped_ : bool; session_ : option nat; forward_ : option nat; id_ : bytes; sockets_ : list socket }.

Definition make : t := mk true None None [] [].

Definition set_stopped (b : bool) (s : t) : t := mk b (session_ s) (forward_ s) (id_ s) (sockets_ s).
Definition set_session (n : option nat) (s : t) : t := mk (stopped_ s) n (forward_ s) (id_ s) (sockets_ s).
Definition set_forward (n : option nat) (s : t) : t := mk (stopped_ s) (session_ s) n (id_ s) (sockets_ s).
Definition set_id (i : bytes) (s : t) : t := mk (stopped_ s) (session_ s) (forward_ s) i (sockets_ s).

Definition with_socket (f : socket -> socket) (n : nat) (s : t) : t :=
  match sockets_ s !! n with
  | Some k => mk (stopped_ s) (session_ s) (forward_ s) (id_ s) (<[n := f k]> (sockets_ s))
  | None => s
  end.

Definition stop_socket : nat -> t -> t := with_socket (fun k => mk_socket true (socket_address k)).
Definition set_address (a : bytes) : nat -> t -> t := with_socket (fun k => mk_socket (socket_stopped k) (Some a)).

(** A new socket takes the next number. *)
Definition create (s : t) : t := mk (stopped_ s) (session_ s) (forward_ s) (id_ s) (sockets_ s ++ [mk_socket false None]).

(** A socket handler of the caller, or one that first says that it accepted. *)
Inductive handler := user (h : H) | handle_proxied (accepted h : H).

Definition call : Type := H * code * option nat.

Definition invoke (k : handler) (ec : code) (n : option nat) : list call :=
  match k with
  | user h => [(h, ec, n)]
  | handle_proxied accepted h => (accepted, ec, None) :: if failed ec then [] else [(h, ec, n)]
  end.

Inductive stage := session_hello | session_create (transient : bool) | forward_hello (port : Z) | forward_status.

(** What was asked of the environment, with the handler that it is for. *)
Inductive pending :=
  | accept_wait (n : nat) (k : handler)
  | connected_wait (n : nat) (accepted h : H)
  | handshake_wait (n : nat) (k : handler)
  | posted_accept (ec : code) (n : nat) (k : handler)
  | session_connect (k : handler)
  | forward_connect (k : handler)
  | request_wait (n : nat) (request : bytes) (g : stage) (k : handler)
  | session_ready (n : nat) (k : handler)
  | forward_ready (n : nat) (k : handler)
  | peer_wait (n : nat) (k : handler)
  | watch_wait (n : nat)
  | posted_close.

(** The state, what is asked, and who is called. *)
Definition result : Type := t * list pending * list call.

Definition notify (k : handler) (ec : code) (n : option nat) (s : t) : result := (s, [], invoke k ec n).
Definition wait (p : pending) (s : t) : result := (s, [p], []).

(** ** Start and stop *)

(** The listener is opened, its options set, bound and listens, each of which
    gives a code; the calls that were made are recorded. *)
Inductive listening := open | v6_only | reuse_address | bind | listen | cancel.

Definition start (os : listening -> code) (ipv6 : bool) (s : t) : code * list listening * t :=
  if negb (stopped_ s) then (error.operation_failed : code, [], s) else
  let attempt (r : code * list listening) (l : listening) := if failed r.1 then r else (os l, r.2 ++ [l]) in
  let r := (os open, [open]) in
  let r := if ipv6 then attempt r v6_only else r in
  let r := attempt r reuse_address in
  let r := attempt r bind in
  let '(ec, calls) := attempt r listen in
  if failed ec then (ec, calls ++ [cancel], s) else (ec, calls, set_stopped false s).

Definition stop_option (n : option nat) (s : t) : t := match n with Some n => stop_socket n s | None => s end.

Definition do_teardown (s : t) : t :=
  let s := stop_option (forward_ s) s in
  let s := stop_option (session_ s) s in
  set_session None (set_forward None s).

Definition stop (s : t) : t :=
  let s := if proxied then do_teardown s else s in
  set_stopped true s.

(** ** Accept *)

Definition do_handle_accept (ec : code) (suspended : bool) (n : nat) (k : handler) (s : t) : result :=
  if failed ec then notify k ec None (stop_socket n s) else
  if suspended then notify k error.service_suspended None (stop_socket n s) else
  if stopped_ s then notify k error.service_stopped None (stop_socket n s) else
  notify k error.success (Some n) s.

(** [acceptor::handle_accept] *)
Definition base_handle_accept (stranded : bool) (ec : code) (suspended : bool) (n : nat) (k : handler) (s : t) : result :=
  if negb stranded then wait (posted_accept ec n k) s else do_handle_accept ec suspended n k s.

Definition handle_accept (stranded : bool) (ec : code) (suspended : bool) (n : nat) (k : handler) (s : t) : result :=
  if negb proxied || failed ec then base_handle_accept stranded ec suspended n k s else wait (peer_wait n k) s.

Definition base_accept (suspended : bool) (k : handler) (s : t) : result :=
  if stopped_ s then notify k error.service_stopped None s else
  if suspended then notify k error.service_suspended None s else
  wait (accept_wait (length (sockets_ s)) k) (create s).

Definition sam_accept (suspended : bool) (session_id : bytes) (k : handler) (s : t) : result :=
  if stopped_ s then notify k error.service_stopped None s else
  if suspended then notify k error.service_suspended None s else
  match forward_ s with
  | Some _ => base_accept suspended k s
  | None => wait (session_connect k) (set_id session_id (do_teardown s))
  end.

Definition accept (suspended : bool) (session_id : bytes) (k : handler) (s : t) : result :=
  if proxied then sam_accept suspended session_id k s else base_accept suspended k s.

Definition accept_handshake (suspended : bool) (session_id : bytes) (accepted h : H) (s : t) : result :=
  if proxied then accept suspended session_id (handle_proxied accepted h) s else
  if stopped_ s then notify (user accepted) error.service_stopped None s else
  if suspended then notify (user accepted) error.service_suspended None s else
  wait (connected_wait (length (sockets_ s)) accepted h) (create s).

Definition handle_connected (ec : code) (suspended : bool) (n : nat) (accepted h : H) (s : t) : result :=
  if failed ec then notify (user accepted) ec None (stop_socket n s) else
  if suspended then notify (user accepted) error.service_suspended None (stop_socket n s) else
  if stopped_ s then notify (user accepted) error.service_stopped None (stop_socket n s) else
  (s, [handshake_wait n (user h)], [(accepted, error.success : code, None)]).

(** [handle_handshake] of either acceptor posts, as it is not stranded. *)
Definition handle_handshake (ec : code) (n : nat) (k : handler) (s : t) : result := wait (posted_accept ec n k) s.

(** ** Session *)

Definition do_sam_request (n : nat) (request : bytes) (g : stage) (k : handler) (s : t) : result := wait (request_wait n request g k) s.

(** A bridge that was connected has a socket of its own. *)
Definition handle_session_connect (ec : code) (k : handler) (s : t) : result :=
  if failed ec then notify k ec None s else
  do_sam_request (length (sockets_ s)) (to_hello (username sam_) (password sam_)) session_hello k (create s).

(** A reply that is not as expected, or that states a failure. *)
Definition reply_code (major minor : string) (line : bytes) : code :=
  let tokens := to_tokens line in
  if negb (is_reply tokens (chars major) (chars minor)) then error.sam_response_invalid else
  sam_result (to_value tokens (chars "RESULT")).

Definition handle_session_hello (ec : code) (n : nat) (line : bytes) (k : handler) (s : t) : result :=
  let ec := if failed ec then ec else reply_code "HELLO" "REPLY" line in
  if failed ec then wait (posted_accept ec n k) s else
  let transient := negb (nonempty (stored_key sam_)) in
  do_sam_request n (to_session_create (id_ s) (to_i2p_base64 (stored_key sam_))) (session_create transient) k s.

(** The file of the key is written or not. *)
Definition save_key (written : bool) : bool := negb (nonempty (key_path sam_)) || written.

Definition handle_session_create (ec : code) (written : bool) (n : nat) (line : bytes) (transient : bool) (k : handler) (s : t) : result :=
  let ec := if failed ec then ec else reply_code "SESSION" "STATUS" line in
  if failed ec then wait (posted_accept ec n k) s else
  let private_key := to_standard_base64 (to_value (to_tokens line) (chars "DESTINATION")) in
  match to_self decode_base64 sha256_hash private_key with
  | None => wait (posted_accept error.sam_invalid_key n k) s
  | Some _ =>
    if transient && negb (save_key written) then wait (posted_accept error.file_save n k) s else
    wait (session_ready n k) s
  end.

Definition do_session_ready (n : nat) (k : handler) (s : t) : result :=
  if stopped_ s then notify k error.service_stopped None (stop_socket n s) else
  (set_session (Some n) s, [watch_wait n; forward_connect k], []).

(** ** Forward *)

(** The port of the listener, as it is bound. *)
Definition local_port (port : Z) (s : t) : Z := if stopped_ s then 0 else port.

Definition handle_forward_connect (ec : code) (port : Z) (k : handler) (s : t) : result :=
  if failed ec then notify k ec None (do_teardown s) else
  do_sam_request (length (sockets_ s)) (to_hello (username sam_) (password sam_)) (forward_hello (local_port port s)) k (create s).

Definition handle_forward_hello (ec : code) (n : nat) (line : bytes) (port : Z) (k : handler) (s : t) : result :=
  let ec := if failed ec then ec else reply_code "HELLO" "REPLY" line in
  if failed ec then wait (posted_accept ec n k) s else
  do_sam_request n (to_stream_forward (id_ s) port) forward_status k s.

Definition handle_forward_status (ec : code) (n : nat) (line : bytes) (k : handler) (s : t) : result :=
  let ec := if failed ec then ec else reply_code "STREAM" "STATUS" line in
  if failed ec then wait (posted_accept ec n k) s else wait (forward_ready n k) s.

Definition also (ps : list pending) (r : result) : result := (r.1.1, ps ++ r.1.2, r.2).

Definition do_forward_ready (suspended : bool) (n : nat) (k : handler) (s : t) : result :=
  if stopped_ s then notify k error.service_stopped None (stop_socket n s) else
  also [watch_wait n] (base_accept suspended k (set_forward (Some n) s)).

(** ** Close, and the peer *)

Definition handle_close (s : t) : result := wait posted_close s.

Definition do_close (s : t) : result :=
  match session_ s, forward_ s with
  | None, None => (s, [], [])
  | _, _ => (do_teardown s, [], [])
  end.

Definition handle_peer (ec : code) (n : nat) (line : bytes) (k : handler) (s : t) : result :=
  if failed ec then wait (posted_accept ec n k) s else
  match to_tokens line with
  | [] => wait (posted_accept error.sam_response_invalid n k) s
  | destination :: _ =>
    match decode_base64 (to_standard_base64 destination) with
    | None => wait (posted_accept error.sam_response_invalid n k) s
    | Some destination => wait (handshake_wait n k) (set_address (sha256_hash destination) n s)
    end
  end.

(** ** Worlds *)

Record world := mk_world { self : t; waits : list pending; asked : list H; called : list call }.

(** How the environment completes: a code, the line that was read, whether the
    service is suspended, whether the handler runs on the strand of the
    acceptor, the port of the listener, and whether a file was written. *)
Record event := mk_event { ec : code; line : bytes; suspended : bool; stranded : bool; port : Z; written : bool }.

Definition complete (p : pending) (e : event) (s : t) : result :=
  match p with
  | accept_wait n k => handle_accept (stranded e) (ec e) (suspended e) n k s
  | connected_wait n accepted h => handle_connected (ec e) (suspended e) n accepted h s
  | handshake_wait n k => handle_handshake (ec e) n k s
  | posted_accept c n k => do_handle_accept c (suspended e) n k s
  | session_connect k => handle_session_connect (ec e) k s
  | forward_connect k => handle_forward_connect (ec e) (port e) k s
  | request_wait n _ session_hello k => handle_session_hello (ec e) n (line e) k s
  | request_wait n _ (session_create transient) k => handle_session_create (ec e) (written e) n (line e) transient k s
  | request_wait n _ (forward_hello p) k => handle_forward_hello (ec e) n (line e) p k s
  | request_wait n _ forward_status k => handle_forward_status (ec e) n (line e) k s
  | session_ready n k => do_session_ready n k s
  | forward_ready n k => do_forward_ready (suspended e) n k s
  | peer_wait n k => handle_peer (ec e) n (line e) k s
  | watch_wait _ => handle_close s
  | posted_close => do_close s
  end.
End acceptor.
End acceptor.
