(* ===== verification/AcceptorWorlds.v ===== *)
(** * AcceptorWorlds: what an acceptor promises

    Theorems on the acceptors of [Acceptor] in every world that they reach: the
    handlers that are called, the sockets that are kept, and that what is
    pending comes to an end. *)

From S2P Require Import Prelude.
From S2P Require Import Errors.
From S2P Require Import SamText.
From S2P Require Import Acceptor.

Module acceptor_worlds.
Import sam.
Import acceptor.

Section worlds.
Context {H : Type} (proxied : bool) (decode_base64 : bytes -> option bytes) (sha256_hash : bytes -> bytes) (sam_ : settings).

Notation pending := (pending (H := H)).
Notation handler := (handler (H := H)).
Notation world := (world (H := H)).
Notation result := (result (H := H)).
Notation complete := (complete (H := H) proxied decode_base64 sha256_hash sam_).

(** The handler of the caller that is called first, and the one that follows
    it once it accepted. *)
Definition first (k : handler) : H := match k with user h => h | handle_proxied accepted _ => accepted end.
Definition second (k : handler) : list H := match k with user _ => [] | handle_proxied _ h => [h] end.

Definition handler_of (p : pending) : option handler :=
  match p with
  | accept_wait _ k | handshake_wait _ k | posted_accept _ _ k | session_connect k | forward_connect k
  | request_wait _ _ _ k | session_ready _ k | forward_ready _ k | peer_wait _ k => Some k
  | connected_wait _ accepted h => Some (handle_proxied accepted h)
  | watch_wait _ | posted_close => None
  end.

Definition holds (p : pending) : list H := match handler_of p with Some k => [first k] | None => [] end.

(** Once a handler accepted, the one that follows it is owed its call. *)
Definition promised (p : pending) (calls : list (call (H := H))) : list H :=
  match handler_of p, calls with
  | Some k, (_, c, _) :: _ => if failed c then [] else second k
  | _, _ => []
  end.

Definition perform (r : result) (ps : list pending) (asks : list H) (w : world) : world :=
  mk_world r.1.1 (ps ++ r.1.2) (asked w ++ asks) (called w ++ r.2).

(** A request of the bridge is in progress. *)
Definition establishing (p : pending) : bool :=
  match p with session_connect _ | forward_connect _ | request_wait _ _ _ _ | session_ready _ _ | forward_ready _ _ => true | _ => false end.

Definition count (ps : list pending) : nat := length (List.filter establishing ps).

(** The environment completes what is pending, in any order. *)
Inductive completion : world -> world -> Prop :=
  | completed w p l r e : waits w = l ++ p :: r ->
      completion w (perform (complete p e (self w)) (l ++ r) (promised p (complete p e (self w)).2) w).

(** The caller starts, stops and accepts; a bridged acceptor is not asked to
    accept while it establishes its session. *)
Inductive move : world -> world -> Prop :=
  | starts w os ipv6 : move w (perform ((start os ipv6 (self w)).2, [], []) (waits w) [] w)
  | stops w : move w (perform (stop proxied (self w), [], []) (waits w) [] w)
  | accepts w suspended i h : (proxied = true -> count (waits w) = 0%nat) ->
      move w (perform (accept proxied suspended i (user h) (self w)) (waits w) [h] w)
  | accepts_handshake w suspended i accepted h : (proxied = true -> count (waits w) = 0%nat) ->
      move w (perform (accept_handshake proxied suspended i accepted h (self w)) (waits w) [accepted] w)
  | completes w w' : completion w w' -> move w w'.

Definition initial : world := mk_world make [] [] [].

(** ** Handlers *)

Definition called_handlers (calls : list (call (H := H))) : list H := map (fun c => c.1.1) calls.

Definition held (ps : list pending) : list H := concat (map holds ps).

(** What a completion calls and keeps is what it was for. *)
Definition accounts (r : result) (asks : list H) : Prop := called_handlers r.2 ++ held r.1.2 ≡ₚ asks.

(** A socket is given only with success. *)
Definition calls_ok (calls : list (call (H := H))) : Prop := Forall (fun c => c.1.2 = (error.success : code) \/ failed c.1.2 = true /\ c.2 = None) calls.

Definition one_for (k : handler) (r : result) : Prop :=
  calls_ok r.2 /\ accounts r (first k :: match r.2 with (_, c, _) :: _ => if failed c then [] else second k | [] => [] end).

Lemma one_failed k c s : failed c = true -> one_for k (notify k c None s).
Proof.
  intros Hc. unfold one_for, accounts, notify, calls_ok. cbn [fst snd]. destruct k as [h | a h]; cbn; rewrite ?Hc;
    (split; [constructor; [by right | constructor] | done]).
Qed.

Lemma one_success k n s : one_for k (notify k error.success (Some n) s).
Proof.
  unfold one_for, accounts, notify, calls_ok. destruct k as [h | a h]; cbn; (split; [repeat (constructor; [by left |]); constructor | done]).
Qed.

Lemma one_wait k p s : handler_of p = Some k -> one_for k (wait p s).
Proof.
  intros Hp. split; [constructor |]. unfold accounts, wait, held, holds. cbn. rewrite Hp. done.
Qed.

#[local] Hint Resolve one_failed one_success one_wait : core.

Lemma one_do_handle_accept c susp n k s : one_for k (do_handle_accept c susp n k s).
Proof. unfold do_handle_accept. repeat case_match; auto. Qed.

#[local] Hint Resolve one_do_handle_accept : core.

Lemma one_base_accept susp k s : one_for k (base_accept susp k s).
Proof. unfold base_accept. repeat case_match; auto. Qed.

Lemma one_handle_accept b c susp n k s : one_for k (handle_accept proxied b c susp n k s).
Proof. unfold handle_accept, base_handle_accept. repeat case_match; auto. Qed.

#[local] Hint Resolve one_base_accept one_handle_accept : core.

Lemma one_connected c susp n a h s : one_for (handle_proxied a h) (handle_connected c susp n a h s).
Proof.
  unfold handle_connected.
  assert (forall c' s', failed c' = true -> one_for (handle_proxied a h) (notify (user a) c' None s')) as Hf.
  { intros c' s' Hc. split; [constructor; [by right | constructor] |]. unfold accounts. cbn. by rewrite Hc. }
  repeat case_match; auto. split; [apply List.Forall_cons; [by left | apply List.Forall_nil] |]. unfold accounts. cbn. done.
Qed.

Lemma one_also k ps r : held ps = [] -> one_for k r -> one_for k (also ps r).
Proof.
  intros Hp [Hc Ha]. split; [done |]. unfold accounts, also in *. cbn [fst snd]. unfold held in *. by rewrite map_app, concat_app, Hp.
Qed.

Lemma one_complete p e s k : handler_of p = Some k -> one_for k (complete p e s).
Proof.
  intros Hp. destruct p as [n k' | n a h | n k' | c n k' | k' | k' | n q [| b | pt |] k' | n k' | n k' | n k' | n |]; cbn [handler_of] in Hp; try discriminate Hp; injection Hp as <-; cbn [Acceptor.acceptor.complete];
    unfold handle_handshake, handle_session_connect, handle_forward_connect, handle_session_hello, handle_session_create, handle_forward_hello,
      handle_forward_status, do_session_ready, do_forward_ready, handle_peer, do_sam_request; cbv zeta; auto using one_connected;
    repeat match goal with |- context [match ?x with _ => _ end] => destruct x eqn:? end; auto;
    try (apply one_also; auto; done).
  split; [apply List.Forall_nil |]. by unfold accounts, held, holds.
Qed.

(** ** Sockets *)

Definition owns (k : nat) (p : pending) : Prop :=
  match p with
  | accept_wait n _ | connected_wait n _ _ | handshake_wait n _ | posted_accept _ n _
  | request_wait n _ _ _ | session_ready n _ | forward_ready n _ | peer_wait n _ => n = k
  | _ => False
  end.

Definition owned (k : nat) (ps : list pending) : Prop := Exists (owns k) ps.

Definition is_open (k : nat) (s : t) : Prop := exists x, sockets_ s !! k = Some x /\ socket_stopped x = false.

Definition given (k : nat) (calls : list (call (H := H))) : Prop := Exists (fun c => c.1.2 = (error.success : code) /\ c.2 = Some k) calls.

(** What keeps a socket: the environment, the acceptor, or who was given it. *)
Definition kept (k : nat) (ps : list pending) (calls : list (call (H := H))) (s : t) : Prop :=
  owned k ps \/ session_ s = Some k \/ forward_ s = Some k \/ given k calls.

(** A completion does not forget a socket that is open. *)
Definition tracks (n : option nat) (s : t) (r : result) : Prop :=
  forall k, is_open k r.1.1 ->
    (is_open k s \/ owned k r.1.2) /\
    (n = Some k \/ session_ s = Some k \/ forward_ s = Some k -> kept k r.1.2 r.2 r.1.1).

Lemma open_stop n k s : is_open k (stop_socket n s) -> is_open k s /\ k <> n.
Proof.
  unfold is_open, stop_socket, with_socket. destruct (sockets_ s !! n) as [x |] eqn:Hn.
  - cbn [sockets_]. intros (y & Hy & Hst). destruct (decide (k = n)) as [-> | Hne].
    + rewrite list_lookup_insert_eq in Hy by (by eapply lookup_lt_Some). injection Hy as <-. done.
    + rewrite list_lookup_insert_ne in Hy by done. split; [by exists y | done].
  - intros (y & Hy & Hst). split; [by exists y |]. intros ->. congruence.
Qed.

Lemma same_stop n s : session_ (stop_socket n s) = session_ s /\ forward_ (stop_socket n s) = forward_ s /\ stopped_ (stop_socket n s) = stopped_ s.
Proof. unfold stop_socket, with_socket. by destruct (_ !! _). Qed.

Lemma open_teardown k s : is_open k (do_teardown s) -> is_open k s /\ session_ s <> Some k /\ forward_ s <> Some k.
Proof.
  unfold do_teardown, is_open. cbn [sockets_ set_session set_forward]. intros Hk.
  assert (is_open k (stop_option (session_ (stop_option (forward_ s) s)) (stop_option (forward_ s) s))) as Ho by done. clear Hk.
  assert (session_ (stop_option (forward_ s) s) = session_ s) as Hse by (destruct (forward_ s); [apply same_stop | done]). rewrite Hse in Ho.
  destruct (session_ s) as [a |]; [apply open_stop in Ho as [Ho Ha] |]; destruct (forward_ s) as [b |]; try (apply open_stop in Ho as [Ho Hb]);
    (split; [exact Ho | split; congruence]).
Qed.

Lemma teardown_state s : session_ (do_teardown s) = None /\ forward_ (do_teardown s) = None /\ stopped_ (do_teardown s) = stopped_ s.
Proof.
  unfold do_teardown. cbn. split; [done |]. split; [done |].
  destruct (forward_ s) as [b |]; cbn [stop_option]; [destruct (same_stop b s) as (Hs & _ & Hst); rewrite Hs |];
    destruct (session_ s) as [a |]; cbn [stop_option]; try done; destruct (same_stop a (stop_socket b s)) as (_ & _ & ->) || destruct (same_stop a s) as (_ & _ & ->); done.
Qed.

Lemma open_address a n k s : is_open k (set_address a n s) -> is_open k s.
Proof.
  unfold is_open, set_address, with_socket. destruct (sockets_ s !! n) as [x |] eqn:Hn; [| done].
  cbn [sockets_]. intros (y & Hy & Hst). destruct (decide (k = n)) as [-> | Hne].
  - rewrite list_lookup_insert_eq in Hy by (by eapply lookup_lt_Some). injection Hy as <-. by exists x.
  - rewrite list_lookup_insert_ne in Hy by done. by exists y.
Qed.

Lemma same_address a n s : session_ (set_address a n s) = session_ s /\ forward_ (set_address a n s) = forward_ s.
Proof. unfold set_address, with_socket. by destruct (_ !! _). Qed.

Lemma open_create k s : is_open k (create s) -> is_open k s \/ k = length (sockets_ s).
Proof.
  unfold is_open, create. cbn [sockets_]. intros (y & Hy & Hst). apply lookup_app_Some in Hy as [Hy | [Hge Hy]]; [left; by exists y |].
  apply list_lookup_singleton_Some in Hy as [Hy _]. right. lia.
Qed.

Lemma tracks_stopped n k c s : tracks (Some n) s (notify k c None (stop_socket n s)).
Proof.
  intros j Hj. cbn [notify fst snd] in *. apply open_stop in Hj as [Hj Hne]. split; [by left |].
  destruct (same_stop n s) as (Hs & Hf & _). unfold kept. rewrite Hs, Hf. intros [Hn | [Hn | Hn]]; [congruence | auto | auto].
Qed.

Lemma tracks_given n k s : tracks (Some n) s (notify k error.success (Some n) s).
Proof.
  intros j Hj. cbn [notify fst snd] in *. split; [by left |]. unfold kept. intros [[= ->] | [Hn | Hn]]; [| auto | auto].
  right. right. right. destruct k as [h | a h]; cbn; [by apply Exists_cons_hd | apply Exists_cons_tl; by apply Exists_cons_hd].
Qed.

Lemma tracks_wait n p s : (forall k, n = Some k -> owns k p) -> tracks n s (wait p s).
Proof.
  intros Hp j Hj. cbn [wait fst snd] in *. split; [by left |]. unfold kept. intros [Hn | [Hn | Hn]]; [| auto | auto].
  left. apply Exists_cons_hd. by apply Hp.
Qed.

Lemma tracks_notify k c s : tracks None s (notify k c None s).
Proof. intros j Hj. split; [by left |]. unfold kept. intros [Hn | [Hn | Hn]]; [done | auto | auto]. Qed.

Lemma tracks_create p s : (forall k, owns k p <-> k = length (sockets_ s)) -> tracks None s (wait p (create s)).
Proof.
  intros Hp j Hj. cbn [wait fst snd] in *. split.
  - apply open_create in Hj as [Hj | Hj]; [by left | right; apply Exists_cons_hd; by apply Hp].
  - unfold kept. cbn. intros [Hn | [Hn | Hn]]; [done | auto | auto].
Qed.

Lemma tracks_teardown k c s : tracks None s (notify k c None (do_teardown s)).
Proof.
  intros j Hj. cbn [notify fst snd] in *. apply open_teardown in Hj as (Hj & Hs & Hf). split; [by left |]. intros [Hn | [Hn | Hn]]; done.
Qed.

Lemma tracks_do_handle_accept c susp n k s : tracks (Some n) s (do_handle_accept c susp n k s).
Proof. unfold do_handle_accept. repeat case_match; auto using tracks_stopped, tracks_given. Qed.

Lemma tracks_handle_accept b c susp n k s : tracks (Some n) s (handle_accept proxied b c susp n k s).
Proof.
  unfold handle_accept, base_handle_accept. repeat case_match; auto using tracks_do_handle_accept; by apply tracks_wait; intros j [= ->].
Qed.

Lemma tracks_base_accept susp k s : tracks None s (base_accept susp k s).
Proof.
  unfold base_accept. repeat case_match; auto using tracks_notify. apply tracks_create. intros j. cbn. by split.
Qed.

Lemma tracks_connected c susp n a h s : tracks (Some n) s (handle_connected c susp n a h s).
Proof.
  unfold handle_connected. repeat case_match; auto using tracks_stopped. intros j Hj. cbn [fst snd] in *. split; [by left |].
  unfold kept. intros [[= ->] | [Hn | Hn]]; [| auto | auto]. left. by apply Exists_cons_hd.
Qed.

(** The stages of the session, and those of its forwarding. *)
Definition of_session (p : pending) : bool :=
  match p with session_connect _ | request_wait _ _ session_hello _ | request_wait _ _ (session_create _) _ | session_ready _ _ => true | _ => false end.

Definition stage_ok (s : t) (p : pending) : Prop :=
  establishing p = true -> forward_ s = None /\ (of_session p = true -> session_ s = None).

Definition socket_of (p : pending) : option nat :=
  match p with
  | accept_wait n _ | connected_wait n _ _ | handshake_wait n _ | posted_accept _ n _
  | request_wait n _ _ _ | session_ready n _ | forward_ready n _ | peer_wait n _ => Some n
  | _ => None
  end.

Lemma owns_socket k p : owns k p <-> socket_of p = Some k.
Proof. destruct p; cbn; naive_solver. Qed.

Lemma complete_tracks p e s : stage_ok s p -> tracks (socket_of p) s (complete p e s).
Proof.
  intros Hst.
  assert (forall n q, socket_of q = Some n -> tracks (Some n) s (wait q s)) as Hwait.
  { intros n q Hq. apply tracks_wait. intros j [= ->]. by apply owns_socket. }
  assert (forall q n (i : settings), socket_of q = Some (length (sockets_ s)) -> n = None -> tracks n s (wait q (create s))) as Hcreate.
  { intros q n _ Hq ->. apply tracks_create. intros j. rewrite owns_socket, Hq. split; congruence. }
  destruct p as [n k' | n a h | n k' | c n k' | k' | k' | n q [| b | pt |] k' | n k' | n k' | n k' | n |]; cbn [Acceptor.acceptor.complete socket_of];
    unfold handle_handshake, handle_session_connect, handle_forward_connect, handle_session_hello, handle_session_create, handle_forward_hello,
      handle_forward_status, handle_peer, do_sam_request, handle_close; cbv zeta;
    auto using tracks_handle_accept, tracks_connected, tracks_do_handle_accept;
    try (repeat match goal with |- context [match ?x with _ => _ end] => destruct x end;
      eauto using tracks_notify, tracks_teardown; fail).
  - unfold do_session_ready. destruct (stopped_ s); [apply tracks_stopped |]. destruct (Hst eq_refl) as [Hf Hs]. specialize (Hs eq_refl).
    intros j Hj. cbn [fst snd] in *. split; [by left |]. unfold kept. cbn. rewrite Hs, Hf. intros [[= ->] | [Hn | Hn]]; [auto | done | done].
  - unfold do_forward_ready. destruct (stopped_ s); [apply tracks_stopped |]. destruct (Hst eq_refl) as [Hf _].
    intros j Hj. destruct (tracks_base_accept (suspended e) k' (set_forward (Some n) s) j Hj) as [Ho Hk]. split.
    + destruct Ho as [Ho | Ho]; [by left | right]. cbn. by apply Exists_cons_tl.
    + assert (session_ (set_forward (Some n) s) = session_ s) as Hs by done. intros Hn.
      assert (kept j (base_accept (suspended e) k' (set_forward (Some n) s)).1.2 (base_accept (suspended e) k' (set_forward (Some n) s)).2
        (base_accept (suspended e) k' (set_forward (Some n) s)).1.1) as [Hk' | Hk'].
      { apply Hk. destruct Hn as [[= ->] | [Hn | Hn]]; [by right; right | right; left; by rewrite Hs | congruence]. }
      * left. cbn. by apply Exists_cons_tl.
      * right. exact Hk'.
  - unfold handle_peer. destruct (failed (ec e)); [eauto |]. destruct (to_tokens (line e)) as [| d ds]; [eauto |].
    destruct (decode_base64 _) as [d' |]; [| eauto]. intros j Hj. cbn [wait fst snd] in *. apply open_address in Hj.
    split; [by left |]. unfold kept. destruct (same_address (sha256_hash d') n s) as [-> ->].
    intros [[= ->] | [Hn | Hn]]; [left; by apply Exists_cons_hd | auto | auto].
  - intros j Hj. split; [by left |]. unfold kept. intros [Hn | [Hn | Hn]]; [done | auto | auto].
  - unfold do_close.
    assert (tracks None s (do_teardown s, [], [])) as Ht 
      by (intros j Hj; cbn [fst snd] in *; apply open_teardown in Hj as (Hj & Hs & Hf); split; [by left | by intros [Hn | [Hn | Hn]]]).
    destruct (session_ s), (forward_ s); try done. intros j Hj. split; [by left |]. unfold kept. intros [Hn | [Hn | Hn]]; [done | auto | auto].
Qed.

(** ** Stages *)

Definition empty (s : t) : Prop := session_ s = None /\ forward_ s = None.

Definition weight (p : pending) : nat := if establishing p then 1 else 0.

Lemma count_app l k : count (l ++ k) = (count l + count k)%nat.
Proof. unfold count. by rewrite List.filter_app, length_app. Qed.

Lemma count_cons p l : count (p :: l) = (weight p + count l)%nat.
Proof. unfold count, weight. cbn. by destruct (establishing p). Qed.

(** How a completion advances the stages: it starts none, keeps what the later
    stages expect, and sets the control sockets only from a stage. *)
Definition advances (b : bool) (s : t) (r : result) : Prop :=
  (count r.1.2 <= if b then 1 else 0)%nat /\ Forall (stage_ok r.1.1) r.1.2 /\ stopped_ r.1.1 = stopped_ s /\
  (session_ r.1.1 = session_ s /\ forward_ r.1.1 = forward_ s \/ empty r.1.1 \/ b = true /\ stopped_ s = false).

Lemma advances_same b s' r : session_ r.1.1 = session_ s' -> forward_ r.1.1 = forward_ s' -> stopped_ r.1.1 = stopped_ s' ->
  count r.1.2 = 0%nat -> advances b s' r.
Proof.
  intros Hs Hf Hst Hc. split; [lia |]. split; [| split; [done | by left]]. apply Forall_forall. intros p Hp Hp'.
  exfalso. revert Hc. apply list_elem_of_split in Hp as (l1 & l2 & ->). rewrite count_app, count_cons. unfold weight. rewrite Hp'. lia.
Qed.

Lemma advances_notify b k c o n s : advances b s (notify k c o (stop_socket n s)).
Proof. destruct (same_stop n s) as (Hs & Hf & Hst). by apply advances_same. Qed.

Lemma advances_notify' b k c o s : advances b s (notify k c o s).
Proof. by apply advances_same. Qed.

Lemma advances_wait b s p : (establishing p = true -> b = true /\ stage_ok s p) -> advances b s (wait p s).
Proof.
  intros Hp. split; [| split; [| split; [done | by left]]].
  - cbn [wait fst snd]. rewrite count_cons. unfold weight. destruct (establishing p); [destruct Hp as [-> _]; [done | cbn; lia] | cbn; destruct b; lia].
  - cbn [wait fst snd]. constructor; [| done]. intros Hq. destruct (Hp Hq) as [_ Hok]. by apply Hok.
Qed.

Lemma advances_create b s p : (establishing p = true -> b = true /\ stage_ok s p) -> advances b s (wait p (create s)).
Proof. intros Hp. exact (advances_wait b s p Hp). Qed.

Lemma advances_teardown b k c s : advances b s (notify k c None (do_teardown s)).
Proof.
  destruct (teardown_state s) as (Hs & Hf & Hst). split; [cbn; lia |]. split; [constructor |]. split; [done |]. right. by left.
Qed.

Lemma advances_do_handle_accept b c susp n k s : advances b s (do_handle_accept c susp n k s).
Proof. unfold do_handle_accept. repeat case_match; auto using advances_notify, advances_notify'. Qed.

Lemma advances_handle_accept b c susp x n k s : advances b s (handle_accept proxied x c susp n k s).
Proof. unfold handle_accept, base_handle_accept. repeat case_match; auto using advances_do_handle_accept; by apply advances_wait. Qed.

Lemma advances_base_accept b susp k s : advances b s (base_accept susp k s).
Proof. unfold base_accept. repeat case_match; auto using advances_notify'. by apply advances_create. Qed.

Lemma advances_connected b c susp n a h s : advances b s (handle_connected c susp n a h s).
Proof. unfold handle_connected. repeat case_match; auto using advances_notify. by apply advances_same. Qed.

Lemma complete_advances p e s : stage_ok s p -> advances (establishing p) s (complete p e s).
Proof.
  intros Hst.
  assert (forall b q, establishing q = false -> advances b s (wait q s)) as Hplain by (intros b q Hq; apply advances_wait; congruence).
  assert (forall q, establishing p = true -> (of_session q = true -> of_session p = true) -> stage_ok s q) as Hnext.
  { intros q Hp Hq _. destruct (Hst Hp) as [Hf Hs]. split; [done |]. intros Ho. by apply Hs, Hq. }
  assert (forall q, establishing p = true -> (of_session q = true -> of_session p = true) -> advances true s (wait q s)) as Hstage.
  { intros q Hp Hq. apply advances_wait. intros _. split; [done | by apply Hnext]. }
  destruct p as [n k' | n a h | n k' | c n k' | k' | k' | n q [| b | pt |] k' | n k' | n k' | n k' | n |]; cbn [Acceptor.acceptor.complete establishing];
    unfold handle_handshake, handle_session_connect, handle_forward_connect, handle_session_hello, handle_session_create, handle_forward_hello,
      handle_forward_status, handle_peer, do_sam_request, handle_close; cbv zeta;
    auto using advances_handle_accept, advances_connected, advances_do_handle_accept;
    try (repeat match goal with |- context [match ?x with _ => _ end] => destruct x end;
      auto using advances_notify', advances_teardown, advances_create; fail).
  - unfold do_session_ready. destruct (stopped_ s) eqn:Hsp; [apply advances_notify |]. destruct (Hst eq_refl) as [Hf _].
    split; [cbn; lia |]. split; [| split; [done | right; by right]].
    cbn [fst snd]. apply Forall_cons. split; [done |]. apply Forall_cons. split; [by intros _ | done].
  - unfold do_forward_ready. destruct (stopped_ s) eqn:Hsp; [apply advances_notify |].
    destruct (advances_base_accept false (suspended e) k' (set_forward (Some n) s)) as (Hc & Hok & Hsto & _).
    unfold advances, also. cbn [fst snd app]. split; [rewrite count_cons; cbn; lia |]. split; [| split; [done | right; by right]].
    apply Forall_cons. by split.
  - unfold handle_peer. destruct (failed (ec e)); [by apply Hplain |]. destruct (to_tokens (line e)) as [| d ds]; [by apply Hplain |].
    destruct (decode_base64 _) as [d' |]; [| by apply Hplain]. destruct (same_address (sha256_hash d') n s) as [Hs Hf].
    apply advances_same; try done. unfold set_address, with_socket. by destruct (_ !! _).
  - unfold do_close. destruct (teardown_state s) as (Hs & Hf & Hsto).
    assert (advances false s (do_teardown s, [], [])) as Ht by (split; [cbn; lia |]; split; [constructor |]; split; [done |]; right; by left).
    destruct (session_ s), (forward_ s); try done. by apply advances_same.
Qed.

(** ** Reachable worlds *)

Record sound (w : world) : Prop := {
  sound_asked : called_handlers (called w) ++ held (waits w) ≡ₚ asked w;
  sound_calls : calls_ok (called w);
  sound_sockets : forall k, is_open k (self w) -> kept k (waits w) (called w) (self w);
  sound_count : (count (waits w) <= 1)%nat;
  sound_stage : Forall (stage_ok (self w)) (waits w);
  sound_stopped : stopped_ (self w) = true -> empty (self w);
  sound_plain : proxied = false -> count (waits w) = 0%nat /\ empty (self w)
}.

Lemma held_app l k : held (l ++ k) = held l ++ held k.
Proof. unfold held. by rewrite map_app, concat_app. Qed.

Lemma owned_app k l r : owned k (l ++ r) <-> owned k l \/ owned k r.
Proof. apply Exists_app. Qed.

Lemma given_app k l r : given k (l ++ r) <-> given k l \/ given k r.
Proof. apply Exists_app. Qed.

(** Where nothing is established, a stage expects nothing. *)
Lemma stage_none s ps : count ps = 0%nat -> Forall (stage_ok s) ps.
Proof.
  intros Hc. apply Forall_forall. intros p Hp He. exfalso. apply list_elem_of_split in Hp as (l1 & l2 & ->).
  rewrite count_app, count_cons in Hc. unfold weight in Hc. rewrite He in Hc. lia.
Qed.

Lemma stage_empty s s' ps : empty s' \/ session_ s' = session_ s /\ forward_ s' = forward_ s -> Forall (stage_ok s) ps -> Forall (stage_ok s') ps.
Proof.
  intros He Hf. eapply Forall_impl; [exact Hf |]. intros p Hp Hq. destruct (Hp Hq) as [Hf' Hs'].
  destruct He as [[Hs Hf''] | [Hs Hf'']]; [by split | rewrite Hs, Hf''; by split].
Qed.

Lemma acceptor_sound_completion w w' : sound w -> completion w w' -> sound w'.
Proof.
  intros [Ha Hc Hk Hn Hg Hs Hp] Hm. inversion Hm as [w0 p l r e Hw]. subst w0. clear Hm. set (x := complete p e (self w)) in *.
  rewrite Hw in Hg, Hn, Ha. apply Forall_app in Hg as [Hgl Hgr]. apply Forall_cons in Hgr as [Hgp Hgr].
  rewrite count_app, count_cons in Hn.
  destruct (complete_advances p e (self w) Hgp) as (Hcount & Hstage & Hsto & Hctl). fold x in Hcount, Hstage, Hsto, Hctl.
  pose proof (complete_tracks p e (self w) Hgp) as Htr. fold x in Htr.
  assert (count (l ++ r) + weight p <= 1)%nat as Hone by (rewrite count_app; lia).
  assert (count x.1.2 <= weight p)%nat as Hless by done.
  assert (Forall (stage_ok x.1.1) (l ++ r)) as Hrest.
  { destruct Hctl as [Hsame | [He | [Hest _]]]; [eapply stage_empty; [by right |] | eapply stage_empty; [by left |] |]; try (by apply Forall_app).
    apply stage_none. unfold weight in Hone. rewrite Hest in Hone. lia. }
  split; unfold perform; cbn [self waits called asked].
  - unfold called_handlers. rewrite map_app, held_app. rewrite <- Ha, held_app. cbn [held map concat]. change (concat (map holds r)) with (held r).
    assert (map (fun c => c.1.1) x.2 ++ held x.1.2 ≡ₚ holds p ++ promised p x.2) as Hx.
    { destruct (handler_of p) as [k |] eqn:Hh.
      - destruct (one_complete p e (self w) k Hh) as [_ Hacc]. fold x in Hacc. unfold accounts, called_handlers in Hacc. rewrite Hacc.
        unfold holds, promised. rewrite Hh. done.
      - assert (x.2 = [] /\ held x.1.2 = []) as [Hx1 Hx2].
        { unfold x. destruct p; try discriminate Hh; cbn [Acceptor.acceptor.complete]; [done |]. unfold do_close. by repeat case_match. }
        rewrite Hx1, Hx2. unfold holds, promised. by rewrite Hh. }
    rewrite !held_app in *. unfold called_handlers in *.
    transitivity (map (fun c => c.1.1) (called w) ++ (held l ++ held r) ++ (map (fun c => c.1.1) x.2 ++ held x.1.2)); [solve_Permutation |].
    rewrite Hx. solve_Permutation.
  - apply Forall_app. split; [done |]. destruct (handler_of p) as [k |] eqn:Hh; [by destruct (one_complete p e (self w) k Hh) |].
    unfold x. destruct p; try discriminate Hh; cbn [Acceptor.acceptor.complete]; [constructor |]. unfold do_close. repeat case_match; constructor.
  - intros k Hop. destruct (Htr k Hop) as [Hold Hkeep]. unfold kept. rewrite !owned_app, given_app.
    destruct Hold as [Hold | Hold]; [| by left; right].
    destruct (Hk k Hold) as [Hown | [Hse | [Hfo | Hgi]]].
    + rewrite Hw in Hown. apply owned_app in Hown as [Hown | Hown]; [by left; left; left |].
      apply Exists_cons in Hown as [Hown | Hown]; [| by left; left; right]. apply owns_socket in Hown.
      destruct (Hkeep (or_introl Hown)) as [Hy | [Hy | [Hy | Hy]]]; auto 6.
    + destruct (Hkeep (or_intror (or_introl Hse))) as [Hy | [Hy | [Hy | Hy]]]; auto 6.
    + destruct (Hkeep (or_intror (or_intror Hfo))) as [Hy | [Hy | [Hy | Hy]]]; auto 6.
    + auto 6.
  - rewrite count_app. lia.
  - by apply Forall_app.
  - rewrite Hsto. intros Hst. destruct Hctl as [[Hx1 Hx2] | [He | [_ Hno]]]; [| done | congruence].
    destruct (Hs Hst) as [Hy1 Hy2]. split; congruence.
  - intros Hpl. destruct (Hp Hpl) as [Hz [Hy1 Hy2]]. rewrite Hw, count_app, count_cons in Hz. rewrite !count_app.
    split; [lia |]. destruct Hctl as [[Hx1 Hx2] | [He | [Hb _]]]; [split; congruence | done |]. unfold weight in Hz. rewrite Hb in Hz. lia.
Qed.

(** What the caller asks is one handler for a state that advances. *)
Lemma sound_ask w r a : sound w -> (proxied = true -> count (waits w) = 0%nat) ->
  called_handlers r.2 ++ held r.1.2 ≡ₚ a -> calls_ok r.2 -> tracks None (self w) r -> advances proxied (self w) r ->
  sound (perform r (waits w) a w).
Proof.
  intros [Ha Hc Hk Hn Hg Hs Hp] Hz Hacc Hok Htr (Hcount & Hstage & Hsto & Hctl).
  assert (count (waits w) = 0%nat) as Hzero by (destruct proxied; [by apply Hz | by apply Hp]).
  split; unfold perform; cbn [self waits called asked].
  - unfold called_handlers in *. rewrite map_app, held_app, <- Ha, <- Hacc. solve_Permutation.
  - by apply Forall_app.
  - intros k Hop. destruct (Htr k Hop) as [Hold Hkeep]. unfold kept. rewrite !owned_app, given_app. destruct Hold as [Hold | Hold]; [| by left; right].
    destruct (Hk k Hold) as [Hown | [Hse | [Hfo | Hgi]]]; [auto 6 | | | auto 6].
    + destruct (Hkeep (or_intror (or_introl Hse))) as [Hy | [Hy | [Hy | Hy]]]; auto 6.
    + destruct (Hkeep (or_intror (or_intror Hfo))) as [Hy | [Hy | [Hy | Hy]]]; auto 6.
  - rewrite count_app, Hzero. by destruct proxied; lia.
  - apply Forall_app. split; [by apply stage_none | done].
  - rewrite Hsto. intros Hst. destruct Hctl as [[Hx1 Hx2] | [He | [_ Hno]]]; [| done | congruence].
    destruct (Hs Hst) as [Hy1 Hy2]. split; congruence.
  - intros Hpl. rewrite Hpl in Hcount, Hctl. rewrite count_app. destruct (Hp Hpl) as [_ [Hy1 Hy2]]. split; [lia |].
    destruct Hctl as [[Hx1 Hx2] | [He | [Hb _]]]; [split; congruence | done | done].
Qed.

Definition asks_for (k : handler) (s : t) (r : result) : Prop :=
  accounts r [first k] /\ calls_ok r.2 /\ tracks None s r /\ advances proxied s r.

Lemma asks_refused k c s : failed c = true -> asks_for k s (notify k c None s).
Proof.
  intros Hc. destruct (one_failed k c s Hc) as [Hok Hacc]. split; [| split; [done | split; [apply tracks_notify | apply advances_notify']]].
  unfold accounts, notify in *. destruct k; cbn in *; by rewrite Hc in *.
Qed.

Lemma asks_waiting k p s s' : handler_of p = Some k -> tracks None s (wait p s') -> advances proxied s (wait p s') -> asks_for k s (wait p s').
Proof. intros Hp Ht Ha. destruct (one_wait k p s' Hp) as [Hok Hacc]. by split. Qed.

Lemma asks_base susp k s : asks_for k s (base_accept susp k s).
Proof.
  pose proof (tracks_base_accept susp k s) as Ht. pose proof (advances_base_accept proxied susp k s) as Ha. revert Ht Ha. unfold base_accept.
  destruct (stopped_ s); [intros _ _; by apply asks_refused |]. destruct susp; [intros _ _; by apply asks_refused |]. by apply asks_waiting.
Qed.

Lemma asks_accept susp i k s : asks_for k s (accept proxied susp i k s).
Proof.
  unfold accept. destruct proxied eqn:Hpr; [| apply asks_base]. unfold sam_accept.
  destruct (stopped_ s) eqn:Hst; [by apply asks_refused |]. destruct susp; [by apply asks_refused |].
  destruct (forward_ s); [apply asks_base |]. destruct (teardown_state s) as (Hs & Hf & Hsto).
  apply asks_waiting; [done | |].
  - intros j Hj. cbn [wait fst snd] in *. apply (open_teardown j s) in Hj as (Hj & Hs' & Hf'). split; [by left |]. by intros [Hn | [Hn | Hn]].
  - split; [cbn; rewrite Hpr; lia |]. split; [| split; [done | right; by left]]. cbn [wait fst snd]. apply Forall_cons. split; [| done].
    intros _. by split.
Qed.

Lemma asks_handshake susp i a h s : asks_for (handle_proxied a h) s (accept_handshake proxied susp i a h s).
Proof.
  unfold accept_handshake. destruct proxied eqn:Hpr; [rewrite <- Hpr; apply asks_accept |].
  assert (forall c : code, failed c = true -> asks_for (handle_proxied a h) s (notify (user a) c None s)) as Hf.
  { intros c Hc. destruct (one_failed (user a) c s Hc) as [Hok Hacc]. split; [| split; [done | split; [apply tracks_notify | apply advances_notify']]].
    unfold accounts in *. cbn in *. by rewrite Hc in *. }
  destruct (stopped_ s); [by apply Hf |]. destruct susp; [by apply Hf |].
  apply asks_waiting; [done | | by apply advances_create]. apply tracks_create. intros k. cbn. by split.
Qed.

Lemma sound_state w s' : sound w -> (forall k, is_open k s' -> is_open k (self w)) ->
  (empty s' /\ (forall k, is_open k s' -> ~ (session_ (self w) = Some k \/ forward_ (self w) = Some k)) \/
    session_ s' = session_ (self w) /\ forward_ s' = forward_ (self w) /\ (stopped_ s' = true -> stopped_ (self w) = true \/ empty (self w))) ->
  sound (perform (s', [], []) (waits w) [] w).
Proof.
  intros [Ha Hc Hk Hn Hg Hs Hp] Hop He. unfold perform. cbn [fst snd]. rewrite !app_nil_r. split; cbn [self waits called asked]; try done.
  - intros k Ho. specialize (Hk k (Hop k Ho)). destruct He as [[Hem Hno] | (Hx1 & Hx2 & _)].
    + destruct Hk as [Hk | [Hk | [Hk | Hk]]]; [by left | | | by right; right; right]; exfalso; apply (Hno k Ho); auto.
    + unfold kept in *. by rewrite Hx1, Hx2.
  - destruct He as [[Hem Hno] | (Hx1 & Hx2 & _)]; apply (stage_empty (self w)); auto.
  - destruct He as [[Hem Hno] | (Hx1 & Hx2 & Hx3)]; [done |]. intros Hst. unfold empty. rewrite Hx1, Hx2.
    destruct (Hx3 Hst) as [Hy | Hy]; [by apply Hs | done].
  - intros Hpl. destruct (Hp Hpl) as [Hz [Hy1 Hy2]]. split; [done |]. destruct He as [[Hem Hno] | (Hx1 & Hx2 & _)]; [done | split; congruence].
Qed.

Lemma sound_move w w' : sound w -> move w w' -> sound w'.
Proof.
  intros Hw Hm. destruct Hm as [w os ipv6 | w | w suspended i h Hz | w suspended i accepted h Hz | w w' Hm].
  - assert ((start os ipv6 (self w)).2 = self w \/ (start os ipv6 (self w)).2 = set_stopped false (self w)) as [-> | ->].
    { unfold start. destruct (negb _); [by left |]. cbv zeta. set (r := if failed (_ : code * _).1 then _ else _).
      destruct r as [c l]. destruct (failed c); [by left | by right]. }
    + apply sound_state; [done | done |]. right. split; [done |]. split; [done |]. by left.
    + apply sound_state; [done | done |]. right. split; [done |]. by split.
  - unfold stop. destruct proxied eqn:Hpr.
    + destruct (teardown_state (self w)) as (Hs & Hf & Hsto). apply sound_state; [done | intros k Hk; by apply (open_teardown k (self w)) in Hk as [Hk _] |].
      left. split; [done |]. intros k Hk. apply (open_teardown k (self w)) in Hk as (_ & Hs' & Hf'). by intros [Hx | Hx].
    + apply sound_state; [done | done |]. right. split; [done |]. split; [done |]. intros _. right. by apply (sound_plain w Hw).
  - destruct (asks_accept suspended i (user h) (self w)) as (Hacc & Hok & Htr & Hadv). by apply sound_ask.
  - destruct (asks_handshake suspended i accepted h (self w)) as (Hacc & Hok & Htr & Hadv). by apply sound_ask.
  - by eapply acceptor_sound_completion.
Qed.

Lemma acceptor_sound w : rtc move initial w -> sound w.
Proof.
  intros Hr. remember initial as w0 eqn:He. assert (sound w0) as Hs.
  { subst. split; cbn; try done; try (by repeat constructor); try lia. intros k (x & Hx & _). cbn in Hx. by rewrite lookup_nil in Hx. }
  clear He. induction Hr as [w | w1 w2 w3 Hm _ IH]; [done |]. apply IH. by eapply sound_move.
Qed.

(** C17: acceptance.  However listening, the sockets and the bridge complete,
    each handler that was asked is called exactly once or is still pending,
    with a socket only upon success; every open socket is pending, or is a
    control socket of the acceptor, or was given with success; and an acceptor
    that is stopped keeps no control socket. *)
Theorem acceptor_calls_once w : rtc move initial w ->
  called_handlers (called w) ++ held (waits w) ≡ₚ asked w /\ calls_ok (called w) /\
  (forall k, is_open k (self w) -> kept k (waits w) (called w) (self w)) /\
  (stopped_ (self w) = true -> session_ (self w) = None /\ forward_ (self w) = None).
Proof. intros Hr%acceptor_sound. split; [by apply sound_asked |]. split; [by apply sound_calls |]. split; [by apply sound_sockets | by apply sound_stopped]. Qed.

(** ** Termination *)

(** The completions that follow from one. *)
Definition distance (p : pending) : nat :=
  match p with
  | posted_close | posted_accept _ _ _ => 1
  | watch_wait _ | handshake_wait _ _ => 2
  | peer_wait _ _ | connected_wait _ _ _ => 3
  | accept_wait _ _ => 4
  | forward_ready _ _ => 7
  | request_wait _ _ forward_status _ => 8
  | request_wait _ _ (forward_hello _) _ => 9
  | forward_connect _ => 10
  | session_ready _ _ => 13
  | request_wait _ _ (session_create _) _ => 14
  | request_wait _ _ session_hello _ => 15
  | session_connect _ => 16
  end.

Definition remaining (ps : list pending) : nat := sum_list (map distance ps).

Lemma remaining_app l k : remaining (l ++ k) = (remaining l + remaining k)%nat.
Proof. unfold remaining. rewrite map_app. induction (map distance l) as [| x y IH]; cbn in *; lia. Qed.

Lemma distance_positive p : (0 < distance p)%nat.
Proof. destruct p as [| | | | | | ? ? [] ? | | | | |]; cbn; lia. Qed.

Lemma complete_closer p e s : (remaining (complete p e s).1.2 < distance p)%nat.
Proof.
  destruct p as [n k' | n a h | n k' | c n k' | k' | k' | n q [| b | pt |] k' | n k' | n k' | n k' | n |]; cbn [Acceptor.acceptor.complete];
    unfold handle_handshake, handle_session_connect, handle_forward_connect, handle_session_hello, handle_session_create, handle_forward_hello,
      handle_forward_status, do_session_ready, do_forward_ready, handle_peer, do_sam_request, handle_close, do_close, handle_accept, base_handle_accept,
      do_handle_accept, handle_connected, base_accept, notify, wait, also; cbv zeta;
    repeat match goal with |- context [match ?x with _ => _ end] => destruct x end; cbn; lia.
Qed.

Lemma acceptor_closer w w' : completion w w' -> (remaining (waits w') < remaining (waits w))%nat.
Proof.
  intros Hm. inversion Hm as [w0 p l r e Hw]. unfold perform. cbn [waits]. rewrite Hw, !remaining_app.
  change (p :: r) with ([p] ++ r). rewrite remaining_app. pose proof (complete_closer p e (self w)).
  assert (remaining [p] = distance p) as -> by (unfold remaining; cbn; lia). lia.
Qed.

(** Acceptance ends.  Only finitely many completions follow from any world,
    and when none is pending every handler that was asked was called. *)
Theorem acceptor_completes w n w' : rtc move initial w -> nsteps completion n w w' ->
  (n <= remaining (waits w))%nat /\ ((forall w'', ~ completion w' w'') -> waits w' = [] /\ called_handlers (called w') ≡ₚ asked w').
Proof.
  intros Hr%acceptor_sound Hn. split.
  - induction Hn as [| n w1 w2 w3 Hm _ IH]; [lia |]. pose proof (acceptor_closer _ _ Hm). specialize (IH (acceptor_sound_completion _ _ Hr Hm)). lia.
  - intros Hstuck. assert (sound w') as Hs by (induction Hn as [| n w1 w2 w3 Hm _ IH]; [done | apply IH; [by eapply acceptor_sound_completion | done]]).
    assert (waits w' = []) as He.
    { destruct (waits w') as [| p ps] eqn:Hw; [done |]. exfalso. eapply Hstuck.
      by apply (completed w' p [] ps (mk_event cleared [] false false 0 false)). }
    split; [done |]. rewrite <- (sound_asked w' Hs), He. by rewrite app_nil_r.
Qed.
End worlds.

(** ** Witnesses *)

Definition sample_settings : settings := mk_settings [] [] [] [].
Definition sample_complete := complete (H := nat) true Some (fun l => l) sample_settings.
Notation sample_move := (move (H := nat) true Some (fun l => l) sample_settings).
Notation sample_completion := (completion (H := nat) true Some (fun l => l) sample_settings).

Definition sample_event : event := mk_event error.success [] false true 0 true.

Definition started : world := perform ((start (fun _ => error.success : code) false make).2, [], []) [] [] (initial (H := nat)).
Definition asking : world := perform (accept true false [49] (user 7%nat) (self started)) (waits started) [7%nat] started.
Definition connected : world :=
  perform (sample_complete (session_connect (user 7%nat)) sample_event (self asking)) [] [] asking.
Definition refused : world :=
  perform (sample_complete (session_connect (user 7%nat)) (mk_event error.connect_failed [] false true 0 true) (self asking)) [] [] asking.

Lemma sample_asking : rtc sample_move initial asking.
Proof.
  eapply rtc_l; [exact (starts true Some (fun l => l) sample_settings initial (fun _ => error.success : code) false) |].
  apply rtc_once. exact (accepts true Some (fun l => l) sample_settings started false [49] 7%nat (fun _ => eq_refl)).
Qed.

Lemma sample_connected : sample_completion asking connected.
Proof. exact (completed true Some (fun l => l) sample_settings asking (session_connect (user 7%nat)) [] [] sample_event eq_refl). Qed.

Lemma sample_refused : sample_completion asking refused.
Proof.
  exact (completed true Some (fun l => l) sample_settings asking (session_connect (user 7%nat)) [] []
    (mk_event error.connect_failed [] false true 0 true) eq_refl).
Qed.

(** A stop does not stop the socket of a request of the session that is in
    progress, which has no timer: its handler waits for the bridge. *)
Lemma sam_stop_leaves_request :
  exists w, rtc sample_move initial w /\ stopped_ (self w) = true /\ called w = [] /\
    waits w = [request_wait 0 (to_hello [] []) session_hello (user 7%nat)] /\ is_open 0 (self w).
Proof.
  exists (perform (stop true (self connected), [], []) (waits connected) [] connected).
  split; [| split; [reflexivity | split; [reflexivity | split; [reflexivity | by eexists]]]].
  eapply rtc_r; [eapply rtc_r; [exact sample_asking | apply completes; exact sample_connected] | apply stops].
Qed.

Lemma acceptor_calls_once_witness :
  called_handlers (called connected) ++ held (waits connected) ≡ₚ asked connected /\ calls_ok (called connected) /\
  (forall k, is_open k (self connected) -> kept k (waits connected) (called connected) (self connected)) /\
  (stopped_ (self connected) = true -> session_ (self connected) = None /\ forward_ (self connected) = None).
Proof.
  apply (acceptor_calls_once true Some (fun l => l) sample_settings connected).
  eapply rtc_r; [exact sample_asking | apply completes; exact sample_connected].
Defined.

Lemma acceptor_completes_witness :
  (1 <= remaining (waits asking))%nat /\
  ((forall w'', ~ sample_completion refused w'') -> waits refused = [] /\ called_handlers (called refused) ≡ₚ asked refused).
Proof.
  apply (acceptor_completes true Some (fun l => l) sample_settings asking 1 refused); [exact sample_asking |].
  apply nsteps_once. exact sample_refused.
Defined.
End acceptor_worlds.
