(* ===== verification/TlsStream.v ===== *)
(** * TlsStream: a tls server over a socket

    Models [src/tls/stream.cpp] and [include/../impl/tls/stream.ipp] over any
    session that keeps the laws of [TlsSession], of which the server of
    [TlsServer] is an instance.  A handler is a task of the executor; its
    calls of the stream are those of the code, and the operations of the caller
    may come between any two tasks, as from within a handler. *)

From S2P Require Import Prelude.
From S2P Require Import Errors.
From S2P Require Import TlsConstants.

(** What a stream asks of the server. *)
Class TlsSession (S : Type) := {
  session_receive : bytes -> S -> S;
  session_write : bytes -> S -> S * bool;
  session_read : Z -> S -> S * bytes;
  session_close : S -> S;
  session_output : S -> bytes;
  session_take : S -> S;
  session_readable : S -> Z;
  session_established : S -> bool;
  session_closed : S -> bool;
  session_failed : S -> bool;
  session_failure : S -> Z
}.

(** The output is only added to, until it is taken. *)
Class TlsSessionLaws {S} `{!TlsSession S} (good : S -> Prop) : Prop := {
  receive_law data s : good s -> good (session_receive data s) /\ exists x, session_output (session_receive data s) = session_output s ++ x;
  write_law data s : good s -> good (session_write data s).1 /\ exists x, session_output (session_write data s).1 = session_output s ++ x;
  read_law size s : good s -> good (session_read size s).1 /\ session_output (session_read size s).1 = session_output s;
  close_law s : good s -> good (session_close s) /\ exists x, session_output (session_close s) = session_output s ++ x;
  take_law s : good s -> good (session_take s) /\ session_output (session_take s) = []
}.

Module tls_stream.

Section stream.
Context {S H : Type} `{!TlsSession S}.

(** The handlers that the stream binds, of a handler of its caller. *)
Inductive handler :=
  | handle_handshake_of (h : H)
  | handle_read_of (size : Z) (h : H)
  | handle_write_of (size : Z) (h : H)
  | handle_close_sent_of (h : H)
  | handle_close_received_of (h : H).

Record t := mk {
  server_ : S; sending_ : bytes; receivers_ : list handler; waiting_ : list handler; receiving_ : bool; writing_ : bool }.

Definition make (server : S) : t := mk server [] [] [] false false.

Definition set_server (x : S) (s : t) : t := mk x (sending_ s) (receivers_ s) (waiting_ s) (receiving_ s) (writing_ s).
Definition set_receivers (l : list handler) (s : t) : t := mk (server_ s) (sending_ s) l (waiting_ s) (receiving_ s) (writing_ s).
Definition set_waiting (l : list handler) (s : t) : t := mk (server_ s) (sending_ s) (receivers_ s) l (receiving_ s) (writing_ s).
Definition set_receiving (b : bool) (s : t) : t := mk (server_ s) (sending_ s) (receivers_ s) (waiting_ s) b (writing_ s).
Definition set_sending (l : bytes) (b : bool) (s : t) : t := mk (server_ s) l (receivers_ s) (waiting_ s) (receiving_ s) b.

(** The handler of the caller is called, with the size and the bytes read. *)
Inductive task := run (k : handler) (ec : code) | call_back (h : H) (ec : code) (size : Z) (data : bytes) | after_write.

(** What the stream does: it reads and writes the socket, posts a task, and
    calls the caller. *)
Inductive act :=
  | start_read
  | start_write (handlers : list handler)
  | post (k : task)
  | call (h : H) (ec : code) (size : Z) (data : bytes).

Definition result : Type := t * list act.

Definition input_size : Z := record_header_size + maximum_ciphertext.

(** ** Transport *)

Definition failure (s : t) : code := tls_to_error_code (session_failure (server_ s)).

Definition transport (ec : code) (s : t) : code :=
  if bool_decide (ec = (error.peer_disconnect : code)) && negb (session_closed (server_ s)) then error.tls_stream_truncated else ec.

Definition receive (k : handler) (s : t) : result :=
  let s := set_receivers (receivers_ s ++ [k]) s in
  if receiving_ s then (s, []) else (set_receiving true s, [start_read]).

Definition write_next (s : t) : result :=
  let handlers := waiting_ s in
  let s := set_waiting [] s in
  match session_output (server_ s) with
  | [] => (s, map (fun k => post (run k error.success)) handlers)
  | output => (set_server (session_take (server_ s)) (set_sending output true s), [start_write handlers])
  end.

Definition flush (k : handler) (s : t) : result :=
  let s := set_waiting (waiting_ s ++ [k]) s in
  if negb (writing_ s) then write_next s else (s, []).

Fixpoint flush_all (l : list handler) (s : t) : result :=
  match l with
  | [] => (s, [])
  | k :: l =>
    let '(s, acts) := flush k s in
    let '(s, more) := flush_all l s in (s, acts ++ more)
  end.

(** The tasks that follow, and what is done. *)
Definition handle_receive (ec : code) (data : bytes) (s : t) : t * list task * list act :=
  let handlers := receivers_ s in
  let s := set_receivers [] (set_receiving false s) in
  if failed ec then (s, map (fun k => run k (transport ec s)) handlers, []) else
  let s := set_server (session_receive data (server_ s)) s in
  match session_output (server_ s) with
  | [] => (s, map (fun k => run k error.success) handlers, [])
  | _ => let '(s, acts) := flush_all handlers s in (s, [], acts)
  end.

Definition handle_write (ec : code) (handlers : list handler) (s : t) : t * list task :=
  (set_sending [] false s, map (fun k => run k ec) handlers ++ [after_write]).

(** ** Handshake *)

Definition handle_handshake (ec : code) (h : H) (s : t) : result :=
  if failed ec then (s, [call h ec 0 []]) else
  if session_failed (server_ s) then (s, [call h (failure s) 0 []]) else
  if session_closed (server_ s) then (s, [call h error.peer_disconnect 0 []]) else
  if session_established (server_ s) then (s, [call h error.success 0 []]) else
  receive (handle_handshake_of h) s.

Definition async_handshake (ready : bool) (h : H) (s : t) : result :=
  if negb ready then (s, [post (call_back h error.tls_alert_internal_error 0 [])]) else
  receive (handle_handshake_of h) s.

(** ** Read *)

Definition try_read (size : Z) (s : t) : option (code * bytes) * t :=
  if size =? 0 then (Some (error.success : code, []), s) else
  if negb (session_readable (server_ s) =? 0) then
    let '(x, data) := session_read size (server_ s) in (Some (error.success : code, data), set_server x s)
  else if session_closed (server_ s) then (Some (error.peer_disconnect : code, []), s)
  else if session_failed (server_ s) then (Some (failure s, []), s)
  else (None, s).

Definition do_read_some (size : Z) (h : H) (s : t) : result :=
  match try_read size s with
  | (Some (ec, data), s) => (s, [post (call_back h ec (len data) data)])
  | (None, s) => receive (handle_read_of size h) s
  end.

Definition handle_read_some (ec : code) (size : Z) (h : H) (s : t) : result :=
  if failed ec then (s, [call h ec 0 []]) else
  match try_read size s with
  | (Some (ec, data), s) => (s, [call h ec (len data) data])
  | (None, s) => receive (handle_read_of size h) s
  end.

(** The first buffer of a sequence that is not empty. *)
Fixpoint first_buffer (buffers : list Z) : Z :=
  match buffers with
  | [] => 0
  | size :: buffers => if negb (size =? 0) then size else first_buffer buffers
  end.

Definition async_read_some (buffers : list Z) (h : H) (s : t) : result := do_read_some (first_buffer buffers) h s.

(** ** Write *)

(** One record of plaintext. *)
Definition gather (buffers : list bytes) : bytes :=
  fold_left (fun plaintext b => if len plaintext <? maximum_plaintext then plaintext ++ ztake (maximum_plaintext - len plaintext) b else plaintext) buffers [].

Fixpoint flatten (buffers : list bytes) : bytes :=
  match buffers with
  | [] => []
  | [] :: rest => flatten rest
  | head :: rest =>
    match rest with
    | [] => ztake (len head `min` maximum_plaintext) head
    | _ => if len head >=? maximum_plaintext then ztake (len head `min` maximum_plaintext) head else gather (head :: rest)
    end
  end.

Definition refused (s : t) : code := if session_failed (server_ s) then failure s else error.connect_failed.

Definition do_write_some (data : bytes) (h : H) (s : t) : result :=
  match data with
  | [] => (s, [post (call_back h error.success 0 [])])
  | _ =>
    let size := len data `min` maximum_plaintext in
    let '(x, ok) := session_write (ztake size data) (server_ s) in
    let s := set_server x s in
    if negb ok then (s, [post (call_back h (refused s) 0 [])]) else flush (handle_write_of size h) s
  end.

Definition async_write_some (buffers : list bytes) (h : H) (s : t) : result := do_write_some (flatten buffers) h s.

(** The blocking write: what it gives to the socket, and the size and code
    that it returns where the socket gives [io]. *)
Definition do_write (data : bytes) (io : code) (s : t) : t * bytes * Z * code :=
  if writing_ s then (s, [], 0, error.operation_failed : code) else
  match data with
  | [] => (s, [], 0, error.success : code)
  | _ =>
    let size := len data `min` maximum_plaintext in
    let '(x, ok) := session_write (ztake size data) (server_ s) in
    let s := set_server x s in
    if negb ok then (s, [], 0, refused s) else
    (set_server (session_take (server_ s)) s, session_output (server_ s), if failed io then 0 else size, io)
  end.

(** ** Shutdown *)

Definition handle_close_received (ec : code) (h : H) (s : t) : result :=
  if failed ec then (s, [call h ec 0 []]) else
  if session_failed (server_ s) then (s, [call h (failure s) 0 []]) else
  if session_closed (server_ s) then (s, [call h error.success 0 []]) else
  receive (handle_close_received_of h) s.

Definition handle_close_sent (ec : code) (h : H) (s : t) : result :=
  if failed ec then (s, [call h ec 0 []]) else handle_close_received ec h s.

Definition async_shutdown (h : H) (s : t) : result :=
  if session_failed (server_ s) then (s, [post (call_back h error.success 0 [])]) else
  flush (handle_close_sent_of h) (set_server (session_close (server_ s)) s).

Definition run_task (k : task) (s : t) : result :=
  match k with
  | run (handle_handshake_of h) ec => handle_handshake ec h s
  | run (handle_read_of size h) ec => handle_read_some ec size h s
  | run (handle_write_of size h) ec => (s, [call h ec (if failed ec then 0 else size) []])
  | run (handle_close_sent_of h) ec => handle_close_sent ec h s
  | run (handle_close_received_of h) ec => handle_close_received ec h s
  | call_back h ec size data => (s, [call h ec size data])
  | after_write => if negb (writing_ s) && negb (match waiting_ s with [] => true | _ => false end) then write_next s else (s, [])
  end.
End stream.
End tls_stream.
