(* ===== verification/TlsStreamWorlds.v ===== *)
(** * TlsStreamWorlds: what a tls stream promises

    Theorems on the streams of [TlsStream] in every world that they reach: what
    is written to the socket is the output of the server in its order, a write
    completes after the output that precedes it, and no handler is lost.  The
    order is that of a server that records what it produces ([recorder], over
    any server), of which a stream writes each byte once. *)

From S2P Require Import Prelude.
From S2P Require Import Errors.
From S2P Require Import TlsConstants.
From S2P Require Import TlsCodec.
From S2P Require Import TlsSchedule.
From S2P Require Import TlsRecord.
From S2P Require Import TlsContext.
From S2P Require Import TlsHandshake.
From S2P Require Import TlsServer.
From S2P Require Import TlsFraming.
From S2P Require Import TlsStream.

Module tls_stream_worlds.
Import tls_stream.

Section worlds.
Context {S H : Type} `{!TlsSession S} (good : S -> Prop) `{!TlsSessionLaws good}.

(** What a handler is named: a handler of a write is named with how much had
    been output when its record was, others have no such mark. *)
Context (mark : H -> option Z).

Notation t := (t (S := S) (H := H)).
Notation handler := (handler (H := H)).
Notation task := (task (H := H)).
Notation act := (act (H := H)).
Notation result := (result (S := S) (H := H)).

(** The stream, the tasks that run and those that are posted, the operations of
    the socket that are pending, what was written to it, whether a write of it
    failed, and the handlers that were asked and called. *)
Record world := mk_world {
  self : t; agenda : list task; posted : list task; reading : bool; writing : option (list handler);
  wire : bytes; broken : bool; asked : list H; called : list (H * code * Z * bytes) }.

Definition with_self (s : t) (w : world) : world :=
  mk_world s (agenda w) (posted w) (reading w) (writing w) (wire w) (broken w) (asked w) (called w).

Definition perform_act (w : world) (a : act) : world :=
  match a with
  | start_read => mk_world (self w) (agenda w) (posted w) true (writing w) (wire w) (broken w) (asked w) (called w)
  | start_write l => mk_world (self w) (agenda w) (posted w) (reading w) (Some l) (wire w) (broken w) (asked w) (called w)
  | post k => mk_world (self w) (agenda w) (posted w ++ [k]) (reading w) (writing w) (wire w) (broken w) (asked w) (called w)
  | call h ec size data =>
    mk_world (self w) (agenda w) (posted w) (reading w) (writing w) (wire w) (broken w) (asked w) (called w ++ [(h, ec, size, data)])
  end.

Definition perform (r : result) (w : world) : world := fold_left perform_act r.2 (with_self r.1 w).

Definition ask (h : H) (w : world) : world :=
  mk_world (self w) (agenda w) (posted w) (reading w) (writing w) (wire w) (broken w) (asked w ++ [h]) (called w).

(** All that was output, in its order: written, being written, and not yet. *)
Definition total (w : world) : bytes := wire w ++ sending_ (self w) ++ session_output (server_ (self w)).

Definition do_tasks (l : list task) (w : world) : world :=
  mk_world (self w) l (posted w) (reading w) (writing w) (wire w) (broken w) (asked w) (called w).

Definition do_posts (l : list task) (w : world) : world :=
  mk_world (self w) (agenda w) l (reading w) (writing w) (wire w) (broken w) (asked w) (called w).

Definition not_reading (w : world) : world :=
  mk_world (self w) (agenda w) (posted w) false (writing w) (wire w) (broken w) (asked w) (called w).

(** A write of the socket ends, with what it wrote. *)
Definition written (ec : code) (n : Z) (w : world) : world :=
  mk_world (self w) (agenda w) (posted w) (reading w) None
    (wire w ++ (if failed ec then ztake n (sending_ (self w)) else sending_ (self w))) (broken w || failed ec) (asked w) (called w).

(** A blocking write gives bytes to the socket. *)
Definition gave (data : bytes) (ec : code) (n : Z) (w : world) : world :=
  mk_world (self w) (agenda w) (posted w) (reading w) (writing w)
    (wire w ++ (if failed ec then ztake n data else data)) (broken w || (failed ec && negb (match data with [] => true | _ => false end))) (asked w) (called w).

(** The caller asks for an operation between any two tasks; a completion or a
    posted task comes when no task runs. *)
Inductive move : world -> world -> Prop :=
  | asks_handshake w ready h : mark h = None -> move w (ask h (perform (async_handshake ready h (self w)) w))
  | asks_read w buffers h : mark h = None -> move w (ask h (perform (async_read_some buffers h (self w)) w))
  | asks_shutdown w h : mark h = None -> move w (ask h (perform (async_shutdown h (self w)) w))
  | asks_write w buffers h : let w' := ask h (perform (async_write_some buffers h (self w)) w) in
      mark h = (match flatten buffers with [] => None | _ => Some (len (total w')) end) -> move w w'
  | writes w buffers io n s data size ec : do_write (flatten buffers) io (self w) = (s, data, size, ec) ->
      move w (gave data io n (with_self s w))
  | runs w k l : agenda w = k :: l -> move w (perform (run_task k (self w)) (do_tasks l w))
  | posts w l k r : agenda w = [] -> posted w = l ++ k :: r -> move w (do_tasks [k] (do_posts (l ++ r) w))
  | receives w ec data s tasks acts : agenda w = [] -> reading w = true -> handle_receive ec data (self w) = (s, tasks, acts) ->
      move w (perform (s, acts) (do_tasks tasks (not_reading w)))
  | completes_write w ec n l s tasks : agenda w = [] -> writing w = Some l -> handle_write ec l (self w) = (s, tasks) ->
      move w (do_tasks tasks (with_self s (written ec n w))).

Definition initial (server : S) : world := mk_world (make server) [] [] false None [] false [] [].

(** ** Invariant *)

Definition owner (k : handler) : H :=
  match k with
  | handle_handshake_of h | handle_read_of _ h | handle_write_of _ h | handle_close_sent_of h | handle_close_received_of h => h
  end.

Definition task_owner (k : task) : list H :=
  match k with run k _ => [owner k] | call_back h _ _ _ => [h] | after_write => [] end.

Definition owners (l : list task) : list H := concat (map task_owner l).

Definition held (w : world) : list H :=
  owners (agenda w) ++ owners (posted w) ++ map owner (receivers_ (self w)) ++ map owner (waiting_ (self w)) ++ map owner (default [] (writing w)).

Definition called_handlers (w : world) : list H := map (fun c => c.1.1.1) (called w).

Definition reached (n : Z) (h : H) : Prop := forall m, mark h = Some m -> m <= n.

(** A handler that waits for its output to be on the wire; the others wait for
    none. *)
Definition due (n : Z) (k : handler) : Prop :=
  match k with handle_write_of _ h => reached n h | _ => mark (owner k) = None end.

Definition task_ok (n : Z) (k : task) : Prop :=
  match k with
  | run k ec => failed ec = false -> due n k
  | call_back h ec _ _ => failed ec = false -> reached n h
  | after_write => True
  end.

Definition call_ok (n : Z) (c : H * code * Z * bytes) : Prop := failed c.1.1.2 = false -> reached n c.1.1.1.

(** Where the marks of the handlers are: a handler that will succeed has its
    output on the wire. *)
Record marked (w : world) : Prop := {
  marked_waiting : Forall (due (len (total w))) (waiting_ (self w));
  marked_writing : Forall (due (len (wire w) + len (sending_ (self w)))) (default [] (writing w));
  marked_receivers : Forall (due 0) (receivers_ (self w));
  marked_agenda : Forall (task_ok (len (wire w))) (agenda w);
  marked_posted : Forall (task_ok (len (wire w))) (posted w);
  marked_called : Forall (call_ok (len (wire w))) (called w)
}.

(** [extra] are the handlers in the hands of the step that runs. *)
Record sound (extra : list H) (w : world) : Prop := {
  sound_good : good (server_ (self w));
  sound_asked : called_handlers w ++ held w ++ extra ≡ₚ asked w;
  sound_reading : reading w = receiving_ (self w);
  sound_writing : (match writing w with Some _ => true | None => false end) = writing_ (self w);
  sound_sending : writing_ (self w) = false -> sending_ (self w) = [];
  sound_receivers : receivers_ (self w) <> [] -> receiving_ (self w) = true;
  sound_marked : broken w = false -> marked w
}.

Lemma reached_more n m h : reached n h -> n <= m -> reached m h.
Proof. intros Hn Hm k Hk. specialize (Hn k Hk). lia. Qed.

Lemma due_more n m k : due n k -> n <= m -> due m k.
Proof. destruct k; cbn; try done. apply reached_more. Qed.

Lemma due_reached n k : due n k -> reached n (owner k).
Proof. destruct k; cbn; try done; intros Hk m; by rewrite Hk. Qed.

Lemma plain_due n m k : due n k -> mark (owner k) = None -> due m k.
Proof. destruct k; cbn; try done. intros _ Hk x. by rewrite Hk. Qed.

Lemma total_len w : len (total w) = len (wire w) + len (sending_ (self w)) + len (session_output (server_ (self w))).
Proof. unfold total. rewrite !len_app. lia. Qed.

Lemma perform_app s a b w : perform (s, a ++ b) w = fold_left perform_act b (perform (s, a) w).
Proof. unfold perform. apply fold_left_app. Qed.

(** ** Steps of the stream *)

Ltac split_sound := split; unfold perform; cbn [fst snd fold_left perform_act self agenda posted reading writing wire broken asked called with_self].

Lemma sound_call extra h ec size data w : sound (h :: extra) w -> (broken w = false -> failed ec = false -> reached (len (wire w)) h) ->
  sound extra (perform (self w, [call h ec size data]) w).
Proof.
  intros [Hg Ha Hr Hw Hs Hre Hm] Hh. split_sound; try done.
  - unfold called_handlers, held in *. cbn [called self agenda posted writing] in *. rewrite map_app, <- Ha. cbn. solve_Permutation.
  - intros Hb. destruct (Hm Hb) as [H1 H2 H3 H4 H5 H6]. split; try done. cbn [called wire]. apply Forall_app. split; [done |].
    apply Forall_cons. split; [by intros Hec; apply Hh | done].
Qed.

Lemma sound_post extra k w : sound (task_owner k ++ extra) w -> (broken w = false -> task_ok (len (wire w)) k) ->
  sound extra (perform (self w, [post k]) w).
Proof.
  intros [Hg Ha Hr Hw Hs Hre Hm] Hk. split_sound; try done.
  - unfold called_handlers, held, owners in *. cbn [called self agenda posted writing] in *. rewrite map_app, concat_app, <- Ha. cbn.
    rewrite app_nil_r. solve_Permutation.
  - intros Hb. destruct (Hm Hb) as [H1 H2 H3 H4 H5 H6]. split; try done. cbn [posted wire]. apply Forall_app. split; [done |].
    apply Forall_cons. split; [by apply Hk | done].
Qed.

Lemma sound_receive extra k w : sound (owner k :: extra) w -> (broken w = false -> due 0 k) -> sound extra (perform (receive k (self w)) w).
Proof.
  intros [Hg Ha Hr Hw Hs Hre Hm] Hk. unfold receive. cbn [receiving_ set_receivers].
  assert (called_handlers w ++ (owners (agenda w) ++ owners (posted w) ++ map owner (receivers_ (self w) ++ [k]) ++ map owner (waiting_ (self w)) ++
    map owner (default [] (writing w))) ++ extra ≡ₚ asked w) as Hacc.
  { unfold called_handlers, held in *. rewrite <- Ha, map_app. cbn. solve_Permutation. }
  assert (broken w = false -> Forall (due 0) (receivers_ (self w) ++ [k])) as Hrec.
  { intros Hb. apply Forall_app. split; [by apply marked_receivers, Hm | by apply Forall_cons; split; [apply Hk |]]. }
  destruct (receiving_ (self w)) eqn:Hrc; split_sound; try done; try exact Hacc; try congruence.
  all: try (cbn; congruence). all: intros Hb; destruct (Hm Hb) as [H1 H2 H3 H4 H5 H6]; split; try done; by apply Hrec.
Qed.

Lemma perform_posts s l w : perform (s, map post l) w = do_posts (posted w ++ l) (with_self s w).
Proof.
  unfold perform. cbn [fst snd]. assert (forall v, fold_left perform_act (map post l) v = do_posts (posted v ++ l) v) as Hf.
  { induction l as [| k l IH]; intros v; cbn; [by destruct v; unfold do_posts; cbn; rewrite app_nil_r |].
    rewrite IH. unfold do_posts. cbn. by rewrite <- app_assoc. }
  by rewrite Hf.
Qed.

Lemma runs_owners ec l : concat (map (fun k => task_owner (run k ec)) l) = map owner l.
Proof. induction l as [| k l IH]; [done |]. cbn in *. by rewrite IH. Qed.

Lemma sound_write_next extra w : sound extra w -> writing_ (self w) = false -> sound extra (perform (write_next (self w)) w).
Proof.
  intros [Hg Ha Hr Hw Hs Hre Hm] Hno. specialize (Hs Hno). unfold write_next. cbn [server_ set_waiting].
  assert (writing w = None) as Hnone by (rewrite Hno in Hw; by destruct (writing w)).
  destruct (session_output (server_ (self w))) as [| b output] eqn:Ho.
  - rewrite <- (map_map (fun k => run k (error.success : code)) post). rewrite perform_posts.
    split; cbn [self agenda posted reading writing wire broken asked called with_self do_posts set_waiting receiving_ writing_ sending_ receivers_ waiting_ server_]; try done.
    + etransitivity; [| exact Ha]. unfold called_handlers, held, owners. cbn. rewrite map_app, concat_app, Hnone. cbn. rewrite map_map.
      rewrite runs_owners. solve_Permutation.
    + intros Hb. destruct (Hm Hb) as [H1 H2 H3 H4 H5 H6]. split; cbn; try done. apply Forall_app. split; [done |].
      apply Forall_map. eapply Forall_impl; [exact H1 |]. intros k Hk _. rewrite total_len, Hs, Ho, !len_nil, !Z.add_0_r in Hk. done.
  - destruct (take_law (server_ (self w)) Hg) as [Hgt Hot]. split_sound; cbn [self receiving_ writing_ sending_ receivers_ waiting_ server_ set_server set_sending set_waiting]; try done.
    + etransitivity; [| exact Ha]. unfold called_handlers, held. cbn. rewrite Hnone. cbn. solve_Permutation.
    + intros Hb. destruct (Hm Hb) as [H1 H2 H3 H4 H5 H6]. split; cbn [self receiving_ writing writing_ sending_ receivers_ waiting_ server_ set_server set_sending set_waiting default wire agenda posted called]; try done.
      eapply Forall_impl; [exact H1 |]. intros k Hk. rewrite total_len, Hs, Ho, len_nil, Z.add_0_r in Hk. done.
Qed.

Lemma sound_flush extra k w : sound (owner k :: extra) w -> (broken w = false -> due (len (total w)) k) ->
  sound extra (perform (flush k (self w)) w).
Proof.
  intros [Hg Ha Hr Hw Hs Hre Hm] Hk. unfold flush. set (s := set_waiting (waiting_ (self w) ++ [k]) (self w)).
  assert (sound extra (with_self s w)) as Hwait.
  { split; cbn; try done.
    - etransitivity; [| exact Ha]. unfold called_handlers, held. cbn. rewrite map_app. cbn. solve_Permutation.
    - intros Hb. destruct (Hm Hb) as [H1 H2 H3 H4 H5 H6]. split; cbn; try done.
      apply Forall_app. split; [done | by apply Forall_cons; split; [apply Hk |]]. }
  change (writing_ s) with (writing_ (self w)). destruct (writing_ (self w)) eqn:Hno; cbn [negb]; [done |].
  exact (sound_write_next extra (with_self s w) Hwait Hno).
Qed.

(** ** Waiting handlers *)

(** What waits is taken up by the write in progress, when it ends. *)
Definition attended (w : world) : Prop := waiting_ (self w) <> [] -> writing_ (self w) = true \/ after_write ∈ agenda w.

Lemma self_acts l w : self (fold_left perform_act l w) = self w /\ agenda (fold_left perform_act l w) = agenda w.
Proof. revert w. induction l as [| a l IH]; intros w; [done |]. cbn. destruct (IH (perform_act w a)) as [-> ->]. by destruct a. Qed.

Lemma attended_perform s acts w : (waiting_ s <> [] -> writing_ s = true \/ after_write ∈ agenda w) -> attended (perform (s, acts) w).
Proof. unfold attended, perform. cbn [fst snd]. destruct (self_acts acts (with_self s w)) as [-> ->]. done. Qed.

(** ** Operations *)

(** What is output and not yet written. *)
Definition pending (s : t) : bytes := sending_ s ++ session_output (server_ s).

(** A step keeps the invariant, strands no waiting handler, and adds to the
    output only after what there is. *)
Record fine (extra : list H) (w : world) (r : result) : Prop := {
  fine_sound : sound extra (perform r w);
  fine_keeps : waiting_ r.1 <> [] -> writing_ r.1 = true \/ waiting_ r.1 = waiting_ (self w) /\ writing_ r.1 = writing_ (self w);
  fine_grows : exists x, pending r.1 = pending (self w) ++ x
}.

Lemma pending_refl s : exists x, pending s = pending s ++ x.
Proof. exists []. by rewrite app_nil_r. Qed.

Lemma fine_same extra w r : sound extra (perform r w) -> pending r.1 = pending (self w) ->
  waiting_ r.1 = waiting_ (self w) -> writing_ r.1 = writing_ (self w) -> fine extra w r.
Proof. intros Hs Hp Hw Hx. split; [done | by right | rewrite Hp; apply pending_refl]. Qed.

Lemma fine_call extra h ec size data w : sound (h :: extra) w -> (broken w = false -> failed ec = false -> reached (len (wire w)) h) ->
  fine extra w (self w, [call h ec size data]).
Proof. intros Hs Hh. by apply fine_same; [apply sound_call | ..]. Qed.

Lemma fine_post extra k w : sound (task_owner k ++ extra) w -> (broken w = false -> task_ok (len (wire w)) k) -> fine extra w (self w, [post k]).
Proof. intros Hs Hh. by apply fine_same; [apply sound_post | ..]. Qed.

Lemma fine_receive extra k w : sound (owner k :: extra) w -> (broken w = false -> due 0 k) -> fine extra w (receive k (self w)).
Proof.
  intros Hs Hh. apply fine_same; [by apply sound_receive | ..]; unfold receive; cbn [receiving_ set_receivers]; by destruct (receiving_ (self w)).
Qed.

Lemma fine_none extra w : sound extra w -> fine extra w (self w, []).
Proof. intros Hs. apply fine_same; [| done ..]. by destruct w. Qed.

Lemma fine_write_next extra w : sound extra w -> writing_ (self w) = false -> fine extra w (write_next (self w)).
Proof.
  intros Hs Hno. split; [by apply sound_write_next | ..]; pose proof (sound_sending _ _ Hs Hno) as Hsend;
    unfold write_next; cbn [server_ set_waiting]; destruct (session_output (server_ (self w))) eqn:Ho; cbn; try done; try (by left).
  - exists []. unfold pending. cbn. by rewrite app_nil_r.
  - exists []. unfold pending. cbn. destruct (take_law (server_ (self w)) (sound_good _ _ Hs)) as [_ ->]. by rewrite Hsend, Ho, !app_nil_r.
Qed.

Lemma fine_flush extra k w : sound (owner k :: extra) w -> (broken w = false -> due (len (total w)) k) -> fine extra w (flush k (self w)).
Proof.
  intros Hs Hk. pose proof (sound_flush _ _ _ Hs Hk) as Hf. revert Hf. unfold flush. cbn [writing_ set_waiting].
  destruct (writing_ (self w)) eqn:Hno; cbn [negb]; intros Hf; (split; [exact Hf | ..]); unfold write_next, pending; cbn;
    [by left | by exists []; rewrite app_nil_r | ..];
    pose proof (sound_sending _ _ Hs Hno) as Hsend; destruct (session_output (server_ (self w))) eqn:Ho; cbn; try done.
  - exists []. rewrite Ho. rewrite !app_nil_r. done.
  - exists []. destruct (take_law (server_ (self w)) (sound_good _ _ Hs)) as [_ ->]. by rewrite Hsend, !app_nil_r.
Qed.

(** A step after a change of the server. *)
Lemma fine_server extra extra' x w r y : sound extra w -> good x -> session_output x = session_output (server_ (self w)) ++ y ->
  (sound extra (with_self (set_server x (self w)) w) -> fine extra' (with_self (set_server x (self w)) w) r) -> fine extra' w r.
Proof.
  intros [Hg Ha Hr Hw Hs Hre Hm] Hx Hy Hf. destruct Hf as [Hsr Hk [z Hz]].
  - split; cbn; try done. intros Hb. destruct (Hm Hb) as [H1 H2 H3 H4 H5 H6]. split; cbn; try done.
    eapply Forall_impl; [exact H1 |]. intros k Hk. eapply due_more; [exact Hk |]. rewrite !total_len. cbn. rewrite Hy, !len_app.
    pose proof (len_nonneg y). lia.
  - split; [exact Hsr | exact Hk |]. exists (y ++ z). rewrite Hz. unfold pending. cbn. by rewrite Hy, !app_assoc.
Qed.

Lemma perform_self r w : self (perform r w) = r.1.
Proof. unfold perform. by destruct (self_acts r.2 (with_self r.1 w)) as [-> _]. Qed.

Lemma perform_kept acts w : wire (fold_left perform_act acts w) = wire w /\ broken (fold_left perform_act acts w) = broken w.
Proof. revert w. induction acts as [| a l IH]; intros w; [done |]. cbn. destruct (IH (perform_act w a)) as [-> ->]. by destruct a. Qed.

Lemma with_self_id s w : self w = s -> with_self s w = w.
Proof. intros <-. by destruct w. Qed.

Lemma perform_after s s' acts more w : perform (s', acts ++ more) w = perform (s', more) (perform (s, acts) w).
Proof.
  rewrite perform_app. assert (perform (s', acts) w = with_self s' (perform (s, acts) w)) as ->; [| done].
  unfold perform. cbn [fst snd].
  assert (forall v, fold_left perform_act acts (with_self s' v) = with_self s' (fold_left perform_act acts (with_self s v))) as Hf; [| apply Hf].
  induction acts as [| a acts IH]; intros v; [done |]. cbn.
  assert (forall x, perform_act (with_self x v) a = with_self x (perform_act v a)) as Hx by (intros x; by destruct a).
  by rewrite !Hx.
Qed.

(** One step after another. *)
Lemma fine_then extra extra' w s acts s' more : fine extra' w (s, acts) -> (sound extra' (perform (s, acts) w) -> fine extra (perform (s, acts) w) (s', more)) ->
  fine extra w (s', acts ++ more).
Proof.
  intros [Hs Hk [x Hx]] Hf. destruct (Hf Hs) as [Hs' Hk' [y Hy]]. rewrite perform_self in *. cbn [fst] in *. split.
  - by rewrite (perform_after s).
  - cbn. intros Hne. destruct (Hk' Hne) as [Hl | [Hl Hl']]; [by left |]. rewrite Hl, Hl' in *. by apply Hk.
  - exists (x ++ y). cbn. by rewrite Hy, Hx, app_assoc.
Qed.

Lemma fine_flush_all l extra w : sound (map owner l ++ extra) w -> (broken w = false -> Forall (due 0) l) -> fine extra w (flush_all l (self w)).
Proof.
  revert w. induction l as [| k l IH]; intros w Hs Hd; [by apply fine_none |]. cbn [flush_all].
  destruct (flush k (self w)) as [s acts] eqn:Hf. destruct (flush_all l s) as [s' more] eqn:Hl.
  eapply fine_then.
  - rewrite <- Hf. apply fine_flush; [exact Hs |]. intros Hb. eapply due_more; [by apply Forall_cons in Hd as [? _] | apply len_nonneg].
  - intros Hs'. specialize (IH _ Hs'). rewrite perform_self in IH. rewrite <- Hl. apply IH.
    unfold perform. cbn [fst snd]. destruct (perform_kept acts (with_self s w)) as [_ ->]. intros Hb. by apply Hd, Forall_cons in Hb as [_ Hb].
Qed.

(** ** Handlers *)

Lemma failure_failed (s : t) : failed (failure s) = true.
Proof. unfold failure, tls_to_error_code. by repeat (destruct (_ =? _); [done |]). Qed.

Lemma refused_failed (s : t) : failed (refused s) = true.
Proof. unfold refused. destruct (session_failed _); [apply failure_failed | done]. Qed.

Ltac calls := apply fine_call; [done | let Hf := fresh in intros ? Hf; try (exfalso; first [congruence | discriminate Hf | rewrite failure_failed in Hf; discriminate Hf])].

Lemma fine_handshake extra ec h w : sound (h :: extra) w -> (broken w = false -> failed ec = false -> mark h = None) -> fine extra w (handle_handshake ec h (self w)).
Proof.
  intros Hs Hm. assert (broken w = false -> failed ec = false -> forall n, reached n h) as Hr by (intros Hb Hec n m; by rewrite (Hm Hb Hec)).
  unfold handle_handshake. destruct (failed ec) eqn:Hec; [calls |].
  destruct (session_failed _); [calls |]. destruct (session_closed _); [calls |].
  destruct (session_established _); [calls; by apply Hr |].
  apply fine_receive; [done |]. intros Hb. by apply Hm.
Qed.

Lemma try_read_server size (s : t) r s' : try_read size s = (r, s') -> exists x, s' = set_server x s /\ (good (server_ s) -> good x /\ session_output x = session_output (server_ s)).
Proof.
  assert (s = set_server (server_ s) s) as Hid by (by destruct s). unfold try_read.
  destruct (size =? 0); [intros [= <- <-]; by exists (server_ s) |].
  destruct (negb _).
  { pose proof (read_law size (server_ s)) as Hl. destruct (session_read size (server_ s)) as [x data]. intros [= <- <-]. by exists x. }
  destruct (session_closed _); [intros [= <- <-]; by exists (server_ s) |].
  destruct (session_failed _); intros [= <- <-]; by exists (server_ s).
Qed.

Lemma fine_try_read extra extra' size w r s next : sound extra w -> try_read size (self w) = (r, s) ->
  (forall v, self v = s -> sound extra v -> broken v = broken w -> fine extra' v next) -> fine extra' w next.
Proof.
  intros Hs Ht Hf. destruct (try_read_server _ _ _ _ Ht) as [x [-> Hx]]. destruct (Hx (sound_good _ _ Hs)) as [Hg Ho].
  eapply (fine_server extra extra' x w next []); [done.. | by rewrite app_nil_r |]. intros Hv. by apply Hf.
Qed.

Lemma fine_read_some extra ec size h w : sound (h :: extra) w -> (broken w = false -> failed ec = false -> mark h = None) ->
  fine extra w (handle_read_some ec size h (self w)).
Proof.
  intros Hs Hm. unfold handle_read_some. destruct (failed ec) eqn:Hec; [calls |].
  destruct (try_read size (self w)) as [r s] eqn:Ht.
  eapply fine_try_read; [exact Hs | exact Ht |]. intros v <- Hv Hb. rewrite <- Hb in Hm. destruct r as [[ec' data] |].
  - apply fine_call; [done |]. intros Hb' _ m. by rewrite Hm.
  - apply fine_receive; [done |]. intros Hb'. by apply Hm.
Qed.

Lemma fine_do_read extra size h w : sound (h :: extra) w -> mark h = None -> fine extra w (do_read_some size h (self w)).
Proof.
  intros Hs Hm. unfold do_read_some. destruct (try_read size (self w)) as [r s] eqn:Ht.
  eapply fine_try_read; [exact Hs | exact Ht |]. intros v <- Hv Hb. destruct r as [[ec' data] |].
  - apply fine_post; [done |]. intros Hb' _ m. by rewrite Hm.
  - by apply fine_receive.
Qed.

Lemma fine_close_received extra ec h w : sound (h :: extra) w -> (broken w = false -> failed ec = false -> mark h = None) ->
  fine extra w (handle_close_received ec h (self w)).
Proof.
  intros Hs Hm. unfold handle_close_received. destruct (failed ec) eqn:Hec; [calls |].
  destruct (session_failed _); [calls |]. destruct (session_closed _); [apply fine_call; [done |]; intros Hb _ m; by rewrite Hm |].
  apply fine_receive; [done |]. intros Hb. by apply Hm.
Qed.

Lemma fine_close_sent extra ec h w : sound (h :: extra) w -> (broken w = false -> failed ec = false -> mark h = None) ->
  fine extra w (handle_close_sent ec h (self w)).
Proof.
  intros Hs Hm. unfold handle_close_sent. destruct (failed ec) eqn:Hec; [calls |].
  apply fine_close_received; [done |]. intros Hb _. by apply Hm.
Qed.

Lemma fine_shutdown extra h w : sound (h :: extra) w -> mark h = None -> fine extra w (async_shutdown h (self w)).
Proof.
  intros Hs Hm. unfold async_shutdown. destruct (session_failed _).
  - apply fine_post; [done |]. intros _ _ m. by rewrite Hm.
  - destruct (close_law (server_ (self w)) (sound_good _ _ Hs)) as [Hg [x Hx]].
    apply (fine_server (h :: extra) _ _ _ _ _ Hs Hg Hx). intros Hv. by apply (fine_flush _ (handle_close_sent_of h)).
Qed.

(** The record of a write is output when it is asked for. *)
Lemma fine_write extra data h w : sound (h :: extra) w ->
  mark h = (match data with [] => None | _ => Some (len (total w) + len (session_output (session_write (ztake (len data `min` maximum_plaintext) data) (server_ (self w))).1)
    - len (session_output (server_ (self w)))) end) ->
  fine extra w (do_write_some data h (self w)).
Proof.
  intros Hs. unfold do_write_some. destruct data as [| b data].
  { intros Hm. apply fine_post; [done |]. intros _ _ m. by rewrite Hm. }
  remember (b :: data) as l eqn:Hl. destruct (write_law (ztake (len l `min` maximum_plaintext) l) (server_ (self w)) (sound_good _ _ Hs)) as [Hg [x Hx]].
  destruct (session_write _ _) as [y ok]. cbn [fst] in *. intros Hm.
  apply (fine_server (h :: extra) _ _ _ _ _ Hs Hg Hx). intros Hv. destruct ok; cbn [negb].
  - apply (fine_flush _ (handle_write_of (len l `min` maximum_plaintext) h)); [done |]. intros _ m. rewrite Hm. intros [= <-].
    rewrite !total_len. cbn. lia.
  - apply fine_post; [done |]. intros _. cbn [task_ok]. by rewrite refused_failed.
Qed.

Lemma fine_task k w : sound (task_owner k) w -> (broken w = false -> task_ok (len (wire w)) k) -> fine [] w (run_task k (self w)).
Proof.
  intros Hs Hk. destruct k as [k ec | h ec size data |]; cbn [run_task task_owner] in *.
  - destruct k; cbn [owner] in *.
    + by apply fine_handshake.
    + by apply fine_read_some.
    + apply fine_call; [done |]. exact Hk.
    + by apply fine_close_sent.
    + by apply fine_close_received.
  - apply fine_call; [done |]. exact Hk.
  - destruct (writing_ (self w)) eqn:Hw; cbn [negb andb]; [by apply fine_none |].
    destruct (waiting_ (self w)) eqn:Hn; cbn [negb]; [by apply fine_none | by apply fine_write_next].
Qed.
(** ** Worlds *)

Lemma perform_ask h r w : perform r (ask h w) = ask h (perform r w).
Proof.
  unfold perform. change (with_self r.1 (ask h w)) with (ask h (with_self r.1 w)). generalize (with_self r.1 w). induction r.2 as [| a l IH]; intros v; [done |].
  cbn. rewrite <- IH. by destruct a.
Qed.

Lemma sound_ask_for h w : sound [] w -> sound [h] (ask h w).
Proof.
  intros [Hg Ha Hr Hw Hs Hre Hm]. split; try done; [| intros Hb; by destruct (Hm Hb)].
  change (called_handlers w ++ held w ++ [h] ≡ₚ asked w ++ [h]). rewrite <- Ha, app_nil_r. by rewrite app_assoc.
Qed.

Lemma sound_agenda extra k l w : sound extra w -> agenda w = k :: l ->
  sound (task_owner k ++ extra) (do_tasks l w) /\ (broken w = false -> task_ok (len (wire w)) k).
Proof.
  intros [Hg Ha Hr Hw Hs Hre Hm] Hk. split; [split; try done |].
  - etransitivity; [| exact Ha]. unfold called_handlers, held, owners. cbn. rewrite Hk. cbn. solve_Permutation.
  - intros Hb. destruct (Hm Hb) as [H1 H2 H3 H4 H5 H6]. rewrite Hk in H4. apply Forall_cons in H4 as [_ H4]. by split.
  - intros Hb. pose proof (marked_agenda _ (Hm Hb)) as H4. rewrite Hk in H4. by apply Forall_cons in H4 as [H4 _].
Qed.

Lemma sound_tasks extra tasks w : sound (owners tasks ++ extra) w -> agenda w = [] -> (broken w = false -> Forall (task_ok (len (wire w))) tasks) ->
  sound extra (do_tasks tasks w).
Proof.
  intros [Hg Ha Hr Hw Hs Hre Hm] Hno Ht. split; try done.
  - etransitivity; [| exact Ha]. unfold called_handlers, held, owners. cbn. rewrite Hno. cbn. solve_Permutation.
  - intros Hb. destruct (Hm Hb) as [H1 H2 H3 H4 H5 H6]. split; try done. by apply Ht.
Qed.

Lemma sound_posted extra l k r w : sound extra w -> agenda w = [] -> posted w = l ++ k :: r -> sound extra (do_tasks [k] (do_posts (l ++ r) w)).
Proof.
  intros [Hg Ha Hr Hw Hs Hre Hm] Hno Hp. split; try done.
  - etransitivity; [| exact Ha]. unfold called_handlers, held, owners. cbn. rewrite Hno, Hp, !map_app, !concat_app. cbn. rewrite app_nil_r. solve_Permutation.
  - intros Hb. destruct (Hm Hb) as [H1 H2 H3 H4 H5 H6]. rewrite Hp in H5. apply Forall_app in H5 as [H5 H7]. apply Forall_cons in H7 as [H7 H8].
    split; try done; cbn; [by apply Forall_cons | by apply Forall_app].
Qed.

Lemma runs_ok n m ec l : Forall (due n) l -> n <= m -> Forall (task_ok m) (map (fun k => run k ec) l).
Proof. intros Hl Hn. apply Forall_map. eapply Forall_impl; [exact Hl |]. intros k Hk _. by eapply due_more. Qed.

(** What is added to the output, while no write failed. *)
Definition appends (w w' : world) : Prop := broken w' = false -> broken w = false /\ exists x, total w' = total w ++ x.

Lemma total_pending w : total w = wire w ++ pending (self w).
Proof. done. Qed.

Lemma fine_appends extra w r : fine extra w r -> appends w (perform r w).
Proof.
  intros [_ _ [x Hx]]. unfold appends. rewrite !total_pending, perform_self. unfold perform. destruct (perform_kept r.2 (with_self r.1 w)) as [-> ->].
  intros Hb. split; [done |]. exists x. by rewrite Hx, app_assoc.
Qed.

Lemma fine_attended extra w r : fine extra w r -> attended w -> attended (perform r w).
Proof.
  intros [_ Hk _] Ha. destruct r as [s acts]. apply attended_perform. intros Hne. destruct (Hk Hne) as [Hl | [Hl Hl']]; [by left |].
  cbn [fst] in *. rewrite Hl' . apply Ha. by rewrite <- Hl.
Qed.

(** What every world keeps, and what a move adds. *)
Definition kept (w : world) : Prop := sound [] w /\ attended w.

Lemma asked_kept h r w : kept w -> (sound [h] (ask h w) -> fine [] (ask h w) r) -> kept (ask h (perform r w)) /\ appends w (ask h (perform r w)).
Proof.
  intros [Hs Ha] Hf. specialize (Hf (sound_ask_for h w Hs)). rewrite <- perform_ask. split; [split |].
  - apply (fine_sound _ _ _ Hf).
  - by eapply fine_attended.
  - apply (fine_appends _ _ _ Hf).
Qed.

Lemma write_pending data h (s : t) : good (server_ s) -> (writing_ s = false -> sending_ s = []) -> data <> [] ->
  len (pending (do_write_some data h s).1) =
    len (sending_ s) + len (session_output (session_write (ztake (len data `min` maximum_plaintext) data) (server_ s)).1).
Proof.
  intros Hg Hs Hne. destruct data as [| b data]; [done |]. unfold do_write_some. remember (b :: data) as l eqn:Hl.
  destruct (write_law (ztake (len l `min` maximum_plaintext) l) (server_ s) Hg) as [Hg' _].
  destruct (session_write _ _) as [y ok]. cbn [fst] in *. destruct ok; cbn [negb]; [| by unfold pending; cbn; rewrite len_app].
  unfold flush. cbn [writing_ set_waiting set_server]. destruct (writing_ s); cbn [negb]; [by unfold pending; cbn; rewrite len_app |].
  rewrite Hs by done. unfold write_next, pending. cbn. destruct (session_output y) eqn:Ho; cbn.
  - by rewrite Hs, Ho.
  - destruct (take_law y Hg') as [_ ->]. by rewrite app_nil_r.
Qed.
Lemma written_kept extra ec n l w : sound extra w -> agenda w = [] -> writing w = Some l ->
  let '(s, tasks) := handle_write ec l (self w) in sound extra (do_tasks tasks (with_self s (written ec n w))).
Proof.
  intros [Hg Ha Hr Hw Hs Hre Hm] Hno Hl. unfold handle_write. split; cbn; try done.
  - etransitivity; [| exact Ha]. unfold called_handlers, held, owners. cbn. rewrite Hno, Hl, map_app, concat_app, map_map, runs_owners. cbn.
    rewrite app_nil_r. solve_Permutation.
  - intros Hb. apply orb_false_iff in Hb as [Hb Hec]. destruct (Hm Hb) as [H1 H2 H3 H4 H5 H6]. rewrite Hl in H2.
    assert (len (wire w) <= len (wire w ++ sending_ (self w))) as Hle by (rewrite len_app; pose proof (len_nonneg (sending_ (self w))); lia).
    split; cbn; rewrite ?Hec; try done.
    + eapply Forall_impl; [exact H1 |]. intros k Hk. eapply due_more; [exact Hk |]. rewrite !total_len. cbn. rewrite ?Hec, !len_app. cbn. lia.
    + apply Forall_app. split; [| by apply Forall_cons]. eapply runs_ok; [exact H2 |]. rewrite len_app. lia.
    + eapply Forall_impl; [exact H5 |]. intros [k e | h e x y |] Hk; cbn in *; try done; intros He; [eapply due_more | eapply reached_more]; eauto.
    + eapply Forall_impl; [exact H6 |]. intros c Hk He. eapply reached_more; eauto.
Qed.

Lemma sound_runs e l w : sound (map owner l) w -> agenda w = [] -> (broken w = false -> Forall (due 0) l) ->
  sound [] (do_tasks (map (fun k => run k e) l) w).
Proof.
  intros Hs Hno Hd. apply sound_tasks; [| done |].
  - unfold owners. by rewrite map_map, runs_owners, app_nil_r.
  - intros Hb. eapply runs_ok; [by apply Hd | apply len_nonneg].
Qed.

Lemma received_kept ec data s tasks acts w : kept w -> agenda w = [] -> handle_receive ec data (self w) = (s, tasks, acts) ->
  kept (perform (s, acts) (do_tasks tasks (not_reading w))) /\ appends w (perform (s, acts) (do_tasks tasks (not_reading w))).
Proof.
  intros [Hs Ha] Hno. set (s0 := set_receivers [] (set_receiving false (self w))). set (w0 := with_self s0 (not_reading w)).
  assert (sound (map owner (receivers_ (self w))) w0) as Hs0.
  { destruct Hs as [Hg Hac Hr Hw Hs Hre Hm]. split; cbn; try done.
    - etransitivity; [| exact Hac]. unfold called_handlers, held. cbn. solve_Permutation.
    - intros Hb. by destruct (Hm Hb). }
  assert (broken w = false -> Forall (due 0) (receivers_ (self w))) as Hd by (intros Hb; by apply marked_receivers, (sound_marked _ _ Hs)).
  unfold attended in Ha. rewrite Hno in Ha.
  assert (waiting_ (self w) <> [] -> writing_ (self w) = true) as Hw by (intros Hne; destruct (Ha Hne) as [? | Hin]; [done | by apply elem_of_nil in Hin]).
  unfold handle_receive. fold s0. change (server_ s0) with (server_ (self w)). destruct (failed ec).
  { intros [= <- <- <-]. split; [split |].
    - by apply (sound_runs _ _ w0).
    - apply attended_perform. intros Hne. left. by apply Hw.
    - intros Hb. split; [done |]. exists []. by rewrite app_nil_r. }
  destruct (receive_law data (server_ (self w)) (sound_good _ _ Hs)) as [Hg [x Hx]]. revert Hx Hg.
  generalize (session_receive data (server_ (self w))) as y. intros y Hx Hg. cbn [server_ set_server].
  assert (sound (map owner (receivers_ (self w))) (with_self (set_server y s0) w0)) as Hsy.
  { assert (fine (map owner (receivers_ (self w))) w0 (set_server y s0, [])) as Hf; [| exact (fine_sound _ _ _ Hf)].
    eapply (fine_server _ _ y w0); [exact Hs0 | exact Hg | exact Hx |]. intros Hv. by apply (fine_none _ (with_self (set_server y s0) w0)). }
  assert (appends w (with_self (set_server y s0) w0)) as Hap.
  { intros Hb. split; [done |]. exists x. unfold total. cbn. by rewrite Hx, !app_assoc. }
  destruct (session_output y) as [| b o] eqn:Ho.
  - intros [= <- <- <-]. split; [split | exact Hap].
    + by apply (sound_runs _ _ (with_self (set_server y s0) w0)).
    + apply attended_perform. intros Hne. left. by apply Hw.
  - change (receivers_ (self w)) with (receivers_ (self w)). destruct (flush_all _ _) as [s' acts'] eqn:Hf. intros [= <- <- <-].
    assert (fine [] (with_self (set_server y s0) w0) (s', acts')) as Hfine.
    { rewrite <- Hf. apply (fine_flush_all (receivers_ (self w)) [] (with_self (set_server y s0) w0)); [by rewrite app_nil_r | done]. }
    assert (perform (s', acts') (do_tasks [] (not_reading w)) = perform (s', acts') (with_self (set_server y s0) w0)) as ->
      by (unfold perform, do_tasks; cbn; f_equal; unfold with_self; cbn; by rewrite Hno).
    split; [split |].
    + apply (fine_sound _ _ _ Hfine).
    + eapply fine_attended; [exact Hfine |]. intros Hne. left. by apply Hw.
    + intros Hb. destruct (fine_appends _ _ _ Hfine Hb) as [Hb' [z Hz]]. destruct (Hap Hb') as [Hb'' [z' Hz']]. split; [done |].
      exists (z' ++ z). by rewrite Hz, Hz', app_assoc.
Qed.

Lemma do_write_cases l io (s s' : t) data size ec : good (server_ s) -> do_write l io s = (s', data, size, ec) ->
  exists x y, s' = set_server x s /\ good x /\ session_output (server_ s) ++ y = data ++ session_output x /\
    (data <> [] -> writing_ s = false /\ ec = io /\ session_output x = []).
Proof.
  intros Hg. assert (s = set_server (server_ s) s) as Hid by (by destruct s). unfold do_write. destruct (writing_ s) eqn:Hw.
  { intros [= <- <- <- <-]. exists (server_ s), []. by rewrite app_nil_r. }
  destruct l as [| b l]; [intros [= <- <- <- <-]; exists (server_ s), []; by rewrite app_nil_r |].
  remember (b :: l) as data' eqn:Hd. destruct (write_law (ztake (len data' `min` maximum_plaintext) data') (server_ s) Hg) as [Hg' [y Hy]].
  destruct (session_write _ _) as [x ok]. cbn [fst] in *. destruct ok; cbn [negb server_ set_server]; intros [= <- <- <- <-].
  - destruct (take_law x Hg') as [Hgt Ht]. exists (session_take x), y. rewrite Ht, app_nil_r. by repeat split.
  - exists x, y. by repeat split.
Qed.

Lemma gave_kept l io n s data size ec w : kept w -> do_write l io (self w) = (s, data, size, ec) ->
  kept (gave data io n (with_self s w)) /\ appends w (gave data io n (with_self s w)).
Proof.
  intros [[Hg Ha Hr Hw Hs Hre Hm] Hat] Hd. destruct (do_write_cases _ _ _ _ _ _ _ Hg Hd) as [x [y [-> [Hx [Hy Hne]]]]].
  assert (broken w || failed io && negb (match data with [] => true | _ => false end) = false ->
    broken w = false /\ (if failed io then ztake n data else data) = data) as Hio.
  { intros Hb. apply orb_false_iff in Hb as [Hb Hf]. split; [done |]. destruct (failed io); [| done]. destruct data; [| done].
    by unfold ztake; rewrite take_nil. }
  assert (broken w = false -> wire w ++ data ++ sending_ (self w) ++ session_output x = total w ++ y) as Htot.
  { intros _. unfold total. rewrite <- !app_assoc, Hy. f_equal. destruct data as [| b data]; [done |].
    destruct (Hne ltac:(done)) as [Hwr _]. by rewrite (Hs Hwr). }
  split; [split; [split; cbn; try done |] |].
  - intros Hb. destruct (Hio Hb) as [Hb' Hdata]. destruct (Hm Hb') as [H1 H2 H3 H4 H5 H6].
    assert (len (wire w) <= len (wire w ++ data)) as Hle by (rewrite len_app; pose proof (len_nonneg data); lia).
    split; cbn; rewrite ?Hdata; try done.
    + eapply Forall_impl; [exact H1 |]. intros k Hk. eapply due_more; [exact Hk |].
      rewrite <- app_assoc, Htot by done. rewrite len_app. pose proof (len_nonneg y). lia.
    + eapply Forall_impl; [exact H2 |]. intros k Hk. eapply due_more; [exact Hk |]. lia.
    + eapply Forall_impl; [exact H4 |]. intros [k e | h e z v |] Hk; cbn in *; try done; intros He; [eapply due_more | eapply reached_more]; eauto.
    + eapply Forall_impl; [exact H5 |]. intros [k e | h e z v |] Hk; cbn in *; try done; intros He; [eapply due_more | eapply reached_more]; eauto.
    + eapply Forall_impl; [exact H6 |]. intros c Hk He. eapply reached_more; eauto.
  - exact Hat.
  - intros Hb. destruct (Hio Hb) as [Hb' Hdata]. split; [done |]. exists y. rewrite <- Htot by done. unfold total. cbn. by rewrite Hdata, <- app_assoc.
Qed.

Lemma move_kept w w' : kept w -> move w w' -> kept w' /\ appends w w'.
Proof.
  intros Hk Hmove. pose proof Hk as [Hs Ha]. destruct Hmove.
  - apply asked_kept; [done |]. intros Hh. unfold async_handshake. destruct ready; cbn [negb].
    + by apply (fine_receive [] (handle_handshake_of h) (ask h w)).
    + by apply (fine_post [] (call_back h _ 0 []) (ask h w)).
  - apply asked_kept; [done |]. intros Hh. by apply (fine_do_read [] _ h (ask h w)).
  - apply asked_kept; [done |]. intros Hh. by apply (fine_shutdown [] h (ask h w)).
  - apply asked_kept; [done |]. intros Hh. apply (fine_write [] _ h (ask h w)); [done |]. rename H0 into Hmark. rewrite Hmark.
    destruct (flatten buffers) as [| b l] eqn:Hf; [done |]. f_equal. subst w'. rewrite total_pending. cbn [ask self wire].
    rewrite perform_self, len_app. unfold perform. destruct (perform_kept (async_write_some buffers h (self w)).2 (with_self (async_write_some buffers h (self w)).1 w)) as [-> _].
    cbn [with_self wire]. unfold async_write_some. rewrite Hf, write_pending; [| apply (sound_good _ _ Hs) | apply (sound_sending _ _ Hs) | done].
    rewrite (total_len (ask h w)). cbn [ask self wire]. lia.
  - by eapply gave_kept.
  - destruct (sound_agenda _ _ _ _ Hs H0) as [Hs' Ht]. rewrite app_nil_r in Hs'. pose proof (fine_task k (do_tasks l w) Hs' Ht) as Hf. split; [split |].
    + apply (fine_sound _ _ _ Hf).
    + destruct k; [eapply fine_attended; [exact Hf |]; intros Hne; destruct (Ha Hne) as [? | Hin]; [by left | right; rewrite H0 in Hin; by apply elem_of_cons in Hin as [? | ?]] .. |].
      cbn [run_task]. destruct (writing_ (self w)) eqn:Hw; cbn [negb andb]; [apply attended_perform; by left |].
      destruct (waiting_ (self w)) eqn:Hn; cbn [negb]; [apply attended_perform; by rewrite Hn |].
      destruct (write_next (self w)) as [s acts] eqn:Hnext. apply attended_perform. intros Hne. exfalso. apply Hne.
      pose proof Hnext as Hn'. unfold write_next in Hn'. cbn in Hn'. destruct (session_output _); by injection Hn' as <- <-.
    + apply (fine_appends _ _ _ Hf).
  - split; [split |].
    + by eapply sound_posted.
    + intros Hne. destruct (Ha Hne) as [? | Hin]; [by left |]. rewrite H0 in Hin. by apply elem_of_nil in Hin.
    + intros Hb. split; [done |]. exists []. by rewrite app_nil_r.
  - eapply received_kept; [done | done |]. eassumption.
  - pose proof (written_kept [] ec n l w Hs H0 H1) as Hsw. rewrite H2 in Hsw. unfold handle_write in H2. injection H2 as <- <-. split; [split |].
    + exact Hsw.
    + intros _. right. cbn. apply elem_of_app. right. by apply list_elem_of_singleton.
    + intros Hb. cbn in Hb. apply orb_false_iff in Hb as [Hb Hec]. split; [done |]. exists []. unfold total. cbn. rewrite Hec. by rewrite app_nil_r, <- app_assoc.
Qed.
Lemma moves_kept w w' : kept w -> rtc move w w' -> kept w' /\ appends w w'.
Proof.
  intros Hk Hr. induction Hr as [w | w v w' Hm Hr IH]; [split; [done |]; intros Hb; split; [done |]; exists []; by rewrite app_nil_r |].
  destruct (move_kept _ _ Hk Hm) as [Hkv Hv]. destruct (IH Hkv) as [Hk' Hw']. split; [done |].
  intros Hb. destruct (Hw' Hb) as [Hb' [y Hy]]. destruct (Hv Hb') as [Hb'' [x Hx]]. split; [done |]. exists (x ++ y). by rewrite Hy, Hx, app_assoc.
Qed.

Lemma initial_kept server : good server -> kept (initial server).
Proof.
  intros Hg. split; [| by intros Hb]. split; cbn; try done. all: intros Hb; split; cbn; constructor.
Qed.

(** C19: safety of the handlers of a tls stream.  However reads, writes,
    shutdowns and handshakes are asked for, between any tasks, and however the
    socket completes, every handler that was asked for was called once or is held
    once by what may still call it, and none is called that was not asked for.  When
    no task is left and the socket has no operation, every handler was called:
    none is stranded behind a write or a read. *)
Theorem tls_stream_keeps_handlers server w : good server -> rtc move (initial server) w ->
  called_handlers w ++ held w ≡ₚ asked w /\
  (agenda w = [] -> posted w = [] -> reading w = false -> writing w = None -> called_handlers w ≡ₚ asked w).
Proof.
  intros Hg Hr. destruct (moves_kept _ _ (initial_kept _ Hg) Hr) as [[Hs Ha] _].
  pose proof (sound_asked _ _ Hs) as Hac. rewrite app_nil_r in Hac. split; [done |]. intros Hno Hp Hrd Hw. rewrite <- Hac.
  unfold held. rewrite Hno, Hp, Hw. pose proof (sound_reading _ _ Hs) as Hr'. pose proof (sound_writing _ _ Hs) as Hw'. rewrite Hrd in Hr'. rewrite Hw in Hw'.
  destruct (receivers_ (self w)) eqn:Hrc; [| exfalso; pose proof (sound_receivers _ _ Hs) as Hx; rewrite Hrc in Hx; by specialize (Hx ltac:(done)); congruence].
  destruct (waiting_ (self w)) eqn:Hwt; [by rewrite app_nil_r |]. exfalso. unfold attended in Ha. rewrite Hwt, Hno in Ha.
  destruct (Ha ltac:(done)) as [? | Hin]; [congruence | by apply elem_of_nil in Hin].
Qed.

(** A write that succeeds was written.  The handler of a write is called with
    success only when the record of its data, and all that was output before it,
    is on the wire, unless a write of the socket failed before, even when other
    operations are asked for while the write is pending. *)
Theorem tls_write_on_wire server w h ec size data m : good server -> rtc move (initial server) w ->
  broken w = false -> (h, ec, size, data) ∈ called w -> failed ec = false -> mark h = Some m -> m <= len (wire w).
Proof.
  intros Hg Hr Hb Hc Hec Hm. destruct (moves_kept _ _ (initial_kept _ Hg) Hr) as [[Hs _] _].
  pose proof (marked_called _ (sound_marked _ _ Hs Hb)) as Hf. rewrite Forall_forall in Hf. exact (Hf _ Hc Hec m Hm).
Qed.
End worlds.

(** ** What the server produced

    A session that records, apart from the output that is taken from it, all
    that each of its calls added to that output.  The stream sees no more of it
    than of the session that it records. *)
Record recorded (S : Type) := record_of { recorded_session : S; produced : bytes }.
Arguments record_of {S} _ _.
Arguments recorded_session {S} _.
Arguments produced {S} _.

Section recorder.
Context {S H : Type} `{!TlsSession S} (good : S -> Prop) `{Laws : !TlsSessionLaws good}.

(** After a call: what is output that was not. *)
Definition record_call (x : S) (r : recorded S) : recorded S :=
  record_of x (produced r ++ zdrop (len (session_output (recorded_session r))) (session_output x)).

#[global] Instance recorder : TlsSession (recorded S) := {|
  session_receive data r := record_call (session_receive data (recorded_session r)) r;
  session_write data r := let '(x, ok) := session_write data (recorded_session r) in (record_call x r, ok);
  session_read size r := let '(x, data) := session_read size (recorded_session r) in (record_call x r, data);
  session_close r := record_call (session_close (recorded_session r)) r;
  session_output r := session_output (recorded_session r);
  session_take r := record_of (session_take (recorded_session r)) (produced r);
  session_readable r := session_readable (recorded_session r);
  session_established r := session_established (recorded_session r);
  session_closed r := session_closed (recorded_session r);
  session_failed r := session_failed (recorded_session r);
  session_failure r := session_failure (recorded_session r)
|}.

(** A record of a session that has output nothing but what it holds. *)
Definition recording (server : S) : recorded S := record_of server (session_output server).

Definition recorded_good (r : recorded S) : Prop := good (recorded_session r).

(** What a call of the session does to its output and to its record. *)
Definition adds (r r' : recorded S) : Prop :=
  recorded_good r' /\ exists x, session_output r' = session_output r ++ x /\ produced r' = produced r ++ x.

Lemma adds_call x r : good x -> (exists y, session_output x = session_output (recorded_session r) ++ y) -> adds r (record_call x r).
Proof. intros Hg [y Hy]. split; [done |]. exists y. split; [done |]. cbn. by rewrite Hy, zdrop_app_len. Qed.

Lemma adds_receive data r : recorded_good r -> adds r (session_receive data r).
Proof. intros Hg. destruct (receive_law (good := good) data (recorded_session r) Hg) as [Hx Hy]. by apply adds_call. Qed.

Lemma adds_write data r : recorded_good r -> adds r (session_write data r).1.
Proof. intros Hg. destruct (write_law (good := good) data (recorded_session r) Hg) as [Hx Hy]. cbn. destruct (session_write data (recorded_session r)) as [x ok]. by apply adds_call. Qed.

Lemma adds_read size r : recorded_good r -> adds r (session_read size r).1.
Proof.
  intros Hg. destruct (read_law (good := good) size (recorded_session r) Hg) as [Hx Hy]. cbn. destruct (session_read size (recorded_session r)) as [x data]. apply adds_call; [done |].
  exists []. by rewrite app_nil_r.
Qed.

Lemma adds_close r : recorded_good r -> adds r (session_close r).
Proof. intros Hg. destruct (close_law (good := good) (recorded_session r) Hg) as [Hx Hy]. by apply adds_call. Qed.

#[global] Instance recorder_laws : TlsSessionLaws recorded_good.
Proof.
  split; intros.
  - destruct (adds_receive data s) as (? & x & ? & _); [done |]. by eauto.
  - destruct (adds_write data s) as (? & x & ? & _); [done |]. by eauto.
  - split; [by apply adds_read |]. cbn. destruct (read_law size (recorded_session s)) as [_ Hy]; [done |]. by destruct (session_read size (recorded_session s)).
  - destruct (adds_close s) as (? & x & ? & _); [done |]. by eauto.
  - destruct (take_law (recorded_session s)) as [Hx Hy]; [done |]. by split.
Qed.

Notation t := (tls_stream.t (S := recorded S) (H := H)).
Implicit Types s : t.

(** The stream's part of the invariant: a step gives to what waits to be
    written what the server adds to its record. *)
Definition steady s : Prop := recorded_good (server_ s) /\ (writing_ s = false -> sending_ s = []).

Definition matches s s' : Prop :=
  steady s -> steady s' /\ forall before, produced (server_ s) = before ++ pending s -> produced (server_ s') = before ++ pending s'.

Lemma matches_refl s : matches s s.
Proof. by intros Hs. Qed.

Lemma matches_trans s1 s2 s3 : matches s1 s2 -> matches s2 s3 -> matches s1 s3.
Proof. intros H12 H23 Hs. destruct (H12 Hs) as [Hs2 Hp]. destruct (H23 Hs2) as [Hs3 Hp']. split; [done |]. intros before Hb. by apply Hp', Hp. Qed.

(** The lists of handlers are no part of it. *)
Lemma matches_same s s' : server_ s' = server_ s -> sending_ s' = sending_ s -> writing_ s' = writing_ s -> matches s s'.
Proof. intros H1 H2 H3 [Hg Hw]. unfold steady, pending. by rewrite H1, H2, H3. Qed.

Lemma matches_server x s : (recorded_good (server_ s) -> adds (server_ s) x) -> matches s (set_server x s).
Proof.
  intros Ha [Hg Hw]. destruct (Ha Hg) as (Hx & y & Ho & Hp). split; [by split |]. intros before Hb. unfold pending in *. cbn [server_ sending_ set_server].
  by rewrite Hp, Hb, Ho, <- !app_assoc.
Qed.

Lemma matches_write_next s : writing_ s = false -> matches s (write_next s).1.
Proof.
  intros Hno. unfold write_next. cbn [server_ set_waiting]. destruct (session_output (server_ s)) as [| b l] eqn:Ho; [by apply matches_same |].
  intros [Hg Hw]. destruct (take_law (server_ s) Hg) as [Hg' Ht]. split; [by split |]. intros before Hb. unfold pending in *. cbn [fst server_ sending_ set_server set_sending].
  rewrite Ht, app_nil_r. rewrite (Hw Hno), Ho in Hb. exact Hb.
Qed.

Lemma matches_flush k s : matches s (flush k s).1.
Proof.
  unfold flush. apply (matches_trans _ (set_waiting (waiting_ s ++ [k]) s)); [by apply matches_same |].
  destruct (writing_ (set_waiting _ s)) eqn:Hw; [apply matches_refl | by apply matches_write_next].
Qed.

Lemma matches_flush_all l s : matches s (flush_all l s).1.
Proof.
  revert s. induction l as [| k l IH]; intros s; cbn [flush_all]; [apply matches_refl |]. pose proof (matches_flush k s) as Hk. destruct (flush k s) as [s1 a].
  pose proof (IH s1) as Hl. destruct (flush_all l s1) as [s2 b]. by apply (matches_trans _ s1).
Qed.

Lemma matches_receive k s : matches s (receive k s).1.
Proof. unfold receive. destruct (receiving_ _); by apply matches_same. Qed.

Lemma matches_try_read size s : matches s (try_read size s).2.
Proof.
  unfold try_read. destruct (size =? 0); [apply matches_refl |]. destruct (negb _); [| repeat case_match; apply matches_refl].
  pose proof (adds_read size (server_ s)) as Ha. destruct (session_read size (server_ s)) as [x data]. by apply matches_server.
Qed.

Lemma matches_do_read size h s : matches s (do_read_some size h s).1.
Proof.
  unfold do_read_some. pose proof (matches_try_read size s) as Hr. destruct (try_read size s) as [[[ec data] |] s1]; [done |]. apply (matches_trans _ s1); [done | apply matches_receive].
Qed.

Lemma matches_write data h s : matches s (do_write_some data h s).1.
Proof.
  unfold do_write_some. destruct data as [| b l]; [apply matches_refl |]. set (d := ztake _ _). pose proof (adds_write d (server_ s)) as Ha.
  destruct (session_write d (server_ s)) as [x ok]. apply (matches_trans _ (set_server x s)); [by apply matches_server |]. destruct (negb ok); [apply matches_refl | apply matches_flush].
Qed.

Lemma matches_shutdown h s : matches s (async_shutdown h s).1.
Proof.
  unfold async_shutdown. destruct (session_failed _); [apply matches_refl |].
  apply (matches_trans _ (set_server (session_close (server_ s)) s)); [apply matches_server, adds_close | apply matches_flush].
Qed.

Lemma matches_task k s : matches s (run_task k s).1.
Proof.
  destruct k as [[h | size h | size h | h | h] ec | h ec size data |]; cbn [run_task]; unfold handle_handshake, handle_close_sent, handle_close_received;
    try (repeat case_match; apply matches_refl || apply matches_receive).
  - unfold handle_read_some. destruct (failed ec); [apply matches_refl |]. pose proof (matches_try_read size s) as Hr.
    destruct (try_read size s) as [[[e data] |] s1]; [done |]. apply (matches_trans _ s1); [done | apply matches_receive].
  - destruct (writing_ s) eqn:Hw; cbn [negb andb]; [apply matches_refl |]. destruct (negb _); [by apply matches_write_next | apply matches_refl].
Qed.

Lemma matches_received ec data s : matches s (handle_receive ec data s).1.1.
Proof.
  unfold handle_receive. set (s0 := set_receivers [] (set_receiving false s)). apply (matches_trans _ s0); [by apply matches_same |]. destruct (failed ec); [apply matches_refl |].
  apply (matches_trans _ (set_server (session_receive data (server_ s0)) s0)); [apply matches_server, adds_receive |].
  destruct (session_output _); [apply matches_refl |]. pose proof (matches_flush_all (receivers_ s) (set_server (session_receive data (server_ s0)) s0)) as Hf.
  change (receivers_ s0) with (@nil (handler (H := H))). by destruct (flush_all _ _).
Qed.

(** ** Worlds *)

Context (mark : H -> option Z).
Notation world := (world (S := recorded S) (H := H)).

(** While no write failed: what is on the wire, with what waits, is what the
    server produced. *)
Definition matched (w : world) : Prop :=
  steady (self w) /\ (broken w = false -> produced (server_ (self w)) = wire w ++ pending (self w)).

Lemma matched_perform r (w v : world) : matched w -> matches (self w) r.1 -> wire v = wire w -> broken v = broken w -> matched (perform r v).
Proof.
  intros [Hs Hp] Hm Hw Hb. destruct (Hm Hs) as [Hs' Hp']. unfold matched. rewrite perform_self. unfold perform. destruct (perform_kept r.2 (with_self r.1 v)) as [-> ->].
  cbn [with_self wire broken]. rewrite Hw, Hb. split; [done |]. intros Hx. by apply Hp', Hp.
Qed.

Lemma matched_gave l io n s data size ec (w : world) : matched w -> do_write l io (self w) = (s, data, size, ec) -> matched (gave data io n (with_self s w)).
Proof.
  intros [Hs Hp]. destruct (Hs) as [Hg Hi]. unfold do_write. destruct (writing_ (self w)) eqn:Hw.
  { intros [= <- <- <- <-]. split; [done |]. cbn. unfold ztake. rewrite take_nil, andb_false_r, orb_false_r. by destruct (failed io); rewrite app_nil_r. }
  destruct l as [| b l].
  { intros [= <- <- <- <-]. split; [done |]. cbn. unfold ztake. rewrite take_nil, andb_false_r, orb_false_r. by destruct (failed io); rewrite app_nil_r. }
  set (d := ztake _ _). pose proof (adds_write d (server_ (self w))) as Ha. destruct (session_write d (server_ (self w))) as [x ok].
  destruct (matches_server x (self w) Ha Hs) as [Hsx Hpx]. destruct ok; cbn [negb]; intros [= <- <- <- <-]; cbn [server_ set_server].
  - destruct (Ha Hg) as (Hgx & _). destruct (take_law x Hgx) as [Hgt Ht]. split; [split; [done | by intros _; apply Hi] |].
    intros Hb. cbn in Hb. apply orb_false_iff in Hb as [Hb Hf]. specialize (Hpx _ (Hp Hb)). unfold pending in *. cbn [self gave with_self wire server_ sending_ set_server] in *.
    rewrite (Hi eq_refl) in *. cbn [app] in *. change (session_output x) with (session_output (recorded_session x)) in *.
    assert ((if failed io then ztake n (session_output (recorded_session x)) else session_output (recorded_session x)) = session_output (recorded_session x)) as ->.
    { destruct (failed io); [| done]. destruct (session_output (recorded_session x)); [by unfold ztake; rewrite take_nil | done]. }
    cbn in Ht |- *. rewrite Ht, app_nil_r. exact Hpx.
  - split; [done |]. cbn. unfold ztake. rewrite take_nil, andb_false_r, orb_false_r. intros Hb. specialize (Hpx _ (Hp Hb)). cbn in Hpx. by destruct (failed io); rewrite app_nil_r.
Qed.

Lemma matched_move w w' : matched w -> move mark w w' -> matched w'.
Proof.
  intros Hm Hmove. assert (forall h v, matched v -> matched (ask h v)) as Hask by (by intros h v [? ?]).
  destruct Hmove as [w ready h _ | w buffers h _ | w h _ | w buffers h w' _ | w buffers io n s data size ec Hd | w k l _ | w l k r _ _ | w ec data s tasks acts _ _ Hr | w ec n l s tasks _ _ Hw].
  - apply Hask, (matched_perform _ w); try done. unfold async_handshake. destruct (negb ready); [apply matches_refl | apply matches_receive].
  - apply Hask, (matched_perform _ w); try done. apply matches_do_read.
  - apply Hask, (matched_perform _ w); try done. apply matches_shutdown.
  - apply Hask, (matched_perform _ w); try done. apply matches_write.
  - by apply (matched_gave _ _ _ _ _ _ _ _ Hm Hd).
  - apply (matched_perform _ w); try done. apply matches_task.
  - done.
  - apply (matched_perform _ w); try done. pose proof (matches_received ec data (self w)) as Hx. by rewrite Hr in Hx.
  - unfold handle_write in Hw. injection Hw as <- <-. destruct Hm as [[Hg Hi] Hp]. split; [by split |].
    intros Hb. cbn in Hb. apply orb_false_iff in Hb as [Hb Hec]. cbn. rewrite Hec. specialize (Hp Hb). unfold pending in *. cbn. by rewrite Hp, app_assoc.
Qed.

Lemma matched_moves w w' : matched w -> rtc (move mark) w w' -> matched w'.
Proof. intros Hm Hr. induction Hr as [| w v w' Hv _ IH]; [done |]. by apply IH, (matched_move w). Qed.

(** C18: safety of the output of a tls stream.  The records of the server go to
    the socket in the order in which the server produced them, each once.  Of a
    server whose productions are recorded apart from the output that is taken
    from it: as long as no write failed, what was written, with what is being
    written and what waits in the server, is all that it produced; so that what was
    written is a prefix of it, and both only grow at their ends, whether it was
    written by an asynchronous operation, by a blocking write, or for a read that
    answered. *)
Theorem tls_stream_output_in_order server w w' : good server -> rtc (move mark) (initial (recording server)) w -> rtc (move mark) w w' -> broken w' = false ->
  produced (server_ (self w')) = wire w' ++ sending_ (self w') ++ session_output (server_ (self w')) /\
  (exists x, produced (server_ (self w')) = produced (server_ (self w)) ++ x) /\ (exists z, produced (server_ (self w')) = wire w ++ z).
Proof.
  intros Hg Hr Hr' Hb. assert (matched (initial (recording server))) as Hi by (by split; [split |]).
  pose proof (matched_moves _ _ Hi Hr) as Hm. pose proof (matched_moves _ _ Hm Hr') as [_ Hp']. specialize (Hp' Hb).
  destruct (moves_kept recorded_good mark _ _ (initial_kept recorded_good mark (recording server) Hg) Hr) as [Hk _].
  destruct (moves_kept recorded_good mark _ _ Hk Hr') as [_ Ha]. destruct (Ha Hb) as [Hbw [x Hx]]. destruct Hm as [_ Hp]. specialize (Hp Hbw).
  split; [exact Hp' |]. change (wire w' ++ pending (self w')) with (total w') in Hp'. change (wire w ++ pending (self w)) with (total w) in Hp.
  rewrite Hp', Hp, Hx. split; [by exists x |]. rewrite total_pending, <- app_assoc. by eexists.
Qed.
End recorder.
End tls_stream_worlds.

(** ** The server *)

Module tls_stream_server.

Section server.
Context `{Digests, Aead, X509, Curves}.
Context (context_ : tls_context.t) (random_ secret_ : bytes) (now : Z).

(** The server of a stream, with its calls. *)
#[global] Instance session : TlsSession tls_connection.t := {|
  session_receive data s := (default (s, false) (tls_connection.receive context_ random_ secret_ now data s)).1;
  session_write := tls_connection.write;
  session_read := tls_connection.read;
  session_close := tls_connection.close;
  session_output s := tls_server.output_ (tls_connection.core_ (tls_connection.session_ s));
  session_take s := (tls_connection.take_output s).1;
  session_readable := tls_connection.readable;
  session_established s := tls_server.is_established (tls_connection.core_ (tls_connection.session_ s));
  session_closed := tls_connection.is_closed;
  session_failed s := tls_server.is_failed (tls_connection.core_ (tls_connection.session_ s));
  session_failure := tls_connection.failure
|}.
Context `{!record.AeadLaws} `{!tls_framing.CurveLaws}.
Hypothesis random_size : len random_ = 32.

Notation output s := (tls_server.output_ (tls_connection.core_ (tls_connection.session_ s))).

Definition follows (out o : bytes) : Prop := exists x, o = out ++ x.

Lemma follows_refl out : follows out out.
Proof. exists []. by rewrite app_nil_r. Qed.

Lemma follows_record out o r : follows out o -> tls_framing.fits r -> follows out (o ++ tls_framing.record_of r).
Proof. intros [x ->] _. exists (x ++ tls_framing.record_of r). by rewrite app_assoc. Qed.

(** The server of [TlsServer] is a session: it only adds records to its output. *)
Lemma server_laws : TlsSessionLaws (fun _ => True).
Proof.
  split; intros; (split; [done |]); cbn [session_output session_receive session_write session_read session_close session_take session].
  - destruct (tls_connection.receive context_ random_ secret_ now data s) as [[s' ok] |] eqn:Hr; [| apply follows_refl].
    eapply (tls_framing.receive_framed context_ random_ secret_ now random_size (follows (output s)) (follows_record _) data s s' ok); [apply follows_refl | exact Hr].
  - apply (tls_framing.write_framed random_ (follows (output s)) (follows_record _)), follows_refl.
  - done.
  - apply (tls_framing.close_framed random_ (follows (output s)) (follows_record _)), follows_refl.
  - done.
Qed.
End server.

(** ** An example *)

#[local] Existing Instances TlsRecord.example.digests TlsRecord.example.aead
  TlsRecord.example.digest_laws TlsRecord.example.aead_laws connection.x509.
#[local] Existing Instance tls_framing.sized_curves.
#[local] Existing Instance tls_framing.sized_curves_laws.

Import tls_stream tls_stream_worlds.

#[local] Instance example_session : TlsSession tls_connection.t :=
  session connection.context connection.random connection.secret 0.

#[local] Instance example_laws : TlsSessionLaws (fun _ : tls_connection.t => True).
Proof. refine (server_laws connection.context connection.random connection.secret 0 _). by vm_compute. Qed.

Definition example_start : world (H := Z) := initial connection.connected.

(** A write of a connection that is established, and its completion. *)
Definition example_asked : world (H := Z) := ask 7 (perform (async_write_some [[]; [1; 2]; [3]] 7 (self example_start)) example_start).

Definition example_mark (h : Z) : option Z := if h =? 7 then Some (len (total example_asked)) else None.

Definition example_written : world (H := Z) :=
  let '(s, tasks) := handle_write error.success [handle_write_of 3 7] (self example_asked) in
  do_tasks tasks (with_self s (written error.success 0 example_asked)).

Definition example_called : world (H := Z) :=
  perform (run_task (run (handle_write_of 3 7) error.success) (self example_written)) (do_tasks [after_write] example_written).

Lemma example_asks : rtc (move example_mark) example_start example_asked.
Proof. apply rtc_once. refine (asks_write example_mark example_start [[]; [1; 2]; [3]] 7 _). vm_compute. reflexivity. Qed.

Lemma example_calls : rtc (move example_mark) example_asked example_called.
Proof.
  apply (rtc_l _ _ example_written).
  - refine (completes_write example_mark example_asked error.success 0 [handle_write_of 3 7] _ _ _ _ eq_refl); by vm_compute.
  - apply rtc_once. refine (runs example_mark example_written (run (handle_write_of 3 7) error.success) [after_write] _). by vm_compute.
Qed.

Lemma tls_stream_keeps_handlers_witness : called_handlers example_called ++ held example_called ≡ₚ asked example_called /\
  (agenda example_called = [] -> posted example_called = [] -> reading example_called = false -> writing example_called = None ->
    called_handlers example_called ≡ₚ asked example_called).
Proof.
  apply (tls_stream_keeps_handlers (fun _ => True) example_mark connection.connected); [done |].
  transitivity example_asked; [exact example_asks | exact example_calls].
Defined.

(** The same, of the server that is recorded. *)
Definition recorded_start : world (S := recorded tls_connection.t) (H := Z) := initial (recording connection.connected).

Definition recorded_asked := ask 7 (perform (async_write_some [[]; [1; 2]; [3]] 7 (self recorded_start)) recorded_start).

Definition recorded_mark (h : Z) : option Z := if h =? 7 then Some (len (total recorded_asked)) else None.

(** The asynchronous write completes, and after it a blocking write is made. *)
Definition recorded_written :=
  let '(s, tasks) := handle_write error.success [handle_write_of 3 7] (self recorded_asked) in
  do_tasks tasks (with_self s (written error.success 0 recorded_asked)).

Definition recorded_gave :=
  let '(s, data, size, ec) := do_write (flatten [[4; 5]]) error.success (self recorded_written) in gave data error.success 2 (with_self s recorded_written).

Lemma recorded_asks : rtc (move recorded_mark) recorded_start recorded_asked.
Proof. apply rtc_once. refine (asks_write recorded_mark recorded_start [[]; [1; 2]; [3]] 7 _). vm_compute. reflexivity. Qed.

Lemma recorded_gives : rtc (move recorded_mark) recorded_asked recorded_gave.
Proof.
  apply (rtc_l _ _ recorded_written).
  - refine (completes_write recorded_mark recorded_asked error.success 0 [handle_write_of 3 7] _ _ _ _ eq_refl); by vm_compute.
  - apply rtc_once. unfold recorded_gave. destruct (do_write (flatten [[4; 5]]) error.success (self recorded_written)) as [[[s data] size] ec] eqn:Hd.
    by apply (writes recorded_mark recorded_written [[4; 5]] error.success 2 s data size ec).
Qed.

Lemma tls_stream_output_in_order_witness :
  let final := recorded_gave in
  produced (server_ (self final)) = wire final ++ sending_ (self final) ++ session_output (server_ (self final)) /\
  (exists x, produced (server_ (self final)) = produced (server_ (self recorded_asked)) ++ x) /\ (exists z, produced (server_ (self final)) = wire recorded_asked ++ z).
Proof.
  intros final. apply (tls_stream_output_in_order (fun _ => True) recorded_mark connection.connected);
    [done | exact recorded_asks | exact recorded_gives | by vm_compute].
Defined.

Lemma tls_write_on_wire_witness : len (total example_asked) <= len (wire example_called).
Proof.
  apply (tls_write_on_wire (fun _ => True) example_mark connection.connected example_called 7 error.success 3 []);
    [done | | by vm_compute | | done | done].
  - transitivity example_asked; [exact example_asks | exact example_calls].
  - replace (called example_called) with [(7, (error.success : code), 3, ([] : bytes))] by (by vm_compute). by apply list_elem_of_singleton.
Defined.
End tls_stream_server.
