(* ===== verification/IoStrand.v ===== *)
(** * IoStrand: executors and strands

    Models [strand_state] of [src/io/scheduler.cpp] and [executor] of
    [src/io/context.cpp], on which all that runs on one strand depends: the
    handlers of a strand run one at a time, in the order in which they were
    posted, whatever the threads of the context do.  Each section that a lock
    protects, and each post to the context, is one step of a thread; the steps of
    threads are interleaved in every order.  A thread is its stack: its
    handlers may post and dispatch between any two steps, so that runs nest. *)

From stdpp Require Import functions.
From S2P Require Import Prelude.

Module strand.

Section strand.
Context {H : Type}.

(** ** State *)

Record strand_state := mk_state { queue_ : list H; scheduled_ : bool }.

(** What the context runs: a handler, or the run of a strand. *)
Inductive job := run_strand (s : nat) | run_handler (h : H).

(** What threads share, with the order in which handlers were given to each
    strand and the order in which they began. *)
Record shared := mk_shared {
  jobs : list job; strands : nat -> strand_state; given : nat -> list H; began : nat -> list H }.

(** Where a thread is: in a handler, in [run] before its lock, in the loop of
    [run], in the handler of [dispatch], in [release] before its lock, and
    before the post that ends [post] and [release]. *)
Inductive frame :=
  | handling (h : H)
  | run_enter (s : nat)
  | run_batch (s : nat) (batch : list H)
  | dispatching (s : nat)
  | releasing (s : nat)
  | scheduling (s : nat).

Definition stack : Type := list frame.

Definition set_jobs (l : list job) (x : shared) : shared := mk_shared l (strands x) (given x) (began x).
Definition set_strand (s : nat) (st : strand_state) (x : shared) : shared := mk_shared (jobs x) (<[s := st]> (strands x)) (given x) (began x).
Definition give (s : nat) (h : H) (x : shared) : shared := mk_shared (jobs x) (strands x) (<[s := given x s ++ [h]]> (given x)) (began x).
Definition begin (s : nat) (h : H) (x : shared) : shared := mk_shared (jobs x) (strands x) (given x) (<[s := began x s ++ [h]]> (began x)).

(** [running_strand]: that of the scope opened last. *)
Fixpoint running_strand (k : stack) : option nat :=
  match k with
  | [] => None
  | (run_enter s | run_batch s _ | dispatching s) :: _ => Some s
  | (handling _ | releasing _ | scheduling _) :: k => running_strand k
  end.

(** ** Operations

    Each gives what is shared, and the frames that the thread enters. *)

Definition context_post (j : job) (x : shared) : shared := set_jobs (jobs x ++ [j]) x.

Definition push_back (s : nat) (h : H) (x : shared) : shared :=
  give s h (set_strand s (mk_state (queue_ (strands x s) ++ [h]) (scheduled_ (strands x s))) x).

Definition set_scheduled (s : nat) (b : bool) (x : shared) : shared := set_strand s (mk_state (queue_ (strands x s)) b) x.

(** [strand_state::post]. *)
Definition post (s : nat) (h : H) (x : shared) : shared * stack :=
  let x := push_back s h x in
  if scheduled_ (strands x s) then (x, []) else (set_scheduled s true x, [scheduling s]).

(** [strand_state::dispatch]. *)
Definition dispatch (in_context : bool) (s : nat) (h : H) (x : shared) : shared * stack :=
  if negb in_context then post s h x else
  if scheduled_ (strands x s) then (push_back s h x, []) else
  (begin s h (give s h (set_scheduled s true x)), [handling h; dispatching s]).

(** [strand_state::run]: the batch is what is queued when the run starts. *)
Definition take_batch (s : nat) (x : shared) : shared * stack :=
  (set_strand s (mk_state [] (scheduled_ (strands x s))) x, [run_batch s (queue_ (strands x s))]).

(** [strand_state::release]. *)
Definition release (s : nat) (x : shared) : shared * stack :=
  match queue_ (strands x s) with
  | [] => (set_scheduled s false x, [])
  | _ => (x, [scheduling s])
  end.

(** An executor is of the context, or of a strand of it. *)
Definition executor : Type := option nat.

Definition executor_running (in_context : bool) (k : stack) (e : executor) : bool :=
  match e with Some s => bool_decide (running_strand k = Some s) | None => in_context end.

Definition executor_post (e : executor) (h : H) (x : shared) : shared * stack :=
  match e with Some s => post s h x | None => (context_post (run_handler h) x, []) end.

Definition executor_dispatch (in_context : bool) (k : stack) (e : executor) (h : H) (x : shared) : shared * stack :=
  if executor_running in_context k e then (x, [handling h]) else
  match e with Some s => dispatch in_context s h x | None => (context_post (run_handler h) x, []) end.

(** The job that a thread of the context runs. *)
Definition enter (j : job) : frame := match j with run_strand s => run_enter s | run_handler h => handling h end.

(** A frame that is in the code of the strand makes its next step. *)
Definition advance (f : frame) (x : shared) : shared * stack :=
  match f with
  | handling h => (x, [])
  | run_enter s => take_batch s x
  | run_batch s [] => (x, [releasing s])
  | run_batch s (h :: batch) => (begin s h x, [handling h; run_batch s batch])
  | dispatching s => (x, [releasing s])
  | releasing s => release s x
  | scheduling s => (context_post (run_strand s) x, [])
  end.

(** ** Threads *)

Record thread := mk_thread { in_context : bool; frames : stack }.

(** The caller's code runs: in a handler, or on a thread of its own. *)
Definition calling (t : thread) : bool :=
  match frames t with handling _ :: _ => true | [] => negb (in_context t) | _ => false end.

Definition push (r : shared * stack) (t : thread) (k : stack) : shared * thread := (r.1, mk_thread (in_context t) (r.2 ++ k)).

Inductive thread_step : shared -> thread -> shared * thread -> Prop :=
  | posts x t e h : calling t = true -> thread_step x t (push (executor_post e h x) t (frames t))
  | dispatches x t e h : calling t = true -> thread_step x t (push (executor_dispatch (in_context t) (frames t) e h x) t (frames t))
  | advances x t f k : frames t = f :: k -> thread_step x t (push (advance f x) t k)
  | takes x t l j r : in_context t = true -> frames t = [] -> jobs x = l ++ j :: r ->
      thread_step x t (push (set_jobs (l ++ r) x, [enter j]) t []).

Record world := mk_world { common : shared; threads : list thread }.

Inductive move : world -> world -> Prop :=
  | moves x l t r x' t' : thread_step x t (x', t') -> move (mk_world x (l ++ t :: r)) (mk_world x' (l ++ t' :: r)).

Definition initial_shared : shared := mk_shared [] (fun _ => mk_state [] false) (fun _ => []) (fun _ => []).
Definition initial (contexts : list bool) : world := mk_world initial_shared (map (fun b => mk_thread b []) contexts).

(** ** Tokens

    A strand that is scheduled is held once: by a frame, or by a job. *)

Definition frame_holds (s : nat) (f : frame) : bool :=
  match f with
  | handling _ => false
  | run_enter s' | run_batch s' _ | dispatching s' | releasing s' | scheduling s' => bool_decide (s = s')
  end.

Definition job_holds (s : nat) (j : job) : bool := match j with run_strand s' => bool_decide (s = s') | run_handler _ => false end.

Definition bit (b : bool) : nat := if b then 1 else 0.

Definition frames_held (s : nat) (k : stack) : nat := sum_list (map (fun f => bit (frame_holds s f)) k).
Definition jobs_held (s : nat) (l : list job) : nat := sum_list (map (fun j => bit (job_holds s j)) l).

Definition batch_of (s : nat) (f : frame) : list H :=
  match f with run_batch s' batch => if bool_decide (s = s') then batch else [] | _ => [] end.

Definition batches (s : nat) (k : stack) : list H := concat (map (batch_of s) k).

(** The frames of all threads. *)
Definition all_frames (l : list thread) : stack := concat (map frames l).

Record sound (w : world) : Prop := {
  sound_token s : (frames_held s (all_frames (threads w)) + jobs_held s (jobs (common w)))%nat = bit (scheduled_ (strands (common w) s));
  sound_idle s : scheduled_ (strands (common w) s) = false -> queue_ (strands (common w) s) = [];
  sound_order s : given (common w) s = began (common w) s ++ batches s (all_frames (threads w)) ++ queue_ (strands (common w) s)
}.

Lemma frames_held_app s a b : frames_held s (a ++ b) = (frames_held s a + frames_held s b)%nat.
Proof. unfold frames_held. by rewrite map_app, sum_list_app. Qed.

Lemma jobs_held_app s a b : jobs_held s (a ++ b) = (jobs_held s a + jobs_held s b)%nat.
Proof. unfold jobs_held. by rewrite map_app, sum_list_app. Qed.

Lemma batches_app s a b : batches s (a ++ b) = batches s a ++ batches s b.
Proof. unfold batches. by rewrite map_app, concat_app. Qed.

Lemma batches_none s k : frames_held s k = 0%nat -> batches s k = [].
Proof.
  induction k as [| f k IH]; [done |]. unfold frames_held, batches in *. cbn. intros Hk. rewrite IH by lia. rewrite app_nil_r.
  destruct f; cbn in *; try done. case_bool_decide; [cbn in Hk; lia | done].
Qed.

(** A step of a thread from the frames [old] to the frames of [r], as one strand
    sees it. *)
Definition preserves (x : shared) (old : stack) (r : shared * stack) : Prop := forall s,
  (frames_held s old <> 0%nat -> scheduled_ (strands x s) = true) ->
  (frames_held s r.2 + jobs_held s (jobs r.1) + bit (scheduled_ (strands x s)) =
    frames_held s old + jobs_held s (jobs x) + bit (scheduled_ (strands r.1 s)))%nat /\
  ((scheduled_ (strands x s) = false -> queue_ (strands x s) = []) -> scheduled_ (strands r.1 s) = false -> queue_ (strands r.1 s) = []) /\
  (forall a b, (frames_held s old <> 0%nat \/ scheduled_ (strands x s) = false -> a = [] /\ b = []) ->
    (scheduled_ (strands x s) = false -> queue_ (strands x s) = []) ->
    given x s = began x s ++ (a ++ batches s old ++ b) ++ queue_ (strands x s) ->
    given r.1 s = began r.1 s ++ (a ++ batches s r.2 ++ b) ++ queue_ (strands r.1 s)).

(** What an operation does to one strand [s'], seen from a strand [s]. *)
Ltac at_strand s s' :=
  cbn [jobs strands given began queue_ scheduled_ fst snd] in *;
  destruct (decide (s' = s)) as [-> |];
    rewrite ?fn_lookup_insert in *; rewrite ?fn_lookup_insert_ne in * by done;
    cbn [jobs strands given began queue_ scheduled_ fst snd] in *; rewrite ?fn_lookup_insert in *; rewrite ?fn_lookup_insert_ne in * by done;
    cbn [jobs strands given began queue_ scheduled_ fst snd] in *.

Lemma frame_holds_refl (s : nat) : bool_decide (s = s) = true.
Proof. by case_bool_decide. Qed.

Lemma frame_holds_ne (s s' : nat) : s' <> s -> bool_decide (s = s') = false.
Proof. intros Hn. by case_bool_decide; [congruence |]. Qed.

Lemma preserves_same x old : preserves x old (x, old).
Proof. intros s _. by split_and!. Qed.

Ltac preserve s' s :=
  at_strand s' s; unfold frames_held, jobs_held, batches; cbn; rewrite ?map_app, ?sum_list_app; cbn;
  rewrite ?frame_holds_refl, ?frame_holds_ne by done; cbn; split_and!; try done; try lia; try congruence.

Lemma preserves_post s h x : preserves x [] (post s h x).
Proof.
  intros s' Hheld. unfold post, push_back, set_scheduled, set_strand, give. cbn [strands]. rewrite fn_lookup_insert. cbn [scheduled_ queue_].
  destruct (scheduled_ (strands x s)) eqn:Hs; preserve s' s; try (rewrite Hs; cbn; lia).
  all: intros a b _ _ ->; by rewrite <- !app_assoc.
Qed.

Lemma preserves_dispatch c s h x : preserves x [] (dispatch c s h x).
Proof.
  unfold dispatch. destruct c; cbn [negb]; [| apply preserves_post].
  intros s' Hheld. unfold push_back, set_scheduled, set_strand, give, begin.
  destruct (scheduled_ (strands x s)) eqn:Hs; preserve s' s; try (rewrite Hs; cbn; lia).
  - intros a b _ _ ->. by rewrite <- !app_assoc.
  - intros a b Hab Hq Hg. destruct (Hab (or_intror Hs)) as [-> ->]. rewrite Hg, (Hq Hs). by rewrite !app_nil_r.
Qed.

Lemma preserves_take s x : preserves x [run_enter s] (take_batch s x).
Proof.
  intros s' Hheld. unfold take_batch, set_strand. preserve s' s.
  intros a b Hab _ ->. destruct Hab as [-> ->]; [left; lia |]. by rewrite !app_nil_r.
Qed.

Lemma preserves_release s x : preserves x [releasing s] (release s x).
Proof.
  intros s' Hheld. unfold release, set_scheduled, set_strand.
  assert (s' = s -> scheduled_ (strands x s') = true) as Hsch by (intros ->; apply Hheld; unfold frames_held; cbn; by rewrite frame_holds_refl).
  destruct (queue_ (strands x s)) eqn:Hq; preserve s' s. rewrite Hsch by done. cbn. lia.
Qed.

Lemma preserves_advance f x : preserves x [f] (advance f x).
Proof.
  destruct f as [h | s | s [| h batch] | s | s | s]; cbn [advance].
  - intros s Hheld. by split_and!.
  - apply preserves_take.
  - intros s' Hheld. preserve s' s.
  - intros s' Hheld. unfold begin. preserve s' s. intros a b Hab _ ->. destruct Hab as [-> ->]; [left; lia |]. cbn. rewrite ?app_nil_r, <- ?app_assoc. done.
  - intros s' Hheld. preserve s' s.
  - apply preserves_release.
  - intros s' Hheld. unfold context_post, set_jobs. preserve s' s.
Qed.

Lemma preserves_executor_post e h x : preserves x [] (executor_post e h x).
Proof.
  destruct e as [s |]; [apply preserves_post |]. intros s Hheld. unfold executor_post, context_post, set_jobs.
  cbn. unfold jobs_held. rewrite map_app, sum_list_app. cbn. split_and!; [lia | done | done].
Qed.

Lemma preserves_executor_dispatch c k e h x : preserves x [] (executor_dispatch c k e h x).
Proof.
  unfold executor_dispatch. destruct (executor_running c k e); [intros s Hheld; by split_and! |].
  destruct e as [s |]; [apply preserves_dispatch | apply (preserves_executor_post None)].
Qed.

Lemma preserves_takes l j r x : jobs x = l ++ j :: r -> preserves x [] (set_jobs (l ++ r) x, [enter j]).
Proof.
  intros Hj s Hheld. cbn. rewrite Hj. unfold jobs_held. rewrite !map_app, !sum_list_app. cbn.
  destruct j; cbn; unfold frames_held; cbn; split_and!; try done; lia.
Qed.

(** ** Every interleaving *)

Lemma all_frames_app a b : all_frames (a ++ b) = all_frames a ++ all_frames b.
Proof. unfold all_frames. by rewrite map_app, concat_app. Qed.

Lemma preserves_sound x x' l c k old new r : sound (mk_world x (l ++ mk_thread c (old ++ k) :: r)) -> preserves x old (x', new) ->
  sound (mk_world x' (l ++ mk_thread c (new ++ k) :: r)).
Proof.
  intros [Ht Hi Ho] Hp. cbn [common threads] in *.
  assert (forall s b, frames_held s (all_frames (l ++ mk_thread c (b ++ k) :: r)) =
    (frames_held s b + (frames_held s (all_frames l) + frames_held s k + frames_held s (all_frames r)))%nat) as Hf.
  { intros s b. rewrite all_frames_app, frames_held_app. change (all_frames (mk_thread c (b ++ k) :: r)) with ((b ++ k) ++ all_frames r).
    rewrite !frames_held_app. lia. }
  assert (forall s b, batches s (all_frames (l ++ mk_thread c (b ++ k) :: r)) =
    batches s (all_frames l) ++ batches s b ++ (batches s k ++ batches s (all_frames r))) as Hb.
  { intros s b. rewrite all_frames_app, batches_app. change (all_frames (mk_thread c (b ++ k) :: r)) with ((b ++ k) ++ all_frames r).
    by rewrite !batches_app, !app_assoc. }
  assert (forall s, frames_held s old <> 0%nat -> scheduled_ (strands x s) = true) as Hheld.
  { intros s Hne. specialize (Ht s). rewrite Hf in Ht. destruct (scheduled_ (strands x s)); [done | cbn in Ht; lia]. }
  split; cbn [common threads]; intros s; destruct (Hp s (Hheld s)) as [Hp1 [Hp2 Hp3]]; cbn [fst snd] in *; specialize (Ht s); rewrite Hf in Ht.
  - rewrite Hf. lia.
  - intros Hs. apply Hp2; [apply Hi | done].
  - rewrite Hb. apply Hp3; [| apply Hi | by rewrite <- Hb].
    intros Hone. assert (frames_held s (all_frames l) + frames_held s k + frames_held s (all_frames r) = 0)%nat as Hz.
    { destruct (scheduled_ (strands x s)); cbn in Ht; destruct Hone; try done; lia. }
    rewrite !batches_none by lia. done.
Qed.

Lemma strand_move_sound w w' : sound w -> move w w' -> sound w'.
Proof.
  intros Hs Hm. destruct Hm as [x l t r x' t' Ht]. inversion Ht; subst; destruct t as [c k0]; cbn [frames in_context] in *; unfold push in *; subst; cbn [fst snd] in *.
  - eapply (preserves_sound x _ l c k0 []); [exact Hs |]. cbn. rewrite <- surjective_pairing. apply preserves_executor_post.
  - eapply (preserves_sound x _ l c k0 []); [exact Hs |]. cbn. rewrite <- surjective_pairing. apply preserves_executor_dispatch.
  - eapply (preserves_sound x _ l c k [f]); [exact Hs |]. cbn. rewrite <- surjective_pairing. apply preserves_advance.
  - apply (preserves_sound x _ l true [] [] [enter j] r Hs). by apply preserves_takes.
Qed.

Lemma strand_initial_sound contexts : sound (initial contexts).
Proof.
  assert (all_frames (map (fun b => mk_thread b []) contexts) = []) as Hf by (induction contexts; [done | by rewrite map_cons]).
  split; intros s; cbn [initial common threads initial_shared strands queue_ scheduled_ jobs given began]; rewrite ?Hf; done.
Qed.

Lemma strand_reachable_sound contexts w : rtc move (initial contexts) w -> sound w.
Proof.
  assert (sound (initial contexts)) as Hs by apply strand_initial_sound. revert Hs. intros Hs Hr. induction Hr as [| v v' v'' Hm _ IH]; [done |].
  by apply IH, (strand_move_sound v).
Qed.

Lemma held_lookup s l i t : l !! i = Some t -> (frames_held s (frames t) <= frames_held s (all_frames l))%nat.
Proof.
  intros Hi. apply take_drop_middle in Hi as <-. rewrite all_frames_app. change (all_frames (t :: ?r)) with (frames t ++ all_frames r).
  rewrite !frames_held_app. lia.
Qed.

Lemma held_two s l i j t u : l !! i = Some t -> l !! j = Some u -> i <> j ->
  (frames_held s (frames t) + frames_held s (frames u) <= frames_held s (all_frames l))%nat.
Proof.
  revert i j. induction l as [| v l IH]; intros i j; [done |]. change (all_frames (v :: l)) with (frames v ++ all_frames l). rewrite frames_held_app.
  destruct i as [| i], j as [| j]; cbn; intros Hi Hj Hne; [done | | |].
  - injection Hi as ->. pose proof (held_lookup s l j u Hj). lia.
  - injection Hj as ->. pose proof (held_lookup s l i t Hi). lia.
  - specialize (IH i j Hi Hj ltac:(lia)). lia.
Qed.

Lemma running_held s k : running_strand k = Some s -> (1 <= frames_held s k)%nat.
Proof.
  induction k as [| f k IH]; [done |]. unfold frames_held in *. cbn.
  destruct f; cbn [running_strand]; try (intros Hr%IH; lia); intros [= ->]; cbn; rewrite frame_holds_refl; cbn; lia.
Qed.

(** The frames of a stack that run the handlers of a strand. *)
Definition scope_of (s : nat) (f : frame) : bool :=
  match f with run_enter s' | run_batch s' _ | dispatching s' => bool_decide (s = s') | _ => false end.

Lemma scopes_held s k : (sum_list (map (fun f => bit (scope_of s f)) k) <= frames_held s k)%nat.
Proof.
  induction k as [| f k IH]; [done |]. unfold frames_held in *. cbn.
  destruct f; cbn; try lia; case_bool_decide; cbn; lia.
Qed.

(** C20: exclusion of strands.  However the threads of a context and others post
    and dispatch to strands, and however their steps interleave, no two
    threads run the handlers of one strand at the same time, and a thread does not
    enter a strand that it is already in, although handlers nest. *)
Theorem strand_exclusive contexts w s i j t u : rtc move (initial contexts) w ->
  threads w !! i = Some t -> threads w !! j = Some u ->
  running_strand (frames t) = Some s -> running_strand (frames u) = Some s ->
  i = j /\ (sum_list (map (fun f => bit (scope_of s f)) (frames t)) <= 1)%nat.
Proof.
  intros Hr%strand_reachable_sound Hi Hj Ht%running_held Hu%running_held.
  pose proof (sound_token _ Hr s) as Htok. assert (bit (scheduled_ (strands (common w) s)) <= 1)%nat by (destruct (scheduled_ _); cbn; lia).
  destruct (decide (i = j)) as [-> | Hne]; [| pose proof (held_two s _ i j t u Hi Hj Hne); lia].
  split; [done |]. pose proof (scopes_held s (frames t)). pose proof (held_lookup s _ j t Hi). lia.
Qed.

Lemma sum_bits {A} (f : A -> bool) l : sum_list (map (fun a => bit (f a)) l) <> 0%nat -> exists a, a ∈ l /\ f a = true.
Proof.
  induction l as [| a l IH]; [done |]. cbn. destruct (f a) eqn:Ha; [intros _; exists a; split; [left | done] |].
  intros Hl. destruct (IH Hl) as (b & Hb & Hf). exists b. split; [by right | done].
Qed.

(** Order of strands.  The handlers of a strand begin in the order in which they
    were given to it, each once, whatever threads gave them; what has not begun
    is in the batch of the thread that runs the strand, or in its queue; while
    any is, a thread or a job holds the strand, so that none is stranded; and when
    the context has no job and no thread is in a handler, all have begun. *)
Theorem strand_in_order contexts w s : rtc move (initial contexts) w ->
  given (common w) s = began (common w) s ++ batches s (all_frames (threads w)) ++ queue_ (strands (common w) s) /\
  (given (common w) s <> began (common w) s -> run_strand s ∈ jobs (common w) \/ exists t f, t ∈ threads w /\ f ∈ frames t /\ frame_holds s f = true) /\
  (jobs (common w) = [] -> Forall (fun t => frames t = []) (threads w) -> given (common w) s = began (common w) s).
Proof.
  intros Hr%strand_reachable_sound. pose proof (sound_order _ Hr s) as Ho. split; [done |].
  assert (given (common w) s <> began (common w) s -> (frames_held s (all_frames (threads w)) + jobs_held s (jobs (common w)) <> 0)%nat) as Hheld.
  { intros Hne Hz. pose proof (sound_token _ Hr s) as Ht. apply Hne. rewrite Ho, batches_none by lia.
    destruct (scheduled_ (strands (common w) s)) eqn:Hs; [cbn in Ht; lia |]. rewrite (sound_idle _ Hr s Hs). by rewrite app_nil_r. }
  split.
  - intros Hne. specialize (Hheld Hne). destruct (decide (jobs_held s (jobs (common w)) = 0)%nat) as [Hj | Hj].
    + right. destruct (sum_bits (frame_holds s) (all_frames (threads w))) as (f & Hf & Hh); [unfold frames_held in *; lia |].
      unfold all_frames in Hf. rewrite list_elem_of_In, in_concat in Hf. destruct Hf as (k & Hk & Hf). apply list_elem_of_In, list_elem_of_fmap in Hk as (t & -> & Ht).
      exists t, f. split_and!; [done | by apply list_elem_of_In | done].
    + left. destruct (sum_bits (job_holds s) _ Hj) as ([s' |] & Hin & Hh); cbn in Hh; [| done]. case_bool_decide; [by subst | done].
  - intros Hj Hf. destruct (decide (frames_held s (all_frames (threads w)) + jobs_held s (jobs (common w)) = 0)%nat) as [Hz | Hz].
    + pose proof (sound_token _ Hr s) as Ht. rewrite Ho, batches_none by lia. destruct (scheduled_ _) eqn:Hs; [cbn in Ht; lia |].
      rewrite (sound_idle _ Hr s Hs). by rewrite app_nil_r.
    + exfalso. apply Hz. rewrite Hj. clear -Hf. induction (threads w) as [| t l IH]; [done |]. apply Forall_cons in Hf as [Ht Hf].
      change (all_frames (t :: l)) with (frames t ++ all_frames l). rewrite frames_held_app, Ht. specialize (IH Hf). cbn in *. lia.
Qed.
End strand.

(** ** An example

    A thread of the context, and one that posts two handlers to a strand; the
    first is running. *)

Definition example_steps : list (world (H := nat)) :=
  let w0 := initial [true; false] in
  let p1 := post 3 7%nat (common w0) in
  let x2 := (advance (scheduling 3) p1.1).1 in
  let p3 := post 3 8%nat x2 in
  let x4 := set_jobs [] p3.1 in
  let p5 := advance (run_enter 3) x4 in
  let p6 := advance (run_batch 3 [7; 8]%nat) p5.1 in
  [mk_world p1.1 [mk_thread true []; mk_thread false p1.2];
   mk_world x2 [mk_thread true []; mk_thread false []];
   mk_world p3.1 [mk_thread true []; mk_thread false p3.2];
   mk_world x4 [mk_thread true [run_enter 3]; mk_thread false []];
   mk_world p5.1 [mk_thread true p5.2; mk_thread false []];
   mk_world p6.1 [mk_thread true p6.2; mk_thread false []]].

Definition example_world : world (H := nat) := default (initial []) (last example_steps).

Lemma strand_example_reached : rtc move (initial [true; false]) example_world.
Proof.
  apply (rtc_l _ _ (nth 0 example_steps example_world)).
  { refine (moves _ [mk_thread true []] (mk_thread false []) [] _ _ _). exact (posts _ (mk_thread false []) (Some 3%nat) 7%nat eq_refl). }
  apply (rtc_l _ _ (nth 1 example_steps example_world)).
  { refine (moves _ [mk_thread true []] (mk_thread false [scheduling 3]) [] _ _ _). exact (advances _ (mk_thread false [scheduling 3]) _ [] eq_refl). }
  apply (rtc_l _ _ (nth 2 example_steps example_world)).
  { refine (moves _ [mk_thread true []] (mk_thread false []) [] _ _ _). exact (posts _ (mk_thread false []) (Some 3%nat) 8%nat eq_refl). }
  apply (rtc_l _ _ (nth 3 example_steps example_world)).
  { refine (moves _ [] (mk_thread true []) [mk_thread false []] _ _ _). exact (takes (common (nth 2 example_steps example_world)) (mk_thread true []) [] (run_strand 3) [] eq_refl eq_refl eq_refl). }
  apply (rtc_l _ _ (nth 4 example_steps example_world)).
  { refine (moves _ [] (mk_thread true [run_enter 3]) [mk_thread false []] _ _ _). exact (advances _ (mk_thread true [run_enter 3]) _ [] eq_refl). }
  apply rtc_once.
  refine (moves _ [] (mk_thread true [run_batch 3 [7; 8]%nat]) [mk_thread false []] _ _ _). exact (advances _ (mk_thread true [run_batch 3 [7; 8]%nat]) _ [] eq_refl).
Qed.

Lemma strand_exclusive_witness : 0%nat = 0%nat /\
  (sum_list (map (fun f => bit (scope_of 3 f)) [handling 7%nat; run_batch 3 [8]%nat]) <= 1)%nat.
Proof.
  apply (strand_exclusive [true; false] example_world 3 0 0 (mk_thread true [handling 7%nat; run_batch 3 [8]%nat]) (mk_thread true [handling 7%nat; run_batch 3 [8]%nat]));
    [exact strand_example_reached | reflexivity ..].
Defined.

Lemma strand_in_order_witness :
  given (common example_world) 3 = began (common example_world) 3 ++ batches 3 (all_frames (threads example_world)) ++ queue_ (strands (common example_world) 3) /\
  (given (common example_world) 3 <> began (common example_world) 3 ->
    run_strand 3 ∈ jobs (common example_world) \/ exists t f, t ∈ threads example_world /\ f ∈ frames t /\ frame_holds 3 f = true) /\
  (jobs (common example_world) = [] -> Forall (fun t => frames t = []) (threads example_world) -> given (common example_world) 3 = began (common example_world) 3).
Proof. apply (strand_in_order [true; false]). exact strand_example_reached. Defined.
End strand.
