(* ===== verification/IoScheduler.v ===== *)
(** * IoScheduler: the threads of a context

    Models the run queue of [src/io/scheduler.cpp] with the wait and the posts of
    [src/io/backend_posix.cpp] (its epoll branch): the count of work, the
    handlers that are posted, the units of the event that wakes threads, and the
    stop that returns them.  Each atomic access and each locked section is a step of
    a thread, and the steps of threads interleave in every order.  The operations of
    sockets and the waiters of timers are work that is pending. *)

From S2P Require Import Prelude.

Module scheduler.

Section scheduler.
Context {H : Type}.

(** What threads share: [outstanding_], [stopped_], [signaled_], the [posted_]
    handlers and the units of the interrupter, with the operations that are
    pending and the work guards.  Handlers that were submitted and that ran, and
    interrupts that no wait has returned, are recorded. *)
Record shared := mk_shared {
  outstanding_ : nat; stopped_ : bool; signaled_ : bool; posted_ : list H; units : nat;
  operations : list H; guards : nat; interrupts : nat; submitted : list H; ran : list H }.

Definition set_outstanding (n : nat) (x : shared) : shared :=
  mk_shared n (stopped_ x) (signaled_ x) (posted_ x) (units x) (operations x) (guards x) (interrupts x) (submitted x) (ran x).
Definition set_stopped (b : bool) (x : shared) : shared :=
  mk_shared (outstanding_ x) b (signaled_ x) (posted_ x) (units x) (operations x) (guards x) (interrupts x) (submitted x) (ran x).
Definition set_signaled (b : bool) (x : shared) : shared :=
  mk_shared (outstanding_ x) (stopped_ x) b (posted_ x) (units x) (operations x) (guards x) (interrupts x) (submitted x) (ran x).
Definition set_posted (l : list H) (x : shared) : shared :=
  mk_shared (outstanding_ x) (stopped_ x) (signaled_ x) l (units x) (operations x) (guards x) (interrupts x) (submitted x) (ran x).
Definition set_units (n : nat) (x : shared) : shared :=
  mk_shared (outstanding_ x) (stopped_ x) (signaled_ x) (posted_ x) n (operations x) (guards x) (interrupts x) (submitted x) (ran x).
Definition set_operations (l : list H) (x : shared) : shared :=
  mk_shared (outstanding_ x) (stopped_ x) (signaled_ x) (posted_ x) (units x) l (guards x) (interrupts x) (submitted x) (ran x).
Definition set_guards (n : nat) (x : shared) : shared :=
  mk_shared (outstanding_ x) (stopped_ x) (signaled_ x) (posted_ x) (units x) (operations x) n (interrupts x) (submitted x) (ran x).
Definition set_interrupts (n : nat) (x : shared) : shared :=
  mk_shared (outstanding_ x) (stopped_ x) (signaled_ x) (posted_ x) (units x) (operations x) (guards x) n (submitted x) (ran x).
Definition submit (h : H) (x : shared) : shared :=
  mk_shared (outstanding_ x) (stopped_ x) (signaled_ x) (posted_ x) (units x) (operations x) (guards x) (interrupts x) (submitted x ++ [h]) (ran x).
Definition record_run (h : H) (x : shared) : shared :=
  mk_shared (outstanding_ x) (stopped_ x) (signaled_ x) (posted_ x) (units x) (operations x) (guards x) (interrupts x) (submitted x) (ran x ++ [h]).

(** ** Threads *)

(** A call that a thread is in: [backend::post] before its lock and before its
    interrupt; [stop] before the store, before the exchange, and before the interrupt. *)
Inductive call := pushing (h : H) | waking | storing | signaling | interrupting.

(** Where a thread is in [run]: at the test of the loop, in the wait, in its
    events (the interrupter read or not), before the lock of a unit that was read,
    after the wait, in the loop over completions, in a completion, and before
    [work_finished]. *)
Inductive place :=
  | outside
  | checking
  | waiting
  | collecting (interrupted read : bool) (out : list H)
  | unit_read (interrupted : bool) (out : list H)
  | returned (interrupted : bool) (out : list H)
  | looping (out : list H)
  | invoking (h : H) (out : list H)
  | finishing (out : list H).

Record thread := mk_thread { at_place : place; in_call : option call }.

(** ** Operations

    Each gives what is shared and the call that follows. *)

Definition result : Type := shared * option call.

Definition start_post (h : H) (x : shared) : result := (submit h (set_outstanding (S (outstanding_ x)) x), Some (pushing h)).

(** An operation is started, and completed by [complete]. *)
Definition start_operation (h : H) (x : shared) : result :=
  (submit h (set_operations (operations x ++ [h]) (set_outstanding (S (outstanding_ x)) x)), None).

Definition complete (l r : list H) (h : H) (x : shared) : result := (set_operations (l ++ r) x, Some (pushing h)).

Definition work_started (x : shared) : result := (set_guards (S (guards x)) (set_outstanding (S (outstanding_ x)) x), None).

(** [work_finished]: stop when no work is left. *)
Definition work_finished (x : shared) : result :=
  let n := pred (outstanding_ x) in (set_outstanding n x, if (n =? 0)%nat then Some storing else None).

Definition reset_guard (x : shared) : result := work_finished (set_guards (pred (guards x)) x).

Definition restart (x : shared) : result := (set_stopped false x, None).

(** A call makes its next step. *)
Definition call_step (c : call) (x : shared) : result :=
  match c with
  | pushing h => (set_posted (posted_ x ++ [h]) x, Some waking)
  | waking => (set_units (S (units x)) x, None)
  | storing => (set_stopped true x, Some signaling)
  | signaling => (set_signaled true x, if signaled_ x then None else Some interrupting)
  | interrupting => (set_interrupts (S (interrupts x)) (set_units (S (units x)) x), None)
  end.

(** [run] makes its next step, where it does not depend on the kernel. *)
Definition run_step (p : place) (x : shared) : shared * thread :=
  match p with
  | outside => if (outstanding_ x =? 0)%nat then (x, mk_thread outside (Some storing)) else (x, mk_thread checking None)
  | checking => if stopped_ x then (x, mk_thread outside (Some signaling)) else (x, mk_thread waiting None)
  | waiting => (x, mk_thread (collecting false false []) None)
  | collecting interrupted read out => (x, mk_thread (returned interrupted out) None)
  | unit_read interrupted out =>
    match posted_ x with
    | [] => (set_interrupts (pred (interrupts x)) x, mk_thread (collecting true true out) None)
    | h :: posted => (set_posted posted x, mk_thread (collecting interrupted true (out ++ [h])) None)
    end
  | returned interrupted out => ((if interrupted then set_signaled false x else x), mk_thread (looping out) None)
  | looping [] => (x, mk_thread checking None)
  | looping (h :: out) => (record_run h x, mk_thread (invoking h out) None)
  | invoking h out => (x, mk_thread (finishing out) None)
  | finishing out => let '(x, c) := work_finished x in (x, mk_thread (looping out) c)
  end.

(** The interrupter is ready in a wait: its read fails if another thread took the unit. *)
Definition read_unit (interrupted : bool) (out : list H) (x : shared) : shared * thread :=
  match units x with
  | O => (x, mk_thread (collecting interrupted true out) None)
  | S n => (set_units n x, mk_thread (unit_read interrupted out) None)
  end.

(** The code of handlers, and of threads that are not in [run]. *)
Definition calling (p : place) : bool := match p with outside | invoking _ _ => true | _ => false end.

Definition with_place (p : place) (r : result) : shared * thread := (r.1, mk_thread p r.2).

Inductive thread_step : shared -> thread -> shared * thread -> Prop :=
  | calls_post x p h : calling p = true -> thread_step x (mk_thread p None) (with_place p (start_post h x))
  | calls_stop x p : calling p = true -> thread_step x (mk_thread p None) (x, mk_thread p (Some storing))
  | calls_restart x p : calling p = true -> thread_step x (mk_thread p None) (with_place p (restart x))
  | calls_operation x p h : calling p = true -> thread_step x (mk_thread p None) (with_place p (start_operation h x))
  | calls_complete x p l h r : calling p = true -> operations x = l ++ h :: r ->
      thread_step x (mk_thread p None) (with_place p (complete l r h x))
  | calls_guard x p : calling p = true -> thread_step x (mk_thread p None) (with_place p (work_started x))
  | calls_reset x p : calling p = true -> (0 < guards x)%nat -> thread_step x (mk_thread p None) (with_place p (reset_guard x))
  | in_the_call x p c : thread_step x (mk_thread p (Some c)) (with_place p (call_step c x))
  | in_the_run x p : thread_step x (mk_thread p None) (run_step p x)
  | unit_ready x i out : thread_step x (mk_thread (collecting i false out) None) (read_unit i out x)
  | operation_ready x i read out l h r : operations x = l ++ h :: r ->
      thread_step x (mk_thread (collecting i read out) None) (set_operations (l ++ r) x, mk_thread (collecting i read (out ++ [h])) None).

Record world := mk_world { common : shared; threads : list thread }.

Inductive move : world -> world -> Prop :=
  | moves x l t r x' t' : thread_step x t (x', t') -> move (mk_world x (l ++ t :: r)) (mk_world x' (l ++ t' :: r)).

Definition initial_shared : shared := mk_shared 0 false false [] 0 [] 0 0 [] [].
Definition initial (n : nat) : world := mk_world initial_shared (replicate n (mk_thread outside None)).

(** ** Accounts *)

(** The handlers that a thread holds, not run, and that one that runs. *)
Definition held (t : thread) : list H :=
  (match in_call t with Some (pushing h) => [h] | _ => [] end) ++
  (match at_place t with
   | collecting _ _ out | unit_read _ out | returned _ out | looping out | invoking _ out | finishing out => out
   | _ => []
   end).

Definition bit (b : bool) : nat := if b then 1 else 0.

(** A completion that is not counted as finished. *)
Definition unfinished (t : thread) : nat := match at_place t with invoking _ _ | finishing _ => 1 | _ => 0 end.

(** A unit that was read and whose lock is not taken, or that is to be written
    for a handler that was pushed. *)
Definition in_transit (t : thread) : nat :=
  (match at_place t with unit_read _ _ => 1 | _ => 0 end) + (match in_call t with Some waking => 1 | _ => 0 end).

(** A stop interrupt that is to be written, or that was returned and not cleared. *)
Definition interrupt_held (t : thread) : nat :=
  (match in_call t with Some interrupting => 1 | _ => 0 end) +
  (match at_place t with collecting true _ _ | unit_read true _ | returned true _ => 1 | _ => 0 end).

(** A thread that, while the context is stopped, will signal. *)
Definition will_signal (t : thread) : nat :=
  match in_call t with
  | Some signaling => 1
  | _ => match at_place t with outside | waiting => 0 | _ => 1 end
  end.

Definition total (f : thread -> nat) (l : list thread) : nat := sum_list (map f l).
Definition all_held (l : list thread) : list H := concat (map held l).

(** A collection that has an interrupt has read its unit. *)
Definition place_ok (t : thread) : Prop :=
  match at_place t with unit_read i _ => i = false | collecting true read _ => read = true | _ => True end.

Record sound (w : world) : Prop := {
  sound_units : (units (common w) + total in_transit (threads w) = length (posted_ (common w)) + interrupts (common w))%nat;
  sound_signal : bit (signaled_ (common w)) = (interrupts (common w) + total interrupt_held (threads w))%nat;
  sound_stop : stopped_ (common w) = true -> signaled_ (common w) = true \/ (0 < total will_signal (threads w))%nat;
  sound_work : outstanding_ (common w) = (length (posted_ (common w)) + length (all_held (threads w)) + total unfinished (threads w) +
    length (operations (common w)) + guards (common w))%nat;
  sound_handlers : ran (common w) ++ all_held (threads w) ++ posted_ (common w) ++ operations (common w) ≡ₚ submitted (common w);
  sound_places : Forall place_ok (threads w)
}.

(** A step of a thread, with the counts that it needs to be at least its own. *)
Record enough (x : shared) (t : thread) : Prop := {
  enough_units : (in_transit t <= length (posted_ x) + interrupts x)%nat;
  enough_signal : (interrupt_held t <= bit (signaled_ x))%nat;
  enough_work : (length (posted_ x) + length (held t) + unfinished t + length (operations x) + guards x <= outstanding_ x)%nat;
  enough_place : place_ok t
}.

Record preserves (x : shared) (t : thread) (r : shared * thread) : Prop := {
  preserves_units : (units r.1 + in_transit r.2 + length (posted_ x) + interrupts x = units x + in_transit t + length (posted_ r.1) + interrupts r.1)%nat;
  preserves_signal : (bit (signaled_ r.1) + interrupts x + interrupt_held t = bit (signaled_ x) + interrupts r.1 + interrupt_held r.2)%nat;
  preserves_stop n : (stopped_ x = true -> signaled_ x = true \/ 0 < n + will_signal t)%nat ->
    (stopped_ r.1 = true -> signaled_ r.1 = true \/ 0 < n + will_signal r.2)%nat;
  preserves_work : (outstanding_ r.1 + length (posted_ x) + length (held t) + unfinished t + length (operations x) + guards x =
    outstanding_ x + length (posted_ r.1) + length (held r.2) + unfinished r.2 + length (operations r.1) + guards r.1)%nat;
  preserves_handlers rest : ran x ++ (held t ++ rest) ++ posted_ x ++ operations x ≡ₚ submitted x ->
    ran r.1 ++ (held r.2 ++ rest) ++ posted_ r.1 ++ operations r.1 ≡ₚ submitted r.1;
  preserves_place : place_ok r.2
}.

Ltac accounts := unfold in_transit, interrupt_held, will_signal, unfinished, held, place_ok in *; cbn [at_place in_call fst snd with_place] in *; cbn in *.

Lemma calls_preserve x p r : calling p = true -> enough x (mk_thread p None) ->
  (stopped_ r.1 = true -> stopped_ x = true) -> signaled_ r.1 = signaled_ x -> r.2 <> Some interrupting -> r.2 <> Some waking ->
  units r.1 = units x -> interrupts r.1 = interrupts x -> posted_ r.1 = posted_ x ->
  (outstanding_ r.1 + length (operations x) + guards x = outstanding_ x + length (operations r.1) + guards r.1 +
    match r.2 with Some (pushing _) => 1 | _ => 0 end)%nat ->
  (forall rest, ran x ++ rest ++ posted_ x ++ operations x ≡ₚ submitted x ->
    ran r.1 ++ (match r.2 with Some (pushing h) => [h] | _ => [] end ++ rest) ++ posted_ r.1 ++ operations r.1 ≡ₚ submitted r.1) ->
  preserves x (mk_thread p None) (with_place p r).
Proof.
  intros Hp Hen Hst Hsg Hi Hw Hu Hin Hpo Hwork Hh. destruct r as [x' c]. cbn [fst snd] in *. split; cbn [with_place fst snd].
  - rewrite Hu, Hpo, Hin. destruct c as [[] |]; accounts; try done; lia.
  - rewrite Hsg, Hin. destruct c as [[] |]; accounts; try done; lia.
  - intros n Hn Hs'. rewrite Hsg. destruct (Hn (Hst Hs')) as [? | Hlt]; [by left | right]. destruct c as [[] |]; accounts; lia.
  - rewrite Hpo. destruct c as [[] |]; accounts; rewrite ?length_app; cbn; lia.
  - intros rest Hr. specialize (Hh ((match p with invoking _ out => out | _ => [] end) ++ rest)).
    destruct p; try done; accounts; destruct c as [[] |]; cbn in *; try (by apply Hh);
      rewrite <- ?app_comm_cons, ?app_assoc in *; cbn in *; by apply Hh.
  - by destruct p.
Qed.

Lemma call_preserves x p c : enough x (mk_thread p (Some c)) -> preserves x (mk_thread p (Some c)) (with_place p (call_step c x)).
Proof.
  intros [Hu Hg Hw Hp]. destruct c as [h | | | |]; [| | | destruct (signaled_ x) eqn:Hsig |]; (split; [.. | exact Hp]); accounts;
    rewrite ?length_app, ?Hsig; cbn; try lia; try done.
  intros rest Hr. etransitivity; [| exact Hr]. solve_Permutation.
Qed.

Lemma run_preserves x p : enough x (mk_thread p None) -> preserves x (mk_thread p None) (run_step p x).
Proof.
  intros [Hu Hg Hw Hp]. destruct p as [| | | i read out | i out | i out | [| h out] | h out | out]; unfold run_step, work_finished.
  - destruct (outstanding_ x =? 0)%nat; split; accounts; try lia; try done; intros n Hn Hst; (destruct (Hn Hst); [by left | right; lia]).
  - destruct (stopped_ x) eqn:Hst; split; accounts; try lia; try done; try congruence; try (intros n Hn Hst'; right; lia).
  - split; accounts; try lia; try done; try (intros n Hn Hst; right; lia).
  - split; accounts; try lia; try done; destruct i; try lia; try done. all: try (intros n Hn Hst; right; lia).
  - destruct (posted_ x) as [| h l] eqn:Hpo; split; accounts; rewrite ?Hpo in *; cbn in *; try lia; try done; subst i; try lia; try (intros n Hn Hst; right; lia).
    all: try (rewrite ?length_app; cbn; lia).
    all: try (intros rest Hr; etransitivity; [| exact Hr]; solve_Permutation).
  - destruct i; split; accounts; try lia; try done; try (intros n Hn Hst; right; lia). destruct (signaled_ x); cbn in *; lia.
  - split; accounts; try lia; try done; try (intros n Hn Hst; right; lia).
  - split; accounts; try lia; try done; try (intros n Hn Hst; right; lia); try (intros rest Hr; etransitivity; [| exact Hr]; solve_Permutation).
  - split; accounts; try lia; try done; try (intros n Hn Hst; right; lia).
  - destruct (pred (outstanding_ x) =? 0)%nat; split; accounts; try lia; try done; try (intros n Hn Hst; right; lia).
Qed.

Lemma step_preserves x t r : enough x t -> thread_step x t r -> preserves x t r.
Proof.
  intros He Hs. destruct Hs as [x p h Hp | x p Hp | x p Hp | x p h Hp | x p l h r Hp Ho | x p Hp | x p Hp Hgu | x p c | x p | x i out | x i read out l h r Ho].
  - apply calls_preserve; try done; cbn; [lia |]. intros rest <-. solve_Permutation.
  - apply (calls_preserve x p (x, Some storing)); try done; cbn; lia.
  - apply calls_preserve; try done; cbn; lia.
  - apply calls_preserve; try done; cbn; [rewrite length_app; cbn; lia |]. intros rest <-. solve_Permutation.
  - apply calls_preserve; try done; cbn; rewrite Ho; [rewrite !length_app; cbn; lia |]. intros rest <-. solve_Permutation.
  - apply calls_preserve; try done; cbn; lia.
  - pose proof (enough_work _ _ He) as Hw. unfold reset_guard, work_finished. cbn.
    apply (calls_preserve x p (set_outstanding _ (set_guards _ x), _)); try done; cbn; destruct (_ =? 0)%nat; try done; lia.
  - by apply call_preserves.
  - by apply run_preserves.
  - destruct He as [Hu Hg Hw Hp]. unfold read_unit. destruct i; [accounts; congruence |].
    destruct (units x) eqn:Hun; split; accounts; rewrite ?Hun in *; try lia; try done; try (intros n Hn Hst; right; lia).
  - destruct He as [Hu Hg Hw Hp]. split; accounts; rewrite ?Ho, ?length_app; cbn; rewrite ?length_app; cbn; try lia; try done; try (intros n Hn Hst; right; lia).
    intros rest Hr. etransitivity; [| exact Hr]. solve_Permutation.
Qed.

(** ** Every interleaving *)

Lemma total_middle f l t r : total f (l ++ t :: r) = (total f (l ++ r) + f t)%nat.
Proof. unfold total. rewrite !map_app, !sum_list_app. cbn. lia. Qed.

Lemma all_held_middle l t r : all_held (l ++ t :: r) ≡ₚ held t ++ all_held (l ++ r).
Proof. unfold all_held. rewrite !map_app, !concat_app. cbn. solve_Permutation. Qed.

Lemma sound_enough x l t r : sound (mk_world x (l ++ t :: r)) -> enough x t.
Proof.
  intros [Hu Hg _ Hw _ Hp]. cbn [common threads] in *. rewrite ?total_middle in *. rewrite all_held_middle, length_app in Hw.
  split; [lia | lia | lia |]. apply Forall_app in Hp as [_ Hp]. by apply Forall_cons in Hp as [Hp _].
Qed.

Lemma scheduler_move_sound w w' : sound w -> move w w' -> sound w'.
Proof.
  intros Hs Hm. destruct Hm as [x l t r x' t' Ht]. pose proof (sound_enough _ _ _ _ Hs) as He.
  destruct (step_preserves _ _ _ He Ht) as [P1 P2 P3 P4 P5 P6]. cbn [fst snd] in *.
  destruct Hs as [Hu Hg Hst Hw Hh Hp]. cbn [common threads] in *. rewrite !total_middle in *. rewrite all_held_middle in Hw, Hh. rewrite length_app in Hw.
  split; cbn [common threads]; rewrite ?total_middle, ?all_held_middle, ?length_app; try lia.
  - intros H'. apply P3; [| done]. intros Hs'. apply Hst, Hs'.
  - by apply P5.
  - apply Forall_app in Hp as [Hl Hr]. apply Forall_cons in Hr as [_ Hr]. apply Forall_app. split; [done |]. by apply Forall_cons.
Qed.

Lemma total_zero f l : (forall t, t ∈ l -> f t = 0%nat) -> total f l = 0%nat.
Proof.
  intros Hf. induction l as [| t l IH]; [done |]. unfold total in *. cbn. rewrite (Hf t) by left. rewrite IH; [done |]. intros u Hu. apply Hf. by right.
Qed.

Lemma scheduler_initial_sound n : sound (initial n).
Proof.
  assert (forall t, t ∈ threads (initial n) -> t = mk_thread outside None) as Ht by (intros t Hin; by apply elem_of_replicate_inv in Hin).
  assert (all_held (threads (initial n)) = []) as Hh by (unfold all_held; cbn; clear; induction n as [| n IH]; [done | exact IH]).
  split; rewrite ?total_zero, ?Hh by (intros t ->%Ht; done); cbn; try done.
  apply List.Forall_forall. intros t Hin%list_elem_of_In%Ht. by subst.
Qed.

Lemma scheduler_reachable_sound n w : rtc move (initial n) w -> sound w.
Proof.
  assert (sound (initial n)) as Hs by apply scheduler_initial_sound. revert Hs. intros Hs Hr. induction Hr as [| v v' v'' Hm _ IH]; [done |].
  by apply IH, (scheduler_move_sound v).
Qed.

(** A thread that is in the wait, or that is not in [run] or in a call. *)
Definition blocked (t : thread) : Prop := in_call t = None /\ (at_place t = waiting \/ at_place t = outside).

(** C22: no wake-up is lost.  However the threads of a context and others post,
    complete operations, stop and restart, and however their steps interleave, when all
    threads are in the wait or outside, the event that wakes a wait has a
    unit for each handler that is posted; and when the context is stopped it has one
    more, so that every thread in the wait is returned, one after another. *)
Theorem scheduler_wakes n w : rtc move (initial n) w -> Forall blocked (threads w) ->
  (length (posted_ (common w)) <= units (common w))%nat /\
  (stopped_ (common w) = true -> (length (posted_ (common w)) < units (common w))%nat).
Proof.
  intros Hr%scheduler_reachable_sound Hb. rewrite Forall_forall in Hb.
  assert (total in_transit (threads w) = 0 /\ total interrupt_held (threads w) = 0 /\ total will_signal (threads w) = 0)%nat as (Ht & Hi & Hw).
  { split_and!; apply total_zero; intros t Hin; destruct (Hb t Hin) as [Hc Hp]; unfold in_transit, interrupt_held, will_signal; rewrite Hc; by destruct Hp as [-> | ->]. }
  pose proof (sound_units _ Hr) as Hu. pose proof (sound_signal _ Hr) as Hs. rewrite Ht in Hu. rewrite Hi in Hs. split; [lia |].
  intros Hst. destruct (sound_stop _ Hr Hst) as [Hsig | Hpos]; [rewrite Hsig in Hs; cbn in Hs; lia | lia].
Qed.

(** Work of a context.  Every handler that was posted, and every operation that
    was started, runs once or is held once, by a thread, the posted handlers or
    the operations that are pending; the count of work is that of those that have
    not finished and of the guards, so that the context does not stop for
    lack of work before all have run. *)
Theorem scheduler_runs_each n w : rtc move (initial n) w ->
  ran (common w) ++ all_held (threads w) ++ posted_ (common w) ++ operations (common w) ≡ₚ submitted (common w) /\
  outstanding_ (common w) = (length (submitted (common w)) - length (ran (common w)) + total unfinished (threads w) + guards (common w))%nat /\
  (outstanding_ (common w) = 0%nat -> ran (common w) ≡ₚ submitted (common w)).
Proof.
  intros Hr%scheduler_reachable_sound. pose proof (sound_handlers _ Hr) as Hh. pose proof (sound_work _ Hr) as Hw. split; [done |].
  pose proof (Permutation_length Hh) as Hl. rewrite !length_app in Hl. split; [lia |]. intros Hz. rewrite <- Hh.
  assert (all_held (threads w) = [] /\ posted_ (common w) = [] /\ operations (common w) = []) as (-> & -> & ->).
  { split_and!; apply nil_length_inv; lia. }
  by rewrite !app_nil_r.
Qed.
End scheduler.

(** ** An example

    A thread in the wait, held by a guard, and another that stops the context. *)

Definition example_shared (stopped signaled : bool) (n : nat) : shared (H := nat) := mk_shared 1 stopped signaled [] n [] 1 n [] [].

Definition example_world : world (H := nat) := mk_world (example_shared true true 1) [mk_thread waiting None; mk_thread outside None].

Lemma scheduler_example_reached : rtc move (initial 2) example_world.
Proof.
  pose (idle := mk_thread (H := nat) outside None). pose (waits := mk_thread (H := nat) waiting None).
  apply (rtc_l _ _ (mk_world (example_shared false false 0) [idle; idle])).
  { refine (moves _ [] idle [idle] _ _ _). exact (calls_guard initial_shared outside eq_refl). }
  apply (rtc_l _ _ (mk_world (example_shared false false 0) [mk_thread checking None; idle])).
  { refine (moves _ [] idle [idle] _ _ _). exact (in_the_run (example_shared false false 0) outside). }
  apply (rtc_l _ _ (mk_world (example_shared false false 0) [waits; idle])).
  { refine (moves _ [] (mk_thread checking None) [idle] _ _ _). exact (in_the_run (example_shared false false 0) checking). }
  apply (rtc_l _ _ (mk_world (example_shared false false 0) [waits; mk_thread outside (Some storing)])).
  { refine (moves _ [waits] idle [] _ _ _). exact (calls_stop (example_shared false false 0) outside eq_refl). }
  apply (rtc_l _ _ (mk_world (example_shared true false 0) [waits; mk_thread outside (Some signaling)])).
  { refine (moves _ [waits] (mk_thread outside (Some storing)) [] _ _ _). exact (in_the_call (example_shared false false 0) outside storing). }
  apply (rtc_l _ _ (mk_world (example_shared true true 0) [waits; mk_thread outside (Some interrupting)])).
  { refine (moves _ [waits] (mk_thread outside (Some signaling)) [] _ _ _). exact (in_the_call (example_shared true false 0) outside signaling). }
  apply rtc_once. refine (moves _ [waits] (mk_thread outside (Some interrupting)) [] _ _ _).
  exact (in_the_call (example_shared true true 0) outside interrupting).
Qed.

Lemma scheduler_wakes_witness : (0 <= 1)%nat /\ (true = true -> (0 < 1)%nat).
Proof.
  apply (scheduler_wakes 2 example_world); [exact scheduler_example_reached |].
  apply List.Forall_cons; [split; [reflexivity | left; reflexivity] |]. apply List.Forall_cons; [split; [reflexivity | right; reflexivity] |]. apply List.Forall_nil.
Defined.

Lemma scheduler_runs_each_witness : ran (common example_world) ++ all_held (threads example_world) ++ posted_ (common example_world) ++ operations (common example_world)
    ≡ₚ submitted (common example_world) /\
  outstanding_ (common example_world) =
    (length (submitted (common example_world)) - length (ran (common example_world)) + total unfinished (threads example_world) + guards (common example_world))%nat /\
  (outstanding_ (common example_world) = 0%nat -> ran (common example_world) ≡ₚ submitted (common example_world)).
Proof. apply (scheduler_runs_each 2). exact scheduler_example_reached. Defined.
End scheduler.
