(* ===== verification/IoTimers.v ===== *)
(** * IoTimers: timers and deadlines

    Models the timers of [src/io/scheduler.cpp], with the thread that expires
    them, [src/io/steady_timer.cpp] and [src/net/deadline.cpp].  Each operation is a
    section that the mutex of the scheduler protects; the steps of the timer
    thread and of the callers interleave in every order as time passes.  The
    multimap of timers is a list in the order of its keys. *)

From stdpp Require Import functions.
From S2P Require Import Prelude.
From S2P Require Import Errors.

Module timers.

Section timers.
Context {H : Type}.

(** A waiter, with the expiry for which it waits. *)
Definition waiter : Type := H * Z.

Record timer_state := mk_timer { expiry : Z; waiters : list waiter; queued : bool }.

(** The timer thread: not started, before its first lock, in a wait until a
    time (without end where no timer is queued), or awake. *)
Inductive sleeper := not_started | starting | asleep (until : option Z) | awake.

Definition notify (x : sleeper) : sleeper := match x with asleep _ => awake | x => x end.

(** [timers_], the state of each timer, and the timer thread. *)
Record t := mk { timers_ : list (Z * nat); states : nat -> timer_state; thread_ : sleeper }.

(** A completion: the waiter and its code. *)
Definition completion : Type := waiter * code.

Definition make : t := mk [] (fun _ => mk_timer 0 [] false) not_started.

Definition set_timers (l : list (Z * nat)) (s : t) : t := mk l (states s) (thread_ s).
Definition set_state (n : nat) (x : timer_state) (s : t) : t := mk (timers_ s) (<[n := x]> (states s)) (thread_ s).
Definition set_thread (x : sleeper) (s : t) : t := mk (timers_ s) (states s) x.

(** [multimap::emplace]: after the entries of the same key. *)
Fixpoint emplace (e : Z) (n : nat) (l : list (Z * nat)) : list (Z * nat) :=
  match l with
  | [] => [(e, n)]
  | (k, m) :: l' => if e <? k then (e, n) :: l else (k, m) :: emplace e n l'
  end.

(** The first entry of the range of the key that is the timer. *)
Fixpoint erase (e : Z) (n : nat) (l : list (Z * nat)) : list (Z * nat) :=
  match l with
  | [] => []
  | (k, m) :: l' => if (k =? e) && (m =? n)%nat then l' else (k, m) :: erase e n l'
  end.

Definition is_first (e : Z) (l : list (Z * nat)) : bool := match l with [] => true | (k, _) :: _ => e <? k end.

(** ** Operations *)

Definition wait_timer (n : nat) (h : H) (s : t) : t :=
  let x := states s n in
  let waiting := waiters x ++ [(h, expiry x)] in
  if queued x then set_state n (mk_timer (expiry x) waiting true) s else
  let first := is_first (expiry x) (timers_ s) in
  let s := set_timers (emplace (expiry x) n (timers_ s)) (set_state n (mk_timer (expiry x) waiting true) s) in
  match thread_ s with
  | not_started => set_thread starting s
  | x => if first then set_thread (notify x) s else s
  end.

Definition unqueue_timer (n : nat) (s : t) : t :=
  let x := states s n in
  if negb (queued x) then s else
  set_state n (mk_timer (expiry x) (waiters x) false) (set_timers (erase (expiry x) n (timers_ s)) s).

Definition canceled (l : list waiter) : list completion := map (fun w => (w, error.operation_canceled : code)) l.

Definition cancel_timer (n : nat) (s : t) : t * list completion * nat :=
  let s := unqueue_timer n s in
  let x := states s n in
  (set_state n (mk_timer (expiry x) [] (queued x)) s, canceled (waiters x), length (waiters x)).

Definition expire_timer (n : nat) (e : Z) (s : t) : t * list completion * nat :=
  let s := unqueue_timer n s in
  let x := states s n in
  (set_state n (mk_timer e [] (queued x)) s, canceled (waiters x), length (waiters x)).

(** The body of the loop of [expire_timers], which erases one entry. *)
Fixpoint expire_loop (now : Z) (l : list (Z * nat)) (s : t) : t * list completion :=
  match l with
  | [] => (set_timers [] s, [])
  | (k, n) :: rest =>
    if k <=? now then
      let x := states s n in
      let '(s, done) := expire_loop now rest (set_state n (mk_timer (expiry x) [] false) s) in
      (s, map (fun w => (w, error.success : code)) (waiters x) ++ done)
    else (set_timers l s, [])
  end.

Definition expire_timers (now : Z) (s : t) : t * list completion := expire_loop now (timers_ s) s.

(** [run_timers]: to the first wait, and from a wait that returned to the next. *)
Definition next_wait (s : t) : sleeper := asleep (match timers_ s with [] => None | (k, _) :: _ => Some k end).

Definition start_timers (s : t) : t := set_thread (next_wait s) s.

Definition run_timers (now : Z) (s : t) : t * list completion :=
  let '(s, done) := expire_timers now s in (set_thread (next_wait s) s, done).

(** ** Steady timers and deadlines *)

Definition expires_after (n : nat) (now span : Z) (s : t) : t * list completion * nat := expire_timer n (now + span) s.

Definition deadline_start (n : nat) (now timeout : Z) (h : H) (s : t) : t * list completion :=
  let '(s, first, _) := cancel_timer n s in
  let '(s, second, _) := expires_after n now timeout s in
  (wait_timer n h s, first ++ second).

Definition deadline_stop (n : nat) (s : t) : t * list completion := let '(s, done, _) := cancel_timer n s in (s, done).

(** ** Worlds

    The time, the timers, the waiters that waited and those that completed, each
    with the time. *)

Record world := mk_world { now : Z; self : t; waited : list waiter; completed : list (completion * Z) }.

Definition complete (r : t * list completion) (w : world) : world :=
  mk_world (now w) r.1 (waited w) (completed w ++ map (fun c => (c, now w)) r.2).

Inductive move : world -> world -> Prop :=
  | passes w d : 0 <= d -> move w (mk_world (now w + d) (self w) (waited w) (completed w))
  | waits w n h : move w (mk_world (now w) (wait_timer n h (self w)) (waited w ++ [(h, expiry (states (self w) n))]) (completed w))
  | cancels w n : move w (complete (cancel_timer n (self w)).1 w)
  | expires w n e : move w (complete (expire_timer n e (self w)).1 w)
  | starts w : thread_ (self w) = starting -> move w (mk_world (now w) (start_timers (self w)) (waited w) (completed w))
  | wakes w : move w (mk_world (now w) (set_thread (notify (thread_ (self w))) (self w)) (waited w) (completed w))
  | runs w : thread_ (self w) = awake -> move w (complete (run_timers (now w) (self w)) w).

Definition initial (time : Z) : world := mk_world time make [] [].

(** ** Invariant *)

Definition bound (l : list (Z * nat)) (k : Z) : Prop := Forall (fun x => k <= x.1) l.

Fixpoint sorted (l : list (Z * nat)) : Prop := match l with [] => True | (k, _) :: l => bound l k /\ sorted l end.

(** The queue holds each timer that is queued, once and at its expiry; only a
    timer that is queued has waiters, and they wait for its expiry; the timer
    thread does not sleep past the first expiry. *)
Record sound (s : t) : Prop := {
  sound_sorted : sorted (timers_ s);
  sound_once : NoDup (map snd (timers_ s));
  sound_entries e n : (e, n) ∈ timers_ s <-> queued (states s n) = true /\ expiry (states s n) = e;
  sound_waiters n : waiters (states s n) <> [] -> queued (states s n) = true;
  sound_expiry n : Forall (fun w => w.2 = expiry (states s n)) (waiters (states s n));
  sound_thread : match thread_ s with
    | not_started => timers_ s = []
    | asleep None => timers_ s = []
    | asleep (Some d) => bound (timers_ s) d
    | starting | awake => True
    end
}.

(** The waiters of the timers in the queue. *)
Definition held_of (f : nat -> timer_state) (l : list (Z * nat)) : list waiter := concat (map (fun x => waiters (f x.2)) l).
Definition held (s : t) : list waiter := held_of (states s) (timers_ s).

Lemma elem_of_emplace x e n l : x ∈ emplace e n l <-> x = (e, n) \/ x ∈ l.
Proof.
  induction l as [| [k m] l IH]; cbn; [by rewrite elem_of_cons |]. destruct (e <? k); rewrite !elem_of_cons; [done |]. rewrite IH. tauto.
Qed.

Lemma timers_emplace_perm e n l : emplace e n l ≡ₚ (e, n) :: l.
Proof.
  induction l as [| [k m] l IH]; cbn; [done |]. destruct (e <? k); [done |]. rewrite IH. apply Permutation_swap.
Qed.

Lemma bound_emplace e n l k : bound l k -> k <= e -> bound (emplace e n l) k.
Proof. intros Hl Hk. unfold bound. rewrite timers_emplace_perm. by apply Forall_cons. Qed.

Lemma bound_less l k k' : bound l k -> k' <= k -> bound l k'.
Proof. intros Hl Hk. eapply Forall_impl; [exact Hl |]. cbn. intros x Hx. lia. Qed.

Lemma sorted_emplace e n l : sorted l -> sorted (emplace e n l).
Proof.
  induction l as [| [k m] l IH]; cbn; [by repeat split; constructor |]. intros [Hb Hs]. destruct (Z.ltb_spec e k); cbn.
  - split; [| done]. apply Forall_cons. split; [cbn; lia |]. by eapply bound_less; [exact Hb | lia].
  - split; [by apply bound_emplace | by apply IH].
Qed.

Lemma erase_perm e n l : (e, n) ∈ l -> l ≡ₚ (e, n) :: erase e n l.
Proof.
  induction l as [| [k m] l IH]; [by intros Hin%elem_of_nil |]. cbn. intros Hin.
  destruct (Z.eqb_spec k e) as [-> |]; [destruct (Nat.eqb_spec m n) as [-> |] |]; cbn; [done | |];
    (apply elem_of_cons in Hin as [Heq | Hin]; [exfalso; congruence |]; rewrite IH at 1 by done; apply Permutation_swap).
Qed.

Lemma bound_erase e n l k : bound l k -> bound (erase e n l) k.
Proof.
  induction l as [| [j m] l IH]; [done |]. cbn. intros [Hj Hl]%Forall_cons. destruct (_ && _); [done |]. apply Forall_cons. split; [done | by apply IH].
Qed.

Lemma sorted_erase e n l : sorted l -> sorted (erase e n l).
Proof.
  induction l as [| [k m] l IH]; [done |]. cbn. intros [Hb Hs]. destruct (_ && _); [done |]. cbn. split; [by apply bound_erase | by apply IH].
Qed.

Lemma is_first_bound e l : is_first e l = true -> sorted l -> bound l e.
Proof.
  destruct l as [| [k m] l]; [constructor |]. cbn. intros Hk%Z.ltb_lt [Hb _]. apply Forall_cons. split; [cbn; lia |]. eapply bound_less; [exact Hb | lia].
Qed.

Lemma not_first e k l : is_first e ((k, l) :: []) = false -> k <= e.
Proof. cbn. intros Hk%Z.ltb_ge. lia. Qed.

Lemma held_of_other f n x l : n ∉ map snd l -> held_of (<[n := x]> f) l = held_of f l.
Proof.
  unfold held_of. induction l as [| [k m] l IH]; [done |]. cbn. intros [Hm Hl]%not_elem_of_cons. rewrite IH by done. by rewrite fn_lookup_insert_ne by congruence.
Qed.

Lemma held_of_perm f l l' : l ≡ₚ l' -> held_of f l ≡ₚ held_of f l'.
Proof. intros Hl. unfold held_of. by rewrite Hl. Qed.

(** The waiters of a timer leave it. *)
Definition retire (n : nat) (e : Z) (s : t) : t := set_state n (mk_timer e [] (queued (states (unqueue_timer n s) n))) (unqueue_timer n s).

Lemma unqueue_state n s : waiters (states (unqueue_timer n s) n) = waiters (states s n) /\ expiry (states (unqueue_timer n s) n) = expiry (states s n).
Proof. unfold unqueue_timer. destruct (queued (states s n)); cbn; by rewrite ?fn_lookup_insert. Qed.

Lemma in_queue e n (l : list (Z * nat)) : (e, n) ∈ l -> n ∈ map snd l.
Proof. intros Hin. apply (list_elem_of_fmap_2 snd l (e, n)) in Hin. done. Qed.

Lemma queued_in s n : sound s -> n ∈ map snd (timers_ s) <-> queued (states s n) = true.
Proof.
  intros Hs. split.
  - intros Hin. apply list_elem_of_fmap in Hin as ([e m] & -> & Hin). by apply (sound_entries s Hs) in Hin as [? _].
  - intros Hq. apply (in_queue (expiry (states s n))). by apply (sound_entries s Hs).
Qed.

Lemma retire_queue n e s : sound s -> exists l, timers_ (retire n e s) = l /\ queued (states (retire n e s) n) = false /\ n ∉ map snd l /\ sorted l /\ NoDup (map snd l) /\
  (forall k m, (k, m) ∈ l <-> m <> n /\ (k, m) ∈ timers_ s) /\ (forall k, bound (timers_ s) k -> bound l k) /\ (timers_ s = [] -> l = []) /\
  waiters (states s n) ++ held_of (states s) l ≡ₚ held s /\ states (retire n e s) = <[n := mk_timer e [] false]> (states (unqueue_timer n s)) /\
  (forall m, m <> n -> states (unqueue_timer n s) m = states s m) /\ thread_ (retire n e s) = thread_ s.
Proof.
  intros Hs. unfold retire, unqueue_timer. destruct (queued (states s n)) eqn:Hq; cbn [negb].
  - exists (erase (expiry (states s n)) n (timers_ s)). assert ((expiry (states s n), n) ∈ timers_ s) as Hin by (by apply (sound_entries s Hs)).
    pose proof (erase_perm _ _ _ Hin) as Hp. pose proof (sound_once s Hs) as Hnd. rewrite Hp in Hnd. cbn in Hnd. apply NoDup_cons in Hnd as [Hni Hnd].
    cbn. rewrite !fn_lookup_insert. cbn. split_and!; try done.
    + by apply sorted_erase, sound_sorted.
    + intros k m. rewrite (elem_of_Permutation_proper (k, m) _ _ Hp), elem_of_cons. split.
      * intros Hm. split; [| by right]. intros ->. by apply Hni, (in_queue k).
      * intros [Hne [[=] | Hm]]; [congruence | done].
    + apply bound_erase.
    + by intros ->.
    + unfold held. by rewrite (held_of_perm _ _ _ Hp).
    + intros m Hm. by rewrite fn_lookup_insert_ne by done.
  - exists (timers_ s). cbn. rewrite !fn_lookup_insert, Hq. cbn.
    assert (n ∉ map snd (timers_ s)) as Hni by (rewrite queued_in by done; by rewrite Hq).
    assert (waiters (states s n) = []) as Hw by (destruct (waiters (states s n)) eqn:Hw; [done |]; exfalso; pose proof (sound_waiters s Hs n) as Hx; rewrite Hw, Hq in Hx; by specialize (Hx ltac:(done))).
    rewrite Hw. split_and!; try done; try apply Hs. intros k m. split; [| by intros [_ ?]]. intros Hm. split; [| done]. intros ->. by apply Hni, (in_queue k).
Qed.

Lemma retire_sound n e s : sound s -> sound (retire n e s) /\ waiters (states s n) ++ held (retire n e s) ≡ₚ held s.
Proof.
  intros Hs. destruct (retire_queue n e s Hs) as (l & Hl & Hq & Hni & Hso & Hnd & Hent & Hbd & Hnil & Hheld & Hst & Hoth & Hth). split.
  - split.
    + by rewrite Hl.
    + by rewrite Hl.
    + intros k m. rewrite Hl, Hent, Hst. destruct (decide (m = n)) as [-> | Hm].
      * rewrite fn_lookup_insert. cbn. split; [by intros [? _] | by intros [? _]].
      * rewrite fn_lookup_insert_ne, Hoth by done. rewrite (sound_entries s Hs). split; [by intros [_ ?] | done].
    + intros m. rewrite Hst. destruct (decide (m = n)) as [-> | Hm]; [by rewrite fn_lookup_insert | rewrite fn_lookup_insert_ne, Hoth by done; apply Hs].
    + intros m. rewrite Hst. destruct (decide (m = n)) as [-> | Hm]; [rewrite fn_lookup_insert; constructor | rewrite fn_lookup_insert_ne, Hoth by done; apply Hs].
    + rewrite Hl, Hth. pose proof (sound_thread s Hs) as Ht. destruct (thread_ s) as [| | [d |] |]; auto.
  - unfold held at 1. rewrite Hl, Hst, held_of_other by done. rewrite <- Hheld. apply Permutation_app_head. unfold held_of.
    clear -Hoth Hni. induction l as [| [k m] l IH]; [done |]. cbn in *. apply not_elem_of_cons in Hni as [Hm Hni]. rewrite IH by done. by rewrite Hoth by congruence.
Qed.

Lemma held_at f n x e l : n ∉ map snd l -> held_of (<[n := x]> f) ((e, n) :: l) = waiters x ++ held_of f l.
Proof. intros Hn. unfold held_of. cbn. rewrite fn_lookup_insert. f_equal. by apply held_of_other. Qed.

Lemma wait_sound n h s : sound s -> sound (wait_timer n h s) /\ held (wait_timer n h s) ≡ₚ held s ++ [(h, expiry (states s n))].
Proof.
  intros Hs. set (x := mk_timer (expiry (states s n)) (waiters (states s n) ++ [(h, expiry (states s n))]) true).
  assert (forall l th, sorted l -> NoDup (map snd l) -> (forall k m, (k, m) ∈ l <-> (k, m) = (expiry (states s n), n) \/ (k, m) ∈ timers_ s) ->
    match th with not_started => l = [] | asleep None => l = [] | asleep (Some d) => bound l d | _ => True end ->
    sound (mk l (<[n := x]> (states s)) th)) as Hmk.
  { intros l th Hso Hnd Hent Hth. split; cbn; try done.
    - intros k m. rewrite Hent, (sound_entries s Hs). destruct (decide (m = n)) as [-> | Hm].
      + rewrite fn_lookup_insert. cbn. split; [intros [[= ->] | [_ ->]]; done | intros [_ ->]; by left].
      + rewrite fn_lookup_insert_ne by done. split; [intros [[= -> ->] | ?]; done | by right].
    - intros m. destruct (decide (m = n)) as [-> | Hm]; [by rewrite fn_lookup_insert | rewrite fn_lookup_insert_ne by done; apply Hs].
    - intros m. destruct (decide (m = n)) as [-> | Hm]; [rewrite fn_lookup_insert; cbn | rewrite fn_lookup_insert_ne by done; apply Hs].
      apply Forall_app. split; [apply Hs | by apply Forall_cons]. }
  unfold wait_timer. destruct (queued (states s n)) eqn:Hq.
  - assert ((expiry (states s n), n) ∈ timers_ s) as Hin by (by apply (sound_entries s Hs)). split.
    + apply Hmk; [apply Hs | apply Hs | | apply Hs]. intros k m. split; [by right | intros [[= -> ->] | ?]; done].
    + pose proof (erase_perm _ _ _ Hin) as Hp. pose proof (sound_once s Hs) as Hnd. rewrite Hp in Hnd. cbn in Hnd. apply NoDup_cons in Hnd as [Hni _].
      unfold held, set_state. cbn [timers_ states]. fold x. rewrite (held_of_perm (<[n := x]> (states s)) _ _ Hp), (held_of_perm (states s) _ _ Hp), held_at by done.
      change (held_of (states s) ((expiry (states s n), n) :: ?l)) with (waiters (states s n) ++ held_of (states s) l). cbn [waiters x].
      generalize (held_of (states s) (erase (expiry (states s n)) n (timers_ s))). intros l. subst x. cbn [waiters]. solve_Permutation.
  - assert (n ∉ map snd (timers_ s)) as Hni by (rewrite queued_in by done; by rewrite Hq).
    assert (waiters (states s n) = []) as Hw by (destruct (waiters (states s n)) eqn:Hw; [done |]; exfalso; pose proof (sound_waiters s Hs n) as Hx; rewrite Hw, Hq in Hx; by specialize (Hx ltac:(done))).
    assert (forall th, match th with not_started => False | asleep None => False | asleep (Some d) => bound (timers_ s) d /\ d <= expiry (states s n) | _ => True end ->
      sound (mk (emplace (expiry (states s n)) n (timers_ s)) (<[n := x]> (states s)) th)) as Hth.
    { intros th Hth. apply Hmk.
      - by apply sorted_emplace, sound_sorted.
      - rewrite timers_emplace_perm. cbn. apply NoDup_cons. split; [done | apply Hs].
      - intros k m. apply elem_of_emplace.
      - destruct th as [| | [d |] |]; try done. destruct Hth; by apply bound_emplace. }
    split.
    + pose proof (sound_thread s Hs) as Ht. unfold set_thread, set_timers, set_state. cbn [timers_ states thread_].
      destruct (thread_ s) as [| | [d |] |] eqn:Hthread; cbn [notify].
      * by apply Hth.
      * destruct (is_first _ _); by apply Hth.
      * destruct (is_first (expiry (states s n)) (timers_ s)) eqn:Hf; [by apply Hth |]. apply Hth. split; [done |].
        destruct (timers_ s) as [| [k m] l]; [done |]. cbn in Hf. apply Z.ltb_ge in Hf. apply Forall_cons in Ht as [Ht _]. cbn in Ht. lia.
      * rewrite Ht. cbn. specialize (Hth awake). rewrite Ht in Hth. by apply Hth.
      * destruct (is_first _ _); by apply Hth.
    + assert (forall th, held (mk (emplace (expiry (states s n)) n (timers_ s)) (<[n := x]> (states s)) th) ≡ₚ held s ++ [(h, expiry (states s n))]) as Hh.
      { intros th. unfold held. cbn [timers_ states]. rewrite (held_of_perm _ _ _ (timers_emplace_perm _ _ _)), held_at by done.
        subst x. cbn [waiters]. rewrite Hw. generalize (held_of (states s) (timers_ s)). intros l. cbn. solve_Permutation. }
      unfold set_thread, set_timers, set_state. cbn [timers_ states thread_]. destruct (thread_ s); try destruct (is_first _ _); apply Hh.
Qed.

Lemma sound_thread_change s x : sound s ->
  match x with not_started | asleep None => timers_ s = [] | asleep (Some d) => bound (timers_ s) d | _ => True end -> sound (set_thread x s).
Proof. intros [H1 H2 H3 H4 H5 H6] Hx. by split. Qed.

(** The first timer leaves the queue. *)
Lemma pop_sound k n rest s : sound (set_timers ((k, n) :: rest) s) ->
  sound (set_timers rest (set_state n (mk_timer (expiry (states s n)) [] false) s)) /\ expiry (states s n) = k /\ n ∉ map snd rest.
Proof.
  intros [Hso Hnd Hent Hwa Hex Hth]. cbn in *. apply NoDup_cons in Hnd as [Hni Hnd].
  assert (expiry (states s n) = k) as Hk by (apply (Hent k n); left). split; [| done].
  split; cbn; [apply Hso | done | ..].
  - intros e m. destruct (decide (m = n)) as [-> | Hm].
    + rewrite fn_lookup_insert. cbn. split; [| by intros [? _]]. intros Hin. exfalso. apply Hni. exact (in_queue _ _ _ Hin).
    + rewrite fn_lookup_insert_ne by done. rewrite <- Hent, elem_of_cons. split; [by right | intros [[=] | ?]; [congruence | done]].
  - intros m. destruct (decide (m = n)) as [-> | Hm]; [by rewrite fn_lookup_insert | rewrite fn_lookup_insert_ne by done; apply Hwa].
  - intros m. destruct (decide (m = n)) as [-> | Hm]; [rewrite fn_lookup_insert; constructor | rewrite fn_lookup_insert_ne by done; apply Hex].
  - destruct (thread_ s) as [| | [d |] |]; try done. by apply Forall_cons in Hth as [_ ?].
Qed.

Lemma expire_sound now l s : sound (set_timers l s) -> let '(s', done) := expire_loop now l s in
  sound s' /\ map fst done ++ held s' ≡ₚ held_of (states s) l /\ Forall (fun c => c.2 = (error.success : code) /\ c.1.2 <= now) done /\
  Forall (fun x => now < x.1) (timers_ s') /\ thread_ s' = thread_ s.
Proof.
  revert s. induction l as [| [k n] rest IH]; intros s Hs; cbn [expire_loop]; [by split_and!; try apply List.Forall_nil |].
  destruct (Z.leb_spec k now) as [Hk | Hk].
  - destruct (pop_sound _ _ _ _ Hs) as [Hpop [He Hni]]. specialize (IH _ Hpop). destruct (expire_loop now rest _) as [s' done].
    destruct IH as (H1 & H2 & H3 & H4 & H5). split_and!; try done.
    + rewrite map_app, map_map. cbn. rewrite map_id, <- app_assoc, H2. cbn [set_state states]. by rewrite held_of_other.
    + apply Forall_app. split; [| done]. apply Forall_map. pose proof (sound_expiry _ Hs n) as Hex. eapply Forall_impl; [exact Hex |].
      cbn. intros w Hw. split; [done | lia].
  - split_and!; try done; try apply List.Forall_nil. pose proof (sound_sorted _ Hs) as Hso. cbn in Hso. destruct Hso as [Hb _].
    apply Forall_cons. split; [done |]. eapply Forall_impl; [exact Hb |]. cbn. intros x Hx. lia.
Qed.

Lemma sound_next_wait s : sound s -> sound (set_thread (next_wait s) s).
Proof.
  intros Hs. apply sound_thread_change; [done |]. unfold next_wait. pose proof (sound_sorted s Hs) as Hso. destruct (timers_ s) as [| [k n] l]; [done |].
  destruct Hso as [Hb _]. apply Forall_cons. split; [cbn; lia | done].
Qed.

Lemma run_timers_sound now s : sound s -> let '(s', done) := run_timers now s in
  sound s' /\ map fst done ++ held s' ≡ₚ held s /\ Forall (fun c => c.2 = (error.success : code) /\ c.1.2 <= now) done /\ Forall (fun x => now < x.1) (timers_ s').
Proof.
  intros Hs. unfold run_timers, expire_timers. pose proof (expire_sound now (timers_ s) s) as He.
  destruct (expire_loop now (timers_ s) s) as [s' done]. destruct He as (H1 & H2 & H3 & H4 & _); [by destruct s |].
  split_and!; try done. by apply sound_next_wait.
Qed.

Lemma cancel_is_retire n s : cancel_timer n s = (retire n (expiry (states s n)) s, canceled (waiters (states s n)), length (waiters (states s n))).
Proof. unfold cancel_timer, retire. destruct (unqueue_state n s) as [-> ->]. done. Qed.

Lemma expire_is_retire n e s : expire_timer n e s = (retire n e s, canceled (waiters (states s n)), length (waiters (states s n))).
Proof. unfold expire_timer, retire. destruct (unqueue_state n s) as [-> _]. done. Qed.

(** ** Every interleaving *)

Definition finished (c : completion * Z) : Prop := c.1.2 = (error.operation_canceled : code) \/ c.1.2 = (error.success : code) /\ c.1.1.2 <= c.2.

Record kept (w : world) : Prop := {
  kept_sound : sound (self w);
  kept_waited : map (fun c => c.1.1) (completed w) ++ held (self w) ≡ₚ waited w;
  kept_finished : Forall finished (completed w)
}.

Lemma kept_complete w s done : kept w -> sound s -> map fst done ++ held s ≡ₚ held (self w) ->
  Forall (fun c => finished (c, now w)) done -> kept (complete (s, done) w).
Proof.
  intros [Hs Hw Hf] Hs' Hd Hfin. split; cbn; [done | |].
  - rewrite <- Hw, <- Hd, map_app, map_map. cbn. by rewrite <- app_assoc.
  - apply Forall_app. split; [done |]. by apply Forall_map.
Qed.

Lemma timers_move_kept w w' : kept w -> move w w' -> kept w'.
Proof.
  intros Hk Hm. pose proof Hk as [Hs Hw Hf]. destruct Hm as [w d _ | w n h | w n | w n e | w Hst | w | w Ha].
  - by split.
  - destruct (wait_sound n h (self w) Hs) as [Hs' Hh]. split; cbn; [done | | done]. by rewrite Hh, <- Hw, app_assoc.
  - rewrite cancel_is_retire. destruct (retire_sound n (expiry (states (self w) n)) _ Hs) as [Hs' Hh]. apply kept_complete; [done | done | |].
    + unfold canceled. by rewrite map_map, map_id.
    + apply Forall_map, List.Forall_forall. by left.
  - rewrite expire_is_retire. destruct (retire_sound n e _ Hs) as [Hs' Hh]. apply kept_complete; [done | done | |].
    + unfold canceled. by rewrite map_map, map_id.
    + apply Forall_map, List.Forall_forall. by left.
  - split; cbn; [by apply sound_next_wait | done | done].
  - split; cbn; [| done | done]. apply sound_thread_change; [done |]. pose proof (sound_thread _ Hs) as Ht. by destruct (thread_ (self w)).
  - pose proof (run_timers_sound (now w) _ Hs) as Hr. destruct (run_timers (now w) (self w)) as [s' done]. destruct Hr as (H1 & H2 & H3 & _).
    apply kept_complete; try done. eapply Forall_impl; [exact H3 |]. intros c Hc. by right.
Qed.

Lemma timers_reachable_kept time w : rtc move (initial time) w -> kept w.
Proof.
  assert (kept (initial time)) as Hk.
  { split; cbn; [split; cbn; try done; try constructor | done | constructor]; [intros Hin; by apply elem_of_nil in Hin | by intros [? _]]. }
  revert Hk. intros Hk Hr. induction Hr as [| v v' v'' Hm _ IH]; [done |]. by apply IH, (timers_move_kept v).
Qed.

(** Timers.  However timers are set, awaited and canceled, and whenever the timer
    thread runs, every handler that waits completes once or is still held; it
    completes with success only at or after the expiry for which it waited, and
    otherwise with operation_canceled; and the timer thread does not sleep
    past a handler that is due: when it is in a wait, that wait ends by then. *)
Theorem timers_complete_once time w : rtc move (initial time) w ->
  map (fun c => c.1.1) (completed w) ++ held (self w) ≡ₚ waited w /\
  (forall h e ec at_, ((h, e), ec, at_) ∈ completed w -> ec = (error.operation_canceled : code) \/ ec = (error.success : code) /\ e <= at_) /\
  (forall h e, (h, e) ∈ held (self w) -> match thread_ (self w) with asleep (Some d) => d <= e | starting | awake => True | _ => False end).
Proof.
  intros Hr%timers_reachable_kept. destruct Hr as [Hs Hw Hf]. split; [done |]. split.
  - intros h e ec at_ Hin. rewrite Forall_forall in Hf. by apply (Hf _ Hin).
  - intros h e Hin. unfold held, held_of in Hin. apply list_elem_of_In, in_concat in Hin as (l & Hl & Hin).
    apply list_elem_of_In, list_elem_of_fmap in Hl as ([k n] & -> & Hl). apply list_elem_of_In in Hin. cbn in Hin.
    pose proof (sound_expiry _ Hs n) as He. rewrite Forall_forall in He. specialize (He _ Hin). cbn in He. subst e.
    apply (sound_entries _ Hs) in Hl as Hq. destruct Hq as [_ Hq]. pose proof (sound_thread _ Hs) as Ht.
    destruct (thread_ (self w)) as [| | [d |] |]; try done; [by rewrite Ht in Hl; apply elem_of_nil in Hl | | by rewrite Ht in Hl; apply elem_of_nil in Hl].
    unfold bound in Ht. rewrite Forall_forall in Ht. specialize (Ht _ Hl). cbn in Ht. lia.
Qed.

(** Deadlines.  A deadline that is started has one handler, due when its time has
    passed, whatever it had before, and those that it had complete with
    operation_canceled; stop completes its handler in the same way; and other timers do
    not change. *)
Theorem deadline_restarts time w n timeout h : rtc move (initial time) w ->
  let '(s, done) := deadline_start n (now w) timeout h (self w) in
  done = canceled (waiters (states (self w) n)) /\ waiters (states s n) = [(h, now w + timeout)] /\
  (forall m, m <> n -> states s m = states (self w) m) /\
  let '(s', done') := deadline_stop n s in done' = canceled [(h, now w + timeout)] /\ waiters (states s' n) = [].
Proof.
  intros Hr%timers_reachable_kept. destruct Hr as [Hs _ _]. unfold deadline_start, deadline_stop, expires_after.
  rewrite cancel_is_retire, expire_is_retire.
  destruct (retire_queue n (expiry (states (self w) n)) _ Hs) as (l & _ & Hq & _ & _ & _ & _ & _ & _ & _ & Hst & Hoth & _).
  set (s1 := retire n (expiry (states (self w) n)) (self w)) in *. clearbody s1.
  assert (unqueue_timer n s1 = s1) as Hun by (unfold unqueue_timer; by rewrite Hq).
  assert (retire n (now w + timeout) s1 = set_state n (mk_timer (now w + timeout) [] false) s1) as -> by (unfold retire; by rewrite Hun, Hq).
  set (s2 := set_state n (mk_timer (now w + timeout) [] false) s1).
  assert (states (wait_timer n h s2) = <[n := mk_timer (now w + timeout) [(h, now w + timeout)] true]> (states s2)) as Hwt.
  { assert (states s2 n = mk_timer (now w + timeout) [] false) as Hx by apply fn_lookup_insert.
    unfold wait_timer. rewrite Hx. cbn [queued expiry waiters app]. unfold set_thread, set_timers, set_state at 1 3. cbn [thread_ timers_ states].
    destruct (thread_ _); try destruct (is_first _ _); done. }
  rewrite cancel_is_retire, Hwt, fn_lookup_insert. cbn [waiters expiry]. split_and!.
  - by rewrite Hst, fn_lookup_insert; cbn; rewrite app_nil_r.
  - done.
  - intros m Hm. rewrite fn_lookup_insert_ne by done. unfold s2, set_state. cbn [states].
    rewrite fn_lookup_insert_ne, Hst, fn_lookup_insert_ne by done. by apply Hoth.
  - done.
  - unfold retire. cbn. by rewrite fn_lookup_insert.
Qed.
End timers.

(** ** An example *)

Definition example_wait : world (H := nat) :=
  let w := initial 10 in
  let w := complete (expire_timer 4 25 (self w)).1 w in
  mk_world (now w) (wait_timer 4 7%nat (self w)) (waited w ++ [(7%nat, 25)]) (completed w).

Lemma timers_example_reached : rtc move (initial 10) example_wait.
Proof.
  apply (rtc_l _ _ (complete (expire_timer 4 25 (self (initial 10))).1 (initial 10))); [apply expires |].
  apply rtc_once. apply (waits (complete (expire_timer 4 25 (self (initial 10))).1 (initial 10)) 4 7%nat).
Qed.

Lemma timers_complete_once_witness :
  map (fun c => c.1.1) (completed example_wait) ++ held (self example_wait) ≡ₚ waited example_wait /\
  (forall h e ec at_, ((h, e), ec, at_) ∈ completed example_wait -> ec = (error.operation_canceled : code) \/ ec = (error.success : code) /\ e <= at_) /\
  (forall h e, (h, e) ∈ held (self example_wait) ->
    match thread_ (self example_wait) with asleep (Some d) => d <= e | starting | awake => True | _ => False end).
Proof. apply (timers_complete_once 10). exact timers_example_reached. Defined.

Lemma deadline_restarts_witness : let '(s, done) := deadline_start 4 10 20 8%nat (self example_wait) in
  done = canceled (waiters (states (self example_wait) 4)) /\ waiters (states s 4) = [(8%nat, 30)] /\
  (forall m, m <> 4%nat -> states s m = states (self example_wait) m) /\
  let '(s', done') := deadline_stop 4 s in done' = canceled [(8%nat, 30)] /\ waiters (states s' 4) = [].
Proof. apply (deadline_restarts 10 example_wait 4 20 8%nat). exact timers_example_reached. Defined.
End timers.
