(* ===== verification/VersionHandshake.v ===== *)
(** * VersionHandshake: the handshake of peers

    Models the version protocols of [src/protocols]: [protocol_version_106.cpp],
    [_70001], [_70002], [_70014] and [_70016], of which each derives from the
    one before, with the state of [src/channels/channel_peer.cpp] that they set.
    All runs on the strand of the channel: a move is a handler, with
    whatever completions, messages and stops come between. *)

From S2P Require Import Prelude.
From S2P Require Import Errors.
From S2P Require Import PeerAddress.
From S2P Require Import PeerMessages.

Module version_protocol.
Import PeerAddress.address_item.

(** ** Configuration *)

(** The classes, in the order of derivation. *)
Inductive class := protocol_106 | protocol_70001 | protocol_70002 | protocol_70014 | protocol_70016.

Definition class_index (c : class) : Z :=
  match c with protocol_106 => 0 | protocol_70001 => 1 | protocol_70002 => 2 | protocol_70014 => 3 | protocol_70016 => 4 end.

Definition derives (c base : class) : bool := class_index base <=? class_index c.

Record settings := mk_settings {
  protocol_minimum : Z; protocol_maximum : Z; services_required : Z; services_provided : Z; invalid_services : Z;
  maximum_skew_minutes : Z; channel_handshake : Z; enable_relay : bool; enable_reject : bool; enable_compact : bool;
  enable_address : bool; enable_address_v2 : bool; gossip_v2 : bool; enable_witness_tx : bool; self_address : address_t; self_port : Z;
  configured_agent : bytes }.

Definition bip61 : Z := 70002.

(** ** Messages *)

Inductive subject := on_version | on_acknowledge | on_reject | on_send_compact | on_send_address_v2 | on_witness_tx.

#[export] Instance subject_eq_dec : EqDecision subject.
Proof. solve_decision. Defined.

Inductive message :=
  | version_message (m : version.t)
  | acknowledge_message
  | reject_message
  | send_compact_message (high_bandwidth : bool) (compact_version : Z)
  | send_address_v2_message
  | witness_tx_message.

Definition subject_of (m : message) : subject :=
  match m with
  | version_message _ => on_version | acknowledge_message => on_acknowledge | reject_message => on_reject
  | send_compact_message _ _ => on_send_compact | send_address_v2_message => on_send_address_v2 | witness_tx_message => on_witness_tx
  end.

Inductive reason_code := obsolete | undefined | duplicate.

Inductive outgoing :=
  | send_version (m : version.t)
  | send_acknowledge
  | send_reject (reason : reason_code) (text : string)
  | send_compact (high_bandwidth : bool) (compact_version : Z)
  | send_address_v2
  | send_witness_tx.

Definition compact_version_2 : Z := 2.

Section protocol.
Context {ip_prefix : IpPrefix} {H : Type} (class_ : class) (settings_ : settings).

(** ** State *)

(** What is pending: the completions of sends, the timer and its cancellation,
    and the stop of the channel. *)
Inductive operation := version_sent | acknowledge_sent | other_sent | timer_runs | timer_canceled | channel_stops (ec : code).

#[export] Instance operation_eq_dec : EqDecision operation.
Proof. solve_decision. Defined.

(** The protocol, and its channel: whether it is stopped, and whether its gate
    is held. *)
Record t := mk {
  started_ : bool; received_version_ : bool; received_acknowledge_ : bool; complete_ : bool; handler_ : option H;
  stopped_ : bool; held_ : bool; negotiated_version_ : Z; peer_version_ : option version.t;
  wants_address_v2_ : bool; compact_blocks_ : option bool; wants_witness_tx_ : bool;
  subscriptions : list subject; pending : list operation; sent : list outgoing; called : list (H * code) }.

Definition make : t :=
  mk false false false false None false false (protocol_maximum settings_) None false None false [] [] [] [].

Definition set_started (s : t) : t := mk true (received_version_ s) (received_acknowledge_ s) (complete_ s) (handler_ s) (stopped_ s) (held_ s)
  (negotiated_version_ s) (peer_version_ s) (wants_address_v2_ s) (compact_blocks_ s) (wants_witness_tx_ s) (subscriptions s) (pending s) (sent s) (called s).
Definition set_received_version (s : t) : t := mk (started_ s) true (received_acknowledge_ s) (complete_ s) (handler_ s) (stopped_ s) (held_ s)
  (negotiated_version_ s) (peer_version_ s) (wants_address_v2_ s) (compact_blocks_ s) (wants_witness_tx_ s) (subscriptions s) (pending s) (sent s) (called s).
Definition set_received_acknowledge (s : t) : t := mk (started_ s) (received_version_ s) true (complete_ s) (handler_ s) (stopped_ s) (held_ s)
  (negotiated_version_ s) (peer_version_ s) (wants_address_v2_ s) (compact_blocks_ s) (wants_witness_tx_ s) (subscriptions s) (pending s) (sent s) (called s).
Definition set_complete (s : t) : t := mk (started_ s) (received_version_ s) (received_acknowledge_ s) true (handler_ s) (stopped_ s) (held_ s)
  (negotiated_version_ s) (peer_version_ s) (wants_address_v2_ s) (compact_blocks_ s) (wants_witness_tx_ s) (subscriptions s) (pending s) (sent s) (called s).
Definition set_handler (h : option H) (s : t) : t := mk (started_ s) (received_version_ s) (received_acknowledge_ s) (complete_ s) h (stopped_ s) (held_ s)
  (negotiated_version_ s) (peer_version_ s) (wants_address_v2_ s) (compact_blocks_ s) (wants_witness_tx_ s) (subscriptions s) (pending s) (sent s) (called s).
Definition set_stopped (s : t) : t := mk (started_ s) (received_version_ s) (received_acknowledge_ s) (complete_ s) (handler_ s) true (held_ s)
  (negotiated_version_ s) (peer_version_ s) (wants_address_v2_ s) (compact_blocks_ s) (wants_witness_tx_ s) (subscriptions s) (pending s) (sent s) (called s).
Definition set_held (b : bool) (s : t) : t := mk (started_ s) (received_version_ s) (received_acknowledge_ s) (complete_ s) (handler_ s) (stopped_ s) b
  (negotiated_version_ s) (peer_version_ s) (wants_address_v2_ s) (compact_blocks_ s) (wants_witness_tx_ s) (subscriptions s) (pending s) (sent s) (called s).
Definition set_peer (n : Z) (m : version.t) (s : t) : t := mk (started_ s) (received_version_ s) (received_acknowledge_ s) (complete_ s) (handler_ s) (stopped_ s) (held_ s)
  n (Some m) (wants_address_v2_ s) (compact_blocks_ s) (wants_witness_tx_ s) (subscriptions s) (pending s) (sent s) (called s).
Definition set_wants_address_v2 (s : t) : t := mk (started_ s) (received_version_ s) (received_acknowledge_ s) (complete_ s) (handler_ s) (stopped_ s) (held_ s)
  (negotiated_version_ s) (peer_version_ s) true (compact_blocks_ s) (wants_witness_tx_ s) (subscriptions s) (pending s) (sent s) (called s).
Definition set_compact_blocks (high_bandwidth : bool) (s : t) : t := mk (started_ s) (received_version_ s) (received_acknowledge_ s) (complete_ s) (handler_ s) (stopped_ s) (held_ s)
  (negotiated_version_ s) (peer_version_ s) (wants_address_v2_ s) (Some high_bandwidth) (wants_witness_tx_ s) (subscriptions s) (pending s) (sent s) (called s).
Definition set_wants_witness_tx (s : t) : t := mk (started_ s) (received_version_ s) (received_acknowledge_ s) (complete_ s) (handler_ s) (stopped_ s) (held_ s)
  (negotiated_version_ s) (peer_version_ s) (wants_address_v2_ s) (compact_blocks_ s) true (subscriptions s) (pending s) (sent s) (called s).
Definition set_subscriptions (l : list subject) (s : t) : t := mk (started_ s) (received_version_ s) (received_acknowledge_ s) (complete_ s) (handler_ s) (stopped_ s) (held_ s)
  (negotiated_version_ s) (peer_version_ s) (wants_address_v2_ s) (compact_blocks_ s) (wants_witness_tx_ s) l (pending s) (sent s) (called s).
Definition set_pending (l : list operation) (s : t) : t := mk (started_ s) (received_version_ s) (received_acknowledge_ s) (complete_ s) (handler_ s) (stopped_ s) (held_ s)
  (negotiated_version_ s) (peer_version_ s) (wants_address_v2_ s) (compact_blocks_ s) (wants_witness_tx_ s) (subscriptions s) l (sent s) (called s).
Definition add_sent (m : outgoing) (s : t) : t := mk (started_ s) (received_version_ s) (received_acknowledge_ s) (complete_ s) (handler_ s) (stopped_ s) (held_ s)
  (negotiated_version_ s) (peer_version_ s) (wants_address_v2_ s) (compact_blocks_ s) (wants_witness_tx_ s) (subscriptions s) (pending s) (sent s ++ [m]) (called s).
Definition add_call (c : H * code) (s : t) : t := mk (started_ s) (received_version_ s) (received_acknowledge_ s) (complete_ s) (handler_ s) (stopped_ s) (held_ s)
  (negotiated_version_ s) (peer_version_ s) (wants_address_v2_ s) (compact_blocks_ s) (wants_witness_tx_ s) (subscriptions s) (pending s) (sent s) (called s ++ [c]).

(** ** The channel *)

Definition wait (p : operation) (s : t) : t := set_pending (pending s ++ [p]) s.
Definition subscribe (x : subject) (s : t) : t := set_subscriptions (subscriptions s ++ [x]) s.
Definition SEND (m : outgoing) (p : operation) (s : t) : t := wait p (add_sent m s).

(** [proxy::stop], of a channel that has no batch. *)
Definition stop (ec : code) (s : t) : t := if stopped_ s then s else wait (channel_stops ec) (set_stopped s).

Definition pause (s : t) : t := if stopped_ s then s else set_held true s.

Definition stopped (s : t) (ec : code) : bool := stopped_ s || failed ec.

(** A deadline that is stopped, or started again, completes with a cancellation. *)
Definition timer_stop (s : t) : t := set_pending (map (fun p => if bool_decide (p = timer_runs) then timer_canceled else p) (pending s)) s.
Definition timer_start (s : t) : t := wait timer_runs (timer_stop s).

(** ** Protocol *)

Definition complete (s : t) : bool := received_version_ s && received_acknowledge_ s.

Definition callback (ec : code) (s : t) : t :=
  let s := timer_stop s in
  match handler_ s with
  | None => s
  | Some h => set_handler None (add_call (h, ec) s)
  end.

Definition unspecified_ip_port : Z := 0.

(** What the clock, the socket and the session give. *)
Record environment := mk_environment { unix_time : Z; outbound_ip : bytes; opposite_port : Z; channel_nonce : Z; channel_height : Z }.

Definition version_factory (e : environment) : version.t :=
  let relay := if derives class_ protocol_70001 then enable_relay settings_ else false in
  let port := if is_unspecified (self_address settings_) then unspecified_ip_port else self_port settings_ in
  version.mk (protocol_maximum settings_) (services_provided settings_) (unix_time e)
    (address_item.mk (unix_time e) 0 (to_address (outbound_ip e)) (opposite_port e))
    (address_item.mk (unix_time e) (services_provided settings_) (self_address settings_) port)
    (channel_nonce e) (configured_agent settings_) (narrow 32 (channel_height e)) relay.

Definition rejection_message (ec : code) : option outgoing :=
  if bool_decide (ec = (error.peer_insufficient : code)) then Some (send_reject obsolete "") else
  if bool_decide (ec = (error.peer_unsupported : code)) then Some (send_reject undefined "services") else
  if bool_decide (ec = (error.protocol_violation : code)) then Some (send_reject duplicate "") else
  if bool_decide (ec = (error.peer_timestamp : code)) then Some (send_reject undefined "timestamp") else None.

Definition rejection (ec : code) (s : t) : t :=
  let s := if derives class_ protocol_70002 && enable_reject settings_
    then match rejection_message ec with Some m => SEND m other_sent s | None => s end else s in
  callback ec s.

Definition signal (s : t) : t :=
  if negb (derives class_ protocol_70016) then s else
  let s := if enable_address settings_ && enable_address_v2 settings_ && gossip_v2 settings_ && (negotiated_version_ s >=? bip155)
    then SEND send_address_v2 other_sent s else s in
  if enable_witness_tx settings_ && (negotiated_version_ s >=? bip339) then SEND send_witness_tx other_sent s else s.

(** [shake] of the base class. *)
Definition shake_106 (e : environment) (h : H) (s : t) : t :=
  if started_ s then add_call (h, error.operation_failed : code) s else
  let s := set_handler (Some h) s in
  if protocol_minimum settings_ <? minimum_protocol then callback error.invalid_configuration s else
  if protocol_maximum settings_ >? maximum_protocol then callback error.invalid_configuration s else
  if protocol_minimum settings_ >? protocol_maximum settings_ then callback error.invalid_configuration s else
  let s := subscribe on_acknowledge (subscribe on_version s) in
  set_started (SEND (send_version (version_factory e)) version_sent s).

Definition shake (e : environment) (h : H) (s : t) : t :=
  if derives class_ protocol_70002 && started_ s then s else
  let s := if derives class_ protocol_70016 then subscribe on_witness_tx (subscribe on_send_address_v2 s) else s in
  let s := if derives class_ protocol_70014 then subscribe on_send_compact s else s in
  let s := if derives class_ protocol_70002 && enable_reject settings_ then subscribe on_reject s else s in
  shake_106 e h s.

Definition handle_timer (ec : code) (s : t) : t :=
  if stopped_ s then s else
  if failed ec then callback ec s else callback error.channel_timeout s.

Definition handle_send_version (ec : code) (s : t) : t :=
  if stopped s ec || complete s then s else
  if negb (channel_handshake settings_ =? 0) then timer_start s else s.

Definition handle_send_acknowledge (ec : code) (s : t) : t :=
  if stopped s ec then s else if complete s then callback error.success s else s.

(** ** Messages that are received

    Each gives whether the subscription remains. *)

Definition violation (s : t) : t := if complete s then stop error.protocol_violation s else rejection error.protocol_violation s.

Definition handle_receive_acknowledge_106 (ec : code) (s : t) : t * bool :=
  if stopped s ec then (s, false) else
  if received_acknowledge_ s then (violation s, false) else
  let s := set_received_acknowledge s in
  let s := if received_version_ s then pause s else s in
  let s := if complete s then callback error.success s else s in
  (s, true).

Definition handle_receive_acknowledge_70014 (ec : code) (s : t) : t * bool :=
  let '(s, kept) := handle_receive_acknowledge_106 ec s in
  if negb kept then (s, false) else
  if enable_compact settings_ && (negotiated_version_ s >=? bip152) then (SEND (send_compact false compact_version_2) other_sent s, true) else (s, true).

Definition handle_receive_acknowledge (ec : code) (s : t) : t * bool :=
  if derives class_ protocol_70016 then handle_receive_acknowledge_70014 ec (set_complete s) else
  if derives class_ protocol_70014 then handle_receive_acknowledge_70014 ec s else handle_receive_acknowledge_106 ec s.

(** The clock counts nanoseconds in a signed integer of 64 bits. *)
Definition signed_64 (v : Z) : Z := (v + 2 ^ 63) mod 2 ^ 64 - 2 ^ 63.

Definition to_deviation (now : Z) (timestamp : Z) : Z :=
  let time := signed_64 (signed_64 timestamp * 1000000000) in
  Z.quot (signed_64 (time - now)) 60000000000.

(** What is refused of a version. *)
Definition refusal (now : Z) (m : version.t) : option code :=
  if negb (Z.land (version.services m) (invalid_services settings_) =? 0) then Some (error.peer_unsupported : code) else
  if negb (Z.land (version.services m) (services_required settings_) =? services_required settings_) then Some (error.peer_insufficient : code) else
  if version.value m <? protocol_minimum settings_ then Some (error.peer_insufficient : code) else
  if Z.abs (to_deviation now (version.timestamp m)) >? maximum_skew_minutes settings_ then Some (error.peer_timestamp : code) else None.

Definition handle_receive_version (now : Z) (ec : code) (m : version.t) (s : t) : t * bool :=
  if stopped s ec then (s, true) else
  if received_version_ s then (violation s, false) else
  match refusal now m with
  | Some ec => (rejection ec s, false)
  | None =>
    let s := set_peer (version.value m `min` protocol_maximum settings_) m s in
    let s := signal s in
    let s := SEND send_acknowledge acknowledge_sent s in
    let s := set_received_version s in
    ((if received_acknowledge_ s then pause s else s), true)
  end.

Definition handle_receive_reject (ec : code) (s : t) : t * bool := if stopped s ec then (s, false) else (s, true).

Definition handle_receive_send_compact (ec : code) (high_bandwidth : bool) (compact_version : Z) (s : t) : t * bool :=
  if stopped s ec then (s, false) else
  if compact_version =? compact_version_2 then (set_compact_blocks high_bandwidth s, true) else (s, true).

(** [peer_version] of a channel that has none has the value zero. *)
Definition peer_value (s : t) : Z := match peer_version_ s with Some m => version.value m | None => 0 end.

Definition handle_receive_send_address_v2 (ec : code) (s : t) : t * bool :=
  if stopped s ec then (s, false) else
  if peer_value s =? 0 then (stop error.protocol_violation s, false) else
  if complete_ s then (stop error.protocol_violation s, false) else (set_wants_address_v2 s, true).

Definition handle_receive_witness_tx_id_relay (ec : code) (s : t) : t * bool :=
  if stopped s ec then (s, false) else
  if peer_value s =? 0 then (stop error.protocol_violation s, false) else
  if complete_ s then (stop error.protocol_violation s, false) else
  if negotiated_version_ s >=? bip339 then (set_wants_witness_tx s, true) else (s, true).

Definition handle_receive (now : Z) (m : message) (s : t) : t * bool :=
  match m with
  | version_message v => handle_receive_version now error.success v s
  | acknowledge_message => handle_receive_acknowledge error.success s
  | reject_message => handle_receive_reject error.success s
  | send_compact_message high_bandwidth compact_version => handle_receive_send_compact error.success high_bandwidth compact_version s
  | send_address_v2_message => handle_receive_send_address_v2 error.success s
  | witness_tx_message => handle_receive_witness_tx_id_relay error.success s
  end.

(** A subscriber that answers false is removed. *)
Definition notify (now : Z) (m : message) (s : t) : t :=
  let '(s, kept) := handle_receive now m s in
  if kept then s else set_subscriptions (filter (fun x => x <> subject_of m) (subscriptions s)) s.

(** [channel_peer::stopping]: the protocol, then the subscribers, are told. *)
Definition stopping (ec : code) (s : t) : t :=
  let s := callback ec s in
  let s := if bool_decide (on_acknowledge ∈ subscriptions s) then (handle_receive_acknowledge ec s).1 else s in
  set_subscriptions [] s.

(** [channel_peer::handle_send]: a failed send stops the channel. *)
Definition handle_send (k : code -> t -> t) (ec : code) (s : t) : t := k ec (if failed ec then stop ec s else s).

Definition finish (p : operation) (ec : code) (s : t) : t :=
  match p with
  | version_sent => handle_send handle_send_version ec s
  | acknowledge_sent => handle_send handle_send_acknowledge ec s
  | other_sent => handle_send (fun _ s => s) ec s
  | timer_runs => handle_timer ec s
  | timer_canceled => handle_timer error.operation_canceled s
  | channel_stops ec => stopping ec s
  end.

(** ** Moves

    A message comes while the channel is not stopped and its gate not held; the
    session resumes the channel that succeeded, or stops it, at any time. *)
Inductive move : t -> t -> Prop :=
  | completes s l p r ec : pending s = l ++ p :: r -> move s (finish p ec (set_pending (l ++ r) s))
  | receives s now m : stopped_ s = false -> held_ s = false -> subject_of m ∈ subscriptions s -> move s (notify now m s)
  | stops s ec : failed ec = true -> move s (stop ec s)
  | resumes s : handler_ s = None -> move s (set_held false s).

(** ** Invariant *)

(** Neither the acknowledgement nor a feature signal. *)
Definition plain (m : outgoing) : Prop := match m with send_acknowledge | send_address_v2 | send_witness_tx => False | _ => True end.

Definition not_acknowledge (m : outgoing) : Prop := m <> send_acknowledge.

(** The acknowledgement is sent once, and signals only before it. *)
Definition ordered (acknowledged : bool) (l : list outgoing) : Prop :=
  if acknowledged then exists a b, l = a ++ send_acknowledge :: b /\ Forall not_acknowledge a /\ Forall plain b else Forall plain l.

Definition accepted (s : t) : Prop := exists now m, refusal now m = None /\ peer_version_ s = Some m /\
  negotiated_version_ s = version.value m `min` protocol_maximum settings_.

Definition stop_pending (s : t) : Prop := exists ec, channel_stops ec ∈ pending s.

Record based (h : H) (s : t) : Prop := {
  sound_handler : handler_ s = Some h /\ called s = [] \/ handler_ s = None /\ exists ec, called s = [(h, ec)];
  sound_success : (h, error.success : code) ∈ called s -> complete s = true;
  sound_version : if received_version_ s then accepted s else peer_version_ s = None;
  sound_order : ordered (received_version_ s) (sent s);
  sound_reasons ec : channel_stops ec ∈ pending s -> failed ec = true
}.

(** Something is pending that will call the handler. *)
Record sound (h : H) (s : t) : Prop := {
  sound_base : based h s;
  sound_waits : handler_ s <> None -> complete s = false -> channel_handshake settings_ <> 0 ->
    version_sent ∈ pending s \/ timer_runs ∈ pending s \/ stop_pending s;
  sound_complete : handler_ s <> None -> complete s = true -> acknowledge_sent ∈ pending s \/ stop_pending s;
  sound_stopped : handler_ s <> None -> stopped_ s = true -> stop_pending s;
  sound_held : handler_ s <> None -> complete s = true -> held_ s = true \/ stopped_ s = true
}.

(** A change that leaves the protocol as it is, and keeps what is pending. *)
Definition extends (s s' : t) : Prop :=
  received_version_ s' = received_version_ s /\ received_acknowledge_ s' = received_acknowledge_ s /\ handler_ s' = handler_ s /\
  called s' = called s /\ peer_version_ s' = peer_version_ s /\ negotiated_version_ s' = negotiated_version_ s /\
  (forall p, p ∈ pending s -> p ∈ pending s') /\ (stopped_ s' = true -> stopped_ s = true \/ stop_pending s') /\
  (held_ s = true -> held_ s' = true) /\ (stopped_ s = true -> stopped_ s' = true) /\
  ((forall ec, channel_stops ec ∈ pending s -> failed ec = true) -> forall ec, channel_stops ec ∈ pending s' -> failed ec = true) /\
  exists l, sent s' = sent s ++ l /\ Forall plain l.

Lemma ordered_app b l k : ordered b l -> Forall plain k -> ordered b (l ++ k).
Proof.
  destruct b; cbn; [| by intros ? ?; apply Forall_app]. intros (x & y & -> & Hx & Hy) Hk. exists x, (y ++ k). rewrite <- app_assoc.
  split_and!; try done. by apply Forall_app.
Qed.

Lemma based_extends h s s' : based h s -> extends s s' -> based h s'.
Proof.
  intros [H1 H2 H3 H4 Hr] (E1 & E2 & E3 & E4 & E5 & E6 & E7 & E8 & E9 & E10 & Er & l & E11 & E12).
  split; rewrite ?E3, ?E4; try done.
  - unfold complete. by rewrite E1, E2.
  - rewrite E1. unfold accepted in *. by rewrite E5, E6.
  - rewrite E1, E11. by apply ordered_app.
  - by apply Er.
Qed.

Lemma sound_extends h s s' : sound h s -> extends s s' -> sound h s'.
Proof.
  intros [Hb H5 H6 H7 H8] He. pose proof (based_extends _ _ _ Hb He) as Hb'. destruct He as (E1 & E2 & E3 & E4 & E5 & E6 & E7 & E8 & E9 & E10 & _).
  assert (complete s' = complete s) as Hc by (unfold complete; by rewrite E1, E2).
  assert (stop_pending s -> stop_pending s') as Hp by (intros [ec Hec]; exists ec; by apply E7).
  split; rewrite ?E3, ?Hc; try done.
  - intros Hh Hi Hz. destruct (H5 Hh Hi Hz) as [? | [? | ?]]; auto.
  - intros Hh Hi. destruct (H6 Hh Hi); auto.
  - intros Hh Hs. destruct (E8 Hs) as [Hs' | ?]; auto.
  - intros Hh Hi. destruct (H8 Hh Hi); auto.
Qed.

Lemma extends_refl s : extends s s.
Proof. unfold extends. split_and!; auto. exists []. by rewrite app_nil_r. Qed.

Lemma extends_trans a b c : extends a b -> extends b c -> extends a c.
Proof.
  intros (A1 & A2 & A3 & A4 & A5 & A6 & A7 & A8 & A9 & A10 & Ar & l & A11 & A12) (B1 & B2 & B3 & B4 & B5 & B6 & B7 & B8 & B9 & B10 & Br & k & B11 & B12).
  unfold extends. split_and!; try congruence; auto.
  - intros Hs. destruct (B8 Hs) as [Hb | ?]; [| auto]. destruct (A8 Hb) as [? | [ec Hec]]; [auto |]. right. exists ec. auto.
  - exists (l ++ k). rewrite B11, A11, app_assoc. split; [done |]. by apply Forall_app.
Qed.

(** An operation is added to what is pending. *)
Definition harmless (p : operation) : Prop := match p with channel_stops ec => failed ec = true | _ => True end.

Lemma reasons_app (l : list operation) p ec : (forall ec, channel_stops ec ∈ l -> failed ec = true) -> harmless p -> channel_stops ec ∈ l ++ [p] -> failed ec = true.
Proof. intros Hl Hp [Hin | <-%list_elem_of_singleton]%elem_of_app; [by apply Hl | exact Hp]. Qed.

Lemma extends_wait p s : harmless p -> extends s (wait p s).
Proof.
  intros Hp. unfold extends, wait. split_and!; auto; cbn; [| | by exists []; rewrite app_nil_r].
  - intros q Hq. apply elem_of_app. by left.
  - intros Hl ec. by apply reasons_app.
Qed.

Lemma extends_stop ec s : failed ec = true -> extends s (stop ec s).
Proof.
  intros Hec. unfold stop. destruct (stopped_ s) eqn:Hs; [apply extends_refl |]. unfold extends, wait. split_and!; auto; cbn.
  - intros q Hq. apply elem_of_app. by left.
  - intros _. right. exists ec. cbn. apply elem_of_app. right. by apply list_elem_of_singleton.
  - intros Hl e. by apply reasons_app.
  - by exists []; rewrite app_nil_r.
Qed.

Lemma extends_send m p s : plain m -> harmless p -> extends s (SEND m p s).
Proof.
  intros Hm Hp. unfold SEND, extends, wait. split_and!; auto; cbn; [intros q Hq; apply elem_of_app; by left | |].
  - intros Hl e. by apply reasons_app.
  - exists [m]. split; [done |]. by apply Forall_cons.
Qed.

Lemma extends_pause s : extends s (pause s).
Proof.
  unfold pause. destruct (stopped_ s) eqn:Hs; [apply extends_refl |]. unfold extends. split_and!; auto. exists []. by rewrite app_nil_r.
Qed.

#[local] Hint Resolve extends_refl extends_wait extends_stop extends_pause : core.

Lemma timer_stop_keeps p s : p <> timer_runs -> p ∈ pending s -> p ∈ pending (timer_stop s).
Proof.
  intros Hp Hin. cbn. apply list_elem_of_fmap. exists p. split; [| done]. by case_bool_decide.
Qed.

Lemma timer_stop_reasons s ec : channel_stops ec ∈ pending (timer_stop s) -> channel_stops ec ∈ pending s.
Proof. cbn. intros (p & Hp & Hin)%list_elem_of_fmap. case_bool_decide; congruence. Qed.

Lemma callback_handler ec s : handler_ (callback ec s) = None.
Proof. unfold callback. cbn. by destruct (handler_ s) eqn:Hh. Qed.

(** Once the handler was called nothing needs to be pending. *)
Lemma sound_without h s : based h s -> handler_ s = None -> sound h s.
Proof. intros Hb Hh. by split; rewrite ?Hh. Qed.

Lemma sound_callback h ec s : based h s -> (ec = (error.success : code) -> complete s = true) -> sound h (callback ec s).
Proof.
  intros [H1 H2 H3 H4 Hr] Hec. apply sound_without; [| apply callback_handler]. unfold callback. cbn [handler_ timer_stop set_pending].
  assert (forall e, channel_stops e ∈ pending (timer_stop s) -> failed e = true) as Hr' by (intros e He%timer_stop_reasons; by apply Hr).
  destruct (handler_ s) eqn:Hh.
  - destruct H1 as [[[= ->] Hc] | [? _]]; [| done]. split; cbn; try done.
    + right. rewrite Hc. split; [done |]. by exists ec.
    + rewrite Hc. intros Hin%list_elem_of_singleton. injection Hin as <-. by apply Hec.
  - split; cbn; try done; rewrite Hh; try done.
Qed.

(** A handler that ends by calling back fails, or completes. *)
Lemma sound_rejection h ec s : based h s -> ec <> (error.success : code) -> sound h (rejection ec s).
Proof.
  intros Hs Hec. unfold rejection. apply sound_callback; [| done]. destruct (_ && _); [| done].
  unfold rejection_message. repeat case_bool_decide; try done; (eapply based_extends; [exact Hs | by apply extends_send]).
Qed.

Lemma sound_violation h s : sound h s -> sound h (violation s).
Proof.
  intros Hs. unfold violation. destruct (complete s); [eapply sound_extends; [exact Hs | by apply extends_stop] |].
  by apply sound_rejection; [apply Hs |].
Qed.

(** ** Completions *)

Lemma not_success ec : failed ec = true -> ec <> (error.success : code).
Proof. intros Hf ->. done. Qed.

(** What is pending without one operation. *)
Lemma without_base h s l p r : based h s -> pending s = l ++ p :: r -> based h (set_pending (l ++ r) s).
Proof.
  intros [H1 H2 H3 H4 Hr] Hp. split; try done. cbn. intros ec Hin. apply Hr. rewrite Hp. apply elem_of_app. apply elem_of_app in Hin as [? | ?]; [by left | right; by right].
Qed.

Lemma without_keeps s l p r q : pending s = l ++ p :: r -> q ∈ pending s -> q <> p -> q ∈ pending (set_pending (l ++ r) s).
Proof. intros Hp Hq Hne. cbn. rewrite Hp in Hq. apply elem_of_app. apply elem_of_app in Hq as [? | [? | ?]%elem_of_cons]; [by left | done | by right]. Qed.

Lemma without_stop s l p r : pending s = l ++ p :: r -> (forall ec, p <> channel_stops ec) -> stop_pending s -> stop_pending (set_pending (l ++ r) s).
Proof. intros Hp Hne [ec Hec]. exists ec. by apply (without_keeps s l p r); [| | apply not_eq_sym]. Qed.

Lemma stop_stops ec s : stopped_ (stop ec s) = true.
Proof. unfold stop. by destruct (stopped_ s) eqn:Hs. Qed.

(** The completion of a send, of which the handler does not come to continue. *)
Lemma sound_sent h s l p r ec : sound h s -> pending s = l ++ p :: r -> (forall ec, p <> channel_stops ec) ->
  let s' := if failed ec then stop ec (set_pending (l ++ r) s) else set_pending (l ++ r) s in
  based h s' /\ (handler_ s' <> None -> stopped_ s' = true -> stop_pending s') /\ (handler_ s' <> None -> complete s' = true -> held_ s' = true \/ stopped_ s' = true) /\
  (forall q, q ∈ pending s -> q <> p -> q ∈ pending s') /\ handler_ s' = handler_ s /\ complete s' = complete s /\ (stopped_ s = true -> stopped_ s' = true).
Proof.
  intros [Hb H5 H6 H7 H8] Hp Hne s'. pose proof (without_base _ _ _ _ _ Hb Hp) as Hb'.
  set (s1 := set_pending (l ++ r) s) in *. assert (extends s1 s') as He by (unfold s'; destruct (failed ec) eqn:Hf; [by apply extends_stop | done]).
  pose proof (based_extends _ _ _ Hb' He) as Hb''. destruct He as (E1 & E2 & E3 & E4 & E5 & E6 & E7 & E8 & E9 & E10 & _).
  assert (complete s' = complete s) as Hc by (unfold complete; by rewrite E1, E2).
  assert (stop_pending s -> stop_pending s') as Hstop by (intros Hs; destruct (without_stop _ _ _ _ Hp Hne Hs) as [e He]; exists e; by apply E7).
  split_and!; rewrite ?E3, ?Hc; try done.
  - intros Hh Hs. destruct (E8 Hs) as [Hs' | ?]; [| done]. by apply Hstop, H7.
  - intros Hh Hc'. destruct (H8 Hh Hc'); [left; by apply E9 | right; by apply E10].
  - intros q Hq Hqp. by apply E7, (without_keeps s l p r).
Qed.

Lemma sound_version_sent h s l r ec : sound h s -> pending s = l ++ version_sent :: r ->
  sound h (finish version_sent ec (set_pending (l ++ r) s)).
Proof.
  intros Hs Hp. destruct (sound_sent _ _ _ _ _ ec Hs Hp ltac:(done)) as (Hb & H7 & H8 & Hk & Hh & Hc & Hst). cbn [finish]. unfold handle_send, handle_send_version.
  set (s' := if failed ec then _ else _) in *.
  assert (stopped_ s' = true \/ complete s' = true \/ channel_handshake settings_ = 0 -> sound h s') as Hdone.
  { intros Hor. split; try done.
    - intros Hhn Hi Hz. destruct Hor as [Ht | [Ht | Ht]]; [right; right; by apply H7 | congruence | done].
    - intros Hhn Hi. rewrite Hh in Hhn. rewrite Hc in Hi. destruct (sound_complete _ _ Hs Hhn Hi) as [Ha | [e He]]; [left | right; exists e]; by apply Hk. }
  destruct (stopped s' ec || complete s') eqn:Hor.
  - apply Hdone. apply orb_true_iff in Hor as [Hor | ?]; [| auto]. unfold stopped in Hor. apply orb_true_iff in Hor as [? | Hf]; [auto |].
    left. unfold s'. rewrite Hf. apply stop_stops.
  - destruct (channel_handshake settings_ =? 0) eqn:Hz; cbn [negb]; [apply Hdone; lia |].
    apply orb_false_iff in Hor as [Ho Hi]. unfold stopped in Ho. apply orb_false_iff in Ho as [Ho _].
    destruct Hb as [B1 B2 B3 B4 Br]. split; [split; try done | | | |]; cbn; try done.
    + intros e [He%timer_stop_reasons | He%list_elem_of_singleton]%elem_of_app; [by apply Br | done].
    + intros _ _ _. right. left. apply elem_of_app. right. by apply list_elem_of_singleton.
    + intros _ Hx. change (complete s' = true) in Hx. congruence.
    + intros _ Hx. congruence.
Qed.

Lemma sound_acknowledge_sent h s l r ec : sound h s -> pending s = l ++ acknowledge_sent :: r ->
  sound h (finish acknowledge_sent ec (set_pending (l ++ r) s)).
Proof.
  intros Hs Hp. destruct (sound_sent _ _ _ _ _ ec Hs Hp ltac:(done)) as (Hb & H7 & H8 & Hk & Hh & Hc & Hst). cbn [finish]. unfold handle_send, handle_send_acknowledge.
  set (s' := if failed ec then _ else _) in *.
  assert (stopped_ s' = true \/ complete s' = false -> sound h s') as Hdone.
  { intros Hor. split; try done.
    - intros Hhn Hi Hz. rewrite Hh in Hhn. rewrite Hc in Hi. destruct (sound_waits _ _ Hs Hhn Hi Hz) as [? | [? | [e ?]]];
        [left; by apply Hk | right; left; by apply Hk | right; right; exists e; by apply Hk].
    - intros Hhn Hi. destruct Hor as [Ht | Ht]; [right; by apply H7 | congruence]. }
  destruct (stopped s' ec) eqn:Ho.
  - apply Hdone. left. unfold stopped in Ho. apply orb_true_iff in Ho as [? | Hf]; [done |]. unfold s'. rewrite Hf. apply stop_stops.
  - destruct (complete s') eqn:Hi; [| by apply Hdone; right]. by apply sound_callback.
Qed.

Lemma sound_other_sent h s l r ec : sound h s -> pending s = l ++ other_sent :: r -> sound h (finish other_sent ec (set_pending (l ++ r) s)).
Proof.
  intros Hs Hp. destruct (sound_sent _ _ _ _ _ ec Hs Hp ltac:(done)) as (Hb & H7 & H8 & Hk & Hh & Hc & Hst). cbn [finish]. unfold handle_send.
  split; try done; rewrite Hh, Hc.
  - intros Hhn Hi Hz. destruct (sound_waits _ _ Hs Hhn Hi Hz) as [? | [? | [e ?]]];
      [left; by apply Hk | right; left; by apply Hk | right; right; exists e; by apply Hk].
  - intros Hhn Hi. destruct (sound_complete _ _ Hs Hhn Hi) as [? | [e ?]]; [left; by apply Hk | right; exists e; by apply Hk].
Qed.

Lemma sound_timer h s l p r ec : sound h s -> pending s = l ++ p :: r -> p = timer_runs \/ p = timer_canceled -> sound h (handle_timer ec (set_pending (l ++ r) s)).
Proof.
  intros Hs Hp Ht. pose proof (without_base _ _ _ _ _ (sound_base _ _ Hs) Hp) as Hb. unfold handle_timer. cbn [stopped_ set_pending].
  destruct (stopped_ s) eqn:Hst.
  - assert (handler_ s <> None -> stop_pending (set_pending (l ++ r) s)) as Hstop.
    { intros Hh. eapply without_stop; [exact Hp | by destruct Ht as [-> | ->] | by apply (sound_stopped _ _ Hs)]. }
    split; try done; cbn; auto.
  - destruct (failed ec) eqn:Hf; apply sound_callback; try done. by intros ->.
Qed.

Lemma based_same h s s' : based h s -> handler_ s' = handler_ s -> called s' = called s -> received_version_ s' = received_version_ s ->
  received_acknowledge_ s' = received_acknowledge_ s -> peer_version_ s' = peer_version_ s -> negotiated_version_ s' = negotiated_version_ s ->
  sent s' = sent s -> pending s' = pending s -> based h s'.
Proof.
  intros [H1 H2 H3 H4 Hr] E1 E2 E3 E4 E5 E6 E7 E8. split; rewrite ?E1, ?E2, ?E3, ?E7, ?E8; try done.
  - unfold complete. by rewrite E3, E4.
  - unfold accepted in *. by rewrite E5, E6.
Qed.

Lemma handle_acknowledge_stopped ec s : failed ec = true -> (handle_receive_acknowledge ec s).1 = (if derives class_ protocol_70016 then set_complete s else s).
Proof.
  intros Hf. unfold handle_receive_acknowledge, handle_receive_acknowledge_70014, handle_receive_acknowledge_106, stopped. rewrite Hf, !orb_true_r. cbn.
  destruct (derives class_ protocol_70016); [done |]. by destruct (derives class_ protocol_70014).
Qed.

Lemma sound_stopping h s l ec r : sound h s -> pending s = l ++ channel_stops ec :: r -> sound h (stopping ec (set_pending (l ++ r) s)).
Proof.
  intros Hs Hp. pose proof (without_base _ _ _ _ _ (sound_base _ _ Hs) Hp) as Hb.
  assert (failed ec = true) as Hf by (apply (sound_reasons _ _ (sound_base _ _ Hs)); rewrite Hp; apply elem_of_app; right; by left).
  unfold stopping. pose proof (sound_callback h ec _ Hb ltac:(intros ->; done)) as Hc. pose proof (callback_handler ec (set_pending (l ++ r) s)) as Hh.
  revert Hc Hh. generalize (callback ec (set_pending (l ++ r) s)). intros s' Hc Hh. rewrite (handle_acknowledge_stopped ec s' Hf).
  apply sound_without.
  - destruct (bool_decide _), (derives class_ protocol_70016); by apply (based_same h s'); [apply Hc | ..].
  - by destruct (bool_decide _), (derives class_ protocol_70016).
Qed.

(** ** Messages *)

Lemma sound_finished h s : sound h s -> received_version_ s = true -> received_acknowledge_ s = false ->
  sound h (callback error.success (pause (set_received_acknowledge s))).
Proof.
  intros Hs Hv Ha. apply sound_callback; [| unfold pause; cbn; by destruct (stopped_ s); unfold complete; cbn; rewrite Hv].
  destruct Hs as [[H1 H2 H3 H4 Hr] _ _ _ _]. unfold pause. cbn. destruct (stopped_ s); (split; try done; cbn; unfold complete; cbn; by rewrite Hv).
Qed.

Lemma sound_acknowledge_106 h s : sound h s -> stopped_ s = false -> sound h (handle_receive_acknowledge_106 error.success s).1 /\
  (received_acknowledge_ s = true -> (handle_receive_acknowledge_106 error.success s).2 = false).
Proof.
  intros Hs Hst. unfold handle_receive_acknowledge_106, stopped. rewrite Hst. cbn [orb]. change (failed (error.success : code)) with false. cbn iota.
  destruct (received_acknowledge_ s) eqn:Ha; [split; [by apply sound_violation | done] |]. cbn [fst snd]. split; [| done].
  destruct (received_version_ s) eqn:Hv.
  - cbn [received_version_ set_received_acknowledge]. rewrite Hv. unfold complete, pause. cbn. rewrite Hst. cbn. rewrite Hv. cbn.
    pose proof (sound_finished h s Hs Hv Ha) as Hf. unfold pause in Hf. cbn in Hf. by rewrite Hst in Hf.
  - cbn [received_version_ set_received_acknowledge]. rewrite Hv. unfold complete. cbn. rewrite Hv. cbn.
    destruct Hs as [[H1 H2 H3 H4 Hr] H5 H6 H7 H8]. unfold complete in *. rewrite Hv in *. split; [split; try done |..]; cbn; unfold complete; cbn; rewrite ?Hv; cbn; try done.
Qed.

Lemma sound_acknowledge h s : sound h s -> stopped_ s = false -> sound h (handle_receive_acknowledge error.success s).1.
Proof.
  intros Hs Hst.
  assert (forall v, sound h v -> stopped_ v = false -> sound h (handle_receive_acknowledge_70014 error.success v).1) as Hcompact.
  { intros v Hv Hvs. unfold handle_receive_acknowledge_70014. destruct (sound_acknowledge_106 h v Hv Hvs) as [Ha _].
    destruct (handle_receive_acknowledge_106 error.success v) as [v' kept]. cbn [fst] in Ha. destruct kept; cbn [negb]; [| done].
    destruct (_ && _); [| done]. eapply sound_extends; [exact Ha | by apply extends_send]. }
  unfold handle_receive_acknowledge. destruct (derives class_ protocol_70016).
  - apply Hcompact; [| done]. destruct Hs as [[H1 H2 H3 H4 Hr] H5 H6 H7 H8]. by split; [split |..].
  - destruct (derives class_ protocol_70014); [by apply Hcompact | by apply sound_acknowledge_106].
Qed.

(** What signals change. *)
Definition signals (s s' : t) : Prop := exists k n,
  sent s' = sent s ++ k /\ Forall not_acknowledge k /\ pending s' = pending s ++ replicate n other_sent /\
  handler_ s' = handler_ s /\ called s' = called s /\ received_version_ s' = received_version_ s /\ received_acknowledge_ s' = received_acknowledge_ s /\
  stopped_ s' = stopped_ s /\ held_ s' = held_ s /\ peer_version_ s' = peer_version_ s /\ negotiated_version_ s' = negotiated_version_ s.

Lemma signals_refl s : signals s s.
Proof. exists [], 0%nat. cbn. rewrite !app_nil_r. by split_and!; try apply List.Forall_nil. Qed.

Lemma signals_send m s s' : not_acknowledge m -> signals s s' -> signals s (SEND m other_sent s').
Proof.
  intros Hm (k & n & H1 & H2 & H3 & H4). exists (k ++ [m]), (S n). cbn [SEND wait add_sent set_pending sent pending handler_ called received_version_
    received_acknowledge_ stopped_ held_ peer_version_ negotiated_version_]. split_and!; try apply H4.
  - by rewrite H1, app_assoc.
  - apply Forall_app. split; [done | by apply Forall_cons].
  - rewrite H3, replicate_S_end. by rewrite app_assoc.
Qed.

Lemma signal_signals s : signals s (signal s).
Proof.
  unfold signal. destruct (negb _); [apply signals_refl |].
  assert (forall b m v, not_acknowledge m -> signals s v -> signals s (if b : bool then SEND m other_sent v else v)) as Hif
    by (intros b m v Hm Hv; destruct b; [by apply signals_send | done]).
  repeat apply Hif; try done. apply signals_refl.
Qed.

Lemma sound_accept h now m s : sound h s -> stopped_ s = false -> received_version_ s = false -> refusal now m = None ->
  let s' := set_received_version (SEND send_acknowledge acknowledge_sent (signal (set_peer (version.value m `min` protocol_maximum settings_) m s))) in
  sound h (if received_acknowledge_ s' then pause s' else s').
Proof.
  intros [[H1 H2 H3 H4 Hr] H5 H6 H7 H8] Hst Hv Hm s'. rewrite Hv in *.
  destruct (signal_signals (set_peer (version.value m `min` protocol_maximum settings_) m s)) as (k & n & S1 & S2 & S3 & S4 & S5 & S6 & S7 & S8 & S9 & S10 & S11).
  set (v := signal _) in *. cbn in S1, S3, S4, S5, S6, S7, S8, S9, S10, S11.
  assert (based h s') as Hb.
  { split; cbn; rewrite ?S4, ?S5; try done.
    - intros Hin. specialize (H2 Hin). unfold complete in H2. by rewrite Hv in H2.
    - exists now, m. change (peer_version_ s') with (peer_version_ v). change (negotiated_version_ s') with (negotiated_version_ v). by rewrite S10, S11.
    - exists (sent s ++ k), []. rewrite S1. split_and!; [done | | done]. apply Forall_app. split; [| done].
      eapply Forall_impl; [exact H4 |]. by intros [].
    - rewrite S3. intros ec [[Hin | Hin]%elem_of_app | Hin]%elem_of_app; [by apply Hr | by apply elem_of_replicate_inv in Hin | by apply list_elem_of_singleton in Hin]. }
  assert (forall q, q ∈ pending s -> q ∈ pending s') as Hk by (intros q Hq; cbn; rewrite S3; apply elem_of_app; left; apply elem_of_app; by left).
  assert (acknowledge_sent ∈ pending s') as Hack by (cbn; apply elem_of_app; right; by apply list_elem_of_singleton).
  change (received_acknowledge_ s') with (received_acknowledge_ v). rewrite S7. destruct (received_acknowledge_ s) eqn:Ha.
  - unfold pause. change (stopped_ s') with (stopped_ v). rewrite S8, Hst. split; [by apply (based_same h s') | ..].
    + intros _ Hc _. unfold complete in Hc. cbn in Hc. by rewrite S7 in Hc.
    + intros _ _. by left.
    + intros _ Hx. cbn in Hx. congruence.
    + intros _ _. by left.
  - assert (complete s' = false) as Hc by (unfold complete; cbn; by rewrite S7). split; [done | ..]; rewrite ?Hc; try done.
    + intros Hh _ Hz. change (handler_ s') with (handler_ v) in Hh. rewrite S4 in Hh. unfold complete in H5. rewrite Hv in H5.
      destruct (H5 Hh eq_refl Hz) as [? | [? | [e ?]]]; [left | right; left | right; right; exists e]; by apply Hk.
    + intros _ Hx. cbn in Hx. congruence.
Qed.

Lemma sound_receive_version h now m s : sound h s -> stopped_ s = false -> sound h (handle_receive_version now error.success m s).1.
Proof.
  intros Hs Hst. unfold handle_receive_version, stopped. rewrite Hst. cbn [orb]. change (failed (error.success : code)) with false. cbn iota.
  destruct (received_version_ s) eqn:Hv; [by apply sound_violation |]. destruct (refusal now m) as [ec |] eqn:Hm.
  - apply sound_rejection; [apply Hs |]. intros ->. unfold refusal in Hm. repeat case_match; discriminate Hm.
  - by apply (sound_accept h now).
Qed.

Lemma sound_fields h s s' : sound h s -> handler_ s' = handler_ s -> called s' = called s -> received_version_ s' = received_version_ s ->
  received_acknowledge_ s' = received_acknowledge_ s -> peer_version_ s' = peer_version_ s -> negotiated_version_ s' = negotiated_version_ s ->
  sent s' = sent s -> pending s' = pending s -> stopped_ s' = stopped_ s -> held_ s' = held_ s -> sound h s'.
Proof.
  intros [Hb H5 H6 H7 H8] E1 E2 E3 E4 E5 E6 E7 E8 E9 E10. unfold complete, stop_pending in *.
  split; [by apply (based_same h s) | ..]; unfold complete, stop_pending; rewrite ?E1, ?E3, ?E4, ?E8, ?E9, ?E10; done.
Qed.

Lemma handshake_receive_sound h now m s : sound h s -> stopped_ s = false -> sound h (handle_receive now m s).1.
Proof.
  intros Hs Hst. destruct m as [v | | | hb cv | |]; cbn [handle_receive].
  - by apply sound_receive_version.
  - by apply sound_acknowledge.
  - unfold handle_receive_reject. by destruct (stopped s _).
  - unfold handle_receive_send_compact. destruct (stopped s _); [done |]. destruct (_ =? _); [| done]. by apply (sound_fields h s).
  - unfold handle_receive_send_address_v2. destruct (stopped s _); [done |]. destruct (_ =? _); [eapply sound_extends; [done | by apply extends_stop] |].
    destruct (complete_ s); [eapply sound_extends; [done | by apply extends_stop] |]. by apply (sound_fields h s).
  - unfold handle_receive_witness_tx_id_relay. destruct (stopped s _); [done |]. destruct (_ =? _); [eapply sound_extends; [done | by apply extends_stop] |].
    destruct (complete_ s); [eapply sound_extends; [done | by apply extends_stop] |]. destruct (_ >=? _); [| done]. by apply (sound_fields h s).
Qed.

Lemma handshake_move_sound h s s' : sound h s -> move s s' -> sound h s'.
Proof.
  intros Hs Hm. destruct Hm as [s l p r ec Hp | s now m Hst Hh Hsub | s ec Hec | s Hh].
  - destruct p.
    + by apply sound_version_sent.
    + by apply sound_acknowledge_sent.
    + by apply sound_other_sent.
    + apply (sound_timer h s l timer_runs r); auto.
    + apply (sound_timer h s l timer_canceled r); auto.
    + by apply sound_stopping.
  - unfold notify. pose proof (handshake_receive_sound h now m s Hs Hst) as Hr. destruct (handle_receive now m s) as [s' kept]. cbn [fst] in Hr.
    destruct kept; [done |]. by apply (sound_fields h s').
  - eapply sound_extends; [done | by apply extends_stop].
  - apply sound_without; [by apply (based_same h s); [apply Hs | ..] | done].
Qed.

(** ** Theorems *)

Lemma sound_shake e h : sound h (shake e h make).
Proof.
  assert (forall s, sent s = [] -> called s = [] -> pending s = [] -> received_version_ s = false -> peer_version_ s = None -> stopped_ s = false -> started_ s = false ->
    sound h (shake_106 e h s)) as Hbase.
  { intros s H1 H2 H3 H4 H5 H6 H7. unfold shake_106. rewrite H7. cbn [started_ set_handler].
    assert (based h (set_handler (Some h) s)) as Hb.
    { split; cbn; rewrite ?H1, ?H2, ?H3, ?H4; try done.
      - by left.
      - intros Hx. by apply elem_of_nil in Hx.
      - apply List.Forall_nil.
      - intros ec Hx. by apply elem_of_nil in Hx. }
    destruct (_ <? _); [by apply sound_callback |]. destruct (_ >? _); [by apply sound_callback |]. destruct (_ >? _); [by apply sound_callback |].
    assert (complete s = false) as Hc by (unfold complete; by rewrite H4).
    split; [split |..]; cbn; rewrite ?H1, ?H2, ?H3, ?H4, ?H5, ?H6; try done.
    - by left.
    - intros Hx. by apply elem_of_nil in Hx.
    - by apply Forall_cons.
    - intros ec Hx. by apply elem_of_cons in Hx as [? | Hx%elem_of_nil].
    - intros _ _ _. left. by left.
    - intros _ Hx. exfalso. change (complete s = true) in Hx. congruence.
    - intros _ Hx. exfalso. change (complete s = true) in Hx. congruence. }
  unfold shake. cbn [started_ make]. rewrite andb_false_r. cbv iota.
  destruct (derives class_ protocol_70016), (derives class_ protocol_70014), (derives class_ protocol_70002 && enable_reject settings_); by apply Hbase.
Qed.

Lemma reachable_handshake e h s : rtc move (shake e h make) s -> sound h s.
Proof.
  pose proof (sound_shake e h) as Hs. revert Hs. intros Hs Hr. induction Hr as [| v v' v'' Hm _ IH]; [done |]. by apply IH, (handshake_move_sound h v).
Qed.

(** C23: the handshake of peers.  However messages, sends, the timer, and stops of the
    channel interleave, the handler of a handshake is called at most once; with
    success only when both the version and its acknowledgement were received, and the
    version passed every check (no invalid service, the required services,
    the minimum version, a clock within the skew); the version that was
    negotiated is the lesser of the peer's and the configured maximum; and
    the acknowledgement is sent once, after the signals of features. *)
Theorem version_handshake_sound e h s : rtc move (shake e h make) s ->
  (handler_ s = Some h /\ called s = [] \/ handler_ s = None /\ exists ec, called s = [(h, ec)]) /\
  ((h, error.success : code) ∈ called s -> received_version_ s = true /\ received_acknowledge_ s = true /\
    exists now m, peer_version_ s = Some m /\
      Z.land (version.services m) (invalid_services settings_) = 0 /\
      Z.land (version.services m) (services_required settings_) = services_required settings_ /\
      protocol_minimum settings_ <= version.value m /\
      Z.abs (to_deviation now (version.timestamp m)) <= maximum_skew_minutes settings_ /\
      negotiated_version_ s = version.value m `min` protocol_maximum settings_) /\
  ordered (received_version_ s) (sent s).
Proof.
  intros [[H1 H2 H3 H4 _] _ _ _ _]%reachable_handshake. split; [done |]. split; [| done]. intros Hin. specialize (H2 Hin).
  unfold complete in H2. apply andb_true_iff in H2 as [Hv Ha]. rewrite Hv in H3. split; [done |]. split; [done |].
  destruct H3 as (now & m & Hr & Hp & Hn). exists now, m. unfold refusal in Hr.
  destruct (_ =? 0) eqn:E1 in Hr; [| done]. cbn [negb] in Hr. destruct (_ =? services_required _) eqn:E2 in Hr; [| done]. cbn [negb] in Hr.
  destruct (_ <? _) eqn:E3 in Hr; [done |]. destruct (_ >? _) eqn:E4 in Hr; [done |]. split_and!; try done; lia.
Qed.

(** C24: the handshake ends.  Where the configuration has a timeout, a handshake
    whose handler was not called waits for the send of its version, its timer,
    the send of its acknowledgement, or the stop of its channel: when nothing is pending,
    the handler was called. *)
Theorem version_handshake_ends e h s : rtc move (shake e h make) s -> channel_handshake settings_ <> 0 ->
  (handler_ s <> None -> exists p, p ∈ pending s /\ match p with other_sent | timer_canceled => False | _ => True end) /\
  (pending s = [] -> exists ec, called s = [(h, ec)]).
Proof.
  intros Hs%reachable_handshake Hz.
  assert (handler_ s <> None -> exists p, p ∈ pending s /\ match p with other_sent | timer_canceled => False | _ => True end) as Hp.
  { intros Hh. destruct (complete s) eqn:Hc.
    - destruct (sound_complete _ _ Hs Hh Hc) as [? | [ec ?]]; by eexists.
    - destruct (sound_waits _ _ Hs Hh Hc Hz) as [? | [? | [ec ?]]]; by eexists. }
  split; [done |]. intros Hno. destruct (sound_handler _ _ (sound_base _ _ Hs)) as [[Hh _] | [_ ?]]; [| done].
  destruct (Hp ltac:(by rewrite Hh)) as (p & Hin & _). rewrite Hno in Hin. by apply elem_of_nil in Hin.
Qed.

(** ** The gate *)

(** What calls the handler, if anything does, fails. *)
Definition no_success (s s' : t) : Prop := called s' = called s \/ exists h ec, called s' = called s ++ [(h, ec)] /\ ec <> (error.success : code).

Lemma callback_fails ec s : ec <> (error.success : code) -> no_success s (callback ec s).
Proof. intros Hec. unfold callback. cbn [handler_ timer_stop set_pending]. destruct (handler_ s) eqn:Hh; [right | by left]. by exists h, ec. Qed.

Lemma no_success_from s v s' : called v = called s -> no_success v s' -> no_success s s'.
Proof. unfold no_success. by intros ->. Qed.

Lemma stop_called ec s : called (stop ec s) = called s.
Proof. unfold stop. by destruct (stopped_ s). Qed.

Lemma violation_fails s : no_success s (violation s).
Proof.
  unfold violation. destruct (complete s); [left; apply stop_called |]. unfold rejection.
  eapply no_success_from; [| by apply callback_fails]. destruct (_ && _); [| done]. by destruct (rejection_message _).
Qed.

Lemma rejection_fails ec s : ec <> (error.success : code) -> no_success s (rejection ec s).
Proof.
  intros Hec. unfold rejection. eapply no_success_from; [| by apply callback_fails]. destruct (_ && _); [| done]. by destruct (rejection_message _).
Qed.

Lemma not_called h s s' : called s = [] -> no_success s s' -> (h, error.success : code) ∈ called s' -> False.
Proof.
  intros Hs [-> | (h' & ec & -> & Hec)]; rewrite Hs; [by intros Hin%elem_of_nil |]. intros Hin%list_elem_of_singleton. by injection Hin as _ <-.
Qed.

Lemma signal_called s : called (signal s) = called s.
Proof. destruct (signal_signals s) as (k & n & _ & _ & _ & _ & Hc & _). done. Qed.

Lemma version_fails now m s : no_success s (handle_receive_version now error.success m s).1.
Proof.
  unfold handle_receive_version. destruct (stopped s _); [by left |]. destruct (received_version_ s); [apply violation_fails |].
  destruct (refusal now m) as [ec |] eqn:Hm.
  - apply rejection_fails. intros ->. unfold refusal in Hm. repeat case_match; discriminate Hm.
  - left. cbn [fst]. unfold pause. repeat case_match; cbn; by rewrite signal_called.
Qed.

Definition gated (s : t) : Prop := held_ s = true /\ stopped_ s = false.

Lemma acknowledge_106_gated h s : stopped_ s = false -> called s = [] -> (h, error.success : code) ∈ called (handle_receive_acknowledge_106 error.success s).1 ->
  gated (handle_receive_acknowledge_106 error.success s).1.
Proof.
  intros Hst Hc. unfold handle_receive_acknowledge_106, stopped. rewrite Hst. cbn [orb]. change (failed (error.success : code)) with false. cbn iota.
  destruct (received_acknowledge_ s); [intros Hin; exfalso; eapply not_called; [exact Hc | apply violation_fails | exact Hin] |].
  cbn [fst received_version_ set_received_acknowledge]. unfold pause, complete, callback, gated. cbn. rewrite Hst.
  destruct (received_version_ s) eqn:Hv; cbn; rewrite ?Hv; cbn; [| rewrite Hc; by intros Hin%elem_of_nil].
  destruct (handler_ s) eqn:Hh; cbn; [done |]. rewrite Hc. by intros Hin%elem_of_nil.
Qed.

Lemma acknowledge_gated h s : stopped_ s = false -> called s = [] -> (h, error.success : code) ∈ called (handle_receive_acknowledge error.success s).1 ->
  gated (handle_receive_acknowledge error.success s).1.
Proof.
  assert (forall v, stopped_ v = false -> called v = [] -> (h, error.success : code) ∈ called (handle_receive_acknowledge_70014 error.success v).1 ->
    gated (handle_receive_acknowledge_70014 error.success v).1) as Hcompact.
  { intros v Hv Hc. unfold handle_receive_acknowledge_70014. pose proof (acknowledge_106_gated h v Hv Hc) as Hg.
    destruct (handle_receive_acknowledge_106 error.success v) as [v' kept]. destruct kept; cbn [negb fst] in *; [| done]. by destruct (_ && _). }
  unfold handle_receive_acknowledge. intros Hst Hc. destruct (derives class_ protocol_70016); [exact (Hcompact (set_complete s) Hst Hc) |].
  destruct (derives class_ protocol_70014); [by apply Hcompact | by apply acknowledge_106_gated].
Qed.

Lemma finish_gated h s l p r ec : sound h s -> handler_ s = Some h -> pending s = l ++ p :: r ->
  (h, error.success : code) ∈ called (finish p ec (set_pending (l ++ r) s)) -> gated (finish p ec (set_pending (l ++ r) s)).
Proof.
  intros Hs Hh Hp. assert (called s = []) as Hc by (destruct (sound_handler _ _ (sound_base _ _ Hs)) as [[_ ?] | [? _]]; congruence).
  destruct p; cbn [finish].
  - unfold handle_send, handle_send_version. intros Hin. exfalso.
    set (v := if failed ec then _ else _) in Hin. assert (called v = []) as Hn by (unfold v; destruct (failed ec); by rewrite ?stop_called).
    clearbody v. revert Hin. destruct (stopped v ec || complete v), (channel_handshake settings_ =? 0); cbn; rewrite Hn; by intros Hx%elem_of_nil.
  - destruct (sound_sent _ _ _ _ _ ec Hs Hp ltac:(done)) as (_ & _ & H8 & _ & Hh' & _).
    unfold handle_send, handle_send_acknowledge. set (s' := if failed ec then _ else _) in *.
    assert (called s' = []) as Hn by (unfold s'; destruct (failed ec); by rewrite ?stop_called).
    destruct (stopped s' ec) eqn:Ho; [rewrite Hn; by intros Hin%elem_of_nil |].
    destruct (complete s') eqn:Hi; [| rewrite Hn; by intros Hin%elem_of_nil]. intros _.
    unfold stopped in Ho. apply orb_false_iff in Ho as [Ho _]. destruct (H8 ltac:(by rewrite Hh', Hh) eq_refl) as [Hheld | ?]; [| congruence].
    unfold callback, gated. cbn. by destruct (handler_ s').
  - unfold handle_send. intros Hin. exfalso.
    assert (called (if failed ec then stop ec (set_pending (l ++ r) s) else set_pending (l ++ r) s) = []) as Hn by (destruct (failed ec); by rewrite ?stop_called).
    rewrite Hn in Hin. by apply elem_of_nil in Hin.
  - intros Hin. exfalso. refine (not_called _ (set_pending (l ++ r) s) _ Hc _ Hin).
    unfold handle_timer. destruct (stopped_ _); [by left |]. destruct (failed ec) eqn:Hf; apply callback_fails; [by apply not_success | done].
  - intros Hin. exfalso. refine (not_called _ (set_pending (l ++ r) s) _ Hc _ Hin).
    unfold handle_timer. destruct (stopped_ _); [by left |]. by apply callback_fails.
  - assert (failed ec0 = true) as Hf by (apply (sound_reasons _ _ (sound_base _ _ Hs)); rewrite Hp; apply elem_of_app; right; by left).
    intros Hin. exfalso. refine (not_called _ (set_pending (l ++ r) s) _ Hc _ Hin).
    unfold stopping. pose proof (callback_fails ec0 (set_pending (l ++ r) s) (not_success _ Hf)) as Hcb. revert Hcb.
    generalize (callback ec0 (set_pending (l ++ r) s)). intros v Hv. rewrite (handle_acknowledge_stopped ec0 v Hf).
    destruct (bool_decide _), (derives class_ protocol_70016); exact Hv.
Qed.

(** The gate of the handshake.  When the handler is called with success, the
    channel is not stopped and its gate is held, so that no message of the
    peer is received before the session has attached its protocols and resumes it. *)
Theorem version_handshake_gate e h s s' : rtc move (shake e h make) s -> handler_ s = Some h -> move s s' ->
  (h, error.success : code) ∈ called s' -> held_ s' = true /\ stopped_ s' = false.
Proof.
  intros Hs%reachable_handshake Hh Hm. assert (called s = []) as Hc by (destruct (sound_handler _ _ (sound_base _ _ Hs)) as [[_ ?] | [? _]]; congruence).
  destruct Hm as [s l p r ec Hp | s now m Hst Hheld Hsub | s ec Hec | s Hno].
  - by apply finish_gated.
  - unfold notify. assert ((h, error.success : code) ∈ called (handle_receive now m s).1 -> gated (handle_receive now m s).1) as Hg.
    { destruct m as [v | | | hb cv | |]; cbn [handle_receive].
      - intros Hin. exfalso. refine (not_called _ s _ Hc _ Hin). apply version_fails.
      - by apply acknowledge_gated.
      - unfold handle_receive_reject. repeat case_match; cbn; rewrite ?stop_called, Hc; by intros Hx%elem_of_nil.
      - unfold handle_receive_send_compact. repeat case_match; cbn; rewrite ?stop_called, Hc; by intros Hx%elem_of_nil.
      - unfold handle_receive_send_address_v2. repeat case_match; cbn; rewrite ?stop_called, Hc; by intros Hx%elem_of_nil.
      - unfold handle_receive_witness_tx_id_relay. repeat case_match; cbn; rewrite ?stop_called, Hc; by intros Hx%elem_of_nil. }
    destruct (handle_receive now m s) as [v kept]. by destruct kept.
  - rewrite stop_called, Hc. by intros Hin%elem_of_nil.
  - congruence.
Qed.

(** A class that derives from 70002 drops the handler of a second [shake], which
    the base class calls with operation_failed. *)
Lemma shake_again e h s : started_ s = true ->
  shake e h s = if derives class_ protocol_70002 then s else add_call (h, error.operation_failed : code) s.
Proof.
  intros Hs. unfold shake, shake_106. rewrite Hs, andb_true_r. destruct (derives class_ protocol_70002) eqn:Hd; [done |].
  destruct class_; cbn in Hd; try discriminate Hd; cbn; by rewrite Hs.
Qed.
End protocol.

(** A timestamp that is far away passes the check of the clock where the product
    in nanoseconds wraps. *)
Lemma deviation_wraps now timestamp : 0 <= timestamp -> timestamp + 2 ^ 55 < 2 ^ 63 -> to_deviation now (timestamp + 2 ^ 55) = to_deviation now timestamp.
Proof.
  intros Ht Hm. unfold to_deviation. do 2 f_equal. f_equal. unfold signed_64.
  rewrite (Z.mod_small (timestamp + 2 ^ 55 + 2 ^ 63) (2 ^ 64)), (Z.mod_small (timestamp + 2 ^ 63) (2 ^ 64)) by lia. f_equal.
  replace ((timestamp + 2 ^ 55 + 2 ^ 63 - 2 ^ 63) * 1000000000 + 2 ^ 63) with ((timestamp + 2 ^ 63 - 2 ^ 63) * 1000000000 + 2 ^ 63 + 1953125 * 2 ^ 64) by lia.
  by rewrite Z_mod_plus_full.
Qed.

(** ** A handshake of the example *)

#[local] Program Instance rfc4291_prefix : IpPrefix :=
  {| mapped_prefix := [0; 0; 0; 0; 0; 0; 0; 0; 0; 0; 255; 255] |}.
Next Obligation. done. Qed.
Next Obligation. apply is_bytes_ok. reflexivity. Qed.

Definition example_settings : settings :=
  mk_settings 31402 70016 1 9 176 120 30 true true true true true true true monostate 8333 [47; 98; 115; 47].

Definition example_environment : environment :=
  mk_environment 1700000000 [0; 0; 0; 0; 0; 0; 0; 0; 0; 0; 255; 255; 1; 2; 3; 4] 8333 77 800000.

Definition example_greeting : version.t :=
  version.mk 70016 9 1700000000 (address_item.mk 0 0 monostate 0) (address_item.mk 0 9 monostate 0) 42 [] 800000 true.

Definition example_start : t := shake protocol_70016 example_settings example_environment tt (make example_settings).
Definition example_sent : t := finish protocol_70016 example_settings version_sent error.success (set_pending [] example_start).
Definition example_greeted : t := notify protocol_70016 example_settings 1700000000000000000 (version_message example_greeting) example_sent.
Definition example_shaken : t := notify protocol_70016 example_settings 1700000000000000000 acknowledge_message example_greeted.

Lemma example_before : rtc (move protocol_70016 example_settings) example_start example_greeted.
Proof.
  transitivity example_sent; apply rtc_once.
  - by apply (completes _ _ example_start [] version_sent []).
  - apply receives; [done | done | refine (bool_decide_eq_true_1 _ _); vm_compute; reflexivity].
Qed.

Lemma example_last : move protocol_70016 example_settings example_greeted example_shaken.
Proof. apply receives; [done | done | refine (bool_decide_eq_true_1 _ _); vm_compute; reflexivity]. Qed.

Lemma example_called : called example_shaken = [(tt, error.success : code)].
Proof. vm_compute. reflexivity. Qed.

Lemma version_handshake_sound_witness : received_version_ example_shaken = true /\ received_acknowledge_ example_shaken = true.
Proof.
  destruct (version_handshake_sound _ _ example_environment tt example_shaken (rtc_r _ _ _ example_before example_last)) as (_ & Hs & _).
  destruct Hs as (Hv & Ha & _); [rewrite example_called; by left | by split].
Defined.

Lemma version_handshake_ends_witness : exists p, p ∈ pending example_greeted /\ match p with other_sent | timer_canceled => False | _ => True end.
Proof.
  destruct (version_handshake_ends _ _ example_environment tt example_greeted example_before ltac:(by cbv)) as [Hp _].
  apply Hp. vm_compute. discriminate.
Defined.

Lemma version_handshake_gate_witness : held_ example_shaken = true /\ stopped_ example_shaken = false.
Proof.
  refine (version_handshake_gate _ _ example_environment tt example_greeted example_shaken example_before _ example_last _).
  - vm_compute. reflexivity.
  - rewrite example_called. by left.
Defined.
End version_protocol.
