(* ===== verification/Channel.v ===== *)
(** * Channel: the read cycle, the gate and the timers of a channel

    Models [src/channels/channel.cpp] with the read cycles of
    [channel_peer.cpp], [channel_http.cpp] and [channel_rpc.ipp].  All runs on the
    strand of the channel, but that a reference to a gate is released, and the
    channel stopped, from any thread.  A gate is a counted reference: it lives
    while it is published, held or retained, and arms the read when it dies. *)

From S2P Require Import Prelude.
From S2P Require Import Errors.

Module channel.

(** ** Configuration *)

Inductive kind := peer | rpc | http.

(** The kind of the channel, the spans of its timers, zero where there is none,
    and for http whether values that are not collections are tolerated, and
    whether credentials are required, or are given after an upgrade. *)
Record options := mk_options { channel_kind : kind; inactivity : Z; expiration : Z; lax_params : bool; authorize : bool; in_band : bool }.

Inductive timer := inactivity_timer | expiration_timer.

#[export] Instance timer_eq_dec : EqDecision timer.
Proof. solve_decision. Defined.

(** What is pending on the strand: the read, the arming of the read, the poll
    for the close of the peer, the completion of a timer, the answer that precedes
    a stop, and the stop. *)
Inductive operation :=
  | read_completes
  | receive_posted
  | poll_completes
  | timer_completes (x : timer) (ec : code)
  | answer_sent (reason : code)
  | stop_posted (ec : code).

#[export] Instance operation_eq_dec : EqDecision operation.
Proof. solve_decision. Defined.

Section channel.
Context (options_ : options).

(** ** State *)

(** [retained] are the references that protocols keep; [gates] counts the gates made. *)
Record t := mk {
  stopped_ : bool; reading_ : bool; gate_ : option nat; held_ : option nat; retained : list nat; gates : nat;
  monitored_ : bool; polling_ : bool; inactivity_ : option Z; expiration_ : option Z; last_read_ : Z;
  authorized_ : bool; pending : list operation }.

Definition make (now : Z) : t := mk false false None None [] 0 false false None None now (negb (authorize options_)) [].

Definition set_stopped (s : t) : t := mk true (reading_ s) (gate_ s) (held_ s) (retained s) (gates s)
  (monitored_ s) (polling_ s) (inactivity_ s) (expiration_ s) (last_read_ s) (authorized_ s) (pending s).
Definition set_reading (b : bool) (s : t) : t := mk (stopped_ s) b (gate_ s) (held_ s) (retained s) (gates s)
  (monitored_ s) (polling_ s) (inactivity_ s) (expiration_ s) (last_read_ s) (authorized_ s) (pending s).
Definition set_gate (g : option nat) (s : t) : t := mk (stopped_ s) (reading_ s) g (held_ s) (retained s) (gates s)
  (monitored_ s) (polling_ s) (inactivity_ s) (expiration_ s) (last_read_ s) (authorized_ s) (pending s).
Definition set_held (g : option nat) (s : t) : t := mk (stopped_ s) (reading_ s) (gate_ s) g (retained s) (gates s)
  (monitored_ s) (polling_ s) (inactivity_ s) (expiration_ s) (last_read_ s) (authorized_ s) (pending s).
Definition set_retained (l : list nat) (s : t) : t := mk (stopped_ s) (reading_ s) (gate_ s) (held_ s) l (gates s)
  (monitored_ s) (polling_ s) (inactivity_ s) (expiration_ s) (last_read_ s) (authorized_ s) (pending s).
Definition set_gates (n : nat) (s : t) : t := mk (stopped_ s) (reading_ s) (gate_ s) (held_ s) (retained s) n
  (monitored_ s) (polling_ s) (inactivity_ s) (expiration_ s) (last_read_ s) (authorized_ s) (pending s).
Definition set_monitored (b : bool) (s : t) : t := mk (stopped_ s) (reading_ s) (gate_ s) (held_ s) (retained s) (gates s)
  b (polling_ s) (inactivity_ s) (expiration_ s) (last_read_ s) (authorized_ s) (pending s).
Definition set_polling (b : bool) (s : t) : t := mk (stopped_ s) (reading_ s) (gate_ s) (held_ s) (retained s) (gates s)
  (monitored_ s) b (inactivity_ s) (expiration_ s) (last_read_ s) (authorized_ s) (pending s).
Definition set_timer (x : timer) (d : option Z) (s : t) : t :=
  match x with
  | inactivity_timer => mk (stopped_ s) (reading_ s) (gate_ s) (held_ s) (retained s) (gates s)
      (monitored_ s) (polling_ s) d (expiration_ s) (last_read_ s) (authorized_ s) (pending s)
  | expiration_timer => mk (stopped_ s) (reading_ s) (gate_ s) (held_ s) (retained s) (gates s)
      (monitored_ s) (polling_ s) (inactivity_ s) d (last_read_ s) (authorized_ s) (pending s)
  end.
Definition set_last_read (now : Z) (s : t) : t := mk (stopped_ s) (reading_ s) (gate_ s) (held_ s) (retained s) (gates s)
  (monitored_ s) (polling_ s) (inactivity_ s) (expiration_ s) now (authorized_ s) (pending s).
Definition set_authorized_ (b : bool) (s : t) : t := mk (stopped_ s) (reading_ s) (gate_ s) (held_ s) (retained s) (gates s)
  (monitored_ s) (polling_ s) (inactivity_ s) (expiration_ s) (last_read_ s) b (pending s).
Definition set_pending (l : list operation) (s : t) : t := mk (stopped_ s) (reading_ s) (gate_ s) (held_ s) (retained s) (gates s)
  (monitored_ s) (polling_ s) (inactivity_ s) (expiration_ s) (last_read_ s) (authorized_ s) l.

Definition wait (p : operation) (s : t) : t := set_pending (pending s ++ [p]) s.

(** [proxy::stop], of a channel that has no batch. *)
Definition stop (ec : code) (s : t) : t := if stopped_ s then s else wait (stop_posted ec) (set_stopped s).

(** ** Timers *)

Definition timer_of (x : timer) (s : t) : option Z := match x with inactivity_timer => inactivity_ s | expiration_timer => expiration_ s end.

Definition span_of (x : timer) : Z := match x with inactivity_timer => inactivity options_ | expiration_timer => expiration options_ end.

(** [deadline::stop]: what waits completes with a cancellation. *)
Definition timer_stop (x : timer) (s : t) : t :=
  match timer_of x s with None => s | Some _ => wait (timer_completes x error.operation_canceled) (set_timer x None s) end.

Definition timer_start (x : timer) (now span : Z) (s : t) : t := set_timer x (Some (now + span)) (timer_stop x s).

(** A timer whose span is zero is not made. *)
Definition stop_timer (x : timer) (s : t) : t := if span_of x =? 0 then s else timer_stop x s.

Definition start_timer (x : timer) (now : Z) (s : t) : t :=
  if stopped_ s then s else if span_of x =? 0 then s else timer_start x now (span_of x) s.

Definition handle_expiration (ec : code) (s : t) : t :=
  if stopped_ s || bool_decide (ec = (error.operation_canceled : code)) then s else
  if failed ec then stop ec s else stop error.channel_expired s.

Definition handle_inactivity (now : Z) (ec : code) (s : t) : t :=
  if stopped_ s || bool_decide (ec = (error.operation_canceled : code)) then s else
  if failed ec then stop ec s else
  let idle := now - last_read_ s in
  if idle <? span_of inactivity_timer then timer_start inactivity_timer now (span_of inactivity_timer - idle) s else stop error.channel_inactive s.

Definition handle_timer (x : timer) (now : Z) (ec : code) (s : t) : t :=
  match x with inactivity_timer => handle_inactivity now ec s | expiration_timer => handle_expiration ec s end.

(** ** The monitor *)

(** The poll of a socket that is stopped completes at once, without another. *)
Definition start_monitor (s : t) : t := if stopped_ s then set_polling false s else wait poll_completes (set_polling true s).

Definition monitor (value : bool) (s : t) : t :=
  let s := set_monitored value s in if value && negb (polling_ s) then start_monitor s else s.

Definition handle_monitor (ec : code) (s : t) : t :=
  let s := set_polling false s in
  if failed ec then stop ec s else if monitored_ s && negb (stopped_ s) then start_monitor s else s.

(** ** The gate *)

Definition alive (g : nat) (s : t) : bool := bool_decide (gate_ s = Some g) || bool_decide (held_ s = Some g) || bool_decide (g ∈ retained s).

(** A reference is gone: [handle_gate] posts the arming of the read if it was the last. *)
Definition unreference (g : option nat) (s : t) : t :=
  match g with None => s | Some g => if alive g s then s else wait receive_posted s end.

Definition reset_gate (s : t) : t := unreference (gate_ s) (set_gate None s).
Definition reset_held (s : t) : t := unreference (held_ s) (set_held None s).

Definition make_gate (s : t) : nat * t := (gates s, set_gates (S (gates s)) s).

Definition open_gate (s : t) : t := let '(g, s) := make_gate s in unreference (gate_ s) (set_gate (Some g) s).
Definition close_gate (s : t) : t := reset_gate s.

(** [gate]: the protocol keeps the reference. *)
Definition gate (s : t) : t :=
  match gate_ s with None => s | Some g => set_retained (g :: retained s) (monitor true s) end.

Definition release (l : list nat) (g : nat) (r : list nat) (s : t) : t := unreference (Some g) (set_retained (l ++ r) s).

Definition pause (s : t) : t :=
  let s := stop_timer inactivity_timer (stop_timer expiration_timer s) in
  if stopped_ s then s else
  let '(g, s) := match gate_ s with Some g => (g, s) | None => make_gate s end in
  unreference (held_ s) (set_held (Some g) s).

(** [receive] of a channel; [reading] is told at the start of the read. *)
Definition receive (now : Z) (s : t) : t :=
  if stopped_ s || reading_ s then s else wait read_completes (set_last_read now (set_reading true s)).

Definition do_receive (now : Z) (s : t) : t := receive now (monitor false s).

Definition resume (now : Z) (s : t) : t :=
  let s := start_timer inactivity_timer now (start_timer expiration_timer now s) in
  match held_ s with Some _ => reset_held s | None => receive now s end.

Definition stopping (s : t) : t := reset_held (stop_timer inactivity_timer (stop_timer expiration_timer s)).

(** ** Messages

    A message that is dispatched opens the gate, which is closed when all
    subscribers have been notified. *)

Definition handle_receive_peer (ec : code) (s : t) : t :=
  if stopped_ s then s else if failed ec then stop ec s else open_gate (set_reading false s).

Definition dispatched (ec : code) (s : t) : t := let s := close_gate s in if failed ec then stop ec s else s.

(** What a request is: over a websocket, of a stream that was downgraded, with
    what credential, and with what body. *)
Record request := mk_request {
  websocket : bool; downgraded : bool; credential : bool; accepts : code;
  lax_params_ : bool; lax_batch : bool; batch : bool }.

Definition handle_receive_rpc (ec : code) (m : request) (s : t) : t :=
  if stopped_ s then s else if failed ec then stop ec s else
  let s := set_reading false s in
  if lax_batch m then stop error.jsonrpc_batch_requires_v2 s else open_gate s.

Definition set_authorized (m : request) (s : t) : t := if authorized_ s then s else set_authorized_ (credential m) s.

Definition reject (reason : code) (s : t) : t := wait (answer_sent reason) s.

Definition handle_rejected (ec reason : code) (s : t) : t :=
  stop (if failed ec then ec else reason) s.

(** The status that answers a request that the parser rejects, zero if unknown. *)
Definition to_status (ec : code) : Z :=
  if bool_decide (ec = (error.header_limit : code)) then 431 else
  if bool_decide (ec = (error.body_limit : code)) || bool_decide (ec = (error.buffer_overflow : code)) then 413 else
  if bool_decide (ec = (error.bad_method : code)) then 501 else
  if bool_decide (ec ∈ [error.bad_line_ending : code; error.bad_target : code; error.bad_version : code; error.bad_field : code; error.bad_value : code;
    error.bad_content_length : code; error.bad_transfer_encoding : code; error.bad_chunk : code; error.bad_chunk_extension : code;
    error.bad_obs_fold : code; error.multiple_content_length : code]) then 400 else 0.

Definition dispatch_http (m : request) (s : t) : t :=
  if negb (websocket m) && negb (downgraded m) && negb (authorized_ s) then reject error.unauthorized s else
  if lax_params_ m && negb (lax_params options_) then stop error.jsonrpc_params_not_collection s else
  if lax_batch m then stop error.jsonrpc_batch_requires_v2 s else
  if websocket m && batch m then stop error.jsonrpc_batch_unsupported s else open_gate s.

Definition handle_receive_http (now : Z) (ec : code) (m : request) (s : t) : t :=
  if stopped_ s then s else
  if bool_decide (ec = (error.upgrade : code)) then
    let s := set_reading false (set_authorized m s) in
    if negb (authorized_ s) && negb (in_band options_) then reject error.unauthorized s else
    if failed (accepts m) then stop (accepts m) s else receive now s
  else if failed ec then
    if negb (to_status ec =? 0) && negb (websocket m) && negb (downgraded m) then reject ec s else stop ec s
  else
    let s := if negb (websocket m) && negb (downgraded m) then set_authorized m s else s in
    dispatch_http m (set_reading false s).

Definition handle_receive (now : Z) (ec : code) (m : request) (s : t) : t :=
  match channel_kind options_ with
  | peer => handle_receive_peer ec s
  | rpc => handle_receive_rpc ec m s
  | http => handle_receive_http now ec m s
  end.

(** A job of the strand. *)
Definition run (p : operation) (now : Z) (ec : code) (m : request) (s : t) : t :=
  match p with
  | read_completes => handle_receive now ec m s
  | receive_posted => do_receive now s
  | poll_completes => handle_monitor ec s
  | timer_completes x ec => handle_timer x now ec s
  | answer_sent reason => handle_rejected ec reason s
  | stop_posted _ => stopping s
  end.

(** ** Moves

    The time, the channel, whether it was resumed, and since when it is not
    paused. *)
Record world := mk_world { now : Z; self : t; started : bool; resumed : option Z }.

Definition with_self (s : t) (w : world) : world := mk_world (now w) s (started w) (resumed w).

(** A job runs when no dispatch is in progress.  Protocols keep the gate and
    pause in a dispatch; the session resumes a new channel, and one that is held
    or stopped. *)
Inductive move : world -> world -> Prop :=
  | passes w time : now w <= time -> move w (mk_world time (self w) (started w) (resumed w))
  | fires w x d : timer_of x (self w) = Some d -> d <= now w ->
      move w (with_self (wait (timer_completes x error.success) (set_timer x None (self w))) w)
  | runs w l p r ec m : pending (self w) = l ++ p :: r -> gate_ (self w) = None ->
      move w (with_self (run p (now w) ec m (set_pending (l ++ r) (self w))) w)
  | notified w ec : gate_ (self w) <> None -> move w (with_self (dispatched ec (self w)) w)
  | stops w ec : failed ec = true -> move w (with_self (stop ec (self w)) w)
  | keeps w : gate_ (self w) <> None -> move w (with_self (gate (self w)) w)
  | releases w l g r : retained (self w) = l ++ g :: r -> move w (with_self (release l g r (self w)) w)
  | pauses w : gate_ (self w) <> None -> held_ (self w) = None -> move w (mk_world (now w) (pause (self w)) (started w) None)
  | resumes w : held_ (self w) <> None \/ stopped_ (self w) = true \/ started w = false ->
      move w (mk_world (now w) (resume (now w) (self w)) true (Some (now w))).

Definition initial (time : Z) : world := mk_world time (make time) false None.

(** ** Accounts *)

Definition count (p : operation) (s : t) : nat := length (filter (fun q => q = p) (pending s)).

Definition reads (s : t) : nat := count read_completes s.
Definition posts (s : t) : nat := count receive_posted s.
Definition polls (s : t) : nat := count poll_completes s.

Definition references (s : t) : list nat := option_list (gate_ s) ++ option_list (held_ s) ++ retained s.

Definition answering (s : t) : Prop := exists reason, answer_sent reason ∈ pending s.

(** What arms the read: the read itself, its arming, or the one gate that lives. *)
Inductive turn (st : bool) (s : t) : Prop :=
  | turn_read : reads s = 1%nat -> posts s = 0%nat -> references s = [] -> st = true -> turn st s
  | turn_posted : reads s = 0%nat -> posts s = 1%nat -> references s = [] -> (stopped_ s = false -> reading_ s = false) -> st = true -> turn st s
  | turn_gate g : reads s = 0%nat -> posts s = 0%nat -> references s <> [] -> Forall (eq g) (references s) ->
      (stopped_ s = false -> reading_ s = false) -> st = true -> turn st s
  | turn_none : reads s = 0%nat -> posts s = 0%nat -> references s = [] ->
      stopped_ s = true \/ answering s /\ st = true \/ st = false /\ reading_ s = false -> turn st s.

Record watch (s : t) : Prop := {
  watch_polls : polls s = if polling_ s then 1%nat else 0%nat;
  watch_kept : retained s <> [] -> monitored_ s = true;
  watch_monitored : monitored_ s = true -> stopped_ s = false -> polling_ s = true
}.

(** The timer runs, and is due by a time. *)
Definition due_by (x : timer) (limit : Z) (s : t) : Prop :=
  (exists d, timer_of x s = Some d /\ d <= limit) \/ timer_completes x error.success ∈ pending s.

Record clock (w : world) : Prop := {
  clock_last : last_read_ (self w) <= now w;
  clock_stops ec : stop_posted ec ∈ pending (self w) -> stopped_ (self w) = true;
  clock_resumed since : resumed w = Some since -> since <= now w;
  clock_inactivity since : stopped_ (self w) = false -> resumed w = Some since -> span_of inactivity_timer <> 0 ->
    due_by inactivity_timer (Z.max (last_read_ (self w)) since + span_of inactivity_timer) (self w);
  clock_expiration since : stopped_ (self w) = false -> resumed w = Some since -> span_of expiration_timer <> 0 ->
    due_by expiration_timer (since + span_of expiration_timer) (self w)
}.

(** ** Counting *)

Lemma count_wait p q s : count p (wait q s) = (count p s + if bool_decide (q = p) then 1 else 0)%nat.
Proof. unfold count, wait. cbn. rewrite filter_app, length_app, filter_cons, filter_nil. case_bool_decide; [rewrite decide_True by done | rewrite decide_False by done]; cbn; lia. Qed.

Lemma count_same p s s' : pending s' = pending s -> count p s' = count p s.
Proof. unfold count. by intros ->. Qed.

Lemma count_take p q l r s : pending s = l ++ q :: r -> count p s = (count p (set_pending (l ++ r) s) + if bool_decide (q = p) then 1 else 0)%nat.
Proof.
  intros Hp. unfold count. cbn. rewrite Hp, !filter_app, !length_app, filter_cons. case_bool_decide; [rewrite decide_True by done | rewrite decide_False by done]; cbn; lia.
Qed.

(** What differs in timers, codes and polls only. *)
Record same_turn (s s' : t) : Prop := {
  same_stopped : stopped_ s' = stopped_ s;
  same_reading : reading_ s' = reading_ s;
  same_references : references s' = references s;
  same_reads : reads s' = reads s;
  same_posts : posts s' = posts s;
  same_answering : answering s -> answering s'
}.

Lemma same_turn_refl s : same_turn s s.
Proof. by split. Qed.

Lemma same_turn_trans s1 s2 s3 : same_turn s1 s2 -> same_turn s2 s3 -> same_turn s1 s3.
Proof. intros [] []. split; try congruence; auto. Qed.

Lemma turn_same st s s' : same_turn s s' -> turn st s -> turn st s'.
Proof.
  intros [Hst Hrd Hrf Hr Hp Ha] [H1 H2 H3 H4 | H1 H2 H3 H4 H5 | g H1 H2 H3 H4 H5 H6 | H1 H2 H3 H4].
  - apply turn_read; congruence.
  - apply turn_posted; rewrite ?Hr, ?Hp, ?Hrf, ?Hrd, ?Hst; auto.
  - apply (turn_gate _ _ g); rewrite ?Hr, ?Hp, ?Hrf, ?Hrd, ?Hst; auto.
  - apply turn_none; try congruence. rewrite Hst, Hrd. destruct H4 as [? | [[? ?] | ?]]; auto.
Qed.

Definition neutral (p : operation) : Prop := p <> read_completes /\ p <> receive_posted.

Lemma same_wait p s : neutral p -> same_turn s (wait p s).
Proof.
  intros [H1 H2]. split; try done.
  - unfold reads. rewrite count_wait. case_bool_decide; [congruence | lia].
  - unfold posts. rewrite count_wait. case_bool_decide; [congruence | lia].
  - intros [r Hr]. exists r. cbn. apply elem_of_app. by left.
Qed.

Lemma same_take p l r s : pending s = l ++ p :: r -> neutral p -> (forall reason, p <> answer_sent reason) -> same_turn s (set_pending (l ++ r) s).
Proof.
  intros Hp [H1 H2] H3. split; try done.
  - unfold reads. rewrite (count_take _ _ _ _ _ Hp). case_bool_decide; [congruence | lia].
  - unfold posts. rewrite (count_take _ _ _ _ _ Hp). case_bool_decide; [congruence | lia].
  - intros [e He]. exists e. cbn. rewrite Hp in He. apply elem_of_app in He as [He | He]; [apply elem_of_app; by left |].
    apply elem_of_cons in He as [He | He]; [by destruct (H3 e) | apply elem_of_app; by right].
Qed.

Lemma same_timer x d s : same_turn s (set_timer x d s).
Proof. by destruct x. Qed.

Lemma same_timer_stop x s : same_turn s (timer_stop x s).
Proof. unfold timer_stop. destruct (timer_of x s); [| apply same_turn_refl]. eapply same_turn_trans; [apply same_timer | by apply same_wait]. Qed.

Lemma same_timer_start x now span s : same_turn s (timer_start x now span s).
Proof. eapply same_turn_trans; [apply same_timer_stop | apply same_timer]. Qed.

Lemma same_stop_timer x s : same_turn s (stop_timer x s).
Proof. unfold stop_timer. destruct (_ =? _); [apply same_turn_refl | apply same_timer_stop]. Qed.

Lemma same_start_timer x now s : same_turn s (start_timer x now s).
Proof. unfold start_timer. destruct (stopped_ s), (span_of x =? 0); try apply same_turn_refl. apply same_timer_start. Qed.

Lemma same_monitor_parts b c s : same_turn s (set_monitored b (set_polling c s)).
Proof. by split. Qed.

Lemma same_start_monitor s : same_turn s (start_monitor s).
Proof. unfold start_monitor. destruct (stopped_ s); [by split |]. eapply same_turn_trans; [| by apply same_wait]. by split. Qed.

Lemma same_monitor b s : same_turn s (monitor b s).
Proof. unfold monitor. destruct (_ && _); [| by split]. eapply same_turn_trans; [| apply same_start_monitor]. by split. Qed.

(** A stop leaves the turn as it is, and the channel stopped. *)
Lemma turn_stop st ec s : turn st s -> turn st (stop ec s).
Proof.
  intros Ht. unfold stop. destruct (stopped_ s); [done |]. apply (turn_same _ (set_stopped s)); [by apply same_wait |].
  destruct Ht as [H1 H2 H3 H4 | H1 H2 H3 H4 H5 | g H1 H2 H3 H4 H5 H6 | H1 H2 H3 H4].
  - by apply turn_read.
  - by apply turn_posted.
  - by apply (turn_gate _ _ g).
  - apply turn_none; auto.
Qed.

Lemma stop_stopped ec s : stopped_ (stop ec s) = true.
Proof. unfold stop. by destruct (stopped_ s) eqn:Hs. Qed.

Lemma turn_none_stop st ec s : reads s = 0%nat -> posts s = 0%nat -> references s = [] -> turn st (stop ec s).
Proof.
  intros. destruct (stopped_ s) eqn:Hs.
  - unfold stop. rewrite Hs. apply turn_none; auto.
  - unfold stop. rewrite Hs. apply (turn_same _ (set_stopped s)); [by apply same_wait |]. apply turn_none; auto.
Qed.

Lemma turn_answer reason s : reads s = 0%nat -> posts s = 0%nat -> references s = [] -> turn true (reject reason s).
Proof.
  intros H1 H2 H3. apply turn_none.
  - unfold reads, reject in *. by rewrite count_wait, H1.
  - unfold posts, reject in *. by rewrite count_wait, H2.
  - done.
  - right. left. split; [| done]. exists reason. cbn. apply elem_of_app. right. by left.
Qed.

(** ** The gate *)

Lemma alive_references g s : alive g s = bool_decide (g ∈ references s).
Proof.
  unfold alive, references. rewrite <- !bool_decide_or. apply bool_decide_ext. rewrite !elem_of_app.
  destruct (gate_ s) as [a |], (held_ s) as [b |]; cbn; rewrite ?list_elem_of_singleton, ?elem_of_nil; intuition (congruence || (subst; auto)).
Qed.

(** What unreferenced gives: the arming of the read, or another reference to the gate. *)
Lemma turn_unreference g s : reads s = 0%nat -> posts s = 0%nat -> Forall (eq g) (references s) ->
  (stopped_ s = false -> reading_ s = false) -> turn true (unreference (Some g) s).
Proof.
  intros Hr Hp Hf Hrd. unfold unreference. rewrite alive_references. case_bool_decide as Hin.
  - apply (turn_gate _ _ g); auto. intros Hn. rewrite Hn in Hin. by apply elem_of_nil in Hin.
  - assert (references s = []) as Hn.
    { destruct (references s) as [| g' l] eqn:Hl; [done |]. inversion Hf; subst. exfalso. apply Hin. by left. }
    unfold reads, posts in *. apply turn_posted; try done; unfold reads, posts; by rewrite count_wait, ?Hr, ?Hp.
Qed.

(** The parts of a turn in which a gate lives. *)
Lemma turn_gates st s : turn st s -> references s <> [] ->
  exists g, reads s = 0%nat /\ posts s = 0%nat /\ Forall (eq g) (references s) /\ (stopped_ s = false -> reading_ s = false) /\ st = true.
Proof. intros [| | g | ] Hn; try done. by exists g. Qed.

Lemma references_gate s g : gate_ s = Some g -> references s = g :: references (set_gate None s).
Proof. unfold references. cbn. by intros ->. Qed.

Lemma turn_close st s : turn st s -> gate_ s <> None -> turn st (close_gate s).
Proof.
  intros Ht Hg. unfold close_gate, reset_gate. destruct (gate_ s) as [g |] eqn:Hgs; [| done].
  pose proof (references_gate _ _ Hgs) as Hrf. destruct (turn_gates _ _ Ht ltac:(by rewrite Hrf)) as (g' & Hr & Hp & Hf & Hrd & ->).
  rewrite Hrf in Hf. inversion Hf; subst. by apply turn_unreference.
Qed.

Lemma turn_reset_held st s : turn st s -> turn st (reset_held s).
Proof.
  intros Ht. unfold reset_held. destruct (held_ s) as [g |] eqn:Hh.
  - assert (references s <> []) as Hn by (unfold references; rewrite Hh; by destruct (gate_ s)).
    destruct (turn_gates _ _ Ht Hn) as (g' & Hr & Hp & Hf & Hrd & ->).
    unfold references in Hf. rewrite Hh in Hf. apply Forall_app in Hf as [Hf1 Hf2]. cbn in Hf2. inversion Hf2; subst.
    apply turn_unreference; auto. unfold references. cbn. by apply Forall_app.
  - apply (turn_same _ s); [| done]. split; try done. unfold references. cbn. by rewrite Hh.
Qed.

Lemma turn_release st l g r s : turn st s -> retained s = l ++ g :: r -> turn st (release l g r s).
Proof.
  intros Ht Hl. assert (references s <> []) as Hn by (unfold references; rewrite Hl; destruct (option_list (gate_ s)), (option_list (held_ s)), l; done).
  destruct (turn_gates _ _ Ht Hn) as (g' & Hr & Hp & Hf & Hrd & ->).
  unfold references in Hf. rewrite Hl, !Forall_app, Forall_cons in Hf. destruct Hf as (H1 & H2 & H3 & <- & H4).
  apply turn_unreference; auto. unfold references. cbn. by rewrite !Forall_app.
Qed.

Lemma turn_open s : reads s = 0%nat -> posts s = 0%nat -> references s = [] -> turn true (open_gate (set_reading false s)).
Proof.
  intros Hr Hp Hn. assert (gate_ s = None /\ held_ s = None /\ retained s = []) as (H1 & H2 & H3).
  { unfold references in Hn. destruct (gate_ s), (held_ s); done. }
  unfold open_gate, make_gate. cbn. rewrite H1. cbn. apply (turn_gate _ _ (gates s)); auto; unfold references; cbn; rewrite H2, H3; by repeat constructor.
Qed.

Lemma turn_receive now s : reads s = 0%nat -> posts s = 0%nat -> references s = [] -> (stopped_ s = false -> reading_ s = false) -> turn true (receive now s).
Proof.
  intros Hr Hp Hn Hrd. unfold receive. destruct (stopped_ s) eqn:Hs; cbn [orb]; [by apply turn_none; auto |]. rewrite (Hrd eq_refl).
  apply turn_read; unfold reads, posts; rewrite ?count_wait, ?(count_same _ s (set_last_read now (set_reading true s))) by done; [fold (reads s); by rewrite Hr | fold (posts s); by rewrite Hp | done | done].
Qed.

(** ** Each job *)

Lemma take_turn st p l r s : turn st s -> pending s = l ++ p :: r -> p = read_completes \/ p = receive_posted ->
  let s' := set_pending (l ++ r) s in
  reads s' = 0%nat /\ posts s' = 0%nat /\ references s' = [] /\ st = true /\ (p = receive_posted -> stopped_ s = false -> reading_ s = false).
Proof.
  intros Ht Hp Hk s'. pose proof (count_take read_completes _ _ _ _ Hp) as H1. pose proof (count_take receive_posted _ _ _ _ Hp) as H2.
  fold s' in H1, H2.
  change (references s') with (references s). unfold reads, posts.
  destruct Ht as [Hr Hq Hn Hb | Hr Hq Hn Hrd Hb | g Hr Hq | Hr Hq]; unfold reads, posts in Hr, Hq; destruct Hk as [-> | ->];
    repeat case_bool_decide; try congruence; repeat split; try done; lia.
Qed.

Lemma turn_handle_receive now st ec m l r s : turn st s -> pending s = l ++ read_completes :: r ->
  turn st (handle_receive now ec m (set_pending (l ++ r) s)).
Proof.
  intros Ht Hp. destruct (take_turn _ _ _ _ _ Ht Hp (or_introl eq_refl)) as (Hr & Hq & Hn & -> & _). set (v := set_pending (l ++ r) s) in *. clearbody v. clear Ht Hp.
  assert (forall b, reads (set_authorized_ b v) = 0%nat /\ posts (set_authorized_ b v) = 0%nat /\ references (set_authorized_ b v) = []) as Ha by done.
  destruct (stopped_ v) eqn:Hs.
  { assert (handle_receive now ec m v = v) as ->; [| by apply turn_none; auto].
    unfold handle_receive, handle_receive_peer, handle_receive_rpc, handle_receive_http. rewrite Hs. by destruct (channel_kind options_). }
  unfold handle_receive, handle_receive_peer, handle_receive_rpc, handle_receive_http. rewrite Hs.
  destruct (channel_kind options_).
  - destruct (failed ec); [by apply turn_none_stop | by apply turn_open].
  - destruct (failed ec); [by apply turn_none_stop |]. destruct (lax_batch m); [by apply turn_none_stop | by apply turn_open].
  - assert (forall w, reads w = 0%nat -> posts w = 0%nat -> references w = [] -> turn true (dispatch_http m (set_reading false w))) as Hd.
    { intros w H1 H2 H3. unfold dispatch_http. repeat case_match; try (by apply turn_answer); try (by apply turn_none_stop). by apply turn_open. }
    assert (forall w, w = set_authorized m v -> reads w = 0%nat /\ posts w = 0%nat /\ references w = []) as Hz.
    { intros w ->. unfold set_authorized. by destruct (authorized_ v). }
    destruct (Hz _ eq_refl) as (Z1 & Z2 & Z3). case_bool_decide.
    + repeat case_match; try (by apply turn_answer); try (by apply turn_none_stop). by apply turn_receive.
    + destruct (failed ec); [destruct (_ && _); [by apply turn_answer | by apply turn_none_stop] |].
      destruct (_ && _); by apply Hd.
Qed.

Lemma turn_do_receive now st l r s : turn st s -> pending s = l ++ receive_posted :: r -> turn st (do_receive now (set_pending (l ++ r) s)).
Proof.
  intros Ht Hp. destruct (take_turn _ _ _ _ _ Ht Hp (or_intror eq_refl)) as (Hr & Hq & Hn & -> & Hrd).
  destruct (same_monitor false (set_pending (l ++ r) s)) as [H1 H2 H3 H4 H5 _].
  unfold do_receive. apply turn_receive; rewrite ?H1, ?H2, ?H3, ?H4, ?H5; auto.
Qed.

Lemma turn_handle_timer x now st ec s : turn st s -> turn st (handle_timer x now ec s).
Proof.
  intros Ht. destruct x; cbn [handle_timer]; [unfold handle_inactivity | unfold handle_expiration]; repeat case_match; try done; try by apply turn_stop.
  by apply (turn_same _ s); [apply same_timer_start |].
Qed.

Lemma turn_handle_monitor st ec s : turn st s -> turn st (handle_monitor ec s).
Proof.
  intros Ht. assert (turn st (set_polling false s)) as Hs by (by apply (turn_same _ s)).
  unfold handle_monitor. destruct (failed ec); [by apply turn_stop |]. destruct (_ && _); [| done].
  by apply (turn_same _ (set_polling false s)); [apply same_start_monitor |].
Qed.

Lemma turn_handle_rejected st ec reason l r s : turn st s -> pending s = l ++ answer_sent reason :: r ->
  turn st (handle_rejected ec reason (set_pending (l ++ r) s)).
Proof.
  intros Ht Hp. pose proof (count_take read_completes _ _ _ _ Hp) as H1. pose proof (count_take receive_posted _ _ _ _ Hp) as H2.
  cbn [bool_decide] in *. repeat case_bool_decide; try congruence. rewrite Nat.add_0_r in H1, H2.
  assert (forall ec, turn st (stop ec (set_pending (l ++ r) s))) as Hs.
  { intros e. destruct Ht as [Hr Hq Hn Hb | Hr Hq Hn Hrd Hb | g Hr Hq Hn Hf Hrd Hb | Hr Hq Hn Hx]; unfold reads, posts in Hr, Hq; rewrite H1 in Hr; rewrite H2 in Hq.
    - apply turn_stop. by apply turn_read.
    - apply turn_stop. by apply turn_posted.
    - apply turn_stop. by apply (turn_gate _ _ g).
    - by apply turn_none_stop. }
  apply Hs.
Qed.

Lemma turn_stopping st s : turn st s -> turn st (stopping s).
Proof. intros Ht. apply turn_reset_held. apply (turn_same _ s); [| done]. eapply same_turn_trans; apply same_stop_timer. Qed.

Lemma turn_run st p now ec m l r s : turn st s -> pending s = l ++ p :: r -> turn st (run p now ec m (set_pending (l ++ r) s)).
Proof.
  intros Ht Hp. assert (neutral p -> (forall reason, p <> answer_sent reason) -> turn st (set_pending (l ++ r) s)) as Hn.
  { intros H1 H2. by apply (turn_same _ s); [eapply same_take |]. }
  destruct p; cbn [run].
  - by apply turn_handle_receive.
  - by apply turn_do_receive.
  - by apply turn_handle_monitor, Hn.
  - by apply turn_handle_timer, Hn.
  - by apply turn_handle_rejected.
  - by apply turn_stopping, Hn.
Qed.

(** The calls of a dispatch. *)
Lemma turn_dispatch st s : turn st s -> gate_ s <> None ->
  exists g, gate_ s = Some g /\ reads s = 0%nat /\ posts s = 0%nat /\ Forall (eq g) (references s) /\ (stopped_ s = false -> reading_ s = false) /\ st = true.
Proof.
  intros Ht Hg. destruct (gate_ s) as [g |] eqn:Hgs; [| done]. pose proof (references_gate _ _ Hgs) as Hrf.
  destruct (turn_gates _ _ Ht ltac:(by rewrite Hrf)) as (g' & Hr & Hp & Hf & Hrd & ->).
  exists g. rewrite Hrf in *. inversion Hf; subst. repeat split; auto.
Qed.

Lemma turn_keeps st s : turn st s -> gate_ s <> None -> turn st (gate s).
Proof.
  intros Ht Hg. destruct (turn_dispatch _ _ Ht Hg) as (g & Hgs & Hr & Hp & Hf & Hrd & ->). unfold gate. rewrite Hgs.
  destruct (same_monitor true s) as [H1 H2 H3 H4 H5 _]. change (reads (set_retained (g :: retained s) (monitor true s))) with (reads (monitor true s)).
  apply (turn_gate _ _ g).
  - unfold reads in *. by rewrite <- H4 in Hr.
  - unfold posts in *. by rewrite <- H5 in Hp.
  - unfold references. cbn. destruct (option_list _), (option_list _); done.
  - rewrite <- H3 in Hf. unfold references in *. cbn in *. rewrite !Forall_app, ?Forall_cons in *. destruct Hf as (? & ? & ?).
    repeat split; auto. assert (retained s = retained (monitor true s)) as -> by (unfold monitor, start_monitor; repeat case_match; done). done.
  - cbn. rewrite H1, H2. done.
  - done.
Qed.

Lemma turn_pauses st s : turn st s -> gate_ s <> None -> held_ s = None -> turn st (pause s).
Proof.
  intros Ht Hg Hh. unfold pause. set (v := stop_timer inactivity_timer (stop_timer expiration_timer s)).
  assert (same_turn s v) as Hsv by (eapply same_turn_trans; apply same_stop_timer).
  assert (gate_ v = gate_ s /\ held_ v = held_ s) as [Hgv Hhv] by (unfold v, stop_timer, timer_stop; repeat case_match; done).
  pose proof (turn_same _ _ _ Hsv Ht) as Htv. rewrite <- Hgv in Hg. rewrite <- Hhv in Hh. clearbody v. destruct (stopped_ v); [done |].
  destruct (turn_dispatch _ _ Htv Hg) as (g & Hgs & Hr & Hp & Hf & Hrd & ->). rewrite Hgs, Hh. cbn [unreference].
  apply (turn_gate _ _ g); auto; unfold references in *; cbn; rewrite Hgs, Hh in *; cbn in *; [done |].
  inversion Hf; subst. by repeat constructor.
Qed.

Lemma turn_resumes st now s : turn st s -> held_ s <> None \/ stopped_ s = true \/ st = false -> turn true (resume now s).
Proof.
  intros Ht Hc. unfold resume. set (v := start_timer inactivity_timer now (start_timer expiration_timer now s)).
  assert (same_turn s v) as Hsv by (eapply same_turn_trans; apply same_start_timer).
  assert (held_ v = held_ s) as Hhv by (unfold v, start_timer, timer_start, timer_stop; repeat case_match; done).
  pose proof (turn_same _ _ _ Hsv Ht) as Htv. assert (held_ v <> None \/ stopped_ v = true \/ st = false) as Hcv by (rewrite Hhv, (same_stopped _ _ Hsv); done).
  clearbody v. clear Ht Hc Hsv Hhv s.
  assert (turn true v \/ st = false) as Hst by (destruct st; auto).
  destruct (held_ v) eqn:Hh.
  - apply turn_reset_held. destruct Hst as [| ->]; [done |]. exfalso.
    destruct Htv as [| | | _ _ Hn _]; try done. unfold references in Hn. rewrite Hh in Hn. by destruct (gate_ v).
  - destruct (stopped_ v) eqn:Hs.
    + unfold receive. rewrite Hs. cbn [orb]. destruct Hst as [| ->]; [done |]. destruct Htv as [| | | Hr Hp Hn _]; try done. apply turn_none; auto.
    + destruct Hcv as [| [| ->]]; try done. destruct Htv as [| | | Hr Hp Hn Hx]; try done. apply turn_receive; auto.
      intros _. destruct Hx as [| [[_ ?] | [_ ?]]]; congruence.
Qed.

Lemma turn_move w w' : turn (started w) (self w) -> move w w' -> turn (started w') (self w').
Proof.
  intros Ht Hm. destruct Hm; cbn [started self with_self]; try done.
  - apply (turn_same _ (self w)); [| done]. eapply same_turn_trans; [apply same_timer | by apply same_wait].
  - by apply turn_run.
  - unfold dispatched. destruct (failed ec); [apply turn_stop |]; by apply turn_close.
  - by apply turn_stop.
  - by apply turn_keeps.
  - by apply turn_release.
  - by apply turn_pauses.
  - by eapply turn_resumes.
Qed.

Lemma turn_initial time : turn false (make time).
Proof. apply turn_none; auto. Qed.

(** ** The monitor *)

Lemma watch_wait p s : p <> poll_completes -> watch s -> watch (wait p s).
Proof. intros Hp [H1 H2 H3]. split; try done. unfold polls in *. rewrite count_wait. case_bool_decide; [done |]. by rewrite Nat.add_0_r. Qed.

Lemma watch_take p l r s : pending s = l ++ p :: r -> p <> poll_completes -> watch s -> watch (set_pending (l ++ r) s).
Proof.
  intros Hl Hp [H1 H2 H3]. split; try done. unfold polls in *. rewrite (count_take _ _ _ _ _ Hl) in H1. case_bool_decide; [done |]. by rewrite Nat.add_0_r in H1.
Qed.

(** What leaves the monitor as it is. *)
Lemma watch_eq s s' : pending s' = pending s -> polling_ s' = polling_ s -> monitored_ s' = monitored_ s ->
  (retained s' <> [] -> retained s <> []) -> (stopped_ s' = false -> stopped_ s = false) -> watch s -> watch s'.
Proof.
  intros Hp Hpo Hm Hr Hs [H1 H2 H3]. split; rewrite ?Hpo, ?Hm; auto. unfold polls. by rewrite (count_same _ s s').
Qed.

Lemma watch_stop ec s : watch s -> watch (stop ec s).
Proof. intros Hw. unfold stop. destruct (stopped_ s); [done |]. apply watch_wait; [done |]. by eapply watch_eq; [.. | exact Hw]. Qed.

Lemma watch_timer_stop x s : watch s -> watch (timer_stop x s).
Proof. intros Hw. unfold timer_stop. destruct (timer_of x s); [| done]. apply watch_wait; [done |]. by destruct x; (eapply watch_eq; [.. | exact Hw]). Qed.

Lemma watch_timer_start x now span s : watch s -> watch (timer_start x now span s).
Proof. intros Hw%(watch_timer_stop x). unfold timer_start. by destruct x; (eapply watch_eq; [.. | exact Hw]). Qed.

Lemma watch_stop_timers s : watch s -> watch (stop_timer inactivity_timer (stop_timer expiration_timer s)).
Proof. intros Hw. unfold stop_timer. repeat case_match; by repeat apply watch_timer_stop. Qed.

Lemma watch_start_timers now s : watch s -> watch (start_timer inactivity_timer now (start_timer expiration_timer now s)).
Proof. intros Hw. unfold start_timer. repeat case_match; by repeat apply watch_timer_start. Qed.

Lemma watch_unreference g s : watch s -> watch (unreference g s).
Proof. intros Hw. unfold unreference. destruct g; [| done]. destruct (alive _ _); [done |]. by apply watch_wait. Qed.

Lemma watch_reset_held s : watch s -> watch (reset_held s).
Proof. intros Hw. apply watch_unreference. by eapply watch_eq; [.. | exact Hw]. Qed.

Lemma watch_receive now s : watch s -> watch (receive now s).
Proof. intros Hw. unfold receive. destruct (_ || _); [done |]. apply watch_wait; [done |]. by eapply watch_eq; [.. | exact Hw]. Qed.

Lemma watch_open s : watch s -> watch (open_gate s).
Proof. intros Hw. unfold open_gate, make_gate. apply watch_unreference. by eapply watch_eq; [.. | exact Hw]. Qed.

Lemma watch_reading b s : watch s -> watch (set_reading b s).
Proof. intros Hw. by eapply watch_eq; [.. | exact Hw]. Qed.

Lemma watch_monitor b s : (b = false -> retained s = []) -> watch s -> watch (monitor b s).
Proof.
  intros Hb [H1 H2 H3]. unfold monitor. destruct b; cbn [andb].
  - cbn. destruct (polling_ s) eqn:Hp; cbn; [split; cbn; rewrite ?Hp; done |]. unfold start_monitor. cbn.
    destruct (stopped_ s) eqn:Hs; [split; cbn; rewrite ?Hs; done |]. split; [| done..]. unfold polls in *. rewrite count_wait, (count_same _ s) by done. by rewrite H1.
  - split; cbn; rewrite ?Hb; done.
Qed.

Lemma watch_handle_monitor ec l r s : watch s -> pending s = l ++ poll_completes :: r -> watch (handle_monitor ec (set_pending (l ++ r) s)).
Proof.
  intros [H1 H2 H3] Hl. unfold polls in H1. rewrite (count_take _ _ _ _ _ Hl) in H1. case_bool_decide; [| done].
  destruct (polling_ s) eqn:Hp; [| lia]. assert (count poll_completes (set_pending (l ++ r) s) = 0%nat) as H0 by lia.
  unfold handle_monitor. set (v := set_polling false (set_pending (l ++ r) s)). assert (polls v = 0%nat) as Hv by done.
  destruct (failed ec).
  - unfold stop. destruct (stopped_ v) eqn:Hs; [split; try done; cbn; intros; cbn in Hs; congruence |].
    split; [| cbn in *; done..]. unfold polls. rewrite count_wait, (count_same _ v) by done. by fold (polls v); rewrite Hv.
  - destruct (monitored_ v && negb (stopped_ v)) eqn:Hm.
    + apply andb_true_iff in Hm as [Hm Hs%negb_true_iff]. unfold start_monitor. rewrite Hs. split; [| cbn in *; done..].
      unfold polls. rewrite count_wait, (count_same _ v) by done. fold (polls v). by rewrite Hv.
    + split; cbn; try done. intros Hmm Hs. cbn in Hm. by rewrite Hmm, Hs in Hm.
Qed.

Lemma watch_run st p now ec m l r s : turn st s -> watch s -> pending s = l ++ p :: r -> watch (run p now ec m (set_pending (l ++ r) s)).
Proof.
  intros Ht Hw Hp. destruct (decide (p = poll_completes)) as [-> | Hn]; [by apply watch_handle_monitor |].
  pose proof (watch_take _ _ _ _ Hp Hn Hw) as Hv. set (v := set_pending (l ++ r) s) in *. destruct p; try done; cbn [run].
  - clearbody v. unfold handle_receive, handle_receive_peer, handle_receive_rpc, handle_receive_http, dispatch_http, set_authorized, reject.
    repeat case_match; try done; repeat first [done | apply watch_stop | apply watch_open | apply watch_receive | apply watch_reading | apply watch_wait; [done |]];
      by eapply watch_eq; [.. | exact Hv].
  - unfold do_receive. apply watch_receive, watch_monitor; [| done]. intros _.
    destruct (take_turn _ _ _ _ _ Ht Hp (or_intror eq_refl)) as (_ & _ & Hr & _). unfold references in Hr. by apply app_eq_nil in Hr as [_ [_ Hr]%app_eq_nil].
  - destruct x; cbn [handle_timer]; [unfold handle_inactivity | unfold handle_expiration]; repeat case_match; try done; try by apply watch_stop. by apply watch_timer_start.
  - by apply watch_stop.
  - by apply watch_reset_held, watch_stop_timers.
Qed.

Lemma watch_keeps s : watch s -> gate_ s <> None -> watch (gate s).
Proof.
  intros Hw Hg. unfold gate. destruct (gate_ s); [| done]. pose proof (watch_monitor true s ltac:(done) Hw) as [H1 H2 H3].
  split; try done. intros _. unfold monitor, start_monitor. by repeat case_match.
Qed.

Lemma watch_move w w' : turn (started w) (self w) -> watch (self w) -> move w w' -> watch (self w').
Proof.
  intros Ht Hw Hm. destruct Hm as [w time Hnow | w x d Hx Hd | w l p r ec m Hp Hg | w ec Hg | w ec Hec | w Hg | w l g r Hl | w Hg Hh | w Hc]; cbn [self with_self]; try done.
  - apply watch_wait; [done |]. by destruct x; (eapply watch_eq; [.. | exact Hw]).
  - by eapply watch_run.
  - assert (watch (close_gate (self w))) by (apply watch_unreference; by eapply watch_eq; [.. | exact Hw]).
    unfold dispatched. destruct (failed ec); [by apply watch_stop | done].
  - by apply watch_stop.
  - by apply watch_keeps.
  - apply watch_unreference. eapply watch_eq; [.. | exact Hw]; try done. intros _. rewrite Hl. by destruct l.
  - pose proof (watch_stop_timers _ Hw) as Hv. unfold pause. set (v := stop_timer _ _) in *. clearbody v.
    destruct (stopped_ v); [done |]. unfold make_gate. destruct (gate_ v); apply watch_unreference; by eapply watch_eq; [.. | exact Hv].
  - pose proof (watch_start_timers (now w) _ Hw) as Hv. unfold resume. set (v := start_timer _ _ _) in *. clearbody v.
    destruct (held_ v); [by apply watch_reset_held | by apply watch_receive].
Qed.

(** ** The timers *)

(** What may read, and stop, and leaves the timers as they are. *)
Record calm (time : Z) (s s' : t) : Prop := {
  calm_stopped : stopped_ s' = false -> stopped_ s = false;
  calm_last : last_read_ s <= last_read_ s' <= Z.max (last_read_ s) time;
  calm_due x limit : due_by x limit s -> due_by x limit s';
  calm_stops ec : stop_posted ec ∈ pending s' -> stop_posted ec ∈ pending s \/ stopped_ s' = true
}.

Lemma calm_trans time s1 s2 s3 : calm time s1 s2 -> calm time s2 s3 -> (stopped_ s2 = true -> stopped_ s3 = true) -> calm time s1 s3.
Proof.
  intros [H1 H2 H3 H4] [G1 G2 G3 G4] Hs. split; [auto | lia | auto |].
  intros ec [Hin | Hin]%G4; [destruct (H4 _ Hin) |]; auto.
Qed.

Lemma calm_same time s s' : stopped_ s' = stopped_ s -> last_read_ s' = last_read_ s -> inactivity_ s' = inactivity_ s -> expiration_ s' = expiration_ s ->
  pending s' = pending s -> calm time s s'.
Proof.
  intros H1 H2 H3 H4 H5. split; [by rewrite H1 | rewrite H2; lia | | intros ec; rewrite H5; auto].
  intros x limit. unfold due_by. rewrite H5. by destruct x; cbn; rewrite ?H3, ?H4.
Qed.

Lemma due_wait x limit p s : due_by x limit s -> due_by x limit (wait p s).
Proof. intros [Hd | Hd]; [left; by destruct x | right]. cbn. apply elem_of_app. by left. Qed.

Lemma calm_wait time p s : (forall ec, p <> stop_posted ec) -> calm time s (wait p s).
Proof.
  intros Hp. split; [done | cbn; lia | intros; by apply due_wait |]. intros ec. cbn. intros [Hin | Hin]%elem_of_app; [by left |].
  apply list_elem_of_singleton in Hin. by destruct (Hp ec).
Qed.

Lemma calm_stop time ec s : calm time s (stop ec s).
Proof.
  unfold stop. destruct (stopped_ s) eqn:Hs; [by apply calm_same |]. split; [done | cbn; lia | | by right].
  intros x limit Hd. apply due_wait. by destruct x.
Qed.

Lemma calm_take time l p r s : pending s = l ++ p :: r -> (forall x, p <> timer_completes x error.success) -> calm time s (set_pending (l ++ r) s).
Proof.
  intros Hl Hp. split; [done | cbn; lia | |].
  - intros x limit [Hd | Hd]; [left; by destruct x | right]. cbn. rewrite Hl in Hd. apply elem_of_app in Hd as [Hd | Hd]; [apply elem_of_app; by left |].
    apply elem_of_cons in Hd as [Hd | Hd]; [by destruct (Hp x) | apply elem_of_app; by right].
  - intros ec Hin. left. cbn in Hin. rewrite Hl. apply elem_of_app in Hin as [Hin | Hin]; apply elem_of_app; [by left | right; by right].
Qed.

Lemma calm_unreference time g s : calm time s (unreference g s).
Proof. unfold unreference. destruct g; [destruct (alive _ _) |]; try by apply calm_same. by apply calm_wait. Qed.

Lemma calm_monitor time b s : calm time s (monitor b s).
Proof.
  unfold monitor, start_monitor. destruct (_ && _); [cbn; destruct (stopped_ s) |]; try by apply calm_same.
  apply (calm_trans _ _ (set_polling true (set_monitored b s))); [by apply calm_same | by apply calm_wait | done].
Qed.

Lemma calm_receive time s : last_read_ s <= time -> calm time s (receive time s).
Proof.
  intros Hl. unfold receive. destruct (_ || _); [by apply calm_same |]. apply (calm_trans _ _ (set_last_read time (set_reading true s))); [| by apply calm_wait | done].
  split; [done | cbn; lia | by intros [] | by left].
Qed.
Lemma calm_open time s : calm time s (open_gate s).
Proof.
  unfold open_gate, make_gate. eapply calm_trans; [| apply calm_unreference |]; [by apply calm_same |].
  unfold unreference. by repeat case_match.
Qed.

Lemma stopped_unreference g s : stopped_ (unreference g s) = stopped_ s.
Proof. unfold unreference. by repeat case_match. Qed.

Lemma stopped_stop ec s : stopped_ (stop ec s) = true.
Proof. unfold stop. by destruct (stopped_ s) eqn:Hs. Qed.

(** A change of the fields that the timers do not read, and then another step. *)
Lemma calm_after time s v s' : stopped_ v = stopped_ s -> last_read_ v = last_read_ s -> inactivity_ v = inactivity_ s -> expiration_ v = expiration_ s ->
  pending v = pending s -> calm time v s' -> calm time s s'.
Proof.
  intros H1 H2 H3 H4 H5 [C1 C2 C3 C4]. split; [rewrite <- H1; auto | lia | |].
  - intros x limit Hd. apply C3. revert Hd. unfold due_by. rewrite H5. by destruct x; cbn; rewrite ?H3, ?H4.
  - intros ec Hin. rewrite <- H5. auto.
Qed.

Lemma calm_handle_receive time ec m s : last_read_ s <= time -> calm time s (handle_receive time ec m s).
Proof.
  intros Hl. unfold handle_receive, handle_receive_peer, handle_receive_rpc, handle_receive_http, dispatch_http, set_authorized, reject.
  repeat case_match; first [by apply calm_same | by apply calm_stop | by apply calm_wait
    | eapply calm_after; [.. | by apply calm_stop]; done | eapply calm_after; [.. | by apply calm_open]; done
    | eapply calm_after; [.. | by apply calm_wait]; done | eapply calm_after; [.. | by apply calm_receive]; done].
Qed.

Lemma calm_handle_monitor time ec s : calm time s (handle_monitor ec s).
Proof.
  unfold handle_monitor, start_monitor. repeat case_match; first [by apply calm_same | eapply calm_after; [.. | by apply calm_stop]; done | eapply calm_after; [.. | by apply calm_wait]; done].
Qed.

Lemma calm_gate time s : calm time s (gate s).
Proof.
  unfold gate. destruct (gate_ s); [| by apply calm_same]. eapply calm_trans; [apply (calm_monitor _ true) | by apply calm_same | done].
Qed.

(** A calm step keeps what is due. *)
Lemma clock_calm w s' : clock w -> calm (now w) (self w) s' -> clock (with_self s' w).
Proof.
  intros [H1 H2 H3 H4 H5] [C1 C2 C3 C4]. split; cbn [self now resumed with_self]; [lia | | done | |].
  - intros ec [Hin | Hin]%C4; [| done]. destruct (stopped_ s') eqn:Hs; [done |]. by rewrite (H2 _ Hin) in C1; specialize (C1 eq_refl).
  - intros since Hst Hsince Hz. specialize (C3 _ _ (H4 _ (C1 Hst) Hsince Hz)). destruct C3 as [(d & Hd & Hle) | ?]; [left; exists d; split; [done | lia] | by right].
  - intros since Hst Hsince Hz. apply C3. auto.
Qed.

(** What is of a channel that is stopped does not depend on its timers. *)
Lemma clock_stopped w s' r : clock w -> stopped_ s' = true -> last_read_ s' = last_read_ (self w) -> (forall t, r = Some t -> t <= now w) ->
  clock (mk_world (now w) s' (started w) r).
Proof. intros [H1 H2 H3 H4 H5] Hs Hl Hr. split; cbn [self now resumed]; [lia | done | done | congruence | congruence]. Qed.

Lemma stops_taken w l p r ec : clock w -> pending (self w) = l ++ p :: r -> stop_posted ec ∈ pending (set_pending (l ++ r) (self w)) -> stopped_ (self w) = true.
Proof.
  intros Hc Hp Hin. apply (clock_stops _ Hc ec). rewrite Hp. cbn in Hin. apply elem_of_app in Hin as [Hin | Hin]; apply elem_of_app; [by left | right; by right].
Qed.

Lemma timer_started x time span s : timer_of x (timer_start x time span s) = Some (time + span).
Proof. by destruct x. Qed.

Lemma timer_start_other x y time span s limit : x <> y -> due_by y limit s -> due_by y limit (timer_start x time span s).
Proof.
  intros Hn Hd. unfold timer_start, timer_stop. destruct x, y; try done; cbn; destruct (_ : option Z); (destruct Hd as [Hd | Hd]; [by left | right]); cbn; rewrite ?elem_of_app; auto.
Qed.

Lemma timer_start_stops x time span s ec : stop_posted ec ∈ pending (timer_start x time span s) -> stop_posted ec ∈ pending s.
Proof. unfold timer_start, timer_stop. destruct x; cbn; destruct (_ : option Z); cbn; rewrite ?elem_of_app, ?list_elem_of_singleton; intuition discriminate. Qed.

Lemma timer_start_fields x time span s : stopped_ (timer_start x time span s) = stopped_ s /\ last_read_ (timer_start x time span s) = last_read_ s.
Proof. unfold timer_start, timer_stop. destruct x; cbn; by destruct (_ : option Z). Qed.
Lemma due_take y limit l p r s : pending s = l ++ p :: r -> p <> timer_completes y error.success -> due_by y limit s -> due_by y limit (set_pending (l ++ r) s).
Proof.
  intros Hl Hp [Hd | Hd]; [left; by destruct y | right]. cbn. rewrite Hl in Hd. apply elem_of_app in Hd as [Hd | Hd]; [apply elem_of_app; by left |].
  apply elem_of_cons in Hd as [Hd | Hd]; [done | apply elem_of_app; by right].
Qed.

Lemma clock_restart w l ec r : clock w -> pending (self w) = l ++ timer_completes inactivity_timer ec :: r -> stopped_ (self w) = false ->
  clock (with_self (timer_start inactivity_timer (now w) (span_of inactivity_timer - (now w - last_read_ (self w))) (set_pending (l ++ r) (self w))) w).
Proof.
  intros Hc Hp Hst. set (v := set_pending (l ++ r) (self w)). set (s' := timer_start _ _ _ v).
  destruct (timer_start_fields inactivity_timer (now w) (span_of inactivity_timer - (now w - last_read_ (self w))) v) as [Hs Hl]. fold s' in Hs, Hl.
  destruct Hc as [H1 H2 H3 H4 H5] eqn:Hceq. split; cbn [self now resumed with_self]; [rewrite Hl; cbn; lia | | done | |].
  - intros e Hin. apply timer_start_stops in Hin. rewrite Hs. by apply (stops_taken w _ _ _ e Hc Hp).
  - intros since _ Hsince _. left. unfold s'. rewrite timer_started. eexists. split; [done |]. rewrite (proj2 (timer_start_fields _ _ _ _)). cbn [v set_pending last_read_]. lia.
  - intros since _ Hsince Hz. apply timer_start_other; [done |]. apply due_take with (timer_completes inactivity_timer ec); auto.
Qed.

Lemma stopping_fields s : stopped_ (stopping s) = stopped_ s /\ last_read_ (stopping s) = last_read_ s.
Proof. unfold stopping, reset_held, unreference, stop_timer, timer_stop. by repeat case_match. Qed.

Lemma stop_last ec s : last_read_ (stop ec s) = last_read_ s.
Proof. unfold stop. by destruct (stopped_ s). Qed.

Lemma clock_run w p ec m l r : clock w -> pending (self w) = l ++ p :: r -> clock (with_self (run p (now w) ec m (set_pending (l ++ r) (self w))) w).
Proof.
  intros Hc Hp. pose proof (clock_last _ Hc) as Hl. set (v := set_pending (l ++ r) (self w)).
  assert (forall s', stopped_ s' = true -> last_read_ s' = last_read_ (self w) -> clock (with_self s' w)) as Hstop.
  { intros s' H1 H2. apply clock_stopped; [done | done | done | apply (clock_resumed _ Hc)]. }
  assert ((forall x, p <> timer_completes x error.success) -> calm (now w) v (run p (now w) ec m v) -> (stopped_ (self w) = true -> stopped_ (run p (now w) ec m v) = true) ->
    clock (with_self (run p (now w) ec m v) w)) as Hcalm.
  { intros Hx H1 H2. apply clock_calm; [done |]. apply (calm_trans _ _ v); [by eapply calm_take | done |]. done. }
  destruct p; cbn [run] in *.
  - apply Hcalm; [done | by apply calm_handle_receive |]. intros Hs.
    unfold handle_receive, handle_receive_peer, handle_receive_rpc, handle_receive_http. change (stopped_ v) with (stopped_ (self w)). rewrite Hs. by destruct (channel_kind options_).
  - apply Hcalm; [done | |].
    + unfold do_receive. assert (last_read_ (monitor false v) = last_read_ (self w)) as Hm by done.
      eapply calm_trans; [apply calm_monitor | apply calm_receive; by rewrite Hm |]. intros Hs. unfold receive. by rewrite Hs.
    + intros Hs. unfold do_receive, receive. change (stopped_ (monitor false v)) with (stopped_ (self w)). by rewrite Hs.
  - apply Hcalm; [done | apply calm_handle_monitor |]. intros Hs. unfold handle_monitor, start_monitor, stop. cbn. rewrite Hs. by repeat case_match.
  - destruct (stopped_ (self w)) eqn:Hs.
    { apply Hstop; unfold handle_timer, handle_inactivity, handle_expiration; change (stopped_ v) with (stopped_ (self w)); rewrite Hs; by destruct x. }
    destruct (decide (ec0 = (error.operation_canceled : code))) as [-> | Hn].
    { assert (handle_timer x (now w) error.operation_canceled v = v) as Hv.
      { unfold handle_timer, handle_inactivity, handle_expiration. rewrite (bool_decide_eq_true_2 (_ = _)) by done. rewrite orb_true_r. by destruct x. }
      rewrite Hv in *. apply Hcalm; [intros y; by injection 1 | by apply calm_same | done]. }
    unfold handle_timer, handle_inactivity, handle_expiration. change (stopped_ v) with (stopped_ (self w)). rewrite Hs, (bool_decide_eq_false_2 _ Hn). cbn [orb].
    destruct x; [| destruct (failed ec0); (apply Hstop; [apply stopped_stop | exact (stop_last _ v)])].
    destruct (failed ec0); [apply Hstop; [apply stopped_stop | exact (stop_last _ v)] |].
    destruct (_ <? _); [by eapply clock_restart | apply Hstop; [apply stopped_stop | exact (stop_last _ v)]].
  - apply Hcalm; [done | | unfold handle_rejected, stop; intros Hs; repeat case_match; by cbn in *].
    apply calm_stop.
  - assert (stopped_ (self w) = true) as Hs by (apply (clock_stops _ Hc ec0); rewrite Hp; apply elem_of_app; right; by left).
    destruct (stopping_fields v) as [H1 H2]. by apply Hstop; [rewrite H1 | rewrite H2].
Qed.

Lemma start_timer_due x y time s limit : x <> y -> due_by y limit s -> due_by y limit (start_timer x time s).
Proof. intros Hn Hd. unfold start_timer. repeat case_match; try done. by apply timer_start_other. Qed.

Lemma start_timer_self x time s : stopped_ s = false -> span_of x <> 0 -> due_by x (time + span_of x) (start_timer x time s).
Proof.
  intros Hs Hz. unfold start_timer. rewrite Hs, (proj2 (Z.eqb_neq _ _) Hz). left. rewrite timer_started. eexists. split; [done | lia].
Qed.

Lemma start_timer_fields x time s : stopped_ (start_timer x time s) = stopped_ s /\ last_read_ (start_timer x time s) = last_read_ s.
Proof. unfold start_timer. destruct (stopped_ s) eqn:Hs; [done |]. destruct (_ =? _); [done |]. rewrite <- Hs. apply timer_start_fields. Qed.

Lemma start_timer_stops x time s ec : stop_posted ec ∈ pending (start_timer x time s) -> stop_posted ec ∈ pending s.
Proof. unfold start_timer. repeat case_match; try done. apply timer_start_stops. Qed.

Lemma clock_resumes w st : clock w -> clock (mk_world (now w) (resume (now w) (self w)) st (Some (now w))).
Proof.
  intros Hc. unfold resume. set (u := start_timer expiration_timer (now w) (self w)). set (v := start_timer inactivity_timer (now w) u).
  destruct (start_timer_fields expiration_timer (now w) (self w)) as [U1 U2]. destruct (start_timer_fields inactivity_timer (now w) u) as [V1 V2]. fold u in U1, U2. fold v in V1, V2.
  pose proof (clock_last _ Hc) as Hl.
  assert (clock (mk_world (now w) v st (Some (now w)))) as Hv.
  { split; cbn [now self resumed]; [rewrite V2, U2; done | | by intros ? [= ->] | |].
    - intros e Hin%start_timer_stops%start_timer_stops. rewrite V1, U1. by apply (clock_stops _ Hc e).
    - intros since Hs [= <-] Hz. rewrite V1 in Hs. destruct (start_timer_self inactivity_timer (now w) u Hs Hz) as [(d & Hd & Hle) | ?]; [left; exists d; split; [done | lia] | by right].
    - intros since Hs [= <-] Hz. rewrite V1, U1 in Hs. apply start_timer_due; [done |]. by apply start_timer_self. }
  assert (last_read_ v <= now w) as Hlv by (rewrite V2, U2; done).
  destruct (held_ v).
  - apply (clock_calm _ _ Hv). cbn [self now]. unfold reset_held. eapply calm_after; [.. | apply calm_unreference]; done.
  - apply (clock_calm _ _ Hv). by apply calm_receive.
Qed.

Lemma unreference_fields g s : stopped_ (unreference g s) = stopped_ s /\ last_read_ (unreference g s) = last_read_ s /\ pending (unreference g s) ⊆ pending s ++ [receive_posted].
Proof. unfold unreference. repeat case_match; repeat split; cbn; set_solver. Qed.

Lemma stop_timer_fields x s : stopped_ (stop_timer x s) = stopped_ s /\ last_read_ (stop_timer x s) = last_read_ s /\
  pending (stop_timer x s) ⊆ pending s ++ [timer_completes x error.operation_canceled].
Proof. unfold stop_timer, timer_stop. destruct x; repeat case_match; repeat split; cbn; set_solver. Qed.

(** A pause only stops the timers, and may make a gate. *)
Lemma pause_fields s : stopped_ (pause s) = stopped_ s /\ last_read_ (pause s) = last_read_ s /\
  forall ec, stop_posted ec ∈ pending (pause s) -> stop_posted ec ∈ pending s.
Proof.
  unfold pause. destruct (stop_timer_fields expiration_timer s) as (A1 & A2 & A3). set (u := stop_timer expiration_timer s) in *.
  destruct (stop_timer_fields inactivity_timer u) as (B1 & B2 & B3). set (v := stop_timer inactivity_timer u) in *.
  assert (forall ec, stop_posted ec ∈ pending v -> stop_posted ec ∈ pending s) as Hv.
  { intros ec [Hin | Hin%list_elem_of_singleton]%B3%elem_of_app; [| done]. by apply A3, elem_of_app in Hin as [? | Hin%list_elem_of_singleton]. }
  clearbody v. destruct (stopped_ v) eqn:Hs; [rewrite <- A1, <- B1, Hs, B2, A2; done |].
  unfold make_gate. destruct (gate_ v) as [g |]; cbn.
  - destruct (unreference_fields (held_ v) (set_held (Some g) v)) as (C1 & C2 & C3). rewrite C1, C2. cbn. repeat split; try congruence.
    intros ec [Hin | Hin%list_elem_of_singleton]%C3%elem_of_app; [by apply Hv | done].
  - destruct (unreference_fields (held_ v) (set_held (Some (gates v)) (set_gates (S (gates v)) v))) as (C1 & C2 & C3). rewrite C1, C2. cbn. repeat split; try congruence.
    intros ec [Hin | Hin%list_elem_of_singleton]%C3%elem_of_app; [by apply Hv | done].
Qed.

Lemma clock_move w w' : clock w -> move w w' -> clock w'.
Proof.
  intros Hc Hm. pose proof (clock_last _ Hc) as Hl.
  destruct Hm as [w time Hnow | w x d Hx Hd | w l p r ec m Hp Hg | w ec Hg | w ec Hec | w Hg | w l g r Hr | w Hg Hh | w Hr].
  - destruct Hc as [H1 H2 H3 H4 H5]. split; cbn [now self resumed]; auto; [lia |]. intros since Hs. specialize (H3 _ Hs). lia.
  - apply clock_calm; [done |]. split; [by destruct x | destruct x; cbn; lia | |].
    + intros y limit [(e & He & Hle) | Hin]; [destruct (decide (x = y)) as [-> | Hn] |].
      * right. cbn. apply elem_of_app. right. by left.
      * left. exists e. by destruct x, y.
      * right. cbn. apply elem_of_app. left. by destruct x.
    + intros ec Hin. cbn in Hin. apply elem_of_app in Hin as [Hin | Hin%list_elem_of_singleton]; [left; by destruct x | done].
  - by apply clock_run.
  - apply clock_calm; [done |]. assert (calm (now w) (self w) (close_gate (self w))) as Hg2.
    { unfold close_gate, reset_gate. eapply calm_after; [.. | apply calm_unreference]; done. }
    unfold dispatched. destruct (failed ec); [| done]. eapply calm_trans; [exact Hg2 | apply calm_stop | by intros; apply stopped_stop].
  - apply clock_calm; [done | apply calm_stop].
  - apply clock_calm; [done | apply calm_gate].
  - apply clock_calm; [done |]. unfold release. eapply calm_after; [.. | apply calm_unreference]; done.
  - destruct (pause_fields (self w)) as (P1 & P2 & P3). split; cbn [now self resumed]; [by rewrite P2 | | done..].
    intros ec Hin%P3. rewrite P1. by apply (clock_stops _ Hc ec).
  - by apply clock_resumes.
Qed.

Lemma reachable_channel time w : rtc move (initial time) w -> turn (started w) (self w) /\ watch (self w) /\ clock w.
Proof.
  assert (turn false (make time) /\ watch (make time) /\ clock (initial time)) as Hi.
  { repeat split; cbn; try done; try lia; [by apply turn_initial | by intros ec Hin%elem_of_nil]. }
  change (turn (started (initial time)) (self (initial time)) /\ watch (self (initial time)) /\ clock (initial time)) in Hi.
  intros Hr. revert Hi. generalize (initial time) Hr. clear Hr. intros w0 Hr. induction Hr as [| w1 w2 w3 Hm _ IH]; [done |].
  intros (Ht & Hw & Hc). apply IH. repeat split; [by eapply turn_move | apply (watch_move w1); done | apply (watch_move w1); done | apply (watch_move w1); done | ..]; by apply (clock_move w1).
Qed.

(** C25: messages are dispatched in turn.  At most one read is in flight, and none
    while a gate lives, so that no message is dispatched before all that keep the
    gate of the one before have released it; and a channel that was resumed and
    is not stopped does not stall: a read is in flight, or posted, or some
    gate lives whose last release posts it, or an answer is being sent that
    the stop follows. *)
Theorem channel_reads_in_turn time w : rtc move (initial time) w ->
  (reads (self w) + posts (self w) <= 1)%nat /\
  (references (self w) <> [] -> reads (self w) = 0%nat /\ exists g, Forall (eq g) (references (self w))) /\
  (started w = true -> stopped_ (self w) = false ->
    reads (self w) = 1%nat \/ posts (self w) = 1%nat \/ references (self w) <> [] \/ answering (self w)).
Proof.
  intros (Ht & _)%reachable_channel. destruct Ht as [H1 H2 H3 H4 | H1 H2 H3 H4 H5 | g H1 H2 H3 H4 H5 H6 | H1 H2 H3 H4]; rewrite H1, H2; repeat split; auto; try lia; try done.
  - by exists g.
  - intros Hst Hs. destruct H4 as [| [[? ?] | [? ?]]]; [congruence | auto | congruence].
Qed.

(** While a protocol keeps a gate the peer is watched: a poll for its close is
    in flight, at most one, unless the channel is stopped. *)
Theorem channel_watches time w : rtc move (initial time) w ->
  (polls (self w) <= 1)%nat /\ (retained (self w) <> [] -> stopped_ (self w) = false -> polls (self w) = 1%nat).
Proof.
  intros (_ & [H1 H2 H3] & _)%reachable_channel. rewrite H1. split; [by destruct (polling_ (self w)); lia |]. intros Hr Hs. by rewrite (H3 (H2 Hr) Hs).
Qed.

(** The timers bound the life of a channel.  One that is resumed, whose due
    timers have completed and whose completions have run, is stopped, or began a
    read, or was resumed, within the inactivity span, and was resumed within the
    expiration span. *)
Theorem channel_timers_bound time w since : rtc move (initial time) w -> stopped_ (self w) = false -> resumed w = Some since ->
  (forall x d, timer_of x (self w) = Some d -> now w < d) -> (forall x, timer_completes x error.success ∉ pending (self w)) ->
  (inactivity options_ <> 0 -> now w < Z.max (last_read_ (self w)) since + inactivity options_) /\
  (expiration options_ <> 0 -> now w < since + expiration options_).
Proof.
  intros (_ & _ & [H1 H2 H3 H4 H5])%reachable_channel Hs Hr Hd Hp.
  split; intros Hz; [destruct (H4 _ Hs Hr Hz) as [(d & Ht & Hle) | Hin] | destruct (H5 _ Hs Hr Hz) as [(d & Ht & Hle) | Hin]];
    try (by destruct (Hp _ Hin)); specialize (Hd _ _ Ht); cbn in *; lia.
Qed.
End channel.
(** ** An example

    A message whose subscriber keeps the gate after its dispatch. *)

Definition example_options : options := mk_options peer 30 100 false false false.
Definition example_request : request := mk_request false false false error.success false false false.
Definition example_resumed : world := mk_world 0 (resume example_options 0 (make example_options 0)) true (Some 0).
Definition example_dispatch : world :=
  with_self (run example_options read_completes 0 error.success example_request (set_pending [] (self example_resumed))) example_resumed.
Definition example_kept : world := with_self (gate (self example_dispatch)) example_dispatch.
Definition example_notified : world := with_self (dispatched error.success (self example_kept)) example_kept.

Lemma example_reached : rtc (move example_options) (initial example_options 0) example_resumed /\ rtc (move example_options) example_resumed example_notified.
Proof.
  split; [apply rtc_once, (resumes _ (initial example_options 0)); auto |].
  transitivity example_dispatch; [apply rtc_once, (runs _ example_resumed [] read_completes []); reflexivity |].
  transitivity example_kept; apply rtc_once; [by apply keeps | by apply notified].
Qed.

Lemma channel_reads_in_turn_witness : reads (self example_notified) = 0%nat.
Proof.
  destruct example_reached as [H1 H2]. destruct (channel_reads_in_turn example_options 0 example_notified (transitivity H1 H2)) as (_ & Hr & _).
  apply Hr. vm_compute. discriminate.
Defined.

Lemma channel_watches_witness : polls (self example_notified) = 1%nat.
Proof.
  destruct example_reached as [H1 H2]. destruct (channel_watches example_options 0 example_notified (transitivity H1 H2)) as (_ & Hr).
  apply Hr; vm_compute; [discriminate | reflexivity].
Defined.

Lemma channel_timers_bound_witness : now example_resumed < 0 + expiration example_options.
Proof.
  destruct example_reached as [H1 _].
  refine (proj2 (channel_timers_bound example_options 0 example_resumed 0 H1 eq_refl eq_refl _ _) _).
  - intros [] d [= <-]; reflexivity.
  - intros x Hx. apply list_elem_of_singleton in Hx. discriminate Hx.
  - discriminate.
Defined.
End channel.
