(* ===== verification/Session.v ===== *)
(** * Session: the sequence of a channel

    Models the channel sequence of [src/sessions/session.cpp] with the overrides
    of [session_peer.cpp] and [session_server.cpp], and the nonces and counts of
    [src/net.cpp].  The sequence crosses two strands: each is a queue whose
    jobs run in order, and between them every interleaving is a move.  The
    handshake of a peer is the version protocol, of which is used that the stop
    of the channel calls its handler if nothing has. *)

From stdpp Require Import functions.
From S2P Require Import Prelude.
From S2P Require Import Errors.

Module session.

(** ** Configuration *)

Inductive class := peer_class | server_class.

(** Channels are numbered by their identifiers, sessions by theirs. *)
Record channel_info := mk_info {
  inbound : bool; quiet : bool; nonce : Z; peer_nonce : Z; endpoint : nat; session_of : nat }.

(** ** State *)

(** Jobs of the strand of a channel, and of the network strand. *)
Inductive channel_job := attach_handshake_job | subscribe_job | attach_protocols_job | stopping_job (ec : code).

Inductive network_job :=
  | handshake_job (c : nat) (ec : code)
  | started_job (c : nat) (ec : code)
  | starter_job (c : nat)
  | stopped_job (c : nat) (ec : code).

(** A channel: whether its sequence was started, whether it is stopped, whether
    the handshake is in progress, whether the session is subscribed to its stop,
    whether its subscriber is stopped, and its strand. *)
Record channel := mk_channel {
  known : bool; stopped_ : bool; shaking : bool; subscribed : bool; fired : bool; strand : list channel_job }.

(** The handlers that were called of a channel, in order. *)
Inductive call := starter (ec : code) | stopper (ec : code).

(** The network, with its sessions; [pended] are the channels that a stop of
    their session stops. *)
Record t := mk {
  closed_ : bool; session_stopped : nat -> bool; pended : list nat; channels : nat -> channel; network : list network_job;
  nonces_ : list Z; inbound_channel_count_ : Z; total_channel_count_ : Z; actives_ : list nat; reserved : list nat;
  peer_sent_ : Z; peer_received_ : Z; channel_count_ : nat -> Z; calls : list (nat * call) }.

Section session.
Context (class_of : nat -> class) (info : nat -> channel_info) (enable_loopback : bool).

Definition make_channel : channel := mk_channel false false false false false [].
Definition make : t := mk false (fun _ => true) [] (fun _ => make_channel) [] [] 0 0 [] [] 0 0 (fun _ => 0) [].

Definition set_closed (s : t) : t := mk true (session_stopped s) (pended s) (channels s) (network s)
  (nonces_ s) (inbound_channel_count_ s) (total_channel_count_ s) (actives_ s) (reserved s) (peer_sent_ s) (peer_received_ s) (channel_count_ s) (calls s).
Definition set_session (n : nat) (b : bool) (s : t) : t := mk (closed_ s) (<[n := b]> (session_stopped s)) (pended s) (channels s) (network s)
  (nonces_ s) (inbound_channel_count_ s) (total_channel_count_ s) (actives_ s) (reserved s) (peer_sent_ s) (peer_received_ s) (channel_count_ s) (calls s).
Definition set_pended (l : list nat) (s : t) : t := mk (closed_ s) (session_stopped s) l (channels s) (network s)
  (nonces_ s) (inbound_channel_count_ s) (total_channel_count_ s) (actives_ s) (reserved s) (peer_sent_ s) (peer_received_ s) (channel_count_ s) (calls s).
Definition set_channel (c : nat) (x : channel) (s : t) : t := mk (closed_ s) (session_stopped s) (pended s) (<[c := x]> (channels s)) (network s)
  (nonces_ s) (inbound_channel_count_ s) (total_channel_count_ s) (actives_ s) (reserved s) (peer_sent_ s) (peer_received_ s) (channel_count_ s) (calls s).
Definition set_network (l : list network_job) (s : t) : t := mk (closed_ s) (session_stopped s) (pended s) (channels s) l
  (nonces_ s) (inbound_channel_count_ s) (total_channel_count_ s) (actives_ s) (reserved s) (peer_sent_ s) (peer_received_ s) (channel_count_ s) (calls s).
Definition set_nonces (l : list Z) (s : t) : t := mk (closed_ s) (session_stopped s) (pended s) (channels s) (network s)
  l (inbound_channel_count_ s) (total_channel_count_ s) (actives_ s) (reserved s) (peer_sent_ s) (peer_received_ s) (channel_count_ s) (calls s).
Definition set_counts (inbound total : Z) (s : t) : t := mk (closed_ s) (session_stopped s) (pended s) (channels s) (network s)
  (nonces_ s) inbound total (actives_ s) (reserved s) (peer_sent_ s) (peer_received_ s) (channel_count_ s) (calls s).
Definition set_actives (l : list nat) (s : t) : t := mk (closed_ s) (session_stopped s) (pended s) (channels s) (network s)
  (nonces_ s) (inbound_channel_count_ s) (total_channel_count_ s) l (reserved s) (peer_sent_ s) (peer_received_ s) (channel_count_ s) (calls s).
Definition set_reserved (l : list nat) (s : t) : t := mk (closed_ s) (session_stopped s) (pended s) (channels s) (network s)
  (nonces_ s) (inbound_channel_count_ s) (total_channel_count_ s) (actives_ s) l (peer_sent_ s) (peer_received_ s) (channel_count_ s) (calls s).
Definition set_totals (sent received : Z) (s : t) : t := mk (closed_ s) (session_stopped s) (pended s) (channels s) (network s)
  (nonces_ s) (inbound_channel_count_ s) (total_channel_count_ s) (actives_ s) (reserved s) sent received (channel_count_ s) (calls s).
Definition set_server (n : nat) (count : Z) (s : t) : t := mk (closed_ s) (session_stopped s) (pended s) (channels s) (network s)
  (nonces_ s) (inbound_channel_count_ s) (total_channel_count_ s) (actives_ s) (reserved s) (peer_sent_ s) (peer_received_ s) (<[n := count]> (channel_count_ s)) (calls s).
Definition add_call (c : nat) (x : call) (s : t) : t := mk (closed_ s) (session_stopped s) (pended s) (channels s) (network s)
  (nonces_ s) (inbound_channel_count_ s) (total_channel_count_ s) (actives_ s) (reserved s) (peer_sent_ s) (peer_received_ s) (channel_count_ s) (calls s ++ [(c, x)]).

Definition session_id (c : nat) : nat := session_of (info c).

Definition post (c : nat) (j : channel_job) (s : t) : t :=
  let x := channels s c in set_channel c (mk_channel (known x) (stopped_ x) (shaking x) (subscribed x) (fired x) (strand x ++ [j])) s.

Definition post_network (j : network_job) (s : t) : t := set_network (network s ++ [j]) s.

Definition set_shaking (c : nat) (b : bool) (s : t) : t :=
  let x := channels s c in set_channel c (mk_channel (known x) (stopped_ x) b (subscribed x) (fired x) (strand x)) s.

(** [proxy::stop], of a channel that has no batch. *)
Definition stop_channel (c : nat) (ec : code) (s : t) : t :=
  let x := channels s c in
  if stopped_ x then s else set_channel c (mk_channel (known x) true (shaking x) (subscribed x) (fired x) (strand x ++ [stopping_job ec])) s.

(** ** Nonces and counts of the network *)

Definition ceilinged_add (a b : Z) : Z := (a + b) `min` max_uint64.
Definition floored_subtract (a b : Z) : Z := (a - b) `max` 0.

Definition store_nonce (c : nat) (s : t) : t * bool :=
  if enable_loopback || inbound (info c) then (s, true) else
  if bool_decide (nonce (info c) ∈ nonces_ s) then (s, false) else (set_nonces (nonce (info c) :: nonces_ s) s, true).

Definition unstore_nonce (c : nat) (s : t) : t * bool :=
  if enable_loopback || inbound (info c) then (s, true) else
  (set_nonces (filter (fun n => n <> nonce (info c)) (nonces_ s)) s, bool_decide (nonce (info c) ∈ nonces_ s)).

Definition is_loopback (c : nat) (s : t) : bool :=
  if enable_loopback || negb (inbound (info c)) then false else bool_decide (peer_nonce (info c) ∈ nonces_ s).

Definition add1 (n : Z) : Z := (n + 1) mod 2 ^ 64.

Definition count_channel (c : nat) (s : t) : t * code :=
  if closed_ s then (s, error.service_stopped : code) else
  if is_loopback c s then (s, error.accept_failed : code) else
  if inbound (info c) && (add1 (inbound_channel_count_ s) =? 0) then (s, error.channel_overflow : code) else
  if negb (quiet (info c)) && (add1 (total_channel_count_ s) =? 0) then (s, error.channel_overflow : code) else
  if bool_decide (endpoint (info c) ∈ reserved s) then (s, error.address_in_use : code) else
  let s := set_reserved (endpoint (info c) :: reserved s) s in
  let s := set_counts (if inbound (info c) then add1 (inbound_channel_count_ s) else inbound_channel_count_ s)
    (if quiet (info c) then total_channel_count_ s else add1 (total_channel_count_ s)) s in
  (set_actives (actives_ s ++ [c]) s, error.success : code).

Definition uncount_channel (c : nat) (sent received : Z) (s : t) : t :=
  let s := set_reserved (filter (fun e => e <> endpoint (info c)) (reserved s)) s in
  let s := set_totals (ceilinged_add (peer_sent_ s) sent) (ceilinged_add (peer_received_ s) received) s in
  let s := set_actives (filter (fun n => n <> c) (actives_ s)) s in
  if inbound (info c) && (inbound_channel_count_ s =? 0) then s else
  if negb (quiet (info c)) && (total_channel_count_ s =? 0) then s else
  set_counts (if inbound (info c) then inbound_channel_count_ s - 1 else inbound_channel_count_ s)
    (if quiet (info c) then total_channel_count_ s else total_channel_count_ s - 1) s.

(** ** The handlers of a session *)

(** [handle_channel_start] and [handle_channel_stop], of which those of a server count. *)
Definition call_starter (c : nat) (ec : code) (s : t) : t :=
  let s := add_call c (starter ec) s in
  match class_of (session_id c) with
  | peer_class => s
  | server_class => set_server (session_id c) (ceilinged_add (channel_count_ s (session_id c)) 1) s
  end.

Definition call_stopper (c : nat) (ec : code) (s : t) : t :=
  let s := add_call c (stopper ec) s in
  match class_of (session_id c) with
  | peer_class => s
  | server_class => set_server (session_id c) (floored_subtract (channel_count_ s (session_id c)) 1) s
  end.

(** ** Start and stop *)

Definition pend (c : nat) (s : t) : t := set_pended (pended s ++ [c]) s.
Definition unpend (c : nat) (s : t) : t := set_pended (filter (fun n => n <> c) (pended s)) s.

Definition session_start (n : nat) (s : t) : t := if session_stopped s n then set_session n false s else s.

(** The stop of a session stops the channels that it has pended. *)
Definition stop_pended (n : nat) (l : list nat) (s : t) : t :=
  fold_left (fun s c => if (session_id c =? n)%nat then stop_channel c error.service_stopped s else s) l s.

Definition session_stop (n : nat) (s : t) : t :=
  let s := set_session n true s in
  set_pended (filter (fun c => session_id c <> n) (pended s)) (stop_pended n (pended s) s).

(** ** The sequence *)

Definition base_start_channel (c : nat) (s : t) : t :=
  if session_stopped s (session_id c) then
    call_stopper c error.service_stopped (call_starter c error.service_stopped (stop_channel c error.service_stopped s))
  else post c attach_handshake_job (pend c s).

Definition know (c : nat) (s : t) : t :=
  let x := channels s c in set_channel c (mk_channel true (stopped_ x) (shaking x) (subscribed x) (fired x) (strand x)) s.

Definition start_channel (c : nat) (s : t) : t :=
  let s := know c s in
  match class_of (session_id c) with
  | server_class => base_start_channel c s
  | peer_class =>
    if session_stopped s (session_id c) then base_start_channel c s else
    let '(s, stored) := store_nonce c s in
    if stored then base_start_channel c s else
    call_stopper c error.channel_conflict (call_starter c error.channel_conflict (stop_channel c error.channel_conflict s))
  end.

Definition handle_handshake (c : nat) (ec : code) (s : t) : t :=
  let s := if failed ec then stop_channel c ec s else s in post_network (handshake_job c ec) s.

(** A server has no handshake. *)
Definition do_attach_handshake (c : nat) (s : t) : t :=
  match class_of (session_id c) with
  | server_class => handle_handshake c error.success s
  | peer_class => set_shaking c true s
  end.

(** The handler of the handshake is called once. *)
Definition complete_handshake (c : nat) (ec : code) (s : t) : t := handle_handshake c ec (set_shaking c false s).

Definition handle_channel_started (c : nat) (ec : code) (s : t) : t := post_network (started_job c ec) s.
Definition handle_channel_stopped (c : nat) (ec : code) (s : t) : t := post_network (stopped_job c ec) s.

(** [proxy::subscribe_stop] posts to the strand, or to a stopped channel calls
    the completion, then the handler. *)
Definition subscribe_stop (c : nat) (s : t) : t :=
  if stopped_ (channels s c)
  then handle_channel_stopped c error.channel_stopped (handle_channel_started c error.channel_stopped s)
  else post c subscribe_job s.

Definition do_subscribe_stop (c : nat) (s : t) : t :=
  let x := channels s c in
  let s := if fired x then handle_channel_stopped c error.subscriber_stopped s
    else set_channel c (mk_channel (known x) (stopped_ x) (shaking x) true (fired x) (strand x)) s in
  handle_channel_started c error.success s.

Definition handle_channel_starting (c : nat) (ec : code) (s : t) : t :=
  if failed ec then call_stopper c ec (call_starter c ec s) else subscribe_stop c s.

Definition do_handle_handshake (c : nat) (ec : code) (s : t) : t :=
  match class_of (session_id c) with
  | server_class => handle_channel_starting c ec (if failed ec then unpend c s else s)
  | peer_class =>
    let '(s, code) := if failed ec then (s, ec) else count_channel c s in
    if failed code then handle_channel_starting c code (stop_channel c code (unstore_nonce c (unpend c s)).1)
    else handle_channel_starting c ec s
  end.

Definition do_handle_channel_started (c : nat) (ec : code) (s : t) : t :=
  if failed ec then call_starter c ec s else post c attach_protocols_job s.

Definition do_attach_protocols (c : nat) (s : t) : t := post_network (starter_job c) s.

Definition do_handle_channel_stopped (c : nat) (ec : code) (sent received : Z) (s : t) : t :=
  let s := unpend c s in
  let s := match class_of (session_id c) with
    | server_class => s
    | peer_class => uncount_channel c sent received (unstore_nonce c s).1
    end in
  call_stopper c ec s.

(** [proxy::stopping]: the handshake, and then the session, are told. *)
Definition stopping (c : nat) (ec : code) (s : t) : t :=
  let x := channels s c in
  let s := set_channel c (mk_channel (known x) (stopped_ x) (shaking x) false true (strand x)) s in
  let s := if shaking x then complete_handshake c ec s else s in
  if subscribed x then handle_channel_stopped c ec s else s.

Definition run_channel_job (c : nat) (j : channel_job) (s : t) : t :=
  match j with
  | attach_handshake_job => do_attach_handshake c s
  | subscribe_job => do_subscribe_stop c s
  | attach_protocols_job => do_attach_protocols c s
  | stopping_job ec => stopping c ec s
  end.

Definition run_network_job (j : network_job) (sent received : Z) (s : t) : t :=
  match j with
  | handshake_job c ec => do_handle_handshake c ec s
  | started_job c ec => do_handle_channel_started c ec s
  | starter_job c => call_starter c error.success s
  | stopped_job c ec => do_handle_channel_stopped c ec sent received s
  end.

Definition set_strand (c : nat) (l : list channel_job) (s : t) : t :=
  let x := channels s c in set_channel c (mk_channel (known x) (stopped_ x) (shaking x) (subscribed x) (fired x) l) s.

(** ** Moves

    A channel that is new is started once.  Channels stop for their own reasons,
    and the handshake completes, at any time. *)
Inductive move : t -> t -> Prop :=
  | starts s c : known (channels s c) = false -> move s (start_channel c s)
  | shakes s c ec : shaking (channels s c) = true -> move s (complete_handshake c ec s)
  | stops s c ec : known (channels s c) = true -> failed ec = true -> move s (stop_channel c ec s)
  | closes s : move s (set_closed s)
  | session_starts s n : move s (session_start n s)
  | session_stops s n : move s (session_stop n s)
  | channel_runs s c j l : strand (channels s c) = j :: l -> move s (run_channel_job c j (set_strand c l s))
  | network_runs s j l sent received : network s = j :: l -> move s (run_network_job j sent received (set_network l s)).
(** ** Tokens

    What leads to a call: a job, the handshake, the subscription, or the call made. *)
Record weights := mk_weights { of_job : channel_job -> nat; of_network : network_job -> nat; of_shaking : nat; of_subscribed : nat; of_call : call -> nat }.

(** The starter is called, or something leads to it. *)
Definition starting : weights := mk_weights (fun j => match j with stopping_job _ => 0 | _ => 1 end)%nat
  (fun j => match j with stopped_job _ _ => 0 | _ => 1 end)%nat 1 0 (fun x => match x with starter _ => 1 | stopper _ => 0 end)%nat.

(** The stopper is called, or something leads to it. *)
Definition ending : weights := mk_weights (fun j => match j with attach_handshake_job | subscribe_job => 1 | _ => 0 end)%nat
  (fun j => match j with handshake_job _ _ | stopped_job _ _ => 1 | _ => 0 end)%nat 1 1 (fun x => match x with stopper _ => 1 | starter _ => 0 end)%nat.

(** The channel is counted. *)
Definition counting : weights := mk_weights (fun j => match j with subscribe_job => 1 | _ => 0 end)%nat
  (fun j => match j with stopped_job _ _ => 1 | _ => 0 end)%nat 0 1 (fun _ => 0)%nat.

Definition channel_of (j : network_job) : nat := match j with handshake_job c _ | started_job c _ | starter_job c | stopped_job c _ => c end.

Definition at_channel (c c' n : nat) : nat := if (c =? c')%nat then n else 0%nat.

Definition channel_tokens (W : weights) (x : channel) : nat :=
  (sum_list (map (of_job W) (strand x)) + (if shaking x then of_shaking W else 0) + (if subscribed x then of_subscribed W else 0))%nat.

Definition network_tokens (W : weights) (l : list network_job) (c : nat) : nat := sum_list (map (fun j => at_channel (channel_of j) c (of_network W j)) l).

Definition call_tokens (W : weights) (l : list (nat * call)) (c : nat) : nat := sum_list (map (fun x => at_channel x.1 c (of_call W x.2)) l).

Definition tokens (W : weights) (s : t) (c : nat) : nat :=
  (channel_tokens W (channels s c) + network_tokens W (network s) c + call_tokens W (calls s) c)%nat.

Definition class_ok (W : weights) : Prop := forall ec, of_job W (stopping_job ec) = 0%nat.

Lemma at_self c n : at_channel c c n = n.
Proof. unfold at_channel. by rewrite Nat.eqb_refl. Qed.

Lemma at_other c c' n : c <> c' -> at_channel c c' n = 0%nat.
Proof. intros Hc. unfold at_channel. by rewrite (proj2 (Nat.eqb_neq _ _) Hc). Qed.

(** A channel is replaced. *)
Lemma tokens_channel W c x s c' : tokens W (set_channel c x s) c' =
  (channel_tokens W (if (c =? c')%nat then x else channels s c') + network_tokens W (network s) c' + call_tokens W (calls s) c')%nat.
Proof.
  unfold tokens. cbn [channels network calls set_channel]. destruct (Nat.eqb_spec c c') as [<- | Hn]; [by rewrite fn_lookup_insert | by rewrite fn_lookup_insert_ne].
Qed.

Lemma channel_same W c x s c' : channel_tokens W x = channel_tokens W (channels s c) -> tokens W (set_channel c x s) c' = tokens W s c'.
Proof. intros Hx. rewrite tokens_channel. unfold tokens. destruct (Nat.eqb_spec c c') as [<- | Hn]; lia. Qed.

Lemma tokens_post W c j s c' : tokens W (post c j s) c' = (tokens W s c' + at_channel c c' (of_job W j))%nat.
Proof.
  unfold post. rewrite tokens_channel. unfold tokens, at_channel. destruct (Nat.eqb_spec c c') as [<- | Hn]; [| lia].
  unfold channel_tokens. cbn [strand shaking subscribed]. rewrite map_app, sum_list_app. cbn. lia.
Qed.

Lemma tokens_post_network W j s c' : tokens W (post_network j s) c' = (tokens W s c' + at_channel (channel_of j) c' (of_network W j))%nat.
Proof. unfold tokens, network_tokens, call_tokens, post_network. cbn. rewrite map_app, sum_list_app. cbn. lia. Qed.

Lemma tokens_call W c x s c' : tokens W (add_call c x s) c' = (tokens W s c' + at_channel c c' (of_call W x))%nat.
Proof. unfold tokens, network_tokens, call_tokens, add_call. cbn. rewrite map_app, sum_list_app. cbn. lia. Qed.

Lemma tokens_strand W c j l s c' : strand (channels s c) = j :: l -> tokens W s c' = (tokens W (set_strand c l s) c' + at_channel c c' (of_job W j))%nat.
Proof.
  intros Hs. unfold set_strand. rewrite tokens_channel. unfold tokens, at_channel. destruct (Nat.eqb_spec c c') as [<- | Hn]; [| lia].
  unfold channel_tokens. cbn [strand shaking subscribed]. rewrite Hs. cbn. lia.
Qed.

Lemma tokens_network W j l s c' : network s = j :: l -> tokens W s c' = (tokens W (set_network l s) c' + at_channel (channel_of j) c' (of_network W j))%nat.
Proof. intros Hs. unfold tokens, network_tokens, call_tokens. cbn. rewrite Hs. cbn. lia. Qed.

Lemma tokens_stop W c ec s c' : class_ok W -> tokens W (stop_channel c ec s) c' = tokens W s c'.
Proof.
  intros HW. unfold stop_channel. destruct (stopped_ (channels s c)); [done |]. apply channel_same.
  unfold channel_tokens. cbn [strand shaking subscribed]. rewrite map_app, sum_list_app. cbn. rewrite HW. lia.
Qed.

Lemma tokens_shaking W c b s c' : (tokens W (set_shaking c b s) c' + at_channel c c' (if shaking (channels s c) then of_shaking W else 0) =
  tokens W s c' + at_channel c c' (if b then of_shaking W else 0))%nat.
Proof.
  unfold set_shaking. rewrite tokens_channel. unfold tokens, at_channel. destruct (Nat.eqb_spec c c') as [<- | Hn]; [| lia].
  unfold channel_tokens. cbn [strand shaking subscribed]. lia.
Qed.

(** What is not of the sequence. *)
Lemma tokens_same W s s' c : channels s' = channels s -> network s' = network s -> calls s' = calls s -> tokens W s' c = tokens W s c.
Proof. unfold tokens. by intros -> -> ->. Qed.
(** What of the sequence an operation of the network leaves. *)
Record aside (s s' : t) : Prop := {
  aside_channels : channels s' = channels s;
  aside_network : network s' = network s;
  aside_calls : calls s' = calls s;
  aside_sessions : session_stopped s' = session_stopped s
}.

Lemma aside_refl s : aside s s.
Proof. by split. Qed.

Lemma aside_trans s1 s2 s3 : aside s1 s2 -> aside s2 s3 -> aside s1 s3.
Proof. intros [] []. split; congruence. Qed.

Lemma tokens_aside W s s' c : aside s s' -> tokens W s' c = tokens W s c.
Proof. intros []. by apply tokens_same. Qed.

Lemma aside_store c s : aside s (store_nonce c s).1.
Proof. unfold store_nonce. repeat case_match; by split. Qed.

Lemma aside_unstore c s : aside s (unstore_nonce c s).1.
Proof. unfold unstore_nonce. repeat case_match; by split. Qed.

Lemma aside_count c s : aside s (count_channel c s).1.
Proof. unfold count_channel. repeat case_match; by split. Qed.

Lemma aside_uncount c sent received s : aside s (uncount_channel c sent received s).
Proof. unfold uncount_channel. repeat case_match; by split. Qed.

Lemma aside_pend c s : aside s (pend c s).
Proof. by split. Qed.

Lemma aside_unpend c s : aside s (unpend c s).
Proof. by split. Qed.

(** The three accounts have in common what the steps of the sequence move. *)
Inductive account : weights -> Prop :=
  account_starting : account starting | account_ending : account ending | account_counting : account counting.

Lemma account_ok W : account W -> class_ok W.
Proof. by intros [] ec. Qed.

Definition shake_weight (W : weights) : nat := of_job W attach_handshake_job.

Lemma tokens_starter W c ec s c' : tokens W (call_starter c ec s) c' = (tokens W s c' + at_channel c c' (of_call W (starter ec)))%nat.
Proof. unfold call_starter. destruct (class_of _); [| rewrite (tokens_same W (add_call c (starter ec) s)) by done]; apply tokens_call. Qed.

Lemma tokens_stopper W c ec s c' : tokens W (call_stopper c ec s) c' = (tokens W s c' + at_channel c c' (of_call W (stopper ec)))%nat.
Proof. unfold call_stopper. destruct (class_of _); [| rewrite (tokens_same W (add_call c (stopper ec) s)) by done]; apply tokens_call. Qed.

Lemma tokens_handshake W c ec s c' : account W -> tokens W (handle_handshake c ec s) c' = (tokens W s c' + at_channel c c' (shake_weight W))%nat.
Proof.
  intros HW. unfold handle_handshake. rewrite tokens_post_network. destruct (failed ec); rewrite ?tokens_stop by (by apply account_ok); by destruct HW.
Qed.

Lemma tokens_complete W c ec s c' : account W -> shaking (channels s c) = true -> tokens W (complete_handshake c ec s) c' = tokens W s c'.
Proof.
  intros HW Hs. unfold complete_handshake. rewrite tokens_handshake by done. pose proof (tokens_shaking W c false s c') as Ht. rewrite Hs in Ht.
  assert (of_shaking W = shake_weight W) as He by (by destruct HW). rewrite He in Ht. unfold at_channel in *. destruct (c =? c')%nat; lia.
Qed.

Lemma tokens_attach W c s c' : account W -> shaking (channels s c) = false -> tokens W (do_attach_handshake c s) c' = (tokens W s c' + at_channel c c' (shake_weight W))%nat.
Proof.
  intros HW Hs. unfold do_attach_handshake. destruct (class_of _); [| by apply tokens_handshake].
  pose proof (tokens_shaking W c true s c') as Ht. rewrite Hs in Ht. assert (of_shaking W = shake_weight W) as He by (by destruct HW). rewrite He in Ht.
  unfold at_channel in *. destruct (c =? c')%nat; lia.
Qed.

Lemma tokens_subscribe W c s c' : account W -> tokens W (subscribe_stop c s) c' = (tokens W s c' + at_channel c c' 1)%nat.
Proof.
  intros HW. unfold subscribe_stop, handle_channel_started, handle_channel_stopped. destruct (stopped_ _); rewrite ?tokens_post_network, ?tokens_post;
    unfold at_channel; cbn [channel_of]; destruct (c =? c')%nat; destruct HW; cbn; lia.
Qed.

Lemma tokens_do_subscribe W c s c' : account W -> subscribed (channels s c) = false -> tokens W (do_subscribe_stop c s) c' = (tokens W s c' + at_channel c c' 1)%nat.
Proof.
  intros HW Hs. unfold do_subscribe_stop, handle_channel_started, handle_channel_stopped. destruct (fired _); rewrite ?tokens_post_network, ?tokens_channel.
  - unfold at_channel; cbn [channel_of]; destruct (c =? c')%nat; destruct HW; cbn; lia.
  - unfold tokens, at_channel; cbn [channel_of]. destruct (Nat.eqb_spec c c') as [<- | Hn]; unfold channel_tokens; cbn [strand shaking subscribed]; rewrite ?Hs; destruct HW; cbn; lia.
Qed.

Lemma tokens_starting W c ec s c' : account W -> tokens W (handle_channel_starting c ec s) c' =
  (tokens W s c' + at_channel c c' (if failed ec then of_call W (starter ec) + of_call W (stopper ec) else 1))%nat.
Proof.
  intros HW. unfold handle_channel_starting. destruct (failed ec); [| by apply tokens_subscribe].
  rewrite tokens_stopper, tokens_starter. unfold at_channel. destruct (c =? c')%nat; lia.
Qed.

Lemma tokens_stopping W c ec s c' : account W -> tokens W (stopping c ec s) c' = tokens W s c'.
Proof.
  intros HW. unfold stopping. set (x := channels s c). set (v := set_channel c _ s).
  assert (tokens W s c' = tokens W v c' + at_channel c c' (if subscribed x then of_subscribed W else 0))%nat as Hv.
  { unfold v. rewrite tokens_channel. unfold tokens, at_channel. destruct (Nat.eqb_spec c c') as [<- | Hn]; [| lia].
    unfold channel_tokens. fold x. cbn [strand shaking subscribed]. lia. }
  assert (of_subscribed W = of_network W (stopped_job c ec)) as He by (by destruct HW).
  assert (shaking x = true -> tokens W (complete_handshake c ec v) c' = tokens W v c') as Hc.
  { intros Hs. apply tokens_complete; [done |]. unfold v. cbn. by rewrite fn_lookup_insert. }
  destruct (shaking x), (subscribed x); unfold handle_channel_stopped; rewrite ?tokens_post_network, ?Hc, Hv by done; cbn [channel_of]; unfold at_channel; destruct (c =? c')%nat; lia.
Qed.
(** ** Channels *)

#[local] Instance channel_job_eq_dec : EqDecision channel_job.
Proof. solve_decision. Defined.

Definition is_stopping (j : channel_job) : bool := match j with stopping_job _ => true | _ => false end.

Definition stops_of (l : list channel_job) : nat := sum_list (map (fun j => if is_stopping j then 1 else 0)%nat l).

(** A stop is posted once; the handshake is attached first, and is in progress,
    and the session subscribed, only until the subscriber is stopped. *)
Record fine (x : channel) : Prop := {
  fine_fired : fired x = true -> stopped_ x = true;
  fine_stops : stops_of (strand x) = if stopped_ x && negb (fired x) then 1%nat else 0%nat;
  fine_attach : attach_handshake_job ∈ strand x -> fired x = false /\ shaking x = false /\ exists l, strand x = attach_handshake_job :: l /\ attach_handshake_job ∉ l;
  fine_shaking : shaking x = true -> fired x = false;
  fine_subscribed : subscribed x = true -> fired x = false;
  fine_unknown : known x = false -> x = make_channel
}.

Definition job_ok (s : t) (j : network_job) : Prop :=
  known (channels s (channel_of j)) = true /\
  match j with handshake_job c ec => failed ec = true -> stopped_ (channels s c) = true | stopped_job c _ => stopped_ (channels s c) = true | _ => True end.

Record good (s : t) : Prop := {
  good_fine c : fine (channels s c);
  good_jobs : Forall (job_ok s) (network s);
  good_live c : known (channels s c) = true -> stopped_ (channels s c) = false -> c ∈ pended s /\ session_stopped s (session_id c) = false;
  good_pended c : c ∈ pended s -> known (channels s c) = true
}.

Lemma stops_app l r : stops_of (l ++ r) = (stops_of l + stops_of r)%nat.
Proof. unfold stops_of. by rewrite map_app, sum_list_app. Qed.

(** Channels stay known, and stopped. *)
Definition flow (s s' : t) : Prop := forall c, known (channels s' c) = known (channels s c) /\ (stopped_ (channels s c) = true -> stopped_ (channels s' c) = true).

Lemma flow_refl s : flow s s.
Proof. by split. Qed.

Lemma flow_trans s1 s2 s3 : flow s1 s2 -> flow s2 s3 -> flow s1 s3.
Proof. intros H1 H2 c. destruct (H1 c), (H2 c). split; [congruence | auto]. Qed.

Lemma job_flow s s' j : flow s s' -> job_ok s j -> job_ok s' j.
Proof. intros Hf [Hk Hj]. split; [by rewrite (proj1 (Hf _)) |]. destruct j as [c ec | | | c ec]; try done; [intros He |]; apply (proj2 (Hf c)); auto. Qed.

Lemma flow_set c x s : known x = known (channels s c) -> (stopped_ (channels s c) = true -> stopped_ x = true) -> flow s (set_channel c x s).
Proof. intros Hk Hs c'. cbn. destruct (decide (c = c')) as [<- | Hn]; [by rewrite fn_lookup_insert | by rewrite fn_lookup_insert_ne]. Qed.

(** A change of what is not a channel. *)
Lemma good_equiv s s' : (forall c, channels s' c = channels s c) -> network s' = network s -> (forall c, c ∈ pended s -> c ∈ pended s' \/ stopped_ (channels s c) = true) ->
  (forall c, c ∈ pended s' -> c ∈ pended s) -> session_stopped s' = session_stopped s -> good s -> good s'.
Proof.
  intros Hc Hn Hp Hq Hs [H1 H2 H3 H4]. split.
  - intros c. by rewrite Hc.
  - rewrite Hn. eapply Forall_impl; [exact H2 |]. intros j. apply job_flow. intros c. by rewrite Hc.
  - intros c. rewrite Hc, Hs. intros Hk Hst. destruct (H3 c Hk Hst) as [Hin ?]. split; [| done]. destruct (Hp c Hin); [done | congruence].
  - intros c Hin. rewrite Hc. auto.
Qed.

Lemma good_aside s s' : aside s s' -> pended s' = pended s -> good s -> good s'.
Proof. intros [Hc Hn _ Hs] Hp. apply good_equiv; try done; [by rewrite Hc | rewrite Hp; auto | by rewrite Hp]. Qed.

Lemma good_set c x s : fine x -> known x = known (channels s c) -> (stopped_ (channels s c) = true -> stopped_ x = true) -> good s -> good (set_channel c x s).
Proof.
  intros Hx Hk Hs [H1 H2 H3 H4]. pose proof (flow_set c x s Hk Hs) as Hf. split.
  - intros c'. cbn. destruct (decide (c = c')) as [<- | Hn]; [by rewrite fn_lookup_insert | by rewrite fn_lookup_insert_ne].
  - cbn. eapply Forall_impl; [exact H2 |]. intros j. exact (job_flow _ _ j Hf).
  - intros c' Hk' Hs'. destruct (Hf c') as [Hf1 Hf2]. apply H3; [by rewrite <- Hf1 |]. destruct (stopped_ (channels s c')) eqn:He; [| done]. by rewrite Hf2 in Hs'.
  - intros c' Hin. rewrite (proj1 (Hf c')). auto.
Qed.

Lemma good_network j s : job_ok s j -> good s -> good (post_network j s).
Proof.
  intros Hj [H1 H2 H3 H4]. split; [done | | done..]. cbn. apply Forall_app. split; [done |]. by constructor.
Qed.

Lemma fine_posted j x : fine x -> known x = true -> j <> attach_handshake_job -> is_stopping j = false ->
  fine (mk_channel (known x) (stopped_ x) (shaking x) (subscribed x) (fired x) (strand x ++ [j])).
Proof.
  intros [H1 H2 H3 H4 H5 H6] Hk Hj Hs. split; cbn [known stopped_ shaking subscribed fired strand]; try done.
  - rewrite stops_app, H2. unfold stops_of. cbn. rewrite Hs. by rewrite Nat.add_0_r.
  - intros [Hin | Hin%list_elem_of_singleton]%elem_of_app; [| congruence]. destruct (H3 Hin) as (A & B & l & C & D). repeat split; [done | done |].
    exists (l ++ [j]). rewrite C. split; [done |]. intros [? | Hx%list_elem_of_singleton]%elem_of_app; [done | congruence].
  - intros. congruence.
Qed.

Lemma good_post c j s : good s -> known (channels s c) = true -> j <> attach_handshake_job -> is_stopping j = false -> good (post c j s).
Proof. intros Hg Hk Hj Hs. apply good_set; [by apply fine_posted; [apply good_fine |..] | done | done | done]. Qed.

Lemma fine_stop ec x : fine x -> known x = true -> stopped_ x = false ->
  fine (mk_channel (known x) true (shaking x) (subscribed x) (fired x) (strand x ++ [stopping_job ec])).
Proof.
  intros [H1 H2 H3 H4 H5 H6] Hk Hs. rewrite Hs in *. cbn in H2.
  assert (fired x = false) as Hf by (destruct (fired x); [by rewrite H1 | done]).
  split; cbn [known stopped_ shaking subscribed fired strand]; try done.
  - rewrite stops_app, H2, Hf. done.
  - intros [Hin | Hin%list_elem_of_singleton]%elem_of_app; [| done]. destruct (H3 Hin) as (A & B & l & C & D). repeat split; [done | done |].
    exists (l ++ [stopping_job ec]). rewrite C. split; [done |]. by intros [? | Hx%list_elem_of_singleton]%elem_of_app.
  - congruence.
Qed.

Lemma good_stop c ec s : good s -> known (channels s c) = true -> good (stop_channel c ec s).
Proof.
  intros Hg Hk. unfold stop_channel. destruct (stopped_ (channels s c)) eqn:Hs; [done |]. apply good_set; try done.
  by apply fine_stop; [apply (good_fine _ Hg) | ..].
Qed.

Lemma flow_stop c ec s : flow s (stop_channel c ec s).
Proof. unfold stop_channel. destruct (stopped_ (channels s c)) eqn:Hs; [apply flow_refl | by apply flow_set]. Qed.

Lemma stop_channel_stops c ec s : stopped_ (channels (stop_channel c ec s) c) = true.
Proof. unfold stop_channel. destruct (stopped_ (channels s c)) eqn:Hs; [done |]. cbn. by rewrite fn_lookup_insert. Qed.

Lemma stop_pended_same c ec s : pended (stop_channel c ec s) = pended s /\ session_stopped (stop_channel c ec s) = session_stopped s.
Proof. unfold stop_channel. by destruct (stopped_ (channels s c)). Qed.
Lemma good_calls c x s : good s -> good (add_call c x s).
Proof. by apply good_equiv; auto. Qed.

Lemma good_starter c ec s : good s -> good (call_starter c ec s).
Proof. intros Hg. unfold call_starter. destruct (class_of _); (eapply good_equiv; [.. | exact Hg]); auto. Qed.

Lemma good_stopper c ec s : good s -> good (call_stopper c ec s).
Proof. intros Hg. unfold call_stopper. destruct (class_of _); (eapply good_equiv; [.. | exact Hg]); auto. Qed.

Lemma good_handshake c ec s : good s -> known (channels s c) = true -> good (handle_handshake c ec s).
Proof.
  intros Hg Hk. unfold handle_handshake. destruct (failed ec) eqn:Hf.
  - apply good_network; [| by apply good_stop]. split; cbn [channel_of]; [by rewrite (proj1 (flow_stop c ec s c)) |]. intros _. apply stop_channel_stops.
  - apply good_network; [| done]. split; [done |]. by rewrite Hf.
Qed.

Lemma good_subscribe c s : good s -> known (channels s c) = true -> good (subscribe_stop c s).
Proof.
  intros Hg Hk. unfold subscribe_stop, handle_channel_stopped, handle_channel_started. destruct (stopped_ (channels s c)) eqn:Hs; [| by apply good_post].
  repeat apply good_network; done.
Qed.

Lemma good_starting c ec s : good s -> known (channels s c) = true -> good (handle_channel_starting c ec s).
Proof. intros Hg Hk. unfold handle_channel_starting. destruct (failed ec); [by apply good_stopper, good_starter | by apply good_subscribe]. Qed.

Lemma good_do_subscribe c s : good s -> known (channels s c) = true -> good (do_subscribe_stop c s).
Proof.
  intros Hg Hk. unfold do_subscribe_stop, handle_channel_stopped, handle_channel_started. destruct (good_fine _ Hg c) as [H1 H2 H3 H4 H5 H6].
  destruct (fired (channels s c)) eqn:Hf.
  - repeat apply good_network; try done. split; [done |]. cbn. auto.
  - assert (good (set_channel c (mk_channel (known (channels s c)) (stopped_ (channels s c)) (shaking (channels s c)) true false (strand (channels s c))) s)) as Hv.
    { apply good_set; try done. split; cbn [known stopped_ shaking subscribed fired strand]; try done. congruence. }
    apply good_network; [| done]. split; [| done]. cbn. by rewrite fn_lookup_insert.
Qed.

(** A job that is not the stop is taken. *)
Lemma good_take c j l s : good s -> strand (channels s c) = j :: l -> is_stopping j = false ->
  good (set_strand c l s) /\ known (channels s c) = true /\ attach_handshake_job ∉ l.
Proof.
  intros Hg Hl Hj. destruct (good_fine _ Hg c) as [H1 H2 H3 H4 H5 H6]. rewrite Hl in *.
  assert (known (channels s c) = true) as Hk. { destruct (known (channels s c)) eqn:Hk; [done |]. rewrite (H6 eq_refl) in Hl. discriminate Hl. }
  assert (attach_handshake_job ∉ l) as Ha.
  { intros Hin. destruct (H3 ltac:(by right)) as (_ & _ & l' & He & Hn). by injection He as -> ->. }
  split; [| done]. apply good_set; try done. split; cbn [known stopped_ shaking subscribed fired strand]; try done.
  - rewrite <- H2. unfold stops_of. cbn. by rewrite Hj.
  - congruence.
Qed.

Lemma good_attach c l s : good s -> strand (channels s c) = attach_handshake_job :: l -> good (do_attach_handshake c (set_strand c l s)).
Proof.
  intros Hg Hl. destruct (good_take _ _ _ _ Hg Hl eq_refl) as (Hv & Hk & Ha). destruct (fine_attach _ (good_fine _ Hg c)) as (Hf & Hsh & _); [rewrite Hl; by left |].
  assert (channels (set_strand c l s) c = mk_channel true (stopped_ (channels s c)) false (subscribed (channels s c)) false l) as He.
  { unfold set_strand. cbn. rewrite fn_lookup_insert, Hk, Hsh, Hf. done. }
  unfold do_attach_handshake. destruct (class_of _); [| apply good_handshake; [done | by rewrite He]].
  unfold set_shaking. apply good_set; try done. pose proof (good_fine _ Hv c) as Hx. rewrite He in *. destruct Hx as [H1 H2 H3 H4 H5 H6].
  split; cbn [known stopped_ shaking subscribed fired strand] in *; try done.
Qed.

Lemma good_complete c ec s : good s -> shaking (channels s c) = true -> good (complete_handshake c ec s).
Proof.
  intros Hg Hs. destruct (good_fine _ Hg c) as [H1 H2 H3 H4 H5 H6].
  assert (known (channels s c) = true) as Hk by (destruct (known (channels s c)) eqn:Hk; [done |]; by rewrite (H6 eq_refl) in Hs).
  apply good_handshake; [| unfold set_shaking; cbn; by rewrite fn_lookup_insert].
  apply good_set; try done. split; cbn [known stopped_ shaking subscribed fired strand]; try done.
  - intros Hin. destruct (H3 Hin) as (A & B & C). by repeat split.
  - congruence.
Qed.

Lemma stopping_state c ec l s : good s -> strand (channels s c) = stopping_job ec :: l ->
  known (channels s c) = true /\ stopped_ (channels s c) = true /\ fired (channels s c) = false /\ stops_of l = 0%nat /\ attach_handshake_job ∉ l.
Proof.
  intros Hg Hl. destruct (good_fine _ Hg c) as [H1 H2 H3 H4 H5 H6]. rewrite Hl in *. unfold stops_of in H2. cbn in H2. fold (stops_of l) in H2.
  destruct (stopped_ (channels s c)) eqn:Hs, (fired (channels s c)) eqn:Hf; cbn in H2; try lia.
  repeat split; try done; [| lia |].
  - destruct (known (channels s c)) eqn:Hk; [done |]. rewrite (H6 eq_refl) in Hl. discriminate Hl.
  - intros Hin. by destruct (H3 ltac:(by right)) as (_ & _ & l' & He & Hn).
Qed.

Lemma good_stopping c ec l s : good s -> strand (channels s c) = stopping_job ec :: l -> good (stopping c ec (set_strand c l s)).
Proof.
  intros Hg Hl. destruct (stopping_state _ _ _ _ Hg Hl) as (Hk & Hst & Hf & H0 & Ha).
  set (u := set_channel c (mk_channel true true false false true l) s).
  assert (good u) as Hu.
  { apply good_set; [| done | done | done]. split; cbn [known stopped_ shaking subscribed fired strand]; try done. }
  assert (channels u c = mk_channel true true false false true l) as Huc by (cbn; by rewrite fn_lookup_insert).
  assert (forall c', c <> c' -> channels u c' = channels s c') as Huo by (intros; cbn; by rewrite fn_lookup_insert_ne).
  assert (channels (set_strand c l s) c = mk_channel true true (shaking (channels s c)) (subscribed (channels s c)) false l) as He.
  { unfold set_strand. cbn. by rewrite fn_lookup_insert, Hk, Hst, Hf. }
  unfold stopping, handle_channel_stopped. rewrite He. cbn [known stopped_ shaking subscribed fired strand].
  set (v := set_channel c _ (set_strand c l s)).
  assert (forall w, good w -> flow u w -> good (if subscribed (channels s c) then post_network (stopped_job c ec) w else w)) as Hpost.
  { intros w Hw Hfl. destruct (subscribed _); [| done]. apply good_network; [| done]. destruct (Hfl c) as [F1 F2]. rewrite Huc in F1, F2. split; cbn; auto. }
  destruct (shaking (channels s c)).
  - assert (good (set_shaking c false v)) as Hw.
    { eapply (good_equiv u); [.. | exact Hu]; try done; [| by left]. intros c'. unfold set_shaking, v. cbn.
      destruct (decide (c = c')) as [<- | Hn]; [by rewrite !fn_lookup_insert | by rewrite !fn_lookup_insert_ne]. }
    assert (channels (set_shaking c false v) c = channels u c) as Hwc by (unfold set_shaking, v; cbn; by rewrite !fn_lookup_insert).
    apply Hpost.
    + unfold complete_handshake. apply good_handshake; [done |]. by rewrite Hwc, Huc.
    + unfold complete_handshake, handle_handshake. intros c'. cbn [channels post_network set_network].
      assert (known (channels (set_shaking c false v) c') = known (channels u c') /\ (stopped_ (channels u c') = true -> stopped_ (channels (set_shaking c false v) c') = true)) as [F1 F2].
      { unfold set_shaking, v. cbn. destruct (decide (c = c')) as [<- | Hn]; [by rewrite !fn_lookup_insert | by rewrite !fn_lookup_insert_ne]. }
      destruct (failed ec); [| done]. destruct (flow_stop c ec (set_shaking c false v) c') as [G1 G2]. split; [congruence | auto].
  - assert (good v) as Hw.
    { eapply (good_equiv u); [.. | exact Hu]; try done; [| by left]. intros c'. unfold v. cbn.
      destruct (decide (c = c')) as [<- | Hn]; [by rewrite !fn_lookup_insert | by rewrite !fn_lookup_insert_ne]. }
    apply Hpost; [done |]. intros c'. unfold v. cbn. destruct (decide (c = c')) as [<- | Hn]; [by rewrite !fn_lookup_insert | by rewrite !fn_lookup_insert_ne].
Qed.

Lemma good_channel_run c j l s : good s -> strand (channels s c) = j :: l -> good (run_channel_job c j (set_strand c l s)).
Proof.
  intros Hg Hl. destruct j; cbn [run_channel_job]; [by apply good_attach | | | by apply good_stopping];
    destruct (good_take _ _ _ _ Hg Hl eq_refl) as (Hv & Hk & _);
    assert (known (channels (set_strand c l s) c) = true) as Hkv by (unfold set_strand; cbn; by rewrite fn_lookup_insert).
  - by apply good_do_subscribe.
  - by apply good_network.
Qed.

(** ** The network strand *)

Lemma stop_channel_eq c ec s s' : channels s = channels s' -> network s = network s' ->
  channels (stop_channel c ec s) = channels (stop_channel c ec s') /\ network (stop_channel c ec s) = network (stop_channel c ec s').
Proof. intros Hc Hn. unfold stop_channel. rewrite Hc. destruct (stopped_ _); cbn; by rewrite ?Hc. Qed.

Lemma unpend_kept c n s : n ∈ pended s -> n ∈ pended (unpend c s) \/ n = c.
Proof. intros Hn. destruct (decide (n = c)); [by right | left]. cbn. apply list_elem_of_filter. by split. Qed.

Lemma good_unpend c s : good s -> stopped_ (channels s c) = true -> good (unpend c s).
Proof. intros Hg Hs. eapply good_equiv; [.. | exact Hg]; try done; [intros n Hn; destruct (unpend_kept c n s Hn) as [| ->]; auto |]. intros n. cbn. by intros [_ ?]%list_elem_of_filter. Qed.

Lemma aside_pended_count c s : pended (count_channel c s).1 = pended s.
Proof. unfold count_channel. by repeat case_match. Qed.

Lemma aside_pended_unstore c s : pended (unstore_nonce c s).1 = pended s.
Proof. unfold unstore_nonce. by repeat case_match. Qed.

Lemma aside_pended_store c s : pended (store_nonce c s).1 = pended s.
Proof. unfold store_nonce. by repeat case_match. Qed.

Lemma aside_pended_uncount c sent received s : pended (uncount_channel c sent received s) = pended s.
Proof. unfold uncount_channel. by repeat case_match. Qed.

Lemma good_refuse c ec s : good s -> known (channels s c) = true -> good (stop_channel c ec (unstore_nonce c (unpend c s)).1) /\
  known (channels (stop_channel c ec (unstore_nonce c (unpend c s)).1) c) = true.
Proof.
  intros Hg Hk. destruct (stop_channel_eq c ec (unstore_nonce c (unpend c s)).1 s) as [He Hn].
  { by rewrite (aside_channels _ _ (aside_unstore c (unpend c s))). }
  { by rewrite (aside_network _ _ (aside_unstore c (unpend c s))). }
  split; [| rewrite He; by rewrite (proj1 (flow_stop c ec s c))].
  eapply good_equiv; [.. | exact (good_stop c ec s Hg Hk)].
  - by rewrite He.
  - done.
  - intros n Hin. rewrite (proj1 (stop_pended_same c ec s)) in Hin. rewrite (proj1 (stop_pended_same c ec _)), aside_pended_unstore.
    destruct (unpend_kept c n s Hin) as [| ->]; [by left | right; apply stop_channel_stops].
  - intros n. rewrite !(proj1 (stop_pended_same c ec _)), aside_pended_unstore. cbn. by intros [_ ?]%list_elem_of_filter.
  - rewrite !(proj2 (stop_pended_same _ _ _)). by rewrite (aside_sessions _ _ (aside_unstore c (unpend c s))).
Qed.

Lemma good_do_handshake c ec s : good s -> job_ok s (handshake_job c ec) -> good (do_handle_handshake c ec s).
Proof.
  intros Hg [Hk Hs]. cbn in Hk, Hs. unfold do_handle_handshake. destruct (class_of _).
  - assert (forall v code, good v -> known (channels v c) = true -> good (if failed code
      then handle_channel_starting c code (stop_channel c code (unstore_nonce c (unpend c v)).1) else handle_channel_starting c ec v)) as Hv.
    { intros v e Hv Hkv. destruct (failed e); [| by apply good_starting]. destruct (good_refuse c e v Hv Hkv). by apply good_starting. }
    destruct (failed ec); [by apply Hv |]. pose proof (aside_count c s) as Ha. pose proof (aside_pended_count c s) as Hp.
    destruct (count_channel c s) as [v e]. cbn [fst] in *. apply Hv; [by eapply good_aside |]. by rewrite (aside_channels _ _ Ha).
  - destruct (failed ec); apply good_starting; auto. apply good_unpend; auto.
Qed.

Lemma good_network_run j l sent received s : good s -> network s = j :: l -> good (run_network_job j sent received (set_network l s)).
Proof.
  intros Hg Hl. pose proof (good_jobs _ Hg) as Hj. rewrite Hl in Hj. apply Forall_cons in Hj as [Hj Hjs].
  assert (good (set_network l s)) as Hv by (destruct Hg as [H1 H2 H3 H4]; by split).
  assert (job_ok (set_network l s) j) as Hjv by done. clear Hj Hjs. set (v := set_network l s) in *. clearbody v.
  destruct j; cbn [run_network_job].
  - by apply good_do_handshake.
  - destruct Hjv as [Hk _]. unfold do_handle_channel_started. destruct (failed ec); [by apply good_starter | by apply good_post].
  - by apply good_starter.
  - destruct Hjv as [Hk Hs]. unfold do_handle_channel_stopped. apply good_stopper. destruct (class_of _); [| by apply good_unpend].
    eapply good_aside; [apply aside_uncount | apply aside_pended_uncount |].
    eapply good_aside; [apply aside_unstore | apply aside_pended_unstore |]. by apply good_unpend.
Qed.
(** ** Starts and stops *)

(** A channel is made known, of which only the session flow. *)
Record new (c : nat) (s : t) : Prop := {
  new_channel : channels s c = mk_channel true false false false false [];
  new_others c' : c <> c' -> fine (channels s c');
  new_jobs : Forall (job_ok s) (network s);
  new_live c' : c <> c' -> known (channels s c') = true -> stopped_ (channels s c') = false -> c' ∈ pended s /\ session_stopped s (session_id c') = false;
  new_pended c' : c' ∈ pended s -> known (channels s c') = true
}.

Lemma new_know c s : known (channels s c) = false -> good s -> new c (know c s).
Proof.
  intros Hk Hg. pose proof (fine_unknown _ (good_fine _ Hg c) Hk) as He. split.
  - unfold know. cbn. by rewrite fn_lookup_insert, He.
  - intros c' Hn. unfold know. cbn. rewrite fn_lookup_insert_ne by done. apply (good_fine _ Hg).
  - unfold know. cbn. eapply Forall_impl; [apply (good_jobs _ Hg) |]. intros j [Hj1 Hj2].
    assert (c <> channel_of j) as Hn by (intros ->; congruence).
    split; cbn; [by rewrite fn_lookup_insert_ne |]. destruct j; cbn in *; try done; by rewrite fn_lookup_insert_ne.
  - intros c' Hn. unfold know. cbn. rewrite fn_lookup_insert_ne by done. apply (good_live _ Hg).
  - intros c'. unfold know. cbn. destruct (decide (c = c')) as [<- | Hn]; [by rewrite fn_lookup_insert | rewrite fn_lookup_insert_ne by done]. apply (good_pended _ Hg).
Qed.

Lemma new_aside c s s' : aside s s' -> pended s' = pended s -> new c s -> new c s'.
Proof.
  intros [Hc Hn _ Hs] Hp [H1 H2 H3 H4 H5]. split; rewrite ?Hc, ?Hn, ?Hp, ?Hs; try done.
  eapply Forall_impl; [exact H3 |]. intros j. apply job_flow. intros c'. by rewrite Hc.
Qed.

Lemma fine_fresh l stop : l = [attach_handshake_job] /\ stop = false \/ (exists ec, l = [stopping_job ec]) /\ stop = true -> fine (mk_channel true stop false false false l).
Proof.
  intros [[-> ->] | [[ec ->] ->]]; split; cbn; try done.
  - intros _. repeat split; try done. exists []. split; [done | by intros Hx%elem_of_nil].
  - by intros Hx%list_elem_of_singleton.
Qed.

(** The new channel is stopped, or attached. *)
Lemma good_new c x s s' : new c s -> known x = true -> fine x -> channels s' = <[c := x]> (channels s) -> network s' = network s -> session_stopped s' = session_stopped s ->
  (forall n, n ∈ pended s -> n ∈ pended s') -> (forall n, n ∈ pended s' -> n ∈ pended s \/ n = c) -> (stopped_ x = false -> c ∈ pended s' /\ session_stopped s (session_id c) = false) -> good s'.
Proof.
  intros [H1 H2 H3 H4 H5] Hk Hx Hc Hn Hs Hp Hq Hl. split.
  - intros c'. rewrite Hc. destruct (decide (c = c')) as [<- | Hd]; [by rewrite fn_lookup_insert | rewrite fn_lookup_insert_ne by done; auto].
  - rewrite Hn. eapply Forall_impl; [exact H3 |]. intros j. apply job_flow. intros c'. rewrite Hc.
    destruct (decide (c = c')) as [<- | Hd]; [by rewrite fn_lookup_insert, H1 | by rewrite fn_lookup_insert_ne].
  - intros c'. rewrite Hc, Hs. destruct (decide (c = c')) as [<- | Hd]; [rewrite fn_lookup_insert; auto | rewrite fn_lookup_insert_ne by done].
    intros Hk' Hs'. destruct (H4 _ Hd Hk' Hs'). auto.
  - intros c' [Hin | ->]%Hq; rewrite Hc; [| by rewrite fn_lookup_insert]. destruct (decide (c = c')) as [<- | Hd]; [by rewrite fn_lookup_insert | rewrite fn_lookup_insert_ne by done; auto].
Qed.

Lemma good_new_stop c ec s : new c s -> good (stop_channel c ec s).
Proof.
  intros Hw. pose proof (new_channel _ _ Hw) as He. unfold stop_channel. rewrite He. cbn [known stopped_ shaking subscribed fired strand app].
  eapply (good_new c); [exact Hw | | | reflexivity | ..]; try done; [apply fine_fresh; right; eauto | by left].
Qed.

Lemma good_base_start c s : new c s -> good (base_start_channel c s).
Proof.
  intros Hw. unfold base_start_channel. destruct (session_stopped s (session_id c)) eqn:Hs; [by apply good_stopper, good_starter, good_new_stop |].
  pose proof (new_channel _ _ Hw) as He. unfold post. cbn. rewrite He. cbn.
  eapply (good_new c); [exact Hw | | | reflexivity | done | done | | |]; [done | apply fine_fresh; by left | ..]; cbn.
  - intros n Hn. apply elem_of_app. by left.
  - intros n [? | ->%list_elem_of_singleton]%elem_of_app; auto.
  - intros _. split; [apply elem_of_app; right; by left | done].
Qed.

Lemma good_start_channel c s : known (channels s c) = false -> good s -> good (start_channel c s).
Proof.
  intros Hk Hg. pose proof (new_know _ _ Hk Hg) as Hw. unfold start_channel. destruct (class_of _); [| by apply good_base_start].
  destruct (session_stopped (know c s) (session_id c)); [by apply good_base_start |].
  pose proof (new_aside _ _ _ (aside_store c (know c s)) (aside_pended_store c _) Hw) as Hv. destruct (store_nonce c (know c s)) as [v []]; cbn [fst] in Hv.
  - by apply good_base_start.
  - by apply good_stopper, good_starter, good_new_stop.
Qed.

(** What the stop of channels leaves. *)
Record stopping_all (n : nat) (l : list nat) (s s' : t) : Prop := {
  all_fine : (forall c, c ∈ l -> known (channels s c) = true) -> (forall c, fine (channels s c)) -> forall c, fine (channels s' c);
  all_flow : flow s s';
  all_network : network s' = network s;
  all_calls : calls s' = calls s;
  all_pended : pended s' = pended s;
  all_sessions : session_stopped s' = session_stopped s;
  all_stopped c : c ∈ l -> session_id c = n -> stopped_ (channels s' c) = true;
  all_counts : nonces_ s' = nonces_ s /\ inbound_channel_count_ s' = inbound_channel_count_ s /\ total_channel_count_ s' = total_channel_count_ s /\
    actives_ s' = actives_ s /\ reserved s' = reserved s;
  all_tokens W c : class_ok W -> tokens W s' c = tokens W s c
}.

Lemma stop_all n l s : stopping_all n l s (stop_pended n l s).
Proof.
  revert s. induction l as [| c l IH]; intros s; [split; try done; by intros c Hin%elem_of_nil |].
  unfold stop_pended. cbn [fold_left]. set (s1 := if (session_id c =? n)%nat then stop_channel c error.service_stopped s else s).
  specialize (IH s1). unfold stop_pended in IH. destruct IH as [I1 I2 I3 I4 I5 I6 I7 I8 I9].
  assert (flow s s1) as Hf by (unfold s1; destruct (_ =? _)%nat; [apply flow_stop | apply flow_refl]).
  assert (network s1 = network s /\ calls s1 = calls s /\ pended s1 = pended s /\ session_stopped s1 = session_stopped s /\
    nonces_ s1 = nonces_ s /\ inbound_channel_count_ s1 = inbound_channel_count_ s /\ total_channel_count_ s1 = total_channel_count_ s /\ actives_ s1 = actives_ s /\ reserved s1 = reserved s)
    as (J1 & J2 & J3 & J4 & J5 & J6 & J7 & J8 & J9) by (unfold s1, stop_channel; by repeat case_match).
  split; try congruence.
  - intros Hk Hfine. apply I1.
    + intros c' Hin. rewrite (proj1 (Hf c')). apply Hk. by right.
    + intros c'. unfold s1, stop_channel. destruct (_ =? _)%nat; [| done]. destruct (stopped_ (channels s c)) eqn:Hs; [done |]. cbn.
      destruct (decide (c = c')) as [<- | Hd]; [rewrite fn_lookup_insert | by rewrite fn_lookup_insert_ne]. apply fine_stop; [done | | done]. apply Hk. by left.
  - by eapply flow_trans.
  - intros c' [-> | Hin]%elem_of_cons Hn; [| by apply I7]. apply (proj2 (I2 _)). unfold s1. rewrite Hn, Nat.eqb_refl. apply stop_channel_stops.
  - intros W c' HW. rewrite I9 by done. unfold s1. destruct (_ =? _)%nat; [by apply tokens_stop | done].
Qed.

Lemma good_session_stop n s : good s -> good (session_stop n s).
Proof.
  intros [H1 H2 H3 H4]. unfold session_stop. set (s1 := set_session n true s). destruct (stop_all n (pended s1) s1) as [I1 I2 I3 I4 I5 I6 I7 _ _].
  set (v := stop_pended n (pended s1) s1) in *. split; cbn [channels network pended session_stopped set_pended].
  - apply I1; [intros c Hin; by apply (H4 c) | apply H1].
  - rewrite I3. cbn. eapply Forall_impl; [exact H2 |]. intros j. by apply (job_flow s1).
  - intros c Hk Hs. rewrite (proj1 (I2 c)) in Hk. assert (stopped_ (channels s1 c) = false) as Hs1.
    { destruct (stopped_ (channels s1 c)) eqn:He; [| done]. by rewrite (proj2 (I2 c) He) in Hs. }
    destruct (H3 c Hk Hs1) as [Hin Hsess].
    assert (session_id c <> n) as Hn. { intros Hn. by rewrite (I7 c Hin Hn) in Hs. }
    split; [apply list_elem_of_filter; by split |]. rewrite I6. cbn. by rewrite fn_lookup_insert_ne.
  - intros c [_ Hin]%list_elem_of_filter. rewrite (proj1 (I2 c)). by apply (H4 c).
Qed.

Lemma good_move s s' : good s -> move s s' -> good s'.
Proof.
  intros Hg Hm. destruct Hm as [s c Hk | s c ec Hs | s c ec Hk Hec | s | s n | s n | s c j l Hl | s j l sent received Hl].
  - by apply good_start_channel.
  - by apply good_complete.
  - by apply good_stop.
  - by eapply good_equiv; [.. | exact Hg]; auto.
  - unfold session_start. destruct (session_stopped s n) eqn:Hn; [| done]. destruct Hg as [H1 H2 H3 H4]. split; try done.
    intros c Hk Hs. destruct (H3 c Hk Hs) as [Hin Hsess]. split; [done |]. cbn. destruct (decide (n = session_id c)) as [-> | Hd]; [by rewrite fn_lookup_insert | by rewrite fn_lookup_insert_ne].
  - by apply good_session_stop.
  - by apply good_channel_run.
  - by apply good_network_run.
Qed.

Lemma good_make : good make.
Proof.
  split.
  - intros c. cbn. by split; try done; intros Hin%elem_of_nil.
  - by constructor.
  - done.
  - by intros c Hin%elem_of_nil.
Qed.

(** ** Calls *)

Definition bit (b : bool) : nat := if b then 1 else 0.

(** Each account that ends in a call is one, of a channel that is known. *)
Definition called_once (W : weights) (s : t) : Prop := forall c, tokens W s c = bit (known (channels s c)).

Inductive calling : weights -> Prop := calling_starting : calling starting | calling_ending : calling ending.

Lemma calling_account W : calling W -> account W.
Proof. intros []; constructor. Qed.

Lemma flow_eq s s' : channels s' = channels s -> flow s s'.
Proof. by intros H1 c; rewrite H1. Qed.

Lemma flow_handshake c ec s : flow s (handle_handshake c ec s).
Proof. unfold handle_handshake. destruct (failed ec); [apply (flow_stop c ec s) | done]. Qed.

Lemma flow_complete c ec s : flow s (complete_handshake c ec s).
Proof. unfold complete_handshake. apply (flow_trans _ (set_shaking c false s)); [by apply flow_set | apply flow_handshake]. Qed.

Lemma flow_starter c ec s : flow s (call_starter c ec s).
Proof. unfold call_starter. by destruct (class_of _). Qed.

Lemma flow_stopper c ec s : flow s (call_stopper c ec s).
Proof. unfold call_stopper. by destruct (class_of _). Qed.

Lemma flow_starting c ec s : flow s (handle_channel_starting c ec s).
Proof.
  unfold handle_channel_starting, subscribe_stop. destruct (failed ec); [eapply flow_trans; [apply flow_starter | apply flow_stopper] |].
  destruct (stopped_ _); [done |]. by apply flow_set.
Qed.

Lemma flow_channel_run c j s : flow s (run_channel_job c j s).
Proof.
  destruct j; cbn [run_channel_job].
  - unfold do_attach_handshake. destruct (class_of _); [by apply flow_set | apply flow_handshake].
  - unfold do_subscribe_stop. destruct (fired _); [done |]. by apply (flow_set c).
  - done.
  - unfold stopping. set (v := set_channel _ _ s). assert (flow s v) as Hv by (by apply flow_set).
    destruct (shaking _), (subscribed _); try done; by (eapply flow_trans; [exact Hv | apply flow_complete]).
Qed.

Lemma flow_network_run j sent received s : flow s (run_network_job j sent received s).
Proof.
  destruct j as [c ec | c ec | c | c ec]; cbn [run_network_job].
  - unfold do_handle_handshake. destruct (class_of _); [| destruct (failed ec); [apply (flow_trans _ (unpend c s)); [done | apply flow_starting] | apply flow_starting]].
    assert (forall v e, flow s v -> flow s (if failed e then handle_channel_starting c e (stop_channel c e (unstore_nonce c (unpend c v)).1) else handle_channel_starting c ec v)) as Hv.
    { intros v e Hv. eapply flow_trans; [exact Hv |]. destruct (failed e); [| apply flow_starting]. eapply flow_trans; [| apply flow_starting].
      eapply flow_trans; [| apply flow_stop]. apply flow_eq. by rewrite (aside_channels _ _ (aside_unstore c (unpend c v))). }
    destruct (failed ec); [by apply Hv |]. pose proof (aside_count c s) as Ha. destruct (count_channel c s) as [v e]. apply Hv, flow_eq, (aside_channels _ _ Ha).
  - unfold do_handle_channel_started. destruct (failed ec); [apply flow_starter | by apply flow_set].
  - apply flow_starter.
  - unfold do_handle_channel_stopped. set (v := match class_of (session_id c) with peer_class => _ | server_class => _ end).
    apply (flow_trans _ v); [| apply flow_stopper]. refine (flow_eq _ _ _). unfold v. destruct (class_of _); [| done].
    rewrite (aside_channels _ _ (aside_uncount c sent received (unstore_nonce c (unpend c s)).1)). by rewrite (aside_channels _ _ (aside_unstore c (unpend c s))).
Qed.
(** *** What each move adds to an account *)

Lemma tokens_know W c s c' : tokens W (know c s) c' = tokens W s c'.
Proof. by apply channel_same. Qed.

(** The channel is started, or both its handlers are called. *)
Lemma tokens_calls W c e e' s c' : account W -> tokens W (call_stopper c e (call_starter c e' s)) c' = (tokens W s c' + at_channel c c' (shake_weight W))%nat.
Proof. intros HW. rewrite tokens_stopper, tokens_starter. unfold at_channel. destruct HW; destruct (c =? c')%nat; cbn; lia. Qed.

Lemma tokens_base_start W c s c' : account W -> tokens W (base_start_channel c s) c' = (tokens W s c' + at_channel c c' (shake_weight W))%nat.
Proof.
  intros HW. unfold base_start_channel. destruct (session_stopped s (session_id c)).
  - by rewrite tokens_calls, tokens_stop by (done || by apply account_ok).
  - rewrite tokens_post. by rewrite (tokens_same W s).
Qed.

Lemma tokens_start W c s c' : account W -> tokens W (start_channel c s) c' = (tokens W s c' + at_channel c c' (shake_weight W))%nat.
Proof.
  intros HW. unfold start_channel. rewrite <- (tokens_know W c s). destruct (class_of _); [| by apply tokens_base_start].
  destruct (session_stopped _ _); [by apply tokens_base_start |]. pose proof (tokens_aside W _ _ c' (aside_store c (know c s))) as Ha.
  destruct (store_nonce c (know c s)) as [v []]; cbn [fst] in Ha; rewrite <- Ha; [by apply tokens_base_start |].
  by rewrite tokens_calls, tokens_stop by (done || by apply account_ok).
Qed.

Lemma flow_base_start c s : flow s (base_start_channel c s).
Proof.
  unfold base_start_channel. destruct (session_stopped _ _); [| by apply (flow_set c _ (pend c s))].
  eapply flow_trans; [| apply flow_stopper]. eapply flow_trans; [apply flow_stop | apply flow_starter].
Qed.

Lemma flow_start c s : flow (know c s) (start_channel c s).
Proof.
  unfold start_channel. destruct (class_of _); [| apply flow_base_start]. destruct (session_stopped _ _); [apply flow_base_start |].
  pose proof (flow_eq _ _ (aside_channels _ _ (aside_store c (know c s)))) as Ha. destruct (store_nonce c (know c s)) as [v []]; cbn [fst] in Ha.
  - eapply flow_trans; [exact Ha | apply flow_base_start].
  - eapply flow_trans; [exact Ha |]. eapply flow_trans; [| apply flow_stopper]. eapply flow_trans; [| apply flow_starter]. apply flow_stop.
Qed.

Lemma strand_state c j l s : strand (channels s c) = j :: l ->
  channels (set_strand c l s) c = mk_channel (known (channels s c)) (stopped_ (channels s c)) (shaking (channels s c)) (subscribed (channels s c)) (fired (channels s c)) l.
Proof. intros Hl. unfold set_strand. cbn. by rewrite fn_lookup_insert. Qed.

Lemma subscribe_unsubscribed c l s : called_once ending s -> strand (channels s c) = subscribe_job :: l -> subscribed (channels s c) = false.
Proof.
  intros He Hl. destruct (subscribed (channels s c)) eqn:Hs; [| done]. specialize (He c). unfold tokens, channel_tokens in He. rewrite Hl, Hs in He.
  unfold bit in He. cbn in He. destruct (known (channels s c)); lia.
Qed.

Lemma tokens_channel_run W c j l s c' : account W -> good s -> called_once ending s -> strand (channels s c) = j :: l ->
  tokens W (run_channel_job c j (set_strand c l s)) c' = tokens W s c'.
Proof.
  intros HW Hg He Hl. rewrite (tokens_strand W c j l s c' Hl). pose proof (strand_state _ _ _ _ Hl) as Hs. destruct j; cbn [run_channel_job].
  - destruct (fine_attach _ (good_fine _ Hg c)) as (_ & Hsh & _); [rewrite Hl; by left |]. rewrite tokens_attach; [done | done | by rewrite Hs].
  - rewrite tokens_do_subscribe; [by destruct HW | done | rewrite Hs; by apply (subscribe_unsubscribed c l)].
  - unfold do_attach_protocols. rewrite tokens_post_network. by destruct HW.
  - rewrite tokens_stopping by done. rewrite account_ok by done. unfold at_channel. destruct (c =? c')%nat; lia.
Qed.

(** The success of a handshake is a subscription, its failure is both calls. *)
Lemma tokens_do_handshake W c ec s c' : account W -> exists code, tokens W (do_handle_handshake c ec s) c' =
  (tokens W s c' + at_channel c c' (if failed code then of_call W (starter ec) + of_call W (stopper ec) else 1))%nat /\
  match class_of (session_id c) with server_class => code = ec | peer_class => code = if failed ec then ec else (count_channel c s).2 end.
Proof.
  intros HW. assert (forall e e', of_call W (starter e) = of_call W (starter e') /\ of_call W (stopper e) = of_call W (stopper e')) as Hcall by (by intros; destruct HW).
  unfold do_handle_handshake. destruct (class_of (session_id c)).
  - set (code := if failed ec then ec else (count_channel c s).2). exists code. split; [| done].
    assert (forall v, tokens W v c' = tokens W s c' -> tokens W (if failed code then handle_channel_starting c code (stop_channel c code (unstore_nonce c (unpend c v)).1)
      else handle_channel_starting c ec v) c' = (tokens W s c' + at_channel c c' (if failed code then of_call W (starter ec) + of_call W (stopper ec) else 1))%nat) as Hv.
    { intros v Hv. destruct (failed code) eqn:Hf; rewrite tokens_starting by done.
      - rewrite Hf, tokens_stop, (tokens_aside W _ _ c' (aside_unstore c (unpend c v))), (tokens_same W v), Hv by (done || by apply account_ok).
        by rewrite (proj1 (Hcall code ec)), (proj2 (Hcall code ec)).
      - assert (failed ec = false) as He by (unfold code in Hf; destruct (failed ec) eqn:Hfe; congruence). by rewrite He, Hv. }
    pose proof (tokens_aside W _ _ c' (aside_count c s)) as Ha. unfold code in *. destruct (failed ec); [by apply Hv |]. destruct (count_channel c s) as [v e]. cbn [fst snd] in *. by apply Hv.
  - exists ec. split; [| done]. rewrite tokens_starting by done. by destruct (failed ec); rewrite ?(tokens_same W s (unpend c s)).
Qed.

Lemma tokens_do_stopped W c ec sent received s c' : tokens W (do_handle_channel_stopped c ec sent received s) c' = (tokens W s c' + at_channel c c' (of_call W (stopper ec)))%nat.
Proof.
  unfold do_handle_channel_stopped. rewrite tokens_stopper. f_equal. destruct (class_of _); [| done].
  by rewrite (tokens_aside W _ _ c' (aside_uncount c sent received _)), (tokens_aside W _ _ c' (aside_unstore c _)).
Qed.

Lemma tokens_do_started W c ec s c' : account W -> tokens W (do_handle_channel_started c ec s) c' = (tokens W s c' + at_channel c c' (of_call W (starter ec)))%nat.
Proof. intros HW. unfold do_handle_channel_started. destruct (failed ec); [apply tokens_starter |]. rewrite tokens_post. by destruct HW. Qed.

Lemma called_move s s' W : calling W -> good s -> called_once ending s -> called_once W s -> move s s' -> called_once W s'.
Proof.
  intros HW Hg He Hc Hm c'. pose proof (calling_account _ HW) as Ha.
  destruct Hm as [s c Hk | s c ec Hs | s c ec Hk Hec | s | s n | s n | s c j l Hl | s j l sent received Hl].
  - rewrite tokens_start, (Hc c'), (proj1 (flow_start c s c')) by done. unfold know, at_channel. cbn.
    destruct (Nat.eqb_spec c c') as [<- | Hd]; [rewrite fn_lookup_insert, Hk; by destruct HW | rewrite fn_lookup_insert_ne by done; lia].
  - rewrite tokens_complete by done. by rewrite (proj1 (flow_complete c ec s c')).
  - rewrite tokens_stop by (by apply account_ok). by rewrite (proj1 (flow_stop c ec s c')).
  - by rewrite (tokens_same W s).
  - unfold session_start. destruct (session_stopped s n); [by rewrite (tokens_same W s) | done].
  - unfold session_stop. set (s1 := set_session n true s). destruct (stop_all n (pended s1) s1) as [I1 I2 I3 I4 I5 I6 I7 _ I9].
    rewrite (tokens_same W (stop_pended n (pended s1) s1)), I9, (tokens_same W s) by (done || by apply account_ok). cbn [channels set_pended].
    rewrite (proj1 (I2 c')). apply Hc.
  - rewrite tokens_channel_run by done. rewrite (proj1 (flow_channel_run c j (set_strand c l s) c')). rewrite (Hc c'). f_equal.
    symmetry. by apply (flow_set c _ s).
  - assert (tokens W (run_network_job j sent received (set_network l s)) c' = tokens W s c') as ->; [| by rewrite (proj1 (flow_network_run j sent received (set_network l s) c')), (Hc c')].
    rewrite (tokens_network W j l s c' Hl). destruct j as [c ec | c ec | c | c ec]; cbn [run_network_job channel_of].
    + destruct (tokens_do_handshake W c ec (set_network l s) c' Ha) as (code & -> & _). destruct HW, (failed code); done.
    + rewrite tokens_do_started by done. by destruct HW.
    + rewrite tokens_starter. by destruct HW.
    + rewrite tokens_do_stopped. by destruct HW.
Qed.
(** *** Reachable states *)

Definition reachable (s : t) : Prop := rtc move make s.

Lemma once_make W : called_once W make.
Proof. done. Qed.

Lemma reachable_sound s : reachable s -> good s /\ called_once starting s /\ called_once ending s.
Proof.
  intros Hr. enough (forall v, rtc move v s -> good v /\ called_once starting v /\ called_once ending v -> good s /\ called_once starting s /\ called_once ending s) as He.
  { apply (He _ Hr). split; [exact good_make | split; apply once_make]. }
  clear Hr. intros v Hv. induction Hv as [| v w s Hm _ IH]; [done |]. intros (Hg & Hs & He). apply IH.
  split; [by apply (good_move v) | split; eapply called_move; eauto; constructor].
Qed.

(** ** The handlers are called once *)

Definition is_starter (x : call) : bool := match x with starter _ => true | stopper _ => false end.

(** The calls of the starter, or of the stopper, of a channel. *)
Definition calls_of (start : bool) (c : nat) (s : t) : nat := length (filter (fun x => x.1 = c /\ is_starter x.2 = start) (calls s)).

Definition weights_of (start : bool) : weights := if start then starting else ending.

Lemma calls_tokens start c s : calls_of start c s = call_tokens (weights_of start) (calls s) c.
Proof.
  unfold calls_of, call_tokens. induction (calls s) as [| [c' x] l IH]; [done |]. cbn [map sum_list fst snd]. rewrite <- IH. unfold at_channel.
  destruct (Nat.eqb_spec c' c) as [-> | Hn]; [| by rewrite filter_cons_False by naive_solver].
  destruct start, x; cbn [weights_of starting ending of_call]; rewrite ?filter_cons_True, ?filter_cons_False by naive_solver; done.
Qed.

Lemma quiet_channel W c s : class_ok W -> good s -> network s = [] -> strand (channels s c) = [] -> stopped_ (channels s c) = true ->
  tokens W s c = call_tokens W (calls s) c.
Proof.
  intros HW Hg Hn Hs Hst. unfold tokens, channel_tokens, network_tokens. rewrite Hn, Hs. cbn.
  pose proof (good_fine _ Hg c) as [H1 H2 H3 H4 H5 H6]. rewrite Hs, Hst in H2. unfold stops_of in H2. cbn in H2. destruct (fired (channels s c)) eqn:Hf; [| done].
  destruct (shaking (channels s c)); [by specialize (H4 eq_refl) |]. destruct (subscribed (channels s c)); [by specialize (H5 eq_refl) | done].
Qed.

Lemma calls_bounded start c s : reachable s -> (calls_of start c s <= bit (known (channels s c)))%nat.
Proof.
  intros Hr. destruct (reachable_sound s Hr) as (_ & Hs & He). rewrite calls_tokens.
  assert (called_once (weights_of start) s) as Ho by (by destruct start). specialize (Ho c). unfold tokens in Ho. lia.
Qed.

Lemma calls_complete start c s : reachable s -> network s = [] -> strand (channels s c) = [] -> stopped_ (channels s c) = true -> known (channels s c) = true ->
  calls_of start c s = 1%nat.
Proof.
  intros Hr Hn Hs Hst Hk. destruct (reachable_sound s Hr) as (Hg & Hst' & He). rewrite calls_tokens.
  rewrite <- (quiet_channel _ c s) by (done || by destruct start). assert (called_once (weights_of start) s) as Ho by (by destruct start). rewrite (Ho c). by rewrite Hk.
Qed.

(** ** Counts *)

(** What the network counts of channels. *)
Definition books (s : t) : Z * Z * list nat * list nat := (inbound_channel_count_ s, total_channel_count_ s, actives_ s, reserved s).

Lemma books_stop c ec s : books (stop_channel c ec s) = books s.
Proof. unfold stop_channel. by case_match. Qed.

Lemma books_starter c ec s : books (call_starter c ec s) = books s.
Proof. unfold call_starter. by case_match. Qed.

Lemma books_stopper c ec s : books (call_stopper c ec s) = books s.
Proof. unfold call_stopper. by case_match. Qed.

Lemma books_store c s : books (store_nonce c s).1 = books s.
Proof. unfold store_nonce. by repeat case_match. Qed.

Lemma books_unstore c s : books (unstore_nonce c s).1 = books s.
Proof. unfold unstore_nonce. by repeat case_match. Qed.

Lemma books_handshake c ec s : books (handle_handshake c ec s) = books s.
Proof. unfold handle_handshake. destruct (failed ec); [apply (books_stop c ec s) | done]. Qed.

Lemma books_starting c ec s : books (handle_channel_starting c ec s) = books s.
Proof. unfold handle_channel_starting, subscribe_stop. destruct (failed ec); [by rewrite books_stopper, books_starter | by case_match]. Qed.

Lemma books_base_start c s : books (base_start_channel c s) = books s.
Proof. unfold base_start_channel. case_match; [by rewrite books_stopper, books_starter, books_stop | done]. Qed.

Lemma books_start c s : books (start_channel c s) = books s.
Proof.
  unfold start_channel. destruct (class_of _); [| by rewrite books_base_start]. destruct (session_stopped _ _); [by rewrite books_base_start |].
  pose proof (books_store c (know c s)) as Hb. destruct (store_nonce c (know c s)) as [v []]; [by rewrite books_base_start | by rewrite books_stopper, books_starter, books_stop].
Qed.

Lemma books_session_stop n s : books (session_stop n s) = books s.
Proof.
  unfold session_stop. destruct (stop_all n (pended (set_session n true s)) (set_session n true s)) as [_ _ _ _ _ _ _ (_ & H1 & H2 & H3 & H4) _].
  unfold books. cbn [inbound_channel_count_ total_channel_count_ actives_ reserved set_pended]. rewrite H1, H2, H3, H4. done.
Qed.

Lemma books_channel_run c j s : books (run_channel_job c j s) = books s.
Proof.
  destruct j; cbn [run_channel_job].
  - unfold do_attach_handshake. destruct (class_of _); [done | apply books_handshake].
  - unfold do_subscribe_stop. by case_match.
  - done.
  - unfold stopping, complete_handshake. destruct (shaking _), (subscribed _); try done;
      refine (eq_trans (books_handshake _ _ _) _); done.
Qed.

(** The jobs of the network that count: of a peer, that whose handshake
    succeeds, and that which has stopped. *)
Lemma books_network_run j s sent received : books (run_network_job j sent received s) = books (
  match j with
  | handshake_job c ec => match class_of (session_id c) with peer_class => if failed ec then s else (count_channel c s).1 | server_class => s end
  | stopped_job c _ => match class_of (session_id c) with peer_class => uncount_channel c sent received (unstore_nonce c (unpend c s)).1 | server_class => s end
  | _ => s
  end).
Proof.
  destruct j as [c ec | c ec | c | c ec]; cbn [run_network_job].
  - unfold do_handle_handshake. destruct (class_of _); [| rewrite books_starting; by case_match].
    destruct (failed ec) eqn:Hf; [rewrite Hf, books_starting, books_stop, books_unstore; done |]. destruct (count_channel c s) as [v e]. cbn [fst].
    destruct (failed e); rewrite books_starting; [by rewrite books_stop, books_unstore | done].
  - unfold do_handle_channel_started. destruct (failed ec); [apply books_starter | done].
  - apply books_starter.
  - unfold do_handle_channel_stopped. rewrite books_stopper. by destruct (class_of _).
Qed.

Definition counts (f : nat -> bool) (l : list nat) : Z := Z.of_nat (length (filter (fun c => f c = true) l)).

Definition loud (c : nat) : bool := negb (quiet (info c)).

(** The counts are those of the active channels, which are of distinct
    endpoints, all reserved. *)
Record balanced (b : Z * Z * list nat * list nat) : Prop := {
  balanced_inbound : b.1.1.1 = counts (fun c => inbound (info c)) b.1.2;
  balanced_total : b.1.1.2 = counts loud b.1.2;
  balanced_inbound_bound : b.1.1.1 < 2 ^ 64;
  balanced_total_bound : b.1.1.2 < 2 ^ 64;
  balanced_reserved : b.2 ≡ₚ map (fun c => endpoint (info c)) b.1.2;
  balanced_distinct : NoDup b.2
}.

Definition counted (s : t) : Prop := balanced (books s) /\ forall c, c ∈ actives_ s <-> class_of (session_id c) = peer_class /\ tokens counting s c = 1%nat.

Lemma counts_app f l r : counts f (l ++ r) = counts f l + counts f r.
Proof. unfold counts. rewrite filter_app, length_app. lia. Qed.

Lemma counts_one f c : counts f [c] = if f c then 1 else 0.
Proof. unfold counts. destruct (f c) eqn:Hf; [by rewrite filter_cons_True | by rewrite filter_cons_False by congruence]. Qed.

Lemma counts_pos f l : 0 <= counts f l.
Proof. unfold counts. lia. Qed.

(** A count that would not wrap. *)
Lemma add1_bound (b : bool) n : 0 <= n < 2 ^ 64 -> b && (add1 n =? 0) = false -> (if b then add1 n else n) = n + (if b then 1 else 0) /\ n + (if b then 1 else 0) < 2 ^ 64.
Proof.
  intros Hn Hb. destruct b; [| lia]. cbn in Hb. apply Z.eqb_neq in Hb. unfold add1 in *. destruct (Z.eq_dec (n + 1) (2 ^ 64)) as [He | He].
  - rewrite He, Z.mod_same in Hb by lia. lia.
  - rewrite Z.mod_small by lia. lia.
Qed.

Lemma count_books c s : balanced (books s) ->
  balanced (books (count_channel c s).1) /\ actives_ (count_channel c s).1 = actives_ s ++ (if failed (count_channel c s).2 then [] else [c]).
Proof.
  intros [H1 H2 H3 H4 H5 H6]. cbn [books fst snd] in *. unfold count_channel.
  assert (forall e : code, failed e = true -> balanced (books s) /\ actives_ s = actives_ s ++ (if failed e then [] else [c])) as Hno.
  { intros e ->. split; [by split | by rewrite app_nil_r]. }
  destruct (closed_ s); [by apply Hno |]. destruct (is_loopback c s); [by apply Hno |].
  destruct (inbound (info c) && _) eqn:Hi; [by apply Hno |]. destruct (negb (quiet (info c)) && _) eqn:Ht; [by apply Hno |].
  destruct (bool_decide_reflect (endpoint (info c) ∈ reserved s)) as [| Hnew]; [by apply Hno |]. clear Hno.
  pose proof (counts_pos (fun c => inbound (info c)) (actives_ s)) as Hp1. pose proof (counts_pos loud (actives_ s)) as Hp2.
  destruct (add1_bound _ (inbound_channel_count_ s) ltac:(lia) Hi) as [Ha1 Hb1]. destruct (add1_bound _ (total_channel_count_ s) ltac:(lia) Ht) as [Ha2 Hb2].
  split; [| done]. split; cbn [books fst snd inbound_channel_count_ total_channel_count_ actives_ reserved set_actives set_counts set_reserved].
  - rewrite Ha1, counts_app, counts_one. lia.
  - replace (if quiet (info c) then total_channel_count_ s else add1 (total_channel_count_ s)) with (if negb (quiet (info c)) then add1 (total_channel_count_ s) else total_channel_count_ s) by (by destruct (quiet (info c))).
    rewrite Ha2, counts_app, counts_one, H2. change (loud c) with (negb (quiet (info c))). lia.
  - by rewrite Ha1.
  - destruct (quiet (info c)); cbn in Ha2, Hb2; lia.
  - rewrite map_app, H5. cbn. by rewrite Permutation_cons_append.
  - by constructor.
Qed.

Lemma filter_without (c : nat) l1 l2 : c ∉ l1 -> c ∉ l2 -> filter (fun n => n <> c) (l1 ++ c :: l2) = l1 ++ l2.
Proof.
  intros H1 H2. rewrite filter_app, filter_cons_False by (intros Hn; by apply Hn).
  assert (forall l : list nat, c ∉ l -> filter (fun n => n <> c) l = l) as Hf; [| by rewrite !Hf].
  intros l. induction l as [| x l IH]; [done |]. intros [Hx Hl]%not_elem_of_cons. rewrite filter_cons_True by congruence. by rewrite IH.
Qed.

Lemma uncount_books c sent received s : balanced (books s) -> c ∈ actives_ s ->
  balanced (books (uncount_channel c sent received s)) /\ actives_ (uncount_channel c sent received s) = filter (fun n => n <> c) (actives_ s).
Proof.
  intros [H1 H2 H3 H4 H5 H6] Hc. cbn [books fst snd] in *. destruct (list_elem_of_split _ _ Hc) as (l1 & l2 & Hl).
  pose proof H6 as Hd. rewrite H5, Hl, map_app in Hd. cbn [map] in Hd. rewrite <- Permutation_middle in Hd. apply NoDup_cons in Hd as [Hnew Hd]. rewrite <- map_app in Hnew, Hd.
  assert (c ∉ l1 ++ l2) as Hcl. { intros Hin. apply Hnew. apply list_elem_of_fmap. eauto. }
  assert (filter (fun e => e <> endpoint (info c)) (reserved s) ≡ₚ map (fun c => endpoint (info c)) (l1 ++ l2)) as Hr.
  { rewrite H5, Hl, !map_app. cbn [map]. rewrite map_app in Hnew. rewrite filter_without; [done | set_solver..]. }
  assert (forall f, counts f (l1 ++ c :: l2) = counts f (l1 ++ l2) + (if f c then 1 else 0)) as Hcount.
  { intros f. change (c :: l2) with ([c] ++ l2). rewrite !counts_app, counts_one. ring. }
  rewrite Hl, Hcount in H1, H2. change (loud c) with (negb (quiet (info c))) in H2. pose proof (counts_pos (fun c => inbound (info c)) (l1 ++ l2)) as Hp1. pose proof (counts_pos loud (l1 ++ l2)) as Hp2.
  assert (filter (fun n => n <> c) (actives_ s) = l1 ++ l2) as Hf by (rewrite Hl; apply filter_without; set_solver).
  unfold uncount_channel. cbn [inbound_channel_count_ total_channel_count_ set_actives set_reserved set_totals].
  replace (inbound (info c) && (inbound_channel_count_ s =? 0)) with false by (destruct (inbound (info c)); lia).
  replace (negb (quiet (info c)) && (total_channel_count_ s =? 0)) with false by (destruct (quiet (info c)); cbn [negb andb] in *; lia).
  split; [| done]. split; cbn [books fst snd inbound_channel_count_ total_channel_count_ actives_ reserved set_actives set_counts set_reserved set_totals]; rewrite ?Hf.
  - destruct (inbound (info c)); lia.
  - destruct (quiet (info c)); cbn [negb] in *; lia.
  - destruct (inbound (info c)); lia.
  - destruct (quiet (info c)); lia.
  - exact Hr.
  - by rewrite Hr.
Qed.

Lemma counting_ending s c : (tokens counting s c + call_tokens ending (calls s) c <= tokens ending s c)%nat.
Proof.
  assert (forall (A : Type) (f g : A -> nat) l, (forall x, f x <= g x)%nat -> (sum_list (map f l) <= sum_list (map g l))%nat) as Hle.
  { intros A f g l Hfg. induction l as [| x l IH]; [done |]. cbn. specialize (Hfg x). lia. }
  unfold tokens, channel_tokens, network_tokens, call_tokens.
  pose proof (Hle _ (of_job counting) (of_job ending) (strand (channels s c)) ltac:(intros []; cbn; lia)).
  pose proof (Hle _ (fun j => at_channel (channel_of j) c (of_network counting j)) (fun j => at_channel (channel_of j) c (of_network ending j)) (network s)
    ltac:(intros [] ; unfold at_channel; case_match; cbn; lia)).
  assert (sum_list (map (fun x => at_channel x.1 c (of_call counting x.2)) (calls s)) = 0)%nat as Hz.
  { induction (calls s) as [| [c' x] l IH]; [done |]. cbn [map sum_list]. rewrite IH. unfold at_channel. by destruct (_ =? _)%nat. }
  cbn [of_shaking of_subscribed counting ending] in *. destruct (shaking _), (subscribed _); lia.
Qed.

Lemma counted_once s c : called_once ending s -> (tokens counting s c <= 1)%nat.
Proof. intros He. pose proof (counting_ending s c) as Hle. rewrite (He c) in Hle. unfold bit in Hle. case_match; lia. Qed.

Lemma counted_same s s' : books s' = books s -> (forall c, tokens counting s' c = tokens counting s c) -> counted s -> counted s'.
Proof.
  intros Hb Ht [H1 H2]. split; [by rewrite Hb |]. intros c. rewrite Ht, <- H2. replace (actives_ s') with (actives_ s); [done |].
  change (actives_ s) with (books s).1.2. by rewrite <- Hb.
Qed.

(** What the success of the handshake of a peer counts is its alone. *)
Lemma counted_handshake c ec l s sent received : called_once ending s -> network s = handshake_job c ec :: l -> counted s ->
  counted (run_network_job (handshake_job c ec) sent received (set_network l s)).
Proof.
  intros He Hl [Hb Ha]. set (v := set_network l s). assert (balanced (books v)) as Hbv by done.
  assert (forall x, tokens counting v x = tokens counting s x) as Hv. { intros x. rewrite (tokens_network counting _ l s x Hl). unfold at_channel. cbn. case_match; fold v; lia. }
  assert (tokens counting v c = 0%nat) as Hzero.
  { pose proof (counting_ending v c) as Hle. specialize (He c). rewrite (tokens_network ending _ l s c Hl) in He. fold v in He. rewrite at_self in He. cbn [of_network ending] in He.
    unfold bit in He. destruct (known _); lia. }
  pose proof (books_network_run (handshake_job c ec) v sent received) as Hbr. cbn [run_network_job] in *. fold v. set (w := do_handle_handshake c ec v) in *.
  assert (forall x, exists code, tokens counting w x = (tokens counting s x + at_channel c x (if failed code then 0 else 1))%nat /\
    match class_of (session_id c) with server_class => code = ec | peer_class => code = if failed ec then ec else (count_channel c v).2 end) as Hw.
  { intros x. destruct (tokens_do_handshake counting c ec v x) as (code & Ht & Hcode); [constructor |]. exists code. by rewrite <- Hv. }
  destruct (class_of (session_id c)) eqn:Hclass.
  - destruct (failed ec) eqn:Hf.
    + refine (counted_same s _ Hbr _ (conj Hb Ha)). intros x. destruct (Hw x) as (code & -> & ->). rewrite Hf. unfold at_channel. case_match; lia.
    + destruct (count_books c v Hbv) as [Hcb Hca]. assert (actives_ w = actives_ v ++ (if failed (count_channel c v).2 then [] else [c])) as Hact.
      { rewrite <- Hca. change (actives_ w) with (books w).1.2. by rewrite Hbr. }
      split; [by rewrite Hbr |]. intros x. destruct (Hw x) as (code & -> & ->). rewrite Hact, elem_of_app. change (actives_ v) with (actives_ s). rewrite Ha.
      destruct (failed (count_channel c v).2); [rewrite elem_of_nil; unfold at_channel; case_match; rewrite ?Nat.add_0_r; tauto |].
      rewrite list_elem_of_singleton. unfold at_channel. destruct (Nat.eqb_spec c x) as [<- | Hd]; [rewrite <- Hv, Hzero; naive_solver | rewrite Nat.add_0_r; naive_solver].
  - split; [by rewrite Hbr |]. intros x. replace (actives_ w) with (actives_ s) by (change (actives_ w) with (books w).1.2; by rewrite Hbr).
    rewrite Ha. destruct (Hw x) as (code & -> & ->). unfold at_channel. destruct (Nat.eqb_spec c x) as [<- | Hd]; [by rewrite Hclass; split; intros [? _] | by rewrite Nat.add_0_r].
Qed.

Lemma counted_stopped c ec l s sent received : called_once ending s -> network s = stopped_job c ec :: l -> counted s ->
  counted (run_network_job (stopped_job c ec) sent received (set_network l s)).
Proof.
  intros He Hl [Hb Ha]. set (v := set_network l s). pose proof (books_network_run (stopped_job c ec) v sent received) as Hbr. cbn [run_network_job] in *.
  set (w := do_handle_channel_stopped c ec sent received v) in *.
  assert (forall x, tokens counting s x = (tokens counting w x + at_channel c x 1)%nat) as Hw.
  { intros x. rewrite (tokens_network counting _ l s x Hl). unfold w. rewrite tokens_do_stopped. fold v. unfold at_channel. cbn [channel_of of_network of_call counting]. destruct (c =? x)%nat; lia. }
  assert (tokens counting w c = 0%nat /\ tokens counting s c = 1%nat) as [Hw0 Hs1].
  { pose proof (counted_once s c He) as Ho. specialize (Hw c). rewrite at_self in Hw. lia. }
  assert (forall x, c <> x -> tokens counting w x = tokens counting s x) as Hother. { intros x Hd. rewrite Hw, at_other by done. lia. }
  destruct (class_of (session_id c)) eqn:Hclass.
  - set (u := (unstore_nonce c (unpend c v)).1) in *. assert (books u = books s) as Hu by (unfold u; by rewrite books_unstore).
    assert (actives_ u = actives_ s) as Hau by (change (actives_ u) with (books u).1.2; by rewrite Hu).
    destruct (uncount_books c sent received u) as [Hub Hua]; [by rewrite Hu | rewrite Hau; by apply Ha |].
    split; [by rewrite Hbr |]. intros x. replace (actives_ w) with (filter (fun n => n <> c) (actives_ s)) by (rewrite <- Hau, <- Hua; change (actives_ w) with (books w).1.2; by rewrite Hbr).
    rewrite list_elem_of_filter, Ha. destruct (decide (c = x)) as [<- | Hd]; [rewrite Hw0; by split; [intros [] | intros [_ ?]] | rewrite Hother by done; naive_solver].
  - split; [by rewrite Hbr |]. intros x. replace (actives_ w) with (actives_ s) by (change (actives_ w) with (books w).1.2; by rewrite Hbr).
    rewrite Ha. destruct (decide (c = x)) as [<- | Hd]; [by rewrite Hclass; split; intros [? _] | by rewrite Hother].
Qed.

Lemma counted_move s s' : good s -> called_once ending s -> counted s -> move s s' -> counted s'.
Proof.
  intros Hg He Hc Hm. assert (account counting) as Ha by constructor.
  destruct Hm as [s c Hk | s c ec Hs | s c ec Hk Hec | s | s n | s n | s c j l Hl | s j l sent received Hl].
  - apply (counted_same s); [apply books_start | | done]. intros x. rewrite tokens_start by done. unfold at_channel. cbn. case_match; lia.
  - apply (counted_same s); [apply (books_handshake c ec (set_shaking c false s)) | | done]. intros x. by apply tokens_complete.
  - apply (counted_same s); [apply books_stop | | done]. intros x. by apply tokens_stop.
  - by apply (counted_same s).
  - unfold session_start. destruct (session_stopped s n); [by apply (counted_same s) | done].
  - apply (counted_same s); [apply books_session_stop | | done]. intros x. unfold session_stop.
    destruct (stop_all n (pended (set_session n true s)) (set_session n true s)) as [_ _ _ _ _ _ _ _ Ht].
    rewrite (tokens_same counting (stop_pended n (pended (set_session n true s)) (set_session n true s))) by done. by rewrite Ht, (tokens_same counting s).
  - apply (counted_same s); [by rewrite books_channel_run | | done]. intros x. by apply tokens_channel_run.
  - destruct j as [c ec | c ec | c | c ec]; [by apply counted_handshake | | | by apply counted_stopped]; apply (counted_same s);
      try (by rewrite books_network_run); try done; intros x; rewrite (tokens_network counting _ l s x Hl); cbn [run_network_job].
    + rewrite tokens_do_started by done. done.
    + rewrite tokens_starter. done.
Qed.

Lemma counted_make : counted make.
Proof. split; [by split; try constructor |]. intros c. cbn. split; [by intros Hin%elem_of_nil | by intros [_ ?]]. Qed.

Lemma reachable_counted s : reachable s -> counted s.
Proof.
  intros Hr. enough (forall v, rtc move v s -> good v /\ called_once ending v /\ counted v -> counted s) as He.
  { apply (He _ Hr). split; [exact good_make | split; [apply once_make | exact counted_make]]. }
  clear Hr. intros v Hv. induction Hv as [| v w s Hm _ IH]; [by intros (_ & _ & Hc) |]. intros (Hg & He & Hc). apply IH.
  split; [by apply (good_move v) | split; [| by apply (counted_move v)]]. by apply (called_move v w ending); [constructor | ..].
Qed.

(** ** The executor drains

    What is left to run on the network strand, and on that of a channel, is
    less with each job. *)
Definition work : weights := mk_weights (fun j => match j with attach_handshake_job => 7 | subscribe_job => 5 | attach_protocols_job => 2 | stopping_job _ => 0 end)%nat
  (fun j => match j with handshake_job _ _ => 6 | started_job _ _ => 3 | starter_job _ => 1 | stopped_job _ _ => 1 end)%nat 6 1 (fun _ => 0)%nat.

Definition potential (x : channel) : nat := (channel_tokens work x + stops_of (strand x) + bit (negb (stopped_ x)))%nat.

Definition effort (c : nat) (s : t) : nat := (sum_list (map (of_network work) (network s)) + potential (channels s c))%nat.

Lemma effort_set c c' x s : effort c (set_channel c' x s) = (sum_list (map (of_network work) (network s)) + potential (if (c' =? c)%nat then x else channels s c))%nat.
Proof. unfold effort. cbn [network channels set_channel]. destruct (Nat.eqb_spec c' c) as [<- | Hn]; [by rewrite fn_lookup_insert | by rewrite fn_lookup_insert_ne]. Qed.

Lemma effort_set_le c c' x s n : (potential x <= potential (channels s c') + n)%nat -> (effort c (set_channel c' x s) <= effort c s + n)%nat.
Proof. intros Hx. rewrite effort_set. unfold effort. destruct (Nat.eqb_spec c' c) as [<- | Hn]; lia. Qed.

Lemma effort_same c s s' : network s' = network s -> channels s' = channels s -> effort c s' = effort c s.
Proof. unfold effort. by intros -> ->. Qed.

Lemma effort_aside c s s' : aside s s' -> effort c s' = effort c s.
Proof. intros []. by apply effort_same. Qed.

Lemma effort_post c c' j s : is_stopping j = false -> (effort c (post c' j s) <= effort c s + of_job work j)%nat.
Proof.
  intros Hj. apply effort_set_le. unfold potential, channel_tokens. cbn [strand shaking subscribed stopped_]. rewrite map_app, sum_list_app, stops_app.
  unfold stops_of at 2. cbn [map sum_list]. unfold id. rewrite Hj. cbn. lia.
Qed.

Lemma effort_post_network c j s : effort c (post_network j s) = (effort c s + of_network work j)%nat.
Proof. unfold effort, post_network. cbn [network channels set_network]. rewrite map_app, sum_list_app. cbn. lia. Qed.

Lemma effort_stop c c' ec s : (effort c (stop_channel c' ec s) <= effort c s)%nat.
Proof.
  unfold stop_channel. destruct (stopped_ (channels s c')) eqn:Hs; [done |]. rewrite <- (Nat.add_0_r (effort c s)). apply effort_set_le.
  unfold potential, channel_tokens. cbn [strand shaking subscribed stopped_]. rewrite map_app, sum_list_app, stops_app, Hs. cbn. lia.
Qed.

Lemma effort_starter c c' ec s : effort c (call_starter c' ec s) = effort c s.
Proof. unfold call_starter. by case_match. Qed.

Lemma effort_stopper c c' ec s : effort c (call_stopper c' ec s) = effort c s.
Proof. unfold call_stopper. by case_match. Qed.

Lemma effort_handshake c c' ec s : (effort c (handle_handshake c' ec s) <= effort c s + 6)%nat.
Proof. unfold handle_handshake. rewrite effort_post_network. pose proof (effort_stop c c' ec s). destruct (failed ec); cbn; lia. Qed.

Lemma effort_subscribe c c' s : (effort c (subscribe_stop c' s) <= effort c s + 5)%nat.
Proof.
  unfold subscribe_stop, handle_channel_started, handle_channel_stopped. destruct (stopped_ _); [rewrite !effort_post_network; cbn; lia | by apply effort_post].
Qed.

Lemma effort_starting c c' ec s : (effort c (handle_channel_starting c' ec s) <= effort c s + 5)%nat.
Proof. unfold handle_channel_starting. destruct (failed ec); [rewrite effort_stopper, effort_starter; lia | apply effort_subscribe]. Qed.

Lemma effort_network_run c j s sent received : (effort c (run_network_job j sent received s) + 1 <= effort c s + of_network work j)%nat.
Proof.
  destruct j as [c' ec | c' ec | c' | c' ec]; cbn [run_network_job].
  - assert (forall v e, effort c v = effort c s -> (effort c (handle_channel_starting c' e v) <= effort c s + 5)%nat) as Hv by (intros v e <-; apply effort_starting).
    unfold do_handle_handshake. destruct (class_of _); cbn [of_network work]; [| specialize (Hv (if failed ec then unpend c' s else s) ec); destruct (failed ec); specialize (Hv ltac:(done)); lia].
    assert (forall v e, effort c v = effort c s -> (effort c (handle_channel_starting c' e (stop_channel c' e (unstore_nonce c' (unpend c' v)).1)) <= effort c s + 5)%nat) as Hr.
    { intros v e <-. pose proof (effort_starting c c' e (stop_channel c' e (unstore_nonce c' (unpend c' v)).1)) as H1.
      pose proof (effort_stop c c' e (unstore_nonce c' (unpend c' v)).1) as H2. pose proof (effort_aside c _ _ (aside_unstore c' (unpend c' v))) as H3.
      change (effort c (unpend c' v)) with (effort c v) in H3. lia. }
    destruct (failed ec) eqn:Hf; [rewrite Hf; specialize (Hr s ec eq_refl); lia |]. pose proof (effort_aside c _ _ (aside_count c' s)) as Ha.
    destruct (count_channel c' s) as [v e]. cbn [fst] in Ha. specialize (Hr v e Ha). specialize (Hv v ec Ha). destruct (failed e); lia.
  - unfold do_handle_channel_started. pose proof (effort_post c c' attach_protocols_job s eq_refl) as Hp. cbn [of_job work of_network] in *.
    destruct (failed ec); [rewrite effort_starter; lia | lia].
  - rewrite effort_starter. cbn. lia.
  - unfold do_handle_channel_stopped. rewrite effort_stopper. cbn [of_network work]. pose proof (effort_aside c _ _ (aside_unstore c' (unpend c' s))) as H1.
    change (effort c (unpend c' s)) with (effort c s) in H1. pose proof (effort_aside c _ _ (aside_uncount c' sent received (unstore_nonce c' (unpend c' s)).1)) as H2.
    destruct (class_of _); [lia |]. change (effort c (unpend c' s)) with (effort c s). lia.
Qed.

Lemma effort_channel_run c j l s : strand (channels s c) = j :: l -> (effort c (run_channel_job c j (set_strand c l s)) < effort c s)%nat.
Proof.
  intros Hl. pose proof (strand_state _ _ _ _ Hl) as Hx. set (v := set_strand c l s) in *.
  assert (effort c s = effort c v + of_job work j + (if is_stopping j then 1 else 0))%nat as Hv.
  { unfold v, set_strand. rewrite effort_set, Nat.eqb_refl. unfold effort, potential, channel_tokens, stops_of. cbn [strand shaking subscribed stopped_]. rewrite Hl. cbn [map sum_list]. unfold id. destruct (shaking _), (subscribed _), (is_stopping j); lia. }
  rewrite Hv. destruct j as [| | | ec]; cbn [run_channel_job is_stopping of_job work].
  - unfold do_attach_handshake. pose proof (effort_handshake c c error.success v). destruct (class_of _); [| lia].
    enough (effort c (set_shaking c true v) <= effort c v + 6)%nat by lia. apply effort_set_le. unfold potential, channel_tokens. cbn [strand shaking subscribed stopped_ of_shaking work]. lia.
  - unfold do_subscribe_stop, handle_channel_started, handle_channel_stopped. destruct (fired (channels v c)); rewrite !effort_post_network; [cbn [of_network work]; lia |].
    set (y := mk_channel _ _ _ true _ _). enough (effort c (set_channel c y v) <= effort c v + 1)%nat by (cbn [of_network work]; lia).
    apply effort_set_le. unfold y, potential, channel_tokens. cbn [strand shaking subscribed stopped_ of_subscribed work]. lia.
  - unfold do_attach_protocols. rewrite effort_post_network. cbn [of_network work]. lia.
  - unfold stopping. set (x := channels v c). set (u := set_channel c _ v).
    assert (effort c v = effort c u + (if subscribed x then 1 else 0))%nat as Hu.
    { unfold u. rewrite effort_set, Nat.eqb_refl. unfold effort, potential, channel_tokens. fold x. cbn [strand shaking subscribed stopped_]. destruct (subscribed x); cbn [of_subscribed work]; lia. }
    assert (shaking x = true -> effort c (complete_handshake c ec u) <= effort c u)%nat as Hc.
    { intros Hsh. unfold complete_handshake. pose proof (effort_handshake c c ec (set_shaking c false u)). enough (effort c u = effort c (set_shaking c false u) + 6)%nat by lia.
      unfold set_shaking. rewrite effort_set, Nat.eqb_refl. assert (shaking (channels u c) = true) as Hsu by (unfold u; cbn; by rewrite fn_lookup_insert).
      unfold effort, potential, channel_tokens. cbn [strand shaking subscribed stopped_]. rewrite Hsu. cbn [of_shaking work]. lia. }
    destruct (shaking x); [specialize (Hc eq_refl) |]; destruct (subscribed x); unfold handle_channel_stopped; rewrite ?effort_post_network; cbn [of_network work]; lia.
Qed.

(** A run of jobs alone, after which the network strand and that of the channel
    are empty. *)
Lemma drains c s : exists s', rtc move s s' /\ flow s s' /\ network s' = [] /\ strand (channels s' c) = [].
Proof.
  remember (effort c s) as n eqn:Hn. revert s Hn. induction (lt_wf n) as [n _ IH]. intros s ->.
  assert (forall v, move s v -> flow s v -> (effort c v < effort c s)%nat -> exists s', rtc move s s' /\ flow s s' /\ network s' = [] /\ strand (channels s' c) = []) as Hstep.
  { intros v Hm Hf Hlt. destruct (IH _ Hlt v eq_refl) as (s' & Hr & Hf' & Hs'). exists s'. split; [by eapply rtc_l |]. split; [by eapply flow_trans | done]. }
  destruct (network s) as [| j l] eqn:Hnet.
  - destruct (strand (channels s c)) as [| j l] eqn:Hl; [exists s; by split; [| split] |].
    apply (Hstep (run_channel_job c j (set_strand c l s))); [by constructor | | by apply effort_channel_run].
    eapply flow_trans; [| apply flow_channel_run]. by apply flow_set.
  - apply (Hstep (run_network_job j 0 0 (set_network l s))); [by constructor | by apply (flow_network_run j 0 0 (set_network l s)) |].
    pose proof (effort_network_run c j (set_network l s) 0 0) as Hj. enough (effort c s = effort c (set_network l s) + of_network work j)%nat by lia.
    unfold effort. cbn [network channels set_network]. rewrite Hnet. cbn [map sum_list]. unfold id. lia.
Qed.

(** The starter and the stopper of a channel are called at most once each,
    in every interleaving of its strand, the network strand, its own stops and
    those of its session, and not of a channel whose sequence was not started. *)
Theorem session_calls_once (s : t) (start : bool) (c : nat) (Hr : reachable s) :
  (calls_of start c s <= if known (channels s c) then 1 else 0)%nat.
Proof. exact (calls_bounded start c s Hr). Qed.

(** C26: once a channel is stopped, whatever led to it, the jobs that are queued
    bring both its handlers to be called: there is a run after which its starter
    and its stopper have been called exactly once, and they have been wherever
    the network strand and that of the channel are empty. *)
Theorem session_completes (s : t) (c : nat) (Hr : reachable s) (Hk : known (channels s c) = true) (Hs : stopped_ (channels s c) = true) :
  (exists s', rtc move s s' /\ calls_of true c s' = 1%nat /\ calls_of false c s' = 1%nat) /\
  (network s = [] -> strand (channels s c) = [] -> calls_of true c s = 1%nat /\ calls_of false c s = 1%nat).
Proof.
  split; [| by split; apply calls_complete]. destruct (drains c s) as (s' & Hm & Hf & Hn & Hst). exists s'. split; [done |].
  assert (reachable s') as Hr' by (unfold reachable in *; by transitivity s). destruct (Hf c) as [Hk' Hs'].
  split; apply calls_complete; try done; auto; by rewrite Hk'.
Qed.

(** C27: the counts of the network are those of its active channels, and never
    wrap: the inbound count, and the total of those that are not quiet.  The
    active channels are of peers, of distinct endpoints, which are those
    reserved, and their stoppers were not called; a peer whose stop the session
    awaits is active, and one whose stopper was called is not. *)
Theorem session_counts (s : t) (Hr : reachable s) :
  inbound_channel_count_ s = counts (fun c => inbound (info c)) (actives_ s) /\ total_channel_count_ s = counts loud (actives_ s) /\
  inbound_channel_count_ s < 2 ^ 64 /\ total_channel_count_ s < 2 ^ 64 /\
  reserved s ≡ₚ map (fun c => endpoint (info c)) (actives_ s) /\ NoDup (reserved s) /\
  (forall c, c ∈ actives_ s -> class_of (session_id c) = peer_class /\ known (channels s c) = true /\ calls_of false c s = 0%nat) /\
  (forall c, class_of (session_id c) = peer_class -> subscribed (channels s c) = true -> c ∈ actives_ s).
Proof.
  destruct (reachable_sound s Hr) as (_ & _ & He). destruct (reachable_counted s Hr) as [[H1 H2 H3 H4 H5 H6] Ha].
  do 6 (split; [done |]). split; intros c.
  - intros [Hc Ht]%Ha. split; [done |]. pose proof (counting_ending s c) as Hle. rewrite Ht, (He c) in Hle. rewrite calls_tokens. unfold bit in Hle.
    cbn [weights_of]. destruct (known (channels s c)); [split; [done | lia] | lia].
  - intros Hc Hs. apply Ha. split; [done |]. pose proof (counted_once s c He) as Ho. unfold tokens, channel_tokens in *. rewrite Hs in *. cbn [of_subscribed counting] in *. lia.
Qed.

(** When a session is stopped so are all the channels whose sequence it
    started, whatever of the sequence they are in: it pends every channel that
    is not stopped. *)
Theorem session_stops_channels (s : t) (c : nat) (Hr : reachable s) (Hk : known (channels s c) = true) (Hs : session_stopped s (session_id c) = true) :
  stopped_ (channels s c) = true.
Proof.
  destruct (reachable_sound s Hr) as (Hg & _). destruct (stopped_ (channels s c)) eqn:Hst; [done |]. destruct (good_live s Hg c Hk Hst) as [_ Hn]. congruence.
Qed.

(** ** Runs *)

Inductive action :=
  | start_of (c : nat) | shake_of (c : nat) (ec : code) | stop_of (c : nat) (ec : code) | session_start_of (n : nat) | session_stop_of (n : nat)
  | channel_of_run (c : nat) | network_of_run.

Definition act (a : action) (s : t) : option t :=
  match a with
  | start_of c => if known (channels s c) then None else Some (start_channel c s)
  | shake_of c ec => if shaking (channels s c) then Some (complete_handshake c ec s) else None
  | stop_of c ec => if known (channels s c) && failed ec then Some (stop_channel c ec s) else None
  | session_start_of n => Some (session_start n s)
  | session_stop_of n => Some (session_stop n s)
  | channel_of_run c => match strand (channels s c) with j :: l => Some (run_channel_job c j (set_strand c l s)) | [] => None end
  | network_of_run => match network s with j :: l => Some (run_network_job j 0 0 (set_network l s)) | [] => None end
  end.

Fixpoint acts (l : list action) (s : t) : option t := match l with [] => Some s | a :: l => match act a s with Some s' => acts l s' | None => None end end.

Lemma act_move a s s' : act a s = Some s' -> move s s'.
Proof.
  destruct a as [c | c ec | c ec | n | n | c |]; cbn; intros Ha.
  - destruct (known (channels s c)) eqn:Hk; [done |]. injection Ha as <-. by constructor.
  - destruct (shaking (channels s c)) eqn:Hk; [| done]. injection Ha as <-. by constructor.
  - destruct (known (channels s c) && failed ec) eqn:Hk; [| done]. injection Ha as <-. apply andb_true_iff in Hk as [? ?]. by constructor.
  - injection Ha as <-. constructor.
  - injection Ha as <-. constructor.
  - destruct (strand (channels s c)) as [| j l] eqn:Hl; [done |]. injection Ha as <-. by constructor.
  - destruct (network s) as [| j l] eqn:Hl; [done |]. injection Ha as <-. by constructor.
Qed.

Lemma acts_move l s s' : acts l s = Some s' -> rtc move s s'.
Proof.
  revert s. induction l as [| a l IH]; cbn; intros s Ha; [injection Ha as <-; done |]. destruct (act a s) as [v |] eqn:Hv; [| done].
  eapply rtc_l; [by apply (act_move a) | by apply IH].
Qed.

Definition outcome (l : list action) : t := match acts l make with Some s => s | None => make end.

Lemma outcome_reachable l : reachable (outcome l).
Proof. unfold outcome, reachable. destruct (acts l make) as [s |] eqn:Hs; [by apply (acts_move l) | done]. Qed.

End session.

(** ** Cases *)

(** One channel of one session. *)
Definition lone (k : class) : nat -> class := fun _ => k.
Definition lone_info (b : bool) : nat -> channel_info := fun c => mk_info b false (Z.of_nat c) 7 c 0.

Definition lone_start : list action := [session_start_of 0; start_of 0; channel_of_run 0].

(** A peer that completes its handshake, and is then stopped with its session. *)
Definition peer_run : list action := lone_start ++ [shake_of 0 error.success; network_of_run; channel_of_run 0].

(** A server channel whose stop overtakes its start. *)
Definition server_run : list action := lone_start ++
  [network_of_run; channel_of_run 0; session_stop_of 0; network_of_run; channel_of_run 0; channel_of_run 0; network_of_run; network_of_run].

(** The channel count of a server session is not always that of its channels:
    when the session stops between the subscription of a channel and the
    attachment of its protocols, the stopper is called before the starter, the
    decrement floors at zero, and the count stays at one when nothing is left to
    run and no channel remains. *)
Theorem server_count_leaks :
  let s := outcome (lone server_class) (lone_info true) false server_run in
  rtc (move (lone server_class) (lone_info true) false) make s /\ network s = [] /\ strand (channels s 0) = [] /\ stopped_ (channels s 0) = true /\
  calls s = [(0%nat, stopper error.service_stopped); (0%nat, starter error.success)] /\ channel_count_ s 0 = 1.
Proof. split; [apply outcome_reachable | vm_compute; done]. Qed.

Lemma session_calls_once_witness : (calls_of true 0 (outcome (lone server_class) (lone_info true) false server_run) <= 1)%nat.
Proof. exact (session_calls_once _ _ _ _ true 0%nat (outcome_reachable (lone server_class) (lone_info true) false server_run)). Defined.

Lemma session_completes_witness :
  calls_of true 0 (outcome (lone server_class) (lone_info true) false server_run) = 1%nat /\ calls_of false 0 (outcome (lone server_class) (lone_info true) false server_run) = 1%nat.
Proof.
  refine (proj2 (session_completes (lone server_class) (lone_info true) false _ 0%nat (outcome_reachable (lone server_class) (lone_info true) false server_run) _ _) _ _);
    vm_compute; reflexivity.
Defined.

Lemma session_counts_witness : inbound_channel_count_ (outcome (lone peer_class) (lone_info true) false peer_run) = 1 /\
  total_channel_count_ (outcome (lone peer_class) (lone_info true) false peer_run) = 1.
Proof.
  destruct (session_counts (lone peer_class) (lone_info true) false _ (outcome_reachable (lone peer_class) (lone_info true) false peer_run)) as (H1 & H2 & _).
  split; [rewrite H1 | rewrite H2]; vm_compute; reflexivity.
Defined.

Lemma session_stops_channels_witness : stopped_ (channels (outcome (lone peer_class) (lone_info true) false (peer_run ++ [session_stop_of 0])) 0) = true.
Proof.
  refine (session_stops_channels (lone peer_class) (lone_info true) false _ 0%nat (outcome_reachable (lone peer_class) (lone_info true) false (peer_run ++ [session_stop_of 0])) _ _);
    vm_compute; reflexivity.
Defined.
End session.
