(* ===== verification/RpcModel.v ===== *)
(** * RpcModel: the json-rpc messages

    Models [include/bitcoin/network/messages/rpc/model.hpp], [src/messages/rpc/model.cpp]
    and [size.cpp].  A json document is a tree, whose numbers and what converts
    them are of libbitcoin-system; a conversion that throws gives the exception.
    An object is the sequence of its members, in the order in which it is
    iterated, with one member to a key. *)

From S2P Require Import Prelude.
From S2P Require Import Errors.

#[local] Set Warnings "-register-all".

Module rpc_model.

(** ** Documents *)

(** What libbitcoin-system has of numbers: those of documents, doubles, and
    objects of any type; and the codes of its exceptions. *)
Class Json := {
  number : Type;
  double : Type;
  any : Type;
  to_double : number -> double;
  to_code : number -> option Z;
  of_double : double -> number;
  of_integer : Z -> number;
  not_kind : code;
  not_exact : code
}.

(** A double and a 64 bit integer are read as they were written. *)
Class JsonLaws `{Json} : Prop := {
  double_exact d : to_double (of_double d) = d;
  code_exact z : - 2 ^ 63 <= z < 2 ^ 63 -> to_code (of_integer z) = Some z
}.

Section model.
Context `{Js : Json}.

Inductive json :=
  | json_null
  | json_bool (b : bool)
  | json_number (n : number)
  | json_string (s : bytes)
  | json_array (l : list json)
  | json_object (l : list (bytes * json)).

(** [json_exception] is of the exceptions of json, the other is not. *)
Inductive exception := json_exception (ec : code) | ostream_exception.

Definition throws (A : Type) : Type := exception + A.

Definition bind {A B} (x : throws A) (f : A -> throws B) : throws B := match x with inl e => inl e | inr a => f a end.

Fixpoint find {A} (k : bytes) (l : list (bytes * A)) : option A :=
  match l with [] => None | (k', v) :: l => if bool_decide (k = k') then Some v else find k l end.

(** An object keeps the first member of a key, an assignment replaces it. *)
Definition emplace {A} (k : bytes) (v : A) (l : list (bytes * A)) : list (bytes * A) :=
  match find k l with Some _ => l | None => l ++ [(k, v)] end.

Fixpoint assign {A} (k : bytes) (v : A) (l : list (bytes * A)) : list (bytes * A) :=
  match l with [] => [(k, v)] | (k', w) :: l => if bool_decide (k = k') then (k', v) :: l else (k', w) :: assign k v l end.

Definition as_object (j : json) : throws (list (bytes * json)) := match j with json_object l => inr l | _ => inl (json_exception not_kind) end.
Definition as_string (j : json) : throws bytes := match j with json_string s => inr s | _ => inl (json_exception not_kind) end.

(** ** Messages *)

Inductive version := undefined | v1 | v2 | any_version | invalid.

#[global] Instance version_eq_dec : EqDecision version.
Proof. solve_decision. Defined.

(** The alternatives of [value_t::inner_t]. *)
Inductive value :=
  | null_t
  | boolean_t (b : bool)
  | number_t (d : double)
  | string_t (s : bytes)
  | array_t (l : list value)
  | object_t (l : list (bytes * value))
  | int8_t (z : Z) | int16_t (z : Z) | int32_t (z : Z) | int64_t (z : Z)
  | uint8_t (z : Z) | uint16_t (z : Z) | uint32_t (z : Z) | uint64_t (z : Z)
  | any_t (a : any)
  | json_t (j : json).

Inductive params_t := value_params (v : value) | array_params (l : list value) | object_params (l : list (bytes * value)).

Inductive identity := null_id | code_id (z : Z) | string_id (s : bytes).

Record result_t := mk_result { result_code : Z; result_message : bytes; result_data : option value }.

Record response := mk_response { response_jsonrpc : version; response_id : option identity; response_error : option result_t; response_result : option value }.

Record request := mk_request { jsonrpc : version; id : option identity; method : bytes; params : option params_t }.

(** ** To documents *)

Definition version_from (v : version) : json := match v with v1 => json_string (chars "1.0") | v2 => json_string (chars "2.0") | _ => json_null end.

Fixpoint value_from (v : value) : throws json :=
  match v with
  | null_t => inr json_null
  | boolean_t b => inr (json_bool b)
  | number_t d => inr (json_number (of_double d))
  | int8_t z | int16_t z | int32_t z | int64_t z | uint8_t z | uint16_t z | uint32_t z | uint64_t z => inr (json_number (of_integer z))
  | string_t s => inr (json_string s)
  | json_t j => inr j
  | array_t l => bind ((fix each l := match l with [] => inr [] | v :: l => bind (value_from v) (fun j => bind (each l) (fun js => inr (j :: js))) end) l)
      (fun js => inr (json_array js))
  | object_t l => bind ((fix each l object := match l with [] => inr object | (k, v) :: l => bind (value_from v) (fun j => each l (emplace k j object)) end) l [])
      (fun js => inr (json_object js))
  | any_t _ => inl ostream_exception
  end.

(** The loops of [value_from]. *)
Fixpoint array_from (l : list value) : throws (list json) :=
  match l with [] => inr [] | v :: l => bind (value_from v) (fun j => bind (array_from l) (fun js => inr (j :: js))) end.

Fixpoint object_from (l : list (bytes * value)) (object : list (bytes * json)) : throws (list (bytes * json)) :=
  match l with [] => inr object | (k, v) :: l => bind (value_from v) (fun j => object_from l (emplace k j object)) end.

Lemma value_from_array l : value_from (array_t l) = bind (array_from l) (fun js => inr (json_array js)).
Proof. reflexivity. Qed.

Lemma value_from_object l : value_from (object_t l) = bind (object_from l []) (fun js => inr (json_object js)).
Proof. reflexivity. Qed.

Definition identity_from (i : identity) : json :=
  match i with null_id => json_null | code_id z => json_number (of_integer z) | string_id s => json_string s end.

Definition params_from (p : params_t) : throws json :=
  match p with
  | value_params v => value_from v
  | array_params l => bind (array_from l) (fun js => inr (json_array js))
  | object_params l => bind (object_from l []) (fun js => inr (json_object js))
  end.

(** A member that an object has if a condition holds. *)
Definition member (has : bool) (k : bytes) (j : json) (l : list (bytes * json)) : list (bytes * json) := if has then assign k j l else l.

Definition request_from (r : request) : throws json :=
  let object := member (negb (bool_decide (jsonrpc r = undefined))) (chars "jsonrpc") (version_from (jsonrpc r)) [] in
  let object := match id r with Some i => assign (chars "id") (identity_from i) object | None => object end in
  let object := member (negb (bool_decide (method r = []))) (chars "method") (json_string (method r)) object in
  match params r with
  | Some p => bind (params_from p) (fun j => inr (json_object (assign (chars "params") j object)))
  | None => inr (json_object object)
  end.

Definition error_from (e : result_t) : throws json :=
  let object := [(chars "code", json_number (of_integer (result_code e))); (chars "message", json_string (result_message e))] in
  match result_data e with
  | Some d => bind (value_from d) (fun j => inr (json_object (object ++ [(chars "data", j)])))
  | None => inr (json_object object)
  end.

(** Version one has both members, of which one is null. *)
Definition response_from (r : response) : throws json :=
  let old := bool_decide (response_jsonrpc r = v1) || bool_decide (response_jsonrpc r = undefined) in
  let object := member (negb (bool_decide (response_jsonrpc r = undefined))) (chars "jsonrpc") (version_from (response_jsonrpc r)) [] in
  let object := match response_id r with Some i => assign (chars "id") (identity_from i) object | None => object end in
  bind (match response_error r with
    | Some e => bind (error_from e) (fun j => inr (assign (chars "error") j object))
    | None => inr (member old (chars "error") json_null object)
    end) (fun object =>
  bind (match response_result r with
    | Some v => bind (value_from v) (fun j => inr (assign (chars "result") j object))
    | None => inr (member old (chars "result") json_null object)
    end) (fun object => inr (json_object object))).

(** ** From documents *)

Definition version_to (j : json) : version :=
  match j with
  | json_string s => if bool_decide (s = chars "1.0") then v1 else if bool_decide (s = chars "2.0") then v2 else invalid
  | _ => invalid
  end.

(** A document has no other alternatives than those of json. *)
Fixpoint value_to (j : json) : value :=
  match j with
  | json_null => null_t
  | json_bool b => boolean_t b
  | json_number n => number_t (to_double n)
  | json_string s => string_t s
  | json_array l => array_t (map value_to l)
  | json_object l => object_t ((fix each l object := match l with [] => object | (k, j) :: l => each l (emplace k (value_to j) object) end) l [])
  end.

Fixpoint object_to (l : list (bytes * json)) (object : list (bytes * value)) : list (bytes * value) :=
  match l with [] => object | (k, j) :: l => object_to l (emplace k (value_to j) object) end.

Lemma value_to_object l : value_to (json_object l) = object_t (object_to l []).
Proof. reflexivity. Qed.

Definition identity_to (j : json) : throws identity :=
  match j with
  | json_null => inr null_id
  | json_number n => match to_code n with Some z => inr (code_id z) | None => inl (json_exception not_exact) end
  | json_string s => inr (string_id s)
  | _ => inl ostream_exception
  end.

Definition params_to (j : json) : params_t :=
  match j with
  | json_array l => array_params (map value_to l)
  | json_object l => object_params (object_to l [])
  | _ => value_params (value_to j)
  end.

(** What a member gives, if there is one. *)
Definition optional {A} (x : option json) (f : json -> throws A) : throws (option A) :=
  match x with None => inr None | Some j => bind (f j) (fun a => inr (Some a)) end.

Definition request_to (j : json) : throws request :=
  bind (as_object j) (fun object =>
  let version := match find (chars "jsonrpc") object with Some j => version_to j | None => undefined end in
  bind (optional (find (chars "method") object) as_string) (fun text =>
  bind (optional (find (chars "id") object) identity_to) (fun id =>
  let params := match find (chars "params") object with Some j => Some (params_to j) | None => None end in
  inr (mk_request version id (default [] text) params)))).

(** An identity of another kind is left out of a response. *)
Definition response_identity (j : json) : throws (option identity) :=
  match j with
  | json_null => inr (Some null_id)
  | json_number n => match to_code n with Some z => inr (Some (code_id z)) | None => inl (json_exception not_exact) end
  | json_string s => inr (Some (string_id s))
  | _ => inr None
  end.

(** [value_option] is of an optional value, which a null does not have. *)
Definition option_to (j : json) : option value := match j with json_null => None | _ => Some (value_to j) end.

Definition number_to_code (j : json) : throws Z :=
  match j with json_number n => match to_code n with Some z => inr z | None => inl (json_exception not_exact) end | _ => inl (json_exception not_kind) end.

Definition error_to (j : json) : throws (option result_t) :=
  match j with
  | json_null => inr None
  | _ =>
    bind (as_object j) (fun error =>
    bind (optional (find (chars "code") error) number_to_code) (fun c =>
    bind (optional (find (chars "message") error) as_string) (fun m =>
    inr (Some (mk_result (default 0 c) (default [] m) (match find (chars "data") error with Some d => option_to d | None => None end))))))
  end.

Definition response_to (j : json) : throws response :=
  bind (as_object j) (fun object =>
  let version := match find (chars "jsonrpc") object with Some j => version_to j | None => undefined end in
  bind (match find (chars "id") object with Some j => response_identity j | None => inr None end) (fun id =>
  bind (match find (chars "error") object with Some j => error_to j | None => inr None end) (fun error =>
  inr (mk_response version id error (match find (chars "result") object with Some j => option_to j | None => None end))))).

(** ** Sizes *)

Definition element_size : Z := 16.
Definition envelope_size : Z := 64.

Definition sum (l : list Z) : Z := fold_left Z.add l element_size.

Fixpoint json_size (j : json) : Z :=
  match j with
  | json_string s => len s + element_size
  | json_array l => sum (map json_size l)
  | json_object l => sum (map (fun x => len x.1 + json_size x.2) l)
  | _ => element_size
  end.

Fixpoint value_size (v : value) : Z :=
  match v with
  | string_t s => len s + element_size
  | array_t l => sum (map value_size l)
  | object_t l => sum (map (fun x => len x.1 + value_size x.2) l)
  | json_t j => json_size j
  | _ => element_size
  end.

Definition params_size (p : option params_t) : Z :=
  match p with
  | None => 0
  | Some (value_params v) => value_size v
  | Some (array_params l) => sum (map value_size l)
  | Some (object_params l) => sum (map (fun x => len x.1 + value_size x.2) l)
  end.

Definition response_size (r : response) : Z :=
  let result := match response_result r with Some v => value_size v | None => 0 end in
  let error := match response_error r with Some e => len (result_message e) + element_size + (match result_data e with Some d => value_size d | None => 0 end) | None => 0 end in
  envelope_size + result + error.

Definition request_size (r : request) : Z := envelope_size + len (method r) + params_size (params r).
(** ** Round trips *)

Section induction.
Context (P : value -> Prop) (atoms : forall v, (forall l, v <> array_t l) -> (forall l, v <> object_t l) -> P v)
  (arrays : forall l, Forall P l -> P (array_t l)) (objects : forall l, Forall (fun x => P x.2) l -> P (object_t l)).

Fixpoint value_nested (v : value) : P v :=
  match v return P v with
  | array_t l => arrays l ((fix each l : Forall P l := match l with [] => Forall_nil_2 _ | v :: l => Forall_cons_2 _ _ _ (value_nested v) (each l) end) l)
  | object_t l => objects l ((fix each l : Forall (fun x => P x.2) l :=
      match l with [] => Forall_nil_2 _ | (k, v) :: l => Forall_cons_2 _ (k, v) _ (value_nested v) (each l) end) l)
  | _ => ltac:(apply atoms; discriminate)
  end.
End induction.

(** Values that a document has: the others are written as numbers, or not at all. *)
Fixpoint wire (v : value) : bool :=
  match v with
  | null_t | boolean_t _ | number_t _ | string_t _ => true
  | array_t l => forallb wire l
  | object_t l => forallb (fun x => wire x.2) l && bool_decide (NoDup (map fst l))
  | _ => false
  end.

Definition wire_identity (i : identity) : Prop := match i with code_id z => - 2 ^ 63 <= z < 2 ^ 63 | _ => True end.

(** A collection is not a single value. *)
Definition wire_params (p : params_t) : Prop :=
  match p with
  | value_params v => wire v = true /\ (forall l, v <> array_t l) /\ (forall l, v <> object_t l)
  | array_params l => forallb wire l = true
  | object_params l => forallb (fun x => wire x.2) l = true /\ NoDup (map fst l)
  end.

Definition wire_request (r : request) : Prop :=
  jsonrpc r <> any_version /\ (forall i, id r = Some i -> wire_identity i) /\ (forall p, params r = Some p -> wire_params p).

(** A value is read back from what it is written as. *)
Definition reads (v : value) : Prop := exists j, value_from v = inr j /\ value_to j = v.

Lemma find_none {A} k (l : list (bytes * A)) : k ∉ map fst l -> find k l = None.
Proof.
  induction l as [| [k' v] l IH]; [done |]. cbn. intros [Hk Hl]%not_elem_of_cons. rewrite bool_decide_eq_false_2 by done. auto.
Qed.

Lemma array_reads l : Forall reads l -> exists js, array_from l = inr js /\ map value_to js = l.
Proof.
  induction 1 as [| v l (j & Hj & Hv) _ (js & Hjs & Hl)]; [by exists [] |]. exists (j :: js). cbn. rewrite Hj. cbn. rewrite Hjs. cbn. by rewrite Hv, Hl.
Qed.

(** Members are appended, while their keys differ. *)
Lemma object_reads l seen out : Forall (fun x => reads x.2) l -> NoDup (map fst (out ++ l)) -> map fst seen = map fst out ->
  exists js, object_from l seen = inr (seen ++ js) /\ object_to js out = out ++ l /\ map fst js = map fst l.
Proof.
  intros Hl. revert seen out. induction Hl as [| [k v] l (j & Hj & Hv) _ IH]; intros seen out Hd Hk; [exists []; by rewrite !app_nil_r |].
  assert (k ∉ map fst out) as Hno.
  { rewrite map_app in Hd. apply NoDup_app in Hd as (_ & Hd & _). intros Hin. apply (Hd _ Hin). cbn. by left. }
  destruct (IH (seen ++ [(k, j)]) (out ++ [(k, v)])) as (js & H1 & H2 & H3); [by rewrite <- app_assoc | rewrite !map_app; by rewrite Hk |].
  exists ((k, j) :: js). cbn in Hj. cbn [object_from object_to map fst]. rewrite Hj. cbn [bind]. unfold emplace.
  rewrite find_none by (by rewrite Hk). rewrite find_none by done. cbn in Hv. rewrite Hv, H1, H2, H3, <- !app_assoc. done.
Qed.

Context `{!JsonLaws}.

Lemma wire_reads v : wire v = true -> reads v.
Proof.
  induction v as [v Ha Ho | l IH | l IH] using value_nested; intros Hw.
  - destruct v; try done; try (eexists; split; [reflexivity | done]); [| by destruct (Ha l) | by destruct (Ho l)].
    eexists; split; [reflexivity |]. cbn. by rewrite double_exact.
  - cbn in Hw. assert (Forall reads l) as Hl.
    { rewrite Forall_forall in IH |- *. intros v Hin. apply IH; [done |]. apply forallb_forall with (x := v) in Hw; [done | by apply list_elem_of_In]. }
    destruct (array_reads l Hl) as (js & H1 & H2). exists (json_array js). rewrite value_from_array, H1. cbn. by rewrite H2.
  - cbn in Hw. apply andb_true_iff in Hw as [Hw Hd%bool_decide_eq_true_1]. assert (Forall (fun x => reads x.2) l) as Hl.
    { rewrite Forall_forall in IH |- *. intros v Hin. apply IH; [done |]. apply forallb_forall with (x := v) in Hw; [done | by apply list_elem_of_In]. }
    destruct (object_reads l [] [] Hl Hd eq_refl) as (js & H1 & H2 & _). exists (json_object js). by rewrite value_from_object, H1, value_to_object, H2.
Qed.

Lemma wire_all_reads l : forallb wire l = true -> Forall reads l.
Proof. intros Hw. apply Forall_forall. intros v Hin. apply wire_reads. apply forallb_forall with (x := v) in Hw; [done | by apply list_elem_of_In]. Qed.

Lemma wire_members_read l : forallb (fun x => wire x.2) l = true -> Forall (fun x : bytes * value => reads x.2) l.
Proof. intros Hw. apply Forall_forall. intros v Hin. apply wire_reads. apply forallb_forall with (x := v) in Hw; [done | by apply list_elem_of_In]. Qed.

Lemma params_read p : wire_params p -> exists j, params_from p = inr j /\ params_to j = p.
Proof.
  destruct p as [v | l | l]; cbn [wire_params params_from].
  - intros (Hw & Ha & Ho). destruct (wire_reads v Hw) as (j & Hj & Hv). exists j. split; [done |]. subst v.
    destruct j; try done; [by destruct (Ha (map value_to l)) | by destruct (Ho (object_to l []))].
  - intros Hw. destruct (array_reads l (wire_all_reads l Hw)) as (js & H1 & H2). exists (json_array js). rewrite H1. cbn. by rewrite H2.
  - intros [Hw Hd]. destruct (object_reads l [] [] (wire_members_read l Hw) Hd eq_refl) as (js & H1 & H2 & _).
    exists (json_object js). rewrite H1. cbn. by rewrite H2.
Qed.

Lemma identity_reads i : wire_identity i -> identity_to (identity_from i) = inr i.
Proof. destruct i as [| z | text]; intros Hi; [done | cbn; by rewrite code_exact | done]. Qed.

Lemma version_reads v : v <> undefined -> v <> any_version -> version_to (version_from v) = v.
Proof. destruct v; done. Qed.

Lemma request_read r : wire_request r -> exists j, request_from r = inr j /\ request_to j = inr r.
Proof.
  destruct r as [v i m p]. intros (Hv & Hi & Hp). cbn [jsonrpc id params] in *.
  assert (exists js, match p with Some p => exists j, params_from p = inr j /\ js = Some j /\ params_to j = p | None => js = None end) as (js & Hjs).
  { destruct p as [p |]; [| by exists None]. destruct (params_read p (Hp p eq_refl)) as (j & H1 & H2). exists (Some j), j. done. }
  set (object := member (negb (bool_decide (v = undefined))) (chars "jsonrpc") (version_from v) []).
  set (object2 := match i with Some i => assign (chars "id") (identity_from i) object | None => object end).
  set (object3 := member (negb (bool_decide (m = []))) (chars "method") (json_string m) object2).
  set (object4 := match js with Some j => assign (chars "params") j object3 | None => object3 end).
  exists (json_object object4). split.
  - unfold request_from. cbn [jsonrpc id method params]. fold object object2 object3. destruct p as [p |]; [destruct Hjs as (j & -> & -> & _) | subst js]; done.
  - assert (find (chars "jsonrpc") object4 = (if bool_decide (v = undefined) then None else Some (version_from v)) /\
      find (chars "method") object4 = (if bool_decide (m = []) then None else Some (json_string m)) /\
      find (chars "id") object4 = option_map identity_from i /\ find (chars "params") object4 = js) as (F1 & F2 & F3 & F4).
    { unfold object4, object3, object2, object, member. destruct (bool_decide (v = undefined)), i, (bool_decide (m = [])), js; by vm_compute. }
    unfold request_to. cbn [as_object bind]. rewrite F1, F2, F3, F4.
    replace (match (if bool_decide (v = undefined) then None else Some (version_from v)) with Some j => version_to j | None => undefined end) with v.
    2: { destruct (bool_decide_reflect (v = undefined)) as [| Hu]; [done |]. symmetry. by apply version_reads. }
    assert (match js with Some j => Some (params_to j) | None => None end = p) as -> by (destruct p as [p |]; [by destruct Hjs as (j & _ & -> & ->) | by subst js]).
    case_bool_decide as Hm; cbn [optional bind as_string]; [subst m |]; (destruct i as [i |]; cbn [option_map optional]; [rewrite identity_reads by (by apply Hi) |]; done).
Qed.

(** A request is read back as it was written, whatever its version, its
    identity, its method and its parameters: numbers, texts, nested arrays and
    objects, for every json of libbitcoin-system whose numbers are exact. *)
Theorem rpc_request_round_trip (r : request) (Hr : wire_request r) : exists j, request_from r = inr j /\ request_to j = inr r.
Proof. by apply request_read. Qed.

End model.

(** ** An instance: numbers are integers *)

#[local] Instance integers : Json := {|
  number := Z; double := Z; any := unit; to_double z := z; to_code := Some; of_double z := z; of_integer z := z;
  not_kind := error.jsonrpc_reader_exception; not_exact := error.jsonrpc_reader_exception
|}.

#[local] Instance integers_laws : JsonLaws.
Proof. by split. Qed.

Definition example_request : request := mk_request v2 (Some (code_id 7)) (chars "block.get")
  (Some (array_params [number_t (5 : double); object_t [(chars "raw", boolean_t true); (chars "tags", array_t [string_t (chars "x"); null_t])]])).

Lemma rpc_request_round_trip_witness : exists j, request_from example_request = inr j /\ request_to j = inr example_request.
Proof.
  refine (rpc_request_round_trip example_request _). split; [done |]. split; [intros i [= <-]; done | intros p [= <-]; vm_compute; reflexivity].
Defined.
End rpc_model.
