(* ===== verification/RpcBody.v ===== *)
(** * RpcBody: the json-rpc body and its batches

    Models [src/messages/rpc/body.cpp] over [include/bitcoin/network/impl/messages/json_body.ipp],
    the json-rpc alternative of the reader of [src/messages/http_body.cpp], the parser of
    headerless bodies of [impl/messages/http/parser.ipp], and the reads of
    [src/net/socket_body.cpp], [socket_http.cpp] (the codec) and [socket_rpc.cpp], with the batch
    state that [src/net/proxy_actions.cpp] stamps on each.  The json parser of
    libbitcoin-system is a parameter; an index into the data is kept as what
    follows it. *)

From S2P Require Import Prelude.
From S2P Require Import Errors.
From S2P Require Import RpcModel.

Module rpc_body.
Import rpc_model.

(** ** The json parser

    [write_some] consumes data up to the end of a document, and the whitespace
    that follows it; [release] gives the document and renews the parser. *)
Class JsonParser `{Json} := {
  parser : Type;
  fresh : parser;
  parser_done : parser -> bool;
  write_some : bytes -> parser -> Z * code * parser;
  release : parser -> json * parser
}.

Definition space : Z := 32.
Definition tab : Z := 9.
Definition carriage : Z := 13.
Definition newline : Z := 10.
Definition open_array : Z := 91.
Definition close_array : Z := 93.
Definition close_object : Z := 125.
Definition comma : Z := 44.

Definition is_json_whitespace (c : Z) : bool := (c =? space) || (c =? tab) || (c =? carriage) || (c =? newline).

(** A document that is known to be complete at its end, which is not so of a
    number: it begins with no whitespace and no delimiter of a batch.
    [parsing p r v]: the parser has yet to read [r]. *)
Class JsonParserLaws `{JsonParser} := {
  document : bytes -> json -> Prop;
  parsing : parser -> bytes -> json -> Prop;
  document_begins d v : document d v -> exists c l, d = c :: l /\ is_json_whitespace c = false /\ c <> open_array /\ c <> close_array /\ c <> comma;
  parsing_fresh d v : document d v -> parsing fresh d v;
  parsing_undone p r v : parsing p r v -> r <> [] /\ parser_done p = false;
  parsing_part p r1 r2 v : parsing p (r1 ++ r2) v -> r1 <> [] -> r2 <> [] ->
    exists p', write_some r1 p = (len r1, error.success : code, p') /\ parsing p' r2 v;
  parsing_end p r v w rest : parsing p r v -> Forall (fun c => is_json_whitespace c = true) w ->
    (forall c l, rest = c :: l -> is_json_whitespace c = false) ->
    exists p' q, write_some (r ++ w ++ rest) p = (len (r ++ w), error.success : code, p') /\ parser_done p' = true /\
      release p' = (v, q) /\ forall d v', document d v' -> parsing q d v'
}.

Section body.
Context `{Parser : JsonParser}.

Definition maximum : Z := 2 ^ 64 - 1.
Definition ceilinged_add (a b : Z) : Z := (a + b) `min` maximum.

(** ** Values *)

(** [message_type<request_t>]. *)
Record value_type := mk_value { model : json; message : request; batch : bool; changed : bool; lax_params : bool; lax_batch : bool }.

Definition empty_request : request := mk_request undefined None [] None.
Definition make_value (b : bool) : value_type := mk_value json_null empty_request b false false false.

Definition set_model (j : json) (v : value_type) : value_type := mk_value j (message v) (batch v) (changed v) (lax_params v) (lax_batch v).
Definition set_message (m : request) (v : value_type) : value_type := mk_value (model v) m (batch v) (changed v) (lax_params v) (lax_batch v).
Definition set_changed (v : value_type) : value_type := mk_value (model v) (message v) (batch v) true (lax_params v) (lax_batch v).
Definition set_lax (params lax : bool) (v : value_type) : value_type := mk_value (model v) (message v) (batch v) (changed v) params lax.

(** ** Conversion of the document *)

Definition set_version (w : version) (m : request) : request := mk_request w (id m) (method m) (params m).

(** A message is refused for its version, its method, and for what version one requires. *)
Definition to_request (v : value_type) : value_type * code :=
  let v := set_lax false false v in
  match request_to (model v) with
  | inl (json_exception ec) => (v, ec)
  | inl ostream_exception => (v, error.jsonrpc_reader_exception : code)
  | inr m =>
    let m := if bool_decide (jsonrpc m = undefined) then set_version v1 m else m in
    let v := set_model json_null (set_message m v) in
    if bool_decide (jsonrpc m = invalid) then (v, error.jsonrpc_invalid_version : code) else
    if bool_decide (method m = []) then (v, error.jsonrpc_requires_method : code) else
    if bool_decide (jsonrpc m = v1) then
      match params m, id m with
      | None, _ => (v, error.jsonrpc_v1_requires_params : code)
      | Some _, None => (v, error.jsonrpc_v1_requires_id : code)
      | Some (array_params _), Some _ => (v, error.success : code)
      | Some _, Some _ => (v, error.jsonrpc_v1_requires_array_params : code)
      end
    else
      match params m with
      | Some (value_params p) =>
        (set_lax true false (set_message (mk_request (jsonrpc m) (id m) (method m) (Some (array_params [p]))) v), error.success : code)
      | _ => (v, error.success : code)
      end
  end.

(** ** The reader *)

Record reader := mk_reader {
  terminated_ : bool; has_terminator_ : bool; started_ : bool; opened_ : bool; closed_ : bool; separated_ : bool; signaled_ : bool; delivered_ : bool;
  total_ : Z; expected_ : option Z; parser_ : parser; value_ : value_type }.

(** The reader of a value alone is [terminated]; that of a header and a value,
    which the sockets construct, is not. *)
Definition make_reader (terminated : bool) (v : value_type) : reader := mk_reader terminated false false false false false false false 0 None fresh v.

Definition set_terminator (b : bool) (r : reader) : reader :=
  mk_reader (terminated_ r) b (started_ r) (opened_ r) (closed_ r) (separated_ r) (signaled_ r) (delivered_ r) (total_ r) (expected_ r) (parser_ r) (value_ r).
Definition set_started (b : bool) (r : reader) : reader :=
  mk_reader (terminated_ r) (has_terminator_ r) b (opened_ r) (closed_ r) (separated_ r) (signaled_ r) (delivered_ r) (total_ r) (expected_ r) (parser_ r) (value_ r).
Definition set_opened (r : reader) : reader :=
  mk_reader (terminated_ r) (has_terminator_ r) (started_ r) true (closed_ r) (separated_ r) (signaled_ r) (delivered_ r) (total_ r) (expected_ r) (parser_ r) (value_ r).
Definition set_closed (r : reader) : reader :=
  mk_reader (terminated_ r) (has_terminator_ r) (started_ r) (opened_ r) true (separated_ r) (signaled_ r) (delivered_ r) (total_ r) (expected_ r) (parser_ r) (value_ r).
Definition set_separated (b : bool) (r : reader) : reader :=
  mk_reader (terminated_ r) (has_terminator_ r) (started_ r) (opened_ r) (closed_ r) b (signaled_ r) (delivered_ r) (total_ r) (expected_ r) (parser_ r) (value_ r).
Definition set_signaled (r : reader) : reader :=
  mk_reader (terminated_ r) (has_terminator_ r) (started_ r) (opened_ r) (closed_ r) (separated_ r) true (delivered_ r) (total_ r) (expected_ r) (parser_ r) (value_ r).
Definition set_delivered (r : reader) : reader :=
  mk_reader (terminated_ r) (has_terminator_ r) (started_ r) (opened_ r) (closed_ r) (separated_ r) (signaled_ r) true (total_ r) (expected_ r) (parser_ r) (value_ r).
Definition set_parsed (total : Z) (p : parser) (r : reader) : reader :=
  mk_reader (terminated_ r) (has_terminator_ r) (started_ r) (opened_ r) (closed_ r) (separated_ r) (signaled_ r) (delivered_ r) total (expected_ r) p (value_ r).
Definition set_expected (e : option Z) (r : reader) : reader :=
  mk_reader (terminated_ r) (has_terminator_ r) (started_ r) (opened_ r) (closed_ r) (separated_ r) (signaled_ r) (delivered_ r) (total_ r) e (parser_ r) (value_ r).
Definition set_value (v : value_type) (r : reader) : reader :=
  mk_reader (terminated_ r) (has_terminator_ r) (started_ r) (opened_ r) (closed_ r) (separated_ r) (signaled_ r) (delivered_ r) (total_ r) (expected_ r) (parser_ r) v.

(** *** The reader of json *)

Definition init (length : option Z) (r : reader) : reader * code :=
  let value := default maximum length in
  if value >? maximum then (r, to_http_code http_error.buffer_overflow) else
  (set_expected (Some value) (set_parsed 0 fresh r), error.success : code).

Fixpoint leading (l : bytes) : Z :=
  match l with [] => 0 | c :: l => if is_json_whitespace c then 1 + leading l else 0 end.

Definition base_put (data : bytes) (r : reader) : Z * code * reader :=
  if bool_decide (data = []) then (0, error.success : code, r) else
  let '(parsed, ec, p) :=
    if parser_done (parser_ r) then
      let parsed := leading data in (parsed, if parsed <? len data then to_json_code json_error.json_extra_data else error.success : code, parser_ r)
    else write_some data (parser_ r) in
  let total := ceilinged_add (total_ r) parsed in
  let ec := if negb (failed ec) && (total >? default maximum (expected_ r)) then to_http_code http_error.body_limit else ec in
  (parsed, ec, set_parsed total p r).

(** *** The reader of messages *)

(** Singletons and the close of a batch are terminated. *)
Definition requires_terminator (r : reader) : bool := terminated_ r && (closed_ r || (negb (batch (value_ r)) && negb (opened_ r))).

Definition done (r : reader) : bool := (closed_ r || parser_done (parser_ r)) && (negb (requires_terminator r) || has_terminator_ r).

Definition base_finish (r : reader) : reader * code :=
  if negb (done r) then (r, to_http_code http_error.need_more) else
  let '(j, p) := release (parser_ r) in (set_value (set_model j (value_ r)) (set_parsed (total_ r) p r), error.success : code).

(** A phase of [put] continues with what it did not consume, or returns. *)
Inductive phase := proceeds (rest : bytes) (r : reader) | returns (rest : bytes) (ec : code) (r : reader).

Definition then_phase (x : phase) (f : bytes -> reader -> phase) : phase := match x with proceeds rest r => f rest r | _ => x end.

Definition batched (r : reader) : bool := batch (value_ r) || opened_ r.

(** Prologue: whitespace and the delimiters of a batch, until an element
    starts or the batch closes. *)
Fixpoint prologue (data : bytes) (r : reader) : phase :=
  match data with
  | [] => returns [] error.success r
  | c :: rest =>
    if is_json_whitespace c then prologue rest r else
    if (c =? open_array) && negb (opened_ r) && negb (batch (value_ r)) then prologue rest (set_value (set_changed (value_ r)) (set_opened r)) else
    if c =? comma then
      if negb (batched r) || separated_ r || (opened_ r && negb (delivered_ r)) then returns data error.jsonrpc_batch_malformed r
      else prologue rest (set_separated true r)
    else if c =? close_array then
      if opened_ r && negb (delivered_ r) then returns data error.jsonrpc_batch_empty r else
      if negb (batched r) || separated_ r then returns data error.jsonrpc_batch_malformed r else
      proceeds rest (set_value (set_changed (value_ r)) (set_closed r))
    else if (c =? open_array) || (batched r && negb (separated_ r) && negb (opened_ r && negb (delivered_ r)))
      then returns data error.jsonrpc_batch_malformed r
    else proceeds data (set_started true r)
  end.

(** Epilogue: whitespace that trails a close that was delivered. *)
Fixpoint epilogue (data : bytes) (r : reader) : phase :=
  match data with
  | [] => proceeds [] r
  | c :: rest => if is_json_whitespace c then epilogue rest r else returns data error.jsonrpc_batch_malformed r
  end.

(** The terminator in what the parser consumed, from its end. *)
Fixpoint scan (consumed : bytes) : bool :=
  match consumed with
  | [] => false
  | c :: l => if c =? newline then true else if (c =? close_object) || (c =? close_array) then false else scan l
  end.

Definition element (data : bytes) (r : reader) : phase :=
  if started_ r && negb (parser_done (parser_ r)) then
    let '(parsed, ec, r) := base_put data r in
    let rest := zdrop parsed data in
    if failed ec || negb (parser_done (parser_ r)) then returns rest ec r else
    proceeds rest (if requires_terminator r && scan (reverse (ztake parsed data)) then set_terminator true r else r)
  else proceeds data r.

(** Trailer: whitespace that trails a singleton that is not terminated. *)
Fixpoint trailer (completed : bool) (data : bytes) (r : reader) : phase :=
  match data with
  | [] => proceeds [] r
  | c :: rest =>
    if is_json_whitespace c then trailer completed rest r else
    if negb completed then proceeds data r else returns data error.jsonrpc_reader_stall r
  end.

Fixpoint terminator (data : bytes) (r : reader) : phase :=
  match data with
  | [] => proceeds [] r
  | c :: rest =>
    if c =? newline then proceeds rest (set_terminator true r) else
    if negb (is_json_whitespace c) then returns data error.jsonrpc_reader_stall r else terminator rest r
  end.

(** Delivery: the messages of a batch, and its close, pause the parse. *)
Definition delivery (data : bytes) (r : reader) : phase :=
  if (closed_ r || batched r) && (negb (requires_terminator r) || has_terminator_ r) then
    if closed_ r && negb (signaled_ r) then returns data (to_http_code http_error.need_buffer) (set_signaled r) else
    if started_ r && parser_done (parser_ r) then
      let '(r, ec) := base_finish r in
      if failed ec then returns data ec r else
      let '(v, ec) := to_request (value_ r) in
      let r := set_value v r in
      if failed ec then returns data ec r else
      let r := set_value (set_lax (lax_params v) (bool_decide (jsonrpc (message v) = v1)) v) r in
      returns data (to_http_code http_error.need_buffer) (set_terminator false (set_separated false (set_started false (set_delivered r))))
    else proceeds data r
  else proceeds data r.

Definition put_phases (data : bytes) (r : reader) : phase :=
  let completed := started_ r && parser_done (parser_ r) in
  then_phase (if negb (started_ r) && negb (closed_ r) then prologue data r else proceeds data r) (fun data r =>
  then_phase (if closed_ r && signaled_ r then epilogue data r else proceeds data r) (fun data r =>
  then_phase (element data r) (fun data r =>
  then_phase (if negb (terminated_ r) && negb (batched r) && started_ r && parser_done (parser_ r) then trailer completed data r else proceeds data r) (fun data r =>
  then_phase (if requires_terminator r && negb (has_terminator_ r) then terminator data r else proceeds data r) delivery)))).

Definition put (data : bytes) (r : reader) : Z * code * reader :=
  if bool_decide (data = []) then base_put data r else
  match put_phases data r with proceeds rest r => (len data - len rest, error.success : code, r) | returns rest ec r => (len data - len rest, ec, r) end.

Definition finish (r : reader) : reader * code :=
  if (closed_ r || batched r) && negb (started_ r) then
    (r, if closed_ r && signaled_ r then error.success : code else to_http_code http_error.need_more)
  else
    let '(r, ec) := base_finish r in
    if failed ec then (r, ec) else let '(v, ec) := to_request (value_ r) in (set_value v r, ec).

(** ** The reader of a body

    The reader is constructed without an alternative, which [init] emplaces by
    the kind of the preselected value: here a request. *)
Record body_reader := mk_body_reader { streamed_ : bool; request_ : value_type; selected_ : option reader }.

Definition select (r : reader) (b : body_reader) : body_reader := mk_body_reader (streamed_ b) (request_ b) (Some r).

(** The value, which the alternative refers to. *)
Definition body_value (b : body_reader) : value_type := match selected_ b with Some r => value_ r | None => request_ b end.

Definition assign_reader (b : body_reader) : body_reader := select (make_reader false (request_ b)) b.

Definition body_init (length : option Z) (b : body_reader) : body_reader * code :=
  let b := assign_reader b in
  match selected_ b with
  | None => (b, to_http_code http_error.end_of_stream)
  | Some r => let '(r, ec) := init length r in (select r b, ec)
  end.

Definition body_put (data : bytes) (b : body_reader) : Z * code * body_reader :=
  match selected_ b with
  | None => (0, to_http_code http_error.end_of_stream, b)
  | Some r => let '(used, ec, r) := put data r in (used, ec, select r b)
  end.

(** A framed body is complete, so it cannot need more. *)
Definition body_finish (b : body_reader) : body_reader * code :=
  let '(b, ec) := match selected_ b with
    | None => (b, error.success : code)
    | Some r => let '(r, ec) := finish r in (select r b, ec)
    end in
  (b, if negb (streamed_ b) && bool_decide (ec = to_http_code http_error.need_more) then to_json_code json_error.json_incomplete else ec).

(** ** The parser of a body without a header *)

Record body_parser := mk_parser { reader_ : body_reader; body_limit_ : Z; body_total_ : Z; initialized_ : bool; done_ : bool }.

Definition make_parser (v : value_type) (streamed : bool) (limit : Z) : body_parser := mk_parser (mk_body_reader streamed v None) limit 0 false false.

Definition parser_put (data : bytes) (p : body_parser) : Z * code * body_parser :=
  if done_ p then (0, error.success : code, p) else
  let '(r, ec) := if initialized_ p then (reader_ p, error.success : code) else body_init None (reader_ p) in
  let with_reader r total done := mk_parser r (body_limit_ p) total true done in
  if failed ec then (0, ec, with_reader r (body_total_ p) false) else
  let '(used, ec, r) := body_put data r in
  let total := ceilinged_add (body_total_ p) used in
  if negb (body_limit_ p =? 0) && (total >? body_limit_ p) then (used, to_http_code http_error.body_limit, with_reader r total false) else
  if failed ec then (used, ec, with_reader r total false) else
  if used =? 0 then (0, to_http_code http_error.need_more, with_reader r total false) else
  let '(r, ec) := body_finish r in (used, ec, with_reader r total (negb (failed ec))).

(** ** The reads of a socket *)

Inductive parsed := reads_more (buffer : bytes) (p : body_parser) | handled (ec : code) (buffer : bytes) (p : body_parser).

(** [do_parse] of a whole body; what it consumes is its measure. *)
Fixpoint do_parse (fuel : nat) (buffer : bytes) (p : body_parser) : parsed :=
  match fuel with
  | O => reads_more buffer p
  | S fuel =>
    let '(used, ec, p) := parser_put buffer p in
    let buffer := zdrop used buffer in
    if bool_decide (ec = to_http_code http_error.need_more) then reads_more buffer p else
    if failed ec then handled (rpc_to_error_code ec) buffer p else
    if done_ p then handled error.success buffer p else
    if used =? 0 then reads_more buffer p else do_parse fuel buffer p
  end.

(** What [async_read_some] completes with: what has arrived, or a failure. *)
Inductive arrival := arrived (chunk : bytes) | broken (ec : code).

Inductive outcome := pends (buffer : bytes) (p : body_parser) | completes (ec : code) (v : value_type) (buffer : bytes) (arrivals : list arrival).

(** Each read takes one arrival; a pause of the parse is a success.  A buffer
    that is full is not read into (the header limit is not zero), and the end of
    the stream is never that of a message. *)
Fixpoint receive (max_size : Z) (arrivals : list arrival) (buffer : bytes) (p : body_parser) : outcome :=
  match do_parse (S (length buffer)) buffer p with
  | handled ec buffer p =>
    completes (if bool_decide (ec = (error.need_buffer : code)) then error.success : code else ec) (body_value (reader_ p)) buffer arrivals
  | reads_more buffer p =>
    if max_size <=? len buffer then completes error.buffer_overflow (body_value (reader_ p)) buffer arrivals else
    match arrivals with
    | [] => pends buffer p
    | arrived c :: arrivals => receive max_size arrivals (buffer ++ c) p
    | broken ec :: arrivals => completes ec (body_value (reader_ p)) buffer arrivals
    end
  end.

(** A stream is read as such, where no frame ends its messages. *)
Definition rpc_read (limit max_size : Z) (b : bool) (buffer : bytes) (arrivals : list arrival) : outcome :=
  receive max_size arrivals buffer (make_parser (make_value b) true limit).

(** ** The reads of a proxy

    Each read is stamped with the state of the batch, which its value changes. *)
Inductive event := arrives (m : request) (opens : bool) | closes | fails (ec : code).

Definition batch_open (v : value_type) : bool := changed v && negb (batch v).
Definition batch_close (v : value_type) : bool := changed v && batch v.

Fixpoint serve (n : nat) (limit max_size : Z) (b : bool) (buffer : bytes) (arrivals : list arrival) : list event :=
  match n with
  | O => []
  | S n =>
    match rpc_read limit max_size b buffer arrivals with
    | pends _ _ => []
    | completes ec v buffer arrivals =>
      if failed ec then [fails ec] else
      if batch_close v then closes :: serve n limit max_size false buffer arrivals else
      arrives (message v) (batch_open v) :: serve n limit max_size (b || batch_open v) buffer arrivals
    end
  end.
(** ** A stream of messages *)

Definition ws (w : bytes) : Prop := Forall (fun c => is_json_whitespace c = true) w.

Definition headed (l : bytes) : Prop := forall c k, l = c :: k -> is_json_whitespace c = false.

(** The whitespace that begins a text. *)
Lemma span_ws l : exists w g, l = w ++ g /\ ws w /\ headed g.
Proof.
  induction l as [| c l (w & g & -> & Hw & Hg)]; [by exists [], []; split_and!; [| constructor |] |].
  destruct (is_json_whitespace c) eqn:Hc; [exists (c :: w), g; split_and!; [done | by constructor | done] |].
  exists [], (c :: w ++ g). split_and!; [done | constructor |]. intros c' k [= <- _]. done.
Qed.

Lemma ws_app w u : ws w -> ws u -> ws (w ++ u).
Proof. intros. apply Forall_app. by split. Qed.

Lemma ws_split w u : ws (w ++ u) -> ws w /\ ws u.
Proof. intros Hw. by apply Forall_app in Hw. Qed.

(** A prefix of a text is within its first part, or contains it. *)
Lemma prefix_cases (a rest data t : bytes) : a ++ rest = data ++ t ->
  (exists a2, a2 <> [] /\ a = data ++ a2 /\ t = a2 ++ rest) \/ exists f, data = a ++ f /\ rest = f ++ t.
Proof.
  revert data. induction a as [| x a IH]; intros data He; [right; exists data; by split |].
  destruct data as [| y data]; [left; exists (x :: a); split_and!; [done | done | exact (eq_sym He)] |].
  injection He as <- He. destruct (IH data He) as [(a2 & Hn & -> & ->) | (f & -> & ->)]; [left; by exists a2 | right; by exists f].
Qed.

(** Texts are the same but for the whitespace that begins them. *)
Definition follows (t t' : bytes) : Prop := exists w w' base, ws w /\ ws w' /\ t = w ++ base /\ t' = w' ++ base.

Definition admitted (j : json) : option request :=
  match request_to j with inl _ => None | inr _ => let '(v, ec) := to_request (set_model j (make_value false)) in if failed ec then None else Some (message v) end.

Lemma to_request_admitted v m : admitted (model v) = Some m ->
  exists v', to_request v = (v', error.success : code) /\ message v' = m /\ batch v' = batch v /\ changed v' = changed v.
Proof.
  destruct v as [j m0 b ch lp lb]. unfold admitted, to_request. cbn [model set_lax set_model make_value message batch changed lax_params lax_batch].
  destruct (request_to j) as [e | r]; [done |].
  set (m1 := if bool_decide (jsonrpc r = undefined) then _ else _). clearbody m1. cbn [set_lax set_message set_model message].
  destruct (bool_decide (jsonrpc m1 = invalid)); [done |]. destruct (bool_decide (method m1 = [])); [done |].
  destruct (bool_decide (jsonrpc m1 = v1)), (params m1) as [[| |] |], (id m1); cbn; try done; intros [= <-]; by eexists.
Qed.

Inductive kind := single | opening | next.

#[local] Instance kind_eq_dec : EqDecision kind.
Proof. solve_decision. Defined.

(** A reader before its element: what of the delimiters it has read. *)
Record idle (b o s : bool) (r : reader) : Prop := {
  idle_terminated : terminated_ r = false;
  idle_started : started_ r = false;
  idle_opened : opened_ r = o;
  idle_closed : closed_ r = false;
  idle_separated : separated_ r = s;
  idle_signaled : signaled_ r = false;
  idle_delivered : delivered_ r = false;
  idle_expected : expected_ r = Some maximum;
  idle_parser : parser_ r = fresh;
  idle_batch : batch (value_ r) = b;
  idle_changed : changed (value_ r) = o
}.

Definition ready (k : kind) (r : reader) : Prop := match k with single => idle false false false r | opening => idle false true false r | next => idle true false true r end.

Inductive toward (d : bytes) : kind -> reader -> bytes -> Prop :=
  | toward_element k r w : ready k r -> ws w -> toward d k r (w ++ d)
  | toward_open r w w2 : idle false false false r -> ws w -> ws w2 -> toward d opening r (w ++ open_array :: w2 ++ d)
  | toward_comma r w w2 : idle true false false r -> ws w -> ws w2 -> toward d next r (w ++ comma :: w2 ++ d).

(** One character of the prologue. *)
Lemma prologue_ws c rest r : is_json_whitespace c = true -> prologue (c :: rest) r = prologue rest r.
Proof. intros Hc. cbn [prologue]. by rewrite Hc. Qed.

Lemma prologue_open rest r : idle false false false r -> prologue (open_array :: rest) r = prologue rest (set_value (set_changed (value_ r)) (set_opened r)).
Proof. intros []. cbn [prologue]. by rewrite idle_opened0, idle_batch0. Qed.

Lemma prologue_comma rest r : idle true false false r -> prologue (comma :: rest) r = prologue rest (set_separated true r).
Proof. intros []. cbn [prologue]. unfold batched. by rewrite idle_opened0, idle_batch0, idle_separated0. Qed.

Definition begins (c : Z) : Prop := is_json_whitespace c = false /\ c <> open_array /\ c <> close_array /\ c <> comma.

Lemma prologue_element c k rest r : begins c -> ready k r -> prologue (c :: rest) r = proceeds (c :: rest) (set_started true r).
Proof.
  intros (Hw & Ho & Hc & Hm) Hr. cbn [prologue]. rewrite Hw. apply Z.eqb_neq in Ho, Hc, Hm. rewrite Ho, Hc, Hm. cbn [andb orb].
  unfold batched. destruct k; destruct Hr; rewrite idle_opened0, idle_batch0, idle_separated0, ?idle_delivered0; done.
Qed.

Lemma idle_open r : idle false false false r -> ready opening (set_value (set_changed (value_ r)) (set_opened r)).
Proof. intros []. by split. Qed.

Lemma idle_comma r : idle true false false r -> ready next (set_separated true r).
Proof. intros []. by split. Qed.

(** The prologue consumes the data, or reaches the element. *)
Lemma prologue_toward d k r data t rest : (exists c l, d = c :: l /\ begins c) -> toward d k r (rest) -> forall tail, rest ++ tail = data ++ t ->
  (exists r' rest', prologue data r = returns [] error.success r' /\ toward d k r' rest' /\ rest' ++ tail = t) \/
  (exists r' data', prologue data r = proceeds data' (set_started true r') /\ ready k r' /\ data' <> [] /\ data' ++ t = d ++ tail).
Proof.
  intros Hd. revert r rest. induction data as [| c data IH]; intros r rest Ht tail He; [left; exists r, rest; by split_and! |].
  destruct Ht as [k r w Hr Hw | r w w2 Hr Hw Hw2 | r w w2 Hr Hw Hw2].
  - destruct w as [| c' w].
    + right. exists r, (c :: data). split_and!; try done. clear IH. destruct Hd as (x & l & -> & Hx). injection He as <- _. by apply (prologue_element x k).
    + cbn in He. injection He as <- He. apply Forall_cons in Hw as [Hc Hw]. rewrite prologue_ws by done. apply (IH r (w ++ d)); [by constructor | done].
  - destruct w as [| c' w].
    + cbn in He. injection He as <- He. rewrite prologue_open by done. apply (IH _ (w2 ++ d)); [constructor; [by apply idle_open | done] | done].
    + cbn in He. injection He as <- He. apply Forall_cons in Hw as [Hc Hw]. rewrite prologue_ws by done. apply (IH r (w ++ open_array :: w2 ++ d)); [by constructor | done].
  - destruct w as [| c' w].
    + cbn in He. injection He as <- He. rewrite prologue_comma by done. apply (IH _ (w2 ++ d)); [constructor; [by apply idle_comma | done] | done].
    + cbn in He. injection He as <- He. apply Forall_cons in Hw as [Hc Hw]. rewrite prologue_ws by done. apply (IH r (w ++ comma :: w2 ++ d)); [by constructor | done].
Qed.

(** The prologue of a close. *)
Lemma prologue_close r w tail data t : idle true false false r -> ws w -> w ++ close_array :: tail = data ++ t ->
  (exists w', prologue data r = returns [] error.success r /\ ws w' /\ w' ++ close_array :: tail = t) \/
  (exists data', prologue data r = proceeds data' (set_value (set_changed (value_ r)) (set_closed r)) /\ data' ++ t = tail /\ data' <> data).
Proof.
  intros Hr. revert data. induction w as [| c w IH]; intros data Hw He.
  - destruct data as [| c data]; [left; by exists []; split_and!; [| constructor |] |]. injection He as <- He. right. exists data. split_and!.
    + cbn [prologue]. destruct Hr. unfold batched. by rewrite idle_opened0, idle_batch0, idle_separated0.
    + done.
    + intros Hx. apply (f_equal length) in Hx. cbn in Hx. lia.
  - apply Forall_cons in Hw as [Hc Hw]. destruct data as [| c' data]; [left; exists (c :: w); split_and!; [done | by constructor | done] |].
    injection He as <- He. rewrite prologue_ws by done. destruct (IH data Hw He) as [H1 | (data' & H1 & H2 & H3)]; [by left |].
    right. exists data'. split_and!; [done | done |]. intros ->. destruct data; [by cbn in H1 |]. cbn [prologue] in H1.
    apply (f_equal length) in H2. rewrite length_app in H2. apply (f_equal length) in He. rewrite !length_app in He. cbn in *. lia.
Qed.
(** A reader whose element has started. *)
Record begun (k : kind) (r : reader) : Prop := {
  begun_terminated : terminated_ r = false;
  begun_started : started_ r = true;
  begun_opened : opened_ r = bool_decide (k = opening);
  begun_closed : closed_ r = false;
  begun_signaled : signaled_ r = false;
  begun_expected : expected_ r = Some maximum;
  begun_batch : batch (value_ r) = bool_decide (k = next);
  begun_changed : changed (value_ r) = bool_decide (k = opening)
}.

Lemma ready_begun k r : ready k r -> begun k (set_started true r) /\ parser_ (set_started true r) = fresh.
Proof. destruct k; intros []; by split; [split |]. Qed.

Lemma unterminated r : terminated_ r = false -> requires_terminator r = false.
Proof. unfold requires_terminator. by intros ->. Qed.

Lemma begun_requires k r : begun k r -> requires_terminator r = false.
Proof. intros Hb. apply unterminated, Hb. Qed.

Lemma begun_batched k r : begun k r -> batched r = negb (bool_decide (k = single)).
Proof. intros []. unfold batched. rewrite begun_batch0, begun_opened0. by destruct k. Qed.

Lemma begun_parsed k r total p : begun k r -> begun k (set_parsed total p r).
Proof. by intros []. Qed.

Context `{!JsonParserLaws}.

Lemma total_within b n r : expected_ r = Some maximum -> b && (ceilinged_add (total_ r) n >? default maximum (expected_ r)) = false.
Proof. intros ->. apply andb_false_iff. right. change (default maximum (Some maximum)) with maximum. unfold ceilinged_add. lia. Qed.

(** The parser reads a part of its document, or its end. *)
Lemma base_put_part r r1 r2 v : expected_ r = Some maximum -> parsing (parser_ r) (r1 ++ r2) v -> r1 <> [] -> r2 <> [] ->
  exists p', base_put r1 r = (len r1, error.success : code, set_parsed (ceilinged_add (total_ r) (len r1)) p' r) /\ parsing p' r2 v.
Proof.
  intros He Hp H1 H2. destruct (parsing_part _ _ _ _ Hp H1 H2) as (p' & Hw & Hp'). exists p'. split; [| done]. unfold base_put.
  rewrite bool_decide_eq_false_2 by done. destruct (parsing_undone _ _ _ Hp) as [_ ->]. by rewrite Hw, total_within.
Qed.

Lemma base_put_end r rem v w g : expected_ r = Some maximum -> parsing (parser_ r) rem v -> ws w -> headed g ->
  exists p' q, base_put (rem ++ w ++ g) r = (len (rem ++ w), error.success : code, set_parsed (ceilinged_add (total_ r) (len (rem ++ w))) p' r) /\
    parser_done p' = true /\ release p' = (v, q).
Proof.
  intros He Hp Hw Hg. destruct (parsing_end _ _ _ w g Hp Hw Hg) as (p' & q & Hws & Hd & Hr & _). exists p', q. split; [| done]. unfold base_put.
  destruct (parsing_undone _ _ _ Hp) as [Hn ->]. rewrite bool_decide_eq_false_2 by (destruct rem; done). by rewrite Hws, total_within.
Qed.

Definition holds (r : reader) (v : json) : Prop := parser_done (parser_ r) = true /\ exists q, release (parser_ r) = (v, q).

Lemma element_reads k r rem v rest data t : begun k r -> parsing (parser_ r) rem v -> data <> [] -> rem ++ rest = data ++ t ->
  (exists r' rem', element data r = returns [] error.success r' /\ begun k r' /\ parsing (parser_ r') rem' v /\ t = rem' ++ rest) \/
  (exists r' w g, element data r = proceeds g r' /\ ws w /\ headed g /\ rest = w ++ g ++ t /\ (length g < length data)%nat /\ holds r' v /\ begun k r').
Proof.
  intros Hb Hp Hd He. pose proof (begun_expected _ _ Hb) as Hex. destruct (parsing_undone _ _ _ Hp) as [Hrem Hu].
  destruct (prefix_cases _ _ _ _ He) as [(rem2 & Hn & -> & ->) | (f & -> & ->)]; [left | right].
  - destruct (base_put_part r data rem2 v Hex Hp Hd Hn) as (p' & Hput & Hp'). exists (set_parsed (ceilinged_add (total_ r) (len data)) p' r), rem2.
    unfold element. rewrite (begun_started _ _ Hb), Hu. cbn [andb negb]. rewrite Hput. cbn [parser_ set_parsed]. destruct (parsing_undone _ _ _ Hp') as [_ ->].
    rewrite orb_true_r, zdrop_ge by lia. split_and!; [done | by apply begun_parsed | done | done].
  - destruct (span_ws f) as (w & g & -> & Hw & Hg). destruct (base_put_end r rem v w g Hex Hp Hw Hg) as (p' & q & Hput & Hdone & Hr).
    set (r' := set_parsed (ceilinged_add (total_ r) (len (rem ++ w))) p' r) in *. assert (begun k r') as Hb' by (by apply begun_parsed).
    exists r', w, g. unfold element. rewrite (begun_started _ _ Hb), Hu. cbn [andb negb]. rewrite Hput. change (parser_ r') with p'. rewrite Hdone.
    rewrite app_assoc, zdrop_app_len by done. rewrite (begun_requires _ _ Hb'). split_and!; try done; [by rewrite <- app_assoc | | by split; [| exists q]].
    rewrite !length_app. destruct rem; [done |]. cbn. lia.
Qed.

(** A reader that has read the close of a batch. *)
Record closing (r : reader) : Prop := {
  closing_terminated : terminated_ r = false;
  closing_started : started_ r = false;
  closing_closed : closed_ r = true;
  closing_signaled : signaled_ r = false;
  closing_batch : batch (value_ r) = true;
  closing_changed : changed (value_ r) = true
}.

(** What remains to be read of a message, by a reader: its event, and what follows. *)
Inductive waits (r : reader) : bytes -> event -> bytes -> Prop :=
  | waits_toward k d v m rest t : toward d k r t -> document d v -> admitted v = Some m -> waits r (t ++ rest) (arrives m (bool_decide (k = opening))) rest
  | waits_element k rem v m rest : begun k r -> parsing (parser_ r) rem v -> admitted v = Some m -> waits r (rem ++ rest) (arrives m (bool_decide (k = opening))) rest
  | waits_close w rest : idle true false false r -> ws w -> waits r (w ++ close_array :: rest) closes rest.

(** The event of a value. *)
Definition told (e : event) (v : value_type) : Prop :=
  if batch_close v then e = closes else e = arrives (message v) (batch_open v).

(** What a phase is to do with data that is followed by [t]. *)
Inductive reaches (data t : bytes) (e : event) (rest : bytes) : phase -> Prop :=
  | reaches_wait r : waits r t e rest -> finish r = (r, to_http_code http_error.need_more) -> reaches data t e rest (proceeds [] r)
  | reaches_return r : waits r t e rest -> finish r = (r, to_http_code http_error.need_more) -> reaches data t e rest (returns [] error.success r)
  | reaches_pause g r : told e (value_ r) -> follows (g ++ t) rest -> reaches data t e rest (returns g (to_http_code http_error.need_buffer) r)
  | reaches_end g r r' : (length g < length data)%nat -> finish r = (r', error.success : code) -> told e (value_ r') -> follows (g ++ t) rest ->
      reaches data t e rest (proceeds g r).

Lemma need_more_failed : failed (to_http_code http_error.need_more) = true.
Proof. reflexivity. Qed.

Lemma follows_ws w rest : ws w -> follows (w ++ rest) rest.
Proof. intros Hw. exists w, [], rest. split_and!; try done. constructor. Qed.

Lemma follows_split u rest w x : ws u -> ws w -> u ++ rest = w ++ x -> follows x rest.
Proof.
  intros Hu Hw He. destruct (prefix_cases u rest w x He) as [(u2 & _ & -> & ->) | (f & -> & ->)]; [apply follows_ws; by apply ws_split in Hu as [_ ?] |].
  apply ws_split in Hw as [_ Hf]. exists [], f, x. split_and!; [constructor | done | done | done].
Qed.

Lemma finish_undone k r : begun k r -> parser_done (parser_ r) = false -> finish r = (r, to_http_code http_error.need_more).
Proof.
  intros Hb Hu. unfold finish. rewrite (begun_closed _ _ Hb), (begun_started _ _ Hb), andb_false_r. unfold base_finish, done.
  by rewrite (begun_closed _ _ Hb), Hu.
Qed.

Lemma finish_idle b o s r : idle b o s r -> parser_done fresh = false -> finish r = (r, to_http_code http_error.need_more).
Proof.
  intros [] Hf. unfold finish, batched. rewrite idle_closed0, idle_batch0, idle_opened0, idle_started0. destruct (b || o); [done |]. cbn [orb andb negb].
  unfold base_finish, done. rewrite idle_closed0, idle_parser0, Hf. done.
Qed.

(** The release of a document that is admitted. *)
Lemma base_finish_holds k r v : begun k r -> holds r v ->
  exists q, base_finish r = (set_value (set_model v (value_ r)) (set_parsed (total_ r) q r), error.success : code).
Proof.
  intros Hb (Hd & q & Hr). exists q. unfold base_finish, done. rewrite Hd, (begun_requires _ _ Hb), orb_true_r. cbn [negb andb orb]. by rewrite Hr.
Qed.

Lemma told_arrives k r v m v' : begun k r -> message v' = m -> batch v' = batch (set_model v (value_ r)) -> changed v' = changed (set_model v (value_ r)) ->
  told (arrives m (bool_decide (k = opening))) v'.
Proof.
  intros Hb Hm Hbv Hc. unfold told, batch_close, batch_open. rewrite Hbv, Hc, Hm. cbn [batch changed set_model]. rewrite (begun_batch _ _ Hb), (begun_changed _ _ Hb). by destruct k.
Qed.

Lemma delivery_batch k r v m g : begun k r -> k <> single -> holds r v -> admitted v = Some m ->
  exists r', delivery g r = returns g (to_http_code http_error.need_buffer) r' /\ told (arrives m (bool_decide (k = opening))) (value_ r').
Proof.
  intros Hb Hk Hh Ha. destruct (base_finish_holds k r v Hb Hh) as [q Hq].
  unfold delivery. rewrite (begun_batched _ _ Hb), (begun_requires _ _ Hb), (bool_decide_eq_false_2 (k = single)) by done. rewrite orb_true_r.
  rewrite (begun_closed _ _ Hb), (begun_started _ _ Hb). destruct Hh as [-> _]. cbn [negb andb orb]. rewrite Hq.
  destruct (to_request_admitted (set_model v (value_ r)) m) as (v' & Ht & Hm & Hbv & Hc); [done |]. cbn [value_ set_value]. cbn [failed]. rewrite Ht.
  eexists. split; [reflexivity |]. by apply (told_arrives k r v m).
Qed.

Lemma delivery_single r g : begun single r -> delivery g r = proceeds g r.
Proof. intros Hb. unfold delivery. by rewrite (begun_batched _ _ Hb), (begun_closed _ _ Hb). Qed.

Lemma finish_single r v m : begun single r -> holds r v -> admitted v = Some m -> exists r', finish r = (r', error.success : code) /\ told (arrives m false) (value_ r').
Proof.
  intros Hb Hh Ha. destruct (base_finish_holds single r v Hb Hh) as [q Hq].
  unfold finish. rewrite (begun_closed _ _ Hb), (begun_started _ _ Hb), andb_false_r, Hq.
  destruct (to_request_admitted (set_model v (value_ r)) m) as (v' & Ht & Hm & Hbv & Hc); [done |]. cbn [value_ set_value failed]. rewrite Ht.
  eexists. split; [reflexivity |]. by apply (told_arrives single r v m).
Qed.

(** The phases that follow the element. *)
Definition conclusion (completed : bool) (data : bytes) (r : reader) : phase :=
  then_phase (if negb (terminated_ r) && negb (batched r) && started_ r && parser_done (parser_ r) then trailer completed data r else proceeds data r) (fun data r =>
  then_phase (if requires_terminator r && negb (has_terminator_ r) then terminator data r else proceeds data r) delivery).

(** Nothing trails an element that the parser has read, but for whitespace that
    it has read: what follows starts the next message. *)
Lemma trailer_headed g r : headed g -> trailer false g r = proceeds g r.
Proof. intros Hg. destruct g as [| c g]; [done |]. cbn [trailer]. by rewrite (Hg c g eq_refl). Qed.

Lemma conclusion_single r v m w g t data : begun single r -> holds r v -> admitted v = Some m -> headed g -> ws w ->
  (length g < length data)%nat -> reaches data t (arrives m false) (w ++ g ++ t) (conclusion false g r).
Proof.
  intros Hb Hh Ha Hg Hw Hlen. unfold conclusion.
  assert ((if negb (terminated_ r) && negb (batched r) && started_ r && parser_done (parser_ r) then trailer false g r else proceeds g r) = proceeds g r) as ->
    by (destruct (_ && _); [by apply trailer_headed | done]).
  cbn [then_phase]. rewrite (begun_requires _ _ Hb). cbn [andb then_phase]. rewrite delivery_single by done.
  destruct (finish_single r v m Hb) as (r' & Hf & Htold); [done | done |]. apply (reaches_end _ _ _ _ _ _ r'); try done. exists [], w, (g ++ t). split_and!; try done. constructor.
Qed.

Lemma conclusion_batch completed k r v m w g t data : begun k r -> k <> single -> holds r v -> admitted v = Some m -> ws w ->
  reaches data t (arrives m (bool_decide (k = opening))) (w ++ g ++ t) (conclusion completed g r).
Proof.
  intros Hb Hk Hh Ha Hw. unfold conclusion. rewrite (begun_batched _ _ Hb), (bool_decide_eq_false_2 (k = single)), andb_false_r by done. cbn [negb andb then_phase].
  rewrite (begun_requires _ _ Hb). cbn [andb then_phase].
  destruct (delivery_batch k r v m g Hb Hk Hh Ha) as (r' & -> & Ht). constructor; [done |]. exists [], w, (g ++ t). split_and!; try done. constructor.
Qed.

Lemma element_reaches k r rem v m rest data t : begun k r -> parsing (parser_ r) rem v -> admitted v = Some m -> data <> [] -> rem ++ rest = data ++ t ->
  reaches data t (arrives m (bool_decide (k = opening))) rest (then_phase (element data r) (conclusion false)).
Proof.
  intros Hb Hp Ha Hd He. destruct (element_reads k r rem v rest data t Hb Hp Hd He) as [(r' & rem' & -> & Hb' & Hp' & ->) | (r' & w & g & -> & Hw & Hg & -> & Hlen & Hh & Hb')]; cbn [then_phase].
  - destruct (parsing_undone _ _ _ Hp') as [_ Hun]. constructor; [by apply (waits_element _ k _ v) | by apply (finish_undone k)].
  - destruct (decide (k = single)) as [-> | Hk]; [by apply (conclusion_single _ v) | by apply (conclusion_batch _ _ _ v)].
Qed.

(** *** The whole of [put] *)

Lemma put_phases_eq data r : put_phases data r = then_phase (if negb (started_ r) && negb (closed_ r) then prologue data r else proceeds data r) (fun data' r' =>
  then_phase (if closed_ r' && signaled_ r' then epilogue data' r' else proceeds data' r') (fun data' r' =>
  then_phase (element data' r') (conclusion (started_ r && parser_done (parser_ r))))).
Proof. reflexivity. Qed.

Lemma reaches_mono data data' t e rest x : (length data' <= length data)%nat -> reaches data' t e rest x -> reaches data t e rest x.
Proof. intros Hl []; [by apply reaches_wait | by apply reaches_return | by apply reaches_pause | by eapply reaches_end; [lia | ..]]. Qed.

Lemma toward_idle d k r t : toward d k r t -> exists b o s, idle b o s r.
Proof. intros [k' r' w Hr | r' w w2 Hr | r' w w2 Hr]; [destruct k' | |]; eauto. Qed.

Lemma toward_length d k r t : toward d k r t -> (length d <= length t)%nat.
Proof. intros []; rewrite ?length_app; cbn; rewrite ?length_app; lia. Qed.

Lemma document_text d v : document d v -> (exists c l, d = c :: l /\ begins c) /\ parser_done fresh = false.
Proof. intros Hd. split; [apply (document_begins _ _ Hd) | apply (parsing_undone _ _ _ (parsing_fresh _ _ Hd))]. Qed.

Lemma idle_finishes r t e rest : waits r t e rest -> forall b o s, idle b o s r -> finish r = (r, to_http_code http_error.need_more).
Proof.
  intros Hw b o s Hi. destruct Hw as [k d v m rest t Ht Hd | k rem v m rest Hb | w rest Hi'].
  - apply (finish_idle b o s); [done |]. by apply (document_text d v).
  - destruct Hi, Hb; congruence.
  - unfold finish, batched. destruct Hi'. by rewrite idle_closed0, idle_batch0, idle_started0.
Qed.

(** The close of a batch is given as it is read. *)
Lemma conclusion_close completed r g t data : closing r -> reaches data t closes (g ++ t) (conclusion completed g r).
Proof.
  intros Hc. pose proof (unterminated r (closing_terminated _ Hc)) as Hr. unfold conclusion, batched. rewrite (closing_batch _ Hc). cbn [orb negb]. rewrite andb_false_r. cbn [andb then_phase].
  rewrite Hr. cbn [andb then_phase]. unfold delivery, batched. rewrite Hr, (closing_closed _ Hc), (closing_signaled _ Hc). cbn [orb negb andb].
  apply reaches_pause; [| apply (follows_ws []); constructor]. unfold told, batch_close. cbn [value_ set_signaled]. by rewrite (closing_changed _ Hc), (closing_batch _ Hc).
Qed.

Lemma put_reaches r text e rest data t : waits r text e rest -> text = data ++ t -> data <> [] -> reaches data t e rest (put_phases data r).
Proof.
  intros Hw He Hd. rewrite put_phases_eq. pose proof (idle_finishes _ _ _ _ Hw) as Hidle. destruct Hw as [k d v m rest t0 Ht Hdoc Ha | k rem v m rest Hb Hp Ha | w rest Hi Hw].
  - destruct (toward_idle _ _ _ _ Ht) as (b & o & se & Hi). rewrite (idle_started _ _ _ _ Hi), (idle_closed _ _ _ _ Hi). cbn [negb andb].
    destruct (document_text d v Hdoc) as (Hb & Hf).
    destruct (prologue_toward d k r data t t0 Hb Ht _ He) as [(r' & rest' & -> & Ht' & <-) | (r' & data' & -> & Hr & Hd' & He')]; cbn [then_phase].
    + destruct (toward_idle _ _ _ _ Ht') as (b' & o' & se' & Hi'). apply reaches_return; [by apply (waits_toward _ _ d v) | by apply (finish_idle b' o' se')].
    + destruct (ready_begun k r' Hr) as [Hb' Hp']. rewrite (begun_closed _ _ Hb'). cbn [andb then_phase]. apply (reaches_mono _ data').
      * pose proof (toward_length _ _ _ _ Ht) as Hl. apply (f_equal length) in He, He'. rewrite !length_app in *. lia.
      * apply (element_reaches k _ d v m); try done. rewrite Hp'. by apply parsing_fresh.
  - rewrite (begun_started _ _ Hb), (begun_closed _ _ Hb), (proj2 (parsing_undone _ _ _ Hp)). cbn [negb andb then_phase]. rewrite (begun_closed _ _ Hb). cbn [andb then_phase].
    by apply (element_reaches k _ rem v m).
  - rewrite (idle_started _ _ _ _ Hi), (idle_closed _ _ _ _ Hi). cbn [negb andb].
    destruct (prologue_close r w rest data t Hi Hw He) as [(w' & -> & Hw' & <-) | (data' & -> & <- & _)]; cbn [then_phase].
    + apply reaches_return; [by apply waits_close | by apply (Hidle true false false)].
    + assert (closing (set_value (set_changed (value_ r)) (set_closed r))) as Hc by (by destruct Hi). rewrite (closing_signaled _ Hc), andb_false_r. cbn [then_phase].
      unfold element. rewrite (closing_started _ Hc). cbn [andb then_phase]. by apply conclusion_close.
Qed.

(** What a phase leaves is the end of the data. *)
Definition rest_of (x : phase) : bytes := match x with proceeds rest _ | returns rest _ _ => rest end.

Lemma rest_then x f data : suffix (rest_of x) data -> (forall g r, suffix (rest_of (f g r)) g) -> suffix (rest_of (then_phase x f)) data.
Proof. destruct x as [g r | g ec r]; cbn; [| done]. intros Hg Hf. exact (transitivity (Hf g r) Hg). Qed.

Lemma rest_prologue data r : suffix (rest_of (prologue data r)) data.
Proof. revert r. induction data as [| c data IH]; intros r; cbn [prologue]; [done |]. repeat case_match; cbn [rest_of]; try done; apply suffix_cons_r; (done || apply IH). Qed.

Lemma rest_epilogue data r : suffix (rest_of (epilogue data r)) data.
Proof. induction data as [| c data IH]; cbn [epilogue]; [done |]. case_match; [by apply suffix_cons_r | done]. Qed.

Lemma rest_trailer b data r : suffix (rest_of (trailer b data r)) data.
Proof. induction data as [| c data IH]; cbn [trailer]; [done |]. repeat case_match; [by apply suffix_cons_r | done | done]. Qed.

Lemma rest_terminator data r : suffix (rest_of (terminator data r)) data.
Proof. induction data as [| c data IH]; cbn [terminator]; [done |]. repeat case_match; cbn [rest_of]; [by apply suffix_cons_r | done | by apply suffix_cons_r]. Qed.

Lemma rest_element data r : suffix (rest_of (element data r)) data.
Proof.
  unfold element. destruct (_ && _); [| done]. destruct (base_put data r) as [[parsed ec] r']. assert (suffix (zdrop parsed data) data) as Hs by apply suffix_drop.
  by destruct (_ || _).
Qed.

Lemma rest_delivery data r : suffix (rest_of (delivery data r)) data.
Proof. unfold delivery. repeat case_match; done. Qed.

Lemma rest_put data r : suffix (rest_of (put_phases data r)) data.
Proof.
  rewrite put_phases_eq. apply rest_then; [destruct (_ && _); [apply rest_prologue | done] |]. intros g1 r1. apply rest_then; [destruct (_ && _); [apply rest_epilogue | done] |].
  intros g2 r2. apply rest_then; [apply rest_element |]. intros g3 r3. unfold conclusion. apply rest_then; [destruct (_ && _); [apply rest_trailer | done] |].
  intros g4 r4. apply rest_then; [destruct (_ && _); [apply rest_terminator | done] | intros; apply rest_delivery].
Qed.

Lemma zdrop_suffix (g data : bytes) : suffix g data -> zdrop (len data - len g) data = g.
Proof. intros [k ->]. apply zdrop_app_len. rewrite len_app. lia. Qed.


(** *** The parser of the body, and the reads of the socket *)

(** A parser of a stream, whose reader is once it is initialized, and whose
    limit is not reached by a text. *)
Record within (p : body_parser) (r : reader) (text : bytes) : Prop := {
  within_done : done_ p = false;
  within_streamed : streamed_ (reader_ p) = true;
  within_reader : if initialized_ p then selected_ (reader_ p) = Some r else r = (init None (make_reader false (request_ (reader_ p)))).1;
  within_limit : body_limit_ p = 0 \/ body_total_ p + len text <= body_limit_ p
}.

Definition advanced (p : body_parser) (r : reader) (used : Z) (d : bool) : body_parser :=
  mk_parser (select r (reader_ p)) (body_limit_ p) (ceilinged_add (body_total_ p) used) true d.

Lemma within_advanced p r data t r' : within p r (data ++ t) -> within (advanced p r' (len data) false) r' t.
Proof.
  intros [_ Hs _ Hl]. split; [done | done | done |]. destruct Hl as [? | Hl]; [by left | right]. cbn [body_total_ body_limit_ advanced]. rewrite len_app in Hl. unfold ceilinged_add. lia.
Qed.

(** What a stream needs more of is not incomplete. *)
Lemma body_finish_select p r : streamed_ (reader_ p) = true -> body_finish (select r (reader_ p)) = let '(r, ec) := finish r in (select r (reader_ p), ec).
Proof. intros Hs. unfold body_finish. cbn [selected_ select]. destruct (finish r) as [r' ec]. cbn [streamed_ select]. by rewrite Hs. Qed.

Lemma parser_put_eq data p r text : within p r text -> len data <= len text -> forall used ec r', put data r = (used, ec, r') -> 0 <= used <= len data ->
  parser_put data p = if failed ec then (used, ec, advanced p r' used false) else if used =? 0 then (0, to_http_code http_error.need_more, advanced p r' used false) else
    let '(r, ec) := finish r' in (used, ec, advanced p r used (negb (failed ec))).
Proof.
  intros [Hd Hs Hr Hl] Hlen used ec r' Hput Hu.
  assert (negb (body_limit_ p =? 0) && (ceilinged_add (body_total_ p) used >? body_limit_ p) = false) as Hlim.
  { destruct Hl as [-> | Hl]; [done |]. unfold ceilinged_add. lia. }
  assert (exists b, (if initialized_ p then (reader_ p, error.success : code) else body_init None (reader_ p)) = (b, error.success : code) /\ body_put data b = (used, ec, select r' (reader_ p))) as (b & Hb & Hbp).
  { destruct (initialized_ p); [exists (reader_ p); unfold body_put; by rewrite Hr, Hput |]. subst r. unfold body_init, assign_reader. cbn [selected_ select]. cbn [init fst] in Hput.
    eexists. split; [reflexivity |]. unfold body_put. cbn [selected_ select]. change (init None (make_reader false (request_ (reader_ p)))) with (set_expected (Some maximum) (set_parsed 0 fresh (make_reader false (request_ (reader_ p)))), error.success : code) in Hput.
    cbn [fst] in Hput. change (default maximum None) with maximum. by rewrite Hput. }
  unfold parser_put. rewrite Hd, Hb. change (failed (error.success : code)) with false. cbn iota. rewrite Hbp, Hlim, body_finish_select by done.
  unfold advanced. destruct (finish r'); done.
Qed.

(** A read of the buffer: it completes, or all was consumed. *)
Lemma do_parse_reaches n p r data t e rest : within p r (data ++ t) -> waits r (data ++ t) e rest ->
  (exists p' r', do_parse (S n) data p = reads_more [] p' /\ within p' r' t /\ waits r' t e rest) \/
  (exists ec g p', do_parse (S n) data p = handled ec g p' /\ (ec = error.success \/ ec = error.need_buffer) /\ told e (body_value (reader_ p')) /\ follows (g ++ t) rest /\ suffix g data).
Proof.
  intros Hin Hw. assert (len data <= len (data ++ t)) as Hlen by (rewrite len_app; pose proof (len_nonneg t); lia). cbn [do_parse].
  destruct (decide (data = [])) as [-> | Hd].
  { left. rewrite (parser_put_eq [] p r _ Hin Hlen 0 error.success r eq_refl) by done. change (failed (error.success : code)) with false. cbn iota.
    exists (advanced p r 0 false), r. split_and!; [done | by apply (within_advanced p r []) | done]. }
  pose proof (put_reaches _ _ _ _ _ _ Hw eq_refl Hd) as Hr. pose proof (zdrop_suffix _ _ (rest_put data r)) as Hz. pose proof (rest_put data r) as Hsuf.
  assert (put data r = match put_phases data r with proceeds rest r => (len data - len rest, error.success : code, r) | returns rest ec r => (len data - len rest, ec, r) end) as Hput.
  { unfold put. by rewrite bool_decide_eq_false_2. }
  assert (0 < len data) as Hpos by (destruct data; [done | rewrite len_cons; pose proof (len_nonneg data); lia]).
  assert (forall g : bytes, suffix g data -> 0 <= len data - len g <= len data) as Hg. { intros g [k ->]. rewrite len_app. pose proof (len_nonneg k). pose proof (len_nonneg g). lia. }
  destruct Hr as [r' Hwt Hf | r' Hwt Hf | g r' Htold Hfo | g r1 r' Hlt Hf Htold Hfo]; cbn [rest_of] in Hz, Hsuf; rewrite (parser_put_eq data p r _ Hin Hlen _ _ _ Hput (Hg _ Hsuf)).
  1, 2: left; change (len (@nil Z)) with 0 in *; rewrite Z.sub_0_r in *; change (failed (error.success : code)) with false; cbn iota;
    rewrite (proj2 (Z.eqb_neq _ _)) by lia; rewrite Hf, Hz; exists (advanced p r' (len data) false), r'; split_and!; [done | by apply (within_advanced p r) | done].
  - right. change (failed (to_http_code http_error.need_buffer)) with true. cbn iota. rewrite Hz.
    eexists _, g, (advanced p r' (len data - len g) false). split_and!; [reflexivity | by right | done | done | done].
  - right. change (failed (error.success : code)) with false. cbn iota.
    rewrite (proj2 (Z.eqb_neq _ _)) by (unfold len; lia). rewrite Hf, Hz.
    eexists _, g, (advanced p r' (len data - len g) true). split_and!; [reflexivity | by left | done | done | done].
Qed.

Lemma waits_nonempty r t e rest : waits r t e rest -> t <> [].
Proof.
  intros Hw ->. inversion Hw as [k d v m rest' t0 Ht Hdoc Ha He | k rem v m rest' Hb Hp Ha He | w rest' Hi Hw' He]; apply app_eq_nil in He as [-> ?]; try done.
  - apply toward_length in Ht. destruct (document_text d v Hdoc) as ((c & l & -> & _) & _). cbn in Ht. lia.
  - by destruct (parsing_undone _ _ _ Hp).
Qed.

Lemma receive_reaches max_size chunks buffer p r e rest : 0 < max_size -> within p r (buffer ++ concat chunks) -> waits r (buffer ++ concat chunks) e rest ->
  exists v g chunks', receive max_size (map arrived chunks) buffer p = completes error.success v g (map arrived chunks') /\ told e v /\ follows (g ++ concat chunks') rest /\
    len (g ++ concat chunks') <= len (buffer ++ concat chunks).
Proof.
  intros Hm. revert buffer p r. induction chunks as [| c chunks IH]; intros buffer p r Hin Hw; cbn [receive map];
    destruct (do_parse_reaches (length buffer) p r buffer _ e rest Hin Hw) as [(p' & r' & -> & Hin' & Hw') | (ec & g & p' & -> & Hec & Ht & Hf & Hs)].
  - by destruct (waits_nonempty _ _ _ _ Hw').
  - exists (body_value (reader_ p')), g, []. split_and!; [by destruct Hec as [-> | ->] | done | done |]. destruct Hs as [k ->]. rewrite !len_app. pose proof (len_nonneg k). lia.
  - rewrite (proj2 (Z.leb_gt _ _)) by done. destruct (IH ([] ++ c) p' r') as (v & g & chunks' & H1 & H2 & H3 & H4); [done | done |]. exists v, g, chunks'. split_and!; [done | done | done |].
    cbn [concat]. cbn [app] in H4. rewrite !len_app in *. pose proof (len_nonneg buffer). lia.
  - exists (body_value (reader_ p')), g, (c :: chunks). split_and!; [by destruct Hec as [-> | ->] | done | done |]. destruct Hs as [k ->]. rewrite !len_app. pose proof (len_nonneg k). lia.
Qed.

(** ** Streams of messages *)

(** The text of an event, in and out of a batch, and whether a batch is open after it. *)
Inductive message_text : bool -> event -> bytes -> bool -> Prop :=
  | text_single w d v m : ws w -> document d v -> admitted v = Some m -> message_text false (arrives m false) (w ++ d) false
  | text_open w w2 d v m : ws w -> ws w2 -> document d v -> admitted v = Some m -> message_text false (arrives m true) (w ++ open_array :: w2 ++ d) true
  | text_next w w2 d v m : ws w -> ws w2 -> document d v -> admitted v = Some m -> message_text true (arrives m false) (w ++ comma :: w2 ++ d) true
  | text_close w : ws w -> message_text true closes (w ++ [close_array]) false.

Inductive stream : bool -> list event -> bytes -> Prop :=
  | stream_end b t : stream b [] t
  | stream_more b b' e es text rest : message_text b e text b' -> stream b' es rest -> stream b (e :: es) (text ++ rest).

(** A text begins with whitespace, and a character that is none. *)
Lemma message_text_ws b e t b' : message_text b e t b' -> exists w c l, t = w ++ c :: l /\ ws w /\ is_json_whitespace c = false /\ forall w', ws w' -> message_text b e (w' ++ c :: l) b'.
Proof.
  intros [w d v m Hw Hd Ha | w w2 d v m Hw Hw2 Hd Ha | w w2 d v m Hw Hw2 Hd Ha | w Hw].
  - destruct (document_begins _ _ Hd) as (c & l & -> & Hc & _). exists w, c, l. split_and!; [done | done | done |]. intros w' Hw'. by apply (text_single w' _ v).
  - exists w, open_array, (w2 ++ d). split_and!; [done | done | done |]. intros w' Hw'. by apply (text_open w' w2 d v).
  - exists w, comma, (w2 ++ d). split_and!; [done | done | done |]. intros w' Hw'. by apply (text_next w' w2 d v).
  - exists w, close_array, []. split_and!; [done | done | done |]. intros w' Hw'. by apply text_close.
Qed.

Lemma stream_follows b es t rest : stream b es rest -> follows t rest -> stream b es t.
Proof.
  intros [b0 t0 | b0 b' e es0 text rest0 Ht Hs]; [constructor |]. intros (w & w' & base & Hw & Hw' & -> & He).
  destruct (message_text_ws _ _ _ _ Ht) as (w0 & c & l & -> & Hw0 & Hc & Hall). rewrite <- app_assoc, <- app_comm_cons in He.
  destruct (prefix_cases w0 (c :: l ++ rest0) w' base He) as [(a2 & _ & -> & ->) | (f & -> & Hf)].
  - apply ws_split in Hw0 as [_ Ha2]. rewrite app_assoc. replace ((w ++ a2) ++ c :: l ++ rest0) with (((w ++ a2) ++ c :: l) ++ rest0) by (by rewrite <- app_assoc).
    apply (stream_more _ b' _ _ _ rest0); [| done]. apply Hall. by apply ws_app.
  - destruct f as [| x f].
    + cbn [app] in Hf. subst base. replace (w ++ c :: l ++ rest0) with ((w ++ c :: l) ++ rest0) by (by rewrite <- app_assoc). apply (stream_more _ b' _ _ _ rest0); [by apply Hall | done].
    + injection Hf as -> _. apply ws_split in Hw' as [_ Hx]. apply Forall_cons in Hx as [Hx _]. congruence.
Qed.

Lemma message_waits b e text b' rest r : message_text b e text b' -> idle b false false r -> waits r (text ++ rest) e rest.
Proof.
  intros [w d v m Hw Hd Ha | w w2 d v m Hw Hw2 Hd Ha | w w2 d v m Hw Hw2 Hd Ha | w Hw] Hi.
  - apply (waits_toward r single d v); try done. by constructor.
  - apply (waits_toward r opening d v); try done. by constructor.
  - apply (waits_toward r next d v); try done. by constructor.
  - rewrite <- app_assoc. by apply waits_close.
Qed.

Lemma told_batch b e text b' v : message_text b e text b' -> told e v -> batch_close v = bool_decide (b' = false /\ b = true) /\ (batch_close v = false -> batch_open v = bool_decide (b' = true /\ b = false)).
Proof. intros Ht. unfold told. destruct Ht, (batch_close v) eqn:Hc; try done; intros [= -> Hx]; split; try done; rewrite <- Hx; done. Qed.

Lemma serve_stream limit max_size b es t buffer chunks : 0 < max_size -> stream b es t -> t = buffer ++ concat chunks -> limit = 0 \/ len t <= limit ->
  serve (length es) limit max_size b buffer (map arrived chunks) = es.
Proof.
  intros Hm Hs. revert t buffer chunks b Hs. induction es as [| e es IH]; intros t buffer chunks b Hs He Hl; [done |].
  inversion Hs as [| b0 b' e0 es0 text rest Ht Hrest E1 E2 E3]; subst b0 e0 es0. cbn [length serve]. unfold rpc_read.
  destruct (receive_reaches max_size chunks buffer (make_parser (make_value b) true limit) (init None (make_reader false (make_value b))).1 e rest) as (v & g & chunks' & -> & Htold & Hf & Hlen).
  - done.
  - split; [done | done | done |]. cbn [body_limit_ body_total_ make_parser]. rewrite <- He. destruct Hl; [by left | right; lia].
  - rewrite <- He, <- E3. apply (message_waits b e text b'); [done |]. by split.
  - change (failed (error.success : code)) with false. cbn iota. pose proof Htold as Hto. unfold told in Hto. pose proof (stream_follows _ _ _ _ Hrest Hf) as Hs'.
    assert (limit = 0 \/ len (g ++ concat chunks') <= limit) as Hl' by (rewrite <- He in Hlen; destruct Hl; [by left | right; lia]).
    destruct (told_batch _ _ _ _ v Ht Htold) as [Hc Ho]. destruct (batch_close v) eqn:Hbc.
    + subst e. symmetry in Hc. apply bool_decide_eq_true_1 in Hc as [-> ->]. f_equal. by apply (IH _ g chunks' false Hs').
    + subst e. f_equal. specialize (Ho eq_refl). assert (b || batch_open v = b') as ->; [| by apply (IH _ g chunks' b' Hs')]. rewrite Ho. clear -Ht Hc. by destruct Ht; try done.
Qed.

(** C6: a stream of json-rpc messages, singletons and batches, is read as it is
    framed, however its bytes arrive: each message is given in turn, the first of
    a batch as the one that opens it, and each batch is closed, with whitespace
    wherever json allows it; no message is lost, merged or given twice, and
    what follows a message stays for the next read.  A message ends with its
    document: the reader of a socket does not require the line to end. *)
Theorem rpc_stream_delivers (limit max_size : Z) (es : list event) (chunks : list bytes) (Hm : 0 < max_size) (Hs : stream false es (concat chunks)) (Hl : limit = 0 \/ len (concat chunks) <= limit) :
  serve (length es) limit max_size false [] (map arrived chunks) = es.
Proof. by apply (serve_stream limit max_size false es (concat chunks)). Qed.

End body.

(** ** An instance: documents between braces

    The text is the method of a request. *)
Module braces.

#[export] Instance integers : Json := {|
  number := Z; double := Z; any := unit; to_double z := z; to_code := Some; of_double z := z; of_integer z := z;
  not_kind := error.jsonrpc_reader_exception; not_exact := error.jsonrpc_reader_exception
|}.

Inductive t := reading (text : bytes) | finished (j : json).

Definition document_of (text : bytes) : json := json_object [(chars "jsonrpc", json_string (chars "2.0")); (chars "method", json_string text)].

Fixpoint write (data text : bytes) (used : Z) : Z * code * t :=
  match data with
  | [] => (used, error.success : code, reading text)
  | c :: data => if c =? close_object then (used + 1 + leading data, error.success : code, finished (document_of text)) else write data (text ++ [c]) (used + 1)
  end.

#[export] Instance parser : JsonParser := {|
  parser := t;
  fresh := reading [];
  parser_done p := match p with finished _ => true | reading _ => false end;
  write_some data p := match p with reading text => write data text 0 | finished _ => (0, error.success : code, p) end;
  release p := match p with finished j => (j, reading []) | reading _ => (json_null, p) end
|}.

Lemma write_part data text used : close_object ∉ data -> write data text used = (used + len data, error.success : code, reading (text ++ data)).
Proof.
  revert text used. induction data as [| c data IH]; intros text used Hd; cbn [write]; [by rewrite app_nil_r, Z.add_0_r |].
  apply not_elem_of_cons in Hd as [Hc Hd]. rewrite (proj2 (Z.eqb_neq _ _)) by congruence. rewrite IH by done. rewrite len_cons, <- app_assoc. f_equal. f_equal. lia.
Qed.

Lemma leading_ws w rest : ws w -> headed rest -> leading (w ++ rest) = len w.
Proof.
  intros Hw Hr. induction Hw as [| c w Hc _ IH]; cbn [leading app]; [destruct rest as [| c rest]; [done | cbn [leading]; by rewrite (Hr c rest eq_refl)] |].
  rewrite Hc, len_cons, IH. lia.
Qed.

Lemma write_end body text used w rest : close_object ∉ body -> ws w -> headed rest ->
  write (body ++ close_object :: w ++ rest) text used = (used + len body + 1 + len w, error.success : code, finished (document_of (text ++ body))).
Proof.
  revert text used. induction body as [| c body IH]; intros text used Hd Hw Hr; cbn [write app].
  - rewrite Z.eqb_refl, leading_ws, app_nil_r by done. f_equal. f_equal. rewrite len_nil. lia.
  - apply not_elem_of_cons in Hd as [Hc Hd]. rewrite (proj2 (Z.eqb_neq _ _)) by congruence. rewrite IH by done. rewrite len_cons, <- app_assoc. f_equal. f_equal. lia.
Qed.

#[export, refine] Instance laws : JsonParserLaws := {|
  document d v := exists c body, d = (c :: body) ++ [close_object] /\ begins c /\ c <> close_object /\ close_object ∉ body /\ v = document_of (c :: body);
  parsing p r v := exists text body, p = reading text /\ r = body ++ [close_object] /\ close_object ∉ body /\ v = document_of (text ++ body)
|}.
Proof.
  - intros d v (c & body & -> & (H1 & H2 & H3 & H4) & _). by exists c, (body ++ [close_object]).
  - intros d v (c & body & -> & _ & Hc & Hb & ->). exists [], (c :: body). split_and!; try done. by apply not_elem_of_cons.
  - intros p r v (text & body & -> & -> & _). split; [by destruct body | done].
  - intros p r1 r2 v (text & body & -> & Hr & Hb & ->) H1 H2. symmetry in Hr. destruct (prefix_cases body [close_object] r1 r2 Hr) as [(a2 & _ & -> & ->) | (f & -> & Hf)].
    + apply not_elem_of_app in Hb as [Hb1 Hb2]. exists (reading (text ++ r1)). cbn [write_some parser]. rewrite write_part by done. split; [done |].
      exists (text ++ r1), a2. split_and!; try done. by rewrite <- app_assoc.
    + destruct f as [| x f]; [| destruct f; [injection Hf as -> Hf; by subst r2 | done]]. cbn [app] in Hf. subst r2. rewrite app_nil_r in *.
      exists (reading (text ++ body)). cbn [write_some parser]. rewrite write_part by done. split; [done |]. exists (text ++ body), []. split_and!; [done | done | apply not_elem_of_nil | by rewrite app_nil_r].
  - intros p r v w rest (text & body & -> & -> & Hb & ->) Hw Hr. exists (finished (document_of (text ++ body))), (reading []). cbn [write_some parser].
    rewrite <- app_assoc. cbn [app]. rewrite write_end by done. split_and!; [| done | done |].
    + f_equal. f_equal. rewrite !len_app. change (len [close_object]) with 1. lia.
    + intros d v' (c & body' & -> & _ & Hc & Hb' & ->). exists [], (c :: body'). split_and!; try done. by apply not_elem_of_cons.
Defined.

Definition text (method : string) : bytes := chars method ++ [close_object].

Definition expects (method : string) : request := mk_request v2 None (chars method) None.

Definition events : list event := [arrives (expects "ping") false; arrives (expects "get") true; arrives (expects "put") false; closes; arrives (expects "stop") false].

(** A singleton, a batch, and a singleton, divided within all of them. *)
Definition chunks : list bytes := [[space] ++ chars "pi"; chars "ng"; [close_object; newline; newline; open_array; space]; text "get" ++ [tab]; [comma]; text "put"; [];
  [close_array; space]; [newline; space] ++ text "stop"; [carriage; newline]].

Definition texts : bytes := ([space] ++ text "ping") ++ ([newline; newline] ++ open_array :: [space] ++ text "get") ++ ([tab] ++ comma :: [] ++ text "put") ++
  ([] ++ [close_array]) ++ ([space; newline; space] ++ text "stop") ++ [carriage; newline].
End braces.

#[local] Existing Instances braces.integers braces.parser braces.laws.

Lemma rpc_stream_delivers_witness : serve 5 0 4096 false [] (map arrived braces.chunks) = braces.events.
Proof.
  refine (rpc_stream_delivers 0 4096 braces.events braces.chunks eq_refl _ (or_introl eq_refl)). change (concat braces.chunks) with braces.texts. unfold braces.texts, braces.events.
  assert (forall l : string, chars l <> [] -> bool_decide (close_object ∉ chars l) = true -> forall c k, chars l = c :: k -> begins c ->
    document (braces.text l) (braces.document_of (chars l))) as Hdoc.
  { intros l _ Hb%bool_decide_eq_true_1 c k Hl Hc. exists c, k. unfold braces.text. rewrite Hl in *. apply not_elem_of_cons in Hb as [Hb1 Hb2]. split_and!; try done. }
  repeat (eapply stream_more; [first
    [ apply text_close; repeat constructor
    | eapply text_single; [repeat constructor | eapply Hdoc; [done | reflexivity | reflexivity | vm_compute; by split_and!] | reflexivity]
    | eapply text_open; [repeat constructor | repeat constructor | eapply Hdoc; [done | reflexivity | reflexivity | vm_compute; by split_and!] | reflexivity]
    | eapply text_next; [repeat constructor | repeat constructor | eapply Hdoc; [done | reflexivity | reflexivity | vm_compute; by split_and!] | reflexivity] ] |]).
  apply stream_end.
Defined.
End rpc_body.
