(* ===== verification/RpcWriter.v ===== *)
(** * RpcWriter: json-rpc messages as they are written

    Models the writers of [src/messages/rpc/body.cpp] over that of
    [include/bitcoin/network/impl/messages/json_body.ipp], the serializer of
    headerless bodies of [impl/messages/http/serializer.ipp], and the writes of
    [src/net/socket_http.cpp] and [socket_rpc.cpp].  The json serializer of
    libbitcoin-system is a parameter; the retained buffer is its bound. *)

From S2P Require Import Prelude.
From S2P Require Import Errors.
From S2P Require Import RpcModel.
From S2P Require Import RpcBody.

Module rpc_writer.
Import rpc_model rpc_body.

(** ** The json serializer

    [read n]: the next of the text of the document, at most [n] of it. *)
Class JsonSerializer `{Json} := {
  serializer : Type;
  reset : json -> serializer;
  serializer_done : serializer -> bool;
  read : Z -> serializer -> bytes * serializer
}.

(** [remaining]: the text that is not read. *)
Class JsonSerializerLaws `{JsonSerializer} := {
  to_text : json -> bytes;
  remaining : serializer -> bytes;
  to_text_nonempty j : to_text j <> [];
  remaining_reset j : remaining (reset j) = to_text j;
  remaining_read n s : 0 < n -> (read n s).1 = ztake n (remaining s) /\ remaining (read n s).2 = zdrop n (remaining s);
  done_remaining s : serializer_done s = bool_decide (remaining s = [])
}.

Section writer.
Context `{Serializer : JsonSerializer}.

(** ** Parts *)

(** [message_type]: a message with the state of its batch, how it is terminated,
    the estimate of its size, and the bound of the buffer, if it has one. *)
Record part {A : Type} := mk_part { message : A; batch : bool; changed : bool; terminate : bool; size_hint : Z; max_size : option Z }.
Arguments part : clear implicits.

Definition opens_batch {A} (v : part A) : bool := negb (batch v) && changed v.
Definition continues_batch {A} (v : part A) : bool := batch v && negb (changed v).
Definition closes_batch {A} (v : part A) : bool := batch v && changed v.

(** ** The writer of json *)

Record writer := mk_writer { serializer_ : serializer; chunk_ : Z; terminator_ : bool; set_terminator_ : bool; set_prefix_ : bool; set_close_ : bool }.

Definition make_writer : writer := mk_writer (reset json_null) 0 false false false false.

Definition set_serializer s (w : writer) : writer := mk_writer s (chunk_ w) (terminator_ w) (set_terminator_ w) (set_prefix_ w) (set_close_ w).
Definition set_chunk n (w : writer) : writer := mk_writer (serializer_ w) n (terminator_ w) (set_terminator_ w) (set_prefix_ w) (set_close_ w).
Definition set_terminator b (w : writer) : writer := mk_writer (serializer_ w) (chunk_ w) b (set_terminator_ w) (set_prefix_ w) (set_close_ w).
Definition wrote_terminator (w : writer) : writer := mk_writer (serializer_ w) (chunk_ w) (terminator_ w) true (set_prefix_ w) (set_close_ w).
Definition wrote_prefix (w : writer) : writer := mk_writer (serializer_ w) (chunk_ w) (terminator_ w) (set_terminator_ w) true (set_close_ w).
Definition wrote_close (w : writer) : writer := mk_writer (serializer_ w) (chunk_ w) (terminator_ w) (set_terminator_ w) (set_prefix_ w) true.

Definition reserve (w : writer) : Z := if terminator_ w then 1 else 0.

Definition floored_subtract (a b : Z) : Z := (a - b) `max` 0.

(** The chunk is the estimate, within the bound less any terminator. *)
Definition base_init {A} (v : part A) (w : writer) : writer * code :=
  match max_size v with
  | None => (w, to_http_code http_error.bad_alloc)
  | Some m =>
    let most := floored_subtract m (reserve w) in
    (set_chunk (if size_hint v =? 0 then most else size_hint v `min` most) w, error.success : code)
  end.

(** What a writer gives: bytes, and whether more follow. *)
Definition out_buffer : Type := option (bytes * bool).

Definition base_done (w : writer) : bool := serializer_done (serializer_ w).

Definition base_get {A} (v : part A) (w : writer) : out_buffer * code * writer :=
  if base_done w then (None, to_http_code http_error.end_of_stream, w) else
  if negb (bool_decide (is_Some (max_size v))) then (None, to_http_code http_error.bad_alloc, w) else
  if chunk_ w =? 0 then (None, to_http_code http_error.buffer_overflow, w) else
  let '(view, s) := read (chunk_ w) (serializer_ w) in
  let w := set_serializer s w in
  if bool_decide (view = []) && negb (serializer_done s) then (None, to_http_code http_error.unexpected_body, w) else
  let more := negb (serializer_done s) in
  (Some (if more || negb (terminator_ w) then view else view ++ [newline], more), error.success : code, w).

(** The document is had from the message. *)
Definition init_model (from : throws json) (w : writer) : writer * code :=
  match from with
  | inl (json_exception ec) => (w, ec)
  | inl ostream_exception => (w, error.jsonrpc_writer_exception : code)
  | inr j => (set_serializer (reset j) w, error.success : code)
  end.

Definition set_hint {A} (n : Z) (v : part A) : part A := if size_hint v =? 0 then mk_part A (message v) (batch v) (changed v) (terminate v) n (max_size v) else v.
Definition set_message {A} (m : A) (v : part A) : part A := mk_part A m (batch v) (changed v) (terminate v) (size_hint v) (max_size v).

(** ** The writers of messages *)

Definition init_request (v : part request) (w : writer) : part request * writer * code :=
  let v := set_hint (request_size (message v)) v in
  let '(w, ec) := base_init v (set_terminator (terminate v) w) in
  if failed ec then (v, w, ec) else
  let '(w, ec) := init_model (request_from (message v)) w in (v, w, ec).

(** The response to a notification is empty, and the close of a batch has none. *)
Definition init_response (v : part response) (w : writer) : part response * writer * code :=
  if closes_batch v then (v, w, error.success : code) else
  let m := message v in
  let v := if bool_decide (response_jsonrpc m = v2) && bool_decide (response_id m = None) then set_message (mk_response v2 None None None) v else v in
  let v := set_hint (response_size (message v)) v in
  let terminated := terminate v && negb (opens_batch v) && negb (continues_batch v) in
  let '(w, ec) := base_init v (set_terminator terminated w) in
  if failed ec then (v, w, ec) else
  let '(w, ec) := init_model (response_from (message v)) w in (v, w, ec).

Definition get_request (v : part request) (w : writer) : out_buffer * code * writer :=
  if base_done w then (None, error.success : code, w) else base_get v w.

Definition get_response (v : part response) (w : writer) : out_buffer * code * writer :=
  let single c more w := (Some ([c], more), error.success : code, w) in
  let prefixed := set_prefix_ w in
  let w := wrote_prefix w in
  if negb prefixed && opens_batch v then single open_array true w else
  if negb prefixed && continues_batch v then single comma true w else
  if closes_batch v then
    if negb (set_close_ w) then single close_array (terminate v) (wrote_close w) else single newline false (wrote_terminator w)
  else if base_done w then (None, error.success : code, w) else base_get v w.

Definition done_response (v : part response) (w : writer) : bool :=
  if closes_batch v then set_close_ w && (negb (terminate v) || set_terminator_ w) else base_done w.

(** ** The serializer of a body without a header

    A writer of messages is its initialization and its next buffer. *)
Record writes {A : Type} := mk_writes { init : part A -> writer -> part A * writer * code; get : part A -> writer -> out_buffer * code * writer }.
Arguments writes : clear implicits.

Definition request_writes : writes request := mk_writes request init_request get_request.
Definition response_writes : writes response := mk_writes response init_response get_response.

Record body_serializer {A : Type} := mk_serializer { value_ : part A; writer_ : writer; initialized_ : bool; done_ : bool }.
Arguments body_serializer : clear implicits.

Definition make_serializer {A} (v : part A) : body_serializer A := mk_serializer A v make_writer false false.

(** The buffers of a write; none, when it is done or fails. *)
Definition next {A} (k : writes A) (s : body_serializer A) : list bytes * code * body_serializer A :=
  if done_ s then ([], error.success : code, s) else
  let '(v, w, ec) := if initialized_ s then (value_ s, writer_ s, error.success : code) else init k (value_ s) (writer_ s) in
  if failed ec then ([], ec, mk_serializer A v w true false) else
  let '(out, ec, w) := get k v w in
  if failed ec then ([], ec, mk_serializer A v w true false) else
  ([match out with Some (b, _) => b | None => [] end], ec, mk_serializer A v w true (match out with Some (_, more) => negb more | None => true end)).

(** ** The writes of a socket *)

(** What each [async_write] completes with is taken in turn: the buffers that are
    written, and what the handler is called with, if it is. *)
Fixpoint do_serialize {A} (fuel : nat) (k : writes A) (completions : list (code * Z)) (s : body_serializer A) (total : Z) : list bytes * option (code * Z) :=
  match fuel with
  | O => ([], None)
  | S fuel =>
    let '(buffers, ec, s) := next k s in
    if failed ec then ([], Some (http_to_error_code ec, total)) else
    match buffers with
    | [] => if done_ s then ([], Some (error.success : code, total)) else do_serialize fuel k completions s total
    | _ =>
      match completions with
      | [] => (buffers, None)
      | (ec, size) :: completions =>
        let total := ceilinged_add total size in
        if bool_decide (ec = (error.operation_canceled : code)) then (buffers, Some (error.channel_stopped : code, total)) else
        if failed ec then (buffers, Some (ec, total)) else
        let '(written, r) := do_serialize fuel k completions s total in (buffers ++ written, r)
      end
    end
  end.

(** A stream terminates its messages; its buffer has a bound. *)
Definition do_rpc_write (fuel : nat) (bound : Z) (b c : bool) (m : response) (completions : list (code * Z)) : list bytes * option (code * Z) :=
  do_serialize fuel response_writes completions (make_serializer (mk_part response m b c true 0 (Some bound))) 0.

Definition do_rpc_notify (fuel : nat) (bound : Z) (m : request) (completions : list (code * Z)) : list bytes * option (code * Z) :=
  do_serialize fuel request_writes completions (make_serializer (mk_part request m false false true 0 (Some bound))) 0.

(** ** Sizes *)

Lemma sum_nonneg l : Forall (fun z => 0 <= z) l -> 0 <= sum l.
Proof.
  unfold sum. assert (forall a, 0 <= a -> Forall (fun z => 0 <= z) l -> 0 <= fold_left Z.add l a) as Hall.
  { induction l as [| z l IH]; intros a Ha Hl; cbn [fold_left]; [done |]. apply Forall_cons in Hl as [Hz Hl]. apply IH; [lia | done]. }
  intros Hl. by apply Hall.
Qed.

Lemma json_size_nonneg : forall j, 0 <= json_size j.
Proof.
  fix IH 1. intros [| b | n | s | l | l]; cbn [json_size]; try done; [pose proof (len_nonneg s); unfold element_size; lia | |]; apply sum_nonneg.
  - induction l as [| j l IHl]; constructor; [apply IH | apply IHl].
  - induction l as [| [k j] l IHl]; constructor; [cbn [fst snd]; pose proof (len_nonneg k); pose proof (IH j); lia | apply IHl].
Qed.

Lemma value_size_nonneg v : 0 <= value_size v.
Proof.
  induction v as [v Ha Ho | l IH | l IH] using value_nested.
  - destruct v; cbn [value_size]; try done; [pose proof (len_nonneg s); unfold element_size; lia | by destruct (Ha l) | by destruct (Ho l) | apply json_size_nonneg].
  - cbn [value_size]. apply sum_nonneg. by induction IH; constructor.
  - cbn [value_size]. apply sum_nonneg. induction IH as [| [k v] l Hv _ IHl]; constructor; [cbn [fst snd] in *; pose proof (len_nonneg k); lia | done].
Qed.

Lemma values_size_nonneg l : 0 <= sum (map value_size l).
Proof. apply sum_nonneg. induction l; constructor; [apply value_size_nonneg | done]. Qed.

Lemma request_size_positive m : 0 < request_size m.
Proof.
  unfold request_size, envelope_size. pose proof (len_nonneg (method m)). assert (0 <= params_size (params m)); [| lia].
  destruct (params m) as [[v | l | l] |]; cbn [params_size]; [apply value_size_nonneg | apply values_size_nonneg | | done].
  apply sum_nonneg. induction l as [| [k v] l IH]; constructor; [cbn [fst snd]; pose proof (len_nonneg k); pose proof (value_size_nonneg v); lia | done].
Qed.

Lemma response_size_positive m : 0 < response_size m.
Proof.
  unfold response_size, envelope_size, element_size. destruct (response_result m) as [v |], (response_error m) as [[c t d] |]; cbn [result_message result_data];
    try (pose proof (value_size_nonneg v)); try (pose proof (len_nonneg t)); try destruct d as [d |]; try (pose proof (value_size_nonneg d)); lia.
Qed.

(** ** What is written *)

Context {Laws : JsonSerializerLaws}.

Definition completes_all (completions : list (code * Z)) : Prop := Forall (fun c => c.1 = (error.success : code)) completions.

Definition line (w : writer) : bytes := if terminator_ w then [newline] else [].

(** The writer has nothing to give but its document. *)
Definition settled {A} (k : writes A) (v : part A) (w : writer) : Prop :=
  is_Some (max_size v) /\ 0 < chunk_ w /\ forall s, serializer_done s = false -> get k v (set_serializer s w) = base_get v (set_serializer s w).

Lemma settled_serializer {A} (k : writes A) v w s : settled k v w -> settled k v (set_serializer s w).
Proof. intros (H1 & H2 & H3). split_and!; [done | done |]. intros s' Hs. by apply (H3 s'). Qed.

(** The next buffer of the document, and the line that ends it. *)
Lemma next_document {A} (k : writes A) v w : settled k v w -> remaining (serializer_ w) <> [] ->
  exists w' more, next k (mk_serializer A v w true false) = ([ztake (chunk_ w) (remaining (serializer_ w)) ++ if more : bool then [] else line w], error.success : code, mk_serializer A v w' true (negb more)) /\
    remaining (serializer_ w') = zdrop (chunk_ w) (remaining (serializer_ w)) /\ more = negb (bool_decide (remaining (serializer_ w') = [])) /\
    (exists s, w' = set_serializer s w).
Proof.
  intros (Hm & Hc & Hg) Hr. destruct (remaining_read (chunk_ w) (serializer_ w) Hc) as [H1 H2].
  assert (serializer_done (serializer_ w) = false) as Hd by (rewrite done_remaining; by apply bool_decide_eq_false_2).
  specialize (Hg (serializer_ w) Hd). assert (set_serializer (serializer_ w) w = w) as Hw by (by destruct w). rewrite Hw in Hg.
  unfold next. cbn [done_ initialized_ value_ writer_]. rewrite Hg. unfold base_get, base_done. rewrite Hd, bool_decide_eq_true_2 by done. cbn [negb].
  rewrite (proj2 (Z.eqb_neq _ _)) by lia. destruct (read (chunk_ w) (serializer_ w)) as [view s]. cbn [fst snd] in H1, H2. subst view.
  rewrite bool_decide_eq_false_2; cbn [andb].
  2: { intros Hn. assert (0 < len (remaining (serializer_ w))) by (destruct (remaining (serializer_ w)); [done | rewrite len_cons; pose proof (len_nonneg l); lia]).
    apply (f_equal len) in Hn. rewrite len_ztake in Hn by lia. change (len (@nil Z)) with 0 in Hn. lia. }
  rewrite done_remaining. exists (set_serializer s w), (negb (bool_decide (remaining s = []))). cbn [failed]. change (failed (error.success : code)) with false.
  split_and!; [| exact H2 | done | by exists s]. unfold line. cbn [terminator_ set_serializer].
  destruct (bool_decide (remaining s = [])), (terminator_ w); cbn; by rewrite ?app_nil_r.
Qed.

Lemma do_serialize_done {A} (k : writes A) v w fuel completions total : do_serialize (S fuel) k completions (mk_serializer A v w true true) total = ([], Some (error.success : code, total)).
Proof. reflexivity. Qed.

(** The document is written, whatever the sizes of its chunks. *)
Lemma serialize_document {A} (k : writes A) v n : forall w fuel completions total, settled k v w -> remaining (serializer_ w) <> [] -> (length (remaining (serializer_ w)) <= n)%nat ->
  completes_all completions -> (n <= length completions)%nat -> (n + 1 <= fuel)%nat ->
  exists written sent, do_serialize fuel k completions (mk_serializer A v w true false) total = (written, Some (error.success : code, sent)) /\
    concat written = remaining (serializer_ w) ++ line w.
Proof.
  induction n as [| n IH]; intros w fuel completions total Hs Hr Hn Hc Hl Hf; [destruct (remaining (serializer_ w)); [done | cbn in Hn; lia] |].
  destruct fuel as [| fuel]; [lia |]. destruct completions as [| [ec size] completions]; [cbn in Hl; lia |]. apply Forall_cons in Hc as [Hec Hc]. cbn [fst] in Hec. subst ec.
  destruct (next_document k v w Hs Hr) as (w' & more & Hnext & Hr' & Hmore & s & Hw'). cbn [do_serialize]. rewrite Hnext. change (failed (error.success : code)) with false. cbn iota.
  assert (bool_decide ((error.success : code) = (error.operation_canceled : code)) = false) as -> by (by vm_compute). cbn [length] in Hl.
  assert (0 < chunk_ w) as Hch by (by destruct Hs as (_ & ? & _)).
  destruct (bool_decide_reflect (remaining (serializer_ w') = [])) as [He | He]; cbn [negb] in Hmore; subst more; cbn [negb].
  - destruct fuel as [| fuel]; [lia |]. rewrite do_serialize_done. eexists _, _. split; [reflexivity |]. cbn [concat app]. rewrite app_nil_r. f_equal.
    rewrite <- (ztake_zdrop (chunk_ w) (remaining (serializer_ w))) at 2. by rewrite <- Hr', He, app_nil_r.
  - assert (settled k v w') as Hs' by (rewrite Hw'; by apply settled_serializer).
    assert (length (remaining (serializer_ w')) <= n)%nat as Hn'.
    { destruct (Z.le_gt_cases (len (remaining (serializer_ w))) (chunk_ w)) as [Hge | Hlt]; [rewrite zdrop_ge in Hr' by done; congruence |].
      pose proof (len_zdrop (chunk_ w) (remaining (serializer_ w)) (conj (Z.lt_le_incl _ _ Hch) (Z.lt_le_incl _ _ Hlt))) as Hz. rewrite <- Hr' in Hz. unfold len in *. lia. }
    destruct (IH w' fuel completions (ceilinged_add total size) Hs' He Hn' Hc ltac:(lia) ltac:(lia)) as (written & sent & -> & Hcat).
    eexists _, _. split; [reflexivity |]. cbn [concat app]. rewrite Hcat, app_nil_r. assert (line w' = line w) as -> by (by rewrite Hw').
    rewrite app_assoc, Hr'. f_equal. apply ztake_zdrop.
Qed.

Lemma next_initialized {A} (k : writes A) v v' w : init k v make_writer = (v', w, error.success : code) -> next k (make_serializer v) = next k (mk_serializer A v' w true false).
Proof. intros Hi. unfold next, make_serializer. cbn [done_ initialized_ value_ writer_]. by rewrite Hi. Qed.

Lemma do_serialize_next {A} (k : writes A) fuel completions x y total : next k x = next k y -> do_serialize (S fuel) k completions x total = do_serialize (S fuel) k completions y total.
Proof. intros Hn. cbn [do_serialize]. by rewrite Hn. Qed.

(** The writer is initialized with the document of a message. *)
Lemma base_init_ok {A} (v : part A) w bound : max_size v = Some bound -> 2 <= bound -> 0 < size_hint v ->
  exists n, base_init v w = (set_chunk n w, error.success : code) /\ 0 < n.
Proof.
  intros Hm Hb Hh. unfold base_init. rewrite Hm, (proj2 (Z.eqb_neq _ _)) by lia. eexists. split; [reflexivity |]. unfold floored_subtract, reserve. destruct (terminator_ w); lia.
Qed.

Lemma notification_written fuel bound m j completions : 2 <= bound -> request_from m = inr j -> completes_all completions ->
  (length (to_text j) <= length completions)%nat -> (length (to_text j) + 1 <= fuel)%nat ->
  exists written sent, do_rpc_notify fuel bound m completions = (written, Some (error.success : code, sent)) /\ concat written = to_text j ++ [newline].
Proof.
  intros Hb Hj Hc Hl Hf. unfold do_rpc_notify. set (v := mk_part request m false false true 0 (Some bound)). set (v' := mk_part request m false false true (request_size m) (Some bound)).
  pose proof (request_size_positive m) as Hs.
  destruct (base_init_ok v' (set_terminator true make_writer) bound eq_refl Hb Hs) as (n & Hi & Hn).
  set (w := set_serializer (reset j) (set_chunk n (set_terminator true make_writer))).
  assert (init request_writes v make_writer = (v', w, error.success : code)) as Hinit.
  { cbn [init request_writes]. unfold init_request. change (set_hint (request_size (message v)) v) with v'. change (terminate v') with true. rewrite Hi. cbn [failed]. change (failed (error.success : code)) with false. cbn iota.
    change (message v') with m. by rewrite Hj. }
  destruct fuel as [| fuel]; [lia |]. rewrite (do_serialize_next _ _ _ _ (mk_serializer request v' w true false)) by (by apply next_initialized).
  destruct (serialize_document request_writes v' (length (to_text j)) w (S fuel) completions 0) as (written & sent & Hw & Hcat); try done.
  - split_and!; [done | done |]. intros s Hd. cbn [get request_writes]. unfold get_request, base_done. cbn [serializer_ set_serializer]. by rewrite Hd.
  - cbn [w serializer_ set_serializer]. rewrite remaining_reset. apply to_text_nonempty.
  - cbn [w serializer_ set_serializer]. by rewrite remaining_reset.
  - exists written, sent. split; [done |]. rewrite Hcat. cbn [w serializer_ set_serializer]. by rewrite remaining_reset.
Qed.

(** *** Responses *)

(** What is written for a response: nothing of it, if it answers a notification. *)
Definition replied (m : response) : response := if bool_decide (response_jsonrpc m = v2) && bool_decide (response_id m = None) then mk_response v2 None None None else m.

Definition prefix (b c : bool) : bytes := if negb b && c then [open_array] else if b && negb c then [comma] else [].
Definition suffix (b c : bool) : bytes := if b || c then [] else [newline].

Lemma init_response_ok bound b c m j : b && c = false -> 2 <= bound -> response_from (replied m) = inr j -> exists v w, init response_writes (mk_part response m b c true 0 (Some bound)) make_writer = (v, w, error.success : code) /\
  batch v = b /\ changed v = c /\ max_size v = Some bound /\ 0 < chunk_ w /\ remaining (serializer_ w) = to_text j /\ line w = suffix b c /\ set_prefix_ w = false.
Proof.
  intros Hbc Hb Hj. cbn [init response_writes]. unfold init_response, closes_batch. cbn [batch changed message]. rewrite Hbc.
  set (v := if bool_decide (response_jsonrpc m = v2) && _ then _ else _).
  assert (v = mk_part response (replied m) b c true 0 (Some bound)) as -> by (unfold v, replied; by destruct (bool_decide (response_jsonrpc m = v2) && bool_decide (response_id m = None))). cbn [message].
  change (set_hint (response_size (replied m)) (mk_part response (replied m) b c true 0 (Some bound))) with (mk_part response (replied m) b c true (response_size (replied m)) (Some bound)).
  set (v := mk_part response (replied m) b c true (response_size (replied m)) (Some bound)). set (w0 := set_terminator _ make_writer).
  destruct (base_init_ok v w0 bound eq_refl Hb (response_size_positive (replied m))) as (n & -> & Hn). change (failed (error.success : code)) with false. cbn iota.
  change (message v) with (replied m). rewrite Hj. cbn [init_model]. eexists _, _. split; [reflexivity |]. split_and!; try done.
  - cbn [serializer_ set_serializer]. apply remaining_reset.
  - unfold line, suffix, w0, opens_batch, continues_batch. cbn. by destruct b, c.
Qed.

(** The delimiter of a part is the first of its writes. *)
Lemma get_prefix v w ch : set_prefix_ w = false -> closes_batch v = false -> prefix (batch v) (changed v) = [ch] -> get_response v w = (Some ([ch], true), error.success : code, wrote_prefix w).
Proof.
  intros Hp Hc Hx. unfold get_response. rewrite Hp. cbn [negb andb]. unfold prefix, opens_batch, continues_batch in *. destruct (batch v), (changed v); try done; injection Hx as <-; done.
Qed.

Lemma settled_prefixed v w bound : max_size v = Some bound -> 0 < chunk_ w -> closes_batch v = false -> settled response_writes v (wrote_prefix w).
Proof.
  intros Hm Hc Hb. split_and!; [by rewrite Hm | done |]. intros s Hd. cbn [get response_writes]. unfold get_response. cbn [set_prefix_ wrote_prefix set_serializer negb andb]. rewrite Hb.
  unfold base_done. cbn [serializer_ set_serializer wrote_prefix]. by rewrite Hd.
Qed.

Lemma response_written fuel bound b c m j completions : b && c = false -> 2 <= bound -> response_from (replied m) = inr j -> completes_all completions ->
  (length (to_text j) + 1 <= length completions)%nat -> (length (to_text j) + 2 <= fuel)%nat ->
  exists written sent, do_rpc_write fuel bound b c m completions = (written, Some (error.success : code, sent)) /\ concat written = prefix b c ++ to_text j ++ suffix b c.
Proof.
  intros Hbc Hb Hj Hc Hl Hf. unfold do_rpc_write. destruct (init_response_ok bound b c m j Hbc Hb Hj) as (v & w & Hi & Hvb & Hvc & Hm & Hch & Hr & Hline & Hp).
  assert (closes_batch v = false) as Hcl by (unfold closes_batch; by rewrite Hvb, Hvc). pose proof (settled_prefixed v w bound Hm Hch Hcl) as Hs.
  destruct fuel as [| fuel]; [lia |]. rewrite (do_serialize_next _ _ _ _ (mk_serializer response v w true false)) by (by apply next_initialized).
  assert (forall fuel completions total, completes_all completions -> (length (to_text j) <= length completions)%nat -> (length (to_text j) + 1 <= fuel)%nat ->
    exists written sent, do_serialize fuel response_writes completions (mk_serializer response v (wrote_prefix w) true false) total = (written, Some (error.success : code, sent)) /\
      concat written = to_text j ++ suffix b c) as Hdoc.
  { intros f l total Hcl' Hl' Hf'. destruct (serialize_document response_writes v (length (to_text j)) (wrote_prefix w) f l total) as (written & sent & Hw & Hcat); try done.
    - cbn [serializer_ wrote_prefix]. rewrite Hr. apply to_text_nonempty.
    - cbn [serializer_ wrote_prefix]. by rewrite Hr.
    - exists written, sent. split; [done |]. rewrite Hcat. cbn [serializer_ wrote_prefix]. rewrite Hr. f_equal. exact Hline. }
  destruct (prefix b c) as [| ch l] eqn:Hpre.
  - assert (next response_writes (mk_serializer response v w true false) = next response_writes (mk_serializer response v (wrote_prefix w) true false)) as Hn.
    { unfold next. cbn [done_ initialized_ value_ writer_ get response_writes]. assert (get_response v w = get_response v (wrote_prefix w)) as ->; [| done].
      unfold get_response. cbn [set_prefix_ wrote_prefix negb andb]. unfold opens_batch, continues_batch. rewrite Hvb, Hvc, Hp. unfold prefix in Hpre. destruct b, c; done. }
    rewrite (do_serialize_next _ _ _ _ _ _ Hn). cbn [app]. apply Hdoc; [done | lia | lia].
  - assert (l = []) as -> by (unfold prefix in Hpre; by destruct b, c; inversion Hpre).
    assert (next response_writes (mk_serializer response v w true false) = ([[ch]], error.success : code, mk_serializer response v (wrote_prefix w) true false)) as Hn.
    { unfold next. cbn [done_ initialized_ value_ writer_ get response_writes]. rewrite (get_prefix v w ch); [done | done | done | by rewrite Hvb, Hvc]. }
    destruct completions as [| [ec size] completions]; [cbn in Hl; lia |]. apply Forall_cons in Hc as [Hec Hc]. cbn [fst] in Hec. subst ec. cbn [length] in Hl.
    cbn [do_serialize]. rewrite Hn. change (failed (error.success : code)) with false. cbn iota.
    assert (bool_decide ((error.success : code) = (error.operation_canceled : code)) = false) as -> by (by vm_compute).
    destruct (Hdoc fuel completions (ceilinged_add 0 size) Hc ltac:(lia) ltac:(lia)) as (written & sent & -> & Hcat). eexists _, _. split; [reflexivity |]. cbn [concat app]. by rewrite Hcat.
Qed.

Lemma close_written fuel bound m completions : completes_all completions -> (2 <= length completions)%nat -> (3 <= fuel)%nat ->
  exists sent, do_rpc_write fuel bound true true m completions = ([[close_array]; [newline]], Some (error.success : code, sent)).
Proof.
  intros Hc Hl Hf. destruct fuel as [| [| [| fuel]]]; try lia. destruct completions as [| [e1 n1] [| [e2 n2] completions]]; cbn in Hl; try lia.
  apply Forall_cons in Hc as [H1 Hc]. apply Forall_cons in Hc as [H2 _]. cbn [fst] in H1, H2. subst e1 e2. by eexists.
Qed.

(** The parts of the responses to a batch, as the proxy stamps them, and its close. *)
Fixpoint write_batch (fuel : nat) (bound : Z) (completions : list (code * Z)) (b : bool) (ms : list response) : bytes :=
  match ms with
  | [] => concat (do_rpc_write fuel bound true true (mk_response undefined None None None) completions).1
  | m :: ms => concat (do_rpc_write fuel bound b (negb b) m completions).1 ++ write_batch fuel bound completions true ms
  end.

(** The text of an array. *)
Fixpoint elements (l : list bytes) : bytes := match l with [] => [] | [t] => t | t :: l => t ++ comma :: elements l end.

Lemma batch_written fuel bound completions ms js : 2 <= bound -> completes_all completions ->
  Forall2 (fun m j => response_from (replied m) = inr j /\ (length (to_text j) + 1 <= length completions)%nat /\ (length (to_text j) + 2 <= fuel)%nat) ms js ->
  (2 <= length completions)%nat -> (3 <= fuel)%nat ->
  write_batch fuel bound completions true ms = concat (map (fun j => comma :: to_text j) js) ++ [close_array; newline].
Proof.
  intros Hb Hc Hj Hl Hf. induction Hj as [| m j ms js (Hm & H1 & H2) _ IH]; cbn [write_batch map concat negb].
  - destruct (close_written fuel bound (mk_response undefined None None None) completions Hc Hl Hf) as (sent & ->). done.
  - destruct (response_written fuel bound true false m j completions eq_refl Hb Hm Hc H1 H2) as (written & sent & -> & Hcat). cbn [fst]. rewrite Hcat, IH.
    cbn [prefix suffix negb andb orb app]. by rewrite app_nil_r, <- app_assoc.
Qed.

(** C10: the responses to a batch are written as one array that ends its line:
    each message is its document, whatever the chunks it is written in, and the
    delimiters are those of the parts, which no other part repeats.  A response
    to a notification is an empty one. *)
Theorem rpc_batch_written (fuel : nat) (bound : Z) (completions : list (code * Z)) (m : response) (ms : list response) (j : json) (js : list json)
  (Hb : 2 <= bound) (Hc : completes_all completions)
  (Hj : Forall2 (fun m j => response_from (replied m) = inr j /\ (length (to_text j) + 1 <= length completions)%nat /\ (length (to_text j) + 2 <= fuel)%nat) (m :: ms) (j :: js)) :
  write_batch fuel bound completions false (m :: ms) = [open_array] ++ elements (map to_text (j :: js)) ++ [close_array; newline].
Proof.
  apply Forall2_cons in Hj as [(Hm & H1 & H2) Hj]. assert (to_text j <> []) as Hne by apply to_text_nonempty.
  assert (0 < length (to_text j))%nat by (destruct (to_text j); [done | cbn; lia]).
  cbn [write_batch negb]. destruct (response_written fuel bound false true m j completions eq_refl Hb Hm Hc H1 H2) as (written & sent & -> & Hcat). cbn [fst].
  rewrite Hcat, (batch_written fuel bound completions ms js Hb Hc Hj) by lia. cbn [prefix suffix negb andb orb]. rewrite app_nil_r, <- app_assoc. f_equal. rewrite app_assoc. f_equal.
  clear. revert j. induction js as [| k js IH]; intros j; [cbn; by rewrite app_nil_r |].
  change (elements (map to_text (j :: k :: js))) with (to_text j ++ comma :: elements (map to_text (k :: js))). by rewrite <- IH.
Qed.

End writer.

(** ** From a writer to a reader *)

Section delivery.
Context {Js : Json} {Parser : JsonParser} {ParserLaws : JsonParserLaws} {Serializer : JsonSerializer} {SerializerLaws : JsonSerializerLaws} {Laws : JsonLaws}.

(** A notification that is read back as it is: no single value stands for its parameters. *)
Definition wire_note (m : request) : Prop := wire_request m /\ jsonrpc m = v2 /\ method m <> [] /\ forall v, params m <> Some (value_params v).

Lemma note_admitted m j : wire_note m -> request_to j = inr m -> admitted j = Some m.
Proof.
  intros (_ & Hv & Hm & Hp) Hj. unfold admitted, to_request. cbn [model set_lax set_model]. rewrite Hj. rewrite Hv. cbn iota.
  rewrite (bool_decide_eq_false_2 (v2 = undefined)) by done. rewrite Hv. rewrite (bool_decide_eq_false_2 (v2 = invalid)), (bool_decide_eq_false_2 (method m = [])), (bool_decide_eq_false_2 (v2 = v1)) by done.
  destruct (params m) as [[v | l | l] |] eqn:Hpm; [by destruct (Hp v) | | |]; done.
Qed.

(** What a notification is on a stream. *)
Definition note_written (fuel : nat) (bound : Z) (completions : list (code * Z)) (m : request) : bytes := concat (do_rpc_notify fuel bound m completions).1.

(** The writes of a notification complete, and its document is one for the parser. *)
Definition note_ok (fuel : nat) (completions : list (code * Z)) (m : request) : Prop :=
  wire_note m /\ forall j, request_from m = inr j -> document (to_text j) j /\ (length (to_text j) <= length completions)%nat /\ (length (to_text j) + 1 <= fuel)%nat.

Lemma notes_stream fuel bound completions notes : 2 <= bound -> completes_all completions -> Forall (note_ok fuel completions) notes ->
  stream false (map (fun m => arrives m false) notes) (concat (map (note_written fuel bound completions) notes)).
Proof.
  intros Hb Hc Hn. induction Hn as [| m notes (Hw & Hj) _ IH]; cbn [map concat]; [constructor |].
  destruct (request_read m (proj1 Hw)) as (j & Hfrom & Hto). destruct (Hj j Hfrom) as (Hd & Hl & Hf).
  destruct (notification_written fuel bound m j completions Hb Hfrom Hc Hl Hf) as (written & sent & Hx & Hcat). unfold note_written at 1. rewrite Hx. cbn [fst]. rewrite Hcat, <- app_assoc.
  apply (stream_more false false); [apply (text_single [] (to_text j) j m); [constructor | done | by apply note_admitted] |].
  apply (stream_follows _ _ _ _ IH). apply follows_ws. by repeat constructor.
Qed.

(** C9: notifications that are written to a stream are the messages that are read
    from it, in order and each once: through their documents, the chunks in which
    they are serialized, the lines that end them, and however the bytes arrive. *)
Theorem rpc_notifications_delivered (fuel : nat) (bound limit max_size : Z) (completions : list (code * Z)) (notes : list request) (chunks : list bytes)
  (Hb : 2 <= bound) (Hc : completes_all completions) (Hn : Forall (note_ok fuel completions) notes)
  (Hs : concat chunks = concat (map (note_written fuel bound completions) notes)) (Hm : 0 < max_size) (Hl : limit = 0 \/ len (concat chunks) <= limit) :
  serve (length notes) limit max_size false [] (map arrived chunks) = map (fun m => arrives m false) notes.
Proof.
  pose proof (notes_stream fuel bound completions notes Hb Hc Hn) as Hstream. rewrite <- Hs in Hstream.
  pose proof (serve_stream limit max_size false (map (fun m => arrives m false) notes) (concat chunks) [] chunks Hm Hstream eq_refl Hl) as Hx. by rewrite length_map in Hx.
Qed.
End delivery.

(** ** An instance: the documents between braces of the reader *)
#[local] Existing Instances braces.integers braces.parser braces.laws.

Module texts.

Definition text_of (j : json) : bytes :=
  match j with json_object l => match find (chars "method") l with Some (json_string s) => s ++ [close_object] | _ => [close_object] end | _ => [close_object] end.

#[export] Instance serializer : JsonSerializer := {|
  serializer := bytes;
  reset := text_of;
  serializer_done s := bool_decide (s = []);
  read n s := (ztake n s, zdrop n s)
|}.

#[export, refine] Instance laws : JsonSerializerLaws := {| to_text := text_of; remaining s := s |}.
Proof.
  - intros j Hj. unfold text_of in Hj. repeat case_match; try discriminate. by apply app_eq_nil in Hj as [_ ?].
  - done.
  - done.
  - done.
Defined.

#[export] Instance exact : JsonLaws.
Proof. by split. Qed.

Definition note (name : string) : request := mk_request v2 None (chars name) None.
Definition completions : list (code * Z) := repeat (error.success : code, 1) 16.
Definition responses : list response := [mk_response v2 (Some (code_id 1)) None (Some (boolean_t true)); mk_response v2 None None None].
End texts.

#[local] Existing Instances texts.serializer texts.laws texts.exact.

Lemma rpc_batch_written_witness : write_batch 32 2 texts.completions false texts.responses = [open_array] ++ [close_object; comma; close_object] ++ [close_array; newline].
Proof.
  refine (rpc_batch_written 32 2 texts.completions _ _ (json_object [(chars "jsonrpc", json_string (chars "2.0")); (chars "id", json_number 1); (chars "result", json_bool true)]) [json_object [(chars "jsonrpc", json_string (chars "2.0"))]] _ _ _).
  - lia.
  - repeat constructor.
  - constructor; [vm_compute; split_and!; [done | lia | lia] |]. constructor; [vm_compute; split_and!; [done | lia | lia] | constructor].
Defined.

Lemma rpc_notifications_delivered_witness : serve 2 0 4096 false [] (map arrived [chars "pi"; chars "ng" ++ [close_object]; [newline] ++ chars "stop" ++ [close_object; newline]]) =
  [arrives (texts.note "ping") false; arrives (texts.note "stop") false].
Proof.
  refine (rpc_notifications_delivered 32 2 0 4096 texts.completions [texts.note "ping"; texts.note "stop"] _ _ _ _ _ _ (or_introl eq_refl)).
  - lia.
  - repeat constructor.
  - assert (forall name c l, chars name = c :: l -> begins c -> c <> close_object -> close_object ∉ l -> (length (chars name) < 16)%nat -> note_ok 32 texts.completions (texts.note name)) as Hok.
    { intros name c l Hname Hbeg Hc Hl Hlen. split.
      - split; [split; [done | split; [by intros ? [=] | by intros ? [=]]] | split; [done | split; [cbn; by rewrite Hname | done]]].
      - intros j Hj. assert (j = braces.document_of (chars name)) as ->.
        { unfold request_from, texts.note in Hj. cbn [jsonrpc id method params] in Hj. rewrite (bool_decide_eq_false_2 (chars name = [])) in Hj by (by rewrite Hname). by injection Hj as <-. }
        assert (to_text (braces.document_of (chars name)) = chars name ++ [close_object]) as Ht by reflexivity. rewrite Ht, length_app. split_and!; [| cbn [length texts.completions repeat]; lia | cbn [length]; lia].
        exists c, l. rewrite Hname. by split_and!. }
    constructor; [| constructor; [| constructor]].
    + apply (Hok "ping" 112 (chars "ing")); [reflexivity | vm_compute; by split_and! | done | apply (bool_decide_eq_true_1 _); vm_compute; reflexivity | cbn; lia].
    + apply (Hok "stop" 115 (chars "top")); [reflexivity | vm_compute; by split_and! | done | apply (bool_decide_eq_true_1 _); vm_compute; reflexivity | cbn; lia].
  - vm_compute. reflexivity.
  - lia.
Defined.
End rpc_writer.
