(* ===== verification/RpcDispatch.v ===== *)
(** * RpcDispatch: requests to the arguments of methods

    Models [include/bitcoin/network/impl/messages/rpc/dispatcher.ipp] with the
    parameter types of [messages/rpc/types.hpp] and the methods of [method.hpp].  What
    is decided by types when the program is compiled is decided here by values
    that stand for them; a pointer of a type is a parameter. *)

From S2P Require Import Prelude.
From S2P Require Import Errors.
From S2P Require Import RpcModel.

Module rpc_dispatch.
Import rpc_model.

(** ** Types of parameters *)

(** What [any_t] holds: [as_pointer T a], if it is a pointer to [T]. *)
Class Any `{Json} := { pointee : Type; as_pointer : pointee -> any -> bool }.

Section dispatch.
Context `{Pointers : Any}.

(** [internal_t]: the alternatives of a value, a pointer, or any value. *)
Inductive type :=
  | boolean_type | number_type | string_type | array_type | object_type
  | int8_type | int16_type | int32_type | int64_type | uint8_type | uint16_type | uint32_type | uint64_type
  | json_type | pointer_type (T : pointee) | any_value.

(** A plain type is required; [optional], [nullable] and [nullopt] are not. *)
Inductive argument := plain (t : type) | optional_of (t : type) (default_value : value) | nullable (t : type) | nullopt (t : type) (default_value : value).

(** [external_t]: the value of an argument, or none for one that is nullable. *)
Inductive external := given (v : value) | unset.

Definition internal (a : argument) : type := match a with plain t | optional_of t _ | nullable t | nullopt t _ => t end.

Definition is_required (a : argument) : bool := match a with plain _ => true | _ => false end.

(** The exceptions of an extraction. *)
Inductive thrown := bad_any_cast | bad_variant_access | system_error (ec : code).

Definition extracted (A : Type) : Type := thrown + A.

(** ** Values *)

Definition get_missing (a : argument) : extracted external :=
  match a with
  | plain _ => inl (system_error error.missing_parameter)
  | optional_of _ d | nullopt _ d => inr (given d)
  | nullable _ => inr unset
  end.

Definition get_nullified (a : argument) : extracted external :=
  match a with
  | nullopt _ d => inr (given d)
  | nullable _ => inr unset
  | _ => inl (system_error error.missing_parameter)
  end.

(** [std::get] of the alternative of a type. *)
Definition holds (t : type) (v : value) : bool :=
  match t, v with
  | boolean_type, boolean_t _ | number_type, number_t _ | string_type, string_t _ | array_type, array_t _ | object_type, object_t _
  | int8_type, int8_t _ | int16_type, int16_t _ | int32_type, int32_t _ | int64_type, int64_t _
  | uint8_type, uint8_t _ | uint16_type, uint16_t _ | uint32_type, uint32_t _ | uint64_type, uint64_t _ | json_type, json_t _ => true
  | pointer_type T, any_t p => as_pointer T p
  | any_value, _ => true
  | _, _ => false
  end.

Definition get_valued (a : argument) (v : value) : extracted external :=
  match internal a, v with
  | any_value, _ => inr (given v)
  | pointer_type T, any_t p => if as_pointer T p then inr (given v) else inl bad_any_cast
  | t, _ => if holds t v then inr (given v) else inl bad_variant_access
  end.

Definition get_value (a : argument) (v : value) : extracted external := match v with null_t => get_nullified a | _ => get_valued a v end.

(** ** Parameters *)

(** The elements that remain of an array. *)
Definition get_positional (a : argument) (array : list value) : extracted external * list value :=
  match array with [] => (get_missing a, []) | v :: array => (get_value a v, array) end.

Definition get_named (a : argument) (name : bytes) (object : list (bytes * value)) : extracted external :=
  match find name object with None => get_missing a | Some v => get_value a v end.

Definition get_array (p : option params_t) : extracted (list value) :=
  match p with None => inr [] | Some (array_params l) => inr l | Some _ => inl (system_error error.missing_array) end.

Definition get_object (p : option params_t) : extracted (list (bytes * value)) :=
  match p with None => inr [] | Some (object_params l) => inr l | Some _ => inl (system_error error.missing_object) end.

Fixpoint positionals (args : list argument) (array : list value) : extracted (list external * list value) :=
  match args with
  | [] => inr ([], array)
  | a :: args =>
    match get_positional a array with
    | (inl e, _) => inl e
    | (inr x, array) => match positionals args array with inl e => inl e | inr (xs, array) => inr (x :: xs, array) end
    end
  end.

Definition extract_positional (args : list argument) (p : option params_t) : extracted (list external) :=
  match get_array p with
  | inl e => inl e
  | inr array =>
    match positionals args array with
    | inl e => inl e
    | inr (xs, []) => inr xs
    | inr (_, _) => inl (system_error error.extra_positional)
    end
  end.

(** The arguments are evaluated in the order of parameters. *)
Fixpoint named (args : list argument) (names : list bytes) (object : list (bytes * value)) : extracted (list external) :=
  match args, names with
  | a :: args, name :: names =>
    match get_named a name object with
    | inl e => inl e
    | inr x => match named args names object with inl e => inl e | inr xs => inr (x :: xs) end
    end
  | _, _ => inr []
  end.

Definition extract_named (args : list argument) (names : list bytes) (p : option params_t) : extracted (list external) :=
  match get_object p with
  | inl e => inl e
  | inr object => if (length args <? length object)%nat then inl (system_error error.extra_named) else named args names object
  end.

Inductive grouping := positional | by_name | either.

Definition extract (mode : grouping) (args : list argument) (names : list bytes) (p : option params_t) : extracted (list external) :=
  match mode with
  | positional => extract_positional args p
  | by_name => extract_named args names p
  | either => match p with None | Some (array_params _) => extract_positional args p | Some _ => extract_named args names p end
  end.

(** ** Methods *)

Record method_t := mk_method { name : bytes; parameters : list argument; parameter_names : list bytes }.

(** [trailing_unrequireds_t]: what the declaration of a method asserts. *)
Fixpoint only_trailing_unrequireds (args : list argument) : bool :=
  match args with
  | [] => true
  | a :: args => if is_required a then only_trailing_unrequireds args else forallb (fun a => negb (is_required a)) args
  end.

Definition thrown_code (e : thrown) : code :=
  match e with bad_any_cast | bad_variant_access => error.unexpected_type | system_error ec => ec end.

(** What the subscribers of a method are notified with, or the code of its refusal. *)
Definition notify_method (mode : grouping) (m : method_t) (p : option params_t) : code + list external :=
  match extract mode (parameters m) (parameter_names m) p with inl e => inl (thrown_code e) | inr xs => inr xs end.

(** The functors by name, of which the first of a name is kept. *)
Fixpoint find_method (n : nat) (text : bytes) (methods : list method_t) : option (nat * method_t) :=
  match methods with
  | [] => None
  | m :: methods => if bool_decide (name m = text) then Some (n, m) else find_method (S n) text methods
  end.

Definition contains (text : bytes) (methods : list method_t) : bool := match find_method 0 text methods with Some _ => true | None => false end.

(** The subscriber that is notified, and its arguments. *)
Definition notify (mode : grouping) (methods : list method_t) (r : request) : code + nat * list external :=
  match find_method 0 (method r) methods with
  | None => inl (error.unexpected_method : code)
  | Some (n, m) => match notify_method mode m (params r) with inl ec => inl ec | inr xs => inr (n, xs) end
  end.

(** ** Types *)

(** A default has the type of its parameter, and an argument that of its. *)
Definition declared (a : argument) : Prop := match a with optional_of t d | nullopt t d => holds t d = true | _ => True end.

Definition typed (a : argument) (x : external) : Prop := match x with given v => holds (internal a) v = true | unset => exists t, a = nullable t end.

Lemma get_missing_typed a x : declared a -> get_missing a = inr x -> typed a x.
Proof. destruct a; cbn; intros Hd [= <-]; try done. by eexists. Qed.

Lemma get_value_typed a v x : declared a -> get_value a v = inr x -> typed a x.
Proof.
  intros Hd Hx. assert (get_nullified a = inr x \/ get_valued a v = inr x) as [Hn | Hv] by (destruct v; auto).
  - destruct a; cbn in Hn; try discriminate; injection Hn as <-; try done. by eexists.
  - unfold get_valued in Hv. unfold typed. destruct (internal a) eqn:Ht.
    all: destruct v; cbn in Hv; try discriminate; try (by injection Hv as <-).
    destruct (as_pointer _ _) eqn:Hp; [by injection Hv as <- | discriminate].
Qed.

Lemma positionals_typed args array xs rest : Forall declared args -> positionals args array = inr (xs, rest) -> Forall2 typed args xs.
Proof.
  intros Hd. revert array xs rest. induction Hd as [| a args Ha _ IH]; intros array xs rest; cbn [positionals]; [by intros [= <- <-] |].
  destruct (get_positional a array) as [[e | x] array'] eqn:Hg; [done |]. destruct (positionals args array') as [e | [ys rest']] eqn:Hp; [done |]. intros [= <- <-].
  constructor; [| by apply (IH array' ys rest')]. destruct array as [| v array]; injection Hg as Hg _; [by apply get_missing_typed | by apply (get_value_typed a v)].
Qed.

Lemma named_typed args names object xs : Forall declared args -> length names = length args -> named args names object = inr xs -> Forall2 typed args xs.
Proof.
  intros Hd. revert names xs. induction Hd as [| a args Ha _ IH]; intros [| n names] xs Hl; cbn [named]; try done; [by intros [= <-] |].
  destruct (get_named a n object) as [e | x] eqn:Hg; [done |]. destruct (named args names object) as [e | ys] eqn:Hn; [done |]. intros [= <-].
  constructor; [| apply (IH names); [by injection Hl | done]]. unfold get_named in Hg. destruct (find n object) as [v |]; [by apply (get_value_typed a v) | by apply get_missing_typed].
Qed.

Definition well_declared (m : method_t) : Prop := Forall declared (parameters m) /\ length (parameter_names m) = length (parameters m).

Lemma extract_typed mode m p xs : well_declared m -> extract mode (parameters m) (parameter_names m) p = inr xs -> Forall2 typed (parameters m) xs.
Proof.
  intros [Hd Hl].
  assert (forall xs, extract_positional (parameters m) p = inr xs -> Forall2 typed (parameters m) xs) as Hpos.
  { intros ys. unfold extract_positional. destruct (get_array p); [done |]. destruct (positionals (parameters m) l) as [e | [zs [| v rest]]] eqn:Hp; try done. intros [= <-]. by apply (positionals_typed _ l _ []). }
  assert (forall xs, extract_named (parameters m) (parameter_names m) p = inr xs -> Forall2 typed (parameters m) xs) as Hnam.
  { intros ys. unfold extract_named. destruct (get_object p); [done |]. destruct (_ <? _)%nat; [done |]. by apply named_typed. }
  destruct mode; cbn [extract]; [apply Hpos | apply Hnam | destruct p as [[| |] |]; [apply Hnam | apply Hpos | apply Hnam | apply Hpos]].
Qed.

Lemma find_method_in n text methods k m : find_method n text methods = Some (k, m) -> (n <= k)%nat /\ methods !! (k - n)%nat = Some m /\ name m = text.
Proof.
  revert n. induction methods as [| m0 methods IH]; intros n; cbn [find_method]; [done |]. case_bool_decide as Hn.
  - intros [= <- <-]. by rewrite Nat.sub_diag.
  - intros Hf. destruct (IH (S n) Hf) as (Hle & Hi & Ht). split_and!; [lia | | done]. replace (k - n)%nat with (S (k - S n)) by lia. done.
Qed.

(** *** The two groupings *)

(** The object of an array of values, with the names of the parameters. *)
Lemma find_zip {A} (name : bytes) (names : list bytes) (l : list A) i : names !! i = Some name -> NoDup names -> find name (zip names l) = l !! i.
Proof.
  revert names i. induction l as [| v l IH]; intros names i Hi Hd; [by destruct names |]. destruct names as [| n names]; [done |]. apply NoDup_cons in Hd as [Hn Hd]. cbn [zip_with find].
  destruct i as [| i]; [injection Hi as ->; by rewrite bool_decide_eq_true_2 |]. cbn in Hi. rewrite bool_decide_eq_false_2; [by apply IH |].
  intros ->. apply Hn. by apply list_elem_of_lookup_2 in Hi.
Qed.

Lemma find_permutation {A} k (l l' : list (bytes * A)) : l ≡ₚ l' -> NoDup (map fst l) -> find k l = find k l'.
Proof.
  induction 1 as [| [n v] l l' _ IH | [n v] [n' v'] l | l l' l'' H1 IH1 H2 IH2]; cbn; intros Hd; [done | | |].
  - apply NoDup_cons in Hd as [_ Hd]. case_bool_decide; auto.
  - apply NoDup_cons in Hd as [Hn _]. apply not_elem_of_cons in Hn as [Hn _]. repeat case_bool_decide; congruence.
  - rewrite IH1 by done. apply IH2. by rewrite <- H1.
Qed.

(** The named arguments from a position on are those of the elements that remain. *)
Lemma named_positionals args names object all i l :
  (forall k n, names !! k = Some n -> find n object = all !! (i + k)%nat) -> l = drop i all -> length names = length args ->
  match positionals args l with inl e => named args names object = inl e | inr (xs, _) => named args names object = inr xs end.
Proof.
  revert names i l. induction args as [| a args IH]; intros [| n names] i l Hf Hl Hlen; try done. cbn [positionals named].
  pose proof (Hf 0%nat n eq_refl) as H0. rewrite Nat.add_0_r in H0. unfold get_named. rewrite H0.
  assert (get_positional a l = (match all !! i with None => get_missing a | Some v => get_value a v end, drop (S i) all)) as ->.
  { subst l. destruct (all !! i) as [v |] eqn:Hv; [by rewrite (drop_S all v i Hv) |]. apply lookup_ge_None in Hv. by rewrite !drop_ge by lia. }
  destruct (match all !! i with None => _ | Some v => _ end) as [e | x]; [done |].
  specialize (IH names (S i) (drop (S i) all)). destruct (positionals args (drop (S i) all)) as [e | [xs rest]].
  - rewrite IH; [done | | done | by injection Hlen]. intros k m Hk. rewrite Nat.add_succ_comm. by apply Hf.
  - rewrite IH; [done | | done | by injection Hlen]. intros k m Hk. rewrite Nat.add_succ_comm. by apply Hf.
Qed.

Lemma positionals_rest args l xs rest : positionals args l = inr (xs, rest) -> rest = drop (length args) l.
Proof.
  revert l xs. induction args as [| a args IH]; intros l xs; cbn [positionals]; [by intros [= <- <-] |].
  destruct l as [| v l]; cbn [get_positional].
  - destruct (get_missing a); [done |]. destruct (positionals args []) as [| [ys rest']] eqn:Hp; [done |]. intros [= <- <-]. rewrite (IH [] ys Hp). by rewrite !drop_nil.
  - destruct (get_value a v); [done |]. destruct (positionals args l) as [| [ys rest']] eqn:Hp; [done |]. intros [= <- <-]. apply (IH l ys Hp).
Qed.

Lemma map_fst_zip {A B} (l : list A) (k : list B) : map fst (zip l k) = take (length k) l.
Proof. revert k. induction l as [| x l IH]; intros [| y k]; cbn; try done. by rewrite IH. Qed.

(** C28: a request is dispatched to the method of its name with arguments of the
    types that the method declares: an argument is a value of its type, a default,
    or unset if it is nullable, in either grouping.  No request notifies a
    subscriber with a value of another type. *)
Theorem rpc_dispatch_typed (mode : grouping) (methods : list method_t) (r : request) (n : nat) (xs : list external)
  (Hm : Forall well_declared methods) (Hr : notify mode methods r = inr (n, xs)) :
  exists m, methods !! n = Some m /\ name m = method r /\ Forall2 typed (parameters m) xs.
Proof.
  unfold notify in Hr. destruct (find_method 0 (method r) methods) as [[k m] |] eqn:Hf; [| done]. apply find_method_in in Hf as (_ & Hi & Hn). rewrite Nat.sub_0_r in Hi.
  unfold notify_method in Hr. destruct (extract mode (parameters m) (parameter_names m) (params r)) as [e | ys] eqn:He; [done |]. injection Hr as <- <-.
  exists m. split_and!; [done | done |]. apply (extract_typed mode m (params r)); [| done]. rewrite Forall_lookup in Hm. by apply (Hm k).
Qed.

(** The arguments that are named are those of the same values by position,
    failures included, whatever the order of the members: values from the first,
    of which the rest are missing. *)
Theorem rpc_named_positional (args : list argument) (names : list bytes) (l : list value) (object : list (bytes * value))
  (Hd : NoDup names) (Hn : length names = length args) (Hl : (length l <= length args)%nat) (Ho : object ≡ₚ zip names l) :
  extract_named args names (Some (object_params object)) = extract_positional args (Some (array_params l)).
Proof.
  unfold extract_named, extract_positional. cbn [get_object get_array].
  assert (length object = length l) as Hlo by (rewrite Ho, length_zip_with; lia). rewrite Hlo, (proj2 (Nat.ltb_ge _ _)) by lia.
  assert (NoDup (map fst object)) as Hdo.
  { assert (map fst object ≡ₚ map fst (zip names l)) as -> by (by rewrite Ho). rewrite map_fst_zip. apply (sublist_NoDup _ names); [done | apply sublist_take]. }
  pose proof (named_positionals args names object l 0 l) as Hx. destruct (positionals args l) as [e | [xs rest]] eqn:Hp.
  - apply Hx; [| by rewrite drop_0 | done]. intros k n Hk. rewrite (find_permutation n object (zip names l) Ho Hdo). by apply find_zip.
  - rewrite Hx; [| | by rewrite drop_0 | done].
    + apply positionals_rest in Hp as ->. by rewrite drop_ge by lia.
    + intros k n Hk. rewrite (find_permutation n object (zip names l) Ho Hdo). by apply find_zip.
Qed.

(** A name that is no parameter is accepted, while there are as many parameters as members. *)
Lemma unknown_name_accepted t d v w : get_value (plain t) v = inr (given v) ->
  extract_named [plain t; optional_of t d] [chars "a"; chars "b"] (Some (object_params [(chars "a", v); (chars "c", w)])) = inr [given v; given d].
Proof.
  intros Hv. unfold extract_named. cbn [get_object length named]. change (2 <? 2)%nat with false. cbn iota. unfold get_named. cbn [find].
  rewrite bool_decide_eq_true_2 by done. rewrite Hv. by rewrite !bool_decide_eq_false_2 by done.
Qed.

End dispatch.

(** ** An instance: one type of pointers *)
#[local] Existing Instances integers.

#[local] Instance pointers : Any := {| pointee := unit; as_pointer _ _ := true |}.

Definition example_methods : list method_t := [
  mk_method (chars "block.get") [plain string_type; nullable number_type; optional_of boolean_type (boolean_t true)] [chars "hash"; chars "height"; chars "raw"];
  mk_method (chars "ping") [] []].

Definition example_call : request := mk_request v2 (Some (code_id 1)) (chars "block.get") (Some (object_params [(chars "height", null_t); (chars "hash", string_t (chars "00ff"))])).

Lemma rpc_dispatch_typed_witness : exists m, example_methods !! 0%nat = Some m /\ name m = chars "block.get" /\ Forall2 typed (parameters m) [given (string_t (chars "00ff")); unset; given (boolean_t true)].
Proof.
  refine (rpc_dispatch_typed either example_methods example_call 0 _ _ _).
  - constructor; [split; [repeat constructor | reflexivity] |]. constructor; [split; [constructor | reflexivity] | constructor].
  - vm_compute. reflexivity.
Defined.

Lemma rpc_named_positional_witness :
  extract_named [plain string_type; nullable number_type] [chars "hash"; chars "height"] (Some (object_params [(chars "height", null_t); (chars "hash", string_t (chars "00ff"))])) =
  extract_positional [plain string_type; nullable number_type] (Some (array_params [string_t (chars "00ff"); null_t])).
Proof.
  refine (rpc_named_positional _ _ _ _ _ _ _ _).
  - apply (bool_decide_eq_true_1 _). vm_compute. reflexivity.
  - reflexivity.
  - cbn. lia.
  - apply Permutation_swap.
Defined.
End rpc_dispatch.
