(* ===== verification/IoNative.v ===== *)
(** * IoNative: the errors and addresses of the system

    Models [src/io/native.cpp] as it is built on posix systems: the errors of
    the system with their network codes, socket addresses, and the creation of
    sockets.  A call of the system is its result, which is an argument. *)

From S2P Require Import Prelude.
From S2P Require Import Errors.

Module native.

(** ** Errors *)

(** The values of [errno] that the code names; [EWOULDBLOCK] is [EAGAIN]. *)
Inductive native :=
  | no_error
  | ECANCELED | ECONNABORTED | EAFNOSUPPORT | EDESTADDRREQ | EADDRINUSE | EISCONN | EALREADY | EINPROGRESS | EADDRNOTAVAIL | ENETDOWN | ENETUNREACH
  | EHOSTUNREACH | ECONNREFUSED | EAGAIN | ESHUTDOWN | ENETRESET | ENOPROTOOPT | ENOTCONN | ENOTSOCK | EPROTONOSUPPORT | EPROTOTYPE | EPIPE
  | ECONNRESET | EBADF | EMSGSIZE | EFAULT | EINTR | EINVAL | ENAMETOOLONG | EMFILE | ENOMEM | ENOBUFS | EACCES | EOPNOTSUPP | EPERM | ETIMEDOUT
  | other_error (n : Z).

#[global] Instance native_eq_dec : EqDecision native.
Proof. solve_decision. Defined.

Definition is_would_block (n : native) : bool := bool_decide (n = EAGAIN).
Definition is_in_progress (n : native) : bool := bool_decide (n = EINPROGRESS).

Definition to_code (n : native) : code :=
  match n with
  | no_error => error.success
  | ECANCELED | ECONNABORTED => error.operation_canceled
  | EAFNOSUPPORT | EDESTADDRREQ => error.resolve_failed
  | EADDRINUSE | EISCONN | EALREADY | EINPROGRESS => error.address_in_use
  | EADDRNOTAVAIL | ENETDOWN | ENETUNREACH => error.net_unreachable
  | EHOSTUNREACH => error.host_unreachable
  | ECONNREFUSED => error.connection_refused
  | EAGAIN => error.would_block
  | ESHUTDOWN | ENETRESET | ENOPROTOOPT | ENOTCONN | ENOTSOCK | EPROTONOSUPPORT | EPROTOTYPE | EPIPE => error.connect_failed
  | ECONNRESET => error.peer_disconnect
  | EBADF | EMSGSIZE => error.bad_stream
  | EFAULT | EINTR | EINVAL | ENAMETOOLONG | EMFILE | ENOMEM => error.invalid_configuration
  | ENOBUFS => error.insufficient_buffer
  | EACCES | EOPNOTSUPP | EPERM => error.not_allowed
  | ETIMEDOUT => error.channel_timeout
  | other_error _ => error.unknown
  end.

(** Only the absence of an error is a success. *)
Lemma to_code_failed n : failed (to_code n) = negb (bool_decide (n = no_error)).
Proof. by destruct n. Qed.

(** ** Addresses *)

Inductive ip_address := ipv4 (bytes : bytes) | ipv6 (bytes : bytes).

Record endpoint := mk_endpoint { address : ip_address; port : Z }.

(** The families of [sockaddr]. *)
Inductive family := AF_UNSPEC | AF_INET | AF_INET6 | other_family (n : Z).

Record socket_address := mk_address { sin_family : family; sin_port : Z; sin_addr : bytes; size : Z }.

(** The size of [sockaddr_in] and of [sockaddr_in6]. *)
Definition sockaddr_in_size : Z := 16.
Definition sockaddr_in6_size : Z := 28.

(** The order of bytes of the network, on a host that is little endian. *)
Definition htons (p : Z) : Z := Z.lor (Z.shiftl (Z.land p 255) 8) (Z.shiftr p 8).
Definition ntohs : Z -> Z := htons.

Definition to_socket_address (point : endpoint) : socket_address :=
  match address point with
  | ipv6 l => mk_address AF_INET6 (htons (port point)) l sockaddr_in6_size
  | ipv4 l => mk_address AF_INET (htons (port point)) l sockaddr_in_size
  end.

(** An address of another family is the endpoint that libbitcoin-system constructs by default. *)
Definition to_endpoint (unspecified : endpoint) (a : socket_address) : endpoint :=
  match sin_family a with
  | AF_INET6 => mk_endpoint (ipv6 (sin_addr a)) (ntohs (sin_port a))
  | AF_INET => mk_endpoint (ipv4 (sin_addr a)) (ntohs (sin_port a))
  | _ => unspecified
  end.

Lemma htons_bits p i : 0 <= i -> 0 <= p < 2 ^ 16 -> Z.testbit (htons p) i = if i <? 8 then Z.testbit p (i + 8) else (i <? 16) && Z.testbit p (i - 8).
Proof.
  intros Hi Hp. unfold htons. rewrite Z.lor_spec, Z.shiftl_spec, Z.land_spec, Z.shiftr_spec by lia.
  assert (forall j, 16 <= j -> Z.testbit p j = false) as Hhigh.
  { intros j Hj. destruct (Z.eq_dec p 0) as [-> | Hn]; [apply Z.bits_0 |]. apply Z.bits_above_log2; [lia |]. assert (Z.log2 p < 16) by (apply Z.log2_lt_pow2; lia). lia. }
  change 255 with (Z.ones 8). destruct (Z.ltb_spec i 8).
  - rewrite (Z.testbit_neg_r p (i - 8)) by lia. by rewrite andb_false_l.
  - rewrite (Hhigh (i + 8)) by lia. rewrite orb_false_r. destruct (Z.ltb_spec i 16).
    + rewrite Z.ones_spec_low by lia. by rewrite andb_true_r.
    + rewrite Z.ones_spec_high by lia. by rewrite andb_false_r.
Qed.

Lemma htons_involutive p : 0 <= p < 2 ^ 16 -> htons (htons p) = p.
Proof.
  intros Hp. assert (0 <= htons p < 2 ^ 16) as Hh.
  { assert (0 <= htons p) as Hn by (unfold htons; apply Z.lor_nonneg; split; [apply Z.shiftl_nonneg, Z.land_nonneg; lia | apply Z.shiftr_nonneg; lia]).
    split; [done |]. destruct (Z.eq_dec (htons p) 0) as [-> | Hz]; [lia |]. apply Z.log2_lt_pow2; [lia |].
    destruct (Z.lt_ge_cases (Z.log2 (htons p)) 16) as [? | Hge]; [done |]. exfalso.
    assert (Z.testbit (htons p) (Z.log2 (htons p)) = true) as Hb by (apply Z.bit_log2; lia).
    rewrite htons_bits in Hb by lia. rewrite (proj2 (Z.ltb_ge _ 8)), (proj2 (Z.ltb_ge _ 16)) in Hb by lia. done. }
  apply Z.bits_inj'. intros i Hi. rewrite (htons_bits (htons p) i) by lia. destruct (Z.ltb_spec i 8).
  - rewrite htons_bits, (proj2 (Z.ltb_ge _ 8)), (proj2 (Z.ltb_lt (i + 8) 16)) by lia. cbn [andb]. f_equal. lia.
  - destruct (Z.ltb_spec i 16); cbn [andb].
    + rewrite htons_bits, (proj2 (Z.ltb_lt (i - 8) 8)) by lia. f_equal. lia.
    + symmetry. destruct (Z.eq_dec p 0) as [-> | Hn]; [apply Z.bits_0 |]. apply Z.bits_above_log2; [lia |].
      assert (Z.log2 p < 16) by (apply Z.log2_lt_pow2; lia). lia.
Qed.

(** An endpoint is had from its socket address. *)
Lemma to_endpoint_to_socket_address unspecified point : 0 <= port point < 2 ^ 16 -> to_endpoint unspecified (to_socket_address point) = point.
Proof. destruct point as [[l | l] p]; intros Hp; cbn in *; unfold to_endpoint, ntohs; cbn; by rewrite htons_involutive. Qed.

(** ** Sockets *)

(** [::socket] gives a handle or an error, the two calls of [fcntl] an error or
    none; a socket that is not made nonblocking is closed. *)
Definition create_socket {H : Type} (socket : native + H) (flags : native) : native + H :=
  match socket with
  | inl n => inl n
  | inr h => if bool_decide (flags = no_error) then inr h else inl flags
  end.

End native.
