(* ===== verification/IoBackend.v ===== *)
(** * IoBackend: the reactor

    Models [src/io/backend_posix.cpp] (its epoll branch), [backend.hpp] and
    [backend.cpp]: descriptors, their queues of operations, and the threads that
    wait for events.  Each section under a lock, and each call of the system, is a
    step, and the steps of threads and callers interleave in every order.  The
    system is a parameter: a socket of it is what answers calls, and epoll reports
    the changes of its readiness.  The posted handlers are those of [IoScheduler]. *)

From stdpp Require Import functions.
From S2P Require Import Prelude.
From S2P Require Import Errors.
From S2P Require Import IoNative.

Module backend.
Import native.

(** ** The system *)

(** [operation::kind] *)
Inductive kind := read | write | accept | connect.

#[global] Instance kind_eq_dec : EqDecision kind.
Proof. solve_decision. Defined.

(** The queue of an operation, and the readiness that completes it. *)
Inductive side := reading | writing.

#[global] Instance side_eq_dec : EqDecision side.
Proof. solve_decision. Defined.

Definition side_of (k : kind) : side := match k with read | accept => reading | write | connect => writing end.

(** What the calls of [perform] answer: a count of bytes; a connection, with the
    errors of what makes it nonblocking and of its registration; the poll of a
    connect that is in progress, or its result; and an error. *)
Inductive answer {socket : Type} :=
  | transferred (n : Z)
  | accepted (h : Z) (s : socket) (flags control : native)
  | unwritable
  | writable (result : native)
  | errs (n : native).
Arguments answer : clear implicits.

(** [answers k s a s']: the call of an operation of this kind on the socket [s]
    can answer [a] and leave the socket as [s'].  [ready] is what epoll sees. *)
Class System := {
  socket : Type;
  target : Type;
  ready : side -> socket -> bool;
  answers : kind -> socket -> answer socket -> socket -> bool;
  connects : target -> socket -> native -> socket -> bool
}.

Definition is_blocked {A} (a : answer A) : bool := match a with unwritable => true | errs n => is_would_block n | _ => false end.

(** A call that would block finds a socket that is not ready. *)
Class SystemLaws `{System} : Prop := {
  blocked_unready k s a s' : answers k s a s' = true -> is_blocked a = true -> ready (side_of k) s' = false
}.

Section backend.
Context `{Sys : System}.

(** ** The state *)

Record operation := mk_operation { id : nat; type : kind; owner : nat; peer : nat; address : option target; requested : Z; op_cancels : nat; op_bytes : Z; op_ec : code }.

(** The atomic parts of a call of the backend on a descriptor. *)
Inductive part :=
  | starts (op : operation)
  | enqueues (op : operation)
  | bumps
  | drains
  | erases
  | shuts
  | invalidates.

(** [calls]: what its caller has still to do of the call it is in. *)
Record descriptor := mk_descriptor { handle : Z; v6 : bool; bound : bool; cancels : nat; key : nat; reads : list operation; writes : list operation; calls : list part }.

Definition invalid_socket : Z := -1.

Definition make_descriptor : descriptor := mk_descriptor invalid_socket false false 0 0 [] [] [].

(** A thread is in a wait, has the events of one, or has found the descriptor of an event. *)
Definition event : Type := nat * (bool * bool).

Inductive place := waiting | handling (events : list event) | found (d : nat) (e : bool * bool) (events : list event).

(** What is completed: at its start, or from a queue. *)
Inductive completion := at_once (op : operation) | queued (op : operation).

(** [sockets], [polled] and [edges] are of the system: its open sockets, the keys
    that they are polled with, and the changes that no wait has returned.
    [enqueued] records the operations that reach their queue. *)
Record t := mk { descriptors : nat -> descriptor; registered : gmap nat nat; next_key_ : nat; completed : list completion; enqueued : list operation;
  sockets : gmap Z socket; polled : gmap Z nat; edges : gmap nat (bool * bool); threads : nat -> place }.

Definition set_descriptors f (x : t) : t := mk f (registered x) (next_key_ x) (completed x) (enqueued x) (sockets x) (polled x) (edges x) (threads x).
Definition set_registered r (x : t) : t := mk (descriptors x) r (next_key_ x) (completed x) (enqueued x) (sockets x) (polled x) (edges x) (threads x).
Definition set_next_key n (x : t) : t := mk (descriptors x) (registered x) n (completed x) (enqueued x) (sockets x) (polled x) (edges x) (threads x).
Definition set_completed l (x : t) : t := mk (descriptors x) (registered x) (next_key_ x) l (enqueued x) (sockets x) (polled x) (edges x) (threads x).
Definition set_enqueued l (x : t) : t := mk (descriptors x) (registered x) (next_key_ x) (completed x) l (sockets x) (polled x) (edges x) (threads x).
Definition set_sockets m (x : t) : t := mk (descriptors x) (registered x) (next_key_ x) (completed x) (enqueued x) m (polled x) (edges x) (threads x).
Definition set_polled m (x : t) : t := mk (descriptors x) (registered x) (next_key_ x) (completed x) (enqueued x) (sockets x) m (edges x) (threads x).
Definition set_edges m (x : t) : t := mk (descriptors x) (registered x) (next_key_ x) (completed x) (enqueued x) (sockets x) (polled x) m (threads x).
Definition set_threads f (x : t) : t := mk (descriptors x) (registered x) (next_key_ x) (completed x) (enqueued x) (sockets x) (polled x) (edges x) f.

Definition set_descriptor (d : nat) (y : descriptor) (x : t) : t := set_descriptors (<[d := y]> (descriptors x)) x.
Definition set_thread (n : nat) (p : place) (x : t) : t := set_threads (<[n := p]> (threads x)) x.
Definition complete (l : list completion) (x : t) : t := set_completed (completed x ++ l) x.

Definition set_socket (h : Z) (six bnd : bool) (k : nat) (y : descriptor) : descriptor := mk_descriptor h six bnd (cancels y) k (reads y) (writes y) (calls y).
Definition set_cancels (n : nat) (y : descriptor) : descriptor := mk_descriptor (handle y) (v6 y) (bound y) n (key y) (reads y) (writes y) (calls y).
Definition set_calls (l : list part) (y : descriptor) : descriptor := mk_descriptor (handle y) (v6 y) (bound y) (cancels y) (key y) (reads y) (writes y) l.

Definition queue (s : side) (y : descriptor) : list operation := match s with reading => reads y | writing => writes y end.
Definition set_queue (s : side) (l : list operation) (y : descriptor) : descriptor :=
  match s with
  | reading => mk_descriptor (handle y) (v6 y) (bound y) (cancels y) (key y) l (writes y) (calls y)
  | writing => mk_descriptor (handle y) (v6 y) (bound y) (cancels y) (key y) (reads y) l (calls y)
  end.

(** ** The events of the system *)

Definition flag (s : side) (e : bool * bool) : bool := match s with reading => e.1 | writing => e.2 end.

Definition join (e e' : bool * bool) : bool * bool := (e.1 || e'.1, e.2 || e'.2).

Definition add_edge (k : nat) (e : bool * bool) (x : t) : t :=
  if e.1 || e.2 then set_edges (<[k := join e (default (false, false) (edges x !! k))]> (edges x)) x else x.

(** A side that becomes ready is reported once. *)
Definition change (h : Z) (s s' : socket) (x : t) : t :=
  let x := set_sockets (<[h := s']> (sockets x)) x in
  let became c := negb (ready c s) && ready c s' in
  match polled x !! h with Some k => add_edge k (became reading, became writing) x | None => x end.

(** [::close] frees the handle, and ends its polling. *)
Definition close_socket (h : Z) (x : t) : t :=
  let x := set_sockets (delete h (sockets x)) x in
  match polled x !! h with
  | Some k => set_edges (delete k (edges x)) (set_polled (delete h (polled x)) x)
  | None => x
  end.

(** ** Results *)

(** The failure of an operation that started before a cancel is the cancel. *)
Definition set_result (ec : code) (bytes : Z) (op : operation) (x : t) : operation :=
  let canceled := negb (op_cancels op =? cancels (descriptors x (owner op)))%nat in
  let ec := if failed ec && canceled then error.operation_canceled : code else ec in
  mk_operation (id op) (type op) (owner op) (peer op) (address op) (requested op) (op_cancels op) (if failed ec then 0 else bytes) ec.

Definition cancel_result (op : operation) : operation :=
  mk_operation (id op) (type op) (owner op) (peer op) (address op) (requested op) (op_cancels op) 0 error.operation_canceled.

Definition set_op_cancels (n : nat) (op : operation) : operation :=
  mk_operation (id op) (type op) (owner op) (peer op) (address op) (requested op) n (op_bytes op) (op_ec op).

(** ** Descriptors *)

(** The registration of a descriptor with the handle it has, which is polled
    unless the system refuses it. *)
Definition add (d : nat) (control : native) (x : t) : native * t :=
  let y := descriptors x d in
  let k := next_key_ x in
  let x := set_descriptor d (set_socket (handle y) (v6 y) (bound y) k y) (set_registered (<[k := d]> (registered x)) (set_next_key (S k) x)) in
  if bool_decide (control = no_error) then
    let x := set_polled (<[handle y := k]> (polled x)) x in
    (no_error, match sockets x !! handle y with Some s => add_edge k (ready reading s, ready writing s) x | None => x end)
  else (control, set_registered (delete k (registered x)) x).

Definition invalidate (d : nat) (x : t) : t :=
  let y := descriptors x d in set_descriptor d (set_socket invalid_socket (v6 y) (bound y) (key y) y) x.

(** The system gives a handle that it has not given. *)
Definition is_free (h : Z) (x : t) : bool := (0 <=? h) && bool_decide (sockets x !! h = None) && bool_decide (polled x !! h = None).

Definition adopt (d : nat) (h : Z) (six : bool) (control : native) (x : t) : native * t :=
  let y := descriptors x d in
  let x := set_descriptor d (set_socket h six true (key y) y) x in
  let '(n, x) := add d control x in
  if bool_decide (n = no_error) then (n, x) else (n, invalidate d x).

Definition open (d : nat) (six : bool) (created : native + Z * socket) (control : native) (x : t) : native * t :=
  match created with
  | inl n => (n, x)
  | inr (h, s) =>
    let y := descriptors x d in
    let x := set_descriptor d (set_socket h six false (key y) y) (set_sockets (<[h := s]> (sockets x)) x) in
    let '(n, x) := add d control x in
    if bool_decide (n = no_error) then (n, x) else (n, invalidate d (close_socket h x))
  end.

(** ** Operations *)

(** A descriptor that neither is open nor is used: what an accept is given. *)
Definition is_unused (y : descriptor) : bool :=
  bool_decide (handle y = invalid_socket) && bool_decide (length (reads y ++ writes y) = 0%nat) && bool_decide (length (calls y) = 0%nat).

(** What a call on a descriptor gives: its result, that it would block, or that it is repeated. *)
Inductive attempt := gives (op : operation) (x : t) | blocks (x : t) | repeats (x : t) | cannot.

(** An error of a call. *)
Definition fails (op : operation) (n : native) (x : t) : attempt :=
  if bool_decide (type op = accept /\ n = ECONNABORTED) then repeats x else
  if bool_decide (n = EINTR) then repeats x else
  if is_would_block n then blocks x else gives (set_result (to_code n) 0 op x) x.

(** The answer of the system to one call of [perform].  An accepted socket has a
    handle of its own, and the peer is the operation's until it completes. *)
Definition call (op : operation) (a : answer socket) (s' : socket) (x : t) : attempt :=
  let y := descriptors x (owner op) in
  match sockets x !! handle y with
  | None => match a with errs EBADF => fails op EBADF x | _ => cannot end
  | Some s =>
    if negb (answers (type op) s a s') then cannot else
    let x := change (handle y) s s' x in
    match type op, a with
    | read, transferred n => gives (set_result (if 0 <? n then error.success : code else error.peer_disconnect : code) (if 0 <? n then n else 0) op x) x
    | write, transferred n => gives (set_result error.success n op x) x
    | accept, accepted h s flags control =>
      if negb (is_free h x && is_unused (descriptors x (peer op)) && bool_decide (peer op <> owner op)) then cannot else
      let x := set_sockets (<[h := s]> (sockets x)) x in
      if bool_decide (flags = no_error) then
        let '(n, x) := adopt (peer op) h (v6 y) control x in
        if bool_decide (n = no_error) then gives (set_result error.success 0 op x) x
        else let x := close_socket h x in gives (set_result (to_code n) 0 op x) x
      else let x := close_socket h x in gives (set_result (to_code flags) 0 op x) x
    | connect, unwritable => blocks x
    | connect, writable n => gives (set_result (to_code n) 0 op x) x
    | _, errs n => fails op n x
    | _, _ => cannot
    end
  end.

(** The answers of the system to the calls of a step, in turn. *)
Definition oracle : Type := list (answer socket * socket).

(** [Some None]: the operation would block. *)
Fixpoint perform (op : operation) (l : oracle) (x : t) : option (option operation * oracle * t) :=
  match l with
  | [] => None
  | (a, s') :: l =>
    match call op a s' x with
    | gives op x => Some (Some op, l, x)
    | blocks x => Some (None, l, x)
    | repeats x => perform op l x
    | cannot => None
    end
  end.

Fixpoint perform_queue (q : list operation) (l : oracle) (x : t) : option (list operation * list operation * oracle * t) :=
  match q with
  | [] => Some ([], [], l, x)
  | op :: q =>
    match perform op l x with
    | None => None
    | Some (None, l, x) => Some ([], op :: q, l, x)
    | Some (Some op, l, x) =>
      match perform_queue q l x with Some (out, q, l, x) => Some (op :: out, q, l, x) | None => None end
    end
  end.

(** The queue of a side is performed, and what completes is returned by the wait. *)
Definition perform_side (c : side) (d : nat) (l : oracle) (x : t) : option (oracle * t) :=
  match perform_queue (queue c (descriptors x d)) l x with
  | None => None
  | Some (out, q, l, x) => Some (l, complete (map queued out) (set_descriptor d (set_queue c q (descriptors x d)) x))
  end.

Definition run_ready (d : nat) (e : bool * bool) (l : oracle) (x : t) : option (oracle * t) :=
  match (if e.1 then perform_side reading d l x else Some (l, x)) with
  | None => None
  | Some (l, x) => if e.2 then perform_side writing d l x else Some (l, x)
  end.

(** ** Starts *)

Definition is_transfer (k : kind) : bool := match k with read | write => true | _ => false end.

(** The answer to the connect of a start. *)
Definition start (op : operation) (d : nat) (connected : native * option socket) (x : t) : option t :=
  let op := set_op_cancels (cancels (descriptors x d)) op in
  let finish ec x := Some (complete [at_once (set_result ec 0 op x)] x) in
  let enqueue x := let y := descriptors x d in Some (set_descriptor d (set_calls (enqueues op :: calls y) y) x) in
  if is_transfer (type op) && (requested op =? 0) then finish error.success x else
  match type op, address op with
  | connect, None => None
  | connect, Some a =>
    let h := handle (descriptors x d) in
    match sockets x !! h, connected with
    | None, (EBADF, None) => finish (to_code EBADF) x
    | Some s, (n, Some s') =>
      if negb (connects a s n s') then None else
      let x := change h s s' x in
      if bool_decide (n = no_error) then finish error.success x else
      if is_in_progress n then enqueue x else finish (to_code n) x
    | _, _ => None
    end
  | _, _ => enqueue x
  end.

(** Under the lock of the descriptor: an operation that can complete now does,
    unless others wait. *)
Definition enqueue (op : operation) (d : nat) (l : oracle) (x : t) : option (oracle * t) :=
  let c := side_of (type op) in
  let x := set_enqueued (enqueued x ++ [op]) x in
  let push x := let y := descriptors x d in set_descriptor d (set_queue c (queue c y ++ [op]) y) x in
  if bool_decide (length (queue c (descriptors x d)) = 0%nat) then
    match perform op l x with
    | None => None
    | Some (Some op, l, x) => Some (l, complete [queued op] x)
    | Some (None, l, x) => Some (l, push x)
    end
  else Some (l, push x).

(** ** Steps *)

Definition pop_call (d : nat) (x : t) : t := let y := descriptors x d in set_descriptor d (set_calls (tail (calls y)) y) x.

(** The next part of the call that a descriptor is in. *)
Definition run_part (d : nat) (connected : native * option socket) (l : oracle) (x : t) : option (oracle * t) :=
  let y := descriptors x d in
  match calls y with
  | [] => None
  | p :: _ =>
    let x := pop_call d x in
    match p with
    | starts op => match start op d connected x with Some x => Some (l, x) | None => None end
    | enqueues op => enqueue op d l x
    | bumps => let y := descriptors x d in Some (l, set_descriptor d (set_cancels (S (cancels y)) y) x)
    | drains =>
      let y := descriptors x d in
      Some (l, complete (map queued (map cancel_result (reads y ++ writes y))) (set_descriptor d (set_queue writing [] (set_queue reading [] y)) x))
    | erases => Some (l, set_registered (delete (key (descriptors x d)) (registered x)) x)
    | shuts => Some (l, close_socket (handle (descriptors x d)) x)
    | invalidates => let y := descriptors x d in Some (l, set_descriptor d (set_socket invalid_socket (v6 y) false (key y) y) x)
    end
  end.

(** The calls of the owner of a descriptor that is open. *)
Inductive request := start_request (op : operation) | cancel_request | close_request.

Definition parts (r : request) : list part :=
  match r with
  | start_request op => [starts op]
  | cancel_request => [bumps; drains]
  | close_request => [bumps; drains; erases; shuts; invalidates]
  end.

Definition is_open (y : descriptor) : bool := negb (bool_decide (handle y = invalid_socket)).

(** The events that a wait returns: of sockets that are polled, with what changed
    and still is so. *)
Definition is_event (x : t) (e : event) : bool :=
  match edges x !! e.1 with
  | None => false
  | Some c => forallb (fun p => negb (bool_decide (p.2 = e.1)) ||
      match sockets x !! p.1 with
      | Some s => forallb (fun side => negb (flag side c && ready side s) || flag side e.2) [reading; writing]
      | None => false
      end) (map_to_list (polled x))
  end.

Definition max_events : nat := 64.

Inductive move :=
  | moves_system (h : Z) (s' : socket)
  | polls (n : nat) (events : list event)
  | looks (n : nat)
  | readies (n : nat) (l : oracle)
  | opens (d : nat) (six : bool) (created : native + Z * socket) (control : native)
  | requests (d : nat) (r : request)
  | continues (d : nat) (connected : native * option socket) (l : oracle).

Definition fits (d : nat) (r : request) : bool := match r with start_request op => bool_decide (owner op = d) | _ => true end.

Definition fresh_socket (created : native + Z * socket) (x : t) : bool := match created with inl n => negb (bool_decide (n = no_error)) | inr (h, _) => is_free h x end.

Definition step (m : move) (x : t) : option t :=
  match m with
  | moves_system h s' => match sockets x !! h with Some s => Some (change h s s' x) | None => None end
  | polls n events =>
    match threads x n with
    | waiting =>
      if (length events <=? max_events)%nat && bool_decide (NoDup (map fst events)) && forallb (is_event x) events
      then Some (set_thread n (handling events) (set_edges (foldr (fun e m => delete e.1 m) (edges x) events) x)) else None
    | _ => None
    end
  | looks n =>
    match threads x n with
    | handling [] => Some (set_thread n waiting x)
    | handling ((k, e) :: events) => Some (set_thread n (match registered x !! k with Some d => found d e events | None => handling events end) x)
    | _ => None
    end
  | readies n l =>
    match threads x n with
    | found d e events => match run_ready d e l x with Some ([], x) => Some (set_thread n (handling events) x) | _ => None end
    | _ => None
    end
  | opens d six created control =>
    let y := descriptors x d in
    if is_unused y && fresh_socket created x then Some (open d six created control x).2 else None
  | requests d r =>
    let y := descriptors x d in
    if is_open y && bool_decide (length (calls y) = 0%nat) && fits d r then Some (set_descriptor d (set_calls (parts r) y) x) else None
  | continues d connected l => match run_part d connected l x with Some ([], x) => Some x | _ => None end
  end.

Definition initial : t := mk (fun _ => make_descriptor) ∅ 1 [] [] ∅ ∅ ∅ (fun _ => waiting).

Definition run (moves : list move) (x : t) : option t := fold_left (fun x m => match x with Some x => step m x | None => None end) moves (Some x).

Definition reachable (x : t) : Prop := exists moves, run moves initial = Some x.

(** ** Well formed states *)

Definition drained (l : list part) : bool := match l with (erases | shuts | invalidates) :: _ => true | _ => false end.
Definition erased (l : list part) : bool := match l with (shuts | invalidates) :: _ => true | _ => false end.
Definition shut (l : list part) : bool := match l with invalidates :: _ => true | _ => false end.

(** Where the caller of a descriptor is. *)
Inductive phase (d : nat) : list part -> Prop :=
  | phase_idle : phase d []
  | phase_start op : owner op = d -> phase d [starts op]
  | phase_enqueue op : owner op = d -> phase d [enqueues op]
  | phase_cancel : phase d [bumps; drains]
  | phase_drain : phase d [drains]
  | phase_close : phase d [bumps; drains; erases; shuts; invalidates]
  | phase_close_drain : phase d [drains; erases; shuts; invalidates]
  | phase_erase : phase d [erases; shuts; invalidates]
  | phase_shut : phase d [shuts; invalidates]
  | phase_invalidate : phase d [invalidates].

(** A descriptor with a handle that the system has not closed. *)
Definition live (y : descriptor) : bool := is_open y && negb (shut (calls y)).

Definition of_side (d : nat) (c : side) (op : operation) : Prop := owner op = d /\ side_of (type op) = c.

Record wf (x : t) : Prop := {
  wf_phase d : phase d (calls (descriptors x d));
  wf_polled d : live (descriptors x d) = true -> is_Some (sockets x !! handle (descriptors x d)) /\ polled x !! handle (descriptors x d) = Some (key (descriptors x d));
  wf_registered d : live (descriptors x d) = true -> erased (calls (descriptors x d)) = false -> registered x !! key (descriptors x d) = Some d;
  wf_handles d d' : live (descriptors x d) = true -> live (descriptors x d') = true -> handle (descriptors x d) = handle (descriptors x d') -> d = d';
  wf_keys d d' : live (descriptors x d) = true -> live (descriptors x d') = true -> key (descriptors x d) = key (descriptors x d') -> d = d';
  wf_next d : live (descriptors x d) = true -> (key (descriptors x d) < next_key_ x)%nat;
  wf_closed d c : is_open (descriptors x d) = false \/ drained (calls (descriptors x d)) = true -> queue c (descriptors x d) = [];
  wf_idle d : is_open (descriptors x d) = false -> calls (descriptors x d) = [];
  wf_sides d c : Forall (of_side d c) (queue c (descriptors x d))
}.

(** *** Descriptors of a state *)

Lemma set_descriptor_at d y x : descriptors (set_descriptor d y x) d = y.
Proof. apply fn_lookup_insert. Qed.

Lemma set_descriptor_other d d' y x : d <> d' -> descriptors (set_descriptor d y x) d' = descriptors x d'.
Proof. apply fn_lookup_insert_ne. Qed.

Lemma queue_set_queue c c' l y : queue c (set_queue c' l y) = if bool_decide (c = c') then l else queue c y.
Proof. by destruct c, c'. Qed.

Lemma set_queue_fields c l y : handle (set_queue c l y) = handle y /\ key (set_queue c l y) = key y /\ calls (set_queue c l y) = calls y.
Proof. by destruct c. Qed.

Lemma backend_live_open y : live y = true -> is_open y = true.
Proof. unfold live. by intros [? _]%andb_true_iff. Qed.

Lemma is_unused_spec y : is_unused y = true <-> handle y = invalid_socket /\ reads y = [] /\ writes y = [] /\ calls y = [].
Proof.
  unfold is_unused. rewrite !andb_true_iff, !bool_decide_eq_true. rewrite length_app. split.
  - intros [[-> Hq] Hc]. destruct (reads y), (writes y), (calls y); cbn in *; try lia. done.
  - intros (-> & -> & -> & ->). done.
Qed.

Lemma unused_closed y : is_unused y = true -> is_open y = false /\ live y = false.
Proof. intros (Hh & _)%is_unused_spec. unfold live, is_open. by rewrite Hh. Qed.

(** A descriptor keeps its handle and its key. *)
Lemma wf_update x d y : wf x -> handle y = handle (descriptors x d) -> key y = key (descriptors x d) -> phase d (calls y) ->
  (live y = true -> live (descriptors x d) = true) -> (erased (calls y) = false -> erased (calls (descriptors x d)) = false) ->
  (is_open y = false -> calls y = []) ->
  (forall c, is_open y = false \/ drained (calls y) = true -> queue c y = []) -> (forall c, Forall (of_side d c) (queue c y)) -> wf (set_descriptor d y x).
Proof.
  intros [W1 W2 W3 W4 W5 W6 W7 W8 W9] Hh Hk Hp Hl He Hi Hd Hs.
  assert (forall d', handle (descriptors (set_descriptor d y x) d') = handle (descriptors x d') /\ key (descriptors (set_descriptor d y x) d') = key (descriptors x d') /\
    (live (descriptors (set_descriptor d y x) d') = true -> live (descriptors x d') = true)) as Hsame.
  { intros d'. destruct (decide (d = d')) as [<- | Hn]; [by rewrite set_descriptor_at | by rewrite set_descriptor_other]. }
  split; intros d'; intros.
  - destruct (decide (d = d')) as [<- | Hn]; [by rewrite set_descriptor_at | by rewrite set_descriptor_other].
  - destruct (Hsame d') as (-> & -> & Hl'). auto.
  - destruct (Hsame d') as (_ & -> & Hl'). apply W3; [auto |]. destruct (decide (d = d')) as [<- | Hn]; [rewrite set_descriptor_at in *; auto | by rewrite set_descriptor_other in *].
  - destruct (Hsame d') as (E1 & _ & L1), (Hsame d'0) as (E2 & _ & L2). apply W4; [auto | auto | congruence].
  - destruct (Hsame d') as (_ & E1 & L1), (Hsame d'0) as (_ & E2 & L2). apply W5; [auto | auto | congruence].
  - destruct (Hsame d') as (_ & -> & L1). by apply W6, L1.
  - destruct (decide (d = d')) as [<- | Hn]; [rewrite set_descriptor_at in *; auto | rewrite set_descriptor_other in *; auto].
  - destruct (decide (d = d')) as [<- | Hn]; [rewrite set_descriptor_at in *; auto | rewrite set_descriptor_other in *; auto].
  - destruct (decide (d = d')) as [<- | Hn]; [rewrite set_descriptor_at in *; auto | rewrite set_descriptor_other in *; auto].
Qed.

(** What states have to share to be well formed alike: a descriptor that is not
    used may change, while it is not used. *)
Record alike (x x' : t) : Prop := {
  alike_used d : is_unused (descriptors x d) = false -> descriptors x' d = descriptors x d;
  alike_unused d : is_unused (descriptors x d) = true -> is_unused (descriptors x' d) = true;
  alike_registered k : (k < next_key_ x)%nat -> registered x' !! k = registered x !! k;
  alike_next : (next_key_ x <= next_key_ x')%nat;
  alike_sockets h : is_Some (sockets x !! h) -> is_Some (sockets x' !! h);
  alike_polled h : polled x' !! h = polled x !! h
}.

Lemma unused_fields y : is_unused y = true -> is_open y = false /\ live y = false /\ calls y = [] /\ forall c, queue c y = [].
Proof. intros Hu. destruct (unused_closed y Hu) as [H1 H2]. apply is_unused_spec in Hu as (_ & Hr & Hw & Hc). split_and!; try done. by intros []. Qed.

Lemma wf_alike x x' : wf x -> alike x x' -> wf x'.
Proof.
  intros [] [A1 A2 A3 A4 A5 A6].
  assert (forall d, descriptors x' d = descriptors x d \/ is_unused (descriptors x' d) = true) as Hd.
  { intros d. destruct (is_unused (descriptors x d)) eqn:Hu; [right; auto | left; auto]. }
  assert (forall d, live (descriptors x' d) = true -> descriptors x' d = descriptors x d) as Hl.
  { intros d Hl. destruct (Hd d) as [? | Hu]; [done |]. apply unused_fields in Hu as (_ & ? & _). congruence. }
  split; intros d.
  - destruct (Hd d) as [-> | Hu]; [done |]. apply unused_fields in Hu as (_ & _ & -> & _). constructor.
  - intros L. pose proof (Hl d L) as E. rewrite E in L |- *. rewrite A6. destruct (wf_polled0 d L). auto.
  - intros L He. pose proof (Hl d L) as E. rewrite E in L, He |- *. rewrite A3; auto.
  - intros d' L L'. pose proof (Hl d L) as E. pose proof (Hl d' L') as E'. rewrite E in L |- *. rewrite E' in L' |- *. auto.
  - intros d' L L'. pose proof (Hl d L) as E. pose proof (Hl d' L') as E'. rewrite E in L |- *. rewrite E' in L' |- *. auto.
  - intros L. pose proof (Hl d L) as E. rewrite E in L |- *. apply (Nat.lt_le_trans _ (next_key_ x)); auto.
  - intros c Hc. destruct (Hd d) as [He | Hu]; [rewrite He in *; auto |]. by apply unused_fields in Hu as (_ & _ & _ & Hq).
  - intros Hc. destruct (Hd d) as [He | Hu]; [rewrite He in *; auto |]. by apply unused_fields in Hu as (_ & _ & ? & _).
  - intros c. destruct (Hd d) as [He | Hu]; [rewrite He in *; auto |]. apply unused_fields in Hu as (_ & _ & _ & Hq). rewrite Hq. constructor.
Qed.

Lemma wf_same x x' : wf x -> (forall d, descriptors x' d = descriptors x d) -> registered x' = registered x -> next_key_ x' = next_key_ x ->
  (forall h, is_Some (sockets x !! h) -> is_Some (sockets x' !! h)) -> polled x' = polled x -> wf x'.
Proof. intros Hw Hd Hr Hn Hs Hp. apply (wf_alike x); [done |]. split; intros; rewrite ?Hd, ?Hr, ?Hn, ?Hp; auto. Qed.

Lemma add_edge_fields k e x : descriptors (add_edge k e x) = descriptors x /\ registered (add_edge k e x) = registered x /\ next_key_ (add_edge k e x) = next_key_ x /\
  sockets (add_edge k e x) = sockets x /\ polled (add_edge k e x) = polled x /\ completed (add_edge k e x) = completed x /\ enqueued (add_edge k e x) = enqueued x /\
  threads (add_edge k e x) = threads x.
Proof. unfold add_edge. by destruct (_ || _). Qed.

Lemma change_fields h s s' x : descriptors (change h s s' x) = descriptors x /\ registered (change h s s' x) = registered x /\ next_key_ (change h s s' x) = next_key_ x /\
  sockets (change h s s' x) = <[h := s']> (sockets x) /\ polled (change h s s' x) = polled x /\ completed (change h s s' x) = completed x /\
  enqueued (change h s s' x) = enqueued x /\ threads (change h s s' x) = threads x.
Proof.
  unfold change. cbn [polled set_sockets]. destruct (polled x !! h) as [k |]; [| by split_and!].
  destruct (add_edge_fields k (negb (ready reading s) && ready reading s', negb (ready writing s) && ready writing s') (set_sockets (<[h:=s']> (sockets x)) x))
    as (-> & -> & -> & -> & -> & -> & -> & ->). by split_and!.
Qed.

Lemma wf_change h s s' x : wf x -> wf (change h s s' x).
Proof.
  intros Hw. destruct (change_fields h s s' x) as (E1 & E2 & E3 & E4 & E5 & _). apply (wf_same x); try done; [by rewrite E1 |].
  intros h' Hs. rewrite E4. destruct (decide (h = h')) as [<- | Hn]; [by rewrite lookup_insert_eq | by rewrite lookup_insert_ne].
Qed.

(** A descriptor that was not used is registered with the handle of a new socket. *)
Record joins (p : nat) (h : Z) (x x' : t) : Prop := {
  joins_unused : is_unused (descriptors x p) = true;
  joins_free : is_free h x = true;
  joins_open : handle (descriptors x' p) = h /\ key (descriptors x' p) = next_key_ x /\ calls (descriptors x' p) = [] /\ forall c, queue c (descriptors x' p) = [];
  joins_other d : d <> p -> descriptors x' d = descriptors x d;
  joins_registered : registered x' = <[next_key_ x := p]> (registered x);
  joins_next : next_key_ x' = S (next_key_ x);
  joins_sockets : is_Some (sockets x' !! h);
  joins_sockets_other h' : h' <> h -> sockets x' !! h' = sockets x !! h';
  joins_polled : polled x' = <[h := next_key_ x]> (polled x)
}.

Lemma is_free_spec h x : is_free h x = true <-> 0 <= h /\ sockets x !! h = None /\ polled x !! h = None.
Proof. unfold is_free. rewrite !andb_true_iff, !bool_decide_eq_true. rewrite Z.leb_le. tauto. Qed.

Lemma wf_joins p h x x' : wf x -> joins p h x x' -> wf x'.
Proof.
  intros [] [Hu (Hh & Hs & Hp)%is_free_spec (J1 & J2 & J3 & J4) Ho Hr Hn Hsk Hso Hpo].
  assert (live (descriptors x' p) = true) as Hlp.
  { unfold live, is_open. rewrite J1, J3. rewrite bool_decide_eq_false_2; [done |]. unfold invalid_socket. lia. }
  assert (forall d, d <> p -> live (descriptors x d) = true -> handle (descriptors x d) <> h /\ (key (descriptors x d) < next_key_ x)%nat) as Hold.
  { intros d _ Hl. split; [| auto]. intros He. destruct (wf_polled0 d Hl) as [[? ?] _]. congruence. }
  split; intros d.
  - destruct (decide (d = p)) as [-> | Hd]; [rewrite J3; constructor | by rewrite Ho].
  - destruct (decide (d = p)) as [-> | Hd]; [rewrite J1, J2, Hpo, lookup_insert_eq; done | rewrite (Ho d Hd)]. intros L.
    destruct (Hold d Hd L) as [Hne _]. rewrite Hso, Hpo, lookup_insert_ne by congruence. auto.
  - destruct (decide (d = p)) as [-> | Hd]; [by rewrite J2, Hr, lookup_insert_eq | rewrite (Ho d Hd)]. intros L He.
    destruct (Hold d Hd L) as [_ Hk]. rewrite Hr, lookup_insert_ne by lia. auto.
  - intros d'. destruct (decide (d = p)) as [-> | Hd], (decide (d' = p)) as [-> | Hd']; [done | rewrite J1, (Ho d' Hd') | rewrite J1, (Ho d Hd) | rewrite (Ho d Hd), (Ho d' Hd'); auto];
      intros L L' He; [destruct (Hold d' Hd' L') | destruct (Hold d Hd L)]; congruence.
  - intros d'. destruct (decide (d = p)) as [-> | Hd], (decide (d' = p)) as [-> | Hd']; [done | rewrite J2, (Ho d' Hd') | rewrite J2, (Ho d Hd) | rewrite (Ho d Hd), (Ho d' Hd'); auto];
      intros L L' He; [destruct (Hold d' Hd' L') | destruct (Hold d Hd L)]; lia.
  - rewrite Hn. destruct (decide (d = p)) as [-> | Hd]; [rewrite J2; lia | rewrite (Ho d Hd)]. intros L. destruct (Hold d Hd L). lia.
  - intros c. destruct (decide (d = p)) as [-> | Hd]; [done | rewrite (Ho d Hd); auto].
  - destruct (decide (d = p)) as [-> | Hd]; [done | rewrite (Ho d Hd); auto].
  - intros c. destruct (decide (d = p)) as [-> | Hd]; [rewrite J4; constructor | by rewrite (Ho d Hd)].
Qed.

Context {Laws : SystemLaws}.

(** *** What a step keeps of the rest of the state *)

Definition edged (x : t) (k : nat) (c : side) : Prop := exists e, edges x !! k = Some e /\ flag c e = true.

Record extends (x x' : t) : Prop := {
  extends_used d : is_unused (descriptors x d) = false -> descriptors x' d = descriptors x d;
  extends_unused d : is_unused (descriptors x d) = true -> calls (descriptors x' d) = [] /\ forall c, queue c (descriptors x' d) = [];
  extends_completed : completed x' = completed x;
  extends_enqueued : enqueued x' = enqueued x;
  extends_threads : threads x' = threads x;
  extends_edges k c : edged x k c -> edged x' k c;
  extends_polled h k : polled x !! h = Some k -> polled x' !! h = Some k;
  extends_sockets h s k : sockets x !! h = Some s -> polled x !! h = Some k ->
    exists s', sockets x' !! h = Some s' /\ forall c, ready c s' = true -> ready c s = true \/ edged x' k c
}.

Lemma backend_extends_refl x : extends x x.
Proof. split; try done; [intros d Hu; by apply unused_fields in Hu as (_ & _ & ? & ?) | intros h s k Hs Hk; exists s; auto]. Qed.

Lemma backend_extends_trans x y z : extends x y -> extends y z -> extends x z.
Proof.
  intros [A1 A2 A3 A4 A5 A6 A7 A8] [B1 B2 B3 B4 B5 B6 B7 B8]. split; intros; try congruence; auto.
  - rewrite B1; [auto |]. rewrite A1; auto.
  - destruct (A2 d ltac:(done)) as [Hc Hq]. destruct (is_unused (descriptors y d)) eqn:Hu; [by apply B2 | rewrite B1; auto].
  - destruct (A8 h s k) as (s1 & H1 & R1); [done | done |]. destruct (B8 h s1 k) as (s2 & H2 & R2); [done | auto |].
    exists s2. split; [done |]. intros c Hc. destruct (R2 c Hc) as [Hr | He]; [| by right]. destruct (R1 c Hr) as [? | He]; [by left | right; auto].
Qed.

Lemma edged_add x k e k' c : edged (add_edge k e x) k' c <-> edged x k' c \/ (k' = k /\ flag c e = true).
Proof.
  unfold edged, add_edge. destruct (e.1 || e.2) eqn:He.
  - cbn [edges set_edges]. destruct (decide (k = k')) as [<- | Hn].
    + rewrite lookup_insert_eq. destruct (edges x !! k) as [e0 |] eqn:Hk; cbn [default]; split.
      * intros (? & [= <-] & Hf). destruct c; cbn in *; apply orb_true_iff in Hf as [? | ?]; eauto.
      * intros [(? & [= <-] & Hf) | [_ Hf]]; eexists; (split; [done |]); destruct c; cbn in *; rewrite Hf; auto using orb_true_r.
      * intros (? & [= <-] & Hf). right. split; [done |]. destruct c; cbn in *; by rewrite orb_false_r in Hf.
      * intros [(? & ? & _) | [_ Hf]]; [done |]. eexists. split; [done |]. destruct c; cbn in *; by rewrite Hf.
    + rewrite lookup_insert_ne by done. split; [by left | by intros [? | [? _]]].
  - split; [by left |]. intros [? | [_ Hf]]; [done |]. apply orb_false_iff in He as [H1 H2]. destruct c; cbn in Hf; congruence.
Qed.

Lemma extends_change h s s' x : sockets x !! h = Some s -> extends x (change h s s' x).
Proof.
  intros Hs. destruct (change_fields h s s' x) as (E1 & E2 & E3 & E4 & E5 & E6 & E7 & E8).
  assert (forall k c, edged (change h s s' x) k c <-> edged x k c \/ (polled x !! h = Some k /\ negb (ready c s) && ready c s' = true)) as He.
  { intros k c. unfold change. cbn [polled set_sockets]. destruct (polled x !! h) as [k0 |].
    - rewrite edged_add. unfold edged. cbn [edges set_sockets]. destruct c; cbn [flag fst snd]; split; (intros [? | [? ?]]; [by left | right; split; congruence]).
    - split; [by left | by intros [? | [? _]]]. }
  split; rewrite ?E1, ?E5; auto.
  - intros d (_ & _ & ? & ?)%unused_fields. by split.
  - intros k c Hk. apply He. by left.
  - intros h' s0 k Hs0 Hk. rewrite E4. destruct (decide (h = h')) as [<- | Hn].
    + rewrite lookup_insert_eq. exists s'. split; [done |]. intros c Hc. assert (s0 = s) as -> by congruence.
      destruct (ready c s) eqn:Hr; [by left | right]. apply He. right. split; [done |]. by rewrite Hr, Hc.
    + rewrite lookup_insert_ne by done. exists s0. auto.
Qed.

Definition keeps (x x' : t) : Prop :=
  completed x' = completed x /\ enqueued x' = enqueued x /\ threads x' = threads x /\ forall k c, edged x k c -> edged x' k c.

Lemma joins_extends p h x x' : joins p h x x' -> keeps x x' -> extends x x'.
Proof.
  intros [Hu (_ & Hs & Hp)%is_free_spec (_ & _ & Hc & Hq) Ho _ _ _ Hso Hpo] (K1 & K2 & K3 & K4). split; try done.
  - intros d Hd. apply Ho. intros ->. congruence.
  - intros d Hd. destruct (decide (d = p)) as [-> | Hn]; [done |]. rewrite Ho by done. by apply unused_fields in Hd as (_ & _ & ? & ?).
  - intros h' k Hk. rewrite Hpo, lookup_insert_ne by congruence. done.
  - intros h' s k Hh _. exists s. split; [rewrite Hso by congruence; done | by left].
Qed.

Lemma alike_extends x x' : alike x x' -> keeps x x' -> (forall h, sockets x' !! h = sockets x !! h) -> extends x x'.
Proof.
  intros [A1 A2 A3 A4 A5 A6] (K1 & K2 & K3 & K4) Hs. split; try done.
  - intros d Hd. by destruct (unused_fields _ (A2 d Hd)) as (_ & _ & ? & ?).
  - intros h k. by rewrite A6.
  - intros h s k Hh _. exists s. rewrite Hs. split; [done | by left].
Qed.

(** The registration of a socket that is new. *)
Record refused (d : nat) (h : Z) (x x' : t) : Prop := {
  refused_other d' : d' <> d -> descriptors x' d' = descriptors x d';
  refused_calls : reads (descriptors x' d) = [] /\ writes (descriptors x' d) = [] /\ calls (descriptors x' d) = [];
  refused_registered k : (k < next_key_ x)%nat -> registered x' !! k = registered x !! k;
  refused_next : next_key_ x' = S (next_key_ x);
  refused_sockets h' : delete h (sockets x') !! h' = sockets x !! h';
  refused_polled : polled x' = polled x;
  refused_keeps : keeps x x'
}.

Lemma add_ok d h six bnd control s x : is_unused (descriptors x d) = true -> is_free h x = true ->
  let y := set_socket h six bnd (key (descriptors x d)) (descriptors x d) in
  let '(n, x') := add d control (set_descriptor d y (set_sockets (<[h := s]> (sockets x)) x)) in
  n = control /\ if bool_decide (control = no_error) then joins d h x x' /\ keeps x x' else refused d h x x'.
Proof.
  intros Hu Hf y. pose proof Hu as (_ & Hr & Hw & Hc)%is_unused_spec. unfold add. rewrite set_descriptor_at. destruct (bool_decide_reflect (control = no_error)) as [-> | Hn].
  - cbn [handle set_socket sockets set_polled set_descriptor set_descriptors set_registered set_next_key set_sockets y]. rewrite lookup_insert_eq. split; [done |].
    change (next_key_ (set_descriptor d y (set_sockets (<[h:=s]> (sockets x)) x))) with (next_key_ x).
    set (x1 := set_polled _ _). destruct (add_edge_fields (next_key_ x) (ready reading s, ready writing s) x1) as (E1 & E2 & E3 & E4 & E5 & E6 & E7 & E8). split.
    + split; [done | done | | | by rewrite E2 | by rewrite E3 | | | by rewrite E5].
      * rewrite E1. unfold x1. cbn [descriptors set_polled set_descriptor set_descriptors]. rewrite fn_lookup_insert. split_and!; try done. by intros [].
      * intros d' Hd. rewrite E1. unfold x1. cbn [descriptors set_polled set_descriptor set_descriptors set_registered set_next_key set_sockets]. by rewrite !fn_lookup_insert_ne.
      * rewrite E4. unfold x1. cbn [sockets set_polled set_descriptor set_descriptors set_registered set_next_key set_sockets]. by rewrite lookup_insert_eq.
      * intros h' Hh. rewrite E4. unfold x1. cbn [sockets set_polled set_descriptor set_descriptors set_registered set_next_key set_sockets]. by rewrite lookup_insert_ne.
    + unfold keeps. rewrite E6, E7, E8. split_and!; try done. intros k c Hk. apply edged_add. by left.
  - split; [done |]. split; try done.
    + intros d' Hd. cbn [descriptors set_registered set_descriptor set_descriptors set_next_key set_sockets]. by rewrite !fn_lookup_insert_ne.
    + cbn [descriptors set_registered set_descriptor set_descriptors set_next_key set_sockets]. by rewrite fn_lookup_insert.
    + intros k Hk. cbn [registered set_registered set_descriptor set_descriptors set_next_key set_sockets next_key_]. by rewrite lookup_delete_ne, lookup_insert_ne by lia.
    + intros h'. cbn [sockets set_registered set_descriptor set_descriptors set_next_key set_sockets]. apply is_free_spec in Hf as (_ & Hs & _).
      destruct (decide (h = h')) as [<- | Hne]; [by rewrite lookup_delete_eq | by rewrite lookup_delete_ne, lookup_insert_ne].
Qed.

Lemma close_socket_unpolled h x : polled x !! h = None -> close_socket h x = set_sockets (delete h (sockets x)) x.
Proof. intros Hp. unfold close_socket. cbn [polled set_sockets]. by rewrite Hp. Qed.

(** A socket that is refused is closed, and its descriptor invalidated, in either order. *)
Lemma refused_ok d h x x1 x2 : is_unused (descriptors x d) = true -> refused d h x x1 ->
  (forall d', d' <> d -> descriptors x2 d' = descriptors x1 d') -> is_unused (descriptors x2 d) = true ->
  registered x2 = registered x1 -> next_key_ x2 = next_key_ x1 -> sockets x2 = delete h (sockets x1) -> polled x2 = polled x1 -> keeps x1 x2 ->
  alike x x2 /\ extends x x2.
Proof.
  intros Hu [R1 R2 R3 R4 R5 R6 R7] H1 H2 H3 H4 H5 H6 H7.
  assert (alike x x2) as Ha.
  { split.
    - intros d' Hd. assert (d' <> d) by congruence. rewrite H1, R1; done.
    - intros d' Hd. destruct (decide (d' = d)) as [-> | Hn]; [done |]. by rewrite H1, R1.
    - intros k Hk. rewrite H3. auto.
    - lia.
    - intros h'. by rewrite H5, R5.
    - intros h'. by rewrite H6, R6. }
  split; [done |]. apply alike_extends; [done | | intros h'; by rewrite H5, R5].
  destruct R7 as (K1 & K2 & K3 & K4), H7 as (K5 & K6 & K7 & K8). unfold keeps. split_and!; try congruence. auto.
Qed.

Definition is_result (op op' : operation) : Prop := id op' = id op /\ type op' = type op /\ owner op' = owner op.

Definition unready (op : operation) (x : t) : Prop := forall s, sockets x !! handle (descriptors x (owner op)) = Some s -> ready (side_of (type op)) s = false.

Definition attempted (op : operation) (x : t) (r : attempt) : Prop :=
  match r with
  | gives op' x' => wf x' /\ extends x x' /\ is_result op op'
  | repeats x' => wf x' /\ extends x x'
  | blocks x' => wf x' /\ extends x x' /\ unready op x'
  | cannot => True
  end.

Lemma set_result_is ec n op x : is_result op (set_result ec n op x).
Proof. done. Qed.

Lemma fails_attempted op n x x' : wf x' -> extends x x' -> (is_would_block n = true -> unready op x') -> attempted op x (fails op n x').
Proof.
  intros Hw He Hu. unfold fails. repeat case_bool_decide; try by split_and!. destruct (is_would_block n); split_and!; auto using set_result_is.
Qed.

Lemma is_unused_invalidated y h six bnd k : reads y = [] -> writes y = [] -> calls y = [] -> h = invalid_socket -> is_unused (set_socket h six bnd k y) = true.
Proof. intros Hr Hw Hc ->. apply is_unused_spec. by split_and!. Qed.

(** The accept of a connection. *)
Lemma adopt_ok p h six control s x : wf x -> is_unused (descriptors x p) = true -> is_free h x = true ->
  let '(n, x') := adopt p h six control (set_sockets (<[h := s]> (sockets x)) x) in
  let x' := if bool_decide (n = no_error) then x' else close_socket h x' in wf x' /\ extends x x'.
Proof.
  intros Hw Hu Hf. unfold adopt. cbn [descriptors set_sockets]. pose proof (add_ok p h six true control s x Hu Hf) as Hadd. cbn zeta in Hadd.
  destruct (add p control _) as [n x1]. destruct Hadd as [-> Hadd]. destruct (bool_decide_reflect (control = no_error)) as [-> | Hn].
  - destruct Hadd as [Hj Hk]. cbn [bool_decide]. rewrite bool_decide_eq_true_2 by done. split; [by apply (wf_joins p h x) | by apply (joins_extends p h)].
  - rewrite bool_decide_eq_false_2 by done. pose proof Hadd as [R1 (R2 & R2' & R2'') R3 R4 R5 R6 R7].
    assert (polled x1 !! h = None) as Hp by (rewrite R6; by apply is_free_spec in Hf as (_ & _ & ?)).
    rewrite close_socket_unpolled by done.
    destruct (refused_ok p h x x1 (set_sockets (delete h (sockets (invalidate p x1))) (invalidate p x1)) Hu Hadd) as [Ha He]; try done.
    + intros d Hd. cbn [descriptors set_sockets]. unfold invalidate. by rewrite set_descriptor_other.
    + cbn [descriptors set_sockets]. unfold invalidate. rewrite set_descriptor_at. by apply is_unused_invalidated.
    + split; [by apply (wf_alike x) | done].
Qed.

Lemma wf_quiet_socket h s x : wf x -> is_free h x = true -> wf (close_socket h (set_sockets (<[h := s]> (sockets x)) x)) /\ extends x (close_socket h (set_sockets (<[h := s]> (sockets x)) x)).
Proof.
  intros Hw (_ & Hs & Hp)%is_free_spec. rewrite close_socket_unpolled by done. cbn [sockets set_sockets].
  assert (delete h (<[h := s]> (sockets x)) = sockets x) as -> by (by rewrite delete_insert_eq, delete_id).
  split; [by apply (wf_same x) | destruct x; apply backend_extends_refl].
Qed.

Lemma call_attempted op a s' x : wf x -> attempted op x (call op a s' x).
Proof.
  intros Hw. unfold call. destruct (sockets x !! handle (descriptors x (owner op))) as [s |] eqn:Hs.
  2: { destruct a; try done. destruct n; try done. by apply fails_attempted; [done | apply backend_extends_refl |]. }
  destruct (answers (type op) s a s') eqn:Ha; [| done]. cbn [negb].
  set (h := handle (descriptors x (owner op))) in *. set (x' := change h s s' x).
  assert (wf x') as Hw' by (by apply wf_change). assert (extends x x') as He by (by apply extends_change).
  assert (is_blocked a = true -> unready op x') as Hu.
  { intros Hb s0. destruct (change_fields h s s' x) as (E1 & _ & _ & E4 & _). unfold x'. rewrite E1, E4. fold h. rewrite lookup_insert_eq. intros [= <-].
    by apply (blocked_unready (type op) s a). }
  destruct (type op) eqn:Ht, a as [n | h' s0 flags control | | n | n]; try done; try (apply fails_attempted; auto); try (split_and!; auto; apply set_result_is).
  destruct (is_free h' x' && _ && _) eqn:Hok; [| done]. apply andb_true_iff in Hok as [[Hf Hun]%andb_true_iff _]. cbn [negb].
  destruct (bool_decide (flags = no_error)).
  - pose proof (adopt_ok (peer op) h' (v6 (descriptors x (owner op))) control s0 x' Hw' Hun Hf) as Hj. destruct (adopt _ _ _ _ _) as [n x2].
    destruct (bool_decide (n = no_error)); destruct Hj as [H1 H2]; (split_and!; [done | by apply (backend_extends_trans _ x') | apply set_result_is]).
  - destruct (wf_quiet_socket h' s0 x' Hw' Hf) as [H1 H2]. split_and!; [done | by apply (backend_extends_trans _ x') | apply set_result_is].
Qed.

Lemma perform_ok op l x r l' x' : wf x -> perform op l x = Some (r, l', x') ->
  wf x' /\ extends x x' /\ match r with Some op' => is_result op op' | None => unready op x' end.
Proof.
  revert x. induction l as [| [a s'] l IH]; intros x Hw; cbn [perform]; [done |]. pose proof (call_attempted op a s' x Hw) as Hc.
  destruct (call op a s' x) as [op' x1 | x1 | x1 |]; [| | | done].
  - intros [= <- <- <-]. done.
  - intros [= <- <- <-]. done.
  - intros Hp. destruct Hc as [Hw1 He1]. destruct (IH x1 Hw1 Hp) as (H1 & H2 & H3). split_and!; [done | by apply (backend_extends_trans _ x1) | done].
Qed.

Lemma perform_queue_ok q l x out q' l' x' : wf x -> perform_queue q l x = Some (out, q', l', x') ->
  wf x' /\ extends x x' /\ exists q1, q = q1 ++ q' /\ Forall2 is_result q1 out /\ (forall op q2, q' = op :: q2 -> unready op x').
Proof.
  revert l x out q' l' x'. induction q as [| op q IH]; intros l x out q' l' x' Hw; cbn [perform_queue].
  - intros [= <- <- <- <-]. split_and!; [done | apply backend_extends_refl |]. exists []. by split_and!.
  - destruct (perform op l x) as [[[r l1] x1] |] eqn:Hp; [| done]. destruct (perform_ok op l x r l1 x1 Hw Hp) as (Hw1 & He1 & Hr). destruct r as [op' |].
    + destruct (perform_queue q l1 x1) as [[[[out1 q1] l2] x2] |] eqn:Hq; [| done]. intros [= <- <- <- <-].
      destruct (IH l1 x1 out1 q1 l2 x2 Hw1 Hq) as (Hw2 & He2 & q3 & -> & Hf & Hu). split_and!; [done | by apply (backend_extends_trans _ x1) |].
      exists (op :: q3). split_and!; [done | by constructor | done].
    + intros [= <- <- <- <-]. split_and!; [done | done |]. exists []. split_and!; [done | constructor |]. intros op0 q2 [= <- <-]. done.
Qed.

(** ** Wake-ups *)

(** An event in the hands of a thread. *)
Definition carries (p : place) (k d : nat) (c : side) : Prop :=
  match p with
  | waiting => False
  | handling events => exists e, (k, e) ∈ events /\ flag c e = true
  | found d' e' events => (d' = d /\ flag c e' = true) \/ exists e, (k, e) ∈ events /\ flag c e = true
  end.

(** What will perform a side of a descriptor: a change that no wait has returned,
    a thread, or a cancel. *)
Definition wake (T : nat -> place) (x : t) (d : nat) (c : side) : Prop :=
  edged x (key (descriptors x d)) c \/ (exists n, carries (T n) (key (descriptors x d)) d c) \/ drains ∈ calls (descriptors x d).

Definition exempt (d : nat) (f : side -> bool) (d' : nat) (c : side) : Prop := d' = d /\ f c = true.

Definition wakes (T : nat -> place) (P : nat -> side -> Prop) (x : t) : Prop :=
  forall d c s, ~ P d c -> queue c (descriptors x d) <> [] -> sockets x !! handle (descriptors x d) = Some s -> ready c s = true -> wake T x d c.

Definition no_one (d : nat) (c : side) : Prop := False.

Lemma queue_used d c x : queue c (descriptors x d) <> [] -> is_unused (descriptors x d) = false.
Proof. intros Hq. destruct (is_unused (descriptors x d)) eqn:Hu; [| done]. by apply unused_fields in Hu as (_ & _ & _ & ?); destruct Hq. Qed.

(** A descriptor with operations has a socket of its own, that is polled and registered. *)
Lemma queue_live d c x : wf x -> queue c (descriptors x d) <> [] -> live (descriptors x d) = true /\ drained (calls (descriptors x d)) = false.
Proof.
  intros [] Hq. unfold live. destruct (is_open (descriptors x d)) eqn:Ho; [| by destruct Hq; apply wf_closed0; left].
  destruct (drained (calls (descriptors x d))) eqn:Hd; [by destruct Hq; apply wf_closed0; right |]. split; [| done].
  destruct (wf_phase0 d); done.
Qed.

Lemma wakes_extends T P x x' : wf x -> wakes T P x -> extends x x' -> wakes T P x'.
Proof.
  intros Hw Hk [X1 X2 _ _ _ X6 X7 X8] d c s Hp Hq Hs Hr.
  assert (is_unused (descriptors x d) = false) as Hu by (destruct (is_unused (descriptors x d)) eqn:Hu; [by destruct (X2 d Hu) as [_ Hx]; destruct Hq | done]).
  rewrite (X1 d Hu) in Hq, Hs. destruct (queue_live d c x Hw Hq) as [Hl _]. destruct (wf_polled x Hw d Hl) as [[s0 Hs0] Hpo].
  destruct (X8 _ s0 _ Hs0 Hpo) as (s1 & Hs1 & Hor). assert (s1 = s) as -> by congruence. unfold wake. rewrite (X1 d Hu).
  destruct (Hor c Hr) as [Hr0 | He]; [| by left]. destruct (Hk d c s0 Hp Hq Hs0 Hr0) as [He | Hrest]; [left; auto | by right].
Qed.

(** A descriptor is replaced, and the operations it has are those it had, or are not ready. *)
Lemma wakes_update T P P' x d y : wakes T P x -> handle y = handle (descriptors x d) -> key y = key (descriptors x d) ->
  (drains ∈ calls (descriptors x d) -> drains ∈ calls y \/ forall c, queue c y = []) ->
  (forall d' c, d' <> d -> P d' c -> P' d' c) ->
  (forall c s, ~ P' d c -> queue c y <> [] -> sockets x !! handle y = Some s -> ready c s = true -> ~ P d c /\ queue c (descriptors x d) <> []) ->
  wakes T P' (set_descriptor d y x).
Proof.
  intros Hk Hh Hy Hd HP Hq d' c s Hp Hq' Hs Hr. destruct (decide (d = d')) as [<- | Hn].
  - rewrite set_descriptor_at in *. destruct (Hq c s Hp Hq' Hs Hr) as [Hp0 Hq0]. cbn [sockets set_descriptor set_descriptors] in Hs. rewrite Hh in Hs.
    destruct (Hk d c s Hp0 Hq0 Hs Hr) as [He | [Hc | Hdr]]; unfold wake; rewrite set_descriptor_at, Hy; [by left | by right; left | right; right].
    destruct (Hd Hdr) as [? | Hx]; [done | by destruct Hq'].
  - unfold wake. rewrite set_descriptor_other in * by done. apply (Hk d' c s); auto.
Qed.

(** ** The order of operations *)

#[local] Instance of_side_dec d c op : Decision (of_side d c op).
Proof. unfold of_side. apply _. Defined.

(** What is completed from a queue, and what has reached it. *)
Definition completed_of (d : nat) (c : side) (l : list completion) : list nat :=
  flat_map (fun z => match z with queued op => if bool_decide (of_side d c op) then [id op] else [] | at_once _ => [] end) l.

Definition enqueued_of (d : nat) (c : side) (l : list operation) : list nat :=
  flat_map (fun op => if bool_decide (of_side d c op) then [id op] else []) l.

Definition ids (l : list operation) : list nat := map id l.

(** The books of a state, but for operations that are about to be queued or completed. *)
Definition owes (l : list operation) (x : t) : Prop :=
  forall d c, completed_of d c (completed x) ++ ids (queue c (descriptors x d)) ++ enqueued_of d c l = enqueued_of d c (enqueued x).

Definition books (x : t) : Prop := owes [] x.

Lemma completed_app d c l l' : completed_of d c (l ++ l') = completed_of d c l ++ completed_of d c l'.
Proof. apply flat_map_app. Qed.

Lemma enqueued_app d c l l' : enqueued_of d c (l ++ l') = enqueued_of d c l ++ enqueued_of d c l'.
Proof. apply flat_map_app. Qed.

Lemma completed_side d c l : Forall (of_side d c) l -> forall d' c', completed_of d' c' (map queued l) = if bool_decide (d' = d /\ c' = c) then ids l else [].
Proof.
  intros Hl d' c'. induction Hl as [| op l Ho _ IH]; cbn; [by case_bool_decide |]. destruct Ho as [Ho Hc]. unfold completed_of in IH. rewrite IH.
  destruct (decide (d' = d /\ c' = c)) as [[-> ->] | Hn].
  - rewrite !bool_decide_eq_true_2 by done. done.
  - rewrite (bool_decide_eq_false_2 (of_side d' c' op)) by (intros [? ?]; apply Hn; split; congruence). by rewrite bool_decide_eq_false_2.
Qed.

Lemma is_result_sides d c q out : Forall (of_side d c) q -> Forall2 is_result q out -> Forall (of_side d c) out /\ ids out = ids q.
Proof.
  intros Hq Hf. induction Hf as [| op op' q out (Hi & Ht & Ho) _ IH]; [done |]. apply Forall_cons in Hq as [[H1 H2] Hq]. destruct (IH Hq) as [H3 H4].
  split; [constructor; [split; congruence | done] |]. unfold ids in *. cbn. by rewrite Hi, H4.
Qed.

Lemma owes_extends l x x' : owes l x -> extends x x' -> owes l x'.
Proof.
  intros Hb [X1 X2 X3 X4 _ _ _ _] d c. rewrite X3, X4, <- Hb. destruct (is_unused (descriptors x d)) eqn:Hu; [| by rewrite X1].
  destruct (X2 d Hu) as [_ ->]. by apply unused_fields in Hu as (_ & _ & _ & ->).
Qed.

(** A part of the queue of a side completes. *)
Lemma books_complete l x d c q1 q2 out : owes l x -> queue c (descriptors x d) = q1 ++ q2 -> Forall (of_side d c) q1 -> Forall2 is_result q1 out ->
  owes l (complete (map queued out) (set_descriptor d (set_queue c q2 (descriptors x d)) x)).
Proof.
  intros Hb Hq Hs Hf d' c'. destruct (is_result_sides d c q1 out Hs Hf) as [Ho Hi]. cbn [completed complete set_completed set_descriptor set_descriptors enqueued descriptors].
  rewrite completed_app, (completed_side d c out Ho), <- Hb. destruct (decide (d = d')) as [<- | Hn].
  - rewrite fn_lookup_insert, queue_set_queue. destruct (decide (c' = c)) as [-> | Hc].
    + rewrite !bool_decide_eq_true_2 by done. rewrite Hq, Hi. unfold ids. by rewrite map_app, !app_assoc.
    + rewrite (bool_decide_eq_false_2 (c' = c)) by done. rewrite bool_decide_eq_false_2 by (intros [_ ?]; done). by rewrite app_nil_r.
  - rewrite fn_lookup_insert_ne by done. rewrite bool_decide_eq_false_2 by (intros [? _]; congruence). by rewrite app_nil_r.
Qed.

(** *** The steps *)

Lemma wf_complete l x : wf x -> wf (complete l x).
Proof. intros Hw. by apply (wf_same x). Qed.

Lemma wf_set_queue x d c q : wf x -> Forall (of_side d c) q -> (is_open (descriptors x d) = false \/ drained (calls (descriptors x d)) = true -> q = []) ->
  wf (set_descriptor d (set_queue c q (descriptors x d)) x).
Proof.
  intros Hw Hf Hq. pose proof Hw as [W1 _ _ _ _ _ W7 W8 W9]. destruct (set_queue_fields c q (descriptors x d)) as (Eh & Ek & Ec).
  assert (is_open (set_queue c q (descriptors x d)) = is_open (descriptors x d)) as Eo by (unfold is_open; by rewrite Eh).
  apply wf_update; unfold live; rewrite ?Eh, ?Ek, ?Ec, ?Eo; auto.
  - intros c' Hc. rewrite queue_set_queue. destruct (bool_decide (c' = c)); auto.
  - intros c'. rewrite queue_set_queue. destruct (bool_decide_reflect (c' = c)) as [-> |]; auto.
Qed.

Lemma perform_side_ok T d f c l x l' x' : wf x -> wakes T (exempt d f) x -> books x -> perform_side c d l x = Some (l', x') ->
  wf x' /\ wakes T (exempt d (fun c' => f c' && negb (bool_decide (c' = c)))) x' /\ books x' /\ threads x' = threads x.
Proof.
  intros Hw Hk Hb. unfold perform_side. destruct (perform_queue _ l x) as [[[[out q'] l1] x1] |] eqn:Hp; [| done]. intros [= <- <-].
  destruct (perform_queue_ok _ _ _ _ _ _ _ Hw Hp) as (Hw1 & He1 & q1 & Hq & Hf & Hu).
  assert (queue c (descriptors x1 d) = q1 ++ q') as Hq1.
  { rewrite <- Hq. destruct (is_unused (descriptors x d)) eqn:Hun; [| by rewrite (extends_used _ _ He1)].
    destruct (extends_unused _ _ He1 d Hun) as [_ ->]. by apply unused_fields in Hun as (_ & _ & _ & ->). }
  pose proof (wf_sides _ Hw1 d c) as Hsides. rewrite Hq1 in Hsides. apply Forall_app in Hsides as [Hs1 Hs2]. split_and!.
  - apply wf_complete, wf_set_queue; [done | done |]. intros Hc. pose proof (wf_closed _ Hw1 d c Hc) as Hn. rewrite Hq1 in Hn. by apply app_eq_nil in Hn as [_ ->].
  - change (wakes T (exempt d (fun c' => f c' && negb (bool_decide (c' = c)))) (set_descriptor d (set_queue c q' (descriptors x1 d)) x1)).
    destruct (set_queue_fields c q' (descriptors x1 d)) as (Eh & Ek & Ec).
    apply (wakes_update T (exempt d f)); [by apply (wakes_extends T _ x) | done | done | rewrite Ec; by left | intros d' c' Hd [? _]; done |].
    intros c' s Hp' Hq' Hs Hr. rewrite queue_set_queue in Hq'. destruct (bool_decide_reflect (c' = c)) as [-> | Hc].
    + destruct q' as [| op q2]; [done |]. pose proof (Hu op q2 eq_refl s) as Hur. apply Forall_cons in Hs2 as [[Ho Hsd] _].
      rewrite Ho, Hsd in Hur. rewrite Eh in Hs. specialize (Hur Hs). congruence.
    + split; [| done]. intros [_ Hf']. apply Hp'. split; [done |]. by rewrite Hf', bool_decide_eq_false_2.
  - apply (books_complete [] x1 d c q1 q' out); [by apply (owes_extends [] x) | done | done | done].
  - exact (extends_threads _ _ He1).
Qed.

Lemma wakes_weaken T (P P' : nat -> side -> Prop) x : wakes T P x -> (forall d c, P d c -> P' d c) -> wakes T P' x.
Proof. intros Hk HP d c s Hp. apply Hk. auto. Qed.

Lemma run_ready_ok T d e l x l' x' : wf x -> wakes T (exempt d (fun c => flag c e)) x -> books x -> run_ready d e l x = Some (l', x') ->
  wf x' /\ wakes T no_one x' /\ books x' /\ threads x' = threads x.
Proof.
  intros Hw Hk Hb. unfold run_ready. destruct e as [r w]. cbn [fst snd]. destruct r.
  - destruct (perform_side reading d l x) as [[l1 x1] |] eqn:Hp; [| done]. destruct (perform_side_ok T d _ reading l x l1 x1 Hw Hk Hb Hp) as (Hw1 & Hk1 & Hb1 & Ht1). destruct w.
    + intros Hp2. destruct (perform_side_ok T d _ writing l1 x1 l' x' Hw1 Hk1 Hb1 Hp2) as (H1 & H2 & H3 & H4). split_and!; [done | | done | congruence].
      apply (wakes_weaken _ _ _ _ H2). intros d' c [_ Hc]. by destruct c.
    + intros [= <- <-]. split_and!; [done | | done | done]. apply (wakes_weaken _ _ _ _ Hk1). intros d' c [_ Hc]. by destruct c.
  - destruct w.
    + intros Hp2. destruct (perform_side_ok T d _ writing l x l' x' Hw Hk Hb Hp2) as (H1 & H2 & H3 & H4). split_and!; [done | | done | done].
      apply (wakes_weaken _ _ _ _ H2). intros d' c [_ Hc]. by destruct c.
    + intros [= <- <-]. split_and!; [done | | done | done]. apply (wakes_weaken _ _ _ _ Hk). intros d' c [_ Hc]. by destruct c.
Qed.

Definition sound (T : nat -> place) (x : t) : Prop := wf x /\ wakes T no_one x /\ books x.

Lemma backend_sound_extends T x x' : sound T x -> extends x x' -> wf x' -> sound T x'.
Proof. intros (Hw & Hk & Hb) He Hw'. split_and!; [done | by apply (wakes_extends T _ x) | by apply (owes_extends [] x)]. Qed.

Lemma enqueue_ok T op d l x l' x' : sound T x -> is_open (descriptors x d) = true -> calls (descriptors x d) = [] -> owner op = d ->
  enqueue op d l x = Some (l', x') -> sound T x' /\ threads x' = threads x.
Proof.
  intros (Hw & Hk & Hb) Ho Hc Hd. set (c := side_of (type op)). set (x0 := set_enqueued (enqueued x ++ [op]) x).
  assert (wf x0) as Hw0 by (by apply (wf_same x)). assert (wakes T no_one x0) as Hk0 by exact Hk. assert (of_side d c op) as Hside by done.
  assert (owes [op] x0) as Hb0.
  { intros d' c'. cbn [x0 completed enqueued descriptors set_enqueued]. rewrite enqueued_app, <- (Hb d' c'). cbn [enqueued_of flat_map]. rewrite !app_nil_r. by rewrite app_assoc. }
  assert (is_unused (descriptors x0 d) = false) as Hun by (destruct (is_unused (descriptors x0 d)) eqn:Hu; [apply unused_fields in Hu as (Hx & _); change (is_open (descriptors x d) = false) in Hx; congruence | done]).
  assert (forall y, wf y -> descriptors y d = descriptors x d -> owes [op] y -> wakes T no_one y -> (queue c (descriptors x d) = [] -> unready op y) ->
    sound T (set_descriptor d (set_queue c (queue c (descriptors y d) ++ [op]) (descriptors y d)) y)) as Hpush.
  { intros y Hwy Hdy Hby Hky Huy. split_and!.
    - apply wf_set_queue; [done | |]. { apply Forall_app. split; [apply wf_sides; done | by constructor]. } rewrite Hdy, Ho, Hc. by intros [? | ?].
    - destruct (set_queue_fields c (queue c (descriptors y d) ++ [op]) (descriptors y d)) as (Eh & Ek & Ec).
      apply (wakes_update T no_one); [done | done | done | rewrite Ec; by left | done |]. intros c' s _ Hq Hs Hr. split; [intros [] |].
      rewrite queue_set_queue in Hq. destruct (bool_decide_reflect (c' = c)) as [-> | Hne]; [| done]. rewrite Hdy. intros Hn. specialize (Huy Hn s).
      rewrite Hd in Huy. rewrite Eh in Hs. specialize (Huy Hs). unfold c in Hr. congruence.
    - intros d' c'. cbn [completed enqueued set_descriptor set_descriptors descriptors]. rewrite <- Hby. cbn [enqueued_of flat_map]. rewrite !app_nil_r. f_equal. destruct (decide (d = d')) as [<- | Hne].
      + rewrite fn_lookup_insert, queue_set_queue. destruct (bool_decide_reflect (c' = c)) as [-> | Hne].
        * rewrite bool_decide_eq_true_2 by done. unfold ids. by rewrite map_app.
        * rewrite bool_decide_eq_false_2 by (intros [_ ?]; unfold c in Hne; congruence). by rewrite app_nil_r.
      + rewrite fn_lookup_insert_ne by done. rewrite bool_decide_eq_false_2 by (intros [? _]; congruence). by rewrite app_nil_r. }
  unfold enqueue. fold c x0. destruct (bool_decide_reflect (length (queue c (descriptors x0 d)) = 0%nat)) as [Hl | Hl].
  - apply nil_length_inv in Hl. destruct (perform op l x0) as [[[r l1] x1] |] eqn:Hp; [| done]. destruct (perform_ok op l x0 r l1 x1 Hw0 Hp) as (Hw1 & He1 & Hr). pose proof (extends_used _ _ He1 d Hun) as Hd1.
    assert (owes [op] x1) as Hb1 by (by apply (owes_extends [op] x0)). assert (wakes T no_one x1) as Hk1 by (by apply (wakes_extends T _ x0)).
    destruct r as [op' |]; intros [= <- <-].
    + split; [| exact (extends_threads _ _ He1)]. split_and!; [by apply wf_complete | done |]. intros d' c'. cbn [completed complete set_completed descriptors enqueued]. rewrite completed_app, <- (Hb1 d' c'). destruct Hr as (Hi & Ht & How).
      cbn [completed_of flat_map enqueued_of]. rewrite !app_nil_r. assert (bool_decide (of_side d' c' op') = bool_decide (of_side d' c' op)) as -> by (apply bool_decide_ext; unfold of_side; by rewrite Ht, How).
      rewrite Hi. rewrite <- app_assoc. f_equal. destruct (bool_decide_reflect (of_side d' c' op)) as [[Hd' Hc'] | _]; [| by rewrite app_nil_r].
      subst d'. unfold c in Hl. rewrite Hd, Hd1. fold c in Hl. assert (c' = c) as -> by (by rewrite <- Hc'). by rewrite Hl.
    + split; [apply Hpush; auto | exact (extends_threads _ _ He1)].
  - intros [= <- <-]. split; [| done]. apply (Hpush x0); try done. intros Hn. destruct Hl. cbn [x0 descriptors set_enqueued]. by rewrite Hn.
Qed.

(** States that differ in how they were updated. *)
Lemma backend_sound_same T x x' : sound T x -> (forall d, descriptors x' d = descriptors x d) -> registered x' = registered x -> next_key_ x' = next_key_ x ->
  completed x' = completed x -> enqueued x' = enqueued x -> sockets x' = sockets x -> polled x' = polled x -> edges x' = edges x -> sound T x'.
Proof.
  intros (Hw & Hk & Hb) Hd Hr Hn Hc He Hs Hp Hg. split_and!.
  - apply (wf_same x); rewrite ?Hs; done.
  - intros d c s. unfold wake, edged. rewrite Hd, Hs, Hg. apply Hk.
  - intros d c. rewrite Hd, Hc, He. apply Hb.
Qed.

Lemma owes_update l x d y : owes l x -> (forall c, queue c y = queue c (descriptors x d)) -> owes l (set_descriptor d y x).
Proof.
  intros Hb Hq d' c. cbn [completed enqueued set_descriptor set_descriptors descriptors]. rewrite <- Hb.
  destruct (decide (d = d')) as [<- | Hn]; [by rewrite fn_lookup_insert, Hq | by rewrite fn_lookup_insert_ne].
Qed.

(** A descriptor with the same operations, elsewhere in its call. *)
Lemma sound_update T x d y : sound T x -> handle y = handle (descriptors x d) -> key y = key (descriptors x d) -> (forall c, queue c y = queue c (descriptors x d)) ->
  phase d (calls y) -> is_open (descriptors x d) = true -> (shut (calls y) = false -> shut (calls (descriptors x d)) = false) ->
  (erased (calls y) = false -> erased (calls (descriptors x d)) = false) -> (drained (calls y) = true -> drained (calls (descriptors x d)) = true) ->
  (drains ∈ calls (descriptors x d) -> drains ∈ calls y) -> sound T (set_descriptor d y x).
Proof.
  intros (Hw & Hk & Hb) Hh Hy Hq Hp Ho Hsh Her Hdr Hin. assert (is_open y = true) as Hoy by (unfold is_open in *; by rewrite Hh).
  split_and!; [| | by apply owes_update].
  - apply wf_update; auto; unfold live; rewrite ?Hoy, ?Ho; cbn [andb].
    + intros ->%negb_true_iff%Hsh. done.
    + done.
    + intros c [? | Hd]; [done |]. rewrite Hq. apply wf_closed; auto.
    + intros c. rewrite Hq. by apply wf_sides.
  - apply (wakes_update T no_one); auto. intros c s _ Hn _ _. rewrite <- Hq. split; [intros [] | done].
Qed.

Lemma finish_ok T op ec x : sound T x -> sound T (complete [at_once (set_result ec 0 op x)] x).
Proof. intros (Hw & Hk & Hb). split_and!; [by apply wf_complete | done |]. intros d' c. cbn [completed complete set_completed enqueued descriptors]. rewrite completed_app, <- (Hb d' c). by rewrite app_nil_r. Qed.

Lemma start_ok T op d connected x x' : sound T x -> is_open (descriptors x d) = true -> calls (descriptors x d) = [] -> owner op = d ->
  start op d connected x = Some x' -> sound T x' /\ threads x' = threads x.
Proof.
  intros Hx Ho Hc Hd. unfold start. set (op' := set_op_cancels _ op).
  assert (forall y, sound T y -> descriptors y d = descriptors x d -> sound T (set_descriptor d (set_calls (enqueues op' :: calls (descriptors y d)) (descriptors y d)) y)) as Hen.
  { intros y Hy Hyd. apply sound_update; auto; rewrite ?Hyd, ?Ho; cbn [calls set_calls]; rewrite ?Hc; try done; [by constructor | by intros ?%elem_of_nil]. }
  destruct (is_transfer (type op') && (requested op' =? 0)); [intros [= <-]; split; [by apply finish_ok | done] |].
  destruct (type op'), (address op') as [a |]; try (intros [= <-]; split; [by apply Hen | done]); [| done].
  destruct (sockets x !! handle (descriptors x d)) as [s |] eqn:Hs, connected as [n [s' |]]; try done; [| destruct n; done |].
  2: { destruct n; try done. intros [= <-]. split; [by apply finish_ok | done]. }
  destruct (connects a s n s') eqn:Ha; [| done]. cbn [negb]. set (h := handle (descriptors x d)) in *.
  assert (sound T (change h s s' x)) as Hx1 by (apply (backend_sound_extends T x); [done | by apply extends_change | apply wf_change, Hx]).
  destruct (change_fields h s s' x) as (E1 & _ & _ & _ & _ & _ & _ & E8).
  destruct (bool_decide (n = no_error)); [intros [= <-]; split; [by apply finish_ok | done] |].
  destruct (is_in_progress n); intros [= <-]; (split; [| done]); [apply Hen; [done | by rewrite E1] | by apply finish_ok].
Qed.

Lemma calls_open x d : wf x -> calls (descriptors x d) <> [] -> is_open (descriptors x d) = true.
Proof. intros Hw Hc. destruct (is_open (descriptors x d)) eqn:Ho; [done |]. by destruct Hc; apply wf_idle. Qed.

(** The next part of a call is taken, but for what empties the queues and what frees the handle. *)
Lemma pop_ok T x d p rest : sound T x -> calls (descriptors x d) = p :: rest -> p <> drains -> p <> invalidates ->
  sound T (pop_call d x) /\ descriptors (pop_call d x) d = set_calls rest (descriptors x d).
Proof.
  intros Hx Hc Hd Hi. assert (is_open (descriptors x d) = true) as Ho by (apply calls_open; [apply Hx | by rewrite Hc]).
  pose proof (wf_phase x (proj1 Hx) d) as Hp. rewrite Hc in Hp.
  assert (descriptors (pop_call d x) d = set_calls rest (descriptors x d)) as He by (unfold pop_call; by rewrite set_descriptor_at, Hc). split; [| done].
  unfold pop_call. rewrite Hc. cbn [tail]. apply sound_update; rewrite ?Hc; try done; cbn [calls set_calls].
  - inversion Hp; subst; constructor.
  - by inversion Hp; subst.
  - by inversion Hp; subst.
  - by inversion Hp; subst.
  - intros [<- | ?]%elem_of_cons; done.
Qed.

Lemma drains_ok T x d rest : sound T x -> calls (descriptors x d) = drains :: rest ->
  let y := set_calls rest (descriptors x d) in
  sound T (complete (map queued (map cancel_result (reads y ++ writes y))) (set_descriptor d (set_queue writing [] (set_queue reading [] y)) x)).
Proof.
  intros (Hw & Hk & Hb) Hc y. assert (is_open (descriptors x d) = true) as Ho by (apply calls_open; [done | by rewrite Hc]).
  pose proof (wf_phase x Hw d) as Hp. rewrite Hc in Hp.
  assert (forall c, queue c (set_queue writing [] (set_queue reading [] y)) = []) as Hq by (by intros []).
  split_and!.
  - apply wf_complete, wf_update; try done; cbn [calls set_queue set_calls y].
    + inversion Hp; subst; constructor.
    + intros _. unfold live. by rewrite Ho, Hc.
    + by rewrite Hc.
    + unfold is_open in *. cbn [handle set_queue set_calls y]. by rewrite Ho.
    + intros c. rewrite Hq. constructor.
  - apply (wakes_update T no_one); try done; [by right | intros c s _ Hn; by rewrite Hq in Hn].
  - intros d' c. cbn [completed enqueued complete set_completed descriptors set_descriptor set_descriptors]. rewrite completed_app, <- (Hb d' c), map_app, map_app, completed_app.
    assert (forall c0, completed_of d' c (map queued (map cancel_result (queue c0 (descriptors x d)))) = if bool_decide (d' = d /\ c = c0) then ids (queue c0 (descriptors x d)) else []) as Hof.
    { intros c0. destruct (is_result_sides d c0 (queue c0 (descriptors x d)) (map cancel_result (queue c0 (descriptors x d)))) as [Hs Hi]; [by apply wf_sides | |].
      - induction (queue c0 (descriptors x d)); constructor; done.
      - rewrite (completed_side d c0 _ Hs), Hi. done. }
    pose proof (Hof reading) as Hr. pose proof (Hof writing) as Hwr. cbn [queue] in Hr, Hwr. cbn [reads writes set_calls y]. rewrite Hr, Hwr. destruct (decide (d = d')) as [<- | Hn].
    + rewrite fn_lookup_insert, Hq. destruct c; cbn [queue]; [rewrite (bool_decide_eq_true_2 (d = d /\ reading = reading)), (bool_decide_eq_false_2 (d = d /\ reading = writing)) by (try intros [_ ?]; done)
        | rewrite (bool_decide_eq_false_2 (d = d /\ writing = reading)), (bool_decide_eq_true_2 (d = d /\ writing = writing)) by (try intros [_ ?]; done)]; cbn [app ids map]; by rewrite !app_nil_r, <- ?app_assoc.
    + rewrite fn_lookup_insert_ne by done. rewrite !bool_decide_eq_false_2 by (intros [? _]; congruence). by rewrite app_nil_r.
Qed.

Lemma erases_ok T x d : sound T x -> is_open (descriptors x d) = true -> calls (descriptors x d) = [shuts; invalidates] ->
  sound T (set_registered (delete (key (descriptors x d)) (registered x)) x).
Proof.
  intros (Hw & Hk & Hb) Ho Hc. split_and!; [| done | done]. pose proof Hw as []. split; cbn [descriptors set_registered next_key_ sockets polled registered]; try done.
  intros d' Hl He. assert (live (descriptors x d) = true) as Hld by (unfold live; by rewrite Ho, Hc).
  rewrite lookup_delete_ne; [auto |]. intros Hkey. assert (d = d') as <- by auto. by rewrite Hc in He.
Qed.

(** A descriptor that has no operations is forgotten. *)
Lemma wf_without x x' d : wf x -> (forall d', d' <> d -> descriptors x' d' = descriptors x d') -> phase d (calls (descriptors x' d)) ->
  live (descriptors x' d) = false -> (is_open (descriptors x' d) = false -> calls (descriptors x' d) = []) -> (forall c, queue c (descriptors x' d) = []) ->
  registered x' = registered x -> next_key_ x' = next_key_ x ->
  (forall d', d' <> d -> live (descriptors x d') = true -> sockets x' !! handle (descriptors x d') = sockets x !! handle (descriptors x d') /\
    polled x' !! handle (descriptors x d') = polled x !! handle (descriptors x d')) -> wf x'.
Proof.
  intros [] Ho Hp Hl Hi Hq Hr Hn Hs.
  assert (forall d', live (descriptors x' d') = true -> d' <> d /\ descriptors x' d' = descriptors x d') as Hlive.
  { intros d' L. destruct (decide (d' = d)) as [-> | Hd]; [congruence | split; auto]. }
  split; intros d'.
  - destruct (decide (d' = d)) as [-> | Hd]; [done | by rewrite Ho].
  - intros L. destruct (Hlive d' L) as [Hd E]. rewrite E in L |- *. destruct (Hs d' Hd L) as [-> ->]. auto.
  - intros L He. destruct (Hlive d' L) as [Hd E]. rewrite E in L, He |- *. rewrite Hr. auto.
  - intros d2 L L2. destruct (Hlive d' L) as [Hd E], (Hlive d2 L2) as [Hd2 E2]. rewrite E in L |- *. rewrite E2 in L2 |- *. auto.
  - intros d2 L L2. destruct (Hlive d' L) as [Hd E], (Hlive d2 L2) as [Hd2 E2]. rewrite E in L |- *. rewrite E2 in L2 |- *. auto.
  - intros L. destruct (Hlive d' L) as [Hd E]. rewrite E in L |- *. rewrite Hn. auto.
  - intros c. destruct (decide (d' = d)) as [-> | Hd]; [done | rewrite Ho by done; auto].
  - destruct (decide (d' = d)) as [-> | Hd]; [done | rewrite Ho by done; auto].
  - intros c. destruct (decide (d' = d)) as [-> | Hd]; [rewrite Hq; constructor | by rewrite Ho].
Qed.

Lemma wakes_without T x x' d : wf x -> wakes T no_one x -> (forall d', d' <> d -> descriptors x' d' = descriptors x d') -> (forall c, queue c (descriptors x' d) = []) ->
  (forall d', d' <> d -> live (descriptors x d') = true -> sockets x' !! handle (descriptors x d') = sockets x !! handle (descriptors x d') /\
    forall c, edged x (key (descriptors x d')) c -> edged x' (key (descriptors x d')) c) -> wakes T no_one x'.
Proof.
  intros Hw Hk Ho Hq Hs d' c s _ Hn Hsk Hr. destruct (decide (d' = d)) as [-> | Hd]; [by rewrite Hq in Hn |]. unfold wake. rewrite Ho in * by done.
  destruct (queue_live d' c x Hw Hn) as [Hl _]. destruct (Hs d' Hd Hl) as [E He]. rewrite E in Hsk.
  destruct (Hk d' c s (fun f => f) Hn Hsk Hr) as [? | ?]; [left; auto | by right].
Qed.

Lemma owes_without l x x' d : owes l x -> (forall d', d' <> d -> descriptors x' d' = descriptors x d') -> (forall c, queue c (descriptors x d) = []) -> (forall c, queue c (descriptors x' d) = []) ->
  completed x' = completed x -> enqueued x' = enqueued x -> owes l x'.
Proof.
  intros Hb Ho Hq Hq' Hc He d' c. rewrite Hc, He, <- Hb. destruct (decide (d' = d)) as [-> | Hd]; [by rewrite Hq, Hq' | by rewrite Ho].
Qed.

Lemma close_socket_fields h x : descriptors (close_socket h x) = descriptors x /\ registered (close_socket h x) = registered x /\ next_key_ (close_socket h x) = next_key_ x /\
  sockets (close_socket h x) = delete h (sockets x) /\ completed (close_socket h x) = completed x /\ enqueued (close_socket h x) = enqueued x /\ threads (close_socket h x) = threads x /\
  (forall h', h' <> h -> polled (close_socket h x) !! h' = polled x !! h') /\
  (forall k c, polled x !! h <> Some k -> edged x k c -> edged (close_socket h x) k c).
Proof.
  unfold close_socket. cbn [polled set_sockets]. destruct (polled x !! h) as [k |] eqn:Hp; split_and!; try done.
  - intros h' Hh. cbn [polled set_edges set_polled]. by rewrite lookup_delete_ne.
  - intros k' c Hk (e & He & Hf). exists e. cbn [edges set_edges set_polled set_sockets]. rewrite lookup_delete_ne by congruence. done.
Qed.

(** The close of a handle, and what forgets it: the first leaves the handle in the descriptor. *)
Lemma shuts_ok T x d : sound T x -> calls (descriptors x d) = [shuts; invalidates] -> sound T (close_socket (handle (descriptors x d)) (pop_call d x)).
Proof.
  intros (Hw & Hk & Hb) Hc. assert (is_open (descriptors x d) = true) as Ho by (apply calls_open; [done | by rewrite Hc]).
  assert (live (descriptors x d) = true) as Hl by (unfold live; by rewrite Ho, Hc). set (x' := close_socket _ _).
  destruct (close_socket_fields (handle (descriptors x d)) (pop_call d x)) as (E1 & E2 & E3 & E4 & E5 & E6 & E7 & E8 & E9). fold x' in E1, E2, E3, E4, E5, E6, E7, E8, E9.
  assert (forall c, queue c (descriptors x d) = []) as Hq by (intros c; apply wf_closed; [done | right; by rewrite Hc]).
  assert (descriptors x' d = set_calls [invalidates] (descriptors x d)) as Hd by (rewrite E1; unfold pop_call; by rewrite set_descriptor_at, Hc).
  assert (forall d', d' <> d -> descriptors x' d' = descriptors x d') as Hother by (intros d' Hn; rewrite E1; unfold pop_call; by rewrite set_descriptor_other).
  assert (forall c, queue c (descriptors x' d) = []) as Hq' by (intros c; rewrite Hd; by destruct c; cbn; apply (Hq reading) || apply (Hq writing)).
  split_and!.
  - apply (wf_without x x' d); auto; [rewrite Hd; constructor | rewrite Hd; unfold live, is_open; cbn; by rewrite andb_false_r | |].
    + rewrite Hd. unfold is_open in *. cbn [handle set_calls]. by rewrite Ho.
    + intros d' Hn L. assert (handle (descriptors x d') <> handle (descriptors x d)) as Hh by (intros He; apply Hn; by apply (wf_handles x Hw)).
      rewrite E4, E8, lookup_delete_ne by done. done.
  - apply (wakes_without T x x' d); auto. intros d' Hn L. assert (handle (descriptors x d') <> handle (descriptors x d)) as Hh by (intros He; apply Hn; by apply (wf_handles x Hw)).
    rewrite E4, lookup_delete_ne by done. split; [done |]. intros c He. apply E9; [| done]. cbn [polled pop_call set_descriptor set_descriptors].
    destruct (wf_polled x Hw d Hl) as [_ ->]. intros [= Hkey]. apply Hn. symmetry. by apply (wf_keys x Hw).
  - by apply (owes_without [] x x' d).
Qed.

Lemma invalidates_ok T x d : sound T x -> calls (descriptors x d) = [invalidates] ->
  let y := set_calls [] (descriptors x d) in sound T (set_descriptor d (set_socket invalid_socket (v6 y) false (key y) y) x).
Proof.
  intros (Hw & Hk & Hb) Hc y. set (x' := set_descriptor _ _ _).
  assert (forall c, queue c (descriptors x d) = []) as Hq by (intros c; apply wf_closed; [done | right; by rewrite Hc]).
  assert (descriptors x' d = set_socket invalid_socket (v6 y) false (key y) y) as Hd by (apply set_descriptor_at).
  assert (forall d', d' <> d -> descriptors x' d' = descriptors x d') as Hother by (intros d' Hn; by apply set_descriptor_other).
  assert (forall c, queue c (descriptors x' d) = []) as Hq' by (intros c; rewrite Hd; by destruct c; cbn; apply (Hq reading) || apply (Hq writing)).
  split_and!.
  - apply (wf_without x x' d); auto; [rewrite Hd; constructor | by rewrite Hd | by rewrite Hd].
  - by apply (wakes_without T x x' d).
  - by apply (owes_without [] x x' d).
Qed.

Lemma run_part_ok T d connected l x l' x' : sound T x -> run_part d connected l x = Some (l', x') -> sound T x' /\ threads x' = threads x.
Proof.
  intros Hx. unfold run_part. destruct (calls (descriptors x d)) as [| p rest] eqn:Hc; [done |].
  assert (is_open (descriptors x d) = true) as Ho by (apply calls_open; [apply Hx | by rewrite Hc]).
  pose proof (wf_phase x (proj1 Hx) d) as Hp. rewrite Hc in Hp.
  assert (descriptors (pop_call d x) d = set_calls rest (descriptors x d)) as He by (unfold pop_call; by rewrite set_descriptor_at, Hc).
  destruct p as [op | op | | | | |].
  - assert (rest = []) as -> by (by inversion Hp). assert (owner op = d) as Hop by (by inversion Hp). destruct (pop_ok T x d _ _ Hx Hc ltac:(done) ltac:(done)) as [Hx0 _].
    destruct (start op d connected (pop_call d x)) as [x1 |] eqn:Hs; [| done]. intros [= <- <-].
    apply (start_ok T op d connected (pop_call d x) x1); [done | by rewrite He | by rewrite He | done | done].
  - assert (rest = []) as -> by (by inversion Hp). assert (owner op = d) as Hop by (by inversion Hp). destruct (pop_ok T x d _ _ Hx Hc ltac:(done) ltac:(done)) as [Hx0 _].
    apply (enqueue_ok T op d l (pop_call d x)); [done | by rewrite He | by rewrite He | done].
  - destruct (pop_ok T x d _ _ Hx Hc ltac:(done) ltac:(done)) as [Hx0 _]. cbn zeta. rewrite He. intros [= <- <-]. split; [| done].
    apply sound_update; rewrite ?He; try done; try (by intros []); cbn [calls set_calls set_cancels]; inversion Hp; subst; constructor.
  - cbn zeta. rewrite !He. intros [= <- <-]. split; [| done]. apply (backend_sound_same T (complete (map queued (map cancel_result (reads (descriptors x d) ++ writes (descriptors x d))))
      (set_descriptor d (set_queue writing [] (set_queue reading [] (set_calls rest (descriptors x d)))) x))); try done; [by apply drains_ok |].
    intros d'. change (descriptors (set_descriptor d (set_queue writing [] (set_queue reading [] (set_calls rest (descriptors x d)))) (pop_call d x)) d' =
      descriptors (set_descriptor d (set_queue writing [] (set_queue reading [] (set_calls rest (descriptors x d)))) x) d').
    destruct (decide (d = d')) as [<- | Hn]; [by rewrite !set_descriptor_at |]. rewrite !set_descriptor_other by done. unfold pop_call. by rewrite set_descriptor_other.
  - assert (rest = [shuts; invalidates]) as -> by (by inversion Hp). destruct (pop_ok T x d _ _ Hx Hc ltac:(done) ltac:(done)) as [Hx0 _]. cbn zeta. intros [= <- <-]. split; [| done].
    apply (erases_ok T (pop_call d x) d); [done | by rewrite He | by rewrite He].
  - assert (rest = [invalidates]) as -> by (by inversion Hp). cbn zeta. rewrite He. intros [= <- <-]. split; [by apply shuts_ok |].
    by pose proof (close_socket_fields (handle (set_calls [invalidates] (descriptors x d))) (pop_call d x)) as (_ & _ & _ & _ & _ & _ & ? & _).
  - assert (rest = []) as -> by (by inversion Hp). cbn zeta. rewrite He. intros [= <- <-]. split; [| done].
    apply (backend_sound_same T (set_descriptor d (set_socket invalid_socket (v6 (set_calls [] (descriptors x d))) false (key (set_calls [] (descriptors x d))) (set_calls [] (descriptors x d))) x)); try done; [by apply invalidates_ok |].
    intros d'. destruct (decide (d = d')) as [<- | Hn]; [by rewrite !set_descriptor_at |]. rewrite !set_descriptor_other by done. unfold pop_call. by rewrite set_descriptor_other.
Qed.

Lemma open_ok T d six created control x : sound T x -> is_unused (descriptors x d) = true -> fresh_socket created x = true ->
  sound T (open d six created control x).2 /\ threads (open d six created control x).2 = threads x.
Proof.
  intros Hx Hu Hf. destruct created as [n | [h s]]; [done |]. cbn [open]. cbn in Hf. pose proof (add_ok d h six false control s x Hu Hf) as Hadd. cbn zeta in Hadd.
  destruct (add d control _) as [n x1]. destruct Hadd as [-> Hadd]. destruct (bool_decide_reflect (control = no_error)) as [-> | Hn].
  - destruct Hadd as [Hj Hk]. cbn [snd]. split; [| apply Hk]. apply (backend_sound_extends T x); [done | by apply (joins_extends d h) | apply (wf_joins d h x); [apply Hx | done]].
  - pose proof Hadd as [R1 (R2 & R2' & R2'') R3 R4 R5 R6 R7]. assert (polled x1 !! h = None) as Hp by (rewrite R6; by apply is_free_spec in Hf as (_ & _ & ?)).
    cbn [snd]. rewrite close_socket_unpolled by done. destruct (refused_ok d h x x1 (invalidate d (set_sockets (delete h (sockets x1)) x1)) Hu Hadd) as [Ha He]; try done.
    + intros d' Hd. unfold invalidate. by rewrite set_descriptor_other.
    + unfold invalidate. rewrite set_descriptor_at. by apply is_unused_invalidated.
    + split; [| apply (extends_threads _ _ He)]. apply (backend_sound_extends T x); [done | done | apply (wf_alike x); [apply Hx | done]].
Qed.

(** *** Waits *)

Lemma fold_delete_lookup {A} (events : list event) (m : gmap nat A) k : foldr (fun e m => delete e.1 m) m events !! k = if bool_decide (k ∈ map fst events) then None else m !! k.
Proof.
  induction events as [| e events IH]; cbn [foldr map]; [by rewrite bool_decide_eq_false_2 by apply not_elem_of_nil |]. destruct (decide (e.1 = k)) as [<- | Hn].
  - rewrite lookup_delete_eq, bool_decide_eq_true_2; [done | by left].
  - rewrite lookup_delete_ne, IH by done. assert (bool_decide (k ∈ e.1 :: map fst events) = bool_decide (k ∈ map fst events)) as ->; [| done].
    apply bool_decide_ext. rewrite elem_of_cons. split; [intros [? | ?]; [congruence | done] | by right].
Qed.

Lemma is_event_flag x e h s c : is_event x e = true -> polled x !! h = Some e.1 -> sockets x !! h = Some s -> edged x e.1 c -> ready c s = true -> flag c e.2 = true.
Proof.
  unfold is_event. intros Hev Hp Hs (e0 & He & Hf) Hr. rewrite He, forallb_forall in Hev.
  assert (In (h, e.1) (map_to_list (polled x))) as Hin by (apply list_elem_of_In; by apply elem_of_map_to_list).
  specialize (Hev _ Hin). cbn [fst snd] in Hev. rewrite bool_decide_eq_true_2, Hs in Hev by done. cbn [negb orb] in Hev. rewrite forallb_forall in Hev.
  assert (In c [reading; writing]) as Hc by (destruct c; cbn; auto). specialize (Hev _ Hc). by rewrite Hf, Hr in Hev.
Qed.

Lemma polls_ok n events x : sound (threads x) x -> threads x n = waiting -> forallb (is_event x) events = true ->
  sound (<[n := handling events]> (threads x)) (set_edges (foldr (fun e m => delete e.1 m) (edges x) events) x).
Proof.
  intros (Hw & Hk & Hb) Hn Hev. split_and!; [by apply (wf_same x) | | done]. intros d c s Hp Hq Hs Hr. cbn [descriptors sockets set_edges] in *.
  destruct (queue_live d c x Hw Hq) as [Hl _]. destruct (wf_polled x Hw d Hl) as [_ Hpo].
  unfold wake. cbn [descriptors set_edges]. destruct (Hk d c s Hp Hq Hs Hr) as [He | [(m & Hm) | Hd]]; [| | by right; right].
  - destruct (decide (key (descriptors x d) ∈ map fst events)) as [Hin | Hout].
    + apply list_elem_of_fmap in Hin as ([k e] & Hkey & Hin). right; left. exists n. rewrite fn_lookup_insert. exists e. cbn [fst] in Hkey. rewrite Hkey. split; [done |].
      rewrite forallb_forall in Hev. apply list_elem_of_In in Hin. apply (is_event_flag x (k, e) (handle (descriptors x d)) s); cbn [fst]; [auto | congruence | done | by rewrite <- Hkey | done].
    + left. destruct He as (e & He & Hf). exists e. cbn [edges set_edges]. rewrite fold_delete_lookup, bool_decide_eq_false_2 by done. done.
  - right; left. exists m. destruct (decide (n = m)) as [<- | Hne]; [by rewrite Hn in Hm | by rewrite fn_lookup_insert_ne].
Qed.

(** A thread that has found the descriptor of an event, or nothing. *)
Lemma looks_ok n k e events x : sound (threads x) x -> threads x n = handling ((k, e) :: events) ->
  sound (<[n := match registered x !! k with Some d => found d e events | None => handling events end]> (threads x)) x.
Proof.
  intros (Hw & Hk & Hb) Hn. split_and!; [done | | done]. intros d c s Hp Hq Hs Hr. destruct (queue_live d c x Hw Hq) as [Hl Hdr].
  destruct (Hk d c s Hp Hq Hs Hr) as [He | [(m & Hm) | Hd]]; [by left | | by right; right]. right; left. exists m.
  destruct (decide (n = m)) as [<- | Hne]; [| by rewrite fn_lookup_insert_ne]. rewrite Hn in Hm. rewrite fn_lookup_insert. destruct Hm as (e' & [[= Hkey ->] | Hin]%elem_of_cons & Hf).
  - rewrite <- Hkey, (wf_registered x Hw d Hl); [by left |]. destruct (wf_phase x Hw d); done.
  - destruct (registered x !! k); [right | ]; by exists e'.
Qed.

Lemma threads_handle T (x : t) n d e events : wakes T no_one x -> T n = found d e events -> wakes (<[n := handling events]> T) (exempt d (fun c => flag c e)) x.
Proof.
  intros Hk Hn d' c s Hp Hq Hs Hr. destruct (Hk d' c s (fun f => f) Hq Hs Hr) as [He | [(m & Hm) | Hd]]; [by left | | by right; right]. right; left. exists m.
  destruct (decide (n = m)) as [<- | Hne]; [| by rewrite fn_lookup_insert_ne]. rewrite Hn in Hm. rewrite fn_lookup_insert. destruct Hm as [[-> Hf] | Hm]; [by destruct Hp | done].
Qed.

Lemma sound_threads T f x : sound T x -> sound T (set_threads f x).
Proof. intros Hx. by apply (backend_sound_same T x). Qed.

Lemma step_ok m x x' : sound (threads x) x -> step m x = Some x' -> sound (threads x') x'.
Proof.
  intros Hx. destruct m as [h s' | n events | n | n l | d six created control | d r | d connected l]; cbn [step].
  - destruct (sockets x !! h) as [s |] eqn:Hs; [| done]. intros [= <-]. destruct (change_fields h s s' x) as (_ & _ & _ & _ & _ & _ & _ & ->).
    apply (backend_sound_extends _ x); [done | by apply extends_change | apply wf_change, Hx].
  - destruct (threads x n) eqn:Hn; try done. destruct (_ && _ && _) eqn:Hok; [| done]. apply andb_true_iff in Hok as [_ Hev]. intros [= <-]. apply sound_threads. exact (polls_ok n events x Hx Hn Hev).
  - destruct (threads x n) as [| [| [k e] events] |] eqn:Hn; try done; intros [= <-]; apply sound_threads; [| exact (looks_ok n k e events x Hx Hn)].
    destruct Hx as (Hw & Hk & Hb). split_and!; [done | | done]. intros d c s Hp Hq Hs Hr. destruct (Hk d c s Hp Hq Hs Hr) as [He | [(m & Hm) | Hd]]; [by left | | by right; right].
    right; left. exists m. cbn [threads set_thread set_threads]. destruct (decide (n = m)) as [<- | Hne]; [rewrite Hn in Hm; destruct Hm as (? & ?%elem_of_nil & _); done | by rewrite fn_lookup_insert_ne].
  - destruct (threads x n) as [| | d e events] eqn:Hn; try done. destruct (run_ready d e l x) as [[[| z l'] x1] |] eqn:Hr; try done. intros [= <-]. destruct Hx as (Hw & Hk & Hb).
    destruct (run_ready_ok (<[n := handling events]> (threads x)) d e l x [] x1 Hw (threads_handle _ x n d e events Hk Hn) Hb Hr) as (H1 & H2 & H3 & H4).
    apply sound_threads. cbn [threads set_thread set_threads]. rewrite H4. by split_and!.
  - destruct (is_unused (descriptors x d) && fresh_socket created x) eqn:Hok; [| done]. apply andb_true_iff in Hok as [Hu Hf]. intros [= <-].
    destruct (open_ok (threads x) d six created control x Hx Hu Hf) as [H1 H2]. by rewrite H2.
  - destruct (_ && _ && _) eqn:Hok; [| done]. apply andb_true_iff in Hok as [[Ho Hc%bool_decide_eq_true_1]%andb_true_iff Hf]. apply nil_length_inv in Hc. intros [= <-].
    cbn [threads set_descriptor set_descriptors]. apply sound_update; rewrite ?Hc; try done; try (by intros []); try (by destruct r); try (by intros ?%elem_of_nil).
    destruct r; cbn in *; constructor. by apply bool_decide_eq_true_1 in Hf.
  - destruct (run_part d connected l x) as [[[| z l'] x1] |] eqn:Hr; try done. intros [= <-]. destruct (run_part_ok (threads x) d connected l x [] x1 Hx Hr) as [H1 H2]. by rewrite H2.
Qed.

Lemma backend_sound_initial : sound (threads initial) initial.
Proof.
  split_and!.
  - split; try done; intros; try constructor; try (by destruct c).
  - intros d c s _ Hq. by destruct c.
  - intros d c. by destruct c.
Qed.

Lemma backend_reachable_sound x : reachable x -> sound (threads x) x.
Proof.
  intros [moves Hm]. revert Hm. unfold run. assert (forall l y, sound (threads y) y -> fold_left (fun x m => match x with Some x => step m x | None => None end) l (Some y) = Some x -> sound (threads x) x) as Hall.
  { induction l as [| m l IH]; intros y Hy; cbn [fold_left]; [by intros [= <-] |]. destruct (step m y) as [y' |] eqn:Hs.
    - apply IH. by apply (step_ok m y).
    - assert (fold_left (fun x m => match x with Some x => step m x | None => None end) l None = None) as -> by (clear; by induction l). done. }
  intros Hm. by apply (Hall moves initial backend_sound_initial).
Qed.

(** C21: in every interleaving of the threads that wait and of the calls of the
    owners of sockets, the operations of each side of a socket complete in the
    order in which they reached its queue, each once: what has completed, then what
    waits, is what was queued.  Once its owner has canceled to close it, and when it
    is closed, nothing waits, so that all that was queued has completed. *)
Theorem operations_in_order (x : t) (Hx : reachable x) (d : nat) (c : side) :
  completed_of d c (completed x) ++ ids (queue c (descriptors x d)) = enqueued_of d c (enqueued x) /\
  (is_open (descriptors x d) = false \/ drained (calls (descriptors x d)) = true -> queue c (descriptors x d) = []).
Proof. destruct (backend_reachable_sound x Hx) as (Hw & _ & Hb). split; [rewrite <- (Hb d c); by rewrite app_nil_r | apply (wf_closed x Hw)]. Qed.

(** C7: with edge triggered events no wake-up is lost.  A socket with operations
    that wait is open, its own, polled and registered; when its side is ready, a
    change that no wait has returned, an event in the hands of a thread, or a
    cancel will perform them.  So when no change is pending, no thread has an event
    and the owner is not in a call, no operation waits that could complete. *)
Theorem reactor_wakes (x : t) (Hx : reachable x) (d : nat) (c : side) (Hq : queue c (descriptors x d) <> []) :
  exists s, sockets x !! handle (descriptors x d) = Some s /\ polled x !! handle (descriptors x d) = Some (key (descriptors x d)) /\
    registered x !! key (descriptors x d) = Some d /\
    (forall d', live (descriptors x d') = true -> handle (descriptors x d') = handle (descriptors x d) -> d' = d) /\
    (ready c s = true -> wake (threads x) x d c) /\
    (edges x = ∅ -> (forall n, threads x n = waiting) -> calls (descriptors x d) = [] -> ready c s = false).
Proof.
  destruct (backend_reachable_sound x Hx) as (Hw & Hk & _). destruct (queue_live d c x Hw Hq) as [Hl Hd]. destruct (wf_polled x Hw d Hl) as [[s Hs] Hp].
  exists s. split_and!; [done | done | | | by apply (Hk d c s (fun f => f)) |].
  - apply (wf_registered x Hw d Hl). destruct (wf_phase x Hw d); done.
  - intros d' L He. by apply (wf_handles x Hw).
  - intros He Ht Hc. destruct (ready c s) eqn:Hr; [| done]. destruct (Hk d c s (fun f => f) Hq Hs Hr) as [(e & Hx' & _) | [(n & Hn) | Hdr]].
    + by rewrite He in Hx'.
    + by rewrite Ht in Hn.
    + rewrite Hc in Hdr. by apply elem_of_nil in Hdr.
Qed.

End backend.

(** ** An instance: sockets that are their readiness *)
Module sides.

#[export] Instance system : System := {|
  socket := bool * bool;
  target := unit;
  ready c s := match c with reading => s.1 | writing => s.2 end;
  answers k s a s' :=
    match a with
    | unwritable => bool_decide (k = connect) && negb s'.2
    | errs n => negb (is_would_block n) || negb (match side_of k with reading => s'.1 | writing => s'.2 end)
    | _ => true
    end;
  connects _ _ _ _ := true
|}.

#[export] Instance laws : SystemLaws.
Proof.
  split. intros k s a s' Ha Hb. destruct a as [| | | | n]; try done.
  - apply andb_true_iff in Ha as [->%bool_decide_eq_true_1 Hs]. by apply negb_true_iff in Hs.
  - cbn in Ha, Hb. rewrite Hb in Ha. by apply negb_true_iff in Ha.
Qed.

Definition reads_of (n : nat) : operation := mk_operation n read 0 0 None 16 0 0 error.success.

(** Two reads wait, then data arrives. *)
Definition arrival : list move := [
  opens 0 false (inr (5, (false, true))) no_error;
  requests 0 (start_request (reads_of 1)); continues 0 (no_error, None) []; continues 0 (no_error, None) [(errs EINTR, (false, true)); (errs EAGAIN, (false, true))];
  requests 0 (start_request (reads_of 2)); continues 0 (no_error, None) []; continues 0 (no_error, None) [];
  moves_system 5 (true, true)].

(** A thread performs both, with a cancel between its wait and its lock. *)
Definition delivery : list move := arrival ++ [
  polls 1 [(1%nat, (true, true))]; looks 1; readies 1 [(transferred 3, (true, true)); (errs EAGAIN, (false, true))];
  requests 0 cancel_request; continues 0 (no_error, None) []; continues 0 (no_error, None) []].

Definition arrived : t := default initial (run arrival initial).
Definition delivered : t := default initial (run delivery initial).
End sides.

#[local] Existing Instances sides.system sides.laws.

Lemma operations_in_order_witness : completed_of 0 reading (completed sides.delivered) ++ ids (queue reading (descriptors sides.delivered 0)) = enqueued_of 0 reading (enqueued sides.delivered) /\
  enqueued_of 0 reading (enqueued sides.delivered) = [1%nat; 2%nat].
Proof. split; [| vm_compute; reflexivity]. apply (fun H => proj1 (operations_in_order sides.delivered H 0 reading)). exists sides.delivery. vm_compute. reflexivity. Defined.

Lemma reactor_wakes_witness : wake (threads sides.arrived) sides.arrived 0 reading.
Proof.
  destruct (reactor_wakes sides.arrived) with (d := 0%nat) (c := reading) as (s & Hs & _ & _ & _ & Hr & _).
  - exists sides.arrival. vm_compute. reflexivity.
  - vm_compute. discriminate.
  - apply Hr. vm_compute in Hs. injection Hs as <-. reflexivity.
Defined.
End backend.
