(* ===== verification/IoSocket.v ===== *)
(** * IoSocket: sockets, acceptors and the resolver

    Models [src/io/socket.cpp] as it is built on posix systems: what its
    asynchronous operations start, its blocking operations, the acceptor, the
    resolution of names, and the connect to the first endpoint of a range.  A call of
    the system is its result, and a loop over calls takes their results in turn. *)

From S2P Require Import Prelude.
From S2P Require Import Errors.
From S2P Require Import IoNative.
From S2P Require Import IoBackend.

Module io_socket.
Import native.

(** ** Asynchronous operations *)

Definition maximum : Z := 2 ^ 64 - 1.
Definition ceilinged_add (a b : Z) : Z := (a + b) `min` maximum.

Definition total_size (buffers : list Z) : Z := fold_left ceilinged_add buffers 0.

(** A failure that is posted, or an operation that the backend starts. *)
Inductive initiation {A : Type} := posts (ec : code) | starts_operation (a : A).
Arguments initiation : clear implicits.

Section initiations.
Context `{Sys : backend.System}.
Import backend.

Definition make_operation (n d p : nat) (k : kind) (a : option target) (size : Z) : operation := mk_operation n k d p a size 0 0 error.success.

Definition do_transfer (k : kind) (n d : nat) (buffers : list Z) (x : t) : initiation operation :=
  if negb (is_open (descriptors x d)) then posts error.bad_stream else starts_operation (make_operation n d 0 k None (total_size buffers)).

Definition do_read : nat -> nat -> list Z -> t -> initiation operation := do_transfer read.
Definition do_write : nat -> nat -> list Z -> t -> initiation operation := do_transfer write.

(** A socket that is closed is first opened, for the family of the endpoint. *)
Definition async_connect (n d : nat) (six : bool) (point : target) (created : native + Z * socket) (control : native) (x : t) : t * initiation operation :=
  let connect x := (x, starts_operation (make_operation n d 0 connect (Some point) 0)) in
  if is_open (descriptors x d) then connect x else
  let '(e, x) := open d six created control x in
  if failed (to_code e) then (x, posts (to_code e)) else connect x.

Definition async_accept (n d p : nat) (x : t) : initiation operation :=
  if negb (is_open (descriptors x d)) || is_open (descriptors x p) then posts (if is_open (descriptors x d) then error.connect_failed : code else error.bad_stream : code)
  else starts_operation (make_operation n d p accept None 0).

(** [socket::cancel] and [socket::close]: the call of the backend that each makes, and its result. *)
Definition cancel (d : nat) (x : t) : option request * code :=
  if is_open (descriptors x d) then (Some cancel_request, error.success : code) else (None, error.bad_stream : code).

Definition close (d : nat) (x : t) : option request * code := (if is_open (descriptors x d) then Some close_request else None, error.success : code).
End initiations.

(** ** Blocking operations *)

(** The result of [readv], [sendmsg], [accept] or [connect]. *)
Inductive result {A : Type} := gave (a : A) | refused (n : native).
Arguments result : clear implicits.

(** [wait_ready]: the error of [poll], if it has one. *)
Definition wait_ready (polled : native) : bool := bool_decide (polled = no_error).

(** The loop of the blocking operations: a call that was interrupted is made
    again, and one that would block is, once the socket is ready.  Each call has the
    result of the wait that follows it.  [None]: it has not returned. *)
Fixpoint blocking {A B} (skips : native -> bool) (non_blocking : bool) (returns : A -> B) (refuses : code -> B) (calls : list (result A * native)) : option B :=
  match calls with
  | [] => None
  | (gave a, _) :: _ => Some (returns a)
  | (refused n, polled) :: calls =>
    if skips n then blocking skips non_blocking returns refuses calls else
    if is_would_block n && negb non_blocking then
      if wait_ready polled then blocking skips non_blocking returns refuses calls else Some (refuses (to_code polled))
    else Some (refuses (to_code n))
  end.

Definition is_interrupt (n : native) : bool := bool_decide (n = EINTR).
Definition is_skipped (n : native) : bool := bool_decide (n = EINTR) || bool_decide (n = ECONNABORTED).

Definition do_read_some (requested : Z) (non_blocking : bool) (calls : list (result Z * native)) : option (Z * code) :=
  if requested =? 0 then Some (0, error.success : code) else
  blocking is_interrupt non_blocking (fun n => (n, if n =? 0 then error.peer_disconnect : code else error.success : code)) (fun ec => (0, ec)) calls.

Definition do_write_some (requested : Z) (non_blocking : bool) (calls : list (result Z * native)) : option (Z * code) :=
  if requested =? 0 then Some (0, error.success : code) else
  blocking is_interrupt non_blocking (fun n => (n, error.success : code)) (fun ec => (0, ec)) calls.

(** A connection that is accepted is made nonblocking, and registered for the peer. *)
Definition accept (listening peer : bool) (non_blocking : bool) (calls : list (result (native * native) * native)) : option code :=
  if negb listening || peer then Some (if listening then error.connect_failed : code else error.bad_stream : code) else
  blocking is_skipped non_blocking
    (fun '(flags, control) => to_code (if bool_decide (flags = no_error) then control else flags)) (fun ec => ec) calls.

(** [opened]: the result of the open of a socket that was closed.  [option]: the error that the connect ended with. *)
Definition connect (opened connected : native) (non_blocking : bool) (polled option : native) : code :=
  if failed (to_code opened) then to_code opened else
  if bool_decide (connected = no_error) then error.success : code else
  if negb (is_in_progress connected) || non_blocking then to_code connected else
  if negb (wait_ready polled) then to_code polled else to_code option.

(** ** The acceptor *)

(** The steps of the constructor, in turn; a failure closes it. *)
Definition first_failure (results : list native) : code := foldr (fun n ec => if failed (to_code n) then to_code n else ec) (error.success : code) results.

Definition make_acceptor (opened option bound listened : native) : bool := negb (failed (first_failure [opened; option; bound; listened])).

(** ** Resolution *)

(** The results of [getaddrinfo] that the code names. *)
Inductive resolution := EAI_NONE | EAI_NODATA | EAI_FAIL | EAI_OTHER.

Definition resolve_code (r : resolution) : code :=
  match r with EAI_NONE => error.success | EAI_NODATA | EAI_FAIL => error.operation_failed | EAI_OTHER => error.resolve_failed end.

Definition is_internet (a : socket_address) : bool := match sin_family a with AF_INET | AF_INET6 => true | _ => false end.

(** A resolution that began before a cancel is canceled, whenever it completes. *)
Definition complete_resolve (unspecified : endpoint) (started cancels : nat) (r : resolution) (results : list socket_address) : code * list endpoint :=
  let range := map (to_endpoint unspecified) (List.filter is_internet results) in
  let value := if bool_decide (cancels <> started) then error.operation_canceled : code else resolve_code r in
  (value, if failed value then [] else range).

(** ** The connect to a range *)

(** How an attempt ended, and whether the socket was then open. *)
Record attempt := mk_attempt { ended : code; left_open : bool }.

(** [range_connect::next] and [handle]: the endpoints that are left, the attempts
    that are made, and the last failure. *)
Fixpoint range_connect (range : list endpoint) (attempts : list attempt) (last : code) : option (code * option endpoint) :=
  match range with
  | [] => Some (if failed last then last else error.resolve_failed : code, None)
  | point :: range =>
    match attempts with
    | [] => None
    | a :: attempts =>
      if negb (failed (ended a)) || bool_decide (ended a = (error.operation_canceled : code)) then Some (ended a, if failed (ended a) then None else Some point) else
      if negb (left_open a) then Some (error.operation_canceled : code, None) else
      range_connect range attempts (ended a)
    end
  end.

(** The attempt of [socket::async_connect] after the close: the socket is open
    unless its open failed. *)
Definition attempt_of (opened : native) (connected : code) : attempt :=
  if failed (to_code opened) then mk_attempt (to_code opened) false else mk_attempt connected true.

(** ** Properties *)

(** A blocking read gives bytes, or a failure. *)
Lemma do_read_some_result requested non_blocking calls n ec : 0 < requested -> Forall (fun c => match c.1 with gave n => 0 <= n | refused n => n <> no_error end) calls ->
  do_read_some requested non_blocking calls = Some (n, ec) -> (failed ec = false /\ 0 < n) \/ (failed ec = true /\ n = 0).
Proof.
  intros Hr Hc. unfold do_read_some. rewrite (proj2 (Z.eqb_neq _ _)) by lia. induction Hc as [| [[k | e] w] calls Hk _ IH]; cbn [blocking]; [done | |]; cbn [fst] in Hk.
  - intros [= <- <-]. destruct (Z.eqb_spec k 0); [right | left; split; [done | lia]]. by split.
  - destruct (is_interrupt e); [done |]. destruct (is_would_block e && negb non_blocking).
    + unfold wait_ready. destruct (bool_decide_reflect (w = no_error)) as [-> | Hn]; [done |]. intros [= <- <-]. right. by rewrite to_code_failed, bool_decide_eq_false_2.
    + intros [= <- <-]. right. by rewrite to_code_failed, bool_decide_eq_false_2.
Qed.

(** An interrupted wait is not made again, as an interrupted call is. *)
Lemma interrupted_wait_fails : do_read_some 16 false [(refused EAGAIN, EINTR)] = Some (0, error.invalid_configuration : code) /\
  do_read_some 16 false [(refused EINTR, no_error); (gave 3, no_error)] = Some (3, error.success : code).
Proof. split; reflexivity. Qed.

(** A failed attempt, after which the next endpoint is tried. *)
Definition goes_on (a : attempt) : Prop := failed (ended a) = true /\ ended a <> (error.operation_canceled : code) /\ left_open a = true.

(** An endpoint of a family that the system does not have ends the connect. *)
Lemma unsupported_family_cancels point range attempts last : range_connect (point :: range) (attempt_of EAFNOSUPPORT (error.success : code) :: attempts) last =
  Some (error.operation_canceled : code, None).
Proof. reflexivity. Qed.

(** How a connect to a range ends, after attempts that failed. *)
Definition ends (range : list endpoint) (attempts tried : list attempt) (otherwise : code) (r : code * option endpoint) : Prop :=
  (exists a more, attempts = tried ++ a :: more /\ failed (ended a) = false /\ r = (ended a, range !! length tried)) \/
  (exists a more, attempts = tried ++ a :: more /\ failed (ended a) = true /\ (ended a = (error.operation_canceled : code) \/ left_open a = false) /\
    r = (error.operation_canceled : code, None)) \/
  (attempts = tried /\ r = (default otherwise (ended <$> last tried), None)).

Lemma range_connect_ends range attempts before : length attempts = length range ->
  exists tried r, range_connect range attempts before = Some r /\ Forall goes_on tried /\
    ends range attempts tried (if failed before then before else error.resolve_failed : code) r.
Proof.
  revert attempts before. induction range as [| point range IH]; intros [| a attempts] before Hl; try done.
  - exists [], (if failed before then before else error.resolve_failed : code, None). split_and!; [done | done |]. by right; right.
  - cbn [range_connect]. destruct (failed (ended a)) eqn:Hf; cbn [negb orb].
    + destruct (bool_decide_reflect (ended a = (error.operation_canceled : code))) as [Hc | Hc].
      * exists [], (ended a, None). split_and!; [done | done |]. right; left. exists a, attempts. rewrite Hc in *. split_and!; try done. by left.
      * destruct (left_open a) eqn:Ho; cbn [negb].
        -- destruct (IH attempts (ended a)) as (tried & r & Hr & Ht & He); [by injection Hl |]. exists (a :: tried), r. rewrite Hf in He. split_and!; [done | by constructor |].
           destruct He as [(b & more & -> & Hb & ->) | [(b & more & -> & Hb & Hor & ->) | [-> ->]]]; [left; by exists b, more | right; left; by exists b, more | right; right].
           split; [done |]. f_equal. destruct tried as [| b tried _] using rev_ind; [done |]. by rewrite app_comm_cons, !last_snoc.
        -- eexists [], _. split_and!; [done | done |]. right; left. exists a, attempts. split_and!; try done. by right.
    + exists [], (ended a, Some point). split_and!; [done | done |]. left. by exists a, attempts.
Qed.

(** The connect to a range tries its endpoints in turn, and ends once, with an
    attempt for each.  It connects to the first that accepts; it is canceled by an
    attempt that was canceled, or that left the socket closed; else it fails with
    the last failure, or because the range was empty. *)
Theorem range_connect_first (range : list endpoint) (attempts : list attempt) (Hl : length attempts = length range) :
  exists tried r, range_connect range attempts error.success = Some r /\ Forall goes_on tried /\ ends range attempts tried error.resolve_failed r.
Proof. exact (range_connect_ends range attempts error.success Hl). Qed.

Definition local (n : Z) : endpoint := mk_endpoint (ipv4 [127; 0; 0; n]) 8333.

Lemma range_connect_first_witness : exists tried r,
  range_connect [local 1; local 2; local 3] [attempt_of no_error error.connection_refused; attempt_of no_error error.success; attempt_of no_error error.success] error.success = Some r /\
  Forall goes_on tried /\
  ends [local 1; local 2; local 3] [attempt_of no_error error.connection_refused; attempt_of no_error error.success; attempt_of no_error error.success] tried error.resolve_failed r.
Proof. apply (range_connect_first [local 1; local 2; local 3]). reflexivity. Defined.

End io_socket.
